(* ===== verification/_CoqProject ===== *)
-Q . S2P
Prelude.v
Crypto.v
Capability.v
CapabilityWire.v
Authority.v
Wal.v
Storage.v
DebugFmt.v
Ledger.v
Events.v
F32.v
F32Facts.v
Json.v
Explainability.v
KnowledgeGraph.v
NodeStore.v
Recovery.v
SystemImage.v
ModelRouter.v
Scheduler.v
AgentRuntime.v
Telemetry.v
Federation.v
KgSync.v
Update.v
Privacy.v
Erasure.v
Security.v
Supervisor.v
PluginReview.v
Plugins.v
Devices.v
Identity.v
Coordination.v
CoordinationRuns.v
Text.v
Memory.v
MemoryErasure.v
Intent.v
IntentPlans.v
SemanticFs.v
FsPaths.v
Context.v
ContextBundles.v
Ipc.v
IpcTransport.v
