(* ===== verification/Prelude.v ===== *)
(** * Hyperion OS: the trusted core

    Hyperion is an operating system built as a workspace of Rust crates around a
    few services that everything else goes through. This library models the core
    of those services and proves what makes them correct. Definitions follow the
    sources under [src/crates/]: a Rust function is a function of the state it
    locks (taken and returned), [Result] and [Option] are values, machine words are
    numbers with their wrap-around or saturation written out, and hash maps are
    finite maps whose iteration order is left open.

    ** The parts and how they interact

    - [Capability] models [hyperion-capability] ([types.rs], [token.rs],
      [table.rs], [revocation.rs], [monitor.rs]): tokens with rights, object,
      generation and expiry, the table of issued records, the forest of
      derivations, and every operation of the monitor. [CapabilityWire] models
      [wire.rs]: claims that travel, and authenticating them, signed or not.
    - [Authority] is the interface between the monitor and the services: the one
      call [check_rights_ok_result] every service makes first. The services are
      proved against the class; the monitor is an instance, and so is a server
      that trusts the rights a token shows, which the examples run on.
    - [Crypto] holds the classes for the third-party primitives (signatures,
      hashing, authenticated encryption) with the behaviour their documentation
      promises, and [hyperion-crypto]'s [sealed_stream.rs] on top of them.
    - [Wal] and [Storage] model [hyperion-storage]: [wal.rs] down to the bytes of
      the file (lines, UTF-8, hexadecimal, torn writes, compaction), and
      [engine.rs], the versioned objects kept in it.
    - [DebugFmt] and [Ledger] model [hyperion-observability]'s audit ledger
      ([types.rs], [ledger.rs]): the hash chain over Rust's debug format, its
      anchors, and verification.
    - [Events] models [hyperion-events] ([types.rs], [bus.rs]): topics, mailboxes
      under the four backpressure policies, durable subscriptions over a storage
      engine, and the interleavings of threads.
    - [F32] is Rust's [f32] as the Standard Library's [spec_float], and
      [F32Facts] what the schedulers need of it. [KnowledgeGraph] models
      [hyperion-knowledge-graph] ([types.rs], [index.rs], [decay.rs], [graph.rs]):
      owned nodes and edges kept in a storage engine, the index rebuilt from its
      log, and the notifications to the bus.
    - [NodeStore] is the interface between the graph and the services that keep
      their state in nodes; the graph is an instance. [Recovery] models
      [hyperion-recovery] ([types.rs], [service.rs]) against it: recovery points,
      the action journal, undo, redo, crash recovery and retention.
    - [SystemImage] and [Update] model [hyperion-update] ([system_image.rs],
      [orchestrator.rs], [types.rs]): the two image slots, and staged updates that
      take a recovery point, watch the caller's health reports and roll back.
    - [ModelRouter] models [hyperion-model-router] ([types.rs], [registry.rs],
      [router.rs]), and [Scheduler] models [hyperion-scheduler] ([types.rs],
      [ledger.rs], [owner.rs], [scheduler.rs]), which asks the router for cheaper
      implementations of what does not fit.
    - [AgentRuntime] models [hyperion-agent-runtime] ([types.rs], [broker.rs],
      [stubs.rs], [runtime.rs]): agents confined to their manifests, whose
      invocations the scheduler admits and a circuit breaker pauses; [Json] holds
      the values that services exchange.
    - [Supervisor] models [hyperion-supervisor] ([spec.rs], [errors.rs],
      [supervisor.rs]) over the monitor: services in processes of their own, each
      with a token minted for it, restarted and given up.
    - [Ipc] and [IpcTransport] model [hyperion-ipc]: calls between threads
      ([bus.rs], [channel.rs], [frame.rs], [region.rs]) in all interleavings, and
      between processes ([transport.rs]) with claims judged by the receiver.
    - [Explainability] models [hyperion-explainability] ([types.rs], [store.rs],
      [render.rs], [calibration.rs], [confidence.rs]): the record of every action,
      told to the event bus as it grows and rebuilt from there. [Telemetry] models
      the rest of [hyperion-observability].
    - [Federation] models [hyperion-federation] ([hub.rs], [types.rs],
      [offload_bridge.rs]): several devices, each with an agent runtime, that take
      each other's work, hold leases on agents and move them. [KgSync] models
      [kg_sync.rs], which merges a peer's snapshot into the knowledge graph.
    - [PluginReview] models the manifests of [hyperion-plugin-framework]
      ([types.rs], [review.rs]) and [publisher_registry.rs] of [hyperion-crypto];
      [Plugins] models [registry.rs], which installs, updates, quarantines and
      removes plugins over the capability monitor.
    - [Privacy] models the tiers, the consent ledger and the routing of
      [hyperion-privacy] ([types.rs], [consent.rs], [routing.rs]); [Erasure] models
      [erasure.rs], over the recovery service and an interface of purging that the
      knowledge graph implements. [Security] models [hyperion-security] and the
      signed model descriptor of [hyperion-ai-runtime].
    - [Devices] models [hyperion-device], whose registry is mirrored in the graph
      through [NodeStore]. [Identity] models [hyperion-identity] and the passphrases
      of [hyperion-crypto] ([credentials.rs]), down to the files.
    - [Coordination] models [hyperion-coordination] ([types.rs], [catalog.rs],
      [engine.rs]): sessions that give tasks to agents, with interfaces to the agent
      runtime, the graph and the explanations that those components implement;
      [CoordinationRuns] is about runs of a session. [Intent] models
      [hyperion-intent] ([types.rs], [templates.rs], [engine.rs]), which breaks what
      is said down into the intents that a session works on, and [Text] what it uses
      of [str]. [Memory] models [hyperion-memory] ([types.rs], [decay.rs],
      [providers.rs], [engine.rs]), whose records are nodes of the graph.
      [SemanticFs] models [hyperion-semantic-fs] ([types.rs], [path.rs],
      [engine.rs], [posix.rs]), which shows the graph as a mounted file system, and
      [Context] models [hyperion-context] ([types.rs], [working_set.rs],
      [expertise.rs], [engine.rs], [propagation.rs]), which picks the nodes that
      matter and implements the interface through which intents and files ask it.

    So a call to an update goes through recovery and [NodeStore] to the knowledge
    graph, from there to the storage engine and its log, and asks the monitor at
    each step through [Authority].

    ** What the theorems show

    - C1 to C3 ([Capability]): revoking terminates and kills exactly the
      token and its descendants, for ever; what a check accepts was issued
      ([delegation_attenuates]: rights only shrink along a delegation). C4 ([CapabilityWire]): a
      signature binds every field of a claim, unless it verifies for two messages (the
      round trip is proved there too).
    - C5 ([Wal]): the log refines a list of records. C6 ([Storage]): the
      views in memory are the log, replayed, through every operation. Puts on every
      branch, torn appends and purges have theorems there as well.
    - C7 and C8 ([Ledger]): verified chains with one end are one chain,
      or a hash collision is at hand; where a replaced entry shows. That an appended ledger
      verifies, what anchors bind and what racing appends do is proved there too.
    - C9 ([Events]): what each policy keeps, drops and bounds under any
      interleaving ([durable_replay_complete]: replay is complete).
    - C10 to C12 ([KnowledgeGraph]): boundaries are isolated in the running
      graph; the index survives restarts, for finite numbers and purges that name no
      edge; a traversal is breadth-first search ([deletions_are_kept]
      is about deletions). The
      writing operations are shown to be sequences of the steps of one relation,
      [gstep], which states the owners' rights once.
    - C13 ([Recovery]): undo on every branch ([undo_redo_round_trip]: undo
      and redo are inverse; [restore_to_restores]: restoring a point is exact).
    - C14 ([SystemImage]): what any interleaving of calls can do to the
      slots and the version mark. C16 ([Update]): a breach of an update with
      automatic rollback is undone and remembered ([apply_update_spec] has every
      branch).
    - C15 ([ModelRouter]): an exact account of a routing decision
      when all scores are numbers. C17 and C18 ([Scheduler]): an epoch, if real-time
      tasks have deadlines, ends, decides everyone once and leaves nobody out who would
      fit; grants and accounts of well-behaved clients balance within the capacity.
    - C19 ([AgentRuntime]): agents do what their manifest and their
      users allow ([agents_accounts]: the scheduler's books agree).
    - C20 and C21 ([Supervisor]): a token is accepted exactly while the service
      it was given to is supervised; crash loops end.
    - C22 ([Ipc]): calls and replies match under any interleaving.
      [socket_round_trip] ([IpcTransport]): a call between processes, end to end.
    - C33 ([Explainability]): a store that was lost comes back from the
      event log, if nobody else wrote to it. C34 ([Federation]): leases are
      fenced by their generations, migrations that are interfered with aside ([offload_is_a_walk]: offloading is one walk over
      the devices that fit). [merge_mirrors] ([KgSync]): merging replicates and is
      idempotent.
    - C35 ([PluginReview]): what a signature covers and what the review
      lets through. C36 and C37 ([Plugins]): the permission tokens of plugins are those
      they were reviewed for; what exactly uninstalling revokes and removes
      ([registry_shows_installed]: queries).
    - [cloud_needs_consent], [consent_signature_coverage] ([Privacy]): what goes to
      the cloud, and what the signature of consent covers. C38 ([Erasure]): shredding leaves
      nothing ([soft_delete_round_trip]: soft deletes come back). [risky_actions_are_backed_up] ([Security]): backups
      before risky actions ([assessment_floors], [trust_score_bounds]: the scores).
    - C39 ([Devices]): what a device is made to do was asked for in
      a pairing ([graph_mirrors_registry]: the graph mirrors the registry). C40 ([Identity]): boundaries belong to people for
      good, if no restart follows a failed write ([authentication_is_exact]: only the passphrase in force is accepted).
    - C25 ([Coordination]): partitions are connected components.
      C23 and C24 ([CoordinationRuns]): sessions settle ([ticks_settle]: however
      the ticks interleave with the rest), and no update of a shared fact is lost.
    - C26 and C27 ([IntentPlans]): dependencies between intents stay acyclic, if
      nobody else adds one between check and link; an utterance becomes the plan of a session, with the conditions under which
      sessions settle. C28 ([MemoryErasure]): forgetting a memory
      forgets exactly what was made of it, dormant memories aside. C31 and C32 ([FsPaths]): paths are
      one to one with objects, and what is written to a file is read there.
      C29 and C30 ([ContextBundles]): bundles keep to what entries are charged, and
      envelopes to the policy.

    Behaviour the code's own comments do not mean is proved too where it was
    found, as a theorem (for instance [append_after_torn_tail_is_lost],
    [unsigned_claim_outlives_revocation], [racing_appends]) or as an example that
    runs (the [Example]s of each file's example module).

    ** Conventions

    - Time is an argument: [now] is the monotonic clock in one call, [wall] a
      reading of the wall clock, one argument per reading. Likewise nonces, what
      became of each write ([write_outcome], [compact_outcome]), what the kernel
      answers to a fork ([Attempt]), and what arrives on a socket.
    - Callers' closures are functions of the state they can reach: the rollout of
      an update acts on the graph, the scheduler's offload trigger says what came
      of each call. The AI runtime and the standard library's hasher are classes
      without laws.
    - Everything computes. Recursions that are not structural are by fuel: the walk
      of a revocation
      over the forest (the number of records plus two, which C1 shows to be
      enough), the Merkle tree, which halves its list (fuel: its length), and the
      loop of an epoch over its candidates (their number; C17 shows that all are
      decided), the retries of an offload (one more than there are ledgers, enough
      by [Federation.offload_is_a_walk]), the walk over connected tasks (the ids they mention, enough by
      C25), the search for a free path (the paths taken, enough by
      C31), and rendering an explanation with its parents, which the code
      does not bound ([Explainability.rendering_ends]). The loops of a traversal are bounded by
      the caller's [max_hops].
    - Locks: an operation that holds one lock throughout is one step. Where the
      code lets go of a lock in between (ledger appends, deliveries of the bus,
      system images, calls that wait) the parts are separate definitions and a step
      relation interleaves them, or the operation takes what others do in between as an
      argument ([others]) and its theorem says what that must leave alone. [undo] and
      the operations of the explanation store are modelled as calls during which no
      other changes their state, which is said there.
    - Sorts: where the comparison is not a total order (a NaN among scores, a key that
      reads the clock) the standard library may panic or leave any order; what it does is
      an argument ([unspecified]), and theorems say when it does not matter.
    - Counters of 64 bits are taken not to wrap where the code relies on fresh
      numbers: the steps of the relations ask for room below 2^64.
    - Text is a list of code points or bytes. [serde_json] is a pair of functions
      with the law that what was written is read back, for values without floats that are
      not nested too deep ([SemanticFs.printable], [Identity.flat]; [Wal.Codec] is about
      records of such values).

    ** What is not modelled

    Device drivers and system calls (init, cgroups, sandbox enforcement), sockets
    and network transport below a datagram, the Noise session, inference back
    ends, user interfaces, import and export of graphs, and the background
    threads that only call operations on a schedule. The snapshots of
    memory that [Recovery] takes are an interface without laws.

    This file holds what all the others share: results and the [?] operator,
    machine integers, iteration over hash maps, stable sorting, little-endian
    bytes, and lemmas on lists. *)
From stdpp Require Export base gmap list strings numbers option sorting.
From stdpp Require Export relations.
From Stdlib Require Export NArith Lia.

Open Scope N_scope.

(** ** Results *)

(** Rust's [Result<A, E>]. *)
Inductive Result (A E : Type) : Type :=
| Ok (a : A)
| Err (e : E).
Arguments Ok {A E} _.
Arguments Err {A E} _.

Declare Scope rust_scope.
Delimit Scope rust_scope with rust.
Open Scope rust_scope.

(** The [?] operator, for a computation that threads no state. *)
Notation "'let?' x ':=' e 'in' k" :=
  (match e with Ok x => k | Err er => Err er end)
  (at level 10, x pattern, e at level 100, k at level 200,
   format "'[v' 'let?'  x  ':='  e  'in' '/' k ']'") : rust_scope.

(** [Result::map_err]. *)
Definition map_err {A E F : Type} (f : E -> F) (r : Result A E) : Result A F :=
  match r with Ok a => Ok a | Err e => Err (f e) end.

(** [Result::is_ok]. *)
Definition is_ok {A E : Type} (r : Result A E) : bool :=
  match r with Ok _ => true | Err _ => false end.

(** [Option::ok_or]. *)
Definition ok_or {A E : Type} (o : option A) (e : E) : Result A E :=
  match o with Some a => Ok a | None => Err e end.

(** [Option::is_some_and]. *)
Definition is_some_and {A : Type} (o : option A) (f : A -> bool) : bool :=
  match o with Some a => f a | None => false end.

#[export] Instance result_eq_dec {A E} `{EqDecision A, EqDecision E} : EqDecision (Result A E).
Proof. solve_decision. Defined.

(** Case analysis on a decidable [P] that the goal tests. *)
Tactic Notation "by_cases" constr(P) "as" ident(H) :=
  destruct (decide P) as [H|H];
  [rewrite ?(bool_decide_true P) by done|rewrite ?(bool_decide_false P) by done].

(** ** Machine integers *)

Definition two64 : N := 18446744073709551616.
Definition two32 : N := 4294967296.

(** Unsigned addition at 64 bits: the atomics' [fetch_add] and [wrapping_add]
    wrap, and so does [+] in a release build. *)
Definition u64_add (a b : N) : N := (a + b) mod two64.

Lemma u64_add_small a b : a + b < two64 -> u64_add a b = a + b.
Proof. intros. unfold u64_add. by apply N.mod_small. Qed.

Lemma u64_succ_ne a : a < two64 -> u64_add a 1 <> a.
Proof.
  intros H. unfold u64_add, two64 in *.
  destruct (decide (a = 18446744073709551615)) as [->|]; [by vm_compute|].
  rewrite N.mod_small; lia.
Qed.

Lemma u64_add_lt a b : u64_add a b < two64.
Proof. unfold u64_add. by apply N.mod_lt. Qed.

(** [u32::saturating_add]; [saturating_sub] is [N]'s subtraction. *)
Definition U32_MAX : N := 4294967295.
Definition u32_saturating_add (a b : N) : N := N.min (a + b) U32_MAX.

(** ** Hash-map iteration *)

(** [HashMap::iter] visits every entry once in an unspecified order. The order
    is a parameter of the operations that iterate; all that may be assumed of
    it is that it is a permutation of the entries. *)
Class HashIter := {
  hash_iter : forall {K V : Type} `{Countable K}, gmap K V -> list (K * V);
  hash_iter_perm : forall {K V : Type} `{Countable K} (m : gmap K V),
    hash_iter m ≡ₚ map_to_list m
}.

(** One possible order, used to run the definitions on concrete inputs. *)
#[export] Instance canonical_iter : HashIter :=
  {| hash_iter := fun _ _ _ _ m => map_to_list m;
     hash_iter_perm := fun _ _ _ _ m => reflexivity _ |}.

Section hash_iter_lemmas.
Context `{HashIter} {K V : Type} `{Countable K}.
Implicit Types m : gmap K V.

Lemma elem_of_hash_iter m k v : (k, v) ∈ hash_iter m <-> m !! k = Some v.
Proof. rewrite hash_iter_perm. apply elem_of_map_to_list. Qed.

Lemma NoDup_hash_iter m : NoDup (hash_iter m).
Proof. rewrite hash_iter_perm. apply NoDup_map_to_list. Qed.

Lemma NoDup_fst_hash_iter m : NoDup ((hash_iter m).*1).
Proof. rewrite hash_iter_perm. apply NoDup_fst_map_to_list. Qed.

Lemma length_hash_iter m : length (hash_iter m) = size m.
Proof. rewrite hash_iter_perm. by rewrite length_map_to_list. Qed.
End hash_iter_lemmas.

(** ** Stable sorting by a numeric key *)

(** [slice::sort_by_key] is a stable sort; insertion sort is one, and by
    [sort_by_key_unique] below the choice of algorithm is invisible. *)
Fixpoint insert_by_key {A : Type} (key : A -> N) (x : A) (l : list A) : list A :=
  match l with
  | [] => [x]
  | y :: l' => if key x <=? key y then x :: l else y :: insert_by_key key x l'
  end.

Fixpoint sort_by_key {A : Type} (key : A -> N) (l : list A) : list A :=
  match l with
  | [] => []
  | x :: l' => insert_by_key key x (sort_by_key key l')
  end.

(** [sort_by_key(|a| Reverse(key(a)))]: descending, still stable. *)
Fixpoint insert_by_key_rev {A : Type} (key : A -> N) (x : A) (l : list A) : list A :=
  match l with
  | [] => [x]
  | y :: l' => if key y <=? key x then x :: l else y :: insert_by_key_rev key x l'
  end.

Fixpoint sort_by_key_rev {A : Type} (key : A -> N) (l : list A) : list A :=
  match l with
  | [] => []
  | x :: l' => insert_by_key_rev key x (sort_by_key_rev key l')
  end.

Section sorting.
Context {A : Type} (key : A -> N).

Definition key_le (x y : A) : Prop := key x <= key y.

Lemma insert_by_key_perm x l : insert_by_key key x l ≡ₚ x :: l.
Proof.
  induction l as [|y l IH]; simpl; [done|].
  destruct (_ <=? _); [done|]. rewrite IH. constructor.
Qed.

Lemma sort_by_key_perm l : sort_by_key key l ≡ₚ l.
Proof. induction l as [|x l IH]; simpl; [done|]. by rewrite insert_by_key_perm, IH. Qed.

Lemma insert_by_key_rev_perm x l : insert_by_key_rev key x l ≡ₚ x :: l.
Proof.
  induction l as [|y l IH]; simpl; [done|].
  destruct (_ <=? _); [done|]. rewrite IH. constructor.
Qed.

Lemma sort_by_key_rev_perm l : sort_by_key_rev key l ≡ₚ l.
Proof. induction l as [|x l IH]; simpl; [done|]. by rewrite insert_by_key_rev_perm, IH. Qed.

Lemma insert_by_key_sorted x l :
  StronglySorted key_le l -> StronglySorted key_le (insert_by_key key x l).
Proof.
  induction 1 as [|y l Hs IH Hall]; simpl; [by repeat constructor|].
  destruct (N.leb_spec (key x) (key y)) as [Hle|Hlt].
  - constructor; [by constructor|]. constructor; [done|].
    eapply Forall_impl; [exact Hall|]. unfold key_le. lia.
  - constructor; [done|]. rewrite insert_by_key_perm. constructor; [|done].
    unfold key_le. lia.
Qed.

Lemma sort_by_key_sorted l : StronglySorted key_le (sort_by_key key l).
Proof. induction l; simpl; [constructor|]. by apply insert_by_key_sorted. Qed.

Lemma insert_by_key_rev_sorted x l :
  StronglySorted (flip key_le) l -> StronglySorted (flip key_le) (insert_by_key_rev key x l).
Proof.
  induction 1 as [|y l Hs IH Hall]; simpl; [by repeat constructor|].
  destruct (N.leb_spec (key y) (key x)) as [Hle|Hlt].
  - constructor; [by constructor|]. constructor; [done|].
    eapply Forall_impl; [exact Hall|]. unfold flip, key_le. lia.
  - constructor; [done|]. rewrite insert_by_key_rev_perm. constructor; [|done].
    unfold flip, key_le. lia.
Qed.

Lemma sort_by_key_rev_sorted l : StronglySorted (flip key_le) (sort_by_key_rev key l).
Proof. induction l; simpl; [constructor|]. by apply insert_by_key_rev_sorted. Qed.

Lemma insert_by_key_least x l :
  Forall (key_le x) l -> insert_by_key key x l = x :: l.
Proof.
  destruct l as [|y l]; [done|]. intros [Hxy _]%Forall_cons. simpl.
  unfold key_le in Hxy. by apply N.leb_le in Hxy as ->.
Qed.

Lemma sort_by_key_id l : StronglySorted key_le l -> sort_by_key key l = l.
Proof.
  induction 1 as [|x l _ IH Hall]; simpl; [done|].
  by rewrite IH, insert_by_key_least.
Qed.

(** Picking out elements commutes with sorting, because it is stable. *)
Lemma filter_insert_by_key (f : A -> bool) x l :
  StronglySorted key_le l ->
  List.filter f (insert_by_key key x l) = if f x then insert_by_key key x (List.filter f l) else List.filter f l.
Proof.
  induction 1 as [|y l Hs IH Hall]; [done|]. simpl. destruct (N.leb_spec (key x) (key y)) as [Hle|Hlt].
  - simpl. destruct (f x) eqn:Hx; [|done]. destruct (f y) eqn:Hy; simpl.
    + by apply N.leb_le in Hle as ->.
    + symmetry. apply insert_by_key_least. apply Forall_forall. intros z [Hz _]%list_elem_of_In%filter_In.
      rewrite Forall_forall in Hall. specialize (Hall z (proj2 (list_elem_of_In _ _) Hz)). unfold key_le in *. lia.
  - simpl. rewrite IH. destruct (f y), (f x); simpl; [|done..]. by apply N.leb_gt in Hlt as ->.
Qed.

Lemma filter_sort_by_key (f : A -> bool) l : List.filter f (sort_by_key key l) = sort_by_key key (List.filter f l).
Proof.
  induction l as [|x l IH]; [done|]. simpl. rewrite filter_insert_by_key by apply sort_by_key_sorted. rewrite IH.
  by destruct (f x).
Qed.

(** With distinct keys, the sorted order is determined by the elements alone. *)
Lemma sort_by_key_unique l1 l2 :
  l1 ≡ₚ l2 -> NoDup (key <$> l1) -> sort_by_key key l1 = sort_by_key key l2.
Proof.
  intros Hp Hnd.
  assert (Hinj : forall x y, x ∈ l1 -> y ∈ l1 -> key x = key y -> x = y).
  { clear Hp. induction l1 as [|a l IH]; intros x y Hx Hy Hk; [by inversion Hx|].
    rewrite fmap_cons, NoDup_cons in Hnd. destruct Hnd as [Ha Hnd].
    apply elem_of_cons in Hx, Hy.
    destruct Hx as [->|Hx], Hy as [->|Hy]; [done| | |by apply IH].
    - destruct Ha. rewrite Hk. by apply list_elem_of_fmap_2.
    - destruct Ha. rewrite <- Hk. by apply list_elem_of_fmap_2. }
  assert (Hp' : sort_by_key key l1 ≡ₚ sort_by_key key l2)
    by (by rewrite !sort_by_key_perm).
  pose proof (sort_by_key_sorted l1) as Hs1.
  pose proof (sort_by_key_sorted l2) as Hs2.
  assert (Hin : forall x, x ∈ sort_by_key key l1 -> x ∈ l1)
    by (intros x; by rewrite sort_by_key_perm).
  revert Hp' Hs1 Hs2 Hin.
  generalize (sort_by_key key l1) (sort_by_key key l2). clear Hp Hnd l2.
  intros s1. induction s1 as [|x s1 IH]; intros s2 Hp Hs1 Hs2 Hin.
  { by apply Permutation_nil in Hp. }
  destruct s2 as [|y s2]; [symmetry in Hp; by apply Permutation_nil in Hp|].
  apply StronglySorted_inv in Hs1 as [Hs1 Hx], Hs2 as [Hs2 Hy].
  assert (x = y) as <-.
  { assert (Hxy : x ∈ y :: s2) by (rewrite <- Hp; left).
    assert (Hyx : y ∈ x :: s1) by (rewrite Hp; left).
    apply elem_of_cons in Hxy as [->|Hxy]; [done|].
    apply elem_of_cons in Hyx as Hyx'. destruct Hyx' as [->|Hyx']; [done|].
    apply Hinj; [by apply Hin; left|by apply Hin|].
    rewrite Forall_forall in Hx, Hy. specialize (Hx _ Hyx'). specialize (Hy _ Hxy).
    unfold key_le in *. lia. }
  f_equal. apply IH; [by apply Permutation_cons_inv in Hp|done|done|].
  intros z Hz. apply Hin. by right.
Qed.
End sorting.

(** ** Bytes *)

(** [uN::to_le_bytes], for [k] bytes. *)
Fixpoint le_bytes (k : nat) (x : N) : list N :=
  match k with
  | O => []
  | S k => (x mod 256) :: le_bytes k (x / 256)
  end.

Lemma length_le_bytes k x : length (le_bytes k x) = k.
Proof. revert x. induction k; simpl; auto. Qed.

Lemma le_bytes_inj k x y :
  x < 256 ^ N.of_nat k -> y < 256 ^ N.of_nat k -> le_bytes k x = le_bytes k y -> x = y.
Proof.
  revert x y. induction k as [|k IH]; intros x y Hx Hy.
  { simpl in Hx, Hy. intros _. lia. }
  rewrite Nat2N.inj_succ, N.pow_succ_r' in Hx, Hy. simpl. intros [= Hm Hr].
  apply IH in Hr; [|apply N.Div0.div_lt_upper_bound; lia..].
  rewrite (N.div_mod' x 256), (N.div_mod' y 256). congruence.
Qed.

(** Two byte strings that start with fields of the same width agree field by field. *)
Lemma le_bytes_app_inj k x y (l1 l2 : list N) :
  x < 256 ^ N.of_nat k -> y < 256 ^ N.of_nat k ->
  le_bytes k x ++ l1 = le_bytes k y ++ l2 -> x = y /\ l1 = l2.
Proof.
  intros Hx Hy Heq. apply app_inj_1 in Heq as [H1 H2]; [|by rewrite !length_le_bytes].
  split; [by eapply le_bytes_inj|done].
Qed.

(** ** The last element satisfying a predicate *)

Section last_filter.
Context {A : Type} (P : A -> Prop) `{forall x, Decision (P x)}.

Lemma last_filter_None l : (forall x, x ∈ l -> ~ P x) -> last (filter P l) = None.
Proof.
  intros HP. destruct (last (filter P l)) as [x|] eqn:Hl; [|done].
  apply last_Some_elem_of, list_elem_of_filter in Hl as [? ?]. by destruct (HP x).
Qed.

Lemma last_filter_Some l a :
  a ∈ l -> P a -> (forall x, x ∈ l -> P x -> x = a) -> last (filter P l) = Some a.
Proof.
  intros Ha HPa Hu. destruct (last (filter P l)) as [x|] eqn:Hl.
  - apply last_Some_elem_of, list_elem_of_filter in Hl as [? ?]. f_equal. auto.
  - apply last_None in Hl. assert (a ∈ filter P l) as Hin by (by apply list_elem_of_filter).
    rewrite Hl in Hin. by inversion Hin.
Qed.

Lemma StronglySorted_filter (R : A -> A -> Prop) l :
  StronglySorted R l -> StronglySorted R (filter P l).
Proof.
  induction 1 as [|x l Hs IH Hall]; [constructor|]. rewrite filter_cons.
  destruct (decide (P x)); [|done]. constructor; [done|].
  apply Forall_forall. intros y [_ Hy]%list_elem_of_filter. rewrite Forall_forall in Hall. auto.
Qed.

Lemma StronglySorted_last (R : A -> A -> Prop) l a x :
  StronglySorted R l -> last l = Some a -> x ∈ l -> x = a \/ R x a.
Proof.
  intros Hs Hl Hx. destruct l as [|b l _] using rev_ind; [done|].
  rewrite last_snoc in Hl. injection Hl as ->. apply elem_of_app in Hx as [Hx|Hx%list_elem_of_singleton].
  - right. clear -Hs Hx. induction l as [|c l IH]; [by inversion Hx|].
    simpl in Hs. apply StronglySorted_inv in Hs as [Hs Hall].
    apply elem_of_cons in Hx as [->|Hx]; [|by apply IH].
    rewrite Forall_forall in Hall. apply Hall. apply elem_of_app. right. by left.
  - by left.
Qed.

(** In a list sorted by a key, it is the one with the greatest key. *)
Lemma last_filter_max (key : A -> N) l a :
  StronglySorted (key_le key) l -> a ∈ l -> P a ->
  (forall x, x ∈ l -> P x -> key x <= key a) ->
  (forall x, x ∈ l -> key x = key a -> x = a) ->
  last (filter P l) = Some a.
Proof.
  intros Hs Ha HPa Hmax Hu. destruct (last (filter P l)) as [x|] eqn:Hl.
  - assert (Hin : a ∈ filter P l) by (by apply list_elem_of_filter).
    apply (StronglySorted_filter (key_le key)) in Hs.
    destruct (StronglySorted_last _ _ _ _ Hs Hl Hin) as [->|Hle]; [done|].
    apply last_Some_elem_of, list_elem_of_filter in Hl as [HPx Hx].
    specialize (Hmax x Hx HPx). unfold key_le in Hle. f_equal. apply Hu; [done|lia].
  - apply last_None in Hl. assert (a ∈ filter P l) as Hin by (by apply list_elem_of_filter).
    rewrite Hl in Hin. by inversion Hin.
Qed.
End last_filter.

(** Membership in a filter by a test. *)
Lemma elem_of_test {A : Type} (f : A -> bool) (l : list A) x :
  x ∈ List.filter f l <-> x ∈ l /\ f x = true.
Proof. by rewrite list_elem_of_In, List.filter_In, <- list_elem_of_In. Qed.

Lemma filter_none {A : Type} (f : A -> bool) l : Forall (fun x => f x = false) l -> List.filter f l = [].
Proof. induction 1 as [|x l Hx _ IH]; [done|]. simpl. by rewrite Hx. Qed.

Lemma filter_all {A : Type} (f : A -> bool) l : Forall (fun x => f x = true) l -> List.filter f l = l.
Proof. induction 1 as [|x l Hx _ IH]; [done|]. simpl. by rewrite Hx, IH. Qed.

Lemma NoDup_fmap_filter {A B : Type} (g : A -> B) (f : A -> bool) (l : list A) :
  NoDup (g <$> l) -> NoDup (g <$> List.filter f l).
Proof.
  intros Hnd. eapply sublist_NoDup; [exact Hnd|]. clear Hnd.
  induction l as [|x l IH]; simpl; [constructor|]. destruct (f x); by constructor.
Qed.

Lemma filter_of_all {A : Type} (P : A -> Prop) `{forall x, Decision (P x)} (l : list A) :
  (forall x, x ∈ l -> P x) -> filter P l = l.
Proof.
  induction l as [|x l IH]; intros Hall; [done|]. rewrite filter_cons, decide_True by (apply Hall; by left).
  f_equal. apply IH. intros y Hy. apply Hall. by right.
Qed.

Lemma StronglySorted_mono {A : Type} (R S : A -> A -> Prop) l :
  (forall x y, R x y -> S x y) -> StronglySorted R l -> StronglySorted S l.
Proof.
  intros HRS. induction 1 as [|x l _ IH Hall]; constructor; [done|].
  eapply Forall_impl; [exact Hall|]. auto.
Qed.

Lemma StronglySorted_fmap {A B : Type} (f : A -> B) (R : B -> B -> Prop) l :
  StronglySorted (fun x y => R (f x) (f y)) l -> StronglySorted R (f <$> l).
Proof.
  induction 1 as [|x l _ IH Hall]; simpl; constructor; [done|]. by apply Forall_fmap.
Qed.

(** ** Counting *)

Lemma length_filter_split {A : Type} (P Q : A -> Prop)
    `{forall x, Decision (P x)} `{forall x, Decision (Q x)} (l : list A) :
  (forall x, Q x <-> ~ P x) ->
  (length (filter P l) + length (filter Q l) = length l)%nat.
Proof.
  intros HPQ. induction l as [|x l IH]; [done|]. rewrite !filter_cons.
  destruct (decide (P x)) as [HP|HP], (decide (Q x)) as [HQ|HQ]; simpl; [|lia..|].
  - by apply HPQ in HQ.
  - destruct HQ. by apply HPQ.
Qed.

Section count_map.
Context {K V : Type} `{Countable K}.

Lemma size_map_filter (P : K * V -> Prop) `{forall x, Decision (P x)} (m : gmap K V) :
  size (filter P m) = length (filter P (map_to_list m)).
Proof.
  rewrite map_filter_alt, <- length_map_to_list, map_to_list_to_map; [done|].
  eapply sublist_NoDup; [apply (NoDup_fst_map_to_list m)|].
  generalize (map_to_list m) as l. induction l as [|x l IH]; [constructor|].
  rewrite filter_cons. destruct (decide (P x)); by constructor.
Qed.
End count_map.

(** ** Induction two elements at a time *)

Lemma list_pair_ind {A : Type} (P : list A -> Prop) :
  P [] -> (forall x, P [x]) -> (forall x y l, P l -> P (x :: y :: l)) -> forall l, P l.
Proof.
  intros Hnil Hone Htwo l. enough (P l /\ forall x, P (x :: l)) by naive_solver.
  induction l as [|y l [IH1 IH2]]; split; auto.
Qed.

(** ** Counting with a 64-bit counter *)

Lemma mod_succ_cong a b : a mod two64 = b mod two64 -> (a + 1) mod two64 = (b + 1) mod two64.
Proof. intros Heq. by rewrite <- (N.Div0.add_mod_idemp_l a), Heq, N.Div0.add_mod_idemp_l. Qed.

Lemma u64_add_cong d a : (u64_add d 1 + a) mod two64 = (d + 1 + a) mod two64.
Proof. unfold u64_add. by rewrite N.Div0.add_mod_idemp_l. Qed.
