(* ===== verification/Crypto.v ===== *)
(** The cryptographic primitives of [crates/hyperion-crypto].

    Ed25519, BLAKE3 and ChaCha20-Poly1305 are third-party code: they are the
    fields of the classes below, with the behaviour their documentation
    promises as laws. What the crate itself does around them
    ([SealingKey::seal]/[open] in [sealed_stream.rs]) is defined on top. *)
From S2P Require Import Prelude.
Open Scope N_scope.

(** Ed25519: [SigningKey], [Signature], [VerifyingKey], as [hyperion_crypto]
    re-exports them. Nothing is assumed
    of forgeries: a theorem that rests on their absence says "or this signature
    verifies for these two messages". *)
Class Signatures := {
  SigningKey : Type;
  Signature : Type;
  VerifyingKey : Type;
  verifying_key : SigningKey -> VerifyingKey;
  sign : SigningKey -> list N -> Signature;
  verify : list N -> Signature -> VerifyingKey -> bool;
  sig_correct : forall sk m, verify m (sign sk m) (verifying_key sk) = true
}.

(** One signature, two messages. *)
Definition confused `{Signatures} (vk : VerifyingKey) (s : Signature) (m m' : list N) : Prop :=
  m <> m' /\ verify m s vk = true /\ verify m' s vk = true.

Lemma same_or_confused `{Signatures} m m' s vk : verify m s vk = true -> verify m' s vk = true -> m = m' \/ confused vk s m m'.
Proof. intros Hm Hm'. destruct (decide (m = m')); [by left|by right]. Qed.

(** BLAKE3: [blake3::hash]. Nothing is assumed of collisions: a theorem that
    rests on their absence says "or here are two messages that collide". *)
Class Hashing := {
  Hash : Type;
  hash_eq_dec :: EqDecision Hash;
  as_bytes : Hash -> list N;
  hash : list N -> Hash;
  as_bytes_len : forall h, length (as_bytes h) = 32%nat;
  as_bytes_inj : forall h h', as_bytes h = as_bytes h' -> h = h'
}.

Definition collision `{Hashing} : Prop := exists a b, a <> b /\ hash a = hash b.

Lemma hash_inj_or_collision `{Hashing} a b : hash a = hash b -> a = b \/ collision.
Proof. intros Hab. destruct (decide (a = b)); [by left|]. right. by exists a, b. Qed.

(** ChaCha20-Poly1305 under a 32-byte key and a 12-byte nonce. *)
Class Aead := {
  Key : Type;
  encrypt : Key -> list N -> list N -> list N;
  decrypt : Key -> list N -> list N -> option (list N);
  decrypt_encrypt : forall k n p, decrypt k n (encrypt k n p) = Some p;
  encrypt_bytes : forall k n p, Forall (fun b => b < 256) p ->
    Forall (fun b => b < 256) (encrypt k n p)
}.

Module SealedStream.

Definition NONCE_LEN : nat := 12.

Inductive SealError : Type := Truncated | DecryptionFailed.

(** [SealingKey::seal]; the [OsRng] bytes are the argument [nonce]. *)
Definition seal `{Aead} (k : Key) (nonce plaintext : list N) : list N :=
  nonce ++ encrypt k nonce plaintext.

(** [SealingKey::open]. *)
Definition open `{Aead} (k : Key) (sealed : list N) : Result (list N) SealError :=
  if (length sealed <? NONCE_LEN)%nat then Err Truncated
  else
    let nonce_bytes := take NONCE_LEN sealed in
    let ciphertext := drop NONCE_LEN sealed in
    match decrypt k nonce_bytes ciphertext with
    | Some p => Ok p
    | None => Err DecryptionFailed
    end.

Lemma open_seal `{Aead} k nonce p :
  length nonce = NONCE_LEN -> open k (seal k nonce p) = Ok p.
Proof.
  intros Hn. unfold open, seal. rewrite length_app, Hn.
  replace (_ <? _)%nat with false by (symmetry; apply Nat.ltb_ge; lia).
  rewrite take_app_length', drop_app_length' by done. by rewrite decrypt_encrypt.
Qed.

End SealedStream.

(** ** Instances that run, for concrete examples *)

Module Toy.

(** A signature that carries its key and message. *)
#[refine, export] Instance toy_signatures : Signatures :=
  {| SigningKey := N; Signature := N * list N; VerifyingKey := N;
     verifying_key := fun k => k;
     sign := fun k m => (k, m);
     verify := fun m s vk => bool_decide (s = (vk, m)) |}.
Proof.
  intros sk m. by rewrite bool_decide_true.
Defined.

(** A 61-bit checksum in the first of 32 places. *)
#[refine, export] Instance toy_hashing : Hashing :=
  {| Hash := N;
     as_bytes := fun h => h :: replicate 31 0;
     hash := fun m => fold_left (fun acc b => (acc * 257 + b + 1) mod 2305843009213693951) m 7 |}.
Proof.
  - done.
  - intros h h' Heq. congruence.
Defined.

(** A cipher that leaves the plaintext as it is. *)
#[refine, export] Instance toy_aead : Aead :=
  {| Key := unit; encrypt := fun _ _ p => p; decrypt := fun _ _ c => Some c |}.
Proof.
  - done.
  - done.
Defined.

End Toy.
