(* ===== verification/Capability.v ===== *)
(** The capability core: [crates/hyperion-capability].

    [types.rs], [token.rs], [table.rs], [revocation.rs] and [monitor.rs].
    Ids are 64-bit words kept as [N]; an [Instant] is a number of nanoseconds
    on the monotonic clock and every read of [Instant::now()] inside one call
    is the argument [now]. The process-wide counter behind [TokenId::next] is
    the field [NEXT] of the state, beside the monitor that uses it; other monitors of
    the process advance it too ([step_elsewhere]). *)
From S2P Require Import Prelude.
Open Scope N_scope.

(** ** types.rs *)

Abbreviation ObjectId := N (only parsing).
Abbreviation TrustBoundaryId := N (only parsing).
Abbreviation TokenId := N (only parsing).
Abbreviation Instant := N (only parsing).
Abbreviation Duration := N (only parsing).

(** [bitflags! struct RightsMask: u32]. *)
Record RightsMask := mkRights { bits : N }.

#[export] Instance rights_eq_dec : EqDecision RightsMask.
Proof. solve_decision. Defined.

Definition READ : RightsMask := mkRights 1.
Definition WRITE : RightsMask := mkRights 2.
Definition MAP : RightsMask := mkRights 4.
Definition EXEC : RightsMask := mkRights 8.
Definition GRANT : RightsMask := mkRights 16.
Definition REVOKE : RightsMask := mkRights 32.

(** The bitflags operators [|], [all()] and [contains]. *)
Definition rights_or (a b : RightsMask) : RightsMask := mkRights (N.lor (bits a) (bits b)).
Definition rights_all : RightsMask := mkRights 63.
Definition contains (a b : RightsMask) : bool := N.land (bits a) (bits b) =? bits b.

Inductive Fault : Type :=
| NoSuchCapability
| Revoked
| Expired
| InsufficientRights
| CannotEscalate
| SignatureInvalid.

#[export] Instance fault_eq_dec : EqDecision Fault.
Proof. solve_decision. Defined.

Definition min_expiry (a b : option Instant) : option Instant :=
  match a, b with
  | Some a, Some b => Some (N.min a b)
  | Some a, None => Some a
  | None, Some b => Some b
  | None, None => None
  end.

(** ** token.rs *)

Record CapabilityToken := mkToken {
  token_id : TokenId;
  object_id : ObjectId;
  rights : RightsMask;
  generation : N;
  origin : TrustBoundaryId;
  expiry : option Instant
}.

#[export] Instance token_eq_dec : EqDecision CapabilityToken.
Proof. solve_decision. Defined.

Definition from_wire_parts (token_id object_id : N) (rights : RightsMask)
    (generation origin : N) (expiry : option Instant) : CapabilityToken :=
  mkToken token_id object_id rights generation origin expiry.

Definition is_expired (now : Instant) (t : CapabilityToken) : bool :=
  is_some_and (expiry t) (fun e => e <? now).

(** ** table.rs *)

Module Table.

Record CapabilityTable := mkTable {
  slots : list (option CapabilityToken);
  boundary : TrustBoundaryId;
  parent : option TrustBoundaryId
}.

Definition new (boundary : TrustBoundaryId) (parent : option TrustBoundaryId) : CapabilityTable :=
  mkTable [] boundary parent.

(** [iter().position(Option::is_none)]. *)
Fixpoint first_free (l : list (option CapabilityToken)) : option nat :=
  match l with
  | [] => None
  | None :: _ => Some 0%nat
  | Some _ :: l' => S <$> first_free l'
  end.

Definition insert (tbl : CapabilityTable) (tok : CapabilityToken) : nat * CapabilityTable :=
  match first_free (slots tbl) with
  | Some i => (i, mkTable (<[i := Some tok]> (slots tbl)) (boundary tbl) (parent tbl))
  | None =>
      let s := slots tbl ++ [Some tok] in
      ((length s - 1)%nat, mkTable s (boundary tbl) (parent tbl))
  end.

Definition get (tbl : CapabilityTable) (slot : nat) : option CapabilityToken :=
  mjoin (slots tbl !! slot).

Definition remove (tbl : CapabilityTable) (slot : nat) : option CapabilityToken * CapabilityTable :=
  match slots tbl !! slot with
  | Some s => (s, mkTable (<[slot := None]> (slots tbl)) (boundary tbl) (parent tbl))
  | None => (None, tbl)
  end.

Definition len (tbl : CapabilityTable) : nat :=
  length (filter (fun s => is_Some s) (slots tbl)).

Definition is_empty (tbl : CapabilityTable) : bool := Nat.eqb (len tbl) 0.

End Table.

(** ** revocation.rs *)

Record RevocationNode := mkNode {
  parent : option TokenId;
  children : list TokenId;
  live_generation : N;
  node_object : ObjectId;
  node_rights : RightsMask
}.

Abbreviation RevocationGraph := (gmap N RevocationNode).

Record RevocationReceipt := mkReceipt {
  revoked : TokenId;
  descendants_invalidated : N
}.

Definition insert_root (g : RevocationGraph) (id : TokenId) (obj : ObjectId)
    (r : RightsMask) : RevocationGraph :=
  <[id := mkNode None [] 0 obj r]> g.

Definition push_child (child : TokenId) (n : RevocationNode) : RevocationNode :=
  mkNode (parent n) (children n ++ [child]) (live_generation n) (node_object n) (node_rights n).

Definition insert_child (g : RevocationGraph) (par child : TokenId) (obj : ObjectId)
    (r : RightsMask) : RevocationGraph :=
  <[child := mkNode (Some par) [] 0 obj r]> (alter (push_child child) par g).

Definition live_generation_of (g : RevocationGraph) (id : TokenId) : option N :=
  live_generation <$> g !! id.

Definition matches_record (g : RevocationGraph) (id : TokenId) (obj : ObjectId)
    (r : RightsMask) : bool :=
  is_some_and (g !! id)
    (fun n => (node_object n =? obj) && bool_decide (node_rights n = r)).

Definition parent_of_id (g : RevocationGraph) (id : TokenId) : option TokenId :=
  g !! id ≫= parent.

Definition bump (n : RevocationNode) : RevocationNode :=
  mkNode (parent n) (children n) (u64_add (live_generation n) 1) (node_object n) (node_rights n).

(** The [while let Some(node_id) = stack.pop()] loop. The head of [stack] is
    the top of the [Vec]; [extend] pushes the children in order, so the last
    child is popped first. [None] is a walk that has not ended within [fuel]
    pops. *)
Fixpoint revoke_loop (fuel : nat) (g : RevocationGraph) (stack : list TokenId)
    (first : bool) (descendants : N) : option (RevocationGraph * N) :=
  match fuel with
  | O => None
  | S fuel =>
      match stack with
      | [] => Some (g, descendants)
      | node_id :: stack =>
          match g !! node_id with
          | None => revoke_loop fuel g stack first descendants
          | Some node =>
              revoke_loop fuel (<[node_id := bump node]> g) (rev (children node) ++ stack)
                false (if first then descendants else descendants + 1)
          end
      end
  end.

(** Fuel for [revoke]: every node is popped at most once, and one more pop
    finds the stack empty. *)
Definition revoke_fuel (g : RevocationGraph) : nat := S (S (size g)).

Definition revoke (g : RevocationGraph) (id : TokenId) : option (RevocationReceipt * RevocationGraph) :=
  '(g', d) ← revoke_loop (revoke_fuel g) g [id] true 0;
  Some (mkReceipt id d, g').

(** ** monitor.rs *)

Record CapabilityMonitor := mkMonitor {
  graph : RevocationGraph;
  next_object_id : N
}.

(** A monitor together with the process-wide [static NEXT] of [TokenId::next]. *)
Record CapState := mkState {
  mon : CapabilityMonitor;
  NEXT : N
}.

Definition monitor_new : CapabilityMonitor := mkMonitor ∅ 0.
Definition initial : CapState := mkState monitor_new 1.

Definition token_id_next (s : CapState) : TokenId * CapState :=
  (NEXT s, mkState (mon s) (u64_add (NEXT s) 1)).

Definition new_object (m : CapabilityMonitor) : ObjectId * CapabilityMonitor :=
  (next_object_id m, mkMonitor (graph m) (u64_add (next_object_id m) 1)).

Definition mint_root (now : Instant) (s : CapState) (r : RightsMask)
    (orig : TrustBoundaryId) (ttl : option Duration) : CapabilityToken * CapState :=
  let '(obj, m) := new_object (mon s) in
  let '(tid, s) := token_id_next (mkState m (NEXT s)) in
  let g := insert_root (graph (mon s)) tid obj r in
  (mkToken tid obj r 0 orig ((fun d => now + d) <$> ttl),
   mkState (mkMonitor g (next_object_id (mon s))) (NEXT s)).

Definition check_live (now : Instant) (m : CapabilityMonitor) (t : CapabilityToken) :
    Result unit Fault :=
  if negb (matches_record (graph m) (token_id t) (object_id t) (rights t))
  then Err NoSuchCapability
  else match live_generation_of (graph m) (token_id t) with
       | None => Err NoSuchCapability
       | Some live =>
           if negb (live =? generation t) then Err Revoked
           else if is_expired now t then Err Expired
           else Ok tt
       end.

Definition is_live (now : Instant) (m : CapabilityMonitor) (t : CapabilityToken) : bool :=
  matches_record (graph m) (token_id t) (object_id t) (rights t)
  && bool_decide (live_generation_of (graph m) (token_id t) = Some (generation t))
  && negb (is_expired now t).

Definition cap_derive (now : Instant) (s : CapState) (par : CapabilityToken)
    (r : RightsMask) (ttl : option Duration) (new_origin : TrustBoundaryId) :
    Result CapabilityToken Fault * CapState :=
  match check_live now (mon s) par with
  | Err e => (Err e, s)
  | Ok _ =>
      if negb (contains (rights par) r) then (Err CannotEscalate, s)
      else
        let '(child_id, s) := token_id_next s in
        let g := insert_child (graph (mon s)) (token_id par) child_id (object_id par) r in
        let requested_expiry := (fun d => now + d) <$> ttl in
        (Ok (mkToken child_id (object_id par) r 0 new_origin
               (min_expiry (expiry par) requested_expiry)),
         mkState (mkMonitor g (next_object_id (mon s))) (NEXT s))
  end.

Definition cap_revoke (s : CapState) (t : CapabilityToken) : option (RevocationReceipt * CapState) :=
  '(receipt, g) ← revoke (graph (mon s)) (token_id t);
  Some (receipt, mkState (mkMonitor g (next_object_id (mon s))) (NEXT s)).

Definition parent_of (m : CapabilityMonitor) (t : CapabilityToken) : option TokenId :=
  parent_of_id (graph m) (token_id t).

Definition check_rights_ok_result (now : Instant) (m : CapabilityMonitor)
    (t : CapabilityToken) (required : RightsMask) : Result unit Fault :=
  let? _ := check_live now m t in
  if negb (contains (rights t) required) then Err InsufficientRights else Ok tt.

Definition check_rights_ok (now : Instant) (m : CapabilityMonitor)
    (t : CapabilityToken) (required : RightsMask) : bool :=
  is_ok (check_rights_ok_result now m t required).

Definition check (now : Instant) (m : CapabilityMonitor) (tbl : Table.CapabilityTable)
    (slot : nat) (required : RightsMask) : Result CapabilityToken Fault :=
  let? t := ok_or (Table.get tbl slot) NoSuchCapability in
  let? _ := check_live now m t in
  if negb (contains (rights t) required) then Err InsufficientRights else Ok t.

Definition cap_invoke {T : Type} (now : Instant) (m : CapabilityMonitor)
    (tbl : Table.CapabilityTable) (slot : nat) (required : RightsMask)
    (dispatch : CapabilityToken -> T) : Result T Fault :=
  let? t := check now m tbl slot required in
  Ok (dispatch t).

(** ** The delegation forest *)

Definition child (g : RevocationGraph) (a b : TokenId) : Prop :=
  exists n, g !! a = Some n /\ b ∈ children n.

(** [descends g a b]: [b] was delegated from [a] in zero or more steps. *)
Definition descends (g : RevocationGraph) : TokenId -> TokenId -> Prop := rtc (child g).

(** Well-formedness of the revocation graph: parent and child links agree, a
    child's id is above its parent's, and every delegation attenuates. *)
Record wf_graph (g : RevocationGraph) : Prop := {
  wf_child : forall a n c, g !! a = Some n -> c ∈ children n ->
    exists nc, g !! c = Some nc /\ parent nc = Some a;
  wf_parent : forall c nc a, g !! c = Some nc -> parent nc = Some a -> child g a c;
  wf_nodup : forall a n, g !! a = Some n -> NoDup (children n);
  wf_order : forall a n c, g !! a = Some n -> c ∈ children n -> a < c;
  wf_gen : forall a n, g !! a = Some n -> live_generation n < two64;
  wf_atten : forall a n c nc, g !! a = Some n -> c ∈ children n -> g !! c = Some nc ->
    contains (node_rights n) (node_rights nc) = true /\ node_object nc = node_object n
}.

(** The part of a node that revocation never touches. *)
Definition shape (n : RevocationNode) : option TokenId * list TokenId * ObjectId * RightsMask :=
  (parent n, children n, node_object n, node_rights n).

Definition same_shape (g g' : RevocationGraph) : Prop :=
  forall id, shape <$> g !! id = shape <$> g' !! id.

(** The nodes a revocation of [id] reaches, as a finite set. *)
Definition bumped (D : gset TokenId) (g g' : RevocationGraph) : Prop :=
  forall x, g' !! x = (if decide (x ∈ D) then bump <$> g !! x else g !! x).

Create HintDb cap discriminated.

Lemma contains_refl a : contains a a = true.
Proof. unfold contains. rewrite N.land_diag. apply N.eqb_refl. Qed.

Lemma contains_trans a b c :
  contains a b = true -> contains b c = true -> contains a c = true.
Proof.
  unfold contains. rewrite !N.eqb_eq. intros Hab Hbc.
  rewrite <- Hbc at 2. rewrite <- Hab. rewrite <- N.land_assoc. by rewrite Hbc.
Qed.

#[export] Hint Resolve contains_refl : cap.

Lemma shape_bump n : shape (bump n) = shape n.
Proof. done. Qed.

Lemma same_shape_bump g id n : g !! id = Some n -> same_shape (<[id := bump n]> g) g.
Proof.
  intros Hn x. destruct (decide (id = x)) as [<-|]; [|by rewrite lookup_insert_ne].
  by rewrite lookup_insert_eq, Hn.
Qed.

Lemma same_shape_lookup g g' id n :
  same_shape g g' -> g !! id = Some n -> exists n', g' !! id = Some n' /\ shape n' = shape n.
Proof.
  intros Hs Hn. specialize (Hs id). rewrite Hn in Hs.
  destruct (g' !! id) as [n'|]; simpl in Hs; [|done]. exists n'. split; congruence.
Qed.

Lemma same_shape_sym g g' : same_shape g g' -> same_shape g' g.
Proof. intros H x. by rewrite H. Qed.

Lemma same_shape_trans g1 g2 g3 : same_shape g1 g2 -> same_shape g2 g3 -> same_shape g1 g3.
Proof. intros H1 H2 x. by rewrite H1. Qed.

Lemma child_same_shape g g' a b : same_shape g g' -> child g a b -> child g' a b.
Proof.
  intros Hs (n & Hn & Hb). destruct (same_shape_lookup _ _ _ _ Hs Hn) as (n' & Hn' & Hsh).
  exists n'. split; [done|]. injection Hsh as _ Hc _ _. by rewrite Hc.
Qed.

Lemma descends_same_shape g g' a b : same_shape g g' -> descends g a b -> descends g' a b.
Proof.
  intros Hs. induction 1 as [|x y z Hxy _ IH]; [constructor|].
  econstructor; [by eapply child_same_shape|done].
Qed.

Section forest.
Context (g : RevocationGraph) (Hwf : wf_graph g).

Lemma child_lt a b : child g a b -> a < b.
Proof. intros (n & Hn & Hb). by eapply (wf_order g). Qed.

Lemma descends_le a b : descends g a b -> a <= b.
Proof. induction 1 as [|x y z Hxy _ IH]; [lia|]. apply child_lt in Hxy. lia. Qed.

Lemma child_unique a a' b : child g a b -> child g a' b -> a = a'.
Proof.
  intros (n & Hn & Hb) (n' & Hn' & Hb').
  destruct (wf_child g Hwf _ _ _ Hn Hb) as (nc & Hc & Hp).
  destruct (wf_child g Hwf _ _ _ Hn' Hb') as (nc' & Hc' & Hp'). congruence.
Qed.

Lemma child_in_graph a b : child g a b -> is_Some (g !! b).
Proof. intros (n & Hn & Hb). destruct (wf_child g Hwf _ _ _ Hn Hb) as (nc & ? & _). eauto. Qed.

Lemma descends_in_graph a b : is_Some (g !! a) -> descends g a b -> is_Some (g !! b).
Proof. intros Ha. induction 1 as [|x y z Hxy _ IH]; eauto using child_in_graph. Qed.

(** The ancestors of a node form a chain: who reaches [b] is [b] itself or
    reaches its parent. *)
Lemma descends_inv_parent t a b : child g a b -> descends g t b -> t = b \/ descends g t a.
Proof.
  intros Hab Htb. apply rtc_inv_r in Htb as [->|(y & Hty & Hyb)]; [by left|].
  right. by rewrite (child_unique _ _ _ Hab Hyb).
Qed.

(** Loop invariant of [revoke]: [D] is what the stack still reaches, and no
    stack entry reaches another. *)
Record walk (stack : list TokenId) (D : gset TokenId) : Prop := {
  walk_reach : forall x, x ∈ D <-> exists s, s ∈ stack /\ descends g s x;
  walk_dom : forall s, s ∈ stack -> is_Some (g !! s);
  walk_nodup : NoDup stack;
  walk_anti : forall a b, a ∈ stack -> b ∈ stack -> descends g a b -> a = b
}.

Lemma walk_step s n stack D :
  g !! s = Some n -> walk (s :: stack) D ->
  walk (rev (children n) ++ stack) (D ∖ {[s]}) /\ s ∈ D.
Proof.
  intros Hs [Hreach Hdom Hnd Hanti].
  assert (Hch : forall c, c ∈ children n <-> child g s c).
  { intros c; split; [by exists n|intros (n' & ? & ?); congruence]. }
  apply NoDup_cons in Hnd as [Hnin Hnd].
  assert (Hmem : forall t, t ∈ rev (children n) ++ stack <-> child g s t \/ t ∈ stack).
  { intros t. rewrite elem_of_app, <- Hch. by rewrite <- Permutation_rev. }
  assert (Hno : forall t, t ∈ stack -> ~ descends g t s).
  { intros t Ht Hd. apply Hnin. rewrite <- (Hanti t s); [done| | |done]; [by right|left]. }
  assert (Hno' : forall t, t ∈ stack -> ~ descends g s t).
  { intros t Ht Hd. apply Hnin. rewrite (Hanti s t); [done| | |done]; [left|by right]. }
  split; [constructor|].
  - intros x. rewrite elem_of_difference, Hreach, elem_of_singleton.
    split.
    + intros [(t & [->|Ht]%elem_of_cons & Htx) Hne].
      * apply rtc_inv in Htx as [->|(c & Hc & Hcx)]; [done|]. exists c. rewrite Hmem. auto.
      * exists t. rewrite Hmem. auto.
    + intros (t & [Ht|Ht]%Hmem & Htx); split.
      * exists s. split; [left|by econstructor].
      * intros ->. apply child_lt in Ht. apply descends_le in Htx. lia.
      * exists t. by split; [right|].
      * intros ->. by eapply Hno.
  - intros t [Ht|Ht]%Hmem; [by eapply child_in_graph|]. apply Hdom. by right.
  - apply NoDup_app. split_and!; [|intros t Ht; rewrite <- Permutation_rev in Ht|done].
    + rewrite <- Permutation_rev. by eapply wf_nodup.
    + intros Hin. apply Hch in Ht. apply (Hno' t Hin). by apply rtc_once.
  - intros a b [Ha|Ha]%Hmem [Hb|Hb]%Hmem Hab.
    + destruct (descends_inv_parent a s b Hb Hab) as [|Has]; [done|].
      apply child_lt in Ha. apply descends_le in Has. lia.
    + exfalso. apply (Hno' b Hb). by econstructor.
    + destruct (descends_inv_parent a s b Hb Hab) as [->|Has]; [done|].
      exfalso. by apply (Hno a Ha).
    + apply Hanti; [by right|by right|done].
  - apply Hreach. exists s. split; [left|constructor].
Qed.
End forest.

(** The walk ends within [size D] pops plus one, bumps exactly [D], and counts
    one descendant per node popped after the first. *)
Lemma revoke_loop_spec g0 fuel g stack D d :
  wf_graph g0 -> same_shape g g0 -> walk g0 stack D -> (size D < fuel)%nat ->
  exists g', revoke_loop fuel g stack false d = Some (g', d + N.of_nat (size D))
             /\ bumped D g g'.
Proof.
  intros Hwf. revert g stack D d. induction fuel as [|fuel IH]; intros g stack D d Hs Hw Hf; [lia|].
  destruct stack as [|s stack]; simpl.
  - assert (D = ∅) as ->.
    { apply set_eq. intros x. rewrite (walk_reach _ _ _ Hw). set_solver. }
    rewrite size_empty, N.add_0_r. exists g. split; [done|]. intros x.
    by rewrite decide_False by set_solver.
  - destruct (walk_dom _ _ _ Hw s) as [n0 Hn0]; [left|].
    destruct (same_shape_lookup _ _ _ _ (same_shape_sym _ _ Hs) Hn0) as (n & Hn & Hsh).
    rewrite Hn. injection Hsh as _ Hch _ _. rewrite Hch.
    destruct (walk_step g0 Hwf s n0 stack D Hn0 Hw) as [Hw' HsD].
    assert (Hsz : size D = S (size (D ∖ {[s]}))).
    { rewrite size_difference by set_solver. rewrite size_singleton.
      assert (size D ≠ 0)%nat by (apply size_non_empty_iff; set_solver). lia. }
    destruct (IH (<[s := bump n]> g) _ _ (d + 1) (same_shape_trans _ _ _ (same_shape_bump _ _ _ Hn) Hs)
                Hw' ltac:(lia)) as (g' & Hrun & Hb).
    exists g'. split; [rewrite Hrun; do 2 f_equal; lia|]. intros x. rewrite Hb.
    destruct (decide (x = s)) as [->|Hne].
    + rewrite decide_False by set_solver. rewrite decide_True by done.
      by rewrite lookup_insert_eq, Hn.
    + rewrite lookup_insert_ne by done.
      destruct (decide (x ∈ D)); [rewrite decide_True|rewrite decide_False]; set_solver.
Qed.

(** The descendants of a node of a well-formed graph form a finite set. *)
Lemma descendants_finite g a :
  wf_graph g -> exists D : gset TokenId, forall x, x ∈ D <-> descends g a x.
Proof.
  intros Hwf. remember (size (filter (fun x => a < x) (dom g))) as k eqn:Hk.
  revert a Hk. induction (lt_wf k) as [k _ IH]. intros a Hk.
  destruct (g !! a) as [n|] eqn:Hn; last first.
  { exists {[a]}. intros x. rewrite elem_of_singleton. split; [intros ->; constructor|].
    intros Hd. apply rtc_inv in Hd as [->|(y & (n & ? & _) & _)]; congruence. }
  assert (Hl : exists D : gset TokenId, forall x, x ∈ D <-> exists c, c ∈ children n /\ descends g c x).
  { assert (Hc : forall c, c ∈ children n -> child g a c) by (intros; by exists n).
    induction (children n) as [|c l IHl]; [exists ∅; set_solver|].
    destruct IHl as [Dl HDl]; [intros; apply Hc; by right|].
    assert (Hac : child g a c) by (apply Hc; left).
    destruct (IH (size (filter (fun x => c < x) (dom g)))) with (a := c) as [Dc HDc]; [|done|].
    { subst k. apply subset_size. split.
      - intros x. rewrite !elem_of_filter. pose proof (child_lt g Hwf _ _ Hac). intros [? ?]. split; [lia|done].
      - intros Hsub. assert (Hcin : c ∈ filter (fun x => a < x) (dom g)).
        { rewrite elem_of_filter. split; [by apply (child_lt g Hwf)|].
          apply elem_of_dom. by eapply child_in_graph. }
        apply Hsub in Hcin. rewrite elem_of_filter in Hcin. lia. }
    exists (Dc ∪ Dl). intros x. rewrite elem_of_union, HDc, HDl. set_solver. }
  destruct Hl as [D HD]. exists ({[a]} ∪ D). intros x. rewrite elem_of_union, elem_of_singleton, HD.
  split.
  - intros [->|(c & Hc & Hcx)]; [constructor|]. econstructor; [by exists n|done].
  - intros Hd. apply rtc_inv in Hd as [->|(y & (n' & Hn' & Hy) & Hyx)]; [by left|].
    right. assert (n' = n) as -> by congruence. eauto.
Qed.

(** What [revoke] does to a well-formed graph, on both branches. *)
Lemma revoke_spec g id :
  wf_graph g ->
  exists (D : gset TokenId) g',
    revoke g id = Some (mkReceipt id (N.of_nat (size D) - 1), g')
    /\ (forall x, x ∈ D <-> is_Some (g !! id) /\ descends g id x)
    /\ bumped D g g'.
Proof.
  intros Hwf. unfold revoke, revoke_fuel. simpl.
  destruct (g !! id) as [n|] eqn:Hn; last first.
  { exists ∅, g. split_and!; [done|set_solver|].
    intros x. by rewrite decide_False by set_solver. }
  destruct (descendants_finite g id Hwf) as [D HD].
  assert (Hw : walk g [id] D).
  { constructor.
    - intros x. rewrite HD. set_solver.
    - intros s ->%list_elem_of_singleton. eauto.
    - apply NoDup_singleton.
    - set_solver. }
  destruct (walk_step g Hwf id n [] D Hn Hw) as [Hw' HidD].
  assert (Hsub : D ⊆ dom g).
  { intros x Hx. apply elem_of_dom. apply HD in Hx. eapply descends_in_graph; eauto. }
  assert (Hsz : size D = S (size (D ∖ {[id]}))).
  { rewrite size_difference by set_solver. rewrite size_singleton.
    assert (size D ≠ 0)%nat by (apply size_non_empty_iff; set_solver). lia. }
  apply subseteq_size in Hsub. rewrite size_dom in Hsub.
  destruct (revoke_loop_spec g (S (size g)) (<[id := bump n]> g) _ _ 0 Hwf
              (same_shape_bump _ _ _ Hn) Hw' ltac:(lia)) as (g' & Hrun & Hb).
  simpl in Hrun. rewrite Hrun. simpl. exists D, g'. split_and!.
  - do 3 f_equal. lia.
  - intros x. rewrite HD. naive_solver.
  - intros x. rewrite Hb. destruct (decide (x = id)) as [->|Hne].
    + rewrite decide_False by set_solver. rewrite decide_True by done. by rewrite lookup_insert_eq, Hn.
    + rewrite lookup_insert_ne by done.
      destruct (decide (x ∈ D)); [rewrite decide_True|rewrite decide_False]; set_solver.
Qed.

(** ** Invariant of the monitor *)

Record wf_state (s : CapState) : Prop := {
  wfs_graph : wf_graph (graph (mon s));
  wfs_ids : forall id, is_Some (graph (mon s) !! id) -> id < NEXT s;
  wfs_next : NEXT s < two64;
  wfs_objs : forall id n, graph (mon s) !! id = Some n -> node_object n < next_object_id (mon s);
  wfs_roots : forall a b na nb, graph (mon s) !! a = Some na -> graph (mon s) !! b = Some nb ->
    parent na = None -> parent nb = None -> node_object na = node_object nb -> a = b
}.

Lemma bumped_lookup D g g' x n' :
  bumped D g g' -> g' !! x = Some n' ->
  exists n, g !! x = Some n /\ shape n' = shape n
            /\ live_generation n' = (if decide (x ∈ D) then u64_add (live_generation n) 1
                                     else live_generation n).
Proof.
  intros Hb. rewrite (Hb x). destruct (decide (x ∈ D)).
  - destruct (g !! x) as [n|]; [|done]. intros [= <-]. by exists n.
  - intros ->. by exists n'.
Qed.

Lemma bumped_same_shape D g g' : bumped D g g' -> same_shape g' g.
Proof. intros Hb x. rewrite (Hb x). destruct (decide (x ∈ D)); by destruct (g !! x). Qed.

Lemma wf_bumped D g g' : wf_graph g -> bumped D g g' -> wf_graph g'.
Proof.
  intros Hwf Hb. pose proof (bumped_same_shape _ _ _ Hb) as Hss.
  assert (Hl : forall x n', g' !! x = Some n' -> exists n, g !! x = Some n /\ shape n' = shape n).
  { intros x n' Hx. destruct (bumped_lookup _ _ _ _ _ Hb Hx) as (n & ? & ? & _). eauto. }
  constructor.
  - intros a n' c Ha Hc. destruct (Hl _ _ Ha) as (n & Hn & [= _ Hch _ _]). rewrite Hch in Hc.
    destruct (wf_child g Hwf _ _ _ Hn Hc) as (nc & Hnc & Hp).
    destruct (same_shape_lookup _ _ _ _ (same_shape_sym _ _ Hss) Hnc) as (nc' & Hnc' & [= Hp' _ _ _]).
    exists nc'. split; congruence.
  - intros c nc' a Hc Hp. destruct (Hl _ _ Hc) as (nc & Hnc & [= Hp' _ _ _]).
    eapply child_same_shape; [by apply same_shape_sym|]. eapply wf_parent; [done|done|congruence].
  - intros a n' Ha. destruct (Hl _ _ Ha) as (n & Hn & [= _ -> _ _]). by eapply wf_nodup.
  - intros a n' c Ha. destruct (Hl _ _ Ha) as (n & Hn & [= _ -> _ _]). by eapply wf_order.
  - intros a n' Ha. destruct (bumped_lookup _ _ _ _ _ Hb Ha) as (n & Hn & _ & ->).
    destruct (decide _); [apply u64_add_lt|by eapply wf_gen].
  - intros a n' c nc' Ha Hc Hnc. destruct (Hl _ _ Ha) as (n & Hn & [= _ Hch Hob Hri]).
    destruct (Hl _ _ Hnc) as (nc & Hnc0 & [= _ _ Hob' Hri']). rewrite Hch in Hc.
    rewrite Hri, Hri', Hob, Hob'. by eapply wf_atten.
Qed.

Lemma wf_insert_root g id obj r :
  wf_graph g -> g !! id = None -> wf_graph (insert_root g id obj r).
Proof.
  intros Hwf Hid. unfold insert_root.
  assert (Hne : forall x nx, g !! x = Some nx -> id <> x) by (intros; congruence).
  constructor; intros a n.
  - intros c [[<- <-]|[Ha Hn]]%lookup_insert_Some Hc; [by inversion Hc|].
    destruct (wf_child g Hwf _ _ _ Hn Hc) as (nc & Hnc & Hp).
    exists nc. rewrite lookup_insert_ne by eauto. auto.
  - intros p [[<- <-]|[Ha Hn]]%lookup_insert_Some Hp; [done|].
    destruct (wf_parent g Hwf _ _ _ Hn Hp) as (np & Hnp & Hin).
    exists np. rewrite lookup_insert_ne by eauto. auto.
  - intros [[<- <-]|[Ha Hn]]%lookup_insert_Some; [constructor|by eapply wf_nodup].
  - intros c [[<- <-]|[Ha Hn]]%lookup_insert_Some Hc; [by inversion Hc|by eapply wf_order].
  - intros [[<- <-]|[Ha Hn]]%lookup_insert_Some; [done|by eapply wf_gen].
  - intros c nc [[<- <-]|[Ha Hn]]%lookup_insert_Some Hc; [by inversion Hc|].
    intros [[<- <-]|[_ Hnc]]%lookup_insert_Some; [|by eapply wf_atten].
    destruct (wf_child g Hwf _ _ _ Hn Hc) as (nc & Hnc & _). congruence.
Qed.

(** Lookups after [insert_child]. *)
Lemma insert_child_lookup g par ch obj r x n' :
  g !! ch = None -> insert_child g par ch obj r !! x = Some n' ->
  (x = ch /\ n' = mkNode (Some par) [] 0 obj r)
  \/ (x <> ch /\ exists n, g !! x = Some n
       /\ n' = (if decide (x = par) then push_child ch n else n)).
Proof.
  intros Hch. unfold insert_child. rewrite lookup_insert_Some. intros [[<- <-]|[Hne Hx]]; [by left|].
  right. split; [done|]. rewrite lookup_alter in Hx.
  destruct (decide (par = x)) as [<-|Hne'].
  - destruct (g !! par) as [n|]; simplify_eq/=. exists n. by rewrite decide_True.
  - exists n'. by rewrite decide_False.
Qed.

Lemma wf_insert_child g par np ch r :
  wf_graph g -> g !! par = Some np -> g !! ch = None -> par < ch ->
  contains (node_rights np) r = true ->
  wf_graph (insert_child g par ch (node_object np) r).
Proof.
  intros Hwf Hpar Hch Hlt Hr.
  assert (Hinv := fun x n' => insert_child_lookup g par ch (node_object np) r x n' Hch).
  assert (Hnew : insert_child g par ch (node_object np) r !! ch
                 = Some (mkNode (Some par) [] 0 (node_object np) r))
    by (unfold insert_child; apply lookup_insert_eq).
  assert (Hold : forall x n, g !! x = Some n -> insert_child g par ch (node_object np) r !! x
                 = Some (if decide (x = par) then push_child ch n else n)).
  { intros x n Hx. unfold insert_child. rewrite lookup_insert_ne by congruence.
    rewrite lookup_alter. destruct (decide (par = x)) as [->|];
      [rewrite decide_True by done|rewrite decide_False by done]; by rewrite Hx. }
  assert (Hnoch : forall x n, g !! x = Some n -> ch ∉ children n).
  { intros x n Hx Hin. destruct (wf_child g Hwf _ _ _ Hx Hin) as (? & ? & _). congruence. }
  constructor.
  - intros a n' c Ha Hc. destruct (Hinv _ _ Ha) as [[-> ->]|(Hne & n & Hn & ->)]; [by inversion Hc|].
    destruct (decide (a = par)) as [->|].
    + apply elem_of_app in Hc as [Hc| ->%list_elem_of_singleton]; [|eauto].
      destruct (wf_child g Hwf _ _ _ Hn Hc) as (nc & Hnc & Hp). eexists. split; [by apply Hold|].
      by destruct (decide _).
    + destruct (wf_child g Hwf _ _ _ Hn Hc) as (nc & Hnc & Hp). eexists. split; [by apply Hold|].
      by destruct (decide _).
  - intros c nc' a Hc Hp. destruct (Hinv _ _ Hc) as [[-> ->]|(Hne & n & Hn & ->)].
    + injection Hp as <-. eexists. split; [by apply Hold|]. rewrite decide_True by done.
      apply elem_of_app. right. by apply list_elem_of_singleton.
    + assert (parent n = Some a) as Hp' by (by destruct (decide _)).
      destruct (wf_parent g Hwf _ _ _ Hn Hp') as (na & Hna & Hin).
      eexists. split; [by apply Hold|]. destruct (decide (a = par)); [apply elem_of_app; by left|done].
  - intros a n' Ha. destruct (Hinv _ _ Ha) as [[-> ->]|(Hne & n & Hn & ->)]; [constructor|].
    destruct (decide _); [|by eapply wf_nodup]. apply NoDup_app. split_and!.
    + by eapply wf_nodup.
    + intros x Hx ->%list_elem_of_singleton. by eapply Hnoch.
    + apply NoDup_singleton.
  - intros a n' c Ha Hc. destruct (Hinv _ _ Ha) as [[-> ->]|(Hne & n & Hn & ->)]; [by inversion Hc|].
    destruct (decide _) as [->|]; [|by eapply wf_order].
    apply elem_of_app in Hc as [Hc| ->%list_elem_of_singleton]; [by eapply wf_order|done].
  - intros a n' Ha. destruct (Hinv _ _ Ha) as [[-> ->]|(Hne & n & Hn & ->)]; [done|].
    destruct (decide _); by eapply (wf_gen g Hwf a n).
  - intros a n' c nc' Ha Hc Hnc.
    destruct (Hinv _ _ Ha) as [[-> ->]|(Hne & n & Hn & ->)]; [by inversion Hc|].
    destruct (Hinv _ _ Hnc) as [[-> ->]|(Hne' & nc & Hn' & ->)].
    + assert (a = par) as ->.
      { destruct (decide (a = par)); [done|]. exfalso. by eapply Hnoch. }
      rewrite decide_True by done. replace n with np by congruence. done.
    + assert (c ∈ children n) as Hc'.
      { destruct (decide (a = par)) as [->|]; [|done].
        apply elem_of_app in Hc as [Hc| ->%list_elem_of_singleton]; done. }
      destruct (wf_atten g Hwf _ _ _ _ Hn Hc' Hn') as [? ?].
      destruct (decide (a = par)), (decide (c = par)); done.
Qed.

Lemma wf_initial : wf_state initial.
Proof. repeat constructor; simpl; intros *; rewrite ?lookup_empty; try done; by intros [??]. Qed.

(** What [check_live] accepts, spelled out. *)
Lemma check_live_ok now m t :
  check_live now m t = Ok tt <->
  exists n, graph m !! token_id t = Some n /\ node_object n = object_id t
            /\ node_rights n = rights t /\ live_generation n = generation t
            /\ is_expired now t = false.
Proof.
  unfold check_live, matches_record, live_generation_of.
  destruct (graph m !! token_id t) as [n|]; simpl; [|naive_solver].
  destruct (N.eqb_spec (node_object n) (object_id t)); simpl; [|naive_solver].
  case_bool_decide; simpl; [|naive_solver].
  destruct (N.eqb_spec (live_generation n) (generation t)); simpl; [|naive_solver].
  destruct (is_expired now t); naive_solver.
Qed.

Lemma check_live_revoked now m t n :
  graph m !! token_id t = Some n -> node_object n = object_id t -> node_rights n = rights t ->
  live_generation n <> generation t -> check_live now m t = Err Revoked.
Proof.
  intros Hn Ho Hr Hg. unfold check_live, matches_record, live_generation_of.
  rewrite Hn. simpl. rewrite Ho, N.eqb_refl, bool_decide_true by done. simpl.
  by apply N.eqb_neq in Hg as ->.
Qed.

Lemma mint_root_wf now s r o ttl t s' :
  wf_state s -> NEXT s + 1 < two64 -> next_object_id (mon s) + 1 < two64 ->
  mint_root now s r o ttl = (t, s') -> wf_state s'.
Proof.
  intros [Hg Hids Hnext Hobj Hroot] Hn Ho. unfold mint_root, new_object, token_id_next; simpl.
  intros [= <- <-]. rewrite !u64_add_small by lia.
  assert (Hfresh : graph (mon s) !! NEXT s = None).
  { apply eq_None_not_Some. intros H. apply Hids in H. lia. }
  constructor; simpl; [by apply wf_insert_root|..]; unfold insert_root.
  - intros id [n [[<- _]|[_ Hid]]%lookup_insert_Some]; [lia|].
    assert (id < NEXT s) by eauto. lia.
  - lia.
  - intros id n [[<- <-]|[_ Hid]]%lookup_insert_Some; simpl; [lia|]. apply Hobj in Hid. lia.
  - intros a b na nb [[<- <-]|[Ha Hna]]%lookup_insert_Some [[<- <-]|[Hb Hnb]]%lookup_insert_Some
      Hpa Hpb Heq; simpl in *; [done| | |by eapply Hroot].
    + apply Hobj in Hnb. lia.
    + apply Hobj in Hna. lia.
Qed.

(** What a successful [cap_derive] did. *)
Lemma cap_derive_ok now s par r ttl o t s' :
  cap_derive now s par r ttl o = (Ok t, s') ->
  check_live now (mon s) par = Ok tt /\ contains (rights par) r = true
  /\ t = mkToken (NEXT s) (object_id par) r 0 o (min_expiry (expiry par) ((fun d => now + d) <$> ttl))
  /\ s' = mkState (mkMonitor (insert_child (graph (mon s)) (token_id par) (NEXT s) (object_id par) r)
                     (next_object_id (mon s))) (u64_add (NEXT s) 1).
Proof.
  unfold cap_derive, token_id_next. destruct (check_live now (mon s) par) as [[]|e]; [|done].
  destruct (contains (rights par) r); simpl; naive_solver.
Qed.

Lemma cap_derive_wf now s par r ttl o t s' :
  wf_state s -> NEXT s + 1 < two64 ->
  cap_derive now s par r ttl o = (Ok t, s') -> wf_state s'.
Proof.
  intros [Hg Hids Hnext Hobj Hroot] Hn Hd.
  apply cap_derive_ok in Hd as (Hlive & Hr & _ & ->).
  apply check_live_ok in Hlive as (np & Hnp & Ho & Hri & _).
  assert (Hfresh : graph (mon s) !! NEXT s = None).
  { apply eq_None_not_Some. intros H. apply Hids in H. lia. }
  rewrite u64_add_small by lia. rewrite <- Ho.
  constructor; simpl.
  - apply wf_insert_child; [done..| |by rewrite Hri]. eauto.
  - intros id [n Hid]. apply insert_child_lookup in Hid as [[-> _]|(_ & n' & Hid & _)]; [lia| |done].
    assert (id < NEXT s) by eauto. lia.
  - lia.
  - intros id n Hid. apply insert_child_lookup in Hid as [[-> ->]|(_ & n' & Hid & ->)]; [|..|done].
    + simpl. by eapply Hobj.
    + destruct (decide _); by eapply (Hobj id n').
  - intros a b na nb Ha Hb Hpa Hpb Heq.
    apply insert_child_lookup in Ha as [[-> ->]|(_ & na' & Ha & ->)]; [done| |done].
    apply insert_child_lookup in Hb as [[-> ->]|(_ & nb' & Hb & ->)]; [done| |done].
    eapply Hroot; [done|done|..]; by destruct (decide (a = _)), (decide (b = _)).
Qed.

Lemma cap_revoke_wf s t rc s' :
  wf_state s -> cap_revoke s t = Some (rc, s') -> wf_state s'.
Proof.
  intros [Hg Hids Hnext Hobj Hroot]. unfold cap_revoke.
  destruct (revoke_spec (graph (mon s)) (token_id t) Hg) as (D & g' & -> & _ & Hb).
  simpl. intros [= <- <-].
  assert (Hl : forall x n', g' !! x = Some n' ->
            exists n, graph (mon s) !! x = Some n /\ shape n' = shape n).
  { intros x n' Hx. destruct (bumped_lookup _ _ _ _ _ Hb Hx) as (n & ? & ? & _). eauto. }
  constructor; simpl; [by eapply wf_bumped| |done|..].
  - intros id [n' Hid]. destruct (Hl _ _ Hid) as (n & ? & _). eauto.
  - intros id n' Hid. destruct (Hl _ _ Hid) as (n & Hn & [= _ _ -> _]). eauto.
  - intros a b na nb Ha Hb' Hpa Hpb Heq.
    destruct (Hl _ _ Ha) as (na' & Hna & [= ? _ ? _]), (Hl _ _ Hb') as (nb' & Hnb & [= ? _ ? _]).
    eapply Hroot; [done|done|..]; congruence.
Qed.

(** ** Executions of the monitor *)

(** The state-changing entry points a holder can call. The bounds say that
    fewer than 2^64 ids have been allocated, the range in which [fetch_add]
    does not wrap. *)
Inductive event : Type :=
| EvObject
| EvMint (t : CapabilityToken)
| EvDerive (par t : CapabilityToken)
| EvRevoke (t : CapabilityToken)
(** another monitor of the process has drawn numbers *)
| EvElsewhere.

Inductive step : CapState -> event -> CapState -> Prop :=
| step_object s o m :
    new_object (mon s) = (o, m) -> next_object_id (mon s) + 1 < two64 ->
    step s EvObject (mkState m (NEXT s))
| step_mint now s r o ttl t s' :
    mint_root now s r o ttl = (t, s') ->
    NEXT s + 1 < two64 -> next_object_id (mon s) + 1 < two64 ->
    step s (EvMint t) s'
| step_derive now s par r ttl o t s' :
    cap_derive now s par r ttl o = (Ok t, s') -> NEXT s + 1 < two64 ->
    step s (EvDerive par t) s'
| step_revoke s t rc s' :
    cap_revoke s t = Some (rc, s') -> step s (EvRevoke t) s'
| step_elsewhere s k : NEXT s + k < two64 -> step s EvElsewhere (mkState (mon s) (NEXT s + k)).

Inductive exec : CapState -> list event -> CapState -> Prop :=
| exec_nil s : exec s [] s
| exec_snoc s tr s1 e s2 : exec s tr s1 -> step s1 e s2 -> exec s (tr ++ [e]) s2.

(** The tokens a trace has handed out. *)
Definition issued_by (e : event) : list CapabilityToken :=
  match e with EvMint t | EvDerive _ t => [t] | _ => [] end.
Definition issued (tr : list event) : list CapabilityToken := tr ≫= issued_by.

Definition is_revoke (e : event) : bool := match e with EvRevoke _ => true | _ => false end.
Definition revocations (tr : list event) : N := N.of_nat (length (List.filter is_revoke tr)).

#[export] Hint Constructors step exec : cap.

Lemma step_wf s e s' : wf_state s -> step s e s' -> wf_state s'.
Proof.
  intros Hwf. destruct 1 as [s o m Hm Ho|now s r o ttl t s' Hm ? ?|now s par r ttl o t s' Hd ?|s t rc s' Hr|s k Hk].
  - destruct Hwf as [? ? ? Hobj ?]. injection Hm as _ <-. constructor; simpl; try done.
    intros id n Hn. rewrite u64_add_small by lia. apply Hobj in Hn. lia.
  - by eapply mint_root_wf.
  - by eapply cap_derive_wf.
  - by eapply cap_revoke_wf.
  - destruct Hwf as [? Hids ? ? ?]. constructor; simpl; try done. intros id Hid%Hids. lia.
Qed.

Lemma exec_wf s tr s' : wf_state s -> exec s tr s' -> wf_state s'.
Proof. intros Hwf. induction 1; eauto using step_wf. Qed.

Lemma exec_app s tr1 s1 tr2 s2 : exec s tr1 s1 -> exec s1 tr2 s2 -> exec s (tr1 ++ tr2) s2.
Proof.
  intros H1. induction 1 as [|s1 tr2 s3 e s4 H2 IH Hs]; [by rewrite app_nil_r|].
  rewrite app_assoc. econstructor; eauto.
Qed.

Lemma revocations_snoc tr e :
  revocations (tr ++ [e]) = revocations tr + (if is_revoke e then 1 else 0).
Proof.
  unfold revocations. rewrite List.filter_app, length_app. simpl.
  destruct (is_revoke e); simpl; lia.
Qed.

(** What a step leaves of a node: its identity, and its generation unless the
    step revoked it. *)
Definition extends (b : bool) (n n' : RevocationNode) : Prop :=
  parent n' = parent n /\ node_object n' = node_object n /\ node_rights n' = node_rights n
  /\ (forall c, c ∈ children n -> c ∈ children n')
  /\ (live_generation n' = live_generation n
      \/ (b = true /\ live_generation n' = u64_add (live_generation n) 1)).

Lemma insert_child_extends g par ch obj r id n :
  g !! ch = None -> g !! id = Some n ->
  exists n', insert_child g par ch obj r !! id = Some n' /\ extends false n n'.
Proof.
  intros Hch Hid. unfold insert_child. rewrite lookup_insert_ne by congruence.
  rewrite lookup_alter. destruct (decide (par = id)) as [->|]; rewrite Hid; simpl;
    eexists; (split; [done|]); unfold extends, push_child; simpl; split_and!; auto.
  intros c Hc. apply elem_of_app. by left.
Qed.

Lemma step_extends s e s' id n :
  wf_state s -> step s e s' -> graph (mon s) !! id = Some n ->
  exists n', graph (mon s') !! id = Some n' /\ extends (is_revoke e) n n'.
Proof.
  intros Hwf Hst Hid.
  assert (Hfresh : graph (mon s) !! NEXT s = None).
  { apply eq_None_not_Some. intros H. apply (wfs_ids _ Hwf) in H. lia. }
  destruct Hst as [s o m Hm Ho|now s r o ttl t s' Hm ? ?|now s par r ttl o t s' Hd ?|s t rc s' Hr|s k Hk]; simpl.
  - injection Hm as _ <-. exists n. unfold extends. split_and!; auto.
  - injection Hm as _ <-. simpl. unfold insert_root. rewrite lookup_insert_ne by congruence.
    exists n. unfold extends. split_and!; auto.
  - apply cap_derive_ok in Hd as (_ & _ & _ & ->). simpl. by apply insert_child_extends.
  - unfold cap_revoke in Hr.
    destruct (revoke_spec (graph (mon s)) (token_id t) (wfs_graph _ Hwf)) as (D & g' & HR & _ & Hb).
    rewrite HR in Hr. simpl in Hr. injection Hr as _ <-. simpl. rewrite (Hb id), Hid.
    destruct (decide (id ∈ D)); simpl; eexists; (split; [done|]); unfold extends, bump; simpl;
      split_and!; auto.
  - exists n. unfold extends. split_and!; auto.
Qed.

Lemma step_new_node s e s' id n' :
  wf_state s -> step s e s' -> graph (mon s') !! id = Some n' -> graph (mon s) !! id = None ->
  exists t, issued_by e = [t] /\ token_id t = id /\ object_id t = node_object n'
            /\ rights t = node_rights n' /\ generation t = 0 /\ live_generation n' = 0.
Proof.
  intros Hwf Hst Hid Hno.
  destruct Hst as [s o m Hm Ho|now s r o ttl t s' Hm ? ?|now s par r ttl o t s' Hd ?|s t rc s' Hr|s k Hk]; simpl in *.
  - injection Hm as _ <-. simpl in *. congruence.
  - injection Hm as <- <-. simpl in Hid. unfold insert_root in Hid.
    apply lookup_insert_Some in Hid as [[<- <-]|[_ Hid]]; [|congruence].
    eexists. by split_and!.
  - apply cap_derive_ok in Hd as (_ & _ & -> & ->). simpl in Hid.
    assert (Hfresh : graph (mon s) !! NEXT s = None).
    { apply eq_None_not_Some. intros H'. apply (wfs_ids _ Hwf) in H'. lia. }
    apply insert_child_lookup in Hid as [[-> ->]|(_ & n & Hn & _)]; [|congruence|done].
    eexists. by split_and!.
  - unfold cap_revoke in Hr.
    destruct (revoke_spec (graph (mon s)) (token_id t) (wfs_graph _ Hwf)) as (D & g' & HR & _ & Hb).
    rewrite HR in Hr. simpl in Hr. injection Hr as _ <-. simpl in Hid.
    destruct (bumped_lookup _ _ _ _ _ Hb Hid) as (n & Hn & _). congruence.
  - congruence.
Qed.

(** Every issued token has its node, with exactly the object and rights it was
    issued with, and carries generation 0. *)
Lemma step_issues s e s' t :
  wf_state s -> step s e s' -> t ∈ issued_by e ->
  exists n, graph (mon s') !! token_id t = Some n /\ node_object n = object_id t
            /\ node_rights n = rights t /\ generation t = 0 /\ live_generation n = 0.
Proof.
  intros Hwf Hst Ht.
  destruct Hst as [s o m Hm Ho|now s r o ttl t0 s' Hm ? ?|now s par r ttl o t0 s' Hd ?|s t0 rc s' Hr|s k Hk];
    simpl in Ht; try (by inversion Ht); apply list_elem_of_singleton in Ht as ->.
  - injection Hm as <- <-. simpl. unfold insert_root. rewrite lookup_insert_eq. eexists. by split_and!.
  - apply cap_derive_ok in Hd as (_ & _ & -> & ->). simpl. unfold insert_child.
    rewrite lookup_insert_eq. eexists. by split_and!.
Qed.

Lemma exec_issued tr s t :
  exec initial tr s -> t ∈ issued tr ->
  exists n, graph (mon s) !! token_id t = Some n /\ node_object n = object_id t
            /\ node_rights n = rights t /\ generation t = 0.
Proof.
  intros Hex. remember initial as s0 eqn:H0. revert H0.
  induction Hex as [s|s0 tr s1 e s2 Hex IH Hst]; intros -> Ht; [by inversion Ht|].
  assert (Hwf : wf_state s1) by eauto using exec_wf, wf_initial.
  unfold issued in Ht. rewrite bind_app in Ht. simpl in Ht. rewrite app_nil_r in Ht.
  apply elem_of_app in Ht as [Ht|Ht].
  - destruct (IH eq_refl Ht) as (n & Hn & Ho & Hr & Hg).
    destruct (step_extends _ _ _ _ _ Hwf Hst Hn) as (n' & Hn' & _ & Ho' & Hr' & _).
    exists n'. split_and!; congruence.
  - destruct (step_issues _ _ _ _ Hwf Hst Ht) as (n & ? & ? & ? & ? & _). eauto 10.
Qed.

(** Conversely every node was issued as a token. *)
Lemma exec_node_issued tr s id n :
  exec initial tr s -> graph (mon s) !! id = Some n ->
  exists t, t ∈ issued tr /\ token_id t = id /\ object_id t = node_object n /\ rights t = node_rights n.
Proof.
  intros Hex. remember initial as s0 eqn:H0. revert H0 n.
  induction Hex as [s|s0 tr s1 e s2 Hex IH Hst]; intros -> n Hn; [simpl in Hn; by rewrite lookup_empty in Hn|].
  assert (Hwf : wf_state s1) by eauto using exec_wf, wf_initial.
  unfold issued. rewrite bind_app. simpl. rewrite app_nil_r.
  destruct (graph (mon s1) !! id) as [n1|] eqn:Hn1.
  - destruct (IH eq_refl _ eq_refl) as (t & Ht & Hid & Ho & Hr).
    destruct (step_extends _ _ _ _ _ Hwf Hst Hn1) as (n' & Hn' & _ & Ho' & Hr' & _).
    exists t. rewrite elem_of_app. assert (n = n') as -> by congruence. split_and!; [by left|congruence..].
  - destruct (step_new_node _ _ _ _ _ Hwf Hst Hn Hn1) as (t & Ht & ? & ? & ? & _).
    exists t. rewrite elem_of_app, Ht, list_elem_of_singleton. auto.
Qed.

(** Generations count revocations: none wraps before 2^64 of them. *)
Lemma exec_generation_bound tr s id n :
  exec initial tr s -> revocations tr < two64 -> graph (mon s) !! id = Some n ->
  live_generation n <= revocations tr.
Proof.
  intros Hex. remember initial as s0 eqn:H0. revert H0 n.
  induction Hex as [s|s0 tr s1 e s2 Hex IH Hst]; intros -> n Hb Hn; [simpl in Hn; by rewrite lookup_empty in Hn|].
  assert (Hwf : wf_state s1) by eauto using exec_wf, wf_initial.
  rewrite revocations_snoc in *.
  destruct (graph (mon s1) !! id) as [n1|] eqn:Hn1.
  - destruct (step_extends _ _ _ _ _ Hwf Hst Hn1) as (n' & Hn' & _ & _ & _ & _ & Hg).
    assert (n = n') as -> by congruence.
    assert (live_generation n1 <= revocations tr) by (apply IH; [done|lia|done]).
    destruct Hg as [->|[He ->]]; [lia|]. rewrite He in *. rewrite u64_add_small; lia.
  - destruct (step_new_node _ _ _ _ _ Hwf Hst Hn Hn1) as (t & _ & _ & _ & _ & _ & ->). lia.
Qed.

(** Along an execution with fewer than 2^64 revocations a generation never
    goes down. *)
Lemma exec_generation_mono tr1 s1 tr2 s2 id n1 :
  exec initial tr1 s1 -> exec s1 tr2 s2 -> revocations (tr1 ++ tr2) < two64 ->
  graph (mon s1) !! id = Some n1 ->
  exists n2, graph (mon s2) !! id = Some n2 /\ node_object n2 = node_object n1
             /\ node_rights n2 = node_rights n1 /\ live_generation n1 <= live_generation n2.
Proof.
  intros H1 H2. revert H1. induction H2 as [s|s0 tr s3 e s4 Hex IH Hst]; intros H1 Hb Hn; [exists n1; split_and!; auto; lia|].
  rewrite app_assoc, revocations_snoc in Hb.
  destruct (IH H1 ltac:(lia) Hn) as (n2 & Hn2 & Ho & Hr & Hle).
  assert (Hall : exec initial (tr1 ++ tr) s3) by (by eapply exec_app).
  assert (Hwf : wf_state s3) by eauto using exec_wf, wf_initial.
  destruct (step_extends _ _ _ _ _ Hwf Hst Hn2) as (n' & Hn' & _ & Ho' & Hr' & _ & Hg).
  exists n'. split_and!; [done|congruence..|].
  pose proof (exec_generation_bound _ _ _ _ Hall ltac:(lia) Hn2).
  destruct Hg as [->|[He ->]]; [lia|]. rewrite He in Hb. rewrite u64_add_small; lia.
Qed.

Lemma check_outside_unchanged D g g' now k t :
  bumped D g g' -> token_id t ∉ D ->
  check_live now (mkMonitor g' k) t = check_live now (mkMonitor g k) t.
Proof.
  intros Hb Hn. unfold check_live, matches_record, live_generation_of; simpl.
  by rewrite (Hb (token_id t)), decide_False.
Qed.

Lemma descends_atten g a b na nb :
  wf_graph g -> descends g a b -> g !! a = Some na -> g !! b = Some nb ->
  contains (node_rights na) (node_rights nb) = true /\ node_object nb = node_object na.
Proof.
  intros Hwf Hd. revert na. induction Hd as [a|a c b (n & Hn & Hc) _ IH]; intros na Ha Hb.
  - assert (na = nb) as -> by congruence. auto with cap.
  - assert (n = na) as -> by congruence.
    destruct (wf_child g Hwf _ _ _ Ha Hc) as (nc & Hnc & _).
    destruct (wf_atten g Hwf _ _ _ _ Ha Hc Hnc) as [Hr Ho].
    destruct (IH _ Hnc Hb) as [Hr' Ho']. split; [by eapply contains_trans|congruence].
Qed.

(** Every node has a root above it. *)
Lemma root_above g id n :
  wf_graph g -> g !! id = Some n ->
  exists a na, g !! a = Some na /\ parent na = None /\ descends g a id.
Proof.
  intros Hwf. revert n. induction (N.lt_wf_0 id) as [id _ IH]. intros n Hn.
  destruct (parent n) as [p|] eqn:Hp; [|exists id, n; split_and!; auto; constructor].
  pose proof (wf_parent g Hwf _ _ _ Hn Hp) as Hch.
  destruct Hch as (np & Hnp & Hin). assert (Hch : child g p id) by (by exists np).
  destruct (IH p (child_lt g Hwf _ _ Hch) _ Hnp) as (a & na & Ha & Hpa & Hd).
  exists a, na. split_and!; [done..|]. eapply rtc_r; eauto.
Qed.

(** C1. Revocation is total and exact: [cap_revoke] always returns, bumps the
    generation of the revoked token and of everything delegated from it by one,
    leaves every other node as it was, so every check of a token outside the
    revoked subtree gives the same answer before and after, and reports the
    number of strict descendants. *)
Theorem cap_revoke_exact tr s t :
  exec initial tr s ->
  exists rc s' (D : gset TokenId),
    cap_revoke s t = Some (rc, s')
    /\ (forall x, x ∈ D <-> is_Some (graph (mon s) !! x) /\ descends (graph (mon s)) (token_id t) x)
    /\ revoked rc = token_id t
    /\ descendants_invalidated rc = N.of_nat (size (D ∖ {[token_id t]}))
    /\ bumped D (graph (mon s)) (graph (mon s'))
    /\ (forall u now required, token_id u ∉ D ->
          check_rights_ok_result now (mon s') u required
          = check_rights_ok_result now (mon s) u required).
Proof.
  intros Hex. assert (Hwf : wf_state s) by eauto using exec_wf, wf_initial.
  destruct (revoke_spec (graph (mon s)) (token_id t) (wfs_graph _ Hwf)) as (D & g' & HR & HD & Hb).
  unfold cap_revoke. rewrite HR. simpl. do 2 eexists. exists D.
  split_and!; [done| |done| |done|].
  - intros x. rewrite HD. split.
    + intros [Hi Hd]. split; [|done]. eapply descends_in_graph; eauto using wfs_graph.
    + intros [Hi Hd]. split; [|done]. apply rtc_inv in Hd as [<-|(y & (n & Hn & _) & _)]; eauto.
  - simpl. destruct (decide (token_id t ∈ D)) as [Hin|Hnin].
    + rewrite size_difference by set_solver. rewrite size_singleton. lia.
    + assert (D = ∅) as ->.
      { apply set_eq. intros x. split; [|set_solver]. intros [Hi Hd]%HD. exfalso.
        apply Hnin, HD. split; [done|constructor]. }
      by rewrite subseteq_empty_difference_L by set_solver.
  - intros u now required Hu. unfold check_rights_ok_result.
    destruct s as [[g k] nx]. simpl in *. by rewrite (check_outside_unchanged D g g').
Qed.

(** A token as the monitor hands them out, with its node. *)
Definition known (s : CapState) (t : CapabilityToken) : Prop :=
  exists n, graph (mon s) !! token_id t = Some n
    /\ node_object n = object_id t /\ node_rights n = rights t /\ generation t = 0.

(** Revoking puts the generation of every token below out of date, for ever. *)
Lemma revoked_stays tr1 s1 a s2 tr2 s3 t now :
  exec initial tr1 s1 -> known s1 t ->
  step s1 (EvRevoke a) s2 -> descends (graph (mon s1)) (token_id a) (token_id t) ->
  exec s2 tr2 s3 -> revocations ((tr1 ++ [EvRevoke a]) ++ tr2) < two64 ->
  check_live now (mon s3) t = Err Revoked.
Proof.
  intros H1 (n1 & Hn1 & Ho & Hr & Hg) Hst Hd H2 Hb. assert (Hwf : wf_state s1) by eauto using exec_wf, wf_initial.
  assert (H12 : exec initial (tr1 ++ [EvRevoke a]) s2) by (by econstructor).
  assert (Hb1 : revocations (tr1 ++ [EvRevoke a]) < two64).
  { unfold revocations in *. rewrite !List.filter_app, !length_app in *. lia. }
  assert (exists n2, graph (mon s2) !! token_id t = Some n2
            /\ shape n2 = shape n1 /\ live_generation n2 = live_generation n1 + 1)
    as (n2 & Hn2 & [= _ _ Ho2 Hr2] & Hg2).
  { inversion Hst as [| | |s0 a0 rc s' HR|]; subst. unfold cap_revoke in HR.
    destruct (revoke_spec (graph (mon s1)) (token_id a) (wfs_graph _ Hwf)) as (D & g' & HE & HD & HB).
    rewrite HE in HR. simpl in HR. injection HR as _ <-. simpl.
    rewrite (HB (token_id t)), Hn1, decide_True; last first.
    { apply HD. split; [|done]. apply rtc_inv in Hd as [->|(y & (n & Hn & _) & _)]; eauto. }
    eexists. split_and!; [done..|]. simpl. apply u64_add_small.
    rewrite revocations_snoc in Hb1. simpl in Hb1.
    pose proof (exec_generation_bound _ _ _ _ H1 ltac:(lia) Hn1). lia. }
  destruct (exec_generation_mono _ _ _ _ _ _ H12 H2 Hb Hn2) as (n3 & Hn3 & Ho3 & Hr3 & Hle).
  erewrite check_live_revoked; [done|done|congruence..|]. lia.
Qed.

(** C2. Revocation is permanent and cascades: once a token, or any token it was
    delegated from, has been revoked, every later check of it fails with
    [Revoked], whatever is minted, derived or revoked afterwards, as long as
    fewer than 2^64 revocations are performed in all. *)
Theorem revocation_is_permanent tr1 s1 a s2 tr2 s3 t now required :
  exec initial tr1 s1 -> t ∈ issued tr1 ->
  step s1 (EvRevoke a) s2 -> descends (graph (mon s1)) (token_id a) (token_id t) ->
  exec s2 tr2 s3 -> revocations ((tr1 ++ [EvRevoke a]) ++ tr2) < two64 ->
  check_rights_ok_result now (mon s3) t required = Err Revoked.
Proof.
  intros H1 Ht Hst Hd H2 Hb. unfold check_rights_ok_result.
  by rewrite (revoked_stays _ _ _ _ _ _ _ _ H1 (exec_issued _ _ _ H1 Ht) Hst Hd H2 Hb).
Qed.

(** Authority over an object flows from one root and only narrows: in every
    reachable state each token's node sits below the single root minted for
    its object, every node for the same object is below that same root, and
    along every chain of delegations the rights are contained in the rights of
    every ancestor. *)
Theorem delegation_attenuates tr s b nb :
  exec initial tr s -> graph (mon s) !! b = Some nb ->
  exists a na, graph (mon s) !! a = Some na /\ parent na = None
    /\ (forall c nc, graph (mon s) !! c = Some nc ->
          (node_object nc = node_object nb <-> descends (graph (mon s)) a c))
    /\ (forall p np, graph (mon s) !! p = Some np -> descends (graph (mon s)) p b ->
          contains (node_rights np) (node_rights nb) = true).
Proof.
  intros Hex Hb. assert (Hwf : wf_state s) by eauto using exec_wf, wf_initial.
  pose proof (wfs_graph _ Hwf) as Hg.
  destruct (root_above _ _ _ Hg Hb) as (a & na & Ha & Hpa & Hab).
  destruct (descends_atten _ _ _ _ _ Hg Hab Ha Hb) as [_ Ho].
  exists a, na. split_and!; [done..| |].
  - intros c nc Hc. split.
    + intros Hoc. destruct (root_above _ _ _ Hg Hc) as (a' & na' & Ha' & Hpa' & Hac).
      destruct (descends_atten _ _ _ _ _ Hg Hac Ha' Hc) as [_ Ho'].
      assert (a = a') as -> by (eapply (wfs_roots _ Hwf); eauto; congruence). done.
    + intros Hac. destruct (descends_atten _ _ _ _ _ Hg Hac Ha Hc) as [_ Ho']. congruence.
  - intros p np Hp Hpb. by destruct (descends_atten _ _ _ _ _ Hg Hpb Hp Hb).
Qed.

Lemma min_expiry_le e o : exists e', min_expiry (Some e) o = Some e' /\ e' <= e.
Proof. destruct o as [o|]; simpl; eexists; split; [done|lia|done|lia]. Qed.

Lemma check_insert_child now g k par ch obj r t :
  g !! ch = None -> token_id t <> ch ->
  check_live now (mkMonitor (insert_child g par ch obj r) k) t = check_live now (mkMonitor g k) t.
Proof.
  intros Hch Hne. unfold check_live, matches_record, live_generation_of, insert_child. simpl.
  rewrite lookup_insert_ne by done. rewrite lookup_alter.
  destruct (decide (par = token_id t)) as [->|]; by destruct (g !! token_id t).
Qed.

(** [cap_derive] on every branch: it fails with the check's own fault and
    changes nothing when the parent is not live, fails with [CannotEscalate]
    and changes nothing when the requested rights are not contained in the
    parent's, and otherwise returns a token for the same object with exactly
    the requested rights, which never expires after its parent, whose node is
    a child of the parent's, which passes a check for those rights until its
    own expiry, while the check of every other token is unaffected. *)
Theorem cap_derive_correct tr s now par r ttl o res s' :
  exec initial tr s -> NEXT s + 1 < two64 ->
  cap_derive now s par r ttl o = (res, s') ->
  match res with
  | Err e =>
      s' = s /\ (check_live now (mon s) par = Err e
                 \/ (e = CannotEscalate /\ check_live now (mon s) par = Ok tt
                     /\ contains (rights par) r = false))
  | Ok t =>
      check_rights_ok_result now (mon s) par r = Ok tt
      /\ object_id t = object_id par /\ rights t = r /\ origin t = o
      /\ (forall e, expiry par = Some e -> exists e', expiry t = Some e' /\ e' <= e)
      /\ child (graph (mon s')) (token_id par) (token_id t)
      /\ (forall later, is_expired later t = false ->
            check_rights_ok_result later (mon s') t r = Ok tt)
      /\ (forall u later required, token_id u <> token_id t ->
            check_rights_ok_result later (mon s') u required
            = check_rights_ok_result later (mon s) u required)
  end.
Proof.
  intros Hex Hnext Hd. assert (Hwf : wf_state s) by eauto using exec_wf, wf_initial.
  assert (Hfresh : graph (mon s) !! NEXT s = None).
  { apply eq_None_not_Some. intros H. apply (wfs_ids _ Hwf) in H. lia. }
  destruct res as [t|e].
  - apply cap_derive_ok in Hd as (Hl & Hr & -> & ->). simpl.
    pose proof Hl as (np & Hnp & _)%check_live_ok.
    split_and!; [by unfold check_rights_ok_result; rewrite Hl, Hr|done|done|done|..].
    + intros e ->. apply min_expiry_le.
    + exists (push_child (NEXT s) np). unfold insert_child.
      assert (NEXT s <> token_id par) by congruence.
      rewrite lookup_insert_ne, lookup_alter_eq, Hnp by done. split; [done|].
      apply elem_of_app. right. by apply list_elem_of_singleton.
    + intros later He. unfold check_rights_ok_result.
      assert (check_live later _ _ = Ok tt) as ->.
      { apply check_live_ok. eexists. unfold insert_child. simpl. rewrite lookup_insert_eq. by split_and!. }
      by rewrite contains_refl.
    + intros u later required Hu. unfold check_rights_ok_result.
      destruct s as [[g k] nx]. simpl in *. by rewrite check_insert_child.
  - unfold cap_derive in Hd. destruct (check_live now (mon s) par) as [[]|e'] eqn:Hl.
    + destruct (contains (rights par) r) eqn:Hc; simpl in Hd; naive_solver.
    + naive_solver.
Qed.

(** C3. What a check vouches for: whatever token value is presented, if it passes a
    check then its id, object and rights are those of a token the monitor itself
    issued, it names the generation in force, and the right asked for is one of that
    token's. The origin and the expiry are those the presented value claims: the answer
    is the same for any other origin, and for any other expiry that has not passed. *)
Theorem accepted_tokens_were_issued tr s now t required :
  exec initial tr s -> check_rights_ok_result now (mon s) t required = Ok tt ->
  exists t0, t0 ∈ issued tr /\ token_id t0 = token_id t /\ object_id t0 = object_id t
             /\ rights t0 = rights t /\ contains (rights t0) required = true
             /\ (exists n, graph (mon s) !! token_id t = Some n /\ live_generation n = generation t)
             /\ forall o e, (forall x, e = Some x -> now <= x) ->
                  check_rights_ok_result now (mon s) (mkToken (token_id t) (object_id t) (rights t) (generation t) o e) required = Ok tt.
Proof.
  intros Hex Hc. unfold check_rights_ok_result in *.
  destruct (check_live now (mon s) t) as [[]|] eqn:Hl; [|done].
  destruct (contains (rights t) required) eqn:Hr; [|done].
  apply check_live_ok in Hl as (n & Hn & Ho & Hri & Hg & _).
  destruct (exec_node_issued _ _ _ _ Hex Hn) as (t0 & Ht & Hid & Ho' & Hr').
  exists t0. split_and!; [congruence..|by exists n|]. intros o e He.
  assert (check_live now (mon s) (mkToken (token_id t) (object_id t) (rights t) (generation t) o e) = Ok tt) as ->; [|simpl; by rewrite Hr].
  apply check_live_ok. exists n. split_and!; try done. unfold is_expired. simpl. destruct e as [x|]; [|done]. apply N.ltb_ge. by apply He.
Qed.

(** ** A concrete run *)

Module Example.

(** A read/write root for boundary 7, a read-only child for boundary 8 valid
    for 100 ns, and a grandchild for boundary 9. *)
Definition minted := mint_root 0 initial (rights_or READ WRITE) 7 None.
Definition root : CapabilityToken := minted.1.
Definition s1 : CapState := minted.2.
Definition kid : CapabilityToken := mkToken 2 0 READ 0 8 (Some 100).
Definition s2 : CapState := (cap_derive 0 s1 root READ (Some 100) 8).2.
Definition grandkid : CapabilityToken := mkToken 3 0 READ 0 9 (Some 100).
Definition s3 : CapState := (cap_derive 0 s2 kid READ None 9).2.
Definition trace : list event := ([EvMint root] ++ [EvDerive root kid]) ++ [EvDerive kid grandkid].
Definition s4 : CapState := default s3 (snd <$> cap_revoke s3 kid).

Lemma run1 : exec initial [EvMint root] s1.
Proof. eapply (exec_snoc _ []); [constructor|]. by eapply (step_mint 0). Qed.

Lemma run2 : exec initial ([EvMint root] ++ [EvDerive root kid]) s2.
Proof.
  econstructor; [exact run1|].
  by eapply (step_derive 0 s1 root READ (Some 100) 8); [reflexivity|vm_compute].
Qed.

Lemma run3 : exec initial trace s3.
Proof.
  econstructor; [exact run2|].
  by eapply (step_derive 0 s2 kid READ None 9); [reflexivity|vm_compute].
Qed.

Lemma revoke_kid : step s3 (EvRevoke kid) s4.
Proof. eapply (step_revoke _ _ (mkReceipt 2 1)). vm_compute. reflexivity. Qed.

End Example.
Import Example.

Lemma cap_revoke_exact_witness :
  exists rc s', cap_revoke s3 kid = Some (rc, s') /\ revoked rc = 2
    /\ check_rights_ok_result 5 (mon s') root READ = check_rights_ok_result 5 (mon s3) root READ.
Proof.
  destruct (cap_revoke_exact trace s3 kid run3) as (rc & s' & D & HR & HD & Hid & _ & _ & Hout).
  exists rc, s'. split_and!; [exact HR|exact Hid|]. apply Hout. intros Hin. apply HD in Hin as [_ Hd].
  eapply descends_le in Hd; [|apply (wfs_graph s3), (exec_wf _ _ _ wf_initial run3)]. by vm_compute in Hd.
Defined.

Lemma revocation_is_permanent_witness :
  check_rights_ok_result 5 (mon s4) grandkid READ = Err Revoked.
Proof.
  apply (revocation_is_permanent trace s3 kid s4 [] s4 grandkid 5 READ).
  - exact run3.
  - vm_compute. do 2 right. left.
  - exact revoke_kid.
  - apply rtc_once. eexists. split; [vm_compute; reflexivity|]. vm_compute. left.
  - constructor.
  - vm_compute. reflexivity.
Defined.

Lemma delegation_attenuates_witness :
  exists a na, graph (mon s3) !! a = Some na /\ parent na = None.
Proof.
  destruct (delegation_attenuates trace s3 3 (mkNode (Some 2) [] 0 0 READ) run3) as (a & na & Ha & Hp & _).
  - vm_compute. reflexivity.
  - exists a, na. split; [exact Ha|exact Hp].
Defined.

Lemma cap_derive_correct_witness :
  check_rights_ok_result 0 (mon s1) root READ = Ok tt
  /\ (exists e', expiry kid = Some e' /\ e' <= 100).
Proof.
  pose proof (cap_derive_correct [EvMint root] s1 0 root READ (Some 100) 8 (Ok kid) s2 run1) as H.
  specialize (H ltac:(by vm_compute) ltac:(reflexivity)). simpl in H. destruct H as [H1 _].
  split; [exact H1|]. exists 100. split; [reflexivity|lia].
Defined.

Lemma accepted_tokens_were_issued_witness :
  exists t0, t0 ∈ issued trace /\ rights t0 = READ.
Proof.
  destruct (accepted_tokens_were_issued trace s3 50 grandkid READ run3) as (t0 & Ht & _ & _ & Hr & _).
  - vm_compute. reflexivity.
  - exists t0. split; [exact Ht|exact Hr].
Defined.
