(* ===== verification/CapabilityWire.v ===== *)
(** Capability tokens on the wire: [crates/hyperion-capability/src/wire.rs].

    A [WireToken] is a claim; [authenticate_wire_token] turns it into a token
    by checking it against the monitor's record. [Instant::now()] is read
    twice on arrival, once to rebuild the deadline and once in the check, so
    the two readings are two arguments, [now1] and [now2]. *)
From S2P Require Import Prelude Crypto Capability.
Open Scope N_scope.

(** One millisecond in the nanoseconds of an [Instant]. *)
Definition MS : N := 1000000.

Section wire.
Context `{Signatures}.

Record WireToken := mkWire {
  w_token_id : N;
  w_object_id : N;
  w_rights : RightsMask;
  w_generation : N;
  w_origin : N;
  expiry_millis_remaining : option N;
  signature : option Signature
}.

(** The bytes a signature covers: every claimed field, little-endian. *)
Definition canonical_bytes (w : WireToken) : list N :=
  le_bytes 8 (w_token_id w)
  ++ le_bytes 8 (w_object_id w)
  ++ le_bytes 4 (bits (w_rights w))
  ++ le_bytes 8 (w_generation w)
  ++ le_bytes 8 (w_origin w)
  ++ match expiry_millis_remaining w with
     | Some ms => 1 :: le_bytes 8 ms
     | None => [0]
     end.

(** [impl From<&CapabilityToken> for WireToken]: the deadline becomes whole
    milliseconds remaining at the time of sending, 0 once it has passed. *)
Definition wire_from (now : Instant) (t : CapabilityToken) : WireToken :=
  mkWire (token_id t) (object_id t) (rights t) (generation t) (origin t)
    ((fun e => ((e - now) / MS) mod two64) <$> expiry t) None.

(** [WireToken::signed]. *)
Definition signed (now : Instant) (t : CapabilityToken) (keystore : SigningKey) : WireToken :=
  let wire := wire_from now t in
  mkWire (w_token_id wire) (w_object_id wire) (w_rights wire) (w_generation wire)
    (w_origin wire) (expiry_millis_remaining wire)
    (Some (sign keystore (canonical_bytes wire))).

Definition reconstruct_and_check (now1 now2 : Instant) (m : CapabilityMonitor)
    (wire : WireToken) : Result CapabilityToken Fault :=
  let t := from_wire_parts (w_token_id wire) (w_object_id wire) (w_rights wire)
             (w_generation wire) (w_origin wire)
             ((fun ms => now1 + ms * MS) <$> expiry_millis_remaining wire) in
  let? _ := check_live now2 m t in
  Ok t.

Definition authenticate_wire_token (now1 now2 : Instant) (m : CapabilityMonitor)
    (wire : WireToken) : Result CapabilityToken Fault :=
  reconstruct_and_check now1 now2 m wire.

Definition authenticate_wire_token_signed (now1 now2 : Instant) (m : CapabilityMonitor)
    (wire : WireToken) (vk : VerifyingKey) : Result CapabilityToken Fault :=
  let? sig := ok_or (signature wire) SignatureInvalid in
  if negb (verify (canonical_bytes wire) sig vk) then Err SignatureInvalid
  else reconstruct_and_check now1 now2 m wire.

(** ** What the fields range over *)

(** The integer widths of the struct's fields. *)
Record in_range (w : WireToken) : Prop := {
  rng_token : w_token_id w < two64;
  rng_object : w_object_id w < two64;
  rng_rights : bits (w_rights w) < two32;
  rng_generation : w_generation w < two64;
  rng_origin : w_origin w < two64;
  rng_expiry : forall ms, expiry_millis_remaining w = Some ms -> ms < two64
}.

(** Two claims that say the same. *)
Definition same_claim (w w' : WireToken) : Prop :=
  w_token_id w = w_token_id w' /\ w_object_id w = w_object_id w'
  /\ w_rights w = w_rights w' /\ w_generation w = w_generation w'
  /\ w_origin w = w_origin w' /\ expiry_millis_remaining w = expiry_millis_remaining w'.

Lemma canonical_bytes_inj w w' :
  in_range w -> in_range w' -> canonical_bytes w = canonical_bytes w' -> same_claim w w'.
Proof.
  intros [H1 H2 H3 H4 H5 H6] [K1 K2 K3 K4 K5 K6]. unfold canonical_bytes, same_claim. intros Heq.
  apply (le_bytes_app_inj 8 _ _ _ _ H1 K1) in Heq as [E1 Heq].
  apply (le_bytes_app_inj 8 _ _ _ _ H2 K2) in Heq as [E2 Heq].
  apply (le_bytes_app_inj 4 _ _ _ _ H3 K3) in Heq as [E3 Heq].
  apply (le_bytes_app_inj 8 _ _ _ _ H4 K4) in Heq as [E4 Heq].
  apply (le_bytes_app_inj 8 _ _ _ _ H5 K5) in Heq as [E5 Heq].
  split_and!; try done.
  - destruct (w_rights w), (w_rights w'). simpl in E3. congruence.
  - destruct (expiry_millis_remaining w) as [a|], (expiry_millis_remaining w') as [b|]; try done.
    apply (f_equal (@tail N)) in Heq. f_equal. exact (le_bytes_inj 8 _ _ (H6 _ eq_refl) (K6 _ eq_refl) Heq).
Qed.

Lemma canonical_bytes_signature w sig :
  canonical_bytes (mkWire (w_token_id w) (w_object_id w) (w_rights w) (w_generation w)
    (w_origin w) (expiry_millis_remaining w) sig) = canonical_bytes w.
Proof. done. Qed.

(** The gate between wire data and a usable token: it opens exactly when the
    claimed id names a node of this monitor with the claimed object and rights,
    the claimed generation is the node's live one and the rebuilt deadline has
    not passed; the token handed back carries the claim unchanged. A claim with
    a wrong object, a wrong rights mask or an unknown id is [NoSuchCapability],
    a stale generation [Revoked], a passed deadline [Expired]. *)
Theorem authenticate_wire_token_correct now1 now2 m w :
  let deadline := (fun ms => now1 + ms * MS) <$> expiry_millis_remaining w in
  let claimed := mkToken (w_token_id w) (w_object_id w) (w_rights w)
                   (w_generation w) (w_origin w) deadline in
  match graph m !! w_token_id w with
  | Some n =>
      authenticate_wire_token now1 now2 m w =
      (if decide (node_object n = w_object_id w /\ node_rights n = w_rights w) then
         if decide (live_generation n = w_generation w) then
           if is_expired now2 claimed then Err Expired else Ok claimed
         else Err Revoked
       else Err NoSuchCapability)
  | None => authenticate_wire_token now1 now2 m w = Err NoSuchCapability
  end.
Proof.
  simpl. unfold authenticate_wire_token, reconstruct_and_check, from_wire_parts, check_live,
    matches_record, live_generation_of; simpl.
  destruct (graph m !! w_token_id w) as [n|]; simpl; [|done].
  destruct (N.eqb_spec (node_object n) (w_object_id w)) as [->|Ho]; simpl;
    [|by rewrite decide_False by tauto].
  case_bool_decide as Hr; simpl; [|by rewrite decide_False by tauto].
  rewrite decide_True by done.
  destruct (N.eqb_spec (live_generation n) (w_generation w)) as [->|Hg]; simpl;
    [rewrite decide_True by done|by rewrite decide_False by done].
  by destruct (is_expired _ _).
Qed.

(** A token that is live and unexpired when sent and received keeps its id,
    object, rights, generation and origin across the wire, and the deadline
    rebuilt on arrival is the original one moved by the transit time, rounded
    down to a whole millisecond of remaining life: it is later than the
    original deadline whenever transit took a millisecond or more. *)
Theorem wire_round_trip now0 now1 now2 m t :
  check_live now0 m t = Ok tt -> now0 <= now1 ->
  (forall e, expiry t = Some e -> (e - now0) / MS < two64 /\ now2 <= now1 + (e - now0) / MS * MS) ->
  exists t', authenticate_wire_token now1 now2 m (wire_from now0 t) = Ok t'
    /\ token_id t' = token_id t /\ object_id t' = object_id t /\ rights t' = rights t
    /\ generation t' = generation t /\ origin t' = origin t
    /\ (expiry t = None -> expiry t' = None)
    /\ (forall e, expiry t = Some e -> exists e', expiry t' = Some e'
          /\ e + (now1 - now0) < e' + MS /\ e' <= e + (now1 - now0)
          /\ (now0 + MS <= now1 -> e < e')).
Proof.
  intros Hl Hle Hexp. apply check_live_ok in Hl as (n & Hn & Ho & Hr & Hg & Hx).
  unfold authenticate_wire_token, reconstruct_and_check, from_wire_parts. simpl.
  assert (check_live now2 m (mkToken (token_id t) (object_id t) (rights t) (generation t) (origin t)
    ((fun ms => now1 + ms * MS) <$> ((fun e => ((e - now0) / MS) mod two64) <$> expiry t))) = Ok tt) as ->.
  { apply check_live_ok. exists n. split_and!; try done. unfold is_expired. simpl.
    destruct (expiry t) as [e|]; [|done]. simpl. destruct (Hexp e eq_refl) as [Hb Hd].
    rewrite N.mod_small by done. apply N.ltb_ge. lia. }
  eexists. split_and!; [done..| |]; simpl; [by intros ->|].
  intros e He. rewrite He. simpl. eexists. split; [done|]. destruct (Hexp e He) as [Hb Hd].
  rewrite N.mod_small by done.
  assert (now0 <= e).
  { unfold is_expired in Hx. rewrite He in Hx. simpl in Hx. apply N.ltb_ge in Hx. lia. }
  pose proof (N.div_mod' (e - now0) MS) as Hdm. pose proof (N.mod_lt (e - now0) MS ltac:(done)) as Hml.
  clear Hexp Hb Hd. generalize dependent ((e - now0) / MS). generalize dependent ((e - now0) mod MS).
  unfold MS. intros r Hml q Hdm. split_and!; lia.
Qed.

(** An unsigned claim can outlive a revocation: the generation is taken from
    the claim, so whoever knows a token's id, object and rights has a claim
    that is accepted even after the token was revoked, by naming the node's
    current generation. *)
Theorem unsigned_claim_outlives_revocation tr s t now :
  exec initial tr s -> t ∈ issued tr ->
  exists w t', authenticate_wire_token now now (mon s) w = Ok t'
    /\ token_id t' = token_id t /\ object_id t' = object_id t /\ rights t' = rights t.
Proof.
  intros Hex Ht. destruct (exec_issued _ _ _ Hex Ht) as (n & Hn & Ho & Hr & _).
  exists (mkWire (token_id t) (object_id t) (rights t) (live_generation n) (origin t) None None).
  unfold authenticate_wire_token, reconstruct_and_check, from_wire_parts. simpl.
  assert (check_live now (mon s) (mkToken (token_id t) (object_id t) (rights t)
            (live_generation n) (origin t) None) = Ok tt) as ->.
  { apply check_live_ok. exists n. by split_and!. }
  eexists. by split_and!.
Qed.

(** The signature of one claim verifies for another. *)
Definition reused (now0 : Instant) (t : CapabilityToken) (sk : SigningKey) (w : WireToken) : Prop :=
  confused (verifying_key sk) (sign sk (canonical_bytes (wire_from now0 t))) (canonical_bytes w) (canonical_bytes (wire_from now0 t)).

(** C4. The signed entry point binds the whole claim: if the signature of a claim was
    made by [WireToken::signed] for some token, and the claim is accepted, every
    claimed field is the one that was signed, unless that one signature verifies for
    the bytes of two different claims; otherwise the answer is [SignatureInvalid],
    unless the claim is the one signed, which is judged as without a signature. *)
Theorem authenticate_signed_binds_claim now1 now2 m w sk now0 t :
  in_range w -> in_range (wire_from now0 t) -> signature w = signature (signed now0 t sk) ->
  match authenticate_wire_token_signed now1 now2 m w (verifying_key sk) with
  | Ok t' => authenticate_wire_token now1 now2 m w = Ok t'
             /\ (same_claim w (wire_from now0 t) \/ reused now0 t sk w)
  | Err e => e = SignatureInvalid /\ ~ same_claim w (wire_from now0 t)
             \/ authenticate_wire_token now1 now2 m w = Err e /\ (same_claim w (wire_from now0 t) \/ reused now0 t sk w)
  end.
Proof.
  intros Hw Ht Hsig. unfold authenticate_wire_token_signed. rewrite Hsig. simpl.
  pose proof (sig_correct sk (canonical_bytes (wire_from now0 t))) as Hc.
  destruct (verify (canonical_bytes w) _ _) eqn:Hv; simpl.
  - assert (Hsame : same_claim w (wire_from now0 t) \/ reused now0 t sk w).
    { destruct (same_or_confused _ _ _ _ Hv Hc) as [Heq|?]; [left|by right]. by apply canonical_bytes_inj in Heq. }
    unfold authenticate_wire_token. destruct (reconstruct_and_check now1 now2 m w); auto.
  - left. split; [done|]. intros (E1 & E2 & E3 & E4 & E5 & E6).
    assert (canonical_bytes w = canonical_bytes (wire_from now0 t)) as Heq
      by (unfold canonical_bytes; by rewrite E1, E2, E3, E4, E5, E6).
    rewrite Heq in Hv. congruence.
Qed.

End wire.

(** ** Witnesses *)

Import Toy Example.

Lemma wire_round_trip_witness :
  exists t', authenticate_wire_token (50 + 2 * MS) (50 + 2 * MS) (mon s3)
               (wire_from 50 kid) = Ok t' /\ rights t' = READ.
Proof.
  destruct (wire_round_trip 50 (50 + 2 * MS) (50 + 2 * MS) (mon s3) kid) as (t' & Ha & _ & _ & Hr & _).
  - vm_compute. reflexivity.
  - lia.
  - intros e He. injection He as <-. split; [vm_compute; reflexivity|vm_compute; discriminate].
  - exists t'. split; [exact Ha|exact Hr].
Defined.

Lemma unsigned_claim_outlives_revocation_witness :
  exists w t', authenticate_wire_token 5 5 (mon s4) w = Ok t' /\ token_id t' = 3.
Proof.
  destruct (unsigned_claim_outlives_revocation (trace ++ [EvRevoke kid]) s4 grandkid 5) as (w & t' & Ha & Hi & _).
  - econstructor; [exact run3|exact revoke_kid].
  - vm_compute. do 2 right. left.
  - exists w, t'. split; [exact Ha|exact Hi].
Defined.

Lemma authenticate_signed_binds_claim_witness :
  exists t', authenticate_wire_token 60 60 (mon s3) (signed 50 kid 77) = Ok t'
    /\ (same_claim (signed 50 kid 77) (wire_from 50 kid) \/ reused 50 kid 77 (signed 50 kid 77)).
Proof.
  pose proof (authenticate_signed_binds_claim 60 60 (mon s3) (signed 50 kid 77) 77 50 kid) as Hb.
  assert (Hr : in_range (wire_from 50 kid)).
  { constructor; [reflexivity..|]. intros ms Hms. injection Hms as <-. reflexivity. }
  assert (Hs : in_range (signed 50 kid 77)).
  { constructor; [reflexivity..|]. intros ms Hms. injection Hms as <-. reflexivity. }
  specialize (Hb Hs Hr eq_refl).
  destruct (authenticate_wire_token_signed _ _ _ _ _) as [t'|e]; [exists t'; exact Hb|].
  destruct Hb as [[_ Hn]|[Hb _]]; [exfalso; apply Hn; repeat split|vm_compute in Hb; discriminate].
Defined.
