(* ===== verification/Authority.v ===== *)
(** What the capability monitor promises to its clients.

    Every resource server of the system (storage, the ledger, the knowledge
    graph, ...) guards its operations by one call,
    [CapabilityMonitor::check_rights_ok_result]. [Authority] states what that
    call promises; the servers are modelled and proved against the class, and
    the monitor of [Capability] discharges it. *)
From S2P Require Import Prelude Capability.
Open Scope N_scope.

Class Authority (M : Type) := {
  authorize : Instant -> M -> CapabilityToken -> RightsMask -> Result unit Fault;
  (** Only a token that carries the rights asked for is let through. *)
  authorize_rights : forall now m t r,
    authorize now m t r = Ok tt -> contains (rights t) r = true;
  (** Asking for fewer rights never fails where asking for more succeeded. *)
  authorize_attenuates : forall now m t r r',
    contains r r' = true -> authorize now m t r = Ok tt -> authorize now m t r' = Ok tt;
  (** Time only takes authority away. *)
  authorize_earlier : forall now now' m t r,
    now' <= now -> authorize now m t r = Ok tt -> authorize now' m t r = Ok tt
}.

Lemma check_live_earlier now now' m t :
  now' <= now -> check_live now m t = Ok tt -> check_live now' m t = Ok tt.
Proof.
  intros Hle (n & Hg & Ho & Hr & Hgen & He)%check_live_ok.
  apply check_live_ok. exists n. do 4 (split; [done|]).
  unfold is_expired, is_some_and in *. destruct (expiry t); [|done].
  apply N.ltb_ge in He. apply N.ltb_ge. lia.
Qed.

#[export] Instance monitor_authority : Authority CapabilityMonitor.
Proof.
  refine {| authorize := check_rights_ok_result |}; unfold check_rights_ok_result.
  - intros now m t r. destruct (check_live now m t); [|done].
    by destruct (contains (rights t) r).
  - intros now m t r r' Hr. destruct (check_live now m t); [|done].
    destruct (contains (rights t) r) eqn:Hc; simpl; [|done].
    by rewrite (contains_trans _ _ _ Hc Hr).
  - intros now now' m t r Hle. destruct (check_live now m t) as [[]|] eqn:Hl; [|done].
    by rewrite (check_live_earlier _ _ _ _ Hle Hl).
Defined.

(** A server that trusts everyone with the rights their token shows: the
    smallest thing that meets the promise, for running clients on examples. *)
#[export] Instance open_authority : Authority unit | 10.
Proof.
  refine {| authorize := fun _ _ t r =>
              if contains (rights t) r then Ok tt else Err InsufficientRights |}.
  - intros _ _ t r. by destruct (contains (rights t) r).
  - intros _ _ t r r' Hr. destruct (contains (rights t) r) eqn:Hc; [|done].
    by rewrite (contains_trans _ _ _ Hc Hr).
  - done.
Defined.
