(* ===== verification/Wal.v ===== *)
(** The write-ahead log: [crates/hyperion-storage/src/wal.rs].

    A log file is its bytes. [replay_lines] is modelled down to what
    [BufRead::lines] does with them (splitting at newlines, stripping a
    carriage return, rejecting bytes that are not UTF-8), because what a crash
    leaves behind is a matter of bytes. The JSON encoding of a record
    ([serde_json], third-party) is the class [Codec]; ChaCha20-Poly1305 is
    [Crypto.Aead]. *)
From S2P Require Import Prelude Crypto.
Open Scope N_scope.

(** ** UTF-8 *)

Definition in_rng (lo hi b : N) : bool := (lo <=? b) && (b <=? hi).
Definition cont (b : N) : bool := in_rng 128 191 b.

(** [str::from_utf8] accepts these bytes (the well-formed sequences of the
    Unicode standard, table 3-7). *)
Fixpoint utf8_valid (bs : list N) : bool :=
  match bs with
  | [] => true
  | b0 :: r0 =>
      if b0 <? 128 then utf8_valid r0
      else match r0 with
           | [] => false
           | b1 :: r1 =>
               if in_rng 194 223 b0 then cont b1 && utf8_valid r1
               else match r1 with
                    | [] => false
                    | b2 :: r2 =>
                        if in_rng 224 239 b0 then
                          (if b0 =? 224 then in_rng 160 191 b1
                           else if b0 =? 237 then in_rng 128 159 b1 else cont b1)
                          && cont b2 && utf8_valid r2
                        else match r2 with
                             | [] => false
                             | b3 :: r3 =>
                                 in_rng 240 244 b0
                                 && (if b0 =? 240 then in_rng 144 191 b1
                                     else if b0 =? 244 then in_rng 128 143 b1 else cont b1)
                                 && cont b2 && cont b3 && utf8_valid r3
                             end
                    end
           end
  end.

(** ** Hexadecimal lines *)

(** One nibble as [{:x}] prints it. *)
Definition hex_char (n : N) : N := if n <? 10 then 48 + n else 87 + n.

Definition to_hex (bytes : list N) : list N :=
  bytes ≫= (fun b => [hex_char (b / 16); hex_char (b mod 16)]).

(** [char::to_digit(16)]. *)
Definition hex_digit (c : N) : option N :=
  if in_rng 48 57 c then Some (c - 48)
  else if in_rng 97 102 c then Some (c - 87)
  else if in_rng 65 70 c then Some (c - 55)
  else None.

(** [u8::from_str_radix(_, 16)] on two bytes; a leading plus sign is allowed. *)
Definition hex_pair (c0 c1 : N) : option N :=
  if c0 =? 43 then hex_digit c1
  else d0 ← hex_digit c0; d1 ← hex_digit c1; Some (d0 * 16 + d1).

(** What decoding a line can come to; slicing a [str] off a character boundary
    panics. *)
Inductive hexed : Type := Decoded (bytes : list N) | NotHex | HexPanics.

(** [str::is_char_boundary]: the byte at the cut is not a continuation byte. *)
Definition boundary (rest : list N) : bool :=
  match rest with [] => true | b :: _ => negb (cont b) end.

(** The [(0..len).step_by(2)] walk; [collect] stops at the first [None]. *)
Fixpoint from_hex_pairs (s : list N) : hexed :=
  match s with
  | c0 :: c1 :: rest =>
      if boundary (c0 :: c1 :: rest) && boundary rest then
        match hex_pair c0 c1 with
        | None => NotHex
        | Some b => match from_hex_pairs rest with
                    | Decoded bs => Decoded (b :: bs)
                    | other => other
                    end
        end
      else HexPanics
  | _ => Decoded []
  end.

Definition from_hex (s : list N) : hexed :=
  if Nat.odd (length s) then NotHex else from_hex_pairs s.

(** ** Records and lines *)

(** [serde_json]'s compact encoding of a [WalRecord] and its decoding. Control
    characters are escaped, so an encoding holds no newline and no carriage
    return; it is valid UTF-8; and no strict prefix of a JSON object is a JSON
    document. [R] is the type of the records that are read back as they were written;
    values nested 128 deep or more, which the reader refuses, and floats that it would
    round are not among their contents. *)
Class Codec (R : Type) := {
  encode : R -> list N;
  decode : list N -> option R;
  decode_encode : forall r, decode (encode r) = Some r;
  encode_bytes : forall r, Forall (fun b => b < 256) (encode r);
  encode_no_nl : forall r, 10 ∉ encode r;
  encode_no_cr : forall r, 13 ∉ encode r;
  encode_nonempty : forall r, encode r <> [];
  encode_utf8 : forall r, utf8_valid (encode r) = true;
  encode_prefix : forall r p q, encode r = p ++ q -> q <> [] -> decode p = None
}.

Section wal.
Context {R : Type} `{Codec R} `{Aead}.

(** An open log: the file's bytes and the sealing key, if it is encrypted. *)
Record Wal := mkWal {
  file : list N;
  seal : option Key
}.

(** [BufRead::lines]: each line with the flag "a newline ended it". *)
Fixpoint segments (bs : list N) : list (list N * bool) :=
  match bs with
  | [] => []
  | b :: rest =>
      if b =? 10 then ([], true) :: segments rest
      else match segments rest with
           | [] => [([b], false)]
           | (s, t) :: tl => (b :: s, t) :: tl
           end
  end.

(** A carriage return before the newline goes too. *)
Definition strip_cr (seg : list N * bool) : list N :=
  let '(s, t) := seg in
  if t then (if bool_decide (last s = Some 13) then removelast s else s) else s.

Inductive parsed : Type := Parsed (r : R) | Torn | ParsePanics.

Definition parse_line (line : list N) (k : option Key) : parsed :=
  match k with
  | Some k =>
      match from_hex line with
      | HexPanics => ParsePanics
      | NotHex => Torn
      | Decoded sealed =>
          match SealedStream.open k sealed with
          | Err _ => Torn
          | Ok plaintext => match decode plaintext with Some r => Parsed r | None => Torn end
          end
      end
  | None => match decode line with Some r => Parsed r | None => Torn end
  end.

(** How a replay can fail: [lines] reports bytes that are not UTF-8 as an
    [io::Error], and [from_hex] can panic. *)
Inductive ReplayFailure : Type := InvalidData | Panicked.

Fixpoint replay_segments (segs : list (list N * bool)) (k : option Key) :
    Result (list R) ReplayFailure :=
  match segs with
  | [] => Ok []
  | seg :: segs =>
      if negb (utf8_valid seg.1) then Err InvalidData
      else
        let line := strip_cr seg in
        match line with
        | [] => replay_segments segs k
        | _ =>
            match parse_line line k with
            | Parsed r => match replay_segments segs k with
                          | Ok rs => Ok (r :: rs)
                          | Err e => Err e
                          end
            | Torn => Ok []
            | ParsePanics => Err Panicked
            end
        end
  end.

(** [replay_lines]; [None] is a path that does not exist. *)
Definition replay_lines (path : option (list N)) (k : option Key) : Result (list R) ReplayFailure :=
  match path with
  | None => Ok []
  | Some bytes => replay_segments (segments bytes) k
  end.

Definition replay (path : option (list N)) : Result (list R) ReplayFailure := replay_lines path None.
Definition replay_encrypted (path : option (list N)) (k : Key) : Result (list R) ReplayFailure :=
  replay_lines path (Some k).

(** [OpenOptions::new().create(true).append(true)]: existing bytes are kept
    exactly as they are. *)
Definition open_for_append (path : option (list N)) : Wal := mkWal (default [] path) None.
Definition open_for_append_encrypted (path : option (list N)) (k : Key) : Wal :=
  mkWal (default [] path) (Some k).

(** The bytes of one record, without its newline. *)
Definition record_line (k : option Key) (nonce : list N) (r : R) : list N :=
  match k with
  | Some k => to_hex (SealedStream.seal k nonce (encode r))
  | None => encode r
  end.

(** What the operating system did with a write: all of it reached the file, or
    an error was returned after some of the bytes did. *)
Inductive write_outcome : Type := Written | Failed (reached : nat).

Definition append_and_fsync (w : Wal) (nonce : list N) (r : R) (io : write_outcome) : bool * Wal :=
  let line := record_line (seal w) nonce r ++ [10] in
  match io with
  | Written => (true, mkWal (file w ++ line) (seal w))
  | Failed n => (false, mkWal (file w ++ take n line) (seal w))
  end.

(** The replacement file [compact_impl] writes; the [i]-th record is sealed
    under the [i]-th nonce drawn. *)
Fixpoint compact_bytes (k : option Key) (nonces : nat -> list N) (i : nat) (records : list R) : list N :=
  match records with
  | [] => []
  | r :: records => record_line k (nonces i) r ++ [10] ++ compact_bytes k nonces (S i) records
  end.

(** How a compaction can end: an I/O error before the rename, an error opening
    the file just renamed into place, or success. *)
Inductive compact_outcome : Type := CompactFailed | ReopenFailed | Compacted.

(** [compact_impl]: the file left at the path, and the log returned. The rename
    makes the replacement all or nothing. *)
Definition compact_impl (path : option (list N)) (k : option Key) (nonces : nat -> list N)
    (records : list R) (io : compact_outcome) : option (list N) * option Wal :=
  let replaced := Some (compact_bytes k nonces 0 records) in
  match io with
  | CompactFailed => (path, None)
  | ReopenFailed => (replaced, None)
  | Compacted =>
      (replaced, Some (match k with
                       | Some k => open_for_append_encrypted replaced k
                       | None => open_for_append replaced
                       end))
  end.

(** ** Lines *)

Lemma segments_line a b : 10 ∉ a -> segments (a ++ 10 :: b) = (a, true) :: segments b.
Proof.
  induction a as [|x a IH]; intros Hn; simpl; [done|].
  apply not_elem_of_cons in Hn as [Hx Hn]. rewrite IH by done.
  destruct (N.eqb_spec x 10) as [->|]; [by destruct Hx|done].
Qed.

Lemma segments_open a : 10 ∉ a -> a <> [] -> segments a = [(a, false)].
Proof.
  induction a as [|x a IH]; intros Hn Hne; [done|]. simpl.
  apply not_elem_of_cons in Hn as [Hx Hn].
  destruct (N.eqb_spec x 10) as [->|]; [by destruct Hx|].
  destruct a as [|y a]; [done|]. by rewrite IH.
Qed.

Lemma utf8_ascii l : Forall (fun b => b < 128) l -> utf8_valid l = true.
Proof.
  induction 1 as [|b l Hb _ IH]; simpl; [done|]. by apply N.ltb_lt in Hb as ->.
Qed.

(** ** Hexadecimal round trip *)

Lemma hex_char_range n : n < 16 -> 48 <= hex_char n /\ hex_char n < 103.
Proof. unfold hex_char. intros. destruct (N.ltb_spec n 10); lia. Qed.

Lemma hex_digit_char n : n < 16 -> hex_digit (hex_char n) = Some n.
Proof.
  intros Hn. unfold hex_char, hex_digit, in_rng.
  destruct (N.ltb_spec n 10).
  - replace (48 <=? 48 + n) with true by (symmetry; apply N.leb_le; lia).
    replace (48 + n <=? 57) with true by (symmetry; apply N.leb_le; lia).
    simpl. f_equal. lia.
  - replace (87 + n <=? 57) with false by (symmetry; apply N.leb_gt; lia).
    rewrite andb_false_r.
    replace (97 <=? 87 + n) with true by (symmetry; apply N.leb_le; lia).
    replace (87 + n <=? 102) with true by (symmetry; apply N.leb_le; lia).
    simpl. f_equal. lia.
Qed.

Lemma to_hex_range bs : Forall (fun b => b < 256) bs -> Forall (fun c => 48 <= c < 103) (to_hex bs).
Proof.
  induction 1 as [|b bs Hb _ IH]; [constructor|]. unfold to_hex. simpl.
  assert (b / 16 < 16) by (apply N.Div0.div_lt_upper_bound; lia).
  assert (b mod 16 < 16) by (by apply N.mod_lt).
  constructor; [by apply hex_char_range|]. constructor; [by apply hex_char_range|exact IH].
Qed.

Lemma length_to_hex bs : length (to_hex bs) = (2 * length bs)%nat.
Proof.
  induction bs as [|b bs IH]; [done|].
  change (to_hex (b :: bs)) with (hex_char (b / 16) :: hex_char (b mod 16) :: to_hex bs).
  simpl. rewrite IH. lia.
Qed.

Lemma boundary_ascii l : Forall (fun c => 48 <= c < 103) l -> boundary l = true.
Proof.
  intros [|c l' Hc _]; [done|]. simpl. unfold cont, in_rng.
  replace (128 <=? c) with false by (symmetry; apply N.leb_gt; lia). done.
Qed.

Lemma from_hex_pairs_to_hex bs :
  Forall (fun b => b < 256) bs -> from_hex_pairs (to_hex bs) = Decoded bs.
Proof.
  induction 1 as [|b bs Hb Hbs IH]; [done|].
  pose proof (to_hex_range (b :: bs) ltac:(by constructor)) as Hr.
  change (to_hex (b :: bs)) with (hex_char (b / 16) :: hex_char (b mod 16) :: to_hex bs) in *.
  cbn [from_hex_pairs]. rewrite (boundary_ascii _ Hr), (boundary_ascii _ (to_hex_range _ Hbs)). simpl.
  assert (b / 16 < 16) by (apply N.Div0.div_lt_upper_bound; lia).
  assert (b mod 16 < 16) by (by apply N.mod_lt).
  unfold hex_pair. pose proof (hex_char_range (b / 16) ltac:(done)).
  replace (hex_char (b / 16) =? 43) with false by (symmetry; apply N.eqb_neq; lia).
  rewrite !hex_digit_char by done. simpl. rewrite IH. do 2 f_equal.
  pose proof (N.div_mod' b 16). lia.
Qed.

Lemma from_hex_to_hex bs : Forall (fun b => b < 256) bs -> from_hex (to_hex bs) = Decoded bs.
Proof.
  intros Hb. unfold from_hex. rewrite length_to_hex, Nat.odd_mul. simpl. by apply from_hex_pairs_to_hex.
Qed.

(** ** Well-formed logs *)

(** What [append_and_fsync] writes for a record: one line that replays as it. *)
Record good_line (k : option Key) (r : R) (line : list N) : Prop := {
  gl_no_nl : 10 ∉ line;
  gl_no_cr : 13 ∉ line;
  gl_nonempty : line <> [];
  gl_utf8 : utf8_valid line = true;
  gl_parse : parse_line line k = Parsed r
}.

(** A nonce is twelve bytes. *)
Definition is_nonce (n : list N) : Prop :=
  length n = SealedStream.NONCE_LEN /\ Forall (fun b => b < 256) n.

Lemma record_line_good k nonce r : is_nonce nonce -> good_line k r (record_line k nonce r).
Proof.
  intros [Hlen Hb]. destruct k as [k|]; simpl.
  - assert (Hs : Forall (fun b => b < 256) (SealedStream.seal k nonce (encode r))).
    { unfold SealedStream.seal. apply Forall_app. auto using encrypt_bytes, encode_bytes. }
    pose proof (to_hex_range _ Hs) as Hr. rewrite Forall_forall in Hr.
    constructor.
    + intros Hin. apply Hr in Hin. lia.
    + intros Hin. apply Hr in Hin. lia.
    + intros Hnil. apply (f_equal length) in Hnil. rewrite length_to_hex in Hnil.
      unfold SealedStream.seal in Hnil. rewrite length_app, Hlen in Hnil. simpl in Hnil. lia.
    + apply utf8_ascii. apply Forall_forall. intros c Hc. apply Hr in Hc. lia.
    + unfold parse_line. by rewrite from_hex_to_hex, SealedStream.open_seal, decode_encode by done.
  - constructor; auto using encode_no_nl, encode_no_cr, encode_nonempty, encode_utf8.
    unfold parse_line. by rewrite decode_encode.
Qed.

Lemma strip_cr_good line t : 13 ∉ line -> strip_cr (line, t) = line.
Proof.
  intros Hn. unfold strip_cr. destruct t; [|done]. case_bool_decide as Hl; [|done].
  exfalso. apply Hn. by apply last_Some_elem_of.
Qed.

Lemma strip_cr_last torn line :
  13 ∉ line -> line <> [] -> strip_cr (torn ++ line, true) = torn ++ line.
Proof.
  intros Hn Hne. unfold strip_cr. case_bool_decide as Hlast; [|done]. exfalso. apply Hn.
  apply last_Some_elem_of. by rewrite last_app in Hlast; destruct line as [|? ?] using rev_ind;
    [|rewrite last_snoc in *].
Qed.

Lemma from_hex_ascii s : Forall (fun b => b < 128) s -> from_hex s <> HexPanics.
Proof.
  intros Hs. unfold from_hex. destruct (Nat.odd (length s)); [done|].
  assert (Hb : forall l, Forall (fun b => b < 128) l -> boundary l = true).
  { intros l [|c l' Hc _]; [done|]. simpl. unfold cont, in_rng.
    by replace (128 <=? c) with false by (symmetry; apply N.leb_gt; lia). }
  remember (length s) as n eqn:Hlen. revert s Hs Hlen.
  induction n as [n IH] using lt_wf_ind. intros s Hs Hlen.
  destruct s as [|c0 [|c1 rest]]; [done..|]. cbn [from_hex_pairs].
  rewrite (Hb _ Hs). inversion_clear Hs as [|? ? _ Hs']. inversion_clear Hs' as [|? ? _ Hs''].
  rewrite (Hb _ Hs''). simpl. destruct (hex_pair c0 c1); [|done].
  assert (Hr : from_hex_pairs rest <> HexPanics).
  { eapply (IH (length rest)); [|done|done]. subst n. simpl. lia. }
  by destruct (from_hex_pairs rest).
Qed.

(** [log k f rs]: the bytes [f] are the lines of the records [rs], each closed
    by its newline. *)
Inductive log (k : option Key) : list N -> list R -> Prop :=
| log_nil : log k [] []
| log_cons nonce r f rs :
    is_nonce nonce -> log k f rs -> log k (record_line k nonce r ++ 10 :: f) (r :: rs).

Lemma log_app k f1 rs1 f2 rs2 : log k f1 rs1 -> log k f2 rs2 -> log k (f1 ++ f2) (rs1 ++ rs2).
Proof.
  intros H1 H2. induction H1 as [|nonce r f rs Hn _ IH]; [done|].
  simpl. rewrite <- app_assoc. simpl. by constructor.
Qed.

Lemma log_snoc k f rs nonce r :
  is_nonce nonce -> log k f rs -> log k (f ++ record_line k nonce r ++ [10]) (rs ++ [r]).
Proof. intros Hn Hl. apply log_app; [done|]. constructor; [done|constructor]. Qed.

Lemma compact_bytes_log k nonces i records :
  (forall j, is_nonce (nonces j)) -> log k (compact_bytes k nonces i records) records.
Proof.
  intros Hn. revert i. induction records as [|r records IH]; intros i; simpl; by constructor.
Qed.

(** Replaying a well-formed log followed by anything yields its records and
    then whatever the rest yields. *)
Definition prepend (rs : list R) (res : Result (list R) ReplayFailure) :
    Result (list R) ReplayFailure :=
  match res with Ok l => Ok (rs ++ l) | Err e => Err e end.

Lemma replay_good_segment k r line t segs :
  good_line k r line ->
  replay_segments ((line, t) :: segs) k = prepend [r] (replay_segments segs k).
Proof.
  intros [Hnl Hcr Hne Hu Hp]. cbn [replay_segments]. simpl fst. rewrite Hu. cbn [negb].
  rewrite strip_cr_good by done. destruct line as [|b line]; [done|]. rewrite Hp.
  by destruct (replay_segments segs k).
Qed.

Lemma log_replay_app k f rs p :
  log k f rs -> replay_segments (segments (f ++ p)) k = prepend rs (replay_segments (segments p) k).
Proof.
  induction 1 as [|nonce r f rs Hn Hl IH].
  { simpl. by destruct (replay_segments (segments p) k). }
  rewrite <- app_assoc. simpl. pose proof (record_line_good k nonce r Hn) as Hg.
  rewrite segments_line by apply Hg. rewrite (replay_good_segment k r) by done. rewrite IH.
  by destruct (replay_segments (segments p) k).
Qed.

Lemma log_replay k f rs : log k f rs -> replay_lines (Some f) k = Ok rs.
Proof.
  intros Hl. simpl. rewrite <- (app_nil_r f) at 1. rewrite (log_replay_app _ _ _ _ Hl). simpl.
  by rewrite app_nil_r.
Qed.

(** The file after a write that stopped after [n] bytes of the line. *)
Lemma append_failed_file w nonce r n :
  file (append_and_fsync w nonce r (Failed n)).2
  = file w ++ take n (record_line (seal w) nonce r ++ [10]).
Proof. done. Qed.

Lemma replay_torn_segment k line :
  line <> [] -> utf8_valid line = true -> parse_line line k = Torn ->
  replay_segments [(line, false)] k = Ok [].
Proof.
  intros Hne Hu Hp. cbn [replay_segments]. simpl fst. rewrite Hu. cbn [negb strip_cr].
  destruct line; [done|]. by rewrite Hp.
Qed.

Lemma replay_segments_whole r n :
  (length (encode r) <= n)%nat ->
  replay_segments (segments (take n (encode r ++ [10]))) None = Ok [r].
Proof.
  intros Hn. assert (good_line None r (encode r)) as Hgood.
  { constructor; auto using encode_no_nl, encode_no_cr, encode_nonempty, encode_utf8.
    unfold parse_line. by rewrite decode_encode. }
  rewrite take_app_ge by done. destruct (n - length (encode r))%nat as [|m].
  - simpl. rewrite app_nil_r, segments_open by apply Hgood.
    by rewrite (replay_good_segment _ _ _ _ _ Hgood).
  - simpl. rewrite take_nil, segments_line by apply Hgood.
    by rewrite (replay_good_segment _ _ _ _ _ Hgood).
Qed.

(** ** The log as a list of records *)

(** The operations a storage engine performs on its log. *)
Inductive wal_op : Type :=
| OpAppend (nonce : list N) (r : R)
| OpCompact (nonces : nat -> list N) (records : list R)
| OpReopen.

Definition op_nonces (o : wal_op) : Prop :=
  match o with
  | OpAppend nonce _ => is_nonce nonce
  | OpCompact nonces _ => forall i, is_nonce (nonces i)
  | OpReopen => True
  end.

(** One successful operation on the open log... *)
Definition wal_step (k : option Key) (w : Wal) (o : wal_op) : Wal :=
  match o with
  | OpAppend nonce r => (append_and_fsync w nonce r Written).2
  | OpCompact nonces records =>
      default w (compact_impl (Some (file w)) k nonces records Compacted).2
  | OpReopen => match k with
                | Some k => open_for_append_encrypted (Some (file w)) k
                | None => open_for_append (Some (file w))
                end
  end.

(** ... and on the list of records it stands for. *)
Definition spec_step (rs : list R) (o : wal_op) : list R :=
  match o with
  | OpAppend _ r => rs ++ [r]
  | OpCompact _ records => records
  | OpReopen => rs
  end.

Lemma wal_step_log k w rs o :
  op_nonces o -> seal w = k -> log k (file w) rs ->
  seal (wal_step k w o) = k /\ log k (file (wal_step k w o)) (spec_step rs o).
Proof.
  intros Hn Hk Hl. destruct o as [nonce r|nonces records|]; simpl in *.
  - split; [done|]. rewrite Hk. by apply log_snoc.
  - destruct k; simpl; (split; [done|by apply compact_bytes_log]).
  - destruct k; done.
Qed.

(** C5. The log implements a list of records: after any sequence of completed
    appends, compactions and reopenings from a fresh file, in plaintext or
    sealed, replaying the file's bytes yields exactly the records appended since
    the last compaction after those it kept, in order. *)
Theorem wal_refines_record_list k ops :
  Forall op_nonces ops ->
  let w := fold_left (wal_step k) ops (mkWal [] k) in
  replay_lines (Some (file w)) k = Ok (fold_left spec_step ops []).
Proof.
  intros Hops w. apply log_replay. subst w.
  cut (seal (fold_left (wal_step k) ops (mkWal [] k)) = k
       /\ log k (file (fold_left (wal_step k) ops (mkWal [] k))) (fold_left spec_step ops [])).
  { by intros [_ ?]. }
  assert (Hi : seal (mkWal [] k) = k /\ log k (file (mkWal [] k)) []) by (split; [done|constructor]).
  revert Hi. generalize (mkWal [] k) ([] : list R).
  induction Hops as [|o ops Ho _ IH]; intros w rs [Hk Hl]; [done|].
  simpl. apply IH. by apply wal_step_log.
Qed.

(** What a crash inside an append leaves behind, exactly: [n] bytes of the
    line of [r] reached a plaintext log holding [rs]. The torn record is there
    in full if only its newline is missing; otherwise it is dropped and every
    earlier record is recovered, unless the cut falls inside a multi-byte
    character: then [lines] reports invalid data and the whole replay fails. *)
Theorem torn_append_replay w rs nonce r n :
  seal w = None -> log None (file w) rs ->
  replay (Some (file (append_and_fsync w nonce r (Failed n)).2))
  = if (length (encode r) <=? n)%nat then Ok (rs ++ [r])
    else if utf8_valid (take n (encode r)) then Ok rs else Err InvalidData.
Proof.
  intros Hk Hl. rewrite append_failed_file, Hk. unfold replay, replay_lines.
  rewrite (log_replay_app _ _ _ _ Hl). cbn [record_line].
  destruct (Nat.leb_spec (length (encode r)) n) as [Hn|Hn].
  - rewrite (replay_segments_whole r n) by done. done.
  - rewrite take_app_le by lia. destruct n as [|n].
    { simpl. by rewrite app_nil_r. }
    assert (Hne : take (S n) (encode r) <> []).
    { pose proof (encode_nonempty r). by destruct (encode r). }
    rewrite segments_open;
      [|intros (i & Hi & _)%elem_of_take; by eapply (encode_no_nl r), list_elem_of_lookup_2|done].
    destruct (utf8_valid (take (S n) (encode r))) eqn:Hu.
    + rewrite replay_torn_segment; [by simpl; rewrite app_nil_r|done|done|].
      unfold parse_line. rewrite (encode_prefix r _ (drop (S n) (encode r))); [done|by rewrite take_drop|].
      intros Hd. apply (f_equal length) in Hd. rewrite length_drop in Hd. simpl in Hd. lia.
    + cbn [replay_segments]. simpl fst. by rewrite Hu.
Qed.

(** A torn tail poisons what is appended after it: opening the log does not
    truncate the tail, so the next append is written on the same line, and when
    the two do not parse together the record, although reported as committed, is
    not there on replay, nor is any record appended after it. *)
Theorem append_after_torn_tail_is_lost k f rs torn nonce r later :
  log k f rs -> is_nonce nonce ->
  10 ∉ torn -> utf8_valid (torn ++ record_line k nonce r) = true ->
  parse_line (torn ++ record_line k nonce r) k = Torn ->
  let w := match k with
           | Some k => open_for_append_encrypted (Some (f ++ torn)) k
           | None => open_for_append (Some (f ++ torn))
           end in
  let appended := append_and_fsync w nonce r Written in
  appended.1 = true
  /\ replay_lines (Some (file appended.2 ++ later)) k = Ok rs.
Proof.
  intros Hl Hn Hnl Hu Hp w. set (line := record_line k nonce r) in *.
  pose proof (record_line_good k nonce r Hn) as Hg. fold line in Hg.
  assert (Hf : file (append_and_fsync w nonce r Written).2 = f ++ (torn ++ line) ++ [10]).
  { subst w line. destruct k; simpl; by rewrite <- !app_assoc. }
  split; [by subst w; destruct k|]. rewrite Hf. unfold replay_lines.
  rewrite <- app_assoc, (log_replay_app _ _ _ _ Hl), <- app_assoc. cbn [app].
  rewrite segments_line
    by (rewrite elem_of_app; intros [?|?]; [done|by apply (gl_no_nl _ _ _ Hg)]).
  cbn [replay_segments]. simpl fst. rewrite Hu. cbn [negb].
  rewrite strip_cr_last by apply Hg.
  assert (Hne : torn ++ line <> []) by (intros [_ ?]%app_nil; by apply (gl_nonempty _ _ _ Hg)).
  destruct (torn ++ line) as [|b l]; [done|]. rewrite Hp. simpl. by rewrite app_nil_r.
Qed.

(** [from_hex] inverts [to_hex]; a line of even length whose bytes are
    ASCII decodes or is refused; but a line that is valid UTF-8 and not ASCII
    can cut a character in two, and then replaying an encrypted log panics
    instead of stopping at that line. *)
Theorem hex_lines k f rs :
  log (Some k) f rs ->
  (forall bs, Forall (fun b => b < 256) bs -> from_hex (to_hex bs) = Decoded bs)
  /\ (forall s, Forall (fun b => b < 128) s -> from_hex s <> HexPanics)
  /\ (forall c x, utf8_valid (48 :: c) = true -> cont x = true ->
        nth_error c 1 = Some x -> Nat.odd (length c) = true ->
        10 ∉ c ->
        replay_encrypted (Some (f ++ 48 :: c)) k = Err Panicked).
Proof.
  intros Hl. split; [apply from_hex_to_hex|]. split; [apply from_hex_ascii|].
  intros c x Hu Hx Hc Hodd Hnl. unfold replay_encrypted, replay_lines.
  rewrite (log_replay_app _ _ _ _ Hl).
  rewrite segments_open; [|rewrite elem_of_cons; intros [?|?]; [lia|done]|done].
  cbn [replay_segments]. simpl fst. rewrite Hu. cbn [negb strip_cr parse_line].
  destruct c as [|c0 [|c1 c]]; [done..|]. injection Hc as ->.
  unfold from_hex. cbn [length] in *. rewrite Nat.odd_succ, <- Nat.negb_odd, Hodd. simpl.
  by rewrite Hx.
Qed.
End wal.

(** ** A concrete codec *)

(** Records that are strings of bits, written as digits between braces: enough
    to run the log on concrete bytes. A record that holds [None] writes an
    accented letter, two bytes of UTF-8. *)
Module ToyRecords.
Definition rec : Type := list (option bool).

Definition digit (d : option bool) : list N :=
  match d with Some false => [48] | Some true => [49] | None => [195; 169] end.

Fixpoint digits (r : rec) : list N :=
  match r with [] => [] | d :: r => digit d ++ digits r end.

Definition encode_rec (r : rec) : list N := [123] ++ digits r ++ [125].

Fixpoint decode_body (bs : list N) : option rec :=
  match bs with
  | [] => None
  | b :: bs =>
      if b =? 125 then (match bs with [] => Some [] | _ => None end)
      else if b =? 48 then r ← decode_body bs; Some (Some false :: r)
      else if b =? 49 then r ← decode_body bs; Some (Some true :: r)
      else if b =? 195 then
        match bs with
        | c :: bs => if c =? 169 then r ← decode_body bs; Some (None :: r) else None
        | [] => None
        end
      else None
  end.

Definition decode_rec (bs : list N) : option rec :=
  match bs with b :: bs => if b =? 123 then decode_body bs else None | [] => None end.

Lemma decode_encode_rec r : decode_rec (encode_rec r) = Some r.
Proof.
  unfold decode_rec, encode_rec. simpl.
  induction r as [|[[]|] r IH]; simpl in *; [done|by rewrite IH..].
Qed.

Lemma digits_bytes P r : P 48 -> P 49 -> P 195 -> P 169 -> Forall P (digits r).
Proof. intros. induction r as [|[[]|] r IH]; simpl; repeat constructor; auto. Qed.

Lemma encode_rec_bytes P r :
  P 123 -> P 125 -> P 48 -> P 49 -> P 195 -> P 169 -> Forall P (encode_rec r).
Proof.
  intros. unfold encode_rec. repeat (apply Forall_app; split); [by repeat constructor|by apply digits_bytes|].
  by repeat constructor.
Qed.

Lemma encode_rec_avoids c r :
  c ∉ [123; 125; 48; 49; 195; 169] -> c ∉ encode_rec r.
Proof.
  intros Hc Hin.
  assert (Hall : Forall (fun b => b <> c) (encode_rec r)) by (apply encode_rec_bytes; set_solver).
  rewrite Forall_forall in Hall. by apply (Hall c).
Qed.

Lemma decode_body_prefix r p q :
  digits r ++ [125] = p ++ q -> q <> [] -> decode_body p = None.
Proof.
  revert p. induction r as [|d r IH]; intros p Heq Hq.
  - destruct p as [|b p]; [done|]. simpl in Heq. injection Heq as <- Heq.
    destruct p, q; done.
  - destruct p as [|b p]; [done|]. destruct d as [[]|]; simpl in Heq.
    1, 2: injection Heq as <- Heq; simpl; by rewrite (IH _ Heq).
    injection Heq as <- Heq. destruct p as [|b p]; [done|]. injection Heq as <- Heq.
    simpl. by rewrite (IH _ Heq).
Qed.

#[export] Instance toy_codec : Codec rec.
Proof.
  refine {| encode := encode_rec; decode := decode_rec |}.
  - apply decode_encode_rec.
  - intros r. by apply encode_rec_bytes.
  - intros r. apply encode_rec_avoids. set_solver.
  - intros r. apply encode_rec_avoids. set_solver.
  - done.
  - intros r. unfold encode_rec. simpl. by induction r as [|[[]|] r IH].
  - intros r p q Heq Hq. destruct p as [|b p]; [done|]. unfold encode_rec in Heq. simpl in Heq.
    injection Heq as <- Heq. by apply (decode_body_prefix r p q).
Defined.

(** Any countable type of records, through its binary code. *)
Fixpoint pos_bits (p : positive) : rec :=
  match p with xH => [] | xO p => Some false :: pos_bits p | xI p => Some true :: pos_bits p end.

Fixpoint bits_pos (r : rec) : option positive :=
  match r with
  | [] => Some 1%positive
  | Some b :: r => p ← bits_pos r; Some (if b then p~1 else p~0)%positive
  | None :: _ => None
  end.

Lemma bits_pos_bits p : bits_pos (pos_bits p) = Some p.
Proof. induction p as [p IH|p IH|]; simpl; [by rewrite IH..|done]. Qed.

Definition countable_codec (R : Type) `{Countable R} : Codec R.
Proof.
  refine {| Wal.encode := fun r => encode_rec (pos_bits (countable.encode r));
            Wal.decode := fun bs => b ← decode_rec bs; p ← bits_pos b; countable.decode p |}.
  - intros r. rewrite decode_encode_rec. simpl. rewrite bits_pos_bits. simpl. apply countable.decode_encode.
  - intros r. exact (@encode_bytes _ toy_codec _).
  - intros r. exact (@encode_no_nl _ toy_codec _).
  - intros r. exact (@encode_no_cr _ toy_codec _).
  - done.
  - intros r. exact (@encode_utf8 _ toy_codec _).
  - intros r p q Heq Hq. pose proof (@encode_prefix _ toy_codec _ p q Heq Hq) as Hp.
    simpl in Hp. by rewrite Hp.
Defined.
End ToyRecords.
Import Crypto.Toy ToyRecords.

Definition toy_key : @Key toy_aead := tt.
Definition toy_nonce : list N := repeat 7 12.

Lemma toy_nonce_ok : is_nonce toy_nonce.
Proof. split; [done|]. by repeat constructor. Defined.

Lemma wal_refines_record_list_witness :
  let ops := [OpAppend toy_nonce [Some true]; OpReopen; OpAppend toy_nonce [None];
              OpCompact (fun _ => toy_nonce) [[Some true; None]]; OpAppend toy_nonce []] in
  replay_lines (Some (file (fold_left (wal_step (Some toy_key)) ops (mkWal [] (Some toy_key))))) (Some toy_key)
  = Ok [[Some true; None]; []].
Proof.
  intros ops. apply (wal_refines_record_list (Some toy_key) ops).
  repeat constructor; simpl; auto using toy_nonce_ok.
Defined.

(** A log holding one record, for the witnesses below. *)
Definition toy_log (k : option (@Key toy_aead)) : list N := record_line k toy_nonce [Some true] ++ [10].

Lemma toy_log_ok k : log k (toy_log k) [[Some true]].
Proof. apply (log_cons k toy_nonce [Some true] [] []); [apply toy_nonce_ok|constructor]. Defined.

Lemma torn_append_replay_witness :
  replay (Some (file (append_and_fsync (mkWal (toy_log None) None) toy_nonce [None] (Failed 2)).2))
  = Err InvalidData.
Proof.
  rewrite (torn_append_replay (mkWal (toy_log None) None) [[Some true]] toy_nonce [None] 2);
    [reflexivity|reflexivity|apply toy_log_ok].
Defined.

Lemma append_after_torn_tail_is_lost_witness :
  let w := open_for_append (Some (toy_log None ++ [123; 48])) in
  let appended := append_and_fsync w toy_nonce [Some true; Some true] Written in
  appended.1 = true
  /\ replay_lines (Some (file appended.2 ++ toy_log None)) None = Ok [[Some true]].
Proof.
  apply (append_after_torn_tail_is_lost None (toy_log None) [[Some true]] [123; 48] toy_nonce
           [Some true; Some true] (toy_log None));
    [apply toy_log_ok|apply toy_nonce_ok|set_solver|reflexivity|reflexivity].
Defined.

Lemma hex_lines_witness :
  replay_encrypted (R := rec) (Some (toy_log (Some toy_key) ++ [48; 195; 169; 48])) toy_key = Err Panicked.
Proof.
  apply (hex_lines toy_key (toy_log (Some toy_key)) [[Some true]] (toy_log_ok (Some toy_key))) with (x := 169);
    [reflexivity|reflexivity|reflexivity|reflexivity|set_solver].
Defined.
