(* ===== verification/Storage.v ===== *)
(** The storage engine: [crates/hyperion-storage/src/{types,engine}.rs].

    An engine keeps three views in memory (the metadata of each object, its
    current version, and every version by id) and a log on disk, and promises
    that the views are always what replaying the log would rebuild. The model
    holds the bytes at the engine's path beside the open log: a compaction that
    renames a new file into place and then fails to reopen it leaves the engine
    with a handle on a file that has no name any more ([linked = false]).
    [serde_json::Value] is the type [V], its [Null] a parameter. *)
From S2P Require Import Prelude Crypto Capability Authority Wal.
Open Scope N_scope.

(** ** types.rs *)

Abbreviation VersionId := N (only parsing).

Record WalRecord (V : Type) := mkRecord {
  object_id : N;
  prev_version : option VersionId;
  new_version : VersionId;
  metadata : V;
  actor_origin : N
}.
Arguments mkRecord {V} _ _ _ _ _.
Arguments object_id {V} _.
Arguments prev_version {V} _.
Arguments new_version {V} _.
Arguments metadata {V} _.
Arguments actor_origin {V} _.

Record VersionRecord (V : Type) := mkVersion {
  vr_object_id : N;
  parent_version : option VersionId;
  vr_metadata : V
}.
Arguments mkVersion {V} _ _ _.
Arguments vr_object_id {V} _.
Arguments parent_version {V} _.
Arguments vr_metadata {V} _.

Inductive StorageError : Type :=
| Unauthorized
| NotFound
| ConcurrentWriteConflict (object_id : N) (expected found : option VersionId)
| WalError.

(** [StorageEngine::open] either fails with an error or, see [Wal.from_hex],
    panics. *)
Inductive OpenFailure : Type := OpenErr (e : StorageError) | OpenPanics.

(** ** engine.rs *)

Section storage.
Context {V : Type} (Null : V) `{Codec (WalRecord V)} `{Aead} `{HashIter}
        {M : Type} `{Authority M}.

Record Inner := mkInner {
  wal : Wal;
  metadata_view : gmap N V;
  version_pointer : gmap N VersionId;
  version_chain : gmap N (VersionRecord V);
  next_object_id : N;
  next_version_id : N
}.

Record StorageEngine := mkEngine {
  inner : Inner;
  disk : option (list N);
  linked : bool;
  encryption_key : option Key
}.

(** The body of the replay loop, on everything but the log. *)
Definition replay_record (i : Inner) (r : WalRecord V) : Inner :=
  mkInner (wal i)
    (<[object_id r := metadata r]> (metadata_view i))
    (<[object_id r := new_version r]> (version_pointer i))
    (<[new_version r := mkVersion (object_id r) (prev_version r) (metadata r)]> (version_chain i))
    (N.max (next_object_id i) (u64_add (object_id r) 1))
    (N.max (next_version_id i) (u64_add (new_version r) 1)).

Definition rebuild (w : Wal) (rs : list (WalRecord V)) : Inner :=
  fold_left replay_record rs (mkInner w ∅ ∅ ∅ 0 0).

Definition open_log (path : option (list N)) (key : option Key) : Wal :=
  match key with
  | Some key => open_for_append_encrypted path key
  | None => open_for_append path
  end.

Definition open_impl (path : option (list N)) (key : option Key) :
    Result StorageEngine OpenFailure :=
  match (match key with
         | Some key => replay_encrypted path key
         | None => replay path
         end) with
  | Err InvalidData => Err (OpenErr WalError)
  | Err Panicked => Err OpenPanics
  | Ok records =>
      let w := open_log path key in
      Ok (mkEngine (rebuild w records) (Some (file w)) true key)
  end.

Definition with_inner (e : StorageEngine) (i : Inner) : StorageEngine :=
  mkEngine i (disk e) (linked e) (encryption_key e).

(** Bytes written through the open handle reach the path while the handle still
    names it. *)
Definition sync_disk (e : StorageEngine) (w : Wal) : option (list N) :=
  if linked e then Some (file w) else disk e.

(** [put_object]; [nonce] is the one drawn if the log is sealed and [io] what
    became of the write. *)
Definition put_object (now : Instant) (monitor : M) (token : CapabilityToken)
    (e : StorageEngine) (oid : option N) (expected_version : option VersionId) (value : V)
    (nonce : list N) (io : write_outcome) :
    Result (N * VersionId) StorageError * StorageEngine :=
  match authorize now monitor token WRITE with
  | Err _ => (Err Unauthorized, e)
  | Ok _ =>
      let i := inner e in
      let '(oid, next_object) :=
        match oid with
        | Some id => (id, next_object_id i)
        | None => (next_object_id i, u64_add (next_object_id i) 1)
        end in
      let current := version_pointer i !! oid in
      let i := mkInner (wal i) (metadata_view i) (version_pointer i) (version_chain i)
                 next_object (next_version_id i) in
      if bool_decide (current <> expected_version)
      then (Err (ConcurrentWriteConflict oid expected_version current), with_inner e i)
      else
        let version := next_version_id i in
        let record := mkRecord oid current version value (origin token) in
        let '(ok, w) := append_and_fsync (wal i) nonce record io in
        let e := mkEngine (inner e) (sync_disk e w) (linked e) (encryption_key e) in
        if negb ok
        then (Err WalError,
              with_inner e (mkInner w (metadata_view i) (version_pointer i) (version_chain i)
                              next_object (next_version_id i)))
        else (Ok (oid, version),
              with_inner e
                (mkInner w
                   (<[oid := value]> (metadata_view i))
                   (<[oid := version]> (version_pointer i))
                   (<[version := mkVersion oid current value]> (version_chain i))
                   next_object (u64_add (next_version_id i) 1)))
  end.

Definition get_object (now : Instant) (monitor : M) (token : CapabilityToken)
    (e : StorageEngine) (oid : N) (version : option VersionId) : Result V StorageError :=
  match authorize now monitor token READ with
  | Err _ => Err Unauthorized
  | Ok _ =>
      match version with
      | Some v =>
          match version_chain (inner e) !! v with
          | Some rec => if vr_object_id rec =? oid then Ok (vr_metadata rec) else Err NotFound
          | None => Err NotFound
          end
      | None => ok_or (metadata_view (inner e) !! oid) NotFound
      end
  end.

Definition current_version (e : StorageEngine) (oid : N) : option VersionId :=
  version_pointer (inner e) !! oid.

(** The rewritten log replaces the engine's, whichever way that goes. *)
Definition install_log (e : StorageEngine) (nonces : nat -> list N)
    (records : list (WalRecord V)) (io : compact_outcome) : option Wal * StorageEngine :=
  match compact_impl (disk e) (encryption_key e) nonces records io with
  | (path, Some w) =>
      (Some w, mkEngine (inner e) path true (encryption_key e))
  | (path, None) =>
      (None, mkEngine (inner e) path
               (match io with ReopenFailed => false | _ => linked e end) (encryption_key e))
  end.

Definition head_records (i : Inner) (orig : N) : list (WalRecord V) :=
  (fun '(oid, head) =>
     mkRecord oid None head (default Null (metadata_view i !! oid)) orig)
  <$> hash_iter (version_pointer i).

(** The chain with everything but the heads dropped, each head a new genesis. *)
Definition retained (i : Inner) : gmap N (VersionRecord V) :=
  (fun rec => mkVersion (vr_object_id rec) None (vr_metadata rec))
  <$> filter (fun '(id, _) => id ∈ (list_to_set ((hash_iter (version_pointer i)).*2) : gset N))
        (version_chain i).

Definition compact (now : Instant) (monitor : M) (token : CapabilityToken)
    (e : StorageEngine) (nonces : nat -> list N) (io : compact_outcome) :
    Result nat StorageError * StorageEngine :=
  match authorize now monitor token WRITE with
  | Err _ => (Err Unauthorized, e)
  | Ok _ =>
      let i := inner e in
      match install_log e nonces (head_records i (origin token)) io with
      | (None, e) => (Err WalError, e)
      | (Some w, e) =>
          let before := size (version_chain i) in
          let chain := retained i in
          (Ok (before - size chain)%nat,
           with_inner e (mkInner w (metadata_view i) (version_pointer i) chain
                           (next_object_id i) (next_version_id i)))
      end
  end.

(** The versions of other objects, in commit order, as records. *)
Definition surviving (i : Inner) (oid orig : N) : list (WalRecord V) :=
  snd <$> sort_by_key fst
    ((fun '(vid, rec) =>
        (vid, mkRecord (vr_object_id rec) (parent_version rec) vid (vr_metadata rec) orig))
     <$> filter (fun '(_, rec) => vr_object_id rec <> oid) (hash_iter (version_chain i))).

Definition versions_of (i : Inner) (oid : N) : nat :=
  length (filter (fun '(_, rec) => vr_object_id rec = oid) (hash_iter (version_chain i))).

Definition purge_object (now : Instant) (monitor : M) (token : CapabilityToken)
    (e : StorageEngine) (oid : N) (nonces : nat -> list N) (io : compact_outcome) :
    Result nat StorageError * StorageEngine :=
  match authorize now monitor token WRITE with
  | Err _ => (Err Unauthorized, e)
  | Ok _ =>
      let i := inner e in
      if bool_decide (metadata_view i !! oid = None) && Nat.eqb (versions_of i oid) 0
      then (Err NotFound, e)
      else
        let purged_count := versions_of i oid in
        match install_log e nonces (surviving i oid (origin token)) io with
        | (None, e) => (Err WalError, e)
        | (Some w, e) =>
            (Ok purged_count,
             with_inner e
               (mkInner w (delete oid (metadata_view i)) (delete oid (version_pointer i))
                  (filter (fun '(_, rec) => vr_object_id rec <> oid) (version_chain i))
                  (next_object_id i) (next_version_id i)))
        end
  end.

(** ** Rebuilding the views *)

Definition same_views (i j : Inner) : Prop :=
  metadata_view i = metadata_view j /\ version_pointer i = version_pointer j
  /\ version_chain i = version_chain j.

Lemma rebuild_snoc w rs r : rebuild w (rs ++ [r]) = replay_record (rebuild w rs) r.
Proof. unfold rebuild. by rewrite fold_left_app. Qed.

Lemma rebuild_wal w rs : wal (rebuild w rs) = w.
Proof. induction rs as [|r rs IH] using rev_ind; [done|]. by rewrite rebuild_snoc. Qed.

(** After a replay, each view holds what the last record concerned wrote. *)
Lemma rebuild_metadata w rs o :
  metadata_view (rebuild w rs) !! o
  = metadata <$> last (filter (fun r => object_id r = o) rs).
Proof.
  induction rs as [|r rs IH] using rev_ind; [done|]. rewrite rebuild_snoc, filter_app, last_app. simpl.
  rewrite filter_cons, filter_nil. destruct (decide (object_id r = o)) as [<-|Hne]; simpl.
  - by rewrite lookup_insert_eq.
  - by rewrite lookup_insert_ne.
Qed.

Lemma rebuild_pointer w rs o :
  version_pointer (rebuild w rs) !! o
  = new_version <$> last (filter (fun r => object_id r = o) rs).
Proof.
  induction rs as [|r rs IH] using rev_ind; [done|]. rewrite rebuild_snoc, filter_app, last_app. simpl.
  rewrite filter_cons, filter_nil. destruct (decide (object_id r = o)) as [<-|Hne]; simpl.
  - by rewrite lookup_insert_eq.
  - by rewrite lookup_insert_ne.
Qed.

Definition to_version (r : WalRecord V) : VersionRecord V :=
  mkVersion (object_id r) (prev_version r) (metadata r).

Lemma rebuild_chain w rs v :
  version_chain (rebuild w rs) !! v
  = to_version <$> last (filter (fun r => new_version r = v) rs).
Proof.
  induction rs as [|r rs IH] using rev_ind; [done|]. rewrite rebuild_snoc, filter_app, last_app. simpl.
  rewrite filter_cons, filter_nil. destruct (decide (new_version r = v)) as [<-|Hne]; simpl.
  - by rewrite lookup_insert_eq.
  - by rewrite lookup_insert_ne.
Qed.

Lemma rebuild_next_version w rs v rec :
  version_chain (rebuild w rs) !! v = Some rec -> v + 1 < two64 ->
  v < next_version_id (rebuild w rs).
Proof.
  induction rs as [|r rs IH] using rev_ind; [done|]. rewrite rebuild_snoc. simpl.
  intros [[<- _]|[_ Hv]]%lookup_insert_Some Hlt.
  - rewrite u64_add_small by done. lia.
  - specialize (IH Hv Hlt). lia.
Qed.

Lemma rebuild_next_version_le w rs b :
  (forall r, r ∈ rs -> new_version r < b) -> b < two64 -> next_version_id (rebuild w rs) <= b.
Proof.
  intros Hall Hb. induction rs as [|r rs IH] using rev_ind; [by apply N.le_0_l|]. rewrite rebuild_snoc. simpl.
  assert (new_version r < b) by set_solver.
  rewrite u64_add_small by lia. assert (next_version_id (rebuild w rs) <= b) by (apply IH; set_solver). lia.
Qed.

#[export] Instance same_views_equiv : Equivalence same_views.
Proof.
  split; unfold same_views.
  - by intros i.
  - by intros i j (-> & -> & ->).
  - by intros i j l (-> & -> & ->) ?.
Qed.

(** The views depend on the records alone. *)
Lemma rebuild_any w w' rs : same_views (rebuild w rs) (rebuild w' rs).
Proof.
  split; [|split]; apply map_eq; intros x;
    by rewrite ?rebuild_metadata, ?rebuild_pointer, ?rebuild_chain.
Qed.

(** ** The invariant *)

(** The current version of an object is the newest of its chain. *)
Record heads (i : Inner) : Prop := {
  h_head : forall o v, version_pointer i !! o = Some v ->
    exists rec, version_chain i !! v = Some rec /\ vr_object_id rec = o;
  h_max : forall v rec, version_chain i !! v = Some rec ->
    exists h, version_pointer i !! vr_object_id rec = Some h /\ v <= h;
  h_meta : forall o, metadata_view i !! o
    = (v ← version_pointer i !! o; vr_metadata <$> version_chain i !! v);
  h_fresh : forall v rec, version_chain i !! v = Some rec -> v < next_version_id i;
  h_bound : next_version_id i < two64
}.

Record consistent (e : StorageEngine) : Prop := {
  c_linked : linked e = true;
  c_disk : disk e = Some (file (wal (inner e)));
  c_seal : seal (wal (inner e)) = encryption_key e;
  c_log : exists rs, log (encryption_key e) (file (wal (inner e))) rs
                     /\ same_views (rebuild (wal (inner e)) rs) (inner e);
  c_heads : heads (inner e)
}.

Lemma heads_same_views i j :
  same_views i j -> next_version_id i < two64 ->
  (forall v rec, version_chain i !! v = Some rec -> v < next_version_id i) ->
  heads j -> heads i.
Proof.
  intros (Hm & Hp & Hc) Hb Hf [Hhead Hmax Hmeta _ _].
  constructor; [by rewrite Hp, Hc|by rewrite Hp, Hc| |done|done].
  intros o. rewrite Hm, Hp, Hc. apply Hmeta.
Qed.

Lemma chain_record w rs r :
  r ∈ rs -> is_Some (version_chain (rebuild w rs) !! new_version r).
Proof.
  intros Hr. rewrite rebuild_chain. apply fmap_is_Some.
  destruct (last (filter _ rs)) as [x|] eqn:Hl; [done|].
  apply last_None in Hl. assert (Hin : r ∈ filter (fun r0 => new_version r0 = new_version r) rs)
    by (by apply list_elem_of_filter).
  rewrite Hl in Hin. by inversion Hin.
Qed.

(** An engine just opened on a well-formed log, if the views that log stands for
    satisfy the invariant. *)
Lemma open_log_consistent k f rs j :
  log k f rs -> same_views (rebuild (mkWal f k) rs) j -> heads j ->
  exists e', open_impl (Some f) k = Ok e' /\ consistent e' /\ same_views (inner e') j
             /\ encryption_key e' = k /\ next_version_id (inner e') <= next_version_id j.
Proof.
  intros Hlog Hv Hh. pose proof (log_replay _ _ _ Hlog) as Hr.
  assert (Hw : open_log (Some f) k = mkWal f k) by (by destruct k).
  assert (Hopen : open_impl (Some f) k = Ok (mkEngine (rebuild (mkWal f k) rs) (Some f) true k)).
  { unfold open_impl. rewrite Hw. unfold replay, replay_encrypted. destruct k; by rewrite Hr. }
  assert (Hnext : next_version_id (rebuild (mkWal f k) rs) <= next_version_id j).
  { apply rebuild_next_version_le; [|apply Hh].
    intros r [rec Hrec]%(chain_record (mkWal f k)). destruct Hv as (_ & _ & Hc). rewrite Hc in Hrec.
    by eapply h_fresh. }
  eexists. split; [exact Hopen|]. split; [|done].
  constructor; simpl; rewrite ?rebuild_wal; [done..|by exists rs|].
  apply (heads_same_views _ j); [done| |intros v rec Hrec|done].
  - pose proof (h_bound _ Hh). lia.
  - eapply rebuild_next_version; [done|]. destruct Hv as (_ & _ & Hc). rewrite Hc in Hrec.
    pose proof (h_fresh _ Hh _ _ Hrec). pose proof (h_bound _ Hh). lia.
Qed.

Lemma open_consistent e :
  consistent e ->
  exists e', open_impl (disk e) (encryption_key e) = Ok e'
             /\ consistent e' /\ same_views (inner e') (inner e)
             /\ encryption_key e' = encryption_key e
             /\ next_version_id (inner e') <= next_version_id (inner e).
Proof.
  intros [_ Hd Hs (rs & Hlog & Hv) Hh]. rewrite Hd. apply (open_log_consistent _ _ rs); [done| |done].
  rewrite <- Hs. by destruct (wal (inner e)).
Qed.

(** ** Preservation *)

(** What a commit does to the views. *)
Lemma heads_commit i w o v n :
  heads i -> next_version_id i + 1 < two64 ->
  let c := version_pointer i !! o in
  heads (mkInner w (<[o := v]> (metadata_view i)) (<[o := next_version_id i]> (version_pointer i))
           (<[next_version_id i := mkVersion o c v]> (version_chain i)) n
           (u64_add (next_version_id i) 1)).
Proof.
  intros [Hhead Hmax Hmeta Hfresh Hb] Hlt c. rewrite u64_add_small by done.
  assert (Hne : forall v' rec, version_chain i !! v' = Some rec -> next_version_id i <> v').
  { intros v' rec Hrec. specialize (Hfresh _ _ Hrec). lia. }
  constructor; simpl; [..|done].
  - intros o' v' [[<- <-]|[Ho Hv]]%lookup_insert_Some.
    { eexists. by rewrite lookup_insert_eq. }
    destruct (Hhead _ _ Hv) as (rec & Hrec & <-). exists rec.
    rewrite lookup_insert_ne by (by eapply Hne). done.
  - intros v' rec [[<- <-]|[Hv Hrec]]%lookup_insert_Some; simpl.
    { exists (next_version_id i). by rewrite lookup_insert_eq. }
    destruct (decide (o = vr_object_id rec)) as [<-|Ho].
    + eexists. rewrite lookup_insert_eq. split; [done|]. specialize (Hfresh _ _ Hrec). lia.
    + rewrite lookup_insert_ne by done. auto.
  - intros o'. destruct (decide (o = o')) as [<-|Ho].
    { rewrite !lookup_insert_eq. simpl. by rewrite lookup_insert_eq. }
    rewrite !lookup_insert_ne, Hmeta by done. destruct (version_pointer i !! o') as [v'|] eqn:Hv; [|done].
    simpl. destruct (Hhead _ _ Hv) as (rec & Hrec & _).
    by rewrite lookup_insert_ne by (by eapply Hne).
  - intros v' rec [[<- <-]|[Hv Hrec]]%lookup_insert_Some; [lia|]. specialize (Hfresh _ _ Hrec). lia.
Qed.

(** The replay loop's body does what the commit did. *)
Lemma replay_record_views i j w r n n' :
  same_views i j ->
  same_views (replay_record i r)
    (mkInner w (<[object_id r := metadata r]> (metadata_view j))
       (<[object_id r := new_version r]> (version_pointer j))
       (<[new_version r := mkVersion (object_id r) (prev_version r) (metadata r)]> (version_chain j)) n n').
Proof. by intros (<- & <- & <-). Qed.

Lemma put_object_consistent now m t e oid expected v nonce io res e' :
  consistent e -> is_nonce nonce -> io = Written \/ io = Failed 0 ->
  next_version_id (inner e) + 1 < two64 ->
  put_object now m t e oid expected v nonce io = (res, e') -> consistent e'.
Proof.
  intros Hc Hn Hio Hlt. unfold put_object. destruct (authorize _ _ _ _); [|by intros [= <- <-]].
  set (target := match oid with Some id => _ | None => _ end). destruct target as [o next_o].
  case_bool_decide as Hcas.
  { intros [= <- <-]. destruct Hc as [? ? ? (rs & Hl & Hv) [? ? ? ? ?]]. split; simpl; [done..| |done].
    by exists rs. }
  destruct Hc as [Hlk Hd Hs (rs & Hl & Hv) Hh]. unfold sync_disk. rewrite Hlk.
  destruct Hio as [-> | ->]; simpl; intros [= <- <-]; split; simpl; try done.
  - set (r := mkRecord o _ _ v (origin t)).
    exists (rs ++ [r]). rewrite Hs. split; [by apply log_snoc|].
    rewrite rebuild_snoc. by apply replay_record_views; etrans; [apply rebuild_any|].
  - by apply heads_commit.
  - exists rs. rewrite app_nil_r. split; [done|]. by etrans; [apply rebuild_any|].
  - by destruct Hh.
Qed.

(** Installing a rewritten log whose records stand for the new views. *)
Lemma install_log_consistent e nonces records io w e' j :
  consistent e -> (forall n, is_nonce (nonces n)) ->
  install_log e nonces records io = (Some w, e') ->
  same_views (rebuild w records) j -> heads j -> wal j = w ->
  consistent (with_inner e' j).
Proof.
  intros [Hlk Hd Hs _ _] Hn Hi Hv Hh Hw. unfold install_log in Hi.
  assert (Hl : log (encryption_key e) (compact_bytes (encryption_key e) nonces 0 records) records)
    by (by apply compact_bytes_log).
  destruct io; simpl in Hi; [done..|].
  injection Hi as Hi1 Hi2. subst e'. rewrite <- Hi1 in *.
  constructor; simpl; rewrite ?Hw; [done|by destruct (encryption_key e)|by destruct (encryption_key e)| |done].
  exists records. split; [|done]. by destruct (encryption_key e).
Qed.

(** A rewrite that failed changed nothing, unless the new file could not be
    reopened. *)
Lemma install_log_failed e nonces records io e' :
  install_log e nonces records io = (None, e') -> io <> ReopenFailed -> e' = e.
Proof. unfold install_log. destruct io, e; simpl; by intros [= <-]. Qed.

Lemma elem_of_head_records i orig r :
  heads i ->
  r ∈ head_records i orig <->
  version_pointer i !! object_id r = Some (new_version r)
  /\ metadata_view i !! object_id r = Some (metadata r)
  /\ prev_version r = None /\ actor_origin r = orig.
Proof.
  intros Hh. unfold head_records. rewrite list_elem_of_fmap. split.
  - intros ([o v] & -> & Hin%elem_of_hash_iter). simpl. split; [done|]. split; [|done].
    rewrite (h_meta _ Hh), Hin. simpl. destruct (h_head _ Hh _ _ Hin) as (rec & -> & _). done.
  - intros (Hp & Hm & Hn & Ho). exists (object_id r, new_version r).
    rewrite elem_of_hash_iter. split; [|done]. destruct r. simpl in *. by rewrite Hm, Hn, Ho.
Qed.

Lemma heads_distinct i o o' v :
  heads i -> version_pointer i !! o = Some v -> version_pointer i !! o' = Some v -> o = o'.
Proof. intros Hh (?&?&<-)%(h_head _ Hh) (?&?&<-)%(h_head _ Hh). congruence. Qed.

Lemma retained_lookup i v rec :
  heads i ->
  retained i !! v = Some rec <->
  exists o m, rec = mkVersion o None m /\ version_pointer i !! o = Some v
              /\ metadata_view i !! o = Some m.
Proof.
  intros Hh. unfold retained. rewrite lookup_fmap_Some.
  setoid_rewrite map_lookup_filter_Some. setoid_rewrite elem_of_list_to_set.
  setoid_rewrite list_elem_of_fmap. split.
  - intros (rec' & <- & Hrec & [o h] & -> & Hin%elem_of_hash_iter). simpl in *.
    destruct (h_head _ Hh _ _ Hin) as (rec'' & Hr & Ho).
    assert (rec'' = rec') as -> by congruence. exists o, (vr_metadata rec').
    split; [by rewrite Ho|]. split; [done|]. rewrite (h_meta _ Hh), Hin. simpl. by rewrite Hr.
  - intros (o & m & -> & Hp & Hm). destruct (h_head _ Hh _ _ Hp) as (rec' & Hr & <-).
    rewrite (h_meta _ Hh), Hp in Hm. simpl in Hm. rewrite Hr in Hm. injection Hm as <-.
    exists rec'. split; [done|]. split; [done|].
    eexists (_, _). by rewrite elem_of_hash_iter.
Qed.

Lemma compact_views i w orig n n' :
  heads i ->
  same_views (rebuild w (head_records i orig))
    (mkInner w (metadata_view i) (version_pointer i) (retained i) n n').
Proof.
  intros Hh.
  assert (Hlast : forall o v m, version_pointer i !! o = Some v -> metadata_view i !! o = Some m ->
    last (filter (fun r => object_id r = o) (head_records i orig)) = Some (mkRecord o None v m orig)).
  { intros o v m Hp Hm. apply last_filter_Some; [by apply elem_of_head_records|done|].
    intros [] (?&?&?&?)%elem_of_head_records ?; [|done]. simpl in *. congruence. }
  assert (Hnone : forall o, version_pointer i !! o = None ->
    last (filter (fun r => object_id r = o) (head_records i orig)) = None).
  { intros o Hp. apply last_filter_None. intros r (?&_)%elem_of_head_records; [|done]. congruence. }
  assert (Hmeta : forall o v, version_pointer i !! o = Some v -> is_Some (metadata_view i !! o)).
  { intros o v Hp. rewrite (h_meta _ Hh), Hp. simpl.
    destruct (h_head _ Hh _ _ Hp) as (rec & -> & _). by eexists. }
  split; [|split]; apply map_eq; intros x; simpl.
  - rewrite rebuild_metadata. destruct (version_pointer i !! x) as [v|] eqn:Hp.
    + destruct (Hmeta _ _ Hp) as [m Hm]. by rewrite (Hlast _ _ _ Hp Hm), Hm.
    + rewrite (Hnone _ Hp). by rewrite (h_meta _ Hh), Hp.
  - rewrite rebuild_pointer. destruct (version_pointer i !! x) as [v|] eqn:Hp.
    + destruct (Hmeta _ _ Hp) as [m Hm]. by rewrite (Hlast _ _ _ Hp Hm).
    + by rewrite (Hnone _ Hp).
  - rewrite rebuild_chain. apply option_eq. intros rec. rewrite retained_lookup by done. split.
    + intros (r & Hl & ->)%fmap_Some. apply last_Some_elem_of, list_elem_of_filter in Hl as [<- Hr].
      apply elem_of_head_records in Hr as (?&?&Hn&_); [|done].
      exists (object_id r), (metadata r). split; [|done]. unfold to_version. by rewrite Hn.
    + intros (o & m & -> & Hp & Hm). erewrite last_filter_Some; [|by apply elem_of_head_records with
        (r := mkRecord o None x m orig)|done|]; [done|].
      intros [] (Hp'&?&?&?)%elem_of_head_records ?; [|done]. simpl in *. subst.
      assert (o = object_id0) as <- by (by eapply heads_distinct). congruence.
Qed.

Lemma heads_compact i w n :
  heads i -> heads (mkInner w (metadata_view i) (version_pointer i) (retained i) n (next_version_id i)).
Proof.
  intros Hh.
  assert (Hret : forall o v, version_pointer i !! o = Some v ->
    exists m, metadata_view i !! o = Some m /\ retained i !! v = Some (mkVersion o None m)).
  { intros o v Hp. destruct (metadata_view i !! o) as [m|] eqn:Hm.
    - exists m. split; [done|]. apply retained_lookup; [done|]. by exists o, m.
    - rewrite (h_meta _ Hh), Hp in Hm. destruct (h_head _ Hh _ _ Hp) as (rec & Hr & _).
      simpl in Hm. by rewrite Hr in Hm. }
  constructor; simpl; [| | | |by apply h_bound].
  - intros o v (m & _ & Hr)%Hret. eexists. split; [exact Hr|done].
  - intros v rec (o & m & -> & Hp & _)%retained_lookup; [|done]. by exists v.
  - intros o. destruct (version_pointer i !! o) as [v|] eqn:Hp.
    + destruct (Hret _ _ Hp) as (m & -> & Hr). simpl. by rewrite Hr.
    + by rewrite (h_meta _ Hh), Hp.
  - intros v rec (o & m & -> & Hp & _)%retained_lookup; [|done].
    destruct (h_head _ Hh _ _ Hp) as (rec & Hr & _). by eapply h_fresh.
Qed.

Lemma compact_consistent now m t e nonces io res e' :
  consistent e -> (forall n, is_nonce (nonces n)) -> io <> ReopenFailed ->
  compact now m t e nonces io = (res, e') -> consistent e'.
Proof.
  intros Hc Hn Hio. unfold compact. destruct (authorize _ _ _ _); [|by intros [= <- <-]].
  destruct (install_log _ _ _ _) as [[w|] e1] eqn:Hi; intros [= <- <-].
  - eapply install_log_consistent; [done..| | |done]; [apply compact_views|apply heads_compact]; apply Hc.
  - by apply install_log_failed in Hi as ->.
Qed.

Lemma elem_of_surviving i oid orig r :
  r ∈ surviving i oid orig <->
  version_chain i !! new_version r = Some (to_version r) /\ object_id r <> oid /\ actor_origin r = orig.
Proof.
  unfold surviving. rewrite list_elem_of_fmap. setoid_rewrite sort_by_key_perm.
  setoid_rewrite list_elem_of_fmap. split.
  - intros ([v r'] & -> & [v' rec] & [= -> ->] & [Ho Hin%elem_of_hash_iter]%list_elem_of_filter).
    simpl. unfold to_version. simpl. destruct rec. done.
  - intros (Hc & Ho & Ha). exists (new_version r, r). split; [done|].
    exists (new_version r, to_version r). split; [destruct r; simpl in *; by subst|].
    apply list_elem_of_filter. by rewrite elem_of_hash_iter.
Qed.

Lemma surviving_sorted i oid orig : StronglySorted (key_le new_version) (surviving i oid orig).
Proof.
  unfold surviving. apply StronglySorted_fmap.
  set (l := _ <$> filter _ _). assert (Hl : forall p, p ∈ sort_by_key fst l -> new_version p.2 = p.1).
  { intros p. rewrite sort_by_key_perm. subst l. rewrite list_elem_of_fmap.
    by intros ([v rec] & -> & _). }
  revert Hl. generalize (sort_by_key_sorted fst l). generalize (sort_by_key fst l). clear.
  induction 1 as [|p l Hs IH Hall]; intros Hl; constructor.
  - apply IH. intros q Hq. apply Hl. by right.
  - rewrite Forall_forall in *. intros q Hq. unfold key_le in *.
    rewrite (Hl p), (Hl q) by (by constructor). auto.
Qed.

(** The views with one object gone. *)
Definition without (i : Inner) (w : Wal) (oid : N) : Inner :=
  mkInner w (delete oid (metadata_view i)) (delete oid (version_pointer i))
    (filter (fun '(_, rec) => vr_object_id rec <> oid) (version_chain i))
    (next_object_id i) (next_version_id i).

Lemma without_chain i w oid v rec :
  version_chain (without i w oid) !! v = Some rec
  <-> version_chain i !! v = Some rec /\ vr_object_id rec <> oid.
Proof. simpl. apply map_lookup_filter_Some. Qed.

Lemma purge_last i oid orig o v rec :
  heads i -> o <> oid -> version_pointer i !! o = Some v -> version_chain i !! v = Some rec ->
  vr_object_id rec = o ->
  last (filter (fun r => object_id r = o) (surviving i oid orig))
  = Some (mkRecord o (parent_version rec) v (vr_metadata rec) orig).
Proof.
  intros Hh Hne Hp Hr Ho. apply (last_filter_max _ new_version).
  - apply surviving_sorted.
  - apply elem_of_surviving. simpl. split; [|done]. rewrite Hr. unfold to_version. simpl.
    rewrite <- Ho. by destruct rec.
  - done.
  - intros r (Hc & _ & _)%elem_of_surviving <-. simpl.
    destruct (h_max _ Hh _ _ Hc) as (h & Hh' & Hle). simpl in Hh'. congruence.
  - intros r (Hc & _ & Ha)%elem_of_surviving Hv. simpl in Hv. rewrite Hv, Hr in Hc.
    injection Hc as Hc. destruct r. simpl in *. subst. done.
Qed.

Lemma purge_views i w oid orig :
  heads i -> same_views (rebuild w (surviving i oid orig)) (without i w oid).
Proof.
  intros Hh.
  assert (Hnone : forall o, o = oid \/ version_pointer i !! o = None ->
    last (filter (fun r => object_id r = o) (surviving i oid orig)) = None).
  { intros o Ho. apply last_filter_None. intros r (Hc & Hne & _)%elem_of_surviving <-.
    destruct (h_max _ Hh _ _ Hc) as (h & Hh' & _). simpl in Hh'. destruct Ho; congruence. }
  assert (Hsome : forall o v, o <> oid -> version_pointer i !! o = Some v -> exists rec,
    version_chain i !! v = Some rec /\
    last (filter (fun r => object_id r = o) (surviving i oid orig))
    = Some (mkRecord o (parent_version rec) v (vr_metadata rec) orig)).
  { intros o v Hne Hp. destruct (h_head _ Hh _ _ Hp) as (rec & Hr & Ho). exists rec.
    split; [done|]. by apply purge_last. }
  split; [|split]; apply map_eq; intros x.
  - rewrite rebuild_metadata. simpl. destruct (decide (x = oid)) as [->|Hne].
    { rewrite Hnone by auto. by rewrite lookup_delete_eq. }
    rewrite lookup_delete_ne, (h_meta _ Hh) by done.
    destruct (version_pointer i !! x) as [v|] eqn:Hp; [|by rewrite Hnone by auto].
    destruct (Hsome _ _ Hne Hp) as (rec & Hr & ->). simpl. by rewrite Hr.
  - rewrite rebuild_pointer. simpl. destruct (decide (x = oid)) as [->|Hne].
    { rewrite Hnone by auto. by rewrite lookup_delete_eq. }
    rewrite lookup_delete_ne by done.
    destruct (version_pointer i !! x) as [v|] eqn:Hp; [|by rewrite Hnone by auto].
    by destruct (Hsome _ _ Hne Hp) as (rec & Hr & ->).
  - rewrite rebuild_chain. apply option_eq. intros rec. rewrite without_chain. split.
    + intros (r & Hl & ->)%fmap_Some. apply last_Some_elem_of, list_elem_of_filter in Hl as [<- Hr].
      by apply elem_of_surviving in Hr as (? & ? & _).
    + intros [Hr Ho]. set (r := mkRecord (vr_object_id rec) (parent_version rec) x (vr_metadata rec) orig).
      assert (Hrec : to_version r = rec) by (by destruct rec).
      rewrite (last_filter_Some _ _ r); [by simpl; rewrite Hrec| |done|].
      * apply elem_of_surviving. simpl. by rewrite Hrec.
      * intros r' (Hc & _ & Ha)%elem_of_surviving Hx. rewrite Hx, Hr in Hc. injection Hc as Hc.
        clear Hrec. subst r. destruct r'. simpl in *. by subst.
Qed.

Lemma heads_purge i w oid : heads i -> heads (without i w oid).
Proof.
  intros Hh. constructor; [| | | |exact (h_bound _ Hh)].
  - intros o v Hp. simpl in Hp. apply lookup_delete_Some in Hp as [Hne Hp].
    destruct (h_head _ Hh _ _ Hp) as (rec & Hr & Ho).
    exists rec. rewrite without_chain. by subst.
  - intros v rec [Hr Hne]%without_chain. destruct (h_max _ Hh _ _ Hr) as (h & Hp & Hle).
    exists h. simpl. by rewrite lookup_delete_ne.
  - intros o. simpl. destruct (decide (o = oid)) as [->|Hne]; [by rewrite !lookup_delete_eq|].
    rewrite !lookup_delete_ne, (h_meta _ Hh) by done. destruct (version_pointer i !! o) as [v|] eqn:Hp; [|done].
    simpl. destruct (h_head _ Hh _ _ Hp) as (rec & Hr & Ho). rewrite Hr. symmetry. simpl.
    assert (Hw : version_chain (without i w oid) !! v = Some rec) by (rewrite without_chain; by subst).
    simpl in Hw. by rewrite Hw.
  - intros v rec [Hr _]%without_chain. exact (h_fresh _ Hh _ _ Hr).
Qed.

Lemma purge_consistent now m t e oid nonces io res e' :
  consistent e -> (forall n, is_nonce (nonces n)) -> io <> ReopenFailed ->
  purge_object now m t e oid nonces io = (res, e') -> consistent e'.
Proof.
  intros Hc Hn Hio. unfold purge_object. destruct (authorize _ _ _ _); [|by intros [= <- <-]].
  destruct (_ && _); [by intros [= <- <-]|].
  destruct (install_log _ _ _ _) as [[w|] e1] eqn:Hi; intros [= <- <-].
  - eapply install_log_consistent; [done..| | |done]; [apply purge_views|apply heads_purge]; apply Hc.
  - by apply install_log_failed in Hi as ->.
Qed.

(** ** Reachable engines *)

(** Engines reached from a path that did not exist by any operations, granted or
    refused, that the disk either performs or does not: an append that fails has
    written nothing, and a rewrite that fails has not replaced the file. (What a
    torn append does to the log is the subject of [Wal].) *)
Inductive reachable (k : option Key) : StorageEngine -> Prop :=
| reach_open e : open_impl None k = Ok e -> reachable k e
| reach_put now m t e oid expected v nonce io res e' :
    reachable k e -> is_nonce nonce -> io = Written \/ io = Failed 0 ->
    next_version_id (inner e) + 1 < two64 ->
    put_object now m t e oid expected v nonce io = (res, e') -> reachable k e'
| reach_compact now m t e nonces io res e' :
    reachable k e -> (forall n, is_nonce (nonces n)) -> io <> ReopenFailed ->
    compact now m t e nonces io = (res, e') -> reachable k e'
| reach_purge now m t e oid nonces io res e' :
    reachable k e -> (forall n, is_nonce (nonces n)) -> io <> ReopenFailed ->
    purge_object now m t e oid nonces io = (res, e') -> reachable k e'
| reach_reopen e e' : reachable k e -> open_impl (disk e) k = Ok e' -> reachable k e'.

Lemma put_object_key now m t e oid expected v nonce io :
  encryption_key (put_object now m t e oid expected v nonce io).2 = encryption_key e.
Proof.
  unfold put_object. destruct (authorize _ _ _ _); [|done].
  set (target := match oid with Some id => _ | None => _ end). destruct target as [o next_o].
  case_bool_decide; [done|]. by destruct io.
Qed.

Lemma install_log_key e nonces records io :
  encryption_key (install_log e nonces records io).2 = encryption_key e.
Proof. unfold install_log. by destruct io. Qed.

Lemma compact_key now m t e nonces io :
  encryption_key (compact now m t e nonces io).2 = encryption_key e.
Proof.
  unfold compact. destruct (authorize _ _ _ _); [|done].
  pose proof (install_log_key e nonces (head_records (inner e) (origin t)) io) as Hk.
  by destruct (install_log _ _ _ _) as [[w|] e1].
Qed.

Lemma purge_key now m t e oid nonces io :
  encryption_key (purge_object now m t e oid nonces io).2 = encryption_key e.
Proof.
  unfold purge_object. destruct (authorize _ _ _ _); [|done]. destruct (_ && _); [done|].
  pose proof (install_log_key e nonces (surviving (inner e) oid (origin t)) io) as Hk.
  by destruct (install_log _ _ _ _) as [[w|] e1].
Qed.

Lemma reachable_consistent k e : reachable k e -> consistent e /\ encryption_key e = k.
Proof.
  induction 1 as [e Hopen|now m t e oid ex v nonce io res e' _ [IH Hk] Hn Hio Hlt Hput
                 |now m t e nonces io res e' _ [IH Hk] Hn Hio Hc
                 |now m t e oid nonces io res e' _ [IH Hk] Hn Hio Hp|e e' _ [IH Hk] Hopen].
  - destruct k; injection Hopen as <-; (split; [|done]);
      (constructor; simpl; [done..|exists []; split; [constructor|done]|]); by constructor.
  - split; [by eapply put_object_consistent|].
    pose proof (put_object_key now m t e oid ex v nonce io) as He. by rewrite Hput, Hk in He.
  - split; [by eapply compact_consistent|].
    pose proof (compact_key now m t e nonces io) as He. by rewrite Hc, Hk in He.
  - split; [by eapply purge_consistent|].
    pose proof (purge_key now m t e oid nonces io) as He. by rewrite Hp, Hk in He.
  - destruct (open_consistent _ IH) as (e'' & Ho & Hc & _ & Hk' & _).
    rewrite Hk, Hopen in Ho. injection Ho as <-. by rewrite Hk'.
Qed.

(** C6. Durability: at every reachable engine, opening the bytes at its path
    succeeds and gives an engine that answers every read, of the current and of
    every past version, exactly as the one in memory does, whatever compactions
    and purges rewrote the log; and it hands out no version number beyond the
    ones the running engine would. *)
Theorem storage_durable k e :
  reachable k e ->
  exists e', open_impl (disk e) k = Ok e'
  /\ (forall now m t o v, get_object now m t e' o v = get_object now m t e o v)
  /\ (forall o, current_version e' o = current_version e o)
  /\ next_version_id (inner e') <= next_version_id (inner e).
Proof.
  intros [Hc Hk]%reachable_consistent. subst k.
  destruct (open_consistent _ Hc) as (e' & Ho & _ & (Hm & Hp & Hch) & _ & Hn).
  exists e'. split; [done|]. unfold get_object, current_version. rewrite Hm, Hp, Hch. done.
Qed.

(** [put_object] on every branch: a refused call changes nothing; a stale
    expected version is refused with the version found and writes nothing; a
    failed append leaves every view as it was; and a granted write had the right
    and the expected version, gets a version no version of any object has had in
    the chain, becomes what is read, and leaves every other object and every
    older version as they were. *)
Theorem put_object_spec k e now m t oid expected v nonce io :
  reachable k e ->
  let '(res, e') := put_object now m t e oid expected v nonce io in
  match res with
  | Err Unauthorized => authorize now m t WRITE <> Ok tt /\ e' = e
  | Err NotFound => False
  | Err (ConcurrentWriteConflict o expected' found) =>
      o = default (next_object_id (inner e)) oid /\ expected' = expected
      /\ found = current_version e o /\ found <> expected
      /\ same_views (inner e') (inner e) /\ disk e' = disk e
  | Err WalError => same_views (inner e') (inner e) /\ io <> Written
  | Ok (o, version) =>
      contains (rights t) WRITE = true /\ io = Written
      /\ o = default (next_object_id (inner e)) oid /\ current_version e o = expected
      /\ version_chain (inner e) !! version = None
      /\ current_version e' o = Some version
      /\ (forall o', o' <> o -> current_version e' o' = current_version e o')
      /\ (forall now m t, authorize now m t READ = Ok tt ->
            get_object now m t e' o None = Ok v /\ get_object now m t e' o (Some version) = Ok v)
      /\ (forall now m t o' w, w <> Some version -> w <> None \/ o' <> o ->
            get_object now m t e' o' w = get_object now m t e o' w)
  end.
Proof.
  intros [Hc _]%reachable_consistent. pose proof (c_heads _ Hc) as Hh. unfold put_object.
  destruct (authorize now m t WRITE) as [[]|] eqn:Hauth; [|done].
  assert (Htarget : exists n, match oid with
    | Some id => (id, next_object_id (inner e))
    | None => (next_object_id (inner e), u64_add (next_object_id (inner e)) 1)
    end = (default (next_object_id (inner e)) oid, n)) by (destruct oid; by eexists).
  destruct Htarget as [n ->]. set (o := default _ oid). simpl.
  case_bool_decide as Hcas; [done|].
  destruct io as [|reached]; simpl; [|done].
  assert (Hfresh : version_chain (inner e) !! next_version_id (inner e) = None).
  { destruct (_ !! next_version_id (inner e)) eqn:Hv; [|done].
    pose proof (h_fresh _ Hh _ _ Hv). lia. }
  split; [by eapply authorize_rights|]. do 4 (split; [done|]).
  unfold current_version, get_object. simpl. split; [by rewrite lookup_insert_eq|].
  split; [intros o' Ho; by rewrite lookup_insert_ne|]. split.
  - intros now' m' t' ->. by rewrite !lookup_insert_eq, N.eqb_refl.
  - intros now' m' t' o' w Hw Ho. destruct (authorize now' m' t' READ); [|done].
    destruct w as [w|]; [by rewrite lookup_insert_ne by congruence|].
    rewrite lookup_insert_ne; [done|]. by destruct Ho as [|Ho]; [|intros <-].
Qed.

Lemma versions_of_size i w oid :
  (versions_of i oid + size (version_chain (without i w oid)) = size (version_chain i))%nat.
Proof.
  unfold versions_of. simpl. rewrite size_map_filter, hash_iter_perm, <- length_map_to_list.
  apply length_filter_split. by intros [v rec].
Qed.

Lemma versions_of_without i w oid : versions_of (without i w oid) oid = 0%nat.
Proof.
  unfold versions_of. apply length_zero_iff_nil. apply last_None, last_filter_None.
  by intros [v rec] [_ ?]%elem_of_hash_iter%without_chain.
Qed.

Lemma get_without e i now m t oid v w :
  authorize now m t READ = Ok tt ->
  get_object now m t (with_inner e (without i w oid)) oid v = Err NotFound.
Proof.
  unfold get_object. intros ->. destruct v as [v|]; [|simpl; by rewrite lookup_delete_eq].
  destruct (version_chain _ !! v) as [rec|] eqn:Hv; [|done].
  apply without_chain in Hv as [_ Hne]. by apply N.eqb_neq in Hne as ->.
Qed.

Lemma get_without_ne e1 e now m t oid o v w :
  o <> oid ->
  get_object now m t (with_inner e1 (without (inner e) w oid)) o v = get_object now m t e o v.
Proof.
  intros Hne. unfold get_object. cbn [inner with_inner]. destruct (authorize _ _ _ _); [|done].
  destruct v as [v|]; [|simpl; by rewrite lookup_delete_ne].
  destruct (version_chain (inner e) !! v) as [rec|] eqn:Hv.
  - destruct (decide (vr_object_id rec = oid)) as [Ho|Ho].
    + destruct (version_chain (without _ _ _) !! v) as [rec'|] eqn:Hw.
      { apply without_chain in Hw as [? ?]. congruence. }
      rewrite Ho. by apply not_eq_sym, N.eqb_neq in Hne as ->.
    + by rewrite (proj2 (without_chain (inner e) w oid v rec)).
  - destruct (version_chain (without _ _ _) !! v) as [rec'|] eqn:Hw; [|done].
    apply without_chain in Hw as [? ?]. congruence.
Qed.

(** What replaying a log just rewritten gives. *)
Lemma install_log_replay e nonces records io w e' i :
  (forall n, is_nonce (nonces n)) -> install_log e nonces records io = (Some w, e') ->
  replay_lines (disk (with_inner e' i)) (encryption_key e) = Ok records.
Proof.
  intros Hn. unfold install_log. destruct io; simpl; [done..|]. intros [= _ <-]. simpl.
  apply log_replay. by apply compact_bytes_log.
Qed.

(** A compaction keeps exactly the heads: every current read and version
    pointer is unchanged, a past version is readable afterwards precisely if it
    was the head of its object, and the count returned is the number of versions
    evicted. A compaction that could not replace the file changes nothing. *)
Theorem compact_spec k e now m t nonces io :
  reachable k e -> io <> ReopenFailed ->
  let '(res, e') := compact now m t e nonces io in
  match res with
  | Err _ => e' = e
  | Ok evicted =>
      contains (rights t) WRITE = true
      /\ (evicted + size (version_chain (inner e')) = size (version_chain (inner e)))%nat
      /\ (forall o, current_version e' o = current_version e o)
      /\ (forall now m t o, get_object now m t e' o None = get_object now m t e o None)
      /\ (forall now m t o w, authorize now m t READ = Ok tt ->
            get_object now m t e' o (Some w)
            = if bool_decide (current_version e o = Some w)
              then get_object now m t e o (Some w) else Err NotFound)
  end.
Proof.
  intros [Hc _]%reachable_consistent Hio. pose proof (c_heads _ Hc) as Hh. unfold compact.
  destruct (authorize now m t WRITE) as [[]|] eqn:Hauth; [|done].
  destruct (install_log _ _ _ _) as [[w0|] e1] eqn:Hi; [|by apply install_log_failed in Hi].
  split; [by eapply authorize_rights|]. split.
  { simpl. unfold retained. rewrite map_size_fmap.
    match goal with |- context [filter ?P (version_chain (inner e))] =>
      pose proof (map_size_filter P (version_chain (inner e))) end. lia. }
  split; [done|]. split; [done|].
  intros now' m' t' o w Hr. unfold get_object, current_version. rewrite Hr. simpl.
  destruct (retained (inner e) !! w) as [rec|] eqn:Hret.
  - apply retained_lookup in Hret as (o' & md & -> & Hp & Hm); [|done]. simpl.
    destruct (h_head _ Hh _ _ Hp) as (rec & Hrec & <-). rewrite Hrec.
    rewrite (h_meta _ Hh), Hp in Hm. simpl in Hm. rewrite Hrec in Hm. injection Hm as <-.
    destruct (N.eqb_spec (vr_object_id rec) o) as [<-|Hne].
    + by rewrite bool_decide_true.
    + rewrite bool_decide_false; [done|]. intros Hp'. apply Hne. by eapply heads_distinct.
  - case_bool_decide as Hp; [|done]. exfalso.
    destruct (h_head _ Hh _ _ Hp) as (rec & Hrec & Ho).
    assert (retained (inner e) !! w = Some (mkVersion o None (vr_metadata rec))); [|congruence].
    apply retained_lookup; [done|]. exists o, (vr_metadata rec). split; [done|]. split; [done|].
    rewrite (h_meta _ Hh), Hp. simpl. by rewrite Hrec.
Qed.

(** A purge forgets one object and nothing else: no version of it can be
    read again, neither from memory nor by replaying the rewritten log, while
    every current and past read of every other object is unchanged; the count is
    the number of versions destroyed. Purging what is not there, a second time
    for instance, is [NotFound] and changes nothing. *)
Theorem purge_object_spec k e now m t oid nonces io :
  reachable k e -> io <> ReopenFailed -> (forall n, is_nonce (nonces n)) ->
  let '(res, e') := purge_object now m t e oid nonces io in
  match res with
  | Err err => e' = e /\ (err = NotFound -> current_version e oid = None)
  | Ok purged =>
      contains (rights t) WRITE = true
      /\ (purged + size (version_chain (inner e')) = size (version_chain (inner e)))%nat
      /\ current_version e' oid = None
      /\ (forall now m t v, authorize now m t READ = Ok tt -> get_object now m t e' oid v = Err NotFound)
      /\ (forall rs, replay_lines (disk e') k = Ok rs -> Forall (fun r => object_id r <> oid) rs)
      /\ (forall o, o <> oid -> current_version e' o = current_version e o)
      /\ (forall now m t o v, o <> oid -> get_object now m t e' o v = get_object now m t e o v)
      /\ (forall now m t nonces io, authorize now m t WRITE = Ok tt ->
            purge_object now m t e' oid nonces io = (Err NotFound, e'))
  end.
Proof.
  intros [Hc Hk]%reachable_consistent Hio Hn. pose proof (c_heads _ Hc) as Hh. subst k. unfold purge_object at 1.
  destruct (authorize now m t WRITE) as [[]|] eqn:Hauth; [|done].
  destruct (bool_decide _ && _) eqn:Hgone.
  { split; [done|]. intros _. apply andb_true_iff in Hgone as [Hm%bool_decide_eq_true _].
    unfold current_version. destruct (version_pointer (inner e) !! oid) as [v|] eqn:Hp; [|done].
    rewrite (h_meta _ Hh), Hp in Hm. simpl in Hm.
    destruct (h_head _ Hh _ _ Hp) as (rec & Hrec & _). by rewrite Hrec in Hm. }
  destruct (install_log _ _ _ _) as [[w0|] e1] eqn:Hi; [|split; [by eapply install_log_failed|done]].
  change (mkInner w0 _ _ _ _ _) with (without (inner e) w0 oid).
  split; [by eapply authorize_rights|]. split; [by apply versions_of_size|].
  split; [apply lookup_delete_eq|]. split; [intros; by apply get_without|]. split.
  { intros rs. erewrite install_log_replay by done. intros [= <-].
    apply Forall_forall. by intros r (_ & ? & _)%elem_of_surviving. }
  split; [intros o Ho; by apply lookup_delete_ne|]. split; [by intros; apply get_without_ne|].
  intros now' m' t' nonces' io' Ha. unfold purge_object. rewrite Ha. simpl.
  rewrite lookup_delete_eq, bool_decide_true by done. simpl.
  by rewrite versions_of_without.
Qed.
End storage.

(** ** A concrete run *)

Module StorageExample.
Import Crypto.Toy Wal.ToyRecords.

#[export] Instance record_eq_dec : EqDecision (WalRecord N).
Proof. solve_decision. Defined.

#[export] Instance record_countable : Countable (WalRecord N).
Proof.
  apply (inj_countable'
    (fun r => (object_id r, prev_version r, new_version r, metadata r, actor_origin r))
    (fun '(o, p, n, m, a) => mkRecord o p n m a)).
  by intros [].
Defined.

#[export] Instance record_codec : Codec (WalRecord N) := countable_codec (WalRecord N).

Definition writer : CapabilityToken := mkToken 1 0 (rights_or READ WRITE) 0 7 None.
Definition nonces (_ : nat) : list N := toy_nonce.

Definition engine : Type := StorageEngine (V := N).

Definition engine0 : engine :=
  mkEngine (rebuild (mkWal [] None) []) (Some []) true None.

(** Two objects are written, the first of them twice. *)
Definition put (e : engine) (oid expected : option N) (v : N) :=
  put_object 0 tt writer e oid expected v toy_nonce Written.
Definition engine1 : engine := (put engine0 None None 10).2.
Definition engine2 : engine := (put engine1 None None 20).2.
Definition engine3 : engine := (put engine2 (Some 0) (Some 0) 11).2.

Lemma nonces_ok n : is_nonce (nonces n).
Proof. apply toy_nonce_ok. Defined.

Lemma reachable0 : reachable 0 (M := unit) None engine0.
Proof. apply reach_open. reflexivity. Defined.

Lemma reachable_put e oid expected v :
  reachable 0 (M := unit) None e -> next_version_id (inner e) + 1 < two64 ->
  reachable 0 (M := unit) None (put e oid expected v).2.
Proof.
  intros Hr Hlt. eapply reach_put; [exact Hr|apply toy_nonce_ok|by left|exact Hlt|].
  unfold put. apply surjective_pairing.
Defined.

Lemma reachable3 : reachable 0 (M := unit) None engine3.
Proof.
  unfold engine3, engine2, engine1.
  apply reachable_put; [|vm_compute; reflexivity].
  apply reachable_put; [|vm_compute; reflexivity].
  apply reachable_put; [apply reachable0|vm_compute; reflexivity].
Defined.

(** The engine as its views and next numbers. *)
Definition view (e : engine) :=
  (map_to_list (metadata_view (inner e)), map_to_list (version_pointer (inner e)),
   next_object_id (inner e), next_version_id (inner e)).

Example engine3_view : view engine3 = ([(1, 20); (0, 11)], [(1, 1); (0, 2)], 2, 3).
Proof. vm_compute. reflexivity. Qed.

(** The newest object is purged, the engine restarted and a new object written:
    it gets the id and the version number of the object purged. *)
Definition purged : engine :=
  (purge_object 0 tt writer engine2 1 nonces Compacted).2.

Definition restarted : engine :=
  match open_impl (disk purged) None with Ok e => e | Err _ => purged end.

Lemma ids_are_reused_after_purge :
  (put engine1 None None 20).1 = Ok (1, 1)
  /\ (purge_object 0 tt writer engine2 1 nonces Compacted).1 = Ok 1%nat
  /\ (put purged None None 30).1 = Ok (2, 2)
  /\ (put restarted None None 30).1 = Ok (1, 1).
Proof. vm_compute. done. Qed.
End StorageExample.
Import Crypto.Toy StorageExample.

Lemma storage_durable_witness :
  exists e', open_impl (V := N) (disk engine3) None = Ok e' /\ current_version e' 0 = Some 2.
Proof.
  destruct (storage_durable 0 (M := unit) None engine3 reachable3) as (e' & Ho & _ & Hc & _).
  exists e'. split; [exact Ho|]. rewrite Hc. reflexivity.
Defined.

Lemma put_object_spec_witness :
  current_version (put_object 0 tt writer engine3 None None 30 toy_nonce Written).2 2 = Some 3.
Proof.
  assert (Hres : (put_object 0 tt writer engine3 None None 30 toy_nonce Written).1 = Ok (2, 3))
    by (vm_compute; reflexivity).
  revert Hres. generalize reachable3. generalize engine3. intros e Hr Hres.
  pose proof (put_object_spec 0 None e 0 tt writer None None 30 toy_nonce Written Hr) as Hs.
  destruct (put_object _ _ _ _ _ _ _ _ _) as [res e']. simpl in Hres. subst res. apply Hs.
Defined.

Lemma compact_spec_witness :
  get_object 0 tt writer (compact 0 0 tt writer engine3 nonces Compacted).2 0 (Some 0) = Err NotFound.
Proof.
  assert (Hres : (compact 0 0 tt writer engine3 nonces Compacted).1 = Ok 1%nat)
    by (vm_compute; reflexivity).
  assert (Hcur : bool_decide (current_version engine3 0 = Some 0) = false) by (vm_compute; reflexivity).
  revert Hres Hcur. generalize reachable3. generalize engine3. intros e Hr Hres Hcur.
  pose proof (compact_spec 0 None e 0 tt writer nonces Compacted Hr ltac:(discriminate)) as Hs.
  destruct (compact _ _ _ _ _ _ _) as [res e']. simpl in Hres. subst res.
  destruct Hs as (_ & _ & _ & _ & Hv). rewrite Hv, Hcur by reflexivity. reflexivity.
Defined.

Lemma purge_object_spec_witness :
  current_version (purge_object 0 tt writer engine3 0 nonces Compacted).2 0 = None.
Proof.
  assert (Hres : (purge_object 0 tt writer engine3 0 nonces Compacted).1 = Ok 2%nat)
    by (vm_compute; reflexivity).
  revert Hres. generalize reachable3. generalize engine3. intros e Hr Hres.
  pose proof (purge_object_spec 0 None e 0 tt writer 0 nonces Compacted Hr ltac:(discriminate) nonces_ok) as Hs.
  destruct (purge_object 0 tt writer e 0 nonces Compacted) as [res e']. simpl in Hres. subst res. apply Hs.
Defined.
