(* ===== verification/DebugFmt.v ===== *)
(** Rust's [{:?}] formatting, as far as the audit ledger hashes it.

    Text is its UTF-8 bytes; a [char] is its code point. [u64] prints in
    decimal; [str] between quotes with [char::escape_debug]: the Unicode tables
    that say which characters print as themselves are a parameter. Every format
    here is a prefix code: what follows it in a byte string cannot change what
    it reads as. *)
From S2P Require Import Prelude.
From Stdlib Require Import Ascii String DecimalN HexadecimalN.
Open Scope N_scope.

(** No code word is the beginning of another. *)
Definition prefix_free {A : Type} (f : A -> list N) : Prop :=
  forall a b x y, f a ++ x = f b ++ y -> a = b /\ x = y.

(** The bytes of an ASCII literal. *)
Definition lit (s : string) : list N := N_of_ascii <$> list_ascii_of_string s.

(** ** Numbers *)

Fixpoint uint_digits (u : Decimal.uint) : list N :=
  match u with
  | Decimal.Nil => []
  | Decimal.D0 u => 48 :: uint_digits u
  | Decimal.D1 u => 49 :: uint_digits u
  | Decimal.D2 u => 50 :: uint_digits u
  | Decimal.D3 u => 51 :: uint_digits u
  | Decimal.D4 u => 52 :: uint_digits u
  | Decimal.D5 u => 53 :: uint_digits u
  | Decimal.D6 u => 54 :: uint_digits u
  | Decimal.D7 u => 55 :: uint_digits u
  | Decimal.D8 u => 56 :: uint_digits u
  | Decimal.D9 u => 57 :: uint_digits u
  end.

Definition debug_u64 (n : N) : list N := uint_digits (N.to_uint n).

Fixpoint hex_digits (u : Hexadecimal.uint) : list N :=
  match u with
  | Hexadecimal.Nil => []
  | Hexadecimal.D0 u => 48 :: hex_digits u
  | Hexadecimal.D1 u => 49 :: hex_digits u
  | Hexadecimal.D2 u => 50 :: hex_digits u
  | Hexadecimal.D3 u => 51 :: hex_digits u
  | Hexadecimal.D4 u => 52 :: hex_digits u
  | Hexadecimal.D5 u => 53 :: hex_digits u
  | Hexadecimal.D6 u => 54 :: hex_digits u
  | Hexadecimal.D7 u => 55 :: hex_digits u
  | Hexadecimal.D8 u => 56 :: hex_digits u
  | Hexadecimal.D9 u => 57 :: hex_digits u
  | Hexadecimal.Da u => 97 :: hex_digits u
  | Hexadecimal.Db u => 98 :: hex_digits u
  | Hexadecimal.Dc u => 99 :: hex_digits u
  | Hexadecimal.Dd u => 100 :: hex_digits u
  | Hexadecimal.De u => 101 :: hex_digits u
  | Hexadecimal.Df u => 102 :: hex_digits u
  end.

Definition lower_hex (n : N) : list N := hex_digits (N.to_hex_uint n).

(** Digits closed by a byte that is none of them can be read back. *)
Lemma uint_digits_closed u v x y :
  uint_digits u ++ 41 :: x = uint_digits v ++ 41 :: y -> u = v /\ x = y.
Proof.
  revert v. induction u; intros []; simpl; intros [= Heq]; try done;
    try (by subst); apply IHu in Heq as [-> ->]; done.
Qed.

Lemma hex_digits_closed u v x y :
  hex_digits u ++ 125 :: x = hex_digits v ++ 125 :: y -> u = v /\ x = y.
Proof.
  revert v. induction u; intros []; simpl; intros [= Heq]; try done;
    try (by subst); apply IHu in Heq as [-> ->]; done.
Qed.

Lemma debug_u64_closed n m x y :
  debug_u64 n ++ 41 :: x = debug_u64 m ++ 41 :: y -> n = m /\ x = y.
Proof.
  intros [Heq ->]%uint_digits_closed. split; [|done].
  by rewrite <- (DecimalN.Unsigned.of_to n), Heq, DecimalN.Unsigned.of_to.
Qed.

Lemma lower_hex_closed n m x y :
  lower_hex n ++ 125 :: x = lower_hex m ++ 125 :: y -> n = m /\ x = y.
Proof.
  intros [Heq ->]%hex_digits_closed. split; [|done].
  by rewrite <- (HexadecimalN.Unsigned.of_to n), Heq, HexadecimalN.Unsigned.of_to.
Qed.

(** ** Characters *)

(** [char::encode_utf8]. *)
Definition encode_utf8 (c : N) : list N :=
  if c <? 128 then [c]
  else if c <? 2048 then [192 + c / 64; 128 + c mod 64]
  else if c <? 65536 then [224 + c / 4096; 128 + (c / 64) mod 64; 128 + c mod 64]
  else [240 + c / 262144; 128 + (c / 4096) mod 64; 128 + (c / 64) mod 64; 128 + c mod 64].

Lemma encode_utf8_code a b x y :
  a < 1114112 -> b < 1114112 -> encode_utf8 a ++ x = encode_utf8 b ++ y -> a = b /\ x = y.
Proof.
  assert (D : forall c, c = 64 * (c / 64) + c mod 64 /\ c mod 64 < 64).
  { intros c. split; [apply N.div_mod'|by apply N.mod_lt]. }
  assert (E : forall c, c / 4096 = c / 64 / 64 /\ c / 262144 = c / 64 / 64 / 64).
  { intros c. by rewrite !N.Div0.div_div. }
  intros Ha Hb. unfold encode_utf8.
  destruct (E a) as [-> ->], (E b) as [-> ->].
  pose proof (D a) as [Ea La]. pose proof (D (a / 64)) as [Ea' La']. pose proof (D (a / 64 / 64)) as [Ea'' La''].
  pose proof (D b) as [Eb Lb]. pose proof (D (b / 64)) as [Eb' Lb']. pose proof (D (b / 64 / 64)) as [Eb'' Lb''].
  clear D E. revert Ea La Ea' La' Ea'' La'' Eb Lb Eb' Lb' Eb'' Lb''.
  generalize (a mod 64) ((a / 64) mod 64) ((a / 64 / 64) mod 64) (a / 64 / 64 / 64)
             (b mod 64) ((b / 64) mod 64) ((b / 64 / 64) mod 64) (b / 64 / 64 / 64).
  generalize (a / 64) (b / 64). intros a1 b1. generalize (a1 / 64) (b1 / 64).
  intros a2 b2 a0 a1' a2' a3 b0 b1' b2' b3. intros.
  destruct (N.ltb_spec a 128), (N.ltb_spec a 2048), (N.ltb_spec a 65536),
    (N.ltb_spec b 128), (N.ltb_spec b 2048), (N.ltb_spec b 65536);
    try lia; simpl in *; injection H as; split; (done || lia).
Qed.

Lemma encode_utf8_head c : exists h tl, encode_utf8 c = h :: tl /\ (h = c \/ 128 <= h).
Proof.
  unfold encode_utf8. repeat case_match; eexists _, _; (split; [reflexivity|]);
    [by left|right; etrans; [|apply N.le_add_r]; done..].
Qed.

Section escape.
(** Which characters print as themselves: [is_printable] and not
    [Grapheme_Extend], from the standard library's Unicode tables. *)
Context (printable : N -> bool).

(** [char::escape_debug] as [str]'s [Debug] calls it: single quotes are kept. *)
Definition escape_debug (c : N) : list N :=
  if c =? 0 then [92; 48]
  else if c =? 9 then [92; 116]
  else if c =? 13 then [92; 114]
  else if c =? 10 then [92; 110]
  else if c =? 34 then [92; 34]
  else if c =? 92 then [92; 92]
  else if printable c then encode_utf8 c
  else [92; 117; 123] ++ lower_hex c ++ [125].

Definition escape_str (s : list N) : list N := s ≫= escape_debug.

(** [format!("{:?}", s)] for a [String]. *)
Definition debug_str (s : list N) : list N := [34] ++ escape_str s ++ [34].

(** [format!("{:?}", o)] for an [Option<String>]. *)
Definition debug_opt_str (o : option (list N)) : list N :=
  match o with
  | None => lit "None"
  | Some s => lit "Some(" ++ debug_str s ++ lit ")"
  end.

(** A [char] is a Unicode scalar value. *)
Definition is_char (c : N) : Prop := c < 1114112.

(** The two-byte escapes: each character with the letter after the backslash. *)
Definition short_escapes : list (N * N) :=
  [(0, 48); (9, 116); (13, 114); (10, 110); (34, 34); (92, 92)].

Inductive escaped (c : N) : list N -> Prop :=
| escaped_short t : (c, t) ∈ short_escapes -> escaped c [92; t]
| escaped_plain : c <> 34 -> c <> 92 -> escaped c (encode_utf8 c)
| escaped_hex : escaped c ([92; 117; 123] ++ lower_hex c ++ [125]).

Lemma escape_debug_escaped c : escaped c (escape_debug c).
Proof.
  unfold escape_debug, short_escapes.
  destruct (N.eqb_spec c 0) as [->|]; [constructor; set_solver|].
  destruct (N.eqb_spec c 9) as [->|]; [constructor; set_solver|].
  destruct (N.eqb_spec c 13) as [->|]; [constructor; set_solver|].
  destruct (N.eqb_spec c 10) as [->|]; [constructor; set_solver|].
  destruct (N.eqb_spec c 34) as [->|]; [constructor; set_solver|].
  destruct (N.eqb_spec c 92) as [->|]; [constructor; set_solver|].
  destruct (printable c); by constructor.
Qed.

Lemma short_escape_letter c t : (c, t) ∈ short_escapes -> t <> 117.
Proof. unfold short_escapes. set_solver. Qed.

Lemma short_escape_inj c c' t : (c, t) ∈ short_escapes -> (c', t) ∈ short_escapes -> c = c'.
Proof.
  unfold short_escapes. rewrite !elem_of_cons, !elem_of_nil. intros H1 H2.
  decompose [or] H1; decompose [or] H2; try done; congruence.
Qed.

Lemma encode_utf8_no_backslash c x y : c <> 92 -> encode_utf8 c ++ x <> 92 :: y.
Proof.
  intros Hc. destruct (encode_utf8_head c) as (h & tl & -> & Hh). intros [= -> _].
  destruct Hh; [done|lia].
Qed.

Lemma escape_debug_code a b x y :
  is_char a -> is_char b -> escape_debug a ++ x = escape_debug b ++ y -> a = b /\ x = y.
Proof.
  intros Ha Hb. destruct (escape_debug_escaped a) as [t Ht|Ha1 Ha2|],
    (escape_debug_escaped b) as [t' Ht'|Hb1 Hb2|].
  - simpl. intros [= -> ->]. split; [by eapply short_escape_inj|done].
  - intros Heq. symmetry in Heq. by apply encode_utf8_no_backslash in Heq.
  - simpl. intros [= -> _]. by apply short_escape_letter in Ht.
  - intros Heq. by apply encode_utf8_no_backslash in Heq.
  - by apply encode_utf8_code.
  - intros Heq. by apply encode_utf8_no_backslash in Heq.
  - simpl. intros [= <- _]. by apply short_escape_letter in Ht'.
  - intros Heq. symmetry in Heq. by apply encode_utf8_no_backslash in Heq.
  - simpl. rewrite <- !app_assoc. intros [= Heq]. by apply lower_hex_closed in Heq.
Qed.

Lemma escape_debug_not_quote c x y : escape_debug c ++ x <> 34 :: y.
Proof.
  destruct (escape_debug_escaped c) as [t Ht|H1 H2|]; [done| |done].
  destruct (encode_utf8_head c) as (h & tl & -> & Hh). intros [= -> _]. destruct Hh; [done|lia].
Qed.

Lemma escape_str_closed s s' x y :
  Forall is_char s -> Forall is_char s' ->
  escape_str s ++ 34 :: x = escape_str s' ++ 34 :: y -> s = s' /\ x = y.
Proof.
  intros Hs. revert s'. induction Hs as [|c s Hc _ IH]; intros s' Hs'; destruct Hs' as [|c' s' Hc' Hs'].
  - by intros [= ->].
  - intros Heq. symmetry in Heq. unfold escape_str in Heq. simpl in Heq.
    rewrite <- app_assoc in Heq. by apply escape_debug_not_quote in Heq.
  - intros Heq. unfold escape_str in Heq. simpl in Heq.
    rewrite <- app_assoc in Heq. by apply escape_debug_not_quote in Heq.
  - change (escape_str (c :: s)) with (escape_debug c ++ escape_str s).
    change (escape_str (c' :: s')) with (escape_debug c' ++ escape_str s').
    rewrite <- !app_assoc. intros [-> [-> ->]%IH]%escape_debug_code; done.
Qed.

Lemma debug_opt_str_code o o' x y :
  from_option (Forall is_char) True o -> from_option (Forall is_char) True o' ->
  debug_opt_str o ++ x = debug_opt_str o' ++ y -> o = o' /\ x = y.
Proof.
  intros Ho Ho'. destruct o as [s|], o' as [s'|]; simpl; [|done..|by intros [= ->]].
  rewrite <- !app_assoc. simpl. intros [= Heq]. apply escape_str_closed in Heq as [-> Heq]; [|done..].
  by injection Heq as ->.
Qed.
End escape.
