(* ===== verification/Ledger.v ===== *)
(** The audit ledger: [crates/hyperion-observability/src/{types,ledger}.rs].

    [append] is two atomic steps, taking a sequence number and then writing
    under the lock on [last_hash]; calls on several threads interleave at that
    point, so both steps are definitions and [append] is their composition.
    [format!("{:?}", _)] is [DebugFmt]; the derived [Debug] of a payload, whose
    records come from other crates, is the parameter [debug_payload]. *)
From S2P Require Import Prelude Crypto Capability Authority DebugFmt.
Open Scope N_scope.

(** ** types.rs *)

Inductive PrincipalRef : Type := User (id : N) | Agent (id : N) | CapabilityRef (id : N) | System.

Inductive AuditAction : Type :=
| Grant | Revoke | ExplainRecord | ConsentChange | AdminOverride | ModelRouting.

#[export] Instance principal_eq_dec : EqDecision PrincipalRef.
Proof. solve_decision. Defined.
#[export] Instance action_eq_dec : EqDecision AuditAction.
Proof. solve_decision. Defined.

Definition debug_actor (a : PrincipalRef) : list N :=
  match a with
  | User n => lit "User(" ++ debug_u64 n ++ lit ")"
  | Agent n => lit "Agent(" ++ debug_u64 n ++ lit ")"
  | CapabilityRef n => lit "Capability(" ++ debug_u64 n ++ lit ")"
  | System => lit "System"
  end.

Definition debug_action (a : AuditAction) : list N :=
  match a with
  | Grant => lit "Grant"
  | Revoke => lit "Revoke"
  | ExplainRecord => lit "ExplainRecord"
  | ConsentChange => lit "ConsentChange"
  | AdminOverride => lit "AdminOverride"
  | ModelRouting => lit "ModelRouting"
  end.

Lemma debug_actor_code : prefix_free debug_actor.
Proof.
  intros [n|n|n|] [m|m|m|] x y; simpl; rewrite <- ?app_assoc; try discriminate; simpl;
    try (by intros [= ->]); by intros [= [-> ->]%debug_u64_closed].
Qed.

Lemma debug_action_code : prefix_free debug_action.
Proof. intros [] [] x y; simpl; try discriminate; by intros [= ->]. Qed.

(** [AuditPayload], over the records of the explainability and routing crates. *)
Inductive AuditPayload (E R : Type) : Type :=
| PExplanation (e : E)
| PModelRouting (invocation_id : N) (rationale : R)
| PGrant (capability_ref : list N)
| PRevoke (capability_ref reason : list N)
| PConsentChange (grant_id : N)
| PNote (s : list N).
Arguments PExplanation {E R}.
Arguments PModelRouting {E R}.
Arguments PGrant {E R}.
Arguments PRevoke {E R}.
Arguments PConsentChange {E R}.
Arguments PNote {E R}.

Inductive VerificationReport : Type := Intact | Corrupt (at_seq : N) | Empty.

#[export] Instance report_eq_dec : EqDecision VerificationReport.
Proof. solve_decision. Defined.

Inductive ObservabilityError : Type := Unauthorized.

Section ledger.
Context {E R : Type} `{Signatures} `{Hashing} {M : Type} `{Authority M}
        (printable : N -> bool) (debug_payload : AuditPayload E R -> list N).

Record AuditLogEntry := mkEntry {
  seq : N;
  prev_hash : Hash;
  entry_hash : Hash;
  actor : PrincipalRef;
  action : AuditAction;
  target : option (list N);
  payload : AuditPayload E R;
  timestamp : N
}.

(** ** ledger.rs *)

Definition ANCHOR_INTERVAL : N := 100.

Record Anchor := mkAnchor {
  from_seq : N;
  to_seq : N;
  merkle_root_of : Hash;
  signature : Signature
}.

(** One level of the tree: pairs are hashed, an odd node is carried up. *)
Fixpoint merkle_level (level : list Hash) : list Hash :=
  match level with
  | l :: r :: rest => hash (as_bytes l ++ as_bytes r) :: merkle_level rest
  | _ => level
  end.

Fixpoint merkle_loop (fuel : nat) (level : list Hash) : option Hash :=
  match level with
  | [] => None
  | [h] => Some h
  | _ => match fuel with
         | O => None
         | S fuel => merkle_loop fuel (merkle_level level)
         end
  end.

(** [merkle_root]; [None] is the failed assertion on an empty slice. *)
Definition merkle_root (leaves : list Hash) : option Hash := merkle_loop (length leaves) leaves.

Definition genesis_hash : Hash := hash [].

(** What the hash of an entry covers: not its timestamp. *)
Definition covered (prev : Hash) (sq : N) (a : PrincipalRef) (ac : AuditAction)
    (tg : option (list N)) (p : AuditPayload E R) : list N :=
  as_bytes prev ++ le_bytes 8 sq ++ debug_actor a ++ debug_action ac
  ++ debug_opt_str printable tg ++ debug_payload p.

Definition compute_hash (prev : Hash) (sq : N) (a : PrincipalRef) (ac : AuditAction)
    (tg : option (list N)) (p : AuditPayload E R) : Hash := hash (covered prev sq a ac tg p).

Record AuditLedger := mkLedger {
  entries : list AuditLogEntry;
  next_seq : N;
  last_hash : Hash;
  keystore : option SigningKey;
  anchors : list Anchor
}.

Definition new : AuditLedger := mkLedger [] 1 genesis_hash None [].
Definition new_with_keystore (k : SigningKey) : AuditLedger := mkLedger [] 1 genesis_hash (Some k) [].

Definition require (now : Instant) (monitor : M) (token : CapabilityToken) (r : RightsMask) :
    Result unit ObservabilityError :=
  map_err (fun _ => Unauthorized) (authorize now monitor token r).

Definition in_range (from to : N) (e : AuditLogEntry) : bool := (from <=? seq e) && (seq e <=? to).

Definition segment (l : AuditLedger) (from to : N) : list Hash :=
  entry_hash <$> List.filter (in_range from to) (entries l).

(** [anchor_segment]; [None] is a panic. *)
Definition anchor_segment (l : AuditLedger) (k : SigningKey) (from to : N) : option AuditLedger :=
  root ← merkle_root (segment l from to);
  Some (mkLedger (entries l) (next_seq l) (last_hash l) (keystore l)
          (anchors l ++ [mkAnchor from to root (sign k (as_bytes root))])).

(** First step of [append]: [next_seq.fetch_add(1)]. *)
Definition take_seq (l : AuditLedger) : N * AuditLedger :=
  (next_seq l, mkLedger (entries l) (u64_add (next_seq l) 1) (last_hash l) (keystore l) (anchors l)).

(** Second step: the entry is linked and pushed under the lock, and the anchor
    made if it closes a segment. *)
Definition commit (l : AuditLedger) (sq : N) (a : PrincipalRef) (ac : AuditAction)
    (tg : option (list N)) (p : AuditPayload E R) (now : N) : option (AuditLogEntry * AuditLedger) :=
  let prev := last_hash l in
  let h := compute_hash prev sq a ac tg p in
  let entry := mkEntry sq prev h a ac tg p now in
  let l := mkLedger (entries l ++ [entry]) (next_seq l) h (keystore l) (anchors l) in
  match keystore l with
  | Some k =>
      if sq mod ANCHOR_INTERVAL =? 0 then
        let from := (sq + two64 - ANCHOR_INTERVAL + 1) mod two64 in
        l ← anchor_segment l k from sq; Some (entry, l)
      else Some (entry, l)
  | None => Some (entry, l)
  end.

(** [append], uninterrupted; [None] is a panic. *)
Definition append (now : Instant) (monitor : M) (token : CapabilityToken) (l : AuditLedger)
    (a : PrincipalRef) (ac : AuditAction) (tg : option (list N)) (p : AuditPayload E R) (ts : N) :
    option (Result AuditLogEntry ObservabilityError * AuditLedger) :=
  match require now monitor token WRITE with
  | Err e => Some (Err e, l)
  | Ok _ =>
      let '(sq, l) := take_seq l in
      '(entry, l) ← commit l sq a ac tg p ts;
      Some (Ok entry, l)
  end.

Definition verify_anchor (l : AuditLedger) (an : Anchor) (vk : VerifyingKey) : bool :=
  if negb (verify (as_bytes (merkle_root_of an)) (signature an) vk) then false
  else match segment l (from_seq an) (to_seq an) with
       | [] => false
       | leaves => bool_decide (merkle_root leaves = Some (merkle_root_of an))
       end.

Definition query (now : Instant) (monitor : M) (token : CapabilityToken) (l : AuditLedger)
    (filter : AuditLogEntry -> bool) : Result (list AuditLogEntry) ObservabilityError :=
  let? _ := require now monitor token READ in
  Ok (List.filter filter (entries l)).

Definition routes (invocation_id : N) (e : AuditLogEntry) : bool :=
  match payload e with PModelRouting id _ => id =? invocation_id | _ => false end.

Definition rationale_for_invocation (now : Instant) (monitor : M) (token : CapabilityToken)
    (l : AuditLedger) (invocation_id : N) : Result (option R) ObservabilityError :=
  let? matches := query now monitor token l (routes invocation_id) in
  Ok (e ← last matches; match payload e with PModelRouting _ r => Some r | _ => None end).

(** The loop of [verify_chain]. *)
Fixpoint verify_loop (expected_seq : N) (expected_prev : Hash) (range : list AuditLogEntry) :
    VerificationReport :=
  match range with
  | [] => Intact
  | e :: range =>
      if bool_decide (seq e <> expected_seq) || bool_decide (prev_hash e <> expected_prev)
      then Corrupt (seq e)
      else
        let recomputed := compute_hash (prev_hash e) (seq e) (actor e) (action e) (target e) (payload e) in
        if bool_decide (recomputed <> entry_hash e) then Corrupt (seq e)
        else verify_loop (expected_seq + 1) (entry_hash e) range
  end.

Definition verify_entries (es : list AuditLogEntry) (from to : N) : VerificationReport :=
  match List.filter (in_range from to) es with
  | [] => Empty
  | (first :: _) as range =>
      verify_loop (seq first) (if from =? 1 then genesis_hash else prev_hash first) range
  end.

Definition verify_chain (l : AuditLedger) (from to : N) : VerificationReport :=
  verify_entries (entries l) from to.


(** ** Chains *)

Definition hash_of (e : AuditLogEntry) : Hash :=
  compute_hash (prev_hash e) (seq e) (actor e) (action e) (target e) (payload e).

(** The entries are numbered from [n] on, and each carries its own hash and that
    of the entry before it, the first one [h]. *)
Fixpoint chained (n : N) (h : Hash) (es : list AuditLogEntry) : Prop :=
  match es with
  | [] => True
  | e :: es => seq e = n /\ prev_hash e = h /\ entry_hash e = hash_of e /\ chained (n + 1) (entry_hash e) es
  end.

(** The hash the next entry must link to. *)
Definition tip (h : Hash) (es : list AuditLogEntry) : Hash := default h (entry_hash <$> last es).

Lemma tip_cons h e es : tip h (e :: es) = tip (entry_hash e) es.
Proof. unfold tip. rewrite last_cons. by destruct (last es). Qed.

Lemma tip_snoc h es e : tip h (es ++ [e]) = entry_hash e.
Proof. unfold tip. by rewrite last_snoc. Qed.

Lemma verify_loop_Intact n h es : verify_loop n h es = Intact <-> chained n h es.
Proof.
  revert n h. induction es as [|e es IH]; intros n h; [done|]. cbn [verify_loop chained].
  unfold hash_of. repeat case_bool_decide; simpl; rewrite ?IH; naive_solver.
Qed.

Lemma chained_app n h es1 es2 :
  chained n h (es1 ++ es2)
  <-> chained n h es1 /\ chained (n + N.of_nat (length es1)) (tip h es1) es2.
Proof.
  revert n h. induction es1 as [|e es1 IH]; intros n h; simpl; [by rewrite N.add_0_r; naive_solver|].
  rewrite IH, tip_cons. replace (n + 1 + N.of_nat (length es1)) with (n + N.of_nat (S (length es1))) by lia.
  naive_solver.
Qed.

Lemma chained_snoc n h es e :
  chained n h (es ++ [e])
  <-> chained n h es /\ seq e = n + N.of_nat (length es) /\ prev_hash e = tip h es /\ entry_hash e = hash_of e.
Proof. rewrite chained_app. simpl. naive_solver. Qed.

Lemma chained_seq n h es i e : chained n h es -> es !! i = Some e -> seq e = n + N.of_nat i.
Proof.
  revert n h i. induction es as [|e' es IH]; intros n h i Hc Hi; [done|].
  destruct Hc as (Hs & _ & _ & Hc). destruct i as [|i]; simpl in Hi; [injection Hi as ->; lia|].
  rewrite (IH _ _ _ Hc Hi). lia.
Qed.

Lemma filter_range_low n h es a b :
  chained n h es -> a <= n ->
  List.filter (in_range a b) es = take (N.to_nat (b + 1 - n)) es.
Proof.
  revert n h. induction es as [|e es IH]; intros n h; simpl; [by rewrite take_nil|].
  intros (Hs & _ & _ & Hc) Ha. unfold in_range at 1. rewrite Hs.
  replace (a <=? n) with true by (symmetry; by apply N.leb_le). simpl.
  rewrite (IH _ _ Hc) by lia. destruct (N.leb_spec n b).
  - replace (N.to_nat (b + 1 - n)) with (S (N.to_nat (b + 1 - (n + 1)))) by lia. done.
  - replace (N.to_nat (b + 1 - n)) with 0%nat by lia. by replace (N.to_nat (b + 1 - (n + 1))) with 0%nat by lia.
Qed.

(** Selecting a range of sequence numbers from a chain cuts out a contiguous piece. *)
Lemma filter_range n h es a b :
  chained n h es ->
  List.filter (in_range a b) es
  = take (N.to_nat (b + 1 - N.max a n)) (drop (N.to_nat (a - n)) es).
Proof.
  revert n h. induction es as [|e es IH]; intros n h Hc.
  { by rewrite drop_nil, take_nil. }
  destruct (N.leb_spec a n) as [Ha|Ha].
  { rewrite (filter_range_low _ _ _ _ _ Hc Ha), N.max_r by done.
    by replace (N.to_nat (a - n)) with 0%nat by lia. }
  destruct Hc as (Hs & _ & _ & Hc). simpl. unfold in_range at 1. rewrite Hs.
  replace (a <=? n) with false by (symmetry; by apply N.leb_gt). simpl.
  rewrite (IH _ _ Hc). replace (N.to_nat (a - n)) with (S (N.to_nat (a - (n + 1)))) by lia.
  simpl. by replace (N.max a (n + 1)) with (N.max a n) by lia.
Qed.

Lemma chained_take n h es k : chained n h es -> chained n h (take k es).
Proof.
  rewrite <- (take_drop k es) at 1. by intros [? _]%chained_app.
Qed.

Lemma chained_drop n h es k :
  chained n h es -> chained (n + N.of_nat (min k (length es))) (tip h (take k es)) (drop k es).
Proof.
  rewrite <- (take_drop k es) at 1. rewrite chained_app, length_take. by intros [_ ?].
Qed.

(** [verify_chain] on a chain that starts at the genesis. *)
Lemma verify_chained es a b :
  chained 1 genesis_hash es ->
  verify_entries es a b
  = if N.max a 1 <=? N.min b (N.of_nat (length es)) then Intact else Empty.
Proof.
  intros Hc. unfold verify_entries. rewrite (filter_range _ _ _ _ _ Hc).
  set (k := N.to_nat (a - 1)). set (m := N.to_nat (b + 1 - N.max a 1)).
  pose proof (chained_take _ _ _ m (chained_drop _ _ _ k Hc)) as Hd.
  destruct (take m (drop k es)) as [|e r] eqn:Hr.
  - replace (_ <=? _) with false; [done|]. symmetry. apply N.leb_gt.
    apply (f_equal length) in Hr. rewrite length_take, length_drop in Hr. simpl in Hr. lia.
  - replace (_ <=? _) with true.
    2: { symmetry. apply N.leb_le. apply (f_equal length) in Hr.
         rewrite length_take, length_drop in Hr. simpl in Hr. lia. }
    apply verify_loop_Intact. assert (Hse := Hd). destruct Hse as (Hs & Hp & _).
    rewrite Hs. destruct (N.eqb_spec a 1) as [->|Ha]; [|by rewrite Hp].
    subst k. simpl in *. by rewrite take_0 in *.
Qed.

(** ** Merkle roots *)

Lemma length_merkle_level level : (2 * length (merkle_level level) <= length level + 1)%nat.
Proof. induction level as [| |l r rest IH] using list_pair_ind; simpl in *; lia. Qed.

Lemma merkle_level_nonempty level : level <> [] -> merkle_level level <> [].
Proof. by destruct level as [|l [|r rest]]. Qed.

(** The loop ends: a level of two or more shrinks. *)
Lemma merkle_loop_total fuel level :
  level <> [] -> (length level <= S fuel)%nat -> is_Some (merkle_loop fuel level).
Proof.
  revert level. induction fuel as [|fuel IH]; intros level Hne Hlen;
    (destruct level as [|l [|r rest]]; [done|by eexists|simpl in Hlen]); [lia|].
  change (is_Some (merkle_loop fuel (merkle_level (l :: r :: rest)))).
  apply IH; [by apply merkle_level_nonempty|].
  pose proof (length_merkle_level (l :: r :: rest)) as Hl. simpl in *. lia.
Qed.

Lemma merkle_root_total leaves : leaves <> [] -> is_Some (merkle_root leaves).
Proof. intros Hne. apply merkle_loop_total; [done|lia]. Qed.

Lemma as_bytes_app_inj a b c d :
  as_bytes a ++ as_bytes b = as_bytes c ++ as_bytes d -> a = c /\ b = d.
Proof.
  intros [Ha Hb]%app_inj_1; [|by rewrite !as_bytes_len]. split; by apply as_bytes_inj.
Qed.

Lemma merkle_level_inj l1 l2 :
  length l1 = length l2 -> merkle_level l1 = merkle_level l2 -> l1 = l2 \/ collision.
Proof.
  revert l2. induction l1 as [|x|x y l1 IH] using list_pair_ind; intros l2 Hlen Heq.
  - left. by destruct l2.
  - left. destruct l2 as [|? [|? ?]]; [done..|]. by simpl in Hlen.
  - destruct l2 as [|x' [|y' l2]]; [done..|]. simpl in *. injection Heq as Hh Heq.
    apply hash_inj_or_collision in Hh as [[-> ->]%as_bytes_app_inj|]; [|by right].
    destruct (IH l2) as [->|]; [lia|done|by left|by right].
Qed.

Lemma merkle_level_same_length l1 l2 :
  length l1 = length l2 -> length (merkle_level l1) = length (merkle_level l2).
Proof.
  revert l2. induction l1 as [|x|x y l1 IH] using list_pair_ind; intros [|x' [|y' l2]] Hlen;
    simpl in *; try lia. rewrite (IH l2); lia.
Qed.

Lemma merkle_loop_inj fuel l1 l2 h :
  length l1 = length l2 -> merkle_loop fuel l1 = Some h -> merkle_loop fuel l2 = Some h ->
  l1 = l2 \/ collision.
Proof.
  revert l1 l2. induction fuel as [|fuel IH]; intros l1 l2 Hlen Hr1 Hr2.
  { destruct l1 as [|x [|y l1]], l2 as [|x' [|y' l2]]; try done. left. simpl in *. congruence. }
  destruct l1 as [|x [|y l1]], l2 as [|x' [|y' l2]]; try done.
  { left. simpl in *. congruence. }
  destruct (IH (merkle_level (x :: y :: l1)) (merkle_level (x' :: y' :: l2))) as [Heq|];
    [by apply merkle_level_same_length|done|done|by apply merkle_level_inj|by right].
Qed.

(** Two lists of leaves of the same length with the same root are the same. *)
Lemma merkle_root_inj l1 l2 h :
  length l1 = length l2 -> merkle_root l1 = Some h -> merkle_root l2 = Some h -> l1 = l2 \/ collision.
Proof. intros Hlen. unfold merkle_root. rewrite <- Hlen. by apply merkle_loop_inj. Qed.

(** ** What a hash covers *)

(** A sequence number is 64 bits wide and a string holds characters. *)
Definition typed (e : AuditLogEntry) : Prop :=
  seq e < two64 /\ from_option (Forall is_char) True (target e).

(** The fields an entry's hash covers, the payload as it is rendered. *)
Definition fields (e : AuditLogEntry) :=
  (seq e, prev_hash e, actor e, action e, target e, debug_payload (payload e)).

Lemma hash_of_inj e e' :
  typed e -> typed e' -> hash_of e = hash_of e' -> fields e = fields e' \/ collision.
Proof.
  intros [Hs Ht] [Hs' Ht']. unfold hash_of, compute_hash.
  intros [Heq|]%hash_inj_or_collision; [left|by right]. unfold covered in Heq.
  apply app_inj_1 in Heq as [Hp%as_bytes_inj Heq]; [|by rewrite !as_bytes_len].
  apply (le_bytes_app_inj 8 _ _ _ _ Hs Hs') in Heq as [Hseq Heq].
  apply debug_actor_code in Heq as [Ha Heq]. apply debug_action_code in Heq as [Hac Heq].
  apply debug_opt_str_code in Heq as [Htg Heq]; [|done..].
  unfold fields. congruence.
Qed.

Lemma hash_of_genesis e : hash_of e = genesis_hash -> collision.
Proof.
  intros Heq. eexists _, []. split; [|exact Heq]. intros Hnil. apply (f_equal length) in Hnil.
  unfold covered in Hnil. rewrite length_app, as_bytes_len in Hnil. simpl in Hnil. lia.
Qed.

(** A chain is determined by its last hash. *)
Lemma chain_determined n n' es es' :
  Forall typed es -> Forall typed es' ->
  chained n genesis_hash es -> chained n' genesis_hash es' ->
  tip genesis_hash es = tip genesis_hash es' ->
  fields <$> es = fields <$> es' \/ collision.
Proof.
  revert es'. induction es as [|e es IH] using rev_ind; intros es' Ht Ht' Hc Hc' Htip;
    destruct es' as [|e' es' _] using rev_ind.
  - by left.
  - right. rewrite tip_snoc in Htip. apply chained_snoc in Hc' as (_ & _ & _ & He).
    apply (hash_of_genesis e'). rewrite <- He. by symmetry.
  - right. rewrite tip_snoc in Htip. apply chained_snoc in Hc as (_ & _ & _ & He).
    apply (hash_of_genesis e). by rewrite <- He.
  - rewrite !tip_snoc in Htip. apply chained_snoc in Hc as (Hc & _ & Hp & He), Hc' as (Hc' & _ & Hp' & He').
    apply Forall_app in Ht as [Ht [Hte _]%Forall_cons], Ht' as [Ht' [Hte' _]%Forall_cons].
    rewrite He, He' in Htip. apply hash_of_inj in Htip as [Hf|]; [|by right|done..].
    destruct (IH es') as [Heq|]; [done..| | |by right].
    + unfold fields in Hf. rewrite <- Hp, <- Hp'. congruence.
    + left. by rewrite !fmap_app, Heq; simpl; rewrite Hf.
Qed.

(** ** Ledgers used from one thread *)

(** An anchor made by this ledger over a segment it still holds. *)
Definition anchored (l : AuditLedger) (an : Anchor) : Prop :=
  exists k, keystore l = Some k /\ signature an = sign k (as_bytes (merkle_root_of an))
    /\ 1 <= from_seq an <= to_seq an /\ to_seq an <= N.of_nat (length (entries l))
    /\ merkle_root (segment l (from_seq an) (to_seq an)) = Some (merkle_root_of an).

(** Every full segment up to [len] has its anchor. *)
Definition closed_by (len : N) (ans : list Anchor) : Prop :=
  forall j, 100 * j + 100 <= len ->
    exists an, an ∈ ans /\ from_seq an = 100 * j + 1 /\ to_seq an = 100 * j + 100.

Record seq_inv (l : AuditLedger) : Prop := {
  si_chain : chained 1 genesis_hash (entries l);
  si_last : last_hash l = tip genesis_hash (entries l);
  si_next : next_seq l = 1 + N.of_nat (length (entries l));
  si_bound : next_seq l < two64;
  si_anchors : Forall (anchored l) (anchors l);
  si_closed : forall k, keystore l = Some k -> closed_by (N.of_nat (length (entries l))) (anchors l)
}.

Lemma in_range_above from to e : to < seq e -> in_range from to e = false.
Proof. intros. unfold in_range. apply andb_false_iff. right. by apply N.leb_gt. Qed.

Lemma segment_push l e n h ks an from to :
  to < seq e -> segment (mkLedger (entries l ++ [e]) n h ks an) from to = segment l from to.
Proof.
  intros Hlt. unfold segment. simpl. rewrite List.filter_app. simpl.
  by rewrite in_range_above, app_nil_r.
Qed.

Lemma segment_length l from to :
  chained 1 genesis_hash (entries l) -> 1 <= from -> to <= N.of_nat (length (entries l)) ->
  length (segment l from to) = N.to_nat (to + 1 - from).
Proof.
  intros Hc Hf Ht. unfold segment. rewrite length_fmap, (filter_range _ _ _ _ _ Hc).
  rewrite length_take, length_drop. lia.
Qed.

Lemma wrapped_from sq :
  sq < two64 -> sq mod 100 = 0 -> 1 <= sq ->
  exists j, sq = 100 * j + 100 /\ (sq + two64 - 100 + 1) mod two64 = 100 * j + 1.
Proof.
  intros Hlt Hm H1'. pose proof (N.div_mod' sq 100) as Hd. rewrite Hm in Hd.
  exists (sq / 100 - 1). generalize dependent (sq / 100). intros q Hd. split; [lia|].
  unfold two64 in *. replace (sq + 18446744073709551616 - 100 + 1) with (sq - 99 + 1 * 18446744073709551616) by lia.
  rewrite N.Div0.mod_add, N.mod_small; lia.
Qed.

Lemma anchored_push l e n h ans an :
  seq e = 1 + N.of_nat (length (entries l)) -> anchored l an ->
  anchored (mkLedger (entries l ++ [e]) n h (keystore l) ans) an.
Proof.
  intros Hs (k & Hk & Hsig & Hf & Ht & Hr). exists k. simpl. rewrite length_app. simpl.
  do 3 (split; [done|]). split; [lia|]. rewrite segment_push by lia. done.
Qed.

(** Between two anchors no segment closes. *)
Lemma closed_by_between len ans :
  closed_by len ans -> (len + 1) mod 100 <> 0 -> closed_by (len + 1) ans.
Proof.
  intros Hc Hm j Hj. apply Hc. destruct (decide (len + 1 = 100 * j + 100)) as [Heq|]; [|lia].
  destruct Hm. rewrite Heq. replace (100 * j + 100) with ((j + 1) * 100) by lia. apply N.Div0.mod_mul.
Qed.

Lemma commit_seq_inv l a ac tg p ts :
  seq_inv l -> next_seq l + 1 < two64 ->
  exists e l', commit (take_seq l).2 (next_seq l) a ac tg p ts = Some (e, l')
    /\ seq_inv l' /\ entries l' = entries l ++ [e] /\ keystore l' = keystore l
    /\ e = mkEntry (next_seq l) (last_hash l) (compute_hash (last_hash l) (next_seq l) a ac tg p) a ac tg p ts.
Proof.
  intros [Hc Hl Hn Hb Ha Hcl] Hlt. unfold commit, take_seq. simpl.
  set (e := mkEntry _ _ _ a ac tg p ts).
  set (len := N.of_nat (length (entries l))) in *.
  assert (Hc' : chained 1 genesis_hash (entries l ++ [e])).
  { apply chained_snoc. split; [done|]. split; [exact Hn|]. by split; [exact Hl|]. }
  assert (Ha' : forall n h ans, Forall (anchored (mkLedger (entries l ++ [e]) n h (keystore l) ans)) (anchors l)).
  { intros n h ans. eapply Forall_impl; [exact Ha|]. intros an. by apply anchored_push. }
  assert (Hlen : N.of_nat (length (entries l ++ [e])) = len + 1)
    by (rewrite length_app; simpl; lia).
  assert (Hinv : forall ans,
    Forall (anchored (mkLedger (entries l ++ [e]) (u64_add (next_seq l) 1) (entry_hash e) (keystore l) ans)) ans ->
    (forall k, keystore l = Some k -> closed_by (len + 1) ans) ->
    seq_inv (mkLedger (entries l ++ [e]) (u64_add (next_seq l) 1) (entry_hash e) (keystore l) ans)).
  { intros ans Hans Hclosed. constructor; simpl; rewrite ?Hlen; [done|by rewrite tip_snoc| |apply u64_add_lt|done|done].
    rewrite u64_add_small by done. lia. }
  destruct (keystore l) as [k|] eqn:Hk.
  2: { eexists e, _. split; [done|]. split; [by apply Hinv|done]. }
  destruct (N.eqb_spec (next_seq l mod ANCHOR_INTERVAL) 0) as [Hm|Hm].
  2: { eexists e, _. split; [done|]. split; [|done]. apply Hinv; [done|]. intros k' _.
       apply closed_by_between; [by eapply Hcl|]. by rewrite N.add_comm, <- Hn. }
  destruct (wrapped_from (next_seq l)) as (j & Hj & Hfrom); [done..|lia|].
  change (two64 - ANCHOR_INTERVAL) with (two64 - 100). unfold ANCHOR_INTERVAL. rewrite Hfrom.
  unfold anchor_segment. set (l1 := mkLedger (entries l ++ [e]) _ _ _ (anchors l)).
  assert (Hseg : length (segment l1 (100 * j + 1) (next_seq l)) = 100%nat).
  { rewrite segment_length; simpl; [lia|done|lia|rewrite Hlen; lia]. }
  destruct (merkle_root_total (segment l1 (100 * j + 1) (next_seq l))) as [root Hroot].
  { intros Hnil. by rewrite Hnil in Hseg. }
  rewrite Hroot. simpl. eexists e, _. split; [done|]. split; [|done].
  apply Hinv.
  - apply Forall_app. split; [done|]. constructor; [|constructor]. exists k. simpl. rewrite Hlen.
    do 2 (split; [done|]). split; [lia|]. split; [lia|]. exact Hroot.
  - intros k' _ i Hi. destruct (decide (i = j)) as [->|Hij].
    + eexists. split; [apply elem_of_app; right; by left|]. simpl. by rewrite Hj.
    + destruct (Hcl k eq_refl i) as (an & Han & ? & ?); [lia|]. exists an. split; [|done].
      apply elem_of_app. by left.
Qed.

Lemma append_seq_inv now m t l a ac tg p ts :
  seq_inv l -> next_seq l + 1 < two64 ->
  exists res l', append now m t l a ac tg p ts = Some (res, l') /\ seq_inv l' /\ keystore l' = keystore l
    /\ match res with
       | Err _ => authorize now m t WRITE <> Ok tt /\ l' = l
       | Ok e => contains (rights t) WRITE = true /\ entries l' = entries l ++ [e]
                 /\ e = mkEntry (next_seq l) (last_hash l)
                          (compute_hash (last_hash l) (next_seq l) a ac tg p) a ac tg p ts
       end.
Proof.
  intros Hinv Hlt. unfold append, require. destruct (authorize now m t WRITE) as [[]|] eqn:Ha; simpl.
  - destruct (commit_seq_inv l a ac tg p ts Hinv Hlt) as (e & l' & Hcm & Hinv' & He & Hk & Heq).
    unfold take_seq in Hcm. simpl in Hcm. rewrite Hcm. simpl. eexists _, _. split; [done|].
    split; [done|]. split; [done|]. split; [by eapply authorize_rights|done].
  - eexists _, _. done.
Qed.

(** Ledgers built by calls to [append] from one thread. *)
Inductive ledger_run : AuditLedger -> Prop :=
| run_new : ledger_run new
| run_keystore k : ledger_run (new_with_keystore k)
| run_append now m t l a ac tg p ts res l' :
    ledger_run l -> next_seq l + 1 < two64 ->
    append now m t l a ac tg p ts = Some (res, l') -> ledger_run l'.

Lemma new_seq_inv ks : seq_inv (mkLedger [] 1 genesis_hash ks []).
Proof.
  constructor; try done. intros k _ j Hj. simpl in Hj. lia.
Qed.

Lemma ledger_run_inv l : ledger_run l -> seq_inv l.
Proof.
  induction 1 as [| |now m t l a ac tg p ts res l' _ IH Hlt Happ]; [apply new_seq_inv..|].
  destruct (append_seq_inv now m t l a ac tg p ts IH Hlt) as (res' & l'' & Happ' & Hinv & _).
  rewrite Happ in Happ'. by injection Happ' as -> ->.
Qed.

(** ** Tampering *)

Lemma Forall_list_filter {A : Type} (f : A -> bool) (P : A -> Prop) l :
  Forall P l -> Forall P (List.filter f l).
Proof. induction 1 as [|x l Hx _ IH]; simpl; [done|]. destruct (f x); by try constructor. Qed.

Lemma verify_loop_app n h es1 es2 :
  chained n h es1 ->
  verify_loop n h (es1 ++ es2) = verify_loop (n + N.of_nat (length es1)) (tip h es1) es2.
Proof.
  revert n h. induction es1 as [|e es1 IH]; intros n h; [by rewrite N.add_0_r|].
  intros (Hs & Hp & He & Hc). cbn [app verify_loop]. unfold hash_of in He.
  rewrite bool_decide_false, bool_decide_false, bool_decide_false by (by intros []).
  simpl. rewrite (IH _ _ Hc), tip_cons. f_equal. lia.
Qed.

Lemma in_range_all es n :
  chained 1 genesis_hash es -> N.of_nat (length es) <= n -> Forall (fun e => in_range 1 n e = true) es.
Proof.
  intros Hc Hn. apply Forall_lookup. intros i e Hi. unfold in_range.
  rewrite (chained_seq _ _ _ _ _ Hc Hi). apply lookup_lt_Some in Hi.
  apply andb_true_iff. split; apply N.leb_le; lia.
Qed.

(** Only the link to the replaced entry can break in what follows it. *)
Lemma chained_tail_tampered n h h' rest last_seq :
  chained (n + 1) h rest -> n + N.of_nat (length rest) = last_seq ->
  verify_loop (n + 1) h' rest
  = if bool_decide (h' <> h) && (n <? last_seq) then Corrupt (n + 1) else Intact.
Proof.
  intros Hc <-. destruct rest as [|e rest]; cbn [verify_loop length].
  { rewrite (proj2 (N.ltb_ge n _)) by lia. by case_bool_decide. }
  replace (n <? _) with true by (symmetry; apply N.ltb_lt; lia).
  destruct (decide (h' = h)) as [->|Hh].
  - rewrite (bool_decide_false (h <> h)) by (by intros []).
    by apply (verify_loop_Intact _ _ (e :: rest)).
  - rewrite (bool_decide_true (h' <> h)) by done. destruct Hc as (Hs & Hp & _). rewrite Hs, Hp.
    by rewrite (bool_decide_true (h <> h')), orb_true_r by congruence.
Qed.

(** ** Appends from several threads *)

(** An append between its two steps: the number it took and its arguments. *)
Record pending := mkPending {
  p_seq : N;
  p_actor : PrincipalRef;
  p_action : AuditAction;
  p_target : option (list N);
  p_payload : AuditPayload E R;
  p_now : N
}.

Inductive race : AuditLedger -> list pending -> Prop :=
| race_start ks : race (mkLedger [] 1 genesis_hash ks []) []
| race_take now m t l ps a ac tg p ts :
    race l ps -> require now m t WRITE = Ok tt -> next_seq l + 1 < two64 ->
    race (take_seq l).2 (mkPending (next_seq l) a ac tg p ts :: ps)
| race_commit l ps1 q ps2 e l' :
    race l (ps1 ++ q :: ps2) ->
    commit l (p_seq q) (p_actor q) (p_action q) (p_target q) (p_payload q) (p_now q) = Some (e, l') ->
    race l' (ps1 ++ ps2).

(** Each entry carries its own hash and the hash of the entry stored before it. *)
Fixpoint hash_linked (h : Hash) (es : list AuditLogEntry) : Prop :=
  match es with
  | [] => True
  | e :: es => prev_hash e = h /\ entry_hash e = hash_of e /\ hash_linked (entry_hash e) es
  end.

(** The sequence numbers go up by one from the first. *)
Fixpoint consecutive (n : N) (es : list AuditLogEntry) : Prop :=
  match es with
  | [] => True
  | e :: es => seq e = n /\ consecutive (n + 1) es
  end.

Lemma chained_split n h es : chained n h es <-> consecutive n es /\ hash_linked h es.
Proof.
  revert n h. induction es as [|e es IH]; intros n h; simpl; [done|]. rewrite IH. naive_solver.
Qed.

Lemma hash_linked_snoc h es e :
  hash_linked h es -> prev_hash e = tip h es -> entry_hash e = hash_of e -> hash_linked h (es ++ [e]).
Proof.
  revert h. induction es as [|e' es IH]; intros h Hl Hp He; simpl; [done|].
  destruct Hl as (? & ? & ?). rewrite tip_cons in Hp. auto.
Qed.

Lemma commit_entries l sq a ac tg p ts e l' :
  commit l sq a ac tg p ts = Some (e, l') ->
  entries l' = entries l ++ [e] /\ last_hash l' = entry_hash e /\ next_seq l' = next_seq l
  /\ seq e = sq /\ prev_hash e = last_hash l /\ entry_hash e = hash_of e.
Proof.
  unfold commit, anchor_segment. simpl. destruct (keystore l); [|by intros [= <- <-]].
  destruct (_ =? 0); [|by intros [= <- <-]]. destruct (merkle_root _); [|done]. by intros [= <- <-].
Qed.

Lemma race_inv l ps :
  race l ps ->
  hash_linked genesis_hash (entries l) /\ last_hash l = tip genesis_hash (entries l)
  /\ 1 <= next_seq l
  /\ Forall (fun n => 1 <= n < next_seq l) ((seq <$> entries l) ++ (p_seq <$> ps)).
Proof.
  induction 1 as [ks|now m t l ps a ac tg p ts _ (Hl & Ht & Hn & Hs) Hr Hlt
                 |l ps1 q ps2 e l' _ (Hl & Ht & Hn & Hs) Hcm].
  - by repeat constructor.
  - simpl. rewrite u64_add_small by done. do 2 (split; [done|]). split; [lia|].
    eapply Permutation_Forall; [apply Permutation_middle|]. constructor; [lia|].
    eapply Forall_impl; [exact Hs|]. simpl. lia.
  - apply commit_entries in Hcm as (-> & -> & -> & Hq & Hp & He).
    split; [by apply hash_linked_snoc; [done|rewrite Hp|]|]. split; [by rewrite tip_snoc|]. split; [done|].
    eapply Permutation_Forall; [|exact Hs]. rewrite !fmap_app. simpl. rewrite Hq.
    rewrite <- app_assoc. apply Permutation_app_head. simpl. symmetry. apply Permutation_middle.
Qed.

Lemma verify_race l ps first es :
  race l ps -> entries l = first :: es ->
  verify_chain l 1 (next_seq l - 1) = verify_loop (seq first) genesis_hash (entries l).
Proof.
  intros (_ & _ & Hn & Hs)%race_inv He. unfold verify_chain, verify_entries.
  apply Forall_app in Hs as [Hs _]. rewrite filter_all; [by rewrite He|].
  rewrite Forall_fmap in Hs. eapply Forall_impl; [exact Hs|]. intros e Hr. simpl in Hr.
  unfold in_range. apply andb_true_iff. split; apply N.leb_le; lia.
Qed.

(** ** Anchors *)

Lemma merkle_loop_more fuel fuel' level h :
  merkle_loop fuel level = Some h -> (fuel <= fuel')%nat -> merkle_loop fuel' level = Some h.
Proof.
  revert fuel' level. induction fuel as [|fuel IH]; intros fuel' level Hr Hle.
  { destruct level as [|x [|y level]]; [done| |done]. by destruct fuel'. }
  destruct fuel' as [|fuel']; [lia|]. destruct level as [|x [|y level]]; [done|done|].
  apply (IH fuel' (merkle_level (x :: y :: level))); [exact Hr|lia].
Qed.

(** A tree has the same root as its own first level taken as leaves. *)
Lemma merkle_root_level leaves h :
  (2 <= length leaves)%nat -> merkle_root leaves = Some h -> merkle_root (merkle_level leaves) = Some h.
Proof.
  intros Hlen Hr. destruct leaves as [|x [|y leaves]]; [simpl in Hlen; lia..|].
  destruct (merkle_root_total (merkle_level (x :: y :: leaves))) as [h' Hh'];
    [by apply merkle_level_nonempty|].
  rewrite Hh'. f_equal. unfold merkle_root in Hr, Hh'.
  change (merkle_loop (length (x :: y :: leaves)) (x :: y :: leaves))
    with (merkle_loop (S (length leaves)) (merkle_level (x :: y :: leaves))) in Hr.
  apply (merkle_loop_more _ (S (length leaves))) in Hh'; [congruence|].
  pose proof (length_merkle_level (x :: y :: leaves)) as Hl. simpl in *. lia.
Qed.

Lemma verify_anchor_spec l an vk :
  verify_anchor l an vk = true <->
  verify (as_bytes (merkle_root_of an)) (signature an) vk = true
  /\ merkle_root (segment l (from_seq an) (to_seq an)) = Some (merkle_root_of an).
Proof.
  unfold verify_anchor. destruct (verify _ _ _); simpl; [|naive_solver].
  destruct (segment l (from_seq an) (to_seq an)); [naive_solver|]. by rewrite bool_decide_eq_true; naive_solver.
Qed.

(** A ledger written by one thread verifies: whatever calls built it,
    [verify_chain] over any range reports [Intact], or [Empty] exactly when the
    range holds no entry; and the next [append] never panics, either refusing and
    changing nothing, or storing one entry numbered and linked after the last. *)
Theorem appended_ledger_is_intact l :
  ledger_run l ->
  (forall a b, verify_chain l a b
     = if N.max a 1 <=? N.min b (N.of_nat (length (entries l))) then Intact else Empty)
  /\ (forall now m t a ac tg p ts, next_seq l + 1 < two64 ->
       exists res l', append now m t l a ac tg p ts = Some (res, l')
         /\ match res with
            | Err _ => authorize now m t WRITE <> Ok tt /\ l' = l
            | Ok e => contains (rights t) WRITE = true /\ entries l' = entries l ++ [e]
                      /\ seq e = 1 + N.of_nat (length (entries l))
                      /\ prev_hash e = tip genesis_hash (entries l) /\ entry_hash e = hash_of e
                      /\ payload e = p /\ timestamp e = ts
            end).
Proof.
  intros Hi%ledger_run_inv. split.
  - intros a b. apply verify_chained, Hi.
  - intros now m t a ac tg p ts Hlt.
    destruct (append_seq_inv now m t l a ac tg p ts Hi Hlt) as (res & l' & Happ & _ & _ & Hres).
    exists res, l'. split; [done|]. destruct res as [e|]; [|done]. destruct Hres as (Hr & He & ->).
    destruct Hi as [_ Hl Hn _ _ _]. simpl. rewrite <- Hl, <- Hn. done.
Qed.

(** C7. Tamper evidence: two sets of entries that both verify from the genesis
    and end in the same hash agree on every field the hash covers, entry by
    entry and in number, unless two inputs of the hash function collide. So
    whoever remembers the last hash of a ledger cannot be shown another one. *)
Theorem verified_chain_determined es es' n n' :
  Forall typed es -> Forall typed es' ->
  verify_entries es 1 n = Intact -> verify_entries es' 1 n' = Intact ->
  let range := List.filter (in_range 1 n) es in
  let range' := List.filter (in_range 1 n') es' in
  entry_hash <$> last range = entry_hash <$> last range' ->
  fields <$> range = fields <$> range' \/ collision.
Proof.
  assert (Hin : forall xs k, Forall typed xs -> verify_entries xs 1 k = Intact ->
    Forall typed (List.filter (in_range 1 k) xs)
    /\ exists s, chained s genesis_hash (List.filter (in_range 1 k) xs)).
  { intros xs k Ht Hv. split.
    - by apply Forall_list_filter.
    - unfold verify_entries in Hv. destruct (List.filter (in_range 1 k) xs) as [|f r]; [done|].
      exists (seq f). by apply verify_loop_Intact. }
  intros Ht Ht' Hv Hv' range range' Hlast.
  destruct (Hin _ _ Ht Hv) as [Hty [s Hc]], (Hin _ _ Ht' Hv') as [Hty' [s' Hc']].
  eapply chain_determined; [done..|]. unfold tip. by fold range range'; rewrite Hlast.
Qed.

(** What verification reports of [n] entries of which [e] was replaced by [e']. *)
Definition tampered_report (n : N) (e e' : AuditLogEntry) : VerificationReport :=
  let sound := bool_decide (prev_hash e' = prev_hash e /\ entry_hash e' = hash_of e') in
  if in_range 1 n e' then
    if seq e' =? seq e then
      if sound then if bool_decide (entry_hash e' <> entry_hash e) && (seq e <? n) then Corrupt (seq e + 1) else Intact
      else Corrupt (seq e)
    else if (seq e =? 1) && sound then Corrupt 2 else Corrupt (seq e')
  else if n =? 1 then Empty
  else if seq e =? 1 then if bool_decide (genesis_hash <> entry_hash e) then Corrupt 2 else Intact
  else if seq e =? n then Intact else Corrupt (seq e + 1).

Lemma verify_wrong_seq n h e es : seq e <> n -> verify_loop n h (e :: es) = Corrupt (seq e).
Proof. intros Hne. cbn [verify_loop]. by rewrite bool_decide_true. Qed.

(** One step of the loop at an entry with the right number. *)
Lemma verify_right_seq h e es :
  verify_loop (seq e) h (e :: es)
  = if bool_decide (prev_hash e = h /\ entry_hash e = hash_of e) then verify_loop (seq e + 1) (entry_hash e) es else Corrupt (seq e).
Proof.
  cbn [verify_loop]. fold (hash_of e). rewrite (bool_decide_false (seq e <> seq e)) by (by intros []). simpl.
  repeat case_bool_decide; naive_solver.
Qed.

Lemma verify_replaced_out n e e' es1 rest :
  chained 1 genesis_hash (es1 ++ e :: rest) -> n = N.of_nat (length (es1 ++ e :: rest)) -> in_range 1 n e' = false ->
  match es1 ++ rest with [] => Empty | (first :: _) as range => verify_loop (seq first) genesis_hash range end = tampered_report n e e'.
Proof.
  intros Hc Hn Hout. unfold tampered_report. rewrite Hout. apply chained_app in Hc as [Hc1 (Hs & _ & _ & Hc2)]. rewrite length_app in Hn. cbn [length] in Hn.
  destruct es1 as [|f es1]; cbn [app length] in *.
  - assert (Hs1 : seq e = 1) by lia. destruct rest as [|r rest]; [by rewrite (proj2 (N.eqb_eq n 1)) by (cbn [length] in Hn; lia)|]. cbn [length] in Hn.
    rewrite (proj2 (N.eqb_neq n 1)), (proj2 (N.eqb_eq (seq e) 1)) by lia. rewrite <- Hs, Hs1 in Hc2.
    pose proof (chained_tail_tampered 1 (entry_hash e) genesis_hash (r :: rest) n Hc2 ltac:(cbn [length]; lia)) as Ht.
    destruct Hc2 as (Hr & _). rewrite Hr, Ht, (proj2 (N.ltb_lt 1 n)) by lia. by rewrite andb_true_r.
  - assert (Hf : seq f = 1) by by destruct Hc1. rewrite Hf, app_comm_cons, (verify_loop_app _ _ _ _ Hc1). cbn [length].
    rewrite (proj2 (N.eqb_neq n 1)), (proj2 (N.eqb_neq (seq e) 1)) by lia. destruct rest as [|r rest]; cbn [length] in Hn.
    + by rewrite (proj2 (N.eqb_eq (seq e) n)) by lia.
    + rewrite (proj2 (N.eqb_neq (seq e) n)) by lia. destruct Hc2 as (Hr & _). rewrite verify_wrong_seq by lia. by rewrite Hr, Hs.
Qed.

Lemma verify_replaced_in n e e' es1 rest :
  chained 1 genesis_hash (es1 ++ e :: rest) -> n = N.of_nat (length (es1 ++ e :: rest)) -> in_range 1 n e' = true ->
  match es1 ++ e' :: rest with [] => Empty | (first :: _) as range => verify_loop (seq first) genesis_hash range end = tampered_report n e e'.
Proof.
  intros Hc Hn Hin. unfold tampered_report. rewrite Hin. apply chained_app in Hc as [Hc1 (Hs & Hp & _ & Hc2)].
  assert (Htail : seq e + N.of_nat (length rest) = n) by (rewrite length_app in Hn; cbn [length] in Hn; lia).
  rewrite <- Hs in Hc2. pose proof (fun h' => chained_tail_tampered (seq e) (entry_hash e) h' rest _ Hc2 Htail) as Hrest.
  destruct es1 as [|f es1]; cbn [app length] in *.
  - rewrite verify_right_seq. unfold tip in Hp. simpl in Hp. rewrite <- Hp. destruct (N.eqb_spec (seq e') (seq e)) as [->|Hne]; [by rewrite Hrest|].
    rewrite (proj2 (N.eqb_eq (seq e) 1)) by lia. cbn [andb]. case_bool_decide; [|done].
    destruct rest as [|r rest]; cbn [length] in *; [exfalso; apply andb_true_iff in Hin as [Hlo%N.leb_le Hhi%N.leb_le]; lia|].
    destruct Hc2 as (Hr & _). rewrite verify_wrong_seq by lia. f_equal. lia.
  - assert (Hf : seq f = 1) by by destruct Hc1. rewrite Hf, app_comm_cons, (verify_loop_app _ _ _ _ Hc1). cbn [length]. rewrite <- Hs, <- Hp.
    rewrite (proj2 (N.eqb_neq (seq e) 1)) by lia. cbn [andb].
    destruct (N.eqb_spec (seq e') (seq e)) as [Heq|Hne]; [|by rewrite verify_wrong_seq]. rewrite <- Heq, verify_right_seq, Heq. by rewrite Hrest.
Qed.

(** C8. Where tampering shows: one entry of a ledger is replaced by any other, and the
    whole chain is verified. If the replacement keeps its number but not the link or its
    own hash, verification stops at it; if it was rehashed, at the entry after it, unless
    it was the last, and a replacement with the same hash passes. With another number of
    the range, it stops at the replacement, or after it if it is the first and otherwise
    in order. With a number out of the range it is not looked at, as if it had been
    deleted: verification stops at the entry after it, and the loss of the last entry is
    not seen; nor is that of the first, should its hash be that of the genesis. *)
Theorem tampering_is_located l i e e' :
  ledger_run l -> entries l !! i = Some e ->
  let n := N.of_nat (length (entries l)) in
  verify_entries (<[i := e']> (entries l)) 1 n = tampered_report n e e'.
Proof.
  intros Hi%ledger_run_inv Hlk n. destruct Hi as [Hc _ _ _ _ _]. pose proof (in_range_all _ n Hc ltac:(subst n; lia)) as Hall.
  assert (Hlen : (i < length (entries l))%nat) by (by eapply lookup_lt_Some). pose proof (take_drop_middle _ _ _ Hlk) as Hsplit.
  assert (Hn : n = N.of_nat (length (take i (entries l) ++ e :: drop (S i) (entries l)))) by by rewrite Hsplit.
  rewrite <- Hsplit in Hc. unfold verify_entries. rewrite insert_take_drop by done. change (1 =? 1) with true. cbv iota.
  rewrite List.filter_app. cbn [List.filter]. rewrite <- Hsplit in Hall. apply Forall_app in Hall as [Hall1 [_ Hall2]%Forall_cons].
  rewrite !filter_all by done. destruct (in_range 1 n e') eqn:Hin; [by apply verify_replaced_in|by apply verify_replaced_out].
Qed.

(** Anchors: every full segment of an anchoring ledger has its signed
    anchor, and all of them keep verifying as the ledger grows. Another ledger
    that passes for an anchor with as many entries in the segment has the very
    same hashes there, unless two hash inputs collide. The number of entries
    matters: a segment whose hashes are the first level of the anchored tree, half
    as many entries, passes for the same anchor. *)
Theorem anchors_bind_segments l k :
  ledger_run l -> keystore l = Some k ->
  closed_by (N.of_nat (length (entries l))) (anchors l)
  /\ forall an, an ∈ anchors l ->
       verify_anchor l an (verifying_key k) = true
       /\ (forall l', verify_anchor l' an (verifying_key k) = true ->
            length (segment l' (from_seq an) (to_seq an)) = length (segment l (from_seq an) (to_seq an)) ->
            segment l' (from_seq an) (to_seq an) = segment l (from_seq an) (to_seq an) \/ collision)
       /\ (forall l', from_seq an < to_seq an ->
            segment l' (from_seq an) (to_seq an) = merkle_level (segment l (from_seq an) (to_seq an)) ->
            verify_anchor l' an (verifying_key k) = true).
Proof.
  intros Hi%ledger_run_inv Hk. split; [by eapply si_closed|]. intros an Han.
  pose proof (si_anchors _ Hi) as Ha. rewrite Forall_forall in Ha.
  destruct (Ha an Han) as (k' & Hk' & Hsig & Hft & Hto & Hroot).
  assert (k' = k) as -> by congruence.
  assert (Hver : verify (as_bytes (merkle_root_of an)) (signature an) (verifying_key k) = true)
    by (rewrite Hsig; apply sig_correct).
  split; [by apply verify_anchor_spec|]. split.
  - intros l' [_ Hroot']%verify_anchor_spec Hlen. by eapply merkle_root_inj.
  - intros l' Hlt Hseg. apply verify_anchor_spec. split; [done|]. rewrite Hseg.
    apply merkle_root_level; [|done]. rewrite segment_length; [lia|apply Hi|lia|done].
Qed.

(** Appends from several threads: a number is taken before the lock, so
    entries can be stored out of order. Every stored entry then still carries its
    hash and its link, but [verify_chain] reports [Intact] exactly when the
    numbers happen to be stored in order; two threads suffice for it to report
    corruption in a ledger nobody tampered with. *)
Theorem racing_appends now m t (p : AuditPayload E R) :
  require now m t WRITE = Ok tt ->
  (forall l ps, race l ps -> hash_linked genesis_hash (entries l))
  /\ (forall l ps first es, race l ps -> entries l = first :: es ->
       verify_chain l 1 (next_seq l - 1) = Intact <-> consecutive (seq first) (entries l))
  /\ exists l, race l [] /\ length (entries l) = 2%nat /\ verify_chain l 1 2 = Corrupt 1.
Proof.
  intros Hr. split; [by intros l ps (Hl & _)%race_inv|]. split.
  { intros l ps first es Hrace He. rewrite (verify_race l ps first es), verify_loop_Intact, chained_split by done.
    apply race_inv in Hrace as (Hl & _). naive_solver. }
  pose proof (race_start None) as H0'.
  apply (race_take now m t _ _ System Grant None p 0) in H0' as H1'; [|done|done].
  apply (race_take now m t _ _ System Grant None p 0) in H1' as H2'; [|done|done].
  cbn in H2'. eapply (race_commit _ []) in H2' as H3'; [|done]. cbn in H3'.
  eapply (race_commit _ []) in H3' as H4'; [|done]. cbn in H4'.
  eexists. split; [exact H4'|]. split; [done|].
  unfold verify_chain, verify_entries. cbn [entries List.filter app]. unfold in_range. simpl.
  rewrite !bool_decide_false by (by intros []). done.
Qed.
End ledger.

(** ** A concrete ledger *)

Module LedgerExample.
Import Crypto.Toy.

Definition PayloadE : Type := AuditPayload unit unit.
Definition ascii (c : N) : bool := (32 <=? c) && (c <? 127).
Definition debug (p : PayloadE) : list N :=
  match p with PNote s => [1] ++ s | PConsentChange n => [2; n] | _ => [3] end.
Definition auditor : CapabilityToken := mkToken 1 0 (rights_or READ WRITE) 0 7 None.

Definition add (o : AuditLedger) (i : N) : AuditLedger :=
  match append ascii debug 0 tt auditor o (User i) ConsentChange (Some [104; 105]) (PConsentChange i : PayloadE) i with
  | Some (_, l) => l
  | None => o
  end.

Lemma run_add (l : AuditLedger) i :
  ledger_run (M := unit) ascii debug l -> next_seq l + 1 < two64 -> ledger_run (M := unit) ascii debug (add l i).
Proof.
  intros Hr Hlt. unfold add. destruct (append _ _ _ _ _ _ _ _ _ _ _) as [[res l']|] eqn:Ha; [|done].
  by eapply run_append.
Defined.

Definition three : AuditLedger := add (add (add new 1) 2) 3.

Lemma run_three : ledger_run (M := unit) ascii debug three.
Proof. do 3 (apply run_add; [|vm_compute; reflexivity]). apply run_new. Defined.

Example three_intact : verify_chain ascii debug three 1 3 = Intact.
Proof. vm_compute. reflexivity. Qed.

(** A hundred entries, so that an anchor is made. *)
Fixpoint add_many (n : nat) (l : AuditLedger) : AuditLedger :=
  match n with O => l | S n => add (add_many n l) (N.of_nat n) end.
Definition hundred : AuditLedger := add_many 100 (new_with_keystore 5).

Lemma run_many n :
  (n <= 100)%nat ->
  ledger_run (M := unit) ascii debug (add_many n (new_with_keystore 5))
  /\ next_seq (add_many n (new_with_keystore 5)) = N.of_nat n + 1.
Proof.
  induction n as [|n IH]; intros Hn; [split; [apply run_keystore|done]|].
  destruct IH as [Hr Hs]; [lia|]. simpl. set (l := add_many n _) in *.
  assert (Hlt : next_seq l + 1 < two64) by (rewrite Hs; unfold two64; lia).
  split; [by apply run_add|]. unfold add.
  destruct (append_seq_inv (M := unit) ascii debug 0 tt auditor l (User (N.of_nat n)) ConsentChange (Some [104; 105])
              (PConsentChange (N.of_nat n)) (N.of_nat n)) as (res & l' & Ha & Hi & _ & Hres);
    [exact (ledger_run_inv _ _ _ Hr)|done|].
  rewrite Ha. destruct res as [e|]; [|by destruct Hres as [[] _]].
  destruct Hres as (_ & He & _). pose proof (si_next _ _ _ Hi) as Hn'. rewrite He, length_app in Hn'.
  pose proof (si_next _ _ _ (ledger_run_inv _ _ _ Hr)) as Hn''. simpl in Hn'. lia.
Qed.
End LedgerExample.
Import Crypto.Toy LedgerExample.

Lemma appended_ledger_is_intact_witness : verify_chain ascii debug three 2 9 = Intact.
Proof.
  destruct (appended_ledger_is_intact ascii debug three run_three) as [Hv _]. rewrite Hv. reflexivity.
Defined.

Lemma verified_chain_determined_witness :
  let es := entries three in
  fields debug <$> List.filter (in_range 1 3) es = fields debug <$> List.filter (in_range 1 9) es \/ collision.
Proof.
  apply (verified_chain_determined ascii debug (entries three) (entries three) 3 9);
    [repeat constructor; vm_compute; repeat constructor|repeat constructor; vm_compute; repeat constructor
    |vm_compute; reflexivity|vm_compute; reflexivity|vm_compute; reflexivity].
Defined.

Lemma tampering_is_located_witness :
  let forged := mkEntry 2 (default genesis_hash (prev_hash <$> entries three !! 1%nat))
                  (default genesis_hash (entry_hash <$> entries three !! 1%nat)) System Grant None (PNote [1]) 0 in
  verify_entries ascii debug (<[1%nat := forged]> (entries three)) 1 3 = Corrupt 2.
Proof.
  intros forged. destruct (entries three !! 1%nat) as [e|] eqn:He; [|vm_compute in He; discriminate].
  pose proof (tampering_is_located ascii debug three 1 e forged run_three He) as Hl.
  change (N.of_nat (length (entries three))) with 3 in Hl.
  vm_compute in He. injection He as <-. rewrite Hl. vm_compute. reflexivity.
Defined.

Lemma anchors_bind_segments_witness : closed_by 100 (anchors hundred).
Proof.
  assert (Hlen : length (entries hundred) = 100%nat) by (vm_compute; reflexivity).
  destruct (anchors_bind_segments (M := unit) ascii debug hundred 5 (proj1 (run_many 100 (le_n 100)))
              ltac:(vm_compute; reflexivity)) as [Hc _].
  by rewrite Hlen in Hc.
Defined.

Lemma racing_appends_witness :
  exists l, race (M := unit) ascii debug l [] /\ verify_chain ascii debug l 1 2 = Corrupt 1.
Proof.
  assert (Hw : require (M := unit) 0 tt auditor WRITE = Ok tt) by reflexivity.
  destruct (racing_appends (M := unit) ascii debug 0 tt auditor (PNote [1]) Hw) as (_ & _ & l & Hr & _ & Hv).
  by exists l.
Defined.
