(* ===== verification/Events.v ===== *)
(** The event bus: [crates/hyperion-events/src/{types,bus}.rs].

    A publish assigns the topic's next number under the bus lock and then
    delivers to one mailbox after another without it; publishes and receives on
    other threads run in between. [publish_begin] and [deliver] are those atomic
    steps, [publish] their uninterrupted composition, and [step] their
    interleaving. A mailbox outlives its registration, as the [Arc] does:
    [mailboxes] holds all of them and [subscriptions] the registered ids. The
    conversion of an event to a JSON value is [to_value]/[from_value]. *)
From S2P Require Import Prelude Crypto Capability Authority Wal Storage.
Open Scope N_scope.

(** ** types.rs *)

Inductive TopicKind : Type :=
| ObjectChanged | AgentProgress | DeviceLifecycle | WorkspaceTrigger | Custom.

Inductive SubjectId : Type :=
| SObject (id : N) | SObjectSubtree (id : N) | SAgent (id : N) | SIntent (id : N) | SDevice (id : N).

Definition raw (s : SubjectId) : N :=
  match s with
  | SObject id | SObjectSubtree id | SAgent id | SIntent id | SDevice id => id
  end.

Record Topic := mkTopic {
  kind : TopicKind;
  subject : SubjectId;
  schema_id : list N
}.

#[export] Instance kind_eq_dec : EqDecision TopicKind.
Proof. solve_decision. Defined.
#[export] Instance subject_eq_dec : EqDecision SubjectId.
Proof. solve_decision. Defined.
#[export] Instance topic_eq_dec : EqDecision Topic.
Proof. solve_decision. Defined.

#[export] Instance topic_countable : Countable Topic.
Proof.
  apply (inj_countable'
    (fun t => (match kind t with
               | ObjectChanged => 0 | AgentProgress => 1 | DeviceLifecycle => 2
               | WorkspaceTrigger => 3 | Custom => 4
               end,
               match subject t with
               | SObject _ => 0 | SObjectSubtree _ => 1 | SAgent _ => 2 | SIntent _ => 3 | SDevice _ => 4
               end, raw (subject t), schema_id t))
    (fun '(k, s, r, c) =>
       mkTopic (if k =? 0 then ObjectChanged else if k =? 1 then AgentProgress
                else if k =? 2 then DeviceLifecycle else if k =? 3 then WorkspaceTrigger else Custom)
         (if s =? 0 then SObject r else if s =? 1 then SObjectSubtree r
          else if s =? 2 then SAgent r else if s =? 3 then SIntent r else SDevice r) c)).
  by intros [[] [] ?].
Defined.

Inductive DeliveryClass : Type := AtMostOnce | AtLeastOnce.

Inductive BackpressurePolicy : Type := Coalesce | Buffer (capacity : N) | Durable | Block.

#[export] Instance delivery_eq_dec : EqDecision DeliveryClass.
Proof. solve_decision. Defined.
#[export] Instance backpressure_eq_dec : EqDecision BackpressurePolicy.
Proof. solve_decision. Defined.

Inductive TopicPattern : Type :=
| Exact (t : Topic)
| Subtree (k : TopicKind) (root : SubjectId)
| KindScoped (k : TopicKind).

Inductive EventFault : Type :=
| Unauthorized
| IncompatibleDeliveryBackpressure (d : DeliveryClass) (b : BackpressurePolicy)
| NoSuchSubscription
| AckNotApplicable
| NotDurable
| DurableLogError.

Definition is_kind_scoped (p : TopicPattern) : bool :=
  match p with KindScoped _ => true | _ => false end.

Definition valid_combination (d : DeliveryClass) (b : BackpressurePolicy) : bool :=
  match d, b with
  | AtMostOnce, Coalesce => true
  | AtLeastOnce, Durable => true
  | _, Buffer _ => true
  | _, Block => true
  | _, _ => false
  end.

Section events.
Context {V : Type} `{Codec (WalRecord V)} `{Aead} `{HashIter} {M : Type} `{Authority M}.

Inductive EventPayload : Type :=
| Inline (v : V)
| ObjectRef (object version : N).

Record Event := mkEvent {
  topic : Topic;
  seq : N;
  timestamp : N;
  payload : EventPayload;
  ancestors : list N
}.

Context (to_value : Event -> V).

Definition matches (p : TopicPattern) (e : Event) : bool :=
  match p with
  | Exact t => bool_decide (topic e = t)
  | Subtree k root =>
      bool_decide (kind (topic e) = k)
      && ((raw (subject (topic e)) =? raw root) || bool_decide (raw root ∈ ancestors e))
  | KindScoped k => bool_decide (kind (topic e) = k)
  end.

(** ** bus.rs *)

Definition BLOCK_CAPACITY : nat := 64.

Record SubscriberState := mkSub {
  pattern : TopicPattern;
  delivery : DeliveryClass;
  backpressure : BackpressurePolicy;
  holder : CapabilityToken;
  queue : list Event;
  coalesced : gmap Topic Event;
  dropped : N;
  last_acked_seq : N;
  durable_wal : option Wal
}.

(** [durable_dir] holds what earlier runs left in the directory, by
    subscription id; an open log's file is [file] of [durable_wal]. *)
Record EventBus := mkBus {
  subscriptions : gset N;
  mailboxes : gmap N SubscriberState;
  next_seq : gmap Topic N;
  next_sub_id : N;
  durable_dir : option (gmap N (list N))
}.

Definition new (dir : option (gmap N (list N))) : EventBus := mkBus ∅ ∅ ∅ 1 dir.

Definition authorize_publish (now : Instant) (monitor : M) (token : CapabilityToken) (owner : N) :
    Result unit EventFault :=
  let? _ := map_err (fun _ => Unauthorized) (authorize now monitor token WRITE) in
  if negb (origin token =? owner) then Err Unauthorized else Ok tt.

Definition authorize_subscribe (now : Instant) (monitor : M) (token : CapabilityToken) (owner : N)
    (p : TopicPattern) : Result unit EventFault :=
  let? _ := map_err (fun _ => Unauthorized) (authorize now monitor token READ) in
  if is_kind_scoped p then
    (if contains (rights token) GRANT then Ok tt else Err Unauthorized)
  else if origin token =? owner then Ok tt else Err Unauthorized.

Definition with_queue (st : SubscriberState) (q : list Event) (d : N) : SubscriberState :=
  mkSub (pattern st) (delivery st) (backpressure st) (holder st) q (coalesced st) d
    (last_acked_seq st) (durable_wal st).

Definition with_coalesced (st : SubscriberState) (c : gmap Topic Event) : SubscriberState :=
  mkSub (pattern st) (delivery st) (backpressure st) (holder st) (queue st) c (dropped st)
    (last_acked_seq st) (durable_wal st).

(** The record an event is stored as. *)
Definition durable_record (holder_origin : N) (e : Event) : WalRecord V :=
  mkRecord 0 (if 1 <? seq e then Some (seq e - 1) else None) (seq e) (to_value e) holder_origin.

(** [append_durable]; [io] is what became of the write. A failure is only
    printed. *)
Definition append_durable (st : SubscriberState) (e : Event) (io : write_outcome) : SubscriberState :=
  match durable_wal st with
  | None => st
  | Some wal =>
      let record := durable_record (origin (holder st)) e in
      mkSub (pattern st) (delivery st) (backpressure st) (holder st) (queue st) (coalesced st)
        (dropped st) (last_acked_seq st) (Some (append_and_fsync wal [] record io).2)
  end.

(** [deliver]; [None] while a [Block] queue is full, when the caller waits. *)
Definition deliver (st : SubscriberState) (e : Event) (io : write_outcome) : option SubscriberState :=
  match backpressure st with
  | Coalesce => Some (with_coalesced st (<[topic e := e]> (coalesced st)))
  | Durable =>
      let st := append_durable st e io in
      Some (with_queue st (queue st ++ [e]) (dropped st))
  | Buffer capacity =>
      let st := if capacity <=? N.of_nat (length (queue st))
                then with_queue st (tail (queue st)) (u64_add (dropped st) 1) else st in
      Some (with_queue st (queue st ++ [e]) (dropped st))
  | Block =>
      if (BLOCK_CAPACITY <=? length (queue st))%nat then None
      else Some (with_queue st (queue st ++ [e]) (dropped st))
  end.

Definition take_ready (st : SubscriberState) : option (Event * SubscriberState) :=
  match backpressure st with
  | Coalesce =>
      match hash_iter (coalesced st) with
      | [] => None
      | (k, _) :: _ =>
          e ← coalesced st !! k; Some (e, with_coalesced st (delete k (coalesced st)))
      end
  | _ => match queue st with
         | [] => None
         | e :: q => Some (e, with_queue st q (dropped st))
         end
  end.

(** What [publish] does under the bus lock: the number, the event, and the
    mailboxes it goes to. *)
Definition publish_begin (b : EventBus) (t : Topic) (p : EventPayload) (anc : list N) (ts : N) :
    (Event * list N) * EventBus :=
  let seq := u64_add (default 0 (next_seq b !! t)) 1 in
  let e := mkEvent t seq ts p anc in
  let registered := filter (fun '(id, _) => id ∈ subscriptions b) (mailboxes b) in
  let matching := List.filter (fun '(_, st) => matches (pattern st) e) (hash_iter registered) in
  ((e, matching.*1),
   mkBus (subscriptions b) (mailboxes b) (<[t := seq]> (next_seq b)) (next_sub_id b) (durable_dir b)).

(** One turn of the delivery loop. *)
Definition deliver_to (b : EventBus) (id : N) (e : Event) (io : write_outcome) : option EventBus :=
  st ← mailboxes b !! id;
  st ← deliver st e io;
  Some (mkBus (subscriptions b) (<[id := st]> (mailboxes b)) (next_seq b) (next_sub_id b) (durable_dir b)).

Fixpoint deliver_all (b : EventBus) (ids : list N) (e : Event) (io : N -> write_outcome) : option EventBus :=
  match ids with
  | [] => Some b
  | id :: ids => b ← deliver_to b id e (io id); deliver_all b ids e io
  end.

(** [publish], uninterrupted; [None] if it has to wait for a full [Block] queue. *)
Definition publish (now : Instant) (monitor : M) (token : CapabilityToken) (b : EventBus) (owner : N)
    (t : Topic) (p : EventPayload) (anc : list N) (ts : N) (io : N -> write_outcome) :
    option (Result N EventFault * EventBus) :=
  match authorize_publish now monitor token owner with
  | Err f => Some (Err f, b)
  | Ok _ =>
      let '((e, ids), b) := publish_begin b t p anc ts in
      b ← deliver_all b ids e io;
      Some (Ok (seq e), b)
  end.

(** [subscribe]; [opened] says whether creating the directory and opening the
    log succeeded. *)
Definition subscribe (now : Instant) (monitor : M) (token : CapabilityToken) (b : EventBus) (owner : N)
    (p : TopicPattern) (d : DeliveryClass) (bp : BackpressurePolicy) (opened : bool) :
    Result N EventFault * EventBus :=
  if negb (valid_combination d bp) then (Err (IncompatibleDeliveryBackpressure d bp), b)
  else
    match authorize_subscribe now monitor token owner p with
    | Err f => (Err f, b)
    | Ok _ =>
        let id := next_sub_id b in
        let b := mkBus (subscriptions b) (mailboxes b) (next_seq b) (u64_add id 1) (durable_dir b) in
        let wal :=
          if bool_decide (bp = Durable) then
            match durable_dir b with
            | None => Err DurableLogError
            | Some dir => if opened then Ok (Some (open_for_append (dir !! id))) else Err DurableLogError
            end
          else Ok None in
        match wal with
        | Err f => (Err f, b)
        | Ok wal =>
            (Ok id,
             mkBus ({[id]} ∪ subscriptions b)
               (<[id := mkSub p d bp token [] ∅ 0 0 wal]> (mailboxes b))
               (next_seq b) (next_sub_id b) (durable_dir b))
        end
    end.

Definition mailbox_of (b : EventBus) (id : N) : Result SubscriberState EventFault :=
  if bool_decide (id ∈ subscriptions b) then ok_or (mailboxes b !! id) NoSuchSubscription
  else Err NoSuchSubscription.

Definition unsubscribe (b : EventBus) (id : N) : Result unit EventFault * EventBus :=
  if bool_decide (id ∈ subscriptions b)
  then (Ok tt, mkBus (subscriptions b ∖ {[id]}) (mailboxes b) (next_seq b) (next_sub_id b) (durable_dir b))
  else (Err NoSuchSubscription, b).

Definition ack (b : EventBus) (id sq : N) : Result unit EventFault * EventBus :=
  match mailbox_of b id with
  | Err f => (Err f, b)
  | Ok st =>
      if bool_decide (delivery st <> AtLeastOnce) then (Err AckNotApplicable, b)
      else
        let st := mkSub (pattern st) (delivery st) (backpressure st) (holder st) (queue st)
                    (coalesced st) (dropped st)
                    (if last_acked_seq st <? sq then sq else last_acked_seq st) (durable_wal st) in
        (Ok tt, mkBus (subscriptions b) (<[id := st]> (mailboxes b)) (next_seq b) (next_sub_id b) (durable_dir b))
  end.

(** [replay_from]; a plaintext log never makes [Wal::replay] panic. *)
Definition replay_from (from_value : V -> option Event) (b : EventBus) (id since : N) : Result (list Event) EventFault :=
  let? st := mailbox_of b id in
  if bool_decide (backpressure st <> Durable) then Err NotDurable
  else
    let? records := map_err (fun _ => DurableLogError) (replay (R := WalRecord V) (file <$> durable_wal st)) in
    Ok (sort_by_key seq
          (List.filter (fun e => since <? seq e) (omap (fun r => from_value (metadata r)) records))).

Definition dropped_count (b : EventBus) (id : N) : Result N EventFault :=
  let? st := mailbox_of b id in
  Ok (dropped st).

(** [Subscription::try_recv]; [recv] is the same once there is something. *)
Definition try_recv (b : EventBus) (id : N) : option Event * EventBus :=
  match (st ← mailboxes b !! id; take_ready st) with
  | Some (e, st) =>
      (Some e, mkBus (subscriptions b) (<[id := st]> (mailboxes b)) (next_seq b) (next_sub_id b) (durable_dir b))
  | None => (None, b)
  end.


(** ** One publish *)

Lemma deliver_None st e io :
  deliver st e io = None <-> backpressure st = Block /\ (BLOCK_CAPACITY <= length (queue st))%nat.
Proof.
  unfold deliver. destruct (backpressure st); [naive_solver..|].
  destruct (Nat.leb_spec BLOCK_CAPACITY (length (queue st))) as [Hle|Hlt]; [done|].
  split; [done|]. intros [_ ?]. lia.
Qed.

Lemma deliver_to_Some b id e io b' :
  deliver_to b id e io = Some b' ->
  exists st st', mailboxes b !! id = Some st /\ deliver st e io = Some st'
    /\ b' = mkBus (subscriptions b) (<[id := st']> (mailboxes b)) (next_seq b) (next_sub_id b) (durable_dir b).
Proof.
  unfold deliver_to. destruct (mailboxes b !! id) as [st|]; simpl; [|done].
  destruct (deliver st e io) as [st'|] eqn:Hd; simpl; [|done]. intros [= <-]. by exists st, st'.
Qed.

(** What the delivery loop leaves at each mailbox, one visit each. *)
Lemma deliver_all_Some b ids e io b' :
  NoDup ids -> deliver_all b ids e io = Some b' ->
  subscriptions b' = subscriptions b /\ next_seq b' = next_seq b /\ next_sub_id b' = next_sub_id b
  /\ durable_dir b' = durable_dir b
  /\ forall id, mailboxes b' !! id
       = if decide (id ∈ ids) then (st ← mailboxes b !! id; deliver st e (io id)) else mailboxes b !! id.
Proof.
  revert b. induction ids as [|i ids IH]; intros b Hnd Hall.
  { injection Hall as <-. do 4 (split; [done|]). intros id. by rewrite decide_False by set_solver. }
  apply NoDup_cons in Hnd as [Hi Hnd]. simpl in Hall.
  destruct (deliver_to b i e (io i)) as [b1|] eqn:Hd; simpl in Hall; [|done].
  apply deliver_to_Some in Hd as (st & st' & Hst & Hd & ->).
  destruct (IH _ Hnd Hall) as (-> & -> & -> & -> & Hm). do 4 (split; [done|]).
  intros id. rewrite Hm. simpl. destruct (decide (id = i)) as [->|Hne].
  - rewrite decide_False, decide_True by set_solver. rewrite lookup_insert_eq, Hst. simpl. by rewrite Hd.
  - rewrite lookup_insert_ne by done. destruct (decide (id ∈ ids)).
    + by rewrite decide_True by set_solver.
    + by rewrite decide_False by set_solver.
Qed.

Lemma deliver_all_None b ids e io :
  NoDup ids ->
  deliver_all b ids e io = None <->
  exists id, id ∈ ids /\ (st ← mailboxes b !! id; deliver st e (io id)) = None.
Proof.
  revert b. induction ids as [|i ids IH]; intros b Hnd.
  { split; [done|]. intros (id & Hin & _). by apply not_elem_of_nil in Hin. }
  apply NoDup_cons in Hnd as [Hi Hnd]. simpl.
  destruct (deliver_to b i e (io i)) as [b1|] eqn:Hd; simpl.
  - apply deliver_to_Some in Hd as (st & st' & Hst & Hd & ->). rewrite (IH _ Hnd). simpl.
    split; intros (id & Hin & Hn); exists id.
    + rewrite lookup_insert_ne in Hn by (by intros ->). set_solver.
    + apply elem_of_cons in Hin as [->|Hin].
      { rewrite Hst in Hn. simpl in Hn. congruence. }
      split; [done|]. by rewrite lookup_insert_ne by (by intros ->).
  - split; [|done]. intros _. exists i. split; [by left|]. unfold deliver_to in Hd.
    destruct (mailboxes b !! i) as [st|]; simpl in *; [|done]. by destruct (deliver st e (io i)).
Qed.

Lemma publish_targets b t p anc ts e ids b' :
  publish_begin b t p anc ts = ((e, ids), b') ->
  NoDup ids /\ forall id, id ∈ ids <->
    exists st, mailboxes b !! id = Some st /\ id ∈ subscriptions b /\ matches (pattern st) e = true.
Proof.
  unfold publish_begin. intros [= <- <- <-]. split; [apply NoDup_fmap_filter, NoDup_fst_hash_iter|].
  intros id. rewrite list_elem_of_fmap. split.
  - intros ([i st] & -> & [Hin%elem_of_hash_iter Hm]%elem_of_test).
    apply map_lookup_filter_Some in Hin as [? ?]. by exists st.
  - intros (st & Hst & Hs & Hm). exists (id, st). split; [done|].
    apply elem_of_test. by rewrite elem_of_hash_iter, map_lookup_filter_Some.
Qed.

(** [publish] on every branch. A token without the right or from another
    trust boundary than the owner's is refused and nothing changes. Otherwise the
    event gets the topic's next number, whatever the other topics are at, and
    reaches exactly the registered mailboxes whose pattern matches, each by its
    own policy, in whatever order the hash map yields them; no other mailbox is
    touched. It waits exactly if one of them is a [Block] mailbox that is full. *)
Theorem publish_spec now m t b owner tp p anc ts io :
  let sq := u64_add (default 0 (next_seq b !! tp)) 1 in
  let e := mkEvent tp sq ts p anc in
  let reaches id st := id ∈ subscriptions b /\ matches (pattern st) e = true in
  match publish now m t b owner tp p anc ts io with
  | Some (Err f, b') =>
      b' = b /\ f = Unauthorized /\ (authorize now m t WRITE <> Ok tt \/ origin t <> owner)
  | Some (Ok sq', b') =>
      contains (rights t) WRITE = true /\ origin t = owner /\ sq' = sq
      /\ next_seq b' = <[tp := sq]> (next_seq b) /\ subscriptions b' = subscriptions b
      /\ forall id, match mailboxes b !! id with
           | None => mailboxes b' !! id = None
           | Some st => (reaches id st -> mailboxes b' !! id = deliver st e (io id))
                        /\ (~ reaches id st -> mailboxes b' !! id = Some st)
           end
  | None => exists id st, mailboxes b !! id = Some st /\ reaches id st
              /\ backpressure st = Block /\ (BLOCK_CAPACITY <= length (queue st))%nat
  end.
Proof.
  intros sq e reaches. unfold publish, authorize_publish.
  destruct (authorize now m t WRITE) as [[]|] eqn:Ha; cbn [map_err]; [|naive_solver].
  destruct (N.eqb_spec (origin t) owner) as [Ho|Ho]; cbn [negb]; [|naive_solver].
  destruct (publish_begin b tp p anc ts) as [[e' ids] b1] eqn:Hb.
  pose proof (publish_targets _ _ _ _ _ _ _ _ Hb) as [Hnd Hids].
  assert (Hb1 : e' = e /\ mailboxes b1 = mailboxes b /\ subscriptions b1 = subscriptions b
                /\ next_seq b1 = <[tp := sq]> (next_seq b))
    by (unfold publish_begin in Hb; by injection Hb as <- _ <-).
  destruct Hb1 as (-> & Hmb & Hsub & Hseq).
  destruct (deliver_all b1 ids e io) as [b2|] eqn:Hall; simpl.
  - destruct (deliver_all_Some _ _ _ _ _ Hnd Hall) as (Hs2 & Hn2 & _ & _ & Hm2).
    split; [by eapply authorize_rights|]. do 2 (split; [done|]). split; [congruence|]. split; [congruence|].
    intros id. specialize (Hm2 id). rewrite Hmb in Hm2. specialize (Hids id).
    destruct (mailboxes b !! id) as [st|] eqn:Hst; simpl in Hm2.
    + split; intros Hr; rewrite Hm2.
      * rewrite decide_True; [done|]. apply Hids. by exists st; destruct Hr.
      * rewrite decide_False; [done|]. intros Hin. apply Hids in Hin as (st' & Hst' & ?). apply Hr. by simplify_eq.
    + rewrite Hm2. by destruct (decide (id ∈ ids)).
  - apply (deliver_all_None _ _ _ _ Hnd) in Hall as (id & Hin & Hn).
    apply Hids in Hin as (st & Hst & Hr). rewrite Hmb, Hst in Hn. simpl in Hn.
    apply deliver_None in Hn as [? ?]. by exists id, st.
Qed.

(** ** Many threads *)

(** The bus, the publishes under way with the mailboxes they have still to
    visit, and for each mailbox what was delivered to it and received from it. *)
Record System := mkSystem {
  bus : EventBus;
  pending : list (Event * list N);
  delivered : N -> list Event;
  received : N -> list Event
}.

Definition push (h : N -> list Event) (id : N) (e : Event) : N -> list Event :=
  fun i => if i =? id then h i ++ [e] else h i.

(** One atomic action of some thread. The disk performs the durable appends. *)
Inductive step : System -> System -> Prop :=
| step_publish s t p anc ts e ids b :
    publish_begin (bus s) t p anc ts = ((e, ids), b) ->
    step s (mkSystem b ((e, ids) :: pending s) (delivered s) (received s))
| step_deliver s ps1 e id ids ps2 b :
    pending s = ps1 ++ (e, id :: ids) :: ps2 -> deliver_to (bus s) id e Written = Some b ->
    step s (mkSystem b (ps1 ++ (e, ids) :: ps2) (push (delivered s) id e) (received s))
| step_recv s id e b :
    try_recv (bus s) id = (Some e, b) ->
    step s (mkSystem b (pending s) (delivered s) (push (received s) id e))
| step_subscribe s now m t owner p d bp opened res b :
    subscribe now m t (bus s) owner p d bp opened = (res, b) -> next_sub_id (bus s) + 1 < two64 ->
    step s (mkSystem b (pending s) (delivered s) (received s))
| step_unsubscribe s id res b :
    unsubscribe (bus s) id = (res, b) -> step s (mkSystem b (pending s) (delivered s) (received s))
| step_ack s id sq res b :
    ack (bus s) id sq = (res, b) -> step s (mkSystem b (pending s) (delivered s) (received s)).

Definition start (dir : option (gmap N (list N))) : System :=
  mkSystem (new dir) [] (fun _ => []) (fun _ => []).

Definition reachable (dir : option (gmap N (list N))) : System -> Prop := rtc step (start dir).

(** The events of one topic. *)
Definition on_topic (t : Topic) (l : list Event) : list Event := filter (fun e => topic e = t) l.

(** What a coalescing mailbox keeps of one topic: what was received and then what
    is pending are deliveries in the order they were made, the last of them the
    latest delivery. *)
Definition latest_kept (t : Topic) (c : option Event) (del rec : list Event) : Prop :=
  (on_topic t rec ++ option_list c) `sublist_of` on_topic t del
  /\ last (on_topic t rec ++ option_list c) = last (on_topic t del)
  /\ (forall e, c = Some e -> topic e = t).

(** What holds of the events in a mailbox. *)
Definition queue_inv (st : SubscriberState) (del rec : list Event) : Prop :=
  match backpressure st with
  | Coalesce => queue st = [] /\ forall t, latest_kept t (coalesced st !! t) del rec
  | Buffer c =>
      queue st `suffix_of` del /\ N.of_nat (length (queue st)) <= N.max c 1
      /\ (1 <= c -> N.of_nat (length del) mod two64
                    = (N.of_nat (length rec) + dropped st + N.of_nat (length (queue st))) mod two64)
  | Durable => del = rec ++ queue st
  | Block => del = rec ++ queue st /\ (length (queue st) <= BLOCK_CAPACITY)%nat
  end.

(** What is in the log of a durable mailbox: what was in the file when it was
    opened, then every event delivered. *)
Definition log_inv (old : option (list N)) (st : SubscriberState) (del : list Event) : Prop :=
  match backpressure st with
  | Durable =>
      exists w, durable_wal st = Some w /\ seal w = None /\
        forall rs0, log None (default [] old) rs0 ->
          log None (file w) (rs0 ++ (durable_record (origin (holder st)) <$> del))
  | _ => True
  end.

Definition mailbox_inv (old : option (list N)) (st : SubscriberState) (del rec : list Event) : Prop :=
  queue_inv st del rec /\ log_inv old st del
  /\ Forall (fun e => matches (pattern st) e = true) del.

Record system_inv (dir : option (gmap N (list N))) (s : System) : Prop := {
  sy_mail : forall id st, mailboxes (bus s) !! id = Some st ->
    mailbox_inv (d ← dir; d !! id) st (delivered s id) (received s id);
  sy_fresh : forall id, next_sub_id (bus s) <= id ->
    mailboxes (bus s) !! id = None /\ delivered s id = [] /\ received s id = [];
  sy_pending : forall e ids id, (e, ids) ∈ pending s -> id ∈ ids ->
    exists st, mailboxes (bus s) !! id = Some st /\ matches (pattern st) e = true;
  sy_dir : durable_dir (bus s) = dir
}.

(** A step of one mailbox keeps the settings it was made with. *)
Definition same_settings (st st' : SubscriberState) : Prop :=
  pattern st' = pattern st /\ backpressure st' = backpressure st /\ holder st' = holder st.

Lemma deliver_settings st e io st' : deliver st e io = Some st' -> same_settings st st'.
Proof.
  unfold deliver, append_durable, same_settings. destruct (backpressure st) as [|c| |] eqn:Hb.
  - intros [= <-]. done.
  - intros [= <-]. by destruct (c <=? _).
  - intros [= <-]. by destruct (durable_wal st).
  - destruct (_ <=? _)%nat; [done|]. by intros [= <-].
Qed.

Lemma take_ready_settings st e st' : take_ready st = Some (e, st') -> same_settings st st'.
Proof.
  unfold take_ready, same_settings. destruct (backpressure st) eqn:Hb.
  1: { destruct (hash_iter _) as [|[k v] l]; [done|]. destruct (coalesced st !! k); simpl; [|done].
       by intros [= <- <-]. }
  all: destruct (queue st); [done|]; by intros [= <- <-].
Qed.

Lemma suffix_tail_snoc (q del : list Event) e : q `suffix_of` del -> (tail q ++ [e]) `suffix_of` (del ++ [e]).
Proof.
  intros [k ->]. destruct q as [|e0 q]; simpl; [by exists (k ++ [])|].
  exists (k ++ [e0]). by rewrite <- !app_assoc.
Qed.

Lemma of_nat_succ n : N.of_nat (n + 1) = N.of_nat n + 1.
Proof. lia. Qed.

Lemma buffer_inv c (q del rec : list Event) d e :
  q `suffix_of` del -> N.of_nat (length q) <= N.max c 1 ->
  (1 <= c -> N.of_nat (length del) mod two64
             = (N.of_nat (length rec) + d + N.of_nat (length q)) mod two64) ->
  let full := c <=? N.of_nat (length q) in
  let q' := (if full then tail q else q) ++ [e] in
  let d' := if full then u64_add d 1 else d in
  q' `suffix_of` (del ++ [e]) /\ N.of_nat (length q') <= N.max c 1
  /\ (1 <= c -> N.of_nat (length (del ++ [e])) mod two64
                = (N.of_nat (length rec) + d' + N.of_nat (length q')) mod two64).
Proof.
  intros Hsuf Hlen Hcnt full q' d'. subst full q' d'.
  destruct (N.leb_spec c (N.of_nat (length q))) as [Hle|Hlt].
  - split; [by apply suffix_tail_snoc|]. rewrite !length_app. simpl.
    split; [destruct q; simpl in *; lia|]. intros Hc. specialize (Hcnt Hc).
    destruct q as [|e0 q]; simpl in *; [lia|].
    rewrite (N.add_comm _ (u64_add d 1)), <- N.add_assoc, u64_add_cong.
    rewrite of_nat_succ, (mod_succ_cong _ _ Hcnt). f_equal. lia.
  - split; [by apply suffix_app|]. rewrite !length_app. simpl. split; [lia|].
    intros Hc. rewrite of_nat_succ, (mod_succ_cong _ _ (Hcnt Hc)). f_equal. lia.
Qed.

Lemma on_topic_snoc t l e :
  on_topic t (l ++ [e]) = if decide (topic e = t) then on_topic t l ++ [e] else on_topic t l.
Proof.
  unfold on_topic. rewrite filter_app. destruct (decide (topic e = t)) as [Ht|Ht].
  - by rewrite filter_cons_True, filter_nil.
  - by rewrite filter_cons_False, filter_nil, app_nil_r.
Qed.

Lemma latest_kept_deliver t (m : gmap Topic Event) del rec e :
  latest_kept t (m !! t) del rec -> latest_kept t (<[topic e := e]> m !! t) (del ++ [e]) rec.
Proof.
  intros (Hsub & Hlast & Ht). unfold latest_kept. rewrite on_topic_snoc.
  destruct (decide (topic e = t)) as [<-|Hne]; [|by rewrite lookup_insert_ne].
  rewrite lookup_insert_eq. simpl. rewrite !last_snoc. split; [|naive_solver].
  apply sublist_app; [|done]. etrans; [|exact Hsub]. by apply sublist_inserts_r.
Qed.

Lemma latest_kept_take t (m : gmap Topic Event) del rec k e :
  m !! k = Some e -> (forall t', latest_kept t' (m !! t') del rec) ->
  latest_kept t (delete k m !! t) del (rec ++ [e]).
Proof.
  intros Hk Hall. destruct (Hall k) as (Hsub & Hlast & Hte). rewrite Hk in *.
  specialize (Hte e eq_refl). unfold latest_kept. rewrite on_topic_snoc, Hte.
  destruct (decide (k = t)) as [<-|Hne]; [|rewrite lookup_delete_ne by done; apply Hall].
  rewrite lookup_delete_eq. simpl. rewrite app_nil_r. by split_and!.
Qed.

Lemma deliver_queue_inv st e io st' del rec :
  deliver st e io = Some st' -> queue_inv st del rec -> queue_inv st' (del ++ [e]) rec.
Proof.
  intros Hd. pose proof (deliver_settings _ _ _ _ Hd) as (_ & Hb & _).
  unfold queue_inv. rewrite Hb. unfold deliver in Hd. destruct (backpressure st) as [|c| |].
  - injection Hd as <-. intros [Hq Hc]. split; [done|]. intros t. by apply latest_kept_deliver.
  - intros (Hsuf & Hlen & Hcnt). pose proof (buffer_inv _ _ _ _ _ e Hsuf Hlen Hcnt) as Hinv.
    injection Hd as <-. by destruct (c <=? N.of_nat (length (queue st))).
  - injection Hd as <-. intros ->. unfold append_durable. rewrite <- app_assoc.
    by destruct (durable_wal st).
  - destruct (Nat.leb_spec BLOCK_CAPACITY (length (queue st))); [done|]. injection Hd as <-.
    intros [-> Hlen]. simpl. rewrite <- app_assoc, length_app. simpl. split; [done|lia].
Qed.

Lemma deliver_log_inv old st e st' del :
  deliver st e Written = Some st' -> log_inv old st del -> log_inv old st' (del ++ [e]).
Proof.
  intros Hd. pose proof (deliver_settings _ _ _ _ Hd) as (_ & Hb & Hh).
  unfold log_inv. rewrite Hb. unfold deliver in Hd. destruct (backpressure st); [done..| |done].
  intros (w & Hw & Hs & Hlog). injection Hd as <-. unfold append_durable. rewrite Hw. simpl.
  eexists. split; [done|]. split; [done|]. intros rs0 Hrs0.
  cbn [holder with_queue]. rewrite fmap_app, (app_assoc rs0), Hs. simpl.
  apply (log_snoc None _ _ (repeat 0 12)); [by split; repeat constructor|]. by apply Hlog.
Qed.

Lemma take_queue_inv st e st' del rec :
  take_ready st = Some (e, st') -> queue_inv st del rec -> queue_inv st' del (rec ++ [e]).
Proof.
  intros Ht. pose proof (take_ready_settings _ _ _ Ht) as (_ & Hb & _).
  unfold queue_inv. rewrite Hb. unfold take_ready in Ht. destruct (backpressure st) as [|c| |].
  - destruct (hash_iter _) as [|[k v] l]; [done|]. destruct (coalesced st !! k) eqn:Hk; simpl in Ht; [|done].
    injection Ht as <- <-. intros [Hq Hc]. split; [done|]. intros t. by apply latest_kept_take.
  - destruct (queue st) as [|e0 q]; [done|]. injection Ht as <- <-. simpl.
    intros (Hsuf & Hlen & Hcnt). split; [by eapply suffix_cons_l|]. split; [lia|].
    intros Hc. rewrite (Hcnt Hc), length_app. simpl. f_equal. lia.
  - destruct (queue st) as [|e0 q]; [done|]. injection Ht as <- <-. intros ->. by rewrite <- app_assoc.
  - destruct (queue st) as [|e0 q]; [done|]. injection Ht as <- <-. intros [-> Hlen].
    simpl in *. rewrite <- app_assoc. split; [done|lia].
Qed.

Lemma take_log_inv old st e st' del : take_ready st = Some (e, st') -> log_inv old st del -> log_inv old st' del.
Proof.
  intros Ht. pose proof (take_ready_settings _ _ _ Ht) as (_ & Hb & _).
  unfold log_inv. rewrite Hb. unfold take_ready in Ht. destruct (backpressure st) eqn:Hp; [done..| |done].
  destruct (queue st) as [|e0 q]; [done|]. by injection Ht as <- <-.
Qed.

Definition pending_ok (mb : gmap N SubscriberState) (ps : list (Event * list N)) : Prop :=
  forall e ids id, (e, ids) ∈ ps -> id ∈ ids ->
    exists st, mb !! id = Some st /\ matches (pattern st) e = true.

Lemma pending_update mb ps id st st' :
  mb !! id = Some st -> same_settings st st' -> pending_ok mb ps -> pending_ok (<[id := st']> mb) ps.
Proof.
  intros Hst (Hp & _ & _) Hok e ids i Hin Hi. destruct (Hok e ids i Hin Hi) as (st1 & Hst1 & Hm).
  destruct (decide (i = id)) as [->|Hne].
  - exists st'. rewrite lookup_insert_eq, Hp. by simplify_eq.
  - exists st1. by rewrite lookup_insert_ne.
Qed.

Lemma pending_new mb ps id st : mb !! id = None -> pending_ok mb ps -> pending_ok (<[id := st]> mb) ps.
Proof.
  intros Hn Hok e ids i Hin Hi. destruct (Hok e ids i Hin Hi) as (st1 & Hst1 & Hm).
  exists st1. rewrite lookup_insert_ne by congruence. done.
Qed.

(** One mailbox moves on, with one more event in a history. *)
Lemma mailbox_update dir s id st st' del rec :
  system_inv dir s -> mailboxes (bus s) !! id = Some st -> same_settings st st' ->
  mailbox_inv (d ← dir; d !! id) st' (del id) (rec id) ->
  (forall i, i <> id -> del i = delivered s i /\ rec i = received s i) ->
  forall ps, pending_ok (mailboxes (bus s)) ps ->
  system_inv dir (mkSystem (mkBus (subscriptions (bus s)) (<[id := st']> (mailboxes (bus s)))
                     (next_seq (bus s)) (next_sub_id (bus s)) (durable_dir (bus s))) ps del rec).
Proof.
  intros [Hm Hf _ Hd] Hst Hset Hinv Hothers ps Hps. constructor; simpl; [| | |done].
  - intros i sti [[<- <-]|[Hne Hi]]%lookup_insert_Some; [done|].
    destruct (Hothers i) as [-> ->]; [done|]. by apply Hm.
  - intros i Hi. destruct (Hf i Hi) as (Hn & Hdel & Hrec). assert (i <> id) as Hne by congruence.
    destruct (Hothers i Hne) as [-> ->]. by rewrite lookup_insert_ne.
  - by eapply pending_update.
Qed.

Lemma mailbox_of_ok b id st :
  mailbox_of b id = Ok st <-> id ∈ subscriptions b /\ mailboxes b !! id = Some st.
Proof.
  unfold mailbox_of. case_bool_decide; [|naive_solver].
  destruct (mailboxes b !! id); simpl; naive_solver.
Qed.

Lemma subscribe_system_inv dir s now m t owner p d bp opened res b :
  system_inv dir s -> subscribe now m t (bus s) owner p d bp opened = (res, b) ->
  next_sub_id (bus s) + 1 < two64 ->
  system_inv dir (mkSystem b (pending s) (delivered s) (received s)).
Proof.
  intros [Hm Hf Hp Hd] Hb Hlt. unfold subscribe in Hb. simpl in Hb.
  assert (Hsame : forall bs, system_inv dir (mkSystem (mkBus bs (mailboxes (bus s)) (next_seq (bus s))
    (next_sub_id (bus s)) (durable_dir (bus s))) (pending s) (delivered s) (received s))) by (by constructor).
  assert (Hbump : system_inv dir (mkSystem (mkBus (subscriptions (bus s)) (mailboxes (bus s)) (next_seq (bus s))
    (u64_add (next_sub_id (bus s)) 1) (durable_dir (bus s))) (pending s) (delivered s) (received s))).
  { constructor; simpl; try done. intros id. rewrite u64_add_small by done. intros. apply Hf. lia. }
  destruct (valid_combination d bp); simpl in Hb;
    [|injection Hb as <- <-; specialize (Hsame (subscriptions (bus s))); by destruct (bus s)].
  destruct (authorize_subscribe now m t owner p);
    [|injection Hb as <- <-; specialize (Hsame (subscriptions (bus s))); by destruct (bus s)].
  destruct (Hf (next_sub_id (bus s)) ltac:(lia)) as (Hfresh & Hdel & Hrec).
  assert (Hnew : forall bs wal, log_inv (d ← dir; d !! next_sub_id (bus s)) (mkSub p d bp t [] ∅ 0 0 wal) [] ->
    system_inv dir (mkSystem (mkBus bs (<[next_sub_id (bus s) := mkSub p d bp t [] ∅ 0 0 wal]> (mailboxes (bus s)))
      (next_seq (bus s)) (u64_add (next_sub_id (bus s)) 1) (durable_dir (bus s)))
      (pending s) (delivered s) (received s))).
  { intros bs wal Hlog. constructor; simpl; [| |by apply pending_new|done].
    - intros id st [[<- <-]|[Hne Hst]]%lookup_insert_Some; [|by apply Hm]. rewrite Hdel, Hrec.
      split; [|split; [done|constructor]]. unfold queue_inv. simpl. destruct bp; [| |done|].
      + split; [done|]. intros tp. by rewrite lookup_empty.
      + split; [done|]. split; [simpl; lia|done].
      + split; [done|]. simpl. lia.
    - intros id. rewrite u64_add_small by done. intros Hi. rewrite lookup_insert_ne by lia. apply Hf. lia. }
  case_bool_decide as Hbp.
  - subst bp. destruct (durable_dir (bus s)) as [dd|] eqn:Hdd; [|by injection Hb as <- <-].
    destruct opened; [|by injection Hb as <- <-]. injection Hb as <- <-. apply Hnew.
    unfold log_inv. simpl. eexists. split; [done|]. split; [done|]. intros rs0 Hrs0.
    rewrite app_nil_r. rewrite <- Hd in Hrs0. exact Hrs0.
  - injection Hb as <- <-. apply Hnew. unfold log_inv. by destruct bp.
Qed.

Lemma step_system_inv dir s s' : system_inv dir s -> step s s' -> system_inv dir s'.
Proof.
  intros Hinv Hstep. destruct Hstep as [s t p anc ts e ids b Hb|s ps1 e id ids ps2 b Hps Hb|s id e b Hb
    |s now m t owner p d bp opened res b Hb Hlt|s id res b Hb|s id sq res b Hb].
  - pose proof (publish_targets _ _ _ _ _ _ _ _ Hb) as [_ Hids]. unfold publish_begin in Hb.
    injection Hb as He _ <-. destruct Hinv as [Hm Hf Hp Hd]. constructor; simpl; try done.
    intros e' ids' id [[= -> ->]|Hin]%elem_of_cons Hid; [|by eapply Hp].
    apply Hids in Hid as (st & Hst & _ & Hmt). by exists st.
  - apply deliver_to_Some in Hb as (st & st' & Hst & Hd & ->).
    destruct (sy_mail _ _ Hinv _ _ Hst) as (Hq & Hl & Hall).
    pose proof (deliver_settings _ _ _ _ Hd) as Hset.
    destruct (sy_pending _ _ Hinv e (id :: ids) id) as (st1 & Hst1 & Hmt);
      [rewrite Hps; apply elem_of_app; right; by left|by left|].
    assert (st1 = st) as -> by congruence.
    eapply mailbox_update; [done|done|done| | |].
    + unfold push. rewrite N.eqb_refl. split; [by eapply deliver_queue_inv|].
      split; [by eapply deliver_log_inv|]. destruct Hset as (-> & _ & _).
      apply Forall_app. split; [done|]. by constructor.
    + intros i Hne. unfold push. by apply N.eqb_neq in Hne as ->.
    + intros e' ids' i Hin Hi. pose proof (sy_pending _ _ Hinv) as Hp. rewrite Hps in Hp.
      apply elem_of_app in Hin as [Hin|[[= -> ->]|Hin]%elem_of_cons].
      * eapply Hp; [apply elem_of_app; by left|done].
      * eapply Hp; [apply elem_of_app; right; by left|by right].
      * eapply Hp; [apply elem_of_app; right; by right|done].
  - unfold try_recv in Hb. destruct (mailboxes (bus s) !! id) as [st|] eqn:Hst; simpl in Hb; [|done].
    destruct (take_ready st) as [[e' st']|] eqn:Ht; [|done]. injection Hb as -> <-.
    destruct (sy_mail _ _ Hinv _ _ Hst) as (Hq & Hl & Hall).
    pose proof (take_ready_settings _ _ _ Ht) as Hset.
    eapply mailbox_update; [done|done|done| | |exact (sy_pending _ _ Hinv)].
    + unfold push. rewrite N.eqb_refl. split; [by eapply take_queue_inv|].
      split; [by eapply take_log_inv|]. by destruct Hset as (-> & _ & _).
    + intros i Hne. unfold push. by apply N.eqb_neq in Hne as ->.
  - by eapply subscribe_system_inv.
  - unfold unsubscribe in Hb. destruct Hinv as [Hm Hf Hp Hd].
    case_bool_decide; injection Hb as <- <-; by constructor.
  - unfold ack in Hb. destruct (mailbox_of (bus s) id) as [st|] eqn:Hst; [|injection Hb as <- <-; by destruct s].
    apply mailbox_of_ok in Hst as [_ Hmb].
    case_bool_decide; injection Hb as <- <-; [by destruct s|].
    destruct (sy_mail _ _ Hinv _ _ Hmb) as (Hq & Hl & Hall).
    by eapply mailbox_update; [done|done|done|done|done|exact (sy_pending _ _ Hinv)].
Qed.

Lemma reachable_inv dir s : reachable dir s -> system_inv dir s.
Proof.
  intros Hr. unfold reachable in Hr. apply rtc_ind_r with (P := system_inv dir) in Hr; [done| |].
  - constructor; simpl; try done. by intros e ids id Hin%not_elem_of_nil.
  - intros x y _ Hxy Hx. by eapply step_system_inv.
Qed.

(** C9. Mailboxes under any interleaving of publishes, deliveries, receives,
    subscriptions and acknowledgements: everything delivered matches the
    subscription's pattern; a [Block] or [Durable] mailbox loses, duplicates and
    reorders nothing (what was received, then what is queued, is what was
    delivered), and a [Block] one never holds more than 64 events; a [Buffer]
    mailbox holds the most recent deliveries, at most its capacity (one, for
    capacity zero), and its drop counter accounts for every event neither received
    nor queued; in a [Coalesce] mailbox, for every topic, what was received and then
    the one event pending are deliveries in their order, the last of them the latest
    delivery, so only superseded events are ever lost. *)
Theorem mailbox_conservation dir s id st :
  reachable dir s -> mailboxes (bus s) !! id = Some st ->
  Forall (fun e => matches (pattern st) e = true) (delivered s id)
  /\ match backpressure st with
     | Block => delivered s id = received s id ++ queue st /\ (length (queue st) <= 64)%nat
     | Durable => delivered s id = received s id ++ queue st
     | Buffer c =>
         queue st `suffix_of` delivered s id /\ N.of_nat (length (queue st)) <= N.max c 1
         /\ (1 <= c -> N.of_nat (length (delivered s id)) mod two64
              = (N.of_nat (length (received s id)) + dropped st + N.of_nat (length (queue st))) mod two64)
     | Coalesce =>
         queue st = [] /\ forall t,
           (on_topic t (received s id) ++ option_list (coalesced st !! t))
             `sublist_of` on_topic t (delivered s id)
           /\ last (on_topic t (received s id) ++ option_list (coalesced st !! t))
              = last (on_topic t (delivered s id))
           /\ (forall e, coalesced st !! t = Some e -> topic e = t)
     end.
Proof.
  intros Hr%reachable_inv Hst. destruct (sy_mail _ _ Hr _ _ Hst) as (Hq & _ & Hall).
  split; [done|]. unfold queue_inv in Hq. by destruct (backpressure st).
Qed.

Lemma omap_stored (from_value : V -> option Event) (who : N) (es : list Event) :
  (forall e, from_value (to_value e) = Some e) ->
  omap (fun r => from_value (metadata r)) (durable_record who <$> es) = es.
Proof.
  intros Hj. induction es as [|e es IH]; [done|]. rewrite fmap_cons.
  unfold omap, list_omap in *. cbn [metadata durable_record]. rewrite Hj. by f_equal. Qed.

(** A durable subscription can be replayed: under any interleaving,
    [replay_from] returns, in sequence order, every event delivered so far with a
    number above the one given, received or not, from the bytes of the log alone;
    and before them whatever records an earlier run of the bus left in the file
    with the same subscription id, which are not told apart. *)
Theorem durable_replay_complete from_value dir s id st rs0 since :
  (forall e, from_value (to_value e) = Some e) ->
  reachable dir s -> mailbox_of (bus s) id = Ok st -> backpressure st = Durable ->
  log None (default [] (d ← dir; d !! id)) rs0 ->
  replay_from from_value (bus s) id since
  = Ok (sort_by_key seq (List.filter (fun e => since <? seq e)
          (omap (fun r => from_value (metadata r)) rs0 ++ delivered s id))).
Proof.
  intros Hj Hr%reachable_inv Hm Hb Hlog. unfold replay_from. rewrite Hm, Hb.
  apply mailbox_of_ok in Hm as [_ Hst]. destruct (sy_mail _ _ Hr _ _ Hst) as (_ & Hl & _).
  unfold log_inv in Hl. rewrite Hb in Hl. destruct Hl as (w & Hw & _ & Hfile). rewrite Hw.
  change (file <$> Some w) with (Some (file w)). unfold replay.
  rewrite (log_replay _ _ _ (Hfile _ Hlog)), bool_decide_false by (by intros []).
  cbn [map_err]. by rewrite omap_app, omap_stored.
Qed.
End events.

(** ** A concrete bus *)

Module EventsExample.
Import Crypto.Toy Wal.ToyRecords Storage.StorageExample.

Abbreviation Ev := (@Event N).

(** Events whose payload is a small number, as numbers. *)
Definition to_num (e : Ev) : N :=
  Npos (countable.encode (topic e, seq e, timestamp e,
    match payload e with Inline v => (0, v, 0) | ObjectRef o v => (1, o, v) end, ancestors e)).
Definition from_num (n : N) : option Ev :=
  match n with
  | N0 => None
  | Npos p =>
      '(t, s, ts, (k, a, b), anc) ← countable.decode p;
      Some (mkEvent t s ts (if k =? 0 then Inline a else ObjectRef a b) anc)
  end.

Lemma from_to_num e : from_num (to_num e) = Some e.
Proof. unfold from_num, to_num. rewrite countable.decode_encode. by destruct e as [? ? ? [] ?]. Qed.

Definition agent : CapabilityToken := mkToken 1 0 (rights_or READ WRITE) 0 7 None.
Definition news : Topic := mkTopic ObjectChanged (SObject 5) [110].

Abbreviation Bus := (EventBus (V := N)).

(** A durable subscription, and an event published to it and delivered. *)
Definition bus1 : Bus :=
  (subscribe 0 tt agent (new (Some ∅)) 7 (Exact news) AtLeastOnce Durable true).2.
Definition event1 : Ev := mkEvent news 1 9 (Inline 40) [].
Definition bus2 : Bus := (publish_begin bus1 news (Inline 40) [] 9).2.
Definition bus3 : Bus := default bus2 (deliver_to to_num bus2 1 event1 Written).
Definition delivered3 : N -> list Ev := push (fun _ => []) 1 event1.
Definition system3 : System := mkSystem bus3 [(event1, [])] delivered3 (fun _ => []).

Lemma reachable_system3 : reachable (M := unit) to_num (Some ∅) system3.
Proof.
  eapply rtc_l; [|eapply rtc_l; [|eapply rtc_l; [|apply rtc_refl]]].
  - eapply (step_subscribe to_num (start (Some ∅)) 0 tt agent 7 (Exact news) AtLeastOnce Durable true);
      [apply surjective_pairing|done].
  - apply (step_publish to_num (mkSystem bus1 [] (fun _ => []) (fun _ => [])) news (Inline 40) [] 9
             event1 [1] bus2). vm_compute. reflexivity.
  - apply (step_deliver to_num (mkSystem bus2 [(event1, [1])] (fun _ => []) (fun _ => [])) [] event1 1 [] []
             bus3); [reflexivity|vm_compute; reflexivity].
Defined.

(** Two threads publish to one topic; the first stalls after taking its number.
    The mailbox of a coalescing subscriber ends up holding the older value. *)
Definition cbus : Bus :=
  (subscribe 0 tt agent (new None) 7 (Exact news) AtMostOnce Coalesce true).2.
Definition begun1 := publish_begin cbus news (Inline 1) [] 0.
Definition begun2 := publish_begin begun1.2 news (Inline 2) [] 0.
Definition raced : option Bus :=
  b ← deliver_to to_num begun2.2 1 begun2.1.1 Written; deliver_to to_num b 1 begun1.1.1 Written.

Lemma coalesce_goes_back_in_time :
  (b ← raced; st ← mailboxes b !! 1; e ← coalesced st !! news; Some (seq e)) = Some 1
  /\ (b ← raced; next_seq b !! news) = Some 2.
Proof. vm_compute. done. Qed.

(** A buffer of capacity zero counts a drop for its first event and keeps it. *)
Definition zbus : Bus :=
  (subscribe 0 tt agent (new None) 7 (Exact news) AtMostOnce (Buffer 0) true).2.

Lemma zero_capacity_miscounts :
  (b ← deliver_to to_num zbus 1 event1 Written; st ← mailboxes b !! 1; Some (dropped st, length (queue st)))
  = Some (1, 1%nat).
Proof. vm_compute. done. Qed.
End EventsExample.
Import Crypto.Toy Storage.StorageExample EventsExample.

Lemma mailbox_conservation_witness :
  exists st, mailboxes bus3 !! 1 = Some st /\ [event1] = [] ++ queue st.
Proof.
  assert (Hst : is_Some (mailboxes bus3 !! 1)) by (vm_compute; by eexists).
  destruct Hst as [st Hst]. exists st. split; [done|].
  pose proof (mailbox_conservation to_num (Some ∅) system3 1 st reachable_system3 Hst) as [_ Hc].
  assert (Hb : backpressure st = Durable) by (vm_compute in Hst; by injection Hst as <-).
  rewrite Hb in Hc. exact Hc.
Defined.

Lemma durable_replay_complete_witness :
  replay_from from_num bus3 1 0 = Ok [event1] /\ replay_from from_num bus3 1 1 = Ok [].
Proof.
  assert (Hst : is_ok (mailbox_of bus3 1) = true) by (vm_compute; reflexivity).
  destruct (mailbox_of bus3 1) as [st|] eqn:Hm; [|done].
  assert (Hb : backpressure st = Durable) by (vm_compute in Hm; by injection Hm as <-).
  change bus3 with (bus system3). split.
  - rewrite (durable_replay_complete to_num from_num (Some ∅) system3 1 st [] 0 from_to_num reachable_system3 Hm Hb);
      [reflexivity|constructor].
  - rewrite (durable_replay_complete to_num from_num (Some ∅) system3 1 st [] 1 from_to_num reachable_system3 Hm Hb);
      [reflexivity|constructor].
Defined.
