(* ===== verification/F32.v ===== *)
(** IEEE 754 numbers as the sources use them.

    [f32] and [f64] are the Standard Library's [spec_float] at the two formats,
    rounding to nearest even. Ordering follows [PartialOrd]: a comparison with a
    NaN is no comparison. *)
From S2P Require Import Prelude.
From Stdlib Require Import ZArith Floats.SpecFloat.
Open Scope N_scope.

Definition f32 : Type := spec_float.
Definition f64 : Type := spec_float.

Definition f32_mul : f32 -> f32 -> f32 := SFmul 24 128.
Definition f32_add : f32 -> f32 -> f32 := SFadd 24 128.
Definition f32_div : f32 -> f32 -> f32 := SFdiv 24 128.
Definition f32_sqrt : f32 -> f32 := SFsqrt 24 128.
Definition f64_div : f64 -> f64 -> f64 := SFdiv 53 1024.
Definition f64_neg : f64 -> f64 := SFopp.

(** [iter().sum()] starts from negative zero. *)
Definition f32_sum (l : list f32) : f32 := fold_left f32_add l (S754_zero true).

Definition f32_zero : f32 := S754_zero false.
Definition f32_one : f32 := binary_normalize 24 128 1 0 false.

(** [x as f64] for an unsigned integer, and [x as f32] for a double. *)
Definition f64_of_N (n : N) : f64 := binary_normalize 53 1024 (Z.of_N n) 0 false.
Definition f32_of_f64 (x : f64) : f32 :=
  match x with
  | S754_finite s m e => binary_normalize 24 128 (if s then Z.neg m else Z.pos m) e s
  | _ => x
  end.

Definition f32_of_N (n : N) : f32 := binary_normalize 24 128 (Z.of_N n) 0 false.

Definition f32_cmp (a b : f32) : option comparison := SFcompare a b.
Definition f32_eqb (a b : f32) : bool := bool_decide (f32_cmp a b = Some Eq).
Definition f32_ltb (a b : f32) : bool := bool_decide (f32_cmp a b = Some Lt).

Definition f32_leb (a b : f32) : bool := f32_ltb a b || f32_eqb a b.

Definition is_finite (x : f32) : bool :=
  match x with S754_zero _ | S754_finite _ _ _ => true | _ => false end.

#[export] Instance spec_float_eq_dec : EqDecision spec_float.
Proof. solve_decision. Defined.

#[export] Instance spec_float_countable : Countable spec_float.
Proof.
  refine (inj_countable'
    (fun x => match x with
              | S754_zero s => inl (inl s)
              | S754_infinity s => inl (inr (Some s))
              | S754_nan => inl (inr None)
              | S754_finite s m e => inr (s, m, e)
              end)
    (fun y => match y with
              | inl (inl s) => S754_zero s
              | inl (inr (Some s)) => S754_infinity s
              | inl (inr None) => S754_nan
              | inr (s, m, e) => S754_finite s m e
              end) _).
  by intros [].
Defined.

(** ** More of the arithmetic *)

Definition f64_add : f64 -> f64 -> f64 := SFadd 53 1024.
Definition f64_mul : f64 -> f64 -> f64 := SFmul 53 1024.
Definition f32_sub : f32 -> f32 -> f32 := SFsub 24 128.

(** [x as f64] for a single; exact. *)
Definition f64_of_f32 (x : f32) : f64 :=
  match x with
  | S754_finite s m e => binary_normalize 53 1024 (if s then Z.neg m else Z.pos m) e s
  | _ => x
  end.

(** The single nearest to the decimal [a / b], for [a] and [b] exact in [f32]. *)
Definition f32_lit (a b : N) : f32 := f32_div (f32_of_N a) (f32_of_N b).

Definition f32_infinity : f32 := S754_infinity false.

Definition is_nan (x : f32) : bool := match x with S754_nan => true | _ => false end.

(** [f32::min] and [f32::max]: a NaN gives way to the other operand. *)
Definition f32_min (a b : f32) : f32 := if is_nan a then b else if f32_ltb b a then b else a.
Definition f32_max (a b : f32) : f32 := if is_nan a then b else if f32_ltb a b then b else a.

(** [f32::clamp]; a NaN stays one. *)
Definition f32_clamp (x lo hi : f32) : f32 := if f32_ltb x lo then lo else if f32_ltb hi x then hi else x.

(** ** Sorting by a score, highest first *)

(** [sort_by] with a comparison that is [Greater] when [overtakes x y]; stable. *)
Fixpoint insert_by {A : Type} (overtakes : A -> A -> bool) (x : A) (l : list A) : list A :=
  match l with
  | [] => [x]
  | y :: l' => if overtakes x y then y :: insert_by overtakes x l' else x :: l
  end.

Definition sort_by {A : Type} (overtakes : A -> A -> bool) (l : list A) : list A :=
  foldr (insert_by overtakes) [] l.

(** [sort_by(|a, b| b.score.partial_cmp(&a.score).unwrap_or(Equal))], highest
    first, for scores that are numbers. *)
Definition sort_desc {A : Type} (score : A -> f32) : list A -> list A :=
  sort_by (fun x y => f32_ltb (score x) (score y)).

(** The call itself. With a NaN among the scores the comparison is not an order, and the
    standard library may then panic or leave the list in any order: [unspecified]
    is what it does. *)
Definition sort_by_score {A : Type} (unspecified : list A -> option (list A)) (score : A -> f32) (l : list A) :
    option (list A) :=
  if forallb (fun x => negb (is_nan (score x))) l then Some (sort_desc score l) else unspecified l.

(** The same with [a] and [b] the other way round, lowest first. *)
Definition sort_asc {A : Type} (score : A -> f32) : list A -> list A :=
  sort_by (fun x y => f32_ltb (score y) (score x)).

(** A number as a position on the line: class, then exponent, then mantissa. *)
Definition f32_key (x : f32) : Z * Z * Z :=
  match x with
  | S754_infinity true => (0, 0, 0)
  | S754_finite true m e => (1, - e, Z.neg m)
  | S754_zero _ => (2, 0, 0)
  | S754_finite false m e => (3, e, Z.pos m)
  | S754_infinity false => (4, 0, 0)
  | S754_nan => (5, 0, 0)
  end%Z.

Definition key_lt (k k' : Z * Z * Z) : Prop :=
  let '(a, b, c) := k in let '(a', b', c') := k' in
  (a < a' \/ a = a' /\ (b < b' \/ b = b' /\ c < c'))%Z.

Lemma f32_ltb_key a b :
  is_nan a = false -> is_nan b = false -> f32_ltb a b = true <-> key_lt (f32_key a) (f32_key b).
Proof.
  intros Ha Hb. unfold f32_ltb, f32_cmp. rewrite bool_decide_eq_true.
  destruct a as [sa|sa| |sa ma ea], b as [sb|sb| |sb mb eb]; try done;
    try destruct sa; try destruct sb; simpl; try (split; [done|lia]); try (split; [lia|done]).
  - change (Pos.compare_cont Eq ma mb) with (Pos.compare ma mb). rewrite <- (Pos.compare_antisym ma mb).
    destruct (Z.compare_spec ea eb), (Pos.compare_spec mb ma); split; intros; try done; lia.
  - change (Pos.compare_cont Eq ma mb) with (Pos.compare ma mb).
    destruct (Z.compare_spec ea eb), (Pos.compare_spec ma mb); split; intros; try done; lia.
Qed.

Lemma insert_by_perm {A : Type} (overtakes : A -> A -> bool) x l : insert_by overtakes x l ≡ₚ x :: l.
Proof.
  induction l as [|y l IH]; [done|]. simpl. destruct (overtakes _ _); [|done]. rewrite IH. apply Permutation_swap.
Qed.

Lemma sort_by_perm {A : Type} (overtakes : A -> A -> bool) l : sort_by overtakes l ≡ₚ l.
Proof. induction l as [|x l IH]; [done|]. simpl. by rewrite insert_by_perm, IH. Qed.

(** Sorting by a comparison that is asymmetric and whose complement is transitive
    leaves nobody before someone it should follow. *)
Lemma sort_by_sorted {A : Type} (overtakes : A -> A -> bool) (P : A -> Prop) l :
  (forall x y, P x -> P y -> overtakes x y = true -> overtakes y x = false) ->
  (forall x y z, P x -> P y -> P z -> overtakes x y = false -> overtakes y z = false -> overtakes x z = false) ->
  Forall P l -> StronglySorted (fun x y => overtakes x y = false) (sort_by overtakes l).
Proof.
  intros Hasym Htrans.
  assert (Hins : forall x s, P x -> Forall P s -> StronglySorted (fun x y => overtakes x y = false) s ->
            StronglySorted (fun x y => overtakes x y = false) (insert_by overtakes x s)).
  { intros x s Hx Hs. induction s as [|y s IH]; intros Hss; [by repeat constructor|].
    apply Forall_cons in Hs as [Hy Hs]. apply StronglySorted_inv in Hss as [Hss Hall]. simpl.
    destruct (overtakes x y) eqn:Hlt.
    - constructor; [by apply IH|]. rewrite insert_by_perm. constructor; [by apply Hasym|done].
    - constructor; [by constructor|]. constructor; [done|].
      rewrite Forall_forall in Hall, Hs |- *. intros z Hz. by eapply (Htrans x y z); auto. }
  induction 1 as [|x l Hx Hl IH]; [constructor|]. simpl. apply Hins; [done| |done]. by rewrite sort_by_perm.
Qed.

Section sort_by_score.
Context {A : Type} (score : A -> f32).

(** [x] may stand before [y], highest first. *)
Definition not_below (x y : A) : Prop := f32_ltb (score x) (score y) = false.

Lemma f32_ltb_asym a b : is_nan a = false -> is_nan b = false -> f32_ltb a b = true -> f32_ltb b a = false.
Proof.
  intros Ha Hb. rewrite f32_ltb_key by done. intros Hlt. apply not_true_iff_false. rewrite f32_ltb_key by done.
  unfold key_lt in *. repeat case_match; lia.
Qed.

Lemma f32_geb_trans a b c :
  is_nan a = false -> is_nan b = false -> is_nan c = false ->
  f32_ltb a b = false -> f32_ltb b c = false -> f32_ltb a c = false.
Proof.
  intros Ha Hb Hc. rewrite <- !not_true_iff_false, !f32_ltb_key by done. unfold key_lt. repeat case_match; lia.
Qed.

Lemma sort_desc_perm l : sort_desc score l ≡ₚ l.
Proof. apply sort_by_perm. Qed.

Lemma sort_desc_sorted l :
  Forall (fun x => is_nan (score x) = false) l -> StronglySorted not_below (sort_desc score l).
Proof.
  apply sort_by_sorted; [intros; by apply f32_ltb_asym|]. intros x y z Hx Hy Hz. by apply f32_geb_trans.
Qed.

Lemma sort_by_score_numbers unspecified l :
  Forall (fun x => is_nan (score x) = false) l -> sort_by_score unspecified score l = Some (sort_desc score l).
Proof.
  intros Hl. unfold sort_by_score. rewrite (proj2 (forallb_forall _ _)); [done|].
  intros x Hx%list_elem_of_In. rewrite Forall_forall in Hl. by rewrite Hl.
Qed.

Lemma sort_asc_perm l : sort_asc score l ≡ₚ l.
Proof. apply sort_by_perm. Qed.

Lemma sort_asc_sorted l :
  Forall (fun x => is_nan (score x) = false) l -> StronglySorted (flip not_below) (sort_asc score l).
Proof.
  apply sort_by_sorted; [intros; by apply f32_ltb_asym|]. unfold flip, not_below.
  intros x y z Hx Hy Hz H1 H2. by apply (f32_geb_trans (score z) (score y) (score x)).
Qed.

End sort_by_score.
