(* ===== verification/F32Facts.v ===== *)
(** When single-precision arithmetic stays finite.

    Rounding never turns a non-negative mantissa into a NaN, and a result whose
    magnitude is well below the largest number does not overflow. Magnitudes are
    bounded by the number of digits of the mantissa plus the exponent. Sums, products
    and quotients of numbers that are not negative are such numbers. *)
From S2P Require Import Prelude F32.
From Stdlib Require Import ZArith Floats.SpecFloat.
Open Scope Z_scope.

Lemma Zdigits2_log2 m : 0 < m -> Zdigits2 m = Z.log2 m + 1.
Proof.
  destruct m as [|p|]; [lia| |lia]. intros _. change (Zdigits2 (Z.pos p)) with (Z.pos (digits2_pos p)).
  induction p as [p IH|p IH|]; [| |done]; cbn [digits2_pos]; rewrite Pos2Z.inj_succ, IH.
  - rewrite (Pos2Z.inj_xI p), Z.log2_succ_double; lia.
  - rewrite (Pos2Z.inj_xO p), Z.log2_double; lia.
Qed.

(** ** Shifting right *)

Lemma shr_1_m mrs : 0 <= shr_m mrs -> shr_m (shr_1 mrs) = shr_m mrs / 2.
Proof.
  destruct mrs as [m r s]. simpl. rewrite <- Z.div2_div. destruct m as [|[]|]; simpl; lia.
Qed.

Lemma pow2_double p : 2 ^ Z.pos p * 2 ^ Z.pos p = 2 ^ Z.pos p~0.
Proof. rewrite (Pos2Z.inj_xO p), <- Z.pow_add_r by lia. f_equal. lia. Qed.

Lemma shr_iter_m p mrs : 0 <= shr_m mrs -> shr_m (iter_pos shr_1 p mrs) = shr_m mrs / 2 ^ Z.pos p.
Proof.
  revert mrs. induction p as [p IH|p IH|]; intros mrs Hm; simpl iter_pos.
  - assert (H1 : 0 <= shr_m (shr_1 mrs)) by (rewrite shr_1_m by done; apply Z.div_pos; lia).
    rewrite IH; [|rewrite IH by done; apply Z.div_pos; lia]. rewrite IH, shr_1_m by done.
    rewrite !Z.div_div by lia. f_equal. rewrite pow2_double.
    rewrite (Pos2Z.inj_xI p), (Pos2Z.inj_xO p), Z.pow_add_r by lia. lia.
  - rewrite IH; [|rewrite IH by done; apply Z.div_pos; lia]. rewrite IH by done.
    by rewrite Z.div_div, pow2_double by lia.
  - by rewrite shr_1_m.
Qed.

Lemma shr_record_of_loc_m m l : shr_m (shr_record_of_loc m l) = m.
Proof. by destruct l as [|[]]. Qed.

(** One alignment: the mantissa loses as many digits as the exponent gains. *)
Lemma shr_fexp_spec m e l :
  0 <= m ->
  exists n, 0 <= n /\ shr_m (shr_fexp 24 128 m e l).1 = m / 2 ^ n
            /\ (shr_fexp 24 128 m e l).2 = e + n /\ e + n = Z.max e (fexp 24 128 (Zdigits2 m + e)).
Proof.
  intros Hm. unfold shr_fexp, shr. destruct (fexp 24 128 (Zdigits2 m + e) - e) as [|p|p] eqn:Hn; simpl.
  - exists 0. rewrite Z.div_1_r, shr_record_of_loc_m. lia.
  - exists (Z.pos p). rewrite shr_iter_m, shr_record_of_loc_m by (by rewrite shr_record_of_loc_m). lia.
  - exists 0. rewrite Z.div_1_r, shr_record_of_loc_m. lia.
Qed.

Lemma round_nearest_even_range m l : 0 <= m -> m <= round_nearest_even m l <= m + 1.
Proof. destruct l as [|[]]; simpl; try lia. destruct (Z.even m); lia. Qed.

(** ** Rounding *)

Lemma round_aux_not_nan s m e l : 0 <= m -> is_nan (binary_round_aux 24 128 s m e l) = false.
Proof.
  intros Hm. unfold binary_round_aux.
  destruct (shr_fexp_spec m e l Hm) as (n & Hn & H1 & _). destruct (shr_fexp 24 128 m e l) as [mrs e'].
  simpl in H1. set (mr := round_nearest_even _ _).
  assert (Hmr : 0 <= mr).
  { assert (0 <= shr_m mrs) by (rewrite H1; apply Z.div_pos; lia).
    pose proof (round_nearest_even_range (shr_m mrs) (loc_of_shr_record mrs)). lia. }
  destruct (shr_fexp_spec mr e' loc_Exact Hmr) as (n' & Hn' & H2 & _).
  destruct (shr_fexp 24 128 mr e' loc_Exact) as [mrs' e'']. simpl in H2.
  assert (0 <= shr_m mrs') by (rewrite H2; apply Z.div_pos; lia).
  destruct (shr_m mrs'); [done| |lia]. by destruct (_ <=? _).
Qed.

Lemma Zdigits2_div m n : 0 < m / 2 ^ n -> 0 <= n -> 0 <= m -> Zdigits2 (m / 2 ^ n) = Zdigits2 m - n.
Proof.
  intros Hpos Hn Hm. assert (0 < m) by (destruct (Z.eq_dec m 0) as [->|]; [rewrite Z.div_0_l in Hpos|]; lia).
  rewrite !Zdigits2_log2 by done. rewrite <- Z.shiftr_div_pow2, Z.log2_shiftr by done.
  rewrite <- Z.shiftr_div_pow2 in Hpos by done.
  assert (n <= Z.log2 m).
  { destruct (Z.le_gt_cases n (Z.log2 m)); [done|]. rewrite Z.shiftr_eq_0 in Hpos; lia. }
  lia.
Qed.

Lemma Zdigits2_succ m : 0 <= m -> Zdigits2 (m + 1) <= Zdigits2 m + 1.
Proof.
  intros Hm. destruct (Z.eq_dec m 0) as [->|Hne]; [done|]. rewrite !Zdigits2_log2 by lia.
  pose proof (Z.log2_succ_le m) as Hl. rewrite <- Z.add_1_r in Hl. lia.
Qed.

Lemma Zdigits2_mono a b : 0 <= a <= b -> Zdigits2 a <= Zdigits2 b.
Proof.
  intros [Ha Hab]. destruct (Z.eq_dec a 0) as [->|Hne]; [by destruct b|].
  rewrite !Zdigits2_log2 by lia. pose proof (Z.log2_le_mono a b Hab). lia.
Qed.

(** A number of magnitude at most [k] and exponent between [lo] and [k]. *)
Definition within_magnitude (lo k : Z) (x : f32) : Prop :=
  match x with
  | S754_zero _ => True
  | S754_finite _ m e => lo <= e <= k /\ Zdigits2 (Z.pos m) + e <= k
  | _ => False
  end.

(** Rounding gains at most a digit, and a magnitude of a hundred binary digits is
    far from overflow. *)
Lemma round_aux_magnitude k s m e l :
  0 <= m -> Zdigits2 m + e <= k -> e <= k -> 0 <= k <= 100 ->
  within_magnitude e (k + 1) (binary_round_aux 24 128 s m e l).
Proof.
  intros Hm Hmag He Hk. unfold binary_round_aux.
  destruct (shr_fexp_spec m e l Hm) as (n & Hn & H1 & H2 & H3). destruct (shr_fexp 24 128 m e l) as [mrs e'].
  simpl in H1, H2. unfold fexp, emin in H3. set (m1 := shr_m mrs) in *.
  assert (Hm1 : 0 <= m1) by (rewrite H1; apply Z.div_pos; lia).
  set (mr := round_nearest_even m1 _).
  pose proof (round_nearest_even_range m1 (loc_of_shr_record mrs) Hm1) as Hr. fold mr in Hr.
  assert (Hd : Zdigits2 mr + e' <= k + 1).
  { pose proof (Zdigits2_mono mr (m1 + 1)) as Hmono. pose proof (Zdigits2_succ m1 Hm1) as Hsucc.
    destruct (Z.eq_dec m1 0) as [Hz|Hnz]; [rewrite Hz in Hr, Hmono; change (Zdigits2 (0 + 1)) with 1 in Hmono; lia|].
    rewrite H1 in Hsucc, Hmono. rewrite Zdigits2_div in Hsucc by lia. lia. }
  destruct (shr_fexp_spec mr e' loc_Exact) as (n' & Hn' & H4 & H5 & H6); [lia|].
  destruct (shr_fexp 24 128 mr e' loc_Exact) as [mrs' e'']. simpl in H4, H5. unfold fexp, emin in H6.
  assert (0 <= shr_m mrs') by (rewrite H4; apply Z.div_pos; lia).
  destruct (shr_m mrs') as [|p|]; [done| |lia].
  assert (Hle : (e'' <=? 128 - 24) = true) by (apply Z.leb_le; lia). rewrite Hle. simpl is_finite.
  assert (Hp : Zdigits2 (Z.pos p) = Zdigits2 mr - n') by (rewrite H4; apply Zdigits2_div; lia).
  split; lia.
Qed.

Lemma within_magnitude_finite lo k x : within_magnitude lo k x -> is_finite x = true.
Proof. by destruct x. Qed.

(** ** Operations *)

Lemma is_finite_not_nan x : is_finite x = true -> is_nan x = false.
Proof. by destruct x. Qed.

Lemma f32_mul_not_nan a b : is_finite a = true -> is_finite b = true -> is_nan (f32_mul a b) = false.
Proof.
  destruct a as [| | |sa ma ea], b as [| | |sb mb eb]; try done. intros _ _. by apply round_aux_not_nan.
Qed.

(** A quotient of bounded magnitude. *)
Lemma div_finite sa ma ea sb mb eb :
  Zdigits2 (Z.pos ma) + ea - eb <= 100 -> ea - eb <= 100 ->
  is_finite (f32_div (S754_finite sa ma ea) (S754_finite sb mb eb)) = true.
Proof.
  intros Hmag He. unfold f32_div, SFdiv. unfold SFdiv_core_binary.
  set (e' := Z.min _ _). set (sh := ea - eb - e'). assert (Hsh : 0 <= sh) by lia.
  set (m' := match sh with Z0 => Z.pos ma | Z.pos _ => _ | Z.neg _ => 0 end).
  assert (Hm' : m' = Z.pos ma * 2 ^ sh).
  { unfold m'. destruct sh as [|p|p] eqn:Hp; [lia| |lia]. by rewrite Z.shiftl_mul_pow2. }
  destruct (Z.div_eucl m' (Z.pos mb)) as [q r] eqn:Hq.
  assert (Hqe : q = m' / Z.pos mb) by (unfold Z.div; by rewrite Hq).
  assert (Hq0 : 0 <= q <= m').
  { rewrite Hqe. split; [apply Z.div_pos; lia|apply Z.div_le_upper_bound; nia]. }
  eapply within_magnitude_finite, (round_aux_magnitude 100); [lia| |lia|done].
  assert (Hd : Zdigits2 q <= Zdigits2 (Z.pos ma) + sh).
  { etrans; [apply Zdigits2_mono; exact Hq0|]. rewrite Hm', !Zdigits2_log2 by lia.
    rewrite Z.log2_mul_pow2 by lia. lia. }
  lia.
Qed.

(** An alignment of a normal number leaves digits. *)
Lemma shr_fexp_pos m e l :
  0 < m -> -149 <= e -> 0 < shr_m (shr_fexp 24 128 m e l).1 /\ e <= (shr_fexp 24 128 m e l).2.
Proof.
  intros Hm He. destruct (shr_fexp_spec m e l) as (n & Hn & -> & -> & Hmax); [lia|]. split; [|lia].
  unfold fexp, emin in Hmax. rewrite Zdigits2_log2 in Hmax by done. apply Z.div_str_pos. split; [lia|].
  assert (Hle : n <= Z.log2 m) by (pose proof (Z.log2_nonneg m); lia).
  etrans; [by apply Z.pow_le_mono_r|]. by apply Z.log2_spec.
Qed.

Lemma round_aux_nonzero s m e l s' : 0 < m -> -149 <= e -> binary_round_aux 24 128 s m e l <> S754_zero s'.
Proof.
  intros Hm He. unfold binary_round_aux. destruct (shr_fexp_pos m e l Hm He) as [H1 H2].
  destruct (shr_fexp 24 128 m e l) as [mrs e']. simpl in H1, H2.
  pose proof (round_nearest_even_range (shr_m mrs) (loc_of_shr_record mrs)) as Hr. set (mr := round_nearest_even _ _) in *.
  destruct (shr_fexp_pos mr e' loc_Exact) as [H3 _]; [lia..|].
  destruct (shr_fexp 24 128 mr e' loc_Exact) as [mrs' e'']. simpl in H3.
  destruct (shr_m mrs'); [lia| |lia]. by destruct (_ <=? _).
Qed.

Lemma within_magnitude_weaken lo k lo' k' x :
  within_magnitude lo k x -> lo' <= lo -> k <= k' -> within_magnitude lo' k' x.
Proof. destruct x as [| | |s m e]; try done. simpl. lia. Qed.

Lemma iter_xO p d : Z.pos (Pos.iter xO p d) = Z.pos p * 2 ^ Z.pos d.
Proof.
  induction d as [|d IH] using Pos.peano_ind; [simpl; lia|].
  rewrite Pos.iter_succ, Pos2Z.inj_xO, IH, Pos2Z.inj_succ, Z.pow_succ_r by lia. lia.
Qed.

(** [x as f32] for a [u32]. *)
Lemma f32_of_u32 n : (n <= U32_MAX)%N -> within_magnitude (-23) 33 (f32_of_N n).
Proof.
  intros Hn. unfold f32_of_N, binary_normalize. destruct n as [|p]; [done|]. simpl Z.of_N.
  unfold binary_round, shl_align.
  assert (Hd : 1 <= Zdigits2 (Z.pos p) <= 32).
  { split; [rewrite Zdigits2_log2 by lia; pose proof (Z.log2_nonneg (Z.pos p)); lia|].
    etrans; [apply (Zdigits2_mono _ (Z.of_N U32_MAX)); lia|done]. }
  change (Z.pos (digits2_pos p)) with (Zdigits2 (Z.pos p)).
  set (f := fexp 24 128 _). assert (Hf : -23 <= f <= 8) by (unfold f, fexp, emin; lia).
  destruct (f - 0) as [|d|d] eqn:Hfd.
  - eapply within_magnitude_weaken; [apply (round_aux_magnitude 32 _ _ 0)|..]; lia.
  - eapply within_magnitude_weaken; [apply (round_aux_magnitude 32 _ _ 0)|..]; lia.
  - eapply within_magnitude_weaken; [apply (round_aux_magnitude 32 _ _ f)|..]; try lia.
    rewrite Zdigits2_log2 in * by lia. rewrite iter_xO, Z.log2_mul_pow2 by lia. lia.
Qed.

Lemma f32_of_pos_nonzero p s : f32_of_N (N.pos p) <> S754_zero s.
Proof.
  change (f32_of_N (N.pos p)) with (binary_round 24 128 false p 0). unfold binary_round, shl_align.
  set (f := fexp 24 128 _). assert (Hf : -149 <= f) by (unfold f, fexp, emin; lia).
  destruct (f - 0); by apply round_aux_nonzero.
Qed.

(** A quotient of two [u32]s, the second not zero. *)
Lemma u32_ratio_finite a b :
  (a <= U32_MAX)%N -> (0 < b <= U32_MAX)%N -> is_finite (f32_div (f32_of_N a) (f32_of_N b)) = true.
Proof.
  intros Ha Hb. pose proof (f32_of_u32 a Ha) as Ma. pose proof (f32_of_u32 b ltac:(lia)) as Mb.
  assert (Hz : forall s, f32_of_N b <> S754_zero s) by (destruct b; [lia|apply f32_of_pos_nonzero]).
  destruct (f32_of_N a) as [| | |sa ma ea]; try done; destruct (f32_of_N b) as [sb| | |sb mb eb]; try done;
    [by edestruct Hz..|].
  simpl in Ma, Mb. apply div_finite; simpl in *; lia.
Qed.

(** The reciprocal of a weight kept above a hundredth. *)
Lemma weight_inverse_finite w : is_finite (f32_div f32_one (f32_max w (f32_lit 1 100))) = true.
Proof.
  unfold f32_max. destruct (is_nan w) eqn:Hn; [by vm_compute|].
  destruct (f32_ltb w (f32_lit 1 100)) eqn:Hlt; [by vm_compute|].
  apply not_true_iff_false in Hlt. rewrite f32_ltb_key in Hlt by (done || by vm_compute).
  change (f32_key (f32_lit 1 100)) with (3, -30, 10737418) in Hlt. unfold key_lt in Hlt.
  destruct w as [s|[]| |[] m e]; simpl in Hlt; try done; try lia.
  change f32_one with (S754_finite false 8388608 (-23)). apply div_finite; simpl; lia.
Qed.

Lemma f32_max_finite a b : is_finite a = true -> is_finite b = true -> is_finite (f32_max a b) = true.
Proof. intros Ha Hb. unfold f32_max. by destruct (is_nan a), (f32_ltb a b). Qed.

Lemma fold_max_finite l a :
  is_finite a = true -> Forall (fun x => is_finite x = true) l -> is_finite (fold_left f32_max l a) = true.
Proof.
  intros Ha Hl. revert a Ha. induction Hl as [|x l Hx Hl IH]; intros a Ha; [done|]. simpl. by apply IH, f32_max_finite.
Qed.

(** ** Numbers that are not negative *)

(** Not negative, and a number. *)
Definition nonneg (x : f32) : Prop :=
  match x with S754_zero _ | S754_infinity false | S754_finite false _ _ => True | _ => False end.

Lemma nonneg_not_nan x : nonneg x -> is_nan x = false.
Proof. by destruct x as [|[]| |[]]. Qed.

Lemma round_aux_nonneg m e l : (0 <= m)%Z -> nonneg (binary_round_aux 24 128 false m e l).
Proof.
  intros Hm. pose proof (round_aux_not_nan false m e l Hm) as Hn. revert Hn. unfold binary_round_aux.
  destruct (shr_fexp 24 128 m e l) as [mrs e']. destruct (shr_fexp 24 128 _ e' loc_Exact) as [mrs' e''].
  destruct (shr_m mrs'); [done| |done]. by destruct (_ <=? _)%Z.
Qed.

Lemma round_nonneg p e : nonneg (binary_round 24 128 false p e).
Proof. unfold binary_round. destruct (shl_align p e _) as [mz ez]. by apply round_aux_nonneg. Qed.

Lemma f32_of_N_nonneg n : nonneg (f32_of_N n).
Proof. destruct n as [|p]; [done|]. apply round_nonneg. Qed.

Lemma f32_add_nonneg a b : nonneg a -> nonneg b -> nonneg (f32_add a b).
Proof.
  destruct a as [sa|[]| |[] ma ea], b as [sb|[]| |[] mb eb]; try done; intros _ _.
  - by destruct sa, sb.
  - unfold f32_add, SFadd. set (z := cond_Zopp _ _). set (z' := cond_Zopp _ _).
    assert (Hz : (0 < z + z')%Z) by (unfold z, z'; simpl; lia). destruct (z + z')%Z as [|p|p]; [lia|apply round_nonneg|lia].
Qed.

Lemma div_core_nonneg ma ea mb eb : (0 <= (SFdiv_core_binary 24 128 (Z.pos ma) ea (Z.pos mb) eb).1.1)%Z.
Proof.
  unfold SFdiv_core_binary. set (e' := Z.min _ _). set (m' := match (ea - eb - e')%Z with Z0 => _ | _ => _ end).
  assert (Hm : (0 <= m')%Z) by (unfold m'; destruct (ea - eb - e')%Z; [lia| |lia]; apply Z.shiftl_nonneg; lia).
  destruct (Z.div_eucl m' (Z.pos mb)) as [q r] eqn:Hq. simpl.
  assert (q = m' / Z.pos mb)%Z as -> by (unfold Z.div; by rewrite Hq). apply Z.div_pos; lia.
Qed.

(** A quotient by a positive finite number. *)
Lemma f32_div_nonneg a mb eb : nonneg a -> nonneg (f32_div a (S754_finite false mb eb)).
Proof.
  destruct a as [sa|[]| |[] ma ea]; try done. intros _. unfold f32_div, SFdiv.
  pose proof (div_core_nonneg ma ea mb eb) as Hq. destruct (SFdiv_core_binary _ _ _ _ _ _) as [[mz ez] lz].
  by apply round_aux_nonneg.
Qed.

Lemma f32_mul_nonneg a b : is_finite a = true -> is_finite b = true -> nonneg a -> nonneg b -> nonneg (f32_mul a b).
Proof. destruct a as [sa|[]| |[] ma ea], b as [sb|[]| |[] mb eb]; try done. intros _ _ _ _. by apply round_aux_nonneg. Qed.

Lemma f32_mul_pos a m e : nonneg a -> nonneg (f32_mul (S754_finite false m e) a) /\ nonneg (f32_mul a (S754_finite false m e)).
Proof. destruct a as [sa|[]| |[] ma ea]; try done; intros _; (split; [|]); try done; by apply round_aux_nonneg. Qed.
