(* ===== verification/Json.v ===== *)
(** What the services use of [serde_json::Value]: the values they build with
    [json!] and read with [get], [as_str], [as_u64] and [as_bool]. *)
From S2P Require Import Prelude F32.
Open Scope N_scope.

(** Numbers are as [serde_json] keeps them: unsigned and negative integers and doubles. *)
Inductive Json : Type :=
| JNull
| JBool (b : bool)
| JNumber (n : N)
| JNegative (n : positive)
| JFloat (x : f64)
| JString (s : list N)
| JArray (items : list Json)
| JObject (fields : list (list N * Json)).

Fixpoint assoc (k : list N) (l : list (list N * Json)) : option Json :=
  match l with
  | [] => None
  | (k', v) :: l => if bool_decide (k' = k) then Some v else assoc k l
  end.

(** [Value::get] with a string. *)
Definition json_get (v : Json) (k : list N) : option Json :=
  match v with JObject fields => assoc k fields | _ => None end.

Definition as_str (v : Json) : option (list N) := match v with JString s => Some s | _ => None end.
Definition as_u64 (v : Json) : option N := match v with JNumber n => Some n | _ => None end.
Definition as_bool (v : Json) : option bool := match v with JBool b => Some b | _ => None end.

(** [json!] of a single: widened to a double, and [null] unless finite. *)
Definition json_f32 (x : f32) : Json := if is_finite x then JFloat (f64_of_f32 x) else JNull.

(** Values can be told apart and numbered, so that they can be keys and be stored
    by the codec the examples run on. *)
Fixpoint json_tree (v : Json) : gen_tree (bool + N + (f64 + list N)) :=
  match v with
  | JNull => GenNode 0 []
  | JBool b => GenLeaf (inl (inl b))
  | JNumber n => GenLeaf (inl (inr n))
  | JNegative n => GenNode 3 [GenLeaf (inl (inr (N.pos n)))]
  | JFloat x => GenLeaf (inr (inl x))
  | JString s => GenLeaf (inr (inr s))
  | JArray l => GenNode 1 (map json_tree l)
  | JObject l => GenNode 2 (map (fun '(k, v) => GenNode 0 [GenLeaf (inr (inr k)); json_tree v]) l)
  end.

Fixpoint tree_json (t : gen_tree (bool + N + (f64 + list N))) : Json :=
  match t with
  | GenLeaf (inl (inl b)) => JBool b
  | GenLeaf (inl (inr n)) => JNumber n
  | GenLeaf (inr (inl x)) => JFloat x
  | GenLeaf (inr (inr s)) => JString s
  | GenNode 1 l => JArray (map tree_json l)
  | GenNode 2 l =>
      JObject (map (fun t => match t with GenNode _ [GenLeaf (inr (inr k)); t] => (k, tree_json t) | _ => ([], JNull) end) l)
  | GenNode 3 [GenLeaf (inl (inr (N.pos n)))] => JNegative n
  | GenNode _ _ => JNull
  end.

Fixpoint tree_json_tree (v : Json) : tree_json (json_tree v) = v.
Proof.
  destruct v as [| | | | | |l|l]; [done..| |]; simpl; f_equal.
  - induction l as [|v l IH]; [done|]. simpl. by rewrite tree_json_tree, IH.
  - induction l as [|[k v] l IH]; [done|]. simpl. by rewrite tree_json_tree, IH.
Qed.

#[export] Instance json_eq_dec : EqDecision Json.
Proof. refine (inj_eq_dec json_tree). intros v w Hvw. by rewrite <- (tree_json_tree v), Hvw, tree_json_tree. Defined.

#[export] Instance json_countable : Countable Json := inj_countable' json_tree tree_json tree_json_tree.
