(* ===== verification/Explainability.v ===== *)
(** The explanation store: [crates/hyperion-explainability/src/{types,store,render,calibration,confidence}.rs].

    Every action has a record that is opened before it and closed after it. The
    records are in memory; if the store was given an event bus it also publishes
    each change as an event, which one durable subscription keeps, so that a record
    lost with the process can be put together again from the log. *)
From S2P Require Import Prelude Crypto Capability Authority Wal Storage DebugFmt Events F32 Json.
Open Scope N_scope.

Abbreviation text := (list N).

(** ** types.rs *)

Inductive SensitivityClass : Type := Public | Personal | Sensitive | Restricted.

Inductive ControlState : Type := Proposed | Executing | Completed | Interrupted | Modified | RolledBack.

#[export] Instance control_state_eq_dec : EqDecision ControlState.
Proof. solve_decision. Defined.

Definition debug_control (s : ControlState) : text :=
  match s with
  | Proposed => lit "Proposed" | Executing => lit "Executing" | Completed => lit "Completed"
  | Interrupted => lit "Interrupted" | Modified => lit "Modified" | RolledBack => lit "RolledBack"
  end.

Inductive ConfidenceMethod : Type := SelfConsistency | Verifier | Ensemble | Heuristic.

Record ConfidenceScore := mkConfidence {
  conf_value : f32;
  conf_method : ConfidenceMethod
}.

Record EvidenceRef := mkEvidence {
  evidence_object : N;
  excerpt_or_summary : text;
  evidence_weight : f32
}.

Record ReasoningStep := mkStep {
  step_index : N;
  description : text;
  step_capability : option text;
  inputs_ref : list N;
  output_ref : option N
}.

Record Alternative := mkAlternative {
  alt_description : text;
  alt_score : f32;
  rejection_reason : text
}.

Record ExplanationRecord := mkExplanation {
  rec_id : N;
  action_id : N;
  triggering_intent_id : N;
  agent_id : N;
  rec_capability : text;
  created_at : N;
  reasoning_chain : list ReasoningStep;
  evidence : list EvidenceRef;
  confidence : option ConfidenceScore;
  alternatives : list Alternative;
  undo_ref : option N;
  trust_boundary_span : list N;
  privacy_class : option SensitivityClass;
  parent_records : list N;
  child_records : list N;
  control_state : ControlState
}.

Inductive ExplanationLookup : Type :=
| Authoritative (r : ExplanationRecord)
| Reconstructed (r : ExplanationRecord).

Definition record (l : ExplanationLookup) : ExplanationRecord :=
  match l with Authoritative r | Reconstructed r => r end.
Definition is_reconstructed (l : ExplanationLookup) : bool :=
  match l with Reconstructed _ => true | _ => false end.

Inductive Depth : Type := Headline | Full.

#[export] Instance depth_eq_dec : EqDecision Depth.
Proof. solve_decision. Defined.

(** The two fields [resolve_why] leaves empty are not shown. *)
Inductive ExplanationView : Type :=
  mkView (headline : text) (full : option ExplanationRecord) (parents : list ExplanationView) (reconstructed : bool).

Record CalibrationScore := mkCalibration {
  brier_score : f32;
  sample_count : nat;
  alert : bool
}.

Inductive ExplainabilityError : Type := Unauthorized | NoSuchRecord.

(** What surrounds one call: the monotonic clock when the call is checked and when
    its event is, the wall clock in the event's unit, and what becomes of the
    writes to the bus's logs. *)
Record Ambient := mkAmbient {
  at_instant : Instant;
  at_publish : Instant;
  at_wall : N;
  write_io : N -> write_outcome
}.

(** ** calibration.rs *)

Definition ALERT_THRESHOLD : f32 := f32_lit 1 4.
Definition MIN_SAMPLES_FOR_ALERT : nat := 5.

Definition outcome (r : ExplanationRecord) : option (f32 * f32) :=
  c ← confidence r;
  match control_state r with
  | Completed => Some (conf_value c, f32_one)
  | RolledBack => Some (conf_value c, f32_zero)
  | _ => None
  end.

(** [powi(2)] is one multiplication. *)
Definition squared_error (x : f32 * f32) : f32 :=
  let d := f32_sub x.1 x.2 in f32_mul d d.

Definition calibration_score (l : list ExplanationRecord) (agent : N) (cap : text) : option CalibrationScore :=
  let outcomes := omap outcome
    (List.filter (fun r => (agent_id r =? agent) && bool_decide (rec_capability r = cap)) l) in
  match outcomes with
  | [] => None
  | _ =>
      let brier := f32_div (f32_sum (squared_error <$> outcomes)) (f32_of_N (N.of_nat (length outcomes))) in
      Some (mkCalibration brier (length outcomes)
              ((MIN_SAMPLES_FOR_ALERT <=? length outcomes)%nat && f32_ltb ALERT_THRESHOLD brier))
  end.

(** ** confidence.rs *)

(** The answers to the same prompt, one after the other, until one fails. *)
Fixpoint collect_samples (infer : nat -> option text) (i n : nat) : option (list text) :=
  match n with
  | O => Some []
  | S n => out ← infer i; outs ← collect_samples infer (S i) n; Some (out :: outs)
  end.

Definition count_of (outs : list text) (out : text) : nat :=
  length (List.filter (fun o => bool_decide (o = out)) outs).
Definition majority (outs : list text) : nat := foldr Nat.max O (count_of outs <$> outs).

Definition self_consistency_confidence (infer : nat -> option text) (samples : nat) : option ConfidenceScore :=
  match samples with
  | O => None
  | _ =>
      outs ← collect_samples infer O samples;
      Some (mkConfidence (f32_div (f32_of_N (N.of_nat (majority outs))) (f32_of_N (N.of_nat (length outs)))) SelfConsistency)
  end.

(** ** store.rs *)

Section store.
Context `{Codec (WalRecord Json)} `{Aead} `{HashIter} {M : Type} `{Authority M}.
Context (to_value : Event (V := Json) -> Json) (from_value : Json -> option (Event (V := Json))).

(** [events] is the bus and the store's subscription to it. *)
Record ExplanationStore := mkStore {
  records : gmap N ExplanationRecord;
  next_id : N;
  next_action : N;
  events : option (EventBus (V := Json) * N)
}.

Definition new : ExplanationStore := mkStore ∅ 1 1 None.

Definition with_records (s : ExplanationStore) (l : gmap N ExplanationRecord) : ExplanationStore :=
  mkStore l (next_id s) (next_action s) (events s).
Definition with_bus (s : ExplanationStore) (b : EventBus (V := Json)) (sub : N) : ExplanationStore :=
  mkStore (records s) (next_id s) (next_action s) (Some (b, sub)).

Definition with_events (now : Instant) (m : M) (admin : CapabilityToken) (s : ExplanationStore)
    (b : EventBus (V := Json)) (opened : bool) : Result ExplanationStore ExplainabilityError * EventBus (V := Json) :=
  match subscribe now m admin b (origin admin) (KindScoped Custom) AtLeastOnce Durable opened with
  | (Ok sub, b) => (Ok (with_bus s b sub), b)
  | (Err _, b) => (Err Unauthorized, b)
  end.

Definition SCHEMA : text := lit "explainability.record_event.v1".
Definition record_topic (id : N) : Topic := mkTopic Custom (SObject id) SCHEMA.

(** [None] while the bus waits for a full mailbox; a refusal is only printed. *)
Definition publish_record_event (env : Ambient) (m : M) (t : CapabilityToken) (s : ExplanationStore) (id : N) (p : Json) :
    option ExplanationStore :=
  match events s with
  | None => Some s
  | Some (b, sub) =>
      '(_, b) ← publish to_value (at_publish env) m t b (origin t) (record_topic id) (Inline p) [] (at_wall env) (write_io env);
      Some (with_bus s b sub)
  end.

Definition next_action_id (s : ExplanationStore) : N * ExplanationStore :=
  (next_action s, mkStore (records s) (next_id s) (u64_add (next_action s) 1) (events s)).

Definition require (now : Instant) (m : M) (t : CapabilityToken) (r : RightsMask) : Result unit ExplainabilityError :=
  map_err (fun _ => Unauthorized) (authorize now m t r).

Definition begin_event (action intent agent : N) (cap : text) (span : list N) (now : N) : Json :=
  JObject [(lit "kind", JString (lit "begin")); (lit "action_id", JNumber action);
           (lit "triggering_intent_id", JNumber intent); (lit "agent_id", JNumber agent);
           (lit "capability_ref", JString cap); (lit "created_at", JNumber now);
           (lit "trust_boundary_span", JArray (JNumber <$> span))].

Definition span_with (span : list N) (who : N) : list N :=
  if bool_decide (who ∈ span) then span else span ++ [who].

(** The state of a call: the answer and the store, or waiting. *)
Abbreviation Answer A := (option (Result A ExplainabilityError * ExplanationStore)).

Definition begin (env : Ambient) (m : M) (t : CapabilityToken) (s : ExplanationStore) (action intent agent : N) (cap : text)
    (span : list N) (now : N) : Answer N :=
  match require (at_instant env) m t WRITE with
  | Err e => Some (Err e, s)
  | Ok _ =>
      let id := next_id s in
      let s := mkStore (records s) (u64_add id 1) (next_action s) (events s) in
      let span := span_with span (origin t) in
      s ← publish_record_event env m t s id (begin_event action intent agent cap span now);
      let r := mkExplanation id action intent agent cap now [] [] None [] None span None [] [] Proposed in
      Some (Ok id, with_records s (<[id := r]> (records s)))
  end.

Definition with_record_mut (s : ExplanationStore) (id : N) (f : ExplanationRecord -> ExplanationRecord) :
    Result ExplanationStore ExplainabilityError :=
  match records s !! id with
  | None => Err NoSuchRecord
  | Some r => Ok (with_records s (<[id := f r]> (records s)))
  end.

(** What [with_record_mut] changes, field by field. *)
Definition push_step (step : ReasoningStep) (ev : list EvidenceRef) (r : ExplanationRecord) : ExplanationRecord :=
  mkExplanation (rec_id r) (action_id r) (triggering_intent_id r) (agent_id r) (rec_capability r) (created_at r)
    (reasoning_chain r ++ [step]) (evidence r ++ ev) (confidence r) (alternatives r) (undo_ref r) (trust_boundary_span r)
    (privacy_class r) (parent_records r) (child_records r) (control_state r).
Definition put_confidence (c : ConfidenceScore) (alts : list Alternative) (r : ExplanationRecord) : ExplanationRecord :=
  mkExplanation (rec_id r) (action_id r) (triggering_intent_id r) (agent_id r) (rec_capability r) (created_at r)
    (reasoning_chain r) (evidence r) (Some c) alts (undo_ref r) (trust_boundary_span r)
    (privacy_class r) (parent_records r) (child_records r) (control_state r).
Definition put_undo (p : N) (r : ExplanationRecord) : ExplanationRecord :=
  mkExplanation (rec_id r) (action_id r) (triggering_intent_id r) (agent_id r) (rec_capability r) (created_at r)
    (reasoning_chain r) (evidence r) (confidence r) (alternatives r) (Some p) (trust_boundary_span r)
    (privacy_class r) (parent_records r) (child_records r) (control_state r).
Definition push_parent (p : N) (r : ExplanationRecord) : ExplanationRecord :=
  mkExplanation (rec_id r) (action_id r) (triggering_intent_id r) (agent_id r) (rec_capability r) (created_at r)
    (reasoning_chain r) (evidence r) (confidence r) (alternatives r) (undo_ref r) (trust_boundary_span r)
    (privacy_class r) (parent_records r ++ [p]) (child_records r) (control_state r).
Definition push_child (c : N) (r : ExplanationRecord) : ExplanationRecord :=
  mkExplanation (rec_id r) (action_id r) (triggering_intent_id r) (agent_id r) (rec_capability r) (created_at r)
    (reasoning_chain r) (evidence r) (confidence r) (alternatives r) (undo_ref r) (trust_boundary_span r)
    (privacy_class r) (parent_records r) (child_records r ++ [c]) (control_state r).
Definition put_state (st : ControlState) (r : ExplanationRecord) : ExplanationRecord :=
  mkExplanation (rec_id r) (action_id r) (triggering_intent_id r) (agent_id r) (rec_capability r) (created_at r)
    (reasoning_chain r) (evidence r) (confidence r) (alternatives r) (undo_ref r) (trust_boundary_span r)
    (privacy_class r) (parent_records r) (child_records r) st.

Definition step_event (step : ReasoningStep) : Json :=
  JObject [(lit "kind", JString (lit "step")); (lit "step_index", JNumber (step_index step));
           (lit "description", JString (description step));
           (lit "capability_ref", from_option JString JNull (step_capability step))].

(** The record changes under the lock and the event is published once it is let go of:
    this is a call during which no other changes the store, so that events are in the
    order of the changes. *)
Definition append_step (env : Ambient) (m : M) (t : CapabilityToken) (s : ExplanationStore) (id : N) (step : ReasoningStep)
    (ev : list EvidenceRef) : Answer unit :=
  match require (at_instant env) m t WRITE with
  | Err e => Some (Err e, s)
  | Ok _ =>
      match with_record_mut s id (push_step step ev) with
      | Err e => Some (Err e, s)
      | Ok s => s ← publish_record_event env m t s id (step_event step); Some (Ok tt, s)
      end
  end.

(** A change that is not published. *)
Definition mutate (env : Ambient) (m : M) (t : CapabilityToken) (s : ExplanationStore) (id : N)
    (f : ExplanationRecord -> ExplanationRecord) : Result unit ExplainabilityError * ExplanationStore :=
  match require (at_instant env) m t WRITE with
  | Err e => (Err e, s)
  | Ok _ => match with_record_mut s id f with Err e => (Err e, s) | Ok s => (Ok tt, s) end
  end.

Definition set_confidence (env : Ambient) (m : M) (t : CapabilityToken) (s : ExplanationStore) (id : N)
    (c : ConfidenceScore) (alts : list Alternative) : Result unit ExplainabilityError * ExplanationStore :=
  mutate env m t s id (put_confidence c alts).

Definition attach_undo_ref (env : Ambient) (m : M) (t : CapabilityToken) (s : ExplanationStore) (id p : N) :
    Result unit ExplainabilityError * ExplanationStore :=
  mutate env m t s id (put_undo p).

(** The lock is let go of between the two halves; nothing ever removes a record,
    so the second finds the parent. *)
Definition link_parent (env : Ambient) (m : M) (t : CapabilityToken) (s : ExplanationStore) (child parent : N) :
    Result unit ExplainabilityError * ExplanationStore :=
  match require (at_instant env) m t WRITE with
  | Err e => (Err e, s)
  | Ok _ =>
      if bool_decide (is_Some (records s !! parent)) then
        match with_record_mut s child (push_parent parent) with
        | Err e => (Err e, s)
        | Ok s => (Ok tt, with_records s (alter (push_child child) parent (records s)))
        end
      else (Err NoSuchRecord, s)
  end.

Definition transition_event (st : ControlState) : Json :=
  JObject [(lit "kind", JString (lit "transition")); (lit "state", JString (debug_control st))].

Definition transition (env : Ambient) (m : M) (t : CapabilityToken) (s : ExplanationStore) (id : N) (st : ControlState) :
    Answer unit :=
  match require (at_instant env) m t WRITE with
  | Err e => Some (Err e, s)
  | Ok _ =>
      match with_record_mut s id (put_state st) with
      | Err e => Some (Err e, s)
      | Ok s => s ← publish_record_event env m t s id (transition_event st); Some (Ok tt, s)
      end
  end.

(** *** Reading *)

Definition visible (t : CapabilityToken) (r : ExplanationRecord) : bool :=
  bool_decide (origin t ∈ trust_boundary_span r).

Definition get (now : Instant) (m : M) (t : CapabilityToken) (s : ExplanationStore) (id : N) :
    Result (option ExplanationRecord) ExplainabilityError :=
  let? _ := require now m t READ in
  Ok (r ← records s !! id; if visible t r then Some r else None).

Definition json_index (v : Json) (k : text) : Json := default JNull (json_get v k).
Definition u64_of (v : Json) : N := default 0 (as_u64 v).
Definition u64s_of (v : Json) : list N := match v with JArray l => omap as_u64 l | _ => [] end.

Definition state_of_text (o : option text) : ControlState :=
  match o with
  | Some s =>
      if bool_decide (s = lit "Executing") then Executing
      else if bool_decide (s = lit "Completed") then Completed
      else if bool_decide (s = lit "Interrupted") then Interrupted
      else if bool_decide (s = lit "Modified") then Modified
      else if bool_decide (s = lit "RolledBack") then RolledBack
      else Proposed
  | None => Proposed
  end.

(** What is known of the record before the first event. *)
Definition unknown (id : N) : ExplanationRecord :=
  mkExplanation id 0 0 0 [] 0 [] [] None [] None [] None [] [] Proposed.

(** One turn of the loop over the replayed events. *)
Definition apply_event (r : ExplanationRecord) (e : Event (V := Json)) : ExplanationRecord :=
  match payload e with
  | ObjectRef _ _ => r
  | Inline p =>
      match as_str (json_index p (lit "kind")) with
      | Some k =>
          if bool_decide (k = lit "begin") then
            mkExplanation (rec_id r) (u64_of (json_index p (lit "action_id"))) (u64_of (json_index p (lit "triggering_intent_id")))
              (u64_of (json_index p (lit "agent_id"))) (default [] (as_str (json_index p (lit "capability_ref"))))
              (u64_of (json_index p (lit "created_at"))) (reasoning_chain r) (evidence r) (confidence r) (alternatives r)
              (undo_ref r) (u64s_of (json_index p (lit "trust_boundary_span"))) (privacy_class r) (parent_records r)
              (child_records r) (control_state r)
          else if bool_decide (k = lit "step") then
            push_step (mkStep (u64_of (json_index p (lit "step_index")) mod two32)
                         (default [] (as_str (json_index p (lit "description"))))
                         (as_str (json_index p (lit "capability_ref"))) [] None) [] r
          else if bool_decide (k = lit "transition") then put_state (state_of_text (as_str (json_index p (lit "state")))) r
          else r
      | None => r
      end
  end.

Definition get_or_reconstruct (now : Instant) (m : M) (t : CapabilityToken) (s : ExplanationStore) (id : N) :
    Result (option ExplanationLookup) ExplainabilityError :=
  let? found := get now m t s id in
  match found with
  | Some r => Ok (Some (Authoritative r))
  | None =>
      match events s with
      | None => Ok None
      | Some (b, sub) =>
          let? all := map_err (fun _ => NoSuchRecord) (replay_from from_value b sub 0) in
          match sort_by_key seq (List.filter (fun e => raw (subject (topic e)) =? id) all) with
          | [] => Ok None
          | relevant =>
              let r := foldl apply_event (unknown id) relevant in
              Ok (if visible t r then Some (Reconstructed r) else None)
          end
      end
  end.

Definition get_by_action (now : Instant) (m : M) (t : CapabilityToken) (s : ExplanationStore) (action : N) :
    Result (option ExplanationRecord) ExplainabilityError :=
  let? _ := require now m t READ in
  Ok (List.find (fun r => (action_id r =? action) && visible t r) (hash_iter (records s)).*2).

Definition begins_action (action : N) (e : Event (V := Json)) : option N :=
  match payload e with
  | ObjectRef _ _ => None
  | Inline p =>
      if bool_decide (as_str (json_index p (lit "kind")) = Some (lit "begin"))
         && bool_decide (as_u64 (json_index p (lit "action_id")) = Some action)
      then Some (raw (subject (topic e))) else None
  end.

(** The rights are checked again, at a later instant each time. *)
Definition get_or_reconstruct_by_action (now now2 now3 : Instant) (m : M) (t : CapabilityToken) (s : ExplanationStore)
    (action : N) : Result (option ExplanationLookup) ExplainabilityError :=
  let? found := get_by_action now m t s action in
  match found with
  | Some r => Ok (Some (Authoritative r))
  | None =>
      let? _ := require now2 m t READ in
      match events s with
      | None => Ok None
      | Some (b, sub) =>
          let? all := map_err (fun _ => NoSuchRecord) (replay_from from_value b sub 0) in
          match head (omap (begins_action action) all) with
          | Some id => get_or_reconstruct now3 m t s id
          | None => Ok None
          end
      end
  end.

Definition visible_where (now : Instant) (m : M) (t : CapabilityToken) (s : ExplanationStore) (P : ExplanationRecord -> bool) :
    Result (list ExplanationRecord) ExplainabilityError :=
  let? _ := require now m t READ in
  Ok (List.filter (fun r => P r && visible t r) (hash_iter (records s)).*2).

Definition trace_intent (now : Instant) (m : M) (t : CapabilityToken) (s : ExplanationStore) (intent : N) :=
  visible_where now m t s (fun r => triggering_intent_id r =? intent).

Definition later (x y : ExplanationRecord) : bool :=
  (created_at y <? created_at x) || ((created_at y =? created_at x) && (rec_id y <? rec_id x)).

Definition records_for_capability (now : Instant) (m : M) (t : CapabilityToken) (s : ExplanationStore) (cap : text) :
    Result (list ExplanationRecord) ExplainabilityError :=
  let? l := visible_where now m t s (fun r => bool_decide (rec_capability r = cap)) in
  Ok (sort_by later l).

Definition is_closed (st : ControlState) : bool := match st with Completed | RolledBack => true | _ => false end.

Definition incomplete (now : Instant) (m : M) (t : CapabilityToken) (s : ExplanationStore) :=
  visible_where now m t s (fun r => negb (is_closed (control_state r))).

Definition store_calibration_score (now : Instant) (m : M) (t : CapabilityToken) (s : ExplanationStore) (agent : N)
    (cap : text) : Result (option CalibrationScore) ExplainabilityError :=
  let? l := visible_where now m t s (fun _ => true) in
  Ok (calibration_score l agent cap).

(** *** render.rs *)

(** [{:.0}] of a float: the nearest whole number, ties to the even one. *)
Definition round_half_even (m : positive) (e : Z) : N :=
  if (0 <=? e)%Z then Z.to_N (Z.pos m * 2 ^ e)
  else
    let d := (2 ^ (- e))%Z in
    let q := (Z.pos m / d)%Z in
    let r := (Z.pos m mod d)%Z in
    Z.to_N (if (2 * r <? d)%Z then q else if (d <? 2 * r)%Z then q + 1 else if Z.even q then q else q + 1)%Z.

Definition sign_text (negative : bool) : text := if negative then lit "-" else [].

Definition fmt_0 (x : f32) : text :=
  match x with
  | SpecFloat.S754_nan => lit "NaN"
  | SpecFloat.S754_infinity s => sign_text s ++ lit "inf"
  | SpecFloat.S754_zero s => sign_text s ++ lit "0"
  | SpecFloat.S754_finite s m e => sign_text s ++ debug_u64 (round_half_even m e)
  end.

Definition headline_for (r : ExplanationRecord) : text :=
  let shown := match confidence r with
               | Some c => fmt_0 (f32_mul (conf_value c) (f32_of_N 100)) ++ lit "%"
               | None => lit "unknown"
               end in
  lit "Agent " ++ debug_u64 (agent_id r) ++ lit " used '" ++ rec_capability r ++ lit "' for intent "
  ++ debug_u64 (triggering_intent_id r) ++ lit " (" ++ debug_u64 (N.of_nat (length (reasoning_chain r)))
  ++ lit " step(s), confidence " ++ shown ++ lit ")".

Section render.
Context (now : Instant) (m : M) (t : CapabilityToken) (s : ExplanationStore).

(** The loop over a record's parents, given how one action is rendered. *)
Fixpoint parent_views (rendered : N -> option (Result (option ExplanationView) ExplainabilityError)) (ids : list N) :
    option (Result (list ExplanationView) ExplainabilityError) :=
  match ids with
  | [] => Some (Ok [])
  | p :: ids =>
      match get now m t s p with
      | Err e => Some (Err e)
      | Ok None => parent_views rendered ids
      | Ok (Some r) =>
          view ← rendered (action_id r);
          match view with
          | Err e => Some (Err e)
          | Ok view =>
              rest ← parent_views rendered ids;
              Some (let? rest := rest in Ok (match view with Some v => v :: rest | None => rest end))
          end
      end
  end.

(** [None] when the fuel does not suffice, which is how the code's own recursion
    would run out of stack. *)
Fixpoint resolve_why (fuel : nat) (action : N) (depth : Depth) :
    option (Result (option ExplanationView) ExplainabilityError) :=
  match fuel with
  | O => None
  | S fuel =>
      match get_or_reconstruct_by_action now now now m t s action with
      | Err e => Some (Err e)
      | Ok None => Some (Ok None)
      | Ok (Some found) =>
          let r := record found in
          match depth with
          | Headline => Some (Ok (Some (mkView (headline_for r) None [] (is_reconstructed found))))
          | Full =>
              parents ← parent_views (fun a => resolve_why fuel a Full) (parent_records r);
              Some (let? parents := parents in
                    Ok (Some (mkView (headline_for r) (Some r) parents (is_reconstructed found))))
          end
      end
  end.
End render.

(** ** What calls do to the records *)

(** The number of a record's next event is below 2^64. *)
Definition seq_room (s : ExplanationStore) (id : N) : Prop :=
  match events s with Some (b, _) => default 0 (next_seq b !! record_topic id) + 1 < two64 | None => True end.

(** One call after the other, with other users of the bus in between. [P] says
    what surrounds the calls, [Q] what others publish. *)
Section runs.
Context (P : Ambient -> M -> CapabilityToken -> Prop) (Q : Topic -> Prop).

Inductive bus_step (sub : N) : EventBus (V := Json) -> EventBus (V := Json) -> Prop :=
| bus_publish b now m t owner tp p anc ts io r b' :
    Q tp -> publish to_value now m t b owner tp p anc ts io = Some (r, b') -> bus_step sub b b'
| bus_subscribe b now m t owner p d bp opened r b' :
    next_sub_id b + 1 < two64 -> subscribe now m t b owner p d bp opened = (r, b') -> bus_step sub b b'
| bus_unsubscribe b i r b' : i <> sub -> unsubscribe b i = (r, b') -> bus_step sub b b'
| bus_ack b i sq r b' : ack b i sq = (r, b') -> bus_step sub b b'
| bus_recv b i r b' : try_recv b i = (r, b') -> bus_step sub b b'.

Inductive step : ExplanationStore -> ExplanationStore -> Prop :=
| step_action s : step s (next_action_id s).2
| step_begin env m t s action intent agent cap span now r s' :
    P env m t -> next_id s + 1 < two64 -> begin env m t s action intent agent cap span now = Some (r, s') -> step s s'
| step_append env m t s id st ev r s' :
    P env m t -> seq_room s id -> step_index st < two32 -> append_step env m t s id st ev = Some (r, s') -> step s s'
| step_confidence env m t s id c alts r s' : set_confidence env m t s id c alts = (r, s') -> step s s'
| step_undo env m t s id p r s' : attach_undo_ref env m t s id p = (r, s') -> step s s'
| step_link env m t s child parent r s' : link_parent env m t s child parent = (r, s') -> step s s'
| step_transition env m t s id st r s' : P env m t -> seq_room s id -> transition env m t s id st = Some (r, s') -> step s s'
| step_others s b sub b' : events s = Some (b, sub) -> bus_step sub b b' -> step s (with_bus s b' sub).
End runs.

(** A record as it may become: nothing said is unsaid. *)
Record grows (r r' : ExplanationRecord) : Prop := {
  gr_identity : (rec_id r', action_id r', triggering_intent_id r', agent_id r', rec_capability r', created_at r',
                 trust_boundary_span r', privacy_class r')
                = (rec_id r, action_id r, triggering_intent_id r, agent_id r, rec_capability r, created_at r,
                   trust_boundary_span r, privacy_class r);
  gr_chain : reasoning_chain r `prefix_of` reasoning_chain r';
  gr_evidence : evidence r `prefix_of` evidence r';
  gr_parents : parent_records r `prefix_of` parent_records r';
  gr_children : child_records r `prefix_of` child_records r'
}.

#[export] Instance grows_preorder : PreOrder grows.
Proof.
  split.
  - by intros r.
  - intros r r' r'' [H1' ? ? ? ?] [H2' ? ? ? ?]. split; [congruence|by etrans..].
Qed.

Lemma grows_push_step st ev r : grows r (push_step st ev r).
Proof. by split; simpl; try apply prefix_app_r. Qed.
Lemma grows_put_confidence c l r : grows r (put_confidence c l r).
Proof. by split. Qed.
Lemma grows_put_undo p r : grows r (put_undo p r).
Proof. by split. Qed.
Lemma grows_push_parent p r : grows r (push_parent p r).
Proof. by split; simpl; try apply prefix_app_r. Qed.
Lemma grows_push_child p r : grows r (push_child p r).
Proof. by split; simpl; try apply prefix_app_r. Qed.
Lemma grows_put_state st r : grows r (put_state st r).
Proof. by split. Qed.

(** What an operation that publishes keeps of the store. *)
Lemma publish_record_event_same env m t s id p s' :
  publish_record_event env m t s id p = Some s' ->
  records s' = records s /\ next_id s' = next_id s /\ next_action s' = next_action s.
Proof.
  unfold publish_record_event. destruct (events s) as [[b sub]|]; [|by intros [= <-]].
  destruct (publish _ _ _ _ _ _ _ _ _ _ _) as [[? b']|]; simpl; [|done]. by intros [= <-].
Qed.

(** What a call can have done to the records. *)
Inductive change (s s' : ExplanationStore) : Prop :=
| change_nothing : records s' = records s -> next_id s' = next_id s -> change s s'
| change_new r : rec_id r = next_id s -> parent_records r = [] -> child_records r = [] ->
    records s' = <[next_id s := r]> (records s) -> next_id s' = next_id s + 1 -> change s s'
| change_one id r r' : records s !! id = Some r -> grows r r' -> parent_records r' = parent_records r ->
    child_records r' = child_records r -> records s' = <[id := r']> (records s) -> next_id s' = next_id s -> change s s'
| change_link child parent r : records s !! child = Some r -> is_Some (records s !! parent) ->
    records s' = alter (push_child child) parent (<[child := push_parent parent r]> (records s)) ->
    next_id s' = next_id s -> change s s'.

Lemma mutate_change env m t s id f r s' :
  (forall x, grows x (f x) /\ parent_records (f x) = parent_records x /\ child_records (f x) = child_records x) ->
  mutate env m t s id f = (r, s') -> change s s'.
Proof.
  intros Hf. unfold mutate, with_record_mut. destruct (require _ _ _ _); [|intros [= _ <-]; by apply change_nothing].
  destruct (records s !! id) as [x|] eqn:Hx; intros [= _ <-]; [|by apply change_nothing].
  destruct (Hf x) as (Hg & Hp & Hc). by eapply change_one.
Qed.

(** The operations that also publish. *)
Lemma publishing_change env m t s id f p r s' :
  (forall x, grows x (f x) /\ parent_records (f x) = parent_records x /\ child_records (f x) = child_records x) ->
  match require (at_instant env) m t WRITE with
  | Err e => Some (Err e, s)
  | Ok _ =>
      match with_record_mut s id f with
      | Err e => Some (Err e, s)
      | Ok s => s ← publish_record_event env m t s id p; Some (Ok tt, s)
      end
  end = Some (r, s') -> change s s'.
Proof.
  intros Hf. unfold with_record_mut. destruct (require _ _ _ _); [|intros [= _ <-]; by apply change_nothing].
  destruct (records s !! id) as [x|] eqn:Hx; [|intros [= _ <-]; by apply change_nothing].
  destruct (publish_record_event _ _ _ _ _ _) as [s1|] eqn:Hp; simpl; [|done]. intros [= _ <-].
  apply publish_record_event_same in Hp as (Hr & Hn & _). destruct (Hf x) as (Hg & Hpar & Hc). by eapply change_one.
Qed.

Lemma begin_change env m t s action intent agent cap span now r s' :
  next_id s + 1 < two64 -> begin env m t s action intent agent cap span now = Some (r, s') -> change s s'.
Proof.
  intros Hroom. unfold begin. destruct (require _ _ _ _); [|intros [= _ <-]; by apply change_nothing].
  destruct (publish_record_event _ _ _ _ _ _) as [s1|] eqn:Hp; simpl; [|done]. intros [= _ <-].
  apply publish_record_event_same in Hp as (Hr & Hn & _). simpl in *.
  eapply change_new; [| | |by rewrite Hr|]; [done..|]. simpl. rewrite Hn. unfold u64_add. by rewrite N.mod_small.
Qed.

Lemma step_change P Q s s' : step P Q s s' -> change s s'.
Proof.
  intros [|? ? ? ? ? ? ? ? ? ? ? ? _ Hroom Hb|? ? ? ? ? ? ? ? ? _ _ _ Ha|? ? ? ? ? ? ? ? ? Hc|? ? ? ? ? ? ? ? Hu
         |? ? ? ? ? ? ? ? Hl|? ? ? ? ? ? ? ? _ _ Ht|? ? ? ? _ _].
  - by apply change_nothing.
  - by eapply begin_change.
  - eapply publishing_change, Ha. intros x. split; [apply grows_push_step|done].
  - eapply mutate_change, Hc. intros x. split; [apply grows_put_confidence|done].
  - eapply mutate_change, Hu. intros x. split; [apply grows_put_undo|done].
  - unfold link_parent, with_record_mut in Hl. destruct (require _ _ _ _); [|injection Hl as _ <-; by apply change_nothing].
    destruct (bool_decide_reflect (is_Some (records s0 !! parent))) as [Hp|_];
      [|injection Hl as _ <-; by apply change_nothing].
    destruct (records s0 !! child) as [x|] eqn:Hx; injection Hl as _ <-; [|by apply change_nothing].
    by eapply change_link.
  - eapply publishing_change, Ht. intros x. split; [apply grows_put_state|done].
  - by apply change_nothing.
Qed.

(** Records are filed under their own number, and parents know their children. *)
Record store_ok (s : ExplanationStore) : Prop := {
  so_ids : map_Forall (fun id r => rec_id r = id /\ id < next_id s) (records s);
  so_parents : forall c r p, records s !! c = Some r -> p ∈ parent_records r ->
    exists q, records s !! p = Some q /\ c ∈ child_records q;
  so_children : forall p q c, records s !! p = Some q -> c ∈ child_records q ->
    exists r, records s !! c = Some r /\ p ∈ parent_records r
}.

Definition all_grow (s s' : ExplanationStore) : Prop :=
  forall id r, records s !! id = Some r -> exists r', records s' !! id = Some r' /\ grows r r'.

Lemma change_grows s s' : change s s' -> store_ok s -> all_grow s s'.
Proof.
  intros Hc Hok id r Hr. destruct Hc as [-> _|r0 _ _ _ -> _|id0 r0 r1 H0' Hg _ _ -> _|child parent r0 H0' Hp -> _].
  - by exists r.
  - rewrite lookup_insert_ne; [by exists r|]. intros <-. destruct (so_ids _ Hok _ _ Hr). lia.
  - destruct (decide (id0 = id)) as [->|Hne].
    + rewrite lookup_insert_eq. exists r1. split; [done|]. by simplify_eq.
    + rewrite lookup_insert_ne by done. by exists r.
  - assert (Hone : exists r', <[child := push_parent parent r0]> (records s) !! id = Some r' /\ grows r r').
    { destruct (decide (child = id)) as [->|Hne]; [rewrite lookup_insert_eq|rewrite lookup_insert_ne by done].
      - eexists. split; [done|]. simplify_eq. apply grows_push_parent.
      - by exists r. }
    destruct Hone as (r' & Hr' & Hg). destruct (decide (parent = id)) as [->|Hne].
    + rewrite lookup_alter_eq, Hr'. eexists. split; [done|]. etrans; [done|]. apply grows_push_child.
    + rewrite lookup_alter_ne by done. by exists r'.
Qed.

(** What a link leaves at each record. *)
Lemma linked_lookup (l : gmap N ExplanationRecord) child parent r id x' :
  l !! child = Some r ->
  alter (push_child child) parent (<[child := push_parent parent r]> l) !! id = Some x' ->
  exists x, l !! id = Some x /\ rec_id x' = rec_id x
    /\ parent_records x' = parent_records x ++ (if decide (id = child) then [parent] else [])
    /\ child_records x' = child_records x ++ (if decide (id = parent) then [child] else []).
Proof.
  intros Hr Hx'.
  assert (Hone : forall y, <[child := push_parent parent r]> l !! id = Some y -> exists x, l !! id = Some x /\ rec_id y = rec_id x
    /\ parent_records y = parent_records x ++ (if decide (id = child) then [parent] else []) /\ child_records y = child_records x).
  { intros y Hy. destruct (decide (id = child)) as [->|Hne].
    - rewrite lookup_insert_eq in Hy. injection Hy as <-. by exists r.
    - rewrite lookup_insert_ne in Hy by done. exists y. by rewrite app_nil_r. }
  destruct (decide (id = parent)) as [->|Hne].
  - rewrite lookup_alter_eq in Hx'. apply fmap_Some in Hx' as (y & Hy & ->).
    destruct (Hone _ Hy) as (x & ? & ? & ? & Hc). exists x. simpl. by rewrite Hc.
  - rewrite lookup_alter_ne in Hx' by done. destruct (Hone _ Hx') as (x & ? & ? & ? & Hc). exists x. by rewrite app_nil_r.
Qed.

Lemma ok_new s s' r :
  store_ok s -> rec_id r = next_id s -> parent_records r = [] -> child_records r = [] ->
  records s' = <[next_id s := r]> (records s) -> next_id s' = next_id s + 1 -> store_ok s'.
Proof.
  intros [Hids Hpar Hchi] Hrid Hrp Hrc Hrec Hn.
  assert (Hne : forall i x, records s !! i = Some x -> <[next_id s := r]> (records s) !! i = Some x).
  { intros i x Hx. rewrite lookup_insert_ne; [done|]. intros <-. destruct (Hids _ _ Hx). lia. }
  split; rewrite Hrec, ?Hn.
  - apply map_Forall_insert_2; [split; [done|lia]|]. eapply map_Forall_impl; [exact Hids|]. simpl. intros ? ? []. split; [done|lia].
  - intros c x p Hc Hin. apply lookup_insert_Some in Hc as [[_ <-]|[_ Hc]]; [rewrite Hrp in Hin; set_solver|].
    destruct (Hpar _ _ _ Hc Hin) as (q & ?%Hne & ?). by exists q.
  - intros p q c Hq Hin. apply lookup_insert_Some in Hq as [[_ <-]|[_ Hq]]; [rewrite Hrc in Hin; set_solver|].
    destruct (Hchi _ _ _ Hq Hin) as (x & ?%Hne & ?). by exists x.
Qed.

Lemma ok_one s s' id r r' :
  store_ok s -> all_grow s s' -> records s !! id = Some r -> grows r r' -> parent_records r' = parent_records r ->
  child_records r' = child_records r -> records s' = <[id := r']> (records s) -> next_id s' = next_id s -> store_ok s'.
Proof.
  intros [Hids Hpar Hchi] Hgrow Hr Hg Hrp Hrc Hrec Hn.
  assert (Hsame : forall i x', records s' !! i = Some x' -> exists x, records s !! i = Some x /\ rec_id x' = rec_id x
      /\ parent_records x' = parent_records x /\ child_records x' = child_records x).
  { intros i x' Hx'. rewrite Hrec in Hx'. apply lookup_insert_Some in Hx' as [[<- <-]|[_ Hx']]; [|by exists x'].
    exists r. split_and!; try done. pose proof (gr_identity _ _ Hg). congruence. }
  assert (Hback : forall i x, records s !! i = Some x -> exists x', records s' !! i = Some x'
      /\ parent_records x' = parent_records x /\ child_records x' = child_records x).
  { intros i x Hx. destruct (Hgrow _ _ Hx) as (x' & Hx' & _). exists x'. split; [done|].
    destruct (Hsame _ _ Hx') as (y & Hy & _ & ? & ?). by simplify_eq. }
  split.
  - intros i x' Hx'. destruct (Hsame _ _ Hx') as (x & Hx & -> & _). rewrite Hn. by apply Hids.
  - intros c x' p (x & Hx & _ & -> & _)%Hsame Hin. destruct (Hpar _ _ _ Hx Hin) as (q & (q' & ? & _ & Hc)%Hback & ?).
    exists q'. by rewrite Hc.
  - intros p q' c (q & Hq & _ & _ & ->)%Hsame Hin. destruct (Hchi _ _ _ Hq Hin) as (x & (x' & ? & Hc & _)%Hback & ?).
    exists x'. by rewrite Hc.
Qed.

Lemma ok_link s s' child parent r :
  store_ok s -> all_grow s s' -> records s !! child = Some r -> is_Some (records s !! parent) ->
  records s' = alter (push_child child) parent (<[child := push_parent parent r]> (records s)) ->
  next_id s' = next_id s -> store_ok s'.
Proof.
  intros [Hids Hpar Hchi] Hgrow Hr [rp Hp] Hrec Hn.
  assert (Hlk : forall i x', records s' !! i = Some x' -> _)
    by (intros i x' Hx'; rewrite Hrec in Hx'; exact (linked_lookup _ _ _ _ _ _ Hr Hx')).
  split.
  - intros i x' Hx'. destruct (Hlk _ _ Hx') as (x & Hx & -> & _). rewrite Hn. by apply Hids.
  - intros c x' p Hx' Hin. destruct (Hlk _ _ Hx') as (x & Hx & _ & Hp' & _). rewrite Hp' in Hin.
    apply elem_of_app in Hin as [Hin|Hin].
    + destruct (Hpar _ _ _ Hx Hin) as (q & (q' & Hq' & Hgq)%Hgrow & Hc). exists q'. split; [done|].
      eapply elem_of_prefix; [exact Hc|]. apply Hgq.
    + case_decide; [|set_solver]. apply list_elem_of_singleton in Hin as ->. subst c.
      destruct (Hgrow _ _ Hp) as (q' & Hq' & _). exists q'. split; [done|]. destruct (Hlk _ _ Hq') as (q & _ & _ & _ & ->).
      rewrite decide_True by done. set_solver.
  - intros p q' c Hq' Hin. destruct (Hlk _ _ Hq') as (q & Hq & _ & _ & Hc'). rewrite Hc' in Hin.
    apply elem_of_app in Hin as [Hin|Hin].
    + destruct (Hchi _ _ _ Hq Hin) as (x & (x' & Hx' & Hgx)%Hgrow & Hpx). exists x'. split; [done|].
      eapply elem_of_prefix; [exact Hpx|]. apply Hgx.
    + case_decide; [|set_solver]. apply list_elem_of_singleton in Hin as ->. subst p.
      destruct (Hgrow _ _ Hr) as (x' & Hx' & _). exists x'. split; [done|]. destruct (Hlk _ _ Hx') as (x & _ & _ & -> & _).
      rewrite decide_True by done. set_solver.
Qed.

Lemma change_ok s s' : change s s' -> store_ok s -> store_ok s'.
Proof.
  intros Hch Hok. pose proof (change_grows _ _ Hch Hok) as Hgrow. destruct Hch as [Hrec Hn| | |].
  - destruct Hok. by split; rewrite Hrec, ?Hn.
  - by eapply ok_new.
  - by eapply ok_one.
  - by eapply ok_link.
Qed.

Lemma steps_ok P Q s s' : rtc (step P Q) s s' -> store_ok s -> store_ok s' /\ all_grow s s'.
Proof.
  induction 1 as [s|s s1 s2 Hst%step_change _ IH]; intros Hok.
  - split; [done|]. intros id r Hr. by exists r.
  - pose proof (change_grows _ _ Hst Hok) as Hg. destruct (IH (change_ok _ _ Hst Hok)) as [Hok2 Hg2]. split; [done|].
    intros id r Hr. destruct (Hg _ _ Hr) as (r1 & (r2 & ? & ?)%Hg2 & ?). exists r2. split; [done|]. by etrans.
Qed.

Lemma new_ok b : store_ok (mkStore ∅ 1 1 b).
Proof. by split. Qed.

(** ** The log of a store *)

(** What a record's events tell of it. *)
Definition core_step (st : ReasoningStep) : ReasoningStep :=
  mkStep (step_index st) (description st) (step_capability st) [] None.
Definition core (r : ExplanationRecord) : ExplanationRecord :=
  mkExplanation (rec_id r) (action_id r) (triggering_intent_id r) (agent_id r) (rec_capability r) (created_at r)
    (core_step <$> reasoning_chain r) [] None [] None (trust_boundary_span r) None [] [] (control_state r).

Definition about (id : N) (e : Event (V := Json)) : bool := raw (subject (topic e)) =? id.

Lemma omap_numbers (l : list N) : omap as_u64 (JNumber <$> l) = l.
Proof. induction l as [|n l IH]; [done|]. simpl. by f_equal. Qed.

Lemma apply_begin id e action intent agent cap span now :
  payload e = Inline (begin_event action intent agent cap span now) ->
  apply_event (unknown id) e
  = core (mkExplanation id action intent agent cap now [] [] None [] None span None [] [] Proposed).
Proof.
  intros Hp. unfold apply_event. rewrite Hp. unfold begin_event, json_index, u64_of. simpl.
  unfold core. simpl. f_equal. apply omap_numbers.
Qed.

Lemma apply_step r e st ev :
  payload e = Inline (step_event st) -> step_index st < two32 -> apply_event (core r) e = core (push_step st ev r).
Proof.
  intros Hp Hidx. unfold apply_event. rewrite Hp. unfold step_event, json_index, u64_of.
  destruct st as [i d [c|] ins out]; simpl in *; unfold push_step, core; simpl; by rewrite N.mod_small, fmap_app by done.
Qed.

Lemma apply_transition r e st :
  payload e = Inline (transition_event st) -> apply_event (core r) e = core (put_state st r).
Proof. intros Hp. unfold apply_event. rewrite Hp. by destruct st. Qed.

(** The store's mailbox and what was delivered to it. *)
Definition kept (b : EventBus (V := Json)) (sub : N) (del : list (Event (V := Json))) : Prop :=
  sub ∈ subscriptions b /\ sub < next_sub_id b
  /\ exists st, mailboxes b !! sub = Some st /\ pattern st = KindScoped Custom /\ backpressure st = Durable
     /\ log_inv to_value None st del.

Definition next_event (b : EventBus (V := Json)) (tp : Topic) (p : EventPayload) (anc : list N) (ts : N) : Event (V := Json) :=
  mkEvent tp (u64_add (default 0 (next_seq b !! tp)) 1) ts p anc.

Lemma publish_kept now m t b owner tp p anc ts io r b' sub del :
  publish to_value now m t b owner tp p anc ts io = Some (r, b') -> kept b sub del ->
  (kind tp = Custom -> io sub = Written) ->
  b' = b /\ (authorize now m t WRITE = Ok tt -> origin t <> owner)
  \/ kept b' sub (del ++ (if decide (kind tp = Custom) then [next_event b tp p anc ts] else []))
     /\ next_seq b' = <[tp := seq (next_event b tp p anc ts)]> (next_seq b).
Proof.
  intros Hp (Hsub & Hlt & st & Hst & Hpat & Hbp & Hlog) Hio. unfold publish, authorize_publish in Hp.
  destruct (authorize now m t WRITE) as [[]|] eqn:Ha; cbn [map_err negb] in Hp; [|injection Hp as _ <-; by left].
  destruct (N.eqb_spec (origin t) owner) as [Ho|Ho]; cbn [negb] in Hp; [|injection Hp as _ <-; by left].
  right. destruct (publish_begin b tp p anc ts) as [[e ids] b1] eqn:Hb. pose proof (publish_targets _ _ _ _ _ _ _ _ Hb) as [Hnd Hids].
  assert (He : e = next_event b tp p anc ts) by (unfold publish_begin in Hb; injection Hb as <- _ _; done).
  assert (b1 = mkBus (subscriptions b) (mailboxes b) (<[tp := seq e]> (next_seq b)) (next_sub_id b) (durable_dir b))
    as -> by (unfold publish_begin in Hb; injection Hb as <- _ <-; done).
  destruct (deliver_all _ _ _ _ _) as [b2|] eqn:Hd; simpl in Hp; [|done]. injection Hp as _ <-.
  destruct (deliver_all_Some _ _ _ _ _ _ Hnd Hd) as (Hs & Hq & Hn & _ & Hm). simpl in *. rewrite Hq, He. split; [|done].
  split; [by rewrite Hs|]. split; [by rewrite Hn|]. specialize (Hm sub). specialize (Hids sub). rewrite Hst in Hm. simpl in Hm.
  assert (Hmatch : matches (pattern st) e = bool_decide (kind tp = Custom)) by (by rewrite Hpat, He).
  destruct (decide (kind tp = Custom)) as [Hk|Hk].
  - rewrite decide_True in Hm by (apply Hids; exists st; rewrite Hmatch; by rewrite bool_decide_true).
    rewrite Hio in Hm by done. destruct (deliver to_value st e Written) as [st'|] eqn:Hdel.
    2:{ apply deliver_None in Hdel as [? _]. congruence. }
    exists st'. pose proof (deliver_settings _ _ _ _ _ Hdel) as (Hp' & Hb' & _). rewrite Hp', Hb'.
    split_and!; [done..|]. rewrite <- He. by eapply deliver_log_inv.
  - rewrite decide_False in Hm.
    2:{ intros (st0 & ? & _ & Hf)%Hids. simplify_eq. rewrite Hmatch, bool_decide_false in Hf; done. }
    exists st. by rewrite app_nil_r.
Qed.

(** Nobody else publishes events of the store's kind. *)
Definition not_custom (tp : Topic) : Prop := kind tp <> Custom.

Lemma bus_step_kept sub b b' del :
  bus_step not_custom sub b b' -> kept b sub del ->
  kept b' sub del /\ forall id, next_seq b' !! record_topic id = next_seq b !! record_topic id.
Proof.
  intros Hs Hk. destruct Hs as [b now m t owner tp p anc ts io r b' Hq Hp|b now m t owner p d bp opened r b' Hroom Hsb
                               |b i r b' Hne Hu|b i sq r b' Hack|b i r b' Hrecv].
  - unfold not_custom in Hq. destruct (publish_kept _ _ _ _ _ _ _ _ _ _ _ _ _ _ Hp Hk) as [[-> _]|[Hk' ->]]; [done|done|].
    rewrite decide_False, app_nil_r in Hk' by done. split; [done|]. intros id. apply lookup_insert_ne. by intros ->.
  - pose proof Hk as (Hsub & Hlt & st & Hst & Hrest). unfold subscribe in Hsb.
    destruct (negb _); [by injection Hsb as _ <-|]. destruct (authorize_subscribe _ _ _ _ _); [|by injection Hsb as _ <-].
    assert (Hup : u64_add (next_sub_id b) 1 = next_sub_id b + 1) by (unfold u64_add; by rewrite N.mod_small).
    destruct (if bool_decide (bp = Durable) then _ else _) as [wal|] eqn:Hw; injection Hsb as _ <-; (split; [|done]);
      (split; [set_solver|]); cbn [next_sub_id mailboxes]; (split; [lia|]); exists st; (split; [|done]); [|done].
    rewrite lookup_insert_ne by lia. done.
  - pose proof Hk as (Hsub & Hrest). unfold unsubscribe in Hu. case_bool_decide; injection Hu as _ <-; [|done].
    split; [|done]. split; [set_solver|done].
  - pose proof Hk as (Hsub & Hlt & st & Hst & Hpat & Hbp & Hlog). unfold ack in Hack.
    destruct (mailbox_of b i) as [st0|] eqn:Hm; [|by injection Hack as _ <-]. apply mailbox_of_ok in Hm as [_ Hm].
    case_bool_decide; injection Hack as _ <-; [done|]. split; [|done]. do 2 (split; [done|]). simpl.
    destruct (decide (i = sub)) as [->|Hne]; [|rewrite lookup_insert_ne by done; by exists st].
    simplify_eq. rewrite lookup_insert_eq. by eexists.
  - pose proof Hk as (Hsub & Hlt & st & Hst & Hpat & Hbp & Hlog). unfold try_recv in Hrecv.
    destruct (mailboxes b !! i) as [st0|] eqn:Hm; simpl in Hrecv; [|by injection Hrecv as _ <-].
    destruct (take_ready st0) as [[e st1]|] eqn:Ht; injection Hrecv as _ <-; [|done].
    split; [|done]. do 2 (split; [done|]). simpl.
    destruct (decide (i = sub)) as [->|Hne]; [|rewrite lookup_insert_ne by done; by exists st].
    simplify_eq. rewrite lookup_insert_eq. destruct (take_ready_settings _ _ _ Ht) as (Hp' & Hb' & _).
    exists st1. rewrite Hp', Hb'. split_and!; [done..|]. by eapply take_log_inv.
Qed.

(** What a record's events say, in order, is what is known of it. *)
Record told (s : ExplanationStore) (b : EventBus (V := Json)) (id : N) (evs : list (Event (V := Json))) : Prop := {
  td_numbers : seq <$> evs = (fun i => N.of_nat i) <$> List.seq 1 (length evs);
  td_next : default 0 (next_seq b !! record_topic id) = N.of_nat (length evs);
  td_record : match records s !! id with
              | Some r => evs <> [] /\ foldl apply_event (unknown id) evs = core r
              | None => evs = []
              end
}.

Definition logged (s : ExplanationStore) : Prop :=
  exists b sub del, events s = Some (b, sub) /\ kept b sub del /\ forall id, told s b id (List.filter (about id) del).

(** Storage works, and the token is still good when the event is published. *)
Definition good (env : Ambient) (m : M) (t : CapabilityToken) : Prop :=
  (forall id, write_io env id = Written) /\ authorize (at_publish env) m t WRITE = Ok tt.

(** One published event of the store: [r'] is what it makes of the record. *)
Lemma publish_told env m t s s1 s' id p r' :
  publish_record_event env m t s1 id p = Some s' -> good env m t -> events s1 = events s -> logged s -> seq_room s id ->
  (forall i, records s1 !! i = if decide (i = id) then Some r' else records s !! i) ->
  (forall e, payload e = Inline p ->
     apply_event (match records s !! id with Some r => core r | None => unknown id end) e = core r') ->
  logged s'.
Proof.
  intros Hp [Hio Ha] Hev (b & sub & del & Hs & Hk & Htold) Hroom Hrec Happ.
  unfold publish_record_event, seq_room in *. rewrite Hev, Hs in *.
  destruct (publish _ _ _ _ _ _ _ _ _ _ _) as [[ro b']|] eqn:Hpub; simpl in Hp; [|done]. injection Hp as <-.
  destruct (publish_kept _ _ _ _ _ _ _ _ _ _ _ _ _ _ Hpub Hk) as [[_ Hno]|[Hk' Hq]]; [by intros _; apply Hio|by destruct (Hno Ha)|].
  rewrite decide_True in Hk' by done. set (e := next_event b (record_topic id) (Inline p) [] (at_wall env)) in *.
  exists b', sub, (del ++ [e]). split; [done|]. split; [done|]. intros i. destruct (Htold i) as [Hnum Hnext Hr].
  rewrite List.filter_app. simpl. unfold about at 2. simpl.
  destruct (N.eqb_spec id i) as [<-|Hne].
  - split.
    + rewrite fmap_app, length_app, List.seq_app, fmap_app, Hnum. simpl. do 2 f_equal. unfold e, next_event. simpl. rewrite Hnext in *.
      unfold u64_add. rewrite N.mod_small by done. lia.
    + rewrite Hq, lookup_insert_eq, length_app. simpl. rewrite Hnext in *. unfold u64_add. rewrite N.mod_small by done. lia.
    + simpl. rewrite Hrec, decide_True by done. split; [by intros []%app_nil|]. rewrite foldl_app. simpl.
      rewrite <- (Happ e eq_refl). f_equal. destruct (records s !! id) as [r|]; [by apply Hr|]. by rewrite Hr.
  - rewrite app_nil_r. split; [done| |].
    + rewrite Hq, lookup_insert_ne; [done|]. by intros [=].
    + simpl. by rewrite Hrec, decide_False by done.
Qed.

(** A change that is not published and leaves what the events tell. *)
Lemma logged_same s s' :
  events s' = events s -> (forall id, core <$> records s' !! id = core <$> records s !! id) -> logged s -> logged s'.
Proof.
  intros He Hr (b & sub & del & Hs & Hk & Htold). exists b, sub, del. rewrite He. do 2 (split; [done|]).
  intros id. destruct (Htold id) as [Hn Hx Hrec]. split; [done..|]. specialize (Hr id).
  destruct (records s' !! id), (records s !! id); simpl in Hr; [|done..]. apply (inj Some) in Hr. by rewrite Hr.
Qed.

Lemma core_insert (l : gmap N ExplanationRecord) id r r' i :
  l !! id = Some r -> core r' = core r -> core <$> <[id := r']> l !! i = core <$> l !! i.
Proof.
  intros Hl Hc. destruct (decide (i = id)) as [->|Hne]; [|by rewrite lookup_insert_ne by done].
  rewrite lookup_insert_eq, Hl. simpl. by rewrite Hc.
Qed.

Lemma mutate_logged env m t s id f r s' :
  (forall x, core (f x) = core x) -> mutate env m t s id f = (r, s') -> logged s -> logged s'.
Proof.
  intros Hf. unfold mutate, with_record_mut. destruct (require _ _ _ _); [|by intros [= _ <-]].
  destruct (records s !! id) as [x|] eqn:Hx; intros [= _ <-]; [|done].
  apply logged_same; [done|]. intros i. by eapply core_insert.
Qed.

Lemma publishing_logged env m t s id f p r s' :
  (forall x e, payload e = Inline p -> apply_event (core x) e = core (f x)) ->
  good env m t -> seq_room s id ->
  match require (at_instant env) m t WRITE with
  | Err e => Some (Err e, s)
  | Ok _ =>
      match with_record_mut s id f with
      | Err e => Some (Err e, s)
      | Ok s => s ← publish_record_event env m t s id p; Some (Ok tt, s)
      end
  end = Some (r, s') -> logged s -> logged s'.
Proof.
  intros Hf Hg Hroom. unfold with_record_mut. destruct (require _ _ _ _); [|by intros [= _ <-]].
  destruct (records s !! id) as [x|] eqn:Hx; [|by intros [= _ <-]].
  destruct (publish_record_event _ _ _ _ _ _) as [s1|] eqn:Hp; simpl; [|done]. intros [= _ <-] Hl.
  eapply (publish_told _ _ _ s _ _ _ _ (f x)); [exact Hp|done..| |].
  - intros i. simpl. destruct (decide (i = id)) as [->|]; [by rewrite lookup_insert_eq|by rewrite lookup_insert_ne].
  - rewrite Hx. apply Hf.
Qed.

Lemma begin_logged env m t s action intent agent cap span now r s' :
  good env m t -> next_id s + 1 < two64 -> store_ok s ->
  begin env m t s action intent agent cap span now = Some (r, s') -> logged s -> logged s'.
Proof.
  intros Hg Hroom Hok. unfold begin. destruct (require _ _ _ _); [|by intros [= _ <-]].
  destruct (publish_record_event _ _ _ _ _ _) as [s1|] eqn:Hp; simpl; [|done]. intros [= _ <-] Hl.
  assert (Hfresh : records s !! next_id s = None).
  { destruct (records s !! next_id s) as [x|] eqn:Hx; [|done]. destruct (so_ids _ Hok _ _ Hx). lia. }
  set (new_record := mkExplanation _ _ _ _ _ _ _ _ _ _ _ _ _ _ _ _).
  assert (Hp' : publish_record_event env m t (mkStore (<[next_id s := new_record]> (records s)) (u64_add (next_id s) 1) (next_action s) (events s))
                  (next_id s) (begin_event action intent agent cap (span_with span (origin t)) now)
                = Some (with_records s1 (<[next_id s := new_record]> (records s1)))).
  { pose proof (publish_record_event_same _ _ _ _ _ _ _ Hp) as (Hr & _). simpl in Hr. rewrite Hr.
    unfold publish_record_event in *. simpl in *. destruct (events s) as [[b sub]|]; [|by injection Hp as <-].
    destruct (publish _ _ _ _ _ _ _ _ _ _ _) as [[? b']|]; simpl in *; [|done]. by injection Hp as <-. }
  eapply (publish_told _ _ _ s _ _ _ _ new_record); [exact Hp'|done..| | |].
  - destruct Hl as (b & sub & del & Hs & _ & Htold). unfold seq_room. rewrite Hs. destruct (Htold (next_id s)) as [_ Hn Hr].
    rewrite Hfresh in Hr. rewrite Hn, Hr. done.
  - intros i. simpl. destruct (decide (i = next_id s)) as [->|]; [by rewrite lookup_insert_eq|by rewrite lookup_insert_ne].
  - rewrite Hfresh. intros e He. by rewrite (apply_begin _ _ _ _ _ _ _ _ He).
Qed.

Lemma link_logged env m t s child parent r s' : link_parent env m t s child parent = (r, s') -> logged s -> logged s'.
Proof.
  unfold link_parent, with_record_mut. destruct (require _ _ _ _); [|by intros [= _ <-]].
  case_bool_decide; [|by intros [= _ <-]]. destruct (records s !! child) as [x|] eqn:Hx; intros [= _ <-]; [|done].
  apply logged_same; [done|]. intros i. simpl. rewrite <- (core_insert _ _ _ (push_parent parent x) i Hx) by done.
  destruct (decide (i = parent)) as [->|Hne]; [|by rewrite lookup_alter_ne].
  rewrite lookup_alter_eq, <- option_fmap_compose. by apply option_fmap_ext.
Qed.

Lemma step_logged s s' : step good not_custom s s' -> store_ok s -> logged s -> logged s'.
Proof.
  intros [|? ? ? ? ? ? ? ? ? ? ? ? Hg Hroom Hb|? ? ? ? ? ? ? ? ? Hg Hroom Hi Ha|? ? ? ? ? ? ? ? ? Hc|? ? ? ? ? ? ? ? Hu
         |? ? ? ? ? ? ? ? Hl|? ? ? ? ? ? ? ? Hg Hroom Ht|? b sub b' He Hbs] Hok Hlog.
  - by eapply logged_same, Hlog.
  - by eapply begin_logged.
  - eapply publishing_logged; [|exact Hg|exact Hroom|exact Ha|done]. intros x e He. by apply apply_step.
  - eapply mutate_logged; [|exact Hc|done]. done.
  - eapply mutate_logged; [|exact Hu|done]. done.
  - by eapply link_logged.
  - eapply publishing_logged; [|exact Hg|exact Hroom|exact Ht|done]. intros x e He. by apply apply_transition.
  - destruct Hlog as (b0 & sub0 & del & Hs & Hk & Htold). simplify_eq.
    destruct (bus_step_kept _ _ _ _ Hbs Hk) as [Hk' Hq]. exists b', sub, del. do 2 (split; [done|]). intros id.
    destruct (Htold id) as [Hn Hx Hr]. split; [done| |done]. by rewrite Hq.
Qed.

(** ** Putting lost records together again *)

(** A store on a bus on which nothing of its kind was published, with an empty log. *)
Definition fresh (s : ExplanationStore) : Prop :=
  exists now m admin b opened b', with_events now m admin new b opened = (Ok s, b')
    /\ next_sub_id b + 1 < two64 /\ (forall tp, kind tp = Custom -> next_seq b !! tp = None)
    /\ (d ← durable_dir b; d !! next_sub_id b) = None.

(** The mailbox a durable subscription starts with. *)
Lemma with_events_Ok now m admin s b opened s' b' :
  with_events now m admin s b opened = (Ok s', b') ->
  exists dir, durable_dir b = Some dir
    /\ b' = mkBus ({[next_sub_id b]} ∪ subscriptions b)
              (<[next_sub_id b := mkSub (KindScoped Custom) AtLeastOnce Durable admin [] ∅ 0 0
                                    (Some (open_for_append (dir !! next_sub_id b)))]> (mailboxes b))
              (next_seq b) (u64_add (next_sub_id b) 1) (durable_dir b)
    /\ s' = with_bus s b' (next_sub_id b).
Proof.
  unfold with_events. destruct (subscribe _ _ _ _ _ _ _ _ _) as [[sub|] b1] eqn:Hs; intros [= <- <-].
  unfold subscribe in Hs. simpl in Hs. destruct (authorize_subscribe _ _ _ _ _); [|done].
  destruct (durable_dir b) as [dir|]; [|done]. destruct opened; [|done]. injection Hs as <- <-. by exists dir.
Qed.

Lemma fresh_logged s : fresh s -> store_ok s /\ logged s.
Proof.
  intros (now & m & admin & b & opened & b' & (dir & Hd & -> & ->)%with_events_Ok & Hroom & Hseq & Hold).
  split; [apply new_ok|]. rewrite Hd in Hold. simpl in Hold. eexists _, _, []. split; [done|]. split.
  - split; [set_solver|]. split.
    + simpl. unfold u64_add. rewrite N.mod_small by done. lia.
    + eexists. simpl. rewrite lookup_insert_eq. split; [done|]. do 2 (split; [done|]).
      eexists. split; [done|]. split; [done|]. rewrite Hold. simpl. intros rs0 Hlog. by rewrite app_nil_r.
  - intros id. split; [done| |done]. simpl. by rewrite Hseq.
Qed.

Lemma run_logged s s' :
  rtc (step good not_custom) s s' -> store_ok s /\ logged s -> store_ok s' /\ logged s'.
Proof.
  induction 1 as [|s s1 s2 Hst _ IH]; [done|]. intros [Hok Hlog]. apply IH.
  split; [eapply change_ok; [by eapply step_change|done]|by eapply step_logged].
Qed.

(** A mailbox whose log holds some events. *)
Definition holds (b : EventBus (V := Json)) (sub : N) (evs : list (Event (V := Json))) : Prop :=
  sub ∈ subscriptions b /\ exists st w who, mailboxes b !! sub = Some st /\ backpressure st = Durable
    /\ durable_wal st = Some w /\ log None (file w) (durable_record to_value who <$> evs).

Definition log_file (s : ExplanationStore) : option (list N) :=
  '(b, sub) ← events s; st ← mailboxes b !! sub; file <$> durable_wal st.

Lemma kept_holds b sub del : kept b sub del -> holds b sub del.
Proof.
  intros (Hs & _ & st & Hst & _ & Hbp & Hlog). split; [done|]. unfold log_inv in Hlog. rewrite Hbp in Hlog.
  destruct Hlog as (w & Hw & _ & Hl). exists st, w, (origin (holder st)). do 3 (split; [done|]). apply (Hl []). constructor.
Qed.

Lemma replay_holds b sub evs since :
  (forall e, from_value (to_value e) = Some e) -> holds b sub evs ->
  replay_from from_value b sub since = Ok (sort_by_key seq (List.filter (fun e => since <? seq e) evs)).
Proof.
  intros Hj (Hsub & st & w & who & Hst & Hbp & Hw & Hlog). unfold replay_from.
  rewrite (proj2 (mailbox_of_ok b sub st)) by done. rewrite Hbp, Hw.
  change (file <$> Some w) with (Some (file w)). unfold replay.
  rewrite (log_replay _ _ _ Hlog), bool_decide_false by (by intros []). cbn [map_err].
  by rewrite (omap_stored to_value from_value who evs Hj).
Qed.

Lemma numbered_sorted (l : list (Event (V := Json))) k :
  seq <$> l = N.of_nat <$> List.seq k (length l) -> StronglySorted (key_le seq) l.
Proof.
  revert k. induction l as [|e l IH]; [constructor|]. intros k Hk. cbn [length List.seq] in Hk.
  rewrite !fmap_cons in Hk. injection Hk as He Hk. change (seq <$> l = N.of_nat <$> List.seq (S k) (length l)) in Hk.
  constructor; [by eapply IH|]. assert (Forall (fun n => seq e <= n) (seq <$> l)) as Hall.
  { rewrite Hk. apply Forall_fmap, Forall_forall. intros i Hi%elem_of_seq. simpl. lia. }
  exact (proj1 (Forall_fmap seq (fun n => seq e <= n) l) Hall).
Qed.

(** Numbered from one on, events are in order and none is left out. *)
Lemma numbered_replay (evs : list (Event (V := Json))) id :
  seq <$> List.filter (about id) evs = N.of_nat <$> List.seq 1 (length (List.filter (about id) evs)) ->
  sort_by_key seq (List.filter (about id) (sort_by_key seq (List.filter (fun e => 0 <? seq e) evs))) = List.filter (about id) evs.
Proof.
  intros Hnum. rewrite filter_sort_by_key.
  assert (Hpos : List.filter (about id) (List.filter (fun e => 0 <? seq e) evs) = List.filter (about id) evs).
  { assert (Hall : Forall (fun n => 0 < n) (seq <$> List.filter (about id) evs)).
    { rewrite Hnum. apply Forall_fmap, Forall_forall. intros i Hi%elem_of_seq. simpl. lia. }
    clear Hnum. induction evs as [|e evs IH]; [done|]. simpl in *. destruct (about id e) eqn:Ha; simpl in *.
    - apply Forall_cons in Hall as [He Hall]. apply N.ltb_lt in He. rewrite He. simpl. rewrite Ha. f_equal. by apply IH.
    - destruct (0 <? seq e); simpl; rewrite ?Ha; by apply IH. }
  rewrite Hpos. pose proof (numbered_sorted _ _ Hnum) as Hs.
  by rewrite !sort_by_key_id by (rewrite ?sort_by_key_id; done).
Qed.

Lemma visible_core t r : visible t (core r) = visible t r.
Proof. done. Qed.

(** What a store without records of its own makes of a log. *)
Lemma reconstruct_told now m t s s2 b2 sub2 b del id :
  (forall e, from_value (to_value e) = Some e) -> authorize now m t READ = Ok tt ->
  records s2 = ∅ -> events s2 = Some (b2, sub2) -> holds b2 sub2 del -> told s b id (List.filter (about id) del) ->
  get_or_reconstruct now m t s2 id
  = Ok (r ← records s !! id; if visible t r then Some (Reconstructed (core r)) else None).
Proof.
  intros Hj Ha Hrec Hev Hh [Hnum _ Hr]. unfold get_or_reconstruct, get, require. rewrite Ha, Hrec, Hev. simpl.
  rewrite (replay_holds _ _ _ 0 Hj Hh). cbn [map_err].
  change (fun e : Event => raw (subject (topic e)) =? id) with (about id). rewrite numbered_replay by exact Hnum.
  destruct (records s !! id) as [r|]; simpl; [|by rewrite Hr].
  destruct Hr as [Hne Hfold]. destruct (List.filter (about id) del) as [|e evs]; [done|].
  change (foldl apply_event (apply_event (unknown id) e) evs = core r) in Hfold. cbn [foldl]. by rewrite Hfold, visible_core.
Qed.

(** *** Theorems *)

(** Explanations are kept. Whatever calls are made, by whom and in whatever
    order, a record once opened stays, says of whom, of what and when it was for
    ever, shows itself to the same trust boundaries, and only adds to its steps,
    its evidence and its links; records are filed under their own numbers, and
    parents and children name each other. *)
Theorem records_are_append_only P Q s s' :
  fresh s -> rtc (step P Q) s s' ->
  store_ok s' /\ forall s'', rtc (step P Q) s' s'' -> all_grow s' s''.
Proof.
  intros [Hok _]%fresh_logged Hr. destruct (steps_ok _ _ _ _ Hr Hok) as [Hok' _]. split; [done|].
  intros s'' Hr'. by apply (steps_ok _ _ _ _ Hr').
Qed.

(** C33. What is lost with the process comes back. Say the old store subscribed to a new
    log and was used one call at a time, storage always worked, tokens did not expire in
    the middle of a call, and nobody else published events of the store's kind. Then a new
    store that subscribes first on a bus over the same directory gives, for every record
    of the old one, its identity, its steps in order and its state to exactly the trust
    boundaries that could see it, marked as reconstructed, and nothing for any other
    number. (Forged events and logs of two runs do harm:
    [ExplainExample.forged_opening_discloses], [ExplainExample.runs_are_mixed].) *)
Theorem lost_records_return s0 s :
  (forall e, from_value (to_value e) = Some e) -> fresh s0 -> rtc (step good not_custom) s0 s ->
  is_Some (log_file s)
  /\ forall dir now m admin opened s2 b2,
       dir !! 1 = log_file s -> with_events now m admin new (Events.new (Some dir)) opened = (Ok s2, b2) ->
       forall now m t id, authorize now m t READ = Ok tt ->
       get_or_reconstruct now m t s2 id
       = Ok (r ← records s !! id; if visible t r then Some (Reconstructed (core r)) else None).
Proof.
  intros Hj Hf Hr. destruct (run_logged _ _ Hr (fresh_logged _ Hf)) as [_ (b & sub & del & Hev & Hk & Htold)].
  apply kept_holds in Hk as (_ & st & w & who & Hst & Hbp & Hw & Hlog).
  assert (Hfile : log_file s = Some (file w)) by (unfold log_file; rewrite Hev; simpl; rewrite Hst; simpl; by rewrite Hw).
  rewrite Hfile. split; [by eexists|]. intros dir now m admin opened s2 b2 Hdir (dir' & [= <-] & -> & ->)%with_events_Ok.
  intros now' m' t id Ha. eapply reconstruct_told; [done|done|done|reflexivity| |apply Htold].
  split; [set_solver|]. simpl. rewrite lookup_insert_eq. eexists _, _, who. split; [done|]. do 2 (split; [done|]).
  simpl. by rewrite Hdir.
Qed.

Section rendering.
Context (now : Instant) (m : M) (t : CapabilityToken) (s : ExplanationStore).

Abbreviation Rendered := (N -> option (Result (option ExplanationView) ExplainabilityError)).

Lemma get_Some p r : get now m t s p = Ok (Some r) -> records s !! p = Some r /\ visible t r = true.
Proof.
  unfold get. destruct (require _ _ _ _); [|done]. simpl. destruct (records s !! p) as [x|]; simpl; [|done].
  destruct (visible t x) eqn:Hv; [|done]. by intros [= <-].
Qed.

Lemma parent_views_total (rendered : Rendered) ids :
  (forall p r, p ∈ ids -> records s !! p = Some r -> visible t r = true -> is_Some (rendered (action_id r))) ->
  is_Some (parent_views now m t s rendered ids).
Proof.
  intros Hr. induction ids as [|p ids IH]; [by eexists|]. simpl.
  destruct IH as [rest Hrest]; [intros q r Hq; apply Hr; by right|].
  destruct (get now m t s p) as [[r|]|] eqn:Hg; [|by eexists..]. apply get_Some in Hg as [Hp Hv].
  destruct (Hr p r) as [[view|e] Hview]; [by left|done..| |]; rewrite Hview; simpl; [|by eexists].
  rewrite Hrest. by eexists.
Qed.

Lemma parent_views_more (f g : Rendered) ids v :
  (forall a v, f a = Some v -> g a = Some v) -> parent_views now m t s f ids = Some v -> parent_views now m t s g ids = Some v.
Proof.
  intros Hfg. revert v. induction ids as [|p ids IH]; [done|]. intros v. simpl.
  destruct (get now m t s p) as [[r|]|]; [|by apply IH|done].
  destruct (f (action_id r)) as [view|] eqn:Hf; simpl; [|done]. rewrite (Hfg _ _ Hf). simpl.
  destruct view as [view|]; [|done]. destruct (parent_views now m t s f ids) as [rest|]; simpl; [|done].
  by rewrite (IH rest eq_refl).
Qed.

Lemma resolve_why_more fuel fuel' action depth v :
  (fuel <= fuel')%nat -> resolve_why now m t s fuel action depth = Some v -> resolve_why now m t s fuel' action depth = Some v.
Proof.
  revert fuel' action depth v. induction fuel as [|fuel IH]; [done|]. intros [|fuel'] action depth v Hle; [lia|]. simpl.
  destruct (get_or_reconstruct_by_action _ _ _ _ _ _ _) as [[found|]|]; [|done..]. destruct depth; [done|].
  destruct (parent_views _ _ _ _ _ _) as [parents|] eqn:Hp; simpl; [|done]. intros Hv.
  erewrite parent_views_more; [exact Hv| |exact Hp]. intros a v' Hv'. by eapply (IH fuel'); [lia|].
Qed.

(** An action some visible record is about is found in memory. *)
Lemma by_action_found action r :
  r ∈ (hash_iter (records s)).*2 -> action_id r = action -> visible t r = true ->
  match get_or_reconstruct_by_action now now now m t s action with
  | Ok (Some found) => exists r', found = Authoritative r' /\ action_id r' = action /\ exists c, records s !! c = Some r'
  | Ok None => False
  | Err _ => True
  end.
Proof.
  intros Hin Ha Hv. unfold get_or_reconstruct_by_action, get_by_action. destruct (require _ _ _ _); [|done]. simpl.
  destruct (List.find _ _) as [r'|] eqn:Hf.
  - apply List.find_some in Hf as [Hr' [Ha' _]%andb_prop]. exists r'. split; [done|]. split; [by apply N.eqb_eq|].
    apply list_elem_of_In, list_elem_of_fmap in Hr' as ([c x] & -> & Hc%elem_of_hash_iter). by exists c.
  - exfalso. apply list_elem_of_In in Hin. pose proof (List.find_none _ _ Hf _ Hin) as Hn. simpl in Hn.
    rewrite Ha, N.eqb_refl, Hv in Hn. done.
Qed.

Context (rank : N -> nat) (K : nat).
Context (Hrank : forall c r p q, records s !! c = Some r -> p ∈ parent_records r -> records s !! p = Some q ->
                 (rank (action_id q) < rank (action_id r))%nat).
Context (Hbound : forall c r, records s !! c = Some r -> (rank (action_id r) <= K)%nat).

Lemma resolve_known fuel action r :
  r ∈ (hash_iter (records s)).*2 -> action_id r = action -> visible t r = true -> (rank action < fuel)%nat ->
  is_Some (resolve_why now m t s fuel action Full).
Proof.
  revert action r. induction fuel as [|fuel IH]; intros action r Hin Ha Hv Hlt; [lia|]. simpl.
  pose proof (by_action_found action r Hin Ha Hv) as Hf.
  destruct (get_or_reconstruct_by_action _ _ _ _ _ _ _) as [[found|]|]; [|done|by eexists].
  destruct Hf as (r' & -> & Ha' & c & Hc). simpl.
  destruct (parent_views_total (fun a => resolve_why now m t s fuel a Full) (parent_records r')) as [v Hp].
  - intros p q Hp Hq Hvq. apply (IH _ q); [|done|done|].
    + apply list_elem_of_fmap. exists (p, q). split; [done|]. by apply elem_of_hash_iter.
    + pose proof (Hrank _ _ _ _ Hc Hp Hq). subst action. rewrite <- Ha' in Hlt. lia.
  - rewrite Hp. by eexists.
Qed.

(** Rendering an explanation with its parents ends, if the parents can be ranked
    below their children by what they are about: as many nested calls as there are
    ranks, and two, are enough, and more give the same. (That links do not go in
    circles is up to the callers: [a_circle_never_ends].) *)
Theorem rendering_ends action depth :
  exists view, forall fuel, (K + 2 <= fuel)%nat -> resolve_why now m t s fuel action depth = Some view.
Proof.
  assert (Hv : is_Some (resolve_why now m t s (S (S K)) action depth)).
  { cbn [resolve_why]. destruct (get_or_reconstruct_by_action _ _ _ _ _ _ _) as [[found|]|] eqn:Hg; [|by eexists..].
    destruct depth; [by eexists|].
    destruct (parent_views_total (fun a => resolve_why now m t s (S K) a Full) (parent_records (record found))) as [v Hp].
    - intros p q Hp Hq Hvq. apply (resolve_known _ _ q); [|done|done|].
      + apply list_elem_of_fmap. exists (p, q). split; [done|]. by apply elem_of_hash_iter.
      + apply Nat.lt_succ_r. by eapply Hbound.
    - cbn [resolve_why] in Hp. rewrite Hp. by eexists. }
  destruct Hv as [view Hv]. exists view. intros fuel Hf. eapply resolve_why_more; [|exact Hv]. lia.
Qed.
End rendering.
End store.

(** ** A concrete store *)

Module ExplainExample.
Import Crypto.Toy Wal.ToyRecords.

Abbreviation Ev := (Event (V := Json)).

#[export] Instance json_record_eq_dec : EqDecision (WalRecord Json).
Proof. solve_decision. Defined.
#[export] Instance json_record_countable : Countable (WalRecord Json).
Proof.
  apply (inj_countable'
    (fun r => (object_id r, prev_version r, new_version r, metadata r, actor_origin r))
    (fun '(o, p, n, m, a) => mkRecord o p n m a)).
  by intros [].
Defined.
#[export] Instance json_record_codec : Codec (WalRecord Json) := countable_codec (WalRecord Json).

Definition to_json (e : Ev) : Json :=
  JArray [JNumber (N.pos (countable.encode (topic e))); JNumber (seq e); JNumber (timestamp e);
          JArray (match payload e with Inline v => [v] | ObjectRef o v => [JNumber o; JNumber v] end);
          JArray (JNumber <$> ancestors e)].
Definition of_json (v : Json) : option Ev :=
  match v with
  | JArray [JNumber (N.pos tp); JNumber sq; JNumber ts; JArray p; JArray anc] =>
      tp ← countable.decode tp;
      match p with
      | [v] => Some (mkEvent tp sq ts (Inline v) (omap as_u64 anc))
      | [JNumber o; JNumber v] => Some (mkEvent tp sq ts (ObjectRef o v) (omap as_u64 anc))
      | _ => None
      end
  | _ => None
  end.

Lemma of_to_json e : of_json (to_json e) = Some e.
Proof.
  destruct e as [tp sq ts p anc]. unfold to_json, of_json. simpl. rewrite countable.decode_encode. simpl.
  destruct p as [[]|]; simpl; by rewrite (omap_numbers anc).
Qed.

Abbreviation Store := ExplanationStore.

(** Two people, and the administrator whose token the store subscribes with. *)
Definition ann : CapabilityToken := mkToken 1 0 (rights_or READ WRITE) 0 7 None.
Definition bob : CapabilityToken := mkToken 2 0 (rights_or READ WRITE) 0 8 None.
Definition admin : CapabilityToken := mkToken 3 0 rights_all 0 1 None.
Definition env : Ambient := mkAmbient 0 0 0 (fun _ => Written).

Definition wired (dir : gmap N (list N)) : Store :=
  match (with_events 0 tt admin new (Events.new (Some dir)) true).1 with Ok s => s | Err _ => new end.

Definition after {A : Type} (s : Store) (o : option (Result A ExplainabilityError * Store)) : Store :=
  match o with Some (_, s) => s | None => s end.

Definition the_step : ReasoningStep := mkStep 0 (lit "looked it up") (Some (lit "web.search")) [4] None.

Definition opened : Store := after (wired ∅) (begin to_json env tt ann (wired ∅) 11 5 2 (lit "web.search") [] 100).
Definition stepped : Store := after opened (append_step to_json env tt ann opened 1 the_step []).
Definition finished : Store := after stepped (transition to_json env tt ann stepped 1 Completed).

(** After a restart Ann's record is put together from the log, and Bob does not
    see it. *)
Definition disk : gmap N (list N) := <[1 := default [] (log_file finished)]> ∅.
Definition restarted : Store := wired disk.

Example restart_reconstructs :
  get_or_reconstruct of_json 0 tt ann restarted 1
  = Ok (Some (Reconstructed (mkExplanation 1 11 5 2 (lit "web.search") 100
                               [mkStep 0 (lit "looked it up") (Some (lit "web.search")) [] None] [] None [] None [7] None [] [] Completed)))
  /\ get_or_reconstruct of_json 0 tt bob restarted 1 = Ok None.
Proof. by vm_compute. Qed.

(** Whoever may publish can open a record again in the log: a second opening event
    that names Bob's boundary shows him the steps of Ann's record, which is still
    in memory and not his to see. *)
Definition forged : Store :=
  match events finished with
  | Some (b, sub) =>
      match publish to_json 0 tt bob b 8 (record_topic 1) (Inline (begin_event 0 0 0 [] [8] 0)) [] 0 (fun _ => Written) with
      | Some (_, b) => with_bus finished b sub
      | None => finished
      end
  | None => finished
  end.

Example forged_opening_discloses :
  get 0 tt bob forged 1 = Ok None
  /\ match get_or_reconstruct of_json 0 tt bob forged 1 with
     | Ok (Some (Reconstructed r)) => reasoning_chain r = [mkStep 0 (lit "looked it up") (Some (lit "web.search")) [] None]
     | _ => False
     end.
Proof. by vm_compute. Qed.

(** Any token with the right to write changes anybody's record. *)
Example anyone_may_roll_back :
  control_state <$> records (after finished (transition to_json env tt bob finished 1 RolledBack)) !! 1 = Some RolledBack.
Proof. by vm_compute. Qed.

(** Numbers start again after a restart, so a record of the next run gets the steps
    and the state of the one before it with the same number. *)
Definition reopened : Store := after restarted (begin to_json env tt ann restarted 12 6 3 (lit "document.draft") [] 200).

Example runs_are_mixed :
  match get_or_reconstruct of_json 0 tt ann (with_records reopened ∅) 1 with
  | Ok (Some (Reconstructed r)) => action_id r = 12 /\ length (reasoning_chain r) = 1%nat /\ control_state r = Completed
  | _ => False
  end.
Proof. by vm_compute. Qed.

(** A record linked to itself as its parent is rendered for ever. *)
Definition circular : Store := (link_parent env tt ann finished 1 1).2.

Lemma a_circle_never_ends fuel : resolve_why of_json 0 tt ann circular fuel 11 Full = None.
Proof.
  induction fuel as [|fuel IH]; [done|].
  destruct (get_or_reconstruct_by_action of_json 0 0 0 tt ann circular 11) as [[[r|r]|]|] eqn:Hg;
    [|vm_compute in Hg; discriminate..].
  assert (Hr : parent_records r = [1] /\ action_id r = 11) by (vm_compute in Hg; by injection Hg as <-).
  destruct (get 0 tt ann circular 1) as [[r1|]|] eqn:H1; [|vm_compute in H1; discriminate..].
  assert (Hr1 : action_id r1 = 11) by (vm_compute in H1; by injection H1 as <-).
  cbn [resolve_why]. rewrite Hg. cbn [record]. destruct Hr as [-> _]. cbn [parent_views]. rewrite H1, Hr1, IH. done.
Qed.
End ExplainExample.

Section witnesses.
Import Crypto.Toy Wal.ToyRecords ExplainExample.

Lemma wired_fresh : fresh (M := unit) (wired ∅).
Proof.
  exists 0, tt, admin, (Events.new (Some ∅)), true, (with_events 0 tt admin new (Events.new (Some ∅)) true).2.
  split; [by vm_compute|]. split; [done|]. split; [|by vm_compute]. intros tp _. apply lookup_empty.
Defined.

Lemma answered {A : Type} (s : Store) (o : option (Result A ExplainabilityError * Store)) (a : A) :
  fst <$> o = Some (Ok a) -> o = Some (Ok a, after s o).
Proof. destruct o as [[r s']|]; simpl; [|done]. by intros [= ->]. Qed.

Lemma finished_run : rtc (step to_json (good (M := unit)) not_custom) (wired ∅) finished.
Proof.
  assert (Hg : forall t, good env tt t <-> authorize (M := unit) 0 tt t WRITE = Ok tt).
  { intros t. unfold good. simpl. naive_solver. }
  apply (rtc_l _ _ opened); [|apply (rtc_l _ _ stepped); [|apply (rtc_l _ _ finished); [|apply rtc_refl]]].
  - apply (step_begin _ _ _ env tt ann (wired ∅) 11 5 2 (lit "web.search") [] 100 (Ok 1)); [by apply Hg|done|].
    apply answered. by vm_compute.
  - apply (step_append _ _ _ env tt ann opened 1 the_step [] (Ok tt)); [by apply Hg|by vm_compute|done|].
    apply answered. by vm_compute.
  - apply (step_transition _ _ _ env tt ann stepped 1 Completed (Ok tt)); [by apply Hg|by vm_compute|].
    apply answered. by vm_compute.
Defined.

Lemma records_are_append_only_witness : store_ok finished.
Proof. exact (proj1 (records_are_append_only to_json _ _ _ _ wired_fresh finished_run)). Defined.

Lemma disk_log : disk !! 1 = log_file finished.
Proof.
  assert (Hf : match log_file finished with Some _ => true | None => false end = true) by (by vm_compute).
  unfold disk. rewrite lookup_insert_eq. by destruct (log_file finished).
Defined.
Lemma restarted_ok : exists b2, with_events 0 tt admin new (Events.new (Some disk)) true = (Ok restarted, b2).
Proof.
  assert (Hw : match (with_events 0 tt admin new (Events.new (Some disk)) true).1 with Ok _ => true | Err _ => false end = true)
    by (by vm_compute).
  unfold restarted, wired. destruct (with_events 0 tt admin new (Events.new (Some disk)) true) as [[s|e] b2]; [by exists b2|done].
Defined.

Lemma lost_records_return_witness :
  exists r, get_or_reconstruct of_json 0 tt ann restarted 1 = Ok (Some (Reconstructed (core r))) /\ length (reasoning_chain r) = 1%nat.
Proof.
  destruct (lost_records_return to_json of_json _ _ of_to_json wired_fresh finished_run) as [_ Hback].
  destruct (records finished !! 1) as [r|] eqn:Hr; [|vm_compute in Hr; discriminate].
  assert (Hv : visible ann r = true /\ length (reasoning_chain r) = 1%nat) by (vm_compute in Hr; by injection Hr as <-).
  destruct restarted_ok as [b2 Hw], Hv as [Hv Hlen]. exists r. split; [|exact Hlen].
  pose proof (Hback disk 0 tt admin true restarted b2 disk_log Hw 0 tt ann 1 eq_refl) as Hg.
  revert Hg Hr Hv. generalize (get_or_reconstruct of_json 0 tt ann restarted 1) (records finished !! 1).
  intros g o -> -> Hv. simpl. by rewrite Hv.
Defined.

Lemma rendering_ends_witness :
  exists view, forall fuel, (2 <= fuel)%nat -> resolve_why of_json 0 tt ann finished fuel 11 Full = Some view.
Proof.
  apply (rendering_ends of_json 0 tt ann finished (fun _ => 0%nat) 0).
  - intros c r p q Hc Hp _. exfalso.
    assert (Hall : map_Forall (fun _ r => parent_records r = []) (records finished))
      by (apply (bool_decide_unpack _); by vm_compute).
    rewrite (Hall _ _ Hc) in Hp. by apply not_elem_of_nil in Hp.
  - done.
Defined.
End witnesses.
