(* ===== verification/KnowledgeGraph.v ===== *)
(** The knowledge graph: [crates/hyperion-knowledge-graph/src/{types,index,decay,graph}.rs].

    A graph is a storage engine and an index rebuilt from the engine's log. The
    operations return the index and engine they leave and the object-changed
    notifications they send, in order; [publish_changed] hands one to the event
    bus. The wall clock is read where the code reads it, so an operation that
    reads it twice takes two readings. [serde_json]'s conversion of a [Record] is
    [to_value]/[from_value]; [exp] is the platform's. [import.rs], [export.rs]
    and [display.rs] are not modelled. *)
From S2P Require Import Prelude Crypto Capability Authority Wal Storage Events F32.
Open Scope N_scope.

(** ** types.rs *)

Abbreviation NodeId := N (only parsing).
Abbreviation EdgeId := N (only parsing).

Inductive NodeOrigin : Type := UserAuthored | AgentGenerated | IngestedExternal | SyncedRemote.

Inductive EdgeOrigin : Type := Explicit | Inferred.

#[export] Instance edge_origin_eq_dec : EqDecision EdgeOrigin.
Proof. solve_decision. Defined.

Section graph.
Context {V : Type} `{Codec (WalRecord V)} `{Aead} `{HashIter} {M : Type} `{Authority M}.

Record NodeRecord := mkNode {
  object_type : list N;
  embedding : option (list f32);
  node_metadata : V;
  owner : N;
  device_origin : N;
  node_origin : NodeOrigin;
  corroboration_count : N;
  tenant_id : N;
  created_at : N;
  updated_at : N;
  tombstone : bool
}.

Record EdgeRecord := mkEdge {
  subject : NodeId;
  predicate : list N;
  target : NodeId;
  weight : f32;
  provenance : list N;
  edge_origin : EdgeOrigin;
  confidence : option f32;
  edge_owner : N;
  edge_created_at : N;
  last_confirmed_at : N;
  edge_tombstone : bool;
  version : N
}.

Inductive Record_ : Type := RNode (n : NodeRecord) | REdge (e : EdgeRecord).

Record EdgeConstraint := mkConstraint {
  c_predicate : list N;
  c_node : NodeId
}.

Record GraphQuery := mkQuery {
  type_filter : option (list (list N));
  embedding_query : option (list f32);
  time_range : option (N * N);
  edge_constraint : option EdgeConstraint;
  device_origin_filter : option N;
  limit : nat
}.

Record QueryHit := mkHit {
  node_id : NodeId;
  node : NodeRecord;
  score : f32
}.

Record RankingRationale := mkRationale {
  similarity : f32;
  type_filter_matched : option bool;
  within_time_range : option bool;
  edge_constraint_satisfied : option bool;
  device_origin_matched : option bool;
  would_be_included : bool
}.

Record Subgraph := mkSubgraph {
  sub_nodes : list (NodeId * NodeRecord * nat);
  sub_edges : list (EdgeId * EdgeRecord)
}.

Inductive LinkOutcome : Type :=
| Created (id : EdgeId)
| Updated (id : EdgeId)
| SuppressedByTombstone (id : EdgeId).

Record GraphSnapshot := mkSnapshot {
  snap_nodes : list (NodeId * NodeRecord);
  snap_edges : list (EdgeId * EdgeRecord)
}.

Inductive ProvenanceChain : Type :=
| ChainNode (id : NodeId) (ty : list N) (own created updated : N) (incident_edges : list EdgeId)
| ChainEdge (id : EdgeId) (sub : NodeId) (pred : list N) (tgt : NodeId) (orig : EdgeOrigin)
    (prov : list N) (conf : option f32) (created : N) (tomb : bool).

Inductive ExplainRef : Type := ExplainNode (id : NodeId) | ExplainEdge (id : EdgeId).

Inductive GraphError : Type :=
| Unauthorized
| NotFound
| StorageFailed (e : StorageError)
| CrossTenantGrantRequired (a b : N).

Context (to_value : Record_ -> V) (from_value : V -> option Record_).

(** ** index.rs *)

Record GraphIndex := mkIndex {
  nodes : gmap N NodeRecord;
  edges : gmap N EdgeRecord;
  forward : gmap N (list EdgeId);
  backward : gmap N (list EdgeId);
  edge_identity : gmap (N * list N * N) EdgeId
}.

Definition empty_index : GraphIndex := mkIndex ∅ ∅ ∅ ∅ ∅.

(** [entry(k).or_default().push(id)]. *)
Definition push_entry (m : gmap N (list EdgeId)) (k : N) (id : EdgeId) : gmap N (list EdgeId) :=
  <[k := default [] (m !! k) ++ [id]]> m.

Definition apply (i : GraphIndex) (id : N) (r : Record_) : GraphIndex :=
  match r with
  | RNode n => mkIndex (<[id := n]> (nodes i)) (edges i) (forward i) (backward i) (edge_identity i)
  | REdge e =>
      let is_new := bool_decide (edges i !! id = None) in
      mkIndex (nodes i) (<[id := e]> (edges i))
        (if is_new then push_entry (forward i) (subject e) id else forward i)
        (if is_new then push_entry (backward i) (target e) id else backward i)
        (<[(subject e, predicate e, target e) := id]> (edge_identity i))
  end.

Definition rebuild_from (records : list (WalRecord V)) : GraphIndex :=
  fold_left (fun i r => match from_value (metadata r) with
                        | Some rec => apply i (object_id r) rec
                        | None => i
                        end) records empty_index.

Definition active_edge (i : GraphIndex) (id : EdgeId) : option EdgeRecord :=
  e ← edges i !! id; if edge_tombstone e then None else Some e.

(** ** decay.rs *)

(** Thirty days, in seconds. *)
Definition DEFAULT_INFERRED_EDGE_TAU_SECS : f64 := f64_of_N 2592000.

Definition effective_edge_weight (exp : f64 -> f64) (e : EdgeRecord) (now : N) : f32 :=
  if bool_decide (edge_origin e = Explicit) then weight e
  else
    let delta_t := f64_of_N (now - last_confirmed_at e) in
    let recency := exp (f64_div (f64_neg delta_t) DEFAULT_INFERRED_EDGE_TAU_SECS) in
    f32_mul (weight e) (f32_of_f64 recency).

(** ** graph.rs *)

Definition cosine_similarity (a b : list f32) : f32 :=
  if negb (Nat.eqb (length a) (length b)) || Nat.eqb (length a) 0 then f32_zero
  else
    let dot := f32_sum (zip_with f32_mul a b) in
    let norm_a := f32_sqrt (f32_sum ((fun x => f32_mul x x) <$> a)) in
    let norm_b := f32_sqrt (f32_sum ((fun x => f32_mul x x) <$> b)) in
    if f32_eqb norm_a f32_zero || f32_eqb norm_b f32_zero then f32_zero
    else f32_div dot (f32_mul norm_a norm_b).

Record KnowledgeGraph := mkGraph {
  storage : StorageEngine (V := V);
  index : GraphIndex
}.

Definition open_graph (path : option (list N)) (key : option Key) : Result KnowledgeGraph OpenFailure :=
  let? storage := open_impl path key in
  match replay_lines path key with
  | Err InvalidData => Err (OpenErr WalError)
  | Err Panicked => Err OpenPanics
  | Ok records => Ok (mkGraph storage (rebuild_from records))
  end.

(** One call of [publish_changed]. *)
Record Notification := mkNotification {
  n_subject : N;
  n_owner : N;
  n_ancestors : list N
}.

(** [publish_changed]: with a bus, an [ObjectChanged] event; a refusal is only
    printed. [None] if the bus makes the caller wait. *)
Definition publish_changed (event_value : Event -> V) (changed_json : N -> N -> V) (schema : list N)
    (now : Instant) (monitor : M) (token : CapabilityToken) (wall ts : N) (io : N -> write_outcome)
    (bus : option EventBus) (n : Notification) : option (option EventBus) :=
  match bus with
  | None => Some None
  | Some b =>
      let t := mkTopic ObjectChanged (SObject (n_subject n)) schema in
      '(_, b) ← publish event_value now monitor token b (n_owner n) t
                  (Inline (changed_json (n_subject n) wall)) (n_ancestors n) ts io;
      Some (Some b)
  end.

Definition require (now : Instant) (monitor : M) (token : CapabilityToken) (r : RightsMask) :
    Result unit GraphError :=
  map_err (fun _ => Unauthorized) (authorize now monitor token r).

(** What a call returns, the graph it leaves, and the notifications it sent. *)
Definition outcome (A : Type) : Type := Result A GraphError * KnowledgeGraph * list Notification.

(** How every write ends: the record goes to the engine and, if that succeeded,
    to the index, and the change is announced. *)
Definition commit_record {A : Type} (now : Instant) (monitor : M) (token : CapabilityToken)
    (g : KnowledgeGraph) (id : option N) (expected : option VersionId) (r : Record_)
    (nonce : list N) (io : write_outcome) (announce : N -> Notification) (result : N -> A) : outcome A :=
  match put_object now monitor token (storage g) id expected (to_value r) nonce io with
  | (Err e, s) => (Err (StorageFailed e), mkGraph s (index g), [])
  | (Ok (assigned_id, _), s) =>
      (Ok (result assigned_id), mkGraph s (apply (index g) assigned_id r), [announce assigned_id])
  end.

Definition tenant_of (i : GraphIndex) (id : NodeId) : N := from_option tenant_id 0 (nodes i !! id).

(** [link]; [wall1] and [wall2] are its two readings of the wall clock. *)
Definition link (now : Instant) (monitor : M) (token : CapabilityToken) (g : KnowledgeGraph)
    (sub : NodeId) (pred : list N) (tgt : NodeId) (w : f32) (orig : EdgeOrigin) (conf : option f32)
    (prov : list N) (observed_version : option N) (wall1 wall2 : N) (nonce : list N)
    (io : write_outcome) : outcome LinkOutcome :=
  match require now monitor token WRITE with
  | Err e => (Err e, g, [])
  | Ok _ =>
      let i := index g in
      let subject_tenant := tenant_of i sub in
      let target_tenant := tenant_of i tgt in
      if negb (subject_tenant =? target_tenant) && negb (is_ok (authorize now monitor token GRANT))
      then (Err (CrossTenantGrantRequired subject_tenant target_tenant), g, [])
      else
        let existing := id ← edge_identity i !! (sub, pred, tgt); e ← edges i !! id; Some (id, e) in
        let caller_boundary := origin token in
        let write id_arg expected created own is_update :=
          let record :=
            mkEdge sub pred tgt w prov orig conf own created wall2 false
              (match existing with Some (_, e) => u64_add (version e) 1 | None => 0 end) in
          commit_record now monitor token g id_arg expected (REdge record) nonce io
            (fun id => mkNotification id own [sub; tgt])
            (fun id => if (is_update : bool) then Updated id else Created id) in
        match existing with
        | Some (id, e) =>
            if negb (edge_owner e =? caller_boundary) then (Err NotFound, g, [])
            else if edge_tombstone e then
              if negb (is_some_and observed_version (fun v => version e <=? v))
              then (Ok (SuppressedByTombstone id), g, [])
              else write (Some id) (current_version (storage g) id) (edge_created_at e) caller_boundary false
            else write (Some id) (current_version (storage g) id) (edge_created_at e) (edge_owner e) true
        | None => write None None wall1 caller_boundary false
        end
  end.

Definition unlink (now : Instant) (monitor : M) (token : CapabilityToken) (g : KnowledgeGraph)
    (id : EdgeId) (nonce : list N) (io : write_outcome) : outcome unit :=
  match require now monitor token WRITE with
  | Err e => (Err e, g, [])
  | Ok _ =>
      match edges (index g) !! id with
      | Some e =>
          if negb (edge_owner e =? origin token) then (Err NotFound, g, [])
          else if edge_tombstone e then (Ok tt, g, [])
          else
            let record :=
              mkEdge (subject e) (predicate e) (target e) (weight e) (provenance e) (edge_origin e)
                (confidence e) (edge_owner e) (edge_created_at e) (last_confirmed_at e) true
                (u64_add (version e) 1) in
            commit_record now monitor token g (Some id) (current_version (storage g) id) (REdge record)
              nonce io (fun _ => mkNotification id (origin token) [subject e; target e]) (fun _ => tt)
      | None => (Err NotFound, g, [])
      end
  end.

(** The loop of [prune_decayed_edges]; each [unlink] draws its own nonce. *)
Fixpoint unlink_all (now : Instant) (monitor : M) (token : CapabilityToken) (g : KnowledgeGraph)
    (ids : list EdgeId) (nonces : N -> list N) (io : N -> write_outcome) : outcome unit :=
  match ids with
  | [] => (Ok tt, g, [])
  | id :: ids =>
      match unlink now monitor token g id (nonces id) (io id) with
      | (Err e, g, ns) => (Err e, g, ns)
      | (Ok _, g, ns) =>
          let '(res, g, ns') := unlink_all now monitor token g ids nonces io in
          (res, g, ns ++ ns')
      end
  end.

Definition prune_decayed_edges (exp : f64 -> f64) (now : Instant) (monitor : M) (token : CapabilityToken)
    (g : KnowledgeGraph) (threshold : f32) (wall : N) (nonces : N -> list N) (io : N -> write_outcome) :
    outcome (list EdgeId) :=
  match require now monitor token WRITE with
  | Err e => (Err e, g, [])
  | Ok _ =>
      let to_prune :=
        fst <$> List.filter
          (fun '(_, e) => negb (edge_tombstone e) && (edge_owner e =? origin token)
                          && bool_decide (edge_origin e = Inferred)
                          && f32_ltb (effective_edge_weight exp e wall) threshold)
          (hash_iter (edges (index g))) in
      match unlink_all now monitor token g to_prune nonces io with
      | (Err e, g, ns) => (Err e, g, ns)
      | (Ok _, g, ns) => (Ok to_prune, g, ns)
      end
  end.

Definition put_node_with_provenance (now : Instant) (monitor : M) (token : CapabilityToken)
    (g : KnowledgeGraph) (id : option NodeId) (ty : list N) (emb : option (list f32)) (md : V)
    (device : N) (orig : NodeOrigin) (tenant wall1 wall2 : N) (nonce : list N) (io : write_outcome) :
    outcome NodeId :=
  match require now monitor token WRITE with
  | Err e => (Err e, g, [])
  | Ok _ =>
      let caller_boundary := origin token in
      let expected := id ← id; current_version (storage g) id in
      let existing := id ← id; nodes (index g) !! id in
      if is_some_and existing (fun n => negb (owner n =? caller_boundary)) then (Err NotFound, g, [])
      else
        let record :=
          mkNode ty emb md (from_option owner caller_boundary existing) device orig
            (from_option corroboration_count 0 existing) tenant (from_option created_at wall1 existing)
            wall2 (is_some_and existing tombstone) in
        commit_record now monitor token g id expected (RNode record) nonce io
          (fun id => mkNotification id caller_boundary []) (fun id => id)
  end.

Definition put_node_with_device_origin now monitor token g id ty emb md device wall1 wall2 nonce io :=
  put_node_with_provenance now monitor token g id ty emb md device IngestedExternal 0 wall1 wall2 nonce io.

Definition put_node_with_tenant now monitor token g id ty emb md tenant wall1 wall2 nonce io :=
  put_node_with_provenance now monitor token g id ty emb md 0 IngestedExternal tenant wall1 wall2 nonce io.

Definition put_node now monitor token g id ty emb md wall1 wall2 nonce io :=
  put_node_with_device_origin now monitor token g id ty emb md 0 wall1 wall2 nonce io.

(** A node the caller may see: its own and not deleted. *)
Definition own_live (b : N) (n : NodeRecord) : bool := negb (tombstone n) && (owner n =? b).

Definition corroborate_node (now : Instant) (monitor : M) (token : CapabilityToken) (g : KnowledgeGraph)
    (id : NodeId) (wall : N) (nonce : list N) (io : write_outcome) : outcome N :=
  match require now monitor token WRITE with
  | Err e => (Err e, g, [])
  | Ok _ =>
      let expected := current_version (storage g) id in
      match nodes (index g) !! id with
      | Some n =>
          if negb (own_live (origin token) n) then (Err NotFound, g, [])
          else
            let count := N.min (corroboration_count n + 1) (two32 - 1) in
            let record :=
              mkNode (object_type n) (embedding n) (node_metadata n) (owner n) (device_origin n)
                (node_origin n) count (tenant_id n) (created_at n) wall (tombstone n) in
            commit_record now monitor token g (Some id) expected (RNode record) nonce io
              (fun _ => mkNotification id (origin token) []) (fun _ => count)
      | None => (Err NotFound, g, [])
      end
  end.

Definition get (now : Instant) (monitor : M) (token : CapabilityToken) (g : KnowledgeGraph) (id : NodeId) :
    Result NodeRecord GraphError :=
  let? _ := require now monitor token READ in
  match nodes (index g) !! id with
  | Some n => if own_live (origin token) n then Ok n else Err NotFound
  | None => Err NotFound
  end.

Definition delete_node (now : Instant) (monitor : M) (token : CapabilityToken) (g : KnowledgeGraph)
    (id : NodeId) (wall : N) (nonce : list N) (io : write_outcome) : outcome unit :=
  match require now monitor token WRITE with
  | Err e => (Err e, g, [])
  | Ok _ =>
      match nodes (index g) !! id with
      | Some n =>
          if negb (owner n =? origin token) then (Err NotFound, g, [])
          else if tombstone n then (Ok tt, g, [])
          else
            let record :=
              mkNode (object_type n) (embedding n) (node_metadata n) (owner n) (device_origin n)
                (node_origin n) (corroboration_count n) (tenant_id n) (created_at n) wall true in
            commit_record now monitor token g (Some id) (current_version (storage g) id) (RNode record)
              nonce io (fun _ => mkNotification id (origin token) []) (fun _ => tt)
      | None => (Err NotFound, g, [])
      end
  end.

Definition purge_node_history (now : Instant) (monitor : M) (token : CapabilityToken) (g : KnowledgeGraph)
    (id : NodeId) (nonces : nat -> list N) (io : compact_outcome) : outcome nat :=
  match require now monitor token WRITE with
  | Err e => (Err e, g, [])
  | Ok _ =>
      match nodes (index g) !! id with
      | Some n =>
          if negb (owner n =? origin token) then (Err NotFound, g, [])
          else
            match purge_object now monitor token (storage g) id nonces io with
            | (Err e, s) => (Err (StorageFailed e), mkGraph s (index g), [])
            | (Ok purged, s) =>
                let i := index g in
                (Ok purged,
                 mkGraph s (mkIndex (delete id (nodes i)) (edges i) (forward i) (backward i) (edge_identity i)),
                 [mkNotification id (origin token) []])
            end
      | None => (Err NotFound, g, [])
      end
  end.

Definition get_at_version (now : Instant) (monitor : M) (token : CapabilityToken) (g : KnowledgeGraph)
    (id : NodeId) (v : VersionId) : Result NodeRecord GraphError :=
  let? _ := require now monitor token READ in
  match nodes (index g) !! id with
  | Some n =>
      if negb (owner n =? origin token) then Err NotFound
      else
        match get_object now monitor token (storage g) id (Some v) with
        | Err Storage.NotFound => Err NotFound
        | Err e => Err (StorageFailed e)
        | Ok payload =>
            match from_value payload with
            | Some (RNode n) => Ok n
            | _ => Err NotFound
            end
        end
  | None => Err NotFound
  end.

(** ** Reading the graph *)

Definition satisfies_edge_constraint (i : GraphIndex) (id : NodeId) (c : EdgeConstraint) : bool :=
  existsb (fun e => bool_decide (predicate e = c_predicate c) && (target e =? c_node c))
    (omap (active_edge i) (default [] (forward i !! id)))
  || existsb (fun e => bool_decide (predicate e = c_predicate c) && (subject e =? c_node c))
       (omap (active_edge i) (default [] (backward i !! id))).

Definition rank_against (i : GraphIndex) (id : NodeId) (n : NodeRecord) (q : GraphQuery) : RankingRationale :=
  let type_matched := (fun types => bool_decide (object_type n ∈ types)) <$> type_filter q in
  let in_time := (fun '(lo, hi) => (lo <=? created_at n) && (created_at n <=? hi)) <$> time_range q in
  let edge_ok := satisfies_edge_constraint i id <$> edge_constraint q in
  let device_ok := (fun wanted => device_origin n =? wanted) <$> device_origin_filter q in
  let sim := match embedding_query q, embedding n with
             | Some qe, Some e => cosine_similarity qe e
             | Some _, None => f32_zero
             | None, _ => f32_one
             end in
  mkRationale sim type_matched in_time edge_ok device_ok
    (default true type_matched && default true in_time && default true edge_ok && default true device_ok).

(** [sort_by] with the scores descending. *)
Definition sort_hits (l : list QueryHit) : list QueryHit := sort_desc score l.

Definition query (now : Instant) (monitor : M) (token : CapabilityToken) (g : KnowledgeGraph) (q : GraphQuery) :
    Result (list QueryHit) GraphError :=
  let? _ := require now monitor token READ in
  let i := index g in
  let hits :=
    omap (fun '(id, n) =>
            let rationale := rank_against i id n q in
            if would_be_included rationale then Some (mkHit id n (similarity rationale)) else None)
      (List.filter (fun '(_, n) => own_live (origin token) n) (hash_iter (nodes i))) in
  let hits := sort_hits hits in
  Ok (if Nat.eqb (limit q) 0 then hits else take (limit q) hits).

Definition explain_ranking (now : Instant) (monitor : M) (token : CapabilityToken) (g : KnowledgeGraph)
    (id : NodeId) (q : GraphQuery) : Result RankingRationale GraphError :=
  let? _ := require now monitor token READ in
  match nodes (index g) !! id with
  | Some n => if own_live (origin token) n then Ok (rank_against (index g) id n q) else Err NotFound
  | None => Err NotFound
  end.

Definition dump (now : Instant) (monitor : M) (token : CapabilityToken) (g : KnowledgeGraph) :
    Result GraphSnapshot GraphError :=
  let? _ := require now monitor token READ in
  let i := index g in
  Ok (mkSnapshot
        (sort_by_key fst (List.filter (fun '(_, n) => own_live (origin token) n) (hash_iter (nodes i))))
        (sort_by_key fst
           (List.filter (fun '(_, e) => negb (edge_tombstone e) && (edge_owner e =? origin token))
              (hash_iter (edges i))))).

(** [visible] of a traversal. *)
Definition visible (i : GraphIndex) (b : N) (device : option N) (id : NodeId) : bool :=
  is_some_and (nodes i !! id)
    (fun n => own_live b n && from_option (fun wanted => device_origin n =? wanted) true device).

(** What the loops of a traversal carry: depths, edges seen, next frontier. *)
Record Walk := mkWalk {
  depths : gmap N nat;
  visited_edges : gset N;
  next_frontier : list NodeId
}.

(** One edge of one node's list; [other] is the end the walk goes to. *)
Definition visit_edge (i : GraphIndex) (see : NodeId -> bool) (types : option (list (list N)))
    (other : EdgeRecord -> NodeId) (hop : nat) (w : Walk) (eid : EdgeId) : Walk :=
  match active_edge i eid with
  | None => w
  | Some e =>
      if is_some_and types (fun ts => negb (bool_decide (predicate e ∈ ts))) then w
      else if negb (see (other e)) then w
      else
        let w := mkWalk (depths w) ({[eid]} ∪ visited_edges w) (next_frontier w) in
        match depths w !! other e with
        | Some _ => w
        | None => mkWalk (<[other e := S hop]> (depths w)) (visited_edges w) (next_frontier w ++ [other e])
        end
  end.

Definition visit_node (i : GraphIndex) (see : NodeId -> bool) (types : option (list (list N)))
    (hop : nat) (w : Walk) (id : NodeId) : Walk :=
  let w := fold_left (visit_edge i see types target hop) (default [] (forward i !! id)) w in
  fold_left (visit_edge i see types subject hop) (default [] (backward i !! id)) w.

(** [for hop in 0..max_hops], stopping at an empty frontier. *)
Fixpoint traverse_loop (i : GraphIndex) (see : NodeId -> bool) (types : option (list (list N)))
    (hops : nat) (hop : nat) (frontier : list NodeId) (w : Walk) : Walk :=
  match hops with
  | O => w
  | S hops =>
      match frontier with
      | [] => w
      | _ =>
          let w := fold_left (visit_node i see types hop) frontier (mkWalk (depths w) (visited_edges w) []) in
          traverse_loop i see types hops (S hop) (next_frontier w) w
      end
  end.

(** The nodes and edges come out of hash tables, in no particular order. *)
Definition traverse_with_device_origin_filter (now : Instant) (monitor : M) (token : CapabilityToken)
    (g : KnowledgeGraph) (start : NodeId) (types : option (list (list N))) (max_hops : nat)
    (device : option N) : Result Subgraph GraphError :=
  let? _ := require now monitor token READ in
  let i := index g in
  let see := visible i (origin token) device in
  if negb (see start) then Err NotFound
  else
    let w := traverse_loop i see types max_hops 0 [start] (mkWalk {[start := 0%nat]} ∅ []) in
    Ok (mkSubgraph
          (omap (fun '(id, d) => n ← nodes i !! id; Some (id, n, d)) (hash_iter (depths w)))
          (omap (fun id => e ← edges i !! id; Some (id, e)) (elements (visited_edges w)))).

Definition traverse now monitor token g start types max_hops :=
  traverse_with_device_origin_filter now monitor token g start types max_hops None.

Definition generation_of (now : Instant) (monitor : M) (token : CapabilityToken) (g : KnowledgeGraph)
    (id : NodeId) : Result N GraphError :=
  let? n := get now monitor token g id in
  Ok (updated_at n).

(** [dedup] on a sorted list. *)
Fixpoint dedup_sorted (l : list N) : list N :=
  match l with
  | x :: ((y :: _) as l') => if x =? y then dedup_sorted l' else x :: dedup_sorted l'
  | _ => l
  end.

Definition explain (now : Instant) (monitor : M) (token : CapabilityToken) (g : KnowledgeGraph)
    (target_ref : ExplainRef) : Result ProvenanceChain GraphError :=
  let? _ := require now monitor token READ in
  let i := index g in
  match target_ref with
  | ExplainNode id =>
      match nodes i !! id with
      | Some n =>
          if negb (owner n =? origin token) then Err NotFound
          else
            let incident := default [] (forward i !! id) ++ default [] (backward i !! id) in
            Ok (ChainNode id (object_type n) (owner n) (created_at n) (updated_at n)
                  (dedup_sorted (sort_by_key (fun e => e) incident)))
      | None => Err NotFound
      end
  | ExplainEdge id =>
      match edges i !! id with
      | Some e =>
          if negb (edge_owner e =? origin token) then Err NotFound
          else Ok (ChainEdge id (subject e) (predicate e) (target e) (edge_origin e) (provenance e)
                     (confidence e) (edge_created_at e) (edge_tombstone e))
      | None => Err NotFound
      end
  end.


(** ** The writing operations as one type *)

Inductive gop : Type :=
| OpLink (sub : NodeId) (pred : list N) (tgt : NodeId) (w : f32) (orig : EdgeOrigin) (conf : option f32)
    (prov : list N) (observed : option N) (wall1 wall2 : N) (nonce : list N) (io : write_outcome)
| OpUnlink (id : EdgeId) (nonce : list N) (io : write_outcome)
| OpPrune (threshold : f32) (wall : N) (nonces : N -> list N) (io : N -> write_outcome)
| OpPut (id : option NodeId) (ty : list N) (emb : option (list f32)) (md : V) (device : N)
    (orig : NodeOrigin) (tenant wall1 wall2 : N) (nonce : list N) (io : write_outcome)
| OpCorroborate (id : NodeId) (wall : N) (nonce : list N) (io : write_outcome)
| OpDelete (id : NodeId) (wall : N) (nonce : list N) (io : write_outcome)
| OpPurge (id : NodeId) (nonces : nat -> list N) (io : compact_outcome).

Context (exp : f64 -> f64).

(** The graph a call leaves. *)
Definition exec (now : Instant) (m : M) (t : CapabilityToken) (g : KnowledgeGraph) (op : gop) : KnowledgeGraph :=
  match op with
  | OpLink sub pred tgt w orig conf prov observed wall1 wall2 nonce io =>
      (link now m t g sub pred tgt w orig conf prov observed wall1 wall2 nonce io).1.2
  | OpUnlink id nonce io => (unlink now m t g id nonce io).1.2
  | OpPrune threshold wall nonces io => (prune_decayed_edges exp now m t g threshold wall nonces io).1.2
  | OpPut id ty emb md device orig tenant wall1 wall2 nonce io =>
      (put_node_with_provenance now m t g id ty emb md device orig tenant wall1 wall2 nonce io).1.2
  | OpCorroborate id wall nonce io => (corroborate_node now m t g id wall nonce io).1.2
  | OpDelete id wall nonce io => (delete_node now m t g id wall nonce io).1.2
  | OpPurge id nonces io => (purge_node_history now m t g id nonces io).1.2
  end.

(** ** One step at a time *)

(** Every write is at most one record or one purge, except a pruning, which is
    one tombstone per edge pruned. [gstep] is what such a step may do: it states
    the rights of owners once, for all the operations. *)

Definition finite_record (r : Record_) : bool :=
  match r with
  | RNode n => forallb is_finite (default [] (embedding n))
  | REdge e => is_finite (weight e) && from_option is_finite true (confidence e)
  end.

Definition finite_index (i : GraphIndex) : Prop :=
  (forall id n, nodes i !! id = Some n -> finite_record (RNode n) = true)
  /\ (forall id e, edges i !! id = Some e -> finite_record (REdge e) = true).

(** The numbers the caller passes are finite. *)
Definition op_finite (op : gop) : bool :=
  match op with
  | OpLink _ _ _ w _ conf _ _ _ _ _ _ => is_finite w && from_option is_finite true conf
  | OpPut _ _ emb _ _ _ _ _ _ _ _ => forallb is_finite (default [] emb)
  | _ => true
  end.

(** A write the disk performs or does not, under a nonce of the right length. *)
Definition sound_write (nonce : list N) (io : write_outcome) : Prop :=
  is_nonce nonce /\ (io = Written \/ io = Failed 0).

Definition op_sound (op : gop) : Prop :=
  match op with
  | OpLink _ _ _ _ _ _ _ _ _ _ nonce io | OpUnlink _ nonce io | OpPut _ _ _ _ _ _ _ _ _ nonce io
  | OpCorroborate _ _ nonce io | OpDelete _ _ nonce io => sound_write nonce io
  | OpPrune _ _ nonces io => forall id, sound_write (nonces id) (io id)
  | OpPurge _ nonces io => (forall n, is_nonce (nonces n)) /\ io <> ReopenFailed
  end.

(** The operations that may create an object. *)
Definition needs_id (op : gop) : bool :=
  match op with OpLink _ _ _ _ _ _ _ _ _ _ _ _ | OpPut _ _ _ _ _ _ _ _ _ _ _ => true | _ => false end.

Definition triple (e : EdgeRecord) : N * list N * N := (subject e, predicate e, target e).

(** The call that may bring a deleted edge back: the owner's [link] of the same
    triple, by a caller that has seen the edge's last version. *)
Definition revives (op : gop) (b : N) (e : EdgeRecord) : Prop :=
  match op with
  | OpLink sub pred tgt _ _ _ _ observed _ _ _ _ =>
      triple e = (sub, pred, tgt) /\ edge_owner e = b /\ exists v, observed = Some v /\ version e <= v
  | _ => False
  end.

Definition purges (op : gop) (id : NodeId) : Prop :=
  match op with OpPurge id' _ _ => id' = id | _ => False end.

Definition node_update (b : N) (existing : option NodeRecord) (n : NodeRecord) : Prop :=
  owner n = b
  /\ forall n0, existing = Some n0 -> owner n0 = b /\ (tombstone n0 = true -> tombstone n = true).

Definition edge_update (b : N) (op : gop) (e0 e : EdgeRecord) : Prop :=
  edge_owner e0 = b /\ triple e = triple e0 /\ (edge_tombstone e0 = true -> revives op b e0).

(** The graph a commit leaves, without the answer and the notification. *)
Definition commit_graph (now : Instant) (m : M) (t : CapabilityToken) (g : KnowledgeGraph) (id : option N)
    (expected : option VersionId) (r : Record_) (nonce : list N) (io : write_outcome) : KnowledgeGraph :=
  match put_object now m t (storage g) id expected (to_value r) nonce io with
  | (Err e, s) => mkGraph s (index g)
  | (Ok (assigned_id, _), s) => mkGraph s (apply (index g) assigned_id r)
  end.

Lemma commit_record_graph {A : Type} now m t g id expected r nonce io announce (result : N -> A) :
  (commit_record now m t g id expected r nonce io announce result).1.2
  = commit_graph now m t g id expected r nonce io.
Proof. unfold commit_record, commit_graph. by destruct (put_object _ _ _ _ _ _ _ _ _) as [[[]|] ]. Qed.

Definition purge_index (i : GraphIndex) (id : NodeId) : GraphIndex :=
  mkIndex (delete id (nodes i)) (edges i) (forward i) (backward i) (edge_identity i).

Inductive gstep (now : Instant) (m : M) (t : CapabilityToken) (op : gop) (g : KnowledgeGraph) :
    KnowledgeGraph -> Prop :=
| gs_none : gstep now m t op g g
| gs_node id expected n nonce io :
    (op_sound op -> sound_write nonce io) ->
    (op_finite op = true -> finite_index (index g) -> finite_record (RNode n) = true) ->
    (id = None -> needs_id op = true /\ expected = None) ->
    node_update (origin t) (id ← id; nodes (index g) !! id) n ->
    gstep now m t op g (commit_graph now m t g id expected (RNode n) nonce io)
| gs_edge_new expected e nonce io :
    (op_sound op -> sound_write nonce io) ->
    (op_finite op = true -> finite_index (index g) -> finite_record (REdge e) = true) ->
    needs_id op = true -> edge_owner e = origin t ->
    gstep now m t op g (commit_graph now m t g None expected (REdge e) nonce io)
| gs_edge id expected e0 e nonce io :
    (op_sound op -> sound_write nonce io) ->
    (op_finite op = true -> finite_index (index g) -> finite_record (REdge e) = true) ->
    edges (index g) !! id = Some e0 -> edge_update (origin t) op e0 e -> edge_owner e = origin t ->
    gstep now m t op g (commit_graph now m t g (Some id) expected (REdge e) nonce io)
| gs_purge id nonces io n purged s :
    op = OpPurge id nonces io -> nodes (index g) !! id = Some n -> owner n = origin t ->
    purge_object now m t (storage g) id nonces io = (Ok purged, s) ->
    gstep now m t op g (mkGraph s (purge_index (index g) id))
| gs_purge_failed id nonces io err s :
    op = OpPurge id nonces io -> purge_object now m t (storage g) id nonces io = (Err err, s) ->
    gstep now m t op g (mkGraph s (index g)).

(** ** Ids *)

(** Every node the index knows is an object of the engine, every edge id was
    handed out by the engine, and a triple names an edge that has it. *)
Record graph_wf (g : KnowledgeGraph) : Prop := {
  gw_nodes : forall id n, nodes (index g) !! id = Some n -> is_Some (current_version (storage g) id);
  gw_edges : forall id e, edges (index g) !! id = Some e -> id < next_object_id (inner (storage g));
  gw_ident : forall k id, edge_identity (index g) !! k = Some id ->
    exists e, edges (index g) !! id = Some e /\ triple e = k
}.

(** The object number and the version numbers a call may need are there. *)
Definition writes_of (g : KnowledgeGraph) (op : gop) : nat :=
  match op with OpPrune _ _ _ _ => size (edges (index g)) | _ => 1%nat end.

Definition room (g : KnowledgeGraph) (op : gop) : Prop :=
  next_object_id (inner (storage g)) + 1 < two64
  /\ next_version_id (inner (storage g)) + N.of_nat (writes_of g op) < two64.

(** ** The operations are such steps *)

Lemma unlink_gstep now m t op g id nonce io :
  (op_sound op -> sound_write nonce io) ->
  gstep now m t op g (unlink now m t g id nonce io).1.2.
Proof.
  intros Hs. unfold unlink. destruct (require now m t WRITE); [|constructor].
  destruct (edges (index g) !! id) as [e|] eqn:He; [|constructor].
  destruct (N.eqb_spec (edge_owner e) (origin t)) as [Ho|]; [|constructor].
  destruct (edge_tombstone e) eqn:Ht; [constructor|]. simpl. rewrite commit_record_graph.
  eapply gs_edge; [exact Hs| |exact He| |exact Ho].
  - intros _ [_ Hf]. by apply Hf in He.
  - by split_and!; [..|congruence].
Qed.

Lemma unlink_all_gsteps now m t op g ids nonces io :
  (op_sound op -> forall id, sound_write (nonces id) (io id)) ->
  exists n, (n <= length ids)%nat
            /\ nsteps (gstep now m t op) n g (unlink_all now m t g ids nonces io).1.2.
Proof.
  intros Hs. revert g. induction ids as [|id ids IH]; intros g; simpl; [exists 0%nat; split; [done|constructor]|].
  pose proof (unlink_gstep now m t op g id (nonces id) (io id) (fun H => Hs H id)) as Hg.
  destruct (unlink now m t g id (nonces id) (io id)) as [[[[]|err] g1] ns]; simpl in Hg.
  - specialize (IH g1) as (n & Hn & Hsteps).
    destruct (unlink_all now m t g1 ids nonces io) as [[r g2] ns']. simpl in *.
    exists (S n). split; [lia|]. by econstructor.
  - exists 1%nat. simpl. split; [lia|]. by apply nsteps_once.
Qed.

Lemma prune_gsteps now m t g threshold wall nonces io :
  let op := OpPrune threshold wall nonces io in
  exists n, (n <= size (edges (index g)))%nat /\ nsteps (gstep now m t op) n g (exec now m t g op).
Proof.
  intros op. unfold op at 2. simpl. unfold prune_decayed_edges.
  destruct (require now m t WRITE); [|exists 0%nat; split; [lia|constructor]].
  set (ids := fst <$> List.filter _ _).
  assert (Hlen : (length ids <= size (edges (index g)))%nat).
  { unfold ids. rewrite length_fmap, <- (length_map_to_list (edges (index g))).
    rewrite <- (Permutation_length (hash_iter_perm (edges (index g)))). apply List.filter_length_le. }
  destruct (unlink_all_gsteps now m t op g ids nonces io (fun H => H)) as (n & Hn & Hsteps).
  exists n. split; [lia|]. by destruct (unlink_all now m t g ids nonces io) as [[[]] ?].
Qed.

Lemma put_gstep now m t g id ty emb md device orig tenant wall1 wall2 nonce io :
  let op := OpPut id ty emb md device orig tenant wall1 wall2 nonce io in
  gstep now m t op g (exec now m t g op).
Proof.
  intros op. unfold op at 2. simpl. unfold put_node_with_provenance.
  destruct (require now m t WRITE); [|constructor].
  set (existing := id ← id; nodes (index g) !! id).
  destruct (is_some_and existing _) eqn:Ho; [constructor|]. rewrite commit_record_graph.
  apply gs_node; [done|done|by intros ->|]. fold existing. destruct existing as [n0|]; simpl in *.
  - apply negb_false_iff, N.eqb_eq in Ho. split; [done|]. by intros n [= <-].
  - by split.
Qed.

Lemma corroborate_gstep now m t g id wall nonce io :
  let op := OpCorroborate id wall nonce io in gstep now m t op g (exec now m t g op).
Proof.
  intros op. unfold op at 2. simpl. unfold corroborate_node. destruct (require now m t WRITE); [|constructor].
  destruct (nodes (index g) !! id) as [n|] eqn:Hn; [|constructor].
  destruct (own_live (origin t) n) eqn:Ho; [|constructor]. simpl. rewrite commit_record_graph.
  apply andb_true_iff in Ho as [_ Ho%N.eqb_eq].
  apply gs_node; [done| |done|].
  - intros _ [Hf _]. by apply Hf in Hn.
  - simpl. rewrite Hn. split; [done|]. by intros ? [= <-].
Qed.

Lemma delete_gstep now m t g id wall nonce io :
  let op := OpDelete id wall nonce io in gstep now m t op g (exec now m t g op).
Proof.
  intros op. unfold op at 2. simpl. unfold delete_node. destruct (require now m t WRITE); [|constructor].
  destruct (nodes (index g) !! id) as [n|] eqn:Hn; [|constructor].
  destruct (N.eqb_spec (owner n) (origin t)) as [Ho|]; [|constructor].
  destruct (tombstone n); [constructor|]. simpl. rewrite commit_record_graph.
  apply gs_node; [done| |done|].
  - intros _ [Hf _]. by apply Hf in Hn.
  - simpl. rewrite Hn. split; [done|]. by intros ? [= <-].
Qed.

Lemma purge_gstep now m t g id nonces io :
  let op := OpPurge id nonces io in gstep now m t op g (exec now m t g op).
Proof.
  intros op. unfold op at 2. simpl. unfold purge_node_history. destruct (require now m t WRITE); [|constructor].
  destruct (nodes (index g) !! id) as [n|] eqn:Hn; [|constructor].
  destruct (N.eqb_spec (owner n) (origin t)) as [Ho|]; [|constructor]. simpl.
  destruct (purge_object _ _ _ _ _ _ _) as [[k|err] s] eqn:Hp; simpl.
  - by eapply gs_purge.
  - by eapply gs_purge_failed.
Qed.

Lemma link_gstep now m t g sub pred tgt w orig conf prov observed wall1 wall2 nonce io :
  graph_wf g ->
  let op := OpLink sub pred tgt w orig conf prov observed wall1 wall2 nonce io in
  gstep now m t op g (exec now m t g op).
Proof.
  intros Hwf op. unfold op at 2. simpl. unfold link. destruct (require now m t WRITE); [|constructor].
  destruct (_ && _); [constructor|].
  assert (Hid : forall id e, edge_identity (index g) !! (sub, pred, tgt) = Some id ->
                  edges (index g) !! id = Some e -> triple e = (sub, pred, tgt)).
  { intros id e Hi He. destruct (gw_ident _ Hwf _ _ Hi) as (e' & He' & Ht). congruence. }
  destruct (edge_identity (index g) !! (sub, pred, tgt)) as [id|] eqn:Hi; simpl;
    [destruct (edges (index g) !! id) as [e|] eqn:He; simpl|].
  - specialize (Hid id e eq_refl He).
    destruct (N.eqb_spec (edge_owner e) (origin t)) as [Ho|]; [|constructor]. simpl.
    destruct (edge_tombstone e) eqn:Ht.
    + destruct observed as [v|]; simpl; [|constructor]. destruct (N.leb_spec (version e) v); [|constructor].
      simpl. rewrite commit_record_graph. eapply gs_edge; [done|done|done| |done].
      split_and!; [done|by rewrite Hid|]. intros _. simpl. split; [done|]. split; [done|]. by exists v.
    + rewrite commit_record_graph. eapply gs_edge; [done|done|done| |done].
      split_and!; [done|by rewrite Hid|congruence].
  - rewrite commit_record_graph. by apply gs_edge_new.
  - rewrite commit_record_graph. by apply gs_edge_new.
Qed.

(** Every call is as many steps as [writes_of] allows, and one that is not a
    pruning is a single step. *)
Lemma exec_gsteps now m t g op :
  graph_wf g ->
  exists n, (n <= writes_of g op)%nat /\ (needs_id op = true -> n = 1%nat)
            /\ nsteps (gstep now m t op) n g (exec now m t g op).
Proof.
  intros Hwf. destruct op as [| |th wall nonces io| | | |];
    try (exists 1%nat; split; [done|]; split; [done|]; apply nsteps_once;
         first [by apply link_gstep|by apply put_gstep|by apply corroborate_gstep|by apply delete_gstep
               |by apply purge_gstep|by apply unlink_gstep]).
  destruct (prune_gsteps now m t g th wall nonces io) as (n & Hn & Hs). by exists n.
Qed.

(** ** What a step does to the index *)

Lemma put_object_grows now m t s id expected v nonce io :
  (id = None -> next_object_id (inner s) + 1 < two64) ->
  let s' := (put_object (M := M) now m t s id expected v nonce io).2 in
  (forall x, is_Some (current_version s x) -> is_Some (current_version s' x))
  /\ next_object_id (inner s) <= next_object_id (inner s').
Proof.
  intros Hlt. unfold put_object, current_version. destruct (authorize now m t WRITE); [|simpl; split; [done|lia]].
  assert (Htarget : exists o n, match id with
    | Some id => (id, next_object_id (inner s))
    | None => (next_object_id (inner s), u64_add (next_object_id (inner s)) 1)
    end = (o, n) /\ next_object_id (inner s) <= n).
  { destruct id; eexists _, _; (split; [done|]); [lia|]. rewrite u64_add_small by auto. lia. }
  destruct Htarget as (o & n & -> & Hn). case_bool_decide; [done|]. destruct io; simpl; [|done].
  split; [|done]. intros x Hx. destruct (decide (o = x)) as [->|Hne].
  - rewrite lookup_insert_eq. by eexists.
  - by rewrite lookup_insert_ne.
Qed.

(** A commit that went through: where the record went. *)
Lemma put_object_assigned now m t s id expected v nonce io o w s' :
  (id = None -> next_object_id (inner s) + 1 < two64) ->
  put_object (M := M) now m t s id expected v nonce io = (Ok (o, w), s') ->
  o = default (next_object_id (inner s)) id /\ current_version s o = expected
  /\ is_Some (current_version s' o) /\ (id = None -> o < next_object_id (inner s')).
Proof.
  intros Hlt. unfold put_object, current_version. destruct (authorize now m t WRITE); [|done].
  destruct id as [id|]; simpl; (case_bool_decide as Hcas; [done|]);
    destruct io; simpl; try done; intros [= <- <- <-]; simpl; rewrite lookup_insert_eq;
    (split; [done|]; split; [done|]; split; [by eexists|]); [done|].
  intros _. rewrite u64_add_small by auto. lia.
Qed.

(** The index and the engine after a commit, without the engine's details. *)
Inductive commit_effect (g : KnowledgeGraph) (id : option N) (expected : option VersionId) (r : Record_)
    (g' : KnowledgeGraph) : Prop :=
| ce_failed : index g' = index g -> commit_effect g id expected r g'
| ce_done o :
    index g' = apply (index g) o r -> o = default (next_object_id (inner (storage g))) id ->
    current_version (storage g) o = expected -> is_Some (current_version (storage g') o) ->
    (id = None -> o < next_object_id (inner (storage g'))) -> commit_effect g id expected r g'.

Lemma commit_graph_effect now m t g id expected r nonce io :
  (id = None -> next_object_id (inner (storage g)) + 1 < two64) ->
  let g' := commit_graph now m t g id expected r nonce io in
  commit_effect g id expected r g'
  /\ (forall x, is_Some (current_version (storage g) x) -> is_Some (current_version (storage g') x))
  /\ next_object_id (inner (storage g)) <= next_object_id (inner (storage g')).
Proof.
  intros Hlt. pose proof (put_object_grows now m t (storage g) id expected (to_value r) nonce io Hlt) as Hgrow.
  unfold commit_graph.
  destruct (put_object now m t (storage g) id expected (to_value r) nonce io) as [[[o w]|err] s'] eqn:Hput;
    simpl in *; (split; [|done]).
  - apply put_object_assigned in Hput as (Ho & Hc & Hs & Hn); [|done]. by apply (ce_done _ _ _ _ _ o).
  - by constructor.
Qed.

Lemma apply_node_lookup i id n x :
  nodes (apply i id (RNode n)) !! x = if decide (x = id) then Some n else nodes i !! x.
Proof.
  simpl. destruct (decide (x = id)) as [->|Hne]; [apply lookup_insert_eq|by apply lookup_insert_ne].
Qed.

Lemma apply_edge_lookup i id e x :
  edges (apply i id (REdge e)) !! x = if decide (x = id) then Some e else edges i !! x.
Proof.
  simpl. destruct (decide (x = id)) as [->|Hne]; [apply lookup_insert_eq|by apply lookup_insert_ne].
Qed.

Lemma purge_object_effect now m t s id nonces io res s' :
  purge_object (M := M) now m t s id nonces io = (res, s') ->
  next_object_id (inner s') = next_object_id (inner s)
  /\ (forall x, x <> id \/ is_ok res = false -> current_version s' x = current_version s x).
Proof.
  unfold purge_object, current_version. destruct (authorize now m t WRITE); [|by intros [= <- <-]].
  destruct (_ && _); [by intros [= <- <-]|]. unfold install_log.
  destruct (compact_impl _ _ _ _ _) as [path [w|]]; intros [= <- <-]; simpl; [|done].
  split; [done|]. intros x [Hx|]; [|done]. by apply lookup_delete_ne.
Qed.

(** A record that replaces one of its kind, or takes a new id. *)
Definition fits (g : KnowledgeGraph) (id : option N) (r : Record_) : Prop :=
  match r, id with
  | REdge e, Some id => exists e0, edges (index g) !! id = Some e0 /\ triple e = triple e0
  | _, _ => True
  end.

Lemma commit_wf now m t g id expected r nonce io :
  graph_wf g -> (id = None -> next_object_id (inner (storage g)) + 1 < two64) -> fits g id r ->
  graph_wf (commit_graph now m t g id expected r nonce io).
Proof.
  intros [Hn He Hi] Hlt Hfit.
  destruct (commit_graph_effect now m t g id expected r nonce io Hlt) as (Heff & Hgrow & Hnext).
  revert Heff Hgrow Hnext. generalize (commit_graph now m t g id expected r nonce io). intros g' Heff Hgrow Hnext.
  destruct Heff as [Hix|o Hix Ho _ Hcur Hnew].
  { constructor; rewrite Hix; [|intros x e Hx; specialize (He _ _ Hx); lia|done].
    intros x n Hx. apply Hgrow. by eapply Hn. }
  destruct r as [n|e]; constructor; rewrite Hix.
  - intros x n'. rewrite apply_node_lookup. destruct (decide (x = o)) as [->|]; [done|].
    intros Hx. apply Hgrow. by eapply Hn.
  - intros x e Hx. specialize (He _ _ Hx). lia.
  - done.
  - intros x n Hx. apply Hgrow. by eapply Hn.
  - intros x e'. rewrite apply_edge_lookup. destruct (decide (x = o)) as [->|]; intros Hx.
    + destruct id as [id|]; [|by apply Hnew]. destruct Hfit as (e0 & He0 & _). simpl in Ho. subst o.
      specialize (He _ _ He0). lia.
    + specialize (He _ _ Hx). lia.
  - intros k x. setoid_rewrite apply_edge_lookup. simpl.
    intros [[<- <-]|[Hne Hx]]%lookup_insert_Some; [exists e; by rewrite decide_True|].
    destruct (Hi _ _ Hx) as (e' & He' & <-). destruct (decide (x = o)) as [->|]; [|by exists e'].
    exists e. split; [done|]. destruct id as [id|]; simpl in Ho; subst o.
    + destruct Hfit as (e0 & He0 & ->). by simplify_eq.
    + specialize (He _ _ He'). lia.
Qed.

Lemma gstep_wf now m t op g g' :
  graph_wf g -> (needs_id op = true -> next_object_id (inner (storage g)) + 1 < two64) ->
  gstep now m t op g g' -> graph_wf g'.
Proof.
  intros Hwf Hlt Hs.
  destruct Hs as [|id ex n nonce io _ _ Hid Hu|ex e nonce io _ _ Hid _|id ex e0 e nonce io _ _ He0 (_ & Htr & _) _
                 |id nonces io n k s -> Hn Ho Hp|id nonces io err s -> Hp].
  - done.
  - apply commit_wf; [done|naive_solver|done].
  - apply commit_wf; [done|auto|done].
  - apply commit_wf; [done|done|]. by exists e0.
  - apply purge_object_effect in Hp as [Hnext Hcur]. destruct Hwf as [Hwn Hwe Hwi]. constructor; simpl; [|by rewrite Hnext|done].
    intros x n' [Hne Hx]%lookup_delete_Some. rewrite Hcur by auto. by eapply Hwn.
  - apply purge_object_effect in Hp as [Hnext Hcur]. destruct Hwf as [Hwn Hwe Hwi]. constructor; simpl; [|by rewrite Hnext|done].
    intros x n Hx. rewrite Hcur by auto. by eapply Hwn.
Qed.

(** ** Owners *)

(** What boundary [b] may make of an index: everyone else's records stay as they
    are, and what is new or different afterwards belongs to [b]. *)
Record within (b : N) (i i' : GraphIndex) : Prop := {
  w_nodes : forall id n, nodes i !! id = Some n -> owner n <> b -> nodes i' !! id = Some n;
  w_edges : forall id e, edges i !! id = Some e -> edge_owner e <> b -> edges i' !! id = Some e;
  w_new_nodes : forall id n, nodes i' !! id = Some n -> nodes i !! id = Some n \/ owner n = b;
  w_new_edges : forall id e, edges i' !! id = Some e -> edges i !! id = Some e \/ edge_owner e = b
}.

#[export] Instance within_preorder b : PreOrder (within b).
Proof.
  split; [by intros i; constructor; auto|].
  intros i j k [N1 E1 N1' E1'] [N2 E2 N2' E2']. constructor; naive_solver.
Qed.

Lemma apply_node_within b i o n :
  owner n = b -> (forall n0, nodes i !! o = Some n0 -> owner n0 = b) -> within b i (apply i o (RNode n)).
Proof.
  intros Hn Ho. constructor; simpl; [|auto|intros id n'|auto].
  - intros id n' Hid Hb. rewrite lookup_insert_ne; [done|]. intros <-. by apply Hb, Ho.
  - intros [[<- <-]|[_ ?]]%lookup_insert_Some; auto.
Qed.

Lemma apply_edge_within b i o e :
  edge_owner e = b -> (forall e0, edges i !! o = Some e0 -> edge_owner e0 = b) ->
  within b i (apply i o (REdge e)).
Proof.
  intros He Ho. constructor; simpl; [auto| |auto|intros id e'].
  - intros id e' Hid Hb. rewrite lookup_insert_ne; [done|]. intros <-. by apply Hb, Ho.
  - intros [[<- <-]|[_ ?]]%lookup_insert_Some; auto.
Qed.

Lemma gstep_within now m t op g g' :
  graph_wf g -> (needs_id op = true -> next_object_id (inner (storage g)) + 1 < two64) ->
  gstep now m t op g g' -> within (origin t) (index g) (index g').
Proof.
  intros Hwf Hlt Hs.
  destruct Hs as [|id ex n nonce io _ _ Hid [Hn Hu]|ex e nonce io _ _ Hid He
                 |id ex e0 e nonce io _ _ He0 (Ho & _ & _) He|id nonces io n k s -> Hn Ho Hp|].
  - reflexivity.
  - destruct (commit_graph_effect now m t g id ex (RNode n) nonce io ltac:(naive_solver)) as ([->|o -> Ho Hex _ _] & _);
      [reflexivity|]. apply apply_node_within; [done|]. intros n0 Hn0.
    destruct id as [id|]; simpl in *; [subst o; by apply Hu|].
    destruct Hid as [_ ->]; [done|]. destruct (gw_nodes _ Hwf _ _ Hn0) as [v Hv]. congruence.
  - destruct (commit_graph_effect now m t g None ex (REdge e) nonce io ltac:(auto)) as ([->|o -> Ho _ _ _] & _);
      [reflexivity|]. apply apply_edge_within; [done|]. intros e0 He0%(gw_edges _ Hwf). simpl in Ho. lia.
  - destruct (commit_graph_effect now m t g (Some id) ex (REdge e) nonce io ltac:(done)) as ([->|o -> -> _ _ _] & _);
      [reflexivity|]. apply apply_edge_within; [done|]. simpl. intros e1 He1. congruence.
  - constructor; simpl; [|auto|intros x n' [_ ?]%lookup_delete_Some; auto|auto].
    intros x n' Hx Hb. rewrite lookup_delete_ne; [done|]. intros <-. congruence.
  - reflexivity.
Qed.

(** ** Deletions *)

(** What a call may make of deleted nodes and edges. *)
Record deletions_hold (op : gop) (b : N) (i i' : GraphIndex) : Prop := {
  dh_nodes : forall id n, nodes i !! id = Some n -> tombstone n = true ->
    (exists n', nodes i' !! id = Some n' /\ tombstone n' = true /\ owner n' = owner n)
    \/ (purges op id /\ owner n = b);
  dh_edges : forall id e, edges i !! id = Some e -> edge_tombstone e = true ->
    edges i' !! id = Some e \/ revives op b e
}.

#[export] Instance deletions_hold_preorder op b : PreOrder (deletions_hold op b).
Proof.
  split; [by intros i; constructor; eauto|].
  intros i j k [N1 E1] [N2 E2]. constructor.
  - intros id n Hn Ht. destruct (N1 _ _ Hn Ht) as [(n' & Hn' & Ht' & Ho)|]; [|by right].
    destruct (N2 _ _ Hn' Ht') as [(n2 & ? & ? & ?)|[? ?]]; [left|right; by rewrite <- Ho].
    exists n2. by rewrite <- Ho.
  - intros id e He Ht. destruct (E1 _ _ He Ht); [|by right]. eauto.
Qed.

Lemma gstep_deletions_hold now m t op g g' :
  graph_wf g -> (needs_id op = true -> next_object_id (inner (storage g)) + 1 < two64) ->
  gstep now m t op g g' -> deletions_hold op (origin t) (index g) (index g').
Proof.
  intros Hwf Hlt Hs.
  destruct Hs as [|id ex n nonce io _ _ Hid [Hn Hu]|ex e nonce io _ _ Hid He
                 |id ex e0 e nonce io _ _ He0 (Ho & _ & Hr) He|id nonces io n k s -> Hn Ho Hp|].
  - reflexivity.
  - destruct (commit_graph_effect now m t g id ex (RNode n) nonce io ltac:(naive_solver)) as ([->|o -> Ho Hex _ _] & _);
      [reflexivity|]. constructor; [|auto]. intros x n0 Hx Ht. left. rewrite apply_node_lookup.
    destruct (decide (x = o)) as [->|]; [|by exists n0]. exists n. split; [done|].
    destruct id as [id|]; simpl in *.
    + subst o. destruct (Hu _ Hx) as [-> Ht']. auto.
    + destruct Hid as [_ ->]; [done|]. destruct (gw_nodes _ Hwf _ _ Hx) as [v Hv]. congruence.
  - destruct (commit_graph_effect now m t g None ex (REdge e) nonce io ltac:(auto)) as ([->|o -> Ho _ _ _] & _);
      [reflexivity|]. constructor; [by eauto|]. intros x e0 Hx Ht. left. rewrite apply_edge_lookup.
    rewrite decide_False; [done|]. intros ->. apply (gw_edges _ Hwf) in Hx. simpl in Ho. lia.
  - destruct (commit_graph_effect now m t g (Some id) ex (REdge e) nonce io ltac:(done)) as ([->|o -> -> _ _ _] & _);
      [reflexivity|]. constructor; [by eauto|]. simpl default. intros x e1 Hx Ht. rewrite apply_edge_lookup.
    destruct (decide (x = id)) as [->|]; [|by left]. right. simplify_eq. by apply Hr.
  - constructor; simpl; [|auto]. intros x n' Hx Ht. destruct (decide (id = x)) as [->|Hne].
    + right. split; [done|]. congruence.
    + left. exists n'. by rewrite lookup_delete_ne.
  - reflexivity.
Qed.

(** A relation every step respects holds of a whole call. *)
Lemma exec_respects (R : GraphIndex -> GraphIndex -> Prop) `{!PreOrder R} now m t g op :
  (forall g g', graph_wf g -> (needs_id op = true -> next_object_id (inner (storage g)) + 1 < two64) ->
                gstep now m t op g g' -> R (index g) (index g')) ->
  graph_wf g -> next_object_id (inner (storage g)) + 1 < two64 ->
  R (index g) (index (exec now m t g op)) /\ graph_wf (exec now m t g op).
Proof.
  intros HR Hwf Hlt. destruct (exec_gsteps now m t g op Hwf) as (n & _ & Hone & Hs).
  destruct (needs_id op) eqn:Hop.
  - rewrite Hone in Hs by done. apply nsteps_once_inv in Hs. split; [by apply HR|].
    eapply gstep_wf; [done| |done]; done.
  - clear Hone Hlt. revert Hwf. induction Hs as [g|n g1 g2 g3 Hs _ IH]; intros Hwf; [by split|].
    destruct IH as [IHr IHw]; [eapply gstep_wf; [done| |done]; congruence|]. split; [|done].
    etrans; [|exact IHr]. apply HR; [done|congruence|done].
Qed.

(** ** The index is the log, replayed *)

Lemma rebuild_from_snoc rs r :
  rebuild_from (rs ++ [r])
  = match from_value (metadata r) with
    | Some rec => apply (rebuild_from rs) (object_id r) rec
    | None => rebuild_from rs
    end.
Proof. unfold rebuild_from. by rewrite fold_left_app. Qed.

(** An edge of the index has a record in the log, and keeps it in the index. *)
Lemma rebuild_from_edges rs id :
  is_Some (edges (rebuild_from rs) !! id) ->
  exists r, r ∈ rs /\ object_id r = id.
Proof.
  induction rs as [|r rs IH] using rev_ind; [by intros []|]. rewrite rebuild_from_snoc.
  setoid_rewrite elem_of_app. setoid_rewrite list_elem_of_singleton.
  destruct (from_value (metadata r)) as [[n|e]|]; [naive_solver| |naive_solver].
  rewrite apply_edge_lookup. destruct (decide (id = object_id r)); naive_solver.
Qed.

Lemma rebuild_from_nodes rs id n :
  nodes (rebuild_from rs) !! id = Some n -> exists r, r ∈ rs /\ object_id r = id.
Proof.
  induction rs as [|r rs IH] using rev_ind; [done|]. rewrite rebuild_from_snoc.
  setoid_rewrite elem_of_app. setoid_rewrite list_elem_of_singleton.
  destruct (from_value (metadata r)) as [[n'|e]|]; [|naive_solver..].
  rewrite apply_node_lookup. destruct (decide (id = object_id r)); naive_solver.
Qed.

(** Dropping a node's records from the log drops it from the index, and nothing
    else, if the id is not also an edge's. *)
Lemma rebuild_from_without rs id :
  edges (rebuild_from rs) !! id = None ->
  rebuild_from (filter (fun r => object_id r <> id) rs) = purge_index (rebuild_from rs) id.
Proof.
  induction rs as [|r rs IH] using rev_ind.
  { intros _. unfold purge_index. simpl. by rewrite delete_empty. }
  rewrite filter_app, rebuild_from_snoc. intros Hnone.
  assert (Hbefore : edges (rebuild_from rs) !! id = None).
  { destruct (from_value (metadata r)) as [[n|e]|]; [done| |done].
    rewrite apply_edge_lookup in Hnone. by destruct (decide (id = object_id r)). }
  rewrite filter_cons, filter_nil. destruct (decide (object_id r <> id)) as [Hne|Heq].
  - rewrite rebuild_from_snoc, IH by done. destruct (from_value (metadata r)) as [[n|e]|]; [|done..].
    unfold purge_index. simpl. f_equal. by rewrite delete_insert_ne.
  - apply dec_stable in Heq. rewrite app_nil_r, IH by done.
    destruct (from_value (metadata r)) as [[n|e]|]; [| |done].
    + unfold purge_index. simpl. subst id. by rewrite delete_insert_eq.
    + rewrite apply_edge_lookup, decide_True in Hnone by done. done.
Qed.

(** The index does not read who wrote a record. *)
Definition restamp (orig : N) (r : WalRecord V) : WalRecord V :=
  mkRecord (object_id r) (prev_version r) (new_version r) (metadata r) orig.

Lemma rebuild_from_restamp orig rs : rebuild_from (restamp orig <$> rs) = rebuild_from rs.
Proof.
  induction rs as [|r rs IH] using rev_ind; [done|]. rewrite fmap_app.
  change (restamp orig <$> [r]) with [restamp orig r]. by rewrite !rebuild_from_snoc, IH.
Qed.

Definition version_lt (r1 r2 : WalRecord V) : Prop := new_version r1 < new_version r2.

Lemma version_lt_NoDup rs : StronglySorted version_lt rs -> NoDup rs.
Proof.
  induction 1 as [|r rs _ IH Hall]; constructor; [|done].
  intros Hin. rewrite Forall_forall in Hall. specialize (Hall _ Hin). unfold version_lt in Hall. lia.
Qed.

Lemma version_lt_inj rs r1 r2 :
  StronglySorted version_lt rs -> r1 ∈ rs -> r2 ∈ rs -> new_version r1 = new_version r2 -> r1 = r2.
Proof.
  induction 1 as [|r rs _ IH Hall]; [by intros ?%not_elem_of_nil|]. rewrite Forall_forall in Hall.
  unfold version_lt in *. rewrite !elem_of_cons. intros [->|H3] [->|H4] Hv; [done| | |by apply IH].
  - specialize (Hall _ H4). lia.
  - specialize (Hall _ H3). lia.
Qed.

Lemma NoDup_surviving i id orig : NoDup (surviving (V := V) i id orig).
Proof.
  unfold surviving. rewrite sort_by_key_perm, <- list_fmap_compose. apply NoDup_fmap_2_strong.
  - intros [v [o p md]] [v' [o' p' md']] _ _. by intros [= <- <- <- <-].
  - apply NoDup_filter, NoDup_hash_iter.
Qed.

(** With the versions of the log in order, what survives a purge is the log
    without the object. *)
Lemma surviving_filter w rs i id orig :
  StronglySorted version_lt rs -> same_views (rebuild w rs) i ->
  surviving i id orig = restamp orig <$> filter (fun r => object_id r <> id) rs.
Proof.
  intros Hs (_ & _ & Hc).
  assert (Hmem : forall r, r ∈ restamp orig <$> filter (fun r => object_id r <> id) rs <-> r ∈ surviving i id orig).
  { intros r. rewrite elem_of_surviving, list_elem_of_fmap. setoid_rewrite list_elem_of_filter.
    rewrite <- Hc, rebuild_chain, fmap_Some. split.
    - intros (r0 & -> & Hne & Hin). split; [|done]. exists r0. split; [|done].
      apply last_filter_Some; [done|done|]. intros r1 Hin1 Hv. by eapply version_lt_inj.
    - intros ((r0 & Hl & Ht) & Hne & Ha). apply last_Some_elem_of, list_elem_of_filter in Hl as [Hv Hin].
      exists r0. unfold to_version in Ht. destruct r, r0. simpl in *. by simplify_eq. }
  apply (StronglySorted_unique_strong (key_le new_version)).
  - intros r1 r2 H3 H4%Hmem. unfold key_le. intros Hle1 Hle2. apply elem_of_surviving in H3 as (Hc1 & _ & Ha1).
    apply elem_of_surviving in H4 as (Hc2 & _ & Ha2).
    assert (Hv : new_version r1 = new_version r2) by lia. rewrite Hv, Hc2 in Hc1. injection Hc1.
    destruct r1, r2. simpl in *. by intros; subst.
  - apply surviving_sorted.
  - apply StronglySorted_fmap, StronglySorted_filter. simpl.
    eapply StronglySorted_mono; [|exact Hs]. unfold version_lt, key_le. simpl. lia.
  - symmetry. apply NoDup_Permutation; [|apply NoDup_surviving|done].
    apply NoDup_fmap_2_strong; [|by apply NoDup_filter, version_lt_NoDup].
    intros r1 r2 [_ H3]%list_elem_of_filter [_ H4]%list_elem_of_filter Heq. eapply version_lt_inj; [done..|].
    by injection Heq.
Qed.

(** What a write does to the records on disk. *)
Lemma put_object_replay now m t e id expected v nonce io rs :
  consistent e -> sound_write nonce io ->
  replay_lines (disk e) (encryption_key e) = Ok rs ->
  let '(res, e') := put_object (M := M) now m t e id expected v nonce io in
  replay_lines (disk e') (encryption_key e)
  = Ok (match res with
        | Ok (o, w) => rs ++ [mkRecord o (version_pointer (inner e) !! o) w v (origin t)]
        | Err _ => rs
        end)
  /\ forall o w, res = Ok (o, w) -> w = next_version_id (inner e).
Proof.
  intros [Hlk Hd Hseal (rs' & Hlog & _) _] [Hn Hio] Hr.
  rewrite Hd, (log_replay _ _ _ Hlog) in Hr. injection Hr as ->. unfold put_object.
  destruct (authorize now m t WRITE); [|by rewrite Hd, (log_replay _ _ _ Hlog)].
  set (target := match id with Some id => _ | None => _ end). destruct target as [o next].
  case_bool_decide; simpl; [by rewrite Hd, (log_replay _ _ _ Hlog)|].
  unfold sync_disk. rewrite Hlk. destruct Hio as [-> | ->]; simpl; rewrite Hseal.
  - split; [|by intros ? ? [= <- <-]]. apply log_replay. by apply log_snoc.
  - split; [|done]. rewrite app_nil_r. by apply log_replay.
Qed.

(** ** Reachable graphs *)

(** What [serde_json] promises of a record whose numbers are finite (it writes
    [null] for the others). *)
Context (record_law : forall r, finite_record r = true -> from_value (to_value r) = Some r).

(** The log's records are in the order of their versions, and replaying them
    gives the index. *)
Definition mirrored (g : KnowledgeGraph) : Prop :=
  exists rs, replay_lines (disk (storage g)) (encryption_key (storage g)) = Ok rs
             /\ StronglySorted version_lt rs /\ index g = rebuild_from rs.

Record ginv (k : option Key) (g : KnowledgeGraph) : Prop := {
  gi_engine : consistent (storage g);
  gi_key : encryption_key (storage g) = k;
  gi_next : next_object_id (inner (storage g)) < two64;
  gi_wf : graph_wf g;
  gi_finite : finite_index (index g);
  gi_mirror : mirrored g
}.

Lemma finite_apply i o r : finite_index i -> finite_record r = true -> finite_index (apply i o r).
Proof.
  intros [Hn He] Hr. destruct r as [n|e]; split; simpl; try done.
  - intros x n' [[<- <-]|[_ ?]]%lookup_insert_Some; [done|]. by eapply Hn.
  - intros x e' [[<- <-]|[_ ?]]%lookup_insert_Some; [done|]. by eapply He.
Qed.

Lemma put_object_next now m t s id expected v nonce io :
  let s' := (put_object (M := M) now m t s id expected v nonce io).2 in
  (next_object_id (inner s) < two64 -> next_object_id (inner s') < two64)
  /\ (next_version_id (inner s) + 1 < two64 ->
      next_version_id (inner s') <= next_version_id (inner s) + 1).
Proof.
  unfold put_object. destruct (authorize now m t WRITE); [|simpl; split; [done|lia]].
  assert (Htarget : exists o n, match id with
    | Some id => (id, next_object_id (inner s))
    | None => (next_object_id (inner s), u64_add (next_object_id (inner s)) 1)
    end = (o, n) /\ (next_object_id (inner s) < two64 -> n < two64)).
  { destruct id; eexists _, _; (split; [done|]); [done|]. intros _. apply u64_add_lt. }
  destruct Htarget as (o & n & -> & Hn). case_bool_decide; [simpl; split; [done|lia]|].
  destruct io; simpl; (split; [done|]); [|lia]. intros Hlt. by rewrite u64_add_small.
Qed.

(** The versions of the log are below the next one. *)
Lemma replayed_versions e rs r :
  consistent e -> replay_lines (disk e) (encryption_key e) = Ok rs -> r ∈ rs ->
  new_version r < next_version_id (inner e).
Proof.
  intros [_ Hd Hs (rs' & Hl & Hv) Hh] Hr Hin. rewrite Hd, (log_replay _ _ _ Hl) in Hr. injection Hr as ->.
  destruct (chain_record (wal (inner e)) _ _ Hin) as [rec Hrec]. destruct Hv as (_ & _ & Hc).
  rewrite Hc in Hrec. by eapply h_fresh.
Qed.

Lemma commit_mirrored now m t g id expected r nonce io :
  consistent (storage g) -> mirrored g -> sound_write nonce io -> finite_record r = true ->
  mirrored (commit_graph now m t g id expected r nonce io).
Proof.
  intros Hc (rs & Hr & Hs & Hix) Hw Hf. unfold commit_graph, mirrored.
  pose proof (put_object_replay now m t (storage g) id expected (to_value r) nonce io rs Hc Hw Hr) as Hput.
  pose proof (put_object_key now m t (storage g) id expected (to_value r) nonce io) as Hk.
  destruct (put_object now m t (storage g) id expected (to_value r) nonce io) as [[[o w]|err] s']; simpl in *;
    rewrite Hk; destruct Hput as [Hput Hv].
  - eexists. split; [exact Hput|]. split.
    + apply StronglySorted_app_2; [|done|by repeat constructor].
      intros r1 r2 Hr1 ->%list_elem_of_singleton. unfold version_lt. simpl. rewrite (Hv o w) by done.
      by eapply replayed_versions.
    + rewrite rebuild_from_snoc. simpl. by rewrite record_law, Hix.
  - by exists rs.
Qed.

Lemma commit_inv k now m t g id expected r nonce io :
  ginv k g -> (id = None -> next_object_id (inner (storage g)) + 1 < two64) -> fits g id r ->
  sound_write nonce io -> finite_record r = true -> next_version_id (inner (storage g)) + 1 < two64 ->
  let g' := commit_graph now m t g id expected r nonce io in
  ginv k g' /\ next_version_id (inner (storage g')) <= next_version_id (inner (storage g)) + 1.
Proof.
  intros [Hc Hk Hn Hwf Hfin Hmir] Hlt Hfit Hw Hf Hv g'.
  pose proof (put_object_next now m t (storage g) id expected (to_value r) nonce io) as [Hnext Hnv].
  pose proof (put_object_key now m t (storage g) id expected (to_value r) nonce io) as Hkey.
  assert (Hs : storage g' = (put_object now m t (storage g) id expected (to_value r) nonce io).2).
  { unfold g', commit_graph. by destruct (put_object _ _ _ _ _ _ _ _ _) as [[[]|] ]. }
  rewrite <- Hs in Hnext, Hnv, Hkey. split; [|auto]. constructor.
  - destruct Hw as [Hno Hio]. eapply put_object_consistent; [exact Hc|exact Hno|exact Hio|exact Hv|].
    rewrite Hs. apply surjective_pairing.
  - by rewrite Hkey.
  - auto.
  - by apply commit_wf.
  - unfold g'. destruct (commit_graph_effect now m t g id expected r nonce io Hlt) as ([->|o -> _ _ _ _] & _);
      [done|]. by apply finite_apply.
  - by apply commit_mirrored.
Qed.

Lemma purge_mirrored now m t g id nonces io purged s :
  consistent (storage g) -> mirrored g -> (forall n, is_nonce (nonces n)) ->
  edges (index g) !! id = None -> purge_object (M := M) now m t (storage g) id nonces io = (Ok purged, s) ->
  mirrored (mkGraph s (purge_index (index g) id)).
Proof.
  intros [_ Hd Hseal (rs' & Hl & Hv) _] (rs & Hr & Hs & Hix) Hn Hedge Hp. unfold mirrored. simpl.
  pose proof (purge_key now m t (storage g) id nonces io) as Hk. rewrite Hp in Hk. simpl in Hk. rewrite Hk.
  rewrite Hd, (log_replay _ _ _ Hl) in Hr. injection Hr as ->. unfold purge_object in Hp.
  destruct (authorize now m t WRITE); [|done]. destruct (_ && _); [done|].
  rewrite (surviving_filter _ _ _ _ _ Hs Hv) in Hp.
  destruct (install_log _ _ _ _) as [[w|] e1] eqn:Hi; [|done]. injection Hp as _ <-.
  eexists. split; [by eapply install_log_replay|]. split.
  - apply StronglySorted_fmap, StronglySorted_filter. by eapply StronglySorted_mono; [|exact Hs].
  - rewrite rebuild_from_restamp, rebuild_from_without, Hix; [done|]. by rewrite <- Hix.
Qed.

(** The engine keeps its numbers through a purge. *)
Lemma purge_numbers now m t s id nonces io :
  let s' := (purge_object (M := M) now m t s id nonces io).2 in
  next_object_id (inner s') = next_object_id (inner s) /\ next_version_id (inner s') = next_version_id (inner s).
Proof.
  unfold purge_object. destruct (authorize now m t WRITE); [|done]. destruct (_ && _); [done|].
  unfold install_log. by destruct (compact_impl _ _ _ _ _) as [path [w|]].
Qed.

(** A purge of an id that is also an edge's would drop the edge from the log but
    not from the index. *)
Definition purges_no_edge (g : KnowledgeGraph) (op : gop) : Prop :=
  forall id, purges op id -> edges (index g) !! id = None.

Lemma gstep_inv k now m t op g g' :
  ginv k g -> (needs_id op = true -> next_object_id (inner (storage g)) + 1 < two64) ->
  op_sound op -> op_finite op = true -> purges_no_edge g op ->
  next_version_id (inner (storage g)) + 1 < two64 -> gstep now m t op g g' ->
  ginv k g' /\ next_version_id (inner (storage g')) <= next_version_id (inner (storage g)) + 1.
Proof.
  intros Hi Hlt Hsound Hfin Hpe Hv Hs. pose proof (gi_finite _ _ Hi) as Hix.
  pose proof (gstep_wf _ _ _ _ _ _ (gi_wf _ _ Hi) Hlt Hs) as Hwf'.
  destruct Hs as [|id ex n nonce io Hw Hf Hid Hu|ex e nonce io Hw Hf Hid He
                 |id ex e0 e nonce io Hw Hf He0 (_ & Htr & _) He|id nonces io n p s -> Hn Ho Hp|id nonces io err s -> Hp].
  - split; [done|lia].
  - apply commit_inv; [done|naive_solver|done|auto..].
  - apply commit_inv; [done|auto|done|auto..].
  - apply commit_inv; [done|done|by exists e0|auto..].
  - pose proof (purge_numbers now m t (storage g) id nonces io) as [Ha Hb]. rewrite Hp in Ha, Hb. simpl in *.
    destruct Hi as [Hc Hk Hnx _ [Hfn Hfe] Hm], Hsound as [Hno Hio].
    pose proof (purge_key now m t (storage g) id nonces io) as Hkey. rewrite Hp in Hkey. simpl in Hkey.
    split; [|simpl; lia]. constructor; simpl; [by eapply purge_consistent|congruence|lia|done| |].
    + split; [|done]. simpl. intros x n' [_ Hx]%lookup_delete_Some. by eapply Hfn.
    + eapply purge_mirrored; [done|done|done|by apply Hpe|done].
  - destruct Hi as [Hc Hk Hnx Hw Hfi Hm], Hsound as [Hno Hio].
    assert (Hsame : s = storage g).
    { unfold purge_object in Hp. destruct (authorize now m t WRITE); [|by injection Hp].
      destruct (_ && _); [by injection Hp|]. destruct (install_log _ _ _ _) as [[w|] e1] eqn:Hinst; [done|].
      injection Hp as _ <-. by eapply install_log_failed. }
    subst s. simpl. split; [|lia]. by constructor.
Qed.

Lemma exec_inv k now m t g op :
  ginv k g -> op_sound op -> op_finite op = true -> purges_no_edge g op -> room g op ->
  ginv k (exec now m t g op).
Proof.
  intros Hi Hs Hf Hpe [Hlt Hv]. destruct (exec_gsteps now m t g op (gi_wf _ _ Hi)) as (n & Hn & Hone & Hst).
  assert (Hpu : (exists id, purges op id) \/ ~ exists id, purges op id).
  { destruct op; try (right; by intros []). left. by eexists. }
  destruct Hpu as [Hpu|Hpu].
  { destruct op; simpl in Hpu; try (by destruct Hpu). simpl in Hv.
    eapply (gstep_inv k); [exact Hi|intros _; exact Hlt|exact Hs|exact Hf|exact Hpe|lia|by apply purge_gstep]. }
  destruct (needs_id op) eqn:Hop.
  { rewrite Hone in Hst, Hn by done. apply nsteps_once_inv in Hst.
    eapply (gstep_inv k); [done|done|done|done|done|lia|done]. }
  assert (Hroom : next_version_id (inner (storage g)) + N.of_nat n < two64) by lia.
  clear Hone Hlt Hv Hn Hpe. revert Hi Hroom. induction Hst as [g|n g1 g2 g3 Hstep _ IH]; intros Hi Hroom; [done|].
  destruct (gstep_inv k now m t op g1 g2) as [Hi2 Hv2]; try done; [congruence| |lia|].
  { intros id Hid. destruct Hpu. by exists id. }
  apply IH; [done|lia].
Qed.

(** Graphs reached from a path that did not exist by any calls, granted or
    refused, by any callers, and any number of restarts. *)
Inductive greachable (k : option Key) : KnowledgeGraph -> Prop :=
| gr_open g : open_graph None k = Ok g -> greachable k g
| gr_exec now m t op g :
    greachable k g -> op_sound op -> op_finite op = true -> purges_no_edge g op -> room g op ->
    greachable k (exec now m t g op)
| gr_reopen g g' : greachable k g -> open_graph (disk (storage g)) k = Ok g' -> greachable k g'.

Lemma rebuild_next_object w rs r :
  r ∈ rs -> u64_add (object_id r) 1 <= next_object_id (rebuild (V := V) w rs).
Proof.
  induction rs as [|r' rs IH] using rev_ind; [by intros ?%not_elem_of_nil|]. rewrite rebuild_snoc. simpl.
  intros [Hin| ->%list_elem_of_singleton]%elem_of_app; [specialize (IH Hin)|]; lia.
Qed.

Lemma rebuild_next_object_lt w rs : next_object_id (rebuild (V := V) w rs) < two64.
Proof.
  induction rs as [|r rs IH] using rev_ind; [done|]. rewrite rebuild_snoc. simpl.
  pose proof (u64_add_lt (object_id r) 1). lia.
Qed.

Lemma reopen_inv k g :
  ginv k g ->
  exists g', open_graph (disk (storage g)) k = Ok g' /\ ginv k g' /\ index g' = index g
             /\ same_views (inner (storage g')) (inner (storage g)).
Proof.
  intros [Hc Hk Hnx [Hwn Hwe Hwi] Hf (rs & Hr & Hs & Hix)]. subst k.
  destruct (open_consistent _ Hc) as (e' & Ho & Hc' & Hv & Hk' & _).
  unfold open_graph. rewrite Ho. simpl. rewrite Hr, <- Hix. eexists. split; [done|]. simpl.
  assert (Hd' : disk e' = disk (storage g) /\ exists w, inner e' = rebuild w rs).
  { pose proof (c_disk _ Hc) as Hd. rewrite Hd in Hr, Ho |- *. unfold open_impl in Ho.
    destruct (encryption_key (storage g)); unfold replay_encrypted, replay in Ho; rewrite Hr in Ho;
      injection Ho as <-; simpl; (split; [done|by eexists]). }
  destruct Hd' as [Hd' [w Hin]]. split; [|done]. constructor; simpl; [done|done| | |done|].
  - rewrite Hin. apply rebuild_next_object_lt.
  - constructor; simpl; [| |done].
    + intros x n Hx. unfold current_version. destruct Hv as (_ & -> & _). by eapply Hwn.
    + intros x e Hx. rewrite Hin. pose proof (Hwe _ _ Hx) as Hlt. rewrite Hix in Hx.
      destruct (rebuild_from_edges rs x ltac:(by rewrite Hx; eexists)) as (r & Hr' & <-).
      pose proof (rebuild_next_object w rs r Hr'). rewrite u64_add_small in * by lia. lia.
  - exists rs. cbn [storage index]. by rewrite Hk', Hd'.
Qed.

Lemma greachable_inv k g : greachable k g -> ginv k g.
Proof.
  induction 1 as [g Hopen|now m t op g _ IH Hs Hf Hp Hr|g g' _ IH Hopen].
  - assert (Hg : g = mkGraph (mkEngine (mkInner (mkWal [] k) ∅ ∅ ∅ 0 0) (Some []) true k) empty_index)
      by (destruct k; by injection Hopen).
    subst g. constructor; simpl; [|done|done|by constructor|by split|by exists []; repeat constructor].
    constructor; simpl; [done..|exists []; split; [constructor|done]|]. by constructor.
  - by apply exec_inv.
  - destruct (reopen_inv _ _ IH) as (g'' & Ho & Hi & _). congruence.
Qed.

(** ** The adjacency lists *)

(** The lists name the edges of each node, every edge once at each end. *)
Record adjacency (i : GraphIndex) : Prop := {
  aj_forward : forall x id, id ∈ default [] (forward i !! x) <-> exists e, edges i !! id = Some e /\ subject e = x;
  aj_backward : forall x id, id ∈ default [] (backward i !! x) <-> exists e, edges i !! id = Some e /\ target e = x
}.

Lemma elem_of_push_entry m k id x y :
  y ∈ default [] (push_entry m k id !! x) <-> y ∈ default [] (m !! x) \/ (x = k /\ y = id).
Proof.
  unfold push_entry. destruct (decide (k = x)) as [<-|Hne].
  - rewrite lookup_insert_eq. simpl. rewrite elem_of_app, list_elem_of_singleton. naive_solver.
  - rewrite lookup_insert_ne by done. naive_solver.
Qed.

Lemma apply_adjacency i o r :
  adjacency i -> (forall e e0, r = REdge e -> edges i !! o = Some e0 -> triple e = triple e0) ->
  adjacency (apply i o r).
Proof.
  intros [Hf Hb] Hfit. destruct r as [n|e]; [by constructor|].
  destruct (edges i !! o) as [e0|] eqn:He0.
  - specialize (Hfit e e0 eq_refl eq_refl). unfold triple in Hfit. simplify_eq.
    constructor; intros x id; rewrite apply_edge_lookup; cbn [apply forward backward];
      rewrite bool_decide_false by congruence; rewrite ?Hf, ?Hb; destruct (decide (id = o)) as [->|]; naive_solver.
  - constructor; intros x id; rewrite apply_edge_lookup; cbn [apply forward backward];
      rewrite bool_decide_true by done; rewrite elem_of_push_entry, ?Hf, ?Hb;
      destruct (decide (id = o)) as [->|]; naive_solver.
Qed.

Lemma gstep_adjacency now m t op g g' :
  graph_wf g -> (needs_id op = true -> next_object_id (inner (storage g)) + 1 < two64) ->
  gstep now m t op g g' -> adjacency (index g) -> adjacency (index g').
Proof.
  intros Hwf Hlt Hs Ha.
  destruct Hs as [|id ex n nonce io _ _ Hid [Hn Hu]|ex e nonce io _ _ Hid He
                 |id ex e0 e nonce io _ _ He0 (_ & Htr & _) He|id nonces io n k s -> Hn Ho Hp|]; [done| | | | |done].
  - destruct (commit_graph_effect now m t g id ex (RNode n) nonce io ltac:(naive_solver)) as ([->|o -> _ _ _ _] & _);
      [done|]. by apply apply_adjacency.
  - destruct (commit_graph_effect now m t g None ex (REdge e) nonce io ltac:(auto)) as ([->|o -> Ho _ _ _] & _);
      [done|]. apply apply_adjacency; [done|]. intros ? e0 _ He0%(gw_edges _ Hwf). simpl in Ho. lia.
  - destruct (commit_graph_effect now m t g (Some id) ex (REdge e) nonce io ltac:(done)) as ([->|o -> -> _ _ _] & _);
      [done|]. apply apply_adjacency; [done|]. simpl. intros ? ? [= <-] He1. congruence.
  - destruct Ha. by constructor.
Qed.

#[export] Instance keeps_preorder {A : Type} (P : A -> Prop) : PreOrder (fun i i' => P i -> P i').
Proof. split; [by intros i|by intros i j l Hij Hjl Hi; auto]. Qed.

Lemma greachable_adjacency k g : greachable k g -> adjacency (index g).
Proof.
  induction 1 as [g Hopen|now m t op g Hg IH Hs Hf Hp Hr|g g' Hg IH Hopen].
  - assert (Hi : index g = empty_index) by (destruct k; by injection Hopen as <-).
    rewrite Hi. constructor; intros x id; simpl; rewrite lookup_empty; simpl;
      (split; [by intros ?%not_elem_of_nil|by intros (e & ? & _)]).
  - destruct (exec_respects (fun i i' => adjacency i -> adjacency i') now m t g op) as [HR _];
      [intros; by eapply gstep_adjacency|by eapply gi_wf, greachable_inv|apply Hr|by apply HR].
  - destruct (reopen_inv _ _ (greachable_inv _ _ Hg)) as (g'' & Ho & _ & Hix & _). congruence.
Qed.

(** ** Breadth first *)

(** [candidates] are the edges [visit_node] follows from a node, with the node
    each leads to; [visit] is what it does with one. *)
Definition candidates_via (i : GraphIndex) (see : NodeId -> bool) (types : option (list (list N)))
    (other : EdgeRecord -> NodeId) (ids : list EdgeId) : list (EdgeId * NodeId) :=
  omap (fun eid => e ← active_edge i eid;
                   if is_some_and types (fun ts => negb (bool_decide (predicate e ∈ ts))) then None
                   else if negb (see (other e)) then None else Some (eid, other e)) ids.

Definition candidates (i : GraphIndex) (see : NodeId -> bool) (types : option (list (list N)))
    (x : NodeId) : list (EdgeId * NodeId) :=
  candidates_via i see types target (default [] (forward i !! x))
  ++ candidates_via i see types subject (default [] (backward i !! x)).

Definition visit (hop : nat) (w : Walk) (p : EdgeId * NodeId) : Walk :=
  match depths w !! p.2 with
  | Some _ => mkWalk (depths w) ({[p.1]} ∪ visited_edges w) (next_frontier w)
  | None => mkWalk (<[p.2 := S hop]> (depths w)) ({[p.1]} ∪ visited_edges w) (next_frontier w ++ [p.2])
  end.

Lemma visit_edges_via i see types other hop ids w :
  fold_left (visit_edge i see types other hop) ids w
  = fold_left (visit hop) (candidates_via i see types other ids) w.
Proof.
  revert w. induction ids as [|eid ids IH]; intros w; [done|]. simpl. rewrite IH. unfold visit_edge.
  destruct (active_edge i eid) as [e|]; [|done]. simpl. destruct (is_some_and types _); [done|].
  by destruct (see (other e)).
Qed.

Lemma visit_nodes_via i see types hop xs w :
  fold_left (visit_node i see types hop) xs w = fold_left (visit hop) (xs ≫= candidates i see types) w.
Proof.
  revert w. induction xs as [|x xs IH]; intros w; [done|]. cbn [fold_left mbind list_bind].
  rewrite IH, fold_left_app. f_equal. unfold visit_node, candidates. rewrite !visit_edges_via.
  by rewrite fold_left_app.
Qed.

Lemma visit_all hop l w :
  let w' := fold_left (visit hop) l w in
  (forall y d, depths w' !! y = Some d <->
     depths w !! y = Some d \/ (depths w !! y = None /\ d = S hop /\ exists eid, (eid, y) ∈ l))
  /\ (forall y, y ∈ next_frontier w' <->
     y ∈ next_frontier w \/ (depths w !! y = None /\ exists eid, (eid, y) ∈ l))
  /\ (forall eid, eid ∈ visited_edges w' <-> eid ∈ visited_edges w \/ exists y, (eid, y) ∈ l).
Proof.
  revert w. induction l as [|[eid y0] l IH]; intros w; simpl.
  { setoid_rewrite elem_of_nil. naive_solver. }
  destruct (IH (visit hop w (eid, y0))) as (Hd & Hf & He). setoid_rewrite elem_of_cons. split_and!.
  - intros y d. rewrite Hd. unfold visit. simpl. destruct (depths w !! y0) as [d0|] eqn:Hy0; simpl.
    + split; [naive_solver|]. intros [?|(Hn & -> & eid' & [[= -> ->]|?])]; [by left|congruence|right; eauto].
    + destruct (decide (y0 = y)) as [->|Hne].
      * rewrite lookup_insert_eq. rewrite Hy0. naive_solver.
      * rewrite lookup_insert_ne by done. naive_solver.
  - intros y. rewrite Hf. unfold visit. simpl. destruct (depths w !! y0) as [d0|] eqn:Hy0; simpl.
    + split; [naive_solver|]. intros [?|(Hn & eid' & [[= -> ->]|?])]; [by left|congruence|right; eauto].
    + rewrite elem_of_app, list_elem_of_singleton. destruct (decide (y0 = y)) as [->|Hne].
      * rewrite lookup_insert_eq. naive_solver.
      * rewrite lookup_insert_ne by done. naive_solver.
  - intros eid'. rewrite He. unfold visit. simpl.
    destruct (depths w !! y0); simpl; rewrite elem_of_union, elem_of_singleton; naive_solver.
Qed.

Section breadth_first.
Context (i : GraphIndex) (see : NodeId -> bool) (types : option (list (list N))) (start : NodeId).

(** Edge [id], live and of a type asked for, leads from [x] to [y], which may be
    seen; edges are followed both ways. *)
Definition leads (id : EdgeId) (x y : NodeId) : Prop :=
  exists e, edges i !! id = Some e /\ edge_tombstone e = false
    /\ from_option (fun ts => predicate e ∈ ts) True types /\ see y = true
    /\ ((subject e = x /\ target e = y) \/ (target e = x /\ subject e = y)).

Definition neighbour (x y : NodeId) : Prop := exists id, leads id x y.

(** [y] is [d] hops from the start, and no fewer. *)
Definition distance (y : NodeId) (d : nat) : Prop :=
  nsteps neighbour d start y /\ forall d', nsteps neighbour d' start y -> (d <= d')%nat.

Lemma distance_unique y d d' : distance y d -> distance y d' -> d = d'.
Proof. intros [H3 H4] [H5 H6]. apply H4 in H5. apply H6 in H3. lia. Qed.

Lemma elem_of_candidates_via other ids id y :
  (id, y) ∈ candidates_via i see types other ids <->
  id ∈ ids /\ exists e, edges i !! id = Some e /\ edge_tombstone e = false
    /\ from_option (fun ts => predicate e ∈ ts) True types /\ see y = true /\ other e = y.
Proof.
  unfold candidates_via, active_edge. rewrite list_elem_of_omap. split.
  - intros (eid & Hin & Hc). destruct (edges i !! eid) as [e|] eqn:He; [|done]. simpl in Hc.
    destruct (edge_tombstone e) eqn:Ht; [done|]. simpl in Hc. destruct (is_some_and types _) eqn:Hty; [done|].
    destruct (see (other e)) eqn:Hs; [|done]. injection Hc as <- <-. split; [done|]. exists e. split_and!; [done..| |done|done].
    destruct types as [ts|]; [|done]. simpl in *. by apply negb_false_iff, bool_decide_eq_true in Hty.
  - intros (Hin & e & He & Ht & Hty & Hs & <-). exists id. split; [done|]. rewrite He. simpl. rewrite Ht. simpl.
    rewrite Hs. destruct types as [ts|]; simpl in *; [|done]. by rewrite bool_decide_true.
Qed.

Lemma elem_of_candidates id x y : adjacency i -> (id, y) ∈ candidates i see types x <-> leads id x y.
Proof.
  intros [Hf Hb]. unfold candidates, leads. rewrite elem_of_app, !elem_of_candidates_via, Hf, Hb. naive_solver.
Qed.

(** After [h] rounds: the nodes within [h] hops are known with their distance,
    the frontier is the last of them, and the edges are those leading on from
    the ones before. *)
Record rounds (h : nat) (w : Walk) : Prop := {
  r_sound : forall y d, depths w !! y = Some d -> (d <= h)%nat /\ distance y d;
  r_complete : forall y n, (n <= h)%nat -> nsteps neighbour n start y -> is_Some (depths w !! y);
  r_edges : forall id, id ∈ visited_edges w <->
    exists x y d, depths w !! x = Some d /\ (d < h)%nat /\ leads id x y
}.

Lemma round_step h w frontier :
  adjacency i -> rounds h w -> (forall y, y ∈ frontier <-> depths w !! y = Some h) ->
  let w' := fold_left (visit_node i see types h) frontier (mkWalk (depths w) (visited_edges w) []) in
  rounds (S h) w' /\ forall y, y ∈ next_frontier w' <-> depths w' !! y = Some (S h).
Proof.
  intros Ha [Hs Hc He] Hf w'. unfold w'. rewrite visit_nodes_via.
  set (l := frontier ≫= candidates i see types).
  assert (Hl : forall id y, (id, y) ∈ l <-> exists x, depths w !! x = Some h /\ leads id x y).
  { intros id y. unfold l. rewrite list_elem_of_bind. setoid_rewrite elem_of_candidates; [|done].
    setoid_rewrite Hf. naive_solver. }
  destruct (visit_all h l (mkWalk (depths w) (visited_edges w) [])) as (Hd' & Hf' & He'). simpl in Hd', Hf', He'.
  clearbody l. clear Hf.
  assert (Hold : forall x d, (d < S h)%nat -> depths (fold_left (visit h) l (mkWalk (depths w) (visited_edges w) [])) !! x = Some d
                             <-> depths w !! x = Some d).
  { intros x d Hd. rewrite Hd'. split; [|by left]. intros [?|(_ & -> & _)]; [done|lia]. }
  split; [constructor|].
  - intros y d [Hy|(Hy & -> & id & (x & Hx & Hxy)%Hl)]%Hd'; [destruct (Hs _ _ Hy); split; [lia|done]|].
    split; [done|]. destruct (Hs _ _ Hx) as (_ & Hst & _). split; [eapply nsteps_r; [exact Hst|by exists id]|].
    intros d' Hst'. destruct (decide (d' <= h)%nat) as [Hle|]; [|lia].
    destruct (Hc _ _ Hle Hst') as [? ?]. congruence.
  - intros y n Hn Hst. destruct (depths w !! y) as [d|] eqn:Hy.
    { exists d. apply Hd'. by left. }
    assert (n = S h) as ->. { destruct (decide (n <= h)%nat) as [Hle|]; [|lia]. destruct (Hc _ _ Hle Hst). congruence. }
    apply nsteps_inv_r in Hst as (x & Hx & [id Hxy]). destruct (Hc _ _ (le_n h) Hx) as [dx Hdx].
    destruct (Hs _ _ Hdx) as (Hle & Hstx & _). destruct (decide (dx = h)) as [->|Hne].
    + exists (S h). apply Hd'. right. split; [done|]. split; [done|]. exists id. apply Hl. by exists x.
    + assert (Hy' : nsteps neighbour (S dx) start y) by (eapply nsteps_r; [exact Hstx|by exists id]).
      destruct (Hc y (S dx)) as [? ?]; [lia|done|congruence].
  - intros id. rewrite He', He. setoid_rewrite Hl. split.
    + intros [(x & y & d & Hx & Hd & Hxy)|(y & x & Hx & Hxy)].
      * exists x, y, d. split; [apply Hold; [lia|done]|]. split; [lia|done].
      * exists x, y, h. split; [apply Hold; [lia|done]|]. split; [lia|done].
    + intros (x & y & d & Hx & Hd & Hxy). apply Hold in Hx; [|done]. destruct (decide (d = h)) as [->|].
      * right. by exists y, x.
      * left. exists x, y, d. split; [done|]. split; [lia|done].
  - intros y. rewrite Hf', Hd', elem_of_nil. split.
    + intros [[]|(? & ?)]. auto.
    + intros [Hy|(? & _ & ?)]; [|auto]. destruct (Hs _ _ Hy). lia.
Qed.

Lemma rounds_stop h w h' :
  rounds h w -> (forall y, depths w !! y <> Some h) -> (h <= h')%nat -> rounds h' w.
Proof.
  intros [Hs Hc He] Hstop Hle. constructor.
  - intros y d Hy. destruct (Hs _ _ Hy). split; [lia|done].
  - intros y n _. revert y. induction n as [|n IH]; intros y Hst; [by apply (Hc y 0%nat); [lia|]|].
    apply nsteps_inv_r in Hst as (x & Hx & Hxy). destruct (IH _ Hx) as [d Hd].
    destruct (Hs _ _ Hd) as (Hdh & Hstd & _). assert (d <> h) by (intros ->; by eapply Hstop).
    apply (Hc y (S d)); [lia|]. by eapply nsteps_r.
  - intros id. rewrite He. split; intros (x & y & d & Hx & Hd & Hxy); exists x, y, d; (split; [done|]);
      (split; [|done]); [lia|]. destruct (Hs _ _ Hx). assert (d <> h) by (intros ->; by eapply Hstop). lia.
Qed.

Lemma traverse_loop_rounds hops h frontier w :
  adjacency i -> rounds h w -> (forall y, y ∈ frontier <-> depths w !! y = Some h) ->
  rounds (h + hops) (traverse_loop i see types hops h frontier w).
Proof.
  intros Ha. revert h frontier w. induction hops as [|hops IH]; intros h frontier w Hr Hf.
  { by rewrite Nat.add_0_r. }
  cbn [traverse_loop]. destruct frontier as [|x frontier'] eqn:Heq.
  - eapply rounds_stop; [done| |lia]. intros y Hy. apply Hf in Hy. by apply not_elem_of_nil in Hy.
  - rewrite <- Heq in *. destruct (round_step h w frontier Ha Hr Hf) as [Hr' Hf'].
    rewrite Nat.add_succ_r, <- Nat.add_succ_l. by apply IH.
Qed.

Lemma rounds_start : rounds 0 (mkWalk {[start := 0%nat]} ∅ []).
Proof.
  constructor; simpl.
  - intros y d [<- <-]%lookup_singleton_Some. split; [done|]. split; [constructor|]. lia.
  - intros y n Hn Hst. assert (n = 0%nat) as -> by lia. inversion Hst; subst. rewrite lookup_singleton_eq. by eexists.
  - intros id. split; [by intros ?%not_elem_of_empty|]. intros (x & y & d & _ & ? & _). lia.
Qed.

Lemma rounds_depths h w y d : rounds h w -> depths w !! y = Some d <-> (d <= h)%nat /\ distance y d.
Proof.
  intros [Hs Hc _]. split; [by apply Hs|]. intros [Hle Hd].
  destruct (Hc y d Hle) as [d' Hd']; [apply Hd|]. destruct (Hs _ _ Hd') as [_ Hdist].
  by rewrite (distance_unique _ _ _ Hd Hdist).
Qed.
End breadth_first.

(** ** The theorems *)

(** Any calls by any callers, as long as numbers last; no restart. *)
Inductive session (g : KnowledgeGraph) : KnowledgeGraph -> Prop :=
| ses_start : session g g
| ses_exec now m t op g' : session g g' -> room g' op -> session g (exec now m t g' op).

Lemma session_wf k g g' : greachable k g -> session g g' -> graph_wf g'.
Proof.
  intros Hg. induction 1 as [|now m t op g' _ IH Hr]; [by eapply gi_wf, greachable_inv|].
  destruct (exec_respects (within (origin t)) now m t g' op) as [_ Hw];
    [intros; by eapply gstep_within|done|apply Hr|done].
Qed.

Lemma session_adjacency k g g' : greachable k g -> session g g' -> adjacency (index g').
Proof.
  intros Hg. induction 1 as [|now m t op g' Hses IH Hr]; [by eapply greachable_adjacency|].
  destruct (exec_respects (fun i i' => adjacency i -> adjacency i') now m t g' op) as [HR _];
    [intros; by eapply gstep_adjacency|by eapply session_wf|apply Hr|by apply HR].
Qed.

(** What a traversal that answers has walked. *)
Lemma traverse_rounds now m t g start types hops device sub :
  adjacency (index g) ->
  traverse_with_device_origin_filter now m t g start types hops device = Ok sub ->
  let i := index g in
  let see := visible i (origin t) device in
  see start = true
  /\ exists w, rounds i see types start hops w
     /\ sub = mkSubgraph (omap (fun '(id, d) => n ← nodes i !! id; Some (id, n, d)) (hash_iter (depths w)))
                (omap (fun id => e ← edges i !! id; Some (id, e)) (elements (visited_edges w))).
Proof.
  intros Ha Hsub i see. unfold traverse_with_device_origin_filter in Hsub.
  destruct (require now m t READ); [|done]. simpl in Hsub. fold i see in Hsub. destruct (see start) eqn:Hst; [|done]. injection Hsub as <-.
  split; [done|]. eexists. split; [|done]. apply (traverse_loop_rounds i see types start hops 0 [start]); [done|apply rounds_start|].
  intros y. cbn [depths]. rewrite list_elem_of_singleton, lookup_singleton_Some. naive_solver.
Qed.

Lemma elem_of_walked (i : GraphIndex) (w : Walk) id n d :
  (id, n, d) ∈ omap (fun '(id, d) => n ← nodes i !! id; Some (id, n, d)) (hash_iter (depths w))
  <-> nodes i !! id = Some n /\ depths w !! id = Some d.
Proof.
  rewrite list_elem_of_omap. split.
  - intros ([id' d'] & Hin%elem_of_hash_iter & Hn). destruct (nodes i !! id') eqn:Hid; [|done].
    by injection Hn as <- <- <-.
  - intros [Hn Hd]. exists (id, d). rewrite elem_of_hash_iter. split; [done|]. by rewrite Hn.
Qed.

Lemma distance_seen i see types start y d :
  see start = true -> distance i see types start y d -> see y = true.
Proof.
  intros Hst [Hs _]. destruct d as [|d]; [by inversion Hs; subst|].
  apply nsteps_inv_r in Hs as (x & _ & id & e & _ & _ & _ & Hsee & _). done.
Qed.

Lemma sort_hits_perm l : sort_hits l ≡ₚ l.
Proof. apply sort_desc_perm. Qed.

Lemma own_live_spec b n : own_live b n = true <-> owner n = b /\ tombstone n = false.
Proof. unfold own_live. rewrite andb_true_iff, negb_true_iff, N.eqb_eq. naive_solver. Qed.

Lemma query_own now m t g q hits h :
  query now m t g q = Ok hits -> h ∈ hits ->
  nodes (index g) !! node_id h = Some (node h) /\ owner (node h) = origin t /\ tombstone (node h) = false.
Proof.
  unfold query. destruct (require now m t READ); [|done]. cbn beta iota zeta.
  set (f := fun p : N * NodeRecord => _). set (l := omap f _). intros [= <-] Hin.
  assert (Hin' : h ∈ sort_hits l).
  { destruct (Nat.eqb (limit q) 0); [done|]. by eapply elem_of_take in Hin as (? & ?%list_elem_of_lookup_2 & _). }
  unfold l in Hin'. rewrite sort_hits_perm, list_elem_of_omap in Hin'. destruct Hin' as ([id n] & Hf & Hh).
  unfold f in Hh. destruct (would_be_included (rank_against (index g) id n q)); [|done]. injection Hh as <-.
  apply elem_of_test in Hf as [Hf Ho]. apply elem_of_hash_iter in Hf.
  by apply own_live_spec in Ho.
Qed.


(** Deletions hold, whatever calls came before and whoever makes this one:
    a deleted node stays deleted and its owner's, unless the owner purges it
    outright; a deleted edge stays exactly as it is, unless its owner links the
    same triple again having observed the version the deletion gave it, so that a
    writer working from an older state never brings it back. *)
Theorem deletions_are_kept k g0 g now m t op :
  greachable k g0 -> session g0 g -> room g op ->
  let i' := index (exec now m t g op) in
  (forall id n, nodes (index g) !! id = Some n -> tombstone n = true ->
     (exists n', nodes i' !! id = Some n' /\ tombstone n' = true /\ owner n' = owner n)
     \/ (purges op id /\ owner n = origin t))
  /\ (forall id e, edges (index g) !! id = Some e -> edge_tombstone e = true ->
     edges i' !! id = Some e \/ revives op (origin t) e).
Proof.
  intros Hg Hses [Hroom _] i'. pose proof (session_wf _ _ _ Hg Hses) as Hwf.
  assert (Hd : deletions_hold op (origin t) (index g) i'); [|by destruct Hd].
  by apply (exec_respects (deletions_hold op (origin t))); [intros; eapply gstep_deletions_hold|..].
Qed.


(** C12. A traversal is breadth-first search: it is refused exactly when the
    caller may not read, or may not see the start; otherwise it returns precisely
    the visible nodes within [max_hops] of the start along live edges of the
    types asked for, each with its true distance, and precisely the edges that
    lead on from a node nearer than [max_hops] to a visible one. *)
Theorem traverse_is_breadth_first k g now m t start types hops device :
  greachable k g ->
  let i := index g in
  let see := visible i (origin t) device in
  match traverse_with_device_origin_filter now m t g start types hops device with
  | Err e => (e = Unauthorized /\ authorize now m t READ <> Ok tt) \/ (e = NotFound /\ see start = false)
  | Ok sub =>
      (forall id n d, (id, n, d) ∈ sub_nodes sub <->
         nodes i !! id = Some n /\ (d <= hops)%nat /\ distance i see types start id d)
      /\ (forall id e, (id, e) ∈ sub_edges sub <->
         edges i !! id = Some e
         /\ exists x y d, (d < hops)%nat /\ distance i see types start x d /\ leads i see types id x y)
  end.
Proof.
  intros Hg i see. pose proof (traverse_rounds now m t g start types hops device) as Htr.
  destruct (traverse_with_device_origin_filter now m t g start types hops device) as [sub|err] eqn:Hsub.
  2: { revert Hsub. unfold traverse_with_device_origin_filter, require.
       destruct (authorize now m t READ); simpl; [|intros [= <-]; by left]. fold i see.
       destruct (see start) eqn:Hst; simpl; [done|]. intros [= <-]. by right. }
  destruct (Htr sub (greachable_adjacency _ _ Hg) eq_refl) as (Hst & w & Hr & ->). fold i see in Hr. split.
  - intros id n d. rewrite <- (rounds_depths _ _ _ _ _ _ _ _ Hr). apply elem_of_walked.
  - intros id e. cbn [sub_edges]. rewrite list_elem_of_omap. setoid_rewrite elem_of_elements. setoid_rewrite (r_edges _ _ _ _ _ _ Hr).
    setoid_rewrite (rounds_depths _ _ _ _ _ _ _ _ Hr). split.
    + intros (id' & (x & y & d & [_ Hd] & Hlt & Hl) & He). apply bind_Some in He as (e' & Hid & [= <- <-]).
      split; [done|]. by exists x, y, d.
    + intros (He & x & y & d & Hlt & Hd & Hl). exists id. split; [|apply bind_Some; by exists e].
      exists x, y, d. split; [split; [lia|done]|]. done.
Qed.
End graph.

(** ** A concrete run *)

Module GraphExample.
Import Crypto.Toy Wal.ToyRecords Storage.StorageExample.

#[export] Instance node_origin_eq_dec : EqDecision NodeOrigin.
Proof. solve_decision. Defined.

#[export] Instance node_origin_countable : Countable NodeOrigin.
Proof.
  refine (inj_countable'
    (fun o => match o with UserAuthored => 0 | AgentGenerated => 1 | IngestedExternal => 2 | SyncedRemote => 3 end)
    (fun n => match n with 0 => UserAuthored | 1 => AgentGenerated | 2 => IngestedExternal | _ => SyncedRemote end) _).
  by intros [].
Defined.

#[export] Instance edge_origin_countable : Countable EdgeOrigin.
Proof.
  refine (inj_countable' (fun o => match o with Explicit => true | Inferred => false end)
            (fun b : bool => if b then Explicit else Inferred) _).
  by intros [].
Defined.

Definition Rec : Type := Record_ (V := N).

Definition tuple_of (r : Rec) :=
  match r with
  | RNode (mkNode a b c d e f g h i j k) => inl (a, b, c, d, e, (f, g, h, i, j, k))
  | REdge (mkEdge a b c d e f g h i j k l) => inr (a, b, c, d, e, f, (g, h, i, j, k, l))
  end.

#[export] Instance rec_eq_dec : EqDecision Rec.
Proof.
  refine (inj_eq_dec tuple_of); intros [[]|[]] [[]|[]] [=]; by subst.
Defined.

#[export] Instance rec_countable : Countable Rec.
Proof.
  refine (inj_countable' tuple_of
    (fun y => match y with
              | inl (a, b, c, d, e, (f, g, h, i, j, k)) => RNode (mkNode a b c d e f g h i j k)
              | inr (a, b, c, d, e, f, (g, h, i, j, k, l)) => REdge (mkEdge a b c d e f g h i j k l)
              end) _).
  by intros [[]|[]].
Defined.

(** Values are numbers, zero for the ones that are not finite. *)
Definition value_of (r : Rec) : N := if finite_record r then N.pos (countable.encode r) else 0.
Definition of_value (v : N) : option Rec := match v with N.pos p => countable.decode p | 0 => None end.

Lemma of_value_of r : finite_record r = true -> of_value (value_of r) = Some r.
Proof. intros Hf. unfold value_of. rewrite Hf. simpl. apply countable.decode_encode. Defined.

Definition graph : Type := KnowledgeGraph (V := N).

Definition alice : CapabilityToken := mkToken 1 0 (rights_or READ WRITE) 0 7 None.
Definition mallory : CapabilityToken := mkToken 2 0 (rights_or READ WRITE) 0 9 None.

Definition graph0 : graph :=
  mkGraph (mkEngine (rebuild (mkWal [] None) []) (Some []) true None) empty_index.

Definition no_exp (x : f64) : f64 := x.

Definition run (t : CapabilityToken) (g : graph) (op : gop (V := N)) : graph :=
  exec value_of no_exp 0 tt t g op.

Definition put_op (id : option N) : gop (V := N) :=
  OpPut id [110] None 5 0 UserAuthored 0 1 1 toy_nonce Written.
Definition link_op (a b : N) (w : f32) (observed : option N) : gop (V := N) :=
  OpLink a [112] b w Explicit None [] observed 1 1 toy_nonce Written.

(** Two of Alice's nodes, 0 and 1, and an edge, 2. *)
Definition graph3 : graph :=
  run alice (run alice (run alice graph0 (put_op None)) (put_op None)) (link_op 0 1 f32_one None).
(** The edge is deleted. *)
Definition graph4 : graph := run alice graph3 (OpUnlink 2 toy_nonce Written).

Definition reopened (g : graph) : graph :=
  match open_graph of_value (disk (storage g)) None with Ok g' => g' | Err _ => g end.

Definition live_edges (g : graph) : list N :=
  fst <$> filter (fun '(_, e) => edge_tombstone e = false) (map_to_list (edges (index g))).

Lemma greachable_run t g op :
  greachable value_of of_value no_exp (M := unit) None g -> op_sound op -> op_finite op = true ->
  purges_no_edge g op -> room g op ->
  greachable value_of of_value no_exp (M := unit) None (run t g op).
Proof. intros. by apply gr_exec. Defined.

Lemma written_sound : sound_write toy_nonce Written.
Proof. split; [apply toy_nonce_ok|by left]. Defined.

Lemma greachable3 : greachable value_of of_value no_exp (M := unit) None graph3.
Proof.
  unfold graph3. do 3 (apply greachable_run;
    [|apply written_sound|reflexivity|by intros id []|split; vm_compute; reflexivity]).
  apply gr_open. reflexivity.
Defined.

(** Without the version of the deletion the edge stays deleted; with it, its
    owner brings it back. *)
Example revived_by_observer :
  live_edges graph4 = []
  /\ live_edges (run alice graph4 (link_op 0 1 f32_one (Some 0))) = []
  /\ live_edges (run alice graph4 (link_op 0 1 f32_one (Some 1))) = [2].
Proof. vm_compute. done. Qed.

(** [put_node] looks for an existing node only, so another boundary may write a
    node under the id of Alice's edge; purging that node takes the edge's records
    out of the log, and the next start does not find the edge. *)
Example purge_over_an_edge :
  let g := run mallory (run mallory graph3 (put_op (Some 2))) (OpPurge 2 nonces Compacted) in
  live_edges g = [2] /\ live_edges (reopened g) = [].
Proof. vm_compute. done. Qed.

(** An edge whose weight is not finite is there until the next start. *)
Example infinite_weights_are_lost :
  let g := run alice graph3 (link_op 1 0 (SpecFloat.S754_infinity false) None) in
  live_edges g = [2; 3] /\ live_edges (reopened g) = [2].
Proof. vm_compute. done. Qed.

(** [link] asks nothing of the owners of the two nodes, and [traverse] nothing of
    the owner of an edge: Mallory's edge is part of what Alice is shown. *)
Example foreign_edges_are_traversed :
  let g := run mallory graph3 (link_op 1 0 f32_one None) in
  (3, 9) ∈ match traverse 0 tt alice g 0 None 1 with
           | Ok sub => (fun '(id, e) => (id, edge_owner e)) <$> sub_edges sub
           | Err _ => []
           end.
Proof. cbv zeta. apply (bool_decide_unpack _). vm_compute. done. Qed.
End GraphExample.
Import Crypto.Toy Wal.ToyRecords Storage.StorageExample GraphExample.


Lemma deletions_are_kept_witness :
  edge_tombstone <$> edges (index (run alice graph4 (link_op 0 1 f32_one None))) !! 2 = Some true.
Proof.
  assert (He : edges (index graph4) !! 2 = Some (mkEdge 0 [112] 1 f32_one [] Explicit None 7 1 1 true 1))
    by (vm_compute; reflexivity).
  assert (Hr3 : room graph3 (OpUnlink 2 toy_nonce Written)) by (split; vm_compute; reflexivity).
  assert (Hr : room graph4 (link_op 0 1 f32_one None)) by (split; vm_compute; reflexivity).
  assert (Hses : session value_of no_exp (M := unit) graph3 graph4)
    by (unfold graph4; apply ses_exec; [apply ses_start|exact Hr3]).
  revert He Hr Hses. generalize greachable3. generalize graph4. generalize graph3. intros g0 g Hg He Hr Hses.
  pose proof (deletions_are_kept value_of of_value no_exp of_value_of (M := unit) None g0 g 0 tt alice
                (link_op 0 1 f32_one None) Hg Hses Hr) as (_ & Hd).
  destruct (Hd _ _ He eq_refl) as [H1|(_ & _ & v & Hv & _)]; [|discriminate]. unfold run. rewrite H1. reflexivity.
Defined.


Lemma traverse_is_breadth_first_witness :
  distance (index graph3) (visible (index graph3) 7 None) None 0 1 1.
Proof.
  assert (Hn : match traverse 0 tt alice graph3 0 None 2 with
               | Ok sub => (fun '(id, _, d) => (id, d)) <$> sub_nodes sub
               | Err _ => [] end = [(1, 1%nat); (0, 0%nat)]) by (vm_compute; reflexivity).
  revert Hn. generalize greachable3. generalize graph3. intros g Hg Hn.
  pose proof (traverse_is_breadth_first value_of of_value no_exp of_value_of (M := unit) None g 0 tt alice 0 None 2 None Hg) as Ht.
  unfold traverse in Hn.
  destruct (traverse_with_device_origin_filter _ _ _ _ _ _ _ _) as [sub|]; [|discriminate].
  destruct Ht as [Ht _]. destruct (sub_nodes sub) as [|[[id n] d] l] eqn:Hs; [discriminate|].
  injection Hn as -> -> _. apply (Ht 1 n 1%nat). left.
Defined.
