(* ===== verification/NodeStore.v ===== *)
(** What the services above the knowledge graph ask of it.

    Recovery (and whatever else keeps its state in nodes) reads a node, writes
    one under an explicit id, and deletes one. [NodeStore] is that interface with
    the promises its clients rely on, stated over the table of nodes; the
    knowledge graph discharges them. A write takes from outside what the graph
    takes from outside: clock readings, a nonce, and what became of the write. *)
From S2P Require Import Prelude Crypto Capability Authority Wal Storage Events F32 KnowledgeGraph.
Open Scope N_scope.

(** A node as its writer gave it. *)
Definition content {V : Type} (n : NodeRecord (V := V)) : list N * option (list f32) * V :=
  (object_type n, embedding n, node_metadata n).

Class NodeStore (V G Env : Type) {M : Type} `{Authority M} := {
  ns_node : G -> NodeId -> option (NodeRecord (V := V));
  ns_get : Instant -> M -> CapabilityToken -> G -> NodeId -> Result (NodeRecord (V := V)) GraphError;
  ns_put : Instant -> M -> CapabilityToken -> G -> NodeId -> list N -> option (list f32) -> V -> Env ->
           Result NodeId GraphError * G;
  ns_delete : Instant -> M -> CapabilityToken -> G -> NodeId -> Env -> Result unit GraphError * G;
  (** the write reaches the disk *)
  ns_ok : Env -> Prop;

  ns_get_spec : forall now m t g id,
    ns_get now m t g id
    = if is_ok (authorize now m t READ)
      then match ns_node g id with
           | Some n => if own_live (origin t) n then Ok n else Err NotFound
           | None => Err NotFound
           end
      else Err Unauthorized;
  ns_put_failed : forall now m t g id ty emb md env e g',
    ns_put now m t g id ty emb md env = (Err e, g') -> forall x, ns_node g' x = ns_node g x;
  ns_put_done : forall now m t g id ty emb md env id' g',
    ns_put now m t g id ty emb md env = (Ok id', g') ->
    id' = id /\ (forall x, x <> id -> ns_node g' x = ns_node g x)
    /\ (forall n0, ns_node g id = Some n0 -> owner n0 = origin t)
    /\ exists n, ns_node g' id = Some n /\ content n = (ty, emb, md) /\ owner n = origin t
                 /\ tombstone n = is_some_and (ns_node g id) tombstone;
  ns_put_total : forall now m t g id ty emb md env,
    authorize now m t WRITE = Ok tt -> ns_ok env ->
    (forall n0, ns_node g id = Some n0 -> owner n0 = origin t) ->
    is_ok (ns_put now m t g id ty emb md env).1 = true;
  ns_delete_failed : forall now m t g id env e g',
    ns_delete now m t g id env = (Err e, g') ->
    (forall x, ns_node g' x = ns_node g x)
    /\ (e = NotFound -> forall n, ns_node g id = Some n -> owner n <> origin t);
  ns_delete_done : forall now m t g id env g',
    ns_delete now m t g id env = (Ok tt, g') ->
    (forall x, x <> id -> ns_node g' x = ns_node g x)
    /\ exists n, ns_node g' id = Some n /\ owner n = origin t /\ tombstone n = true;
  ns_delete_total : forall now m t g id env,
    authorize now m t WRITE = Ok tt -> ns_ok env ->
    (ns_delete now m t g id env).1 = Ok tt \/ (ns_delete now m t g id env).1 = Err NotFound
}.

(** A store that also picks the id of a node written for the first time. *)
Class NodeCreator (V G Env : Type) {M : Type} `{NodeStore V G Env (M := M)} := {
  nc_create : Instant -> M -> CapabilityToken -> G -> list N -> option (list f32) -> V -> Env -> Result NodeId GraphError * G;
  (** no node is there that ids are picked without *)
  nc_sound : G -> Prop;
  nc_failed : forall now m t g ty emb md env e g',
    nc_create now m t g ty emb md env = (Err e, g') -> forall x, ns_node g' x = ns_node g x;
  nc_done : forall now m t g ty emb md env id g',
    nc_create now m t g ty emb md env = (Ok id, g') ->
    (forall x, x <> id -> ns_node g' x = ns_node g x) /\ (nc_sound g -> ns_node g id = None)
    /\ exists n, ns_node g' id = Some n /\ content n = (ty, emb, md) /\ owner n = origin t /\ tombstone n = false;
  nc_authorized : forall now m t g ty emb md env id g',
    nc_create now m t g ty emb md env = (Ok id, g') -> authorize now m t WRITE = Ok tt;
  nc_sound_create : forall now m t g ty emb md env, nc_sound g -> nc_sound (nc_create now m t g ty emb md env).2;
  nc_sound_put : forall now m t g id ty emb md env, nc_sound g -> nc_sound (ns_put now m t g id ty emb md env).2;
  nc_sound_delete : forall now m t g id env, nc_sound g -> nc_sound (ns_delete now m t g id env).2
}.

(** ** The knowledge graph is one *)

Section graph_store.
Context {V : Type} `{Codec (WalRecord V)} `{Aead} `{HashIter} {M : Type} `{Authority M}.
Context (to_value : Record_ (V := V) -> V).

Record WriteEnv := mkEnv {
  we_wall1 : N;
  we_wall2 : N;
  we_nonce : list N;
  we_io : write_outcome
}.

Lemma commit_node_done {A : Type} now m t g id expected n nonce io announce (result : N -> A) a g' ns :
  commit_record to_value now m t g (Some id) expected (RNode n) nonce io announce result = (Ok a, g', ns) ->
  a = result id /\ nodes (index g') = <[id := n]> (nodes (index g)).
Proof.
  unfold commit_record. destruct (put_object _ _ _ _ _ _ _ _ _) as [[[o v]|e] s] eqn:Hput; [|done].
  intros [= <- <- _]. apply put_object_assigned in Hput as (-> & _); [|done]. done.
Qed.

Lemma commit_failed {A : Type} now m t g id expected r nonce io announce (result : N -> A) e g' ns :
  commit_record to_value now m t g id expected r nonce io announce result = (Err e, g', ns) ->
  index g' = index g /\ e <> NotFound.
Proof.
  unfold commit_record. destruct (put_object _ _ _ _ _ _ _ _ _) as [[[o v]|e'] s]; [done|].
  by intros [= <- <- _].
Qed.

Lemma commit_total {A : Type} now m t g id r nonce announce (result : N -> A) :
  authorize now m t WRITE = Ok tt ->
  (commit_record to_value now m t g (Some id) (current_version (storage g) id) r nonce Written announce result).1.1
  = Ok (result id).
Proof.
  intros Ha. unfold commit_record, put_object, current_version. rewrite Ha. by rewrite bool_decide_false by (intros []; done).
Qed.

#[local] Obligation Tactic := idtac.

#[export] Program Instance graph_node_store : NodeStore V (KnowledgeGraph (V := V)) WriteEnv := {
  ns_node g id := nodes (index g) !! id;
  ns_get := get;
  ns_put now m t g id ty emb md env :=
    (put_node to_value now m t g (Some id) ty emb md (we_wall1 env) (we_wall2 env) (we_nonce env) (we_io env)).1;
  ns_delete now m t g id env :=
    (delete_node to_value now m t g id (we_wall2 env) (we_nonce env) (we_io env)).1;
  ns_ok env := we_io env = Written
}.
Next Obligation.
  intros now m t g id. unfold get, require. by destruct (authorize now m t READ).
Qed.
Next Obligation.
  intros now m t g id ty emb md env e g' Hput x.
  unfold put_node, put_node_with_device_origin, put_node_with_provenance in Hput.
  destruct (require now m t WRITE); [|by injection Hput as <- <-]. destruct (is_some_and _ _); [by injection Hput as <- <-|].
  destruct (commit_record _ _ _ _ _ _ _ _ _ _ _ _) as [[[r|err] g1] ns] eqn:Hc; [done|injection Hput as <- <-].
  by apply commit_failed in Hc as [-> _].
Qed.
Next Obligation.
  intros now m t g id ty emb md env id' g' Hput.
  unfold put_node, put_node_with_device_origin, put_node_with_provenance in Hput.
  destruct (require now m t WRITE); [|done]. simpl in Hput.
  destruct (is_some_and (nodes (index g) !! id) _) eqn:Ho; [done|].
  destruct (commit_record _ _ _ _ _ _ _ _ _ _ _ _) as [[[r|err] g1] ns] eqn:Hc; [injection Hput as <- <-|done].
  apply commit_node_done in Hc as [-> ->]. split; [done|]. split; [intros x Hx; by apply lookup_insert_ne|].
  rewrite lookup_insert_eq. destruct (nodes (index g) !! id) as [n0|]; simpl in *.
  - apply negb_false_iff, N.eqb_eq in Ho. split; [by intros ? [= <-]|]. by eexists.
  - split; [done|]. by eexists.
Qed.
Next Obligation.
  intros now m t g id ty emb md [w1 w2 nonce io] Ha Hio Hown. simpl in *. subst io.
  unfold put_node, put_node_with_device_origin, put_node_with_provenance, require. rewrite Ha. simpl.
  assert (Ho : is_some_and (nodes (index g) !! id) (fun n => negb (owner n =? origin t)) = false).
  { destruct (nodes (index g) !! id) as [n0|]; [|done]. simpl. by rewrite (Hown n0), N.eqb_refl. }
  rewrite Ho. by rewrite commit_total.
Qed.
Next Obligation.
  intros now m t g id env e g' Hd. unfold delete_node in Hd. unfold require in Hd.
  destruct (authorize now m t WRITE); simpl in Hd; [|by injection Hd as <- <-].
  destruct (nodes (index g) !! id) as [n|] eqn:Hn; [|injection Hd as <- <-; split; [done|]; simpl; congruence].
  destruct (N.eqb_spec (owner n) (origin t)) as [Ho|Ho]; simpl in Hd.
  - destruct (tombstone n); [done|].
    destruct (commit_record _ _ _ _ _ _ _ _ _ _ _ _) as [[[r|err] g1] ns] eqn:Hc; [done|injection Hd as <- <-].
    apply commit_failed in Hc as [-> Hne]. done.
  - injection Hd as <- <-. split; [done|]. simpl. congruence.
Qed.
Next Obligation.
  intros now m t g id env g' Hd. unfold delete_node in Hd. destruct (require now m t WRITE); [|done].
  destruct (nodes (index g) !! id) as [n|] eqn:Hn; [|done].
  destruct (N.eqb_spec (owner n) (origin t)) as [Ho|Ho]; [|done]. simpl in Hd.
  destruct (tombstone n) eqn:Ht; [injection Hd as <-; split; [done|]; by exists n|].
  destruct (commit_record _ _ _ _ _ _ _ _ _ _ _ _) as [[[r|err] g1] ns] eqn:Hc; [injection Hd as _ <-|done].
  apply commit_node_done in Hc as [_ ->]. split; [intros x Hx; by apply lookup_insert_ne|].
  rewrite lookup_insert_eq. by eexists.
Qed.
Next Obligation.
  intros now m t g id [w1 w2 nonce io] Ha Hio. simpl in *. subst io. unfold delete_node, require. rewrite Ha. simpl.
  destruct (nodes (index g) !! id) as [n|]; [|by right]. destruct (owner n =? origin t); [|by right]. simpl.
  destruct (tombstone n); [by left|]. left. by rewrite commit_total.
Qed.

(** Every node is an object of the storage engine. *)
Definition stored (g : KnowledgeGraph (V := V)) : Prop :=
  forall id, is_Some (nodes (index g) !! id) ->
    is_Some (metadata_view (inner (storage g)) !! id) /\ is_Some (version_pointer (inner (storage g)) !! id).

Lemma stored_commit {A : Type} now m t g id expected n nonce io announce (result : N -> A) :
  stored g -> stored (commit_record to_value now m t g id expected (RNode n) nonce io announce result).1.2.
Proof.
  intros Hs. unfold commit_record, put_object. destruct (authorize now m t WRITE) as [[]|]; [|done].
  set (pick := match id with Some _ => _ | None => _ end). destruct pick as [oid next].
  destruct (bool_decide _); [done|].
  destruct (append_and_fsync _ _ _ _) as [[] w]; simpl; intros x; simpl; [|apply Hs].
  destruct (decide (x = oid)) as [->|Hne]; [by rewrite !lookup_insert_eq|]. rewrite !lookup_insert_ne by done. apply Hs.
Qed.

#[export] Program Instance graph_node_creator :
    NodeCreator V (KnowledgeGraph (V := V)) WriteEnv (H0 := graph_node_store) := {
  nc_create now m t g ty emb md env :=
    (put_node to_value now m t g None ty emb md (we_wall1 env) (we_wall2 env) (we_nonce env) (we_io env)).1;
  nc_sound := stored
}.
Next Obligation.
  intros now m t g ty emb md env e g' Hput x.
  unfold put_node, put_node_with_device_origin, put_node_with_provenance in Hput.
  destruct (require now m t WRITE); [|by injection Hput as <- <-]. simpl in Hput.
  destruct (commit_record _ _ _ _ _ _ _ _ _ _ _ _) as [[[r|err] g1] ns] eqn:Hc; [done|injection Hput as <- <-].
  apply commit_failed in Hc as [Hi _]. simpl. by rewrite Hi.
Qed.
Next Obligation.
  intros now m t g ty emb md env id g' Hput.
  unfold put_node, put_node_with_device_origin, put_node_with_provenance in Hput.
  destruct (require now m t WRITE); [|done]. cbn [is_some_and option_bind mbind] in Hput. unfold commit_record, put_object in Hput.
  destruct (authorize now m t WRITE) as [[]|]; [|done].
  destruct (decide (version_pointer (inner (storage g)) !! next_object_id (inner (storage g)) = None)) as [Hv|Hv];
    [rewrite bool_decide_false in Hput by (rewrite Hv; by intros []) | by rewrite bool_decide_true in Hput].
  destruct (append_and_fsync _ _ _ _) as [[] w]; [|done]. injection Hput as <- <-. simpl.
  split; [intros x Hx; by apply lookup_insert_ne|]. split.
  - intros Hs. apply eq_None_not_Some. intros Hn. apply Hs in Hn as [_ [v Hp]]. congruence.
  - rewrite lookup_insert_eq. by eexists.
Qed.
Next Obligation.
  intros now m t g ty emb md env id g' Hput.
  unfold put_node, put_node_with_device_origin, put_node_with_provenance, require in Hput.
  by destruct (authorize now m t WRITE) as [[]|].
Qed.
Next Obligation.
  intros now m t g ty emb md env Hs. unfold put_node, put_node_with_device_origin, put_node_with_provenance.
  destruct (require now m t WRITE); [|done]. by apply stored_commit.
Qed.
Next Obligation.
  intros now m t g id ty emb md env Hs. simpl. unfold put_node, put_node_with_device_origin, put_node_with_provenance.
  destruct (require now m t WRITE); [|done]. destruct (is_some_and _ _); [done|]. by apply stored_commit.
Qed.
Next Obligation.
  intros now m t g id env Hs. simpl. unfold delete_node. destruct (require now m t WRITE); [|done].
  destruct (nodes (index g) !! id) as [n|]; [|done]. destruct (negb _); [done|]. destruct (tombstone n); [done|]. by apply stored_commit.
Qed.
End graph_store.
