(* ===== verification/Recovery.v ===== *)
(** Rollback and recovery: [crates/hyperion-recovery/src/{types,service}.rs].

    The service keeps recovery points (what some nodes looked like before an
    action), a journal of actions, and, for every action it has undone, what its
    nodes looked like before that. It reads and writes nodes through [NodeStore];
    the graph is shared, so it is passed beside the service's own state, with a
    count of the writes made so far that picks each write's outside inputs. The
    memory engine and the agent runtime belong to crates that are not modelled
    and are parameters. *)
From S2P Require Import Prelude Crypto Capability Authority Wal Storage DebugFmt Events F32 Json KnowledgeGraph NodeStore.
Open Scope N_scope.

(** ** types.rs *)

Abbreviation RecoveryPointId := N (only parsing).
Abbreviation ActionId := N (only parsing).

Inductive Trigger : Type :=
| Automatic | UserRequested | PreRiskyAction | PreUpdate
| PreAgentRun (agent_run_id : N) | PreGoalFork (goal_id : N).

Record RecoveryPoint := mkPoint {
  rp_id : RecoveryPointId;
  rp_created_at : N;
  trigger : Trigger;
  pinned : bool
}.

Inductive ActionStatus : Type := Committed | InFlight | Aborted | Undone | Expired.

#[export] Instance action_status_eq_dec : EqDecision ActionStatus.
Proof. solve_decision. Defined.

Record ActionRecord := mkAction {
  action_id : ActionId;
  agent_run_id : option N;
  session_id : option N;
  goal_id : option NodeId;
  recovery_point_before : RecoveryPointId;
  objects_touched : list NodeId;
  status : ActionStatus;
  act_created_at : N;
  note : list N
}.

#[export] Instance action_record_eq_dec : EqDecision ActionRecord.
Proof. solve_decision. Defined.

Inductive UndoScope : Type :=
| SingleAction (id : ActionId)
| AgentRun (run_id : N)
| Session (id : N)
| Goal_ (id : NodeId)
| Global (id : RecoveryPointId).

Inductive UndoReceipt : Type :=
| UndoTargeted (undone_actions : list ActionId)
| UndoNeedsConfirmation (conflicting_objects : list NodeId)
| NothingToUndo.

Inductive RedoReceipt : Type :=
| RedoTargeted (redone_actions : list ActionId)
| RedoNeedsConfirmation (conflicting_objects : list NodeId)
| NothingToRedo.

Record RollbackCause := mkCause {
  reason : list N;
  detail : Json
}.

Record RecordedRollback := mkRollback {
  rb_point : RecoveryPointId;
  rb_subject : list N;
  rb_cause : RollbackCause;
  rb_created_at : N
}.

(** The memory engine as the service uses it: [remember] in the procedural tier,
    whatever comes of it, and the contents [query] finds there. *)
Class MemoryEngine (M Mem MemoryError : Type) := {
  remember : Instant -> M -> CapabilityToken -> Mem -> Json -> Mem;
  query_procedural : Instant -> M -> CapabilityToken -> Mem -> Result (list Json) MemoryError
}.

(** The agent runtime as the service uses it. *)
Class AgentRuntime (M Agents Manifest Intent AgentError : Type) := {
  describe : Agents -> N -> option (Manifest * option Intent);
  terminate : Instant -> M -> CapabilityToken -> Agents -> N -> list N -> Result unit AgentError * Agents;
  spawn : Instant -> M -> CapabilityToken -> Agents -> Manifest -> option Intent -> Result N AgentError * Agents
}.

Section recovery.
Context {V G Env M : Type} `{NodeStore V G Env (M := M)} `{HashIter}.
Context {AgentError MemoryError Mem Agents Manifest Intent : Type}.
Context `{MemoryEngine M Mem MemoryError} `{AgentRuntime M Agents Manifest Intent AgentError}.

Abbreviation Snapshot := (list (NodeId * option (NodeRecord (V := V)))) (only parsing).

Inductive RecoveryError : Type :=
| Unauthorized
| NoSuchRecoveryPoint
| NoSuchAction
| ActionNotCommitted
| GraphFailed (e : GraphError)
| AgentFailed (e : AgentError)
| MemoryFailed (e : MemoryError).

(** ** service.rs *)

Record RecoveryService := mkService {
  points : gmap N RecoveryPoint;
  snapshots : gmap N Snapshot;
  actions : list ActionRecord;
  redo_snapshots : gmap N Snapshot;
  next_point_id : N;
  next_action_id : N;
  memory : option Mem
}.

Definition new_with_memory (mem : option Mem) : RecoveryService := mkService ∅ ∅ [] ∅ 1 1 mem.
Definition new : RecoveryService := new_with_memory None.

Definition with_actions (s : RecoveryService) (l : list ActionRecord) : RecoveryService :=
  mkService (points s) (snapshots s) l (redo_snapshots s) (next_point_id s) (next_action_id s) (memory s).

Definition with_redo (s : RecoveryService) (r : gmap N Snapshot) : RecoveryService :=
  mkService (points s) (snapshots s) (actions s) r (next_point_id s) (next_action_id s) (memory s).

Definition with_points (s : RecoveryService) (p : gmap N RecoveryPoint) (sn : gmap N Snapshot) : RecoveryService :=
  mkService p sn (actions s) (redo_snapshots s) (next_point_id s) (next_action_id s) (memory s).

(** The shared graph, the outside inputs of its writes, and how many there have
    been. *)
Record World := mkWorld {
  store : G;
  tick : nat
}.

Context (outside : nat -> Env).

Definition world_put now m t (w : World) (id : NodeId) ty emb md : Result NodeId GraphError * World :=
  let '(res, g) := ns_put now m t (store w) id ty emb md (outside (tick w)) in (res, mkWorld g (S (tick w))).

Definition world_delete now m t (w : World) (id : NodeId) : Result unit GraphError * World :=
  let '(res, g) := ns_delete now m t (store w) id (outside (tick w)) in (res, mkWorld g (S (tick w))).

Definition require (now : Instant) (m : M) (t : CapabilityToken) (r : RightsMask) : Result unit RecoveryError :=
  map_err (fun _ => Unauthorized) (authorize now m t r).

Fixpoint snapshot_objects (now : Instant) (m : M) (t : CapabilityToken) (w : World) (objects : list NodeId) :
    Result Snapshot RecoveryError :=
  match objects with
  | [] => Ok []
  | id :: objects =>
      let? existing := match ns_get now m t (store w) id with
                       | Ok record => Ok (Some record)
                       | Err NotFound => Ok None
                       | Err e => Err (GraphFailed e)
                       end in
      let? rest := snapshot_objects now m t w objects in
      Ok ((id, existing) :: rest)
  end.

Definition recovery_point_create (now : Instant) (m : M) (t : CapabilityToken) (s : RecoveryService) (w : World)
    (tr : Trigger) (objects : list NodeId) (wall : N) : Result RecoveryPointId RecoveryError * RecoveryService :=
  match require now m t WRITE with
  | Err e => (Err e, s)
  | Ok _ =>
      match snapshot_objects now m t w objects with
      | Err e => (Err e, s)
      | Ok snapshot =>
          let point_id := next_point_id s in
          (Ok point_id,
           mkService (<[point_id := mkPoint point_id wall tr false]> (points s))
             (<[point_id := snapshot]> (snapshots s)) (actions s) (redo_snapshots s)
             (u64_add point_id 1) (next_action_id s) (memory s))
      end
  end.

Definition record_action_started_with_scope (s : RecoveryService) (point : RecoveryPointId) (objects : list NodeId)
    (run session : option N) (goal : option NodeId) (nt : list N) (wall : N) : ActionId * RecoveryService :=
  let id := next_action_id s in
  (id, mkService (points s) (snapshots s)
         (actions s ++ [mkAction id run session goal point objects InFlight wall nt])
         (redo_snapshots s) (next_point_id s) (u64_add id 1) (memory s)).

Definition record_action_started (s : RecoveryService) (point : RecoveryPointId) (objects : list NodeId)
    (run : option N) (nt : list N) (wall : N) : ActionId * RecoveryService :=
  record_action_started_with_scope s point objects run None None nt wall.

Definition with_status (a : ActionRecord) (st : ActionStatus) : ActionRecord :=
  mkAction (action_id a) (agent_run_id a) (session_id a) (goal_id a) (recovery_point_before a)
    (objects_touched a) st (act_created_at a) (note a).

(** [iter_mut().find(..)]: the first record with the id is the one changed. *)
Fixpoint update_first (id : ActionId) (st : ActionStatus) (l : list ActionRecord) : option (list ActionRecord) :=
  match l with
  | [] => None
  | a :: l => if action_id a =? id then Some (with_status a st :: l)
              else cons a <$> update_first id st l
  end.

Definition set_status (s : RecoveryService) (id : ActionId) (st : ActionStatus) :
    Result unit RecoveryError * RecoveryService :=
  match update_first id st (actions s) with
  | None => (Err NoSuchAction, s)
  | Some l => (Ok tt, with_actions s l)
  end.

Definition record_action_committed s id := set_status s id Committed.
Definition record_action_aborted s id := set_status s id Aborted.

Definition expire (s : RecoveryService) (id : ActionId) : Result unit RecoveryError * RecoveryService :=
  match List.find (fun a => action_id a =? id) (actions s) with
  | None => (Err NoSuchAction, s)
  | Some a =>
      if bool_decide (status a <> Committed) then (Err ActionNotCommitted, s) else set_status s id Expired
  end.

(** The loop of [apply_snapshot], on the entries it does not skip. *)
Fixpoint apply_entries (now : Instant) (m : M) (t : CapabilityToken) (w : World) (entries : Snapshot) :
    Result unit RecoveryError * World :=
  match entries with
  | [] => (Ok tt, w)
  | (id, Some record) :: entries =>
      match world_put now m t w id (object_type record) (embedding record) (node_metadata record) with
      | (Err e, w) => (Err (GraphFailed e), w)
      | (Ok _, w) => apply_entries now m t w entries
      end
  | (id, None) :: entries =>
      match world_delete now m t w id with
      | (Ok _, w) | (Err NotFound, w) => apply_entries now m t w entries
      | (Err e, w) => (Err (GraphFailed e), w)
      end
  end.

Definition apply_snapshot (now : Instant) (m : M) (t : CapabilityToken) (w : World) (snapshot : Snapshot)
    (objects : list NodeId) : Result unit RecoveryError * World :=
  apply_entries now m t w (filter (fun p => p.1 ∈ objects) snapshot).

Definition restore_objects (now : Instant) (m : M) (t : CapabilityToken) (s : RecoveryService) (w : World)
    (point : RecoveryPointId) (objects : list NodeId) : Result unit RecoveryError * World :=
  match snapshots s !! point with
  | None => (Err NoSuchRecoveryPoint, w)
  | Some snapshot => apply_snapshot now m t w snapshot objects
  end.

Definition restore_to (now : Instant) (m : M) (t : CapabilityToken) (s : RecoveryService) (w : World)
    (point : RecoveryPointId) : Result unit RecoveryError * World :=
  match require now m t WRITE with
  | Err e => (Err e, w)
  | Ok _ =>
      match snapshots s !! point with
      | None => (Err NoSuchRecoveryPoint, w)
      | Some snapshot => restore_objects now m t s w point snapshot.*1
      end
  end.

(** ** Remembered causes *)

Definition ROLLBACK_CAUSE_KIND : list N := lit "recovery_rollback".

(** The content of the memory a rollback leaves. *)
Definition cause_content (point : RecoveryPointId) (subject : list N) (c : RollbackCause) (wall : N) : Json :=
  JObject [(lit "kind", JString ROLLBACK_CAUSE_KIND); (lit "recovery_point_id", JNumber point);
           (lit "subject", JString subject); (lit "reason", JString (reason c));
           (lit "detail", detail c); (lit "created_at", JNumber wall)].

Definition restore_to_with_cause (now : Instant) (m : M) (t : CapabilityToken) (s : RecoveryService) (w : World)
    (point : RecoveryPointId) (subject : list N) (cause : RollbackCause) (wall : N) :
    Result unit RecoveryError * RecoveryService * World :=
  match restore_to now m t s w point with
  | (Err e, w) => (Err e, s, w)
  | (Ok _, w) =>
      (Ok tt,
       mkService (points s) (snapshots s) (actions s) (redo_snapshots s) (next_point_id s) (next_action_id s)
         ((fun mem => remember now m t mem (cause_content point subject cause wall)) <$> memory s),
       w)
  end.

(** The two filters of [rollback_causes] on one memory. *)
Definition parse_cause (subject : list N) (c : Json) : option RecordedRollback :=
  if bool_decide ((json_get c (lit "kind") ≫= as_str) = Some ROLLBACK_CAUSE_KIND)
     && bool_decide ((json_get c (lit "subject") ≫= as_str) = Some subject)
  then
    point ← json_get c (lit "recovery_point_id") ≫= as_u64;
    why ← json_get c (lit "reason") ≫= as_str;
    let det := default JNull (json_get c (lit "detail")) in
    wall ← json_get c (lit "created_at") ≫= as_u64;
    Some (mkRollback point subject (mkCause why det) wall)
  else None.

Definition rollback_causes (now : Instant) (m : M) (t : CapabilityToken) (s : RecoveryService) (subject : list N) :
    Result (list RecordedRollback) RecoveryError :=
  match memory s with
  | None => Ok []
  | Some mem =>
      let? records := map_err MemoryFailed (query_procedural now m t mem) in
      Ok (sort_by_key rb_created_at (omap (parse_cause subject) records))
  end.

(** ** Crashes *)

(** An agent that ran the action is replaced by a fresh one of the same manifest
    and intent. *)
Definition respawn (now : Instant) (m : M) (t : CapabilityToken) (ag : Agents) (run : option N) :
    Result unit RecoveryError * Agents :=
  match run with
  | None => (Ok tt, ag)
  | Some id =>
      match describe ag id with
      | None => (Ok tt, ag)
      | Some (manifest, bound_intent) =>
          match terminate now m t ag id (lit "crash_recovery_replan") with
          | (Err e, ag) => (Err (AgentFailed e), ag)
          | (Ok _, ag) =>
              match spawn now m t ag manifest bound_intent with
              | (Err e, ag) => (Err (AgentFailed e), ag)
              | (Ok _, ag) => (Ok tt, ag)
              end
          end
      end
  end.

Fixpoint recover_each (now : Instant) (m : M) (t : CapabilityToken) (s : RecoveryService) (w : World) (ag : Agents)
    (in_flight : list ActionRecord) : Result (list ActionId) RecoveryError * RecoveryService * World * Agents :=
  match in_flight with
  | [] => (Ok [], s, w, ag)
  | r :: in_flight =>
      match restore_objects now m t s w (recovery_point_before r) (objects_touched r) with
      | (Err e, w) => (Err e, s, w, ag)
      | (Ok _, w) =>
          match respawn now m t ag (agent_run_id r) with
          | (Err e, ag) => (Err e, s, w, ag)
          | (Ok _, ag) =>
              match record_action_aborted s (action_id r) with
              | (Err e, s) => (Err e, s, w, ag)
              | (Ok _, s) =>
                  let '(res, s, w, ag) := recover_each now m t s w ag in_flight in
                  ((let? ids := res in Ok (action_id r :: ids)), s, w, ag)
              end
          end
      end
  end.

Definition recover_from_crash (now : Instant) (m : M) (t : CapabilityToken) (s : RecoveryService) (w : World)
    (ag : Agents) : Result (list ActionId) RecoveryError * RecoveryService * World * Agents :=
  recover_each now m t s w ag (List.filter (fun a => bool_decide (status a = InFlight)) (actions s)).

(** ** Undo and redo *)

Definition in_scope (a : ActionRecord) (scope : UndoScope) : bool :=
  match scope with
  | SingleAction id => action_id a =? id
  | AgentRun run => bool_decide (agent_run_id a = Some run)
  | Session id => bool_decide (session_id a = Some id)
  | Goal_ id => bool_decide (goal_id a = Some id)
  | Global point => recovery_point_before a =? point
  end.

Definition ids_of (l : list ActionRecord) : list ActionId := action_id <$> l.
Definition touched_by (l : list ActionRecord) : list NodeId := l ≫= objects_touched.

(** [iter().map(|a| a.created_at).min()]. *)
Definition earliest (l : list ActionRecord) : N :=
  match l with
  | [] => 0
  | a :: l => fold_left (fun e b => N.min e (act_created_at b)) l (act_created_at a)
  end.

(** The conflict scans of [undo] and [redo]; [live] is the test each makes of
    the status of an action out of scope. *)
Definition conflicts (live : ActionStatus -> bool) (all scope : list ActionRecord) : list NodeId :=
  List.filter (fun id => bool_decide (id ∈ touched_by scope))
    (touched_by
       (List.filter (fun a => negb (bool_decide (action_id a ∈ ids_of scope)) && live (status a)
                              && (earliest scope <=? act_created_at a)) all)).

Definition undo_live (st : ActionStatus) : bool := bool_decide (st <> Aborted) && bool_decide (st <> Undone).
Definition redo_live (st : ActionStatus) : bool := bool_decide (st = Committed).

Definition set_all (ids : list ActionId) (st : ActionStatus) (l : list ActionRecord) : list ActionRecord :=
  (fun a => if bool_decide (action_id a ∈ ids) then with_status a st else a) <$> l.

(** What each action in scope has left, captured before anything is undone. *)
Fixpoint capture_all (now : Instant) (m : M) (t : CapabilityToken) (w : World) (l : list ActionRecord)
    (redo : gmap N Snapshot) : Result unit RecoveryError * gmap N Snapshot :=
  match l with
  | [] => (Ok tt, redo)
  | a :: l =>
      match snapshot_objects now m t w (objects_touched a) with
      | Err e => (Err e, redo)
      | Ok snapshot => capture_all now m t w l (<[action_id a := snapshot]> redo)
      end
  end.

Fixpoint restore_each (now : Instant) (m : M) (t : CapabilityToken) (s : RecoveryService) (w : World)
    (l : list ActionRecord) : Result (list ActionId) RecoveryError * World :=
  match l with
  | [] => (Ok [], w)
  | a :: l =>
      match restore_objects now m t s w (recovery_point_before a) (objects_touched a) with
      | (Err e, w) => (Err e, w)
      | (Ok _, w) =>
          let '(res, w) := restore_each now m t s w l in
          ((let? ids := res in Ok (action_id a :: ids)), w)
      end
  end.

(** The actions are read, and the statuses written, each under the lock, which is let go
    of in between: this is a call during which no other changes the actions or the
    graph. *)
Definition undo (now : Instant) (m : M) (t : CapabilityToken) (s : RecoveryService) (w : World)
    (scope : UndoScope) : Result UndoReceipt RecoveryError * RecoveryService * World :=
  match require now m t WRITE with
  | Err e => (Err e, s, w)
  | Ok _ =>
      match List.filter (fun a => bool_decide (status a = Committed) && in_scope a scope) (actions s) with
      | [] => (Ok NothingToUndo, s, w)
      | l =>
          let l := sort_by_key_rev act_created_at l in
          match conflicts undo_live (actions s) l with
          | (_ :: _) as c => (Ok (UndoNeedsConfirmation c), s, w)
          | [] =>
              match capture_all now m t w l (redo_snapshots s) with
              | (Err e, redo) => (Err e, with_redo s redo, w)
              | (Ok _, redo) =>
                  let s := with_redo s redo in
                  match restore_each now m t s w l with
                  | (Err e, w) => (Err e, s, w)
                  | (Ok undone, w) =>
                      (Ok (UndoTargeted undone), with_actions s (set_all (ids_of l) Undone (actions s)), w)
                  end
              end
          end
      end
  end.

Fixpoint redo_each (now : Instant) (m : M) (t : CapabilityToken) (s : RecoveryService) (w : World)
    (l : list ActionRecord) : Result (list ActionId) RecoveryError * World :=
  match l with
  | [] => (Ok [], w)
  | a :: l =>
      match redo_snapshots s !! action_id a with
      | None => (Err NoSuchAction, w)
      | Some snapshot =>
          match apply_snapshot now m t w snapshot (objects_touched a) with
          | (Err e, w) => (Err e, w)
          | (Ok _, w) =>
              let '(res, w) := redo_each now m t s w l in
              ((let? ids := res in Ok (action_id a :: ids)), w)
          end
      end
  end.

Definition redo (now : Instant) (m : M) (t : CapabilityToken) (s : RecoveryService) (w : World)
    (scope : UndoScope) : Result RedoReceipt RecoveryError * RecoveryService * World :=
  match require now m t WRITE with
  | Err e => (Err e, s, w)
  | Ok _ =>
      match List.filter (fun a => bool_decide (status a = Undone) && in_scope a scope) (actions s) with
      | [] => (Ok NothingToRedo, s, w)
      | l =>
          let l := sort_by_key act_created_at l in
          match conflicts redo_live (actions s) l with
          | (_ :: _) as c => (Ok (RedoNeedsConfirmation c), s, w)
          | [] =>
              match redo_each now m t s w l with
              | (Err e, w) => (Err e, s, w)
              | (Ok redone, w) =>
                  (Ok (RedoTargeted redone), with_actions s (set_all (ids_of l) Committed (actions s)), w)
              end
          end
      end
  end.

(** ** Retention *)

Definition set_pinned (now : Instant) (m : M) (t : CapabilityToken) (s : RecoveryService) (id : RecoveryPointId)
    (p : bool) : Result unit RecoveryError * RecoveryService :=
  match require now m t WRITE with
  | Err e => (Err e, s)
  | Ok _ =>
      match points s !! id with
      | None => (Err NoSuchRecoveryPoint, s)
      | Some pt =>
          (Ok tt, with_points s (<[id := mkPoint (rp_id pt) (rp_created_at pt) (trigger pt) p]> (points s)) (snapshots s))
      end
  end.

Definition pin now m t s id := set_pinned now m t s id true.
Definition unpin now m t s id := set_pinned now m t s id false.

Definition recovery_point (s : RecoveryService) (id : RecoveryPointId) : option RecoveryPoint := points s !! id.

Definition compact (s : RecoveryService) (wall retention_secs : N) : nat * RecoveryService :=
  let still_needed :=
    recovery_point_before <$> List.filter (fun a => bool_decide (status a = InFlight) || bool_decide (status a = Committed))
                                (actions s) in
  let to_evict :=
    rp_id <$> List.filter (fun p => negb (pinned p) && (retention_secs <=? wall - rp_created_at p)
                                    && negb (bool_decide (rp_id p ∈ still_needed)))
                (snd <$> hash_iter (points s)) in
  (length to_evict,
   with_points s (foldr delete (points s) to_evict) (foldr delete (snapshots s) to_evict)).

Definition action_records (s : RecoveryService) : list ActionRecord := actions s.

(** ** Restoring *)

(** The node a reader of boundary [b] finds, as [get] does. *)
Definition live_node (g : G) (b : N) (id : NodeId) : option (NodeRecord (V := V)) :=
  n ← ns_node g id; if own_live b n then Some n else None.

(** What that reader may see of it that a writer chose. *)
Definition seen (g : G) (b : N) (id : NodeId) : option (list N * option (list f32) * V) :=
  content <$> live_node g b id.

(** A deleted node keeps its mark: nothing the store offers removes it. *)
Definition dead (g : G) (id : NodeId) : bool := is_some_and (ns_node g id) tombstone.

Lemma live_node_None g b id n : ns_node g id = Some n -> own_live b n = false -> live_node g b id = None.
Proof. intros Hn Ho. unfold live_node. rewrite Hn. simpl. by rewrite Ho. Qed.

Lemma snapshot_objects_ok now m t w objects sn :
  snapshot_objects now m t w objects = Ok sn ->
  sn = (fun id => (id, live_node (store w) (origin t) id)) <$> objects.
Proof.
  revert sn. induction objects as [|id objects IH]; intros sn; simpl; [by intros [= <-]|].
  rewrite ns_get_spec. unfold live_node at 1. destruct (is_ok _); [|done].
  destruct (ns_node (store w) id) as [n|]; simpl; [destruct (own_live (origin t) n)|];
    (destruct (snapshot_objects now m t w objects) as [rest|e]; [|done]);
    intros [= <-]; by rewrite (IH rest).
Qed.

Lemma snapshot_objects_total now m t w objects :
  authorize now m t READ = Ok tt ->
  snapshot_objects now m t w objects = Ok ((fun id => (id, live_node (store w) (origin t) id)) <$> objects).
Proof.
  intros Ha. induction objects as [|id objects IH]; [done|]. simpl. rewrite ns_get_spec, Ha, IH. simpl.
  unfold live_node. destruct (ns_node (store w) id) as [n|]; simpl; [|done]. by destruct (own_live (origin t) n).
Qed.

(** One entry. *)
Lemma apply_entry_ok now m t w id st w' :
  apply_entries now m t w [(id, st)] = (Ok tt, w') ->
  (forall x, x <> id -> ns_node (store w') x = ns_node (store w) x)
  /\ match st with
     | None => live_node (store w') (origin t) id = None
     | Some r => exists n, ns_node (store w') id = Some n /\ owner n = origin t /\ content n = content r
                           /\ tombstone n = dead (store w) id
     end.
Proof.
  simpl. destruct st as [r|].
  - unfold world_put. destruct (ns_put _ _ _ _ _ _ _ _ _) as [[id'|e] g'] eqn:Hp; [|done]. intros [= <-]. simpl.
    apply ns_put_done in Hp as (_ & Hx & _ & n & Hn & Hc & Ho & Ht). split; [done|]. by exists n.
  - unfold world_delete. destruct (ns_delete _ _ _ _ _ _) as [[[]|e] g'] eqn:Hd.
    + intros [= <-]. simpl. apply ns_delete_done in Hd as (Hx & n & Hn & Ho & Ht). split; [done|].
      eapply live_node_None; [done|]. unfold own_live. by rewrite Ht.
    + destruct e; intros [= <-]. simpl. apply ns_delete_failed in Hd as (Hx & Hown). split; [by intros; apply Hx|].
      unfold live_node. rewrite Hx. destruct (ns_node (store w) id) as [n|]; [|done]. simpl.
      destruct (own_live (origin t) n) eqn:Ho; [|done]. apply own_live_spec in Ho as [Ho _]. by destruct (Hown eq_refl n).
Qed.

Lemma apply_entries_app now m t w l1 l2 :
  apply_entries now m t w (l1 ++ l2)
  = match apply_entries now m t w l1 with
    | (Ok _, w) => apply_entries now m t w l2
    | (Err e, w) => (Err e, w)
    end.
Proof.
  revert w. induction l1 as [|[id [r|]] l1 IH]; intros w; simpl; [done| |].
  - destruct (world_put _ _ _ _ _ _ _ _) as [[?|?] ?]; [apply IH|done].
  - destruct (world_delete _ _ _ _ _) as [[?|[]] ?]; first [apply IH|done].
Qed.

Definition entry_for (id : NodeId) (l : Snapshot) : option (option (NodeRecord (V := V))) :=
  snd <$> last (filter (fun p => p.1 = id) l).

Lemma entry_for_snoc id l p :
  entry_for id (l ++ [p]) = if decide (p.1 = id) then Some p.2 else entry_for id l.
Proof.
  unfold entry_for. rewrite filter_app, last_app, filter_cons, filter_nil. by destruct (decide (p.1 = id)).
Qed.

(** A list of entries: each node named ends up as its last entry says, provided
    no deletion gets in the way, and no other node changes. *)
Lemma apply_entries_ok now m t w l w' :
  apply_entries now m t w l = (Ok tt, w') -> forall id,
  match entry_for id l with
  | None => ns_node (store w') id = ns_node (store w) id
  | Some None => live_node (store w') (origin t) id = None
  | Some (Some r) =>
      exists n, ns_node (store w') id = Some n /\ owner n = origin t /\ content n = content r
                /\ (dead (store w) id = false -> (id, None) ∉ l -> tombstone n = false)
  end.
Proof.
  revert w'. induction l as [|[id0 st] l IH] using rev_ind; intros w'; [by intros [= <-]|].
  rewrite apply_entries_app. destruct (apply_entries now m t w l) as [[[]|e] w1] eqn:Hl; [|done].
  specialize (IH w1 eq_refl). intros Hlast%apply_entry_ok id. destruct Hlast as [Hframe Hst].
  rewrite entry_for_snoc. cbn [fst snd]. specialize (IH id). destruct (decide (id0 = id)) as [->|Hne].
  - destruct st as [r|]; [|done]. destruct Hst as (n & Hn & Ho & Hc & Ht). exists n. split_and!; [done..|].
    intros Hdead Hno. rewrite Ht. unfold dead. rewrite elem_of_app in Hno.
    destruct (entry_for id l) as [[r'|]|] eqn:He.
    + destruct IH as (n1 & -> & _ & _ & Ht1). simpl. apply Ht1; [done|]. naive_solver.
    + exfalso. apply Hno. left. unfold entry_for in He. apply fmap_Some in He as ([id' st'] & Hl' & Hst').
      apply last_Some_elem_of, list_elem_of_filter in Hl' as [Hid Hin]. simpl in *. by subst.
    + by rewrite IH.
  - destruct (entry_for id l) as [[r'|]|].
    + destruct IH as (n1 & Hn1 & Ho1 & Hc1 & Ht1). exists n1. rewrite Hframe by done. split_and!; [done..|].
      intros Hdead Hno. apply Ht1; [done|]. rewrite elem_of_app in Hno. naive_solver.
    + unfold live_node in *. by rewrite Hframe.
    + by rewrite Hframe.
Qed.

(** Whatever happens, only the nodes named change. *)
Lemma apply_entries_frame now m t w l id :
  id ∉ l.*1 -> ns_node (store (apply_entries now m t w l).2) id = ns_node (store w) id.
Proof.
  revert w. induction l as [|[id0 [r|]] l IH]; intros w; [done| |];
    rewrite fmap_cons, not_elem_of_cons; intros [Hne Hl]; simpl in *.
  - unfold world_put. destruct (ns_put _ _ _ _ _ _ _ _ _) as [[id'|e] g'] eqn:Hp; simpl.
    + rewrite IH by done. simpl. apply ns_put_done in Hp as (_ & Hx & _). by apply Hx.
    + by eapply ns_put_failed.
  - unfold world_delete. destruct (ns_delete _ _ _ _ _ _) as [[[]|e] g'] eqn:Hd; simpl.
    + rewrite IH by done. simpl. apply ns_delete_done in Hd as (Hx & _). by apply Hx.
    + apply ns_delete_failed in Hd as [Hx _]. destruct e; simpl; rewrite ?IH by done; apply Hx.
Qed.

(** With the right to write, a working disk, and none of the ids taken by
    someone else, every entry is applied. *)
Definition unclaimed (g : G) (b : N) (ids : list NodeId) : Prop :=
  forall id n, id ∈ ids -> ns_node g id = Some n -> owner n = b.

Lemma unclaimed_step g g' b id ids :
  unclaimed g b ids -> (forall x, x <> id -> ns_node g' x = ns_node g x) ->
  (forall n, ns_node g' id = Some n -> ns_node g id = Some n \/ owner n = b) -> unclaimed g' b ids.
Proof.
  intros Hun Hx Hid x n Hin Hn. destruct (decide (x = id)) as [->|Hne].
  - destruct (Hid _ Hn); [|done]. by eapply Hun.
  - rewrite Hx in Hn by done. by eapply Hun.
Qed.

Lemma apply_entries_total now m t w l :
  authorize now m t WRITE = Ok tt -> (forall k, ns_ok (outside k)) ->
  unclaimed (store w) (origin t) l.*1 -> (apply_entries now m t w l).1 = Ok tt.
Proof.
  intros Ha Hok. revert w. induction l as [|[id st] l IH]; intros w Hun; [done|].
  assert (Hl : unclaimed (store w) (origin t) l.*1) by (intros x n Hx; apply Hun; by right).
  assert (Hid : forall n0, ns_node (store w) id = Some n0 -> owner n0 = origin t)
    by (intros n0 Hn0; apply (Hun id); [by constructor|done]).
  destruct st as [r|]; simpl.
  - unfold world_put.
    pose proof (ns_put_total now m t (store w) id (object_type r) (embedding r) (node_metadata r) (outside (tick w))
                  Ha (Hok _) Hid) as Htot.
    destruct (ns_put _ _ _ _ _ _ _ _ _) as [[id'|e] g'] eqn:Hp; [|done].
    apply IH. simpl. apply ns_put_done in Hp as (_ & Hx & _ & n & Hn & _ & Ho & _).
    eapply unclaimed_step; [done|done|]. intros n' Hn'. right. congruence.
  - unfold world_delete. destruct (ns_delete _ _ _ _ _ _) as [res g'] eqn:Hd.
    destruct (ns_delete_total now m t (store w) id (outside (tick w)) Ha (Hok _)) as [Hr|Hr]; rewrite Hd in Hr;
      simpl in Hr; subst res.
    + apply IH. simpl. apply ns_delete_done in Hd as (Hx & n & Hn & Ho & _).
      eapply unclaimed_step; [done|done|]. intros n' Hn'. right. congruence.
    + apply IH. simpl. apply ns_delete_failed in Hd as [Hx _]. apply (unclaimed_step (store w) _ _ id); [done|by intros; apply Hx|].
      intros n. rewrite Hx. by left.
Qed.

(** Entries that agree on what each node was. *)
Lemma entry_for_in id (l : Snapshot) st : entry_for id l = Some st -> (id, st) ∈ l.
Proof.
  unfold entry_for. intros ([id' st'] & Hl & ->)%fmap_Some.
  apply last_Some_elem_of, list_elem_of_filter in Hl as [Hid Hin]. simpl in *. by subst.
Qed.

Lemma entry_for_None id (l : Snapshot) : entry_for id l = None <-> id ∉ l.*1.
Proof.
  unfold entry_for. rewrite fmap_None. split.
  - intros Hl ([id' st] & -> & Hin)%list_elem_of_fmap. apply last_None in Hl.
    assert (Hin' : (id', st) ∈ filter (fun p => p.1 = id') l) by (by apply list_elem_of_filter).
    simpl in Hl. rewrite Hl in Hin'. by apply not_elem_of_nil in Hin'.
  - intros Hid. apply last_filter_None. intros [id' st] Hin <-. apply Hid, list_elem_of_fmap. by eexists.
Qed.

Lemma entry_for_agree (f : NodeId -> option (NodeRecord (V := V))) id (l : Snapshot) :
  (forall st, (id, st) ∈ l -> st = f id) -> id ∈ l.*1 -> entry_for id l = Some (f id).
Proof.
  intros Hf Hid. destruct (entry_for id l) as [st|] eqn:He.
  - f_equal. apply Hf. by apply entry_for_in.
  - by apply entry_for_None in He.
Qed.

Lemma seen_restored g b id n c :
  ns_node g id = Some n -> owner n = b -> content n = c -> tombstone n = false -> seen g b id = Some c.
Proof.
  intros Hn Ho Hc Ht. unfold seen, live_node. rewrite Hn. simpl. rewrite (proj2 (own_live_spec b n)); [|done].
  simpl. by rewrite Hc.
Qed.

(** Entries that say what [objects] were in [g0]. *)
Definition capturing (g0 : G) (b : N) (objects : list NodeId) : Snapshot := (fun id => (id, live_node g0 b id)) <$> objects.

Lemma capturing_ids g0 b objects : (capturing g0 b objects).*1 = objects.
Proof. unfold capturing. rewrite <- list_fmap_compose. apply list_fmap_id. Qed.

Lemma apply_capturing now m t w g0 objects w' :
  apply_entries now m t w (capturing g0 (origin t) objects) = (Ok tt, w') ->
  (forall id, id ∈ objects ->
     match live_node g0 (origin t) id with
     | None => live_node (store w') (origin t) id = None
     | Some n => dead (store w) id = false -> seen (store w') (origin t) id = Some (content n)
     end)
  /\ (forall id, id ∉ objects -> ns_node (store w') id = ns_node (store w) id).
Proof.
  intros Happ. pose proof (apply_entries_ok _ _ _ _ _ _ Happ) as Hfx.
  assert (Hst : forall id st, (id, st) ∈ capturing g0 (origin t) objects -> st = live_node g0 (origin t) id).
  { intros id st (id' & [= <- ->] & _)%list_elem_of_fmap. done. }
  split.
  - intros id Hid. specialize (Hfx id). rewrite (entry_for_agree (live_node g0 (origin t))) in Hfx;
      [|by intros; apply Hst|by rewrite capturing_ids].
    destruct (live_node g0 (origin t) id) as [n|] eqn:Hn; [|done]. destruct Hfx as (n' & Hn' & Ho & Hc & Ht).
    intros Hdead. eapply seen_restored; [done..|]. apply Ht; [done|]. intros Hin%Hst. congruence.
  - intros id Hid. specialize (Hfx id). rewrite <- (capturing_ids g0 (origin t) objects) in Hid.
    apply entry_for_None in Hid. by rewrite Hid in Hfx.
Qed.

Lemma capturing_all g0 b objects :
  filter (fun p => p.1 ∈ objects) (capturing g0 b objects) = capturing g0 b objects.
Proof. apply filter_of_all. intros q Hq. rewrite <- (capturing_ids g0 b objects). by apply list_elem_of_fmap_2. Qed.

(** Restoring a point that captured [objects] as they were in [g0]. *)
Lemma restore_captured now m t s w p g0 objects :
  let b := origin t in
  snapshots s !! p = Some ((fun id => (id, live_node g0 b id)) <$> objects) ->
  authorize now m t WRITE = Ok tt -> (forall k, ns_ok (outside k)) -> unclaimed (store w) b objects ->
  exists w', restore_to now m t s w p = (Ok tt, w')
  /\ (forall id, id ∈ objects ->
        match live_node g0 b id with
        | None => live_node (store w') b id = None
        | Some n => dead (store w) id = false -> seen (store w') b id = Some (content n)
        end)
  /\ (forall id, id ∉ objects -> ns_node (store w') id = ns_node (store w) id).
Proof.
  intros b Hsnap Ha Hok Hun. change (snapshots s !! p = Some (capturing g0 b objects)) in Hsnap.
  unfold restore_to, require, restore_objects. rewrite Ha. simpl. rewrite Hsnap, capturing_ids.
  unfold apply_snapshot. rewrite capturing_all. pose proof (apply_entries_total now m t w (capturing g0 b objects) Ha Hok) as Htot.
  rewrite capturing_ids in Htot. specialize (Htot Hun).
  destruct (apply_entries now m t w (capturing g0 b objects)) as [res w'] eqn:Happ. simpl in Htot. subst res. exists w'.
  split; [done|]. by apply (apply_capturing now m).
Qed.

(** Restoring a recovery point brings back what it captured, whatever
    happened to the graph and the service since: with the right to write, a
    working disk and none of the ids taken over by another boundary, the call
    succeeds; every object captured reads again as it did when the point was
    made (unless it has been deleted since, which nothing undoes), every object
    that was absent then is absent again, and no other node is touched. *)
Theorem restore_to_restores now0 m0 t0 s0 w0 tr objects wall p s1 now m t s w :
  recovery_point_create now0 m0 t0 s0 w0 tr objects wall = (Ok p, s1) ->
  snapshots s !! p = snapshots s1 !! p -> origin t = origin t0 ->
  authorize now m t WRITE = Ok tt -> (forall k, ns_ok (outside k)) ->
  unclaimed (store w) (origin t) objects ->
  let b := origin t in
  exists w', restore_to now m t s w p = (Ok tt, w')
  /\ (forall id, id ∈ objects ->
        match live_node (store w0) b id with
        | None => live_node (store w') b id = None
        | Some n => dead (store w) id = false -> seen (store w') b id = Some (content n)
        end)
  /\ (forall id, id ∉ objects -> ns_node (store w') id = ns_node (store w) id).
Proof.
  intros Hcreate Hsnap Horig Ha Hok Hun b. unfold recovery_point_create in Hcreate.
  destruct (require now0 m0 t0 WRITE); [|done].
  destruct (snapshot_objects now0 m0 t0 w0 objects) as [sn|e] eqn:Hsn; [|done]. injection Hcreate as <- <-.
  apply snapshot_objects_ok in Hsn. rewrite <- Horig in Hsn. simpl in Hsnap. rewrite lookup_insert_eq, Hsn in Hsnap.
  by apply restore_captured.
Qed.

(** ** Undoing *)

(** The entries restoring an action applies. *)
Definition entries_of (s : RecoveryService) (a : ActionRecord) : Snapshot :=
  filter (fun p => p.1 ∈ objects_touched a) (default [] (snapshots s !! recovery_point_before a)).

Definition has_point (s : RecoveryService) (a : ActionRecord) : Prop :=
  is_Some (snapshots s !! recovery_point_before a).

Lemma elem_of_touched_by id l : id ∈ touched_by l <-> exists a, a ∈ l /\ id ∈ objects_touched a.
Proof. unfold touched_by. rewrite list_elem_of_bind. naive_solver. Qed.

Lemma entries_touch s l id st : (id, st) ∈ l ≫= entries_of s -> id ∈ touched_by l.
Proof.
  intros (a & Hin & Ha)%list_elem_of_bind. apply list_elem_of_filter in Hin as [Hid _].
  apply elem_of_touched_by. by exists a.
Qed.

Lemma restore_each_entries now m t s w l :
  Forall (has_point s) l ->
  restore_each now m t s w l
  = match apply_entries now m t w (l ≫= entries_of s) with
    | (Ok _, w) => (Ok (ids_of l), w)
    | (Err e, w) => (Err e, w)
    end.
Proof.
  intros Hp. revert w. induction Hp as [|a l [sn Hsn] Hl IH]; intros w; [done|].
  cbn [restore_each mbind list_bind]. rewrite apply_entries_app. unfold restore_objects, apply_snapshot, entries_of at 1.
  rewrite Hsn. cbn [default from_option id].
  destruct (apply_entries now m t w (filter (fun p => p.1 ∈ objects_touched a) sn)) as [[[]|e] w1]; [|done].
  rewrite IH. by destruct (apply_entries now m t w1 (l ≫= entries_of s)) as [[[]|e] w2].
Qed.

Lemma restore_each_ok now m t s w l ids w' :
  restore_each now m t s w l = (Ok ids, w') ->
  ids = ids_of l /\ apply_entries now m t w (l ≫= entries_of s) = (Ok tt, w').
Proof.
  intros Hr. assert (Hp : Forall (has_point s) l).
  { clear -Hr. revert w ids Hr. induction l as [|a l IH]; intros w ids; [constructor|]. simpl. unfold restore_objects.
    destruct (snapshots s !! recovery_point_before a) as [sn|] eqn:Hsn; [|done].
    destruct (apply_snapshot now m t w sn (objects_touched a)) as [[[]|e] w1]; [|done].
    destruct (restore_each now m t s w1 l) as [[ids'|e] w2] eqn:Hr; [|done]. intros [= _ ->].
    constructor; [by exists sn|]. by eapply IH. }
  rewrite restore_each_entries in Hr by done.
  destruct (apply_entries now m t w (l ≫= entries_of s)) as [[[]|e] w2]; [|done]. by injection Hr as <- <-.
Qed.

Lemma restore_each_frame now m t s w l id :
  id ∉ touched_by l -> ns_node (store (restore_each now m t s w l).2) id = ns_node (store w) id.
Proof.
  revert w. induction l as [|a l IH]; intros w Hid; [done|].
  assert (Ha : id ∉ objects_touched a) by (intros Hin; apply Hid, elem_of_touched_by; exists a; by split; [left|]).
  assert (Hl : id ∉ touched_by l).
  { intros (a' & ? & ?)%elem_of_touched_by. apply Hid, elem_of_touched_by. exists a'. by split; [right|]. }
  simpl. unfold restore_objects. destruct (snapshots s !! recovery_point_before a) as [sn|]; [|done].
  unfold apply_snapshot. set (es := filter _ sn). pose proof (apply_entries_frame now m t w es id) as Hf.
  destruct (apply_entries now m t w es) as [res w1]. simpl in Hf. rewrite <- Hf.
  2: { intros (p & -> & [Hp _]%list_elem_of_filter)%list_elem_of_fmap. done. }
  destruct res as [[]|e]; [|done]. specialize (IH w1 Hl).
  by destruct (restore_each now m t s w1 l) as [r w2].
Qed.

(** [a] is the first of the actions [l] that touched [id]. *)
Definition first_toucher (l : list ActionRecord) (a : ActionRecord) (id : NodeId) : Prop :=
  a ∈ l /\ id ∈ objects_touched a
  /\ forall a', a' ∈ l -> id ∈ objects_touched a' -> a' = a \/ act_created_at a < act_created_at a'.

Lemma entry_for_app id (l1 l2 : Snapshot) :
  entry_for id (l1 ++ l2) = match entry_for id l2 with Some st => Some st | None => entry_for id l1 end.
Proof.
  unfold entry_for. rewrite filter_app, last_app. by destruct (last (filter _ l2)).
Qed.

(** Unwinding newest first, the entry that stays is the first toucher's. *)
Lemma entry_for_first s l a id st :
  StronglySorted (flip (key_le act_created_at)) l -> first_toucher l a id ->
  entry_for id (entries_of s a) = Some st -> entry_for id (l ≫= entries_of s) = Some st.
Proof.
  induction 1 as [|x l Hs IH Hall]; intros (Ha & Hid & Hfirst) He; [by apply not_elem_of_nil in Ha|].
  cbn [mbind list_bind]. rewrite entry_for_app. destruct (decide (a ∈ l)) as [Hin|Hnin].
  - rewrite IH; [done| |done]. split; [done|]. split; [done|]. intros a' Ha'. apply Hfirst. by right.
  - apply elem_of_cons in Ha as [<-|?]; [|done].
    rewrite (proj2 (entry_for_None _ _)); [done|]. intros ([id' st'] & -> & Hin)%list_elem_of_fmap.
    apply entries_touch, elem_of_touched_by in Hin as (y & Hy & Hyid). simpl in *.
    rewrite Forall_forall in Hall. specialize (Hall _ Hy). unfold flip, key_le in Hall.
    destruct (Hfirst y) as [->|]; [by right|done|done|lia].
Qed.

Lemma entry_for_filter id (objects : list NodeId) (sn : Snapshot) :
  id ∈ objects -> entry_for id (filter (fun p => p.1 ∈ objects) sn) = entry_for id sn.
Proof.
  intros Hid. unfold entry_for. rewrite list_filter_filter. do 2 f_equal. apply list_filter_iff.
  intros [id' st]. simpl. naive_solver.
Qed.

Lemma min_fold_le l e x :
  fold_left (fun e b => N.min e (act_created_at b)) l e <= x <-> e <= x \/ exists a, a ∈ l /\ act_created_at a <= x.
Proof.
  revert e. induction l as [|b l IH]; intros e; simpl.
  - setoid_rewrite elem_of_nil. naive_solver.
  - rewrite IH, N.min_le_iff. setoid_rewrite elem_of_cons. naive_solver.
Qed.

Lemma earliest_le l x : l <> [] -> earliest l <= x <-> exists a, a ∈ l /\ act_created_at a <= x.
Proof.
  destruct l as [|a l]; [done|]. intros _. simpl. rewrite min_fold_le. setoid_rewrite elem_of_cons. naive_solver.
Qed.

Lemma elem_of_conflicts live all l id :
  l <> [] ->
  id ∈ conflicts live all l <->
  id ∈ touched_by l
  /\ exists a, a ∈ all /\ action_id a ∉ ids_of l /\ live (status a) = true /\ id ∈ objects_touched a
               /\ exists a0, a0 ∈ l /\ act_created_at a0 <= act_created_at a.
Proof.
  intros Hl. unfold conflicts. rewrite elem_of_test, bool_decide_eq_true.
  rewrite elem_of_touched_by.
  assert (Hf : forall a, a ∈ List.filter (fun a => negb (bool_decide (action_id a ∈ ids_of l)) && live (status a)
                              && (earliest l <=? act_created_at a)) all
     <-> a ∈ all /\ action_id a ∉ ids_of l /\ live (status a) = true
         /\ exists a0, a0 ∈ l /\ act_created_at a0 <= act_created_at a).
  { intros a. rewrite elem_of_test, !andb_true_iff, negb_true_iff.
    rewrite bool_decide_eq_false, N.leb_le, earliest_le by done. naive_solver. }
  setoid_rewrite Hf. naive_solver.
Qed.

Definition candidates_for (st : ActionStatus) (s : RecoveryService) (scope : UndoScope) : list ActionRecord :=
  List.filter (fun a => bool_decide (status a = st) && in_scope a scope) (actions s).

Lemma undo_unfold now m t s w scope :
  undo now m t s w scope =
  match require now m t WRITE with
  | Err e => (Err e, s, w)
  | Ok _ =>
      let l := sort_by_key_rev act_created_at (candidates_for Committed s scope) in
      if bool_decide (l = []) then (Ok NothingToUndo, s, w)
      else
        match conflicts undo_live (actions s) l with
        | (_ :: _) as c => (Ok (UndoNeedsConfirmation c), s, w)
        | [] =>
            match capture_all now m t w l (redo_snapshots s) with
            | (Err e, redo) => (Err e, with_redo s redo, w)
            | (Ok _, redo) =>
                let s := with_redo s redo in
                match restore_each now m t s w l with
                | (Err e, w) => (Err e, s, w)
                | (Ok undone, w) =>
                    (Ok (UndoTargeted undone), with_actions s (set_all (ids_of l) Undone (actions s)), w)
                end
            end
        end
  end.
Proof.
  unfold undo, candidates_for. destruct (require now m t WRITE); [|done]. cbv zeta.
  destruct (List.filter _ (actions s)) as [|a0 l0] eqn:Hl; [done|].
  rewrite bool_decide_false; [done|]. intros Hnil.
  pose proof (sort_by_key_rev_perm act_created_at (a0 :: l0)) as Hp. rewrite Hnil in Hp.
  by apply Permutation_nil_cons in Hp.
Qed.

Lemma touched_by_perm l1 l2 id : l1 ≡ₚ l2 -> id ∈ touched_by l1 <-> id ∈ touched_by l2.
Proof. intros Hp. rewrite !elem_of_touched_by. by setoid_rewrite Hp. Qed.

Lemma ids_of_perm l1 l2 id : l1 ≡ₚ l2 -> id ∈ ids_of l1 <-> id ∈ ids_of l2.
Proof. unfold ids_of. intros Hp. by rewrite Hp. Qed.

Lemma set_all_perm l1 l2 st l : l1 ≡ₚ l2 -> set_all (ids_of l1) st l = set_all (ids_of l2) st l.
Proof.
  intros Hp. unfold set_all. apply list_fmap_ext. intros _ a _.
  by rewrite (bool_decide_ext _ _ (ids_of_perm l1 l2 (action_id a) Hp)).
Qed.

(** C13. [undo] on every branch. Refused or with nothing in scope it changes
    nothing. If a live action outside the scope, no older than one in it, touched
    one of the same nodes, it changes nothing and names exactly those nodes. If
    it reports the actions undone, they are exactly the committed ones in scope,
    no such conflict exists, the journal differs exactly by their status, and
    each node is back to what its first toucher's recovery point captured:
    deleted if it was absent, the same content if it was there and has not been
    deleted. Whatever the outcome, no node outside the scope is touched, and a
    failure on the way leaves every action's status as it was. *)
Theorem undo_spec now m t s w scope :
  let l := candidates_for Committed s scope in
  let b := origin t in
  let clash a := action_id a ∉ ids_of l /\ status a <> Aborted /\ status a <> Undone
                 /\ exists a0, a0 ∈ l /\ act_created_at a0 <= act_created_at a in
  let '(res, s', w') := undo now m t s w scope in
  (forall id, id ∉ touched_by l -> ns_node (store w') id = ns_node (store w) id)
  /\ points s' = points s /\ snapshots s' = snapshots s
  /\ match res with
     | Err _ => actions s' = actions s
     | Ok NothingToUndo => l = [] /\ s' = s /\ w' = w
     | Ok (UndoNeedsConfirmation c) =>
         s' = s /\ w' = w /\ c <> []
         /\ forall id, id ∈ c <-> id ∈ touched_by l
                              /\ exists a, a ∈ actions s /\ clash a /\ id ∈ objects_touched a
     | Ok (UndoTargeted ids) =>
         ids ≡ₚ ids_of l /\ l <> []
         /\ (forall a id, a ∈ actions s -> clash a -> id ∈ objects_touched a -> id ∉ touched_by l)
         /\ actions s' = set_all (ids_of l) Undone (actions s)
         /\ forall a id sn st, first_toucher l a id -> snapshots s !! recovery_point_before a = Some sn ->
              entry_for id sn = Some st ->
              match st with
              | None => live_node (store w') b id = None
              | Some n => dead (store w) id = false -> (id, None) ∉ (l ≫= entries_of s) ->
                          seen (store w') b id = Some (content n)
              end
     end.
Proof.
  intros l b clash. rewrite undo_unfold. destruct (require now m t WRITE) as [[]|]; [|done]. cbv zeta. fold l.
  set (l' := sort_by_key_rev act_created_at l).
  assert (Hp : l' ≡ₚ l) by apply sort_by_key_rev_perm.
  assert (Hcl : forall a, action_id a ∉ ids_of l' /\ undo_live (status a) = true
                   /\ (exists a0, a0 ∈ l' /\ act_created_at a0 <= act_created_at a) <-> clash a).
  { intros a. unfold clash, undo_live. rewrite andb_true_iff, !bool_decide_eq_true, (ids_of_perm _ _ _ Hp).
    setoid_rewrite Hp. naive_solver. }
  destruct (bool_decide (l' = [])) eqn:Hnil.
  { apply bool_decide_eq_true in Hnil. rewrite Hnil in Hp. apply Permutation_nil_l in Hp. done. }
  apply bool_decide_eq_false in Hnil.
  assert (Hc : forall id, id ∈ conflicts undo_live (actions s) l' <->
             id ∈ touched_by l /\ exists a, a ∈ actions s /\ clash a /\ id ∈ objects_touched a).
  { intros id. rewrite elem_of_conflicts, (touched_by_perm _ _ _ Hp) by done. setoid_rewrite <- Hcl. naive_solver. }
  destruct (conflicts undo_live (actions s) l') as [|c cs].
  2: { split; [done|]. split; [done|]. split; [done|]. split; [done|]. split; [done|]. by split. }
  destruct (capture_all now m t w l' (redo_snapshots s)) as [[[]|e] redo]; [|done].
  pose proof (restore_each_frame now m t (with_redo s redo) w l') as Hframe.
  destruct (restore_each now m t (with_redo s redo) w l') as [[ids|e] w'] eqn:Hr; simpl in Hframe;
    (split; [intros id Hid; apply Hframe; by rewrite (touched_by_perm _ _ _ Hp)|]; split; [done|]; split; [done|]);
    [|done].
  apply restore_each_ok in Hr as [-> Hr]. split; [by unfold ids_of; rewrite Hp|].
  split; [intros Hl; rewrite Hl in Hp; by apply Permutation_nil_r in Hp|]. split.
  { intros a id Ha Hclash Hid Htouched. assert (Hin : id ∈ ([] : list N)) by (apply Hc; eauto).
    by apply not_elem_of_nil in Hin. }
  split; [simpl; by apply set_all_perm|]. intros a id sn st (Ha & Hid & Hfirst) Hsn Hst.
  assert (He : entry_for id (l' ≫= entries_of (with_redo s redo)) = Some st).
  { apply (entry_for_first _ _ a); [apply sort_by_key_rev_sorted| |].
    - split; [by rewrite Hp|]. split; [done|]. intros a'. rewrite Hp. apply Hfirst.
    - unfold entries_of. simpl. rewrite Hsn. simpl. by rewrite entry_for_filter. }
  pose proof (apply_entries_ok _ _ _ _ _ _ Hr id) as Hfx. rewrite He in Hfx. destruct st as [n|]; [|done].
  destruct Hfx as (n' & Hn' & Ho & Hcn & Ht). intros Hdead Hno. eapply seen_restored; [done..|].
  apply Ht; [done|]. intros Hin. apply Hno. revert Hin. rewrite !list_elem_of_bind. by setoid_rewrite Hp.
Qed.

(** ** Undo, then redo *)

Lemma apply_entries_unclaimed now m t w l ids :
  unclaimed (store w) (origin t) ids -> unclaimed (store (apply_entries now m t w l).2) (origin t) ids.
Proof.
  revert w. induction l as [|[id [r|]] l IH]; intros w Hun; [done| |]; simpl.
  - unfold world_put. destruct (ns_put _ _ _ _ _ _ _ _ _) as [[id'|e] g'] eqn:Hp; simpl.
    + apply IH. simpl. apply ns_put_done in Hp as (_ & Hx & _ & n & Hn & _ & Ho & _).
      eapply unclaimed_step; [done|done|]. intros n' Hn'. right. congruence.
    + intros x n Hx. rewrite (ns_put_failed _ _ _ _ _ _ _ _ _ _ _ Hp). by apply Hun.
  - unfold world_delete. destruct (ns_delete _ _ _ _ _ _) as [[[]|e] g'] eqn:Hd.
    + apply IH. simpl. apply ns_delete_done in Hd as (Hx & n & Hn & Ho & _).
      eapply unclaimed_step; [done|done|]. intros n' Hn'. right. congruence.
    + apply ns_delete_failed in Hd as [Hx _].
      assert (Hun' : unclaimed g' (origin t) ids) by (intros x n Hin; rewrite Hx; by apply Hun).
      destruct e; simpl; [done|by apply IH|done|done].
Qed.

(** The entries redoing an action applies. *)
Definition redo_entries (s : RecoveryService) (a : ActionRecord) : Snapshot :=
  filter (fun p => p.1 ∈ objects_touched a) (default [] (redo_snapshots s !! action_id a)).

Lemma redo_each_entries now m t s w l :
  Forall (fun a => is_Some (redo_snapshots s !! action_id a)) l ->
  redo_each now m t s w l
  = match apply_entries now m t w (l ≫= redo_entries s) with
    | (Ok _, w) => (Ok (ids_of l), w)
    | (Err e, w) => (Err e, w)
    end.
Proof.
  intros Hp. revert w. induction Hp as [|a l [sn Hsn] Hl IH]; intros w; [done|].
  cbn [redo_each mbind list_bind]. rewrite apply_entries_app. unfold apply_snapshot, redo_entries at 1.
  rewrite Hsn. cbn [default from_option id].
  destruct (apply_entries now m t w (filter (fun p => p.1 ∈ objects_touched a) sn)) as [[[]|e] w1]; [|done].
  rewrite IH. by destruct (apply_entries now m t w1 (l ≫= redo_entries s)) as [[[]|e] w2].
Qed.

(** What [undo] captures for [redo]. *)
Definition captured (w : World) (b : N) (a : ActionRecord) : Snapshot :=
  (fun id => (id, live_node (store w) b id)) <$> objects_touched a.

Lemma capture_all_total now m t w l r :
  authorize now m t READ = Ok tt -> NoDup (ids_of l) ->
  exists r', capture_all now m t w l r = (Ok tt, r')
             /\ forall a, a ∈ l -> r' !! action_id a = Some (captured w (origin t) a).
Proof.
  intros Ha. assert (Hgen : forall r, exists r', capture_all now m t w l r = (Ok tt, r')
     /\ (NoDup (ids_of l) -> forall a, a ∈ l -> r' !! action_id a = Some (captured w (origin t) a))
     /\ (forall k, k ∉ ids_of l -> r' !! k = r !! k)).
  { induction l as [|a l IH]; intros r0; [exists r0; split; [done|]; split; [|done]; intros _ a Hin; by apply not_elem_of_nil in Hin|].
    simpl. rewrite snapshot_objects_total by done.
    destruct (IH (<[action_id a := captured w (origin t) a]> r0)) as (r' & Hr & Hin & Hout).
    exists r'. split; [done|]. split.
    - intros [Hna Hnd]%NoDup_cons a'. rewrite elem_of_cons. intros [->|Hl]; [|by apply Hin].
      rewrite Hout by done. apply lookup_insert_eq.
    - intros k [Hne Hk]%not_elem_of_cons.
      rewrite Hout by done. by apply lookup_insert_ne. }
  intros Hnd. destruct (Hgen r) as (r' & Hr & Hin & _). exists r'. auto.
Qed.

Lemma with_status_set_back a st : status a = st -> with_status (with_status a Undone) st = a.
Proof. intros <-. by destruct a. Qed.

Lemma NoDup_ids_inj (l : list ActionRecord) a a' :
  NoDup (ids_of l) -> a ∈ l -> a' ∈ l -> action_id a = action_id a' -> a = a'.
Proof.
  induction l as [|x l IH]; [by intros _ ?%not_elem_of_nil|]. intros [Hx Hnd]%NoDup_cons.
  assert (Hin : forall y, y ∈ l -> action_id y ∈ ids_of l) by (intros y Hy; by apply list_elem_of_fmap_2).
  rewrite !elem_of_cons. intros [->|Ha] [->|Ha'] Heq; [done| | |by apply IH]; destruct Hx.
  - rewrite Heq. by apply Hin.
  - rewrite <- Heq. by apply Hin.
Qed.

Lemma elem_of_candidates_for st s scope a :
  a ∈ candidates_for st s scope <-> a ∈ actions s /\ status a = st /\ in_scope a scope = true.
Proof.
  unfold candidates_for. rewrite elem_of_test, andb_true_iff, bool_decide_eq_true.
  done.
Qed.

Lemma NoDup_candidates st s scope : NoDup (ids_of (actions s)) -> NoDup (ids_of (candidates_for st s scope)).
Proof.
  unfold candidates_for, ids_of. generalize (fun a => bool_decide (status a = st) && in_scope a scope). intros f.
  induction (actions s) as [|a l IH]; simpl; [done|]. intros [Ha Hnd]%NoDup_cons. destruct (f a); simpl; [|by apply IH].
  constructor; [|by apply IH]. intros (x & Hx & Hin)%list_elem_of_fmap. apply Ha, list_elem_of_fmap. exists x.
  split; [done|]. by apply elem_of_test in Hin as [? _].
Qed.

(** The journal between an undo and its redo. *)
Lemma undone_candidates s redo scope :
  NoDup (ids_of (actions s)) -> candidates_for Undone s scope = [] ->
  let l := candidates_for Committed s scope in
  let s1 := with_actions (with_redo s redo) (set_all (ids_of l) Undone (actions s)) in
  candidates_for Undone s1 scope = (fun a => with_status a Undone) <$> l
  /\ set_all (ids_of l) Committed (actions s1) = actions s.
Proof.
  intros Hnd Hnone l s1.
  assert (Hl : forall a, a ∈ actions s -> action_id a ∈ ids_of l <-> status a = Committed /\ in_scope a scope = true).
  { intros a Ha. split.
    - intros (a' & Hid & Ha')%list_elem_of_fmap. pose proof Ha' as (Hin & ? & ?)%elem_of_candidates_for.
      by rewrite (NoDup_ids_inj _ _ _ Hnd Ha Hin Hid).
    - intros [Hst Hsc]. apply list_elem_of_fmap_2, elem_of_candidates_for. done. }
  assert (Hun : forall a, a ∈ actions s -> status a = Undone -> in_scope a scope = false).
  { intros a Ha Hst. destruct (in_scope a scope) eqn:Hsc; [|done].
    assert (Hin : a ∈ candidates_for Undone s scope) by (by apply elem_of_candidates_for).
    rewrite Hnone in Hin. by apply not_elem_of_nil in Hin. }
  unfold s1, candidates_for, l at 2. cbn [actions with_actions]. unfold candidates_for. clearbody l. clear s1 Hnone Hnd.
  split.
  - induction (actions s) as [|a rest IH]; [done|]. unfold set_all. rewrite fmap_cons. cbn [List.filter].
    fold (set_all (ids_of l) Undone rest).
    rewrite IH; [|intros; apply Hl; by right|intros; apply Hun; [by right|done]].
    destruct (Hl a ltac:(left)) as [Hl1 Hl2]. by_cases (action_id a ∈ ids_of l) as Hin.
    + destruct (Hl1 Hin) as [-> Hsc]. cbn. assert (Hsc' : in_scope (with_status a Undone) scope = true) by (by destruct scope).
      rewrite Hsc'. rewrite Hsc. done.
    + destruct (bool_decide (status a = Undone)) eqn:Hu.
      * apply bool_decide_eq_true in Hu. rewrite (Hun a ltac:(left) Hu). rewrite andb_false_r. by rewrite andb_false_r.
      * simpl. destruct (bool_decide (status a = Committed) && in_scope a scope) eqn:Hc; [|done].
        apply andb_true_iff in Hc as [Hc%bool_decide_eq_true ?]. destruct Hin. by apply Hl2.
  - induction (actions s) as [|a rest IH]; [done|]. unfold set_all in *. rewrite !fmap_cons. f_equal.
    + destruct (Hl a ltac:(left)) as [Hl1 _]. by_cases (action_id a ∈ ids_of l) as Hin;
        [|by rewrite ?(bool_decide_false (action_id a ∈ ids_of l)) by done].
      cbn [action_id with_status]. apply with_status_set_back. by apply Hl1.
    + apply IH; [intros; apply Hl; by right|intros; apply Hun; [by right|done]].
Qed.

Lemma no_conflicts live all l :
  l <> [] ->
  (forall a id, a ∈ all -> action_id a ∉ ids_of l -> live (status a) = true ->
     (exists a0, a0 ∈ l /\ act_created_at a0 <= act_created_at a) -> id ∈ objects_touched a -> id ∉ touched_by l) ->
  conflicts live all l = [].
Proof.
  intros Hl Hno. apply elem_of_nil_inv. intros id (Ht & a & Ha & Hid & Hlive & Hobj & Hold)%elem_of_conflicts; [|done].
  by eapply Hno.
Qed.

Lemma redo_unfold now m t s w scope :
  redo now m t s w scope =
  match require now m t WRITE with
  | Err e => (Err e, s, w)
  | Ok _ =>
      let l := sort_by_key act_created_at (candidates_for Undone s scope) in
      if bool_decide (l = []) then (Ok NothingToRedo, s, w)
      else
        match conflicts redo_live (actions s) l with
        | (_ :: _) as c => (Ok (RedoNeedsConfirmation c), s, w)
        | [] =>
            match redo_each now m t s w l with
            | (Err e, w) => (Err e, s, w)
            | (Ok redone, w) =>
                (Ok (RedoTargeted redone), with_actions s (set_all (ids_of l) Committed (actions s)), w)
            end
        end
  end.
Proof.
  unfold redo, candidates_for. destruct (require now m t WRITE) as [[]|]; [|done]. cbv zeta.
  destruct (List.filter _ (actions s)) as [|a0 l0] eqn:Hl; [done|].
  rewrite bool_decide_false; [done|]. intros Hnil.
  pose proof (sort_by_key_perm act_created_at (a0 :: l0)) as Hp. rewrite Hnil in Hp.
  by apply Permutation_nil_cons in Hp.
Qed.

(** When an undo can go through. *)
Record undoable (now : Instant) (m : M) (t : CapabilityToken) (s : RecoveryService) (w : World)
    (scope : UndoScope) : Prop := {
  u_read : authorize now m t READ = Ok tt;
  u_write : authorize now m t WRITE = Ok tt;
  u_disk : forall k, ns_ok (outside k);
  u_ids : NoDup (ids_of (actions s));
  u_some : candidates_for Committed s scope <> [];
  u_points : Forall (has_point s) (candidates_for Committed s scope);
  u_owned : unclaimed (store w) (origin t) (touched_by (candidates_for Committed s scope));
  u_alone : forall a id, a ∈ actions s -> action_id a ∉ ids_of (candidates_for Committed s scope) ->
    undo_live (status a) = true ->
    (exists a0, a0 ∈ candidates_for Committed s scope /\ act_created_at a0 <= act_created_at a) ->
    id ∈ objects_touched a -> id ∉ touched_by (candidates_for Committed s scope)
}.

Lemma entries_unclaimed s l g b :
  unclaimed g b (touched_by l) -> unclaimed g b (l ≫= entries_of s).*1.
Proof.
  intros Hun id n ([id' st] & -> & Hin)%list_elem_of_fmap. apply Hun. by eapply entries_touch.
Qed.

(** Then it does, unwinding newest first and keeping what it found. *)
Lemma undo_succeeds now m t s w scope :
  undoable now m t s w scope ->
  let l := candidates_for Committed s scope in
  let l' := sort_by_key_rev act_created_at l in
  exists redo w1,
    undo now m t s w scope
    = (Ok (UndoTargeted (ids_of l')), with_actions (with_redo s redo) (set_all (ids_of l) Undone (actions s)), w1)
    /\ apply_entries now m t w (l' ≫= entries_of s) = (Ok tt, w1)
    /\ forall a, a ∈ l -> redo !! action_id a = Some (captured w (origin t) a).
Proof.
  intros [Hr Hw Hok Hnd Hsome Hpts Hun Halone] l l'.
  assert (Hp : l' ≡ₚ l) by apply sort_by_key_rev_perm.
  assert (Hne : l' <> []) by (intros Hnil; rewrite Hnil in Hp; by apply Permutation_nil_l in Hp).
  assert (Hnd' : NoDup (ids_of l')) by (unfold ids_of; rewrite Hp; by apply NoDup_candidates).
  destruct (capture_all_total now m t w l' (redo_snapshots s) Hr Hnd') as (redo & Hcap & Hredo).
  rewrite undo_unfold. unfold require. rewrite Hw. cbn [map_err]. cbv zeta. fold l l'.
  rewrite bool_decide_false by done. rewrite no_conflicts, Hcap; [|done|].
  2: { intros a id Ha Hid Hlive Hold Hobj. rewrite (touched_by_perm _ _ _ Hp). apply (Halone a); try done.
       - by rewrite (ids_of_perm _ _ _ Hp) in Hid.
       - by setoid_rewrite Hp in Hold. }
  assert (Hpts' : Forall (has_point (with_redo s redo)) l') by (rewrite Hp; done).
  rewrite restore_each_entries by done. change (entries_of (with_redo s redo)) with (entries_of s).
  pose proof (apply_entries_total now m t w (l' ≫= entries_of s) Hw Hok) as Htot.
  destruct (apply_entries now m t w (l' ≫= entries_of s)) as [res w1]. simpl in Htot. rewrite Htot.
  2: { apply entries_unclaimed. intros id n Hid. rewrite (touched_by_perm _ _ _ Hp) in Hid. by apply Hun. }
  exists redo, w1. split; [by rewrite (set_all_perm _ _ _ _ Hp)|]. split; [done|]. intros a Ha. apply Hredo. by rewrite Hp.
Qed.

Lemma touched_by_fmap st l : touched_by ((fun a => with_status a st) <$> l) = touched_by l.
Proof. unfold touched_by. by rewrite list_fmap_bind. Qed.

Lemma ids_of_fmap st l : ids_of ((fun a => with_status a st) <$> l) = ids_of l.
Proof. unfold ids_of. by rewrite <- list_fmap_compose. Qed.

(** A redo whose actions all captured the same picture of the nodes. *)
Lemma redo_succeeds now m t s w scope (f : NodeId -> option (NodeRecord (V := V))) :
  let l := candidates_for Undone s scope in
  authorize now m t WRITE = Ok tt -> (forall k, ns_ok (outside k)) -> l <> [] ->
  (forall a, a ∈ l -> redo_snapshots s !! action_id a = Some ((fun id => (id, f id)) <$> objects_touched a)) ->
  unclaimed (store w) (origin t) (touched_by l) ->
  (forall a id, a ∈ actions s -> action_id a ∉ ids_of l -> redo_live (status a) = true ->
     (exists a0, a0 ∈ l /\ act_created_at a0 <= act_created_at a) -> id ∈ objects_touched a -> id ∉ touched_by l) ->
  exists w', redo now m t s w scope
             = (Ok (RedoTargeted (ids_of (sort_by_key act_created_at l))),
                with_actions s (set_all (ids_of l) Committed (actions s)), w')
  /\ (forall id, id ∉ touched_by l -> ns_node (store w') id = ns_node (store w) id)
  /\ (forall id, id ∈ touched_by l ->
        match f id with
        | None => live_node (store w') (origin t) id = None
        | Some r => dead (store w) id = false -> seen (store w') (origin t) id = Some (content r)
        end).
Proof.
  intros l Hw Hok Hne Hsn Hun Hno. set (u := sort_by_key act_created_at l).
  assert (Hp : u ≡ₚ l) by apply sort_by_key_perm.
  assert (Hune : u <> []) by (intros Hnil; rewrite Hnil in Hp; by apply Permutation_nil_l in Hp).
  assert (Hredo : Forall (fun a => redo_snapshots s !! action_id a = Some ((fun id => (id, f id)) <$> objects_touched a)) u)
    by (rewrite Hp; by apply Forall_forall).
  assert (Hes : forall id st, (id, st) ∈ u ≫= redo_entries s -> st = f id).
  { intros id st (a & Hin & Ha)%list_elem_of_bind. unfold redo_entries in Hin. rewrite Forall_forall in Hredo.
    rewrite Hredo in Hin by done. apply list_elem_of_filter in Hin as [_ (x & [= -> ->] & _)%list_elem_of_fmap]. done. }
  assert (Hes' : forall id, id ∈ (u ≫= redo_entries s).*1 <-> id ∈ touched_by l).
  { intros id. rewrite <- (touched_by_perm _ _ _ Hp), elem_of_touched_by, list_elem_of_fmap. split.
    - intros ([id' st] & -> & (a & [Hid _]%list_elem_of_filter & Ha)%list_elem_of_bind). by exists a.
    - intros (a & Ha & Hid). exists (id, f id). split; [done|]. apply list_elem_of_bind.
      exists a. split; [|done]. unfold redo_entries. rewrite Forall_forall in Hredo. rewrite Hredo by done.
      apply list_elem_of_filter. split; [done|]. apply list_elem_of_fmap. by exists id. }
  pose proof (apply_entries_total now m t w (u ≫= redo_entries s) Hw Hok) as Htot.
  destruct (apply_entries now m t w (u ≫= redo_entries s)) as [res w'] eqn:Happ. simpl in Htot. rewrite Htot in Happ.
  2: { intros id n Hid%Hes'. by apply Hun. }
  pose proof (apply_entries_ok _ _ _ _ _ _ Happ) as Hfx. exists w'. split; [|split].
  - rewrite redo_unfold. unfold require. rewrite Hw. cbn [map_err]. cbv zeta. fold l u. rewrite bool_decide_false by done.
    rewrite no_conflicts; [|done|].
    + rewrite redo_each_entries by (eapply Forall_impl; [exact Hredo|]; intros a Ha; exact (mk_is_Some _ _ Ha)).
      rewrite Happ. by rewrite (set_all_perm _ _ _ _ Hp).
    + intros a id Ha Hid Hlive Hold Hobj. rewrite (touched_by_perm _ _ _ Hp). rewrite (ids_of_perm _ _ _ Hp) in Hid.
      setoid_rewrite Hp in Hold. by apply (Hno a).
  - intros id Hid. specialize (Hfx id). rewrite (proj2 (entry_for_None _ _)) in Hfx; [done|]. by rewrite Hes'.
  - intros id Hid. specialize (Hfx id).
    rewrite (entry_for_agree f) in Hfx; [|by intros; apply Hes|by apply Hes'].
    destruct (f id) as [r|] eqn:Hf; [|done]. destruct Hfx as (n & Hn & Ho & Hc & Ht). intros Hdead.
    eapply seen_restored; [done..|]. apply Ht; [done|]. intros Hin%Hes. congruence.
Qed.

(** A node restored without having been deleted is not deleted. *)
Lemma restored_not_dead now m t s w l w' id :
  apply_entries now m t w (l ≫= entries_of s) = (Ok tt, w') ->
  dead (store w) id = false -> (id, None) ∉ (l ≫= entries_of s) -> dead (store w') id = false.
Proof.
  intros Happ Hdead Hno. pose proof (apply_entries_ok _ _ _ _ _ _ Happ id) as Hfx. unfold dead in *.
  destruct (entry_for id (l ≫= entries_of s)) as [[r|]|] eqn:He.
  - destruct Hfx as (n & -> & _ & _ & Ht). simpl. by apply Ht.
  - by apply entry_for_in in He.
  - by rewrite Hfx.
Qed.

(** An action still committed after the undo was committed, and not undone. *)
Lemma committed_after_undo l s rd a :
  let s1 := with_actions (with_redo s rd) (set_all (ids_of l) Undone (actions s)) in
  a ∈ actions s1 -> redo_live (status a) = true -> a ∈ actions s /\ undo_live (status a) = true.
Proof.
  intros s1 (a1 & -> & Ha1)%list_elem_of_fmap. unfold redo_live.
  by_cases (action_id a1 ∈ ids_of l) as Hin; intros Hst%bool_decide_eq_true; [done|]. unfold undo_live. by rewrite Hst.
Qed.

(** Undo and redo are inverse. When an undo can go through and nothing in
    its scope was undone before, both calls succeed, the journal is what it was,
    and every node reads as it did before the undo, except a node the undo
    deleted because some action in scope had found it absent, which stays
    deleted. *)
Theorem undo_redo_round_trip now m t s w scope :
  undoable now m t s w scope -> candidates_for Undone s scope = [] ->
  let l := candidates_for Committed s scope in
  let b := origin t in
  exists ids s1 w1 ids' s2 w2,
    undo now m t s w scope = (Ok (UndoTargeted ids), s1, w1)
    /\ redo now m t s1 w1 scope = (Ok (RedoTargeted ids'), s2, w2)
    /\ ids ≡ₚ ids_of l /\ ids' ≡ₚ ids_of l /\ actions s2 = actions s
    /\ (forall id, id ∉ touched_by l -> ns_node (store w2) id = ns_node (store w) id)
    /\ (forall id, id ∈ touched_by l -> (id, None) ∉ (l ≫= entries_of s) \/ live_node (store w) b id = None ->
          seen (store w2) b id = seen (store w) b id).
Proof.
  intros Hu Hnone l b. destruct (undo_succeeds now m t s w scope Hu) as (rd & w1 & Hundo & Happ1 & Hrd).
  destruct Hu as [Hr Hw Hok Hnd Hsome Hpts Hun Halone]. fold l in Hsome, Hpts, Hun, Halone, Hundo, Happ1, Hrd.
  set (l' := sort_by_key_rev act_created_at l) in Hundo, Happ1.
  assert (Hp : l' ≡ₚ l) by apply sort_by_key_rev_perm.
  destruct (undone_candidates s rd scope Hnd Hnone) as [Hcand Hback]. fold l in Hcand, Hback.
  set (s1 := with_actions (with_redo s rd) (set_all (ids_of l) Undone (actions s))) in Hundo, Hcand, Hback.
  assert (Hun1 : unclaimed (store w1) b (touched_by l)).
  { pose proof (apply_entries_unclaimed now m t w (l' ≫= entries_of s) (touched_by l) Hun) as Hx. by rewrite Happ1 in Hx. }
  destruct (redo_succeeds now m t s1 w1 scope (live_node (store w) b)) as (w2 & Hredo & Hframe & Hfx);
    rewrite ?Hcand, ?touched_by_fmap, ?ids_of_fmap in *; [done|done| | |done| |].
  - intros Hnil%fmap_nil_inv. done.
  - intros a (a0 & -> & Ha0)%list_elem_of_fmap. exact (Hrd a0 Ha0).
  - intros a id Ha Hid Hlive (a0 & (a1 & -> & Ha1)%list_elem_of_fmap & Hle) Hobj.
    destruct (committed_after_undo l s rd a Ha Hlive) as [Ha' Hlive']. apply (Halone a); try done. by exists a1.
  - exists (ids_of l'), s1, w1. do 3 eexists. split; [done|]. split; [exact Hredo|].
    split; [by unfold ids_of; rewrite Hp|].
    split; [rewrite <- (ids_of_fmap Undone l); unfold ids_of; by rewrite sort_by_key_perm|].
    split; [done|]. split.
    + intros id Hid. rewrite Hframe by done.
      pose proof (apply_entries_frame now m t w (l' ≫= entries_of s) id) as Hf. rewrite Happ1 in Hf. apply Hf.
      intros ([id' st] & -> & Hin)%list_elem_of_fmap. apply Hid. rewrite <- (touched_by_perm _ _ _ Hp). by eapply entries_touch.
    + intros id Hid Hcase. specialize (Hfx id Hid). unfold seen at 2.
      destruct (live_node (store w) b id) as [n|] eqn:Hn; [|unfold seen; fold b in Hfx; by rewrite Hfx].
      apply Hfx. destruct Hcase as [Hno|]; [|done]. eapply restored_not_dead; [exact Happ1| |].
      * unfold live_node in Hn. apply bind_Some in Hn as (n0 & Hn0 & Hlive).
        unfold dead. rewrite Hn0. simpl. destruct (own_live b n0) eqn:Ho; [|done]. by apply own_live_spec in Ho as [_ ->].
      * intros Hin. apply Hno. revert Hin. rewrite !list_elem_of_bind. by setoid_rewrite Hp.
Qed.

(** ** Crashes *)

Lemma ids_of_set_all ids st l : ids_of (set_all ids st l) = ids_of l.
Proof.
  unfold ids_of, set_all. rewrite <- list_fmap_compose. apply list_fmap_ext. intros _ a _. simpl. by case_bool_decide.
Qed.

Lemma set_all_cons id ids st l : set_all ids st (set_all [id] st l) = set_all (id :: ids) st l.
Proof.
  unfold set_all. rewrite <- list_fmap_compose. apply list_fmap_ext. intros _ a _. simpl.
  destruct (decide (action_id a = id)) as [Heq|Hne].
  - rewrite (bool_decide_true (action_id a ∈ [id])) by (by rewrite Heq; left).
    rewrite (bool_decide_true (action_id a ∈ id :: ids)) by (by rewrite Heq; left). by case_bool_decide.
  - rewrite (bool_decide_false (action_id a ∈ [id])) by (by rewrite list_elem_of_singleton).
    apply (f_equal (fun b : bool => if b then _ else _)). apply bool_decide_ext. rewrite elem_of_cons. naive_solver.
Qed.

Lemma set_all_none st l : set_all [] st l = l.
Proof.
  unfold set_all. rewrite <- (list_fmap_id l) at 2. apply list_fmap_ext. intros _ a _.
  by rewrite bool_decide_false by (by apply not_elem_of_nil).
Qed.

Lemma update_first_unique id st l :
  NoDup (ids_of l) -> id ∈ ids_of l -> update_first id st l = Some (set_all [id] st l).
Proof.
  induction l as [|a l IH]; [by intros _ ?%not_elem_of_nil|]. intros [Ha Hnd]%NoDup_cons Hin.
  cbn [update_first]. destruct (N.eqb_spec (action_id a) id) as [Heq|Hne].
  - unfold set_all. rewrite fmap_cons, bool_decide_true by (by rewrite Heq; left). do 2 f_equal.
    symmetry. rewrite <- (list_fmap_id l) at 2. apply Forall_fmap_ext_1, Forall_forall. intros a' Ha'.
    rewrite bool_decide_false; [done|]. rewrite list_elem_of_singleton. intros Hid. destruct Ha.
    fold (ids_of l). rewrite Heq, <- Hid. by apply list_elem_of_fmap_2.
  - apply elem_of_cons in Hin as [->|Hin]; [done|]. rewrite (IH Hnd Hin). unfold set_all. rewrite fmap_cons.
    by rewrite (bool_decide_false (action_id a ∈ [id])) by (by rewrite list_elem_of_singleton).
Qed.

Lemma restore_objects_entries now m t s w a :
  restore_objects now m t s w (recovery_point_before a) (objects_touched a)
  = if bool_decide (has_point s a) then apply_entries now m t w (entries_of s a) else (Err NoSuchRecoveryPoint, w).
Proof.
  unfold restore_objects, has_point, entries_of, apply_snapshot.
  destruct (snapshots s !! recovery_point_before a) as [sn|]; [by rewrite bool_decide_true by eauto|].
  rewrite bool_decide_false; [done|]. by intros [].
Qed.

(** Recovery goes through the journal's actions in flight from the first one on,
    and stops where it fails. *)
Lemma recover_each_spec now m t l s w ag :
  NoDup (ids_of (actions s)) -> (forall a, a ∈ l -> action_id a ∈ ids_of (actions s)) ->
  let '(res, s', w', _) := recover_each now m t s w ag l in
  snapshots s' = snapshots s
  /\ exists l1 l2, l = l1 ++ l2 /\ actions s' = set_all (ids_of l1) Aborted (actions s)
     /\ match res with
        | Ok ids => l2 = [] /\ ids = ids_of l /\ apply_entries now m t w (l ≫= entries_of s) = (Ok tt, w')
        | Err _ => forall id, id ∉ touched_by l -> ns_node (store w') id = ns_node (store w) id
        end.
Proof.
  revert s w ag. induction l as [|a l IH]; intros s w ag Hnd Hids; simpl.
  { split; [done|]. exists [], []. by rewrite set_all_none. }
  assert (Hstop : exists l1 l2, a :: l = l1 ++ l2 /\ actions s = set_all (ids_of l1) Aborted (actions s)).
  { exists [], (a :: l). by rewrite set_all_none. }
  rewrite restore_objects_entries. case_bool_decide as Hpt.
  2: { split; [done|]. destruct Hstop as (l1 & l2 & ? & ?). by exists l1, l2. }
  assert (Hframe : forall id, id ∉ touched_by (a :: l) ->
            ns_node (store (apply_entries now m t w (entries_of s a)).2) id = ns_node (store w) id).
  { intros id Hid. apply apply_entries_frame. intros (p & -> & [Hp _]%list_elem_of_filter)%list_elem_of_fmap.
    apply Hid, elem_of_touched_by. exists a. by split; [left|]. }
  destruct (apply_entries now m t w (entries_of s a)) as [[[]|e] w1] eqn:Happ; cbn [snd] in Hframe.
  2: { split; [done|]. destruct Hstop as (l1 & l2 & ? & ?). by exists l1, l2. }
  destruct (respawn now m t ag (agent_run_id a)) as [[[]|e] ag1].
  2: { split; [done|]. destruct Hstop as (l1 & l2 & ? & ?). by exists l1, l2. }
  unfold record_action_aborted, set_status. rewrite update_first_unique; [|done|apply Hids; by left].
  set (s1 := with_actions s (set_all [action_id a] Aborted (actions s))).
  specialize (IH s1 w1 ag1). unfold s1 in IH at 1 2. cbn [actions with_actions] in IH. rewrite ids_of_set_all in IH.
  specialize (IH Hnd ltac:(intros a' Ha'; apply Hids; by right)).
  destruct (recover_each now m t s1 w1 ag1 l) as [[[res s'] w'] ag']. destruct IH as (Hsn & l1 & l2 & -> & Hact & Hres).
  split; [done|]. exists (a :: l1), l2. split; [done|]. split.
  { rewrite Hact. apply set_all_cons. }
  destruct res as [ids|e].
  - destruct Hres as (-> & -> & Hrest). split; [done|]. split; [done|]. cbn [mbind list_bind].
    rewrite apply_entries_app, Happ. exact Hrest.
  - intros id Hid. rewrite <- Hframe by done. apply Hres. intros Hin. apply Hid, elem_of_app. by right.
Qed.

Lemma recover_each_total now m t l s w ag :
  NoDup (ids_of (actions s)) -> (forall a, a ∈ l -> action_id a ∈ ids_of (actions s)) ->
  authorize now m t WRITE = Ok tt -> (forall k, ns_ok (outside k)) -> Forall (has_point s) l ->
  unclaimed (store w) (origin t) (touched_by l) -> (forall ag run, is_ok (respawn now m t ag run).1 = true) ->
  is_ok (recover_each now m t s w ag l).1.1.1 = true.
Proof.
  revert s w ag. induction l as [|a l IH]; intros s w ag Hnd Hids Hw Hok Hpts Hun Hag; [done|].
  apply Forall_cons in Hpts as [Hpt Hpts]. cbn [recover_each]. rewrite restore_objects_entries, bool_decide_true by done.
  pose proof (apply_entries_total now m t w (entries_of s a) Hw Hok) as Htot.
  pose proof (apply_entries_unclaimed now m t w (entries_of s a) (touched_by (a :: l)) Hun) as Hun1.
  destruct (apply_entries now m t w (entries_of s a)) as [res w1]. cbn [fst snd store] in Htot, Hun1. rewrite Htot.
  2: { intros id n (p & -> & [Hp _]%list_elem_of_filter)%list_elem_of_fmap. apply Hun. apply elem_of_app. by left. }
  specialize (Hag ag (agent_run_id a)) as Hag1. destruct (respawn now m t ag (agent_run_id a)) as [[[]|e] ag1]; [|done].
  unfold record_action_aborted, set_status. rewrite update_first_unique; [|done|apply Hids; by left].
  set (s1 := with_actions s (set_all [action_id a] Aborted (actions s))).
  specialize (IH s1 w1 ag1). unfold s1 in IH at 1 2. cbn [actions with_actions] in IH. rewrite ids_of_set_all in IH.
  assert (IH' : is_ok (recover_each now m t s1 w1 ag1 l).1.1.1 = true).
  { apply IH; try done; [intros a' Ha'; apply Hids; by right|]. intros id n Hid. apply Hun1. apply elem_of_app. by right. }
  by destruct (recover_each now m t s1 w1 ag1 l) as [[[[ids|e] s'] w'] ag'].
Qed.

(** ** Services as they come about *)

(** Any calls on a service, granted or not, whatever the graph and the agents do
    meanwhile. *)
Inductive service_run : RecoveryService -> Prop :=
| run_new mem : service_run (new_with_memory mem)
| run_point now m t s w tr objects wall :
    service_run s -> service_run (recovery_point_create now m t s w tr objects wall).2
| run_start s point objects run session goal nt wall :
    service_run s -> next_action_id s + 1 < two64 ->
    service_run (record_action_started_with_scope s point objects run session goal nt wall).2
| run_status s id st : service_run s -> service_run (set_status s id st).2
| run_expire s id : service_run s -> service_run (expire s id).2
| run_cause now m t s w point subject cause wall :
    service_run s -> service_run (restore_to_with_cause now m t s w point subject cause wall).1.2
| run_crash now m t s w ag : service_run s -> service_run (recover_from_crash now m t s w ag).1.1.2
| run_undo now m t s w scope : service_run s -> service_run (undo now m t s w scope).1.2
| run_redo now m t s w scope : service_run s -> service_run (redo now m t s w scope).1.2
| run_pin now m t s id p : service_run s -> service_run (set_pinned now m t s id p).2
| run_compact s wall retention : service_run s -> service_run (compact s wall retention).2.

(** What only a new action changes. *)
Definition same_ids (s s' : RecoveryService) : Prop :=
  ids_of (actions s') = ids_of (actions s) /\ next_action_id s' = next_action_id s.

Lemma update_first_ids id st l l' : update_first id st l = Some l' -> ids_of l' = ids_of l.
Proof.
  revert l'. induction l as [|a l IH]; intros l'; [done|]. simpl. destruct (_ =? _); [by intros [= <-]|].
  intros (l1 & Hl1 & ->)%fmap_Some. unfold ids_of in *. rewrite !fmap_cons. f_equal. by apply IH.
Qed.

Lemma set_status_ids s id st : same_ids s (set_status s id st).2.
Proof.
  unfold set_status. destruct (update_first id st (actions s)) as [l|] eqn:Hl; [|done].
  split; [by eapply update_first_ids|done].
Qed.

Lemma recover_each_ids now m t l s w ag : same_ids s (recover_each now m t s w ag l).1.1.2.
Proof.
  revert s w ag. induction l as [|a l IH]; intros s w ag; [done|]. simpl.
  destruct (restore_objects _ _ _ _ _ _ _) as [[[]|e] w1]; [|done].
  destruct (respawn _ _ _ _ _) as [[[]|e] ag1]; [|done].
  pose proof (set_status_ids s (action_id a) Aborted) as [Hi Hn]. unfold record_action_aborted.
  destruct (set_status s (action_id a) Aborted) as [[[]|e] s1]; simpl in Hi, Hn; [|done].
  specialize (IH s1 w1 ag1) as [IHi IHn]. destruct (recover_each now m t s1 w1 ag1 l) as [[[res s'] w'] ag'].
  simpl in *. split; congruence.
Qed.

Lemma undo_ids now m t s w scope : same_ids s (undo now m t s w scope).1.2.
Proof.
  rewrite undo_unfold. destruct (require now m t WRITE) as [[]|]; [|done]. cbv zeta. destruct (bool_decide _); [done|].
  destruct (conflicts _ _ _); [|done]. destruct (capture_all _ _ _ _ _ _) as [[[]|e] r]; [|done].
  destruct (restore_each _ _ _ _ _ _) as [[ids|e] w1]; [|done]. split; [simpl; by rewrite ids_of_set_all|done].
Qed.

Lemma redo_ids now m t s w scope : same_ids s (redo now m t s w scope).1.2.
Proof.
  rewrite redo_unfold. destruct (require now m t WRITE) as [[]|]; [|done]. cbv zeta. destruct (bool_decide _); [done|].
  destruct (conflicts _ _ _); [|done].
  destruct (redo_each _ _ _ _ _ _) as [[ids|e] w1]; [|done]. split; [simpl; by rewrite ids_of_set_all|done].
Qed.

Lemma service_ids s :
  service_run s -> NoDup (ids_of (actions s)) /\ forall id, id ∈ ids_of (actions s) -> id < next_action_id s.
Proof.
  assert (Hsame : forall s s', same_ids s s' ->
    NoDup (ids_of (actions s)) /\ (forall id, id ∈ ids_of (actions s) -> id < next_action_id s) ->
    NoDup (ids_of (actions s')) /\ (forall id, id ∈ ids_of (actions s') -> id < next_action_id s'))
    by (by intros ? ? [-> ->]).
  induction 1 as [| |s point objects run session goal nt wall _ [Hnd Hlt] Hroom| | | | | | | |].
  - split; [constructor|]. by intros ? ?%not_elem_of_nil.
  - eapply Hsame; [|done]. unfold recovery_point_create. destruct (require _ _ _ _); [|done].
    by destruct (snapshot_objects _ _ _ _ _).
  - simpl. unfold ids_of. rewrite fmap_app. fold (ids_of (actions s)). simpl. rewrite u64_add_small by done. split.
    + apply NoDup_app. split; [done|]. split; [|by apply NoDup_singleton].
      intros x Hx%Hlt ->%list_elem_of_singleton. lia.
    + intros id [Hin%Hlt| ->%list_elem_of_singleton]%elem_of_app; lia.
  - eapply Hsame; [|done]. apply set_status_ids.
  - eapply Hsame; [|done]. unfold expire. destruct (List.find _ _); [|done]. destruct (bool_decide _); [done|].
    apply set_status_ids.
  - eapply Hsame; [|done]. unfold restore_to_with_cause. by destruct (restore_to _ _ _ _ _ _) as [[[]|] ?].
  - eapply Hsame; [|done]. apply recover_each_ids.
  - eapply Hsame; [|done]. apply undo_ids.
  - eapply Hsame; [|done]. apply redo_ids.
  - eapply Hsame; [|done]. unfold set_pinned. destruct (require _ _ _ _); [|done]. by destruct (points s !! id).
  - by eapply Hsame.
Qed.

(** With one action touching a node, its entry is the one that counts. *)
Lemma entry_for_only s l a id st :
  a ∈ l -> (forall a', a' ∈ l -> id ∈ objects_touched a' -> a' = a) ->
  entry_for id (entries_of s a) = Some st -> entry_for id (l ≫= entries_of s) = Some st.
Proof.
  induction l as [|x l IH]; intros Ha Honly He; [by apply not_elem_of_nil in Ha|].
  cbn [mbind list_bind]. rewrite entry_for_app. destruct (decide (a ∈ l)) as [Hin|Hnin].
  - rewrite IH; [done|done| |done]. intros a' Ha'. apply Honly. by right.
  - apply elem_of_cons in Ha as [<-|?]; [|done].
    rewrite (proj2 (entry_for_None _ _)); [done|]. intros ([id' st'] & -> & Hin)%list_elem_of_fmap.
    apply entries_touch, elem_of_touched_by in Hin as (y & Hy & Hyid). simpl in *.
    rewrite <- (Honly y) in Hnin; [done|by right|done].
Qed.

Definition in_flight (s : RecoveryService) : list ActionRecord :=
  List.filter (fun a => bool_decide (status a = InFlight)) (actions s).

Lemma in_flight_set_all ids s s' :
  actions s' = set_all ids Aborted (actions s) ->
  in_flight s' = List.filter (fun a => negb (bool_decide (action_id a ∈ ids))) (in_flight s).
Proof.
  intros Hs. unfold in_flight. rewrite Hs. clear Hs. generalize (actions s). intros all.
  induction all as [|a l IH]; [done|].
  unfold set_all. rewrite fmap_cons. fold (set_all ids Aborted l). cbn [List.filter]. rewrite IH.
  destruct (bool_decide (action_id a ∈ ids)) eqn:Hin; cbn [status with_status].
  - rewrite bool_decide_false by done. destruct (bool_decide (status a = InFlight)); [|done]. simpl. by rewrite Hin.
  - destruct (bool_decide (status a = InFlight)); [|done]. simpl. by rewrite Hin.
Qed.

Lemma drop_prefix l1 l2 :
  NoDup (ids_of (l1 ++ l2)) ->
  List.filter (fun a => negb (bool_decide (action_id a ∈ ids_of l1))) (l1 ++ l2) = l2.
Proof.
  unfold ids_of at 1. rewrite fmap_app. intros (_ & Hd & _)%NoDup_app. rewrite List.filter_app.
  assert (Hgone : forall l, l ⊆ l1 -> List.filter (fun a => negb (bool_decide (action_id a ∈ ids_of l1))) l = []).
  { induction l as [|a l IH]; intros Hsub; [done|]. simpl. rewrite bool_decide_true; [apply IH; set_solver|].
    apply list_elem_of_fmap_2. set_solver. }
  rewrite Hgone by done. simpl. clear Hgone.
  assert (Hkeep : forall a, a ∈ l2 -> bool_decide (action_id a ∈ ids_of l1) = false).
  { intros a Ha. apply bool_decide_eq_false. intros Hin. apply (Hd _ Hin). by apply list_elem_of_fmap_2. }
  clear Hd. induction l2 as [|a l2 IH]; [done|]. simpl. rewrite Hkeep by (by left). simpl. f_equal.
  apply IH. intros a' Ha'. apply Hkeep. by right.
Qed.

(** Crash recovery. The actions found in flight are dealt with in the order
    of the journal: each one's nodes are restored from its recovery point, its
    agent replaced, and the action marked aborted; nothing else in the journal
    and no other node changes. If the call succeeds, no action is left in flight
    and every node that only one of them touched is as that action's point
    captured it; if it fails on the way, the actions still in flight are exactly
    those not dealt with, so that calling it again goes on from there. It does
    succeed if the caller may write, the disk works, the points are there, no
    other boundary took the nodes over, and the agents can be replaced. *)
Theorem crash_recovery now m t s w ag :
  service_run s ->
  let l := in_flight s in
  let b := origin t in
  let '(res, s', w', _) := recover_from_crash now m t s w ag in
  (forall id, id ∉ touched_by l -> ns_node (store w') id = ns_node (store w) id)
  /\ (exists done, l = done ++ in_flight s' /\ actions s' = set_all (ids_of done) Aborted (actions s))
  /\ (forall ids, res = Ok ids -> ids = ids_of l /\ in_flight s' = []
       /\ forall a id sn st, a ∈ l -> id ∈ objects_touched a ->
            (forall a', a' ∈ l -> id ∈ objects_touched a' -> a' = a) ->
            snapshots s !! recovery_point_before a = Some sn -> entry_for id sn = Some st ->
            match st with
            | None => live_node (store w') b id = None
            | Some n => dead (store w) id = false -> (id, None) ∉ (l ≫= entries_of s) ->
                        seen (store w') b id = Some (content n)
            end)
  /\ (authorize now m t WRITE = Ok tt -> (forall k, ns_ok (outside k)) -> Forall (has_point s) l ->
      unclaimed (store w) b (touched_by l) -> (forall ag run, is_ok (respawn now m t ag run).1 = true) ->
      exists ids, res = Ok ids).
Proof.
  intros [Hnd _]%service_ids l b.
  assert (Hids : forall a, a ∈ l -> action_id a ∈ ids_of (actions s)).
  { intros a [Ha _]%elem_of_test. by apply list_elem_of_fmap_2. }
  assert (Hndl : NoDup (ids_of l)).
  { clear -Hnd. unfold l, in_flight, ids_of in *. induction (actions s) as [|a rest IH]; [done|].
    apply NoDup_cons in Hnd as [Ha Hnd]. simpl. case_bool_decide; [|by apply IH]. simpl. constructor; [|by apply IH].
    intros (x & Hx & [Hin _]%elem_of_test)%list_elem_of_fmap. apply Ha. rewrite Hx.
    by apply list_elem_of_fmap_2. }
  pose proof (recover_each_spec now m t l s w ag Hnd Hids) as Hspec.
  pose proof (recover_each_total now m t l s w ag Hnd Hids) as Htot. unfold recover_from_crash. fold (in_flight s). fold l.
  destruct (recover_each now m t s w ag l) as [[[res s'] w'] ag']. cbn [fst] in Htot.
  destruct Hspec as (Hsn & l1 & l2 & Hl & Hact & Hres).
  assert (Hleft : in_flight s' = l2).
  { rewrite (in_flight_set_all _ _ _ Hact). fold l. rewrite Hl. apply drop_prefix. by rewrite <- Hl. }
  split_and!.
  - intros id Hid. destruct res as [ids|e]; [|by apply Hres]. destruct Hres as (_ & _ & Happ).
    pose proof (apply_entries_frame now m t w (l ≫= entries_of s) id) as Hf. rewrite Happ in Hf. apply Hf.
    intros ([id' st] & -> & Hin)%list_elem_of_fmap. apply Hid. by eapply entries_touch.
  - exists l1. by rewrite Hleft.
  - intros ids ->. destruct Hres as (Hl2 & -> & Happ). split; [done|]. split; [by rewrite Hleft|].
    intros a id sn st Ha Hobj Honly Hpt Hst.
    pose proof (apply_entries_ok _ _ _ _ _ _ Happ id) as Hfx. rewrite (entry_for_only s l a id st) in Hfx; try done.
    + destruct st as [n|]; [|done]. destruct Hfx as (n' & Hn' & Ho & Hcn & Ht). intros Hdead Hno.
      eapply seen_restored; [done..|]. by apply Ht.
    + unfold entries_of. rewrite Hpt. simpl. by rewrite entry_for_filter.
  - intros Hw Hok Hpts Hun Hag. specialize (Htot Hw Hok Hpts Hun Hag). destruct res as [ids|e]; [by exists ids|done].
Qed.
End recovery.

(** ** A concrete run *)

Module RecoveryExample.
Import Crypto.Toy Wal.ToyRecords Storage.StorageExample KnowledgeGraph.GraphExample.

#[export] Instance store_instance : NodeStore N graph WriteEnv (M := unit) := graph_node_store value_of.

Definition inputs (_ : nat) : WriteEnv := mkEnv 1 1 toy_nonce Written.

Definition service : Type := RecoveryService (V := N) (Mem := unit).
Definition world : Type := World (G := graph).

Definition write (w : world) (id md : N) : world :=
  (world_put inputs 0 tt alice w id [110] None md).2.

Definition point (s : service) (w : world) (objects : list N) : service :=
  (recovery_point_create (AgentError := unit) (MemoryError := unit) 0 tt alice s w Automatic objects 1).2.

Definition start (s : service) (p : N) (objects : list N) (wall : N) : service :=
  (record_action_started_with_scope s p objects None (Some 1) None [] wall).2.

Definition commit (s : service) (id : N) : service :=
  (record_action_committed (AgentError := unit) (MemoryError := unit) s id).2.

Definition undo_session (s : service) (w : world) :=
  undo (AgentError := unit) (MemoryError := unit) inputs 0 tt alice s w (Session 1).
Definition redo_session (s : service) (w : world) :=
  redo (AgentError := unit) (MemoryError := unit) inputs 0 tt alice s w (Session 1).

Definition value (w : world) (id : N) : option N := node_metadata <$> live_node (store w) 7 id.

Definition world0 : world := mkWorld graph3 0.

(** Two actions write node 0, which held 5: the first 6, the second 7. *)
Definition world1 : world := write world0 0 6.
Definition world2 : world := write world1 0 7.
Definition journal (t1 t2 : N) : service :=
  start (point (start (point new world0 [0]) 1 [0] t1) world1 [0]) 2 [0] t2.
Definition committed (t1 t2 : N) : service := commit (commit (journal t1 t2) 1) 2.

Example undo_to_the_first :
  value world2 0 = Some 7 /\ value (undo_session (committed 10 20) world2).2 0 = Some 5.
Proof. vm_compute. done. Qed.

(** Within one second the order of the two is lost: the undo unwinds the first
    action first, and what it leaves is the first action's effect. *)
Example undo_within_one_second :
  value (undo_session (committed 10 10) world2).2 0 = Some 6
  /\ (undo_session (committed 10 10) world2).1.1 = Ok (UndoTargeted [1; 2]).
Proof. vm_compute. done. Qed.

(** No agents, and a memory that remembers nothing. *)
#[export] Instance no_agents : AgentRuntime unit unit unit unit unit :=
  {| describe := fun _ _ => None; terminate := fun _ _ _ ag _ _ => (Ok tt, ag);
     spawn := fun _ _ _ ag _ _ => (Ok 0, ag) |}.
#[export] Instance no_memory : MemoryEngine unit unit unit :=
  {| remember := fun _ _ _ mem _ => mem; query_procedural := fun _ _ _ _ => Ok [] |}.

Definition crash (s : service) (w : world) :=
  recover_from_crash (AgentError := unit) (MemoryError := unit) inputs 0 tt alice s w tt.

(** Crash recovery goes through the journal forwards, so that of two actions in
    flight on one node the effect of the first is what remains. *)
Example crash_keeps_an_aborted_effect :
  let '(res, s, w, _) := crash (journal 10 20) world2 in
  res = Ok [1; 2] /\ status <$> actions s = [Aborted; Aborted] /\ value world0 0 = Some 5 /\ value w 0 = Some 6.
Proof. vm_compute. done. Qed.

(** A node is written back without its tenant, origin and device. *)
Definition tenanted : world :=
  mkWorld (run alice graph3 (OpPut (Some 0) [110] None 5 4 UserAuthored 3 1 1 toy_nonce Written)) 0.

Example undo_forgets_the_tenant :
  let s := commit (start (point new tenanted [0]) 1 [0] 10) 1 in
  let w := (undo_session s (write tenanted 0 6)).2 in
  tenant_id <$> live_node (store tenanted) 7 0 = Some 3 /\ tenant_id <$> live_node (store w) 7 0 = Some 0.
Proof. vm_compute. done. Qed.

(** An undone deletion is reported as undone, and the node stays deleted. *)
Example undo_of_a_deletion :
  let s := commit (start (point new world0 [0]) 1 [0] 10) 1 in
  let w := (world_delete inputs 0 tt alice world0 0).2 in
  let '(res, _, w') := undo_session s w in
  value world0 0 = Some 5 /\ res = Ok (UndoTargeted [1]) /\ value w' 0 = None.
Proof. vm_compute. done. Qed.

(** An action that is undone does not keep its recovery point, but redoing it
    makes it undoable again. *)
Example undo_after_redo_after_compact :
  let '(_, s1, w1) := undo_session (committed 10 20) world2 in
  let s2 := (compact s1 1000 1).2 in
  let '(r2, s3, w3) := redo_session s2 w1 in
  r2 = Ok (RedoTargeted [1; 2]) /\ (undo_session s3 w3).1.1 = Err NoSuchRecoveryPoint.
Proof. vm_compute. done. Qed.

Lemma inputs_ok k : ns_ok (inputs k).
Proof. reflexivity. Defined.

Definition created : service := point new world0 [0].
End RecoveryExample.
Import Crypto.Toy Wal.ToyRecords Storage.StorageExample KnowledgeGraph.GraphExample RecoveryExample.

Lemma restore_to_restores_witness :
  exists w', restore_to (AgentError := unit) (MemoryError := unit) inputs 0 tt alice created world2 1 = (Ok tt, w')
             /\ seen (store w') 7 0 = Some ([110], None, 5).
Proof.
  assert (Hc : recovery_point_create (AgentError := unit) (MemoryError := unit) 0 tt alice (new : service) world0
                 Automatic [0] 1 = (Ok 1, created)) by (vm_compute; reflexivity).
  assert (Hd : dead (store world2) 0 = false) by (vm_compute; reflexivity).
  assert (Hn : content <$> live_node (store world0) 7 0 = Some ([110], None, 5)) by (vm_compute; reflexivity).
  assert (Hu : owner <$> ns_node (store world2) 0 = Some 7) by (vm_compute; reflexivity).
  revert Hc Hd Hn Hu. generalize created. generalize world0. generalize world2. intros w w0 s Hc Hd Hn Hu.
  destruct (restore_to_restores inputs 0 tt alice new w0 Automatic [0] 1 1 s 0 tt alice s w Hc eq_refl eq_refl eq_refl inputs_ok)
    as (w' & Hr & Hin & _).
  { intros id n Hid Hnode. apply list_elem_of_singleton in Hid. subst id. rewrite Hnode in Hu. by injection Hu. }
  exists w'. split; [exact Hr|]. specialize (Hin 0 ltac:(left)). change (origin alice) with 7 in Hin.
  destruct (live_node (store w0) 7 0) as [n|]; [|discriminate]. rewrite (Hin Hd). exact Hn.
Defined.

(** The two actions of the example, committed. *)
Lemma undo_redo_round_trip_witness :
  exists ids s1 w1 ids' s2 w2,
    undo_session (committed 10 20) world2 = (Ok (UndoTargeted ids), s1, w1)
    /\ redo_session s1 w1 = (Ok (RedoTargeted ids'), s2, w2)
    /\ seen (store w2) 7 0 = seen (store world2) 7 0.
Proof.
  assert (Hl : candidates_for Committed (committed 10 20) (Session 1) = actions (committed 10 20))
    by (vm_compute; reflexivity).
  assert (Ht : touched_by (actions (committed 10 20)) = [0; 0]) by (vm_compute; reflexivity).
  assert (Hi : ids_of (actions (committed 10 20)) = [1; 2]) by (vm_compute; reflexivity).
  assert (Hu : candidates_for Undone (committed 10 20) (Session 1) = []) by (vm_compute; reflexivity).
  assert (Hp : forallb (fun a => bool_decide (is_Some (snapshots (committed 10 20) !! recovery_point_before a)))
                 (actions (committed 10 20)) = true) by (vm_compute; reflexivity).
  assert (Hown : owner <$> ns_node (store world2) 0 = Some 7) by (vm_compute; reflexivity).
  assert (He : forallb (fun p => bool_decide (is_Some p.2))
                 (actions (committed 10 20) ≫= entries_of (committed 10 20)) = true) by (vm_compute; reflexivity).
  revert Hl Ht Hi Hu Hp Hown He. unfold undo_session, redo_session. generalize (committed 10 20). generalize world2.
  intros w s Hl Ht Hi Hu Hp Hown He.
  destruct (undo_redo_round_trip (AgentError := unit) (MemoryError := unit) inputs 0 tt alice s w (Session 1))
    as (ids & s1 & w1 & ids' & s2 & w2 & H1 & H2 & _ & _ & _ & _ & Hseen); [|exact Hu|].
  - constructor; rewrite ?Hl, ?Ht, ?Hi; [reflexivity|reflexivity|apply inputs_ok| | | | |].
    + apply (bool_decide_unpack _). vm_compute. exact I.
    + intros Hnil. rewrite Hnil in Hi. discriminate.
    + apply Forall_forall. intros a Ha. apply list_elem_of_In in Ha.
      rewrite forallb_forall in Hp. exact (bool_decide_unpack _ (Is_true_true_2 _ (Hp a Ha))).
    + intros id n Hid Hn. assert (id = 0) as -> by set_solver. rewrite Hn in Hown. by injection Hown.
    + intros a id Ha Hid. destruct Hid. rewrite <- Hi. by apply list_elem_of_fmap_2.
  - exists ids, s1, w1, ids', s2, w2. split; [exact H1|]. split; [exact H2|]. apply Hseen; rewrite Hl.
    + rewrite Ht. left.
    + left. intros Hin. apply list_elem_of_In in Hin. rewrite forallb_forall in He. specialize (He _ Hin).
      discriminate.
Defined.

Lemma run_committed : service_run (MemoryError := unit) (AgentError := unit) (Agents := unit)
  (Env := WriteEnv) (G := graph) inputs (journal 10 20).
Proof.
  unfold journal, start, point. apply run_start; [|vm_compute; reflexivity]. apply run_point.
  apply run_start; [|vm_compute; reflexivity]. apply run_point. apply run_new.
Defined.

Lemma crash_recovery_witness :
  exists ids, (crash (journal 10 20) world2).1.1.1 = Ok ids.
Proof.
  assert (Ht : touched_by (in_flight (journal 10 20)) = [0; 0]) by (vm_compute; reflexivity).
  assert (Hp : forallb (fun a => bool_decide (is_Some (snapshots (journal 10 20) !! recovery_point_before a)))
                 (in_flight (journal 10 20)) = true) by (vm_compute; reflexivity).
  assert (Hown : owner <$> ns_node (store world2) 0 = Some 7) by (vm_compute; reflexivity).
  revert Ht Hp Hown. generalize run_committed. generalize (journal 10 20). generalize world2. intros w s Hs Ht Hp Hown.
  pose proof (crash_recovery (MemoryError := unit) (AgentError := unit) inputs 0 tt alice s w tt Hs) as Hc.
  unfold crash. destruct (recover_from_crash inputs 0 tt alice s w tt) as [[[res s'] w'] ag'].
  destruct Hc as (_ & _ & _ & Hok). apply Hok.
  - reflexivity.
  - apply inputs_ok.
  - apply Forall_forall. intros a Ha. apply list_elem_of_In in Ha.
    rewrite forallb_forall in Hp. exact (bool_decide_unpack _ (Is_true_true_2 _ (Hp a Ha))).
  - intros id n Hid Hn. rewrite Ht in Hid. assert (id = 0) as -> by set_solver. rewrite Hn in Hown. by injection Hown.
  - intros ag run. by destruct run.
Defined.
