(* ===== verification/SystemImage.v ===== *)
(** System image slots: [crates/hyperion-update/src/system_image.rs], with the
    types of [types.rs] it uses.

    Two slots hold images; one is active. An update goes into the other one, is
    booted a bounded number of times, and becomes active when committed. A
    version number that only grows keeps old images from being installed by the
    normal path. [slot_mut] panics if a slot is missing: [None]. A call takes
    several locks one after the other and never two at once, so what it does under
    each of them is an action of its own, and runs are interleavings of actions. *)
From S2P Require Import Prelude.
Open Scope N_scope.

(** ** types.rs *)

Abbreviation Version := N (only parsing).

Inductive SystemImageSlotName : Type := A | B.

#[export] Instance slot_name_eq_dec : EqDecision SystemImageSlotName.
Proof. solve_decision. Defined.

Record SystemImageSlot := mkSlot {
  slot : SystemImageSlotName;
  version : Version;
  boot_attempts_remaining : N;
  committed : bool
}.

(** The errors of [UpdateError] these operations return. *)
Inductive ImageError : Type :=
| BootAttemptsExhausted
| AntiRollbackViolation (attempted highest_ever : Version).

(** ** system_image.rs *)

Definition DEFAULT_BOOT_ATTEMPTS : N := 3.

Definition other (s : SystemImageSlotName) : SystemImageSlotName :=
  match s with A => B | B => A end.

Record SystemImageController := mkController {
  slots : list SystemImageSlot;
  active : SystemImageSlotName;
  highest_version_ever : Version
}.

Definition new (initial_version : Version) : SystemImageController :=
  mkController [mkSlot A initial_version DEFAULT_BOOT_ATTEMPTS true; mkSlot B 0 0 false] A initial_version.

(** The first slot of the name, and the slots with it replaced. *)
Fixpoint slot_mut (l : list SystemImageSlot) (name : SystemImageSlotName) :
    option (SystemImageSlot * (SystemImageSlot -> list SystemImageSlot)) :=
  match l with
  | [] => None
  | s :: l =>
      if bool_decide (slot s = name) then Some (s, fun s' => s' :: l)
      else '(found, put) ← slot_mut l name; Some (found, fun s' => s :: put s')
  end.

Definition active_slot (c : SystemImageController) : option SystemImageSlot :=
  fst <$> slot_mut (slots c) (active c).

(** The second half of [stage_unchecked], under the lock of the slots. *)
Definition write_slot (c : SystemImageController) (inactive : SystemImageSlotName) (v : Version) :
    option SystemImageController :=
  '(s, put) ← slot_mut (slots c) inactive;
  Some (mkController (put (mkSlot (slot s) v DEFAULT_BOOT_ATTEMPTS false)) (active c) (highest_version_ever c)).

(** The lock of the active slot's name is let go of before that of the slots is
    taken: [others] is what happens in between. *)
Definition stage_unchecked (others : SystemImageController -> SystemImageController)
    (c : SystemImageController) (v : Version) : option (SystemImageSlotName * SystemImageController) :=
  let inactive := other (active c) in
  c ← write_slot (others c) inactive v; Some (inactive, c).

(** The first half of [stage_to_inactive_slot], under the lock of the mark. *)
Definition raise_mark (c : SystemImageController) (v : Version) :
    Result unit ImageError * SystemImageController :=
  if v <=? highest_version_ever c
  then (Err (AntiRollbackViolation v (highest_version_ever c)), c)
  else (Ok tt, mkController (slots c) (active c) v).

(** [others] happens once the lock of the mark is let go of, [others'] within
    [stage_unchecked]. *)
Definition stage_to_inactive_slot (others others' : SystemImageController -> SystemImageController)
    (c : SystemImageController) (v : Version) :
    option (Result SystemImageSlotName ImageError * SystemImageController) :=
  match raise_mark c v with
  | (Err e, c) => Some (Err e, c)
  | (Ok _, c) => '(s, c) ← stage_unchecked others' (others c) v; Some (Ok s, c)
  end.

Definition stage_rollback_to_inactive_slot (others : SystemImageController -> SystemImageController)
    (c : SystemImageController) (v : Version) : option (SystemImageSlotName * SystemImageController) :=
  stage_unchecked others c v.

Definition attempt_boot (c : SystemImageController) (name : SystemImageSlotName) :
    option (Result unit ImageError * SystemImageController) :=
  '(s, put) ← slot_mut (slots c) name;
  if boot_attempts_remaining s =? 0 then Some (Err BootAttemptsExhausted, c)
  else Some (Ok tt, mkController (put (mkSlot (slot s) (version s) (boot_attempts_remaining s - 1) (committed s)))
                      (active c) (highest_version_ever c)).

(** The two halves of [commit], under the lock of the slots and that of the active
    slot's name. *)
Definition mark_committed (c : SystemImageController) (name : SystemImageSlotName) :
    option SystemImageController :=
  '(s, put) ← slot_mut (slots c) name;
  Some (mkController (put (mkSlot (slot s) (version s) (boot_attempts_remaining s) true)) (active c)
          (highest_version_ever c)).

Definition make_active (c : SystemImageController) (name : SystemImageSlotName) : SystemImageController :=
  mkController (slots c) name (highest_version_ever c).

Definition commit (others : SystemImageController -> SystemImageController)
    (c : SystemImageController) (name : SystemImageSlotName) : option SystemImageController :=
  c ← mark_committed c name; Some (make_active (others c) name).

(** ** Interleavings *)

(** A call that is between two of its locks: a staging that has not read which
    slot is active, one that has and is to write the slot it chose, a commit that
    has marked its slot. [since] is how often the active slot had changed when the
    name was read. *)
Inductive thread : Type :=
| Choosing (v : Version)
| Writing (name : SystemImageSlotName) (v : Version) (since : nat)
| Flipping (name : SystemImageSlotName).

(** The controller, the calls under way, and how often the active slot changed. *)
Record System := mkSystem {
  ctl : SystemImageController;
  threads : list thread;
  flips : nat
}.

Definition start (v0 : Version) : System := mkSystem (new v0) [] 0.

(** What one thread does under one lock: the first action of a call, or the next
    one of a call under way. *)
Inductive image_op : Type :=
| Stage (v : Version)
| StageRollback (v : Version)
| Boot (name : SystemImageSlotName)
| Commit (name : SystemImageSlotName)
| Advance (i : nat).

#[export] Instance image_op_eq_dec : EqDecision image_op.
Proof. solve_decision. Defined.

Definition advance (s : System) (i : nat) (t : thread) : option System :=
  match t with
  | Choosing v => Some (mkSystem (ctl s) (<[i := Writing (other (active (ctl s))) v (flips s)]> (threads s)) (flips s))
  | Writing name v _ => c ← write_slot (ctl s) name v; Some (mkSystem c (delete i (threads s)) (flips s))
  | Flipping name =>
      Some (mkSystem (make_active (ctl s) name) (delete i (threads s))
              (if bool_decide (active (ctl s) = name) then flips s else S (flips s)))
  end.

(** Whether the action was granted, and the system after it; [None] if it
    panics. *)
Definition image_exec (s : System) (op : image_op) : option (bool * System) :=
  match op with
  | Stage v =>
      match raise_mark (ctl s) v with
      | (Err _, c) => Some (false, mkSystem c (threads s) (flips s))
      | (Ok _, c) => Some (true, mkSystem c (threads s ++ [Choosing v]) (flips s))
      end
  | StageRollback v => Some (true, mkSystem (ctl s) (threads s ++ [Choosing v]) (flips s))
  | Boot name => '(r, c) ← attempt_boot (ctl s) name; Some (is_ok r, mkSystem c (threads s) (flips s))
  | Commit name => c ← mark_committed (ctl s) name; Some (true, mkSystem c (threads s ++ [Flipping name]) (flips s))
  | Advance i =>
      match threads s !! i with
      | Some t => s ← advance s i t; Some (true, s)
      | None => Some (false, s)
      end
  end.

(** A sequence of actions, with what was granted. *)
Fixpoint image_run (s : System) (ops : list image_op) : option (list (image_op * bool) * System) :=
  match ops with
  | [] => Some ([], s)
  | op :: ops => '(ok, s) ← image_exec s op; '(log, s) ← image_run s ops; Some ((op, ok) :: log, s)
  end.

(** Two slots, by name. *)
Definition image_wf (c : SystemImageController) : Prop :=
  exists a b, slots c = [a; b] /\ slot a = A /\ slot b = B.

Definition slot_of (c : SystemImageController) (name : SystemImageSlotName) : option SystemImageSlot :=
  fst <$> slot_mut (slots c) name.

Lemma slot_of_some c name : image_wf c -> exists s, slot_of c name = Some s /\ slot s = name.
Proof.
  intros (a & b & Hl & Ha & Hb). unfold slot_of. rewrite Hl. simpl. rewrite Ha, Hb.
  destruct name; by eexists.
Qed.

(** Replacing a slot by one of the same name. *)
Lemma slot_mut_spec c name :
  image_wf c ->
  exists s put, slot_mut (slots c) name = Some (s, put) /\ slot s = name
  /\ forall s' act high, slot s' = name ->
     let c' := mkController (put s') act high in
     image_wf c' /\ slot_of c' name = Some s'
     /\ forall n, n <> name -> slot_of c' n = slot_of c n.
Proof.
  intros (a & b & Hl & Ha & Hb). unfold slot_of. rewrite Hl. simpl. rewrite Ha, Hb.
  destruct name; simpl; do 2 eexists; (split; [done|]); (split; [done|]); intros s' act high Hs';
    (split; [by do 2 eexists|]); simpl; rewrite ?Ha, ?Hb, Hs'; (split; [done|]); by intros [].
Qed.

(** What a granted action does to the slot it is about. *)
Definition slot_effect (s : System) (op : image_op) (name : SystemImageSlotName) (x y : SystemImageSlot) : Prop :=
  match op with
  | Boot n => if decide (n = name) then y = mkSlot name (version x) (boot_attempts_remaining x - 1) (committed x) else y = x
  | Commit n => if decide (n = name) then y = mkSlot name (version x) (boot_attempts_remaining x) true else y = x
  | Advance i =>
      match threads s !! i with
      | Some (Writing n v _) => if decide (n = name) then y = mkSlot name v DEFAULT_BOOT_ATTEMPTS false else y = x
      | _ => y = x
      end
  | Stage _ | StageRollback _ => y = x
  end.

(** The name that is active after an action. *)
Definition active_after (s : System) (op : image_op) : SystemImageSlotName :=
  match op with
  | Advance i => match threads s !! i with Some (Flipping n) => n | _ => active (ctl s) end
  | _ => active (ctl s)
  end.

Definition grants (s : System) (op : image_op) : bool :=
  match op with
  | Stage v => highest_version_ever (ctl s) <? v
  | Boot name => match slot_of (ctl s) name with Some x => negb (boot_attempts_remaining x =? 0) | None => false end
  | Advance i => bool_decide (is_Some (threads s !! i))
  | _ => true
  end.

Definition exec_spec (s : System) (op : image_op) (ok : bool) (s' : System) : Prop :=
  image_wf (ctl s') /\ ok = grants s op /\ active (ctl s') = active_after s op
  /\ highest_version_ever (ctl s')
     = (match op with Stage v => if ok then v else highest_version_ever (ctl s) | _ => highest_version_ever (ctl s) end)
  /\ forall name, exists x y, slot_of (ctl s) name = Some x /\ slot_of (ctl s') name = Some y
                              /\ slot x = name /\ slot y = name /\ slot_effect s op name x y.

(** An action that leaves the slots as they are. *)
Lemma same_slots (P : SystemImageSlotName -> SystemImageSlot -> SystemImageSlot -> Prop) c c' :
  image_wf c -> slots c' = slots c -> (forall name x, P name x x) ->
  image_wf c' /\ forall name, exists x y, slot_of c name = Some x /\ slot_of c' name = Some y
                              /\ slot x = name /\ slot y = name /\ P name x y.
Proof.
  intros Hwf Hl HP. split; [by unfold image_wf; rewrite Hl|]. intros name.
  destruct (slot_of_some c name Hwf) as (x & Hx & Hn). exists x, x.
  unfold slot_of in *. rewrite Hl. by split_and!.
Qed.

(** An action that replaces one slot. *)
Lemma one_slot c n (f : SystemImageSlot -> SystemImageSlot) act high :
  image_wf c -> (forall x, slot x = n -> slot (f x) = n) ->
  exists x put, slot_mut (slots c) n = Some (x, put) /\ slot_of c n = Some x /\ slot x = n
  /\ let c' := mkController (put (f x)) act high in
     image_wf c' /\ forall name, exists x y, slot_of c name = Some x /\ slot_of c' name = Some y
                    /\ slot x = name /\ slot y = name /\ (if decide (n = name) then y = f x else y = x).
Proof.
  intros Hwf Hf. destruct (slot_mut_spec c n Hwf) as (x & put & Hm & Hn & Hput).
  exists x, put. assert (Hx : slot_of c n = Some x) by (unfold slot_of; by rewrite Hm).
  split_and!; [done..|]. destruct (Hput (f x) act high (Hf x Hn)) as (Hwf' & Hy & Hothers).
  split; [done|]. intros name. destruct (decide (n = name)) as [<-|Hne].
  - exists x, (f x). split_and!; auto.
  - destruct (slot_of_some c name Hwf) as (z & Hz & Hnz). exists z, z. by rewrite Hothers.
Qed.

(** What one action does. *)
Lemma image_exec_spec s op :
  image_wf (ctl s) -> exists ok s', image_exec s op = Some (ok, s') /\ exec_spec s op ok s'.
Proof.
  intros Hwf. unfold exec_spec. destruct op as [v|v|n|n|i]; simpl.
  - unfold raise_mark. rewrite N.ltb_antisym.
    destruct (v <=? _); do 2 eexists; (split; [done|]); simpl;
      (edestruct (same_slots (fun _ x y => y = x) (ctl s)) as [Hwf' Hs]; [done| |done|by split_and!]; done).
  - do 2 eexists. split; [done|]. simpl.
    destruct (same_slots (fun _ x y => y = x) (ctl s) (ctl s)) as [Hwf' Hs]; [done..|]. by split_and!.
  - destruct (one_slot (ctl s) n
      (fun x => mkSlot (slot x) (version x) (boot_attempts_remaining x - 1) (committed x))
      (active (ctl s)) (highest_version_ever (ctl s)) Hwf) as (x & put & Hm & Hx & Hn & Hwf' & Hs); [done|].
    unfold attempt_boot. rewrite Hm, Hx. simpl. destruct (N.eqb_spec (boot_attempts_remaining x) 0) as [Hz|Hz].
    + do 2 eexists. split; [done|]. simpl. split_and!; [done..|]. intros name.
      destruct (slot_of_some (ctl s) name Hwf) as (z & Hz' & Hnz). exists z, z. split_and!; [done..|].
      destruct (decide (n = name)) as [<-|]; [|done]. rewrite Hx in Hz'. injection Hz' as <-.
      destruct x; simpl in *; subst. done.
    + do 2 eexists. split; [done|]. simpl. split_and!; [done..|]. intros name.
      destruct (Hs name) as (z & y & Hz1 & Hy & Hnz & Hny & He). exists z, y. split_and!; [done..|].
      destruct (decide (n = name)); [by rewrite <- Hnz|done].
  - destruct (one_slot (ctl s) n
      (fun x => mkSlot (slot x) (version x) (boot_attempts_remaining x) true)
      (active (ctl s)) (highest_version_ever (ctl s)) Hwf) as (x & put & Hm & Hx & Hn & Hwf' & Hs); [done|].
    unfold mark_committed. rewrite Hm. simpl. do 2 eexists. split; [done|]. simpl. split_and!; [done..|]. intros name.
    destruct (Hs name) as (z & y & Hz1 & Hy & Hnz & Hny & He). exists z, y. split_and!; [done..|].
    destruct (decide (n = name)); [by rewrite <- Hnz|done].
  - destruct (threads s !! i) as [[v|n v k|n]|]; simpl.
    2: { destruct (one_slot (ctl s) n (fun x => mkSlot (slot x) v DEFAULT_BOOT_ATTEMPTS false)
           (active (ctl s)) (highest_version_ever (ctl s)) Hwf) as (x & put & Hm & Hx & Hn & Hwf' & Hs); [done|].
         unfold write_slot. rewrite Hm. simpl. do 2 eexists. split; [done|]. simpl.
         split_and!; [done..|]. intros name.
         destruct (Hs name) as (z & y & Hz1 & Hy & Hnz & Hny & He). exists z, y. split_and!; [done..|].
         destruct (decide (n = name)); [by rewrite <- Hnz|done]. }
    all: do 2 eexists; split; [done|]; simpl;
      edestruct (same_slots (fun _ x y => y = x) (ctl s)) as [Hwf' Hs]; [done|done|done|].
    all: split_and!; first [done|by rewrite bool_decide_true by done|by rewrite bool_decide_false by (by intros [])].
Qed.

Lemma image_run_total s ops :
  image_wf (ctl s) -> exists log s', image_run s ops = Some (log, s') /\ image_wf (ctl s').
Proof.
  revert s. induction ops as [|op ops IH]; intros s Hwf; simpl; [by exists [], s|].
  destruct (image_exec_spec s op Hwf) as (ok & s1 & -> & Hwf1 & _). simpl.
  destruct (IH s1 Hwf1) as (log & s2 & -> & Hwf2). simpl. by eexists _, _.
Qed.

(** The versions the normal path accepted, in order. *)
Definition accepted (log : list (image_op * bool)) : list Version :=
  omap (fun '(op, ok) => match op with Stage v => if (ok : bool) then Some v else None | _ => None end) log.

(** The boots of a slot that were granted. *)
Definition boots (name : SystemImageSlotName) (log : list (image_op * bool)) : N :=
  N.of_nat (length (List.filter (fun '(op, ok) => bool_decide (op = Boot name) && ok) log)).

Lemma accepted_run s ops log s' :
  image_wf (ctl s) -> image_run s ops = Some (log, s') ->
  StronglySorted N.lt (highest_version_ever (ctl s) :: accepted log)
  /\ last (highest_version_ever (ctl s) :: accepted log) = Some (highest_version_ever (ctl s')).
Proof.
  revert s log s'. induction ops as [|op ops IH]; intros s log s' Hwf; simpl.
  { intros [= <- <-]. split; [by repeat constructor|done]. }
  destruct (image_exec_spec s op Hwf) as (ok & s1 & -> & Hwf1 & Hok & _ & Hhigh & _). simpl.
  destruct (image_run s1 ops) as [[log1 s2]|] eqn:Hrun; [|done]. simpl. intros [= <- <-].
  destruct (IH _ _ _ Hwf1 Hrun) as [Hs Hl]. clear IH. destruct op as [v| | | |]; simpl; try by rewrite <- Hhigh.
  destruct ok; simpl; [|by rewrite <- Hhigh]. symmetry in Hok. apply N.ltb_lt in Hok. rewrite Hhigh in Hs, Hl.
  split; [|exact Hl]. constructor; [done|]. constructor; [done|].
  apply StronglySorted_inv in Hs as [_ Hall]. eapply Forall_impl; [exact Hall|]. intros x. lia.
Qed.

(** Whether the action writes a new image into the slot. *)
Definition overwrites (s : System) (op : image_op) (name : SystemImageSlotName) : bool :=
  match op with
  | Advance i => match threads s !! i with Some (Writing n _ _) => bool_decide (n = name) | _ => false end
  | _ => false
  end.

(** A run in which nobody writes a new image into the slot. *)
Fixpoint keeps_image (s : System) (ops : list image_op) (name : SystemImageSlotName) : bool :=
  match ops with
  | [] => true
  | op :: ops =>
      negb (overwrites s op name)
      && match image_exec s op with Some (_, s) => keeps_image s ops name | None => true end
  end.

Lemma boots_run s ops log s' name x :
  image_wf (ctl s) -> keeps_image s ops name = true -> image_run s ops = Some (log, s') ->
  slot_of (ctl s) name = Some x ->
  exists y, slot_of (ctl s') name = Some y /\ version y = version x
            /\ boots name log + boot_attempts_remaining y = boot_attempts_remaining x.
Proof.
  revert s log s' x. induction ops as [|op ops IH]; intros s log s' x Hwf; simpl.
  { intros _ [= <- <-] Hs. by exists x. }
  destruct (image_exec_spec s op Hwf) as (ok & s1 & -> & Hwf1 & Hok & _ & _ & Heff). simpl.
  intros [Hno Hkeep]%andb_prop. destruct (image_run s1 ops) as [[log1 s2]|] eqn:Hrun; [|done]. simpl.
  intros [= <- <-] Hx. destruct (Heff name) as (x' & y & Hx' & Hy & Hnx & _ & He).
  assert (x' = x) as -> by congruence.
  destruct (IH _ _ _ _ Hwf1 Hkeep Hrun Hy) as (z & Hz & Hv & Hb). exists z. split; [done|].
  unfold boots. simpl. fold (boots name log1).
  assert (Hcase : (version y = version x /\ op = Boot name /\ boot_attempts_remaining y = boot_attempts_remaining x - 1)
                  \/ (version y = version x /\ op <> Boot name /\ boot_attempts_remaining y = boot_attempts_remaining x)).
  { destruct op as [v|v|n|n|i]; simpl in He, Hno; try (right; subst; by split_and!).
    - destruct (decide (n = name)) as [->|]; [left; by subst|right; subst; split_and!; congruence].
    - right. destruct (decide (n = name)); by subst.
    - right. destruct (threads s !! i) as [[|n v k|]|]; [by subst| |by subst..].
      destruct (decide (n = name)); [by rewrite bool_decide_true in Hno|by subst]. }
  destruct Hcase as [(Hv1 & -> & Hr)|(Hv1 & Hne & Hr)].
  - split; [congruence|]. rewrite bool_decide_true by done. simpl in Hok. rewrite Hx in Hok.
    destruct (N.eqb_spec (boot_attempts_remaining x) 0); subst ok; simpl in *; unfold boots in *; lia.
  - split; [congruence|]. rewrite bool_decide_false by done. simpl. unfold boots in *. lia.
Qed.

(** What holds in every reachable system: both slots are there, no slot has more
    than the default number of attempts, and a staging that has read the active
    name is about to write the other slot unless the name has changed since. *)
Record system_ok (s : System) : Prop := {
  so_wf : image_wf (ctl s);
  so_attempts : forall name x, slot_of (ctl s) name = Some x -> boot_attempts_remaining x <= DEFAULT_BOOT_ATTEMPTS;
  so_writing : forall name v k, Writing name v k ∈ threads s ->
    (k <= flips s)%nat /\ (k = flips s -> name = other (active (ctl s)))
}.

Lemma threads_after s op ok s' :
  image_exec s op = Some (ok, s') ->
  (flips s <= flips s')%nat /\ (flips s' = flips s -> active (ctl s') = active (ctl s))
  /\ forall t, t ∈ threads s' -> t ∈ threads s
       \/ (forall name v k, t = Writing name v k -> k = flips s' /\ name = other (active (ctl s'))).
Proof.
  assert (Hnew : forall t (ts : list thread) x, t ∈ ts ++ [x] -> (forall name v k, x <> Writing name v k) ->
    t ∈ ts \/ (forall name v k, t = Writing name v k -> k = flips s' /\ name = other (active (ctl s')))).
  { intros t ts x [?|Heq%list_elem_of_singleton]%elem_of_app Hx; [by left|right]. subst x. intros name v k ->. by edestruct Hx. }
  destruct op as [v|v|n|n|i]; simpl.
  - unfold raise_mark. destruct (v <=? _); intros [= <- <-]; simpl in *; split_and!; try done; [by left|].
    intros t Ht. by eapply Hnew.
  - intros [= <- <-]. simpl in *. split_and!; try done. intros t Ht. by eapply Hnew.
  - unfold attempt_boot. destruct (slot_mut _ n) as [[x put]|]; [|done]. simpl.
    destruct (_ =? 0); intros [= <- <-]; simpl; split_and!; try done; by left.
  - unfold mark_committed. destruct (slot_mut _ n) as [[x put]|]; [|done]. simpl.
    intros [= <- <-]. simpl in *. split_and!; try done. intros t Ht. by eapply Hnew.
  - destruct (threads s !! i) as [[v|n v k|n]|] eqn:Hi; simpl.
    + intros [= <- <-]. simpl. split_and!; try done.
      intros t [j Hj]%list_elem_of_lookup. apply list_lookup_insert_Some in Hj as [(<- & <- & _)|[_ Hj]].
      * right. by intros name v' k [= <- <- <-].
      * left. by eapply list_elem_of_lookup_2.
    + unfold write_slot. destruct (slot_mut _ n) as [[x put]|]; [|done]. simpl. intros [= <- <-]. simpl.
      split_and!; try done. intros t Ht. left. by eapply list_elem_of_delete_inv.
    + intros [= <- <-]. simpl. case_bool_decide as Ha; (split; [lia|]); split;
        try (intros; lia); try (intros t Ht; left; by eapply list_elem_of_delete_inv); done.
    + intros [= <- <-]. split_and!; try done. by left.
Qed.

Lemma exec_system_ok s op ok s' : system_ok s -> image_exec s op = Some (ok, s') -> system_ok s'.
Proof.
  intros [Hwf Hatt Hwr] He. destruct (image_exec_spec s op Hwf) as (ok1 & s1 & He1 & Hwf1 & _ & _ & _ & Heff).
  rewrite He in He1. injection He1 as <- <-. constructor; [done| |].
  - intros name y Hy. destruct (Heff name) as (x & y' & Hx & Hy' & _ & _ & Hf). assert (y' = y) as -> by congruence.
    specialize (Hatt name x Hx).
    destruct op as [v|v|n|n|i]; simpl in Hf; try (by subst);
      try (destruct (decide (n = name)); subst; simpl; lia).
    destruct (threads s !! i) as [[|n v k|]|]; try (by subst). destruct (decide (n = name)); by subst.
  - intros name v k Hin. destruct (threads_after _ _ _ _ He) as (Hle & Hact & Hts).
    destruct (Hts _ Hin) as [Hold|Hnew].
    + destruct (Hwr _ _ _ Hold) as [Hk Hn]. split; [lia|]. intros Heq. rewrite Hact by lia. apply Hn. lia.
    + destruct (Hnew _ _ _ eq_refl) as [-> ->]. done.
Qed.

Lemma run_system_ok s ops log s' : system_ok s -> image_run s ops = Some (log, s') -> system_ok s'.
Proof.
  revert s log s'. induction ops as [|op ops IH]; intros s log s' Hok; simpl; [by intros [= <- <-]|].
  destruct (image_exec s op) as [[ok s1]|] eqn:He; [|done]. simpl.
  destruct (image_run s1 ops) as [[log1 s2]|] eqn:Hrun; [|done]. intros [= <- <-].
  eapply IH; [|done]. by eapply exec_system_ok.
Qed.

Lemma start_ok v0 : system_ok (start v0).
Proof.
  constructor; simpl; [by do 2 eexists| |set_solver]. intros [] x; by intros [= <-].
Qed.

(** C14. System images, under any interleaving of what the calls do under each of
    their locks, from a new controller: nothing panics; the versions the normal
    path accepts only grow, from above the initial version, and an offer is
    accepted exactly if it is above them all; only a commit changes which slot is
    active, and it makes its own slot so; a slot's image changes only when a
    staging writes it, and a staging writes the slot that is active only if a
    commit changed which one is active since the staging looked; a slot's mark is
    set only by its commit; boots take one attempt of their slot, and as long as
    no staging writes a slot it is booted at most [DEFAULT_BOOT_ATTEMPTS] times. *)
Theorem system_image_safety v0 ops :
  exists log s, image_run (start v0) ops = Some (log, s)
  /\ StronglySorted N.lt (v0 :: accepted log)
  /\ last (v0 :: accepted log) = Some (highest_version_ever (ctl s))
  /\ (forall op, exists ok s', image_exec s op = Some (ok, s')
        /\ (forall v, op = Stage v -> ok = (highest_version_ever (ctl s) <? v))
        /\ (active (ctl s') = active (ctl s)
            \/ exists i name, op = Advance i /\ threads s !! i = Some (Flipping name) /\ active (ctl s') = name)
        /\ forall name, exists x y, slot_of (ctl s) name = Some x /\ slot_of (ctl s') name = Some y
             /\ (y = x
                 \/ (op = Boot name /\ ok = true
                     /\ y = mkSlot name (version x) (boot_attempts_remaining x - 1) (committed x))
                 \/ (op = Commit name /\ y = mkSlot name (version x) (boot_attempts_remaining x) true)
                 \/ exists i v k, op = Advance i /\ threads s !! i = Some (Writing name v k)
                      /\ y = mkSlot name v DEFAULT_BOOT_ATTEMPTS false
                      /\ (name = active (ctl s) -> (k < flips s)%nat)))
  /\ (forall ops' log' s' name, keeps_image s ops' name = true ->
        image_run s ops' = Some (log', s') -> boots name log' <= DEFAULT_BOOT_ATTEMPTS).
Proof.
  destruct (image_run_total (start v0) ops (so_wf _ (start_ok v0))) as (log & s & Hrun & Hwf).
  exists log, s. split; [done|]. destruct (accepted_run (start v0) _ _ _ (so_wf _ (start_ok v0)) Hrun) as [Hs Hl].
  split; [done|]. split; [done|]. pose proof (run_system_ok _ _ _ _ (start_ok v0) Hrun) as [_ Hatt Hwr].
  split.
  - intros op. destruct (image_exec_spec s op Hwf) as (ok & s' & He & _ & Hok & Hact & _ & Heff).
    exists ok, s'. split; [done|]. split; [by intros v ->|]. split.
    { rewrite Hact. destruct op as [| | | |i]; simpl; try by left.
      destruct (threads s !! i) as [[| |n]|] eqn:Hi; try by left. right. by exists i, n. }
    intros name. destruct (Heff name) as (x & y & Hx & Hy & Hnx & Hny & Hf). exists x, y. split_and!; [done..|].
    destruct op as [v|v|n|n|i]; simpl in Hf; [by left|by left| | |].
    + destruct (decide (n = name)) as [->|]; [|by left]. simpl in Hok. rewrite Hx in Hok.
      destruct (N.eqb_spec (boot_attempts_remaining x) 0) as [Hz|Hz]; [left|right; left; by split_and!].
      subst y. destruct x; simpl in *; by subst.
    + destruct (decide (n = name)) as [->|]; [|by left]. right; right; left. done.
    + destruct (threads s !! i) as [[|n v k|]|] eqn:Hi; [by left| |by left..].
      destruct (decide (n = name)) as [->|]; [|by left]. do 3 right. exists i, v, k. split_and!; [done..|].
      intros Ha. destruct (Hwr name v k) as [Hle Heq]; [by eapply list_elem_of_lookup_2|].
      destruct (decide (k = flips s)) as [->|]; [|lia]. specialize (Heq eq_refl).
      rewrite <- Ha in Heq. by destruct name.
  - intros ops' log' s' name Hkeep Hrun'. destruct (slot_of_some (ctl s) name Hwf) as (x & Hx & _).
    destruct (boots_run _ _ _ _ _ _ Hwf Hkeep Hrun' Hx) as (y & _ & _ & Hb). specialize (Hatt _ _ Hx). lia.
Qed.

(** A call during which nothing else happens is its actions in a row. *)
Lemma stage_alone c v r c' :
  stage_to_inactive_slot id id c v = Some (r, c') ->
  exists log, image_run (mkSystem c [] 0) (Stage v :: (if is_ok r then [Advance 0; Advance 0] else []))
              = Some (log, mkSystem c' [] 0) /\ snd <$> log = (if is_ok r then [true; true; true] else [false]).
Proof.
  unfold stage_to_inactive_slot, stage_unchecked. simpl. destruct (raise_mark c v) as [[u|e] c1]; simpl.
  - destruct (write_slot c1 _ v) as [c2|] eqn:Hw; [|done]. intros [= <- <-]. simpl. rewrite Hw. by eexists.
  - intros [= <- <-]. by eexists.
Qed.

Lemma commit_alone c name c' :
  commit id c name = Some c' ->
  exists n, image_run (mkSystem c [] 0) [Commit name; Advance 0]
            = Some ([(Commit name, true); (Advance 0, true)], mkSystem c' [] n).
Proof.
  unfold commit. simpl. destruct (mark_committed c name); [|done]. intros [= <-]. by eexists.
Qed.

(** A staging during which nothing else happens leaves the active slot alone. *)
Lemma stage_alone_keeps_active c v r c' :
  image_wf c -> stage_to_inactive_slot id id c v = Some (r, c') -> active_slot c' = active_slot c.
Proof.
  intros Hwf. unfold stage_to_inactive_slot, raise_mark, stage_unchecked, write_slot, active_slot.
  destruct (v <=? _); simpl; [by intros [= <- <-]|].
  destruct (slot_mut_spec c (other (active c)) Hwf) as (s & put & -> & Hn & Hput). simpl.
  intros [= <- <-]. simpl. destruct (Hput (mkSlot (slot s) v DEFAULT_BOOT_ATTEMPTS false) (active c) v Hn)
    as (_ & _ & Hothers). apply (Hothers (active c)). by destruct (active c).
Qed.

(** A commit between a staging's look at the active name and its writing: the
    staging overwrites the slot that has just become active. *)
Example staging_over_the_active_slot :
  match image_run (start 5) [Stage 6; Advance 0; Advance 0; Stage 7; Advance 0; Commit B; Advance 1; Advance 0] with
  | Some (log, s) => Forall (fun '(_, ok) => ok = true) log
                     /\ active_slot (ctl s) = Some (mkSlot B 7 3 false)
  | None => False
  end.
Proof. vm_compute. split; [repeat constructor|done]. Qed.

(** A rollback to a version above all others is staged and committed without
    raising the mark, so that the normal path then accepts a version below the
    one installed. *)
Example rollback_does_not_raise_the_mark :
  match image_run (start 5) [StageRollback 10; Advance 0; Advance 0; Commit B; Advance 0; Stage 6] with
  | Some (log, s) => Forall (fun '(_, ok) => ok = true) log /\ version <$> active_slot (ctl s) = Some 10
                     /\ highest_version_ever (ctl s) = 6
  | None => False
  end.
Proof. vm_compute. split; [repeat constructor|done]. Qed.

(** A slot that was never staged or booted can be committed. *)
Example commit_of_an_empty_slot :
  match image_run (start 5) [Commit B; Advance 0] with
  | Some (_, s) => version <$> active_slot (ctl s) = Some 0
  | None => False
  end.
Proof. vm_compute. done. Qed.
