(* ===== verification/ModelRouter.v ===== *)
(** The model router: [crates/hyperion-model-router/src/{types,registry,router}.rs].

    Implementations of a capability register with the router and start in shadow;
    an update promotes them. Routing an invocation gathers the implementations of
    its capability, drops those that a gate excludes, scores the rest and orders
    them. The local AI runtime, which says what a model of some class would
    achieve on this machine, is a parameter, and so is the standard library's
    [DefaultHasher], whose algorithm is documented as unspecified. *)
From S2P Require Import Prelude Capability Authority DebugFmt F32 F32Facts.
From Stdlib Require Import Floats.SpecFloat.
Open Scope N_scope.

(** ** types.rs *)

Abbreviation ImplId := N (only parsing).

Inductive ImplKind : Type := LocalSmallModel | LocalLargeModel | CloudApi | NativeBinary | Composed.

Inductive ConsequenceTier : Type := Routine | Sensitive | HighStakes.

#[export] Instance consequence_tier_eq_dec : EqDecision ConsequenceTier.
Proof. solve_decision. Defined.

Inductive UrgencyClass : Type := Interactive | Background | Batch.

Inductive PrivacyTier : Type := Local | ConsentedCloud.

#[export] Instance privacy_tier_eq_dec : EqDecision PrivacyTier.
Proof. solve_decision. Defined.

Inductive CostModel : Type :=
| Free
| PerCall (c : f64)
| PerToken (c : f64).

Inductive RolloutStage : Type :=
| Shadow
| Canary (pct : f32)
| Ga.

(** [RolloutStage]'s [PartialEq], where the code uses it. *)
Definition is_shadow (s : RolloutStage) : bool := match s with Shadow => true | _ => false end.

Record ResourceCost := mkCost {
  cpu_shares : N;
  ram_mb : N;
  gpu_shares : N;
  vram_mb : N;
  storage_iops : N;
  network_bw_kbps : N;
  inference_tokens_per_sec : N;
  context_window_slots : N;
  battery_budget_mw : N
}.

(** [hyperion_ai_runtime::ModelClass]. *)
Inductive ModelClass : Type := Slm | Lrm | Vision | Speech | Coding | Planning.

Record ImplementationDescriptor := mkDescriptor {
  impl_id : ImplId;
  capability_id : list N;
  impl_kind : ImplKind;
  model_class : option ModelClass;
  privacy_tier : PrivacyTier;
  cost_model : CostModel;
  quality_profile : gmap (list N) f32;
  declared_latency_ms : N;
  rollout_stage : RolloutStage;
  resource_cost : option ResourceCost
}.

Definition with_stage (d : ImplementationDescriptor) (s : RolloutStage) : ImplementationDescriptor :=
  mkDescriptor (impl_id d) (capability_id d) (impl_kind d) (model_class d) (privacy_tier d) (cost_model d)
    (quality_profile d) (declared_latency_ms d) s (resource_cost d).

Record CapabilityInvocation := mkInvocation {
  inv_capability_id : list N;
  urgency_class : UrgencyClass;
  consequence_tier : ConsequenceTier;
  quality_floor : option f32;
  latency_budget_ms : N;
  cloud_consent : bool
}.

Record RoutingScore := mkScore {
  score_impl_id : ImplId;
  score_latency_fit : f32;
  privacy_fit : f32;
  score_cost_fit : f32;
  quality_fit : f32;
  availability_fit : f32;
  composite : f32
}.

Inductive ExclusionReason : Type := PrivacyGate | ResourceInfeasible | CanaryNotSampled.

Record Rationale := mkRouting {
  candidates_considered : list (ImplId * RoutingScore);
  candidates_excluded : list (ImplId * ExclusionReason);
  chosen_reason : list N;
  needs_verification : bool
}.

Record RoutingDecision := mkDecision {
  invocation_id : N;
  chosen : option ImplId;
  fallback_chain : list ImplId;
  rationale : Rationale
}.

Inductive ModelRouterError : Type := Unauthorized.

(** ** What the router calls *)

(** [LocalAiRuntime::estimate]: the throughput of each variant that fits. *)
Class AiRuntime (AI : Type) := {
  estimate : AI -> ModelClass -> N -> bool -> list f32
}.

(** [DefaultHasher]: the bytes written to it, and [finish]. *)
Class DefaultHasher := {
  finish : list N -> N
}.

(** ** registry.rs *)

Definition CIRCUIT_BREAKER_THRESHOLD : N := 3.

Abbreviation CircuitBreaker := (gmap ImplId N) (only parsing).

Definition record_success (b : CircuitBreaker) (id : ImplId) : CircuitBreaker := delete id b.

(** [+= 1] on a [u32]; wraps in a release build. *)
Definition record_failure (b : CircuitBreaker) (id : ImplId) : CircuitBreaker :=
  <[id := (default 0 (b !! id) + 1) mod two32]> b.

Definition is_open (b : CircuitBreaker) (id : ImplId) : bool :=
  CIRCUIT_BREAKER_THRESHOLD <=? default 0 (b !! id).

Abbreviation ImplementationRegistry := (gmap ImplId ImplementationDescriptor) (only parsing).

Definition register (r : ImplementationRegistry) (d : ImplementationDescriptor) : ImplementationRegistry :=
  <[impl_id d := with_stage d Shadow]> r.

Definition registry_set_rollout_stage (r : ImplementationRegistry) (id : ImplId) (s : RolloutStage) :
    ImplementationRegistry :=
  match r !! id with
  | Some d => <[id := with_stage d s]> r
  | None => r
  end.

Definition by_capability `{HashIter} (r : ImplementationRegistry) (cap : list N) : list ImplementationDescriptor :=
  List.filter (fun d => bool_decide (capability_id d = cap)) (hash_iter r).*2.

(** ** router.rs *)

Record WeightVector := mkWeights {
  lat : f32;
  priv_ : f32;
  w_cost : f32;
  qual : f32;
  avail : f32
}.

Definition base_weights (u : UrgencyClass) : WeightVector :=
  match u with
  | Interactive => mkWeights (f32_lit 40 100) (f32_lit 15 100) (f32_lit 10 100) (f32_lit 25 100) (f32_lit 10 100)
  | Background => mkWeights (f32_lit 15 100) (f32_lit 20 100) (f32_lit 20 100) (f32_lit 30 100) (f32_lit 15 100)
  | Batch => mkWeights (f32_lit 5 100) (f32_lit 15 100) (f32_lit 30 100) (f32_lit 35 100) (f32_lit 15 100)
  end.

Definition for_invocation (u : UrgencyClass) (c : ConsequenceTier) : WeightVector :=
  let w := base_weights u in
  let half := f32_lit 1 2 in
  if bool_decide (c = HighStakes) && f32_ltb (qual w) half then
    let deficit := f32_sub half (qual w) in
    let others := f32_add (f32_add (f32_add (lat w) (priv_ w)) (w_cost w)) (avail w) in
    let shrink := if f32_ltb f32_zero others then f32_sub f32_one (f32_div deficit others) else f32_one in
    mkWeights (f32_mul (lat w) shrink) (f32_mul (priv_ w) shrink) (f32_mul (w_cost w) shrink) half
      (f32_mul (avail w) shrink)
  else w.

Record ModelRouter := mkRouter {
  registry : ImplementationRegistry;
  circuit_breaker : CircuitBreaker;
  next_invocation_id : N
}.

Definition new : ModelRouter := mkRouter ∅ ∅ 1.

Section router.
Context {M AI : Type} `{Authority M} `{HashIter} `{AiRuntime AI} `{DefaultHasher}.

Definition require (now : Instant) (m : M) (t : CapabilityToken) (r : RightsMask) : Result unit ModelRouterError :=
  map_err (fun _ => Unauthorized) (authorize now m t r).

Definition register_implementation (now : Instant) (m : M) (t : CapabilityToken) (r : ModelRouter)
    (d : ImplementationDescriptor) : Result unit ModelRouterError * ModelRouter :=
  match require now m t WRITE with
  | Err e => (Err e, r)
  | Ok _ => (Ok tt, mkRouter (register (registry r) d) (circuit_breaker r) (next_invocation_id r))
  end.

Definition set_rollout_stage (now : Instant) (m : M) (t : CapabilityToken) (r : ModelRouter)
    (id : ImplId) (s : RolloutStage) : Result unit ModelRouterError * ModelRouter :=
  match require now m t WRITE with
  | Err e => (Err e, r)
  | Ok _ =>
      (Ok tt, mkRouter (registry_set_rollout_stage (registry r) id s) (circuit_breaker r) (next_invocation_id r))
  end.

Definition descriptor (r : ModelRouter) (id : ImplId) : option ImplementationDescriptor := registry r !! id.

Definition report_outcome (r : ModelRouter) (id : ImplId) (success : bool) : ModelRouter :=
  mkRouter (registry r)
    (if success then record_success (circuit_breaker r) id else record_failure (circuit_breaker r) id)
    (next_invocation_id r).

Definition declared_costs (r : ModelRouter) (cap : list N) : list (ImplId * ResourceCost) :=
  omap (fun d => (fun cost => (impl_id d, cost)) <$> resource_cost d)
    (List.filter (fun d => negb (is_open (circuit_breaker r) (impl_id d)))
       (List.filter (fun d => negb (is_shadow (rollout_stage d))) (by_capability (registry r) cap))).

(** Both local kinds with a class go by what the runtime estimates. *)
Definition local_class (d : ImplementationDescriptor) : option ModelClass :=
  match impl_kind d with
  | LocalSmallModel | LocalLargeModel => model_class d
  | _ => None
  end.

Definition U64_MAX : N := 18446744073709551615.

Definition latency_fit (ai : AI) (d : ImplementationDescriptor) (budget_ms : N) : f32 :=
  let estimated_ms :=
    match local_class d with
    | Some class =>
        fold_left f32_min
          ((fun tps => f32_mul (f32_div (f32_of_N 100) (f32_max tps (f32_lit 1 100))) (f32_of_N 1000))
             <$> estimate ai class U64_MAX false)
          f32_infinity
    | None => f32_of_N (declared_latency_ms d)
    end in
  if negb (is_finite estimated_ms) then f32_zero
  else if f32_leb estimated_ms (f32_of_N budget_ms) then f32_one
  else f32_clamp (f32_div (f32_of_N budget_ms) estimated_ms) f32_zero f32_one.

Definition cost_fit (d : ImplementationDescriptor) : f32 :=
  let one := f64_of_N 1 in
  match cost_model d with
  | Free => f32_one
  | PerCall c => f32_of_f64 (f64_div one (f64_add one c))
  | PerToken c => f32_of_f64 (f64_div one (f64_add one (f64_mul c (f64_of_N 100))))
  end.

Definition canary_sampled_in (inv : N) (id : ImplId) (pct : f32) : bool :=
  if f32_leb pct f32_zero then false
  else if f32_leb f32_one pct then true
  else
    let sample := f64_div (f64_of_N (finish (le_bytes 8 inv ++ le_bytes 8 id))) (f64_of_N U64_MAX) in
    f32_ltb sample (f64_of_f32 pct).

Definition is_locally_feasible (ai : AI) (d : ImplementationDescriptor) : bool :=
  match local_class d with
  | Some class => match estimate ai class U64_MAX false with [] => false | _ => true end
  | None => true
  end.

(** The score of a candidate no gate has excluded; [None] is the [unreachable!]
    of a candidate in shadow. *)
Definition score_of (ai : AI) (b : CircuitBreaker) (w : WeightVector) (inv : CapabilityInvocation)
    (d : ImplementationDescriptor) : option RoutingScore :=
  let latency := latency_fit ai d (latency_budget_ms inv) in
  let privacy := match privacy_tier d with Local => f32_one | ConsentedCloud => f32_lit 6 10 end in
  let cost := cost_fit d in
  let quality := default (f32_lit 1 2) (quality_profile d !! inv_capability_id inv) in
  availability ← match rollout_stage d with
                 | Ga => Some f32_one
                 | Canary _ => Some (f32_lit 8 10)
                 | Shadow => None
                 end;
  let availability := if is_open b (impl_id d) then f32_mul availability (f32_lit 1 1000) else availability in
  let total := f32_add (f32_add (f32_add (f32_add (f32_mul (lat w) latency) (f32_mul (priv_ w) privacy))
                         (f32_mul (w_cost w) cost)) (f32_mul (qual w) quality)) (f32_mul (avail w) availability) in
  Some (mkScore (impl_id d) latency privacy cost quality availability total).

(** The gates, in order. *)
Definition excluded_by (ai : AI) (invocation : N) (inv : CapabilityInvocation) (d : ImplementationDescriptor) :
    option ExclusionReason :=
  if (match rollout_stage d with Canary pct => negb (canary_sampled_in invocation (impl_id d) pct) | _ => false end)
  then Some CanaryNotSampled
  else if bool_decide (privacy_tier d = ConsentedCloud) && negb (cloud_consent inv) then Some PrivacyGate
  else if negb (is_locally_feasible ai d) then Some ResourceInfeasible
  else None.

(** The loop of [route]: what it considers and what it excludes. *)
Fixpoint route_loop (ai : AI) (b : CircuitBreaker) (w : WeightVector) (invocation : N) (inv : CapabilityInvocation)
    (l : list ImplementationDescriptor) :
    option (list (ImplId * RoutingScore) * list (ImplId * ExclusionReason)) :=
  match l with
  | [] => Some ([], [])
  | d :: l =>
      if is_shadow (rollout_stage d) then route_loop ai b w invocation inv l
      else match excluded_by ai invocation inv d with
           | Some reason =>
               '(considered, excluded) ← route_loop ai b w invocation inv l;
               Some (considered, (impl_id d, reason) :: excluded)
           | None =>
               s ← score_of ai b w inv d;
               '(considered, excluded) ← route_loop ai b w invocation inv l;
               Some ((impl_id d, s) :: considered, excluded)
           end
  end.

Definition verification_needed (inv : CapabilityInvocation) (considered : list (ImplId * RoutingScore)) : bool :=
  bool_decide (consequence_tier inv = HighStakes)
  || is_some_and (head considered) (fun '(_, s) =>
       is_some_and (quality_floor inv) (fun floor => f32_ltb (quality_fit s) floor)).

Definition reason_text (choice : option ImplId) (n : nat) : list N :=
  match choice with
  | Some id => lit "ImplId(" ++ debug_u64 id ++ lit ") scored highest composite among "
               ++ debug_u64 (N.of_nat n) ++ lit " feasible candidate(s)"
  | None => lit "no candidate survived the privacy/feasibility gates"
  end.

(** [unspecified] is what the sort does if a score is not a number. *)
Definition route (unspecified : list (ImplId * RoutingScore) -> option (list (ImplId * RoutingScore)))
    (ai : AI) (r : ModelRouter) (inv : CapabilityInvocation) : option (RoutingDecision * ModelRouter) :=
  let invocation := next_invocation_id r in
  let r' := mkRouter (registry r) (circuit_breaker r) (u64_add invocation 1) in
  let weights := for_invocation (urgency_class inv) (consequence_tier inv) in
  '(considered, excluded) ← route_loop ai (circuit_breaker r) weights invocation inv
                              (by_capability (registry r) (inv_capability_id inv));
  considered ← sort_by_score unspecified (fun p => composite p.2) considered;
  let chain := considered.*1 in
  let choice := head chain in
  Some (mkDecision invocation choice chain
          (mkRouting considered excluded (reason_text choice (length considered)) (verification_needed inv considered)),
        r').

(** ** Runs *)

(** The calls; [RouteCall] is a call of [route] that returned (see [route_keeps]). *)
Inductive router_op : Type :=
| Register (now : Instant) (m : M) (t : CapabilityToken) (d : ImplementationDescriptor)
| SetStage (now : Instant) (m : M) (t : CapabilityToken) (id : ImplId) (s : RolloutStage)
| Report (id : ImplId) (success : bool)
| RouteCall.

Definition router_exec (r : ModelRouter) (op : router_op) : ModelRouter :=
  match op with
  | Register now m t d => (register_implementation now m t r d).2
  | SetStage now m t id s => (set_rollout_stage now m t r id s).2
  | Report id success => report_outcome r id success
  | RouteCall => mkRouter (registry r) (circuit_breaker r) (u64_add (next_invocation_id r) 1)
  end.

Definition router_run (ops : list router_op) : ModelRouter := fold_left router_exec ops new.

(** The call registers [id], or sets its stage, with the right to. *)
Definition registers (id : ImplId) (op : router_op) : bool :=
  match op with
  | Register now m t d => (impl_id d =? id) && is_ok (authorize now m t WRITE)
  | _ => false
  end.

Definition sets_stage (id : ImplId) (op : router_op) : option RolloutStage :=
  match op with
  | SetStage now m t id' s => if (id' =? id) && is_ok (authorize now m t WRITE) then Some s else None
  | _ => None
  end.

(** An authorised call has put [id] in stage [s] since it was last registered,
    and nothing has moved it since. *)
Definition promoted (ops : list router_op) (id : ImplId) (s : RolloutStage) : Prop :=
  exists before op after,
    ops = before ++ op :: after /\ sets_stage id op = Some s
    /\ Exists (fun op => registers id op = true) before
    /\ Forall (fun op => registers id op = false /\ sets_stage id op = None) after.

(** The failures reported since the last success, newest call first. *)
Fixpoint failures (id : ImplId) (newest_first : list router_op) : N :=
  match newest_first with
  | [] => 0
  | Report id' success :: ops => if id' =? id then (if success then 0 else 1 + failures id ops) else failures id ops
  | _ :: ops => failures id ops
  end.

Lemma router_run_snoc ops op : router_run (ops ++ [op]) = router_exec (router_run ops) op.
Proof. unfold router_run. by rewrite fold_left_app. Qed.

Lemma route_keeps unspecified ai r inv dec r' :
  route unspecified ai r inv = Some (dec, r') -> r' = router_exec r RouteCall.
Proof.
  unfold route. destruct (route_loop _ _ _ _ _ _) as [[c e]|]; [|done]. simpl.
  destruct (sort_by_score _ _ c); [|done]. by intros [= _ <-].
Qed.

(** What one call does to the entry of one implementation. *)
Lemma router_exec_descriptor r op id :
  descriptor (router_exec r op) id
  = match op with
    | Register _ _ _ d => if registers id op then Some (with_stage d Shadow) else descriptor r id
    | _ => match sets_stage id op with
           | Some s => (fun d => with_stage d s) <$> descriptor r id
           | None => descriptor r id
           end
    end.
Proof.
  unfold descriptor. destruct op as [now m t d|now m t id' s|id' success|]; simpl.
  - unfold register_implementation, require, register. destruct (authorize now m t WRITE); simpl.
    + rewrite andb_true_r. destruct (N.eqb_spec (impl_id d) id) as [<-|Hne]; [by rewrite lookup_insert_eq|].
      by rewrite lookup_insert_ne.
    + by rewrite andb_false_r.
  - unfold set_rollout_stage, require, registry_set_rollout_stage. destruct (authorize now m t WRITE); simpl.
    + rewrite andb_true_r. destruct (N.eqb_spec id' id) as [->|Hne].
      * destruct (registry r !! id) as [d|] eqn:Hd; [by rewrite lookup_insert_eq|by rewrite Hd].
      * destruct (registry r !! id') as [d|]; [by rewrite lookup_insert_ne|done].
    + by rewrite andb_false_r.
  - done.
  - done.
Qed.

(** Whoever is not in shadow was promoted, and entries sit under their own id. *)
Lemma router_run_entry ops id d :
  descriptor (router_run ops) id = Some d ->
  impl_id d = id /\ Exists (fun op => registers id op = true) ops
  /\ (is_shadow (rollout_stage d) = false -> promoted ops id (rollout_stage d)).
Proof.
  revert d. induction ops as [|op ops IH] using rev_ind; intros d; [done|].
  rewrite router_run_snoc, router_exec_descriptor, Exists_app.
  assert (Hkeep : registers id op = false -> sets_stage id op = None -> descriptor (router_run ops) id = Some d ->
                  impl_id d = id
                  /\ (Exists (fun op => registers id op = true) ops \/ Exists (fun op => registers id op = true) [op])
                  /\ (is_shadow (rollout_stage d) = false -> promoted (ops ++ [op]) id (rollout_stage d))).
  { intros Hr Hs Hd. destruct (IH d Hd) as (Hid & Hreg & Hp). split; [done|]. split; [by left|]. intros Hns.
    destruct (Hp Hns) as (b & o & a & -> & Ho & Hb & Ha). exists b, o, (a ++ [op]). split; [by rewrite <- app_assoc|].
    do 2 (split; [done|]). apply Forall_app. by repeat constructor. }
  destruct op as [now m t d0|now m t id' s|id' success|ai inv].
  - destruct (registers id (Register now m t d0)) eqn:Hr; [|by apply Hkeep]. intros [= <-]. split.
    { simpl in *. apply andb_true_iff in Hr as [Hid _]. by apply N.eqb_eq. }
    split; [|done]. right. by constructor.
  - destruct (sets_stage id (SetStage now m t id' s)) as [s'|] eqn:Hs; [|by apply Hkeep].
    intros (d0 & Hd0 & ->)%fmap_Some. destruct (IH d0 Hd0) as (Hid & Hreg & _). split; [done|]. split; [by left|].
    intros _. by exists ops, (SetStage now m t id' s), [].
  - by apply Hkeep.
  - by apply Hkeep.
Qed.

Lemma failures_le id ops : failures id ops <= N.of_nat (length ops).
Proof. induction ops as [|[] ops IH]; simpl; repeat case_match; lia. Qed.

Lemma breaker_counts ops id :
  N.of_nat (length ops) < two32 -> default 0 (circuit_breaker (router_run ops) !! id) = failures id (rev ops).
Proof.
  induction ops as [|op ops IH] using rev_ind; [done|]. rewrite length_app, router_run_snoc, rev_unit. simpl.
  intros Hlen. assert (Hlen' : N.of_nat (length ops) < two32) by lia. specialize (IH Hlen').
  destruct op as [now m t d|now m t id' s|id' success|ai inv]; simpl.
  - unfold register_implementation, require. by destruct (authorize now m t WRITE).
  - unfold set_rollout_stage, require. by destruct (authorize now m t WRITE).
  - unfold record_success, record_failure. destruct (N.eqb_spec id' id) as [->|Hne], success.
    + by rewrite lookup_delete_eq.
    + rewrite lookup_insert_eq. simpl. rewrite IH. pose proof (failures_le id (rev ops)) as Hle.
      rewrite length_rev in Hle. rewrite N.mod_small; lia.
    + by rewrite lookup_delete_ne.
    + by rewrite lookup_insert_ne.
  - done.
Qed.

(** May this invocation be served by the implementation at all? *)
Definition eligible (ai : AI) (invocation : N) (inv : CapabilityInvocation) (d : ImplementationDescriptor) : Prop :=
  match rollout_stage d with
  | Shadow => False
  | Canary pct => canary_sampled_in invocation (impl_id d) pct = true
  | Ga => True
  end
  /\ (privacy_tier d = Local \/ cloud_consent inv = true)
  /\ is_locally_feasible ai d = true.

Lemma eligible_spec ai invocation inv d :
  eligible ai invocation inv d <-> is_shadow (rollout_stage d) = false /\ excluded_by ai invocation inv d = None.
Proof.
  unfold eligible, excluded_by.
  destruct (rollout_stage d) as [|pct|], (privacy_tier d), (cloud_consent inv), (is_locally_feasible ai d);
    try destruct (canary_sampled_in invocation (impl_id d) pct); simpl; naive_solver.
Qed.

Lemma route_loop_spec ai b w invocation inv l :
  exists considered excluded, route_loop ai b w invocation inv l = Some (considered, excluded)
  /\ considered.*1 = impl_id <$> List.filter (fun d => negb (is_shadow (rollout_stage d))
                                                       && bool_decide (excluded_by ai invocation inv d = None)) l
  /\ (forall id s, (id, s) ∈ considered -> exists d, d ∈ l /\ impl_id d = id /\ is_shadow (rollout_stage d) = false
        /\ excluded_by ai invocation inv d = None /\ score_of ai b w inv d = Some s)
  /\ (forall id why, (id, why) ∈ excluded <->
        exists d, d ∈ l /\ impl_id d = id /\ is_shadow (rollout_stage d) = false
                  /\ excluded_by ai invocation inv d = Some why).
Proof.
  induction l as [|d l (considered & excluded & Hl & Hc & Hs & He)]; simpl.
  { exists [], []. set_solver. }
  destruct (is_shadow (rollout_stage d)) eqn:Hsh; simpl.
  { exists considered, excluded. split; [done|]. split; [done|]. split; [set_solver|].
    intros id why. rewrite He. setoid_rewrite elem_of_cons. naive_solver congruence. }
  rewrite Hl. simpl. destruct (excluded_by ai invocation inv d) as [why|] eqn:Hx; simpl.
  - exists considered, ((impl_id d, why) :: excluded). split; [done|]. split; [done|]. split; [set_solver|].
    intros id why'. rewrite elem_of_cons, He. setoid_rewrite elem_of_cons. naive_solver congruence.
  - assert (Hsc : exists s, score_of ai b w inv d = Some s).
    { unfold score_of. destruct (rollout_stage d); [done|by eexists..]. }
    destruct Hsc as [s Hsc]. rewrite Hsc. simpl. exists ((impl_id d, s) :: considered), excluded.
    split; [done|]. split; [by rewrite fmap_cons, Hc|].
    split; [intros id s' [[= -> ->]|Hin]%elem_of_cons; [exists d|]; set_solver|]. intros id why. rewrite He. setoid_rewrite elem_of_cons. naive_solver congruence.
Qed.

Lemma elem_of_by_capability ops cap d :
  d ∈ by_capability (registry (router_run ops)) cap
  <-> descriptor (router_run ops) (impl_id d) = Some d /\ capability_id d = cap.
Proof.
  unfold by_capability. rewrite elem_of_test, bool_decide_eq_true, list_elem_of_fmap. split.
  - intros [([k d'] & -> & Hin) Hcap]. simpl in *. apply elem_of_hash_iter in Hin. split; [|done].
    destruct (router_run_entry ops k d' Hin) as (-> & _). done.
  - intros [Hd Hcap]. split; [|done]. exists (impl_id d, d). split; [done|]. by apply elem_of_hash_iter.
Qed.

Lemma NoDup_by_capability ops cap : NoDup (impl_id <$> by_capability (registry (router_run ops)) cap).
Proof.
  unfold by_capability.
  assert (Hids : impl_id <$> (hash_iter (registry (router_run ops))).*2 = (hash_iter (registry (router_run ops))).*1).
  { rewrite <- list_fmap_compose. apply list_fmap_ext. intros i [k d] Hin%list_elem_of_lookup_2%elem_of_hash_iter.
    simpl. by destruct (router_run_entry ops k d Hin) as (-> & _). }
  apply NoDup_fmap_filter. rewrite Hids. apply NoDup_fst_hash_iter.
Qed.

(** ** Scores are numbers *)

Lemma latency_fit_nonneg ai d budget : nonneg (latency_fit ai d budget).
Proof.
  unfold latency_fit. set (est := match local_class d with Some _ => _ | None => _ end). clearbody est.
  destruct (is_finite est) eqn:Hfin; [|done]. simpl.
  destruct (f32_leb est (f32_of_N budget)) eqn:Hle; [done|].
  pose proof (f32_of_N_nonneg budget) as Hb. set (b := f32_of_N budget) in *. clearbody b.
  destruct est as [s|[]| |[] m e]; try done; try (by destruct b as [|[]| |[]]).
  pose proof (f32_div_nonneg b m e Hb) as Hq. unfold f32_clamp. by repeat case_match.
Qed.

Lemma weights_positive u c :
  exists ml el mp ep mc ec mq eq ma ea,
    for_invocation u c = mkWeights (S754_finite false ml el) (S754_finite false mp ep) (S754_finite false mc ec)
                           (S754_finite false mq eq) (S754_finite false ma ea).
Proof. destruct u, c; vm_compute; by do 10 eexists. Qed.

(** With a cost fit and a quality that are not negative (and numbers), the score is a
    number. *)
Lemma scores_are_numbers ai b u c inv d s :
  nonneg (cost_fit d) -> nonneg (default (f32_lit 1 2) (quality_profile d !! inv_capability_id inv)) ->
  score_of ai b (for_invocation u c) inv d = Some s -> is_nan (composite s) = false.
Proof.
  intros Hc Hq. unfold score_of.
  destruct (weights_positive u c) as (ml & el & mp & ep & mc & ec & mq & eq & ma & ea & ->).
  cbn [lat priv_ w_cost qual avail]. pose proof (latency_fit_nonneg ai d (latency_budget_ms inv)) as Hl.
  set (x := latency_fit ai d _) in *. clearbody x. set (y := cost_fit d) in *. clearbody y.
  set (z := default _ _) in *. clearbody z.
  destruct (match rollout_stage d with Shadow => _ | Canary _ => _ | Ga => _ end) as [av|] eqn:Hav; [|done].
  assert (Ha : nonneg av /\ is_finite av = true) by (destruct (rollout_stage d); [done|by injection Hav as <-..]).
  simpl. intros [= <-]. cbn [composite]. apply nonneg_not_nan. repeat apply f32_add_nonneg; try by apply f32_mul_pos.
  - apply f32_mul_pos. by destruct (privacy_tier d).
  - apply f32_mul_pos. destruct (is_open b (impl_id d)); [|apply Ha]. apply f32_mul_nonneg; [apply Ha|done|apply Ha|done].
Qed.

End router.

(** ** Running it *)

Module RouterExample.

#[local] Instance two_variants : AiRuntime unit := {| estimate := fun _ _ _ _ => [f32_of_N 50; f32_of_N 200] |}.
#[local] Instance middling : DefaultHasher := {| finish := fun _ => 9223372036854775808 |}.

Definition admin : CapabilityToken := mkToken 1 0 (rights_or READ WRITE) 0 7 None.
Definition cap : list N := lit "summarise".

Definition implementation (id : ImplId) (quality : f32) : ImplementationDescriptor :=
  mkDescriptor id cap NativeBinary None Local Free {[cap := quality]} 100 Ga None.

Definition ask : CapabilityInvocation := mkInvocation cap Interactive Routine None 1000 false.

Definition chain_after (ops : list (router_op (M := unit))) : option (list ImplId) :=
  (fun p => fallback_chain p.1) <$> route (fun _ => None) tt (router_run ops) ask.

Definition two_registered : list (router_op (M := unit)) :=
  [Register 0 tt admin (implementation 1 (f32_lit 9 10)); Register 0 tt admin (implementation 2 (f32_lit 3 10))].

(** Registration alone serves nobody, whatever stage it claims; promotion does. *)
Example promotion_is_needed :
  chain_after two_registered = Some []
  /\ chain_after (two_registered ++ [SetStage 0 tt admin 1 Ga; SetStage 0 tt admin 2 Ga]) = Some [1; 2].
Proof. by vm_compute. Qed.

(** Every invocation hashes to the middle here: it is in a canary of 60 percent
    and not in one of 40. *)
Example canaries_sample :
  chain_after (two_registered ++ [SetStage 0 tt admin 1 (Canary (f32_lit 6 10)); SetStage 0 tt admin 2 (Canary (f32_lit 4 10))])
  = Some [1].
Proof. by vm_compute. Qed.

(** A breaker that is open does not move an implementation to the bottom of the
    chain: it costs it a tenth of the score at most, and here it stays first. *)
Example open_breaker_still_first :
  let ops := two_registered ++ [SetStage 0 tt admin 1 Ga; SetStage 0 tt admin 2 Ga;
                                Report 1 false; Report 1 false; Report 1 false] in
  is_open (circuit_breaker (router_run ops)) 1 = true /\ chain_after ops = Some [1; 2].
Proof. by vm_compute. Qed.

(** Free, and of a positive quality. *)
Definition free_and_rated (d : ImplementationDescriptor) : bool :=
  match cost_model d, default (f32_lit 1 2) (quality_profile d !! cap) with
  | Free, S754_finite false _ _ => true
  | _, _ => false
  end.


(** A quality that is not a number: the order is whatever the library makes of it. *)
Example score_that_is_no_number :
  let ops := [Register 0 tt admin (implementation 1 S754_nan); SetStage 0 tt admin 1 Ga] in
  chain_after ops = None.
Proof. by vm_compute. Qed.

End RouterExample.
