(* ===== verification/Scheduler.v ===== *)
(** The resource scheduler: [crates/hyperion-scheduler/src/{types,ledger,owner,scheduler}.rs].

    Tasks ask for amounts of nine resources. An epoch first serves real-time tasks
    by deadline, then the others in the order of their owner's dominant share; one
    that does not fit is tried at a cheaper implementation of its capability, then
    on another device, and else waits for the next epoch with a higher weight. The
    device that takes offloaded work is outside this crate: a function that says
    what came of each attempt. *)
From S2P Require Import Prelude Capability Authority DebugFmt F32 F32Facts ModelRouter.
Open Scope N_scope.

(** ** types.rs *)

Record ResourceVector := mkVector {
  cpu_shares : N;
  ram_mb : N;
  gpu_shares : N;
  vram_mb : N;
  storage_iops : N;
  network_bw_kbps : N;
  inference_tokens_per_sec : N;
  context_window_slots : N;
  battery_budget_mw : N
}.

Definition no_resources : ResourceVector := mkVector 0 0 0 0 0 0 0 0 0.

Inductive ResourceDimension : Type :=
| Cpu | Ram | Gpu | Vram | StorageIops | NetworkBw | InferenceTokens | ContextWindowSlots | Battery.

Definition ALL : list ResourceDimension :=
  [Cpu; Ram; Gpu; Vram; StorageIops; NetworkBw; InferenceTokens; ContextWindowSlots; Battery].

#[export] Instance dimension_eq_dec : EqDecision ResourceDimension.
Proof. solve_decision. Defined.

#[export] Instance dimension_countable : Countable ResourceDimension.
Proof.
  refine (inj_countable'
    (fun d => match d with Cpu => 0 | Ram => 1 | Gpu => 2 | Vram => 3 | StorageIops => 4 | NetworkBw => 5
              | InferenceTokens => 6 | ContextWindowSlots => 7 | Battery => 8 end)
    (fun n => match n with 0 => Cpu | 1 => Ram | 2 => Gpu | 3 => Vram | 4 => StorageIops | 5 => NetworkBw
              | 6 => InferenceTokens | 7 => ContextWindowSlots | _ => Battery end) _).
  by intros [].
Defined.

Definition get (v : ResourceVector) (d : ResourceDimension) : N :=
  match d with
  | Cpu => cpu_shares v
  | Ram => ram_mb v
  | Gpu => gpu_shares v
  | Vram => vram_mb v
  | StorageIops => storage_iops v
  | NetworkBw => network_bw_kbps v
  | InferenceTokens => inference_tokens_per_sec v
  | ContextWindowSlots => context_window_slots v
  | Battery => battery_budget_mw v
  end.

Definition set (v : ResourceVector) (d : ResourceDimension) (x : N) : ResourceVector :=
  let '(mkVector a b c e f g h i j) := v in
  match d with
  | Cpu => mkVector x b c e f g h i j
  | Ram => mkVector a x c e f g h i j
  | Gpu => mkVector a b x e f g h i j
  | Vram => mkVector a b c x f g h i j
  | StorageIops => mkVector a b c e x g h i j
  | NetworkBw => mkVector a b c e f x h i j
  | InferenceTokens => mkVector a b c e f g x i j
  | ContextWindowSlots => mkVector a b c e f g h x j
  | Battery => mkVector a b c e f g h i x
  end.

Definition iter_dimensions (v : ResourceVector) : list (ResourceDimension * N) := (fun d => (d, get v d)) <$> ALL.

Definition saturating_add_assign (v other : ResourceVector) : ResourceVector :=
  fold_left (fun v '(d, x) => set v d (u32_saturating_add (get v d) x)) (iter_dimensions other) v.

Definition saturating_sub_assign (v other : ResourceVector) : ResourceVector :=
  fold_left (fun v '(d, x) => set v d (get v d - x)) (iter_dimensions other) v.

Inductive SchedClass : Type := RealTimeUI | InteractiveAgent | BackgroundAgent | BatchDistributable.

#[export] Instance sched_class_eq_dec : EqDecision SchedClass.
Proof. solve_decision. Defined.

Inductive OwnerId : Type :=
| AgentOwner (id : N)
| IntentOwner (id : N).

#[export] Instance owner_id_eq_dec : EqDecision OwnerId.
Proof. solve_decision. Defined.

#[export] Instance owner_id_countable : Countable OwnerId.
Proof.
  refine (inj_countable' (fun o => match o with AgentOwner i => inl i | IntentOwner i => inr i end)
            (fun o => match o with inl i => AgentOwner i | inr i => IntentOwner i end) _).
  by intros [].
Defined.

Abbreviation Ticket := N (only parsing).

(** ** ledger.rs, owner.rs *)

Record ResourceLedger := mkLedger {
  dimension : ResourceDimension;
  capacity : N;
  reserved_for_realtime : N;
  allocated : N;
  epoch : N
}.

Definition new_ledger (d : ResourceDimension) (cap reserved : N) : ResourceLedger :=
  mkLedger d cap (N.min reserved cap) 0 0.

Definition with_allocated (l : ResourceLedger) (x : N) : ResourceLedger :=
  mkLedger (dimension l) (capacity l) (reserved_for_realtime l) x (epoch l).

Definition headroom (l : ResourceLedger) (use_reserved : bool) : N :=
  if use_reserved then capacity l else capacity l - reserved_for_realtime l.

(** [OwnerAccount] is what its owner holds. *)
Abbreviation OwnerAccount := ResourceVector (only parsing).

Record LoadSignal := mkSignal {
  utilization_ewma : f64;
  battery_drain_rate : f64;
  thermal_headroom : f64
}.

Inductive SchedError : Type := Unauthorized | NoSuchTicket.

(** ** Vectors, dimension by dimension *)

Lemma get_saturating_add v w d : get (saturating_add_assign v w) d = u32_saturating_add (get v d) (get w d).
Proof. by destruct v, w, d. Qed.

Lemma get_saturating_sub v w d : get (saturating_sub_assign v w) d = get v d - get w d.
Proof. by destruct v, w, d. Qed.

Lemma get_no_resources d : get no_resources d = 0.
Proof. by destruct d. Qed.

Lemma elem_of_ALL d : d ∈ ALL.
Proof. destruct d; unfold ALL; set_solver. Qed.

Lemma elem_of_dimensions v d x : (d, x) ∈ iter_dimensions v <-> x = get v d.
Proof.
  unfold iter_dimensions. rewrite list_elem_of_fmap. split; [by intros (d' & [= <- ->] & _)|].
  intros ->. exists d. split; [done|apply elem_of_ALL].
Qed.

Section scheduler.
Context {M Value : Type} `{Authority M} `{HashIter}.

Record TaskDescriptor := mkTask {
  task_id : N;
  owner_intent : N;
  owner_agent : option N;
  class : SchedClass;
  deadline : option Instant;
  priority_weight : f32;
  request : ResourceVector;
  cap_token : CapabilityToken;
  capability_ref : option (list N);
  args : Value
}.

Definition owner_of (t : TaskDescriptor) : OwnerId :=
  match owner_agent t with Some a => AgentOwner a | None => IntentOwner (owner_intent t) end.

(** ** scheduler.rs *)

Definition AGING_STEP : f32 := f32_lit 5 100.

Record Allocation := mkAllocation {
  alloc_owner : OwnerId;
  vector : ResourceVector
}.

Record SchedulingRationale := mkVerdict {
  ticket : Ticket;
  is_admitted : bool;
  note : list N;
  offload_result : option Value
}.

Record Scheduler := mkScheduler {
  ledgers : gmap ResourceDimension ResourceLedger;
  owners : gmap OwnerId OwnerAccount;
  realtime_ready : list TaskDescriptor;
  other_ready : list TaskDescriptor;
  allocations : gmap N Allocation;
  verdicts : gmap N SchedulingRationale;
  load_signal : option LoadSignal
}.

Definition new : Scheduler := mkScheduler ∅ ∅ [] [] ∅ ∅ None.

(** What else an epoch can turn to: the router's state, if one is wired, and the
    device that takes work, if one is; the number tells its calls apart. *)
Record Surroundings := mkSurroundings {
  model_router : option ModelRouter;
  offload_trigger : option (nat -> TaskDescriptor -> option Value)
}.

Definition with_queues (s : Scheduler) (rt other : list TaskDescriptor) : Scheduler :=
  mkScheduler (ledgers s) (owners s) rt other (allocations s) (verdicts s) (load_signal s).

Definition register_resource_provider (s : Scheduler) (l : ResourceLedger) : Scheduler :=
  mkScheduler (<[dimension l := l]> (ledgers s)) (owners s) (realtime_ready s) (other_ready s) (allocations s)
    (verdicts s) (load_signal s).

Definition submit_task (now : Instant) (m : M) (s : Scheduler) (t : TaskDescriptor) : Result Ticket SchedError * Scheduler :=
  match authorize now m (cap_token t) EXEC with
  | Err _ => (Err Unauthorized, s)
  | Ok _ =>
      (Ok (task_id t),
       match class t with
       | RealTimeUI => with_queues s (realtime_ready s ++ [t]) (other_ready s)
       | _ => with_queues s (realtime_ready s) (other_ready s ++ [t])
       end)
  end.

(** The loops of [release] and [admit] over a vector's dimensions; one without a
    ledger is skipped. *)
Definition release_ledgers (ls : gmap ResourceDimension ResourceLedger) (v : ResourceVector) :
    gmap ResourceDimension ResourceLedger :=
  fold_left (fun ls '(d, x) =>
      match ls !! d with Some l => <[d := with_allocated l (allocated l - x)]> ls | None => ls end)
    (iter_dimensions v) ls.

Definition charge_ledgers (ls : gmap ResourceDimension ResourceLedger) (v : ResourceVector) :
    gmap ResourceDimension ResourceLedger :=
  fold_left (fun ls '(d, x) =>
      match ls !! d with Some l => <[d := with_allocated l (u32_saturating_add (allocated l) x)]> ls | None => ls end)
    (iter_dimensions v) ls.

Definition release (s : Scheduler) (a : Allocation) : Scheduler :=
  mkScheduler (release_ledgers (ledgers s) (vector a))
    (match owners s !! alloc_owner a with
     | Some held => <[alloc_owner a := saturating_sub_assign held (vector a)]> (owners s)
     | None => owners s
     end)
    (realtime_ready s) (other_ready s) (allocations s) (verdicts s) (load_signal s).

Definition without_allocation (s : Scheduler) (id : Ticket) : Scheduler :=
  mkScheduler (ledgers s) (owners s) (realtime_ready s) (other_ready s) (delete id (allocations s)) (verdicts s)
    (load_signal s).

Definition remove_by_id (q : list TaskDescriptor) (id : Ticket) : bool * list TaskDescriptor :=
  let q' := List.filter (fun t => negb (task_id t =? id)) q in
  (negb (length q' =? length q)%nat, q').

Definition cancel (s : Scheduler) (id : Ticket) : Result unit SchedError * Scheduler :=
  match allocations s !! id with
  | Some a => (Ok tt, release (without_allocation s id) a)
  | None =>
      let '(removed, rt) := remove_by_id (realtime_ready s) id in
      if removed then (Ok tt, with_queues s rt (other_ready s))
      else
        let '(removed, other) := remove_by_id (other_ready s) id in
        if removed then (Ok tt, with_queues s rt other) else (Err NoSuchTicket, with_queues s rt other)
  end.

Definition query_ledger (s : Scheduler) (d : ResourceDimension) : option ResourceLedger := ledgers s !! d.

Definition update_load_signal (s : Scheduler) (l : LoadSignal) : Scheduler :=
  mkScheduler (ledgers s) (owners s) (realtime_ready s) (other_ready s) (allocations s) (verdicts s) (Some l).

Definition current_load_signal (s : Scheduler) : option LoadSignal := load_signal s.

Definition explain (s : Scheduler) (id : Ticket) : option SchedulingRationale := verdicts s !! id.

Definition complete (s : Scheduler) (id : Ticket) : Result unit SchedError * Scheduler :=
  match allocations s !! id with
  | None => (Err NoSuchTicket, s)
  | Some a => (Ok tt, release (without_allocation s id) a)
  end.

Definition fits (v : ResourceVector) (ls : gmap ResourceDimension ResourceLedger) (use_reserved : bool) : bool :=
  forallb (fun '(d, want) =>
      if want =? 0 then true
      else match ls !! d with
           | None => false
           | Some l => negb (headroom l use_reserved <? u32_saturating_add (allocated l) want)
           end) (iter_dimensions v).

Definition try_admit (t : TaskDescriptor) (ls : gmap ResourceDimension ResourceLedger) (use_reserved : bool) :
    option ResourceVector :=
  if fits (request t) ls use_reserved then Some (request t) else None.

Definition from_declared_cost (c : ResourceCost) : ResourceVector :=
  mkVector (ModelRouter.cpu_shares c) (ModelRouter.ram_mb c) (ModelRouter.gpu_shares c) (ModelRouter.vram_mb c)
    (ModelRouter.storage_iops c) (ModelRouter.network_bw_kbps c) (ModelRouter.inference_tokens_per_sec c)
    (ModelRouter.context_window_slots c) (ModelRouter.battery_budget_mw c).

Definition total_footprint (v : ResourceVector) : N := foldr N.add 0 (iter_dimensions v).*2.

Definition try_degrade (env : Surroundings) (s : Scheduler) (t : TaskDescriptor) : option (ImplId * ResourceVector) :=
  r ← model_router env;
  cap ← capability_ref t;
  List.find (fun '(_, v) => fits v (ledgers s) false)
    (sort_by_key (fun p => total_footprint p.2)
       ((fun '(id, c) => (id, from_declared_cost c)) <$> declared_costs r cap)).

Definition try_offload (env : Surroundings) (call : nat) (t : TaskDescriptor) : option Value :=
  if bool_decide (class t <> BatchDistributable) then None
  else _ ← capability_ref t; trigger ← offload_trigger env; trigger call t.

Definition record_verdict (s : Scheduler) (v : SchedulingRationale) : Scheduler :=
  mkScheduler (ledgers s) (owners s) (realtime_ready s) (other_ready s) (allocations s)
    (<[ticket v := v]> (verdicts s)) (load_signal s).

Definition admit_task (s : Scheduler) (t : TaskDescriptor) (v : ResourceVector) (why : list N) :
    SchedulingRationale * Scheduler :=
  let verdict := mkVerdict (task_id t) true why None in
  let held := default no_resources (owners s !! owner_of t) in
  (verdict,
   record_verdict
     (mkScheduler (charge_ledgers (ledgers s) v) (<[owner_of t := saturating_add_assign held v]> (owners s))
        (realtime_ready s) (other_ready s) (<[task_id t := mkAllocation (owner_of t) v]> (allocations s))
        (verdicts s) (load_signal s))
     verdict).

Definition miss_realtime_deadline (s : Scheduler) (t : TaskDescriptor) : SchedulingRationale * Scheduler :=
  let verdict := mkVerdict (task_id t) false (lit "missed real-time deadline: reserved headroom insufficient") None in
  (verdict, record_verdict s verdict).

Definition dominant_share (s : Scheduler) (t : TaskDescriptor) : f32 :=
  let held := owners s !! owner_of t in
  f32_mul
    (fold_left f32_max
       ((fun '(d, want) =>
           let already := match held with Some h => get h d | None => 0 end in
           let cap := N.max (match ledgers s !! d with Some l => capacity l | None => 1 end) 1 in
           f32_div (f32_of_N (u32_saturating_add already want)) (f32_of_N cap)) <$> iter_dimensions (request t))
       f32_zero)
    (f32_div f32_one (f32_max (priority_weight t) (f32_lit 1 100))).

(** [sort_by] on the shares: [expect] panics at a comparison with a NaN, and
    sorting more than one element compares each of them. *)
Definition sort_by_share (s : Scheduler) (l : list TaskDescriptor) : option (list TaskDescriptor) :=
  match l with
  | _ :: _ :: _ => if existsb (fun t => is_nan (dominant_share s t)) l then None else Some (sort_asc (dominant_share s) l)
  | _ => Some l
  end.

Definition aged (t : TaskDescriptor) : TaskDescriptor :=
  mkTask (task_id t) (owner_intent t) (owner_agent t) (class t) (deadline t) (f32_add (priority_weight t) AGING_STEP)
    (request t) (cap_token t) (capability_ref t) (args t).

(** What is decided about one candidate that is not real-time. *)
Definition decide_task (env : Surroundings) (call : nat) (s : Scheduler) (t : TaskDescriptor) :
    SchedulingRationale * Scheduler :=
  match try_admit t (ledgers s) false with
  | Some v => admit_task s t v (lit "admitted")
  | None =>
      match try_degrade env s t with
      | Some (id, v) =>
          admit_task s t v (lit "did not fit at its own declared request; admitted at cheaper registered implementation "
                            ++ debug_u64 id ++ lit " instead")
      | None =>
          match try_offload env call t with
          | Some result =>
              let verdict := mkVerdict (task_id t) true
                (lit "did not fit locally; completed via real federation offload to a peer device") (Some result) in
              (verdict, record_verdict s verdict)
          | None =>
              let verdict := mkVerdict (task_id t) false (lit "did not fit this epoch; aged and requeued") None in
              let s := record_verdict s verdict in
              (verdict, with_queues s (realtime_ready s) (other_ready s ++ [aged t]))
          end
      end
  end.

(** The loop over the candidates; [fuel] is their number. *)
Fixpoint drf_loop (env : Surroundings) (fuel : nat) (s : Scheduler) (candidates : list TaskDescriptor) :
    option (list SchedulingRationale * Scheduler) :=
  match fuel with
  | O => Some ([], s)
  | S fuel =>
      candidates ← sort_by_share s candidates;
      match candidates with
      | [] => Some ([], s)
      | t :: candidates =>
          let '(verdict, s) := decide_task env fuel s t in
          '(report, s) ← drf_loop env fuel s candidates;
          Some (verdict :: report, s)
      end
  end.

Fixpoint realtime_loop (s : Scheduler) (l : list TaskDescriptor) : list SchedulingRationale * Scheduler :=
  match l with
  | [] => ([], s)
  | t :: l =>
      let '(verdict, s) := match try_admit t (ledgers s) true with
                           | Some v => admit_task s t v (lit "admitted")
                           | None => miss_realtime_deadline s t
                           end in
      let '(report, s) := realtime_loop s l in
      (verdict :: report, s)
  end.

(** A hundred years of nanoseconds. *)
Definition never (now : Instant) : Instant := now + 100 * 365 * 24 * 3600 * 1000000000.

(** [now] is the clock at this call. *)
Definition deadline_key (now : Instant) (t : TaskDescriptor) : Instant := default (never now) (deadline t).

Definition has_deadline (t : TaskDescriptor) : bool := bool_decide (is_Some (deadline t)).

(** [realtime.sort_by_key(deadline_key)]. The key of a task without a deadline reads the
    clock again at every comparison, so that the keys need not be ordered, and the
    standard library may then panic or leave the list in any order: [unspecified] is
    what it does. With deadlines throughout, no clock is read. *)
Definition sort_realtime (unspecified : list TaskDescriptor -> option (list TaskDescriptor)) (l : list TaskDescriptor) :
    option (list TaskDescriptor) :=
  if forallb has_deadline l then Some (sort_by_key (deadline_key 0) l) else unspecified l.

(** [None] is a panic. *)
Definition schedule_epoch (unspecified : list TaskDescriptor -> option (list TaskDescriptor)) (env : Surroundings)
    (s : Scheduler) : option (list SchedulingRationale * Scheduler) :=
  realtime ← sort_realtime unspecified (realtime_ready s);
  let '(report1, s) := realtime_loop (with_queues s [] (other_ready s)) realtime in
  let candidates := other_ready s in
  '(report2, s) ← drf_loop env (length candidates) (with_queues s (realtime_ready s) []) candidates;
  Some (report1 ++ report2, s).

(** ** Ledgers *)

(** A loop that changes the ledger of each dimension it comes to. *)
Lemma fold_ledgers (f : ResourceLedger -> N -> N) (v : ResourceVector) ls d :
  fold_left (fun ls '(d, x) =>
      match ls !! d with Some l => <[d := with_allocated l (f l x)]> ls | None => ls end) (iter_dimensions v) ls !! d
  = (fun l => with_allocated l (f l (get v d))) <$> (ls : gmap ResourceDimension ResourceLedger) !! d.
Proof.
  assert (Hgen : forall dims ls, NoDup dims ->
    fold_left (fun ls '(d, x) =>
      match ls !! d with Some l => <[d := with_allocated l (f l x)]> ls | None => ls end)
      ((fun d => (d, get v d)) <$> dims) ls !! d
    = (if bool_decide (d ∈ dims) then (fun l => with_allocated l (f l (get v d))) <$> ls !! d
       else (ls : gmap ResourceDimension ResourceLedger) !! d)).
  { induction dims as [|d' dims IH]; intros ls' Hnd; [done|]. cbn [fmap list_fmap fold_left].
    apply NoDup_cons in Hnd as [Hd' Hnd]. rewrite IH by done. by_cases (d = d') as Hd.
    - subst d'. rewrite bool_decide_false by done. rewrite bool_decide_true by left.
      destruct (ls' !! d) eqn:Hl; simpl; [by rewrite lookup_insert_eq|done].
    - rewrite (bool_decide_ext (d ∈ d' :: dims) (d ∈ dims)) by (rewrite elem_of_cons; naive_solver).
      destruct (ls' !! d'); [by rewrite lookup_insert_ne by done|done]. }
  unfold iter_dimensions. rewrite Hgen by (unfold ALL; repeat (constructor; [set_solver|]); constructor).
  by rewrite bool_decide_true by apply elem_of_ALL.
Qed.

Lemma lookup_charge ls v d :
  charge_ledgers ls v !! d = (fun l => with_allocated l (u32_saturating_add (allocated l) (get v d))) <$> ls !! d.
Proof. apply (fold_ledgers (fun l x => u32_saturating_add (allocated l) x)). Qed.

Lemma lookup_release ls v d :
  release_ledgers ls v !! d = (fun l => with_allocated l (allocated l - get v d)) <$> ls !! d.
Proof. apply (fold_ledgers (fun l x => allocated l - x)). Qed.

Lemma fits_spec v ls b :
  fits v ls b = true <->
  forall d, 0 < get v d -> exists l, ls !! d = Some l /\ u32_saturating_add (allocated l) (get v d) <= headroom l b.
Proof.
  unfold fits. rewrite forallb_forall. split.
  - intros Hall d Hd. specialize (Hall (d, get v d)). rewrite <- list_elem_of_In, elem_of_dimensions in Hall.
    specialize (Hall eq_refl). simpl in Hall. destruct (N.eqb_spec (get v d) 0); [lia|].
    destruct (ls !! d) as [l|]; [|done]. exists l. split; [done|]. apply negb_true_iff, N.ltb_ge in Hall. done.
  - intros Hall [d x] Hin. rewrite <- list_elem_of_In, elem_of_dimensions in Hin. subst x.
    destruct (N.eqb_spec (get v d) 0); [done|]. destruct (Hall d) as (l & -> & Hle); [lia|].
    apply negb_true_iff, N.ltb_ge. done.
Qed.

(** Within an epoch ledgers only fill up. *)
Definition fuller (ls ls' : gmap ResourceDimension ResourceLedger) : Prop :=
  forall d, match ls !! d, ls' !! d with
            | Some l, Some l' => capacity l' = capacity l /\ reserved_for_realtime l' = reserved_for_realtime l
                                 /\ (allocated l <= allocated l' \/ U32_MAX <= allocated l')
            | None, None => True
            | _, _ => False
            end.

#[local] Instance fuller_preorder : PreOrder fuller.
Proof.
  split.
  - intros ls d. destruct (ls !! d); [|done]. split_and!; [done..|by left].
  - intros ls1 ls2 ls3 H12 H23 d. specialize (H12 d). specialize (H23 d).
    destruct (ls1 !! d), (ls2 !! d), (ls3 !! d); try done.
    destruct H12 as (? & ? & ?), H23 as (? & ? & ?). split_and!; [congruence..|lia].
Qed.

Lemma fuller_charge ls v : fuller ls (charge_ledgers ls v).
Proof.
  intros d. rewrite lookup_charge. destruct (ls !! d); simpl; [|done]. split_and!; [done..|].
  unfold u32_saturating_add. lia.
Qed.

(** What does not fit will not fit later in the epoch. *)
Lemma unfit_fuller v ls ls' b : fuller ls ls' -> fits v ls b = false -> fits v ls' b = false.
Proof.
  intros Hf. rewrite <- !not_true_iff_false, !fits_spec. intros Hno Hfit. apply Hno. intros d Hd.
  destruct (Hfit d Hd) as (l' & Hl' & Hle). specialize (Hf d). rewrite Hl' in Hf.
  destruct (ls !! d) as [l|]; [|done]. exists l. split; [done|]. destruct Hf as (Hc & Hr & Ha).
  assert (Hh : headroom l b = headroom l' b) by (unfold headroom; by rewrite Hc, Hr). rewrite Hh.
  unfold u32_saturating_add in *. lia.
Qed.

(** ** Shares are numbers *)

Lemma dominant_share_not_nan s t :
  (forall d l, ledgers s !! d = Some l -> capacity l <= U32_MAX) -> is_nan (dominant_share s t) = false.
Proof.
  intros Hcap. unfold dominant_share. apply f32_mul_not_nan; [|apply weight_inverse_finite].
  apply fold_max_finite; [done|]. apply Forall_fmap, Forall_forall. intros [d want] _. simpl.
  apply u32_ratio_finite; [unfold u32_saturating_add; lia|].
  destruct (ledgers s !! d) as [l|] eqn:Hl; [apply Hcap in Hl|]; unfold U32_MAX in *; lia.
Qed.

(** ** Epochs *)

(** Dispatch as a rule: whoever is decided next has no larger share, as things
    stand then, than anyone still undecided. *)
Inductive drf_run (env : Surroundings) :
    Scheduler -> list TaskDescriptor -> list SchedulingRationale -> Scheduler -> Prop :=
| drf_done s : drf_run env s [] [] s
| drf_next s t rest candidates verdict s1 report s2 :
    candidates ≡ₚ t :: rest ->
    (forall t', t' ∈ rest -> f32_ltb (dominant_share s t') (dominant_share s t) = false) ->
    decide_task env (length rest) s t = (verdict, s1) ->
    drf_run env s1 rest report s2 ->
    drf_run env s candidates (verdict :: report) s2.

Definition capacities_ok (s : Scheduler) : Prop := forall d l, ledgers s !! d = Some l -> capacity l <= U32_MAX.

Lemma fuller_capacities s s' : capacities_ok s -> fuller (ledgers s) (ledgers s') -> capacities_ok s'.
Proof.
  intros Hok Hf d l' Hl'. specialize (Hf d). rewrite Hl' in Hf. destruct (ledgers s !! d) as [l|] eqn:Hl; [|done].
  destruct Hf as (-> & _). by eapply Hok.
Qed.

(** No cheaper implementation that is registered fits either. *)
Definition nothing_fits (env : Surroundings) (ls : gmap ResourceDimension ResourceLedger) (t : TaskDescriptor) : Prop :=
  fits (request t) ls false = false
  /\ forall r cap id c, model_router env = Some r -> capability_ref t = Some cap -> (id, c) ∈ declared_costs r cap ->
       fits (from_declared_cost c) ls false = false.

Lemma nothing_fits_fuller env ls ls' t : fuller ls ls' -> nothing_fits env ls t -> nothing_fits env ls' t.
Proof. intros Hf [H1 H2]. split; [by eapply unfit_fuller|]. intros. eapply unfit_fuller; [done|]. by eapply H2. Qed.

Lemma try_degrade_None env s t :
  try_degrade env s t = None ->
  forall r cap id c, model_router env = Some r -> capability_ref t = Some cap -> (id, c) ∈ declared_costs r cap ->
    fits (from_declared_cost c) (ledgers s) false = false.
Proof.
  unfold try_degrade. intros Hd r cap id c Hr Hcap Hin. rewrite Hr, Hcap in Hd. simpl in Hd.
  assert (Hx : (id, from_declared_cost c)
            ∈ sort_by_key (fun p => total_footprint p.2)
                ((fun '(id, c) => (id, from_declared_cost c)) <$> declared_costs r cap)).
  { rewrite sort_by_key_perm, list_elem_of_fmap. by exists (id, c). }
  rewrite list_elem_of_In in Hx. apply (List.find_none _ _ Hd _ Hx).
Qed.

(** One decision: its verdict, and what waits afterwards. *)
Lemma decide_task_spec env call s t verdict s' :
  decide_task env call s t = (verdict, s') ->
  ticket verdict = task_id t /\ fuller (ledgers s) (ledgers s') /\ realtime_ready s' = realtime_ready s
  /\ if is_admitted verdict then other_ready s' = other_ready s
     else other_ready s' = other_ready s ++ [aged t] /\ nothing_fits env (ledgers s') t.
Proof.
  unfold decide_task, try_admit. destruct (fits (request t) (ledgers s) false) eqn:Hfit.
  { intros [= <- <-]. split; [done|]. split; [apply fuller_charge|done]. }
  destruct (try_degrade env s t) as [[id v]|] eqn:Hd.
  { intros [= <- <-]. split; [done|]. split; [apply fuller_charge|done]. }
  destruct (try_offload env call t); intros [= <- <-]; (split; [done|]); (split; [reflexivity|]); [done|].
  split; [done|]. split; [done|]. split; [done|]. simpl. by apply try_degrade_None.
Qed.

Lemma sort_by_share_spec s l :
  capacities_ok s ->
  exists l', sort_by_share s l = Some l' /\ l' ≡ₚ l
             /\ StronglySorted (fun t t' => f32_ltb (dominant_share s t') (dominant_share s t) = false) l'.
Proof.
  intros Hok. unfold sort_by_share. destruct l as [|t [|t' l]].
  - exists []. repeat constructor.
  - exists [t]. repeat constructor.
  - assert (Hn : forall t, is_nan (dominant_share s t) = false) by (intros; by apply dominant_share_not_nan).
    assert (He : existsb (fun t => is_nan (dominant_share s t)) (t :: t' :: l) = false).
    { apply not_true_iff_false. rewrite existsb_exists. intros (x & _ & Hx). by rewrite Hn in Hx. }
    rewrite He. eexists. split; [done|]. split; [apply sort_asc_perm|]. apply sort_asc_sorted, Forall_forall. auto.
Qed.

Lemma drf_loop_run env s candidates :
  capacities_ok s ->
  exists report s', drf_loop env (length candidates) s candidates = Some (report, s')
                    /\ drf_run env s candidates report s'.
Proof.
  remember (length candidates) as n eqn:Hn. revert s candidates Hn.
  induction n as [|n IH]; intros s candidates Hn Hok; simpl.
  { exists [], s. split; [done|]. destruct candidates; [constructor|done]. }
  destruct (sort_by_share_spec s candidates Hok) as (l & -> & Hp & Hs). simpl.
  destruct l as [|t rest]; [by apply Permutation_nil in Hp; subst|].
  assert (Hlen : length rest = n) by (apply Permutation_length in Hp; simpl in Hp; lia).
  destruct (decide_task env n s t) as [verdict s1] eqn:Hd.
  destruct (decide_task_spec _ _ _ _ _ _ Hd) as (_ & Hf & _).
  destruct (IH s1 rest (eq_sym Hlen)) as (report & s' & -> & Hrun); [by eapply fuller_capacities|].
  exists (verdict :: report), s'. split; [done|]. apply StronglySorted_inv in Hs as [_ Hall]. rewrite Forall_forall in Hall.
  eapply (drf_next env s t rest); [by symmetry|done|by rewrite Hlen|done].
Qed.

(** What a run comes to: everyone gets a verdict, and whoever waits cannot be
    served by what is left. *)
Lemma drf_run_spec env s candidates report s' :
  drf_run env s candidates report s' ->
  ticket <$> report ≡ₚ task_id <$> candidates /\ fuller (ledgers s) (ledgers s')
  /\ realtime_ready s' = realtime_ready s
  /\ exists waiting, other_ready s' = other_ready s ++ (aged <$> waiting)
     /\ task_id <$> waiting = ticket <$> List.filter (fun v => negb (is_admitted v)) report
     /\ (forall t, t ∈ waiting -> t ∈ candidates /\ nothing_fits env (ledgers s') t).
Proof.
  induction 1 as [s|s t rest candidates verdict s1 report s2 Hp Hmin Hd Hrun (Ht & Hf & Hrt & waiting & Hw & Hids & Hin)].
  { split; [done|]. split; [reflexivity|]. split; [done|]. exists []. split; [by rewrite app_nil_r|].
    split; [done|]. intros t Hin. by apply elem_of_nil in Hin. }
  destruct (decide_task_spec _ _ _ _ _ _ Hd) as (Htk & Hf1 & Hrt1 & Hcase).
  split; [rewrite fmap_cons, Htk, Hp, fmap_cons; by constructor|]. split; [by etrans|]. split; [congruence|].
  destruct (is_admitted verdict) eqn:Hadm; simpl; rewrite Hadm; simpl.
  - exists waiting. rewrite Hw, Hcase. split; [done|]. split; [done|]. intros t' [H1 H2]%Hin. split; [|done].
    rewrite Hp. by right.
  - destruct Hcase as [Hq Hnf]. exists (t :: waiting). rewrite Hw, Hq, <- app_assoc. split; [done|].
    split; [by rewrite fmap_cons, Htk, Hids|]. intros t' [->|Ht']%elem_of_cons.
    + split; [rewrite Hp; by left|by eapply nothing_fits_fuller].
    + destruct (Hin t' Ht') as [H1 H2]. split; [|done]. rewrite Hp. by right.
Qed.

Lemma realtime_loop_spec s l report s' :
  realtime_loop s l = (report, s') ->
  ticket <$> report = task_id <$> l /\ fuller (ledgers s) (ledgers s')
  /\ realtime_ready s' = realtime_ready s /\ other_ready s' = other_ready s
  /\ Forall2 (fun t v => is_admitted v = false -> fits (request t) (ledgers s') true = false) l report.
Proof.
  revert s report s'. induction l as [|t l IH]; intros s report s'; simpl.
  { intros [= <- <-]. split; [done|]. split; [reflexivity|]. split; [done|]. split; [done|constructor]. }
  unfold try_admit. destruct (fits (request t) (ledgers s) true) eqn:Hfit; simpl.
  - destruct (realtime_loop _ l) as [rep s2] eqn:Hl. intros [= <- <-].
    destruct (IH _ _ _ Hl) as (Ht & Hf & Hrt & Ho & Hall). simpl in *.
    split; [by f_equal|]. split; [etrans; [apply fuller_charge|done]|]. split; [done|]. split; [done|].
    by constructor.
  - destruct (realtime_loop _ l) as [rep s2] eqn:Hl. intros [= <- <-].
    destruct (IH _ _ _ Hl) as (Ht & Hf & Hrt & Ho & Hall). simpl in *.
    split; [by f_equal|]. split; [done|]. split; [done|]. split; [done|].
    constructor; [|done]. intros _. by eapply unfit_fuller.
Qed.

(** An epoch is its two phases. *)
Lemma schedule_epoch_phases unspecified env s realtime :
  capacities_ok s -> sort_realtime unspecified (realtime_ready s) = Some realtime ->
  exists report1 s0 report2 s', schedule_epoch unspecified env s = Some (report1 ++ report2, s')
  /\ realtime_loop (with_queues s [] (other_ready s)) realtime = (report1, s0)
  /\ drf_run env (with_queues s0 (realtime_ready s0) []) (other_ready s0) report2 s'.
Proof.
  intros Hcap Hsort. unfold schedule_epoch. rewrite Hsort. simpl. destruct (realtime_loop _ realtime) as [report1 s0] eqn:Hrt.
  destruct (realtime_loop_spec _ _ _ _ Hrt) as (_ & Hf & _).
  destruct (drf_loop_run env (with_queues s0 (realtime_ready s0) []) (other_ready s0)) as (report2 & s' & -> & Hrun).
  { by eapply (fuller_capacities s). }
  by exists report1, s0, report2, s'.
Qed.

Lemma sort_by_deadline l :
  (forall t, t ∈ l -> is_Some (deadline t)) ->
  StronglySorted (key_le (fun t => default 0 (deadline t))) (sort_by_key (deadline_key 0) l).
Proof.
  intros Hl. pose proof (sort_by_key_sorted (deadline_key 0) l) as Hs.
  assert (Hall : Forall (fun t => is_Some (deadline t)) (sort_by_key (deadline_key 0) l))
    by (rewrite sort_by_key_perm; by apply Forall_forall).
  induction Hs as [|t l' Hs IH Hle]; [constructor|]. apply Forall_cons in Hall as [[x Hx] Hall].
  constructor; [by apply IH|]. rewrite Forall_forall in Hle, Hall |- *. intros t' Ht'. specialize (Hle t' Ht').
  destruct (Hall t' Ht') as [x' Hx']. unfold key_le, deadline_key in *. by rewrite Hx, Hx' in *.
Qed.

Lemma sort_realtime_deadlines unspecified l :
  (forall t, t ∈ l -> is_Some (deadline t)) -> sort_realtime unspecified l = Some (sort_by_key (deadline_key 0) l).
Proof.
  intros Hl. unfold sort_realtime. rewrite (proj2 (forallb_forall _ _)); [done|].
  intros t Ht%list_elem_of_In. by apply bool_decide_eq_true, Hl.
Qed.

(** C17. An epoch. With capacities that fit their type, and a deadline for every
    real-time task that is ready (as the class requires), it never panics and always
    ends. Every task that was ready gets exactly one verdict, the real-time ones in
    the order of their deadlines, the others by dominant fairness: whoever is
    decided next has no larger share, as things stand then, than anyone undecided.
    No real-time task stays in the queue, and one that is refused would not fit
    what is left either. Those still waiting are exactly the others that were
    refused, each with more weight, and the epoch was work-conserving: neither
    their request nor any cheaper implementation registered fits what is left. *)
Theorem epoch_spec unspecified env s :
  (forall d l, ledgers s !! d = Some l -> capacity l <= U32_MAX) ->
  (forall t, t ∈ realtime_ready s -> is_Some (deadline t)) ->
  exists realtime report1 report2 s1 s', schedule_epoch unspecified env s = Some (report1 ++ report2, s')
  /\ realtime ≡ₚ realtime_ready s /\ StronglySorted (key_le (fun t => default 0 (deadline t))) realtime
  /\ ticket <$> report1 = task_id <$> realtime
  /\ Forall2 (fun t v => is_admitted v = false -> fits (request t) (ledgers s') true = false) realtime report1
  /\ drf_run env s1 (other_ready s) report2 s' /\ fuller (ledgers s) (ledgers s1) /\ other_ready s1 = []
  /\ ticket <$> report2 ≡ₚ task_id <$> other_ready s
  /\ realtime_ready s' = []
  /\ exists waiting, other_ready s' = aged <$> waiting
     /\ task_id <$> waiting = ticket <$> List.filter (fun v => negb (is_admitted v)) report2
     /\ forall t, t ∈ waiting -> t ∈ other_ready s /\ nothing_fits env (ledgers s') t.
Proof.
  intros Hcap Hdl. pose proof (sort_realtime_deadlines unspecified _ Hdl) as Hsort.
  destruct (schedule_epoch_phases unspecified env s _ Hcap Hsort) as (report1 & s0 & report2 & s' & -> & Hrt & Hrun).
  exists (sort_by_key (deadline_key 0) (realtime_ready s)).
  destruct (realtime_loop_spec _ _ _ _ Hrt) as (Ht & Hf & Hr & Ho & Hall). simpl in Hf, Hr, Ho.
  set (s1 := with_queues s0 (realtime_ready s0) []) in *.
  destruct (drf_run_spec _ _ _ _ _ Hrun) as (Ht2 & Hf2 & Hr2 & waiting & Hw & Hids & Hin).
  rewrite Ho in *. exists report1, report2, s1, s'. split; [done|]. split; [apply sort_by_key_perm|].
  split; [by apply sort_by_deadline|]. split; [done|]. split.
  { eapply Forall2_impl; [exact Hall|]. intros t v Hno Ha. eapply unfit_fuller; [exact Hf2|]. by apply Hno. }
  split; [done|]. split; [exact Hf|]. split; [done|]. split; [done|]. split; [by rewrite Hr2; simpl; rewrite Hr|].
  exists waiting. by rewrite Hw.
Qed.

(** ** Accounts *)

(** The sum of a resource over the grants that satisfy [P]. *)
Definition granted (P : Allocation -> bool) (al : gmap N Allocation) (d : ResourceDimension) : N :=
  map_fold (fun _ a acc => (if P a then get (vector a) d else 0) + acc) 0 al.

Definition anyone (_ : Allocation) : bool := true.
Definition owned_by (o : OwnerId) (a : Allocation) : bool := bool_decide (alloc_owner a = o).

Lemma granted_insert P al d id a :
  al !! id = None -> granted P (<[id := a]> al) d = (if P a then get (vector a) d else 0) + granted P al d.
Proof.
  intros Hid. unfold granted. rewrite map_fold_insert_L; [done| |done]. intros. lia.
Qed.

Lemma granted_delete P al d id a :
  al !! id = Some a -> granted P al d = (if P a then get (vector a) d else 0) + granted P (delete id al) d.
Proof.
  intros Hid. rewrite <- (insert_delete_id _ _ _ Hid) at 1. apply granted_insert, lookup_delete_eq.
Qed.

Lemma granted_le P al d : granted P al d <= granted anyone al d.
Proof.
  induction al as [|id a al Hid IH] using map_ind; [done|]. rewrite !granted_insert by done. simpl.
  destruct (P a); lia.
Qed.

(** The accounts are exact: each ledger's allocation is the sum of the grants, at
    most its capacity, and each owner's holding is the sum of its own. *)
Definition accounted (s : Scheduler) : Prop :=
  (forall d, match ledgers s !! d with
             | Some l => allocated l = granted anyone (allocations s) d /\ allocated l <= capacity l /\ capacity l < U32_MAX
             | None => granted anyone (allocations s) d = 0
             end)
  /\ forall o d, get (default no_resources (owners s !! o)) d = granted (owned_by o) (allocations s) d.

Lemma accounted_release s id a :
  accounted s -> allocations s !! id = Some a -> accounted (release (without_allocation s id) a).
Proof.
  intros [Hl Ho] Hid. unfold release, without_allocation. split; simpl.
  - intros d. specialize (Hl d). rewrite lookup_release. rewrite (granted_delete _ _ d id a Hid) in Hl. simpl in Hl.
    destruct (ledgers s !! d) as [l|]; simpl; lia.
  - intros o d. pose proof (Ho o d) as Hod. rewrite (granted_delete _ _ d id a Hid) in Hod.
    unfold owned_by in Hod at 1. by_cases (alloc_owner a = o) as Hao.
    + subst o. rewrite bool_decide_true in Hod by done.
      destruct (owners s !! alloc_owner a) as [held|] eqn:Hheld; simpl in *.
      * rewrite lookup_insert_eq. simpl. rewrite get_saturating_sub. lia.
      * rewrite Hheld. simpl. rewrite get_no_resources in *. lia.
    + rewrite bool_decide_false in Hod by done.
      destruct (owners s !! alloc_owner a); [by rewrite lookup_insert_ne|done].
Qed.

Lemma accounted_charge s t v why b :
  accounted s -> allocations s !! task_id t = None -> fits v (ledgers s) b = true ->
  accounted (admit_task s t v why).2.
Proof.
  intros [Hl Ho] Hid Hfit. rewrite fits_spec in Hfit.
  assert (Hroom : forall d, match ledgers s !! d with
                            | Some l => allocated l + get v d <= capacity l
                            | None => get v d = 0
                            end).
  { intros d. specialize (Hl d). specialize (Hfit d). destruct (N.eq_0_gt_0_cases (get v d)) as [Hz|Hp].
    - destruct (ledgers s !! d); lia.
    - destruct (Hfit Hp) as (l & Hl' & Hle). rewrite Hl' in Hl |- *. unfold u32_saturating_add, headroom in Hle.
      destruct b; lia. }
  split; simpl.
  - intros d. specialize (Hl d). specialize (Hroom d). rewrite lookup_charge, granted_insert by done. simpl.
    destruct (ledgers s !! d) as [l|]; simpl; [|lia]. unfold u32_saturating_add. lia.
  - intros o d. rewrite granted_insert by done.
    change (owned_by o (mkAllocation (owner_of t) v)) with (bool_decide (owner_of t = o)). specialize (Ho o d).
    by_cases (owner_of t = o) as Hot.
    + subst o. rewrite lookup_insert_eq. simpl. rewrite get_saturating_add, Ho.
      pose proof (granted_le (owned_by (owner_of t)) (allocations s) d) as Hle. specialize (Hl d). specialize (Hroom d).
      unfold u32_saturating_add. destruct (ledgers s !! d) as [l|]; lia.
    + by rewrite lookup_insert_ne.
Qed.

(** The tasks have tickets of their own, and none holds a grant yet. *)
Definition fresh (al : gmap N Allocation) (l : list TaskDescriptor) : Prop :=
  NoDup (task_id <$> l) /\ forall t, t ∈ l -> al !! task_id t = None.

#[local] Instance fresh_proper al : Proper ((≡ₚ) ==> iff) (fresh al).
Proof. intros l l' Hp. unfold fresh. by setoid_rewrite Hp. Qed.

Lemma fresh_insert al t l a : fresh al (t :: l) -> fresh (<[task_id t := a]> al) l.
Proof.
  intros [[Hn Hnd]%NoDup_cons Hall]. split; [done|]. intros t' Ht'. rewrite lookup_insert_ne; [apply Hall; by right|].
  intros Heq. apply Hn. rewrite Heq. by apply list_elem_of_fmap_2.
Qed.

Lemma fresh_tail al t l : fresh al (t :: l) -> fresh al l.
Proof. intros [[_ Hnd]%NoDup_cons Hall]. split; [done|]. intros t' Ht'. apply Hall. by right. Qed.

Lemma fresh_same_ids al l l' : task_id <$> l = task_id <$> l' -> fresh al l -> fresh al l'.
Proof.
  intros Hids [Hnd Hall]. split; [by rewrite <- Hids|]. intros t Ht.
  assert (Hin : task_id t ∈ task_id <$> l) by (rewrite Hids; by apply list_elem_of_fmap_2).
  apply list_elem_of_fmap in Hin as (t' & -> & Ht'). by apply Hall.
Qed.

Lemma accounted_decide env call s t rest verdict s' :
  decide_task env call s t = (verdict, s') ->
  accounted s -> fresh (allocations s) (t :: rest ++ other_ready s) ->
  accounted s' /\ fresh (allocations s') (rest ++ other_ready s').
Proof.
  intros Hd Hacc Hfr. pose proof Hfr as [_ Hid]. specialize (Hid t ltac:(left)). revert Hd.
  unfold decide_task, try_admit. destruct (fits (request t) (ledgers s) false) eqn:Hfit.
  { intros [= <- <-]. split; [by apply (accounted_charge s t _ (lit "admitted") false)|]. by apply fresh_insert. }
  destruct (try_degrade env s t) as [[id v]|] eqn:Hdeg.
  { assert (Hfit' : fits v (ledgers s) false = true).
    { unfold try_degrade in Hdeg. destruct (model_router env); [|done]. destruct (capability_ref t); [|done]. simpl in Hdeg.
      by apply List.find_some in Hdeg as [_ Hv]. }
    intros [= <- <-]. split; [by eapply accounted_charge|]. by apply fresh_insert. }
  destruct (try_offload env call t); intros [= <- <-]; (split; [exact Hacc|]); simpl; [by eapply fresh_tail|].
  rewrite app_assoc, Permutation_app_comm. simpl. eapply fresh_same_ids; [|exact Hfr]. done.
Qed.

Lemma accounted_drf env s candidates report s' :
  drf_run env s candidates report s' -> accounted s -> fresh (allocations s) (candidates ++ other_ready s) ->
  accounted s' /\ fresh (allocations s') (other_ready s').
Proof.
  induction 1 as [s|s t rest candidates verdict s1 report s2 Hp _ Hd _ IH]; intros Hacc Hfr; [done|].
  rewrite Hp in Hfr. simpl in Hfr. destruct (accounted_decide _ _ _ _ _ _ _ Hd Hacc Hfr) as [H1 H2]. by apply IH.
Qed.

Lemma accounted_realtime s l report s' :
  realtime_loop s l = (report, s') -> accounted s -> fresh (allocations s) (l ++ other_ready s) ->
  accounted s' /\ fresh (allocations s') (other_ready s').
Proof.
  revert s report s'. induction l as [|t l IH]; intros s report s'; simpl; [by intros [= <- <-]|].
  unfold try_admit. destruct (fits (request t) (ledgers s) true) eqn:Hfit; simpl;
    destruct (realtime_loop _ l) as [rep s2] eqn:Hl; intros [= <- <-] Hacc Hfr; eapply IH; try exact Hl.
  - eapply (accounted_charge s t _ (lit "admitted") true); [done| |done]. apply Hfr. by left.
  - by apply fresh_insert.
  - exact Hacc.
  - by eapply fresh_tail.
Qed.

(** The calls of a well-behaved client: a resource is provided once, below the
    largest number of its type, and a ticket is not used for two tasks at once. A sort
    that returns has neither lost nor added anything, whatever the order. *)
Inductive sched_step : Scheduler -> Scheduler -> Prop :=
| step_register s d cap reserved :
    ledgers s !! d = None -> cap < U32_MAX ->
    sched_step s (register_resource_provider s (new_ledger d cap reserved))
| step_submit s now m t :
    task_id t ∉ task_id <$> (realtime_ready s ++ other_ready s) -> allocations s !! task_id t = None ->
    sched_step s (submit_task now m s t).2
| step_cancel s id : sched_step s (cancel s id).2
| step_complete s id : sched_step s (complete s id).2
| step_signal s l : sched_step s (update_load_signal s l)
| step_epoch s unspecified env report s' :
    (forall l l', unspecified l = Some l' -> l' ≡ₚ l) ->
    schedule_epoch unspecified env s = Some (report, s') -> sched_step s s'.

Definition sched_inv (s : Scheduler) : Prop :=
  accounted s /\ fresh (allocations s) (realtime_ready s ++ other_ready s).

Lemma remove_by_id_sublist q id : (remove_by_id q id).2 `sublist_of` q.
Proof.
  unfold remove_by_id. simpl. induction q as [|t q IH]; simpl; [done|]. destruct (negb _); by constructor.
Qed.

Lemma fresh_sublist al l l' : l' `sublist_of` l -> fresh al l -> fresh al l'.
Proof.
  intros Hsub [Hnd Hall]. split; [eapply sublist_NoDup; [exact Hnd|by apply fmap_sublist]|].
  intros t Ht. apply Hall. by eapply elem_of_sublist.
Qed.

Lemma fresh_less al al' l : (forall id, al !! id = None -> al' !! id = None) -> fresh al l -> fresh al' l.
Proof. intros Hal [Hnd Hall]. split; [done|]. intros t Ht. by apply Hal, Hall. Qed.

Lemma sched_inv_release s id a :
  sched_inv s -> allocations s !! id = Some a -> sched_inv (release (without_allocation s id) a).
Proof.
  intros [Hacc Hfr] Hid. split; [by apply accounted_release|]. simpl. eapply fresh_less; [|exact Hfr].
  intros id'. rewrite lookup_delete_None. by right.
Qed.

Lemma sched_step_inv s s' : sched_step s s' -> sched_inv s -> sched_inv s'.
Proof.
  intros Hstep [Hacc Hfr]. destruct Hstep as [s d cap res Hd Hcap|s now m t Hq Hal|s id|s id|s l|s unspecified env report s' Hun He].
  - split; [|exact Hfr]. destruct Hacc as [Hl Ho]. split; [|exact Ho]. intros d'. simpl. by_cases (d = d') as Hdd.
    + subst d'. rewrite lookup_insert_eq. specialize (Hl d). rewrite Hd in Hl. simpl. rewrite Hl. lia.
    + rewrite lookup_insert_ne by done. apply Hl.
  - unfold submit_task. destruct (authorize now m (cap_token t) EXEC); [|done]. simpl.
    assert (Hfr' : fresh (allocations s) (t :: realtime_ready s ++ other_ready s)).
    { destruct Hfr as [Hnd Hall]. split; [by apply NoDup_cons|]. intros t' [->|Ht']%elem_of_cons; [done|by apply Hall]. }
    split; [by destruct (class t)|].
    destruct (class t); simpl; [|rewrite app_assoc, Permutation_app_comm; exact Hfr'..].
    rewrite <- app_assoc, (Permutation_app_comm [t]), app_assoc, Permutation_app_comm. exact Hfr'.
  - unfold cancel. destruct (allocations s !! id) as [a|] eqn:Hid; [by apply sched_inv_release|].
    pose proof (remove_by_id_sublist (realtime_ready s) id) as Hsub1.
    pose proof (remove_by_id_sublist (other_ready s) id) as Hsub2.
    destruct (remove_by_id (realtime_ready s) id) as [r1 rt], (remove_by_id (other_ready s) id) as [r2 other].
    simpl in Hsub1, Hsub2. assert (Hboth : fresh (allocations s) (rt ++ other)).
    { eapply fresh_sublist; [by apply sublist_app|exact Hfr]. }
    destruct r1; [split; [exact Hacc|]|by destruct r2]. eapply fresh_sublist; [|exact Hfr]. by apply sublist_app.
  - unfold complete. destruct (allocations s !! id) as [a|] eqn:Hid; [by apply sched_inv_release|done].
  - done.
  - destruct (sort_realtime unspecified (realtime_ready s)) as [realtime|] eqn:Hsort;
      [|unfold schedule_epoch in He; by rewrite Hsort in He].
    assert (Hperm : realtime ≡ₚ realtime_ready s).
    { unfold sort_realtime in Hsort. destruct (forallb _ _); [injection Hsort as <-; apply sort_by_key_perm|by apply Hun]. }
    destruct (schedule_epoch_phases unspecified env s realtime) as (report1 & s0 & report2 & s2 & He' & Hrt & Hrun).
    { intros d l Hl. destruct Hacc as [Hall _]. specialize (Hall d). rewrite Hl in Hall. lia. }
    { done. }
    rewrite He in He'. injection He' as _ ->.
    destruct (accounted_realtime _ _ _ _ Hrt) as [Hacc0 Hfr0]; [exact Hacc|by rewrite Hperm|].
    pose proof (realtime_loop_spec _ _ _ _ Hrt) as (_ & _ & Hr0 & _).
    destruct (drf_run_spec _ _ _ _ _ Hrun) as (_ & _ & Hr2 & _). simpl in Hr0, Hr2.
    destruct (accounted_drf _ _ _ _ _ Hrun) as [Hacc2 Hfr2]; [exact Hacc0|by rewrite app_nil_r|].
    split; [exact Hacc2|]. by rewrite Hr2, Hr0.
Qed.

Lemma new_inv : sched_inv new.
Proof. split; [|split; [constructor|by intros t Ht%elem_of_nil]]. split; [done|]. intros o d. simpl. apply get_no_resources. Qed.

(** C18. The books balance. After any calls of clients that provide a resource
    once and give each task a ticket of its own: the amount a ledger shows as
    allocated is the sum of the grants outstanding, and at most its capacity; what
    an owner is held to have is the sum of its own grants; with no grant
    outstanding nothing is allocated; completing a task gives back exactly what it
    was granted; and the next epoch does not panic if every real-time task that is ready
    has a deadline. (Providing a resource again, a capacity of all of [u32], or a ticket
    used twice break the books: see the examples below.) *)
Theorem scheduler_books_balance s :
  rtc sched_step new s ->
  (forall d l, ledgers s !! d = Some l ->
     allocated l = granted anyone (allocations s) d /\ allocated l <= capacity l
     /\ (allocations s = ∅ -> allocated l = 0))
  /\ (forall o d, get (default no_resources (owners s !! o)) d = granted (owned_by o) (allocations s) d)
  /\ (forall id a, allocations s !! id = Some a -> exists s', complete s id = (Ok tt, s')
        /\ allocations s' = delete id (allocations s)
        /\ forall d l, ledgers s !! d = Some l -> exists l', ledgers s' !! d = Some l'
             /\ allocated l = allocated l' + get (vector a) d)
  /\ forall unspecified env, (forall t, t ∈ realtime_ready s -> is_Some (deadline t)) -> schedule_epoch unspecified env s <> None.
Proof.
  intros Hreach.
  assert (Hinv : sched_inv s).
  { revert Hreach. apply (rtc_ind_r (fun s => sched_inv s)); [apply new_inv|]. intros s1 s2 _ Hs IH. by eapply sched_step_inv. }
  destruct Hinv as [[Hl Ho] Hfr]. split_and!.
  - intros d l Hd. specialize (Hl d). rewrite Hd in Hl. split; [apply Hl|]. split; [apply Hl|]. intros He.
    destruct Hl as [-> _]. by rewrite He.
  - done.
  - intros id a Hid. unfold complete. rewrite Hid. eexists. split; [done|]. split; [done|]. intros d l Hd. simpl.
    rewrite lookup_release, Hd. eexists. split; [done|]. specialize (Hl d). rewrite Hd in Hl.
    rewrite (granted_delete _ _ d id a Hid) in Hl. simpl in *. lia.
  - intros unspecified env Hdl Hno. pose proof (sort_realtime_deadlines unspecified _ Hdl) as Hsort.
    destruct (fun Hc => schedule_epoch_phases unspecified env s _ Hc Hsort) as (r1 & s0 & r2 & s2 & He & _); [|by rewrite He in Hno].
    intros d l Hd. specialize (Hl d). rewrite Hd in Hl. lia.
Qed.
End scheduler.

(** ** A concrete run *)

Module SchedulerExample.

Definition worker : CapabilityToken := mkToken 1 0 EXEC 0 7 None.

Definition cpu (n : N) : ResourceVector := set no_resources Cpu n.

Definition task (id agent n : N) : TaskDescriptor (Value := unit) :=
  mkTask id 0 (Some agent) BackgroundAgent None f32_one (cpu n) worker None tt.

Definition alone : Surroundings (Value := unit) := mkSurroundings None None.

Definition panics (_ : list (TaskDescriptor (Value := unit))) : option (list (TaskDescriptor (Value := unit))) := None.

Definition provide (cap reserved : N) (s : Scheduler (Value := unit)) : Scheduler (Value := unit) :=
  register_resource_provider s (new_ledger Cpu cap reserved).

Definition submit (t : TaskDescriptor) (s : Scheduler (Value := unit)) : Scheduler (Value := unit) :=
  (submit_task 0 tt s t).2.

Definition run (s : Scheduler (Value := unit)) : Scheduler (Value := unit) :=
  match schedule_epoch panics alone s with Some (_, s) => s | None => s end.

Definition used (s : Scheduler (Value := unit)) : option N := allocated <$> query_ledger s Cpu.

(** Of 100 shares 20 are reserved; agents 1 and 2 want 30 each, agent 1 holds 30
    already: agent 2 goes first, and agent 1 waits. *)
Definition busy : Scheduler := run (submit (task 10 1 30) (provide 100 20 new)).
Definition contended : Scheduler := submit (task 12 2 30) (submit (task 11 1 30) busy).

(** The same with a real-time task that is due. *)
Definition urgent : Scheduler :=
  submit (mkTask 13 0 (Some 3) RealTimeUI (Some 50) f32_one (cpu 20) worker None tt) contended.

Example due_first :
  option_map (fun p => List.map ticket p.1) (schedule_epoch panics alone urgent) = Some [13; 12; 11]
  /\ used (run urgent) = Some 80.
Proof. by vm_compute. Qed.

Example fair_share :
  used busy = Some 30 /\ used (run contended) = Some 60 /\ task_id <$> other_ready (run contended) = [11].
Proof. by vm_compute. Qed.

(** A ticket used twice: the first grant is forgotten and never given back. *)
Example reused_ticket_leaks :
  let s := run (submit (task 1 1 30) (run (submit (task 1 1 30) (provide 100 0 new)))) in
  used s = Some 60 /\ used (complete s 1).2 = Some 30 /\ (complete (complete s 1).2 1).1 = Err NoSuchTicket.
Proof. by vm_compute. Qed.

(** Providing a resource again forgets what was granted of it. *)
Example providing_again_forgets : used (provide 100 20 busy) = Some 0.
Proof. by vm_compute. Qed.

(** At the largest capacity the check saturates with the sum and lets everything
    in. *)
Example largest_capacity_overcommits :
  let s := run (submit (task 2 2 U32_MAX) (run (submit (task 1 1 U32_MAX) (provide U32_MAX 0 new)))) in
  other_ready s = [] /\ used s = Some U32_MAX /\ used (complete s 1).2 = Some 0.
Proof. by vm_compute. Qed.

(** The weight a task gains by waiting is lost in rounding once it is large. *)
Example ageing_stops :
  f32_add (f32_of_N 1048576) AGING_STEP = f32_of_N 1048576.
Proof. by vm_compute. Qed.

End SchedulerExample.

Section witnesses.
Import SchedulerExample.

Lemma epoch_spec_witness :
  exists report1 report2 s', schedule_epoch panics alone urgent = Some (report1 ++ report2, s')
    /\ ticket <$> report2 ≡ₚ [11; 12].
Proof.
  destruct (epoch_spec panics alone urgent) as (rt & r1 & r2 & s1 & s' & He & _ & _ & _ & _ & _ & _ & _ & Ht & _).
  - intros d l Hl. assert (Hall : map_Forall (fun _ l => capacity l <= U32_MAX) (ledgers urgent))
      by (apply (bool_decide_unpack _); vm_compute; exact I). exact (Hall d l Hl).
  - apply Forall_forall. apply (bool_decide_unpack _). vm_compute. exact I.
  - exists r1, r2, s'. split; [exact He|exact Ht].
Defined.

Lemma scheduler_books_balance_witness :
  exists l, ledgers busy !! Cpu = Some l /\ allocated l = granted anyone (allocations busy) Cpu.
Proof.
  assert (Hr : rtc (sched_step (M := unit)) new busy).
  { eapply rtc_l; [apply (step_register new Cpu 100 20); [reflexivity|done]|].
    eapply rtc_l; [apply (step_submit _ 0 tt (task 10 1 30)); [apply not_elem_of_nil|reflexivity]|].
    eapply rtc_l; [|apply rtc_refl]. eapply (step_epoch _ panics alone); [done|vm_compute; reflexivity]. }
  destruct (scheduler_books_balance busy Hr) as (Hl & _).
  destruct (ledgers busy !! Cpu) as [l|] eqn:Hc; [|vm_compute in Hc; discriminate].
  exists l. split; [reflexivity|]. by destruct (Hl Cpu l Hc) as (H1 & _).
Defined.

End witnesses.
