(* ===== verification/AgentRuntime.v ===== *)
(** The agent runtime: [crates/hyperion-agent-runtime/src/{types,broker,stubs,runtime}.rs].

    An agent may use the capabilities of its manifest, some at once and some after
    consent. An invocation is prepared under a lock (lifecycle, grants, admission by
    the scheduler), carried out without one, and recorded under the lock again, so
    invocations of all agents interleave; the two locked parts are separate
    operations. The scheduler is the one of [Scheduler]. Inference, the network,
    plugins, memories and explanations are reached through records and classes
    without laws. *)
From S2P Require Import Prelude Capability Authority DebugFmt F32 F32Facts Json ModelRouter Scheduler.
Open Scope N_scope.

Abbreviation text := (list N).

(** Nanoseconds of the monotonic clock in a second. *)
Definition SECOND : N := 1000000000.

(** ** types.rs *)

Inductive TrustTier : Type := System | Verified | Community.

Record AgentManifest := mkManifest {
  specialization : text;
  baseline_capabilities : list text;
  requestable_capabilities : list text;
  trust_tier : TrustTier
}.

Inductive LifecycleState : Type :=
| Spawning | Bound | Executing | WaitingOnCapability | Suspended | Checkpointed | Completed | Failed | Terminated.

#[export] Instance lifecycle_eq_dec : EqDecision LifecycleState.
Proof. solve_decision. Defined.

Definition debug_state (s : LifecycleState) : text :=
  lit match s with
      | Spawning => "Spawning" | Bound => "Bound" | Executing => "Executing"
      | WaitingOnCapability => "WaitingOnCapability" | Suspended => "Suspended" | Checkpointed => "Checkpointed"
      | Completed => "Completed" | Failed => "Failed" | Terminated => "Terminated"
      end.

Record CapabilityGrant := mkAgentGrant {
  granted_ref : text;
  scope : list N;
  granted_at : N
}.

Record QuotaState := mkQuota {
  calls_used_this_window : N;
  max_calls_per_window : N;
  consecutive_failures : N;
  suspended_at : option N;
  times_suspended : N;
  consecutive_successes_since_resume : N
}.

Definition new_quota (max : N) : QuotaState := mkQuota 0 max 0 None 0 0.
Definition has_headroom (q : QuotaState) : bool := calls_used_this_window q <? max_calls_per_window q.

Record AuditEntry := mkAudit {
  timestamp : N;
  audit_kind : text;
  audit_detail : text
}.

Record AgentInstance := mkInstance {
  instance_id : N;
  manifest : AgentManifest;
  state : LifecycleState;
  bound_intent : option N;
  grants : list CapabilityGrant;
  quota : QuotaState;
  pending_consent : option text;
  audit_log : list AuditEntry
}.

Record AgentCheckpoint := mkCheckpoint {
  checkpoint_id : N;
  ck_instance : N;
  ck_manifest : AgentManifest;
  ck_intent : option N;
  ck_created_at : N
}.

Inductive InvokeOutcome : Type :=
| InvokeResult (v : Json)
| InvokeDenied
| InvokePendingConsent
| InvokeQuotaExceeded
| InvokeFailed (reason : text).

(** ** broker.rs *)

Inductive GrantDecision : Type := Granted | PendingConsent | Denied.

Definition resolve_grant (i : AgentInstance) (cap : text) : GrantDecision :=
  if existsb (fun c => bool_decide (c = cap)) (baseline_capabilities (manifest i)) then Granted
  else if existsb (fun c => bool_decide (c = cap)) (requestable_capabilities (manifest i)) then
    if existsb (fun g => bool_decide (granted_ref g = cap)) (grants i) then Granted else PendingConsent
  else Denied.

(** ** stubs.rs *)

Definition forced_to_fail (args : Json) : bool := default false (json_get args (lit "force_fail") ≫= as_bool).

Definition str_field (args : Json) (k : text) : text := default [] (json_get args k ≫= as_str).

Definition stub_dispatch (cap : text) (args : Json) : Result Json text :=
  if forced_to_fail args then Err (lit "stub capability '" ++ cap ++ lit "' failed")
  else if bool_decide (cap = lit "web.search") then
    Ok (JObject [(lit "results", JArray [JString (lit "stub finding for query '" ++ str_field args (lit "query") ++ lit "'")])])
  else if bool_decide (cap = lit "document.draft") then
    Ok (JObject [(lit "draft", JString (lit "Stub draft document about '" ++ str_field args (lit "topic") ++ lit "'."))])
  else Ok (JObject [(lit "echo", JString cap); (lit "args", args)]).

(** ** runtime.rs *)

Definition ASSISTANT_RESPOND_CAPABILITY : text := lit "assistant.respond".
Definition WEB_RESEARCH_CAPABILITY : text := lit "web.research".
Definition CLOUD_OPENAI_CAPABILITY : text := lit "cloud.openai".
Definition CLOUD_ANTHROPIC_CAPABILITY : text := lit "cloud.anthropic".
Definition CLOUD_GEMINI_CAPABILITY : text := lit "cloud.gemini".
Definition CLOUD_GROQ_CAPABILITY : text := lit "cloud.groq".
Definition DOCUMENT_DRAFT_CAPABILITY : text := lit "document.draft".
Definition WEB_SEARCH_CAPABILITY : text := lit "web.search".

Definition CIRCUIT_BREAKER_THRESHOLD : N := 3.
Definition DEFAULT_QUOTA : N := 100.
Definition SUCCESS_STREAK_TO_DECAY : N := 3.

(** Seconds; [clamp(1, 6)]. *)
Definition backoff_duration (times : N) : N := 2 ^ (N.max 1 (N.min times 6) - 1).

Inductive AgentError : Type :=
| Unauthorized
| NotFound
| InvalidState (why : text).

Inductive PreparedInvoke : Type :=
| Resolved (o : InvokeOutcome)
| Proceed (ticket : N) (bound_intent : option N).

(** The memory engine as the runtime uses it: memories of the procedural tier with
    the time they were made. *)
Class AgentMemory (M Mem : Type) := {
  mem_remember : Instant -> M -> CapabilityToken -> Mem -> Json -> Mem;
  mem_query : Instant -> M -> CapabilityToken -> Mem -> option (list (Json * N))
}.

(** The explanation store as the runtime uses it: a record is begun, if it can be,
    and closed with a step and a state. *)
Class Explanations (M X : Type) := {
  explain_begin : Instant -> M -> CapabilityToken -> X -> N -> N -> text -> N -> option N * X;
  explain_end : Instant -> M -> CapabilityToken -> X -> N -> text -> bool -> X
}.

(** What an installed implementation of a capability shows of itself. *)
Record PluginImpl := mkPluginImpl {
  native_binary : bool;
  resource_profile : option ResourceVector
}.

(** What the runtime asks of the network, and what it reads of the answer. *)
Inductive FreshnessPolicy : Type := UseCache | ForceRevalidate.

Record WebResolutionRequest := mkWebRequest {
  web_origin : text;
  web_agent : N;
  web_purpose : text;
  web_freshness : FreshnessPolicy;
  web_depth : N
}.

Record SemanticObjectRef := mkWebResult {
  web_object_id : N;
  web_stale : bool;
  web_needs_review : bool
}.

(** What the runtime is wired to, as it answers in one operation. *)
Record Wiring := mkWiring {
  router : option ModelRouter;
  plugins : option (text -> option (list PluginImpl));
  infer : text -> Result text text;
  netstack : option (WebResolutionRequest -> Result SemanticObjectRef text);
  invoke_native_binary : text -> Json -> TrustBoundaryId -> Result Json text
}.

Section runtime.
Context {M : Type} `{Authority M} `{HashIter} {Mem X : Type} `{AgentMemory M Mem} `{Explanations M X}.

Abbreviation Task := (TaskDescriptor (Value := Json)).

Record AgentRuntime := mkRuntime {
  instances : gmap N AgentInstance;
  checkpoints : gmap N AgentCheckpoint;
  suspended_since : gmap N Instant;
  next_id : N;
  scheduler : Scheduler (Value := Json);
  next_task_id : N;
  memory : option Mem;
  explainability : option X
}.

Definition new (mem : option Mem) (x : option X) : AgentRuntime :=
  mkRuntime ∅ ∅ ∅ 1
    (register_resource_provider Scheduler.new (new_ledger InferenceTokens DEFAULT_QUOTA 0)) 1 mem x.

Definition with_instances (s : AgentRuntime) (l : gmap N AgentInstance) : AgentRuntime :=
  mkRuntime l (checkpoints s) (suspended_since s) (next_id s) (scheduler s) (next_task_id s) (memory s) (explainability s).
Definition with_scheduler (s : AgentRuntime) (sc : Scheduler) : AgentRuntime :=
  mkRuntime (instances s) (checkpoints s) (suspended_since s) (next_id s) sc (next_task_id s) (memory s) (explainability s).
Definition with_memory (s : AgentRuntime) (mem : option Mem) : AgentRuntime :=
  mkRuntime (instances s) (checkpoints s) (suspended_since s) (next_id s) (scheduler s) (next_task_id s) mem (explainability s).
Definition with_explanations (s : AgentRuntime) (x : option X) : AgentRuntime :=
  mkRuntime (instances s) (checkpoints s) (suspended_since s) (next_id s) (scheduler s) (next_task_id s) (memory s) x.
Definition with_suspended (s : AgentRuntime) (l : gmap N Instant) : AgentRuntime :=
  mkRuntime (instances s) (checkpoints s) l (next_id s) (scheduler s) (next_task_id s) (memory s) (explainability s).

Definition with_state (i : AgentInstance) (st : LifecycleState) : AgentInstance :=
  mkInstance (instance_id i) (manifest i) st (bound_intent i) (grants i) (quota i) (pending_consent i) (audit_log i).
Definition with_quota (i : AgentInstance) (q : QuotaState) : AgentInstance :=
  mkInstance (instance_id i) (manifest i) (state i) (bound_intent i) (grants i) q (pending_consent i) (audit_log i).
Definition with_grants (i : AgentInstance) (l : list CapabilityGrant) : AgentInstance :=
  mkInstance (instance_id i) (manifest i) (state i) (bound_intent i) l (quota i) (pending_consent i) (audit_log i).
Definition with_consent (i : AgentInstance) (c : option text) : AgentInstance :=
  mkInstance (instance_id i) (manifest i) (state i) (bound_intent i) (grants i) (quota i) c (audit_log i).

Definition put (s : AgentRuntime) (i : AgentInstance) (id : N) : AgentRuntime :=
  with_instances s (<[id := i]> (instances s)).

Definition audit (wall : N) (i : AgentInstance) (k detail : text) : AgentInstance :=
  mkInstance (instance_id i) (manifest i) (state i) (bound_intent i) (grants i) (quota i) (pending_consent i)
    (audit_log i ++ [mkAudit wall k detail]).

Definition resource_headroom (s : AgentRuntime) : N :=
  match query_ledger (scheduler s) InferenceTokens with Some l => headroom l false | None => 0 end.

Definition require (now : Instant) (m : M) (t : CapabilityToken) (r : RightsMask) : Result unit AgentError :=
  map_err (fun _ => Unauthorized) (authorize now m t r).

(** [sort_by_key] and [last]; [as u32] keeps the low 32 bits. *)
Definition remembered_times_suspended (now : Instant) (m : M) (t : CapabilityToken) (s : AgentRuntime) (spec : text) : N :=
  default 0 (
    mem ← memory s;
    records ← mem_query now m t mem;
    let records := List.filter (fun r =>
      bool_decide (json_get r.1 (lit "kind") ≫= as_str = Some (lit "agent_resilience"))
      && bool_decide (json_get r.1 (lit "specialization") ≫= as_str = Some spec)) records in
    r ← last (sort_by_key snd records);
    v ← json_get r.1 (lit "times_suspended");
    n ← as_u64 v;
    Some (n mod two32)).

Definition record_resilience_event (now : Instant) (m : M) (t : CapabilityToken) (s : AgentRuntime)
    (spec event cap : text) (times : N) : AgentRuntime :=
  match memory s with
  | None => s
  | Some mem =>
      with_memory s (Some (mem_remember now m t mem
        (JObject [(lit "kind", JString (lit "agent_resilience")); (lit "specialization", JString spec);
                  (lit "event", JString event); (lit "capability_ref", JString cap);
                  (lit "times_suspended", JNumber times)])))
  end.

Definition debug_opt_u64 (o : option N) : text :=
  match o with None => lit "None" | Some n => lit "Some(" ++ debug_u64 n ++ lit ")" end.

Definition spawn (now : Instant) (wall : N) (m : M) (t : CapabilityToken) (s : AgentRuntime) (mf : AgentManifest)
    (intent : option N) : Result N AgentError * AgentRuntime :=
  match require now m t WRITE with
  | Err e => (Err e, s)
  | Ok _ =>
      let id := next_id s in
      let q := new_quota DEFAULT_QUOTA in
      let q := mkQuota (calls_used_this_window q) (max_calls_per_window q) (consecutive_failures q) (suspended_at q)
                 (remembered_times_suspended now m t s (specialization mf)) (consecutive_successes_since_resume q) in
      let i := audit wall (mkInstance id mf Bound intent [] q None []) (lit "bound")
                 (lit "intent=" ++ debug_opt_u64 intent) in
      (Ok id, mkRuntime (<[id := i]> (instances s)) (checkpoints s) (suspended_since s) (u64_add id 1) (scheduler s)
                (next_task_id s) (memory s) (explainability s))
  end.

(** *** Dispatch *)

Definition run_inference (w : Wiring) (prompt key : text) : Result Json text :=
  let? out := infer w prompt in Ok (JObject [(key, JString out)]).

Definition dispatch_assistant_respond (w : Wiring) (args : Json) : Result Json text :=
  run_inference w (str_field args (lit "prompt")) (lit "text").

Definition check_force_fail (cap : text) (args : Json) : Result unit text :=
  if forced_to_fail args then Err (lit "capability '" ++ cap ++ lit "' was forced to fail for testing") else Ok tt.

Fixpoint join (sep : text) (l : list text) : text :=
  match l with [] => [] | [x] => x | x :: l => x ++ sep ++ join sep l end.

Definition extract_subject (args : Json) : text :=
  let parts := List.filter (fun s => negb (bool_decide (s = [])))
    (omap (fun k => json_get args k ≫= as_str) [lit "query"; lit "topic"; lit "task"; lit "goal"]) in
  match parts with [] => lit "the requested topic" | _ => join (lit " -- ") parts end.

Definition append_extra_context (prompt : text) (args : Json) : text :=
  match json_get args (lit "extra_context") ≫= as_str with
  | Some (c :: extra) => prompt ++ lit " Additional instructions from the user: " ++ (c :: extra)
  | _ => prompt
  end.

Definition dispatch_document_draft (w : Wiring) (args : Json) : Result Json text :=
  let? _ := check_force_fail DOCUMENT_DRAFT_CAPABILITY args in
  run_inference w (append_extra_context (lit "Draft a concise, practical " ++ extract_subject args ++ lit ".") args)
    (lit "draft").

Definition dispatch_market_research (w : Wiring) (args : Json) : Result Json text :=
  let? _ := check_force_fail WEB_SEARCH_CAPABILITY args in
  let prompt := lit "Provide a concise research summary about " ++ extract_subject args
                ++ lit ". Be clear that this is your own reasoning, not verified live information." in
  let? result := run_inference w (append_extra_context prompt args) (lit "text") in
  Ok (JObject [(lit "results", JArray [JString (str_field result (lit "text"))]);
               (lit "note", JString (lit "AI-generated research notes, not a live web search"))]).

Definition dispatch_web_research (research : WebResolutionRequest -> Result SemanticObjectRef text) (id : N) (args : Json) :
    Result Json text :=
  let? found := research (mkWebRequest (str_field args (lit "url")) id (lit "agent-initiated web research") UseCache 0) in
  Ok (JObject [(lit "object_id", JNumber (web_object_id found)); (lit "stale", JBool (web_stale found));
               (lit "needs_review", JBool (web_needs_review found))]).

(** Who carries out a capability. *)
Definition dispatch (w : Wiring) (t : CapabilityToken) (id : N) (cap : text) (args : Json) : Result Json text :=
  if bool_decide (cap ∈ [ASSISTANT_RESPOND_CAPABILITY; CLOUD_OPENAI_CAPABILITY; CLOUD_ANTHROPIC_CAPABILITY;
                         CLOUD_GEMINI_CAPABILITY; CLOUD_GROQ_CAPABILITY]) then dispatch_assistant_respond w args
  else
    match (if bool_decide (cap = WEB_RESEARCH_CAPABILITY) then netstack w else None) with
    | Some research => dispatch_web_research research id args
    | None =>
        if bool_decide (cap = DOCUMENT_DRAFT_CAPABILITY) then dispatch_document_draft w args
        else if bool_decide (cap = WEB_SEARCH_CAPABILITY) then dispatch_market_research w args
        else
          match plugins w with
          | Some query =>
              match query cap with
              | Some impls =>
                  if existsb native_binary impls then invoke_native_binary w cap args (origin t)
                  else stub_dispatch cap args
              | None => stub_dispatch cap args
              end
          | None => stub_dispatch cap args
          end
    end.

(** *** Invocations *)

(** A suspended instance that may go on. *)
Definition resumed (wall : N) (i : AgentInstance) : AgentInstance :=
  let q := quota i in
  audit wall
    (with_quota (with_state i Bound)
       (mkQuota (calls_used_this_window q) (max_calls_per_window q) (consecutive_failures q) None (times_suspended q)
          (consecutive_successes_since_resume q)))
    (lit "auto_resumed_after_backoff") (lit "times_suspended=" ++ debug_u64 (times_suspended q)).

(** The way back from a suspension, once its time has passed; an instance whose
    suspension was not timed may go on at once. *)
Definition auto_resume (now : Instant) (wall : N) (m : M) (t : CapabilityToken) (s : AgentRuntime) (i : AgentInstance)
    (id : N) (cap : text) : Result (AgentInstance * AgentRuntime) AgentError :=
  if negb (bool_decide (state i = Suspended)) then Ok (i, s)
  else
    let required := backoff_duration (times_suspended (quota i)) in
    let on_time := match suspended_since s !! id with
                   | Some since => required * SECOND <=? now - since
                   | None => true
                   end in
    if on_time then
      Ok (resumed wall i,
          record_resilience_event now m t (with_suspended s (delete id (suspended_since s))) (specialization (manifest i))
            (lit "auto_resumed") cap (times_suspended (quota i)))
    else
      let elapsed := match suspended_since s !! id with Some since => now - since | None => 0 end in
      Err (InvalidState (lit "still recovering from a recent run of failures -- try again in "
                         ++ debug_u64 (required - elapsed / SECOND) ++ lit "s")).

Definition is_over (st : LifecycleState) : bool :=
  match st with Terminated | Completed | Failed => true | _ => false end.

(** The first declared profile, or one token per second. *)
Definition request_for (w : Wiring) (cap : text) : ResourceVector :=
  default (set no_resources InferenceTokens 1) (
    query ← plugins w;
    impls ← query cap;
    head (omap resource_profile impls)).

Definition invocation_task (t : CapabilityToken) (i : AgentInstance) (id tid : N) (w : Wiring) (cap : text) : Task :=
  mkTask tid (default 0 (bound_intent i)) (Some id) InteractiveAgent None f32_one (request_for w cap) t (Some cap) JNull.

(** Submission, an epoch, and the verdict on this ticket; [order] is what the sort of the
    real-time tasks does when one has no deadline. *)
Definition admission (now : Instant) (order : list Task -> option (list Task)) (m : M) (sc : Scheduler) (w : Wiring) (task : Task) :
    option (Result bool AgentError * Scheduler) :=
  match submit_task now m sc task with
  | (Err _, sc) => Some (Err Unauthorized, sc)
  | (Ok id, sc) =>
      '(report, sc) ← schedule_epoch order (mkSurroundings (router w) None) sc;
      Some (Ok (default false (is_admitted <$> List.find (fun v => ticket v =? id) report)), sc)
  end.

(** [None] is a panic of the scheduler. *)
Definition prepare_invoke (now : Instant) (order : list Task -> option (list Task)) (wall : nat -> N) (m : M) (t : CapabilityToken)
    (s : AgentRuntime) (w : Wiring) (id : N) (cap : text) : option (Result PreparedInvoke AgentError * AgentRuntime) :=
  match instances s !! id with
  | None => Some (Err NotFound, s)
  | Some i =>
      match auto_resume now (wall 0%nat) m t s i id cap with
      | Err e => Some (Err e, s)
      | Ok (i, s) =>
          if is_over (state i) then
            Some (Err (InvalidState (lit "cannot invoke while " ++ debug_state (state i))), put s i id)
          else
            match resolve_grant i cap with
            | Denied => Some (Ok (Resolved InvokeDenied), put s (audit (wall 1%nat) i (lit "denied") cap) id)
            | PendingConsent =>
                Some (Ok (Resolved InvokePendingConsent),
                      put s (audit (wall 1%nat) (with_consent (with_state i WaitingOnCapability) (Some cap))
                               (lit "pending_consent") cap) id)
            | Granted =>
                let tid := next_task_id s in
                let s := mkRuntime (instances s) (checkpoints s) (suspended_since s) (next_id s) (scheduler s)
                           (u64_add tid 1) (memory s) (explainability s) in
                '(r, sc) ← admission now order m (scheduler s) w (invocation_task t i id tid w cap);
                match r with
                | Err e => Some (Err e, put (with_scheduler s sc) i id)
                | Ok false =>
                    Some (Ok (Resolved InvokeQuotaExceeded),
                          put (with_scheduler s (cancel sc tid).2) (audit (wall 1%nat) i (lit "quota_exceeded") cap) id)
                | Ok true =>
                    let q := quota i in
                    let i := with_quota (with_state i Executing)
                      (mkQuota ((calls_used_this_window q + 1) mod two32) (max_calls_per_window q) (consecutive_failures q)
                         (suspended_at q) (times_suspended q) (consecutive_successes_since_resume q)) in
                    Some (Ok (Proceed tid (bound_intent i)), put (with_scheduler s sc) i id)
                end
            end
      end
  end.

Definition begin_explanation (now : Instant) (wall : N) (m : M) (t : CapabilityToken) (s : AgentRuntime) (id : N)
    (cap : text) (intent : option N) : option N * AgentRuntime :=
  match explainability s with
  | None => (None, s)
  | Some x => let '(e, x) := explain_begin now m t x (default 0 intent) id cap wall in (e, with_explanations s (Some x))
  end.

Definition finish_explanation (now : Instant) (m : M) (t : CapabilityToken) (s : AgentRuntime) (e : option N) (cap : text)
    (ok : bool) : AgentRuntime :=
  match e, explainability s with
  | Some e, Some x => with_explanations s (Some (explain_end now m t x e cap ok))
  | _, _ => s
  end.

(** A streak of successes shortens the next suspension. *)
Definition record_success_after_resume (now : Instant) (wall : N) (m : M) (t : CapabilityToken) (s : AgentRuntime)
    (i : AgentInstance) : AgentInstance * AgentRuntime :=
  let q := quota i in
  if times_suspended q =? 0 then (i, s)
  else
    let streak := consecutive_successes_since_resume q + 1 in
    if SUCCESS_STREAK_TO_DECAY <=? streak then
      let times := times_suspended q - 1 in
      let i := with_quota i (mkQuota (calls_used_this_window q) (max_calls_per_window q) (consecutive_failures q)
                               (suspended_at q) times 0) in
      (audit wall i (lit "backoff_decayed") (lit "times_suspended now " ++ debug_u64 times),
       record_resilience_event now m t s (specialization (manifest i)) (lit "backoff_decayed") [] times)
    else
      (with_quota i (mkQuota (calls_used_this_window q) (max_calls_per_window q) (consecutive_failures q)
                       (suspended_at q) (times_suspended q) streak), s).

(** The circuit breaker. *)
Definition suspend (now : Instant) (wall : nat -> N) (m : M) (t : CapabilityToken) (s : AgentRuntime) (i : AgentInstance)
    (id : N) (cap : text) : AgentInstance * AgentRuntime :=
  let q := quota i in
  let times := (times_suspended q + 1) mod two32 in
  let i := with_quota (with_state i Suspended)
    (mkQuota (calls_used_this_window q) (max_calls_per_window q) (consecutive_failures q) (Some (wall 1%nat)) times 0) in
  (audit (wall 2%nat) i (lit "suspended_runaway")
     (cap ++ lit " (times_suspended=" ++ debug_u64 times ++ lit ", next backoff " ++ debug_u64 (backoff_duration times)
      ++ lit "s)"),
   record_resilience_event now m t (with_suspended s (<[id := now]> (suspended_since s))) (specialization (manifest i))
     (lit "suspended") cap times).

(** The last part of an invocation: the ticket is given back and the outcome
    recorded. *)
Definition finish_invoke (now : Instant) (wall : nat -> N) (m : M) (t : CapabilityToken) (s : AgentRuntime) (id : N)
    (cap : text) (tid : N) (res : Result Json text) : Result InvokeOutcome AgentError * AgentRuntime :=
  let s := with_scheduler s (complete (scheduler s) tid).2 in
  match instances s !! id with
  | None => (Err NotFound, s)
  | Some i =>
      let q := quota i in
      let failures n := with_quota i (mkQuota (calls_used_this_window q) (max_calls_per_window q) n (suspended_at q)
                                        (times_suspended q) (consecutive_successes_since_resume q)) in
      match res with
      | Ok v =>
          let '(i, s) := record_success_after_resume now (wall 1%nat) m t s
                           (audit (wall 0%nat) (failures 0) (lit "invoked") cap) in
          (Ok (InvokeResult v), put s i id)
      | Err reason =>
          let n := (consecutive_failures q + 1) mod two32 in
          let i := audit (wall 0%nat) (failures n) (lit "capability_failed") (cap ++ lit ": " ++ reason) in
          let '(i, s) := if CIRCUIT_BREAKER_THRESHOLD <=? n then suspend now wall m t s i id cap else (i, s) in
          (Ok (InvokeFailed reason), put s i id)
      end
  end.

(** The whole invocation; [others] is what the other threads do while the
    capability is carried out. One reading of the clock per part. *)
Definition invoke (now1 now2 now3 : Instant) (order : list Task -> option (list Task)) (wall : nat -> N) (others : AgentRuntime -> AgentRuntime)
    (m : M) (t : CapabilityToken) (s : AgentRuntime) (w : Wiring) (id : N) (cap : text) (args : Json) :
    option (Result InvokeOutcome AgentError * AgentRuntime) :=
  match require now1 m t EXEC with
  | Err e => Some (Err e, s)
  | Ok _ =>
      '(r, s) ← prepare_invoke now2 order wall m t s w id cap;
      match r with
      | Err e => Some (Err e, s)
      | Ok (Resolved o) => Some (Ok o, s)
      | Ok (Proceed tid intent) =>
          let '(e, s) := begin_explanation now3 (wall 2%nat) m t s id cap intent in
          let s := others s in
          let res := dispatch w t id cap args in
          let s := finish_explanation now3 m t s e cap (is_ok res) in
          Some (finish_invoke now3 (fun n => wall (3 + n)%nat) m t s id cap tid res)
      end
  end.

(** *** Consent, checkpoints and the end *)

(** An operation on one instance that needs the right to write. *)
Definition on_instance {A : Type} (now : Instant) (m : M) (t : CapabilityToken) (s : AgentRuntime) (id : N)
    (f : AgentInstance -> Result A AgentError * AgentInstance) : Result A AgentError * AgentRuntime :=
  match require now m t WRITE with
  | Err e => (Err e, s)
  | Ok _ =>
      match instances s !! id with
      | None => (Err NotFound, s)
      | Some i => let '(r, i) := f i in (r, put s i id)
      end
  end.

Definition resolve_consent (now : Instant) (wall : nat -> N) (m : M) (t : CapabilityToken) (s : AgentRuntime) (id : N)
    (approved : bool) : Result unit AgentError * AgentRuntime :=
  on_instance now m t s id (fun i =>
    match pending_consent i with
    | None => (Err (InvalidState (lit "no pending consent request")), i)
    | Some cap =>
        let i := with_consent i None in
        let i := if approved
                 then audit (wall 1%nat) (with_grants i (grants i ++ [mkAgentGrant cap [] (wall 0%nat)])) (lit "consent_granted") cap
                 else audit (wall 1%nat) i (lit "consent_denied") cap in
        (Ok tt, with_state i Executing)
    end).

Definition grant_capability (now : Instant) (wall : nat -> N) (m : M) (t : CapabilityToken) (s : AgentRuntime) (id : N)
    (cap : text) : Result unit AgentError * AgentRuntime :=
  on_instance now m t s id (fun i =>
    (Ok tt, audit (wall 1%nat) (with_grants i (grants i ++ [mkAgentGrant cap [] (wall 0%nat)])) (lit "consent_granted_direct") cap)).

Definition checkpoint (now : Instant) (wall : nat -> N) (m : M) (t : CapabilityToken) (s : AgentRuntime) (id : N) :
    Result N AgentError * AgentRuntime :=
  match require now m t WRITE with
  | Err e => (Err e, s)
  | Ok _ =>
      match instances s !! id with
      | None => (Err NotFound, s)
      | Some i =>
          let cid := next_id s in
          let ck := mkCheckpoint cid id (manifest i) (bound_intent i) (wall 0%nat) in
          let i := audit (wall 1%nat) (with_state (with_grants i []) Checkpointed) (lit "checkpointed") (debug_u64 cid) in
          (Ok cid, mkRuntime (<[id := i]> (instances s)) (<[cid := ck]> (checkpoints s)) (suspended_since s)
                     (u64_add cid 1) (scheduler s) (next_task_id s) (memory s) (explainability s))
      end
  end.

Definition resume (now : Instant) (wall : N) (m : M) (t : CapabilityToken) (s : AgentRuntime) (cid : N) :
    Result N AgentError * AgentRuntime :=
  match require now m t WRITE with
  | Err e => (Err e, s)
  | Ok _ =>
      match checkpoints s !! cid with
      | None => (Err NotFound, s)
      | Some ck =>
          match instances s !! ck_instance ck with
          | None => (Err NotFound, s)
          | Some i =>
              if negb (bool_decide (state i = Checkpointed)) then
                (Err (InvalidState (lit "cannot resume from " ++ debug_state (state i))), s)
              else (Ok (ck_instance ck),
                    put s (audit wall (with_state i Executing) (lit "resumed") (debug_u64 cid)) (ck_instance ck))
          end
      end
  end.

Definition get_checkpoint (s : AgentRuntime) (cid : N) : option AgentCheckpoint := checkpoints s !! cid.

Definition terminate (now : Instant) (wall : N) (m : M) (t : CapabilityToken) (s : AgentRuntime) (id : N) (reason : text) :
    Result unit AgentError * AgentRuntime :=
  on_instance now m t s id (fun i => (Ok tt, audit wall (with_state i Terminated) (lit "terminated") reason)).

Definition mark_completed (now : Instant) (wall : N) (m : M) (t : CapabilityToken) (s : AgentRuntime) (id : N) :
    Result unit AgentError * AgentRuntime :=
  on_instance now m t s id (fun i => (Ok tt, audit wall (with_state i Completed) (lit "completed") [])).

Definition describe (s : AgentRuntime) (id : N) : option AgentInstance := instances s !! id.
Definition state_of (s : AgentRuntime) (id : N) : option LifecycleState := state <$> instances s !! id.

(** ** Threads *)

(** The runtime and the invocations under way: for each ticket, the agent, the
    capability it was admitted for and the token it came with. *)
Record World := mkWorld {
  rt : AgentRuntime;
  flights : gmap N (N * text * CapabilityToken)
}.

(** What can be seen from outside. *)
Inductive event : Type :=
| Born (id : N) (mf : AgentManifest)
| Consented (id : N) (cap : text)
| Pruned (id : N)
| Dispatched (id : N) (cap : text) (tid : N)
| Finished (id : N) (tid : N) (ok : bool).

(** The counters do not wrap. *)
Definition room (s : AgentRuntime) : Prop := next_id s + 1 < two64 /\ next_task_id s + 1 < two64.

Inductive step : World -> list event -> World -> Prop :=
| step_spawn s fl now wall m t mf intent r s' :
    room s -> spawn now wall m t s mf intent = (r, s') ->
    step (mkWorld s fl) (match r with Ok id => [Born id mf] | Err _ => [] end) (mkWorld s' fl)
| step_begin s fl now1 now2 order wall m t w id cap r s' :
    room s -> require now1 m t EXEC = Ok tt -> prepare_invoke now2 order wall m t s w id cap = Some (r, s') ->
    step (mkWorld s fl)
      (match r with Ok (Proceed tid _) => [Dispatched id cap tid] | _ => [] end)
      (mkWorld s' (match r with Ok (Proceed tid _) => <[tid := (id, cap, t)]> fl | _ => fl end))
| step_explain s fl x : step (mkWorld s fl) [] (mkWorld (with_explanations s x) fl)
| step_finish s fl now wall m id cap t tid res r s' :
    fl !! tid = Some (id, cap, t) -> finish_invoke now wall m t s id cap tid res = (r, s') ->
    step (mkWorld s fl) [Finished id tid (is_ok res)] (mkWorld s' (delete tid fl))
| step_consent s fl now wall m t id approved r s' i cap :
    instances s !! id = Some i -> pending_consent i = Some cap ->
    resolve_consent now wall m t s id approved = (r, s') ->
    step (mkWorld s fl) (if approved && is_ok r then [Consented id cap] else []) (mkWorld s' fl)
| step_no_consent s fl now wall m t id approved r s' :
    (forall i, instances s !! id = Some i -> pending_consent i = None) -> resolve_consent now wall m t s id approved = (r, s') ->
    step (mkWorld s fl) [] (mkWorld s' fl)
| step_grant s fl now wall m t id cap r s' :
    grant_capability now wall m t s id cap = (r, s') ->
    step (mkWorld s fl) (if is_ok r then [Consented id cap] else []) (mkWorld s' fl)
| step_checkpoint s fl now wall m t id r s' :
    room s -> checkpoint now wall m t s id = (r, s') ->
    step (mkWorld s fl) (if is_ok r then [Pruned id] else []) (mkWorld s' fl)
| step_resume s fl now wall m t cid r s' : resume now wall m t s cid = (r, s') -> step (mkWorld s fl) [] (mkWorld s' fl)
| step_terminate s fl now wall m t id reason r s' :
    terminate now wall m t s id reason = (r, s') -> step (mkWorld s fl) [] (mkWorld s' fl)
| step_complete s fl now wall m t id r s' :
    mark_completed now wall m t s id = (r, s') -> step (mkWorld s fl) [] (mkWorld s' fl).

Inductive run (mem : option Mem) (x : option X) : list event -> World -> Prop :=
| run_new : run mem x [] (mkWorld (new mem x) ∅)
| run_step tr w evs w' : run mem x tr w -> step w evs w' -> run mem x (tr ++ evs) w'.

(** ** Admission *)

(** Nobody waits in the scheduler between invocations. *)
Definition idle (sc : Scheduler (Value := Json)) : Prop := realtime_ready sc = [] /\ other_ready sc = [].

Lemma epoch_of_one order env sc (task : Task) :
  idle sc ->
  schedule_epoch order env (Scheduler.with_queues sc [] [task])
  = let '(v, sc') := decide_task env 0 (Scheduler.with_queues sc [] []) task in Some ([v], sc').
Proof.
  intros _. unfold schedule_epoch. simpl. by destruct (decide_task _ _ _ _) as [v sc'].
Qed.

(** The scheduler once a ticket is admitted with [v]. *)
Definition charged (sc : Scheduler) (task : Task) (v : ResourceVector) (why : text) : Scheduler :=
  (admit_task (Scheduler.with_queues sc [] []) task v why).2.

(** An interactive task alone in the scheduler is admitted with its request or a
    cheaper vector that fits, or waits. *)
Lemma admission_cases now order (m : M) sc w (task : Task) :
  idle sc -> class task = InteractiveAgent ->
  (exists e, authorize now m (cap_token task) EXEC = Err e /\ admission now order m sc w task = Some (Err Unauthorized, sc))
  \/ (exists v why, authorize now m (cap_token task) EXEC = Ok tt /\ fits v (ledgers sc) false = true
        /\ admission now order m sc w task = Some (Ok true, charged sc task v why))
  \/ (exists vd, admission now order m sc w task
        = Some (Ok false, Scheduler.with_queues (record_verdict (Scheduler.with_queues sc [] []) vd) [] [aged task])
        /\ fits (request task) (ledgers sc) false = false).
Proof.
  intros Hidle Hclass. unfold admission, submit_task. destruct (authorize now m (cap_token task) EXEC) as [[]|e] eqn:Hau; [|left; by exists e].
  right. rewrite Hclass. destruct Hidle as [Hr Ho]. rewrite Hr, Ho. simpl.
  change (Scheduler.with_queues sc [] ([] ++ [task])) with (Scheduler.with_queues sc [] [task]).
  rewrite (epoch_of_one order _ sc task) by done. unfold decide_task, try_admit. simpl.
  destruct (fits (request task) (ledgers sc) false) eqn:Hfit; simpl.
  { left. exists (request task), (lit "admitted"). split; [done|]. split; [done|]. by rewrite N.eqb_refl. }
  unfold try_degrade. simpl. destruct (router w ≫= _) as [[id v]|] eqn:Hd; simpl.
  { left. apply bind_Some in Hd as (r & _ & (c & _ & [_ Hf]%List.find_some)%bind_Some). eexists v, _. split; [done|]. split; [exact Hf|].
    by rewrite N.eqb_refl. }
  unfold try_offload. rewrite bool_decide_true by (rewrite Hclass; done). simpl. right. eexists. split; [|done].
  by rewrite N.eqb_refl.
Qed.

Lemma cancel_waiting sc vd (task : Task) :
  allocations sc !! task_id task = None ->
  (cancel (Scheduler.with_queues (record_verdict (Scheduler.with_queues sc [] []) vd) [] [aged task]) (task_id task)).2
  = Scheduler.with_queues (record_verdict (Scheduler.with_queues sc [] []) vd) [] [].
Proof. intros Hal. unfold cancel. simpl. rewrite Hal. simpl. by rewrite N.eqb_refl. Qed.

(** A scheduler with the same grants and accounts, and nobody waiting. *)
Definition same_books (sc sc' : Scheduler (Value := Json)) : Prop :=
  ledgers sc' = ledgers sc /\ owners sc' = owners sc /\ allocations sc' = allocations sc /\ idle sc'.

Lemma resilience_same now m t s spec ev cap times :
  exists mem, record_resilience_event now m t s spec ev cap times = with_memory s mem.
Proof.
  unfold record_resilience_event. destruct (memory s) as [mem|]; [by eexists|].
  exists (memory s). by destruct s.
Qed.

(** What coming back from a suspension leaves of an instance and the runtime. *)
Lemma auto_resume_ok now wall m t s i id cap i' s' :
  auto_resume now wall m t s i id cap = Ok (i', s') ->
  manifest i' = manifest i /\ grants i' = grants i /\ bound_intent i' = bound_intent i /\ state i' <> Suspended
  /\ (state i <> Suspended -> i' = i)
  /\ exists ss mem, s' = with_memory (with_suspended s ss) mem /\ forall id', id' <> id -> ss !! id' = suspended_since s !! id'.
Proof.
  unfold auto_resume. by_cases (state i = Suspended) as Hst; simpl; last first.
  { intros [= <- <-]. split_and!; try done. exists (suspended_since s), (memory s). split; [by destruct s|done]. }
  destruct (match suspended_since s !! id with Some _ => _ | None => _ end); [|done]. intros [= <- <-].
  split_and!; try done. destruct (resilience_same now m t (with_suspended s (delete id (suspended_since s)))
    (specialization (manifest i)) (lit "auto_resumed") cap (times_suspended (quota i))) as [mem ->].
  exists (delete id (suspended_since s)), mem. split; [done|]. intros id' Hne. by rewrite lookup_delete_ne.
Qed.

(** Where an instance stands after a preparation that got past its lifecycle. *)
Definition prepared (s : AgentRuntime) (id : N) (i i' : AgentInstance) (s' : AgentRuntime) (sc' : Scheduler) : Prop :=
  manifest i' = manifest i /\ grants i' = grants i /\ state i' <> Suspended
  /\ exists ss mem ntid, s' = mkRuntime (<[id := i']> (instances s)) (checkpoints s) ss (next_id s) sc' ntid mem (explainability s)
     /\ (forall id', id' <> id -> ss !! id' = suspended_since s !! id')
     /\ next_task_id s <= ntid.

Definition is_proceed (r : Result PreparedInvoke AgentError) : bool :=
  match r with Ok (Proceed _ _) => true | _ => false end.

(** What a preparation comes to: it proceeds only with a granted capability and a
    ticket of its own that is charged what fits; otherwise the books are the same. *)
Definition prepare_outcome (now : Instant) (m : M) (t : CapabilityToken) (s : AgentRuntime) (w : Wiring) (id : N) (cap : text)
    (r : Result PreparedInvoke AgentError) (s' : AgentRuntime) : Prop :=
  (s' = s /\ is_proceed r = false)
  \/ exists i i' sc', instances s !! id = Some i /\ prepared s id i i' s' sc'
     /\ ((is_proceed r = false /\ same_books (scheduler s) sc')
         \/ exists v why intent, r = Ok (Proceed (next_task_id s) intent) /\ resolve_grant i cap = Granted
            /\ authorize now m t EXEC = Ok tt
            /\ fits v (ledgers (scheduler s)) false = true /\ next_task_id s' = next_task_id s + 1
            /\ sc' = charged (scheduler s) (invocation_task t i id (next_task_id s) w cap) v why).

Lemma quiet_outcome now m t s w id cap i i' ss sc' ntid mem r :
  instances s !! id = Some i -> manifest i' = manifest i -> grants i' = grants i -> state i' <> Suspended ->
  (forall id', id' <> id -> ss !! id' = suspended_since s !! id') -> next_task_id s <= ntid ->
  is_proceed r = false -> same_books (scheduler s) sc' ->
  prepare_outcome now m t s w id cap r
    (mkRuntime (<[id := i']> (instances s)) (checkpoints s) ss (next_id s) sc' ntid mem (explainability s)).
Proof.
  intros. right. exists i, i', sc'. split; [done|]. split; [|by left]. split_and!; try done. by exists ss, mem, ntid.
Qed.

(** A preparation never panics. *)
Lemma prepare_cases now order wall m t s w id cap :
  idle (scheduler s) -> allocations (scheduler s) !! next_task_id s = None -> next_task_id s + 1 < two64 ->
  exists r s', prepare_invoke now order wall m t s w id cap = Some (r, s') /\ prepare_outcome now m t s w id cap r s'.
Proof.
  intros Hidle Hal Hroom. unfold prepare_invoke. destruct (instances s !! id) as [i|] eqn:Hi; last first.
  { eexists _, _. split; [done|]. by left. }
  destruct (auto_resume _ _ _ _ _ _ _ _) as [[i0 s0]|e] eqn:Hres; last first.
  { eexists _, _. split; [done|]. by left. }
  destruct (auto_resume_ok _ _ _ _ _ _ _ _ _ _ Hres) as (Hm & Hg & Hb & Hns & _ & ss & mem & -> & Hss).
  assert (Hsame : same_books (scheduler s) (scheduler s)) by (unfold same_books; by split_and!).
  assert (Hgrant : resolve_grant i0 cap = resolve_grant i cap) by (unfold resolve_grant; by rewrite Hm, Hg).
  destruct (is_over (state i0)).
  { eexists _, _. split; [done|]. by apply (quiet_outcome now m t s w id cap i _ ss _ _ mem). }
  rewrite Hgrant. destruct (resolve_grant i cap) eqn:Hg0.
  - set (task := invocation_task t i0 id (next_task_id s) w cap). simpl.
    assert (Htask : invocation_task t i id (next_task_id s) w cap = task) by (unfold task, invocation_task; by rewrite Hb).
    change (invocation_task t i0 id _ w cap) with task. rewrite (u64_add_small (next_task_id s) 1) by lia.
    destruct (admission_cases now order m (scheduler s) w task Hidle eq_refl)
      as [(e & _ & ->)|[(v & why & Hau & Hfit & ->)|(vd & -> & _)]]; simpl; eexists _, _; (split; [done|]).
    + apply (quiet_outcome now m t s w id cap i _ ss _ _ mem); try done. simpl. lia.
    + right. eexists i, (with_quota (with_state i0 Executing) _), _. split; [done|]. split.
      * split; [exact Hm|]. split; [exact Hg|]. split; [done|]. exists ss, mem, (next_task_id s + 1).
        split; [reflexivity|]. split; [done|lia].
      * right. exists v, why, (bound_intent i0). rewrite Htask. by split_and!.
    + apply (quiet_outcome now m t s w id cap i _ ss _ _ mem); try done; [simpl; lia|]. simpl. change (next_task_id s) with (task_id task).
      by rewrite cancel_waiting.
  - eexists _, _. split; [done|]. by apply (quiet_outcome now m t s w id cap i _ ss _ _ mem).
  - eexists _, _. split; [done|]. by apply (quiet_outcome now m t s w id cap i _ ss _ _ mem).
Qed.

(** ** The invariant *)

(** The capabilities an agent has consent for, as told by the events. *)
Definition consents (id : N) (tr : list event) : list text :=
  fold_left (fun acc e => match e with
    | Consented id' c => if id' =? id then acc ++ [c] else acc
    | Pruned id' => if id' =? id then [] else acc
    | _ => acc
    end) tr [].

(** The capability is in the manifest the agent was born with, and consented to
    since its last checkpoint if the manifest asks for that. *)
Definition permitted (id : N) (cap : text) (tr : list event) : Prop :=
  exists mf, Born id mf ∈ tr
  /\ (cap ∈ baseline_capabilities mf \/ cap ∈ requestable_capabilities mf /\ cap ∈ consents id tr).

Definition justified (tr : list event) : Prop :=
  forall tr1 id cap tid tr2, tr = tr1 ++ Dispatched id cap tid :: tr2 -> permitted id cap tr1.

Definition instance_ok (tr : list event) (s : AgentRuntime) (id : N) (i : AgentInstance) : Prop :=
  id < next_id s /\ Born id (manifest i) ∈ tr /\ granted_ref <$> grants i = consents id tr
  /\ (state i = Suspended -> is_Some (suspended_since s !! id)).

Record agents_ok (tr : list event) (s : AgentRuntime) : Prop := {
  ok_instances : forall id i, instances s !! id = Some i -> instance_ok tr s id i;
  ok_unborn : forall id, instances s !! id = None -> consents id tr = [];
  ok_born : forall id mf, Born id mf ∈ tr -> exists i, instances s !! id = Some i /\ manifest i = mf
}.

(** The scheduler's books are those of the invocations under way. *)
Record books_ok (s : AgentRuntime) (fl : gmap N (N * text * CapabilityToken)) : Prop := {
  ok_accounted : accounted (scheduler s);
  ok_idle : idle (scheduler s);
  ok_capacity : exists l, ledgers (scheduler s) !! InferenceTokens = Some l /\ capacity l = DEFAULT_QUOTA;
  ok_flights : forall tid, is_Some (allocations (scheduler s) !! tid) <-> is_Some (fl !! tid);
  ok_tickets : forall tid, is_Some (fl !! tid) -> tid < next_task_id s
}.

Definition quiet_for (id : N) (evs : list event) : Prop := forall tr, consents id (tr ++ evs) = consents id tr.

Lemma resolve_grant_permitted tr s id i cap :
  instance_ok tr s id i -> resolve_grant i cap = Granted -> permitted id cap tr.
Proof.
  intros (_ & Hborn & Hgr & _) Hg. exists (manifest i). split; [done|]. unfold resolve_grant in Hg.
  assert (Hin : forall l, existsb (fun c => bool_decide (c = cap)) l = true -> cap ∈ l).
  { intros l (c & Hc & ->%bool_decide_eq_true)%existsb_exists. by apply list_elem_of_In. }
  destruct (existsb _ (baseline_capabilities (manifest i))) eqn:Hb; [left; by apply Hin|].
  destruct (existsb _ (requestable_capabilities (manifest i))) eqn:Hr; [|done].
  destruct (existsb _ (grants i)) eqn:Hgs; [|done]. right. split; [by apply Hin|].
  apply existsb_exists in Hgs as (g & Hgin & Heq%bool_decide_eq_true). rewrite <- Hgr, <- Heq.
  apply list_elem_of_fmap_2. by apply list_elem_of_In.
Qed.

(** One instance changes. *)
Lemma agents_put tr evs s s' id i i' :
  agents_ok tr s -> instances s !! id = Some i -> instances s' = <[id := i']> (instances s) -> next_id s <= next_id s' ->
  manifest i' = manifest i -> granted_ref <$> grants i' = consents id (tr ++ evs) ->
  (state i' = Suspended -> is_Some (suspended_since s' !! id)) ->
  (forall id', id' <> id -> suspended_since s' !! id' = suspended_since s !! id') ->
  (forall id', id' <> id -> quiet_for id' evs) -> (forall id' mf, Born id' mf ∉ evs) -> agents_ok (tr ++ evs) s'.
Proof.
  intros [Hin Hno Hborn] Hi Hs' Hn Hm Hg Hst Hss Hq Hnb. constructor; rewrite Hs'.
  - intros id' j [[<- <-]|[Hne Hj]]%lookup_insert_Some.
    + destruct (Hin _ _ Hi) as (? & Hb & _). split; [lia|]. rewrite Hm. split; [apply elem_of_app; by left|done].
    + destruct (Hin _ _ Hj) as (? & Hb & Hgr & Hsus). split; [lia|]. split; [apply elem_of_app; by left|].
      split; [by rewrite Hq by done|]. by rewrite Hss by done.
  - intros id' [Hid' Hne]%lookup_insert_None. rewrite Hq by done. by apply Hno.
  - intros id' mf [Hb|Hb]%elem_of_app; [|by destruct (Hnb id' mf)]. destruct (Hborn _ _ Hb) as (j & Hj & Hmj).
    destruct (decide (id = id')) as [<-|Hne]; [exists i'; rewrite lookup_insert_eq; split; [done|congruence]|].
    exists j. by rewrite lookup_insert_ne.
Qed.

Lemma not_born_one e : match e with Born _ _ => False | _ => True end -> forall id' mf, Born id' mf ∉ [e].
Proof. by intros He id' mf <-%list_elem_of_singleton. Qed.

Lemma not_born_nil : forall id' mf, Born id' mf ∉ ([] : list event).
Proof. intros id' mf. apply not_elem_of_nil. Qed.
#[local] Hint Resolve not_born_one not_born_nil : core.

Lemma agents_same tr s s' :
  agents_ok tr s -> instances s' = instances s -> next_id s' = next_id s -> suspended_since s' = suspended_since s ->
  agents_ok (tr ++ []) s'.
Proof.
  intros [Hin Hno Hb] Hi Hn Hs. rewrite app_nil_r. constructor; rewrite Hi; [|done|done]. intros id i Hid. unfold instance_ok. rewrite Hn, Hs. by apply Hin.
Qed.

Lemma justified_snoc tr e :
  justified tr -> (forall id cap tid, e = Dispatched id cap tid -> permitted id cap tr) -> justified (tr ++ [e]).
Proof.
  intros Hj He tr1 id cap tid tr2 Heq. destruct tr2 as [|e' tr2 _] using rev_ind.
  - apply app_inj_tail in Heq as [<- ->]. by eapply He.
  - rewrite app_comm_cons, app_assoc in Heq. apply app_inj_tail in Heq as [-> _]. by eapply Hj.
Qed.

(** ** Every call keeps it *)

Lemma accounted_same sc sc' : same_books sc sc' -> accounted sc -> accounted sc'.
Proof. intros (Hl & Ho & Ha & _) [H1' H2']. split; rewrite ?Hl, ?Ha, ?Ho; done. Qed.

Lemma books_same s s' fl :
  books_ok s fl -> same_books (scheduler s) (scheduler s') -> next_task_id s <= next_task_id s' -> books_ok s' fl.
Proof.
  intros [Hacc Hidle Hcap Hfl Htk] Hb Hn. pose proof Hb as (Hl & Ho & Ha & Hi). constructor.
  - by eapply accounted_same.
  - done.
  - by rewrite Hl.
  - by rewrite Ha.
  - intros tid Ht. specialize (Htk tid Ht). lia.
Qed.

Lemma books_kept s s' fl :
  books_ok s fl -> scheduler s' = scheduler s -> next_task_id s' = next_task_id s -> books_ok s' fl.
Proof.
  intros Hb Hs Hn. eapply books_same; [exact Hb| |lia]. rewrite Hs. unfold same_books. split_and!; try done. apply Hb.
Qed.

(** A ticket is charged. *)
Lemma books_charge s s' fl task v why x :
  books_ok s fl -> task_id task = next_task_id s -> fits v (ledgers (scheduler s)) false = true ->
  scheduler s' = charged (scheduler s) task v why -> next_task_id s' = next_task_id s + 1 ->
  books_ok s' (<[next_task_id s := x]> fl).
Proof.
  intros [Hacc Hidle (l & Hl & Hcap) Hfl Htk] Hid Hfit Hs Hn.
  assert (Hfree : allocations (scheduler s) !! task_id task = None).
  { rewrite Hid. apply eq_None_not_Some. rewrite Hfl. intros Hx. specialize (Htk _ Hx). lia. }
  constructor; rewrite ?Hs.
  - unfold charged. by eapply (accounted_charge (Scheduler.with_queues (scheduler s) [] []) task v why false).
  - done.
  - unfold charged. simpl. rewrite lookup_charge, Hl. by eexists.
  - intros tid. unfold charged. simpl. rewrite Hid. destruct (decide (next_task_id s = tid)) as [<-|Hne].
    + rewrite !lookup_insert_eq. by split; intros _; eexists.
    + rewrite !lookup_insert_ne by done. apply Hfl.
  - intros tid. rewrite Hn. destruct (decide (next_task_id s = tid)) as [<-|Hne]; [lia|].
    rewrite lookup_insert_ne by done. intros Ht. specialize (Htk _ Ht). lia.
Qed.

(** A ticket is given back. *)
Lemma books_complete s s' fl tid :
  books_ok s fl -> is_Some (fl !! tid) -> scheduler s' = (complete (scheduler s) tid).2 -> next_task_id s' = next_task_id s ->
  books_ok s' (delete tid fl).
Proof.
  intros [Hacc Hidle (l & Hl & Hcap) Hfl Htk] Hin Hs Hn. apply Hfl in Hin as Hal. destruct Hal as [a Ha].
  assert (Hc : scheduler s' = release (without_allocation (scheduler s) tid) a) by (rewrite Hs; unfold complete; by rewrite Ha).
  constructor; rewrite ?Hc.
  - by apply accounted_release.
  - done.
  - simpl. rewrite lookup_release, Hl. by eexists.
  - intros tid'. simpl. destruct (decide (tid = tid')) as [<-|Hne].
    + rewrite !lookup_delete_eq. done.
    + rewrite !lookup_delete_ne by done. apply Hfl.
  - intros tid'. rewrite Hn. destruct (decide (tid = tid')) as [<-|Hne]; [rewrite lookup_delete_eq; by intros []|].
    rewrite lookup_delete_ne by done. apply Htk.
Qed.

Record world_ok (tr : list event) (w : World) : Prop := {
  ok_agents : agents_ok tr (rt w);
  ok_books : books_ok (rt w) (flights w);
  ok_justified : justified tr
}.

Lemma consents_snoc id tr e :
  consents id (tr ++ [e]) = match e with
    | Consented id' c => if id' =? id then consents id tr ++ [c] else consents id tr
    | Pruned id' => if id' =? id then [] else consents id tr
    | _ => consents id tr
    end.
Proof. unfold consents. by rewrite fold_left_app. Qed.

Lemma quiet_nil id : quiet_for id [].
Proof. intros tr. by rewrite app_nil_r. Qed.

Lemma quiet_one id e :
  match e with Consented id' _ | Pruned id' => id' <> id | _ => True end -> quiet_for id [e].
Proof.
  intros He tr. rewrite consents_snoc. destruct e; try done; by assert (id0 =? id = false) as -> by (by apply N.eqb_neq).
Qed.
#[local] Hint Resolve quiet_nil quiet_one : core.

Lemma on_instance_cases {A} now m t s id (f : AgentInstance -> Result A AgentError * AgentInstance) r s' :
  on_instance now m t s id f = (r, s') ->
  (s' = s /\ is_ok r = false) \/ exists i, instances s !! id = Some i /\ r = (f i).1 /\ s' = put s (f i).2 id.
Proof.
  unfold on_instance. destruct (require now m t WRITE) as [[]|e]; [|intros [= <- <-]; by left].
  destruct (instances s !! id) as [i|] eqn:Hi; [|intros [= <- <-]; by left].
  destruct (f i) as [r' i'] eqn:Hf. intros [= <- <-]. right. exists i. by rewrite Hf.
Qed.

(** A call that only touches one instance and the consents it is seen with. *)
Lemma world_on_instance {A} now m t tr s fl id (f : AgentInstance -> Result A AgentError * AgentInstance) r s' evs :
  world_ok tr (mkWorld s fl) -> on_instance now m t s id f = (r, s') ->
  (is_ok r = false -> instances s !! id = None \/ evs = []) ->
  (forall i, instances s !! id = Some i -> r = (f i).1 -> manifest (f i).2 = manifest i
     /\ (granted_ref <$> grants (f i).2 = consents id (tr ++ evs) \/ evs = [] /\ grants (f i).2 = grants i)
     /\ (state (f i).2 = Suspended -> state i = Suspended)) ->
  (forall id', id' <> id -> quiet_for id' evs) -> (evs = [] \/ exists e, evs = [e] /\ match e with Consented _ _ | Pruned _ => True | _ => False end) ->
  (is_ok r = false -> s' = s -> evs = []) ->
  world_ok (tr ++ evs) (mkWorld s' fl).
Proof.
  intros [Hag Hbk Hj] Hon Hno Hf Hq Hev Hsame.
  assert (Hj' : justified (tr ++ evs)).
  { destruct Hev as [->|(e & -> & He)]; [by rewrite app_nil_r|]. apply justified_snoc; [done|]. by intros ? ? ? ->. }
  apply on_instance_cases in Hon as [[-> Hr]|(i & Hi & Hr & ->)].
  { rewrite (Hsame Hr eq_refl), app_nil_r in *. by constructor. }
  destruct (Hf i Hi Hr) as (Hm & Hg & Hst). constructor; simpl; [|by eapply books_kept|done].
  destruct (ok_instances _ _ Hag _ _ Hi) as (_ & _ & Hgr & Hsus).
  eapply (agents_put _ _ s _ id i); simpl; try done.
  - destruct Hg as [?|[-> ->]]; [done|]. by rewrite app_nil_r.
  - intros Hs. by apply Hsus, Hst.
  - intros id' mf. destruct Hev as [->|(e & -> & He)]; [apply not_elem_of_nil|]. by intros <-%list_elem_of_singleton.
Qed.

Lemma world_spawn tr s fl now wall m t mf intent r s' :
  world_ok tr (mkWorld s fl) -> room s -> spawn now wall m t s mf intent = (r, s') ->
  world_ok (tr ++ match r with Ok id => [Born id mf] | Err _ => [] end) (mkWorld s' fl).
Proof.
  intros [Hag Hbk Hj] [Hroom _]. unfold spawn. destruct (require now m t WRITE) as [[]|e]; intros [= <- <-]; simpl in *; last first.
  { by rewrite app_nil_r. }
  assert (Hfresh : instances s !! next_id s = None).
  { apply eq_None_not_Some. intros [i Hi]. destruct (ok_instances _ _ Hag _ _ Hi) as [? _]. simpl in *. lia. }
  constructor; simpl; [|by eapply books_kept|by apply justified_snoc].
  constructor; simpl; rewrite ?u64_add_small by lia.
  - intros id i [[<- <-]|[Hne Hi]]%lookup_insert_Some; unfold instance_ok; simpl; rewrite ?u64_add_small by lia.
    + rewrite consents_snoc, (ok_unborn _ _ Hag _ Hfresh). split_and!; try done; [lia|].
      apply elem_of_app. right. by apply list_elem_of_singleton.
    + destruct (ok_instances _ _ Hag _ _ Hi) as (? & ? & ? & ?). simpl in *. rewrite consents_snoc.
      split_and!; try done; [lia|]. apply elem_of_app. by left.
  - intros id [? ?]%lookup_insert_None. rewrite consents_snoc. by apply (ok_unborn _ _ Hag).
  - intros id mf' [Hb|[= -> ->]%list_elem_of_singleton]%elem_of_app; [|eexists; by rewrite lookup_insert_eq].
    destruct (ok_born _ _ Hag _ _ Hb) as (j & Hj' & Hmj). exists j. rewrite lookup_insert_ne; [done|]. simpl in *. congruence.
Qed.

Lemma world_begin tr s fl now order wall m t w id cap r s' :
  world_ok tr (mkWorld s fl) -> room s -> prepare_invoke now order wall m t s w id cap = Some (r, s') ->
  world_ok (tr ++ match r with Ok (Proceed tid _) => [Dispatched id cap tid] | _ => [] end)
    (mkWorld s' (match r with Ok (Proceed tid _) => <[tid := (id, cap, t)]> fl | _ => fl end)).
Proof.
  intros [Hag Hbk Hj] [_ Hroom] Hp. simpl in *.
  assert (Hfree : allocations (scheduler s) !! next_task_id s = None).
  { apply eq_None_not_Some. rewrite (ok_flights _ _ Hbk). intros Hx%(ok_tickets _ _ Hbk). lia. }
  destruct (prepare_cases now order wall m t s w id cap (ok_idle _ _ Hbk) Hfree Hroom) as (r0 & s0 & Hp0 & Hout).
  rewrite Hp in Hp0. injection Hp0 as <- <-.
  assert (Hquiet : is_proceed r = false ->
    match r with Ok (Proceed tid _) => [Dispatched id cap tid] | _ => [] end = [] /\
    match r with Ok (Proceed tid _) => <[tid := (id, cap, t)]> fl | _ => fl end = fl) by (by destruct r as [[]|]).
  destruct Hout as [[-> Hr]|(i & i' & sc' & Hi & (Hm & Hg & Hst & ss & mem & ntid & -> & Hss & Hn) & Hcase)].
  { destruct (Hquiet Hr) as [-> ->]. rewrite app_nil_r. by constructor. }
  destruct (ok_instances _ _ Hag _ _ Hi) as (Hlt & Hborn & Hgr & _).
  destruct Hcase as [[Hr Hsame]|(v & why & intent & -> & Hgrant & _ & Hfit & Hntid & ->)].
  - destruct (Hquiet Hr) as [-> ->]. constructor; simpl; [|by eapply books_same|by rewrite app_nil_r].
    eapply (agents_put _ _ s _ id i); simpl; try done. by rewrite app_nil_r, Hg.
  - constructor; simpl.
    + eapply (agents_put _ _ s _ id i); simpl; try done; [by rewrite consents_snoc, Hg| |by apply not_born_one].
      intros id' _. by apply quiet_one.
    + by apply (books_charge s _ fl (invocation_task t i id (next_task_id s) w cap) v why).
    + apply justified_snoc; [done|]. intros ? ? ? [= <- <- _]. eapply resolve_grant_permitted; [|done]. by apply (ok_instances _ _ Hag).
Qed.

Lemma suspend_cases now wall m t s i id cap i' s' :
  suspend now wall m t s i id cap = (i', s') ->
  manifest i' = manifest i /\ grants i' = grants i /\ state i' = Suspended
  /\ exists mem, s' = with_memory (with_suspended s (<[id := now]> (suspended_since s))) mem.
Proof.
  unfold suspend. cbv zeta. intros Hs. injection Hs as Hi' Hs'. subst i'. split_and!; try done.
  edestruct resilience_same as [mem Hmem]. rewrite Hmem in Hs'. by exists mem.
Qed.

Lemma success_cases now wall m t s i i' s' :
  record_success_after_resume now wall m t s i = (i', s') ->
  manifest i' = manifest i /\ grants i' = grants i /\ state i' = state i /\ exists mem, s' = with_memory s mem.
Proof.
  unfold record_success_after_resume. assert (Hself : s = with_memory s (memory s)) by (by destruct s).
  destruct (times_suspended (quota i) =? 0); [intros [= <- <-]; by split_and!; eauto|].
  destruct (SUCCESS_STREAK_TO_DECAY <=? _); intros Hs; injection Hs as <- Hs'; split_and!; try done.
  - edestruct resilience_same as [mem Hmem]. rewrite Hmem in Hs'. by exists mem.
  - exists (memory s'). subst s'. exact Hself.
Qed.

(** What recording an outcome changes. *)
Lemma finish_cases now wall m t s id cap tid res r s' :
  finish_invoke now wall m t s id cap tid res = (r, s') ->
  scheduler s' = (complete (scheduler s) tid).2 /\ next_task_id s' = next_task_id s /\ next_id s' = next_id s
  /\ ((instances s !! id = None /\ instances s' = instances s /\ suspended_since s' = suspended_since s)
      \/ exists i i', instances s !! id = Some i /\ instances s' = <[id := i']> (instances s)
         /\ manifest i' = manifest i /\ grants i' = grants i
         /\ ((state i' = state i /\ suspended_since s' = suspended_since s)
             \/ (state i' = Suspended /\ suspended_since s' = <[id := now]> (suspended_since s)))).
Proof.
  unfold finish_invoke. cbv zeta. set (s0 := with_scheduler s _). change (instances s0) with (instances s).
  destruct (instances s !! id) as [i|] eqn:Hi; last first.
  { intros [= <- <-]. split_and!; try done. by left. }
  destruct res as [v|reason].
  - destruct (record_success_after_resume _ _ _ _ _ _) as [i1 s1] eqn:Hok. intros [= <- <-].
    apply success_cases in Hok as (Hm & Hg & Hst & mem & ->). split_and!; try done. right. exists i, i1. split_and!; try done. by left.
  - destruct (CIRCUIT_BREAKER_THRESHOLD <=? _).
    + destruct (suspend _ _ _ _ _ _ _ _) as [i1 s1] eqn:Hsus. intros [= <- <-].
      apply suspend_cases in Hsus as (Hm & Hg & Hst & mem & ->). split_and!; try done. right. exists i, i1. split_and!; try done. by right.
    + intros [= <- <-]. split_and!; try done. right. eexists i, _. split_and!; [done|reflexivity|done..|]. by left.
Qed.

Lemma world_finish tr s fl now wall m id cap t tid res r s' :
  world_ok tr (mkWorld s fl) -> fl !! tid = Some (id, cap, t) -> finish_invoke now wall m t s id cap tid res = (r, s') ->
  world_ok (tr ++ [Finished id tid (is_ok res)]) (mkWorld s' (delete tid fl)).
Proof.
  intros [Hag Hbk Hj] Hfl Hf. apply finish_cases in Hf as (Hsc & Hnt & Hni & Hcase). simpl in *. constructor; simpl.
  - destruct Hcase as [(_ & Hins & Hss)|(i & i' & Hi & Hins & Hm & Hg & Hst)].
    + destruct Hag as [Hin Hno Hbn]. constructor; rewrite Hins; [|intros id' Hid'; rewrite consents_snoc; by apply Hno|].
      2: { intros id' mf [Hb|Hb]%elem_of_app; [by apply Hbn|]. by apply list_elem_of_singleton in Hb. }
      intros id' j Hj'. destruct (Hin _ _ Hj') as (? & ? & ? & ?). unfold instance_ok. rewrite Hni, Hss, consents_snoc.
      split_and!; try done. apply elem_of_app. by left.
    + destruct (ok_instances _ _ Hag _ _ Hi) as (_ & _ & Hgr & Hsus).
      eapply (agents_put _ _ s _ id i); try done; [lia|by rewrite consents_snoc, Hg|..].
      * intros Hs. destruct Hst as [[Heq ->]|[_ ->]]; [apply Hsus; congruence|]. rewrite lookup_insert_eq. by eexists.
      * intros id' Hne. destruct Hst as [[_ ->]|[_ ->]]; [done|]. by rewrite lookup_insert_ne.
      * intros id' _. by apply quiet_one.
      * by apply not_born_one.
  - eapply books_complete; [done|by eexists|done|done].
  - by apply justified_snoc.
Qed.

Lemma world_checkpoint tr s fl now wall m t id r s' :
  world_ok tr (mkWorld s fl) -> room s -> checkpoint now wall m t s id = (r, s') ->
  world_ok (tr ++ if is_ok r then [Pruned id] else []) (mkWorld s' fl).
Proof.
  intros [Hag Hbk Hj] [Hroom _]. unfold checkpoint.
  destruct (require now m t WRITE) as [[]|e]; [|intros [= <- <-]; simpl; by rewrite app_nil_r].
  destruct (instances s !! id) as [i|] eqn:Hi; [|intros [= <- <-]; simpl; by rewrite app_nil_r].
  intros [= <- <-]. simpl in *. constructor; simpl; [|by eapply books_kept|by apply justified_snoc].
  eapply (agents_put _ _ s _ id i); simpl; try done.
  - rewrite u64_add_small by lia. lia.
  - by rewrite consents_snoc, N.eqb_refl.
  - intros id' Hne. by apply quiet_one.
  - by apply not_born_one.
Qed.

Lemma world_resume tr s fl now wall m t cid r s' :
  world_ok tr (mkWorld s fl) -> resume now wall m t s cid = (r, s') -> world_ok (tr ++ []) (mkWorld s' fl).
Proof.
  intros [Hag Hbk Hj]. unfold resume.
  assert (Hsame : world_ok (tr ++ []) (mkWorld s fl)) by (by rewrite app_nil_r).
  destruct (require now m t WRITE) as [[]|e]; [|by intros [= <- <-]].
  destruct (checkpoints s !! cid) as [ck|]; [|by intros [= <- <-]].
  destruct (instances s !! ck_instance ck) as [i|] eqn:Hi; [|by intros [= <- <-]].
  destruct (negb _); [by intros [= <- <-]|]. intros [= <- <-]. simpl in *.
  constructor; simpl; [|by eapply books_kept|by rewrite app_nil_r].
  destruct (ok_instances _ _ Hag _ _ Hi) as (_ & _ & Hgr & _).
  eapply (agents_put _ _ s _ (ck_instance ck) i); simpl; try done. by rewrite app_nil_r.
Qed.

Lemma world_consent tr s fl now wall m t id approved r s' i cap :
  world_ok tr (mkWorld s fl) -> instances s !! id = Some i -> pending_consent i = Some cap ->
  resolve_consent now wall m t s id approved = (r, s') ->
  world_ok (tr ++ if approved && is_ok r then [Consented id cap] else []) (mkWorld s' fl).
Proof.
  intros Hw Hi Hc Hr. pose proof (ok_instances _ _ (ok_agents _ _ Hw) _ _ Hi) as (_ & _ & Hgr & _).
  eapply world_on_instance; [exact Hw|exact Hr|..].
  - intros ->. rewrite andb_false_r. by right.
  - intros i' Hi' Hr'. simpl in *. rewrite Hi in Hi'. injection Hi' as <-. rewrite Hc in Hr' |- *. simpl in *. subst r.
    destruct approved; simpl; split_and!; try done; [left|right; done]. rewrite fmap_app, Hgr, consents_snoc, N.eqb_refl. done.
  - intros id' Hne. destruct (approved && is_ok r); [by apply quiet_one|apply quiet_nil].
  - destruct (approved && is_ok r); [right; by eexists|by left].
  - intros -> _. by rewrite andb_false_r.
Qed.

Lemma world_no_consent tr s fl now wall m t id approved r s' :
  world_ok tr (mkWorld s fl) -> (forall i, instances s !! id = Some i -> pending_consent i = None) ->
  resolve_consent now wall m t s id approved = (r, s') -> world_ok (tr ++ []) (mkWorld s' fl).
Proof.
  intros Hw Hno Hr. eapply world_on_instance; [exact Hw|exact Hr|by right| |done|by left|done].
  intros i Hi _. simpl. rewrite (Hno _ Hi). simpl. split_and!; try done. by right.
Qed.

Lemma world_grant tr s fl now wall m t id cap r s' :
  world_ok tr (mkWorld s fl) -> grant_capability now wall m t s id cap = (r, s') ->
  world_ok (tr ++ if is_ok r then [Consented id cap] else []) (mkWorld s' fl).
Proof.
  intros Hw Hr. eapply world_on_instance; [exact Hw|exact Hr|..].
  - intros ->. by right.
  - intros i Hi ->. simpl. split_and!; try done. left.
    destruct (ok_instances _ _ (ok_agents _ _ Hw) _ _ Hi) as (_ & _ & Hgr & _).
    by rewrite fmap_app, Hgr, consents_snoc, N.eqb_refl.
  - intros id' Hne. destruct (is_ok r); [by apply quiet_one|apply quiet_nil].
  - destruct (is_ok r); [right; by eexists|by left].
  - by intros ->.
Qed.

Lemma world_step tr w evs w' : world_ok tr w -> step w evs w' -> world_ok (tr ++ evs) w'.
Proof.
  intros Hw Hst. destruct Hst; eauto using world_spawn, world_begin, world_finish, world_consent, world_no_consent, world_grant,
    world_checkpoint, world_resume.
  - destruct Hw as [Hag Hbk Hj]. constructor; simpl in *; [by eapply agents_same|by eapply books_kept|by rewrite app_nil_r].
  - eapply world_on_instance; [exact Hw|eassumption|by right| |done|by left|done]. intros i Hi _. simpl. split_and!; try done. by right.
  - eapply world_on_instance; [exact Hw|eassumption|by right| |done|by left|done]. intros i Hi _. simpl. split_and!; try done. by right.
Qed.

Lemma world_new mem x : world_ok [] (mkWorld (new mem x) ∅).
Proof.
  constructor; simpl.
  - constructor; simpl; [by intros ? ? ?%lookup_empty_Some|done|by intros ? ? ?%elem_of_nil].
  - constructor; simpl; [|done|by eexists|intros tid; by rewrite !lookup_empty|intros tid; rewrite lookup_empty; by intros []].
    split; [|intros o d; simpl; apply get_no_resources].
    intros d. simpl. destruct (decide (InferenceTokens = d)) as [<-|Hne]; [by rewrite lookup_insert_eq|].
    by rewrite lookup_insert_ne.
  - intros tr1 id cap tid tr2. by destruct tr1.
Qed.

Lemma world_run mem x tr w : run mem x tr w -> world_ok tr w.
Proof. induction 1; [apply world_new|by eapply world_step]. Qed.

(** ** Theorems *)

(** C19. Agents are confined. Whatever the interleaving of invocations, consents,
    checkpoints and ends: each agent has one manifest for life, and a capability is
    carried out for it only if that manifest lists it as its own, or lists it as one
    to ask for and it was consented to for this agent since its last checkpoint. *)
Theorem agents_confined mem x tr w :
  run mem x tr w ->
  (forall id mf mf', Born id mf ∈ tr -> Born id mf' ∈ tr -> mf = mf')
  /\ forall tr1 id cap tid tr2, tr = tr1 ++ Dispatched id cap tid :: tr2 ->
     exists mf, Born id mf ∈ tr1
     /\ (cap ∈ baseline_capabilities mf \/ cap ∈ requestable_capabilities mf /\ cap ∈ consents id tr1).
Proof.
  intros Hw%world_run. destruct Hw as [Hag _ Hj]. split; [|exact Hj]. intros id mf mf' H1' H2'.
  destruct (ok_born _ _ Hag _ _ H1') as (i & Hi & <-), (ok_born _ _ Hag _ _ H2') as (j & Hj' & <-). congruence.
Qed.

(** Invocations under way and the scheduler's books agree, in any
    interleaving: exactly the tickets of the invocations under way are charged, in
    all for at most the quota, and nothing is charged when none is under way.
    Preparing one never panics; one that goes ahead has a ticket of its own, and
    recording its outcome gives exactly that ticket back. *)
Theorem agents_accounts mem x tr w :
  run mem x tr w ->
  (forall tid, is_Some (allocations (scheduler (rt w)) !! tid) <-> is_Some (flights w !! tid))
  /\ (exists l, query_ledger (scheduler (rt w)) InferenceTokens = Some l
        /\ allocated l = granted anyone (allocations (scheduler (rt w))) InferenceTokens
        /\ allocated l <= DEFAULT_QUOTA /\ (flights w = ∅ -> allocated l = 0))
  /\ (forall now order wall m t wi id cap, room (rt w) -> exists r s', prepare_invoke now order wall m t (rt w) wi id cap = Some (r, s')
        /\ forall tid intent, r = Ok (Proceed tid intent) -> flights w !! tid = None
             /\ dom (allocations (scheduler s')) = {[tid]} ∪ dom (allocations (scheduler (rt w))))
  /\ (forall tid id cap t now wall m res r s', flights w !! tid = Some (id, cap, t) ->
        finish_invoke now wall m t (rt w) id cap tid res = (r, s') ->
        allocations (scheduler s') = delete tid (allocations (scheduler (rt w)))).
Proof.
  intros Hw%world_run. destruct w as [s fl]. destruct Hw as [_ Hbk _]. simpl in *.
  pose proof Hbk as [Hacc Hidle (l & Hl & Hcap) Hfl Htk]. split_and!.
  - done.
  - exists l. destruct Hacc as [Hled _]. specialize (Hled InferenceTokens). rewrite Hl in Hled. destruct Hled as (Heq & Hle & _).
    split_and!; [done|done|by rewrite <- Hcap|]. intros ->. rewrite Heq.
    replace (allocations (scheduler s)) with (∅ : gmap N Allocation); [done|]. symmetry. apply map_empty. intros tid.
    apply eq_None_not_Some. rewrite Hfl, lookup_empty. by intros [].
  - intros now order wall m t wi id cap [_ Hroom].
    assert (Hfree : fl !! next_task_id s = None) by (apply eq_None_not_Some; intros Hx%Htk; lia).
    assert (Hfree' : allocations (scheduler s) !! next_task_id s = None) by (apply eq_None_not_Some; rewrite Hfl, Hfree; by intros []).
    destruct (prepare_cases now order wall m t s wi id cap Hidle Hfree' Hroom) as (r & s' & Hp & Hout).
    exists r, s'. split; [done|]. intros tid intent ->.
    destruct Hout as [[_ ?]|(i & i' & sc' & _ & (_ & _ & _ & ss & mem' & ntid & -> & _) & [[? _]|Hgo])]; [done..|].
    destruct Hgo as (v & why & intent' & [= -> _] & _ & _ & _ & _ & ->). split; [done|]. unfold charged. simpl. by rewrite dom_insert_L.
  - intros tid id cap t now wall m res r s' Hin Hf. apply finish_cases in Hf as (-> & _). unfold complete.
    destruct (allocations (scheduler s) !! tid) as [a|] eqn:Ha; [done|]. assert (Hs : is_Some (fl !! tid)) by (by eexists).
    apply Hfl in Hs as [? ?]. congruence.
Qed.

(** Past its suspension an agent is no longer suspended. *)
Lemma prepare_resumes now order wall m t s w id cap i i0 s0 r s' :
  instances s !! id = Some i -> auto_resume now (wall 0%nat) m t s i id cap = Ok (i0, s0) ->
  prepare_invoke now order wall m t s w id cap = Some (r, s') ->
  exists i', instances s' !! id = Some i' /\ state i' <> Suspended.
Proof.
  intros Hi Hres. unfold prepare_invoke. rewrite Hi, Hres. apply auto_resume_ok in Hres as (_ & _ & _ & Hns & _).
  destruct (is_over (state i0)); [intros [= <- <-]; exists i0; simpl; by rewrite lookup_insert_eq|].
  destruct (resolve_grant i0 cap).
  - destruct (admission _ _ _ _ _ _) as [[[[]|e] sc]|]; simpl; [..|done]; intros [= <- <-]; eexists; simpl; by rewrite lookup_insert_eq.
  - intros [= <- <-]. eexists. simpl. by rewrite lookup_insert_eq.
  - intros [= <- <-]. eexists. simpl. by rewrite lookup_insert_eq.
Qed.

(** What a failure does to the agent. *)
Lemma finish_failed now wall m t s id i cap tid reason r s' :
  instances s !! id = Some i -> finish_invoke now wall m t s id cap tid (Err reason) = (r, s') ->
  consecutive_failures (quota i) + 1 < two32 -> times_suspended (quota i) + 1 < two32 ->
  exists i', instances s' !! id = Some i' /\ r = Ok (InvokeFailed reason)
  /\ consecutive_failures (quota i') = consecutive_failures (quota i) + 1
  /\ (if CIRCUIT_BREAKER_THRESHOLD <=? consecutive_failures (quota i) + 1
      then state i' = Suspended /\ suspended_since s' !! id = Some now
           /\ times_suspended (quota i') = times_suspended (quota i) + 1
      else state i' = state i /\ times_suspended (quota i') = times_suspended (quota i)).
Proof.
  intros Hi Hf Hb1 Hb2. unfold finish_invoke in Hf. cbv zeta in Hf. simpl in Hf. rewrite Hi in Hf.
  rewrite (N.mod_small (consecutive_failures (quota i) + 1)) in Hf by done.
  destruct (CIRCUIT_BREAKER_THRESHOLD <=? consecutive_failures (quota i) + 1).
  - unfold suspend in Hf. cbv zeta in Hf. simpl in Hf. rewrite (N.mod_small (times_suspended (quota i) + 1)) in Hf by done.
    edestruct resilience_same as [mem' Hmem]. rewrite Hmem in Hf. injection Hf as <- <-. eexists. simpl.
    rewrite !lookup_insert_eq. by split_and!.
  - injection Hf as <- <-. eexists. simpl. rewrite lookup_insert_eq. by split_and!.
Qed.

Lemma backoff_bounds n : 1 <= backoff_duration n <= 32.
Proof.
  unfold backoff_duration. assert (2 ^ 0 <= 2 ^ (N.max 1 (N.min n 6) - 1) <= 2 ^ 5) by (split; apply N.pow_le_mono_r; lia).
  done.
Qed.

(** The circuit breaker. A suspended agent is let alone until its pause is
    over: until then every preparation fails and changes nothing, and from then on
    none is refused for it. A failure counts one more, and from the third in a row
    on suspends the agent from that moment and lengthens the pauses, which are
    between one and thirty-two seconds. *)
Theorem breaker_spec mem x tr w id i :
  run mem x tr w -> instances (rt w) !! id = Some i ->
  (state i = Suspended -> exists since, suspended_since (rt w) !! id = Some since
     /\ (forall now order wall m t wi cap, now - since < backoff_duration (times_suspended (quota i)) * SECOND ->
           exists why, prepare_invoke now order wall m t (rt w) wi id cap = Some (Err (InvalidState why), rt w))
     /\ (forall now order wall m t wi cap r s', since + backoff_duration (times_suspended (quota i)) * SECOND <= now ->
           prepare_invoke now order wall m t (rt w) wi id cap = Some (r, s') ->
           exists i', instances s' !! id = Some i' /\ state i' <> Suspended))
  /\ (forall now wall m t cap tid reason r s', finish_invoke now wall m t (rt w) id cap tid (Err reason) = (r, s') ->
        consecutive_failures (quota i) + 1 < two32 -> times_suspended (quota i) + 1 < two32 ->
        exists i', instances s' !! id = Some i' /\ r = Ok (InvokeFailed reason)
        /\ consecutive_failures (quota i') = consecutive_failures (quota i) + 1
        /\ (if CIRCUIT_BREAKER_THRESHOLD <=? consecutive_failures (quota i) + 1
            then state i' = Suspended /\ suspended_since s' !! id = Some now
                 /\ times_suspended (quota i') = times_suspended (quota i) + 1
            else state i' = state i /\ times_suspended (quota i') = times_suspended (quota i)))
  /\ 1 <= backoff_duration (times_suspended (quota i)) <= 32.
Proof.
  intros Hw%world_run Hi. destruct w as [s fl]. destruct Hw as [Hag Hbk _]. simpl in *. split_and!.
  - intros Hst. destruct (ok_instances _ _ Hag _ _ Hi) as (_ & _ & _ & Hsus). destruct (Hsus Hst) as [since Hsince].
    exists since. split; [done|]. split.
    + intros now order wall m t wi cap Hlt. unfold prepare_invoke, auto_resume. rewrite Hi, bool_decide_true by done. simpl.
      rewrite Hsince. assert (_ * SECOND <=? now - since = false) as -> by (by apply N.leb_gt). by eexists.
    + intros now order wall m t wi cap r s' Hge Hp. eapply prepare_resumes; [done| |exact Hp]. unfold auto_resume.
      rewrite bool_decide_true by done. simpl. rewrite Hsince.
      by assert (_ * SECOND <=? now - since = true) as -> by (apply N.leb_le; lia).
  - intros. by eapply finish_failed.
  - apply backoff_bounds.
  - apply backoff_bounds.
Qed.
End runtime.

(** ** A concrete run *)

Module AgentExample.

#[export] Instance notebook : AgentMemory unit (list (Json * N)) :=
  {| mem_remember := fun _ _ _ mem v => mem ++ [(v, N.of_nat (length mem))]; mem_query := fun _ _ _ mem => Some mem |}.
#[export] Instance no_explanations : Explanations unit unit :=
  {| explain_begin := fun _ _ _ x _ _ _ _ => (None, x); explain_end := fun _ _ _ x _ _ _ => x |}.

Definition State := AgentRuntime (Mem := list (Json * N)) (X := unit).

Definition user : CapabilityToken := mkToken 1 0 rights_all 0 7 None.
Definition writer : AgentManifest := mkManifest (lit "writer") [lit "echo"] [lit "cloud.openai"] Verified.
Definition alone : Wiring := mkWiring None None (fun p => Ok p) None (fun _ _ _ => Err []).
Definition fail_args : Json := JObject [(lit "force_fail", JBool true)].
Definition panics (_ : list (TaskDescriptor (Value := Json))) : option (list (TaskDescriptor (Value := Json))) := None.
Definition clock (_ : nat) : N := 0.

Definition started : State := (spawn 0 0 tt user (new (Some []) None) writer None).2.

(** The second invocation of the example, as the first agent, at second [sec]. *)
Definition call (sec : N) (cap : text) (args : Json) (s : State) : option (Result InvokeOutcome AgentError * State) :=
  invoke 0 (sec * SECOND) (sec * SECOND) panics clock id tt user s alone 1 cap args.
Definition after (sec : N) (cap : text) (args : Json) (s : State) : State :=
  match call sec cap args s with Some (_, s) => s | None => s end.
Definition outcome (sec : N) (cap : text) (args : Json) (s : State) : option (Result InvokeOutcome AgentError) :=
  fst <$> call sec cap args s.

Example grants_in_order :
  outcome 0 (lit "web.search") JNull started = Some (Ok InvokeDenied)
  /\ outcome 0 (lit "cloud.openai") JNull started = Some (Ok InvokePendingConsent)
  /\ outcome 0 (lit "cloud.openai") (JObject [(lit "prompt", JString [104; 105])])
       (resolve_consent 0 clock tt user (after 0 (lit "cloud.openai") JNull started) 1 true).2
     = Some (Ok (InvokeResult (JObject [(lit "text", JString [104; 105])]))).
Proof. by vm_compute. Qed.

(** Three failures in a row suspend the agent for a second. *)
Definition failed : State := after 5 (lit "echo") fail_args (after 5 (lit "echo") fail_args (after 5 (lit "echo") fail_args started)).

Example suspended_for_a_second :
  state_of failed 1 = Some Suspended
  /\ outcome 5 (lit "echo") JNull failed
     = Some (Err (InvalidState (lit "still recovering from a recent run of failures -- try again in 1s")))
  /\ match outcome 6 (lit "echo") JNull failed with Some (Ok (InvokeResult _)) => True | _ => False end.
Proof. by vm_compute. Qed.

(** What is over does not stay over: consent asked for before the end, a
    checkpoint, and the failure of an invocation still under way bring a
    terminated agent back. *)
Definition ended (s : State) : State := (terminate 0 0 tt user s 1 []).2.

Example consent_revives :
  state_of (ended (after 0 (lit "cloud.openai") JNull started)) 1 = Some Terminated
  /\ state_of (resolve_consent 0 clock tt user (ended (after 0 (lit "cloud.openai") JNull started)) 1 false).2 1
     = Some Executing.
Proof. by vm_compute. Qed.

Example checkpoint_revives :
  let '(r, s) := checkpoint 0 clock tt user (ended started) 1 in
  match r with Ok cid => state_of (resume 0 0 tt user s cid).2 1 = Some Executing | Err _ => False end.
Proof. by vm_compute. Qed.

Example failure_revives :
  let s := after 5 (lit "echo") fail_args (after 5 (lit "echo") fail_args started) in
  (snd <$> invoke 0 0 0 panics clock ended tt user s alone 1 (lit "echo") fail_args) ≫= (fun s => state_of s 1) = Some Suspended.
Proof. by vm_compute. Qed.

(** The headroom shown is the quota, also while invocations are charged. *)
Example headroom_is_constant :
  match prepare_invoke 0 panics clock tt user started alone 1 (lit "echo") with
  | Some (Ok (Proceed _ _), s) => allocated <$> query_ledger (scheduler s) InferenceTokens = Some 1 /\ resource_headroom s = 100
  | _ => False
  end.
Proof. by vm_compute. Qed.

(** A failure does not end a streak of successes. *)
Definition recovered : State := after 9 (lit "echo") JNull (after 9 (lit "echo") JNull failed).

Example failure_keeps_the_streak :
  let times s := (fun i => (times_suspended (quota i), consecutive_successes_since_resume (quota i))) <$> describe s 1 in
  times recovered = Some (1, 2) /\ times (after 9 (lit "echo") fail_args recovered) = Some (1, 2)
  /\ times (after 9 (lit "echo") JNull (after 9 (lit "echo") fail_args recovered)) = Some (0, 0).
Proof. by vm_compute. Qed.

End AgentExample.

Section witnesses.
Import AgentExample.

Definition preparing : option (Result PreparedInvoke AgentError * State) :=
  prepare_invoke 0 panics clock tt user started alone 1 (lit "echo").
Definition under_way : State := match preparing with Some (_, s) => s | None => started end.

Lemma under_way_run :
  run (Some []) None (([] ++ [Born 1 writer]) ++ [Dispatched 1 (lit "echo") 1])
    (mkWorld under_way (<[1 := (1, lit "echo", user)]> ∅)).
Proof.
  eapply (run_step _ _ _ (mkWorld started ∅)); [eapply run_step; [apply run_new|]|].
  - apply (step_spawn (new (Some []) None) ∅ 0 0 tt user writer None (Ok 1)); by vm_compute.
  - apply (step_begin started ∅ 0 0 panics clock tt user alone 1 (lit "echo") (Ok (Proceed 1 None))); by vm_compute.
Defined.

Lemma agents_confined_witness :
  exists mf, Born 1 mf ∈ [Born 1 writer] /\ (lit "echo" ∈ baseline_capabilities mf
    \/ lit "echo" ∈ requestable_capabilities mf /\ lit "echo" ∈ consents 1 [Born 1 writer]).
Proof. exact (proj2 (agents_confined _ _ _ _ under_way_run) [Born 1 writer] 1 (lit "echo") 1 [] eq_refl). Defined.

Lemma agents_accounts_witness :
  exists l, query_ledger (scheduler under_way) InferenceTokens = Some l /\ allocated l <= DEFAULT_QUOTA.
Proof.
  destruct (agents_accounts _ _ _ _ under_way_run) as (_ & (l & Hl & _ & Hle & _) & _). by exists l.
Defined.

Lemma breaker_spec_witness :
  exists i', instances (finish_invoke 3 clock tt user under_way 1 (lit "echo") 1 (Err [])).2 !! 1 = Some i'
    /\ consecutive_failures (quota i') = 1 /\ state i' = Executing.
Proof.
  destruct (instances under_way !! 1) as [i|] eqn:Hi; [|vm_compute in Hi; discriminate].
  destruct (breaker_spec _ _ _ _ 1 i under_way_run Hi) as (_ & Hfail & _).
  assert (Hq : quota i = mkQuota 1 100 0 None 0 0 /\ state i = Executing) by (vm_compute in Hi; by injection Hi as <-).
  destruct Hq as [Hq Hst]. rewrite Hq, Hst in Hfail.
  destruct (finish_invoke 3 clock tt user under_way 1 (lit "echo") 1 (Err [])) as [r s'] eqn:Hf.
  destruct (Hfail 3 clock tt user (lit "echo") 1 [] r s' Hf eq_refl eq_refl) as (i' & Hi' & _ & Hc & Hs & _).
  by exists i'.
Defined.

End witnesses.
