(* ===== verification/Telemetry.v ===== *)
(** Telemetry: [crates/hyperion-observability/src/{telemetry,aggregate,
    scheduler_feedback}.rs].

    Samples, spans and logs are collected without checks: metrics that are rolled
    up when they age, spans named after the device that minted them, traces put
    together across devices, logs that expire, the gate that keeps aggregates of
    small cohorts back, and the load signal the scheduler is told. *)
From Stdlib Require Import ZArith Floats.SpecFloat.
From S2P Require Import Prelude DebugFmt F32 ModelRouter Scheduler.
Open Scope N_scope.

Record SpanId := mkSpanId { span_device : N; span_sequence : N }.

#[export] Instance span_id_eq_dec : EqDecision SpanId.
Proof. solve_decision. Defined.

Inductive SpanStatus : Type := SpanOk | SpanError | SpanDegraded.

(** Attributes are empty in every span the collector makes. *)
Record TraceSpan := mkSpan {
  span_trace : N;
  span_id : SpanId;
  parent_span_id : option SpanId;
  span_name : list N;
  span_start : N;
  span_end : option N;
  span_status : SpanStatus
}.

Inductive LogLevel : Type := LTrace | LDebug | LInfo | LWarn | LError.
Inductive RedactionClass : Type := RedactNone | RedactPartial | RedactFull.

Record LogEvent := mkLog {
  log_level : LogLevel;
  log_message : list N;
  redaction_class : RedactionClass;
  log_timestamp : N;
  log_trace : option N
}.

Record LogRetentionPolicy := mkRetention {
  trace_ttl_secs : N;
  debug_ttl_secs : N;
  info_ttl_secs : N;
  warn_ttl_secs : N;
  error_ttl_secs : N
}.

Definition default_retention : LogRetentionPolicy :=
  let hour := 3600 in
  let day := 24 * hour in
  mkRetention hour hour day (7 * day) (30 * day).

Definition ttl_secs_for (p : LogRetentionPolicy) (l : LogLevel) : N :=
  match l with
  | LTrace => trace_ttl_secs p
  | LDebug => debug_ttl_secs p
  | LInfo => info_ttl_secs p
  | LWarn => warn_ttl_secs p
  | LError => error_ttl_secs p
  end.

(** [MetricSample] and [MetricRollup]. *)
Record MetricSample := mkSample {
  metric_name : list N;
  metric_value : f64;
  metric_unit : list N;
  metric_timestamp : N;
  metric_tags : gmap (list N) (list N)
}.

Record MetricRollup := mkRollup {
  rollup_name : list N;
  window_start : N;
  window_end : N;
  rollup_count : nat;
  rollup_min : f64;
  rollup_max : f64;
  p50 : f64;
  p95 : f64;
  p99 : f64
}.

Record TelemetryCollector := mkCollector {
  metrics : list MetricSample;
  spans : list TraceSpan;
  logs : list LogEvent;
  next_span_sequence : N;
  rollups : list MetricRollup;
  collector_device : N
}.

Definition new_with_device_id (d : N) : TelemetryCollector := mkCollector [] [] [] 1 [] d.

Definition with_metrics (c : TelemetryCollector) (l : list MetricSample) (r : list MetricRollup) : TelemetryCollector :=
  mkCollector l (spans c) (logs c) (next_span_sequence c) r (collector_device c).
Definition with_traces (c : TelemetryCollector) (l : list TraceSpan) (lg : list LogEvent) (n : N) : TelemetryCollector :=
  mkCollector (metrics c) l lg n (rollups c) (collector_device c).

Definition record_metric (c : TelemetryCollector) (x : MetricSample) : TelemetryCollector :=
  with_metrics c (metrics c ++ [x]) (rollups c).

Definition named (name : list N) (x : MetricSample) : bool := bool_decide (metric_name x = name).
Definition metrics_named (c : TelemetryCollector) (name : list N) : list MetricSample := List.filter (named name) (metrics c).

Definition start_span (c : TelemetryCollector) (trace : N) (name : list N) (parent : option SpanId) (start : N) :
    SpanId * TelemetryCollector :=
  let i := mkSpanId (collector_device c) (next_span_sequence c) in
  (i, with_traces c (spans c ++ [mkSpan trace i parent name start None SpanOk]) (logs c) (u64_add (next_span_sequence c) 1)).

Definition ended (s : TraceSpan) (at_ : N) (st : SpanStatus) : TraceSpan :=
  mkSpan (span_trace s) (span_id s) (parent_span_id s) (span_name s) (span_start s) (Some at_) st.

(** The first span with the number. *)
Fixpoint end_first (l : list TraceSpan) (i : SpanId) (at_ : N) (st : SpanStatus) : list TraceSpan :=
  match l with
  | [] => []
  | s :: l => if bool_decide (span_id s = i) then ended s at_ st :: l else s :: end_first l i at_ st
  end.

Definition end_span (c : TelemetryCollector) (i : SpanId) (at_ : N) (st : SpanStatus) : TelemetryCollector :=
  with_traces c (end_first (spans c) i at_ st) (logs c) (next_span_sequence c).

Definition spans_for_trace (c : TelemetryCollector) (trace : N) : list TraceSpan :=
  List.filter (fun s => span_trace s =? trace) (spans c).

Definition emit_log (c : TelemetryCollector) (l : LogEvent) : TelemetryCollector :=
  with_traces c (spans c) (logs c ++ [l]) (next_span_sequence c).

Definition logs_for_trace (c : TelemetryCollector) (trace : N) : list LogEvent :=
  List.filter (fun l => bool_decide (log_trace l = Some trace)) (logs c).

Definition merge_remote_trace (c : TelemetryCollector) (trace : N) (remote : TelemetryCollector) : TelemetryCollector :=
  with_traces c (spans c ++ spans_for_trace remote trace) (logs c ++ logs_for_trace remote trace) (next_span_sequence c).

Definition expire_logs (c : TelemetryCollector) (now : N) (p : LogRetentionPolicy) : TelemetryCollector :=
  with_traces c (spans c) (List.filter (fun l => now - log_timestamp l <=? ttl_secs_for p (log_level l)) (logs c))
    (next_span_sequence c).

(** ** Rolling up *)

(** [f64::total_cmp] says greater; NaNs are taken to be positive. *)
Definition total_key (x : f64) : Z * Z * Z :=
  match x with
  | S754_infinity true => (0, 0, 0)
  | S754_finite true m e => (1, - e, Z.neg m)
  | S754_zero true => (2, 0, 0)
  | S754_zero false => (3, 0, 0)
  | S754_finite false m e => (4, e, Z.pos m)
  | S754_infinity false => (5, 0, 0)
  | S754_nan => (6, 0, 0)
  end%Z.

Definition total_gtb (x y : f64) : bool :=
  let '(a, b, c) := total_key x in
  let '(a', b', c') := total_key y in
  ((a' <? a) || (a' =? a) && ((b' <? b) || (b' =? b) && (c' <? c)))%Z.

(** [x.round() as usize] for [x] not negative: half goes up. *)
Definition round_usize (x : f64) : nat :=
  match x with
  | S754_finite false m e => Z.to_nat (if (0 <=? e)%Z then Z.pos m * 2 ^ e else (2 * Z.pos m + 2 ^ (- e)) / (2 * 2 ^ (- e)))
  | _ => O
  end.

Definition f64_lit (a b : N) : f64 := f64_div (f64_of_N a) (f64_of_N b).

(** [None] when the rank is out of range, where the code would panic. *)
Definition percentile (sorted : list MetricSample) (p : N) : option f64 :=
  let rank := round_usize (f64_mul (f64_lit p 100) (f64_of_N (N.of_nat (length sorted - 1)))) in
  metric_value <$> sorted !! rank.

Definition min_of (d : N) (l : list N) : N := foldr N.min d l.
Definition max_of (d : N) (l : list N) : N := foldr N.max d l.

Definition roll_up (name : list N) (l : list MetricSample) : option MetricRollup :=
  let samples := sort_by (fun x y => total_gtb (metric_value x) (metric_value y)) l in
  first ← head samples;
  final ← last samples;
  a ← percentile samples 50;
  b ← percentile samples 95;
  c ← percentile samples 99;
  let times := metric_timestamp <$> samples in
  Some (mkRollup name (min_of (metric_timestamp first) times) (max_of 0 times) (length samples)
          (metric_value first) (metric_value final) a b c).

Definition by_name (l : list MetricSample) : gmap (list N) (list MetricSample) :=
  fold_left (fun m x => <[metric_name x := default [] (m !! metric_name x) ++ [x]]> m) l ∅.

Definition is_aged (now retention : N) (x : MetricSample) : bool := retention <? now - metric_timestamp x.

Section compact.
Context `{HashIter}.

(** [None] is a panic. *)
Definition compact_metrics (c : TelemetryCollector) (now retention : N) : option TelemetryCollector :=
  let aged_out := List.filter (is_aged now retention) (metrics c) in
  let fresh := List.filter (fun x => negb (is_aged now retention x)) (metrics c) in
  new ← mapM (fun '(name, l) => roll_up name l) (hash_iter (by_name aged_out));
  Some (with_metrics c fresh (rollups c ++ new)).
End compact.

Definition metric_rollups_named (c : TelemetryCollector) (name : list N) : list MetricRollup :=
  List.filter (fun r => bool_decide (rollup_name r = name)) (rollups c).

(** ** scheduler_feedback.rs *)

Definition f64_sub : f64 -> f64 -> f64 := SFsub 53 1024.
Definition f64_zero : f64 := S754_zero false.

Definition ewma (previous x alpha : f64) : f64 :=
  f64_add (f64_mul alpha x) (f64_mul (f64_sub (f64_of_N 1) alpha) previous).

Definition derivative (latest previous dt : f64) : f64 :=
  if f32_leb dt f64_zero then f64_zero else f64_div (f64_sub latest previous) dt.

Definition CPU_UTILIZATION_METRIC : list N := lit "cpu.utilization".
Definition BATTERY_LEVEL_METRIC : list N := lit "battery.level".
Definition THERMAL_HEADROOM_METRIC : list N := lit "thermal.headroom".

Definition cpu_utilization_ewma (c : TelemetryCollector) (alpha : f64) : f64 :=
  fold_left (fun estimate x => ewma estimate (metric_value x) alpha)
    (sort_by_key metric_timestamp (metrics_named c CPU_UTILIZATION_METRIC)) f64_zero.

Definition drain_rate_of (c : TelemetryCollector) : f64 :=
  match rev (sort_by_key metric_timestamp (metrics_named c BATTERY_LEVEL_METRIC)) with
  | latest :: previous :: _ =>
      f64_neg (derivative (metric_value latest) (metric_value previous)
                 (f64_of_N (metric_timestamp latest - metric_timestamp previous)))
  | _ => f64_zero
  end.

(** [max_by_key] returns the last of the greatest. *)
Definition latest_thermal_headroom (c : TelemetryCollector) : f64 :=
  match last (sort_by_key metric_timestamp (metrics_named c THERMAL_HEADROOM_METRIC)) with
  | Some x => metric_value x
  | None => f64_zero
  end.

Definition publish_load_signal {Value : Type} (c : TelemetryCollector) (s : Scheduler (Value := Value)) (alpha : f64) :
    LoadSignal * Scheduler (Value := Value) :=
  let signal := mkSignal (cpu_utilization_ewma c alpha) (drain_rate_of c) (latest_thermal_headroom c) in
  (signal, update_load_signal s signal).

(** ** aggregate.rs *)

Inductive ConsentCategory : Type := CrashDiagnostics | PerfHealth | FeatureUsageCounts | ConsentNone.

#[export] Instance consent_category_eq_dec : EqDecision ConsentCategory.
Proof. solve_decision. Defined.

Record ConsentScope := mkScope { category : ConsentCategory; aggregation_min_cohort : N }.

Record AggregateReport := mkReport {
  cohort_size : N;
  summaries : list (list N * f64);
  suppressed : bool
}.

Definition build_aggregate (scope : ConsentScope) (cohort : N) (raw : list (list N * f64)) : AggregateReport :=
  if bool_decide (category scope <> ConsentNone) && (aggregation_min_cohort scope <=? cohort)
  then mkReport cohort raw false
  else mkReport cohort [] true.

(** ** Spans across devices *)

(** Spans minted by a collector carry its device and a number it has given out;
    none is minted twice. *)
Definition minted (c : TelemetryCollector) : Prop :=
  NoDup (span_id <$> List.filter (fun s => span_device (span_id s) =? collector_device c) (spans c))
  /\ forall s, s ∈ spans c -> span_device (span_id s) = collector_device c -> span_sequence (span_id s) < next_span_sequence c.

Lemma start_span_fresh c trace name parent start i c' :
  minted c -> next_span_sequence c + 1 < two64 -> start_span c trace name parent start = (i, c') ->
  minted c' /\ forall s, s ∈ spans c -> span_id s <> i.
Proof.
  intros [Hnd Hlt] Hroom [= <- <-].
  assert (Hfresh : forall s, s ∈ spans c -> span_id s <> mkSpanId (collector_device c) (next_span_sequence c)).
  { intros s Hs Heq. pose proof (Hlt s Hs) as Hl. rewrite Heq in Hl. simpl in Hl. specialize (Hl eq_refl). lia. }
  split; [|done]. unfold u64_add. rewrite N.mod_small by done. split; simpl.
  - rewrite List.filter_app. simpl. rewrite N.eqb_refl, fmap_app. apply NoDup_app. split; [done|]. split.
    + intros x Hx [->|[]%not_elem_of_nil]%elem_of_cons. apply list_elem_of_fmap in Hx as (s & Heq & Hs).
      apply list_elem_of_In, filter_In in Hs as [Hs _]. by eapply Hfresh; [by apply list_elem_of_In|].
    + simpl. apply NoDup_singleton.
  - intros s [Hs|Hs]%elem_of_app Hd; [specialize (Hlt s Hs Hd); lia|]. apply list_elem_of_singleton in Hs as ->. simpl. lia.
Qed.
