(* ===== verification/Federation.v ===== *)
(** The federation hub: [crates/hyperion-federation/src/{types,hub,offload_bridge}.rs].

    Devices with a trust tier publish what they have to spare; work is offloaded to
    the nearest device that can take it; agents live on one device, which holds
    their anchor lease, and migrate between them. Each device runs an agent runtime
    of its own ([AgentRuntime]), and what the hub does is explained in an
    explanation store ([Explainability]). *)
From S2P Require Import Prelude Crypto Capability Authority Wal Storage DebugFmt Events F32 F32Facts Json ModelRouter Scheduler AgentRuntime Telemetry Explainability.
Open Scope N_scope.

(** ** types.rs *)

Inductive FederationTrustTier : Type := OwnedPrimary | OwnedSecondary | SharedHousehold | CloudRented.

Definition trust_rank (t : FederationTrustTier) : N :=
  match t with OwnedPrimary => 3 | OwnedSecondary => 2 | SharedHousehold => 1 | CloudRented => 0 end.
Definition is_cloud (t : FederationTrustTier) : bool := match t with CloudRented => true | _ => false end.

Inductive PrivacyTier : Type := Local | ConsentedCloud.

#[export] Instance privacy_tier_eq_dec : EqDecision PrivacyTier.
Proof. solve_decision. Defined.

Record VirtualResourceLedger := mkVLedger {
  vl_device : N;
  vl_tier : FederationTrustTier;
  vl_available : ResourceVector;
  network_latency_ms : N;
  published_at : N;
  vl_ttl_secs : N
}.

(** [saturating_sub] is subtraction of [N]. *)
Definition ledger_is_live (l : VirtualResourceLedger) (now : N) : bool := now - published_at l <=? vl_ttl_secs l.

Record OffloadDescriptor := mkOffload {
  off_request : ResourceVector;
  deadline_ms : option N;
  privacy_tier : PrivacyTier
}.

Record AnchorLease := mkLease {
  lease_agent : N;
  holder_device : N;
  generation : N;
  granted_at : N;
  lease_ttl_secs : N
}.

Definition lease_is_live (l : AnchorLease) (now : N) : bool := now - granted_at l <=? lease_ttl_secs l.

Inductive MigrationOutcome : Type := MigrationCompleted | MigrationFailed.

Record MigrationReceipt := mkReceipt {
  migration_id : N;
  migrated_agent : N;
  target_device : N;
  migration_outcome : MigrationOutcome
}.

(** ** hub.rs *)

Inductive FederationError : Type :=
| FedUnauthorized | NoSuchDevice | NoSuchAgent | NoFeasiblePlacement | LeaseConflict | NoSuchLease | NotAuthoritative
| AgentFailed (e : AgentError)
| ExplanationFailed (e : ExplainabilityError).

Record AgentRef := mkAgentRef { ref_device : N; local_instance : N }.

Section hub.
Context `{Codec (WalRecord Json)} `{Aead} `{HashIter} {M : Type} `{Authority M}.
Context (to_value : Event (V := Json) -> Json).

(** The hub's runtimes have no memory and no explanations of their own. *)
Local Instance no_memory : AgentMemory M unit := {| mem_remember := fun _ _ _ mem _ => mem; mem_query := fun _ _ _ _ => None |}.
Local Instance no_explanations : Explanations M unit :=
  {| explain_begin := fun _ _ _ x _ _ _ _ => (None, x); explain_end := fun _ _ _ x _ _ _ => x |}.
Definition Runtime : Type := AgentRuntime (Mem := unit) (X := unit).

Record FederationHub := mkHub {
  devices : gmap N Runtime;
  trust_tiers : gmap N FederationTrustTier;
  ledgers : gmap N VirtualResourceLedger;
  leases : gmap N AnchorLease;
  agents : gmap N AgentRef;
  next_agent_id : N;
  next_migration_id : N;
  explanations : ExplanationStore;
  telemetry : gmap N TelemetryCollector
}.

Definition new_with_shared_explanations (x : ExplanationStore) : FederationHub :=
  mkHub ∅ ∅ ∅ ∅ ∅ 1 1 x ∅.

Definition with_devices (h : FederationHub) (l : gmap N Runtime) : FederationHub :=
  mkHub l (trust_tiers h) (ledgers h) (leases h) (agents h) (next_agent_id h) (next_migration_id h) (explanations h) (telemetry h).
Definition with_ledgers (h : FederationHub) (l : gmap N VirtualResourceLedger) : FederationHub :=
  mkHub (devices h) (trust_tiers h) l (leases h) (agents h) (next_agent_id h) (next_migration_id h) (explanations h) (telemetry h).
Definition with_leases (h : FederationHub) (l : gmap N AnchorLease) : FederationHub :=
  mkHub (devices h) (trust_tiers h) (ledgers h) l (agents h) (next_agent_id h) (next_migration_id h) (explanations h) (telemetry h).
Definition with_agents (h : FederationHub) (l : gmap N AgentRef) : FederationHub :=
  mkHub (devices h) (trust_tiers h) (ledgers h) (leases h) l (next_agent_id h) (next_migration_id h) (explanations h) (telemetry h).
Definition with_store (h : FederationHub) (x : ExplanationStore) : FederationHub :=
  mkHub (devices h) (trust_tiers h) (ledgers h) (leases h) (agents h) (next_agent_id h) (next_migration_id h) x (telemetry h).
Definition with_telemetry (h : FederationHub) (l : gmap N TelemetryCollector) : FederationHub :=
  mkHub (devices h) (trust_tiers h) (ledgers h) (leases h) (agents h) (next_agent_id h) (next_migration_id h) (explanations h) l.

(** *** Operations on the hub *)

(** An operation may fail; [None] if it never returns (it waits for a full mailbox
    of the event bus, or the scheduler panics). *)
Definition HubM (A : Type) : Type := FederationHub -> option (Result A FederationError * FederationHub).

Definition fail {A : Type} (e : FederationError) : HubM A := fun h => Some (Err e, h).
Local Instance hub_ret : MRet HubM := fun A a h => Some (Ok a, h).
Local Instance hub_bind : MBind HubM := fun A B k e h =>
  match e h with
  | Some (Ok a, h) => k a h
  | Some (Err f, h) => Some (Err f, h)
  | None => None
  end.

Definition reads {A : Type} (f : FederationHub -> Result A FederationError) : HubM A := fun h => Some (f h, h).
Definition updates (f : FederationHub -> FederationHub) : HubM unit := fun h => Some (Ok tt, f h).

(** A call to a device's runtime, the device being there. *)
Definition on_device {A : Type} (d : N) (f : Runtime -> option (Result A AgentError * Runtime)) : HubM A := fun h =>
  match devices h !! d with
  | None => Some (Err NoSuchDevice, h)
  | Some rt => '(r, rt) ← f rt; Some (map_err AgentFailed r, with_devices h (<[d := rt]> (devices h)))
  end.

Definition on_store {A : Type} (f : ExplanationStore -> option (Result A ExplainabilityError * ExplanationStore)) : HubM A :=
  fun h => '(r, x) ← f (explanations h); Some (map_err ExplanationFailed r, with_store h x).

Definition hub_require (now : Instant) (m : M) (t : CapabilityToken) (r : RightsMask) : HubM unit :=
  reads (fun _ => map_err (fun _ => FedUnauthorized) (authorize now m t r)).

Definition device (d : N) : HubM unit := reads (fun h => if devices h !! d then Ok tt else Err NoSuchDevice).

(** What surrounds an operation: its clocks and writes call by call, what the
    scheduler's sort does with tasks that have no deadline, the wall clock of a runtime, and what the
    devices' models answer. *)
Record Setting := mkSetting {
  ambient : nat -> Ambient;
  task_order : list (TaskDescriptor (Value := Json)) -> option (list (TaskDescriptor (Value := Json)));
  runtime_wall : nat -> nat -> N;
  infer_on : N -> text -> Result text text
}.

Definition device_wiring (e : Setting) (d : N) : Wiring := mkWiring None None (infer_on e d) None (fun _ _ _ => Err []).

(** *** Devices *)

Definition join_device (now : Instant) (m : M) (t : CapabilityToken) (d : N) (tier : FederationTrustTier) : HubM unit :=
  hub_require now m t WRITE;;
  updates (fun h =>
    mkHub (<[d := AgentRuntime.new None None]> (devices h)) (<[d := tier]> (trust_tiers h)) (ledgers h) (leases h) (agents h)
      (next_agent_id h) (next_migration_id h) (explanations h) (<[d := new_with_device_id d]> (telemetry h))).

Definition remove_device (now : Instant) (m : M) (t : CapabilityToken) (d : N) : HubM unit :=
  hub_require now m t WRITE;;
  updates (fun h =>
    mkHub (delete d (devices h)) (delete d (trust_tiers h)) (delete d (ledgers h)) (leases h) (agents h)
      (next_agent_id h) (next_migration_id h) (explanations h) (delete d (telemetry h))).

Definition publish_ledger (d : N) (available : ResourceVector) (latency now ttl : N) : HubM unit :=
  tier ← reads (fun h => ok_or (trust_tiers h !! d) NoSuchDevice);
  updates (fun h => with_ledgers h (<[d := mkVLedger d tier available latency now ttl]> (ledgers h))).

Definition ledger_of (h : FederationHub) (d : N) : option VirtualResourceLedger := ledgers h !! d.

(** *** Offloading *)

Definition fits (request available : ResourceVector) : bool :=
  forallb (fun d => Scheduler.get request d <=? Scheduler.get available d) Scheduler.ALL.

Definition can_take (o : OffloadDescriptor) (now : N) (l : VirtualResourceLedger) : bool :=
  ledger_is_live l now
  && (bool_decide (privacy_tier o = ConsentedCloud) || negb (is_cloud (vl_tier l)))
  && fits (off_request o) (vl_available l)
  && match deadline_ms o with None => true | Some d => network_latency_ms l <=? d end.

(** [min_by_key]: the first of the least ones. *)
Fixpoint min_by_latency (l : list VirtualResourceLedger) : option VirtualResourceLedger :=
  match l with
  | [] => None
  | x :: l =>
      match min_by_latency l with
      | None => Some x
      | Some y => Some (if network_latency_ms x <=? network_latency_ms y then x else y)
      end
  end.

Definition best_candidate (h : FederationHub) (o : OffloadDescriptor) (excluded : list N) (now : N) :
    option VirtualResourceLedger :=
  min_by_latency (List.filter (fun l => negb (bool_decide (vl_device l ∈ excluded)) && can_take o now l) (hash_iter (ledgers h)).*2).

Definition offload_manifest (cap : text) : AgentManifest := mkManifest (lit "offload") [cap] [] AgentRuntime.System.

Definition offload_step_text (l : VirtualResourceLedger) : text :=
  lit "offloaded to device " ++ debug_u64 (vl_device l) ++ lit " (latency " ++ debug_u64 (network_latency_ms l) ++ lit "ms)".

(** The record of an action is opened, given its step and set going. *)
Definition explain (e : nat -> Ambient) (m : M) (t : CapabilityToken) (intent agent : N) (cap what : text) (now : N) : HubM N :=
  action ← (fun h => let '(a, x) := next_action_id (explanations h) in Some (Ok a, with_store h x));
  id ← on_store (fun x => begin to_value (e 0%nat) m t x action intent agent cap [] now);
  on_store (fun x => append_step to_value (e 1%nat) m t x id (mkStep 0 what (Some cap) [] None) []);;
  on_store (fun x => transition to_value (e 2%nat) m t x id Executing);;
  mret id.

Definition close (e : Ambient) (m : M) (t : CapabilityToken) (id : N) (st : ControlState) : HubM unit :=
  on_store (fun x => transition to_value e m t x id st).

Definition call_runtime (e : Setting) (k : nat) (m : M) (t : CapabilityToken) (d instance : N) (cap : text) (args : Json) :
    HubM InvokeOutcome :=
  on_device d (fun rt => AgentRuntime.invoke (at_instant (ambient e k)) (at_instant (ambient e (k + 1))) (at_instant (ambient e (k + 2)))
                 (task_order e) (runtime_wall e k) (fun s => s) m t rt (device_wiring e d) instance cap args).

(** One attempt: [Some] the value, or [None] if the device could not do it. *)
Definition attempt (e : Setting) (m : M) (t : CapabilityToken) (cap : text) (args : Json) (intent now : N)
    (l : VirtualResourceLedger) : HubM (option Json) :=
  let d := vl_device l in
  device d;;
  instance ← on_device d (fun rt => Some (AgentRuntime.spawn (at_instant (ambient e 0%nat)) (runtime_wall e 0%nat 0%nat) m t rt (offload_manifest cap) None));
  id ← explain (fun k => ambient e (1 + k)%nat) m t intent instance cap (offload_step_text l) now;
  outcome ← call_runtime e 4%nat m t d instance cap args;
  on_device d (fun rt => Some (AgentRuntime.terminate (at_instant (ambient e 7%nat)) (runtime_wall e 7%nat 0%nat) m t rt instance (lit "offload_complete")));;
  match outcome with
  | InvokeResult value => close (ambient e 8%nat) m t id Explainability.Completed;; mret (Some value)
  | _ => close (ambient e 8%nat) m t id RolledBack;; mret None
  end.

(** The loop; each turn excludes another device, so that one turn more than there
    are ledgers is enough. *)
Fixpoint offload_loop (fuel : nat) (e : nat -> Setting) (m : M) (t : CapabilityToken) (o : OffloadDescriptor) (cap : text)
    (args : Json) (intent now : N) (excluded : list N) : HubM Json :=
  match fuel with
  | O => fun _ => None
  | S fuel =>
      candidate ← reads (fun h => ok_or (best_candidate h o excluded now) NoFeasiblePlacement);
      answer ← attempt (e (length excluded)) m t cap args intent now candidate;
      match answer with
      | Some value => mret value
      | None => offload_loop fuel e m t o cap args intent now (excluded ++ [vl_device candidate])
      end
  end.

Definition dispatch_offload (e : nat -> Setting) (now0 : Instant) (m : M) (t : CapabilityToken) (o : OffloadDescriptor) (cap : text)
    (args : Json) (intent now : N) : HubM Json := fun h =>
  (hub_require now0 m t EXEC;; offload_loop (S (size (ledgers h))) e m t o cap args intent now []) h.

(** *** Leases *)

(** [(rank, Reverse(id))], compared: more trusted, then lower id. *)
Definition outranks (tier : FederationTrustTier) (d : N) (tier' : FederationTrustTier) (d' : N) : bool :=
  (trust_rank tier' <? trust_rank tier) || ((trust_rank tier' =? trust_rank tier) && (d <? d')).

Definition acquire_lease (now0 : Instant) (m : M) (t : CapabilityToken) (a d now ttl : N) : HubM AnchorLease :=
  hub_require now0 m t WRITE;;
  tier ← reads (fun h => ok_or (trust_tiers h !! d) NoSuchDevice);
  gen ← reads (fun h =>
    match leases h !! a with
    | None => Ok 0
    | Some l =>
        if holder_device l =? d then Ok (generation l)
        else if lease_is_live l now then
          if outranks tier d (default CloudRented (trust_tiers h !! holder_device l)) (holder_device l)
          then Ok (u64_add (generation l) 1) else Err LeaseConflict
        else Ok (u64_add (generation l) 1)
    end);
  let l := mkLease a d gen now ttl in
  updates (fun h => with_leases h (<[a := l]> (leases h)));;
  mret l.

Definition renew_lease (now0 : Instant) (m : M) (t : CapabilityToken) (a d now : N) : HubM AnchorLease :=
  hub_require now0 m t WRITE;;
  l ← reads (fun h => ok_or (leases h !! a) NoSuchLease);
  if negb (holder_device l =? d) then fail NotAuthoritative
  else
    let l := mkLease (lease_agent l) (holder_device l) (generation l) now (lease_ttl_secs l) in
    updates (fun h => with_leases h (<[a := l]> (leases h)));;
    mret l.

Definition release_lease (now0 : Instant) (m : M) (t : CapabilityToken) (a : N) : HubM unit :=
  hub_require now0 m t WRITE;;
  updates (fun h => with_leases h (delete a (leases h))).

Definition lease_of (h : FederationHub) (a : N) : option AnchorLease := leases h !! a.

(** *** Agents *)

Definition spawn_agent (e : Setting) (m : M) (t : CapabilityToken) (d : N) (mf : AgentManifest) (intent : option N) (now ttl : N) :
    HubM N :=
  hub_require (at_instant (ambient e 0%nat)) m t WRITE;;
  device d;;
  local ← on_device d (fun rt => Some (AgentRuntime.spawn (at_instant (ambient e 1%nat)) (runtime_wall e 1%nat 0%nat) m t rt mf intent));
  a ← reads (fun h => Ok (next_agent_id h));
  updates (fun h =>
    mkHub (devices h) (trust_tiers h) (ledgers h) (<[a := mkLease a d 0 now ttl]> (leases h))
      (<[a := mkAgentRef d local]> (agents h)) (u64_add a 1) (next_migration_id h) (explanations h) (telemetry h));;
  mret a.

Definition invoke_step_text (a d : N) : text :=
  lit "invoked global agent " ++ debug_u64 a ++ lit " on device " ++ debug_u64 d.

Definition outcome_state (o : InvokeOutcome) : ControlState :=
  match o with
  | InvokeResult _ => Explainability.Completed
  | InvokePendingConsent | InvokeQuotaExceeded => Interrupted
  | InvokeDenied | InvokeFailed _ => RolledBack
  end.

Definition invoke_agent (e : Setting) (m : M) (t : CapabilityToken) (a : N) (cap : text) (args : Json) (intent now : N) :
    HubM InvokeOutcome :=
  hub_require (at_instant (ambient e 0%nat)) m t EXEC;;
  r ← reads (fun h => ok_or (agents h !! a) NoSuchAgent);
  device (ref_device r);;
  id ← explain (fun k => ambient e (1 + k)%nat) m t intent a cap (invoke_step_text a (ref_device r)) now;
  outcome ← call_runtime e 4%nat m t (ref_device r) (local_instance r) cap args;
  close (ambient e 7%nat) m t id (outcome_state outcome);;
  mret outcome.

Definition device_of (h : FederationHub) (a : N) : option N := ref_device <$> agents h !! a.

(** The traces of an agent's source device are merged into those of the target. *)
Definition merge_telemetry (h : FederationHub) (src dst trace : N) : FederationHub :=
  match telemetry h !! src, telemetry h !! dst with
  | Some s, Some d => with_telemetry h (<[dst := merge_remote_trace d trace s]> (telemetry h))
  | _, _ => h
  end.

(** What [migrate] decides on: who the agent is and what its lease says. *)
Definition migration_source (a : N) : HubM (AgentRef * AnchorLease) :=
  r ← reads (fun h => ok_or (agents h !! a) NoSuchAgent);
  l ← reads (fun h => ok_or (leases h !! a) NoSuchLease);
  if negb (holder_device l =? ref_device r) then fail NotAuthoritative else mret (r, l).

(** The checkpoint just made; the code panics if it is not there. *)
Definition stored_checkpoint (d cid : N) : HubM AgentCheckpoint := fun h =>
  ck ← (rt ← devices h !! d; get_checkpoint rt cid); Some (Ok ck, h).

(** The locks are let go of between the steps; [others] is what other threads do
    between the decision and the last step. *)
Definition migrate (e : Setting) (others : FederationHub -> FederationHub) (m : M) (t : CapabilityToken)
    (a target trace now ttl : N) : HubM MigrationReceipt :=
  hub_require (at_instant (ambient e 0%nat)) m t WRITE;;
  mid ← reads (fun h => Ok (next_migration_id h));
  updates (fun h => mkHub (devices h) (trust_tiers h) (ledgers h) (leases h) (agents h) (next_agent_id h) (u64_add mid 1)
                      (explanations h) (telemetry h));;
  '(r, l) ← migration_source a;
  device (ref_device r);;
  device target;;
  cid ← on_device (ref_device r) (fun rt =>
    Some (AgentRuntime.checkpoint (at_instant (ambient e 1%nat)) (runtime_wall e 1%nat) m t rt (local_instance r)));
  ck ← stored_checkpoint (ref_device r) cid;
  local ← on_device target (fun rt =>
    Some (AgentRuntime.spawn (at_instant (ambient e 2%nat)) (runtime_wall e 2%nat 0%nat) m t rt (ck_manifest ck) (ck_intent ck)));
  updates (fun h => merge_telemetry h (ref_device r) target trace);;
  on_device (ref_device r) (fun rt =>
    Some (AgentRuntime.terminate (at_instant (ambient e 3%nat)) (runtime_wall e 3%nat 0%nat) m t rt (local_instance r) (lit "migrated")));;
  updates (fun h =>
    let h := others h in
    mkHub (devices h) (trust_tiers h) (ledgers h) (<[a := mkLease a target (u64_add (generation l) 1) now ttl]> (leases h))
      (<[a := mkAgentRef target local]> (agents h)) (next_agent_id h) (next_migration_id h) (explanations h) (telemetry h));;
  mret (mkReceipt mid a target MigrationCompleted).

(** *** offload_bridge.rs *)

Definition U32_MAX : N := two32 - 1.

(** [deadline] and [now] in nanoseconds, [real_now] in seconds. *)
Definition try_offload (e : nat -> Setting) (now0 : Instant) (m : M) (now real_now : N) (task : TaskDescriptor (Value := Json))
    (h : FederationHub) : option (option Json * FederationHub) :=
  match Scheduler.capability_ref task with
  | None => Some (None, h)
  | Some cap =>
      let deadline := (fun d => N.min ((d - now) / 1000000) U32_MAX) <$> Scheduler.deadline task in
      '(r, h) ← dispatch_offload e now0 m (Scheduler.cap_token task) (mkOffload (Scheduler.request task) deadline Local) cap (Scheduler.args task)
                  (Scheduler.owner_intent task) real_now h;
      Some (match r with Ok v => Some v | Err _ => None end, h)
  end.

(** ** What operations leave alone *)

Definition rest (h : FederationHub) :=
  (trust_tiers h, ledgers h, leases h, agents h, next_agent_id h, next_migration_id h, telemetry h).

(** An operation that works on one device and on the explanations only. *)
Definition only {A : Type} (d : N) (e : HubM A) : Prop :=
  forall h r h', e h = Some (r, h') -> rest h' = rest h /\ forall d', d' <> d -> devices h' !! d' = devices h !! d'.

Lemma only_ret {A} d (a : A) : only d (mret a).
Proof. by intros h r h' [= <- <-]. Qed.

Lemma only_reads {A} d (f : FederationHub -> Result A FederationError) : only d (reads f).
Proof. by intros h r h' [= <- <-]. Qed.

Lemma only_bind {A B} d (e : HubM A) (k : A -> HubM B) : only d e -> (forall a, only d (k a)) -> only d (e ≫= k).
Proof.
  intros He Hk h r h'. unfold mbind, hub_bind. destruct (e h) as [[[a|f] h1]|] eqn:H1'; [| |done].
  - intros H2'. destruct (He _ _ _ H1') as [Hr Hd], (Hk _ _ _ _ H2') as [Hr' Hd']. split; [congruence|].
    intros d' Hne. by rewrite Hd', Hd.
  - intros [= <- <-]. by apply He in H1'.
Qed.

Lemma only_device {A} d (f : Runtime -> option (Result A AgentError * Runtime)) : only d (on_device d f).
Proof.
  intros h r h'. unfold on_device. destruct (devices h !! d) as [rt|]; [|by intros [= <- <-]].
  destruct (f rt) as [[x rt']|]; simpl; [|done]. intros [= <- <-]. split; [done|]. intros d' Hne. simpl.
  by rewrite lookup_insert_ne.
Qed.

Lemma only_store {A} d (f : ExplanationStore -> option (Result A ExplainabilityError * ExplanationStore)) : only d (on_store f).
Proof. intros h r h'. unfold on_store. destruct (f _) as [[x st]|]; simpl; [|done]. by intros [= <- <-]. Qed.

Lemma only_explain d e m t intent agent cap what now : only d (explain e m t intent agent cap what now).
Proof.
  unfold explain. apply only_bind; [by intros h r h' [= <- <-]|intros action].
  apply only_bind; [apply only_store|intros id]. apply only_bind; [apply only_store|intros _].
  apply only_bind; [apply only_store|intros _]. apply only_ret.
Qed.

Lemma only_attempt e m t cap args intent now l : only (vl_device l) (attempt e m t cap args intent now l).
Proof.
  unfold attempt. apply only_bind; [apply only_reads|intros _]. apply only_bind; [apply only_device|intros i].
  apply only_bind; [apply only_explain|intros id]. apply only_bind; [apply only_device|intros o].
  apply only_bind; [apply only_device|intros _].
  destruct o; (apply only_bind; [apply only_store|intros _; apply only_ret]).
Qed.

(** ** Offloading as a walk over the candidates *)

Definition candidates (h : FederationHub) (o : OffloadDescriptor) (now : N) : list VirtualResourceLedger :=
  sort_by_key network_latency_ms (List.filter (can_take o now) (hash_iter (ledgers h)).*2).

Fixpoint offload_over (e : nat -> Setting) (k : nat) (m : M) (t : CapabilityToken) (cap : text) (args : Json) (intent now : N)
    (l : list VirtualResourceLedger) : HubM Json :=
  match l with
  | [] => fail NoFeasiblePlacement
  | c :: l =>
      answer ← attempt (e k) m t cap args intent now c;
      match answer with
      | Some value => mret value
      | None => offload_over e (S k) m t cap args intent now l
      end
  end.

Lemma min_by_latency_head l : min_by_latency l = head (sort_by_key network_latency_ms l).
Proof.
  induction l as [|x l IH]; [done|]. simpl. rewrite IH.
  destruct (sort_by_key network_latency_ms l) as [|y s]; [done|]. simpl. by destruct (_ <=? _).
Qed.

(** Ledgers are filed under their devices. *)
Definition ledgers_ok (h : FederationHub) : Prop := map_Forall (fun d l => vl_device l = d) (ledgers h).

Lemma candidates_spec h o now l :
  ledgers_ok h -> l ∈ candidates h o now <-> ledgers h !! vl_device l = Some l /\ can_take o now l = true.
Proof.
  intros Hok. unfold candidates. rewrite sort_by_key_perm, elem_of_test, list_elem_of_fmap. split.
  - intros [([d x] & -> & Hx%elem_of_hash_iter) Hc]. simpl in *. by rewrite (Hok _ _ Hx).
  - intros [Hl Hc]. split; [|done]. exists (vl_device l, l). split; [done|]. by apply elem_of_hash_iter.
Qed.

Lemma candidates_NoDup h o now : ledgers_ok h -> NoDup (vl_device <$> candidates h o now).
Proof.
  intros Hok. unfold candidates. rewrite sort_by_key_perm. apply NoDup_fmap_filter.
  assert ((hash_iter (ledgers h)).*1 = vl_device <$> (hash_iter (ledgers h)).*2) as <-; [|apply NoDup_fst_hash_iter].
  assert (Hall : Forall (fun x => vl_device x.2 = x.1) (hash_iter (ledgers h))).
  { apply Forall_forall. intros [d x] Hx%elem_of_hash_iter. by apply Hok. }
  induction Hall as [|[d x] l Hx _ IH]; [done|]. rewrite !fmap_cons. simpl in Hx. rewrite IH. cbn. by rewrite Hx.
Qed.

(** What is left once the first candidates are excluded. *)
Lemma best_candidate_next h o now tried rest_ :
  ledgers_ok h -> candidates h o now = tried ++ rest_ ->
  best_candidate h o (vl_device <$> tried) now = head rest_.
Proof.
  intros Hok Hc. unfold best_candidate. rewrite min_by_latency_head.
  set (open := fun l => negb (bool_decide (vl_device l ∈ vl_device <$> tried))).
  assert (Hf : forall l, List.filter (fun x => open x && can_take o now x) l = List.filter open (List.filter (can_take o now) l)).
  { induction l as [|x l IH]; [done|]. simpl. destruct (can_take o now x); simpl; rewrite IH; by destruct (open x). }
  fold open. rewrite (Hf _), <- filter_sort_by_key. fold (candidates h o now). rewrite Hc, List.filter_app.
  rewrite (filter_none open tried).
  2:{ apply Forall_forall. intros x Hx. unfold open. rewrite bool_decide_true; [done|]. apply list_elem_of_fmap. by exists x. }
  rewrite filter_all; [done|]. pose proof (candidates_NoDup h o now Hok) as Hnd. rewrite Hc, fmap_app in Hnd.
  apply NoDup_app in Hnd as (_ & Hd & _). apply Forall_forall. intros x Hx. unfold open.
  rewrite bool_decide_false; [done|]. intros Hin. apply (Hd _ Hin). apply list_elem_of_fmap. by exists x.
Qed.

Lemma bind_assoc_run {A B} (e : HubM A) (k : A -> HubM B) h :
  (e ≫= k) h = match e h with Some (Ok a, h) => k a h | Some (Err f, h) => Some (Err f, h) | None => None end.
Proof. done. Qed.

Lemma offload_loop_over e m t o cap args intent now rest_ fuel tried h :
  ledgers_ok h -> candidates h o now = tried ++ rest_ -> (length rest_ < fuel)%nat ->
  offload_loop fuel e m t o cap args intent now (vl_device <$> tried) h
  = offload_over e (length tried) m t cap args intent now rest_ h.
Proof.
  revert fuel tried h. induction rest_ as [|c rest_ IH]; intros [|fuel] tried h Hok Hc Hlt; simpl in Hlt; [lia..| |lia|].
  - simpl. rewrite bind_assoc_run. unfold reads. by rewrite (best_candidate_next _ _ _ _ _ Hok Hc).
  - cbn [offload_loop offload_over]. rewrite bind_assoc_run. unfold reads at 1. rewrite (best_candidate_next _ _ _ _ _ Hok Hc).
    simpl. rewrite !bind_assoc_run, length_fmap.
    destruct (attempt (e (length tried)) m t cap args intent now c h) as [[[[v|]|f] h']|] eqn:Ha; [done| |done..].
    apply only_attempt in Ha as [Hrest _]. assert (Hl : ledgers h' = ledgers h) by (unfold rest in Hrest; congruence).
    specialize (IH fuel (tried ++ [c]) h'). rewrite length_app, fmap_app in IH. simpl in IH. rewrite Nat.add_1_r in IH.
    apply IH; [unfold ledgers_ok; by rewrite Hl| |lia].
    unfold candidates in *. rewrite Hl, Hc. by rewrite <- app_assoc.
Qed.

Lemma offload_over_frame e k m t cap args intent now l h r h' :
  offload_over e k m t cap args intent now l h = Some (r, h') ->
  rest h' = rest h /\ forall d, d ∉ vl_device <$> l -> devices h' !! d = devices h !! d.
Proof.
  revert k h. induction l as [|c l IH]; intros k h; cbn [offload_over]; [by intros [= <- <-]|]. rewrite bind_assoc_run.
  destruct (attempt _ _ _ _ _ _ _ _ h) as [[[[v|]|f] h1]|] eqn:Ha; [| | |done];
    apply only_attempt in Ha as [Hr Hd].
  - intros [= <- <-]. split; [done|]. intros d Hn. apply Hd. rewrite fmap_cons in Hn. set_solver.
  - intros Ho. apply IH in Ho as [Hr' Hd']. split; [congruence|]. intros d Hn. rewrite fmap_cons in Hn.
    rewrite Hd' by set_solver. apply Hd. set_solver.
  - intros [= <- <-]. split; [done|]. intros d Hn. apply Hd. rewrite fmap_cons in Hn. set_solver.
Qed.

(** *** Theorems *)

(** Offloading tries the devices that can take the work, nearest first, each once,
    until one does it. The loop that keeps asking for the best device not tried yet
    is a walk over one list: the published ledgers that are live, large enough, in
    time and not in the cloud unless the work may go there, sorted by latency. The
    bound on its turns always suffices; nothing but the explanations and the
    runtimes of those devices changes. *)
Theorem offload_is_a_walk e now0 m t o cap args intent now h :
  ledgers_ok h ->
  dispatch_offload e now0 m t o cap args intent now h
  = (hub_require now0 m t EXEC;; offload_over e 0 m t cap args intent now (candidates h o now)) h
  /\ StronglySorted (key_le network_latency_ms) (candidates h o now)
  /\ NoDup (vl_device <$> candidates h o now)
  /\ (forall l, l ∈ candidates h o now <-> ledgers h !! vl_device l = Some l /\ can_take o now l = true)
  /\ forall r h', dispatch_offload e now0 m t o cap args intent now h = Some (r, h') ->
       rest h' = rest h
       /\ forall d, devices h' !! d <> devices h !! d -> exists l, ledgers h !! d = Some l /\ can_take o now l = true.
Proof.
  intros Hok.
  assert (Heq : dispatch_offload e now0 m t o cap args intent now h
                = (hub_require now0 m t EXEC;; offload_over e 0 m t cap args intent now (candidates h o now)) h).
  { unfold dispatch_offload. rewrite !bind_assoc_run. unfold hub_require, reads.
    destruct (map_err _ _); [|done]. apply (offload_loop_over _ _ _ _ _ _ _ _ _ _ []); [done..|].
    unfold candidates. rewrite (Permutation_length (sort_by_key_perm _ _)).
    pose proof (List.filter_length_le (can_take o now) (hash_iter (ledgers h)).*2) as Hle.
    rewrite length_fmap, length_hash_iter in Hle. lia. }
  split; [done|]. split; [apply sort_by_key_sorted|]. split; [by apply candidates_NoDup|].
  split; [intros l; by apply candidates_spec|]. intros r h'. rewrite Heq, bind_assoc_run. unfold hub_require, reads.
  destruct (map_err _ _); [|by intros [= <- <-]]. intros Ho. apply offload_over_frame in Ho as [Hr Hd]. split; [done|].
  intros d Hne. destruct (decide (d ∈ vl_device <$> candidates h o now)) as [Hin|Hn]; [|by destruct Hne; apply Hd].
  apply list_elem_of_fmap in Hin as (l & -> & Hl%candidates_spec); [|done]. by exists l.
Qed.

(** ** Leases over time *)

Lemma bind_Some {A B} (e : HubM A) (k : A -> HubM B) h r h' :
  (e ≫= k) h = Some (r, h') ->
  (exists f, e h = Some (Err f, h') /\ r = Err f) \/ exists a h1, e h = Some (Ok a, h1) /\ k a h1 = Some (r, h').
Proof.
  rewrite bind_assoc_run. destruct (e h) as [[[a|f] h1]|]; [|intros [= <- <-]; left; by exists f|done].
  intros Hk. right. by exists a, h1.
Qed.

(** Steps through an operation: what it read, what it changed, or where it failed. *)
Ltac hub_steps :=
  repeat lazymatch goal with
  | H : (reads _ ≫= _) _ = Some _ |- _ =>
      apply bind_Some in H as [(? & [= ? <-] & ->)|(? & ? & [= ? <-] & H)]
  | H : (hub_require _ _ _ _ ≫= _) _ = Some _ |- _ =>
      unfold hub_require at 1 in H; apply bind_Some in H as [(? & [= ? <-] & ->)|(? & ? & [= ? <-] & H)]
  | H : (updates _ ≫= _) _ = Some _ |- _ =>
      apply bind_Some in H as [(? & [=] & _)|(? & ? & [= <- <-] & H)]
  | H : mret _ _ = Some _ |- _ => injection H as <- <-
  | H : fail _ _ = Some _ |- _ => injection H as <- <-
  | H : updates _ _ = Some _ |- _ => injection H as <- <-
  | H : ok_or ?o _ = Ok _ |- _ => destruct o eqn:?; [injection H as <-|discriminate]
  end.

(** An operation that leaves leases and agents alone. *)
Definition keeps {A : Type} (e : HubM A) : Prop :=
  forall h r h', e h = Some (r, h') -> leases h' = leases h /\ agents h' = agents h.

Lemma only_keeps {A} d (e : HubM A) : only d e -> keeps e.
Proof. intros He h r h' [Hr _]%He. unfold rest in Hr. split; congruence. Qed.

Lemma keeps_bind {A B} (e : HubM A) (k : A -> HubM B) : keeps e -> (forall a, keeps (k a)) -> keeps (e ≫= k).
Proof.
  intros He Hk h r h' [(f & H1' & ->)|(a & h1 & H1' & H2')]%bind_Some; [by eapply He|].
  destruct (He _ _ _ H1') as [<- <-]. by eapply Hk.
Qed.

Lemma keeps_reads {A} (f : FederationHub -> Result A FederationError) : keeps (reads f).
Proof. by intros h r h' [= <- <-]. Qed.

Lemma keeps_join now m t d tier : keeps (join_device now m t d tier).
Proof. unfold join_device. apply keeps_bind; [apply keeps_reads|]. by intros _ h r h' [= <- <-]. Qed.

Lemma keeps_remove now m t d : keeps (remove_device now m t d).
Proof. unfold remove_device. apply keeps_bind; [apply keeps_reads|]. by intros _ h r h' [= <- <-]. Qed.

Lemma keeps_publish d av lat now ttl : keeps (publish_ledger d av lat now ttl).
Proof. unfold publish_ledger. apply keeps_bind; [apply keeps_reads|]. by intros tier h r h' [= <- <-]. Qed.

Lemma keeps_invoke e m t a cap args intent now : keeps (invoke_agent e m t a cap args intent now).
Proof.
  unfold invoke_agent. apply keeps_bind; [apply keeps_reads|intros _]. apply keeps_bind; [apply keeps_reads|intros r].
  apply (only_keeps (ref_device r)). apply only_bind; [apply only_reads|intros _].
  apply only_bind; [apply only_explain|intros id]. apply only_bind; [apply only_device|intros o].
  apply only_bind; [apply only_store|intros _]. apply only_ret.
Qed.

Lemma keeps_loop fuel e m t o cap args intent now excluded : keeps (offload_loop fuel e m t o cap args intent now excluded).
Proof.
  revert excluded. induction fuel as [|fuel IH]; intros excluded; [done|]. cbn [offload_loop].
  apply keeps_bind; [apply keeps_reads|intros c]. apply keeps_bind; [eapply only_keeps, only_attempt|intros [v|]]; [|apply IH].
  by intros h r h' [= <- <-].
Qed.

Lemma keeps_offload e now0 m t o cap args intent now : keeps (dispatch_offload e now0 m t o cap args intent now).
Proof.
  intros h r h'. unfold dispatch_offload. apply keeps_bind; [apply keeps_reads|intros _; apply keeps_loop].
Qed.

(** What the operations on leases do to them. *)
Lemma acquire_cases now0 m t a d now ttl h r h' :
  acquire_lease now0 m t a d now ttl h = Some (r, h') ->
  leases h' = leases h /\ (exists f, r = Err f)
  \/ exists l', r = Ok l' /\ leases h' = <[a := l']> (leases h) /\ holder_device l' = d
     /\ exists tier, trust_tiers h !! d = Some tier
     /\ match leases h !! a with
        | None => generation l' = 0
        | Some l => holder_device l = d /\ generation l' = generation l
                    \/ holder_device l <> d /\ generation l' = u64_add (generation l) 1
                       /\ (lease_is_live l now = true ->
                           outranks tier d (default CloudRented (trust_tiers h !! holder_device l)) (holder_device l) = true)
        end.
Proof.
  unfold acquire_lease. intros Ha. hub_steps; try (by left; split; [|eexists]).
  right. eexists. split; [done|]. split; [done|]. split; [done|]. eexists. split; [done|]. simpl.
  destruct (leases _ !! a) as [l|]; [|congruence]. destruct (N.eqb_spec (holder_device l) d); [left; split; congruence|].
  right. split; [done|]. destruct (lease_is_live l now); [|split; [congruence|done]].
  destruct (outranks _ _ _ _); [|done]. split; [congruence|done].
Qed.

Lemma renew_cases now0 m t a d now h r h' :
  renew_lease now0 m t a d now h = Some (r, h') ->
  leases h' = leases h /\ (exists f, r = Err f)
  \/ exists l l', leases h !! a = Some l /\ r = Ok l' /\ leases h' = <[a := l']> (leases h)
     /\ holder_device l = d /\ holder_device l' = d /\ generation l' = generation l.
Proof.
  unfold renew_lease. intros Ha. hub_steps; try (by left; split; [|eexists]).
  match goal with _ : leases _ !! a = Some ?l |- _ => destruct (N.eqb_spec (holder_device l) d) as [Hd|Hd] end;
    simpl in Ha; hub_steps; [|by left; split; [|eexists]].
  right. by eexists _, _.
Qed.

Lemma release_cases now0 m t a h r h' :
  release_lease now0 m t a h = Some (r, h') -> leases h' = leases h \/ leases h' = delete a (leases h).
Proof. unfold release_lease. intros Ha. hub_steps; [by left|by right]. Qed.

Lemma on_device_keeps {A} d (f : Runtime -> option (Result A AgentError * Runtime)) : keeps (on_device d f).
Proof. eapply only_keeps, only_device. Qed.

Lemma spawn_cases e m t d mf intent now ttl h r h' :
  spawn_agent e m t d mf intent now ttl h = Some (r, h') ->
  leases h' = leases h \/ exists l, leases h' = <[next_agent_id h := l]> (leases h).
Proof.
  unfold spawn_agent. intros Ha. hub_steps; [by left|]. unfold device in Ha. hub_steps; [by left|].
  apply bind_Some in Ha as [(f & Hd & ->)|(local & h1 & Hd & Ha)]; apply only_device in Hd as [Hd _]; unfold rest in Hd.
  - left. congruence.
  - hub_steps. right. eexists. simpl. f_equal; congruence.
Qed.

Lemma migration_source_cases a h r h' :
  migration_source a h = Some (r, h') ->
  h' = h /\ match r with
            | Ok (ar, l) => agents h !! a = Some ar /\ leases h !! a = Some l /\ holder_device l = ref_device ar
            | Err _ => True
            end.
Proof.
  unfold migration_source, mbind, hub_bind, reads. destruct (agents h !! a) as [ar|]; simpl; [|by intros [= <- <-]].
  destruct (leases h !! a) as [l|]; simpl; [|by intros [= <- <-]].
  destruct (N.eqb_spec (holder_device l) (ref_device ar)); by intros [= <- <-].
Qed.

Lemma stored_checkpoint_cases d cid h r h' :
  stored_checkpoint d cid h = Some (r, h') ->
  h' = h /\ exists rt ck, devices h !! d = Some rt /\ checkpoints rt !! cid = Some ck /\ r = Ok ck.
Proof.
  unfold stored_checkpoint, get_checkpoint. destruct (devices h !! d) as [rt|]; simpl; [|done].
  destruct (checkpoints rt !! cid) as [ck|] eqn:Hck; simpl; [|done]. intros [= <- <-]. split; [done|]. by exists rt, ck.
Qed.

(** The decision and the runtimes' part of a migration leave leases and agents be. *)
Lemma migrate_cases e others m t a target trace now ttl h r h' :
  migrate e others m t a target trace now ttl h = Some (r, h') ->
  leases h' = leases h /\ agents h' = agents h /\ (exists f, r = Err f)
  \/ exists ar l local h1, agents h !! a = Some ar /\ leases h !! a = Some l /\ holder_device l = ref_device ar
     /\ leases h1 = leases h /\ agents h1 = agents h
     /\ leases h' = <[a := mkLease a target (u64_add (generation l) 1) now ttl]> (leases (others h1))
     /\ agents h' = <[a := mkAgentRef target local]> (agents (others h1)) /\ (exists rc, r = Ok rc).
Proof.
  unfold migrate. intros Ha. hub_steps; [by left; split_and!; [..|eexists]|].
  apply bind_Some in Ha as [(f & [-> _]%migration_source_cases & ->)|([ar l] & h1 & [-> (Har & Hle & Hh)]%migration_source_cases & Ha)];
    [left; by split_and!; [..|eexists]|].
  unfold device in Ha. hub_steps; [by left; split_and!; [..|eexists]..|].
  apply bind_Some in Ha as [(f & Hd & ->)|(cid & h2 & Hd & Ha)]; apply on_device_keeps in Hd as [Hl Hg];
    simpl in Hl, Hg; [left; by split_and!; [..|eexists]|].
  apply bind_Some in Ha as [(f & [_ (? & ? & _ & _ & ?)]%stored_checkpoint_cases & ->)|(ck & h3 & [-> _]%stored_checkpoint_cases & Ha)];
    [done|].
  apply bind_Some in Ha as [(f & Hd & ->)|(local & h3 & Hd & Ha)]; apply on_device_keeps in Hd as [Hl3 Hg3];
    [left; split_and!; [congruence..|by eexists]|].
  hub_steps. set (h4 := merge_telemetry h3 _ _ _) in *.
  assert (Hsame : leases h4 = leases h3 /\ agents h4 = agents h3) by (unfold h4, merge_telemetry; by repeat case_match).
  destruct Hsame as [Hl4 Hg4].
  apply bind_Some in Ha as [(f & Hd & ->)|([] & h5 & Hd & Ha)]; apply on_device_keeps in Hd as [Hl5 Hg5];
    [left; split_and!; [congruence..|by eexists]|].
  hub_steps. right. exists ar, l, local, h5. simpl in *.
  split_and!; [done..|congruence|congruence|done|done|by eexists].
Qed.

(** What later holds of a lease: a newer generation, or the same holder. *)
Definition fenced (l l' : AnchorLease) : Prop :=
  generation l < generation l' \/ generation l' = generation l /\ holder_device l' = holder_device l.

#[export] Instance fenced_preorder : PreOrder fenced.
Proof. unfold fenced. split; [intros l; by right|]. intros l l' l'' [?|[? ?]] [?|[? ?]]; [left; lia..|right; split; congruence]. Qed.

(** Any call, but for a release of the agent's lease and the opening of an agent
    under a number that already has one. A migration lets go of the lock on the leases
    after it has read the agent's lease, and takes it again to write the next one: what
    others do meanwhile must leave the lease it read alone. *)
Inductive step (a : N) : FederationHub -> FederationHub -> Prop :=
| st_join now m t d tier r h h' : join_device now m t d tier h = Some (r, h') -> step a h h'
| st_remove now m t d r h h' : remove_device now m t d h = Some (r, h') -> step a h h'
| st_publish d av lat now ttl r h h' : publish_ledger d av lat now ttl h = Some (r, h') -> step a h h'
| st_offload e now0 m t o cap args intent now r h h' :
    dispatch_offload e now0 m t o cap args intent now h = Some (r, h') -> step a h h'
| st_acquire now0 m t b d now ttl r h h' :
    (forall l, leases h !! b = Some l -> generation l + 1 < two64) ->
    acquire_lease now0 m t b d now ttl h = Some (r, h') -> step a h h'
| st_renew now0 m t b d now r h h' : renew_lease now0 m t b d now h = Some (r, h') -> step a h h'
| st_release now0 m t b r h h' : b <> a -> release_lease now0 m t b h = Some (r, h') -> step a h h'
| st_spawn e m t d mf intent now ttl r h h' :
    next_agent_id h <> a -> spawn_agent e m t d mf intent now ttl h = Some (r, h') -> step a h h'
| st_invoke e m t b cap args intent now r h h' : invoke_agent e m t b cap args intent now h = Some (r, h') -> step a h h'
| st_migrate e others m t b target trace now ttl r h h' :
    (forall l, leases h !! b = Some l -> generation l + 1 < two64) ->
    (forall h1, leases (others h1) !! b = leases h1 !! b) ->
    (forall h1 l, leases h1 !! a = Some l -> exists l', leases (others h1) !! a = Some l' /\ fenced l l') ->
    migrate e others m t b target trace now ttl h = Some (r, h') -> step a h h'.

Lemma fenced_insert (ls : gmap N AnchorLease) a b l l' :
  ls !! a = Some l -> (forall l0, ls !! b = Some l0 -> fenced l0 l') -> exists x, <[b := l']> ls !! a = Some x /\ fenced l x.
Proof.
  intros Hl Hf. destruct (decide (b = a)) as [->|Hne]; [rewrite lookup_insert_eq|rewrite lookup_insert_ne by done].
  - exists l'. split; [done|]. by apply Hf.
  - by exists l.
Qed.

Lemma step_fenced a h h' l : step a h h' -> leases h !! a = Some l -> exists l', leases h' !! a = Some l' /\ fenced l l'.
Proof.
  intros Hs Hl. assert (Hsame : leases h' = leases h -> exists l', leases h' !! a = Some l' /\ fenced l l') by (intros ->; by exists l).
  destruct Hs as [???????? He|??????? He|???????? He|???????????? He|?????????? Hroom He|????????? He|??????? Hne He
                 |??????????? Hne He|??????????? He|? others ?? b target ? now ttl ??? Hroom Hquiet Hothers He].
  - apply Hsame. by eapply keeps_join.
  - apply Hsame. by eapply keeps_remove.
  - apply Hsame. by eapply keeps_publish.
  - apply Hsame. by eapply keeps_offload.
  - apply acquire_cases in He as [[He _]|(l' & _ & -> & Hh & tier & _ & Hg)]; [by apply Hsame|].
    apply fenced_insert; [done|]. intros l0 H0'. rewrite H0' in Hg. unfold u64_add in Hg. specialize (Hroom _ H0').
    destruct Hg as [[? ?]|(_ & Hg & _)]; [right; split; congruence|left]. rewrite N.mod_small in Hg by done. lia.
  - apply renew_cases in He as [[He _]|(l0 & l' & H0' & _ & -> & ? & ? & ?)]; [by apply Hsame|].
    apply fenced_insert; [done|]. intros l1 H1'. right. split; congruence.
  - apply release_cases in He as [He|He]; [by apply Hsame|]. exists l. rewrite He, lookup_delete_ne by done. done.
  - apply spawn_cases in He as [He|[l' ->]]; [by apply Hsame|]. exists l. rewrite lookup_insert_ne by done. done.
  - apply Hsame. by eapply keeps_invoke.
  - apply migrate_cases in He as [[He _]|(ar & l0 & local & h1 & _ & H0' & _ & Hl1 & _ & -> & _)]; [by apply Hsame|].
    destruct (Hothers h1 l) as (l1 & H1' & Hf1); [congruence|].
    destruct (fenced_insert (leases (others h1)) a b l1 (mkLease b target (u64_add (generation l0) 1) now ttl) H1') as (x & Hx & Hfx).
    { intros l2 H2'. rewrite Hquiet, Hl1, H0' in H2'. injection H2' as <-. left. simpl. specialize (Hroom _ H0'). unfold u64_add.
      rewrite N.mod_small by done. lia. }
    exists x. split; [done|]. by etrans.
Qed.

(** C34. Leases are fenced, as long as nobody takes, renews, releases or migrates the
    lease of an agent while a migration of that agent has let go of the lock. Whatever
    calls are made apart from that, an agent's lease stays until it is released, and a
    generation names one holder: whoever holds it later has a newer generation or is the
    same device. A device takes a live lease from another only if it outranks it, which
    no two devices can do to each other; only the holder renews; and an agent is migrated
    only from a device that holds its lease when the migration reads it. (A claim in the
    middle of a migration gives one generation to two holders:
    [FederationExample.two_holders_of_one_generation].) *)
Theorem leases_are_fenced :
  (forall a h h' l, rtc (step a) h h' -> leases h !! a = Some l -> exists l', leases h' !! a = Some l' /\ fenced l l')
  /\ (forall now0 m t a d now ttl h l l' h', leases h !! a = Some l -> holder_device l <> d -> lease_is_live l now = true ->
        acquire_lease now0 m t a d now ttl h = Some (Ok l', h') ->
        exists tier, trust_tiers h !! d = Some tier
        /\ outranks tier d (default CloudRented (trust_tiers h !! holder_device l)) (holder_device l) = true)
  /\ (forall tier d tier' d', outranks tier d tier' d' = true -> outranks tier' d' tier d = false)
  /\ (forall now0 m t a d now h l' h', renew_lease now0 m t a d now h = Some (Ok l', h') ->
        exists l, leases h !! a = Some l /\ holder_device l = d /\ holder_device l' = d /\ generation l' = generation l)
  /\ forall e others m t a target trace now ttl h rc h', migrate e others m t a target trace now ttl h = Some (Ok rc, h') ->
       exists r l, agents h !! a = Some r /\ leases h !! a = Some l /\ holder_device l = ref_device r.
Proof.
  split_and!.
  - intros a h h' l Hr. revert l. induction Hr as [h|h h1 h2 Hst _ IH]; intros l Hl; [by exists l|].
    destruct (step_fenced _ _ _ _ Hst Hl) as (l1 & Hl1 & Hf1). destruct (IH _ Hl1) as (l2 & Hl2 & Hf2).
    exists l2. split; [done|]. by etrans.
  - intros now0 m t a d now ttl h l l' h' Hl Hne Hlive Ha.
    apply acquire_cases in Ha as [[_ [f ?]]|(l0 & _ & _ & _ & tier & Ht & Hg)]; [done|]. exists tier. split; [done|].
    rewrite Hl in Hg. destruct Hg as [[? _]|(_ & _ & Ho)]; [done|]. by apply Ho.
  - intros [] d [] d'; unfold outranks; simpl; rewrite ?orb_false_r; try done; intros Hlt%N.ltb_lt; apply N.ltb_ge; lia.
  - intros now0 m t a d now h l' h' Ha. apply renew_cases in Ha as [[_ [f ?]]|(l & l0 & ? & [= ->] & _ & ? & ? & ?)]; [done|].
    by exists l.
  - intros e others m t a target trace now ttl h rc h' Ha.
    apply migrate_cases in Ha as [(_ & _ & f & ?)|(r & l & local & h1 & ? & ? & ? & _)]; [done|]. by exists r, l.
Qed.

(** ** Migration *)

Lemma bind_ok {A B} (e : HubM A) (k : A -> HubM B) h a h1 : e h = Some (Ok a, h1) -> (e ≫= k) h = k a h1.
Proof. intros He. by rewrite bind_assoc_run, He. Qed.

(** Runs the next operation, which [tac] shows to succeed. *)
Tactic Notation "hub_run" tactic3(tac) := erewrite bind_ok by tac; cbv beta iota.

Lemma on_device_ok {A} d (f : Runtime -> option (Result A AgentError * Runtime)) h rt a rt' :
  devices h !! d = Some rt -> f rt = Some (Ok a, rt') ->
  on_device d f h = Some (Ok a, with_devices h (<[d := rt']> (devices h))).
Proof. intros Hd Hf. unfold on_device. by rewrite Hd, Hf. Qed.

Lemma device_ok d h rt : devices h !! d = Some rt -> device d h = Some (Ok tt, h).
Proof. intros Hd. unfold device, reads. by rewrite Hd. Qed.

Lemma merge_telemetry_same h src dst trace :
  rest (merge_telemetry h src dst trace) = (trust_tiers h, ledgers h, leases h, agents h, next_agent_id h, next_migration_id h,
                                            telemetry (merge_telemetry h src dst trace))
  /\ devices (merge_telemetry h src dst trace) = devices h.
Proof. unfold merge_telemetry. by destruct (telemetry h !! src), (telemetry h !! dst). Qed.

(** What is left at the source and at the target. *)
Definition left_behind (rt : Runtime) (k : N) (src : Runtime) : Prop :=
  (exists i, instances src !! k = Some i /\ state i = Terminated /\ grants i = [])
  /\ forall k', k' <> k -> instances src !! k' = instances rt !! k'.
Definition moved_in (rt : Runtime) (i : AgentInstance) (dst : Runtime) : Prop :=
  (exists j, instances dst !! AgentRuntime.next_id rt = Some j /\ manifest j = manifest i /\ bound_intent j = bound_intent i
             /\ state j = Bound /\ grants j = [])
  /\ forall k, k <> AgentRuntime.next_id rt -> instances dst !! k = instances rt !! k.

Lemma checkpoint_terminate m t rt k i now now' wall wall' why :
  authorize now m t WRITE = Ok tt -> authorize now' m t WRITE = Ok tt -> instances rt !! k = Some i ->
  exists cid rt1 src, AgentRuntime.checkpoint now wall m t rt k = (Ok cid, rt1)
    /\ checkpoints rt1 !! cid = Some (mkCheckpoint cid k (manifest i) (bound_intent i) (wall 0%nat))
    /\ AgentRuntime.terminate now' wall' m t rt1 k why = (Ok tt, src) /\ left_behind rt k src.
Proof.
  intros Ha Ha' Hi. unfold AgentRuntime.checkpoint, AgentRuntime.terminate, on_instance, AgentRuntime.require. rewrite Ha, Ha', Hi. simpl.
  eexists _, _, _. split; [done|]. split; [apply lookup_insert_eq|]. simpl. rewrite lookup_insert_eq. split; [done|]. split; simpl.
  - eexists. rewrite lookup_insert_eq. done.
  - intros k' Hk. by rewrite !lookup_insert_ne by done.
Qed.

Lemma spawn_moves m t rt i now wall :
  authorize now m t WRITE = Ok tt ->
  exists dst, AgentRuntime.spawn now wall m t rt (manifest i) (bound_intent i) = (Ok (AgentRuntime.next_id rt), dst) /\ moved_in rt i dst.
Proof.
  intros Ha. unfold AgentRuntime.spawn, AgentRuntime.require. rewrite Ha. simpl. eexists. split; [done|]. split; simpl.
  - eexists. rewrite lookup_insert_eq. done.
  - intros k Hk. by rewrite lookup_insert_ne by done.
Qed.

(** A migration moves the agent: with the right to write, the lease at the device
    it lives on and both devices there, it succeeds; the target runs a new instance
    with the same manifest and intent and no consents, the source's instance is
    terminated, the lease is the target's with the next generation, and no other
    agent, lease, instance or device changes. A migration that fails leaves every
    agent where it was and every lease as it was. *)
Theorem migration_moves_the_agent e m t a target trace now ttl h :
  (forall f h', migrate e (fun h => h) m t a target trace now ttl h = Some (Err f, h') -> leases h' = leases h /\ agents h' = agents h)
  /\ forall r l rt rt' i,
  (forall k, authorize (at_instant (ambient e k)) m t WRITE = Ok tt) ->
  agents h !! a = Some r -> leases h !! a = Some l -> holder_device l = ref_device r -> ref_device r <> target ->
  devices h !! ref_device r = Some rt -> instances rt !! local_instance r = Some i -> devices h !! target = Some rt' ->
  exists rc h' src dst, migrate e (fun h => h) m t a target trace now ttl h = Some (Ok rc, h')
  /\ agents h' = <[a := mkAgentRef target (AgentRuntime.next_id rt')]> (agents h)
  /\ leases h' = <[a := mkLease a target (u64_add (generation l) 1) now ttl]> (leases h)
  /\ devices h' = <[ref_device r := src]> (<[target := dst]> (devices h))
  /\ left_behind rt (local_instance r) src /\ moved_in rt' i dst.
Proof.
  split.
  { intros f h' Hm. apply migrate_cases in Hm as [(? & ? & _)|(? & ? & ? & ? & _ & _ & _ & _ & _ & _ & _ & rc & ?)]; done. }
  intros r l rt rt' i Hauth Hr Hl Hh Hne Hsrc Hi Hdst.
  destruct (checkpoint_terminate m t rt (local_instance r) i _ _ (runtime_wall e 1%nat) (runtime_wall e 3%nat 0%nat) (lit "migrated")
              (Hauth 1%nat) (Hauth 3%nat) Hi) as (cid & rt1 & src & Hck & Hstored & Hterm & Hleft).
  destruct (spawn_moves m t rt' i _ (runtime_wall e 2%nat 0%nat) (Hauth 2%nat)) as (dst & Hspawn & Hmoved).
  eexists _, _, src, dst. split.
  { unfold migrate. hub_run (unfold hub_require, reads; by rewrite Hauth).
    hub_run reflexivity. hub_run reflexivity.
    hub_run (unfold migration_source, mbind, hub_bind, reads; simpl; rewrite Hr; simpl; rewrite Hl; simpl; by rewrite Hh, N.eqb_refl).
    hub_run (by eapply device_ok). hub_run (by eapply device_ok).
    hub_run (eapply on_device_ok; [exact Hsrc|by rewrite Hck]).
    hub_run (unfold stored_checkpoint, get_checkpoint; simpl; rewrite lookup_insert_eq; simpl; by rewrite Hstored).
    hub_run (eapply on_device_ok; [simpl; rewrite lookup_insert_ne by done; exact Hdst|simpl; by rewrite Hspawn]).
    hub_run reflexivity.
    hub_run (eapply on_device_ok;
      [rewrite (proj2 (merge_telemetry_same _ _ _ _)); simpl; rewrite lookup_insert_ne by done; apply lookup_insert_eq|by rewrite Hterm]).
    hub_run reflexivity. reflexivity. }
  match goal with |- context [merge_telemetry ?h ?s ?d ?t] => destruct (merge_telemetry_same h s d t) as [Hsame Hdev] end.
  unfold rest in Hsame. injection Hsame as _ _ Hle Hag _ _. simpl in *. rewrite Hag, Hle, Hdev.
  split; [done|]. split; [done|]. split; [|done]. rewrite (insert_insert_ne _ _ _ _ _ (not_eq_sym Hne)), insert_insert_eq.
  by rewrite insert_insert_ne.
Qed.
End hub.

(** ** A concrete hub *)

Module FederationExample.
Import Crypto.Toy Wal.ToyRecords ExplainExample.

Definition Hub : Type := FederationHub.

Definition owner : CapabilityToken := mkToken 1 0 rights_all 0 7 None.
Definition setting : Setting :=
  mkSetting (fun _ => env) (fun _ => None) (fun _ _ => 0) (fun d p => if d =? 2 then Err (lit "busy") else Ok (p ++ [d])).
Definition settings (_ : nat) : Setting := setting.

Definition after {A : Type} (e : HubM A) (h : Hub) : Hub := match e h with Some (_, h) => h | None => h end.
Definition answer {A : Type} (e : HubM A) (h : Hub) : option (Result A FederationError) := fst <$> e h.

Definition spare : ResourceVector := set no_resources InferenceTokens 10.
Definition need : ResourceVector := set no_resources InferenceTokens 1.

(** Three devices: the nearest is rented, the next one is busy. *)
Definition joined : Hub :=
  after (join_device 0 tt owner 3 OwnedPrimary) (after (join_device 0 tt owner 2 OwnedSecondary)
    (after (join_device 0 tt owner 1 CloudRented) (new_with_shared_explanations Explainability.new))).
Definition published : Hub :=
  after (publish_ledger 3 spare 30 100 60) (after (publish_ledger 2 spare 20 100 60) (after (publish_ledger 1 spare 10 100 60) joined)).

Definition ask : Json := JObject [(lit "prompt", JString [104])].
Definition offload (tier : PrivacyTier) (h : Hub) : option (Result Json FederationError) :=
  answer (dispatch_offload to_json settings 0 tt owner (mkOffload need None tier) (lit "assistant.respond") ask 5 110) h.

(** Work that must not leave the house goes past the rented device and, the second
    being busy, to the third. *)
Example offloads_past_the_cloud :
  offload Local published = Some (Ok (JObject [(lit "text", JString [104; 3])]))
  /\ offload ConsentedCloud published = Some (Ok (JObject [(lit "text", JString [104; 1])])).
Proof. by vm_compute. Qed.

(** A device that joins again as a rented one still has the ledger it published as
    the owner's own, and is given work that must stay in the house. *)
Definition rejoined : Hub := after (join_device 0 tt owner 3 CloudRented) published.

Example old_ledger_hides_the_cloud :
  trust_tiers rejoined !! 3 = Some CloudRented
  /\ offload Local rejoined = Some (Ok (JObject [(lit "text", JString [104; 3])])).
Proof. by vm_compute. Qed.

Definition writer : AgentManifest := mkManifest (lit "writer") [lit "echo"] [] Verified.
Definition housed : Hub := after (spawn_agent setting tt owner 2 writer (Some 5) 100 60) published.

(** The generation starts again when a lease is released, and when an agent is
    opened under a number for which a lease was taken before. *)
Example generations_start_again :
  let taken := after (acquire_lease 0 tt owner 1 3 110 60) housed in
  generation <$> lease_of taken 1 = Some 1
  /\ generation <$> lease_of (after (acquire_lease 0 tt owner 1 2 120 60) (after (release_lease 0 tt owner 1) taken)) 1 = Some 0
  /\ generation <$> lease_of (after (acquire_lease 0 tt owner 2 3 110 60) (after (acquire_lease 0 tt owner 2 2 100 60) taken)) 2 = Some 1
  /\ generation <$> lease_of (after (spawn_agent setting tt owner 2 writer None 120 60)
       (after (acquire_lease 0 tt owner 2 3 110 60) (after (acquire_lease 0 tt owner 2 2 100 60) taken))) 2 = Some 0.
Proof. by vm_compute. Qed.

(** While an agent migrates from the second device to the first, the third one takes
    its lease; the migration then gives the same generation to the first. *)
Example two_holders_of_one_generation :
  let acquire := acquire_lease 0 tt owner 1 3 110 60 in
  match answer acquire housed, lease_of (after (migrate setting (after acquire) tt owner 1 1 9 120 60) housed) 1 with
  | Some (Ok l), Some l' => holder_device l = 3 /\ holder_device l' = 1 /\ generation l = generation l'
  | _, _ => False
  end.
Proof. by vm_compute. Qed.
End FederationExample.

Section witnesses.
Import Crypto.Toy Wal.ToyRecords ExplainExample FederationExample.

Lemma offload_is_a_walk_witness :
  vl_device <$> candidates published (mkOffload need None Local) 110 = [2; 3]
  /\ dispatch_offload to_json settings 0 tt owner (mkOffload need None Local) (lit "assistant.respond") ask 5 110 published
     = hub_bind _ _ (fun _ => offload_over to_json settings 0 tt owner (lit "assistant.respond") ask 5 110
                       (candidates published (mkOffload need None Local) 110)) (hub_require 0 tt owner EXEC) published.
Proof.
  split; [by vm_compute|].
  assert (Hok : ledgers_ok published) by (apply (bool_decide_unpack _); by vm_compute).
  exact (proj1 (offload_is_a_walk to_json settings 0 tt owner (mkOffload need None Local) (lit "assistant.respond") ask 5 110 published Hok)).
Defined.

Lemma leases_are_fenced_witness :
  exists l', leases (FederationExample.after (acquire_lease 0 tt owner 1 3 110 60) housed) !! 1 = Some l' /\ fenced (mkLease 1 2 0 100 60) l'.
Proof.
  apply (proj1 (leases_are_fenced (M := unit) to_json) 1 housed); [|by vm_compute]. apply rtc_once.
  apply (st_acquire to_json 1 0 tt owner 1 3 110 60 (Ok (mkLease 1 3 1 110 60))).
  - intros l Hl. vm_compute in Hl. by injection Hl as <-.
  - by vm_compute.
Defined.

Lemma migration_moves_the_agent_witness :
  exists rc h', migrate setting (fun h => h) tt owner 1 3 9 120 60 housed = Some (Ok rc, h')
    /\ leases h' !! 1 = Some (mkLease 1 3 1 120 60) /\ ref_device <$> agents h' !! 1 = Some 3.
Proof.
  destruct (devices housed !! 2) as [rt|] eqn:Hrt; [|vm_compute in Hrt; discriminate].
  destruct (devices housed !! 3) as [rt'|] eqn:Hrt'; [|vm_compute in Hrt'; discriminate].
  destruct (instances rt !! 1) as [i|] eqn:Hi; [|vm_compute in Hrt; injection Hrt as <-; vm_compute in Hi; discriminate].
  destruct (proj2 (migration_moves_the_agent (M := unit) setting tt owner 1 3 9 120 60 housed) (mkAgentRef 2 1) (mkLease 1 2 0 100 60) rt rt' i
              (fun _ => ltac:(by vm_compute)) eq_refl eq_refl eq_refl ltac:(done) Hrt Hi Hrt') as (rc & h' & src & dst & Hm & Hag & Hle & _).
  exists rc, h'. split; [done|]. rewrite Hag, Hle, !lookup_insert_eq. done.
Defined.
End witnesses.
