(* ===== verification/KgSync.v ===== *)
(** Replication of knowledge graphs: [crates/hyperion-federation/src/kg_sync.rs].

    A peer's snapshot is merged into the local graph through a table from the
    peer's node numbers to local ones: a node not seen before is created, one seen
    before is overwritten, and edges follow once both ends are known. *)
From S2P Require Import Prelude Crypto Capability Authority Wal Storage F32 KnowledgeGraph.
Open Scope N_scope.

Section sync.
Context {V : Type} `{Codec (WalRecord V)} `{Aead} `{HashIter} {M : Type} `{Authority M}.
Context (to_value : Record_ (V := V) -> V).

(** [remote_to_local]. *)
Definition KgTranslation : Type := gmap N NodeId.

Record KgMergeReport := mkMergeReport {
  nodes_created : N;
  nodes_updated : N;
  edges_applied : N;
  edges_skipped_unresolved : N
}.

(** What surrounds one write: the clocks, the nonce and what becomes of it. *)
Record Surroundings := mkSurr {
  su_now : Instant;
  su_wall1 : N;
  su_wall2 : N;
  su_nonce : list N;
  su_io : write_outcome
}.

(** A merge under way. *)
Record Merge := mkMerge {
  mg_report : KgMergeReport;
  mg_map : gmap N NodeId;
  mg_graph : KnowledgeGraph (V := V);
  mg_notes : list Notification
}.

Definition put_remote (e : Surroundings) (m : M) (t : CapabilityToken) (g : KnowledgeGraph (V := V)) (id : option NodeId)
    (n : NodeRecord (V := V)) (sender : N) :=
  put_node_with_device_origin to_value (su_now e) m t g id (object_type n) (embedding n) (node_metadata n) sender
    (su_wall1 e) (su_wall2 e) (su_nonce e) (su_io e).

(** One turn of the loop over the nodes. *)
Definition merge_node (e : Surroundings) (m : M) (t : CapabilityToken) (sender : N) (s : Merge)
    (x : NodeId * NodeRecord (V := V)) : Merge :=
  let '(remote, n) := x in
  let r := mg_report s in
  match mg_map s !! remote with
  | Some local =>
      match put_remote e m t (mg_graph s) (Some local) n sender with
      | (Ok _, g, notes) =>
          mkMerge (mkMergeReport (nodes_created r) (nodes_updated r + 1) (edges_applied r) (edges_skipped_unresolved r))
            (mg_map s) g (mg_notes s ++ notes)
      | (Err _, g, notes) => mkMerge r (mg_map s) g (mg_notes s ++ notes)
      end
  | None =>
      match put_remote e m t (mg_graph s) None n sender with
      | (Ok local, g, notes) =>
          mkMerge (mkMergeReport (nodes_created r + 1) (nodes_updated r) (edges_applied r) (edges_skipped_unresolved r))
            (<[remote := local]> (mg_map s)) g (mg_notes s ++ notes)
      | (Err _, g, notes) => mkMerge r (mg_map s) g (mg_notes s ++ notes)
      end
  end.

(** One turn of the loop over the edges. *)
Definition merge_edge (e : Surroundings) (m : M) (t : CapabilityToken) (s : Merge) (x : EdgeId * EdgeRecord) : Merge :=
  let '(_, ed) := x in
  let r := mg_report s in
  match mg_map s !! subject ed, mg_map s !! target ed with
  | Some sub, Some tgt =>
      match link to_value (su_now e) m t (mg_graph s) sub (predicate ed) tgt (weight ed) (edge_origin ed) (confidence ed)
              (provenance ed) None (su_wall1 e) (su_wall2 e) (su_nonce e) (su_io e) with
      | (Ok _, g, notes) =>
          mkMerge (mkMergeReport (nodes_created r) (nodes_updated r) (edges_applied r + 1) (edges_skipped_unresolved r))
            (mg_map s) g (mg_notes s ++ notes)
      | (Err _, g, notes) => mkMerge r (mg_map s) g (mg_notes s ++ notes)
      end
  | _, _ =>
      mkMerge (mkMergeReport (nodes_created r) (nodes_updated r) (edges_applied r) (edges_skipped_unresolved r + 1))
        (mg_map s) (mg_graph s) (mg_notes s)
  end.

(** [step] on each element, with surroundings of its own. *)
Fixpoint each {A : Type} (step : Surroundings -> Merge -> A -> Merge) (env : nat -> Surroundings) (l : list A) (s : Merge) : Merge :=
  match l with
  | [] => s
  | x :: l => each step (fun k => env (S k)) l (step (env 0%nat) s x)
  end.

Definition start_merge (g : KnowledgeGraph (V := V)) (tr : gmap N NodeId) : Merge := mkMerge (mkMergeReport 0 0 0 0) tr g [].

Definition merge_snapshot (env env' : nat -> Surroundings) (g : KnowledgeGraph (V := V)) (m : M) (t : CapabilityToken)
    (tr : KgTranslation) (snap : GraphSnapshot (V := V)) (sender : N) : Merge :=
  each (fun e => merge_edge e m t) env' (snap_edges snap)
    (each (fun e s => merge_node e m t sender s) env (snap_nodes snap) (start_merge g tr)).

(** ** One write *)

(** How a put ends. *)
Lemma put_remote_cases e m t g id n sender r g' notes :
  put_remote e m t g id n sender = (r, g', notes) ->
  (id = None -> next_object_id (inner (storage g)) + 1 < two64) ->
  match r with
  | Err _ => index g' = index g
  | Ok o => o = default (next_object_id (inner (storage g))) id
            /\ (forall n0, (id ≫= fun id => nodes (index g) !! id) = Some n0 -> owner n0 = origin t)
            /\ (id = None -> current_version (storage g) o = None)
            /\ exists n', index g' = apply (index g) o (RNode n') /\ owner n' = origin t /\ object_type n' = object_type n
               /\ embedding n' = embedding n /\ node_metadata n' = node_metadata n /\ device_origin n' = sender
  end.
Proof.
  unfold put_remote, put_node_with_device_origin, put_node_with_provenance. destruct (require _ _ _ _); [|by intros [= <- <- <-]].
  destruct (is_some_and _ _) eqn:Hown; [by intros [= <- <- <-]|].
  assert (Ho : forall n0, (id ≫= fun id => nodes (index g) !! id) = Some n0 -> owner n0 = origin t).
  { intros n0 Hn0. rewrite Hn0 in Hown. simpl in Hown. by apply negb_false_iff, N.eqb_eq in Hown. }
  unfold commit_record. destruct (put_object _ _ _ _ _ _ _ _ _) as [[[o w]|err] s'] eqn:Hput; intros [= <- <- <-] Hlt; [|done].
  apply put_object_assigned in Hput as (-> & Hc & _); [|done]. split; [done|]. split; [done|]. split.
  - intros ->. exact Hc.
  - eexists. split; [done|]. split; [|done]. simpl. destruct (id ≫= _) as [n0|] eqn:Hn0; simpl; [|done]. by apply Ho.
Qed.

(** A put that nothing is in the way of. *)
Lemma put_remote_ok e m t g id n sender :
  authorize (su_now e) m t WRITE = Ok tt -> su_io e = Written ->
  (forall n0, (id ≫= fun id => nodes (index g) !! id) = Some n0 -> owner n0 = origin t) ->
  (id = None -> current_version (storage g) (next_object_id (inner (storage g))) = None) ->
  exists o g' notes, put_remote e m t g id n sender = (Ok o, g', notes).
Proof.
  intros Ha Hio Hown Hfresh. unfold put_remote, put_node_with_device_origin, put_node_with_provenance, require. rewrite Ha. simpl.
  assert (is_some_and (id ≫= fun id => nodes (index g) !! id) (fun n => negb (owner n =? origin t)) = false) as ->.
  { destruct (id ≫= _) as [n0|]; [|done]. simpl. by rewrite (Hown n0 eq_refl), N.eqb_refl. }
  unfold commit_record, put_object. rewrite Ha, Hio. destruct id as [id|]; simpl.
  - unfold current_version. rewrite bool_decide_false by (by intros []). by eexists _, _, _.
  - unfold current_version in Hfresh. rewrite Hfresh by done. rewrite bool_decide_false by (by intros []). by eexists _, _, _.
Qed.

(** Numbers in use are below the next one. *)
Definition numbered (s : StorageEngine (V := V)) : Prop :=
  forall x, is_Some (current_version s x) -> x < next_object_id (inner s).

Lemma put_object_numbers now m t s id expected v nonce io :
  next_object_id (inner s) + 1 < two64 -> (forall x, id = Some x -> x < next_object_id (inner s)) ->
  let s' := (put_object (M := M) now m t s id expected v nonce io).2 in
  next_object_id (inner s') <= next_object_id (inner s) + 1 /\ (numbered s -> numbered s').
Proof.
  intros Hroom Hid. unfold put_object, numbered, current_version.
  destruct (authorize now m t WRITE); [|simpl; split; [lia|done]].
  assert (Htarget : exists o n, match id with
    | Some id => (id, next_object_id (inner s))
    | None => (next_object_id (inner s), u64_add (next_object_id (inner s)) 1)
    end = (o, n) /\ o < n /\ next_object_id (inner s) <= n <= next_object_id (inner s) + 1).
  { destruct id as [id|]; eexists _, _; (split; [done|]); [specialize (Hid id eq_refl); lia|].
    rewrite u64_add_small by done. lia. }
  destruct Htarget as (o & n & -> & Ho & Hn). case_bool_decide; simpl.
  { split; [lia|]. intros Hx x Hs. specialize (Hx _ Hs). lia. }
  destruct io; simpl; (split; [lia|]); intros Hx x Hs.
  - destruct (decide (o = x)) as [->|Hne]; [lia|]. rewrite lookup_insert_ne in Hs by done. specialize (Hx _ Hs). lia.
  - specialize (Hx _ Hs). lia.
Qed.

Definition next_number (g : KnowledgeGraph (V := V)) : N := next_object_id (inner (storage g)).

Lemma put_remote_numbers e m t g id n sender :
  next_number g + 1 < two64 -> (forall x, id = Some x -> x < next_number g) ->
  next_number (put_remote e m t g id n sender).1.2 <= next_number g + 1
  /\ (numbered (storage g) -> numbered (storage (put_remote e m t g id n sender).1.2)).
Proof.
  intros Hroom Hid. unfold put_remote, put_node_with_device_origin, put_node_with_provenance.
  destruct (require _ _ _ _); [|simpl; split; [lia|done]]. destruct (is_some_and _ _); [simpl; split; [lia|done]|].
  rewrite commit_record_graph. unfold commit_graph. set (ex := id ≫= _). set (v := to_value _).
  pose proof (put_object_numbers (su_now e) m t (storage g) id ex v (su_nonce e) (su_io e) Hroom Hid) as Hnum.
  by destruct (put_object _ _ _ _ _ _ _ _ _) as [[[o w]|err] s'].
Qed.

Lemma commit_numbers now m t g id expected r nonce io :
  next_number g + 1 < two64 -> (forall x, id = Some x -> x < next_number g) ->
  let g' := commit_graph (M := M) to_value now m t g id expected r nonce io in
  next_number g' <= next_number g + 1 /\ (numbered (storage g) -> numbered (storage g')).
Proof.
  intros Hroom Hid. unfold commit_graph.
  pose proof (put_object_numbers now m t (storage g) id expected (to_value r) nonce io Hroom Hid) as Hnum.
  by destruct (put_object _ _ _ _ _ _ _ _ _) as [[[o w]|err] s'].
Qed.

(** A link changes no node. *)
Lemma link_effect now m t g sub pred tgt w orig conf prov observed wall1 wall2 nonce io :
  graph_wf g -> next_number g + 1 < two64 ->
  let g' := (link to_value now m t g sub pred tgt w orig conf prov observed wall1 wall2 nonce io).1.2 in
  nodes (index g') = nodes (index g) /\ next_number g' <= next_number g + 1 /\ (numbered (storage g) -> numbered (storage g')).
Proof.
  intros Hwf Hroom.
  assert (Hcommit : forall id expected e, (forall x, id = Some x -> is_Some (edges (index g) !! x)) ->
    let g' := commit_graph to_value now m t g id expected (REdge e) nonce io in
    nodes (index g') = nodes (index g) /\ next_number g' <= next_number g + 1 /\ (numbered (storage g) -> numbered (storage g'))).
  { intros id ex e Hid. split.
    - unfold commit_graph. by destruct (put_object _ _ _ _ _ _ _ _ _) as [[[o v]|err] s'].
    - apply commit_numbers; [done|]. intros x Hx. destruct (Hid x Hx) as [e0 He0]. exact (gw_edges _ Hwf _ _ He0). }
  assert (Hnone : nodes (index g) = nodes (index g) /\ next_number g <= next_number g + 1 /\ (numbered (storage g) -> numbered (storage g)))
    by (split_and!; [done|lia|done]).
  unfold link. destruct (require now m t WRITE); [|done]. destruct (_ && _); [done|].
  destruct (edge_identity (index g) !! (sub, pred, tgt)) as [id|]; simpl;
    [destruct (edges (index g) !! id) as [e|] eqn:He; simpl|].
  - destruct (negb _); [done|].
    assert (Hs : forall x, Some id = Some x -> is_Some (edges (index g) !! x)) by (intros x [= <-]; by eexists).
    destruct (edge_tombstone e); [destruct (negb _); [done|]|]; rewrite commit_record_graph; by apply Hcommit.
  - rewrite commit_record_graph. by apply Hcommit.
  - rewrite commit_record_graph. by apply Hcommit.
Qed.

(** ** A merge under way *)

(** The table names different nodes of the merging boundary. *)
Record synced (b : N) (s : Merge) : Prop := {
  sy_wf : graph_wf (mg_graph s);
  sy_inj : forall r r' l, mg_map s !! r = Some l -> mg_map s !! r' = Some l -> r = r';
  sy_owned : forall r l, mg_map s !! r = Some l -> exists n, nodes (index (mg_graph s)) !! l = Some n /\ owner n = b
}.

(** What merging may do: other boundaries keep what they have, the table keeps its
    entries, and only nodes the table names change. *)
Record merges (b : N) (s s' : Merge) : Prop := {
  me_within : within b (index (mg_graph s)) (index (mg_graph s'));
  me_map : mg_map s ⊆ mg_map s';
  me_nodes : forall x, (forall r, mg_map s' !! r <> Some x) -> nodes (index (mg_graph s')) !! x = nodes (index (mg_graph s)) !! x
}.

#[export] Instance merges_preorder b : PreOrder (merges b).
Proof.
  split; [intros s; split; [reflexivity|done|done]|]. intros s s' s'' [W1 M1 N1] [W2 M2 N2]. split; [by etrans|by etrans|].
  intros x Hx. rewrite N2 by done. apply N1. intros r Hr. apply (Hx r). by eapply lookup_weaken.
Qed.

Lemma put_remote_gstep e m t g id n sender :
  exists op, gstep to_value (su_now e) m t op g (put_remote e m t g id n sender).1.2.
Proof. eexists. exact (put_gstep to_value (fun x => x) (su_now e) m t g id _ _ _ sender _ _ _ _ _ _). Qed.

(** A node's turn: what it puts, and where. *)
Lemma merge_node_cases e m t sender s remote n :
  synced (origin t) s -> next_number (mg_graph s) + 1 < two64 ->
  let s' := merge_node e m t sender s (remote, n) in
  index (mg_graph s') = index (mg_graph s) /\ mg_map s' = mg_map s /\ mg_report s' = mg_report s
  \/ exists l n', mg_map s' = <[remote := l]> (mg_map s) /\ index (mg_graph s') = apply (index (mg_graph s)) l (RNode n')
     /\ owner n' = origin t /\ object_type n' = object_type n /\ embedding n' = embedding n
     /\ node_metadata n' = node_metadata n /\ device_origin n' = sender
     /\ match mg_map s !! remote with
        | Some l0 => l = l0 /\ nodes_updated (mg_report s') = nodes_updated (mg_report s) + 1
                     /\ nodes_created (mg_report s') = nodes_created (mg_report s)
        | None => nodes (index (mg_graph s)) !! l = None /\ nodes_created (mg_report s') = nodes_created (mg_report s) + 1
                  /\ nodes_updated (mg_report s') = nodes_updated (mg_report s)
        end.
Proof.
  intros [Hwf Hinj Hown] Hroom. unfold merge_node. destruct (mg_map s !! remote) as [l|] eqn:Hl.
  - destruct (put_remote e m t (mg_graph s) (Some l) n sender) as [[[o|err] g'] notes] eqn:Hp;
      pose proof (put_remote_cases _ _ _ _ _ _ _ _ _ _ Hp ltac:(done)) as Hc; simpl; [right|left; split_and!; done].
    destruct Hc as (-> & _ & _ & n' & Hi & Hrest). exists l, n'. rewrite (insert_id (mg_map s) remote l Hl). naive_solver.
  - destruct (put_remote e m t (mg_graph s) None n sender) as [[[o|err] g'] notes] eqn:Hp;
      pose proof (put_remote_cases _ _ _ _ _ _ _ _ _ _ Hp (fun _ => Hroom)) as Hc; simpl; [right|left; split_and!; done].
    destruct Hc as (-> & _ & Hfresh & n' & Hi & Hrest). eexists _, n'. simpl. split_and!; try done; try naive_solver.
    destruct (nodes (index (mg_graph s)) !! _) as [n0|] eqn:Hn0; [|done].
    destruct (gw_nodes _ Hwf _ _ Hn0) as [v Hv]. specialize (Hfresh eq_refl). simpl in Hfresh. congruence.
Qed.

Lemma merge_node_graph e m t sender s remote n :
  exists id, mg_graph (merge_node e m t sender s (remote, n)) = (put_remote e m t (mg_graph s) id n sender).1.2
    /\ forall l, id = Some l -> mg_map s !! remote = Some l.
Proof.
  unfold merge_node. destruct (mg_map s !! remote) as [l|].
  - exists (Some l). destruct (put_remote e m t (mg_graph s) (Some l) n sender) as [[[o|err] g'] notes]; simpl; (split; [done|]); by intros ? [= <-].
  - exists None. by destruct (put_remote e m t (mg_graph s) None n sender) as [[[o|err] g'] notes].
Qed.

Lemma merge_node_merges e m t sender s remote n :
  numbered (storage (mg_graph s)) -> synced (origin t) s -> next_number (mg_graph s) + 1 < two64 ->
  let s' := merge_node e m t sender s (remote, n) in
  merges (origin t) s s' /\ synced (origin t) s' /\ next_number (mg_graph s') <= next_number (mg_graph s) + 1
  /\ numbered (storage (mg_graph s')).
Proof.
  intros Hnum Hs Hroom. pose proof (merge_node_cases e m t sender s remote n Hs Hroom) as Hc.
  destruct (merge_node_graph e m t sender s remote n) as (id & Hg & Hid).
  destruct (put_remote_gstep e m t (mg_graph s) id n sender) as (op & Hstep). rewrite <- Hg in Hstep.
  destruct Hs as [Hwf Hinj Hown].
  assert (Hlt : forall x, id = Some x -> x < next_number (mg_graph s)).
  { intros x Hx. destruct (Hown _ _ (Hid _ Hx)) as (n0 & Hn0 & _). apply Hnum. by apply (gw_nodes _ Hwf _ _ Hn0). }
  destruct (put_remote_numbers e m t (mg_graph s) id n sender Hroom Hlt) as [Hnext Hnum']. rewrite <- Hg in Hnext, Hnum'.
  assert (Hwf' : graph_wf (mg_graph (merge_node e m t sender s (remote, n)))) by (eapply gstep_wf; [done|done|exact Hstep]).
  assert (Hwi : within (origin t) (index (mg_graph s)) (index (mg_graph (merge_node e m t sender s (remote, n)))))
    by (eapply gstep_within; [done|done|exact Hstep]).
  revert Hc Hnext Hnum' Hwf' Hwi. clear Hg Hstep. generalize (merge_node e m t sender s (remote, n)). intros s' Hc Hnext Hnum' Hwf' Hwi. simpl.
  split_and!; [| |done|by apply Hnum'].
  - destruct Hc as [(Hi & Hm & _)|(l & n' & Hm & Hi & _ & _ & _ & _ & _ & Hcase)]; (split; [done| |]).
    + by rewrite Hm.
    + intros x _. by rewrite Hi.
    + rewrite Hm. destruct (mg_map s !! remote) as [l0|] eqn:Hl; [destruct Hcase as [-> _]; by rewrite (insert_id (mg_map s) remote l0 Hl)|by apply insert_subseteq].
    + intros x Hx. rewrite Hi, apply_node_lookup. rewrite decide_False; [done|]. intros ->. apply (Hx remote).
      by rewrite Hm, lookup_insert_eq.
  - destruct Hc as [(Hi & Hm & _)|(l & n' & Hm & Hi & Ho & _ & _ & _ & _ & Hcase)]; (split; [done| |]).
    + by rewrite Hm.
    + by rewrite Hm, Hi.
    + rewrite Hm. destruct (mg_map s !! remote) as [l0|] eqn:Hl; [destruct Hcase as [-> _]; by rewrite (insert_id (mg_map s) remote l0 Hl)|].
      destruct Hcase as [Hfresh _].
      assert (Hnew : forall r, mg_map s !! r <> Some l) by (intros r Hr; destruct (Hown _ _ Hr) as (? & ? & _); congruence).
      intros r r' x [[<- <-]|[? Hr]]%lookup_insert_Some [[? ?]|[? Hr']]%lookup_insert_Some; [done| | |by eapply Hinj];
        subst; by edestruct Hnew.
    + rewrite Hm, Hi. intros r x Hr. rewrite apply_node_lookup. destruct (decide (x = l)) as [->|Hne]; [by exists n'|].
      apply lookup_insert_Some in Hr as [[_ ?]|[_ Hr]]; [done|by eapply Hown].
Qed.

Lemma merge_edge_graph e m t s x :
  mg_map (merge_edge e m t s x) = mg_map s
  /\ nodes_created (mg_report (merge_edge e m t s x)) = nodes_created (mg_report s)
  /\ nodes_updated (mg_report (merge_edge e m t s x)) = nodes_updated (mg_report s)
  /\ (mg_graph (merge_edge e m t s x) = mg_graph s
      \/ exists sub pred tgt w orig conf prov,
           mg_graph (merge_edge e m t s x)
           = (link to_value (su_now e) m t (mg_graph s) sub pred tgt w orig conf prov None (su_wall1 e) (su_wall2 e) (su_nonce e) (su_io e)).1.2).
Proof.
  destruct x as [id ed]. unfold merge_edge.
  destruct (mg_map s !! subject ed) as [sub|]; [|split_and!; [..|by left]; done].
  destruct (mg_map s !! target ed) as [tgt|]; [|split_and!; [..|by left]; done].
  destruct (link _ _ _ _ _ _ _ _ _ _ _ _ _ _ _ _ _) as [[[o|err] g'] notes] eqn:Hl; simpl; (split_and!; [done..|]);
    right; exists sub, (predicate ed), tgt, (weight ed), (edge_origin ed), (confidence ed), (provenance ed); by rewrite Hl.
Qed.

Lemma merge_edge_merges e m t s x :
  numbered (storage (mg_graph s)) -> synced (origin t) s -> next_number (mg_graph s) + 1 < two64 ->
  let s' := merge_edge e m t s x in
  merges (origin t) s s' /\ synced (origin t) s' /\ next_number (mg_graph s') <= next_number (mg_graph s) + 1
  /\ numbered (storage (mg_graph s')) /\ nodes (index (mg_graph s')) = nodes (index (mg_graph s)).
Proof.
  intros Hnum Hs Hroom. destruct (merge_edge_graph e m t s x) as (Hm & _ & _ & Hg).
  revert Hm Hg. generalize (merge_edge e m t s x). intros s' Hm Hg. simpl. pose proof Hs as [Hwf Hinj Hown].
  assert (Hgraph : graph_wf (mg_graph s') /\ within (origin t) (index (mg_graph s)) (index (mg_graph s'))
    /\ nodes (index (mg_graph s')) = nodes (index (mg_graph s)) /\ next_number (mg_graph s') <= next_number (mg_graph s) + 1
    /\ numbered (storage (mg_graph s'))).
  { destruct Hg as [->|(sub & pred & tgt & w & orig & conf & prov & ->)]; [split_and!; [done|reflexivity|done|lia|done]|].
    pose proof (link_gstep to_value (fun x => x) (su_now e) m t (mg_graph s) sub pred tgt w orig conf prov None (su_wall1 e) (su_wall2 e)
                  (su_nonce e) (su_io e) Hwf) as Hstep.
    destruct (link_effect (su_now e) m t (mg_graph s) sub pred tgt w orig conf prov None (su_wall1 e) (su_wall2 e)
                (su_nonce e) (su_io e) Hwf Hroom) as (Hnodes & Hnext & Hnum').
    split; [eapply gstep_wf; [done|done|exact Hstep]|]. split; [eapply gstep_within; [done|done|exact Hstep]|].
    split; [exact Hnodes|]. split; [exact Hnext|by apply Hnum']. }
  destruct Hgraph as (Hwf' & Hwi & Hnodes & Hnext & Hnum'). split_and!; [| |done..].
  - split; [done|by rewrite Hm|]. intros y _. by rewrite Hnodes.
  - split; [done|by rewrite Hm|]. by rewrite Hm, Hnodes.
Qed.

(** A loop of such turns. *)
Lemma each_merges {A} (turn : Surroundings -> Merge -> A -> Merge) b :
  (forall e s x, numbered (storage (mg_graph s)) -> synced b s -> next_number (mg_graph s) + 1 < two64 ->
     merges b s (turn e s x) /\ synced b (turn e s x) /\ next_number (mg_graph (turn e s x)) <= next_number (mg_graph s) + 1
     /\ numbered (storage (mg_graph (turn e s x)))) ->
  forall env l s, numbered (storage (mg_graph s)) -> synced b s -> next_number (mg_graph s) + N.of_nat (length l) < two64 ->
    merges b s (each turn env l s) /\ synced b (each turn env l s)
    /\ next_number (mg_graph (each turn env l s)) <= next_number (mg_graph s) + N.of_nat (length l)
    /\ numbered (storage (mg_graph (each turn env l s))).
Proof.
  intros Hturn env l. revert env. induction l as [|x l IH]; intros env s Hnum Hs Hroom; simpl in *.
  - split_and!; [reflexivity|done|lia|done].
  - destruct (Hturn (env 0%nat) s x Hnum Hs ltac:(lia)) as (Hm & Hs1 & Hn1 & Hnum1).
    destruct (IH (fun k => env (S k)) _ Hnum1 Hs1 ltac:(lia)) as (Hm2 & Hs2 & Hn2 & Hnum2).
    split_and!; [by etrans|done|lia|done].
Qed.

(** ** Theorems *)

(** Merging a peer's snapshot stays within bounds. Whatever the snapshot says and
    whichever writes fail, a table that names different nodes of the merging
    boundary still does and keeps its entries; other boundaries' nodes and edges
    are as they were, what is new is the merging boundary's, and no node changes
    but those the table names. *)
Theorem merge_is_confined env env' g m t tr snap sender :
  numbered (storage g) -> synced (origin t) (start_merge g tr) ->
  next_number g + N.of_nat (length (snap_nodes snap)) + N.of_nat (length (snap_edges snap)) < two64 ->
  let s' := merge_snapshot env env' g m t tr snap sender in
  merges (origin t) (start_merge g tr) s' /\ synced (origin t) s' /\ numbered (storage (mg_graph s')).
Proof.
  intros Hnum Hs Hroom. unfold merge_snapshot.
  destruct (each_merges (fun e s => merge_node e m t sender s) (origin t)
              (fun e s x => match x with (r, n) => merge_node_merges e m t sender s r n end) env (snap_nodes snap) (start_merge g tr) Hnum Hs ltac:(simpl; lia))
    as (Hm1 & Hs1 & Hn1 & Hnum1). simpl in Hn1.
  destruct (each_merges (fun e => merge_edge e m t) (origin t)
              (fun e s x Hn Hs Hr => match merge_edge_merges e m t s x Hn Hs Hr with conj a (conj b (conj c (conj d _))) => conj a (conj b (conj c d)) end)
              env' (snap_edges snap) _ Hnum1 Hs1 ltac:(lia)) as (Hm2 & Hs2 & _ & Hnum2).
  simpl. split_and!; [by etrans|done|done].
Qed.

(** A remote node and its local copy. *)
Definition mirrors (b sender : N) (s : Merge) (x : NodeId * NodeRecord (V := V)) : Prop :=
  exists l n', mg_map s !! x.1 = Some l /\ nodes (index (mg_graph s)) !! l = Some n' /\ owner n' = b
    /\ object_type n' = object_type x.2 /\ embedding n' = embedding x.2 /\ node_metadata n' = node_metadata x.2
    /\ device_origin n' = sender.

(** A write that is authorised and reaches the disk. *)
Definition good (e : Surroundings) (m : M) (t : CapabilityToken) : Prop :=
  authorize (su_now e) m t WRITE = Ok tt /\ su_io e = Written.

Lemma merge_node_counts e m t sender s remote n :
  good e m t -> numbered (storage (mg_graph s)) -> synced (origin t) s ->
  let r := mg_report s in
  let r' := mg_report (merge_node e m t sender s (remote, n)) in
  nodes_created r' + nodes_updated r' = nodes_created r + nodes_updated r + 1.
Proof.
  intros [Ha Hio] Hnum [Hwf Hinj Hown]. unfold merge_node. destruct (mg_map s !! remote) as [l|] eqn:Hl.
  - destruct (put_remote_ok e m t (mg_graph s) (Some l) n sender Ha Hio) as (o & g' & notes & ->); [|done|simpl; lia].
    simpl. intros n0 Hn0. destruct (Hown _ _ Hl) as (n1 & Hn1 & <-). congruence.
  - destruct (put_remote_ok e m t (mg_graph s) None n sender Ha Hio) as (o & g' & notes & ->); [done| |simpl; lia].
    intros _. destruct (current_version _ _) eqn:Hv; [|done]. exfalso.
    specialize (Hnum (next_object_id (inner (storage (mg_graph s)))) ltac:(by eexists)). lia.
Qed.

(** A good turn mirrors its node and leaves the other mirrors as they were. *)
Lemma merge_node_mirrors e m t sender s remote n :
  good e m t -> numbered (storage (mg_graph s)) -> synced (origin t) s -> next_number (mg_graph s) + 1 < two64 ->
  let s' := merge_node e m t sender s (remote, n) in
  mirrors (origin t) sender s' (remote, n)
  /\ (forall x, x.1 <> remote -> mirrors (origin t) sender s x -> mirrors (origin t) sender s' x)
  /\ (forall r, r <> remote -> mg_map s' !! r = mg_map s !! r)
  /\ nodes_created (mg_report s') + nodes_updated (mg_report s') = nodes_created (mg_report s) + nodes_updated (mg_report s) + 1
  /\ (if mg_map s !! remote is Some _ then mg_map s' = mg_map s /\ nodes_created (mg_report s') = nodes_created (mg_report s)
      else nodes_created (mg_report s') = nodes_created (mg_report s) + 1).
Proof.
  intros Hg Hnum Hs Hroom. pose proof (merge_node_counts e m t sender s remote n Hg Hnum Hs) as Hcount.
  destruct (merge_node_cases e m t sender s remote n Hs Hroom) as [(_ & _ & Hr)|(l & n' & Hm & Hi & Ho & H1' & H2' & H3' & H4' & Hcase)].
  { simpl in *. rewrite Hr in Hcount. lia. }
  revert Hcount Hm Hi Hcase. generalize (merge_node e m t sender s (remote, n)). intros s' Hcount Hm Hi Hcase. cbv zeta in *.
  destruct Hs as [Hwf Hinj Hown]. split_and!; [| | |done|].
  - exists l, n'. simpl. rewrite Hm, lookup_insert_eq. split; [done|]. rewrite Hi, apply_node_lookup, decide_True by done. done.
  - intros x Hne (l0 & n0 & Hl0 & Hn0 & Hrest). exists l0, n0. rewrite Hm, lookup_insert_ne by done.
    split; [done|]. rewrite Hi, apply_node_lookup, decide_False; [done|]. intros ->. destruct (mg_map s !! remote) as [l1|] eqn:Hl1.
    + destruct Hcase as [-> _]. by destruct (Hne (Hinj _ _ _ Hl0 Hl1)).
    + destruct Hcase as [Hfresh _]. congruence.
  - intros r Hne. by rewrite Hm, lookup_insert_ne.
  - destruct (mg_map s !! remote) as [l1|] eqn:Hl1; [|by apply Hcase]. destruct Hcase as (-> & _ & Hc). split; [|done].
    by rewrite Hm, insert_id.
Qed.

Definition unknown (tr : gmap N NodeId) (l : list (NodeId * NodeRecord (V := V))) : N :=
  N.of_nat (length (List.filter (fun x => negb (bool_decide (is_Some (tr !! x.1)))) l)).

Lemma unknown_cons tr x l : unknown tr (x :: l) = (if tr !! x.1 is Some _ then 0 else 1) + unknown tr l.
Proof.
  unfold unknown. simpl. destruct (tr !! x.1) as [y|].
  - rewrite bool_decide_true by (by eexists). simpl. lia.
  - rewrite bool_decide_false by (by intros [? ?]). simpl. lia.
Qed.

Lemma unknown_ext tr tr' l : (forall x, x ∈ l -> tr !! x.1 = tr' !! x.1) -> unknown tr l = unknown tr' l.
Proof.
  induction l as [|x l IH]; intros Heq; [done|]. rewrite !unknown_cons, (Heq x), IH; [done| |by left].
  intros y Hy. apply Heq. by right.
Qed.

Lemma each_mirrors m t sender env l s :
  (forall k, good (env k) m t) -> NoDup l.*1 -> numbered (storage (mg_graph s)) -> synced (origin t) s ->
  next_number (mg_graph s) + N.of_nat (length l) < two64 ->
  let s' := each (fun e s => merge_node e m t sender s) env l s in
  (forall x, x ∈ l -> mirrors (origin t) sender s' x)
  /\ (forall x, x.1 ∉ l.*1 -> mirrors (origin t) sender s x -> mirrors (origin t) sender s' x)
  /\ nodes_created (mg_report s') + nodes_updated (mg_report s')
     = nodes_created (mg_report s) + nodes_updated (mg_report s) + N.of_nat (length l)
  /\ nodes_created (mg_report s') = nodes_created (mg_report s) + unknown (mg_map s) l
  /\ (unknown (mg_map s) l = 0 -> mg_map s' = mg_map s).
Proof.
  revert env s. induction l as [|[remote n] l IH]; intros env s Hg Hnd Hnum Hs Hroom; cbn [each]; cbv zeta.
  { simpl. split_and!; [intros x Hx; by apply not_elem_of_nil in Hx|done|lia|unfold unknown; simpl; lia|done]. }
  rewrite fmap_cons in Hnd. apply NoDup_cons in Hnd as [Hin Hnd]. cbn [length] in Hroom.
  destruct (merge_node_merges (env 0%nat) m t sender s remote n Hnum Hs ltac:(lia)) as (_ & Hs1 & Hn1 & Hnum1).
  destruct (merge_node_mirrors (env 0%nat) m t sender s remote n (Hg 0%nat) Hnum Hs ltac:(lia)) as (Hmir & Hold & Hmap & Hcnt & Hcr).
  revert Hs1 Hn1 Hnum1 Hmir Hold Hmap Hcnt Hcr. generalize (merge_node (env 0%nat) m t sender s (remote, n)).
  intros s1 Hs1 Hn1 Hnum1 Hmir Hold Hmap Hcnt Hcr. cbv zeta in *.
  destruct (IH (fun k => env (S k)) s1 (fun k => Hg (S k)) Hnd Hnum1 Hs1 ltac:(lia)) as (IHin & IHold & IHcnt & IHcr & IHmap).
  assert (Hunk : unknown (mg_map s1) l = unknown (mg_map s) l).
  { apply unknown_ext. intros [r x] Hx. simpl. apply Hmap. intros ->. apply Hin. apply list_elem_of_fmap. by exists (remote, x). }
  rewrite unknown_cons, fmap_cons. cbn [fst length]. rewrite Hunk in *. split_and!.
  - intros x [->|Hx]%elem_of_cons; [by apply IHold|by apply IHin].
  - intros x Hx Hm. rewrite not_elem_of_cons in Hx. destruct Hx as [Hne Hx]. apply IHold; [done|]. by apply Hold.
  - lia.
  - destruct (mg_map s !! remote); [destruct Hcr as [_ Hcr]|]; lia.
  - destruct (mg_map s !! remote); [|lia]. destruct Hcr as [Hsame _]. intros Hz. rewrite IHmap by lia. done.
Qed.

(** The loop over the edges leaves the nodes, the table and their counts alone. *)
Lemma edges_keep_nodes m t env l s :
  numbered (storage (mg_graph s)) -> synced (origin t) s -> next_number (mg_graph s) + N.of_nat (length l) < two64 ->
  let s' := each (fun e => merge_edge e m t) env l s in
  nodes (index (mg_graph s')) = nodes (index (mg_graph s)) /\ mg_map s' = mg_map s
  /\ nodes_created (mg_report s') = nodes_created (mg_report s) /\ nodes_updated (mg_report s') = nodes_updated (mg_report s).
Proof.
  revert env s. induction l as [|x l IH]; intros env s Hnum Hs Hroom; cbn [each]; cbv zeta; [done|]. cbn [length] in Hroom.
  destruct (merge_edge_merges (env 0%nat) m t s x Hnum Hs ltac:(lia)) as (_ & Hs1 & Hn1 & Hnum1 & Hnodes).
  destruct (merge_edge_graph (env 0%nat) m t s x) as (Hm & Hc & Hu & _).
  destruct (IH (fun k => env (S k)) _ Hnum1 Hs1 ltac:(lia)) as (-> & -> & -> & ->). done.
Qed.

Definition all_mirrored (b sender : N) (s : Merge) (snap : GraphSnapshot (V := V)) : Prop :=
  forall x, x ∈ snap_nodes snap -> mirrors b sender s x.

(** One merge with nothing in the way. *)
Lemma merge_once env env' g m t tr snap sender :
  (forall k, good (env k) m t) -> NoDup (snap_nodes snap).*1 -> numbered (storage g) -> synced (origin t) (start_merge g tr) ->
  next_number g + N.of_nat (length (snap_nodes snap)) + N.of_nat (length (snap_edges snap)) < two64 ->
  let s := merge_snapshot env env' g m t tr snap sender in
  all_mirrored (origin t) sender s snap
  /\ nodes_created (mg_report s) + nodes_updated (mg_report s) = N.of_nat (length (snap_nodes snap))
  /\ nodes_created (mg_report s) = unknown tr (snap_nodes snap)
  /\ (unknown tr (snap_nodes snap) = 0 -> mg_map s = tr)
  /\ synced (origin t) s /\ numbered (storage (mg_graph s))
  /\ next_number (mg_graph s) <= next_number g + N.of_nat (length (snap_nodes snap)) + N.of_nat (length (snap_edges snap)).
Proof.
  intros Hg Hnd Hnum Hs Hroom. unfold merge_snapshot.
  destruct (each_mirrors m t sender env (snap_nodes snap) (start_merge g tr) Hg Hnd Hnum Hs ltac:(cbn [mg_graph start_merge]; lia))
    as (Hin & _ & Hcnt & Hcr & Hmap).
  destruct (each_merges (fun e s => merge_node e m t sender s) (origin t)
              (fun e s x => match x with (r, n) => merge_node_merges e m t sender s r n end) env (snap_nodes snap) (start_merge g tr) Hnum Hs
              ltac:(cbn [mg_graph start_merge]; lia))
    as (_ & Hs1 & Hn1 & Hnum1).
  revert Hin Hcnt Hcr Hmap Hs1 Hn1 Hnum1. generalize (each (fun e s => merge_node e m t sender s) env (snap_nodes snap) (start_merge g tr)).
  intros s1 Hin Hcnt Hcr Hmap Hs1 Hn1 Hnum1. cbn [mg_graph mg_map mg_report start_merge nodes_created nodes_updated] in *.
  destruct (edges_keep_nodes m t env' (snap_edges snap) s1 Hnum1 Hs1 ltac:(lia)) as (Hnodes & Htab & Hc2 & Hu2).
  destruct (each_merges (fun e => merge_edge e m t) (origin t)
              (fun e s x Hn Hs Hr => match merge_edge_merges e m t s x Hn Hs Hr with conj a (conj b (conj c (conj d _))) => conj a (conj b (conj c d)) end)
              env' (snap_edges snap) _ Hnum1 Hs1 ltac:(lia)) as (_ & Hs2 & Hn2 & Hnum2).
  cbv zeta. rewrite Hc2, Hu2, Htab. split_and!; [|lia|lia|done|done|done|lia].
  intros x Hx. destruct (Hin x Hx) as (l & n' & Hl & Hn' & Hrest). exists l, n'. by rewrite Htab, Hnodes.
Qed.

Lemma mirrored_known b sender s l : (forall x, x ∈ l -> mirrors b sender s x) -> unknown (mg_map s) l = 0.
Proof.
  induction l as [|x l IH]; intros Hall; [done|]. rewrite unknown_cons, IH by (intros y Hy; apply Hall; by right).
  destruct (Hall x ltac:(by left)) as (l0 & n' & -> & _). done.
Qed.

(** Merging replicates and is idempotent. When every write is authorised and
    reaches the disk, each node of the snapshot has a local copy of the merging
    boundary with its type, embedding and metadata and the sender as its origin;
    the report counts every node once, as created exactly when the table did not
    know it; and merging the same snapshot again creates nothing, keeps the table
    and leaves every node mirrored. *)
Theorem merge_mirrors env env' env2 env2' g m t tr snap sender :
  (forall k, good (env k) m t) -> (forall k, good (env2 k) m t) -> NoDup (snap_nodes snap).*1 ->
  numbered (storage g) -> synced (origin t) (start_merge g tr) ->
  next_number g + 2 * (N.of_nat (length (snap_nodes snap)) + N.of_nat (length (snap_edges snap))) < two64 ->
  let s1 := merge_snapshot env env' g m t tr snap sender in
  let s2 := merge_snapshot env2 env2' (mg_graph s1) m t (mg_map s1) snap sender in
  all_mirrored (origin t) sender s1 snap /\ all_mirrored (origin t) sender s2 snap
  /\ nodes_created (mg_report s1) + nodes_updated (mg_report s1) = N.of_nat (length (snap_nodes snap))
  /\ nodes_created (mg_report s1) = unknown tr (snap_nodes snap)
  /\ nodes_created (mg_report s2) = 0 /\ mg_map s2 = mg_map s1.
Proof.
  intros Hg Hg2 Hnd Hnum Hs Hroom.
  destruct (merge_once env env' g m t tr snap sender Hg Hnd Hnum Hs ltac:(lia)) as (Hmir & Hcnt & Hcr & _ & Hs1 & Hnum1 & Hn1).
  cbv zeta in *. revert Hmir Hcnt Hcr Hs1 Hnum1 Hn1. generalize (merge_snapshot env env' g m t tr snap sender).
  intros s1 Hmir Hcnt Hcr Hs1 Hnum1 Hn1. pose proof (mirrored_known _ _ _ _ Hmir) as Hzero.
  assert (Hstart : synced (origin t) (start_merge (mg_graph s1) (mg_map s1))) by (destruct Hs1; by split).
  destruct (merge_once env2 env2' (mg_graph s1) m t (mg_map s1) snap sender Hg2 Hnd Hnum1 Hstart ltac:(lia))
    as (Hmir2 & _ & Hcr2 & Hmap2 & _). cbv zeta in *. rewrite Hzero in *. split_and!; try done. by apply Hmap2.
Qed.
End sync.

(** ** A concrete merge *)
Module SyncExample.
Import Crypto.Toy Wal.ToyRecords Storage.StorageExample KnowledgeGraph.GraphExample.

Definition surr : Surroundings := mkSurr 0 1 1 toy_nonce Written.
Definition surrs : nat -> Surroundings := fun _ => surr.

(** What Alice's device sends: her two nodes and the edge between them. *)
Definition sent : GraphSnapshot (V := N) :=
  mkSnapshot (map_to_list (nodes (index graph3))) (map_to_list (edges (index graph3))).

(** A device that has nothing yet merges it, twice. *)
Definition merge_into (g : graph) (t : CapabilityToken) (tr : gmap N NodeId) : Merge (V := N) :=
  merge_snapshot (M := unit) value_of surrs surrs g tt t tr sent 7.

Definition counts (s : Merge (V := N)) : N * N * N * N :=
  let r := mg_report s in (nodes_created r, nodes_updated r, edges_applied r, edges_skipped_unresolved r).

Example merged_twice :
  let s := merge_into graph0 mallory ∅ in
  counts s = (2, 0, 1, 0) /\ counts (merge_into (mg_graph s) mallory (mg_map s)) = (0, 2, 1, 0).
Proof. vm_compute. done. Qed.

(** The table lives in memory: a device that restarted merges everything again, as
    new nodes beside the ones it has. *)
Example merged_again_after_a_restart :
  let s := merge_into graph0 mallory ∅ in
  counts (merge_into (mg_graph s) mallory ∅) = (2, 0, 1, 0)
  /\ size (nodes (index (mg_graph (merge_into (mg_graph s) mallory ∅)))) = 4%nat.
Proof. vm_compute. done. Qed.

(** An edge the merging boundary deleted stays deleted, and counts as applied. *)
Example suppressed_edges_count_as_applied :
  let s := merge_into graph4 alice (<[0 := 0]> (<[1 := 1]> ∅)) in
  counts s = (0, 2, 1, 0) /\ live_edges (mg_graph s) = [].
Proof. vm_compute. done. Qed.

Lemma start_synced b : synced b (start_merge (V := N) graph0 ∅).
Proof. split; [split; intros ? ?; discriminate|intros ? ? ?; discriminate|intros ? ?; discriminate]. Defined.

Lemma start_numbered : numbered (V := N) (storage graph0).
Proof. intros x [v Hv]. discriminate. Defined.
End SyncExample.
Import Crypto.Toy Wal.ToyRecords Storage.StorageExample KnowledgeGraph.GraphExample SyncExample.

Lemma merge_is_confined_witness :
  synced 9 (merge_into graph0 mallory ∅) /\ numbered (storage (mg_graph (merge_into graph0 mallory ∅))).
Proof.
  assert (Hroom : next_number graph0 + N.of_nat (length (snap_nodes sent)) + N.of_nat (length (snap_edges sent)) < two64)
    by (vm_compute; reflexivity).
  unfold merge_into. revert Hroom. generalize sent. intros snap Hroom.
  exact (proj2 (merge_is_confined (M := unit) value_of surrs surrs graph0 tt mallory ∅ snap 7 start_numbered (start_synced 9) Hroom)).
Defined.

Lemma merge_mirrors_witness :
  let s := merge_into graph0 mallory ∅ in
  all_mirrored 9 7 s sent /\ nodes_created (mg_report (merge_into (mg_graph s) mallory (mg_map s))) = 0.
Proof.
  assert (Hroom : next_number graph0 + 2 * (N.of_nat (length (snap_nodes sent)) + N.of_nat (length (snap_edges sent))) < two64)
    by (vm_compute; reflexivity).
  assert (Hnd : NoDup (snap_nodes sent).*1) by apply NoDup_fst_map_to_list.
  unfold merge_into. revert Hroom Hnd. generalize sent. intros snap Hroom Hnd.
  assert (Hgood : forall k, good (surrs k) tt mallory) by (intros k; split; reflexivity).
  pose proof (merge_mirrors (M := unit) value_of surrs surrs surrs surrs graph0 tt mallory ∅ snap 7 Hgood Hgood Hnd
                start_numbered (start_synced 9) Hroom) as (Hm & _ & _ & _ & H0 & _).
  exact (conj Hm H0).
Defined.
