(* ===== verification/Update.v ===== *)
(** The update orchestrator: [crates/hyperion-update/src/orchestrator.rs], with
    the types of [types.rs] it uses (system images are in [SystemImage]).

    An update is a signed manifest. Applying it takes a recovery point of the
    nodes it touches, goes through the stages of a rollout as long as the fleet
    stays healthy, and is rolled back through the recovery service when it does
    not. The caller's [health_for_stage] is a closure: besides reporting health it
    may do anything to the graph, so it takes the world and returns one. *)
From S2P Require Import Prelude Crypto Capability Authority Wal Storage DebugFmt Events F32 Json KnowledgeGraph NodeStore Recovery ModelRouter.
Open Scope N_scope.

(** ** types.rs *)

Abbreviation Version := N (only parsing).

Inductive UpdateSubject : Type :=
| SystemImage
| CapabilitySubject (id : list N)
| ModelSubject (id : list N).

#[export] Instance update_subject_eq_dec : EqDecision UpdateSubject.
Proof. solve_decision. Defined.

#[export] Instance update_subject_countable : Countable UpdateSubject.
Proof.
  refine (inj_countable'
    (fun s => match s with SystemImage => inl () | CapabilitySubject i => inr (inl i) | ModelSubject i => inr (inr i) end)
    (fun s => match s with inl _ => SystemImage | inr (inl i) => CapabilitySubject i | inr (inr i) => ModelSubject i end) _).
  by intros [].
Defined.

Record CompatibilityCheckResult := mkCompat {
  schema_compatible : bool;
  migration_required : bool;
  hardware_compatible : bool
}.

Definition is_compatible (c : CompatibilityCheckResult) : bool := schema_compatible c && hardware_compatible c.

Record CohortHealth := mkHealth {
  crash_rate : f32;
  latency_p99_ms : N
}.

Record HealthThresholds := mkThresholds {
  max_crash_rate : f32;
  max_latency_p99_ms : N
}.

Definition within (h : CohortHealth) (th : HealthThresholds) : bool :=
  f32_leb (crash_rate h) (max_crash_rate th) && (latency_p99_ms h <=? max_latency_p99_ms th).

(** [CohortStage], a percentage. *)
Record CohortStage := mkStage { percent : N }.

Record RolloutPolicy := mkPolicy {
  stages : list CohortStage;
  health_thresholds : HealthThresholds;
  auto_rollback_on_breach : bool
}.

Definition default_schedule (th : HealthThresholds) : RolloutPolicy :=
  mkPolicy [mkStage 1; mkStage 10; mkStage 50; mkStage 100] th true.

Inductive RolloutState : Type :=
| Staged
| CanaryAt (stage_index : nat)
| RolledOut
| RolledBack.

Record RollbackReceipt := mkReceipt {
  receipt_subject : UpdateSubject;
  rolled_back_to : Version
}.

Section update.
Context {V G Env M : Type} `{NodeStore V G Env (M := M)} `{HashIter}.
Context {AgentError MemoryError Mem : Type} `{MemoryEngine M Mem MemoryError} `{Signatures}.
Context (printable : N -> bool) (outside : nat -> Env).

Record UpdateManifest := mkManifest {
  subject : UpdateSubject;
  from_version : Version;
  to_version : Version;
  signature : option Signature;
  touched_objects : list NodeId;
  rollout_policy : RolloutPolicy
}.

Inductive UpdateError : Type :=
| Unauthorized
| SignatureInvalid
| Incompatible
| RolloutHealthBreach
| NoRecoveryPoint
| RepeatedRecentRollback (why : list N)
| RecoveryFailed (e : RecoveryError (AgentError := AgentError) (MemoryError := MemoryError))
| RouterFailed (e : ModelRouterError).

(** ** orchestrator.rs *)

(** [format!("{:?}", subject)]. *)
Definition debug_subject (s : UpdateSubject) : list N :=
  match s with
  | SystemImage => lit "SystemImage"
  | CapabilitySubject id => lit "Capability { id: " ++ debug_str printable id ++ lit " }"
  | ModelSubject id => lit "Model { id: " ++ debug_str printable id ++ lit " }"
  end.

Definition canonical_bytes (mf : UpdateManifest) : list N :=
  debug_subject (subject mf) ++ le_bytes 4 (from_version mf) ++ le_bytes 4 (to_version mf)
  ++ (touched_objects mf ≫= le_bytes 8).

Definition without_signature (mf : UpdateManifest) : UpdateManifest :=
  mkManifest (subject mf) (from_version mf) (to_version mf) None (touched_objects mf) (rollout_policy mf).

Definition sign_manifest (mf : UpdateManifest) (k : SigningKey) : Signature := sign k (canonical_bytes mf).

Definition verify_signature (mf : UpdateManifest) (vk : VerifyingKey) : bool :=
  match signature mf with
  | Some s => verify (canonical_bytes (without_signature mf)) s vk
  | None => false
  end.

Abbreviation Service := (RecoveryService (V := V) (Mem := Mem)) (only parsing).

Record UpdateOrchestrator := mkOrchestrator {
  recovery : Service;
  active_versions : gmap UpdateSubject Version;
  recovery_points : gmap UpdateSubject RecoveryPointId;
  rollout_states : gmap UpdateSubject RolloutState
}.

Definition new (r : Service) : UpdateOrchestrator := mkOrchestrator r ∅ ∅ ∅.

(** The orchestrator, the graph it shares, and the router. *)
Record System := mkSystem {
  orch : UpdateOrchestrator;
  world : World (G := G);
  router : ModelRouter
}.

Definition set_state (s : System) (sub : UpdateSubject) (st : RolloutState) : System :=
  let o := orch s in
  mkSystem (mkOrchestrator (recovery o) (active_versions o) (recovery_points o) (<[sub := st]> (rollout_states o)))
    (world s) (router s).

Definition set_version (s : System) (sub : UpdateSubject) (v : Version) : System :=
  let o := orch s in
  mkSystem (mkOrchestrator (recovery o) (<[sub := v]> (active_versions o)) (recovery_points o) (rollout_states o))
    (world s) (router s).

Definition set_recovery (s : System) (r : Service) : System :=
  let o := orch s in
  mkSystem (mkOrchestrator r (active_versions o) (recovery_points o) (rollout_states o)) (world s) (router s).

Definition set_point (s : System) (sub : UpdateSubject) (p : RecoveryPointId) : System :=
  let o := orch s in
  mkSystem (mkOrchestrator (recovery o) (active_versions o) (<[sub := p]> (recovery_points o)) (rollout_states o))
    (world s) (router s).

Definition set_world (s : System) (w : World) : System := mkSystem (orch s) w (router s).

Definition require (now : Instant) (m : M) (t : CapabilityToken) (r : RightsMask) : Result unit UpdateError :=
  map_err (fun _ => Unauthorized) (authorize now m t r).

Definition active_version (o : UpdateOrchestrator) (sub : UpdateSubject) : Version :=
  default 0 (active_versions o !! sub).

Definition rollout_state (o : UpdateOrchestrator) (sub : UpdateSubject) : option RolloutState :=
  rollout_states o !! sub.

Definition compatibility_check (o : UpdateOrchestrator) (mf : UpdateManifest) (hardware : bool) :
    CompatibilityCheckResult :=
  mkCompat (from_version mf =? active_version o (subject mf)) (bool_decide (touched_objects mf <> [])) hardware.

Definition subject_key (sub : UpdateSubject) : list N := debug_subject sub.

Definition update_rollback (now : Instant) (m : M) (t : CapabilityToken) (s : System) (mf : UpdateManifest) :
    Result RollbackReceipt UpdateError * System :=
  match require now m t WRITE with
  | Err e => (Err e, s)
  | Ok _ =>
      match recovery_points (orch s) !! subject mf with
      | None => (Err NoRecoveryPoint, s)
      | Some point =>
          let '(res, w) :=
            match touched_objects mf with
            | [] => (Ok tt, world s)
            | _ => restore_to outside now m t (recovery (orch s)) (world s) point
            end in
          match res with
          | Err e => (Err (RecoveryFailed e), set_world s w)
          | Ok _ =>
              (Ok (mkReceipt (subject mf) (from_version mf)),
               set_state (set_version (set_world s w) (subject mf) (from_version mf)) (subject mf) RolledBack)
          end
      end
  end.

Definition update_rollback_with_cause (now : Instant) (m : M) (t : CapabilityToken) (s : System)
    (mf : UpdateManifest) (cause : RollbackCause) (wall : N) : Result RollbackReceipt UpdateError * System :=
  match require now m t WRITE with
  | Err e => (Err e, s)
  | Ok _ =>
      match recovery_points (orch s) !! subject mf with
      | None => (Err NoRecoveryPoint, s)
      | Some point =>
          let '(res, r, w) :=
            match touched_objects mf with
            | [] => (Ok tt, recovery (orch s), world s)
            | _ => restore_to_with_cause outside now m t (recovery (orch s)) (world s) point
                     (subject_key (subject mf)) cause wall
            end in
          let s := set_world (set_recovery s r) w in
          match res with
          | Err e => (Err (RecoveryFailed e), s)
          | Ok _ =>
              (Ok (mkReceipt (subject mf) (from_version mf)),
               set_state (set_version s (subject mf) (from_version mf)) (subject mf) RolledBack)
          end
      end
  end.

(** Moves the target of a rollout, if there is one, to a stage. *)
Definition promote (now : Instant) (m : M) (t : CapabilityToken) (s : System) (target : option ImplId)
    (stage : RolloutStage) : Result unit UpdateError * System :=
  match target with
  | None => (Ok tt, s)
  | Some id =>
      let '(res, r) := set_rollout_stage now m t (router s) id stage in
      (map_err RouterFailed res, mkSystem (orch s) (world s) r)
  end.

(** [serde_json] writes a number that is not finite as null. *)

Definition breach_cause (mf : UpdateManifest) (i : nat) (stage : CohortStage) (h : CohortHealth) : RollbackCause :=
  let th := health_thresholds (rollout_policy mf) in
  mkCause (lit "rollout health breach at stage " ++ debug_u64 (N.of_nat i) ++ lit " (" ++ debug_u64 (percent stage)
           ++ lit "% of the fleet)")
    (JObject [(lit "stage_index", JNumber (N.of_nat i)); (lit "to_version", JNumber (to_version mf));
              (lit "crash_rate", json_f32 (crash_rate h)); (lit "latency_p99_ms", JNumber (latency_p99_ms h));
              (lit "max_crash_rate", json_f32 (max_crash_rate th));
              (lit "max_latency_p99_ms", JNumber (max_latency_p99_ms th))]).

(** A stage whose cohort is not healthy. *)
Definition breach (now : Instant) (m : M) (t : CapabilityToken) (s : System) (mf : UpdateManifest) (wall : N)
    (target : option ImplId) (i : nat) (stage : CohortStage) (h : CohortHealth) :
    Result unit UpdateError * System :=
  match promote now m t s target Shadow with
  | (Err e, s) => (Err e, s)
  | (Ok _, s) =>
      if auto_rollback_on_breach (rollout_policy mf) then
        match update_rollback_with_cause now m t s mf (breach_cause mf i stage h) wall with
        | (Err e, s) => (Err e, s)
        | (Ok _, s) => (Err RolloutHealthBreach, s)
        end
      else (Err RolloutHealthBreach, set_state s (subject mf) RolledBack)
  end.

Abbreviation HealthCheck := (nat -> N -> World (G := G) -> CohortHealth * World (G := G)) (only parsing).

(** The loop over the stages, from stage [i]. *)
Fixpoint rollout (now : Instant) (m : M) (t : CapabilityToken) (s : System) (mf : UpdateManifest) (wall : N)
    (health : HealthCheck) (target : option ImplId) (i : nat) (l : list CohortStage) :
    Result unit UpdateError * System :=
  match l with
  | [] => (Ok tt, s)
  | stage :: l =>
      let s := set_state s (subject mf) (CanaryAt i) in
      let '(h, w) := health i (percent stage) (world s) in
      let s := set_world s w in
      if negb (within h (health_thresholds (rollout_policy mf))) then breach now m t s mf wall target i stage h
      else match promote now m t s target (Canary (f32_div (f32_of_N (percent stage)) (f32_of_N 100))) with
           | (Err e, s) => (Err e, s)
           | (Ok _, s) => rollout now m t s mf wall health target (S i) l
           end
  end.

(** The most recent rollback of this subject away from this version. *)
Definition same_target (mf : UpdateManifest) (r : RecordedRollback) : bool :=
  bool_decide ((json_get (detail (rb_cause r)) (lit "to_version") ≫= as_u64) = Some (to_version mf)).

Definition apply_update_inner (now : Instant) (m : M) (t : CapabilityToken) (s : System) (mf : UpdateManifest)
    (hardware : bool) (wall : N) (health : HealthCheck) (vk : VerifyingKey) (target : option ImplId) :
    Result Version UpdateError * System :=
  match require now m t WRITE with
  | Err e => (Err e, s)
  | Ok _ =>
      if negb (verify_signature mf vk) then (Err SignatureInvalid, s)
      else if negb (is_compatible (compatibility_check (orch s) mf hardware)) then (Err Incompatible, s)
      else match rollback_causes now m t (recovery (orch s)) (subject_key (subject mf)) with
           | Err e => (Err (RecoveryFailed e), s)
           | Ok causes =>
               match List.find (same_target mf) (rev causes) with
               | Some previous => (Err (RepeatedRecentRollback (reason (rb_cause previous))), s)
               | None =>
                   let s := set_state s (subject mf) Staged in
                   match recovery_point_create now m t (recovery (orch s)) (world s) PreUpdate (touched_objects mf) wall with
                   | (Err e, _) => (Err (RecoveryFailed e), s)
                   | (Ok point, r) =>
                       let s := set_point (set_recovery s r) (subject mf) point in
                       match rollout now m t s mf wall health target 0 (stages (rollout_policy mf)) with
                       | (Err e, s) => (Err e, s)
                       | (Ok _, s) =>
                           match promote now m t s target Ga with
                           | (Err e, s) => (Err e, s)
                           | (Ok _, s) =>
                               (Ok (to_version mf),
                                set_state (set_version s (subject mf) (to_version mf)) (subject mf) RolledOut)
                           end
                       end
                   end
               end
           end
  end.

Definition apply_update (now : Instant) (m : M) (t : CapabilityToken) (s : System) (mf : UpdateManifest)
    (hardware : bool) (wall : N) (health : HealthCheck) (vk : VerifyingKey) : Result Version UpdateError * System :=
  apply_update_inner now m t s mf hardware wall health vk None.

Definition apply_update_with_rollout (now : Instant) (m : M) (t : CapabilityToken) (s : System) (mf : UpdateManifest)
    (hardware : bool) (wall : N) (health : HealthCheck) (vk : VerifyingKey) (id : ImplId) :
    Result Version UpdateError * System :=
  apply_update_inner now m t s mf hardware wall health vk (Some id).

(** ** A rollout, polled *)

(** The reports of the closure up to the first that is out of bounds, and the
    world it leaves. *)
Fixpoint poll (th : HealthThresholds) (health : HealthCheck) (i : nat) (l : list CohortStage) (w : World (G := G)) :
    option (nat * CohortStage * CohortHealth) * World (G := G) :=
  match l with
  | [] => (None, w)
  | stage :: l =>
      let '(h, w) := health i (percent stage) w in
      if within h th then poll th health (S i) l w else (Some (i, stage, h), w)
  end.

Lemma poll_breach th health i l w k stage h w' :
  poll th health i l w = (Some (k, stage, h), w') ->
  (i <= k)%nat /\ l !! (k - i)%nat = Some stage /\ within h th = false.
Proof.
  revert i w. induction l as [|st l IH]; intros i w; simpl; [done|].
  destruct (health i (percent st) w) as [h0 w0]. destruct (within h0 th) eqn:Hh.
  - intros (Hle & Hl & Hw)%IH. split; [lia|]. replace (k - i)%nat with (S (k - S i)) by lia. done.
  - intros [= <- <- <- <-]. split; [lia|]. by rewrite Nat.sub_diag.
Qed.

(** Only the target has moved, and only its stage. *)
Definition only_stage_of (target : option ImplId) (stage : RolloutStage) (r r' : ModelRouter) : Prop :=
  circuit_breaker r' = circuit_breaker r /\ next_invocation_id r' = next_invocation_id r
  /\ forall id, descriptor r' id
       = if bool_decide (target = Some id) then (fun d => with_stage d stage) <$> descriptor r id else descriptor r id.

(** Between two moves of a rollout, only the target and the subject's state have
    changed. *)
Definition moved (target : option ImplId) (sub : UpdateSubject) (s s' : System) : Prop :=
  recovery (orch s') = recovery (orch s) /\ active_versions (orch s') = active_versions (orch s)
  /\ recovery_points (orch s') = recovery_points (orch s)
  /\ (forall sub', sub' <> sub -> rollout_state (orch s') sub' = rollout_state (orch s) sub')
  /\ circuit_breaker (router s') = circuit_breaker (router s)
  /\ next_invocation_id (router s') = next_invocation_id (router s)
  /\ (forall id, (target <> Some id -> descriptor (router s') id = descriptor (router s) id)
         /\ forall stage, (fun d => with_stage d stage) <$> descriptor (router s') id
                          = (fun d => with_stage d stage) <$> descriptor (router s) id).

Lemma moved_refl target sub s : moved target sub s s.
Proof. by do 6 (split; [done|]). Qed.

Lemma moved_trans target sub s1 s2 s3 : moved target sub s1 s2 -> moved target sub s2 s3 -> moved target sub s1 s3.
Proof.
  intros (A1 & B1 & C1 & D1 & E1 & F1 & G1) (A2 & B2 & C2 & D2 & E2 & F2 & G2).
  unfold moved. rewrite A2, B2, C2, E2, F2. do 3 (split; [done|]). split; [|split; [done|split; [done|]]].
  - intros sub' Hne. by rewrite D2, D1.
  - intros id. destruct (G1 id) as [K1 L1], (G2 id) as [K2 L2]. split.
    + intros Hne. by rewrite K2, K1.
    + intros stage. by rewrite L2, L1.
Qed.

Lemma moved_state target sub s st : moved target sub s (set_state s sub st).
Proof. do 3 (split; [done|]). split; [|done]. intros sub' Hne. by apply lookup_insert_ne. Qed.

Lemma moved_world target sub s w : moved target sub s (set_world s w).
Proof. by do 6 (split; [done|]). Qed.

Lemma promote_ok now m t s target stage :
  authorize now m t WRITE = Ok tt ->
  exists r', promote now m t s target stage = (Ok tt, mkSystem (orch s) (world s) r')
             /\ only_stage_of target stage (router s) r'.
Proof.
  intros Ha. unfold promote. destruct target as [id|].
  - unfold set_rollout_stage, ModelRouter.require. rewrite Ha. simpl. eexists. split; [done|]. do 2 (split; [done|]).
    intros id'. unfold descriptor, registry_set_rollout_stage. simpl.
    by_cases (id' = id) as Hid; [subst|].
    + rewrite bool_decide_true by done. destruct (registry (router s) !! id) eqn:Hd; simpl; [by rewrite lookup_insert_eq|].
      by rewrite Hd.
    + rewrite bool_decide_false by congruence.
      destruct (registry (router s) !! id); simpl; [by rewrite lookup_insert_ne|done].
  - exists (router s). destruct s. split; [done|]. done.
Qed.

Lemma moved_promote target sub s stage r' :
  only_stage_of target stage (router s) r' -> moved target sub s (mkSystem (orch s) (world s) r').
Proof.
  intros (Hb & Hn & Hd). do 4 (split; [done|]). split; [done|]. split; [done|]. intros id. simpl. rewrite Hd. split.
  - intros Hne. by rewrite bool_decide_false.
  - intros st. destruct (bool_decide _); [|done]. by destruct (descriptor (router s) id).
Qed.

Lemma rollout_poll now m t s mf wall health target i l :
  authorize now m t WRITE = Ok tt ->
  exists s', moved target (subject mf) s s'
  /\ world s' = (poll (health_thresholds (rollout_policy mf)) health i l (world s)).2
  /\ rollout now m t s mf wall health target i l
     = match (poll (health_thresholds (rollout_policy mf)) health i l (world s)).1 with
       | None => (Ok tt, s')
       | Some (k, stage, h) => breach now m t s' mf wall target k stage h
       end.
Proof.
  intros Ha. revert s i. induction l as [|stage l IH]; intros s i; simpl.
  { exists s. split; [apply moved_refl|done]. }
  destruct (health i (percent stage) (world s)) as [h w]. destruct (within h _); simpl.
  - destruct (promote_ok now m t (set_world (set_state s (subject mf) (CanaryAt i)) w) target
                (Canary (f32_div (f32_of_N (percent stage)) (f32_of_N 100))) Ha) as (r' & -> & Hr).
    apply (moved_promote _ (subject mf)) in Hr.
    match goal with |- context [rollout _ _ _ ?s1 _ _ _ _ _ _] => destruct (IH s1 (S i)) as (s' & Hm & Hw & Hro) end.
    exists s'. split; [|done]. eapply moved_trans; [|exact Hm]. eapply moved_trans; [|exact Hr].
    eapply moved_trans; [apply moved_state|apply moved_world].
  - exists (set_world (set_state s (subject mf) (CanaryAt i)) w). split; [|done].
    eapply moved_trans; [apply moved_state|apply moved_world].
Qed.

(** ** What applying an update comes to *)

(** The checks that come before anything is changed. *)
Definition admitted (now : Instant) (m : M) (t : CapabilityToken) (s : System) (mf : UpdateManifest) (hardware : bool)
    (vk : VerifyingKey) : Prop :=
  authorize now m t WRITE = Ok tt /\ verify_signature mf vk = true
  /\ from_version mf = active_version (orch s) (subject mf) /\ hardware = true
  /\ exists causes : list RecordedRollback,
       rollback_causes (AgentError := AgentError) now m t (recovery (orch s)) (subject_key (subject mf)) = Ok causes
       /\ Forall (fun r => same_target mf r = false) causes.

(** The nodes the update touches, as they are. *)
Definition before_update (t : CapabilityToken) (s : System) (mf : UpdateManifest) :
    list (NodeId * option (NodeRecord (V := V))) :=
  (fun id => (id, live_node (store (world s)) (origin t) id)) <$> touched_objects mf.

(** Nothing that belongs to other subjects has changed. *)
Definition others_kept (sub : UpdateSubject) (s s' : System) : Prop :=
  forall sub', sub' <> sub ->
    active_version (orch s') sub' = active_version (orch s) sub'
    /\ rollout_state (orch s') sub' = rollout_state (orch s) sub'
    /\ recovery_points (orch s') !! sub' = recovery_points (orch s) !! sub'.

Definition in_stage (target : option ImplId) (stage : RolloutStage) (r r' : ModelRouter) : Prop :=
  forall id, target = Some id -> descriptor r' id = (fun d => with_stage d stage) <$> descriptor r id.

(** What [update_rollback_with_cause] does once the caller may and a point is on
    record. *)
Lemma rollback_with_cause_spec now m t s mf cause wall p :
  authorize now m t WRITE = Ok tt -> recovery_points (orch s) !! subject mf = Some p ->
  let '(res, s') := update_rollback_with_cause now m t s mf cause wall in
  router s' = router s /\ recovery_points (orch s') = recovery_points (orch s)
  /\ snapshots (recovery (orch s')) = snapshots (recovery (orch s))
  /\ others_kept (subject mf) s s'
  /\ match touched_objects mf with
     | [] => world s' = world s /\ recovery (orch s') = recovery (orch s)
     | _ => restore_to (AgentError := AgentError) (MemoryError := MemoryError) outside now m t (recovery (orch s)) (world s) p
            = (match res with Err (RecoveryFailed e) => Err e | _ => Ok tt end, world s')
     end
  /\ match res with
     | Ok _ => active_version (orch s') (subject mf) = from_version mf
               /\ rollout_state (orch s') (subject mf) = Some RolledBack
               /\ (touched_objects mf <> [] ->
                   memory (recovery (orch s'))
                   = (fun mem => remember now m t mem (cause_content p (subject_key (subject mf)) cause wall))
                       <$> memory (recovery (orch s)))
     | Err (RecoveryFailed _) => touched_objects mf <> [] /\ orch s' = orch s
     | Err _ => False
     end.
Proof.
  intros Ha Hp. unfold update_rollback_with_cause, require. rewrite Ha, Hp. simpl.
  destruct (touched_objects mf) as [|x l] eqn:Ht.
  - cbn beta iota zeta. do 3 (split; [done|]).
    split; [intros sub' Hne; unfold active_version, rollout_state; simpl; by rewrite !lookup_insert_ne|].
    split; [done|]. unfold active_version, rollout_state. simpl. by rewrite !lookup_insert_eq.
  - unfold restore_to_with_cause.
    destruct (restore_to outside now m t (recovery (orch s)) (world s) p) as [[[]|e] w]; simpl.
    + do 3 (split; [done|]).
      split; [intros sub' Hne; unfold active_version, rollout_state; simpl; by rewrite !lookup_insert_ne|].
      split; [done|]. unfold active_version, rollout_state. simpl. by rewrite !lookup_insert_eq.
    + destruct s as [[]]; do 3 (split; [done|]). done.
Qed.

Lemma only_stage_in_stage target stage r r' : only_stage_of target stage r r' -> in_stage target stage r r'.
Proof. intros (_ & _ & Hd) id ->. rewrite Hd. by rewrite bool_decide_true. Qed.

Lemma breach_spec now m t s mf wall target k stage h p :
  authorize now m t WRITE = Ok tt -> recovery_points (orch s) !! subject mf = Some p ->
  let auto := auto_rollback_on_breach (rollout_policy mf) in
  let restored := restore_to (AgentError := AgentError) (MemoryError := MemoryError) outside now m t (recovery (orch s)) (world s) p in
  let '(res, s') := breach now m t s mf wall target k stage h in
  others_kept (subject mf) s s' /\ in_stage target Shadow (router s) (router s')
  /\ snapshots (recovery (orch s')) = snapshots (recovery (orch s))
  /\ recovery_points (orch s') = recovery_points (orch s)
  /\ match res with
     | Err RolloutHealthBreach =>
         rollout_state (orch s') (subject mf) = Some RolledBack
         /\ active_version (orch s') (subject mf)
            = (if auto then from_version mf else active_version (orch s) (subject mf))
         /\ (if auto && bool_decide (touched_objects mf <> [])
             then restored = (Ok tt, world s')
                  /\ memory (recovery (orch s'))
                     = (fun mem => remember now m t mem
                          (cause_content p (subject_key (subject mf)) (breach_cause mf k stage h) wall))
                         <$> memory (recovery (orch s))
             else world s' = world s /\ recovery (orch s') = recovery (orch s))
     | Err (RecoveryFailed e) =>
         auto = true /\ touched_objects mf <> [] /\ orch s' = orch s /\ restored = (Err e, world s')
     | _ => False
     end.
Proof.
  intros Ha Hp auto restored. unfold breach.
  destruct (promote_ok now m t s target Shadow Ha) as (r' & -> & Hr%only_stage_in_stage). fold auto.
  destruct auto.
  - set (s1 := mkSystem (orch s) (world s) r').
    pose proof (rollback_with_cause_spec now m t s1 mf (breach_cause mf k stage h) wall p Ha Hp) as Hroll.
    destruct (update_rollback_with_cause now m t s1 mf _ wall) as [res s'].
    destruct Hroll as (Hrt & Hpts & Hsn & Ho & Hres & Hcase). change r' with (router s1) in Hr. rewrite <- Hrt in Hr.
    destruct res as [rc|[]]; try done.
    + destruct Hcase as (Hv & Hst & Hmem). do 6 (split; [done|]). simpl.
      by_cases (touched_objects mf = []) as Ht.
      * rewrite bool_decide_false by (intros []; done). by rewrite Ht in Hres.
      * rewrite bool_decide_true by done. split; [|by apply Hmem]. by destruct (touched_objects mf).
    + destruct Hcase as [Ht Horch]. do 4 (split; [done|]). split; [done|]. split; [done|]. split; [done|].
      by destruct (touched_objects mf).
  - split; [intros sub' Hne; unfold rollout_state; simpl; by rewrite lookup_insert_ne|].
    do 3 (split; [done|]). unfold rollout_state. simpl. by rewrite lookup_insert_eq.
Qed.

Lemma others_kept_moved target sub s s' : moved target sub s s' -> others_kept sub s s'.
Proof.
  intros (_ & Hv & Hp & Hst & _) sub' Hne. unfold active_version. rewrite Hv, Hp. by rewrite Hst.
Qed.

Lemma others_kept_trans sub s1 s2 s3 : others_kept sub s1 s2 -> others_kept sub s2 s3 -> others_kept sub s1 s3.
Proof.
  intros K1 K2 sub' Hne. destruct (K1 sub' Hne) as (A1 & B1 & C1), (K2 sub' Hne) as (-> & -> & ->). done.
Qed.

Lemma in_stage_moved target sub stage s s1 r' :
  moved target sub s s1 -> in_stage target stage (router s1) r' -> in_stage target stage (router s) r'.
Proof.
  intros (_ & _ & _ & _ & _ & _ & Hd) Hin id Hid. rewrite (Hin id Hid). by destruct (Hd id) as [_ ->].
Qed.

(** The part of an update after its recovery point is on record. *)
Definition after_point (now : Instant) (m : M) (t : CapabilityToken) (s : System) (mf : UpdateManifest) (wall : N)
    (health : HealthCheck) (target : option ImplId) : Result Version UpdateError * System :=
  match rollout now m t s mf wall health target 0 (stages (rollout_policy mf)) with
  | (Err e, s) => (Err e, s)
  | (Ok _, s) =>
      match promote now m t s target Ga with
      | (Err e, s) => (Err e, s)
      | (Ok _, s) =>
          (Ok (to_version mf), set_state (set_version s (subject mf) (to_version mf)) (subject mf) RolledOut)
      end
  end.

Lemma after_point_spec now m t s mf wall health target p :
  authorize now m t WRITE = Ok tt -> recovery_points (orch s) !! subject mf = Some p ->
  let polled := poll (health_thresholds (rollout_policy mf)) health 0 (stages (rollout_policy mf)) (world s) in
  let '(res, s') := after_point now m t s mf wall health target in
  let restored := restore_to (AgentError := AgentError) (MemoryError := MemoryError) outside now m t (recovery (orch s)) polled.2 p in
  others_kept (subject mf) s s' /\ recovery_points (orch s') = recovery_points (orch s)
  /\ snapshots (recovery (orch s')) = snapshots (recovery (orch s))
  /\ match res with
     | Ok v =>
         v = to_version mf /\ polled = (None, world s')
         /\ active_version (orch s') (subject mf) = to_version mf
         /\ rollout_state (orch s') (subject mf) = Some RolledOut /\ in_stage target Ga (router s) (router s')
     | Err RolloutHealthBreach =>
         rollout_state (orch s') (subject mf) = Some RolledBack /\ in_stage target Shadow (router s) (router s')
         /\ (active_version (orch s) (subject mf) = from_version mf ->
             active_version (orch s') (subject mf) = from_version mf)
         /\ exists k stage h, polled.1 = Some (k, stage, h) /\ stages (rollout_policy mf) !! k = Some stage
            /\ within h (health_thresholds (rollout_policy mf)) = false
            /\ (if auto_rollback_on_breach (rollout_policy mf) && bool_decide (touched_objects mf <> [])
                then restored = (Ok tt, world s')
                     /\ memory (recovery (orch s'))
                        = (fun mem => remember now m t mem
                             (cause_content p (subject_key (subject mf)) (breach_cause mf k stage h) wall))
                            <$> memory (recovery (orch s))
                else world s' = polled.2 /\ recovery (orch s') = recovery (orch s))
     | Err (RecoveryFailed e) =>
         active_versions (orch s') = active_versions (orch s) /\ in_stage target Shadow (router s) (router s')
         /\ polled.1 <> None /\ recovery (orch s') = recovery (orch s) /\ restored = (Err e, world s')
     | Err _ => False
     end.
Proof.
  intros Ha Hp polled. unfold after_point.
  destruct (rollout_poll now m t s mf wall health target 0 (stages (rollout_policy mf)) Ha) as (s2 & Hm & Hw & ->).
  fold polled in Hw |- *. pose proof (others_kept_moved _ _ _ _ Hm) as Hs2.
  assert (Hst : forall stage r', in_stage target stage (router s2) r' -> in_stage target stage (router s) r').
  { intros stage r' Hr. by eapply in_stage_moved. }
  destruct Hm as (Hrec & Hvs & Hpts & _). destruct polled as [[[[k stage] h]|] w] eqn:Hpoll; simpl in *.
  - rewrite <- Hpts in Hp. pose proof (breach_spec now m t s2 mf wall target k stage h p Ha Hp) as Hb.
    destruct (breach now m t s2 mf wall target k stage h) as [[[]|e] s']; [by destruct Hb as (_ & _ & _ & _ & [])|].
    destruct Hb as (Hk & Hsh%Hst & Hsn & Hpts' & Hcase). rewrite Hrec in Hcase, Hsn. rewrite Hpts in Hpts'. rewrite Hw in Hcase.
    split; [by eapply others_kept_trans|]. split; [done|]. split; [done|]. destruct e; try done.
    + destruct Hcase as (Hrs & Hav & Hcase). do 2 (split; [done|]). split.
      { rewrite Hav. unfold active_version. rewrite Hvs. by destruct (auto_rollback_on_breach _). }
      exists k, stage, h. split; [done|]. unfold polled in Hpoll. apply poll_breach in Hpoll as (_ & Hl & Hwi).
      by rewrite Nat.sub_0_r in Hl.
    + destruct Hcase as (_ & _ & Ho & Hres). by rewrite Ho.
  - destruct (promote_ok now m t s2 target Ga Ha) as (r' & -> & Hr%only_stage_in_stage%Hst). simpl. split.
    { eapply others_kept_trans; [exact Hs2|]. intros sub' Hne. unfold active_version, rollout_state. simpl.
      by rewrite !lookup_insert_ne. }
    unfold active_version, rollout_state. simpl. rewrite !lookup_insert_eq, Hrec, Hw. done.
Qed.

(** After the checks, what is left is [after_point] on the system with the point. *)
Lemma apply_admitted now m t s mf hardware wall health vk target :
  admitted now m t s mf hardware vk ->
  match snapshot_objects (AgentError := AgentError) (MemoryError := MemoryError) now m t (world s) (touched_objects mf) with
  | Err e => apply_update_inner now m t s mf hardware wall health vk target
             = (Err (RecoveryFailed e), set_state s (subject mf) Staged)
  | Ok _ => exists s1 p, apply_update_inner now m t s mf hardware wall health vk target
                         = after_point now m t s1 mf wall health target
            /\ recovery_points (orch s1) !! subject mf = Some p
            /\ snapshots (recovery (orch s1)) !! p = Some (before_update t s mf)
            /\ memory (recovery (orch s1)) = memory (recovery (orch s))
            /\ active_versions (orch s1) = active_versions (orch s)
            /\ world s1 = world s /\ router s1 = router s /\ others_kept (subject mf) s s1
  end.
Proof.
  intros (Ha & Hsig & Hv & Hhw & l & Hc & Hl). unfold apply_update_inner, require, is_compatible. rewrite Ha, Hsig. simpl.
  rewrite Hv, N.eqb_refl, Hhw, Hc. simpl.
  destruct (List.find (same_target mf) (rev l)) as [prev|] eqn:Hf.
  { apply List.find_some in Hf as [Hin Hsame]. rewrite <- in_rev, <- list_elem_of_In in Hin.
    rewrite Forall_forall in Hl. by rewrite Hl in Hsame. }
  unfold recovery_point_create, Recovery.require. rewrite Ha. simpl.
  destruct (snapshot_objects now m t (world s) (touched_objects mf)) as [sn|e] eqn:Hsn; [|done].
  apply snapshot_objects_ok in Hsn. fold (before_update t s mf) in Hsn. subst sn.
  do 2 eexists. split; [done|]. simpl. rewrite !lookup_insert_eq. do 6 (split; [done|]).
  intros sub' Hne. unfold active_version, rollout_state. simpl. by rewrite !lookup_insert_ne.
Qed.

(** The checks: passed, or refused with nothing changed. *)
Lemma admitted_or_refused now m t s mf hardware wall health vk target :
  let causes := rollback_causes now m t (recovery (orch s)) (subject_key (subject mf)) in
  admitted now m t s mf hardware vk
  \/ exists e, apply_update_inner now m t s mf hardware wall health vk target = (Err e, s)
     /\ match e with
        | Unauthorized => is_ok (authorize now m t WRITE) = false
        | SignatureInvalid => verify_signature mf vk = false
        | Incompatible => from_version mf <> active_version (orch s) (subject mf) \/ hardware = false
        | RepeatedRecentRollback why =>
            exists l r, causes = Ok l /\ r ∈ l /\ same_target mf r = true /\ reason (rb_cause r) = why
        | RecoveryFailed e => causes = Err e
        | _ => False
        end.
Proof.
  intros causes. unfold apply_update_inner, require. fold causes.
  destruct (authorize now m t WRITE) as [[]|f] eqn:Ha; simpl; [|right; by eexists].
  destruct (verify_signature mf vk) eqn:Hsig; simpl; [|right; by eexists].
  unfold is_compatible. simpl.
  destruct (N.eqb_spec (from_version mf) (active_version (orch s) (subject mf))) as [Hv|Hv]; simpl;
    [|right; eexists; split; [done|by left]].
  destruct hardware; simpl; [|right; eexists; split; [done|by right]].
  destruct causes as [l|e] eqn:Hc; [|right; by eexists].
  destruct (List.find (same_target mf) (rev l)) as [prev|] eqn:Hf.
  - right. eexists. split; [done|]. apply List.find_some in Hf as [Hin Hsame]. exists l, prev.
    split; [done|]. split; [|done]. by rewrite <- in_rev, <- list_elem_of_In in Hin.
  - left. do 4 (split; [done|]). exists l. split; [done|]. apply Forall_forall. intros r Hr.
    apply (List.find_none _ _ Hf). by rewrite <- in_rev, <- list_elem_of_In.
Qed.

(** Applying an update, on every branch. The checks come first, in this order:
    the right to write, the signature, the version the manifest starts from with
    the hardware, and the remembered rollbacks; whoever fails one is refused with
    that error and nothing changes. After them a recovery point of the touched
    nodes is on record, and the outcome is decided by the reports alone: if every
    stage is healthy the new version is active, the subject is rolled out and the
    target is generally available; at the first stage that is not, the target is
    back in shadow and the active version is the one before. Other subjects are
    never affected, no outcome but success moves the active version, and an error
    of the recovery service is passed on from where it arose. *)
Theorem apply_update_spec now m t s mf hardware wall health vk target :
  let sub := subject mf in
  let causes := rollback_causes (AgentError := AgentError) now m t (recovery (orch s)) (subject_key sub) in
  let polled := poll (health_thresholds (rollout_policy mf)) health 0 (stages (rollout_policy mf)) (world s) in
  let passed := admitted now m t s mf hardware vk in
  let captured s' := exists p, recovery_points (orch s') !! sub = Some p
                               /\ snapshots (recovery (orch s')) !! p = Some (before_update t s mf) in
  let '(res, s') := apply_update_inner now m t s mf hardware wall health vk target in
  others_kept sub s s'
  /\ match res with
     | Ok v =>
         passed /\ v = to_version mf /\ polled = (None, world s') /\ captured s'
         /\ active_version (orch s') sub = to_version mf /\ rollout_state (orch s') sub = Some RolledOut
         /\ in_stage target Ga (router s) (router s')
     | Err Unauthorized => is_ok (authorize now m t WRITE) = false /\ s' = s
     | Err SignatureInvalid => verify_signature mf vk = false /\ s' = s
     | Err Incompatible => (from_version mf <> active_version (orch s) sub \/ hardware = false) /\ s' = s
     | Err (RepeatedRecentRollback why) =>
         (exists l r, causes = Ok l /\ r ∈ l /\ same_target mf r = true /\ reason (rb_cause r) = why) /\ s' = s
     | Err RolloutHealthBreach =>
         passed /\ captured s' /\ rollout_state (orch s') sub = Some RolledBack
         /\ active_version (orch s') sub = from_version mf /\ in_stage target Shadow (router s) (router s')
         /\ exists k stage h w, polled = (Some (k, stage, h), w) /\ stages (rollout_policy mf) !! k = Some stage
                                /\ within h (health_thresholds (rollout_policy mf)) = false
     | Err (RecoveryFailed e) =>
         active_versions (orch s') = active_versions (orch s)
         /\ (causes = Err e /\ s' = s
             \/ passed /\ snapshot_objects now m t (world s) (touched_objects mf) = Err e /\ s' = set_state s sub Staged
             \/ passed /\ captured s' /\ in_stage target Shadow (router s) (router s')
                /\ exists b w p, polled = (Some b, w) /\ recovery_points (orch s') !! sub = Some p
                   /\ restore_to outside now m t (recovery (orch s')) w p = (Err e, world s'))
     | Err _ => False
     end.
Proof.
  intros sub causes polled passed captured.
  destruct (admitted_or_refused now m t s mf hardware wall health vk target) as [Hadm|(e & -> & He)];
    [|split; [by intros sub' _|]; destruct e; try done; split; [done|by left]].
  pose proof (apply_admitted now m t s mf hardware wall health vk target Hadm) as Hgo.
  destruct (snapshot_objects now m t (world s) (touched_objects mf)) as [sn|e] eqn:Hsn.
  2:{ rewrite Hgo. split; [eapply (others_kept_moved target), moved_state|]. split; [done|]. right. by left. }
  destruct Hgo as (s1 & p & -> & Hp & Hcap & _ & Hvs & Hw & Hrt & Hk).
  pose proof Hadm as (Ha & Hrest).
  pose proof (after_point_spec now m t s1 mf wall health target p Ha Hp) as Hout. rewrite Hw, Hrt in Hout. fold polled in Hout.
  destruct (after_point now m t s1 mf wall health target) as [res s']. destruct Hout as (Hk' & Hpts & Hsn' & Hout).
  assert (Hcap' : captured s') by (exists p; by rewrite Hpts, Hsn').
  split; [by eapply others_kept_trans|]. destruct res as [v|[]]; try done.
  - by destruct Hout as (-> & Hp1 & Hp2 & Hp3 & Hp4).
  - destruct Hout as (Hrs & Hsh & Hv & k & stage & h & Hpoll & Hl & Hwi & _). do 3 (split; [done|]). split.
    { apply Hv. unfold active_version. rewrite Hvs. symmetry. apply Hrest. }
    split; [done|]. exists k, stage, h, polled.2. by rewrite <- Hpoll, <- surjective_pairing.
  - destruct Hout as (Hv & Hsh & Hpoll & Hr & Hres). split; [by rewrite Hv|]. right. right. do 3 (split; [done|]).
    destruct polled as [[b|] w]; [|done]. exists b, w, p. rewrite Hr, Hpts. done.
Qed.

(** ** Rollbacks are remembered *)

Lemma parse_cause_content point key c wall :
  parse_cause key (cause_content point key c wall) = Some (mkRollback point key c wall).
Proof.
  unfold parse_cause. change (json_get (cause_content point key c wall) (lit "subject") ≫= as_str) with (Some key).
  rewrite (bool_decide_true (Some key = Some key)) by done. by destruct c.
Qed.

Lemma breach_same_target mf mf' point key k stage h wall :
  to_version mf' = to_version mf -> same_target mf' (mkRollback point key (breach_cause mf k stage h) wall) = true.
Proof.
  intros Hv. unfold same_target. apply bool_decide_eq_true. rewrite Hv.
  by change (json_get _ (lit "to_version") ≫= as_u64) with (Some (to_version mf)).
Qed.

(** As long as the memory of a breach is found, nobody is admitted to the version
    it happened with. *)
Lemma remembered_breach_refuses now m t s mf hardware vk mf0 point k stage h wall mem found :
  memory (recovery (orch s)) = Some mem -> query_procedural now m t mem = Ok found ->
  cause_content point (subject_key (subject mf0)) (breach_cause mf0 k stage h) wall ∈ found ->
  subject mf = subject mf0 -> to_version mf = to_version mf0 -> ~ admitted now m t s mf hardware vk.
Proof.
  intros Hmem Hq Hin Hsub Hto (_ & _ & _ & _ & causes & Hc & Hall). unfold rollback_causes in Hc.
  rewrite Hmem, Hq in Hc. simpl in Hc. injection Hc as <-. rewrite sort_by_key_perm, Forall_forall in Hall.
  assert (Hf : mkRollback point (subject_key (subject mf0)) (breach_cause mf0 k stage h) wall
               ∈ omap (parse_cause (subject_key (subject mf))) found).
  { apply list_elem_of_omap. eexists. split; [exact Hin|]. rewrite Hsub. apply parse_cause_content. }
  apply Hall in Hf. by rewrite breach_same_target in Hf.
Qed.


(** ** What a signature covers *)

(** Strings hold characters and numbers fit their types. *)
Definition manifest_wf (mf : UpdateManifest) : Prop :=
  match subject mf with SystemImage => True | CapabilitySubject id | ModelSubject id => Forall is_char id end
  /\ from_version mf < 256 ^ 4 /\ to_version mf < 256 ^ 4 /\ Forall (fun id => id < 256 ^ 8) (touched_objects mf).

Definition signed_fields (mf : UpdateManifest) : UpdateSubject * Version * Version * list NodeId :=
  (subject mf, from_version mf, to_version mf, touched_objects mf).

Lemma debug_subject_code a b x y :
  match a with SystemImage => True | CapabilitySubject id | ModelSubject id => Forall is_char id end ->
  match b with SystemImage => True | CapabilitySubject id | ModelSubject id => Forall is_char id end ->
  debug_subject a ++ x = debug_subject b ++ y -> a = b /\ x = y.
Proof.
  intros Ha Hb. destruct a as [|i|i], b as [|j|j]; unfold debug_subject, debug_str; try done.
  - intros Heq. apply app_inv_head in Heq. done.
  - rewrite <- !app_assoc. intros Heq. apply app_inv_head in Heq. injection Heq as Heq.
    apply escape_str_closed in Heq as [-> Heq]; [|done..]. by injection Heq as ->.
  - rewrite <- !app_assoc. intros Heq. apply app_inv_head in Heq. injection Heq as Heq.
    apply escape_str_closed in Heq as [-> Heq]; [|done..]. by injection Heq as ->.
Qed.

Lemma node_ids_inj (l l' : list N) :
  Forall (fun id => id < 256 ^ 8) l -> Forall (fun id => id < 256 ^ 8) l' -> l ≫= le_bytes 8 = l' ≫= le_bytes 8 -> l = l'.
Proof.
  intros Hl. revert l'. induction Hl as [|a l Ha Hl IH]; intros [|b l'] Hl' Heq; try done.
  apply Forall_cons in Hl' as [Hb Hl']. rewrite !bind_cons in Heq.
  apply le_bytes_app_inj in Heq as [-> Heq]; [|done..]. by rewrite (IH l').
Qed.

Lemma manifest_bytes_inj a b :
  manifest_wf a -> manifest_wf b -> canonical_bytes a = canonical_bytes b <-> signed_fields a = signed_fields b.
Proof.
  intros (Ha & Hfa & Hta & Hla) (Hb & Hfb & Htb & Hlb). unfold canonical_bytes, signed_fields. split.
  - intros Heq. apply debug_subject_code in Heq as [-> Heq]; [|done..].
    apply le_bytes_app_inj in Heq as [-> Heq]; [|done..]. apply le_bytes_app_inj in Heq as [-> Heq]; [|done..].
    by rewrite (node_ids_inj _ _ Hla Hlb Heq).
  - by intros [= -> -> -> ->].
Qed.

(** What a manifest's signature binds: signing and attaching gives a manifest
    that verifies, and of all manifests with one signature, those verify that have the
    same subject, versions and touched objects, and no others unless the signature
    verifies for two messages. The rollout
    policy is not covered: whoever carries the manifest chooses its stages,
    thresholds and whether a breach is rolled back. *)
Theorem manifest_signature_binds mf k :
  manifest_wf mf ->
  let signed := mkManifest (subject mf) (from_version mf) (to_version mf) (Some (sign_manifest mf k))
                  (touched_objects mf) (rollout_policy mf) in
  verify_signature signed (verifying_key k) = true
  /\ verify_signature (without_signature mf) (verifying_key k) = false
  /\ forall mf', manifest_wf mf' -> signature mf' = signature signed ->
       (signed_fields mf' = signed_fields mf -> verify_signature mf' (verifying_key k) = true)
       /\ (verify_signature mf' (verifying_key k) = true -> signed_fields mf' = signed_fields mf
           \/ confused (verifying_key k) (sign_manifest mf k) (canonical_bytes mf') (canonical_bytes mf)).
Proof.
  intros Hwf signed. split; [apply sig_correct|]. split; [done|]. intros mf' Hwf' Hsig.
  unfold verify_signature. rewrite Hsig. simpl. rewrite <- manifest_bytes_inj by done.
  change (canonical_bytes (without_signature mf')) with (canonical_bytes mf'). split.
  - intros ->. apply sig_correct.
  - intros Hv. apply same_or_confused; [exact Hv|apply sig_correct].
Qed.
End update.

(** ** A concrete run *)

Module UpdateExample.
Import Crypto.Toy Wal.ToyRecords Storage.StorageExample KnowledgeGraph.GraphExample RecoveryExample.

(** A memory that keeps everything. *)
#[export] Instance notebook : MemoryEngine unit (list Json) unit :=
  {| remember := fun _ _ _ mem c => mem ++ [c]; query_procedural := fun _ _ _ mem => Ok mem |}.

Definition system : Type := System (V := N) (G := graph) (Mem := list Json).
Definition printable (_ : N) : bool := true.

Definition policy (auto : bool) : RolloutPolicy :=
  mkPolicy [mkStage 10; mkStage 100] (mkThresholds (f32_lit 1 100) 200) auto.

Definition manifest (from to : N) (touched : list NodeId) (auto : bool) : UpdateManifest :=
  let mf := mkManifest SystemImage from to None touched (policy auto) in
  mkManifest SystemImage from to (Some (sign_manifest printable mf 5)) touched (policy auto).

(** The rollout writes 99 to node 0; the second stage is slow. *)
Definition slow_at_100 (_ : nat) (pct : N) (w : RecoveryExample.world) : CohortHealth * RecoveryExample.world :=
  (mkHealth f32_zero (if pct =? 100 then 900 else 50), write w 0 99).

Definition healthy (_ : nat) (pct : N) (w : RecoveryExample.world) : CohortHealth * RecoveryExample.world :=
  (mkHealth f32_zero 50, write w 0 99).

Definition apply (s : system) (mf : UpdateManifest) health : Result Version (UpdateError (AgentError := unit) (MemoryError := unit)) * system :=
  apply_update printable inputs 0 tt alice s mf true 1 health 5.

Definition start_system : system := mkSystem (new (new_with_memory (Some []))) world0 ModelRouter.new.

Definition breach_reason : list N := lit "rollout health breach at stage 1 (100% of the fleet)".

(** A breach puts the node back and is remembered. *)
Example breach_then_refused :
  let '(res1, s1) := apply start_system (manifest 0 2 [0] true) slow_at_100 in
  let '(res2, s2) := apply s1 (manifest 0 2 [0] true) healthy in
  res1 = Err RolloutHealthBreach /\ value (Update.world s1) 0 = Some 5
  /\ res2 = Err (RepeatedRecentRollback breach_reason) /\ value (Update.world s2) 0 = Some 5.
Proof. by vm_compute. Qed.

(** An update that touches no node leaves no memory of its breach, and is tried
    again. *)
Example untouched_breach_is_forgotten :
  let '(res1, s1) := apply start_system (manifest 0 2 [] true) slow_at_100 in
  let '(res2, _) := apply s1 (manifest 0 2 [] true) slow_at_100 in
  res1 = Err RolloutHealthBreach /\ res2 = Err RolloutHealthBreach.
Proof. by vm_compute. Qed.

(** The starting version plays no part in recognising an attempt: after a breach
    going from 0 to 2, going from 1 to 2 is refused too. *)
Example other_base_is_refused_too :
  let '(_, s1) := apply start_system (manifest 0 2 [0] true) slow_at_100 in
  let '(res2, s2) := apply s1 (manifest 0 1 [0] true) healthy in
  let '(res3, _) := apply s2 (manifest 1 2 [0] true) healthy in
  res2 = Ok 1 /\ res3 = Err (RepeatedRecentRollback breach_reason).
Proof. by vm_compute. Qed.

(** Without automatic rollback the subject is marked as rolled back although
    nothing was. *)
Example marked_rolled_back :
  let '(res, s1) := apply start_system (manifest 0 2 [0] false) slow_at_100 in
  res = Err RolloutHealthBreach /\ rollout_state (orch s1) SystemImage = Some RolledBack
  /\ value (Update.world s1) 0 = Some 99.
Proof. by vm_compute. Qed.

End UpdateExample.

Section witnesses.
Import Crypto.Toy Wal.ToyRecords Storage.StorageExample KnowledgeGraph.GraphExample RecoveryExample UpdateExample.


Lemma manifest_signature_binds_witness :
  manifest_wf (manifest 0 2 [0] true)
  /\ verify_signature printable (manifest 0 2 [0] false) 5 = true
  /\ verify_signature printable (mkManifest SystemImage 0 3 (signature (manifest 0 2 [0] true)) [0] (policy true)) 5 <> true.
Proof.
  assert (Hwf : manifest_wf (manifest 0 2 [0] true)) by (split; [done|]; split; [done|]; split; [done|]; by constructor).
  destruct (manifest_signature_binds printable (manifest 0 2 [0] true) 5 Hwf) as (_ & _ & Hb). split; [exact Hwf|]. split.
  - apply Hb; [|reflexivity|reflexivity]. split; [done|]. split; [done|]. split; [done|]. by constructor.
  - intros Hv. apply Hb in Hv; [|split; [done|]; split; [done|]; split; [done|]; by constructor|reflexivity].
    destruct Hv as [Hv|(Hne & H1 & H2)]; [discriminate|]. apply bool_decide_eq_true in H1, H2. apply Hne. congruence.
Defined.

End witnesses.
