(* ===== verification/Privacy.v ===== *)
(** Consent and routing: [crates/hyperion-privacy/src], [types.rs], [consent.rs] and
    [routing.rs].

    The ledger of consent grants, each signed by the device it was given on, and the
    gate a capability call passes before it may leave the device. What the calls
    have done to a ledger is also kept as a history, which says what consent there is
    without saying how it is stored. Erasure is in [Erasure]. *)
From S2P Require Import Prelude Crypto Capability Authority Wal DebugFmt.
Open Scope N_scope.

Abbreviation text := (list N).

(** ** types.rs *)

Inductive PrivacyTier : Type := FullyLocal | LocalPreferredWithConsent | CloudAssisted.

#[export] Instance privacy_tier_eq_dec : EqDecision PrivacyTier.
Proof. solve_decision. Defined.
#[export] Instance privacy_tier_countable : Countable PrivacyTier.
Proof.
  apply (inj_countable' (fun t => match t with FullyLocal => 0 | LocalPreferredWithConsent => 1 | CloudAssisted => 2 end)
           (fun n => match n with 0 => FullyLocal | 1 => LocalPreferredWithConsent | _ => CloudAssisted end)).
  by intros [].
Defined.

Inductive SensitivityClass : Type := Public | Personal | Sensitive | Restricted.

#[export] Instance sensitivity_eq_dec : EqDecision SensitivityClass.
Proof. solve_decision. Defined.

Record PrivacyProfile := mkProfile {
  tier : PrivacyTier;
  domain_overrides : gmap text PrivacyTier;
  profile_updated_at : N;
  profile_version : N
}.

Definition tier_for (p : PrivacyProfile) (domain : text) : PrivacyTier := default (tier p) (domain_overrides p !! domain).

Record ResidencyTag := mkTag {
  tag_object : N;
  sensitivity : SensitivityClass;
  allowed_tiers : gset PrivacyTier
}.

(** [ResidencyTag::new]. *)
Definition new_tag (id : N) (s : SensitivityClass) (allowed : gset PrivacyTier) : ResidencyTag :=
  mkTag id s (if bool_decide (s = Restricted) then allowed ∖ {[CloudAssisted]} else allowed).

Definition forbids (r : ResidencyTag) (t : PrivacyTier) : bool := negb (bool_decide (t ∈ allowed_tiers r)).

Inductive DataScope : Type :=
| Domain (name : text)
| Object (id : N)
| CapabilityScope (name : text).

#[export] Instance data_scope_eq_dec : EqDecision DataScope.
Proof. solve_decision. Defined.

Inductive DegradeReason : Type := NoLocalImplementation | ResidencyForbidsCloud | NoStandingConsent.

Inductive RoutingDecision : Type :=
| DispatchLocal
| DispatchCloud (grant_id : N)
| Degraded (why : DegradeReason).

(** ** consent.rs *)

Section consent.
Context `{Signatures} `{HashIter} {M : Type} `{Authority M}.

Record ConsentGrant := mkGrant {
  grant_id : N;
  subject : N;
  scope : DataScope;
  purpose : text;
  expiry : option N;
  granted_at : N;
  proof : Signature
}.

Definition is_live (g : ConsentGrant) (now : N) : bool :=
  match expiry g with None => true | Some e => now <=? e end.

Inductive ConsentError : Type := ConsentUnauthorized | ConsentSignatureInvalid.

Definition scope_bytes (s : DataScope) : list N :=
  match s with
  | Domain name => 0 :: name
  | Object id => 1 :: le_bytes 8 id
  | CapabilityScope name => 2 :: name
  end.

Definition expiry_bytes (e : option N) : list N := match e with Some e => 1 :: le_bytes 8 e | None => [0] end.

Definition canonical_bytes (id subj : N) (s : DataScope) (why : text) (e : option N) (at_ : N) : list N :=
  le_bytes 8 id ++ le_bytes 8 subj ++ scope_bytes s ++ why ++ expiry_bytes e ++ le_bytes 8 at_.

Definition grant_canonical_bytes (g : ConsentGrant) : list N :=
  canonical_bytes (grant_id g) (subject g) (scope g) (purpose g) (expiry g) (granted_at g).

Definition verify_grant (g : ConsentGrant) (vk : VerifyingKey) : bool := verify (grant_canonical_bytes g) (proof g) vk.

Record ConsentLedger := mkLedger {
  grants : gmap N ConsentGrant;
  next_id : N
}.

Definition new_ledger : ConsentLedger := mkLedger ∅ 1.

Definition require (now : Instant) (m : M) (t : CapabilityToken) (r : RightsMask) : Result unit ConsentError :=
  map_err (fun _ => ConsentUnauthorized) (authorize now m t r).

(** [clock] is the monitor's clock, [now] the caller's. *)
Definition request (clock : Instant) (m : M) (t : CapabilityToken) (l : ConsentLedger) (subj : N) (s : DataScope) (why : text)
    (e : option N) (now : N) (device_key : SigningKey) : Result ConsentGrant ConsentError * ConsentLedger :=
  match require clock m t WRITE with
  | Err err => (Err err, l)
  | Ok _ =>
      let id := next_id l in
      let g := mkGrant id subj s why e now (sign device_key (canonical_bytes id subj s why e now)) in
      (Ok g, mkLedger (<[id := g]> (grants l)) (u64_add id 1))
  end.

Definition import (clock : Instant) (m : M) (t : CapabilityToken) (l : ConsentLedger) (g : ConsentGrant) (vk : VerifyingKey) :
    Result unit ConsentError * ConsentLedger :=
  match require clock m t WRITE with
  | Err err => (Err err, l)
  | Ok _ =>
      if negb (verify_grant g vk) then (Err ConsentSignatureInvalid, l)
      else (Ok tt, mkLedger (<[grant_id g := g]> (grants l)) (next_id l))
  end.

Definition revoke (clock : Instant) (m : M) (t : CapabilityToken) (l : ConsentLedger) (id : N) :
    Result unit ConsentError * ConsentLedger :=
  match require clock m t WRITE with
  | Err err => (Err err, l)
  | Ok _ => (Ok tt, mkLedger (base.delete id (grants l)) (next_id l))
  end.

Definition standing_grant (l : ConsentLedger) (subj : N) (s : DataScope) (now : N) : option ConsentGrant :=
  List.find (fun g => (subject g =? subj) && bool_decide (scope g = s) && is_live g now) (snd <$> hash_iter (grants l)).

Definition list_grants (l : ConsentLedger) (subj : option N) : list ConsentGrant :=
  List.filter (fun g => match subj with None => true | Some s => subject g =? s end) (snd <$> hash_iter (grants l)).

(** ** routing.rs *)

Definition route_capability_call (p : PrivacyProfile) (domain : text) (s : DataScope) (residency : option ResidencyTag)
    (has_local_impl : bool) (l : ConsentLedger) (subj now : N) : RoutingDecision :=
  let barred := is_some_and residency (fun tag => forbids tag CloudAssisted) in
  match tier_for p domain with
  | FullyLocal => if has_local_impl then DispatchLocal else Degraded NoLocalImplementation
  | LocalPreferredWithConsent =>
      if has_local_impl then DispatchLocal
      else if barred then Degraded ResidencyForbidsCloud
      else
        match standing_grant l subj s now with
        | Some g => DispatchCloud (grant_id g)
        | None => Degraded NoStandingConsent
        end
  | CloudAssisted =>
      if barred then Degraded ResidencyForbidsCloud
      else
        match standing_grant l subj s now with
        | Some g => DispatchCloud (grant_id g)
        | None => if has_local_impl then DispatchLocal else Degraded NoStandingConsent
        end
  end.

Definition tier_name (t : PrivacyTier) : text :=
  match t with
  | FullyLocal => lit "FullyLocal"
  | LocalPreferredWithConsent => lit "LocalPreferredWithConsent"
  | CloudAssisted => lit "CloudAssisted"
  end.

Definition not_needed : text := lit "not declared needed by recipient's sub-intent".
Definition tier_forbidden (t : PrivacyTier) : text := lit "object's residency forbids tier " ++ tier_name t.

Fixpoint filter_for_recipient (objects : list ResidencyTag) (need : gset N) (t : PrivacyTier) : list N * list (N * text) :=
  match objects with
  | [] => ([], [])
  | tag :: objects =>
      let '(included, withheld) := filter_for_recipient objects need t in
      if negb (bool_decide (tag_object tag ∈ need)) then (included, (tag_object tag, not_needed) :: withheld)
      else if forbids tag t then (included, (tag_object tag, tier_forbidden t) :: withheld)
      else (tag_object tag :: included, withheld)
  end.

(** ** What was said *)

(** A consent that was given, here or elsewhere, or taken back. *)
Inductive Word : Type := Gave (g : ConsentGrant) | Took (id : N).

Inductive LedgerOp : Type :=
| ORequest (clock : Instant) (m : M) (t : CapabilityToken) (subj : N) (s : DataScope) (why : text) (e : option N) (now : N)
    (device_key : SigningKey)
| OImport (clock : Instant) (m : M) (t : CapabilityToken) (g : ConsentGrant) (vk : VerifyingKey)
| ORevoke (clock : Instant) (m : M) (t : CapabilityToken) (id : N).

(** A call, and what it says if it succeeds. *)
Definition call (o : LedgerOp) (l : ConsentLedger) : ConsentLedger * list Word :=
  match o with
  | ORequest clock m t subj s why e now k =>
      let '(r, l) := request clock m t l subj s why e now k in (l, match r with Ok g => [Gave g] | Err _ => [] end)
  | OImport clock m t g vk => let '(r, l) := import clock m t l g vk in (l, match r with Ok _ => [Gave g] | Err _ => [] end)
  | ORevoke clock m t id => let '(r, l) := revoke clock m t l id in (l, match r with Ok _ => [Took id] | Err _ => [] end)
  end.

Definition calls (os : list LedgerOp) : ConsentLedger * list Word :=
  fold_left (fun '(l, h) o => let '(l, w) := call o l in (l, h ++ w)) os (new_ledger, []).

(** The consent known by a number: the last word about it. *)
Definition hear (id : N) (acc : option ConsentGrant) (w : Word) : option ConsentGrant :=
  match w with
  | Gave g => if grant_id g =? id then Some g else acc
  | Took i => if i =? id then None else acc
  end.
Definition last_word (h : list Word) (id : N) : option ConsentGrant := fold_left (hear id) h None.

Definition signed_by_someone (g : ConsentGrant) : Prop := exists vk, verify_grant g vk = true.

Lemma call_words o l l' w id :
  call o l = (l', w) ->
  grants l' !! id = fold_left (hear id) w (grants l !! id) /\ (forall g, Gave g ∈ w -> signed_by_someone g).
Proof.
  destruct o as [clock m t subj s why e now k|clock m t g vk|clock m t i]; simpl; unfold request, import, revoke;
    destruct (require clock m t WRITE) as [[]|err]; simpl; try (intros [= <- <-]; split; [done|]; by intros g' []%not_elem_of_nil).
  - intros [= <- <-]. simpl. split.
    + destruct (N.eqb_spec (next_id l) id) as [->|Hne]; [by rewrite lookup_insert_eq|by rewrite lookup_insert_ne].
    + intros g [= ->]%list_elem_of_singleton. exists (verifying_key k). apply sig_correct.
  - destruct (verify_grant g vk) eqn:Hv; simpl; intros [= <- <-]; [|split; [done|]; by intros g' []%not_elem_of_nil].
    simpl. split.
    + destruct (N.eqb_spec (grant_id g) id) as [->|Hne]; [by rewrite lookup_insert_eq|by rewrite lookup_insert_ne].
    + intros g' [= ->]%list_elem_of_singleton. by exists vk.
  - intros [= <- <-]. simpl. split.
    + destruct (N.eqb_spec i id) as [->|Hne]; [by rewrite lookup_delete_eq|by rewrite lookup_delete_ne].
    + by intros g [=]%list_elem_of_singleton.
Qed.

Lemma calls_snoc os o :
  calls (os ++ [o]) = let '(l, w) := call o (calls os).1 in (l, (calls os).2 ++ w).
Proof. unfold calls. rewrite fold_left_app. simpl. by destruct (fold_left _ os _) as [l h]. Qed.

(** The ledger is what was said: the grant under a number is the last word about it. *)
Lemma calls_words os :
  (forall id, grants (calls os).1 !! id = last_word (calls os).2 id)
  /\ (forall g, Gave g ∈ (calls os).2 -> signed_by_someone g).
Proof.
  induction os as [|o os [IH1 IH2]] using rev_ind; [split; [done|]; by intros g []%not_elem_of_nil|].
  rewrite calls_snoc. destruct (call o (calls os).1) as [l w] eqn:Hc. simpl. split.
  - intros id. destruct (call_words o _ _ _ id Hc) as [-> _]. unfold last_word. by rewrite fold_left_app, IH1.
  - intros g [Hg|Hg]%elem_of_app; [by apply IH2|]. by destruct (call_words o _ _ _ 0 Hc) as [_ ?]; auto.
Qed.

Lemma last_word_given h id g : last_word h id = Some g -> grant_id g = id /\ Gave g ∈ h.
Proof.
  unfold last_word. induction h as [|w h IH] using rev_ind; [done|]. rewrite fold_left_app. cbn [fold_left].
  destruct w as [g'|i]; simpl.
  - destruct (N.eqb_spec (grant_id g') id) as [Hid|Hid].
    + intros [= ->]. split; [done|]. apply elem_of_app. right. by left.
    + intros Hg. destruct (IH Hg). split; [done|]. apply elem_of_app. by left.
  - destruct (i =? id); [done|]. intros Hg. destruct (IH Hg). split; [done|]. apply elem_of_app. by left.
Qed.

(** Consent that stands. *)
Definition consents (h : list Word) (subj : N) (s : DataScope) (now : N) (g : ConsentGrant) : Prop :=
  last_word h (grant_id g) = Some g /\ subject g = subj /\ scope g = s /\ (forall e, expiry g = Some e -> now <= e).

Lemma is_live_spec g now : is_live g now = true <-> forall e, expiry g = Some e -> now <= e.
Proof. unfold is_live. destruct (expiry g) as [e|]; [|naive_solver]. rewrite N.leb_le. naive_solver. Qed.

Lemma standing_grant_spec os subj s now :
  match standing_grant (calls os).1 subj s now with
  | Some g => consents (calls os).2 subj s now g
  | None => forall g, ~ consents (calls os).2 subj s now g
  end.
Proof.
  destruct (calls_words os) as [Hw _]. unfold standing_grant.
  assert (Hin : forall g, g ∈ snd <$> hash_iter (grants (calls os).1) <-> last_word (calls os).2 (grant_id g) = Some g).
  { intros g. rewrite list_elem_of_fmap. split.
    - intros ([id g'] & -> & Hg). apply elem_of_hash_iter in Hg. rewrite Hw in Hg. simpl.
      by destruct (last_word_given _ _ _ Hg) as [-> _].
    - intros Hg. exists (grant_id g, g). split; [done|]. apply elem_of_hash_iter. by rewrite Hw. }
  destruct (List.find _ _) as [g|] eqn:Hf.
  - apply List.find_some in Hf as [Hg Hc]. rewrite <- list_elem_of_In, Hin in Hg.
    apply andb_true_iff in Hc as [[Hs Hsc]%andb_true_iff Hl]. apply N.eqb_eq in Hs. apply bool_decide_eq_true in Hsc.
    repeat split; try done. by apply (proj1 (is_live_spec g now)).
  - intros g (Hg & Hs & Hsc & Hl). rewrite <- Hin, list_elem_of_In in Hg.
    pose proof (List.find_none _ _ Hf g Hg) as Hn. simpl in Hn. apply (proj2 (is_live_spec g now)) in Hl.
    by rewrite Hs, N.eqb_refl, Hsc, bool_decide_true, Hl in Hn.
Qed.

(** No call leaves the device without consent. Whatever calls made the ledger,
    a routing decision is determined by the tier of the domain, the object's
    residency, whether there is a local implementation, and the consent that stands:
    the last word about its number, for this subject and scope, not expired. A call
    goes to the cloud exactly if the tier allows it, the residency does, and such
    consent stands, signed by some device; which of the other answers it gets is as
    stated; and an object classified as restricted never leaves. *)
Theorem cloud_needs_consent p domain s residency local os subj now :
  let h := (calls os).2 in
  let tr := tier_for p domain in
  let barred := exists tag, residency = Some tag /\ CloudAssisted ∉ allowed_tiers tag in
  let stands := exists g, consents h subj s now g in
  let d := route_capability_call p domain s residency local (calls os).1 subj now in
  match d with
  | DispatchCloud id =>
      tr <> FullyLocal /\ ~ barred /\ (tr = LocalPreferredWithConsent -> local = false)
      /\ exists g, consents h subj s now g /\ grant_id g = id /\ signed_by_someone g
  | DispatchLocal => local = true /\ (tr = CloudAssisted -> ~ barred /\ ~ stands)
  | Degraded NoLocalImplementation => local = false /\ tr = FullyLocal
  | Degraded ResidencyForbidsCloud => barred /\ tr <> FullyLocal /\ (tr = LocalPreferredWithConsent -> local = false)
  | Degraded NoStandingConsent => local = false /\ tr <> FullyLocal /\ ~ barred /\ ~ stands
  end
  /\ forall id allowed n, residency = Some (new_tag id Restricted allowed) -> d <> DispatchCloud n.
Proof.
  intros h tr barred stands d.
  assert (Hb : is_some_and residency (fun tag => forbids tag CloudAssisted) = true <-> barred).
  { unfold barred, forbids. destruct residency as [tag|]; simpl; [|naive_solver].
    rewrite negb_true_iff, bool_decide_eq_false. naive_solver. }
  pose proof (standing_grant_spec os subj s now) as Hst. destruct (calls_words os) as [Hw Hsig].
  assert (Hmain : match d with
    | DispatchCloud id =>
        tr <> FullyLocal /\ ~ barred /\ (tr = LocalPreferredWithConsent -> local = false)
        /\ exists g, consents h subj s now g /\ grant_id g = id /\ signed_by_someone g
    | DispatchLocal => local = true /\ (tr = CloudAssisted -> ~ barred /\ ~ stands)
    | Degraded NoLocalImplementation => local = false /\ tr = FullyLocal
    | Degraded ResidencyForbidsCloud => barred /\ tr <> FullyLocal /\ (tr = LocalPreferredWithConsent -> local = false)
    | Degraded NoStandingConsent => local = false /\ tr <> FullyLocal /\ ~ barred /\ ~ stands
    end).
  { unfold d, route_capability_call. fold tr. cbv zeta.
    destruct (is_some_and _ _) eqn:Hbar; [apply proj1 in Hb; specialize (Hb eq_refl)|assert (~ barred) by (by intros Hx%Hb)];
      (destruct (standing_grant _ _ _ _) as [g|]; [assert (Hg : signed_by_someone g) by (apply Hsig; exact (proj2 (last_word_given _ _ _ (proj1 Hst))))|
        assert (~ stands) by (intros [g Hg]; by apply (Hst g))]);
      destruct tr eqn:Htr, local; simpl; naive_solver. }
  split; [exact Hmain|]. intros id allowed n Hres Hd. rewrite Hd in Hmain. destruct Hmain as (_ & Hnb & _). apply Hnb.
  exists (new_tag id Restricted allowed). split; [done|]. simpl. set_solver.
Qed.

(** ** What a signature covers *)

Definition grant_wf (g : ConsentGrant) : Prop :=
  grant_id g < two64 /\ subject g < two64 /\ granted_at g < two64
  /\ match scope g with Object id => id < two64 | _ => True end
  /\ match expiry g with Some e => e < two64 | None => True end.

Definition scope_kind (s : DataScope) : N + N := match s with Domain _ => inl 0 | Object id => inr id | CapabilityScope _ => inl 2 end.

Lemma app_le_bytes_inj k x y (l1 l2 : list N) :
  x < 256 ^ N.of_nat k -> y < 256 ^ N.of_nat k -> l1 ++ le_bytes k x = l2 ++ le_bytes k y -> x = y /\ l1 = l2.
Proof.
  intros Hx Hy Heq. apply app_inj_2 in Heq as [Hl Hr]; [|by rewrite !length_le_bytes]. split; [by eapply le_bytes_inj|done].
Qed.

Lemma fits8 x : x < two64 -> x < 256 ^ N.of_nat 8.
Proof. assert (256 ^ N.of_nat 8 = two64) as -> by reflexivity. done. Qed.

Lemma le_bytes_small k x : x < 256 ^ N.of_nat k -> le_bytes (S k) x = le_bytes k x ++ [0].
Proof.
  revert x. induction k as [|k IH]; intros x Hx; [assert (x = 0) as -> by (simpl in Hx; lia); done|].
  change (le_bytes (S (S k)) x) with ((x mod 256) :: le_bytes (S k) (x / 256)). rewrite IH; [done|].
  rewrite Nat2N.inj_succ, N.pow_succ_r' in Hx. apply N.Div0.div_lt_upper_bound. lia.
Qed.

(** What the signature of a consent grant covers, and what it does not. Two
    grants with one signature that verify under one key agree on their number, their
    subject, the time they were given and the kind of their scope, objects included,
    unless that signature verifies for two messages; but for every grant that expires before 2^56 there is one with the same number,
    subject, scope and time that never does, and verifies whenever the first does. *)
Theorem consent_signature_coverage g vk :
  grant_wf g -> verify_grant g vk = true ->
  (forall g', grant_wf g' -> proof g' = proof g -> verify_grant g' vk = true ->
     (grant_id g' = grant_id g /\ subject g' = subject g /\ granted_at g' = granted_at g
      /\ scope_kind (scope g') = scope_kind (scope g))
     \/ confused vk (proof g) (grant_canonical_bytes g') (grant_canonical_bytes g))
  /\ (forall e, expiry g = Some e -> e < 2 ^ 56 ->
        exists g', verify_grant g' vk = true /\ proof g' = proof g /\ grant_id g' = grant_id g /\ subject g' = subject g
          /\ scope g' = scope g /\ granted_at g' = granted_at g /\ expiry g' = None
          /\ purpose g' = purpose g ++ 1 :: le_bytes 7 e).
Proof.
  intros (Hi & Hs & Ha & Ho & He) Hv. split.
  - intros g' (Hi' & Hs' & Ha' & Ho' & He') Hp Hv'. unfold verify_grant in *. rewrite Hp in Hv'.
    destruct (same_or_confused _ _ _ _ Hv' Hv) as [Heq|?]; [left|by right]. unfold grant_canonical_bytes, canonical_bytes in Heq.
    apply (le_bytes_app_inj 8 _ _ _ _ (fits8 _ Hi') (fits8 _ Hi)) in Heq as [E1 Heq].
    apply (le_bytes_app_inj 8 _ _ _ _ (fits8 _ Hs') (fits8 _ Hs)) in Heq as [E2 Heq].
    rewrite !app_assoc in Heq. apply (app_le_bytes_inj 8 _ _ _ _ (fits8 _ Ha') (fits8 _ Ha)) in Heq as [E3 Heq].
    split; [done|]. split; [done|]. split; [done|].
    rewrite <- !app_assoc in Heq. destruct (scope g), (scope g'); cbn [scope_bytes scope_kind] in *; try done.
    apply (app_inv_head [1]) in Heq. by apply (le_bytes_app_inj 8 _ _ _ _ (fits8 _ Ho') (fits8 _ Ho)) in Heq as [-> _].
  - intros e Hexp Hlt.
    exists (mkGrant (grant_id g) (subject g) (scope g) (purpose g ++ 1 :: le_bytes 7 e) None (granted_at g) (proof g)).
    split; [|by repeat split]. unfold verify_grant in *. rewrite <- Hv. f_equal. unfold grant_canonical_bytes, canonical_bytes. simpl.
    rewrite Hexp. do 3 f_equal. unfold expiry_bytes. rewrite (le_bytes_small 7) by done. by rewrite <- !app_assoc.
Qed.

(** Each object is handed over or withheld, once, and handed over exactly when it is
    needed and may go there. *)
Lemma filter_for_recipient_spec objects need t :
  let '(included, withheld) := filter_for_recipient objects need t in
  included = tag_object <$> List.filter (fun tag => bool_decide (tag_object tag ∈ need) && negb (forbids tag t)) objects
  /\ withheld.*1 = tag_object <$> List.filter (fun tag => negb (bool_decide (tag_object tag ∈ need)) || forbids tag t) objects.
Proof.
  induction objects as [|tag objects IH]; [done|]. cbn [filter_for_recipient List.filter].
  destruct (filter_for_recipient objects need t) as [i w], IH as [IH1 IH2].
  destruct (bool_decide (tag_object tag ∈ need)), (forbids tag t); cbn [negb andb orb fmap list_fmap]; by rewrite ?IH1, ?IH2.
Qed.
End consent.
Arguments ConsentGrant {_}.
Arguments ConsentLedger {_}.

(** ** A concrete ledger *)
Module PrivacyExample.
Import Crypto.Toy.

Definition writer : CapabilityToken := mkToken 1 0 WRITE 0 7 None.
Definition profile (t : PrivacyTier) : PrivacyProfile := mkProfile t ∅ 0 1.
Definition mail : DataScope := Domain (lit "mail").
Definition asked : Result ConsentGrant ConsentError * ConsentLedger :=
  request 0 tt writer new_ledger 3 mail (lit "sort") (Some 100) 10 5.
Definition given : ConsentGrant := match asked.1 with Ok g => g | Err _ => mkGrant 0 0 mail [] None 0 (0, []) end.
Definition route (t : PrivacyTier) (r : option ResidencyTag) (local : bool) (now : N) : RoutingDecision :=
  route_capability_call (profile t) (lit "mail") mail r local asked.2 3 now.

Example consent_ends_with_its_expiry :
  route LocalPreferredWithConsent None false 100 = DispatchCloud 1
  /\ route LocalPreferredWithConsent None false 101 = Degraded NoStandingConsent.
Proof. vm_compute. done. Qed.

(** With consent missing the call runs here; with the cloud forbidden it does not,
    though it could. *)
Example forbidden_cloud_forgets_the_local_implementation :
  route CloudAssisted None true 101 = DispatchLocal
  /\ route CloudAssisted (Some (new_tag 9 Restricted {[CloudAssisted]})) true 101 = Degraded ResidencyForbidsCloud.
Proof. vm_compute. done. Qed.

(** Whoever carries a grant can move bytes from its scope to its purpose. *)
Example scope_and_purpose_run_together :
  let g := mkGrant 1 3 (Domain (lit "ma")) (lit "ilsort") (Some 100) 10 (proof given) in
  (import 0 tt writer new_ledger g 5).1 = Ok tt.
Proof. vm_compute. done. Qed.

(** A grant that was taken back can be brought back, by importing it again. *)
Example revoked_grant_returns :
  let l := (revoke 0 tt writer asked.2 1).2 in
  standing_grant l 3 mail 50 = None
  /\ standing_grant (import 0 tt writer l given 5).2 3 mail 50 = Some given.
Proof. vm_compute. done. Qed.

(** Numbers are given out by each device, and an imported grant takes the place of
    the one that has its number here. *)
Example imported_grant_replaces_ours :
  let theirs := (request 0 tt writer new_ledger 4 mail (lit "read") None 10 6).1 in
  match theirs with
  | Ok g => standing_grant (import 0 tt writer asked.2 g 6).2 3 mail 50 = None
  | Err _ => False
  end.
Proof. vm_compute. done. Qed.
End PrivacyExample.
Import Crypto.Toy PrivacyExample.

Lemma consent_signature_coverage_witness :
  exists g', verify_grant g' 5 = true /\ scope g' = mail /\ expiry g' = None.
Proof.
  destruct (consent_signature_coverage given 5) as [_ H].
  - repeat split; vm_compute; reflexivity.
  - vm_compute. reflexivity.
  - destruct (H 100) as (g' & Hv & _ & _ & _ & Hs & _ & He & _); [vm_compute; reflexivity|vm_compute; reflexivity|].
    exists g'. split; [exact Hv|]. split; [rewrite Hs; vm_compute; reflexivity|exact He].
Defined.
