(* ===== verification/Erasure.v ===== *)
(** Erasure: [crates/hyperion-privacy/src/erasure.rs].

    A soft delete overwrites nodes and is journalled with the recovery service, so
    that it can be undone; a shred deletes nodes and purges their history; a sweep
    shreds soft deletes whose time to be undone is over. What the graph promises of a
    purge is a class beside [NodeStore], which the knowledge graph discharges. *)
From S2P Require Import Prelude Crypto Capability Authority Wal Storage DebugFmt Events F32 Json KnowledgeGraph NodeStore Recovery.
Open Scope N_scope.

(** ** What a purge promises *)

Class PurgeStore (V G Env PEnv : Type) {M : Type} `{NodeStore V G Env (M := M)} := {
  ps_purge : Instant -> M -> CapabilityToken -> G -> NodeId -> PEnv -> Result nat GraphError * G;
  (** the log can be rewritten *)
  ps_ok : PEnv -> Prop;
  (** the nodes are those of the log *)
  ps_sound : G -> Prop;
  (** some version of the node can still be read *)
  ps_past : G -> NodeId -> Prop;
  ps_failed : forall now m t g id env e g',
    ps_purge now m t g id env = (Err e, g') ->
    (forall x, ns_node g' x = ns_node g x) /\ (forall x, ps_past g' x -> ps_past g x)
    /\ (e = NotFound -> forall n, ns_node g id = Some n -> owner n <> origin t);
  ps_done : forall now m t g id env k g',
    ps_purge now m t g id env = (Ok k, g') ->
    (forall x, x <> id -> ns_node g' x = ns_node g x) /\ (forall x, ps_past g' x -> ps_past g x /\ x <> id)
    /\ ns_node g' id = None /\ exists n, ns_node g id = Some n /\ owner n = origin t;
  ps_delete_known : forall now m t g id env,
    (ns_delete now m t g id env).1 = Ok tt -> exists n, ns_node g id = Some n /\ owner n = origin t;
  ps_past_delete : forall now m t g id env x,
    ps_past (ns_delete now m t g id env).2 x -> ps_past g x \/ x = id /\ is_Some (ns_node g id);
  ps_total : forall now m t g id env n,
    authorize now m t WRITE = Ok tt -> ps_ok env -> ps_sound g -> ns_node g id = Some n -> owner n = origin t ->
    is_ok (ps_purge now m t g id env).1 = true;
  ps_sound_put : forall now m t g id ty emb md env, ps_sound g -> ps_sound (ns_put now m t g id ty emb md env).2;
  ps_sound_delete : forall now m t g id env, ps_sound g -> ps_sound (ns_delete now m t g id env).2;
  ps_sound_purge : forall now m t g id env, ps_sound g -> ps_sound (ps_purge now m t g id env).2
}.

Section graph_purge.
Context {V : Type} `{Codec (WalRecord V)} `{Aead} `{HashIter} {M : Type} `{Authority M}.
Context (to_value : Record_ (V := V) -> V).

Record PurgeEnv := mkPurgeEnv {
  pe_nonces : nat -> list N;
  pe_io : compact_outcome
}.

(** What commits and purges do to the versions kept. *)
Lemma commit_chain {A : Type} now m t g id r nonce io announce (result : N -> A) v rec :
  version_chain (inner (storage (commit_record to_value now m t g (Some id) (current_version (storage g) id) r nonce io announce
    result).1.2)) !! v = Some rec ->
  version_chain (inner (storage g)) !! v = Some rec \/ vr_object_id rec = id.
Proof.
  unfold commit_record, put_object. destruct (authorize now m t WRITE) as [[]|]; [|by left].
  rewrite bool_decide_false by (unfold current_version; intros []; done).
  destruct (append_and_fsync _ _ _ _) as [[] w]; simpl; [|by left].
  rewrite lookup_insert_Some. intros [[_ <-]|[_ Hv]]; [by right|by left].
Qed.

Lemma purge_failed_chain now m t (s : StorageEngine (V := V)) id nonces io err s' :
  purge_object (M := M) now m t s id nonces io = (Err err, s') -> version_chain (inner s') = version_chain (inner s).
Proof.
  unfold purge_object. destruct (authorize now m t WRITE); [|by intros [= _ <-]]. destruct (_ && _); [by intros [= _ <-]|].
  unfold install_log. by destruct (compact_impl _ _ _ _ _) as [path [w|]]; intros [= _ <-].
Qed.

Lemma purge_done_chain now m t (s : StorageEngine (V := V)) id nonces io k s' :
  purge_object (M := M) now m t s id nonces io = (Ok k, s') ->
  version_chain (inner s') = filter (fun '(_, rec) => vr_object_id rec <> id) (version_chain (inner s)).
Proof.
  unfold purge_object. destruct (authorize now m t WRITE); [|done]. destruct (_ && _); [done|].
  unfold install_log. by destruct (compact_impl _ _ _ _ _) as [path [w|]]; intros [= _ <-].
Qed.

#[local] Obligation Tactic := idtac.

#[export] Program Instance graph_purge_store : PurgeStore V (KnowledgeGraph (V := V)) WriteEnv PurgeEnv (H0 := graph_node_store to_value) := {
  ps_purge now m t g id env := (purge_node_history now m t g id (pe_nonces env) (pe_io env)).1;
  ps_ok env := pe_io env = Compacted;
  ps_sound := stored;
  ps_past g id := exists v rec, version_chain (inner (storage g)) !! v = Some rec /\ vr_object_id rec = id
}.
Next Obligation.
  intros now m t g id env e g' Hp. unfold purge_node_history in Hp.
  destruct (KnowledgeGraph.require now m t WRITE) as [[]|err] eqn:Hr; [|injection Hp as <- <-; split; [done|]; split; [done|];
    unfold KnowledgeGraph.require in Hr; by destruct (authorize now m t WRITE); simplify_eq/=].
  destruct (nodes (index g) !! id) as [n|] eqn:Hn; [|injection Hp as <- <-; split_and!; try done; simpl; congruence].
  destruct (N.eqb_spec (owner n) (origin t)) as [Ho|Ho]; simpl in Hp; [|injection Hp as <- <-; split_and!; try done; simpl; congruence].
  destruct (purge_object _ _ _ _ _ _ _) as [[k|err] s] eqn:Hpo; [done|]. injection Hp as <- <-. split; [done|]. split; [|done].
  intros x. simpl. by rewrite (purge_failed_chain _ _ _ _ _ _ _ _ _ Hpo).
Qed.
Next Obligation.
  intros now m t g id env k g' Hp. unfold purge_node_history in Hp. destruct (KnowledgeGraph.require now m t WRITE); [|done].
  destruct (nodes (index g) !! id) as [n|] eqn:Hn; [|done]. destruct (N.eqb_spec (owner n) (origin t)) as [Ho|]; [|done].
  destruct (purge_object _ _ _ _ _ _ _) as [[j|err] s] eqn:Hpo; [|done]. injection Hp as <- <-. simpl.
  split; [intros x Hx; by apply lookup_delete_ne|]. split; [|split; [apply lookup_delete_eq|by exists n]].
  intros x (v & rec & Hv & Hx). rewrite (purge_done_chain _ _ _ _ _ _ _ _ _ Hpo) in Hv.
  apply map_lookup_filter_Some in Hv as [Hv Hid]. split; [by exists v, rec|]. by rewrite <- Hx.
Qed.
Next Obligation.
  intros now m t g id env. simpl. unfold delete_node. destruct (KnowledgeGraph.require now m t WRITE); [|done].
  destruct (nodes (index g) !! id) as [n|]; [|done]. destruct (N.eqb_spec (owner n) (origin t)); [by exists n|done].
Qed.
Next Obligation.
  intros now m t g id env x. simpl. unfold delete_node. destruct (KnowledgeGraph.require now m t WRITE); [|by left].
  destruct (nodes (index g) !! id) as [n|] eqn:Hn; [|by left]. destruct (negb _); [by left|]. destruct (tombstone n); [by left|].
  intros (v & rec & Hv & Hx). destruct (commit_chain _ _ _ _ _ _ _ _ _ _ _ _ Hv) as [Hold|Hnew]; [left; by exists v, rec|].
  right. split; [congruence|by eexists].
Qed.
Next Obligation.
  intros now m t g id [nonces io] n Ha Hio Hs Hn Ho. simpl in *. subst io. unfold purge_node_history, KnowledgeGraph.require.
  rewrite Ha. simpl. rewrite Hn, Ho, N.eqb_refl. simpl. unfold purge_object. rewrite Ha.
  destruct (Hs id) as [[v Hv] _]; [by rewrite Hn|]. rewrite Hv. by rewrite bool_decide_false.
Qed.
Next Obligation. intros. by apply (nc_sound_put (NodeCreator := graph_node_creator to_value)). Qed.
Next Obligation. intros. by apply (nc_sound_delete (NodeCreator := graph_node_creator to_value)). Qed.
Next Obligation.
  intros now m t g id env Hs. unfold purge_node_history. destruct (KnowledgeGraph.require now m t WRITE); [|done].
  destruct (nodes (index g) !! id) as [n|]; [|done]. destruct (negb _); [done|]. unfold purge_object.
  destruct (authorize now m t WRITE); [|done]. destruct (_ && _); [done|].
  unfold install_log. destruct (compact_impl _ _ _ _ _) as [path [w|]]; simpl; [|done].
  intros x. simpl. destruct (decide (x = id)) as [->|Hne]; [rewrite lookup_delete_eq; by intros []|].
  rewrite !lookup_delete_ne by done. apply Hs.
Qed.
End graph_purge.

(** ** erasure.rs *)

Inductive ErasureMode : Type := SoftDelete | CryptoShred.

Record ErasureReceipt := mkReceipt {
  erased_ids : list NodeId;
  erasure_mode : ErasureMode;
  completed_at : option N;
  grace_period_action : option ActionId
}.

Definition SOFT_DELETE_NOTE : list N := lit "hyperion-privacy erase (soft-delete)".

Section erasure.
Context {V G Env PEnv M : Type} `{PurgeStore V G Env PEnv (M := M)}.
Context {AgentError MemoryError Mem : Type}.

Abbreviation service := (RecoveryService (V := V) (Mem := Mem)).
Abbreviation RError := (RecoveryError (AgentError := AgentError) (MemoryError := MemoryError)).
Abbreviation world := (World (G := G)).

Inductive PrivacyError : Type :=
| PrivacyUnauthorized
| PrivacyGraph (e : GraphError)
| PrivacyRecovery (e : RError).

(** [of_json] makes a value of the graph; the outside inputs of its writes and
    purges are picked by the count of both. *)
Context (of_json : Json -> V) (outside : nat -> Env) (purging : nat -> PEnv).

(** What a soft delete leaves. *)
Definition placeholder : V :=
  of_json (JObject [(lit "erased", JBool true); (lit "mode", JString (lit "SoftDelete"))]).

Definition world_purge now m t (w : world) (id : NodeId) : Result nat GraphError * world :=
  let '(res, g) := ps_purge now m t (store w) id (purging (tick w)) in (res, mkWorld g (S (tick w))).

(** The two loops of [erase]. *)
Fixpoint overwrite_each (now : Instant) (m : M) (t : CapabilityToken) (w : world) (ids : list NodeId) :
    Result unit PrivacyError * world :=
  match ids with
  | [] => (Ok tt, w)
  | id :: ids =>
      match world_put outside now m t w id (lit "Erased") None placeholder with
      | (Err e, w) => (Err (PrivacyGraph e), w)
      | (Ok _, w) => overwrite_each now m t w ids
      end
  end.

Fixpoint shred_each (now : Instant) (m : M) (t : CapabilityToken) (w : world) (ids : list NodeId) :
    Result unit PrivacyError * world :=
  match ids with
  | [] => (Ok tt, w)
  | id :: ids =>
      match world_delete outside now m t w id with
      | (Err e, w) => (Err (PrivacyGraph e), w)
      | (Ok _, w) =>
          match world_purge now m t w id with
          | (Ok _, w) | (Err NotFound, w) => shred_each now m t w ids
          | (Err e, w) => (Err (PrivacyGraph e), w)
          end
      end
  end.

Definition erase (now : Instant) (m : M) (t : CapabilityToken) (s : service) (w : world) (ids : list NodeId)
    (mode : ErasureMode) (wall : N) : Result ErasureReceipt PrivacyError * service * world :=
  match authorize now m t WRITE with
  | Err _ => (Err PrivacyUnauthorized, s, w)
  | Ok _ =>
      match mode with
      | SoftDelete =>
          match recovery_point_create (AgentError := AgentError) (MemoryError := MemoryError) now m t s w UserRequested ids wall with
          | (Err e, s) => (Err (PrivacyRecovery e), s, w)
          | (Ok point, s) =>
              let '(action, s) := record_action_started s point ids None SOFT_DELETE_NOTE wall in
              match overwrite_each now m t w ids with
              | (Err e, w) => (Err e, s, w)
              | (Ok _, w) =>
                  match record_action_committed (AgentError := AgentError) (MemoryError := MemoryError) s action with
                  | (Err e, s) => (Err (PrivacyRecovery e), s, w)
                  | (Ok _, s) => (Ok (mkReceipt ids mode (Some wall) (Some action)), s, w)
                  end
              end
          end
      | CryptoShred =>
          match shred_each now m t w ids with
          | (Err e, w) => (Err e, s, w)
          | (Ok _, w) => (Ok (mkReceipt ids mode (Some wall) None), s, w)
          end
      end
  end.

(** The body of the sweep: what goes wrong with one object is ignored. *)
Fixpoint shred_quietly (now : Instant) (m : M) (t : CapabilityToken) (w : world) (ids : list NodeId) : world :=
  match ids with
  | [] => w
  | id :: ids =>
      let w := (world_delete outside now m t w id).2 in
      let w := (world_purge now m t w id).2 in
      shred_quietly now m t w ids
  end.

Definition lapsed (now : Instant) (m : M) (t : CapabilityToken) (w : world) (wall grace_period_secs : N) (a : ActionRecord) : bool :=
  bool_decide (status a = Committed) && bool_decide (note a = SOFT_DELETE_NOTE)
  && (grace_period_secs <=? wall - act_created_at a)
  && forallb (fun id => is_ok (ns_get now m t (store w) id)) (objects_touched a).

(** Each record is looked at when its turn comes, in the graph as it is by then. *)
Fixpoint sweep (now : Instant) (m : M) (t : CapabilityToken) (s : service) (w : world) (wall grace_period_secs : N)
    (l : list ActionRecord) : list ActionId * service * world :=
  match l with
  | [] => ([], s, w)
  | a :: l =>
      if lapsed now m t w wall grace_period_secs a then
        match expire (AgentError := AgentError) (MemoryError := MemoryError) s (action_id a) with
        | (Err _, s) => sweep now m t s w wall grace_period_secs l
        | (Ok _, s) =>
            let w := shred_quietly now m t w (objects_touched a) in
            let '(ids, s, w) := sweep now m t s w wall grace_period_secs l in
            (action_id a :: ids, s, w)
        end
      else sweep now m t s w wall grace_period_secs l
  end.

Definition expire_lapsed_soft_deletes (now : Instant) (m : M) (t : CapabilityToken) (s : service) (w : world)
    (wall grace_period_secs : N) : Result (list ActionId) PrivacyError * service * world :=
  match authorize now m t WRITE with
  | Err _ => (Err PrivacyUnauthorized, s, w)
  | Ok _ => let '(ids, s, w) := sweep now m t s w wall grace_period_secs (action_records s) in (Ok ids, s, w)
  end.

(** ** Soft deletes *)

(** A node whose content is the placeholder. *)
Definition blank : NodeRecord (V := V) :=
  mkNode (lit "Erased") None placeholder 0 0 UserAuthored 0 0 0 0 false.

Definition blanks (ids : list NodeId) : list (NodeId * option (NodeRecord (V := V))) := (fun id => (id, Some blank)) <$> ids.

(** Overwriting is applying a snapshot of placeholders. *)
Lemma overwrite_entries now m t w ids :
  overwrite_each now m t w ids
  = match apply_entries (AgentError := AgentError) (MemoryError := MemoryError) outside now m t w (blanks ids) with
    | (Ok _, w) => (Ok tt, w)
    | (Err (GraphFailed e), w) => (Err (PrivacyGraph e), w)
    | (Err e, w) => (Err (PrivacyRecovery e), w)
    end.
Proof.
  revert w. induction ids as [|id ids IH]; intros w; [done|]. cbn [overwrite_each blanks fmap list_fmap apply_entries].
  change (object_type blank) with (lit "Erased"). change (embedding blank) with (None : option (list f32)).
  change (node_metadata blank) with placeholder. destruct (world_put _ _ _ _ _ _ _ _ _) as [[x|e] w']; [apply IH|done].
Qed.

Lemma blanks_ids ids : (blanks ids).*1 = ids.
Proof. unfold blanks. rewrite <- list_fmap_compose. apply list_fmap_id. Qed.

Lemma entry_for_blanks id ids : id ∈ ids -> entry_for id (blanks ids) = Some (Some blank).
Proof.
  intros Hid. apply (entry_for_agree (fun _ => Some blank)); [|by rewrite blanks_ids].
  by intros st (id' & [= _ ->] & _)%list_elem_of_fmap.
Qed.

Lemma overwritten now m t w ids w' :
  apply_entries (AgentError := AgentError) (MemoryError := MemoryError) outside now m t w (blanks ids) = (Ok tt, w') ->
  (forall id, id ∈ ids -> exists n, ns_node (store w') id = Some n /\ owner n = origin t /\ content n = content blank
                            /\ (dead (store w) id = false -> tombstone n = false))
  /\ (forall id, id ∉ ids -> ns_node (store w') id = ns_node (store w) id).
Proof.
  intros Happ. pose proof (apply_entries_ok _ _ _ _ _ _ _ Happ) as Hfx. split; intros id Hid; specialize (Hfx id).
  - rewrite entry_for_blanks in Hfx by done. destruct Hfx as (n & Hn & Ho & Hc & Ht). exists n. split_and!; try done.
    intros Hd. apply Ht; [done|]. by intros (x & [=] & _)%list_elem_of_fmap.
  - rewrite <- (blanks_ids ids) in Hid. apply entry_for_None in Hid. by rewrite Hid in Hfx.
Qed.

Lemma update_first_last id st (l : list ActionRecord) a :
  id ∉ ids_of l -> action_id a = id -> update_first id st (l ++ [a]) = Some (l ++ [with_status a st]).
Proof.
  induction l as [|x l IH]; intros Hid Ha; simpl; [by rewrite Ha, N.eqb_refl|].
  destruct (N.eqb_spec (action_id x) id) as [Hx|Hx]; [destruct Hid; rewrite <- Hx; left|].
  rewrite IH; [done| |done]. intros Hin. apply Hid. by right.
Qed.

(** What it takes to erase nodes softly and to be able to undo it. *)
Record erasable (now : Instant) (m : M) (t : CapabilityToken) (s : service) (w : world) (ids : list NodeId) (wall : N) : Prop := {
  er_read : authorize now m t READ = Ok tt;
  er_write : authorize now m t WRITE = Ok tt;
  er_disk : forall k, ns_ok (outside k);
  er_journal : NoDup (ids_of (actions s));
  er_fresh : forall a, a ∈ actions s -> action_id a < next_action_id s;
  er_own : unclaimed (store w) (origin t) ids;
  er_undeleted : forall id, id ∈ ids -> dead (store w) id = false;
  (** no other action of this second or later that can still be undone *)
  er_alone : forall a id, a ∈ actions s -> undo_live (status a) = true -> wall <= act_created_at a -> id ∈ objects_touched a -> id ∉ ids
}.

(** The service after a soft delete. *)
Definition soft_action (s : service) (ids : list NodeId) (wall : N) : ActionRecord :=
  mkAction (next_action_id s) None None None (next_point_id s) ids Committed wall SOFT_DELETE_NOTE.

Definition journalled (s : service) (g : G) (b : N) (ids : list NodeId) (wall : N) : service :=
  mkService (<[next_point_id s := mkPoint (next_point_id s) wall UserRequested false]> (points s))
    (<[next_point_id s := capturing g b ids]> (snapshots s)) (actions s ++ [soft_action s ids wall])
    (redo_snapshots s) (u64_add (next_point_id s) 1) (u64_add (next_action_id s) 1) (memory s).

Lemma soft_delete_done now m t s w ids wall :
  erasable now m t s w ids wall ->
  exists w1, erase now m t s w ids SoftDelete wall
             = (Ok (mkReceipt ids SoftDelete (Some wall) (Some (next_action_id s))), journalled s (store w) (origin t) ids wall, w1)
    /\ apply_entries (AgentError := AgentError) (MemoryError := MemoryError) outside now m t w (blanks ids) = (Ok tt, w1).
Proof.
  intros He. pose proof (apply_entries_total (AgentError := AgentError) (MemoryError := MemoryError) outside now m t w (blanks ids)
    (er_write _ _ _ _ _ _ _ He) (er_disk _ _ _ _ _ _ _ He)) as Htot. rewrite blanks_ids in Htot. specialize (Htot (er_own _ _ _ _ _ _ _ He)).
  destruct (apply_entries _ _ _ _ w (blanks ids)) as [res w1] eqn:Happ. simpl in Htot. subst res. exists w1. split; [|done].
  unfold erase. rewrite (er_write _ _ _ _ _ _ _ He). unfold recovery_point_create, Recovery.require.
  rewrite (er_write _ _ _ _ _ _ _ He). cbn [map_err].
  rewrite snapshot_objects_total by apply He. cbv beta iota zeta. unfold record_action_started, record_action_started_with_scope.
  rewrite overwrite_entries. rewrite Happ. unfold record_action_committed, set_status. cbn [actions].
  rewrite update_first_last; [done| |done]. intros (a & Ha & Hin)%list_elem_of_fmap.
  pose proof (er_fresh _ _ _ _ _ _ _ He a Hin). simpl in Ha. lia.
Qed.

Lemma soft_action_only now m t s w ids wall :
  erasable now m t s w ids wall ->
  candidates_for Committed (journalled s (store w) (origin t) ids wall) (SingleAction (next_action_id s)) = [soft_action s ids wall].
Proof.
  intros He. unfold candidates_for. simpl. rewrite List.filter_app. simpl. rewrite N.eqb_refl.
  replace (List.filter _ (actions s)) with ([] : list ActionRecord); [done|]. symmetry. apply filter_none, Forall_forall.
  intros a Ha. pose proof (er_fresh _ _ _ _ _ _ _ He a Ha) as Hlt. simpl.
  destruct (N.eqb_spec (action_id a) (next_action_id s)) as [Heq|]; [lia|]. apply andb_false_r.
Qed.

Lemma soft_delete_undoable now m t s w ids wall w1 :
  erasable now m t s w ids wall ->
  apply_entries (AgentError := AgentError) (MemoryError := MemoryError) outside now m t w (blanks ids) = (Ok tt, w1) ->
  undoable outside now m t (journalled s (store w) (origin t) ids wall) w1 (SingleAction (next_action_id s)).
Proof.
  intros He Happ. destruct (overwritten _ _ _ _ _ _ Happ) as [Hin Hout]. pose proof (soft_action_only _ _ _ _ _ _ _ He) as Hc.
  split; rewrite ?Hc; try apply He.
  - simpl. unfold ids_of. rewrite fmap_app. apply NoDup_app. split; [apply He|]. split; [|apply NoDup_singleton].
    intros x (a & -> & Ha)%list_elem_of_fmap Hx. apply list_elem_of_singleton in Hx. simpl in Hx.
    pose proof (er_fresh _ _ _ _ _ _ _ He a Ha). lia.
  - done.
  - constructor; [|constructor]. unfold has_point. simpl. rewrite lookup_insert_eq. by eexists.
  - intros id n Hid Hn. simpl in Hid. rewrite app_nil_r in Hid. destruct (Hin id Hid) as (n' & Hn' & Ho & _). congruence.
  - intros a id Ha Hnot Hlive (a0 & Ha0 & Hle) Hid. simpl. rewrite app_nil_r. apply list_elem_of_singleton in Ha0 as ->. simpl in Hle.
    simpl in Ha. apply elem_of_app in Ha as [Ha|Ha]; [by apply (er_alone _ _ _ _ _ _ _ He a)|].
    apply list_elem_of_singleton in Ha as ->. destruct Hnot. simpl. left.
Qed.

(** A soft delete hides what it erases and can be undone. By someone who may
    read and write, for nodes no one else owns and none deleted, it succeeds: each
    node then reads as the placeholder, no other node changes, and the erasure is in
    the journal under a number of its own. Undoing that number, before anything else
    is done, succeeds and brings back what every node had, absent ones included. *)
Theorem soft_delete_round_trip now m t s w ids wall :
  erasable now m t s w ids wall ->
  let b := origin t in
  let a := next_action_id s in
  exists s1 w1 s2 w2,
    erase now m t s w ids SoftDelete wall = (Ok (mkReceipt ids SoftDelete (Some wall) (Some a)), s1, w1)
    /\ (forall id, id ∈ ids -> seen (store w1) b id = Some (lit "Erased", None, placeholder))
    /\ (forall id, id ∉ ids -> ns_node (store w1) id = ns_node (store w) id)
    /\ undo (AgentError := AgentError) (MemoryError := MemoryError) outside now m t s1 w1 (SingleAction a) = (Ok (UndoTargeted [a]), s2, w2)
    /\ (forall id, id ∈ ids -> seen (store w2) b id = seen (store w) b id)
    /\ (forall id, id ∉ ids -> ns_node (store w2) id = ns_node (store w) id).
Proof.
  intros He b a. destruct (soft_delete_done _ _ _ _ _ _ _ He) as (w1 & Her & Happ).
  destruct (overwritten _ _ _ _ _ _ Happ) as [Hin Hout].
  destruct (undo_succeeds (AgentError := AgentError) (MemoryError := MemoryError) outside now m t _ w1 _ (soft_delete_undoable _ _ _ _ _ _ _ _ He Happ)) as (redo & w2 & Hundo & Hback & _).
  rewrite (soft_action_only _ _ _ _ _ _ _ He) in Hundo, Hback. cbn in Hundo.
  eexists _, w1, _, w2. split; [exact Her|]. split.
  { intros id Hid. destruct (Hin id Hid) as (n & Hn & Ho & Hc & Ht).
    apply (seen_restored _ _ _ n); try done. apply Ht. by apply (er_undeleted _ _ _ _ _ _ _ He). }
  split; [exact Hout|]. split; [exact Hundo|].
  assert (Hent : (sort_by_key_rev act_created_at [soft_action s ids wall]
                  ≫= entries_of (journalled s (store w) b ids wall)) = capturing (store w) b ids).
  { cbn [sort_by_key_rev mbind list_bind]. unfold entries_of. simpl. rewrite lookup_insert_eq, app_nil_r. apply capturing_all. }
  fold b in Hback. rewrite Hent in Hback. destruct (apply_capturing _ _ _ _ _ _ _ _ Hback) as [Hb1 Hb2]. split.
  - intros id Hid. specialize (Hb1 id Hid). unfold seen at 2. fold b in Hb1. destruct (live_node (store w) b id) as [n|] eqn:Hn.
    + apply Hb1. destruct (Hin id Hid) as (n' & Hn' & _ & _ & Ht). unfold dead. rewrite Hn'. simpl. apply Ht.
      by apply (er_undeleted _ _ _ _ _ _ _ He).
    + unfold seen. by rewrite Hb1.
  - intros id Hid. rewrite Hb2, Hout; done.
Qed.

(** ** Shredding *)

(** Nothing of a node is left. *)
Definition gone (g : G) (id : NodeId) : Prop := ns_node g id = None /\ ~ ps_past g id.

Record shredding (now : Instant) (m : M) (t : CapabilityToken) (w : world) : Prop := {
  sh_write : authorize now m t WRITE = Ok tt;
  sh_disk : forall k, ns_ok (outside k);
  sh_log : forall k, ps_ok (purging k);
  sh_sound : ps_sound (store w)
}.

(** Deleting and purging one node, whatever comes of it. *)
Definition shred_one now m t (w : world) (id : NodeId) : world :=
  (world_purge now m t (world_delete outside now m t w id).2 id).2.

Lemma delete_effect now m t w id :
  let w' := (world_delete outside now m t w id).2 in
  (forall x, x <> id -> ns_node (store w') x = ns_node (store w) x)
  /\ (forall x, gone (store w) x -> gone (store w') x)
  /\ (ns_node (store w') id = ns_node (store w) id
      \/ is_Some (ns_node (store w) id) /\ exists n, ns_node (store w') id = Some n /\ owner n = origin t /\ tombstone n = true).
Proof.
  intros w'. unfold w', world_delete. pose proof (fun x => ps_past_delete now m t (store w) id (outside (tick w)) x) as Hpast.
  destruct (ns_delete now m t (store w) id (outside (tick w))) as [[[]|e] g'] eqn:Hd; simpl in *.
  - assert (Hk : is_Some (ns_node (store w) id))
      by (destruct (ps_delete_known now m t (store w) id (outside (tick w))) as (n & Hn & _); [by rewrite Hd|by exists n]).
    apply ns_delete_done in Hd as (Hx & Hn). split; [done|]. split; [|by right]. intros x [Hg Hp].
    assert (x <> id) by (intros ->; rewrite Hg in Hk; by destruct Hk). split; [by rewrite Hx|]. by intros [?|[? _]]%Hpast.
  - apply ns_delete_failed in Hd as (Hx & _). split; [by intros x _|]. split; [|left; apply Hx].
    intros x [Hg Hp]. split; [by rewrite Hx|]. intros [?|[-> [n Hn]]]%Hpast; [done|congruence].
Qed.

Lemma purge_effect now m t w id :
  let '(res, w') := world_purge now m t w id in
  (forall x, x <> id -> ns_node (store w') x = ns_node (store w) x)
  /\ (forall x, gone (store w) x -> gone (store w') x)
  /\ match res with
     | Ok _ => gone (store w') id
     | Err e => ns_node (store w') id = ns_node (store w) id
                /\ (e = NotFound -> forall n, ns_node (store w) id = Some n -> owner n <> origin t)
     end.
Proof.
  unfold world_purge. destruct (ps_purge now m t (store w) id (purging (tick w))) as [[k|e] g'] eqn:Hp; simpl.
  - apply ps_done in Hp as (Hx & Hpast & Hid & _). split; [done|].
    assert (Hg : gone g' id) by (split; [done|]; by intros [_ ?]%Hpast). split; [|done]. intros x [Hn Hp].
    destruct (decide (x = id)) as [->|Hne]; [done|]. split; [by rewrite Hx|]. by intros [? _]%Hpast.
  - apply ps_failed in Hp as (Hx & Hpast & Hnf). split; [by intros x _|]. split; [|split; [apply Hx|done]].
    intros x [Hn Hp]. split; [by rewrite Hx|]. by intros ?%Hpast.
Qed.

(** Nodes only go away. *)
Definition fades (b : N) (g g' : G) : Prop :=
  forall id n, live_node g' b id = Some n -> ns_node g' id = ns_node g id.

Lemma fades_live b g g' id n : fades b g g' -> live_node g' b id = Some n -> live_node g b id = Some n.
Proof. intros Hf Hn. pose proof (Hf _ _ Hn) as Heq. unfold live_node in *. by rewrite <- Heq. Qed.

Lemma fades_trans b g1 g2 g3 : fades b g1 g2 -> fades b g2 g3 -> fades b g1 g3.
Proof. intros H12 H23 id n Hn. pose proof (H23 _ _ Hn) as Heq. rewrite Heq. apply (H12 _ n). unfold live_node in *. by rewrite <- Heq. Qed.

Lemma shred_one_effect now m t w id :
  let w' := shred_one now m t w id in
  (forall x, x <> id -> ns_node (store w') x = ns_node (store w) x)
  /\ (forall x, gone (store w) x -> gone (store w') x) /\ fades (origin t) (store w) (store w').
Proof.
  intros w'. unfold w', shred_one. pose proof (delete_effect now m t w id) as (Hx1 & Hg1 & Hid1).
  set (w1 := (world_delete outside now m t w id).2) in *. pose proof (purge_effect now m t w1 id) as Hp.
  destruct (world_purge now m t w1 id) as [res w2]. destruct Hp as (Hx2 & Hg2 & Hres). simpl.
  split; [intros x Hne; by rewrite Hx2, Hx1|]. split; [auto|]. intros x n Hn.
  destruct (decide (x = id)) as [->|Hne]; [|by rewrite Hx2, Hx1].
  destruct res as [k|e]; [destruct Hres as [Hnone _]; unfold live_node in Hn; by rewrite Hnone in Hn|].
  destruct Hres as [Heq _]. rewrite Heq. destruct Hid1 as [->|(_ & n1 & Hn1 & _ & Ht)]; [done|].
  unfold live_node in Hn. rewrite Heq, Hn1 in Hn. simpl in Hn. unfold own_live in Hn. by rewrite Ht in Hn.
Qed.

Definition owned (g : G) (b : N) (id : NodeId) : Prop := exists n, ns_node g id = Some n /\ owner n = b.

Lemma shred_each_spec now m t ids w :
  let '(res, w') := shred_each now m t w ids in
  (forall x, x ∉ ids -> ns_node (store w') x = ns_node (store w) x) /\ fades (origin t) (store w) (store w')
  /\ (forall x, gone (store w) x -> gone (store w') x)
  /\ (res = Ok tt -> forall id, id ∈ ids -> gone (store w') id /\ owned (store w) (origin t) id).
Proof.
  revert w. induction ids as [|id ids IH]; intros w.
  { simpl. split_and!; try done. by intros _ id ?%not_elem_of_nil. }
  cbn [shred_each]. pose proof (shred_one_effect now m t w id) as (Hx & Hg & Hf). pose proof (delete_effect now m t w id) as (Hdx & Hdg & Hdid).
  pose proof (ps_delete_known now m t (store w) id (outside (tick w))) as Hk.
  unfold shred_one, world_delete in *. destruct (ns_delete now m t (store w) id (outside (tick w))) as [[[]|e] g1] eqn:Hd; simpl in *.
  2: { apply ns_delete_failed in Hd as [Hsame _]. split; [intros x _; apply Hsame|].
    split; [intros x n _; apply Hsame|]. by split. }
  pose proof (purge_effect now m t (mkWorld g1 (S (tick w))) id) as Hp.
  destruct (world_purge now m t (mkWorld g1 (S (tick w))) id) as [res w2]. destruct Hp as (_ & _ & Hres). simpl in *.
  assert (Hcont : gone (store w2) id ->
    let '(res, w') := shred_each now m t w2 ids in
    (forall x, x ∉ id :: ids -> ns_node (store w') x = ns_node (store w) x) /\ fades (origin t) (store w) (store w')
    /\ (forall x, gone (store w) x -> gone (store w') x)
    /\ (res = Ok tt -> forall id0, id0 ∈ id :: ids -> gone (store w') id0 /\ owned (store w) (origin t) id0)).
  { intros Hgone. specialize (IH w2). destruct (shred_each now m t w2 ids) as [r w3]. destruct IH as (Ix & If & Ig & Iok).
    split; [intros x [Hne Hin]%not_elem_of_cons; by rewrite Ix, Hx|]. split; [by eapply fades_trans|]. split; [auto|].
    intros Hr y Hy. destruct (decide (y = id)) as [->|Hne]; [split; [auto|by apply Hk]|].
    apply elem_of_cons in Hy as [->|Hy]; [done|]. destruct (Iok Hr y Hy) as (Hgy & n & Hn & Ho). split; [done|].
    exists n. by rewrite <- (Hx y Hne). }
  assert (Hstop : forall e, let '(res, w') := (Err e : Result unit PrivacyError, w2) in
    (forall x, x ∉ id :: ids -> ns_node (store w') x = ns_node (store w) x) /\ fades (origin t) (store w) (store w')
    /\ (forall x, gone (store w) x -> gone (store w') x)
    /\ (res = Ok tt -> forall id0, id0 ∈ id :: ids -> gone (store w') id0 /\ owned (store w) (origin t) id0)).
  { intros e. split; [intros x [Hne _]%not_elem_of_cons; by apply Hx|]. by split_and!. }
  destruct res as [k|e]; [by apply Hcont|]. destruct e; try apply Hstop. exfalso. destruct Hres as [_ Hnf].
  apply ns_delete_done in Hd as (_ & n & Hn & Ho & _). by apply (Hnf eq_refl n).
Qed.

Lemma delete_total now m t w id :
  shredding now m t w -> owned (store w) (origin t) id ->
  exists w1, world_delete outside now m t w id = (Ok tt, w1) /\ owned (store w1) (origin t) id /\ ps_sound (store w1).
Proof.
  intros Hs (n & Hn & Ho). unfold world_delete. pose proof (ps_sound_delete now m t (store w) id (outside (tick w)) (sh_sound _ _ _ _ Hs)) as Hsound.
  pose proof (ns_delete_total now m t (store w) id (outside (tick w)) (sh_write _ _ _ _ Hs) (sh_disk _ _ _ _ Hs _)) as Htot.
  destruct (ns_delete now m t (store w) id (outside (tick w))) as [res g1] eqn:Hd. simpl in *. destruct Htot as [->| ->].
  - eexists. split; [done|]. split; [|done]. apply ns_delete_done in Hd as (_ & n1 & Hn1 & Ho1 & _). by exists n1.
  - apply ns_delete_failed in Hd as [_ Hnf]. by destruct (Hnf eq_refl n).
Qed.

Lemma purge_total now m t w id :
  shredding now m t w -> owned (store w) (origin t) id ->
  exists k w2, world_purge now m t w id = (Ok k, w2) /\ ps_sound (store w2).
Proof.
  intros Hs (n & Hn & Ho). unfold world_purge. pose proof (ps_sound_purge now m t (store w) id (purging (tick w)) (sh_sound _ _ _ _ Hs)) as Hsound.
  pose proof (ps_total now m t (store w) id (purging (tick w)) n (sh_write _ _ _ _ Hs) (sh_log _ _ _ _ Hs _) (sh_sound _ _ _ _ Hs) Hn Ho) as Htot.
  destruct (ps_purge now m t (store w) id (purging (tick w))) as [[k|e] g2]; [|done]. by exists k, (mkWorld g2 (S (tick w))).
Qed.

Lemma shredding_next now m t w w' : shredding now m t w -> ps_sound (store w') -> shredding now m t w'.
Proof. by intros [] ?; split. Qed.

(** A node of the caller's own is gone afterwards, if the disk works. *)
Lemma shred_one_total now m t w id :
  shredding now m t w -> owned (store w) (origin t) id ->
  gone (store (shred_one now m t w id)) id /\ shredding now m t (shred_one now m t w id)
  /\ exists w1 k, world_delete outside now m t w id = (Ok tt, w1) /\ world_purge now m t w1 id = (Ok k, shred_one now m t w id).
Proof.
  intros Hs Ho. destruct (delete_total _ _ _ _ _ Hs Ho) as (w1 & Hd & Ho1 & Hs1).
  destruct (purge_total _ _ _ _ _ (shredding_next _ _ _ _ _ Hs Hs1) Ho1) as (k & w2 & Hp & Hs2).
  unfold shred_one. rewrite Hd. simpl. pose proof (purge_effect now m t w1 id) as Heff. rewrite Hp in *. simpl.
  split; [by apply Heff|]. split; [by eapply shredding_next|]. by exists w1, k.
Qed.

Lemma shred_each_total now m t ids w :
  shredding now m t w -> NoDup ids -> (forall id, id ∈ ids -> owned (store w) (origin t) id) -> (shred_each now m t w ids).1 = Ok tt.
Proof.
  revert w. induction ids as [|id ids IH]; intros w Hs Hnd Hown; [done|]. apply NoDup_cons in Hnd as [Hnin Hnd].
  destruct (shred_one_total _ _ _ _ _ Hs (Hown id ltac:(left))) as (_ & Hs' & w1 & k & Hd & Hp).
  pose proof (shred_one_effect now m t w id) as (Hx & _). cbn [shred_each]. rewrite Hd, Hp. apply IH; try done.
  intros x Hin. destruct (Hown x) as (n & Hn & Ho); [by right|]. exists n. rewrite Hx; [done|]. by intros ->.
Qed.

(** C38. Shredding leaves nothing. It never touches the journal or a node that was
    not named; if it reports success, every node named was the caller's, is gone and
    has no version left to read; if it stops, nodes that were named are as they were or
    hidden from their owner for good; and with the right to write, a working disk and
    nodes that are the caller's own, each named once, it does succeed. *)
Theorem crypto_shred_leaves_nothing now m t s w ids wall :
  let '(res, s', w') := erase now m t s w ids CryptoShred wall in
  s' = s
  /\ (forall x, x ∉ ids -> ns_node (store w') x = ns_node (store w) x)
  /\ (forall id n, live_node (store w') (origin t) id = Some n -> ns_node (store w') id = ns_node (store w) id)
  /\ (forall r, res = Ok r -> r = mkReceipt ids CryptoShred (Some wall) None
        /\ forall id, id ∈ ids -> owned (store w) (origin t) id /\ ns_node (store w') id = None /\ ~ ps_past (store w') id)
  /\ (shredding now m t w -> NoDup ids -> (forall id, id ∈ ids -> owned (store w) (origin t) id) -> is_ok res = true).
Proof.
  unfold erase. destruct (authorize now m t WRITE) as [[]|f] eqn:Ha.
  - pose proof (shred_each_spec now m t ids w) as Hspec. pose proof (shred_each_total now m t ids w) as Htot.
    destruct (shred_each now m t w ids) as [[[]|e] w'] eqn:Hs; destruct Hspec as (Hx & Hf & _ & Hok); simpl in Htot.
    + split; [done|]. split; [done|]. split; [exact Hf|]. split; [|done]. intros r [= <-]. split; [done|]. intros id Hid.
      destruct (Hok eq_refl id Hid) as [[Hn Hp] Ho]. done.
    + split; [done|]. split; [done|]. split; [exact Hf|]. split; [done|]. intros H1' H2' H3'. by specialize (Htot H1' H2' H3').
  - split_and!; try done. intros Hs. pose proof (sh_write _ _ _ _ Hs). congruence.
Qed.

(** ** The sweep *)

Lemma shred_quietly_spec now m t ids w :
  let w' := shred_quietly now m t w ids in
  (forall x, x ∉ ids -> ns_node (store w') x = ns_node (store w) x) /\ fades (origin t) (store w) (store w')
  /\ (forall x, gone (store w) x -> gone (store w') x).
Proof.
  revert w. induction ids as [|id ids IH]; intros w; cbn [shred_quietly]; [by split_and!|].
  pose proof (shred_one_effect now m t w id) as (Hx & Hg & Hf). unfold shred_one in *.
  destruct (IH (world_purge now m t (world_delete outside now m t w id).2 id).2) as (Ix & If & Ig).
  split; [intros x [Hne Hin]%not_elem_of_cons; by rewrite Ix, Hx|]. split; [by eapply fades_trans|]. auto.
Qed.

(** What a quiet shred leaves to do: nodes that are the caller's own, or gone. *)
Definition own_or_gone (g : G) (b : N) (id : NodeId) : Prop := owned g b id \/ gone g id.

Lemma shred_one_quiet now m t w id :
  shredding now m t w -> own_or_gone (store w) (origin t) id ->
  shredding now m t (shred_one now m t w id) /\ gone (store (shred_one now m t w id)) id.
Proof.
  intros Hs [Ho|Hg]; [by destruct (shred_one_total _ _ _ _ _ Hs Ho) as (? & ? & _)|].
  pose proof (shred_one_effect now m t w id) as (_ & Hkeep & _). split; [|by apply Hkeep].
  apply (shredding_next now m t w); [done|]. unfold shred_one, world_purge, world_delete.
  pose proof (ps_sound_delete now m t (store w) id (outside (tick w)) (sh_sound _ _ _ _ Hs)) as H1'.
  destruct (ns_delete _ _ _ _ _ _) as [r1 g1]. simpl in *.
  pose proof (ps_sound_purge now m t g1 id (purging (S (tick w))) H1') as H2'. by destruct (ps_purge _ _ _ _ _ _) as [r2 g2].
Qed.

Lemma shred_quietly_total now m t ids w :
  shredding now m t w -> (forall id, id ∈ ids -> own_or_gone (store w) (origin t) id) ->
  shredding now m t (shred_quietly now m t w ids) /\ forall id, id ∈ ids -> gone (store (shred_quietly now m t w ids)) id.
Proof.
  revert w. induction ids as [|id ids IH]; intros w Hs Hown; [split; [done|]; by intros id ?%not_elem_of_nil|].
  cbn [shred_quietly]. fold (shred_one now m t w id).
  destruct (shred_one_quiet _ _ _ _ _ Hs (Hown id ltac:(left))) as [Hs' Hg']. pose proof (shred_one_effect now m t w id) as (Hx & Hg & _).
  assert (Hown' : forall x, x ∈ ids -> own_or_gone (store (shred_one now m t w id)) (origin t) x).
  { intros x Hin. destruct (decide (x = id)) as [->|Hne]; [by right|]. destruct (Hown x) as [(n & Hn & Ho)|?]; [by right| |right; auto].
    left. exists n. by rewrite Hx. }
  destruct (IH _ Hs' Hown') as [Hs'' Hall]. split; [done|]. intros x [->|Hin]%elem_of_cons; [|auto].
  pose proof (shred_quietly_spec now m t ids (shred_one now m t w id)) as (_ & _ & Hkeep). auto.
Qed.

(** Records the sweep may take: committed soft deletes that are old enough. *)
Definition old_enough (wall grace : N) (a : ActionRecord) : Prop :=
  status a = Committed /\ note a = SOFT_DELETE_NOTE /\ grace <= wall - act_created_at a.

Definition visible (g : G) (b : N) (a : ActionRecord) : Prop := forall id, id ∈ objects_touched a -> is_Some (live_node g b id).

Lemma is_ok_get now m t w id :
  is_ok (ns_get now m t (store w) id) = true <-> authorize now m t READ = Ok tt /\ is_Some (live_node (store w) (origin t) id).
Proof.
  rewrite ns_get_spec. unfold live_node. destruct (authorize now m t READ) as [[]|]; simpl; [|naive_solver].
  destruct (ns_node (store w) id) as [n|]; simpl; [|split; [done|by intros [_ []]]].
  destruct (own_live (origin t) n); simpl; split; try done; by intros [_ []].
Qed.

Lemma lapsed_spec now m t w wall grace a :
  authorize now m t READ = Ok tt ->
  lapsed now m t w wall grace a = true <-> old_enough wall grace a /\ visible (store w) (origin t) a.
Proof.
  intros Hr. unfold lapsed, old_enough, visible. rewrite !andb_true_iff, !bool_decide_eq_true, N.leb_le, forallb_forall.
  setoid_rewrite <- list_elem_of_In. setoid_rewrite is_ok_get. naive_solver.
Qed.

(** The outcome of a sweep over part of the journal. *)
Record swept (now : Instant) (m : M) (t : CapabilityToken) (w : world) (wall grace : N) (l ex : list ActionRecord) (w' : world) : Prop := {
  sw_part : ex `sublist_of` l;
  sw_old : forall a, a ∈ ex -> old_enough wall grace a /\ visible (store w) (origin t) a;
  sw_frame : forall x, x ∉ touched_by ex -> ns_node (store w') x = ns_node (store w) x;
  sw_fades : fades (origin t) (store w) (store w');
  sw_gone : forall x, gone (store w) x -> gone (store w') x;
  sw_shred : shredding now m t w -> shredding now m t w' /\ forall x, x ∈ touched_by ex -> gone (store w') x;
  sw_all : forall a, a ∈ l -> old_enough wall grace a -> visible (store w) (origin t) a ->
    a ∈ ex \/ exists x, x ∈ objects_touched a /\ x ∈ touched_by ex
}.

Lemma visible_fades b g g' a : fades b g g' -> visible g' b a -> visible g b a.
Proof. intros Hf Hv id Hid. destruct (Hv id Hid) as [n Hn]. exists n. by eapply fades_live. Qed.

Lemma swept_skip now m t w wall grace a l ex w' :
  ~ (old_enough wall grace a /\ visible (store w) (origin t) a) -> swept now m t w wall grace l ex w' -> swept now m t w wall grace (a :: l) ex w'.
Proof.
  intros Hno [Hp Ho Hfr Hf Hg Hs Ha]. split; try done; [by constructor|]. intros a' [->|Hin]%elem_of_cons Hold Hv; [naive_solver|auto].
Qed.

Lemma swept_take now m t w wall grace a l ex w' :
  let w1 := shred_quietly now m t w (objects_touched a) in
  old_enough wall grace a -> visible (store w) (origin t) a -> swept now m t w1 wall grace l ex w' ->
  swept now m t w wall grace (a :: l) (a :: ex) w'.
Proof.
  intros w1 Hold Hv [Hp Ho Hfr Hf Hg Hs Ha]. pose proof (shred_quietly_spec now m t (objects_touched a) w) as (Qx & Qf & Qg). fold w1 in Qx, Qf, Qg.
  split.
  - by constructor.
  - intros a' [->|Hin]%elem_of_cons; [done|]. destruct (Ho a' Hin) as [Ho' Hv']. split; [done|]. by eapply visible_fades.
  - intros x Hx. cbn [touched_by mbind list_bind] in Hx. apply not_elem_of_app in Hx as [Hx1 Hx2]. by rewrite Hfr, Qx.
  - by eapply fades_trans.
  - auto.
  - intros Hsh. destruct (shred_quietly_total now m t (objects_touched a) w Hsh) as [Hsh1 Hgone].
    { intros id Hid. left. destruct (Hv id Hid) as [n Hn]. unfold live_node in Hn. destruct (ns_node (store w) id) as [n'|] eqn:Hn'; [|done].
      simpl in Hn. destruct (own_live (origin t) n') eqn:Hol; [|done]. exists n'. split; [done|]. by apply own_live_spec in Hol as [? _]. }
    destruct (Hs Hsh1) as [Hsh2 Hgone2]. split; [done|]. intros x Hx. cbn [touched_by mbind list_bind] in Hx.
    apply elem_of_app in Hx as [Hx|Hx]; [|auto]. apply Hg, Hgone, Hx.
  - intros a' [->|Hin]%elem_of_cons Hold' Hv'; [left; by left|].
    destruct (decide (Exists (fun x => x ∈ objects_touched a) (objects_touched a'))) as [(x & Hx1 & Hx2)%Exists_exists|Hdis].
    + right. exists x. split; [done|]. cbn [touched_by mbind list_bind]. apply elem_of_app. by left.
    + assert (Hv1 : visible (store w1) (origin t) a').
      { intros id Hid. destruct (Hv' id Hid) as [n Hn]. exists n. unfold live_node in *. rewrite Qx; [done|].
        intros Hin'. apply Hdis, Exists_exists. by exists id. }
      destruct (Ha a' Hin Hold' Hv1) as [?|(x & Hx1 & Hx2)]; [left; by right|]. right. exists x. split; [done|].
      cbn [touched_by mbind list_bind]. apply elem_of_app. by right.
Qed.

Lemma expire_committed (s : service) a :
  NoDup (ids_of (actions s)) -> a ∈ actions s -> status a = Committed ->
  expire (AgentError := AgentError) (MemoryError := MemoryError) s (action_id a)
  = (Ok tt, with_actions s (set_all [action_id a] Expired (actions s))).
Proof.
  intros Hnd Ha Hst. unfold expire. destruct (List.find _ (actions s)) as [a'|] eqn:Hf.
  - apply List.find_some in Hf as [Hin Hid%N.eqb_eq]. rewrite <- list_elem_of_In in Hin.
    rewrite (NoDup_ids_inj _ _ _ Hnd Hin Ha Hid), Hst, bool_decide_false by (intros Hx; by apply Hx).
    unfold set_status. rewrite update_first_unique; [done|done|]. by apply list_elem_of_fmap_2.
  - pose proof (List.find_none _ _ Hf a (proj1 (list_elem_of_In _ _) Ha)) as Hn. simpl in Hn. by rewrite N.eqb_refl in Hn.
Qed.

Lemma with_actions_same (s : service) : with_actions s (set_all [] Expired (actions s)) = s.
Proof. rewrite set_all_none. by destruct s. Qed.

Lemma sweep_spec now m t wall grace :
  authorize now m t READ = Ok tt ->
  forall l (s : service) w, NoDup (ids_of (actions s)) -> NoDup (ids_of l) -> (forall a, a ∈ l -> a ∈ actions s) ->
  exists ex w', sweep now m t s w wall grace l = (ids_of ex, with_actions s (set_all (ids_of ex) Expired (actions s)), w')
    /\ swept now m t w wall grace l ex w'.
Proof.
  intros Hr l. induction l as [|a l IH]; intros s w Hnd Hndl Hsub.
  { exists [], w. rewrite with_actions_same. split; [done|]. split; try done; try (by intros x ?%not_elem_of_nil).
    intros Hs. split; [done|]. by intros x ?%not_elem_of_nil. }
  apply NoDup_cons in Hndl as [Hnin Hndl]. fold (ids_of l) in Hnin, Hndl. cbn [sweep].
  destruct (lapsed now m t w wall grace a) eqn:Hl.
  - apply (lapsed_spec _ _ _ _ _ _ _ Hr) in Hl as [Hold Hv]. rewrite expire_committed by (try apply Hold; auto; apply Hsub; left).
    set (s1 := with_actions s (set_all [action_id a] Expired (actions s))).
    destruct (IH s1 (shred_quietly now m t w (objects_touched a))) as (ex & w' & Hsw & Hswept).
    { simpl. by rewrite ids_of_set_all. }
    { done. }
    { intros a' Hin. simpl. unfold set_all. apply list_elem_of_fmap. exists a'. split; [|apply Hsub; by right].
      rewrite bool_decide_false; [done|]. intros Heq%list_elem_of_singleton. apply Hnin. rewrite <- Heq. by apply list_elem_of_fmap_2. }
    rewrite Hsw. exists (a :: ex), w'. split; [|by apply swept_take]. simpl. by rewrite set_all_cons.
  - destruct (IH s w Hnd Hndl) as (ex & w' & Hsw & Hswept); [intros a' Hin; apply Hsub; by right|].
    exists ex, w'. split; [done|]. apply swept_skip; [|done]. rewrite <- (lapsed_spec now m) by done. congruence.
Qed.

(** The sweep shreds the soft deletes whose time is over, and nothing else. By
    someone who may read and write: the actions it reports are committed soft deletes,
    old enough, of nodes that were all visible to the caller; the journal changes by
    their status alone, and none of them can be undone any more; no node they did not
    touch changes, and so none of anyone else's; every node they touched is gone, its
    history too, if the disk works; and a lapsed soft delete of the caller's that is not
    reported shares a node with one that is. *)
Theorem sweep_spares_the_rest now m t (s : service) w wall grace :
  authorize now m t READ = Ok tt -> authorize now m t WRITE = Ok tt -> NoDup (ids_of (actions s)) ->
  exists ex s' w', expire_lapsed_soft_deletes now m t s w wall grace = (Ok (ids_of ex), s', w')
    /\ (forall a, a ∈ ex -> a ∈ actions s /\ old_enough wall grace a /\ visible (store w) (origin t) a)
    /\ s' = with_actions s (set_all (ids_of ex) Expired (actions s))
    /\ (forall a, a ∈ ex -> undo (AgentError := AgentError) (MemoryError := MemoryError) outside now m t s' w' (SingleAction (action_id a))
                            = (Ok NothingToUndo, s', w'))
    /\ (forall x, x ∉ touched_by ex -> ns_node (store w') x = ns_node (store w) x)
    /\ (forall x n, ns_node (store w) x = Some n -> owner n <> origin t -> ns_node (store w') x = Some n)
    /\ (shredding now m t w -> forall x, x ∈ touched_by ex -> ns_node (store w') x = None /\ ~ ps_past (store w') x)
    /\ (forall a, a ∈ actions s -> old_enough wall grace a -> visible (store w) (origin t) a ->
          a ∈ ex \/ exists x, x ∈ objects_touched a /\ x ∈ touched_by ex).
Proof.
  intros Hr Hw Hnd. unfold expire_lapsed_soft_deletes. rewrite Hw.
  destruct (sweep_spec now m t wall grace Hr (actions s) s w Hnd Hnd ltac:(done)) as (ex & w' & Hsw & Hs). unfold action_records. rewrite Hsw.
  exists ex. eexists _, w'. split; [done|]. destruct Hs as [Hp Ho Hfr Hf Hg Hsh Ha].
  assert (Hin : forall a, a ∈ ex -> a ∈ actions s) by (intros a Hx; by eapply elem_of_sublist).
  split; [by intros a Hx; split; [auto|apply Ho]|]. split; [done|]. split.
  { intros a Hx. rewrite undo_unfold. unfold Recovery.require. rewrite Hw. cbn [map_err]. cbv zeta.
    replace (candidates_for Committed _ _) with ([] : list ActionRecord); [done|]. symmetry. apply filter_none, Forall_forall.
    intros a' (a0 & -> & Ha0)%list_elem_of_fmap.
    destruct (bool_decide (action_id a0 ∈ ids_of ex)) eqn:Hid; [done|]. apply bool_decide_eq_false in Hid. cbn [in_scope].
    destruct (N.eqb_spec (action_id a0) (action_id a)) as [Heq|]; [|apply andb_false_r]. destruct Hid. rewrite Heq. by apply list_elem_of_fmap_2. }
  split; [done|]. split.
  { intros x n Hn Hne. rewrite Hfr; [done|]. intros (a & Hx & Hid)%elem_of_touched_by. destruct (Ho a Hx) as [_ Hv].
    destruct (Hv x Hid) as [n' Hn']. unfold live_node in Hn'. rewrite Hn in Hn'. simpl in Hn'.
    destruct (own_live (origin t) n) eqn:Hol; [|done]. by apply own_live_spec in Hol as [? _]. }
  split; [intros Hshr; exact (proj2 (Hsh Hshr))|done].
Qed.
End erasure.

(** ** Concrete erasures *)
Module ErasureExample.
Import Crypto.Toy Wal.ToyRecords Storage.StorageExample KnowledgeGraph.GraphExample RecoveryExample.

#[export] Instance purge_instance : PurgeStore N graph WriteEnv PurgeEnv (M := unit) := graph_purge_store value_of.

Definition value_99 (_ : Json) : N := 99.
Definition rewriting (_ : nat) : PurgeEnv := mkPurgeEnv nonces Compacted.
Definition erase_as (t : CapabilityToken) (s : service) (w : world) (ids : list N) (mode : ErasureMode) (wall : N) :=
  erase (AgentError := unit) (MemoryError := unit) value_99 inputs rewriting 0 tt t s w ids mode wall.
Definition sweep_as (t : CapabilityToken) (s : service) (w : world) (wall grace : N) :=
  expire_lapsed_soft_deletes (AgentError := unit) (MemoryError := unit) inputs rewriting 0 tt t s w wall grace.
Definition restored (s : service) (w : world) (p : N) : world :=
  (restore_to (AgentError := unit) (MemoryError := unit) inputs 0 tt alice s w p).2.

(** A purge takes the mark of a deleted node away with the node, so a recovery point
    from before brings back what was shredded. *)
Example shredded_node_comes_back :
  let '(res, s, w) := erase_as alice (point new world0 [0]) world0 [0] CryptoShred 10 in
  is_ok res = true /\ value w 0 = None /\ value (restored s w 1) 0 = Some 5.
Proof. vm_compute. done. Qed.

(** The same after the time to undo a soft delete is over: it cannot be undone, and
    its recovery point can be restored. *)
Example expired_soft_delete_comes_back :
  let '(_, s1, w1) := erase_as alice new world0 [0] SoftDelete 10 in
  let '(res, s2, w2) := sweep_as alice s1 w1 100 60 in
  res = Ok [1] /\ value w1 0 = Some 99 /\ value w2 0 = None
  /\ (undo (AgentError := unit) (MemoryError := unit) inputs 0 tt alice s2 w2 (SingleAction 1)).1.1 = Ok NothingToUndo
  /\ value (restored s2 w2 1) 0 = Some 5.
Proof. vm_compute. done. Qed.

(** A soft delete that stops half way has overwritten nodes under an action that was
    never committed, which undo does not see. *)
Example half_a_soft_delete_cannot_be_undone :
  let theirs := (world_put inputs 0 tt mallory world0 50 [110] None 8).2 in
  let '(res, s, w) := erase_as alice new theirs [0; 50] SoftDelete 10 in
  is_ok res = false /\ value theirs 0 = Some 5 /\ value w 0 = Some 99
  /\ (undo (AgentError := unit) (MemoryError := unit) inputs 0 tt alice s w (SingleAction 1)).1.1 = Ok NothingToUndo.
Proof. vm_compute. done. Qed.

(** The sweep of another boundary leaves it alone. *)
Example sweep_of_a_stranger :
  let '(_, s1, w1) := erase_as alice new world0 [0] SoftDelete 10 in
  let '(res, s2, w2) := sweep_as mallory s1 w1 100 60 in
  res = Ok [] /\ value w2 0 = Some 99 /\ status <$> actions s2 = [Committed].
Proof. vm_compute. done. Qed.

Definition softly : service := (erase_as alice new world0 [0] SoftDelete 10).1.2.
Definition hidden : world := (erase_as alice new world0 [0] SoftDelete 10).2.

End ErasureExample.
Import Crypto.Toy Wal.ToyRecords Storage.StorageExample KnowledgeGraph.GraphExample RecoveryExample ErasureExample.

Lemma soft_delete_round_trip_witness :
  exists s1 w1 s2 w2 r,
    erase_as alice new world0 [0] SoftDelete 10 = (Ok r, s1, w1)
    /\ undo (AgentError := unit) (MemoryError := unit) inputs 0 tt alice s1 w1 (SingleAction 1) = (Ok (UndoTargeted [1]), s2, w2)
    /\ seen (store w2) 7 0 = seen (store world0) 7 0.
Proof.
  assert (Hd : dead (store world0) 0 = false) by (vm_compute; reflexivity).
  assert (Hown : owner <$> ns_node (store world0) 0 = Some 7) by (vm_compute; reflexivity).
  unfold erase_as. revert Hd Hown. generalize world0. intros w Hd Hown.
  destruct (soft_delete_round_trip (AgentError := unit) (MemoryError := unit) value_99 inputs rewriting 0 tt alice (new : service) w [0] 10)
    as (s1 & w1 & s2 & w2 & He & _ & _ & Hu & Hs & _).
  - split; [reflexivity|reflexivity|apply inputs_ok|constructor|..].
    + intros a Ha. by apply not_elem_of_nil in Ha.
    + intros id n Hid Hn. apply list_elem_of_singleton in Hid. subst id. rewrite Hn in Hown. by injection Hown.
    + intros id Hid. apply list_elem_of_singleton in Hid. subst id. exact Hd.
    + intros a id Ha. by apply not_elem_of_nil in Ha.
  - exists s1, w1, s2, w2. eexists. split; [exact He|]. split; [exact Hu|]. apply Hs. left.
Defined.

Lemma sweep_spares_the_rest_witness :
  exists ex s' w', sweep_as alice softly hidden 100 60 = (Ok (ids_of ex), s', w') /\ ns_node (store w') 1 = ns_node (store hidden) 1.
Proof.
  assert (Hids : ids_of (actions softly) = [1]) by (vm_compute; reflexivity).
  assert (Htouch : touched_by (actions softly) = [0]) by (vm_compute; reflexivity).
  unfold sweep_as. revert Hids Htouch. generalize softly. generalize hidden. intros w s Hids Htouch.
  destruct (sweep_spares_the_rest (AgentError := unit) (MemoryError := unit) inputs rewriting 0 tt alice s w 100 60)
    as (ex & s' & w' & He & Hin & _ & _ & Hframe & _); [reflexivity|reflexivity|rewrite Hids; apply NoDup_singleton|].
  exists ex, s', w'. split; [exact He|]. apply Hframe. intros Hx. apply elem_of_touched_by in Hx as (a & Ha & Hid).
  assert (H1 : 1 ∈ touched_by (actions s)) by (apply elem_of_touched_by; exists a; split; [apply Hin; exact Ha|exact Hid]).
  rewrite Htouch in H1. apply list_elem_of_singleton in H1. discriminate.
Defined.
