(* ===== verification/Security.v ===== *)
(** Risk assessment: [crates/hyperion-security/src], [types.rs], [engine.rs],
    [provenance.rs] and [model_integrity.rs].

    What an action may do before someone is asked, how much a node of the graph is
    trusted, and whether a model may replace another. Scores are IEEE single
    precision, with the constants of the code. The descriptor of a model and its
    signature are those of [hyperion-ai-runtime] ([types.rs], [registry.rs]). *)
From S2P Require Import Prelude Crypto Capability Authority Wal Storage DebugFmt Events F32 F32Facts Json KnowledgeGraph NodeStore Recovery Explainability.
From Stdlib Require Import SpecFloat.
Open Scope N_scope.

(** ** types.rs *)

Inductive InterventionLevel : Type := SilentProceed | NotifyAndProceed | RequireExplicitConfirm | RequireBackupFirst.

#[export] Instance intervention_level_eq_dec : EqDecision InterventionLevel.
Proof. solve_decision. Defined.

(** The derived order. *)
Definition level_rank (l : InterventionLevel) : N :=
  match l with SilentProceed => 0 | NotifyAndProceed => 1 | RequireExplicitConfirm => 2 | RequireBackupFirst => 3 end.

Definition level_max (a b : InterventionLevel) : InterventionLevel := if level_rank a <=? level_rank b then b else a.

Inductive SensitivityHint : Type := HintPublic | HintPersonal | HintSensitive | HintRestricted.

Definition hint_rank (h : SensitivityHint) : N :=
  match h with HintPublic => 0 | HintPersonal => 1 | HintSensitive => 2 | HintRestricted => 3 end.

Definition hint_max (a b : SensitivityHint) : SensitivityHint := if hint_rank a <=? hint_rank b then b else a.

Definition hint_score (h : SensitivityHint) : f32 :=
  match h with
  | HintPublic => f32_zero
  | HintPersonal => f32_lit 4 10
  | HintSensitive => f32_lit 75 100
  | HintRestricted => f32_one
  end.

Inductive OriginType : Type := UserDirect | OriginIngested | SystemDerived.

Record ProvenanceNode := mkProvenance {
  origin_type : OriginType;
  user_confirmed : bool
}.

Record IntentProvenanceChain := mkChain {
  chain_action : N;
  originating_intent_id : N;
  derivation_path : list ProvenanceNode
}.

Definition is_tainted (c : IntentProvenanceChain) : bool :=
  existsb (fun n => match origin_type n with OriginIngested => negb (user_confirmed n) | _ => false end) (derivation_path c).

Record PendingAction := mkPending {
  pending_id : N;
  object_refs : list NodeId;
  scope_size : N;
  reversible : bool;
  hint : SensitivityHint;
  intent_confidence : f32;
  corroboration : f32;
  provenance : option IntentProvenanceChain
}.

Record RiskAssessment := mkAssessment {
  assessed_id : N;
  blast_radius_score : f32;
  reversibility_score : f32;
  sensitivity_score : f32;
  confidence_score : f32;
  corroboration_score : f32;
  composite_score : f32;
  intervention_level : InterventionLevel;
  rationale : list N;
  recovery_point_ref : option RecoveryPointId
}.

Inductive CanaryResult : Type :=
| CanaryPass
| CanaryFail (drift_millipoints : N)
| IntegrityMismatch.

Inductive PromotionStatus : Type := Blocked | Promoted.

Record ModelIntegrityRecord := mkIntegrity {
  integrity_model : N;
  signature_verified : bool;
  canary_result : CanaryResult;
  promotion_status : PromotionStatus
}.

(** ** engine.rs *)

Definition SILENT_MAX : f32 := f32_lit 2 10.
Definition NOTIFY_MAX : f32 := f32_lit 45 100.
Definition CONFIRM_MAX : f32 := f32_lit 75 100.
Definition BLAST_RADIUS_SATURATION : f32 := f32_of_N 10.

Definition level_for_score (score : f32) : InterventionLevel :=
  if f32_ltb score SILENT_MAX then SilentProceed
  else if f32_ltb score NOTIFY_MAX then NotifyAndProceed
  else if f32_ltb score CONFIRM_MAX then RequireExplicitConfirm
  else RequireBackupFirst.

Definition score_blast_radius (a : PendingAction) : f32 :=
  f32_min (f32_div (f32_of_N (scope_size a)) BLAST_RADIUS_SATURATION) f32_one.

Definition score_reversibility (a : PendingAction) : f32 := if reversible a then f32_one else f32_zero.

(** [{:.2}] of a float: the nearest hundredth, ties to the even one. *)
Definition two_digits (n : N) : list N := [48 + n / 10; 48 + n mod 10].
Definition hundredths (q : N) : list N := debug_u64 (q / 100) ++ lit "." ++ two_digits (q mod 100).
Definition fmt_2 (x : f32) : list N :=
  match x with
  | S754_nan => lit "NaN"
  | S754_infinity s => sign_text s ++ lit "inf"
  | S754_zero s => sign_text s ++ hundredths 0
  | S754_finite s m e => sign_text s ++ hundredths (round_half_even (m * 100) e)
  end.

(** The weighted sum of [assess]. *)
Definition composite (blast revers sensit conf corrob : f32) : f32 :=
  let term a b x := f32_mul (f32_lit a b) x in
  let sum := f32_add (term 30 100 blast) (term 25 100 (f32_sub f32_one revers)) in
  let sum := f32_add sum (term 20 100 sensit) in
  let sum := f32_add sum (term 15 100 (f32_sub f32_one conf)) in
  let sum := f32_sub sum (term 10 100 corrob) in
  f32_clamp sum f32_zero f32_one.

Definition tainted (a : PendingAction) : bool := is_some_and (provenance a) is_tainted.

Definition irreversible_and_wide (a : PendingAction) : bool :=
  f32_leb (score_reversibility a) (f32_lit 5 100) && f32_leb (f32_lit 8 10) (score_blast_radius a).

Definition assess (a : PendingAction) : RiskAssessment :=
  let blast := score_blast_radius a in
  let revers := score_reversibility a in
  let sensit := hint_score (hint a) in
  let conf := f32_clamp (intent_confidence a) f32_zero f32_one in
  let corrob := f32_clamp (corroboration a) f32_zero f32_one in
  let comp := composite blast revers sensit conf corrob in
  let floor := if tainted a then RequireExplicitConfirm else SilentProceed in
  let floor := if irreversible_and_wide a then level_max floor RequireBackupFirst else floor in
  let level := level_max (level_for_score comp) floor in
  let why :=
    lit "composite=" ++ fmt_2 comp ++ lit " (blast=" ++ fmt_2 blast ++ lit ", reversibility=" ++ fmt_2 revers
    ++ lit ", sensitivity=" ++ fmt_2 sensit ++ lit ", confidence=" ++ fmt_2 conf ++ lit ", corroboration=" ++ fmt_2 corrob ++ lit ")"
    ++ (if tainted a then lit "; tainted provenance floors at require-explicit-confirm" else [])
    ++ (if irreversible_and_wide a then lit "; irreversible+wide-blast-radius floors at require-backup-first" else []) in
  mkAssessment (pending_id a) blast revers sensit conf corrob comp level why None.

Definition cross_agent_delegation_verify (_sender_claimed : RiskAssessment) (receiver_action : PendingAction) : RiskAssessment :=
  assess receiver_action.

Definition with_point (r : RiskAssessment) (p : RecoveryPointId) : RiskAssessment :=
  mkAssessment (assessed_id r) (blast_radius_score r) (reversibility_score r) (sensitivity_score r) (confidence_score r)
    (corroboration_score r) (composite_score r) (intervention_level r) (rationale r) (Some p).

Section engine.
Context {V G Env M : Type} `{NodeStore V G Env (M := M)}.
Context {AgentError MemoryError Mem : Type}.

Abbreviation service := (RecoveryService (V := V) (Mem := Mem)).
Abbreviation RError := (RecoveryError (AgentError := AgentError) (MemoryError := MemoryError)).
Abbreviation world := (World (G := G)).

Inductive SecurityError : Type := SecurityUnauthorized | SecurityRecovery (e : RError).

Definition all_verified (now : Instant) (m : M) (t : CapabilityToken) (w : world) (a : PendingAction) : bool :=
  forallb (fun id => is_ok (ns_get now m t (store w) id)) (object_refs a).

Definition verify_action (now : Instant) (m : M) (t : CapabilityToken) (w : world) (a : PendingAction) : PendingAction :=
  let size := N.of_nat (length (object_refs a)) mod two32 in
  if all_verified now m t w a
  then mkPending (pending_id a) (object_refs a) size (reversible a) (hint a) (intent_confidence a) (corroboration a) (provenance a)
  else mkPending (pending_id a) (object_refs a) size false (hint_max (hint a) HintSensitive) (intent_confidence a) (corroboration a)
         (provenance a).

Definition assess_and_prepare (now : Instant) (m : M) (t : CapabilityToken) (s : service) (w : world) (a : PendingAction) (wall : N) :
    Result RiskAssessment SecurityError * service :=
  match authorize now m t EXEC with
  | Err _ => (Err SecurityUnauthorized, s)
  | Ok _ =>
      let verified := verify_action now m t w a in
      let r := assess verified in
      if bool_decide (intervention_level r = RequireBackupFirst) then
        match recovery_point_create (AgentError := AgentError) (MemoryError := MemoryError) now m t s w PreRiskyAction
                (object_refs verified) wall with
        | (Err e, s) => (Err (SecurityRecovery e), s)
        | (Ok p, s) => (Ok (with_point r p), s)
        end
      else (Ok r, s)
  end.
End engine.

(** ** provenance.rs *)

Definition CORROBORATION_SATURATION : f32 := f32_of_N 5.
Definition CORROBORATION_MAX_BONUS : f32 := f32_lit 3 10.
Definition AGE_MATURITY_SECS : f32 := f32_mul (f32_of_N 24) (f32_of_N 3600).
Definition AGE_MAX_BONUS : f32 := f32_lit 15 100.
Definition MIN_TRUST_SCORE : f32 := f32_lit 5 10.

Definition origin_base_score (o : NodeOrigin) : f32 :=
  match o with
  | UserAuthored => f32_one
  | AgentGenerated => f32_lit 85 100
  | SyncedRemote => f32_lit 65 100
  | IngestedExternal => f32_lit 4 10
  end.

Definition corroboration_bonus (count : N) : f32 :=
  f32_mul (f32_min (f32_div (f32_of_N count) CORROBORATION_SATURATION) f32_one) CORROBORATION_MAX_BONUS.

Definition age_bonus (created now : N) : f32 :=
  f32_mul (f32_min (f32_div (f32_of_N (now - created)) AGE_MATURITY_SECS) f32_one) AGE_MAX_BONUS.

Definition kg_trust_score {V : Type} (n : NodeRecord (V := V)) (now : N) : f32 :=
  let raw := f32_add (f32_add (origin_base_score (node_origin n)) (corroboration_bonus (corroboration_count n)))
               (age_bonus (KnowledgeGraph.created_at n) now) in
  f32_clamp raw MIN_TRUST_SCORE f32_one.

(** ** model_integrity.rs *)

Inductive ModelClass : Type := Slm | Lrm | Vision | Speech | Coding | Planning.
Inductive Precision : Type := Int4 | Int8 | Fp16.

Record QuantizedVariant := mkVariant {
  precision : Precision;
  footprint_mb : N;
  expected_tokens_per_sec : f32
}.

Definition class_code (c : ModelClass) : N :=
  match c with Slm => 0 | Lrm => 1 | Vision => 2 | Speech => 3 | Coding => 4 | Planning => 5 end.
Definition precision_code (p : Precision) : N := match p with Int4 => 0 | Int8 => 1 | Fp16 => 2 end.

Definition f32_abs : f32 -> f32 := SFabs.

(** [x as u32]: towards zero, within the range, a NaN as zero. *)
Definition f32_to_u32 (x : f32) : N :=
  match x with
  | S754_nan | S754_zero _ => 0
  | S754_infinity s => if s then 0 else U32_MAX
  | S754_finite s m e => if s then 0 else N.min (Z.to_N (if (0 <=? e)%Z then Z.pos m * 2 ^ e else Z.pos m / 2 ^ (- e))) U32_MAX
  end.

Section integrity.
Context `{Signatures}.

Record ModelDescriptor := mkModel {
  model_id : N;
  model_class : ModelClass;
  variants : list QuantizedVariant;
  model_signature : option Signature
}.

Definition variant_bytes (v : QuantizedVariant) : list N := le_bytes 8 (footprint_mb v) ++ le_bytes 8 (precision_code (precision v)).

Definition model_bytes (d : ModelDescriptor) : list N :=
  le_bytes 8 (model_id d) ++ le_bytes 8 (class_code (model_class d)) ++ (variants d ≫= variant_bytes).

Definition sign_model (d : ModelDescriptor) (k : SigningKey) : Signature := sign k (model_bytes d).

Definition verify_model (d : ModelDescriptor) (vk : VerifyingKey) : bool :=
  match model_signature d with Some s => verify (model_bytes d) s vk | None => false end.

Definition canary_gate_model_promotion (d : ModelDescriptor) (candidate_score baseline_score max_drift : f32) (vk : VerifyingKey) :
    ModelIntegrityRecord :=
  if negb (verify_model d vk) then mkIntegrity (model_id d) false IntegrityMismatch Blocked
  else
    let drift := f32_abs (f32_sub baseline_score candidate_score) in
    if f32_ltb max_drift drift
    then mkIntegrity (model_id d) true (CanaryFail (f32_to_u32 (f32_mul drift (f32_of_N 1000)))) Blocked
    else mkIntegrity (model_id d) true CanaryPass Promoted.
End integrity.

(** ** Assessments *)

Lemma level_max_left a b : level_rank a <= level_rank (level_max a b).
Proof. unfold level_max. destruct (N.leb_spec (level_rank a) (level_rank b)); lia. Qed.

Lemma level_max_right a b : level_rank b <= level_rank (level_max a b).
Proof. unfold level_max. destruct (N.leb_spec (level_rank a) (level_rank b)); lia. Qed.

Lemma level_max_low a : level_max a SilentProceed = a.
Proof. by destruct a. Qed.

Lemma level_top a : level_rank RequireBackupFirst <= level_rank a -> a = RequireBackupFirst.
Proof. by destruct a. Qed.

(** What is not a number stays so, and is the most severe. *)
Lemma f32_add_nan_r a : f32_add a S754_nan = S754_nan.
Proof. by destruct a. Qed.
Lemma f32_add_nan_l a : f32_add S754_nan a = S754_nan.
Proof. done. Qed.
Lemma f32_sub_nan_r a : f32_sub a S754_nan = S754_nan.
Proof. by destruct a. Qed.
Lemma f32_mul_nan_r a : f32_mul a S754_nan = S754_nan.
Proof. by destruct a. Qed.

Lemma nan_level blast revers sensit conf corrob :
  conf = S754_nan \/ corrob = S754_nan -> level_for_score (composite blast revers sensit conf corrob) = RequireBackupFirst.
Proof.
  intros [-> | ->]; unfold composite; cbv zeta.
  - by rewrite f32_sub_nan_r, f32_mul_nan_r, f32_add_nan_r.
  - by rewrite f32_mul_nan_r, f32_sub_nan_r.
Qed.

(** The floors of a risk assessment hold. Whatever the scores, an action of
    tainted provenance needs at least an explicit confirmation, and one that cannot be
    undone and reaches far needs a backup first; no corroboration, confidence or claim
    of another agent lowers that, and what is not a number counts as the worst. With
    neither floor the level is that of the composite score. *)
Theorem assessment_floors a :
  let r := assess a in
  level_rank (level_for_score (composite_score r)) <= level_rank (intervention_level r)
  /\ (tainted a = true -> level_rank RequireExplicitConfirm <= level_rank (intervention_level r))
  /\ (irreversible_and_wide a = true -> intervention_level r = RequireBackupFirst)
  /\ (tainted a = false -> irreversible_and_wide a = false -> intervention_level r = level_for_score (composite_score r))
  /\ (is_nan (intent_confidence a) = true \/ is_nan (corroboration a) = true -> intervention_level r = RequireBackupFirst)
  /\ forall claimed, cross_agent_delegation_verify claimed a = r.
Proof.
  intros r. unfold r, assess. cbv zeta. cbn [composite_score intervention_level].
  set (comp := level_for_score _). set (floor := if irreversible_and_wide a then _ else _).
  split; [apply level_max_left|]. split; [|split; [|split; [|split; [|done]]]].
  - intros Ht. etrans; [|apply level_max_right]. unfold floor. rewrite Ht. destruct (irreversible_and_wide a); [apply level_max_left|done].
  - intros Hw. apply level_top. etrans; [|apply level_max_right]. unfold floor. rewrite Hw. apply level_max_right.
  - intros Ht Hw. unfold floor. rewrite Ht, Hw. apply level_max_low.
  - intros Hnan. apply level_top. etrans; [|apply level_max_left]. unfold comp. rewrite nan_level; [done|].
    destruct Hnan as [Hn|Hn]; [left|right]; [by destruct (intent_confidence a)|by destruct (corroboration a)].
Qed.

(** The same action with other claims. *)
Definition claiming (n : N) (rv : bool) (a : PendingAction) : PendingAction :=
  mkPending (pending_id a) (object_refs a) n rv (hint a) (intent_confidence a) (corroboration a) (provenance a).

Section prepare.
Context {V G Env M : Type} `{NodeStore V G Env (M := M)}.
Context {AgentError MemoryError Mem : Type}.
Abbreviation prepare := (assess_and_prepare (AgentError := AgentError) (MemoryError := MemoryError) (Mem := Mem)).

Lemma hint_max_right a b : hint_rank b <= hint_rank (hint_max a b).
Proof. unfold hint_max. destruct (N.leb_spec (hint_rank a) (hint_rank b)); lia. Qed.

(** An action that needs a backup has one before it is allowed. The assessment
    is that of the verified action: the number of objects is counted, not claimed, and
    if one of them is not there for the caller to read, claims that the action can be
    undone are ignored and the data counts as sensitive at least. When the level is
    to back up first, an assessment is only given together with a recovery point that
    holds what every object of the action is at that moment; otherwise, and on every
    failure, nothing is recorded. *)
Theorem risky_actions_are_backed_up now m t s w a wall :
  let '(res, s') := prepare now m t s w a wall in
  let v := verify_action now m t w a in
  (match res with
   | Ok r =>
       authorize now m t EXEC = Ok tt /\ intervention_level r = intervention_level (assess v)
       /\ (intervention_level r = RequireBackupFirst ->
             recovery_point_ref r = Some (next_point_id s)
             /\ snapshots s' !! next_point_id s = Some (capturing (store w) (origin t) (object_refs a)))
       /\ (intervention_level r <> RequireBackupFirst -> s' = s /\ recovery_point_ref r = None)
   | Err _ => s' = s
   end)
  /\ (forall n, prepare now m t s w (claiming n (reversible a) a) wall = (res, s'))
  /\ (all_verified now m t w a = false ->
        (forall n rv, prepare now m t s w (claiming n rv a) wall = (res, s'))
        /\ reversible v = false /\ hint_rank HintSensitive <= hint_rank (hint v)).
Proof.
  destruct (prepare now m t s w a wall) as [res s'] eqn:Hp.
  assert (Hclaim : forall n rv, all_verified now m t w a = false \/ rv = reversible a ->
                   prepare now m t s w (claiming n rv a) wall = (res, s')).
  { intros n rv Hrv. rewrite <- Hp. unfold assess_and_prepare. destruct (authorize now m t EXEC); [|done].
    assert (Hv : verify_action now m t w (claiming n rv a) = verify_action now m t w a); [|by rewrite Hv].
    unfold verify_action, all_verified. simpl. fold (all_verified now m t w a). destruct Hrv as [-> | ->]; [done|].
    by destruct (all_verified now m t w a). }
  split; [|split].
  - unfold assess_and_prepare in Hp. destruct (authorize now m t EXEC) as [[]|] eqn:Ha; [|by injection Hp as <- <-].
    assert (Hrefs : object_refs (verify_action now m t w a) = object_refs a) by (unfold verify_action; by destruct (all_verified _ _ _ _ _)).
    case_bool_decide as Hl; [|by injection Hp as <- <-].
    unfold recovery_point_create in Hp. destruct (Recovery.require now m t WRITE); [|by injection Hp as <- <-].
    destruct (snapshot_objects now m t w _) as [sn|e] eqn:Hsn; [|by injection Hp as <- <-]. injection Hp as <- <-.
    split; [done|]. split; [done|]. split; [|by intros []]. intros _. split; [done|]. simpl. rewrite lookup_insert_eq.
    apply snapshot_objects_ok in Hsn as ->. by rewrite Hrefs.
  - intros n. apply Hclaim. by right.
  - intros Hnv. split; [intros n rv; apply Hclaim; by left|]. unfold verify_action. rewrite Hnv. split; [done|]. apply hint_max_right.
Qed.
End prepare.

(** ** Trust *)

Lemma f32_cmp_swap a b : f32_cmp b a = CompOpp <$> f32_cmp a b.
Proof.
  destruct a as [sa|[]| |[] ma ea], b as [sb|[]| |[] mb eb]; try done; simpl.
  - rewrite (Z.compare_antisym ea eb). destruct (ea ?= eb)%Z; try done. simpl.
    rewrite (Pos.compare_antisym ma mb : Pos.compare_cont Eq mb ma = _). unfold Pos.compare. by destruct (Pos.compare_cont Eq ma mb).
  - rewrite (Z.compare_antisym ea eb). destruct (ea ?= eb)%Z; try done. simpl.
    rewrite (Pos.compare_antisym ma mb : Pos.compare_cont Eq mb ma = _). unfold Pos.compare. by destruct (Pos.compare_cont Eq ma mb).
Qed.

Lemma f32_cmp_total a b : is_nan a = false -> is_nan b = false -> is_Some (f32_cmp a b).
Proof.
  destruct a as [sa|[]| |[] ma ea], b as [sb|[]| |[] mb eb]; try done; intros _ _; simpl; try (by eexists);
    destruct (ea ?= eb)%Z; by eexists.
Qed.

Lemma f32_not_below a b : is_nan a = false -> is_nan b = false -> f32_ltb a b = false -> f32_leb b a = true.
Proof.
  intros Ha Hb. destruct (f32_cmp_total a b Ha Hb) as [c Hc]. unfold f32_leb, f32_ltb, f32_eqb.
  rewrite (f32_cmp_swap a b), Hc. by destruct c.
Qed.

Lemma f32_clamp_bounds x lo hi :
  is_nan x = false -> is_nan lo = false -> is_nan hi = false -> f32_leb lo hi = true -> f32_leb lo lo = true -> f32_leb hi hi = true ->
  f32_leb lo (f32_clamp x lo hi) = true /\ f32_leb (f32_clamp x lo hi) hi = true.
Proof.
  intros Hx Hlo Hhi Hle Hl Hh. unfold f32_clamp. destruct (f32_ltb x lo) eqn:H1; [done|].
  destruct (f32_ltb hi x) eqn:H2; [done|]. split; by apply f32_not_below.
Qed.

(** A number that is not negative, kept at one at most. *)
Lemma f32_min_one x : nonneg x -> is_finite (f32_min x f32_one) = true /\ nonneg (f32_min x f32_one).
Proof.
  intros Hx. unfold f32_min. rewrite (nonneg_not_nan x Hx). destruct (f32_ltb f32_one x) eqn:H; [done|].
  by destruct x as [|[]| |[]].
Qed.

Lemma bonus_nonneg n d max :
  match d with S754_finite false _ _ => True | _ => False end -> is_finite max = true -> nonneg max ->
  nonneg (f32_mul (f32_min (f32_div (f32_of_N n) d) f32_one) max).
Proof.
  intros Hd Hm Hn. destruct d as [| | |[] md ed]; try done.
  destruct (f32_min_one (f32_div (f32_of_N n) (S754_finite false md ed))) as [H1 H2];
    [apply f32_div_nonneg, f32_of_N_nonneg|]. by apply f32_mul_nonneg.
Qed.

(** The trust score of a node is a number between one half and one, whatever its
    origin, however often it was corroborated and however old it is: for every value
    the two counters can hold and every time of the clock. *)
Theorem trust_score_bounds {V : Type} (n : NodeRecord (V := V)) now :
  is_nan (kg_trust_score n now) = false
  /\ f32_leb MIN_TRUST_SCORE (kg_trust_score n now) = true /\ f32_leb (kg_trust_score n now) f32_one = true.
Proof.
  assert (Hraw : forall b c a, is_nan (f32_add (f32_add (origin_base_score b) (corroboration_bonus c)) (age_bonus a now)) = false).
  { intros b c a. apply nonneg_not_nan, f32_add_nonneg; [apply f32_add_nonneg|].
    - by destruct b.
    - by apply bonus_nonneg.
    - by apply bonus_nonneg. }
  specialize (Hraw (node_origin n) (corroboration_count n) (KnowledgeGraph.created_at n)).
  unfold kg_trust_score. split; [|by apply f32_clamp_bounds].
  unfold f32_clamp. by repeat case_match.
Qed.

(** ** Promotion *)

(** A model is promoted exactly when its signature is that of its identity, class and
    variants, and its score is not measured to drift; a blocked one says why. *)
Lemma canary_gate_spec `{Signatures} d candidate baseline max vk :
  let r := canary_gate_model_promotion d candidate baseline max vk in
  (promotion_status r = Promoted <->
     verify_model d vk = true /\ f32_ltb max (f32_abs (f32_sub baseline candidate)) = false)
  /\ (promotion_status r = Promoted <-> canary_result r = CanaryPass)
  /\ signature_verified r = verify_model d vk.
Proof.
  simpl. unfold canary_gate_model_promotion. destruct (verify_model d vk); simpl; [|naive_solver].
  destruct (f32_ltb _ _); naive_solver.
Qed.

Module SecurityExample.
Import Crypto.Toy.

Definition plain (n : N) (rev : bool) (conf corr : f32) (p : option IntentProvenanceChain) : PendingAction :=
  mkPending 1 [] n rev HintPublic conf corr p.

Definition model : ModelDescriptor := mkModel 4 Slm [mkVariant Int8 700 f32_one] None.
Definition signed : ModelDescriptor := mkModel 4 Slm [mkVariant Int8 700 f32_one] (Some (sign_model model 3)).

(** Corroboration lowers the score below the band of backups, and the floor holds. *)
Example corroboration_does_not_lower_the_floor :
  let r := assess (plain 10 false f32_one f32_one None) in
  level_for_score (composite_score r) = RequireExplicitConfirm /\ intervention_level r = RequireBackupFirst
  /\ f32_ltb (composite_score r) CONFIRM_MAX = true.
Proof. vm_compute. done. Qed.

Example small_reversible_action : intervention_level (assess (plain 1 true f32_one f32_zero None)) = SilentProceed.
Proof. vm_compute. done. Qed.

(** A confidence that is not a number asks for the most. *)
Example confidence_that_is_no_number : intervention_level (assess (plain 1 true S754_nan f32_zero None)) = RequireBackupFirst.
Proof. vm_compute. done. Qed.

(** A candidate that drifts is blocked; one whose score is not a number is not. *)
Example score_that_is_no_number_is_promoted :
  promotion_status (canary_gate_model_promotion signed (f32_lit 5 10) f32_one (f32_lit 1 10) 3) = Blocked
  /\ promotion_status (canary_gate_model_promotion signed S754_nan f32_one (f32_lit 1 10) 3) = Promoted
  /\ promotion_status (canary_gate_model_promotion model f32_one f32_one (f32_lit 1 10) 3) = Blocked.
Proof. vm_compute. done. Qed.

(** The declared speed of a variant is not part of what is signed. *)
Example speed_is_not_signed :
  verify_model (mkModel 4 Slm [mkVariant Int8 700 (f32_of_N 9000)] (model_signature signed)) 3 = true.
Proof. vm_compute. done. Qed.
End SecurityExample.
