(* ===== verification/Supervisor.v ===== *)
(** The supervision tree: [crates/hyperion-supervisor/src/{errors,spec,supervisor}.rs],
    with [SpawnGrant] and [SpawnedBoundary] of [crates/hyperion-trust-boundary/src].

    Each service runs in a process of its own with a capability token of its own,
    minted when the process is started and revoked when it is gone. What the kernel
    answers is an argument of the operations: the pid of a fork or its error, the
    pid [waitpid] returns, the readings of the clock. What an operation does to
    the outside (processes started and killed, sleeps) is listed in its effects. *)
From S2P Require Import Prelude Crypto Capability CapabilityWire DebugFmt F32 Scheduler.
Open Scope N_scope.

(** Rust's [str] and, on Linux, [Path]. *)
Abbreviation text := (list N).

Definition SECOND : N := 1000000000.

(** [Path::join] on Linux: an absolute path replaces the base. *)
Definition path_join (base p : text) : text :=
  match p with
  | 47 :: _ => p
  | _ =>
      match last base with
      | None | Some 47 => base ++ p
      | Some _ => base ++ [47] ++ p
      end
  end.

(** ** trust-boundary *)

Inductive TrustDepth : Type := Process | Container.

Record SpawnGrant := mkGrant {
  grant_token : CapabilityToken;
  grant_depth : TrustDepth;
  grant_fs_scope : text;
  ipc_rendezvous : option text;
  read_only_paths : list text;
  data_scope : option text
}.

Record SpawnedBoundary := mkBoundary {
  boundary_pid : N;
  boundary_token : CapabilityToken
}.

(** ** errors.rs and spec.rs *)

Inductive GiveUpReason : Type := CrashLoop | RespawnFailed.

Record ServiceScheduling := mkScheduling {
  service_weight : f32;
  service_request : ResourceVector
}.

Record ServiceSpec := mkSpec {
  spec_name : text;
  program : text;
  spec_args : list text;
  spec_rights : RightsMask;
  spec_depth : TrustDepth;
  spec_fs_scope : text;
  scheduling : option ServiceScheduling;
  extra_env : list (text * text)
}.

(** ** supervisor.rs *)

Definition FAST_FAILURE_THRESHOLD : N := 2 * SECOND.
Definition MAX_CONSECUTIVE_FAST_FAILURES : N := 5.

Definition backoff_duration (consecutive_fast_failures : N) : N :=
  200 * 2 ^ N.min consecutive_fast_failures 5 * MS.

Record GivenUpService := mkGivenUp {
  gu_name : text;
  gu_restart_count : N;
  reason : GiveUpReason
}.

Record Bookkeeping := mkBook {
  book_name : text;
  started_at : Instant;
  consecutive_fast_failures : N;
  restart_count : N
}.

Section supervisor.
Context `{Signatures} `{HashIter} {IoError Cgroup : Type} (to_json : WireToken -> text).

Inductive SupervisorError : Type :=
| RendezvousDir (path : text) (source : IoError)
| Spawn (name : text) (source : IoError)
| Wait (source : IoError)
| GaveUp (name : text) (restart_count : N) (reason : GiveUpReason).

(** The closure of a plain child is not kept: what it returns is an argument of
    the operation that calls it. *)
Inductive ChildKind : Type :=
| Sandboxed (spec : ServiceSpec) (boundary : SpawnedBoundary) (token : CapabilityToken) (origin : TrustBoundaryId)
    (cgroup : option Cgroup)
| Plain.

Record TrackedChild := mkChild {
  book : Bookkeeping;
  kind : ChildKind
}.

(** [caps] is the monitor together with the process-wide counter of token ids. *)
Record Supervisor := mkSupervisor {
  caps : CapState;
  ipc_rendezvous_dir : text;
  cgroup_parent : option text;
  next_origin : N;
  tracked : gmap N TrackedChild;
  abandoned : gmap text GivenUpService
}.

(** What a started process is given. *)
Record Launch := mkLaunch {
  launch_grant : SpawnGrant;
  launch_program : text;
  launch_args : list text;
  launch_env : gmap text text
}.

Inductive Effect : Type :=
| Started (pid : N) (l : Launch)
| Reinvoked (pid : N)
| Slept (d : N)
| Killed (pid : N).

(** What the kernel answers to one attempt at starting a process: the pid, and what
    became of its control group. *)
Record Attempt := mkAttempt {
  forked : Result N IoError;
  admission : Result Cgroup IoError
}.

Definition with_caps (s : Supervisor) (c : CapState) : Supervisor :=
  mkSupervisor c (ipc_rendezvous_dir s) (cgroup_parent s) (next_origin s) (tracked s) (abandoned s).

Definition with_tracked (s : Supervisor) (ch : gmap N TrackedChild) : Supervisor :=
  mkSupervisor (caps s) (ipc_rendezvous_dir s) (cgroup_parent s) (next_origin s) ch (abandoned s).

Definition with_abandoned (s : Supervisor) (gu : gmap text GivenUpService) : Supervisor :=
  mkSupervisor (caps s) (ipc_rendezvous_dir s) (cgroup_parent s) (next_origin s) (tracked s) gu.

(** [CapabilityMonitor::cap_revoke], its receipt ignored. The walk of the monitor
    always ends ([revoke_spec]), so the second case does not arise. *)
Definition revoke_token (s : Supervisor) (t : CapabilityToken) : Supervisor :=
  match cap_revoke (caps s) t with
  | Some (_, c) => with_caps s c
  | None => s
  end.

(** [counter] is where the process-wide counter of token ids stands. *)
Definition new (counter : N) (dir : text) (parent : option text) (mkdir : Result unit IoError) :
    Result Supervisor SupervisorError :=
  match mkdir with
  | Err e => Err (RendezvousDir dir e)
  | Ok _ => Ok (mkSupervisor (mkState monitor_new counter) dir parent 1 ∅ ∅)
  end.

Definition socket_path_for (s : Supervisor) (name : text) : text :=
  path_join (ipc_rendezvous_dir s) (name ++ lit ".sock").

Definition try_apply_cgroup (s : Supervisor) (spec : ServiceSpec) (adm : Result Cgroup IoError) : option Cgroup :=
  _ ← scheduling spec;
  _ ← cgroup_parent s;
  match adm with Ok cg => Some cg | Err _ => None end.

(** [Command::env] and [envs]: a later value replaces an earlier one. *)
Definition command_env (s : Supervisor) (spec : ServiceSpec) (now : Instant) (t : CapabilityToken) : gmap text text :=
  fold_left (fun env '(k, v) => <[k := v]> env)
    ((lit "HYPERION_WIRE_TOKEN", to_json (wire_from now t))
     :: (lit "HYPERION_IPC_SOCK", socket_path_for s (spec_name spec)) :: extra_env spec) ∅.

Definition launch_of (s : Supervisor) (spec : ServiceSpec) (now : Instant) (t : CapabilityToken) : Launch :=
  mkLaunch
    (mkGrant t (spec_depth spec) (spec_fs_scope spec) (Some (socket_path_for s (spec_name spec))) [] None)
    (program spec) (spec_args spec) (command_env s spec now t).

Definition spawn_sandboxed_inner (now : Instant) (a : Attempt) (s : Supervisor) (spec : ServiceSpec)
    (orig : TrustBoundaryId) :
    Result (N * SpawnedBoundary * CapabilityToken * option Cgroup) SupervisorError * Supervisor * list Effect :=
  let '(t, c) := mint_root now (caps s) (spec_rights spec) orig None in
  let s := with_caps s c in
  match forked a with
  | Err e => (Err (Spawn (spec_name spec) e), s, [])
  | Ok pid => (Ok (pid, mkBoundary pid t, t, try_apply_cgroup s spec (admission a)), s,
               [Started pid (launch_of s spec now t)])
  end.

Definition spawn_sandboxed (now later : Instant) (a : Attempt) (s : Supervisor) (spec : ServiceSpec) :
    Result unit SupervisorError * Supervisor * list Effect :=
  let orig := next_origin s in
  let s := mkSupervisor (caps s) (ipc_rendezvous_dir s) (cgroup_parent s) (u64_add (next_origin s) 1) (tracked s)
             (abandoned s) in
  let '(r, s, eff) := spawn_sandboxed_inner now a s spec orig in
  match r with
  | Err e => (Err e, s, eff)
  | Ok (pid, b, t, cg) =>
      (Ok tt,
       with_tracked s (<[pid := mkChild (mkBook (spec_name spec) later 0 0) (Sandboxed spec b t orig cg)]> (tracked s)),
       eff)
  end.

Definition adopt_plain (now : Instant) (s : Supervisor) (name : text) (initial_pid : N) : Supervisor :=
  with_tracked s (<[initial_pid := mkChild (mkBook name now 0 0) Plain]> (tracked s)).

(** The streak of fast failures once the child has exited. *)
Definition streak (now : Instant) (b : Bookkeeping) : N :=
  if now - started_at b <? FAST_FAILURE_THRESHOLD then consecutive_fast_failures b + 1 else 0.

Definition abandon (s : Supervisor) (b : Bookkeeping) (why : GiveUpReason) : Supervisor :=
  with_abandoned s (<[book_name b := mkGivenUp (book_name b) (restart_count b) why]> (abandoned s)).

Definition token_of (k : ChildKind) : option CapabilityToken :=
  match k with Sandboxed _ _ t _ _ => Some t | Plain => None end.

Definition revoke_kind (s : Supervisor) (k : ChildKind) : Supervisor :=
  match k with Sandboxed _ _ t _ _ => revoke_token s t | Plain => s end.

(** The new process of a child that exited. *)
Definition respawn (now : Instant) (a : Attempt) (s : Supervisor) (c : TrackedChild) :
    Result (N * ChildKind) SupervisorError * Supervisor * list Effect :=
  match kind c with
  | Sandboxed spec _ t orig _ =>
      let '(r, s, eff) := spawn_sandboxed_inner now a (revoke_token s t) spec orig in
      match r with
      | Ok (pid, b', t', cg') => (Ok (pid, Sandboxed spec b' t' orig cg'), s, eff)
      | Err e => (Err e, s, eff)
      end
  | Plain =>
      match forked a with
      | Ok pid => (Ok (pid, Plain), s, [Reinvoked pid])
      | Err e => (Err (Spawn (book_name (book c)) e), s, [])
      end
  end.

(** The clock is read when the exit is noticed, when the new token is minted, and
    when the new process has been started. *)
Record Readings := mkReadings { noticed : Instant; minted : Instant; restarted : Instant }.

Definition restart_exited (at_ : Readings) (a : Attempt) (s : Supervisor) (pid : N) :
    Result text SupervisorError * Supervisor * list Effect :=
  match tracked s !! pid with
  | None => (Ok [], s, [])
  | Some c =>
      let s := with_tracked s (delete pid (tracked s)) in
      let k := streak (noticed at_) (book c) in
      if MAX_CONSECUTIVE_FAST_FAILURES <=? k then
        (Err (GaveUp (book_name (book c)) (restart_count (book c)) CrashLoop),
         abandon (revoke_kind s (kind c)) (book c) CrashLoop, [])
      else
        let '(r, s, eff) := respawn (minted at_) a s c in
        let eff := Slept (backoff_duration k) :: eff in
        match r with
        | Ok (pid', kind') =>
            let book' := mkBook (book_name (book c)) (restarted at_) k ((restart_count (book c) + 1) mod two32) in
            (Ok (book_name (book c)), with_tracked s (<[pid' := mkChild book' kind']> (tracked s)), eff)
        | Err e => (Err e, abandon s (book c) RespawnFailed, eff)
        end
  end.

Definition reap_and_restart_one (waited : Result N IoError) (at_ : Readings) (a : Attempt) (s : Supervisor) :
    Result text SupervisorError * Supervisor * list Effect :=
  match waited with
  | Err e => (Err (Wait e), s, [])
  | Ok pid => restart_exited at_ a s pid
  end.

(** [exits] says which processes the kernel reports as gone, and what starting
    each anew comes to. *)
Fixpoint poll_loop (exits : N -> option (Readings * Attempt)) (l : list N) (s : Supervisor) :
    list (Result text SupervisorError) * Supervisor * list Effect :=
  match l with
  | [] => ([], s, [])
  | pid :: l =>
      match exits pid with
      | None => poll_loop exits l s
      | Some (at_, a) =>
          let '(r, s, eff) := restart_exited at_ a s pid in
          let '(rs, s, eff') := poll_loop exits l s in
          (r :: rs, s, eff ++ eff')
      end
  end.

Definition poll_and_restart (exits : N -> option (Readings * Attempt)) (s : Supervisor) :
    list (Result text SupervisorError) * Supervisor * list Effect :=
  poll_loop exits (hash_iter (tracked s)).*1 s.

Definition find_named (s : Supervisor) (name : text) : option (N * TrackedChild) :=
  List.find (fun '(_, c) => bool_decide (book_name (book c) = name)) (hash_iter (tracked s)).

Definition terminate (s : Supervisor) (name : text) : Result unit SupervisorError * Supervisor * list Effect :=
  match find_named s name with
  | None => (Ok tt, s, [])
  | Some (pid, c) =>
      let s := revoke_kind (with_tracked s (delete pid (tracked s))) (kind c) in
      (Ok tt, with_abandoned s (delete name (abandoned s)), [Killed pid])
  end.

Definition given_up (s : Supervisor) (name : text) : option GivenUpService := abandoned s !! name.
Definition given_up_services (s : Supervisor) : list GivenUpService := (hash_iter (abandoned s)).*2.
Definition pid_of (s : Supervisor) (name : text) : option N := fst <$> find_named s name.
Definition restart_count_of (s : Supervisor) (name : text) : option N :=
  (fun p => restart_count (book p.2)) <$> find_named s name.

(** [find_map]: the first child of that name that has a token. *)
Definition token_id_of (s : Supervisor) (name : text) : option TokenId :=
  head (omap (fun '(_, c) => if bool_decide (book_name (book c) = name) then token_id <$> token_of (kind c) else None)
          (hash_iter (tracked s))).

(** [SpawnedBoundary::revoke] kills the boundary's own process and revokes the
    token it was started with. *)
Definition boundary_revoke (s : Supervisor) (b : SpawnedBoundary) : Supervisor * list Effect :=
  (revoke_token s (boundary_token b), [Killed (boundary_pid b)]).

Fixpoint shutdown_loop (l : list (N * TrackedChild)) (s : Supervisor) : Supervisor * list Effect :=
  match l with
  | [] => (s, [])
  | (pid, c) :: l =>
      let '(s, eff) := match kind c with
                       | Sandboxed _ b _ _ _ => boundary_revoke s b
                       | Plain => (s, [Killed pid])
                       end in
      let '(s, eff') := shutdown_loop l s in
      (s, eff ++ eff')
  end.

Definition shutdown (s : Supervisor) : Supervisor * list Effect :=
  shutdown_loop (hash_iter (tracked s)) (with_tracked s ∅).

(** ** What happens to the monitor *)

(** The monitor of a supervisor delegates nothing: every record is a root without
    children, so revoking touches that record only. *)
Definition flat (c : CapState) : Prop := forall id n, graph (mon c) !! id = Some n -> children n = [].

Lemma revoke_token_flat s t n :
  flat (caps s) -> graph (mon (caps s)) !! token_id t = Some n ->
  revoke_token s t
  = with_caps s (mkState (mkMonitor (<[token_id t := bump n]> (graph (mon (caps s)))) (next_object_id (mon (caps s))))
                   (NEXT (caps s))).
Proof.
  intros Hf Hn. unfold revoke_token, cap_revoke, revoke, revoke_fuel. simpl. rewrite Hn. simpl.
  by rewrite (Hf _ _ Hn).
Qed.

Lemma revoke_token_caps s t : exists c, revoke_token s t = with_caps s c.
Proof.
  unfold revoke_token. destruct (cap_revoke (caps s) t) as [[rc c]|]; [by exists c|].
  exists (caps s). by destruct s.
Qed.

(** ** The invariant *)

(** A tracked child holds the token. *)
Definition held (s : Supervisor) (t : CapabilityToken) : Prop :=
  exists pid c, tracked s !! pid = Some c /\ token_of (kind c) = Some t.

(** The tokens given to processes. *)
Definition tokens_given (effs : list Effect) : list CapabilityToken :=
  effs ≫= fun e => match e with Started _ l => [grant_token (launch_grant l)] | _ => [] end.

Definition child_ok (s : Supervisor) (given : list CapabilityToken) (pid : N) (c : TrackedChild) : Prop :=
  consecutive_fast_failures (book c) < MAX_CONSECUTIVE_FAST_FAILURES
  /\ match kind c with
     | Sandboxed spec b t o _ =>
         b = mkBoundary pid t /\ t ∈ given /\ rights t = spec_rights spec /\ origin t = o /\ o < next_origin s
         /\ book_name (book c) = spec_name spec
     | Plain => True
     end.

Record inv (s : Supervisor) (given : list CapabilityToken) : Prop := {
  inv_wf : wf_state (caps s);
  inv_flat : flat (caps s);
  inv_given : forall t, t ∈ given -> generation t = 0 /\ expiry t = None
    /\ exists n, graph (mon (caps s)) !! token_id t = Some n /\ node_object n = object_id t /\ node_rights n = rights t
         /\ (held s t /\ live_generation n = 0 \/ ~ held s t /\ live_generation n = 1);
  inv_child : forall pid c, tracked s !! pid = Some c -> child_ok s given pid c;
  inv_distinct : forall p1 p2 c1 c2 t1 t2, tracked s !! p1 = Some c1 -> tracked s !! p2 = Some c2 ->
    token_of (kind c1) = Some t1 -> token_of (kind c2) = Some t2 ->
    token_id t1 = token_id t2 \/ origin t1 = origin t2 -> p1 = p2
}.

Lemma inv_abandoned s given gu : inv s given -> inv (with_abandoned s gu) given.
Proof. intros []. by constructor. Qed.

Lemma child_token s given pid c t :
  inv s given -> tracked s !! pid = Some c -> token_of (kind c) = Some t -> t ∈ given.
Proof.
  intros Hinv Hc Ht. destruct (inv_child _ _ Hinv _ _ Hc) as [_ Hk]. destruct (kind c); [|done].
  simplify_eq/=. apply Hk.
Qed.

(** Taking a child out and revoking its token. *)
Lemma inv_release s given pid c :
  inv s given -> tracked s !! pid = Some c ->
  inv (revoke_kind (with_tracked s (delete pid (tracked s))) (kind c)) given.
Proof.
  intros Hinv Hc. pose proof Hinv as [Hwf Hf Hg Hch Hd].
  assert (Hsub : forall p c', delete pid (tracked s) !! p = Some c' -> p <> pid /\ tracked s !! p = Some c')
    by (intros p c' [? ?]%lookup_delete_Some; done).
  destruct (kind c) as [spec b t o cg|] eqn:Hk; simpl.
  - assert (Hin : t ∈ given) by (eapply child_token; [done..|by rewrite Hk]).
    destruct (Hg t Hin) as (_ & _ & n & Hn & Ho & Hr & Hl).
    assert (Hother : forall t', t' ∈ given -> t' <> t -> held s t' <->
              exists p c', delete pid (tracked s) !! p = Some c' /\ token_of (kind c') = Some t').
    { intros t' _ Hne. split; [|by intros (p & c' & [_ ?]%Hsub & ?); exists p, c'].
      intros (p & c' & Hp & Ht'). exists p, c'. split; [|done]. apply lookup_delete_Some. split; [|done].
      intros <-. rewrite Hc in Hp. simplify_eq. rewrite Hk in Ht'. naive_solver. }
    assert (Hgone : ~ exists p c', delete pid (tracked s) !! p = Some c' /\ token_of (kind c') = Some t).
    { intros (p & c' & [Hne Hp]%Hsub & Ht'). apply Hne. eapply Hd; [done..|by rewrite Hk|by left]. }
    assert (Hlive : live_generation n = 0).
    { destruct Hl as [[_ ?]|[Hno _]]; [done|]. destruct Hno. exists pid, c. by rewrite Hk. }
    rewrite (revoke_token_flat _ _ n) by done. simpl. constructor; simpl.
    + eapply (cap_revoke_wf (caps s) t). 1: done. unfold cap_revoke, revoke, revoke_fuel. simpl. rewrite Hn. simpl.
      by rewrite (Hf _ _ Hn).
    + unfold flat. simpl. intros id n' [[<- <-]|[_ Hid]]%lookup_insert_Some; [by apply (Hf _ _ Hn)|by eapply Hf].
    + intros t' Ht'. destruct (Hg t' Ht') as (Hgen & He & n' & Hn' & Ho' & Hr' & Hl'). split_and!; [done..|].
      destruct (decide (token_id t' = token_id t)) as [Heq|Hne].
      * exists (bump n). rewrite Heq, lookup_insert_eq. rewrite Heq, Hn in Hn'. simplify_eq.
        split_and!; [done..|]. right. split; [|simpl; by rewrite Hlive].
        intros (p & c' & [Hne Hp]%Hsub & Htk). apply Hne. eapply Hd; [done..|by rewrite Hk|by left].
      * exists n'. rewrite lookup_insert_ne by congruence. split_and!; [done..|].
        assert (t' <> t) by congruence. unfold held at 1 2. simpl. by rewrite <- Hother.
    + intros p c' [_ Hp]%Hsub. apply (Hch _ _ Hp).
    + intros p1 p2 c1 c2 t1 t2 [_ Hp1]%Hsub [_ Hp2]%Hsub. by eapply Hd.
  - assert (Hheld : forall t', held s t' <-> held (with_tracked s (delete pid (tracked s))) t').
    { intros t'. split; [|by intros (p & c' & [_ ?]%Hsub & ?); exists p, c'].
      intros (p & c' & Hp & Ht'). exists p, c'. split; [|done]. apply lookup_delete_Some. split; [|done].
      intros <-. rewrite Hc in Hp. simplify_eq. by rewrite Hk in Ht'. }
    constructor; simpl; [done|done|..].
    + intros t Ht. destruct (Hg t Ht) as (? & ? & n & ? & ? & ? & Hl). split_and!; [done..|]. exists n.
      by rewrite <- !Hheld.
    + intros p c' [_ Hp]%Hsub. apply (Hch _ _ Hp).
    + intros p1 p2 c1 c2 t1 t2 [_ Hp1]%Hsub [_ Hp2]%Hsub. by eapply Hd.
Qed.

(** Ids left before a counter wraps. *)
Definition room (s : Supervisor) : Prop :=
  NEXT (caps s) + 1 < two64 /\ next_object_id (mon (caps s)) + 1 < two64.

Lemma inv_mint now s given r o t c :
  inv s given -> room s -> mint_root now (caps s) r o None = (t, c) ->
  inv (with_caps s c) given
  /\ rights t = r /\ origin t = o /\ generation t = 0 /\ expiry t = None /\ token_id t = NEXT (caps s)
  /\ graph (mon c) = <[token_id t := mkNode None [] 0 (object_id t) (rights t)]> (graph (mon (caps s)))
  /\ forall t', t' ∈ given -> token_id t' < token_id t.
Proof.
  intros [Hwf Hf Hg Hch Hd] [Hn Ho] Hm.
  assert (Hfresh : forall t', t' ∈ given -> token_id t' < NEXT (caps s)).
  { intros t' Ht'. destruct (Hg t' Ht') as (_ & _ & n & Hn' & _). eapply wfs_ids; eauto. }
  pose proof (mint_root_wf _ _ _ _ _ _ _ Hwf Hn Ho Hm) as Hwf'.
  unfold mint_root, new_object, token_id_next in Hm. simpl in Hm. injection Hm as <- <-. simpl in *.
  split; [|by split_and!]. constructor; simpl; [done|..|done|done].
  - unfold flat, insert_root. simpl. intros id n [[<- <-]|[_ Hid]]%lookup_insert_Some; [done|by eapply Hf].
  - intros t Ht. specialize (Hfresh t Ht). destruct (Hg t Ht) as (? & ? & n & Hnode & Hrest).
    split_and!; [done..|]. exists n. unfold insert_root. rewrite lookup_insert_ne by lia. by split.
Qed.

(** Tracking a process that was given a token of its own. *)
Lemma inv_track s given pid bk spec t cg n :
  inv s given -> tracked s !! pid = None ->
  graph (mon (caps s)) !! token_id t = Some n -> node_object n = object_id t -> node_rights n = rights t ->
  live_generation n = 0 -> generation t = 0 -> expiry t = None -> rights t = spec_rights spec ->
  origin t < next_origin s -> book_name bk = spec_name spec ->
  consecutive_fast_failures bk < MAX_CONSECUTIVE_FAST_FAILURES ->
  (forall t', t' ∈ given -> token_id t' < token_id t) ->
  (forall p c t', tracked s !! p = Some c -> token_of (kind c) = Some t' -> origin t' <> origin t) ->
  inv (with_tracked s (<[pid := mkChild bk (Sandboxed spec (mkBoundary pid t) t (origin t) cg)]> (tracked s)))
    (given ++ [t]).
Proof.
  intros Hinv Hpid Hn Ho Hr Hl Hgen He Hri Hor Hname Hcff Hfresh Horig. pose proof Hinv as [Hwf Hf Hg Hch Hd].
  assert (Hheld : forall t', t' ∈ given -> held s t' <->
      held (with_tracked s (<[pid := mkChild bk (Sandboxed spec (mkBoundary pid t) t (origin t) cg)]> (tracked s))) t').
  { intros t' Ht'. specialize (Hfresh t' Ht'). split; intros (p & c & Hp & Hk); exists p, c; simpl in *.
    - split; [|done]. rewrite lookup_insert_ne by congruence. done.
    - apply lookup_insert_Some in Hp as [[<- <-]|[_ Hp]]; [simplify_eq/=; lia|done]. }
  constructor; [done|done|..]; simpl.
  - intros t' [Ht'| ->%list_elem_of_singleton]%elem_of_app.
    + destruct (Hg t' Ht') as (? & ? & n' & Hrest). split_and!; [done..|]. exists n'. by rewrite <- !Hheld.
    + split_and!; [done..|]. exists n. split_and!; [done..|]. left. split; [|done].
      eexists pid, _. simpl. rewrite lookup_insert_eq. by split.
  - intros p c [[<- <-]|[_ Hp]]%lookup_insert_Some.
    + split; [done|]. simpl. split_and!; try done. apply elem_of_app. right. by apply list_elem_of_singleton.
    + destruct (Hch p c Hp) as [Hc Hk]. split; [done|]. destruct (kind c); [|done].
      destruct Hk as (? & ? & Hk). split; [done|]. split; [|done]. apply elem_of_app. by left.
  - intros p1 p2 c1 c2 t1 t2 [[<- <-]|[_ Hp1]]%lookup_insert_Some [[<- <-]|[_ Hp2]]%lookup_insert_Some Ht1 Ht2 Heq;
      simpl in *; simplify_eq; try done.
    + pose proof (Hfresh _ (child_token _ _ _ _ _ Hinv Hp2 Ht2)). pose proof (Horig _ _ _ Hp2 Ht2).
      destruct Heq as [?|?]; [lia|congruence].
    + pose proof (Hfresh _ (child_token _ _ _ _ _ Hinv Hp1 Ht1)). pose proof (Horig _ _ _ Hp1 Ht1).
      destruct Heq as [?|?]; [lia|congruence].
    + by eapply Hd.
Qed.

Lemma inv_track_plain s given pid bk :
  inv s given -> tracked s !! pid = None -> consecutive_fast_failures bk < MAX_CONSECUTIVE_FAST_FAILURES ->
  inv (with_tracked s (<[pid := mkChild bk Plain]> (tracked s))) given.
Proof.
  intros Hinv Hpid Hcff. pose proof Hinv as [Hwf Hf Hg Hch Hd].
  assert (Hheld : forall t', held s t' <-> held (with_tracked s (<[pid := mkChild bk Plain]> (tracked s))) t').
  { intros t'. split; intros (p & c & Hp & Hk); exists p, c; simpl in *; (split; [|done]).
    - by rewrite lookup_insert_ne by congruence.
    - by apply lookup_insert_Some in Hp as [[<- <-]|[_ Hp]]. }
  constructor; [done|done|..]; simpl.
  - intros t Ht. destruct (Hg t Ht) as (? & ? & n & Hrest). split_and!; [done..|]. exists n. by rewrite <- !Hheld.
  - intros p c [[<- <-]|[_ Hp]]%lookup_insert_Some; [done|by apply (Hch p c)].
  - intros p1 p2 c1 c2 t1 t2 [[<- <-]|[_ Hp1]]%lookup_insert_Some [[<- <-]|[_ Hp2]]%lookup_insert_Some; try done.
    by eapply Hd.
Qed.

Lemma inv_new counter dir parent s :
  counter < two64 -> new counter dir parent (Ok tt) = Ok s -> inv s [].
Proof.
  intros Hc [= <-]. constructor; simpl.
  - repeat constructor; simpl; intros *; rewrite ?lookup_empty; try done; by intros [??].
  - intros id n. simpl. by rewrite lookup_empty.
  - by intros t ?%elem_of_nil.
  - intros pid c. by rewrite lookup_empty.
  - intros *. by rewrite lookup_empty.
Qed.

(** The kernel gives out no pid whose process has not been reaped. *)
Definition fresh_pid (a : Attempt) (ch : gmap N TrackedChild) : Prop := forall p, forked a = Ok p -> ch !! p = None.

(** A successful start under an origin no tracked child has. *)
Lemma inv_spawn now a s given spec o r s1 eff bk :
  inv s given -> room s -> fresh_pid a (tracked s) -> o < next_origin s ->
  (forall p c t', tracked s !! p = Some c -> token_of (kind c) = Some t' -> origin t' <> o) ->
  book_name bk = spec_name spec -> consecutive_fast_failures bk < MAX_CONSECUTIVE_FAST_FAILURES ->
  spawn_sandboxed_inner now a s spec o = (r, s1, eff) ->
  match r with
  | Ok (pid, b, t, cg) =>
      forked a = Ok pid /\
      inv (with_tracked s1 (<[pid := mkChild bk (Sandboxed spec b t o cg)]> (tracked s1))) (given ++ tokens_given eff)
  | Err _ => inv s1 given /\ eff = []
  end.
Proof.
  intros Hinv Hroom Hfresh Ho Horig Hname Hcff. unfold spawn_sandboxed_inner.
  destruct (mint_root now (caps s) (spec_rights spec) o None) as [t c] eqn:Hm.
  destruct (inv_mint _ _ _ _ _ _ _ Hinv Hroom Hm) as (Hinv' & Hr & Hor & Hgen & He & _ & Hg & Hnew).
  destruct (forked a) as [pid|e] eqn:Hf; intros [= <- <- <-]; [|done]. split; [done|].
  rewrite <- Hor in *. apply (inv_track _ _ _ _ _ _ _ (mkNode None [] 0 (object_id t) (rights t))); try done.
  - simpl. by apply Hfresh.
  - simpl. by rewrite Hg, lookup_insert_eq.
Qed.

Lemma inv_spawn_sandboxed now later a s given spec r s1 eff :
  inv s given -> room s -> next_origin s + 1 < two64 -> fresh_pid a (tracked s) ->
  spawn_sandboxed now later a s spec = (r, s1, eff) -> inv s1 (given ++ tokens_given eff).
Proof.
  intros Hinv Hroom Ho Hfresh. unfold spawn_sandboxed. set (s0 := mkSupervisor _ _ _ _ _ _).
  assert (Hnext : next_origin s0 = next_origin s + 1) by (by apply u64_add_small).
  assert (Hinv0 : inv s0 given).
  { destruct Hinv as [Hwf Hf Hg Hch Hd]. constructor; [done..| |done]. intros p c Hp. destruct (Hch p c Hp) as [? Hk].
    split; [done|]. destruct (kind c); [|done]. rewrite Hnext. naive_solver lia. }
  assert (Horig : forall p c t', tracked s0 !! p = Some c -> token_of (kind c) = Some t' -> origin t' <> next_origin s).
  { intros p c t' Hp Ht'. destruct (inv_child _ _ Hinv p c Hp) as [_ Hk]. destruct (kind c); [|done].
    simplify_eq/=. destruct Hk as (_ & _ & _ & -> & ? & _). lia. }
  destruct (spawn_sandboxed_inner now a s0 spec (next_origin s)) as [[r' s'] eff'] eqn:Hsp.
  pose proof (inv_spawn now a s0 given spec (next_origin s) r' s' eff' (mkBook (spec_name spec) later 0 0)
    Hinv0 Hroom Hfresh ltac:(lia) Horig eq_refl ltac:(done) Hsp) as Hres.
  destruct r' as [[[[pid b] t] cg]|e]; intros [= <- <- <-]; [by destruct Hres|].
  destruct Hres as [Hres ->]. by rewrite app_nil_r.
Qed.

Lemma streak_bound now bk : (MAX_CONSECUTIVE_FAST_FAILURES <=? streak now bk) = false ->
  streak now bk < MAX_CONSECUTIVE_FAST_FAILURES.
Proof. apply N.leb_gt. Qed.

Lemma revoke_kind_same s k : tracked (revoke_kind s k) = tracked s /\ next_origin (revoke_kind s k) = next_origin s.
Proof. destruct k as [? ? t ? ?|]; [|done]. simpl. by destruct (revoke_token_caps s t) as [c ->]. Qed.

Lemma revoke_kind_room s k : room (revoke_kind s k) <-> room s.
Proof.
  destruct k as [? ? t ? ?|]; [|done]. simpl. unfold revoke_token, cap_revoke.
  destruct (revoke (graph (mon (caps s))) (token_id t)) as [[rc g]|]; done.
Qed.

Lemma inv_respawn now a s given pid c bk r s1 eff :
  inv s given -> tracked s !! pid = Some c -> room s -> fresh_pid a (delete pid (tracked s)) ->
  book_name bk = book_name (book c) -> consecutive_fast_failures bk < MAX_CONSECUTIVE_FAST_FAILURES ->
  respawn now a (with_tracked s (delete pid (tracked s))) c = (r, s1, eff) ->
  match r with
  | Ok (pid', kind') => inv (with_tracked s1 (<[pid' := mkChild bk kind']> (tracked s1))) (given ++ tokens_given eff)
  | Err _ => inv s1 given /\ eff = []
  end.
Proof.
  intros Hinv Hc Hroom Hfresh Hname Hcff. pose proof (inv_release _ _ _ _ Hinv Hc) as Hrel.
  destruct (inv_child _ _ Hinv _ _ Hc) as [_ Hk]. unfold respawn. set (s0 := with_tracked s _) in *.
  destruct (revoke_kind_same s0 (kind c)) as [Ht Hn]. pose proof (proj2 (revoke_kind_room s0 (kind c)) Hroom) as Hroom0.
  destruct (kind c) as [spec b t o cg|] eqn:Hkind; simpl in Hrel, Ht, Hn, Hroom0.
  - destruct Hk as (_ & _ & _ & Hor & Hlt & Hbn).
    destruct (spawn_sandboxed_inner now a (revoke_token s0 t) spec o) as [[r' s'] eff'] eqn:Hsp.
    assert (Horig : forall p c' t', tracked (revoke_token s0 t) !! p = Some c' -> token_of (kind c') = Some t' ->
              origin t' <> o).
    { rewrite Ht. intros p c' t' [Hne Hp]%lookup_delete_Some Ht' Heq. apply Hne.
      symmetry. apply (inv_distinct _ _ Hinv p pid c' c t' t); [done|done|done|by rewrite Hkind|right; congruence]. }
    pose proof (inv_spawn now a (revoke_token s0 t) given spec o r' s' eff' bk Hrel Hroom0 ltac:(by rewrite Ht)
      ltac:(by rewrite Hn) Horig ltac:(congruence) Hcff Hsp) as Hres.
    destruct r' as [[[[pid' b'] t'] cg']|e]; intros [= <- <- <-]; [by destruct Hres|done].
  - destruct (forked a) as [pid'|e] eqn:Hf; intros [= <- <- <-]; [|done]. rewrite app_nil_r.
    apply inv_track_plain; [done| |done]. simpl. by apply Hfresh.
Qed.

Lemma inv_restart at_ a s given pid r s1 eff :
  inv s given -> room s -> fresh_pid a (delete pid (tracked s)) -> restart_exited at_ a s pid = (r, s1, eff) ->
  inv s1 (given ++ tokens_given eff).
Proof.
  intros Hinv Hroom Hfresh. unfold restart_exited. destruct (tracked s !! pid) as [c|] eqn:Hc; last first.
  { intros [= <- <- <-]. by rewrite app_nil_r. }
  destruct (MAX_CONSECUTIVE_FAST_FAILURES <=? streak (noticed at_) (book c)) eqn:Hk.
  { intros [= <- <- <-]. rewrite app_nil_r. by apply inv_abandoned, inv_release. }
  destruct (respawn _ a _ c) as [[r' s'] eff'] eqn:Hr.
  pose proof (inv_respawn _ _ _ _ _ _
    (mkBook (book_name (book c)) (restarted at_) (streak (noticed at_) (book c)) ((restart_count (book c) + 1) mod two32))
    _ _ _ Hinv Hc Hroom Hfresh eq_refl (streak_bound _ _ Hk) Hr) as Hres.
  destruct r' as [[pid' kind']|e]; intros [= <- <- <-]; [done|]. destruct Hres as [Hres ->].
  rewrite app_nil_r. by apply inv_abandoned.
Qed.

(** ** Every call *)

(** What the kernel and the counters allow during a poll. *)
Fixpoint poll_ok (exits : N -> option (Readings * Attempt)) (l : list N) (s : Supervisor) : Prop :=
  match l with
  | [] => True
  | pid :: l =>
      match exits pid with
      | None => poll_ok exits l s
      | Some (at_, a) =>
          room s /\ fresh_pid a (delete pid (tracked s)) /\ poll_ok exits l (restart_exited at_ a s pid).1.2
      end
  end.

Inductive sup_step : Supervisor -> list Effect -> Supervisor -> Prop :=
| step_spawn s now later a spec r s' eff :
    room s -> next_origin s + 1 < two64 -> fresh_pid a (tracked s) ->
    spawn_sandboxed now later a s spec = (r, s', eff) -> sup_step s eff s'
| step_adopt s now name pid : tracked s !! pid = None -> sup_step s [] (adopt_plain now s name pid)
| step_reap s waited at_ a r s' eff :
    room s -> (forall pid, waited = Ok pid -> fresh_pid a (delete pid (tracked s))) ->
    reap_and_restart_one waited at_ a s = (r, s', eff) -> sup_step s eff s'
| step_poll s exits r s' eff :
    poll_ok exits (hash_iter (tracked s)).*1 s -> poll_and_restart exits s = (r, s', eff) -> sup_step s eff s'
| step_terminate s name r s' eff : terminate s name = (r, s', eff) -> sup_step s eff s'
| step_shutdown s s' eff : shutdown s = (s', eff) -> sup_step s eff s'
| step_other_monitor s next :
    NEXT (caps s) <= next < two64 -> sup_step s [] (with_caps s (mkState (mon (caps s)) next)).

Inductive sup_run (s : Supervisor) : list Effect -> Supervisor -> Prop :=
| run_none : sup_run s [] s
| run_more effs s1 eff s2 : sup_run s effs s1 -> sup_step s1 eff s2 -> sup_run s (effs ++ eff) s2.

Lemma tokens_given_app e1 e2 : tokens_given (e1 ++ e2) = tokens_given e1 ++ tokens_given e2.
Proof. apply bind_app. Qed.

Lemma tokens_given_killed l : tokens_given (Killed <$> l) = [].
Proof. by induction l. Qed.

Lemma find_named_spec s name pid c :
  find_named s name = Some (pid, c) -> tracked s !! pid = Some c /\ book_name (book c) = name.
Proof.
  intros [Hin Hb]%List.find_some. apply bool_decide_eq_true in Hb. split; [|done].
  by apply elem_of_hash_iter, list_elem_of_In.
Qed.

Lemma inv_poll exits l s given r s1 eff :
  inv s given -> poll_ok exits l s -> poll_loop exits l s = (r, s1, eff) -> inv s1 (given ++ tokens_given eff).
Proof.
  revert s given r s1 eff. induction l as [|pid l IH]; intros s given r s1 eff Hinv Hok; simpl in *.
  - intros [= <- <- <-]. by rewrite app_nil_r.
  - destruct (exits pid) as [[at_ a]|]; [|by eapply IH]. destruct Hok as (Hroom & Hfresh & Hok).
    destruct (restart_exited at_ a s pid) as [[r' s'] eff'] eqn:Hr.
    destruct (poll_loop exits l s') as [[rs s''] eff''] eqn:Hp. intros [= <- <- <-].
    rewrite tokens_given_app, app_assoc. eapply IH; [|done..]. by eapply inv_restart.
Qed.

Lemma shutdown_loop_spec l s given s1 eff :
  NoDup l.*1 -> inv (with_tracked s (list_to_map l)) given -> shutdown_loop l s = (s1, eff) ->
  inv (with_tracked s1 ∅) given /\ tracked s1 = tracked s /\ eff = Killed <$> l.*1.
Proof.
  revert s s1 eff. induction l as [|[pid c] l IH]; intros s s1 eff Hnd Hinv; simpl in *.
  { by intros [= <- <-]. }
  apply NoDup_cons in Hnd as [Hni Hnd].
  set (m := list_to_map l : gmap N TrackedChild) in *. set (s0 := with_tracked s (<[pid := c]> m)) in *.
  assert (Hm : m !! pid = None) by (by apply not_elem_of_list_to_map_1).
  assert (Hc : tracked s0 !! pid = Some c) by apply lookup_insert_eq.
  pose proof (inv_release _ _ _ _ Hinv Hc) as Hrel. destruct (inv_child _ _ Hinv _ _ Hc) as [_ Hk].
  assert (Hs : match kind c with
               | Sandboxed _ b _ _ _ => boundary_revoke s b
               | Plain => (s, [Killed pid])
               end = (revoke_kind s (kind c), [Killed pid])).
  { destruct (kind c); [|done]. by destruct Hk as [-> _]. }
  rewrite Hs. destruct (shutdown_loop l (revoke_kind s (kind c))) as [s2 eff2] eqn:Hl. intros [= <- <-].
  assert (Hd : inv (with_tracked (revoke_kind s (kind c)) m) given).
  { replace (with_tracked (revoke_kind s (kind c)) m)
      with (revoke_kind (with_tracked s0 (delete pid (tracked s0))) (kind c)); [done|].
    simpl. rewrite delete_insert_id by done. destruct (kind c) as [? ? t ? ?|]; [|done].
    unfold revoke_kind, revoke_token. simpl. by destruct (cap_revoke (caps s) t) as [[]|]. }
  destruct (IH _ _ _ Hnd Hd Hl) as (? & Ht & ->). split; [done|]. split; [|done].
  rewrite Ht. apply revoke_kind_same.
Qed.

Lemma inv_shutdown s given s1 eff :
  inv s given -> shutdown s = (s1, eff) ->
  inv s1 given /\ tracked s1 = ∅ /\ eff = Killed <$> (hash_iter (tracked s)).*1.
Proof.
  intros Hinv Hs.
  destruct (fun K => shutdown_loop_spec _ (with_tracked s ∅) given _ _ (NoDup_fst_hash_iter (tracked s)) K Hs) as (Hi & Ht & He).
  - replace (list_to_map (hash_iter (tracked s))) with (tracked s); [by destruct s|].
    rewrite <- (list_to_map_to_list (tracked s)) at 1. symmetry. apply list_to_map_proper; [apply NoDup_fst_hash_iter|].
    apply hash_iter_perm.
  - simpl in Ht. split; [|done]. destruct s1. simpl in *. by subst.
Qed.

Lemma inv_step s given eff s1 : inv s given -> sup_step s eff s1 -> inv s1 (given ++ tokens_given eff).
Proof.
  intros Hinv Hst. destruct Hst.
  - by eapply inv_spawn_sandboxed.
  - rewrite app_nil_r. by apply inv_track_plain.
  - unfold reap_and_restart_one in *. destruct waited; simplify_eq; [|by rewrite app_nil_r].
    eapply inv_restart; [..|done]; eauto.
  - by eapply inv_poll.
  - unfold terminate in *. destruct (find_named s name) as [[pid c]|] eqn:Hf; simplify_eq; rewrite app_nil_r; [|done].
    apply find_named_spec in Hf as [Hc _]. by apply inv_abandoned, inv_release.
  - destruct (inv_shutdown _ _ _ _ Hinv H1) as (? & _ & ->).
    by rewrite tokens_given_killed, app_nil_r.
  - rewrite app_nil_r. destruct Hinv as [[]]. constructor; try done. constructor; simpl in *; try done; [|lia].
    intros id Hid. apply wfs_ids in Hid. lia.
Qed.

Lemma inv_run s given effs s1 : inv s given -> sup_run s effs s1 -> inv s1 (given ++ tokens_given effs).
Proof.
  intros Hinv. induction 1 as [|effs s1 eff s2 Hr IH Hst]; [by rewrite app_nil_r|].
  rewrite tokens_given_app, app_assoc. by eapply inv_step.
Qed.

(** Nothing but a fresh mint brings a new token into the tree. *)
Definition only_fresh (s s1 : Supervisor) : Prop :=
  NEXT (caps s) <= NEXT (caps s1) /\ forall t, held s1 t -> held s t \/ NEXT (caps s) <= token_id t.

#[local] Instance only_fresh_preorder : PreOrder only_fresh.
Proof.
  split; [intros s; split; [lia|auto]|]. intros s1 s2 s3 [Hn1 H1'] [Hn2 H2']. split; [lia|]. intros t Ht.
  destruct (H2' t Ht) as [Ht2|]; [by apply H1'|right; lia].
Qed.

Lemma revoke_kind_next s k : NEXT (caps (revoke_kind s k)) = NEXT (caps s).
Proof.
  destruct k as [? ? t ? ?|]; [|done]. simpl. unfold revoke_token, cap_revoke.
  by destruct (revoke (graph (mon (caps s))) (token_id t)) as [[]|].
Qed.

Lemma only_fresh_release s pid k : only_fresh s (revoke_kind (with_tracked s (delete pid (tracked s))) k).
Proof.
  split; [by rewrite revoke_kind_next|]. intros t (p & c & Hp & Ht). left. exists p, c. split; [|done].
  rewrite (proj1 (revoke_kind_same _ _)) in Hp. simpl in Hp. by apply lookup_delete_Some in Hp as [_ ?].
Qed.

Lemma only_fresh_track_plain s pid bk : only_fresh s (with_tracked s (<[pid := mkChild bk Plain]> (tracked s))).
Proof.
  split; [simpl; lia|]. intros t (p & c & Hp & Ht). simpl in Hp. left. exists p, c.
  by apply lookup_insert_Some in Hp as [[<- <-]|[_ Hp]].
Qed.

Lemma only_fresh_spawn now a s spec o r s1 eff :
  room s -> spawn_sandboxed_inner now a s spec o = (r, s1, eff) ->
  match r with
  | Ok (pid, b, t, cg) =>
      forall bk, only_fresh s (with_tracked s1 (<[pid := mkChild bk (Sandboxed spec b t o cg)]> (tracked s1)))
  | Err _ => only_fresh s s1
  end.
Proof.
  intros [Hn _]. unfold spawn_sandboxed_inner, mint_root, new_object, token_id_next. simpl.
  destruct (forked a) as [pid|e]; intros [= <- <- <-]; simpl; [intros bk|]; (split; [simpl; rewrite u64_add_small; lia|]).
  - intros t (p & c & Hp & Ht). simpl in Hp. apply lookup_insert_Some in Hp as [[<- <-]|[_ Hp]]; [|by left; exists p, c].
    right. simpl in Ht. simplify_eq. simpl. lia.
  - intros t (p & c & Hp & Ht). left. by exists p, c.
Qed.

Lemma only_fresh_abandoned s s1 gu : only_fresh s s1 -> only_fresh s (with_abandoned s1 gu).
Proof. done. Qed.

Lemma only_fresh_restart at_ a s pid r s1 eff :
  room s -> restart_exited at_ a s pid = (r, s1, eff) -> only_fresh s s1.
Proof.
  intros Hroom. unfold restart_exited. destruct (tracked s !! pid) as [c|]; [|by intros [= <- <- <-]].
  destruct (_ <=? _); [intros [= <- <- <-]; apply only_fresh_abandoned, only_fresh_release|].
  pose proof (only_fresh_release s pid (kind c)) as Hrel. unfold respawn.
  set (s0 := with_tracked s _) in *. destruct (kind c) as [spec b t o cg|].
  - destruct (spawn_sandboxed_inner _ a _ spec o) as [[r' s'] eff'] eqn:Hsp.
    apply only_fresh_spawn in Hsp; [|by apply (revoke_kind_room s0 (Sandboxed spec b t o cg))].
    destruct r' as [[[[pid' b'] t'] cg']|e]; intros [= <- <- <-]; (etrans; [exact Hrel|]); [apply Hsp|exact Hsp].
  - destruct (forked a); intros [= <- <- <-]; (etrans; [exact Hrel|]); [apply only_fresh_track_plain|].
    by apply only_fresh_abandoned.
Qed.

Lemma only_fresh_poll exits l s r s1 eff :
  poll_ok exits l s -> poll_loop exits l s = (r, s1, eff) -> only_fresh s s1.
Proof.
  revert s r s1 eff. induction l as [|pid l IH]; intros s r s1 eff Hok; simpl in *; [by intros [= <- <- <-]|].
  destruct (exits pid) as [[at_ a]|]; [|by apply IH]. destruct Hok as (Hroom & _ & Hok).
  destruct (restart_exited at_ a s pid) as [[r' s'] eff'] eqn:Hr.
  destruct (poll_loop exits l s') as [[rs s''] eff''] eqn:Hp. intros [= <- <- <-].
  etrans; [by eapply only_fresh_restart|by eapply IH].
Qed.

Lemma shutdown_loop_next l s : NEXT (caps (shutdown_loop l s).1) = NEXT (caps s) /\ tracked (shutdown_loop l s).1 = tracked s.
Proof.
  revert s. induction l as [|[pid c] l IH]; intros s; [done|]. simpl.
  destruct (kind c) as [sp b t o cg|]; simpl.
  - specialize (IH (revoke_token s (boundary_token b))). destruct (shutdown_loop l _) as [s2 e2]. simpl in *.
    destruct IH as [-> ->].
    split; [apply (revoke_kind_next s (Sandboxed sp b _ o cg))|apply (revoke_kind_same s (Sandboxed sp b _ o cg))].
  - specialize (IH s). by destruct (shutdown_loop l s).
Qed.

Lemma only_fresh_step s eff s1 : sup_step s eff s1 -> only_fresh s s1.
Proof.
  destruct 1 as [s now later a spec r s' eff Hroom Ho Hfr Hs|s now name pid Hp|s waited at_ a r s' eff Hroom Hfr Hs
    |s exits r s' eff Hok Hs|s name r s' eff Hs|s s' eff Hs|s next Hn].
  - unfold spawn_sandboxed in Hs. set (s0 := mkSupervisor _ _ _ _ _ _) in Hs.
    destruct (spawn_sandboxed_inner now a s0 spec (next_origin s)) as [[r' s2] eff2] eqn:Hsp.
    assert (Hf : only_fresh s s0) by (split; [simpl; lia|by intros t Ht; left]). etrans; [exact Hf|].
    apply only_fresh_spawn in Hsp; [|done]. destruct r' as [[[[pid b] t] cg]|e]; simplify_eq; [apply Hsp|done].
  - apply only_fresh_track_plain.
  - unfold reap_and_restart_one in Hs. destruct waited; [by eapply only_fresh_restart|by simplify_eq].
  - by eapply only_fresh_poll.
  - unfold terminate in Hs. destruct (find_named s name) as [[pid c]|]; simplify_eq; [|done].
    apply only_fresh_abandoned, only_fresh_release.
  - unfold shutdown in Hs. destruct (shutdown_loop_next (hash_iter (tracked s)) (with_tracked s ∅)) as [Hn Ht].
    rewrite Hs in Hn, Ht. simpl in *. split; [lia|]. intros t (p & c & Hp & _). by rewrite Ht, lookup_empty in Hp.
  - split; [simpl; lia|]. intros t (p & c & Hp & Ht). left. by exists p, c.
Qed.

Lemma only_fresh_run s effs s1 : sup_run s effs s1 -> only_fresh s s1.
Proof. induction 1 as [|effs s1 eff s2 Hr IH Hst]; [done|]. etrans; [exact IH|by eapply only_fresh_step]. Qed.

(** What the monitor answers about a token given to a process. *)
Lemma given_answer s given t now r :
  inv s given -> t ∈ given ->
  (held s t -> check_rights_ok_result now (mon (caps s)) t r
     = if contains (rights t) r then Ok tt else Err InsufficientRights)
  /\ (~ held s t -> check_rights_ok_result now (mon (caps s)) t r = Err Revoked).
Proof.
  intros Hinv Ht. destruct (inv_given _ _ Hinv t Ht) as (Hgen & He & n & Hn & Ho & Hr & Hl).
  unfold check_rights_ok_result. split.
  - intros Hh. destruct Hl as [[_ Hl]|[? _]]; [|done].
    replace (check_live now (mon (caps s)) t) with (Ok tt : Result unit Fault); [by destruct (contains (rights t) r)|].
    symmetry. apply check_live_ok. exists n. unfold is_expired. rewrite He. split_and!; [congruence..|done].
  - intros Hh. destruct Hl as [[? _]|[_ Hl]]; [done|].
    rewrite (check_live_revoked now _ t n) by (try congruence; lia). done.
Qed.

(** C20. Authority follows supervision. Whatever services were started, adopted,
    restarted, stopped or given up, and whatever the kernel answered: the monitor
    accepts a token that was given to a process exactly while a tracked service
    holds it, with the rights the token shows and at any time, and refuses it as
    revoked from the moment the process is gone, for ever. Every tracked service
    holds a token that was given to its own current process, with the rights and
    the name of its specification, and no two of them share a token or an origin. *)
Theorem supervised_authority counter dir parent s0 effs s :
  counter < two64 -> new counter dir parent (Ok tt) = Ok s0 -> sup_run s0 effs s ->
  (forall t now r, t ∈ tokens_given effs ->
     (held s t -> check_rights_ok_result now (mon (caps s)) t r
        = if contains (rights t) r then Ok tt else Err InsufficientRights)
     /\ (~ held s t -> forall effs' s', sup_run s effs' s' ->
           check_rights_ok_result now (mon (caps s')) t r = Err Revoked))
  /\ (forall pid c spec b t o cg, tracked s !! pid = Some c -> kind c = Sandboxed spec b t o cg ->
        t ∈ tokens_given effs /\ rights t = spec_rights spec /\ origin t = o /\ b = mkBoundary pid t
        /\ book_name (book c) = spec_name spec)
  /\ (forall p1 p2 c1 c2 t1 t2, tracked s !! p1 = Some c1 -> tracked s !! p2 = Some c2 ->
        token_of (kind c1) = Some t1 -> token_of (kind c2) = Some t2 ->
        token_id t1 = token_id t2 \/ origin t1 = origin t2 -> p1 = p2).
Proof.
  intros Hc Hnew Hrun. pose proof (inv_run _ _ _ _ (inv_new _ _ _ _ Hc Hnew) Hrun) as Hinv. simpl in Hinv.
  split; [|split; [|apply (inv_distinct _ _ Hinv)]].
  - intros t now r Ht. split; [by apply (given_answer _ _ _ _ _ Hinv)|]. intros Hno effs' s' Hrun'.
    pose proof (inv_run _ _ _ _ Hinv Hrun') as Hinv'. apply (given_answer _ _ t now r Hinv'); [apply elem_of_app; by left|].
    intros Hh. destruct (proj2 (only_fresh_run _ _ _ Hrun') t Hh) as [?|Hge]; [done|].
    destruct (inv_given _ _ Hinv t Ht) as (_ & _ & n & Hn & _).
    pose proof (wfs_ids _ (inv_wf _ _ Hinv) (token_id t) ltac:(eauto)). lia.
  - intros pid c spec b t o cg Hp Hk. destruct (inv_child _ _ Hinv _ _ Hp) as [_ Hok]. rewrite Hk in Hok. naive_solver.
Qed.

(** ** One restart *)

(** The monitor's answer about a token whose record an operation did not touch. *)
Lemma check_live_same now m m' t :
  graph m' !! token_id t = graph m !! token_id t -> check_live now m' t = check_live now m t.
Proof. intros Hg. unfold check_live, matches_record, live_generation_of. by rewrite Hg. Qed.

Lemma revoke_kind_lookup s given pid c id :
  inv s given -> tracked s !! pid = Some c -> (forall t, token_of (kind c) = Some t -> token_id t <> id) ->
  graph (mon (caps (revoke_kind (with_tracked s (delete pid (tracked s))) (kind c)))) !! id
  = graph (mon (caps s)) !! id.
Proof.
  intros Hinv Hc Hne. destruct (kind c) as [spec b t o cg|] eqn:Hk; [|done]. simpl.
  assert (Ht : t ∈ given) by (eapply child_token; [done..|by rewrite Hk]).
  destruct (inv_given _ _ Hinv t Ht) as (_ & _ & n & Hn & _).
  rewrite (revoke_token_flat _ _ n) by (done || apply Hinv). simpl. by rewrite lookup_insert_ne by (by apply Hne).
Qed.

(** What the new process of a child that exited gets. *)
Definition new_kind (s : Supervisor) (at_ : Readings) (a : Attempt) (c : TrackedChild) (p : N) (k : ChildKind)
    (e : Effect) : Prop :=
  match kind c with
  | Sandboxed spec _ t o _ => exists t' cg', k = Sandboxed spec (mkBoundary p t') t' o cg'
      /\ token_id t' = NEXT (caps s) /\ rights t' = spec_rights spec /\ origin t' = o
      /\ e = Started p (launch_of s spec (minted at_) t')
  | Plain => k = Plain /\ e = Reinvoked p
  end.

(** The outcome of a restart, [k] being the streak of fast failures. *)
Definition restart_outcome (at_ : Readings) (a : Attempt) (s : Supervisor) (pid : N) (c : TrackedChild)
    (r : Result text SupervisorError) (s' : Supervisor) (eff : list Effect) : Prop :=
  let name := book_name (book c) in
  let k := streak (noticed at_) (book c) in
  if MAX_CONSECUTIVE_FAST_FAILURES <=? k then
    r = Err (GaveUp name (restart_count (book c)) CrashLoop) /\ eff = []
    /\ tracked s' = delete pid (tracked s) /\ given_up s' name = Some (mkGivenUp name (restart_count (book c)) CrashLoop)
  else
    match forked a with
    | Ok p => r = Ok name /\ exists kind' e, new_kind s at_ a c p kind' e /\ eff = [Slept (backoff_duration k); e]
        /\ tracked s' = <[p := mkChild (mkBook name (restarted at_) k ((restart_count (book c) + 1) mod two32)) kind']>
                          (delete pid (tracked s))
    | Err e => r = Err (Spawn name e) /\ eff = [Slept (backoff_duration k)]
        /\ tracked s' = delete pid (tracked s)
        /\ given_up s' name = Some (mkGivenUp name (restart_count (book c)) RespawnFailed)
    end.

Lemma restart_cases at_ a s given pid c r s' eff :
  inv s given -> tracked s !! pid = Some c -> restart_exited at_ a s pid = (r, s', eff) ->
  restart_outcome at_ a s pid c r s' eff.
Proof.
  intros Hinv Hc. unfold restart_exited, restart_outcome. rewrite Hc. cbv zeta.
  destruct (_ <=? _) eqn:Hk.
  { intros [= <- <- <-]. simpl. split_and!; [done..|apply revoke_kind_same|]. unfold given_up. simpl. by rewrite lookup_insert_eq. }
  unfold respawn. set (s0 := with_tracked s _). destruct (inv_child _ _ Hinv _ _ Hc) as [_ Hok].
  pose proof (revoke_kind_same s0 (kind c)) as [Ht _]. pose proof (revoke_kind_next s0 (kind c)) as Hn.
  destruct (kind c) as [spec b t o cg|] eqn:Hkind; simpl in Ht, Hn.
  - destruct Hok as (_ & _ & _ & _ & _ & Hname). destruct (revoke_token_caps s0 t) as [c0 Hrev].
    unfold spawn_sandboxed_inner, mint_root, new_object, token_id_next. rewrite Hrev in *. simpl in *.
    destruct (forked a) as [p|e]; intros [= <- <- <-]; simpl.
    + split; [done|]. eexists _, _. split_and!; [|done..]. unfold new_kind. rewrite Hkind. eexists _, _.
      by split_and!.
    + split_and!; [by rewrite Hname|done..|]. unfold given_up. simpl. by rewrite lookup_insert_eq.
  - destruct (forked a) as [p|e]; intros [= <- <- <-]; simpl.
    + split; [done|]. eexists _, _. split_and!; [|done..]. unfold new_kind. by rewrite Hkind.
    + split_and!; [done..|]. unfold given_up. simpl. by rewrite lookup_insert_eq.
Qed.

Lemma restart_graph at_ a s given pid c r s' eff id :
  inv s given -> tracked s !! pid = Some c -> restart_exited at_ a s pid = (r, s', eff) ->
  (forall t, token_of (kind c) = Some t -> token_id t <> id) -> id < NEXT (caps s) ->
  graph (mon (caps s')) !! id = graph (mon (caps s)) !! id.
Proof.
  intros Hinv Hc Hr Hne Hid. rewrite <- (revoke_kind_lookup s given pid c id) by done.
  unfold restart_exited in Hr. rewrite Hc in Hr. cbv zeta in Hr. destruct (_ <=? _); [by injection Hr as _ <- _|].
  pose proof (revoke_kind_next (with_tracked s (delete pid (tracked s))) (kind c)) as Hn. unfold respawn in Hr.
  set (s0 := with_tracked s _) in *. destruct (kind c) as [spec b t o cg|]; simpl in *.
  - unfold spawn_sandboxed_inner, mint_root, new_object, token_id_next in Hr. simpl in Hr.
    destruct (forked a); injection Hr as _ <- _; simpl; unfold insert_root; rewrite lookup_insert_ne by lia; done.
  - destruct (forked a); by injection Hr as _ <- _.
Qed.

(** The old token leaves the tree. *)
Lemma restart_lets_go at_ a s given pid c t r s' eff :
  inv s given -> tracked s !! pid = Some c -> token_of (kind c) = Some t -> restart_exited at_ a s pid = (r, s', eff) ->
  ~ held s' t.
Proof.
  intros Hinv Hc Ht Hr (p & c' & Hp & Ht').
  pose proof (restart_cases _ _ _ _ _ _ _ _ _ Hinv Hc Hr) as Hout. unfold restart_outcome in Hout. cbv zeta in Hout.
  assert (Hgone : delete pid (tracked s) !! p <> Some c').
  { intros [Hne Hp']%lookup_delete_Some. apply Hne. eapply (inv_distinct _ _ Hinv); [done..|by left]. }
  destruct (_ <=? _); [by destruct Hout as (_ & _ & Htr & _); rewrite Htr in Hp|].
  destruct (forked a) as [p'|e]; [|by destruct Hout as (_ & _ & Htr & _); rewrite Htr in Hp].
  destruct Hout as (_ & k' & e & Hk & _ & Htr). rewrite Htr in Hp.
  apply lookup_insert_Some in Hp as [[<- <-]|[_ Hp]]; [|done]. simpl in Ht'. unfold new_kind in Hk.
  destruct (inv_given _ _ Hinv t (child_token _ _ _ _ _ Hinv Hc Ht)) as (_ & _ & n & Hn & _).
  pose proof (wfs_ids _ (inv_wf _ _ Hinv) (token_id t) ltac:(eauto)).
  destruct (kind c); [|done]. destruct Hk as (t' & cg' & -> & Hid & _). simplify_eq/=. lia.
Qed.

(** A restart, on every branch. An exit of a process that is not tracked
    changes nothing. Otherwise the service that ran in it ends up as the streak of
    its fast failures and the kernel decide: given up as crash-looping, running
    again in a new process with a token never used before, the same rights, origin
    and specification and one restart more, or given up because it could not be
    started; the pause before is the one the streak asks for. Its old token is
    refused from then on. Every other service stays exactly as it was, and so does
    what the monitor answers about any token but the old one. *)
Theorem restart_exited_spec counter dir parent s0 effs s at_ a pid r s' eff :
  counter < two64 -> new counter dir parent (Ok tt) = Ok s0 -> sup_run s0 effs s ->
  room s -> fresh_pid a (delete pid (tracked s)) -> restart_exited at_ a s pid = (r, s', eff) ->
  match tracked s !! pid with
  | None => r = Ok [] /\ s' = s /\ eff = []
  | Some c =>
      restart_outcome at_ a s pid c r s' eff
      /\ (forall p c', p <> pid -> tracked s !! p = Some c' -> tracked s' !! p = Some c')
      /\ (forall t now, token_of (kind c) = Some t -> check_live now (mon (caps s')) t = Err Revoked)
      /\ (forall t now, token_id t < NEXT (caps s) -> (forall t0, token_of (kind c) = Some t0 -> token_id t0 <> token_id t) ->
            check_live now (mon (caps s')) t = check_live now (mon (caps s)) t)
  end.
Proof.
  intros Hcnt Hnew Hrun Hroom Hfresh Hr. pose proof (inv_run _ _ _ _ (inv_new _ _ _ _ Hcnt Hnew) Hrun) as Hinv. simpl in Hinv.
  destruct (tracked s !! pid) as [c|] eqn:Hc; [|by unfold restart_exited in Hr; rewrite Hc in Hr; simplify_eq].
  pose proof (restart_cases _ _ _ _ _ _ _ _ _ Hinv Hc Hr) as Hout. split; [done|]. split_and!.
  - intros p c' Hne Hp. assert (Hd : delete pid (tracked s) !! p = Some c') by (by rewrite lookup_delete_ne).
    unfold restart_outcome in Hout. cbv zeta in Hout. destruct (_ <=? _); [by destruct Hout as (_ & _ & -> & _)|].
    destruct (forked a) as [p'|e] eqn:Hf; [|by destruct Hout as (_ & _ & -> & _)].
    destruct Hout as (_ & k' & e & _ & _ & ->). rewrite lookup_insert_ne; [done|].
    intros ->. by rewrite (Hfresh p Hf) in Hd.
  - intros t now Ht. pose proof (inv_restart _ _ _ _ _ _ _ _ Hinv Hroom Hfresh Hr) as Hinv'.
    assert (Hin : t ∈ tokens_given effs) by (by eapply child_token).
    destruct (inv_given _ _ Hinv' t ltac:(apply elem_of_app; by left)) as (Hgen & _ & n & Hn & Ho & Hri & Hl).
    eapply check_live_revoked; [done..|]. destruct Hl as [[Hh _]|[_ ->]]; [|by rewrite Hgen].
    by destruct (restart_lets_go _ _ _ _ _ _ _ _ _ _ Hinv Hc Ht Hr).
  - intros t now Hid Hne. apply check_live_same. eapply restart_graph; eauto.
Qed.

(** ** Crash loops *)

(** A service that fails fast again and again and is restarted each time; the
    effects of each restart. *)
Inductive crash_loop : Supervisor -> N -> list (list Effect) -> Supervisor -> N -> Prop :=
| crash_none s pid : crash_loop s pid [] s pid
| crash_again s pid c at_ a p name s1 eff effs s2 pid2 :
    tracked s !! pid = Some c -> noticed at_ - started_at (book c) < FAST_FAILURE_THRESHOLD -> forked a = Ok p ->
    restart_exited at_ a s pid = (Ok name, s1, eff) -> crash_loop s1 p effs s2 pid2 ->
    crash_loop s pid (eff :: effs) s2 pid2.

Definition slept (effs : list Effect) : N :=
  foldr (fun e acc => match e with Slept d => d + acc | _ => acc end) 0 effs.

Lemma slept_app e1 e2 : slept (e1 ++ e2) = slept e1 + slept e2.
Proof. induction e1 as [|[] e1 IH]; simpl; lia. Qed.

(** A fast failure that is restarted lengthens the streak, and pauses for it. *)
Lemma fast_restart at_ a s pid c p name s1 eff :
  tracked s !! pid = Some c -> noticed at_ - started_at (book c) < FAST_FAILURE_THRESHOLD -> forked a = Ok p ->
  restart_exited at_ a s pid = (Ok name, s1, eff) ->
  consecutive_fast_failures (book c) + 1 < MAX_CONSECUTIVE_FAST_FAILURES
  /\ slept eff = backoff_duration (consecutive_fast_failures (book c) + 1)
  /\ exists c1, tracked s1 !! p = Some c1 /\ book_name (book c1) = book_name (book c)
       /\ consecutive_fast_failures (book c1) = consecutive_fast_failures (book c) + 1.
Proof.
  intros Hc Hfast Hf. unfold restart_exited, streak. rewrite Hc. apply N.ltb_lt in Hfast as ->. cbv zeta.
  destruct (_ <=? _) eqn:Hk; [done|]. apply N.leb_gt in Hk. unfold respawn, spawn_sandboxed_inner. rewrite Hf.
  set (s0 := with_tracked s _). destruct (kind c) as [spec b t o cg|].
  - destruct (mint_root _ _ _ _ _) as [t' c']. intros [= <- <- <-]. split; [done|]. split; [simpl; lia|].
    eexists. simpl. by rewrite lookup_insert_eq.
  - intros [= <- <- <-]. split; [done|]. split; [simpl; lia|]. eexists. simpl. by rewrite lookup_insert_eq.
Qed.

Lemma backoff_double n : n < 5 -> backoff_duration n + backoff_duration n = backoff_duration (n + 1).
Proof.
  intros Hn. unfold backoff_duration. rewrite !N.min_l by lia. rewrite N.add_1_r, N.pow_succ_r'. lia.
Qed.

(** What a crash loop leaves. *)
Lemma crash_loop_streak s pid c effs s2 pid2 :
  tracked s !! pid = Some c -> consecutive_fast_failures (book c) < MAX_CONSECUTIVE_FAST_FAILURES ->
  crash_loop s pid effs s2 pid2 ->
  exists c2, tracked s2 !! pid2 = Some c2 /\ book_name (book c2) = book_name (book c)
  /\ consecutive_fast_failures (book c2) = consecutive_fast_failures (book c) + N.of_nat (length effs)
  /\ consecutive_fast_failures (book c2) < MAX_CONSECUTIVE_FAST_FAILURES
  /\ slept (concat effs) + backoff_duration (consecutive_fast_failures (book c) + 1)
       = backoff_duration (consecutive_fast_failures (book c) + N.of_nat (length effs) + 1).
Proof.
  intros Hc Hk Hloop.
  revert c Hc Hk. induction Hloop as [s pid|s pid c0 at_ a p name s1 eff effs s2 pid2 Hc0 Hfast Hf Hr Hloop IH]; intros c Hc Hk.
  - exists c. simpl. rewrite N.add_0_r. by split_and!.
  - rewrite Hc in Hc0. injection Hc0 as <-.
    destruct (fast_restart _ _ _ _ _ _ _ _ _ Hc Hfast Hf Hr) as (Hlt & Hsl & c1 & Hc1 & Hn1 & Hk1).
    destruct (IH c1 Hc1 ltac:(lia)) as (c2 & Hc2 & Hn2 & Hk2 & Hlt2 & Hsum). exists c2.
    split_and!; [done|congruence|simpl; lia|done|]. simpl concat. rewrite slept_app, Hsl.
    pose proof (backoff_double (consecutive_fast_failures (book c) + 1) Hlt). rewrite Hk1 in Hsum. simpl length.
    replace (consecutive_fast_failures (book c) + N.of_nat (S (length effs)) + 1)
      with (consecutive_fast_failures (book c) + 1 + N.of_nat (length effs) + 1) by lia. lia.
Qed.

(** C21. A crash loop ends. A service that keeps failing within two seconds of
    its start is restarted at most four times, or what is left of its streak, and
    the next such failure makes the supervisor give it up for good: it is not
    tracked any more and recorded as crash-looping. The pauses in between double
    and come to at most six seconds in all. *)
Theorem crash_loop_ends s pid c effs s2 pid2 :
  tracked s !! pid = Some c -> consecutive_fast_failures (book c) < MAX_CONSECUTIVE_FAST_FAILURES ->
  crash_loop s pid effs s2 pid2 ->
  exists c2, tracked s2 !! pid2 = Some c2 /\ book_name (book c2) = book_name (book c)
  /\ consecutive_fast_failures (book c) + N.of_nat (length effs) < MAX_CONSECUTIVE_FAST_FAILURES
  /\ slept (concat effs) + backoff_duration (consecutive_fast_failures (book c) + 1)
     = backoff_duration (consecutive_fast_failures (book c) + N.of_nat (length effs) + 1)
  /\ slept (concat effs) <= 6 * SECOND
  /\ (consecutive_fast_failures (book c) + N.of_nat (length effs) + 1 = MAX_CONSECUTIVE_FAST_FAILURES ->
      forall at_ a, noticed at_ - started_at (book c2) < FAST_FAILURE_THRESHOLD ->
      exists s3, restart_exited at_ a s2 pid2
        = (Err (GaveUp (book_name (book c)) (restart_count (book c2)) CrashLoop), s3, [])
      /\ tracked s3 = delete pid2 (tracked s2)
      /\ given_up s3 (book_name (book c)) = Some (mkGivenUp (book_name (book c)) (restart_count (book c2)) CrashLoop)).
Proof.
  intros Hc Hk Hloop.
  destruct (crash_loop_streak _ _ _ _ _ _ Hc Hk Hloop) as (c2 & Hc2 & Hn2 & Hk2 & Hlt2 & Hsum). exists c2. split_and!; [done..|lia|done| |].
  - assert (backoff_duration (consecutive_fast_failures (book c) + N.of_nat (length effs) + 1) <= 6400 * MS).
    { unfold backoff_duration. change (6400 * MS) with (200 * 2 ^ 5 * MS). apply N.mul_le_mono_r, N.mul_le_mono_l.
      apply N.pow_le_mono_r; lia. }
    assert (400 * MS <= backoff_duration (consecutive_fast_failures (book c) + 1)).
    { unfold backoff_duration. change (400 * MS) with (200 * 2 ^ 1 * MS). apply N.mul_le_mono_r, N.mul_le_mono_l.
      apply N.pow_le_mono_r; lia. }
    unfold SECOND, MS in *. lia.
  - intros Hend at_ a Hfast. unfold restart_exited, streak. rewrite Hc2. apply N.ltb_lt in Hfast as ->. cbv zeta.
    replace (consecutive_fast_failures (book c2) + 1) with MAX_CONSECUTIVE_FAST_FAILURES by lia. simpl. rewrite Hn2.
    eexists. split; [done|]. split; [apply revoke_kind_same|]. unfold given_up. simpl. rewrite Hn2. by rewrite lookup_insert_eq.
Qed.
End supervisor.

(** ** A concrete run *)

Module SupervisorExample.
Import Crypto.Toy.

(** No error of the kernel is looked into, and no control group. *)
Definition json (_ : WireToken) : text := [].
Definition State := Supervisor (Cgroup := unit).

Definition ok (pid : N) : Attempt (IoError := unit) (Cgroup := unit) := mkAttempt (Ok pid) (Err tt).
Definition fails : Attempt (IoError := unit) (Cgroup := unit) := mkAttempt (Err tt) (Err tt).
Definition quick : Readings := mkReadings 1 1 1.

Definition kg : ServiceSpec := mkSpec (lit "kg") (lit "/bin/kg") [] READ Process (lit "/srv/kg") None [].

Definition start (a : Attempt (IoError := unit)) (s : State) : State := (spawn_sandboxed json 0 0 a s kg).1.2.
Definition exits (a : Attempt (IoError := unit)) (pid : N) (s : State) : State := (restart_exited json quick a s pid).1.2.

Definition booted : State := mkSupervisor (mkState monitor_new 1) (lit "/run") None 1 ∅ ∅.
Definition running : State := start (ok 10) booted.
Definition first_token : CapabilityToken := mkToken 1 0 READ 0 1 None.
Definition second_token : CapabilityToken := mkToken 2 1 READ 0 1 None.

Example restarted_service :
  token_id_of running (lit "kg") = Some 1 /\ pid_of (exits (ok 11) 10 running) (lit "kg") = Some 11
  /\ token_id_of (exits (ok 11) 10 running) (lit "kg") = Some 2
  /\ restart_count_of (exits (ok 11) 10 running) (lit "kg") = Some 1
  /\ is_live 0 (mon (caps (exits (ok 11) 10 running))) first_token = false
  /\ is_live 0 (mon (caps (exits (ok 11) 10 running))) second_token = true.
Proof. by vm_compute. Qed.

(** A process that cannot be started leaves the token minted for it live, with
    nobody to revoke it. *)
Example failed_start_leaks_a_token :
  let s := start fails booted in
  tracked s = ∅ /\ is_live 0 (mon (caps s)) first_token = true
  /\ is_live 0 (mon (caps (shutdown s).1)) first_token = true.
Proof. by vm_compute. Qed.

(** A service given up and then started again is still reported as given up. *)
Example restarted_but_reported_given_up :
  let s := start (ok 12) (exits fails 10 running) in
  pid_of s (lit "kg") = Some 12 /\ given_up s (lit "kg") = Some (mkGivenUp (lit "kg") 0 RespawnFailed).
Proof. by vm_compute. Qed.

(** Giving up because the respawn failed is returned as a failure to spawn. *)
Example respawn_failure_is_a_spawn_error :
  (restart_exited json quick fails running 10).1.1 = Err (Spawn (lit "kg") tt).
Proof. by vm_compute. Qed.

(** The rendezvous path of a service whose name is an absolute path is not
    beneath the directory. *)
Example absolute_name_leaves_the_directory :
  socket_path_for booted (lit "/tmp/x") = lit "/tmp/x.sock" /\ socket_path_for booted (lit "kg") = lit "/run/kg.sock".
Proof. by vm_compute. Qed.

End SupervisorExample.

Section witnesses.
Import Crypto.Toy SupervisorExample.

Lemma running_run : sup_run (IoError := unit) json booted ([] ++ [Started 10 (launch_of json running kg 0 first_token)]) running.
Proof.
  eapply run_more; [apply run_none|]. apply (step_spawn _ booted 0 0 (ok 10) kg (Ok tt)); [done|done| |done].
  by intros p _.
Defined.

Lemma supervised_authority_witness :
  check_rights_ok_result 5 (mon (caps running)) first_token READ = Ok tt.
Proof.
  destruct (supervised_authority json 1 (lit "/run") None booted _ running eq_refl eq_refl running_run) as (Ht & _).
  destruct (Ht first_token 5 READ) as [Hheld _]; [by apply list_elem_of_singleton|]. rewrite Hheld; [done|].
  eexists 10, _. by split.
Defined.

Lemma restart_exited_spec_witness :
  check_live 5 (mon (caps (exits (ok 11) 10 running))) first_token = Err Revoked.
Proof.
  destruct (restart_exited json quick (ok 11) running 10) as [[r s'] eff] eqn:Hr.
  assert (Hs : exits (ok 11) 10 running = s') by (unfold exits; by rewrite Hr). rewrite Hs.
  pose proof (restart_exited_spec json 1 (lit "/run") None booted _ running quick (ok 11) 10 r s' eff
    eq_refl eq_refl running_run ltac:(by vm_compute)) as Hspec.
  assert (Hf : fresh_pid (ok 11) (delete 10 (tracked running))) by (by intros p [= <-]).
  specialize (Hspec Hf Hr). change (tracked running !! 10) with
    (Some (mkChild (mkBook (lit "kg") 0 0 0) (Sandboxed (Cgroup := unit) kg (mkBoundary 10 first_token) first_token 1 None))) in Hspec.
  destruct Hspec as (_ & _ & Hrev & _). by apply Hrev.
Defined.

Lemma crash_loop_ends_witness :
  exists c2, tracked (exits (ok 14) 13 (exits (ok 13) 12 (exits (ok 12) 11 (exits (ok 11) 10 running)))) !! 14 = Some c2
  /\ consecutive_fast_failures (book c2) = 4.
Proof.
  set (s1 := exits (ok 11) 10 running). set (s2 := exits (ok 12) 11 s1). set (s3 := exits (ok 13) 12 s2).
  set (s4 := exits (ok 14) 13 s3).
  assert (Hl : exists effs, crash_loop (IoError := unit) json running 10 effs s4 14 /\ length effs = 4%nat).
  { eexists. split; [|shelve].
    eapply (crash_again json running 10 _ quick (ok 11) 11 (lit "kg") s1); [done|done|done|by vm_compute|].
    eapply (crash_again json s1 11 _ quick (ok 12) 12 (lit "kg") s2); [done|done|done|by vm_compute|].
    eapply (crash_again json s2 12 _ quick (ok 13) 13 (lit "kg") s3); [done|done|done|by vm_compute|].
    eapply (crash_again json s3 13 _ quick (ok 14) 14 (lit "kg") s4); [done|done|done|by vm_compute|].
    apply crash_none. Unshelve. done. }
  destruct Hl as (effs & Hl & Hlen).
  destruct (crash_loop_ends json running 10 _ effs s4 14 eq_refl eq_refl Hl) as (c2 & Hc2 & _ & _ & _ & _ & _).
  exists c2. split; [exact Hc2|]. vm_compute in Hc2. by injection Hc2 as <-.
Defined.

End witnesses.
