(* ===== verification/PluginReview.v ===== *)
(** Plugin manifests and their review: [crates/hyperion-plugin-framework/src/{types,
    review}.rs], with [crates/hyperion-crypto/src/publisher_registry.rs].

    A manifest says what a plugin contributes and which permissions it wants. It is
    installed only when its signature verifies over the manifest's canonical bytes
    and every permission is justified by some contribution. Text is its UTF-8
    bytes; a path is the bytes the operating system knows it by. *)
From S2P Require Import Prelude Crypto Capability F32 Scheduler Wal.
Open Scope N_scope.

Abbreviation text := (list N).

(** ** types.rs *)

Record NativeBinaryDescriptor := mkNative {
  nb_program : text;
  nb_args : list text;
  nb_script : option text
}.

Inductive TrustDepth : Type := D0 | D1 | D2 | D3.

(** The derived order of the variants. *)
Definition depth_rank (d : TrustDepth) : N := match d with D0 => 0 | D1 => 1 | D2 => 2 | D3 => 3 end.

Inductive ImplementationKind : Type := LocalSmallModel | LocalLargeModel | CloudApi | NativeBinary.
Inductive SideEffect : Type := CreatesSemanticObject | NetworkEgressEffect | NoEffect.
Inductive Operation : Type := Read | Write | NetworkEgress | Execute.

#[export] Instance impl_kind_eq_dec : EqDecision ImplementationKind.
Proof. solve_decision. Defined.
#[export] Instance side_effect_eq_dec : EqDecision SideEffect.
Proof. solve_decision. Defined.
#[export] Instance operation_eq_dec : EqDecision Operation.
Proof. solve_decision. Defined.

Record CapabilityGrantRequest := mkRequest {
  operation : Operation;
  scope : text;
  justification : text
}.

Record SemanticContract := mkContract {
  inputs : list text;
  outputs : list text;
  side_effects : list SideEffect
}.

#[export] Instance contract_eq_dec : EqDecision SemanticContract.
Proof. solve_decision. Defined.

Inductive PrivacyTier : Type := Local | ConsentedCloud.

Record CapabilityManifest := mkCapability {
  cm_capability_id : text;
  cm_contract : SemanticContract;
  cm_kind : ImplementationKind;
  cm_quality : f32;
  cm_version : N;
  cm_native : option NativeBinaryDescriptor;
  cm_privacy : PrivacyTier;
  cm_resources : option ResourceVector
}.

Record AgentContribution := mkAgent {
  specialization : text;
  baseline_capabilities : list text;
  requestable_capabilities : list text
}.

Inductive HardwareDeviceType : Type :=
| Display | Mobile | Vehicle | Robot | Wearable | HomeAppliance | Peripheral | Sensor.
Inductive HardwareDirection : Type := Render | Sense | Actuate.
Inductive HardwareSafetyClass : Type := Cosmetic | Standard | High.

Record HardwareCapabilityEntry := mkHardwareEntry {
  capability_name : text;
  direction : HardwareDirection;
  safety_class : HardwareSafetyClass
}.

Record HardwareSupportContribution := mkHardware {
  device_type : HardwareDeviceType;
  manufacturer : text;
  model : text;
  capability_manifest : list HardwareCapabilityEntry
}.

Record KnowledgeProviderContribution := mkKnowledge { topic : text; kp_capability : text }.

Inductive UiRegionAffinity : Type := UiLeft | UiCenter | UiRight | UiTopBar | UiBottomBar.

Record UiComponentContribution := mkUi {
  capability_ref : text;
  panel_template : text;
  region_affinity : UiRegionAffinity;
  min_size : N * N;
  ui_priority : f32;
  binds_category : option text;
  accessible_role : option text;
  label_template : option text;
  keyboard_operations : list text;
  alt_text_hook : option text;
  contrast_ratio : f32;
  has_motion : bool;
  reduced_motion_alternative : bool;
  language_tag : text;
  emits_audio : bool;
  has_visual_alert_equivalent : bool
}.

Record WorkflowLeaf := mkLeaf { leaf_predicate : text; depends_on : list nat }.

Record AutomationWorkflowContribution := mkWorkflow {
  trigger_keywords : list text;
  root_predicate : text;
  leaves : list WorkflowLeaf
}.

Inductive MemoryTierKind : Type := Episodic | Semantic | Procedural | LongTerm.

Record MemoryProviderContribution := mkMemory {
  mp_tier : MemoryTierKind;
  entity_key : text;
  mp_capability : text
}.

Record ExecutionEngineContribution := mkEngine { engine_id : text; launcher : NativeBinaryDescriptor }.

Inductive Contribution : Type :=
| CCapability (c : CapabilityManifest)
| CAgent (c : AgentContribution)
| CHardware (c : HardwareSupportContribution)
| CKnowledge (c : KnowledgeProviderContribution)
| CUi (c : UiComponentContribution)
| CWorkflow (c : AutomationWorkflowContribution)
| CMemory (c : MemoryProviderContribution)
| CEngine (c : ExecutionEngineContribution).

Inductive InvalidBinary : Type := NoDescriptor | NoProgram | NotExecutable | NoScript | NotAFile.

Inductive PluginError : Type :=
| Unauthorized
| SignatureInvalid
| UnknownPublisher (publisher : text)
| PermissionOverreach (op : Operation)
| InsufficientTrustDepth
| ConsentDeclined
| CapabilityCollisionIncompatible
| NoSuchPlugin
| NoSuchCapability
| NoRunnableImplementation (id : text)
| InvalidNativeBinary (why : InvalidBinary)
| ExecutionFailed
| CapabilityFault (f : Fault).

(** ** review.rs *)

(** [String::from_utf8_lossy]: every maximal part that begins no character is
    replaced by U+FFFD. *)
Definition REPLACEMENT : list N := [239; 191; 189].

Definition second_of_3 (b0 b1 : N) : bool :=
  in_rng 224 239 b0 && (if b0 =? 224 then in_rng 160 191 b1 else if b0 =? 237 then in_rng 128 159 b1 else cont b1).

Definition second_of_4 (b0 b1 : N) : bool :=
  in_rng 240 244 b0 && (if b0 =? 240 then in_rng 144 191 b1 else if b0 =? 244 then in_rng 128 143 b1 else cont b1).

Fixpoint from_utf8_lossy (bs : list N) : text :=
  match bs with
  | [] => []
  | b0 :: r0 =>
      if b0 <? 128 then b0 :: from_utf8_lossy r0
      else
        match r0 with
        | b1 :: r1 =>
            if in_rng 194 223 b0 && cont b1 then b0 :: b1 :: from_utf8_lossy r1
            else if second_of_3 b0 b1 then
              match r1 with
              | b2 :: r2 => if cont b2 then b0 :: b1 :: b2 :: from_utf8_lossy r2 else REPLACEMENT ++ from_utf8_lossy r1
              | [] => REPLACEMENT
              end
            else if second_of_4 b0 b1 then
              match r1 with
              | b2 :: r2 =>
                  if cont b2 then
                    match r2 with
                    | b3 :: r3 =>
                        if cont b3 then b0 :: b1 :: b2 :: b3 :: from_utf8_lossy r3 else REPLACEMENT ++ from_utf8_lossy r2
                    | [] => REPLACEMENT
                    end
                  else REPLACEMENT ++ from_utf8_lossy r1
              | [] => REPLACEMENT
              end
            else REPLACEMENT ++ from_utf8_lossy r0
        | [] => REPLACEMENT
        end
  end.

Definition count (n : nat) : list N := le_bytes 8 8 ++ le_bytes 8 (N.of_nat n).
Definition push_bytes (v : list N) : list N := le_bytes 8 (N.of_nat (length v)) ++ v.
Definition push_str (v : text) : list N := push_bytes v.
Definition push_strs (l : list text) : list N := count (length l) ++ (l ≫= push_str).

Definition side_effect_byte (e : SideEffect) : N :=
  match e with CreatesSemanticObject => 0 | NetworkEgressEffect => 1 | NoEffect => 2 end.

Definition push_contract (c : SemanticContract) : list N :=
  push_strs (inputs c) ++ push_strs (outputs c) ++ count (length (side_effects c)) ++ (side_effect_byte <$> side_effects c).

Definition push_native_binary (o : option NativeBinaryDescriptor) : list N :=
  match o with
  | Some nb =>
      [1] ++ push_str (from_utf8_lossy (nb_program nb)) ++ push_strs (nb_args nb)
      ++ match nb_script nb with Some s => [1] ++ push_str (from_utf8_lossy s) | None => [0] end
  | None => [0]
  end.

Definition operation_byte (op : Operation) : N :=
  match op with Read => 0 | Write => 1 | NetworkEgress => 2 | Execute => 3 end.
Definition kind_byte (k : ImplementationKind) : N :=
  match k with LocalSmallModel => 0 | LocalLargeModel => 1 | CloudApi => 2 | NativeBinary => 3 end.
Definition privacy_byte (p : PrivacyTier) : N := match p with Local => 0 | ConsentedCloud => 1 end.
Definition tier_byte (t : MemoryTierKind) : N :=
  match t with Episodic => 0 | Semantic => 1 | Procedural => 2 | LongTerm => 3 end.

Definition push_request (r : CapabilityGrantRequest) : list N :=
  [operation_byte (operation r)] ++ push_str (scope r) ++ push_str (justification r).

Definition push_contribution (c : Contribution) : list N :=
  match c with
  | CCapability c =>
      [0] ++ push_str (cm_capability_id c) ++ le_bytes 4 (cm_version c) ++ [kind_byte (cm_kind c)]
      ++ [privacy_byte (cm_privacy c)] ++ push_contract (cm_contract c) ++ push_native_binary (cm_native c)
  | CAgent c =>
      [1] ++ push_str (specialization c) ++ push_strs (baseline_capabilities c) ++ push_strs (requestable_capabilities c)
  | CHardware c => [2] ++ push_str (manufacturer c) ++ push_str (model c)
  | CKnowledge c => [3] ++ push_str (topic c) ++ push_str (kp_capability c)
  | CUi c => [4] ++ push_str (capability_ref c) ++ push_str (panel_template c)
  | CWorkflow c => [5] ++ push_str (root_predicate c) ++ push_strs (trigger_keywords c)
  | CMemory c => [6] ++ [tier_byte (mp_tier c)] ++ push_str (entity_key c) ++ push_str (mp_capability c)
  | CEngine c => [7] ++ push_str (engine_id c) ++ push_native_binary (Some (launcher c))
  end.

(** ** Codes *)

(** [f] writes what [v] shows of a value, and nothing else, so that whatever
    follows can be told apart from it. *)
Definition codes {A B : Type} (P : A -> Prop) (f : A -> list N) (v : A -> B) : Prop :=
  (forall a b x y, P a -> P b -> f a ++ x = f b ++ y -> v a = v b /\ x = y) /\ forall a b, v a = v b -> f a = f b.

Lemma codes_app {A B C : Type} (P Q : A -> Prop) f g (v : A -> B) (w : A -> C) :
  codes P f v -> codes Q g w -> codes (fun a => P a /\ Q a) (fun a => f a ++ g a) (fun a => (v a, w a)).
Proof.
  intros [Hf Hf'] [Hg Hg']. split.
  - intros a b x y [Pa Qa] [Pb Qb]. rewrite <- !(assoc_L (++)). intros [Hv Heq]%Hf; [|done..].
    apply Hg in Heq as [Hw ->]; [|done..]. by rewrite Hv, Hw.
  - intros a b [= Hv Hw]. by rewrite (Hf' _ _ Hv), (Hg' _ _ Hw).
Qed.

(** The code of a part, and the same view told differently. *)
Lemma codes_proj {A A' B : Type} (p : A -> A') (P : A' -> Prop) f (v : A' -> B) :
  codes P f v -> codes (fun a => P (p a)) (fun a => f (p a)) (fun a => v (p a)).
Proof. intros [Hf Hf']. split; [intros a b x y Pa Pb; by apply Hf|]. intros a b. apply Hf'. Qed.

Lemma codes_view {A B C : Type} (P : A -> Prop) f (v : A -> B) (w : A -> C) :
  codes P f v -> (forall a b, v a = v b <-> w a = w b) -> codes P f w.
Proof.
  intros [Hf Hf'] Hvw. split; [|intros a b Hw; by apply Hf', Hvw].
  intros a b x y Pa Pb Heq. apply Hf in Heq as [Hv ->]; [|done..]. split; [by apply Hvw|done].
Qed.

Lemma codes_byte {A : Type} (f : A -> N) : Inj (=) (=) f -> codes (fun _ => True) (fun a => [f a]) (fun a => a).
Proof. intros Hf. split; [|by intros a b ->]. by intros a b x y _ _ [= ->%(inj f) ->]. Qed.

Lemma codes_le k : codes (fun x => x < 256 ^ N.of_nat k) (le_bytes k) (fun x => x).
Proof. split; [|by intros a b ->]. intros a b x y Pa Pb Heq. by apply le_bytes_app_inj in Heq. Qed.

(** A length that is a [u64]. *)
Definition fits64 {A : Type} (l : list A) : Prop := N.of_nat (length l) < two64.

Lemma codes_str : codes fits64 push_str (fun s => s).
Proof.
  split; [|by intros a b ->]. intros a b x y Pa Pb Heq. unfold push_str, push_bytes in Heq. rewrite <- !(assoc_L (++)) in Heq.
  apply le_bytes_app_inj in Heq as [Hl Heq]; [|done..]. apply app_inj_1 in Heq; [done|lia].
Qed.

Lemma codes_list {A B : Type} (P : A -> Prop) f (v : A -> B) :
  codes P f v -> codes (fun l => fits64 l /\ Forall P l) (fun l => count (length l) ++ (l ≫= f)) (fmap v).
Proof.
  intros [Hf Hf']. split.
  - intros l l' x y [Hl Pl] [Hl' Pl'] Heq. unfold count in Heq. rewrite <- !(assoc_L (++)) in Heq. apply app_inv_head in Heq.
    apply le_bytes_app_inj in Heq as [Hlen Heq]; [|done..]. apply Nat2N.inj in Hlen. clear Hl Hl'.
    revert l' Hlen Pl' Heq. induction Pl as [|a l Pa Pl IH]; intros [|b l'] Hlen Pl' Heq; try done.
    apply Forall_cons in Pl' as [Pb Pl']. rewrite !bind_cons in Heq. rewrite <- !(assoc_L (++)) in Heq. apply Hf in Heq as [Hv Heq]; [|done..].
    apply IH in Heq as [Hvs ->]; [|by injection Hlen|done]. by rewrite !fmap_cons, Hv, Hvs.
  - intros l l' Hv. assert (Hlen : length l = length l') by (apply (f_equal length) in Hv; by rewrite !length_fmap in Hv).
    rewrite Hlen. f_equal. clear Hlen. revert l' Hv. induction l as [|a l IH]; intros [|b l'] Hv; try done.
    rewrite !fmap_cons in Hv. injection Hv as Hv Hvs. rewrite !bind_cons. by rewrite (Hf' _ _ Hv), (IH _ Hvs).
Qed.

Lemma codes_strs : codes (fun l => fits64 l /\ Forall fits64 l) push_strs (fun l => l).
Proof. eapply codes_view; [exact (codes_list _ _ _ codes_str)|]. intros a b. by rewrite !list_fmap_id. Qed.

Lemma codes_option {A B : Type} (P : A -> Prop) f (v : A -> B) :
  codes P f v -> codes (fun o => from_option P True o) (fun o => match o with Some a => [1] ++ f a | None => [0] end) (fmap v).
Proof.
  intros [Hf Hf']. split.
  - intros [a|] [b|] x y Pa Pb; simpl; intros [= Heq]; subst; try done. apply Hf in Heq as [Hv ->]; [|done..].
    by rewrite Hv.
  - intros [a|] [b|]; try done. simpl. intros [= Hv]. by rewrite (Hf' _ _ Hv).
Qed.

(** What is signed of a contribution; the rest is put to a default. *)
Definition signed_native (nb : NativeBinaryDescriptor) : NativeBinaryDescriptor :=
  mkNative (from_utf8_lossy (nb_program nb)) (nb_args nb) (from_utf8_lossy <$> nb_script nb).

Definition signed_capability (c : CapabilityManifest) : CapabilityManifest :=
  mkCapability (cm_capability_id c) (cm_contract c) (cm_kind c) f32_zero (cm_version c) (signed_native <$> cm_native c)
    (cm_privacy c) None.

Definition signed_contribution (c : Contribution) : Contribution :=
  match c with
  | CCapability c => CCapability (signed_capability c)
  | CAgent c => CAgent c
  | CHardware c => CHardware (mkHardware Display (manufacturer c) (model c) [])
  | CKnowledge c => CKnowledge c
  | CUi c =>
      CUi (mkUi (capability_ref c) (panel_template c) UiLeft (0, 0) f32_zero None None None [] None f32_zero false false []
             false false)
  | CWorkflow c => CWorkflow (mkWorkflow (trigger_keywords c) (root_predicate c) [])
  | CMemory c => CMemory c
  | CEngine c => CEngine (mkEngine (engine_id c) (signed_native (launcher c)))
  end.

(** Lengths and numbers are within their types. *)
Definition strs_wf (l : list text) : Prop := fits64 l /\ Forall fits64 l.
Definition native_wf (nb : NativeBinaryDescriptor) : Prop :=
  fits64 (from_utf8_lossy (nb_program nb)) /\ strs_wf (nb_args nb)
  /\ from_option (fun s => fits64 (from_utf8_lossy s)) True (nb_script nb).
Definition contract_wf (c : SemanticContract) : Prop :=
  strs_wf (inputs c) /\ strs_wf (outputs c) /\ fits64 (side_effects c) /\ Forall (fun _ => True) (side_effects c).
Definition capability_wf (c : CapabilityManifest) : Prop :=
  fits64 (cm_capability_id c) /\ cm_version c < two32 /\ True /\ True /\ contract_wf (cm_contract c)
  /\ from_option native_wf True (cm_native c).
Definition contribution_wf (c : Contribution) : Prop :=
  match c with
  | CCapability c => capability_wf c
  | CAgent c => fits64 (specialization c) /\ strs_wf (baseline_capabilities c) /\ strs_wf (requestable_capabilities c)
  | CHardware c => fits64 (manufacturer c) /\ fits64 (model c)
  | CKnowledge c => fits64 (topic c) /\ fits64 (kp_capability c)
  | CUi c => fits64 (capability_ref c) /\ fits64 (panel_template c)
  | CWorkflow c => fits64 (root_predicate c) /\ strs_wf (trigger_keywords c)
  | CMemory c => True /\ fits64 (entity_key c) /\ fits64 (mp_capability c)
  | CEngine c => fits64 (engine_id c) /\ native_wf (launcher c)
  end.
Definition request_wf (r : CapabilityGrantRequest) : Prop := True /\ fits64 (scope r) /\ fits64 (justification r).

Lemma codes_path : codes (fun p => fits64 (from_utf8_lossy p)) (fun p => push_str (from_utf8_lossy p)) from_utf8_lossy.
Proof. exact (codes_proj from_utf8_lossy _ _ _ codes_str). Qed.

Lemma codes_native : codes native_wf (fun nb => push_str (from_utf8_lossy (nb_program nb)) ++ push_strs (nb_args nb)
    ++ match nb_script nb with Some s => [1] ++ push_str (from_utf8_lossy s) | None => [0] end) signed_native.
Proof.
  refine (codes_view _ _ _ _ (codes_app _ _ _ _ _ _ (codes_proj nb_program _ _ _ codes_path)
    (codes_app _ _ _ _ _ _ (codes_proj nb_args _ _ _ codes_strs) (codes_proj nb_script _ _ _ (codes_option _ _ _ codes_path)))) _).
  intros a b. unfold signed_native. split; intros [= ? ? ?]; congruence.
Qed.

Lemma codes_native_opt : codes (fun o => from_option native_wf True o) push_native_binary (fmap signed_native).
Proof. exact (codes_option _ _ _ codes_native). Qed.

Lemma codes_effects :
  codes (fun l => fits64 l /\ Forall (fun _ => True) l) (fun l => count (length l) ++ (side_effect_byte <$> l)) (fun l => l).
Proof.
  assert (Hb : forall l, side_effect_byte <$> l = l ≫= (fun e => [side_effect_byte e]))
    by (intros l; induction l as [|e l IH]; [done|]; rewrite fmap_cons, bind_cons, IH; done).
  eapply codes_view with (v := fmap (fun e : SideEffect => e)); [|intros a b; by rewrite !list_fmap_id].
  destruct (codes_list _ _ _ (codes_byte side_effect_byte ltac:(by intros [] []))) as [Hc Hc'].
  split; [intros a b x y Pa Pb|intros a b]; rewrite !Hb; [by apply Hc|apply Hc'].
Qed.

Lemma codes_contract : codes contract_wf push_contract (fun c => c).
Proof.
  refine (codes_view _ _ _ _ (codes_app _ _ _ _ _ _ (codes_proj inputs _ _ _ codes_strs)
    (codes_app _ _ _ _ _ _ (codes_proj outputs _ _ _ codes_strs) (codes_proj side_effects _ _ _ codes_effects))) _).
  intros [] []. split; intros [= ? ? ?]; simpl in *; congruence.
Qed.

Lemma codes_capability :
  codes capability_wf (fun c => push_str (cm_capability_id c) ++ le_bytes 4 (cm_version c) ++ [kind_byte (cm_kind c)]
      ++ [privacy_byte (cm_privacy c)] ++ push_contract (cm_contract c) ++ push_native_binary (cm_native c)) signed_capability.
Proof.
  refine (codes_view _ _ _ _ (codes_app _ _ _ _ _ _ (codes_proj cm_capability_id _ _ _ codes_str)
    (codes_app _ _ _ _ _ _ (codes_proj cm_version _ _ _ (codes_le 4))
      (codes_app _ _ _ _ _ _ (codes_proj cm_kind _ _ _ (codes_byte kind_byte _))
        (codes_app _ _ _ _ _ _ (codes_proj cm_privacy _ _ _ (codes_byte privacy_byte _))
          (codes_app _ _ _ _ _ _ (codes_proj cm_contract _ _ _ codes_contract)
            (codes_proj cm_native _ _ _ codes_native_opt)))))) _); [by intros [] []..|].
  intros a b. unfold signed_capability. split; intros [= ? ? ? ? ? ?]; congruence.
Qed.

Lemma codes_request : codes request_wf push_request (fun r => r).
Proof.
  refine (codes_view _ _ _ _ (codes_app _ _ _ _ _ _ (codes_proj operation _ _ _ (codes_byte operation_byte _))
    (codes_app _ _ _ _ _ _ (codes_proj scope _ _ _ codes_str) (codes_proj justification _ _ _ codes_str))) _); [by intros [] []|].
  intros [] []. split; intros [= ? ? ?]; simpl in *; congruence.
Qed.

(** The other kinds of contribution, field by field. *)
Lemma codes_agent : codes (fun c => contribution_wf (CAgent c))
  (fun c => push_str (specialization c) ++ push_strs (baseline_capabilities c) ++ push_strs (requestable_capabilities c))
  (fun c => (specialization c, (baseline_capabilities c, requestable_capabilities c))).
Proof.
  exact (codes_app _ _ _ _ _ _ (codes_proj specialization _ _ _ codes_str)
    (codes_app _ _ _ _ _ _ (codes_proj baseline_capabilities _ _ _ codes_strs) (codes_proj requestable_capabilities _ _ _ codes_strs))).
Qed.

Lemma codes_two {A : Type} (p q : A -> text) :
  codes (fun c => fits64 (p c) /\ fits64 (q c)) (fun c => push_str (p c) ++ push_str (q c)) (fun c => (p c, q c)).
Proof. exact (codes_app _ _ _ _ _ _ (codes_proj p _ _ _ codes_str) (codes_proj q _ _ _ codes_str)). Qed.

Lemma codes_workflow : codes (fun c => contribution_wf (CWorkflow c))
  (fun c => push_str (root_predicate c) ++ push_strs (trigger_keywords c)) (fun c => (root_predicate c, trigger_keywords c)).
Proof. exact (codes_app _ _ _ _ _ _ (codes_proj root_predicate _ _ _ codes_str) (codes_proj trigger_keywords _ _ _ codes_strs)). Qed.

Lemma codes_memory : codes (fun c => contribution_wf (CMemory c))
  (fun c => [tier_byte (mp_tier c)] ++ push_str (entity_key c) ++ push_str (mp_capability c))
  (fun c => (mp_tier c, (entity_key c, mp_capability c))).
Proof.
  refine (codes_app _ _ _ _ _ _ (codes_proj mp_tier _ _ _ (codes_byte tier_byte _)) (codes_two entity_key mp_capability)).
  by intros [] [].
Qed.

Lemma codes_engine : codes (fun c => contribution_wf (CEngine c))
  (fun c => push_str (engine_id c) ++ push_native_binary (Some (launcher c)))
  (fun c => (engine_id c, Some (signed_native (launcher c)))).
Proof.
  exact (codes_app _ _ _ _ _ _ (codes_proj engine_id _ _ _ codes_str)
    (codes_proj (fun c => Some (launcher c)) _ _ _ codes_native_opt)).
Qed.

Lemma cons_rest (t : N) l l' : t :: l = t :: l' -> l = l'.
Proof. congruence. Qed.

(** One kind, given the code of its fields. *)
Ltac same_kind Hc :=
  match goal with
  | |- _ -> _ -> _ = _ -> _ =>
      let Pa := fresh in let Pb := fresh in let Heq := fresh in
      intros Pa Pb Heq; apply cons_rest in Heq; apply (proj1 Hc) in Heq as [Heq ->]; [|done..];
      split; [injection Heq; intros; congruence|done]
  | |- _ = _ -> _ => let Hv := fresh in intros Hv; apply (f_equal (cons _)); apply (proj2 Hc); injection Hv; intros; congruence
  end.

Lemma codes_contribution : codes contribution_wf push_contribution signed_contribution.
Proof.
  split.
  - intros a b x y.
    destruct a as [a|a|a|a|a|a|a|a], b as [b|b|b|b|b|b|b|b]; cbn [contribution_wf push_contribution signed_contribution app];
      try (by intros _ _ [=]).
    + same_kind codes_capability.
    + destruct a, b. same_kind codes_agent.
    + same_kind (codes_two manufacturer model).
    + destruct a, b. same_kind (codes_two topic kp_capability).
    + same_kind (codes_two capability_ref panel_template).
    + same_kind codes_workflow.
    + destruct a, b. same_kind codes_memory.
    + same_kind codes_engine.
  - intros a b.
    destruct a as [a|a|a|a|a|a|a|a], b as [b|b|b|b|b|b|b|b]; cbn [push_contribution signed_contribution app]; try (by intros [=]).
    + same_kind codes_capability.
    + by intros [= ->].
    + same_kind (codes_two manufacturer model).
    + by intros [= ->].
    + same_kind (codes_two capability_ref panel_template).
    + same_kind codes_workflow.
    + by intros [= ->].
    + same_kind codes_engine.
Qed.

Section review.
Context `{Signatures}.

Record PluginManifest := mkManifest {
  pm_plugin_id : N;
  publisher : text;
  pm_signature : option Signature;
  sdk_version : N;
  contributions : list Contribution;
  requested_permissions : list CapabilityGrantRequest;
  min_trust_depth : TrustDepth
}.

Definition canonical_bytes (m : PluginManifest) : list N :=
  le_bytes 8 (pm_plugin_id m) ++ push_str (publisher m) ++ le_bytes 4 (sdk_version m) ++ [depth_rank (min_trust_depth m)]
  ++ count (length (requested_permissions m)) ++ (requested_permissions m ≫= push_request)
  ++ count (length (contributions m)) ++ (contributions m ≫= push_contribution).

Definition sign_manifest (m : PluginManifest) (k : SigningKey) : Signature := sign k (canonical_bytes m).

Definition with_signature (m : PluginManifest) (s : option Signature) : PluginManifest :=
  mkManifest (pm_plugin_id m) (publisher m) s (sdk_version m) (contributions m) (requested_permissions m) (min_trust_depth m).

Definition verify_signature (m : PluginManifest) (vk : VerifyingKey) : bool :=
  match pm_signature m with
  | Some s => verify (canonical_bytes (with_signature m None)) s vk
  | None => false
  end.

Definition has_effect (e : SideEffect) (c : SemanticContract) : bool := bool_decide (e ∈ side_effects c).

Definition contract_requires (c : SemanticContract) (op : Operation) : bool :=
  match op with
  | NetworkEgress => has_effect NetworkEgressEffect c
  | Write => has_effect CreatesSemanticObject c || has_effect NetworkEgressEffect c
  | Read | Execute => true
  end.

(** Whether one contribution justifies one permission. *)
Definition justifies (op : Operation) (c : Contribution) : bool :=
  match c with
  | CCapability cm => contract_requires (cm_contract cm) op
  | CAgent _ | CEngine _ => match op with Read | Execute => true | _ => false end
  | CHardware _ | CKnowledge _ | CUi _ | CWorkflow _ | CMemory _ => match op with Read => true | _ => false end
  end.

Fixpoint check_requests (cs : list Contribution) (l : list CapabilityGrantRequest) : Result unit PluginError :=
  match l with
  | [] => Ok tt
  | r :: l =>
      if existsb (justifies (operation r)) cs then check_requests cs l else Err (PermissionOverreach (operation r))
  end.

Definition check_permission_overreach (m : PluginManifest) : Result unit PluginError :=
  check_requests (contributions m) (requested_permissions m).

Definition validate_manifest (m : PluginManifest) (vk : VerifyingKey) : Result unit PluginError :=
  if negb (verify_signature m vk) then Err SignatureInvalid else check_permission_overreach m.

(** ** publisher_registry.rs *)

Definition PublisherRegistry : Type := gmap text VerifyingKey.
Definition register (p : PublisherRegistry) (id : text) (k : VerifyingKey) : PublisherRegistry := <[id := k]> p.
Definition verifying_key_for (p : PublisherRegistry) (id : text) : option VerifyingKey := p !! id.

Definition validate_manifest_against_registry (m : PluginManifest) (p : PublisherRegistry) : Result unit PluginError :=
  let? vk := ok_or (verifying_key_for p (publisher m)) (UnknownPublisher (publisher m)) in
  validate_manifest m vk.

(** ** What a signature covers *)

Definition signed_manifest (m : PluginManifest) : PluginManifest :=
  mkManifest (pm_plugin_id m) (publisher m) None (sdk_version m) (signed_contribution <$> contributions m)
    (requested_permissions m) (min_trust_depth m).

Definition manifest_wf (m : PluginManifest) : Prop :=
  pm_plugin_id m < two64 /\ fits64 (publisher m) /\ sdk_version m < two32 /\ True
  /\ (fits64 (requested_permissions m) /\ Forall request_wf (requested_permissions m))
  /\ fits64 (contributions m) /\ Forall contribution_wf (contributions m).

Lemma codes_manifest : codes manifest_wf canonical_bytes signed_manifest.
Proof.
  assert (Hassoc : forall m, canonical_bytes m = le_bytes 8 (pm_plugin_id m) ++ push_str (publisher m)
    ++ le_bytes 4 (sdk_version m) ++ [depth_rank (min_trust_depth m)]
    ++ (count (length (requested_permissions m)) ++ (requested_permissions m ≫= push_request))
    ++ (count (length (contributions m)) ++ (contributions m ≫= push_contribution)))
    by (intros m; unfold canonical_bytes; by rewrite <- !(assoc_L (++))).
  assert (Hd : Inj (=) (=) depth_rank) by (by intros [] []).
  assert (Hcodes := codes_app _ _ _ _ _ _ (codes_proj pm_plugin_id _ _ _ (codes_le 8))
    (codes_app _ _ _ _ _ _ (codes_proj publisher _ _ _ codes_str)
      (codes_app _ _ _ _ _ _ (codes_proj sdk_version _ _ _ (codes_le 4))
        (codes_app _ _ _ _ _ _ (codes_proj min_trust_depth _ _ _ (codes_byte depth_rank Hd))
          (codes_app _ _ _ _ _ _ (codes_proj requested_permissions _ _ _ (codes_list _ _ _ codes_request))
            (codes_proj contributions _ _ _ (codes_list _ _ _ codes_contribution))))))).
  eapply codes_view in Hcodes.
  - destruct Hcodes as [Hc Hc']. split; [intros a b x y Pa Pb|intros a b]; rewrite !Hassoc; [by apply Hc|apply Hc'].
  - intros a b. unfold signed_manifest. rewrite !list_fmap_id. split; intros [= ? ? ? ? ? ?]; congruence.
Qed.

Lemma justifies_signed op c : justifies op (signed_contribution c) = justifies op c.
Proof. by destruct c. Qed.

Lemma check_requests_signed cs l : check_requests (signed_contribution <$> cs) l = check_requests cs l.
Proof.
  assert (Hex : forall op, existsb (justifies op) (signed_contribution <$> cs) = existsb (justifies op) cs).
  { intros op. induction cs as [|c cs IHc]; [done|]. rewrite fmap_cons. cbn [existsb]. by rewrite justifies_signed, IHc. }
  induction l as [|r l IH]; [done|]. cbn [check_requests]. by rewrite IH, Hex.
Qed.

(** The gate lets through what is justified. *)
Lemma check_requests_ok cs l :
  check_requests cs l = Ok tt <-> Forall (fun r => exists c, c ∈ cs /\ justifies (operation r) c = true) l.
Proof.
  induction l as [|r l IH]; simpl; [by split|]. rewrite Forall_cons, <- IH. destruct (existsb _ _) eqn:He.
  - apply existsb_exists in He as (c & Hc & Hj). split; [|by intros [_ ?]]. intros ?. split; [|done]. exists c.
    by rewrite list_elem_of_In.
  - split; [done|]. intros [(c & Hc & Hj) _]. exfalso. rewrite <- not_true_iff_false, existsb_exists in He. apply He.
    exists c. by rewrite <- list_elem_of_In.
Qed.

(** C35. What a plugin's signature binds, and what the review lets through. A signed
    manifest verifies. A manifest that verifies with its signature has the same number,
    publisher, version, permissions and depth, and contributions of the same kinds with
    the same programs and scripts (as text), contracts, side effects and names, and gets
    the same verdict, unless that signature verifies for the bytes of both. A manifest
    passes the review exactly when its signature verifies and every permission it asks
    for is justified by one of its contributions. *)
Theorem review_is_exact m k :
  manifest_wf m ->
  let signed := with_signature m (Some (sign_manifest m k)) in
  verify_signature signed (verifying_key k) = true
  /\ (forall m', manifest_wf m' -> pm_signature m' = pm_signature signed ->
        verify_signature m' (verifying_key k) = true ->
        (signed_manifest m' = signed_manifest m /\ validate_manifest m' (verifying_key k) = validate_manifest signed (verifying_key k))
        \/ confused (verifying_key k) (sign_manifest m k) (canonical_bytes (with_signature m' None)) (canonical_bytes m))
  /\ forall m' vk, validate_manifest m' vk = Ok tt <->
       verify_signature m' vk = true
       /\ forall r, r ∈ requested_permissions m' -> exists c, c ∈ contributions m' /\ justifies (operation r) c = true.
Proof.
  intros Hwf signed. assert (Hsigned : verify_signature signed (verifying_key k) = true) by apply sig_correct.
  split; [done|]. split.
  - intros m' Hwf' Hsig Hv. pose proof Hv as Hv'. unfold verify_signature in Hv'. rewrite Hsig in Hv'. simpl in Hv'.
    destruct (same_or_confused _ _ _ _ Hv' (sig_correct k (canonical_bytes m))) as [Heq|?]; [left|by right].
    assert (Hm : signed_manifest m' = signed_manifest m).
    { apply (f_equal (.++ [])) in Heq. by apply (proj1 codes_manifest) in Heq as [? _]. }
    split; [exact Hm|]. unfold validate_manifest. rewrite Hsigned, Hv. simpl.
    unfold check_permission_overreach. rewrite <- (check_requests_signed (contributions m')).
    apply (f_equal (fun m => (contributions m, requested_permissions m))) in Hm. injection Hm as -> ->.
    by rewrite check_requests_signed.
  - intros m' vk. unfold validate_manifest, check_permission_overreach. destruct (verify_signature m' vk); simpl; [|naive_solver].
    rewrite check_requests_ok, Forall_forall. naive_solver.
Qed.
End review.

(** Valid text is not changed. *)
Lemma lossy_valid bs : utf8_valid bs = true -> from_utf8_lossy bs = bs.
Proof.
  remember (length bs) as n eqn:Hn. revert bs Hn. induction (lt_wf n) as [n _ IHn]. intros bs ->.
  assert (IH : forall r, (length r < length bs)%nat -> utf8_valid r = true -> from_utf8_lossy r = r) by eauto. clear IHn.
  destruct bs as [|b0 r0]; [done|]. cbn [utf8_valid from_utf8_lossy].
  destruct (b0 <? 128); [intros ?; by rewrite IH by (done || simpl; lia)|].
  destruct r0 as [|b1 r1]; [done|]. destruct (in_rng 194 223 b0) eqn:H2.
  { intros [Hc ?]%andb_true_iff. rewrite Hc. simpl. by rewrite IH by (done || simpl; lia). }
  destruct r1 as [|b2 r2]; [done|]. cbn [andb]. unfold second_of_3. destruct (in_rng 224 239 b0).
  { intros [[Hs Hc]%andb_true_iff ?]%andb_true_iff. cbn [andb]. rewrite Hs, Hc. by rewrite IH by (done || simpl; lia). }
  destruct r2 as [|b3 r3]; [done|]. cbn [andb]. unfold second_of_4.
  intros [[[Hs Hc]%andb_true_iff Hc']%andb_true_iff ?]%andb_true_iff. rewrite Hs, Hc, Hc'. by rewrite IH by (done || simpl; lia).
Qed.

(** ** Concrete manifests *)
Module ReviewExample.
Import Crypto.Toy.

Definition tool : NativeBinaryDescriptor := mkNative [47; 98] [] None.
Definition pure_contract : SemanticContract := mkContract [[105]] [[111]] [NoEffect].
Definition capability (c : SemanticContract) : Contribution :=
  CCapability (mkCapability [99] c NativeBinary f32_one 1 (Some tool) Local None).
Definition manifest (cs : list Contribution) (l : list CapabilityGrantRequest) : PluginManifest :=
  mkManifest 7 [112] None 1 cs l D1.
Definition signed (m : PluginManifest) : PluginManifest := with_signature m (Some (sign_manifest m 5)).
Definition ask (op : Operation) : CapabilityGrantRequest := mkRequest op [115] [106].

(** A capability without side effects may be read and run, and cannot ask for more. *)
Example overreach_is_refused :
  validate_manifest (signed (manifest [capability pure_contract] [ask Read; ask Execute])) 5 = Ok tt
  /\ validate_manifest (signed (manifest [capability pure_contract] [ask Read; ask NetworkEgress])) 5
     = Err (PermissionOverreach NetworkEgress).
Proof. vm_compute. done. Qed.

(** The steps of a workflow are not signed: whoever carries the manifest can give it
    others. *)
Definition workflow (l : list WorkflowLeaf) : PluginManifest := manifest [CWorkflow (mkWorkflow [[107]] [114] l)] [ask Read].
Example unsigned_workflow_steps :
  let forged := with_signature (workflow [mkLeaf [119; 105; 112; 101] []]) (pm_signature (signed (workflow []))) in
  validate_manifest forged 5 = Ok tt.
Proof. vm_compute. done. Qed.

(** Two programs whose paths are not text are one to the signature. *)
Definition at_path (p : text) : PluginManifest :=
  manifest [CCapability (mkCapability [99] pure_contract NativeBinary f32_one 1 (Some (mkNative p [] None)) Local None)] [].
Example paths_are_confused :
  let forged := with_signature (at_path [47; 254]) (pm_signature (signed (at_path [47; 255]))) in
  validate_manifest forged 5 = Ok tt.
Proof. vm_compute. done. Qed.
End ReviewExample.
Import Crypto.Toy ReviewExample.

Lemma review_is_exact_witness :
  let m := manifest [capability pure_contract] [ask Read] in
  verify_signature (signed m) 5 = true
  /\ verify_signature (with_signature (manifest [capability pure_contract] [ask Write]) (pm_signature (signed m))) 5 <> true.
Proof.
  assert (Hwf : manifest_wf (manifest [capability pure_contract] [ask Read]))
    by (repeat split; try done; repeat constructor).
  assert (Hwf' : manifest_wf (with_signature (manifest [capability pure_contract] [ask Write]) (Some (5, []))))
    by (repeat split; try done; repeat constructor).
  destruct (review_is_exact (manifest [capability pure_contract] [ask Read]) 5 Hwf) as (Hok & Hall & _).
  split; [exact Hok|]. intros Hv.
  destruct (Hall (with_signature (manifest [capability pure_contract] [ask Write])
                    (pm_signature (signed (manifest [capability pure_contract] [ask Read])))) Hwf' eq_refl Hv) as [[Hm _]|(Hne & H1 & H2)].
  - discriminate.
  - apply bool_decide_eq_true in H1, H2. apply Hne. congruence.
Defined.
