(* ===== verification/Plugins.v ===== *)
(** The plugin registry: [crates/hyperion-plugin-framework/src/registry.rs].

    Installing a plugin mints one token per permission its reviewed manifest asks
    for, under a trust boundary of its own, and registers what it contributes;
    updating replaces both; uninstalling takes them away. The registry works on the
    capability monitor of [Capability], which installing, updating and uninstalling
    hold exclusively. What the file system says of a path, the readings of the clock
    and what becomes of a sandboxed process are arguments. *)
From S2P Require Import Prelude Crypto Capability DebugFmt F32 Scheduler Wal Json Supervisor PluginReview.
Open Scope N_scope.

(** ** types.rs *)

Inductive InstallState : Type := Pending | Active | Quarantined.

#[export] Instance install_state_eq_dec : EqDecision InstallState.
Proof. solve_decision. Defined.

Inductive QuarantineReason : Type := Overreached | IntegrityFailure | PolicyViolation.

Record ImplementationDescriptor := mkImpl {
  impl_plugin : N;
  impl_kind : ImplementationKind;
  impl_quality : f32;
  impl_version : N;
  impl_native : option NativeBinaryDescriptor;
  impl_privacy : PrivacyTier;
  impl_resources : option ResourceVector
}.

Record RegistryEntry := mkEntry {
  entry_id : text;
  entry_contract : SemanticContract;
  implementations : list ImplementationDescriptor;
  owning_plugins : list N;
  install_state : InstallState
}.

Record PluginHandle := mkHandle { handle_plugin : N; handle_boundary : TrustBoundaryId }.

(** What [std::fs] says of paths: the mode of what a path leads to, and whether the
    path itself, links not followed, is a regular file. *)
Record FileSystem := mkFs {
  mode_of : text -> option N;
  regular_file : text -> option bool
}.

(** ** registry.rs *)

Definition rights_for (op : Operation) : RightsMask :=
  match op with
  | Read => READ
  | Write | NetworkEgress => WRITE
  | Execute => EXEC
  end.

Definition grants_equal (a b : CapabilityGrantRequest) : bool :=
  bool_decide (operation a = operation b) && bool_decide (scope a = scope b).

Definition is_native (c : Contribution) : bool :=
  match c with CCapability cm => bool_decide (cm_kind cm = NativeBinary) | _ => false end.

Definition keeps_state (c : SemanticContract) : bool := has_effect CreatesSemanticObject c.

Definition validate_native_binary (fs : FileSystem) (o : option NativeBinaryDescriptor) : Result unit PluginError :=
  let? nb := ok_or o (InvalidNativeBinary NoDescriptor) in
  let? mode := ok_or (mode_of fs (nb_program nb)) (InvalidNativeBinary NoProgram) in
  if N.land mode 73 =? 0 then Err (InvalidNativeBinary NotExecutable)
  else
    match nb_script nb with
    | None => Ok tt
    | Some script =>
        let? regular := ok_or (regular_file fs script) (InvalidNativeBinary NoScript) in
        if (regular : bool) then Ok tt else Err (InvalidNativeBinary NotAFile)
    end.

Definition validate_contribution (fs : FileSystem) (c : Contribution) : Result unit PluginError :=
  match c with
  | CCapability cm => if bool_decide (cm_kind cm = NativeBinary) then validate_native_binary fs (cm_native cm) else Ok tt
  | CEngine ee => validate_native_binary fs (Some (launcher ee))
  | _ => Ok tt
  end.

Fixpoint validate_each (fs : FileSystem) (l : list Contribution) : Result unit PluginError :=
  match l with
  | [] => Ok tt
  | c :: l => let? _ := validate_contribution fs c in validate_each fs l
  end.

Definition real_trust_depth (d : TrustDepth) : Supervisor.TrustDepth :=
  match d with D0 | D1 => Process | D2 | D3 => Container end.

(** [capability_id#n] for the least [n >= 2] that is free. *)
Definition candidate (id : text) (n : N) : text := id ++ [35] ++ debug_u64 n.

Fixpoint variant_loop (fuel : nat) (registry : gmap text RegistryEntry) (id : text) (n : N) : text :=
  match fuel with
  | O => candidate id n
  | S fuel => if registry !! candidate id n is Some _ then variant_loop fuel registry id (n + 1) else candidate id n
  end.

Definition version_variant (registry : gmap text RegistryEntry) (id : text) : text :=
  variant_loop (S (size registry)) registry id 2.

(** [register_implementation]. *)
Definition descriptor_of (p : N) (cm : CapabilityManifest) : ImplementationDescriptor :=
  mkImpl p (cm_kind cm) (cm_quality cm) (cm_version cm) (cm_native cm) (cm_privacy cm) (cm_resources cm).

Definition new_entry (id : text) (p : N) (cm : CapabilityManifest) : RegistryEntry :=
  mkEntry id (cm_contract cm) [descriptor_of p cm] [p] Active.

Definition join_entry (e : RegistryEntry) (p : N) (cm : CapabilityManifest) : RegistryEntry :=
  mkEntry (entry_id e) (entry_contract e) (implementations e ++ [descriptor_of p cm]) (owning_plugins e ++ [p])
    (install_state e).

Definition register_implementation (registry : gmap text RegistryEntry) (p : N) (cm : CapabilityManifest) :
    gmap text RegistryEntry :=
  match registry !! cm_capability_id cm with
  | Some e =>
      if bool_decide (entry_contract e = cm_contract cm) then <[cm_capability_id cm := join_entry e p cm]> registry
      else let id := version_variant registry (cm_capability_id cm) in <[id := new_entry id p cm]> registry
  | None => <[cm_capability_id cm := new_entry (cm_capability_id cm) p cm]> registry
  end.

(** The contributions that are kept per plugin. *)
Record Contributed := mkContributed {
  agents : gmap N (list AgentContribution);
  hardware_support : gmap N (list HardwareSupportContribution);
  knowledge_providers : gmap N (list KnowledgeProviderContribution);
  ui_components : gmap N (list UiComponentContribution);
  automation_workflows : gmap N (list AutomationWorkflowContribution);
  memory_providers : gmap N (list MemoryProviderContribution);
  execution_engines : gmap N (list ExecutionEngineContribution)
}.

Definition no_contributions : Contributed := mkContributed ∅ ∅ ∅ ∅ ∅ ∅ ∅.

(** [entry(plugin_id).or_default().push(x)]. *)
Definition push_to {A : Type} (m : gmap N (list A)) (p : N) (x : A) : gmap N (list A) := <[p := default [] (m !! p) ++ [x]]> m.

Definition register_extra (x : Contributed) (p : N) (c : Contribution) : Contributed :=
  let '(mkContributed a h k u w m e) := x in
  match c with
  | CCapability _ => x
  | CAgent c => mkContributed (push_to a p c) h k u w m e
  | CHardware c => mkContributed a (push_to h p c) k u w m e
  | CKnowledge c => mkContributed a h (push_to k p c) u w m e
  | CUi c => mkContributed a h k (push_to u p c) w m e
  | CWorkflow c => mkContributed a h k u (push_to w p c) m e
  | CMemory c => mkContributed a h k u w (push_to m p c) e
  | CEngine c => mkContributed a h k u w m (push_to e p c)
  end.

Definition remove_extras (x : Contributed) (p : N) : Contributed :=
  mkContributed (base.delete p (agents x)) (base.delete p (hardware_support x)) (base.delete p (knowledge_providers x))
    (base.delete p (ui_components x)) (base.delete p (automation_workflows x)) (base.delete p (memory_providers x))
    (base.delete p (execution_engines x)).

(** [implementations.retain], [owning_plugins.retain] and the entries left. *)
Definition without_plugin (p : N) (e : RegistryEntry) : RegistryEntry :=
  mkEntry (entry_id e) (entry_contract e) (List.filter (fun d => negb (impl_plugin d =? p)) (implementations e))
    (List.filter (fun q => negb (q =? p)) (owning_plugins e)) (install_state e).

Definition inhabited_entry (e : RegistryEntry) : option RegistryEntry :=
  match implementations e with [] => None | _ => Some e end.

Definition remove_implementations (registry : gmap text RegistryEntry) (p : N) : gmap text RegistryEntry :=
  omap (fun e => inhabited_entry (without_plugin p e)) registry.

Section registry.
Context `{Signatures} `{HashIter}.

Record PluginRegistry := mkRegistry {
  app_data_root : option text;
  plugins : gmap N PluginManifest;
  boundaries : gmap N TrustBoundaryId;
  tokens : gmap N (list CapabilityToken);
  sandbox_tokens : gmap N CapabilityToken;
  registry : gmap text RegistryEntry;
  contributed : Contributed;
  quarantined_plugins : gset N;
  next_plugin_id : N;
  next_boundary_ordinal : N
}.

Definition new_registry (root : option text) : PluginRegistry :=
  mkRegistry root ∅ ∅ ∅ ∅ ∅ no_contributions ∅ 1 1.

Definition with_plugins (s : PluginRegistry) (l : gmap N PluginManifest) : PluginRegistry :=
  mkRegistry (app_data_root s) l (boundaries s) (tokens s) (sandbox_tokens s) (registry s) (contributed s)
    (quarantined_plugins s) (next_plugin_id s) (next_boundary_ordinal s).
Definition with_boundaries (s : PluginRegistry) (l : gmap N TrustBoundaryId) : PluginRegistry :=
  mkRegistry (app_data_root s) (plugins s) l (tokens s) (sandbox_tokens s) (registry s) (contributed s)
    (quarantined_plugins s) (next_plugin_id s) (next_boundary_ordinal s).
Definition with_tokens (s : PluginRegistry) (l : gmap N (list CapabilityToken)) : PluginRegistry :=
  mkRegistry (app_data_root s) (plugins s) (boundaries s) l (sandbox_tokens s) (registry s) (contributed s)
    (quarantined_plugins s) (next_plugin_id s) (next_boundary_ordinal s).
Definition with_sandbox_tokens (s : PluginRegistry) (l : gmap N CapabilityToken) : PluginRegistry :=
  mkRegistry (app_data_root s) (plugins s) (boundaries s) (tokens s) l (registry s) (contributed s)
    (quarantined_plugins s) (next_plugin_id s) (next_boundary_ordinal s).
Definition with_contents (s : PluginRegistry) (r : gmap text RegistryEntry) (x : Contributed) : PluginRegistry :=
  mkRegistry (app_data_root s) (plugins s) (boundaries s) (tokens s) (sandbox_tokens s) r x
    (quarantined_plugins s) (next_plugin_id s) (next_boundary_ordinal s).
Definition with_quarantined (s : PluginRegistry) (q : gset N) : PluginRegistry :=
  mkRegistry (app_data_root s) (plugins s) (boundaries s) (tokens s) (sandbox_tokens s) (registry s) (contributed s)
    q (next_plugin_id s) (next_boundary_ordinal s).
Definition with_counters (s : PluginRegistry) (a b : N) : PluginRegistry :=
  mkRegistry (app_data_root s) (plugins s) (boundaries s) (tokens s) (sandbox_tokens s) (registry s) (contributed s)
    (quarantined_plugins s) a b.

(** *** Operations on the registry and the monitor *)

(** An operation may fail, with the state as it is by then; [None] is a panic. *)
Definition State : Type := PluginRegistry * CapState.
Definition PM (A : Type) : Type := State -> option (Result A PluginError * State).

#[local] Instance pm_ret : MRet PM := fun A a s => Some (Ok a, s).
#[local] Instance pm_bind : MBind PM := fun A B k e s =>
  match e s with
  | Some (Ok a, s) => k a s
  | Some (Err f, s) => Some (Err f, s)
  | None => None
  end.

Definition checks {A : Type} (f : PluginRegistry -> Result A PluginError) : PM A := fun s => Some (f s.1, s).
Definition updates (f : PluginRegistry -> PluginRegistry) : PM unit := fun s => Some (Ok tt, (f s.1, s.2)).
Definition panics {A : Type} : PM A := fun _ => None.

Definition authorised (now : Instant) (t : CapabilityToken) (r : RightsMask) : PM unit := fun s =>
  Some (map_err (fun _ => PluginReview.Unauthorized) (check_rights_ok_result now (mon s.2) t r), s).

Definition derive (now : Instant) (admin : CapabilityToken) (r : RightsMask) (b : TrustBoundaryId) : PM CapabilityToken := fun s =>
  let '(res, c) := cap_derive now s.2 admin r None b in Some (map_err CapabilityFault res, (s.1, c)).

(** [cap_revoke], its receipt ignored. *)
Definition revoke_one (t : CapabilityToken) : PM unit := fun s =>
  match cap_revoke s.2 t with Some (_, c) => Some (Ok tt, (s.1, c)) | None => None end.

Fixpoint revoke_each (l : list CapabilityToken) : PM unit :=
  match l with
  | [] => mret tt
  | t :: l => revoke_one t;; revoke_each l
  end.

(** [register_contributions] and [remove_registry_and_contributions]. *)
Definition register_one (p : N) (s : PluginRegistry) (c : Contribution) : PluginRegistry :=
  match c with
  | CCapability cm => with_contents s (register_implementation (registry s) p cm) (contributed s)
  | _ => with_contents s (registry s) (register_extra (contributed s) p c)
  end.

Definition register_contributions (p : N) (cs : list Contribution) (s : PluginRegistry) : PluginRegistry :=
  fold_left (register_one p) cs s.

Definition remove_registry_and_contributions (p : N) (s : PluginRegistry) : PluginRegistry :=
  with_contents s (remove_implementations (registry s) p) (remove_extras (contributed s) p).

(** One token per request. [clock] gives the readings of the clock in order. *)
Fixpoint mint_all (clock : nat -> Instant) (admin : CapabilityToken) (b : TrustBoundaryId) (l : list CapabilityGrantRequest) :
    PM (list CapabilityToken) :=
  match l with
  | [] => mret []
  | r :: l =>
      t ← derive (clock 0%nat) admin (rights_for (operation r)) b;
      ts ← mint_all (fun k => clock (S k)) admin b l;
      mret (t :: ts)
  end.

Definition allocate : PM (N * TrustBoundaryId) := fun s =>
  let r := s.1 in
  Some (Ok (next_plugin_id r, u64_add 1000000 (next_boundary_ordinal r)),
        (with_counters r (u64_add (next_plugin_id r) 1) (u64_add (next_boundary_ordinal r) 1), s.2)).

Definition sandbox_rights : RightsMask := rights_or READ WRITE.

Definition install_validated (fs : FileSystem) (clock : nat -> Instant) (admin : CapabilityToken) (m : PluginManifest)
    (available : TrustDepth) (consented : bool) : PM PluginHandle :=
  if depth_rank available <? depth_rank (min_trust_depth m) then checks (fun _ => Err InsufficientTrustDepth)
  else if negb consented then checks (fun _ => Err ConsentDeclined)
  else
    checks (fun _ => validate_each fs (contributions m));;
    '(p, b) ← allocate;
    minted ← mint_all clock admin b (requested_permissions m);
    (if existsb is_native (contributions m) then
       t ← derive (clock (length (requested_permissions m))) admin sandbox_rights b;
       updates (fun s => with_sandbox_tokens s (<[p := t]> (sandbox_tokens s)))
     else mret tt);;
    updates (register_contributions p (contributions m));;
    updates (fun s => with_plugins s (<[p := m]> (plugins s)));;
    updates (fun s => with_boundaries s (<[p := b]> (boundaries s)));;
    updates (fun s => with_tokens s (<[p := minted]> (tokens s)));;
    mret (mkHandle p b).

Definition install (fs : FileSystem) (now : Instant) (clock : nat -> Instant) (admin : CapabilityToken) (m : PluginManifest)
    (available : TrustDepth) (consented : bool) (vk : VerifyingKey) : PM PluginHandle :=
  authorised now admin GRANT;;
  checks (fun _ => validate_manifest m vk);;
  install_validated fs clock admin m available consented.

Definition install_with_publisher_registry (fs : FileSystem) (now : Instant) (clock : nat -> Instant) (admin : CapabilityToken)
    (m : PluginManifest) (available : TrustDepth) (consented : bool) (publishers : PublisherRegistry) : PM PluginHandle :=
  authorised now admin GRANT;;
  checks (fun _ => validate_manifest_against_registry m publishers);;
  install_validated fs clock admin m available consented.

Definition plugin_and_boundary (p : N) : PM (PluginManifest * TrustBoundaryId) :=
  old ← checks (fun s => ok_or (plugins s !! p) NoSuchPlugin);
  b ← checks (fun s => ok_or (boundaries s !! p) NoSuchPlugin);
  mret (old, b).

Definition requested_in (l : list CapabilityGrantRequest) (g : CapabilityGrantRequest) : bool :=
  existsb (fun e => grants_equal e g) l.

Definition new_grants (old new : PluginManifest) : list CapabilityGrantRequest :=
  List.filter (fun g => negb (requested_in (requested_permissions old) g)) (requested_permissions new).

(** [iter().position(...)]. *)
Fixpoint position {A : Type} (f : A -> bool) (l : list A) : option nat :=
  match l with
  | [] => None
  | x :: l => if f x then Some O else S <$> position f l
  end.

(** The tokens of the new manifest, kept from the old one where it had the grant. *)
Fixpoint carry_tokens (clock : nat -> Instant) (admin : CapabilityToken) (b : TrustBoundaryId)
    (old : list CapabilityGrantRequest) (old_tokens : list CapabilityToken) (l : list CapabilityGrantRequest) :
    PM (list CapabilityToken) :=
  match l with
  | [] => mret []
  | g :: l =>
      t ← match position (fun e => grants_equal e g) old with
          | Some i => match old_tokens !! i with Some t => mret t | None => panics end
          | None => derive (clock 0%nat) admin (rights_for (operation g)) b
          end;
      ts ← carry_tokens (fun k => clock (S k)) admin b old old_tokens l;
      mret (t :: ts)
  end.

(** The tokens of grants that were dropped. *)
Fixpoint revoke_dropped (new : list CapabilityGrantRequest) (old_tokens : list CapabilityToken) (i : nat)
    (old : list CapabilityGrantRequest) : PM unit :=
  match old with
  | [] => mret tt
  | g :: old =>
      (if requested_in new g then mret tt
       else match old_tokens !! i with Some t => revoke_one t | None => panics end);;
      revoke_dropped new old_tokens (S i) old
  end.

Definition update_validated (fs : FileSystem) (clock : nat -> Instant) (admin : CapabilityToken) (p : N) (old : PluginManifest)
    (b : TrustBoundaryId) (new : PluginManifest) (available : TrustDepth) (consented : bool) : PM (list CapabilityGrantRequest) :=
  if depth_rank available <? depth_rank (min_trust_depth new) then checks (fun _ => Err InsufficientTrustDepth)
  else if bool_decide (new_grants old new <> []) && negb consented then checks (fun _ => Err ConsentDeclined)
  else
    checks (fun _ => validate_each fs (contributions new));;
    old_tokens ← checks (fun s => Ok (default [] (tokens s !! p)));
    updated ← carry_tokens clock admin b (requested_permissions old) old_tokens (requested_permissions new);
    revoke_dropped (requested_permissions new) old_tokens 0 (requested_permissions old);;
    updates (remove_registry_and_contributions p);;
    updates (register_contributions p (contributions new));;
    has ← checks (fun s => Ok (bool_decide (is_Some (sandbox_tokens s !! p))));
    (if existsb is_native (contributions new) then
       if (has : bool) then mret tt
       else
         t ← derive (clock (length (requested_permissions new))) admin sandbox_rights b;
         updates (fun s => with_sandbox_tokens s (<[p := t]> (sandbox_tokens s)))
     else updates (fun s => with_sandbox_tokens s (base.delete p (sandbox_tokens s))));;
    updates (fun s => with_plugins s (<[p := new]> (plugins s)));;
    updates (fun s => with_tokens s (<[p := updated]> (tokens s)));;
    mret (new_grants old new).

Definition update (fs : FileSystem) (now : Instant) (clock : nat -> Instant) (admin : CapabilityToken) (p : N)
    (new : PluginManifest) (available : TrustDepth) (consented : bool) (vk : VerifyingKey) : PM (list CapabilityGrantRequest) :=
  authorised now admin GRANT;;
  '(old, b) ← plugin_and_boundary p;
  checks (fun _ => validate_manifest new vk);;
  update_validated fs clock admin p old b new available consented.

Definition update_with_publisher_registry (fs : FileSystem) (now : Instant) (clock : nat -> Instant) (admin : CapabilityToken)
    (p : N) (new : PluginManifest) (available : TrustDepth) (consented : bool) (publishers : PublisherRegistry) :
    PM (list CapabilityGrantRequest) :=
  authorised now admin GRANT;;
  '(old, b) ← plugin_and_boundary p;
  checks (fun _ => validate_manifest_against_registry new publishers);;
  update_validated fs clock admin p old b new available consented.

Definition uninstall (now : Instant) (admin : CapabilityToken) (p : N) : PM unit :=
  authorised now admin REVOKE;;
  ts ← checks (fun s => ok_or (tokens s !! p) NoSuchPlugin);
  updates (fun s => with_tokens s (base.delete p (tokens s)));;
  revoke_each ts;;
  updates (remove_registry_and_contributions p);;
  updates (fun s => with_plugins s (base.delete p (plugins s)));;
  updates (fun s => with_boundaries s (base.delete p (boundaries s)));;
  updates (fun s => with_quarantined s (quarantined_plugins s ∖ {[p]})).

Definition quarantine_entry (p : N) (e : RegistryEntry) : RegistryEntry :=
  if bool_decide (p ∈ owning_plugins e)
  then mkEntry (entry_id e) (entry_contract e) (implementations e) (owning_plugins e) Quarantined else e.

Definition quarantine (p : N) (_ : QuarantineReason) : PM unit :=
  checks (fun s => ok_or (plugins s !! p) NoSuchPlugin);;
  updates (fun s => with_contents s (quarantine_entry p <$> registry s) (contributed s));;
  updates (fun s => with_quarantined s (quarantined_plugins s ∪ {[p]})).

(** *** Queries *)

Definition listed {A : Type} (s : PluginRegistry) (m : gmap N (list A)) : list A :=
  hash_iter m ≫= fun '(p, l) => if bool_decide (p ∈ quarantined_plugins s) then [] else l.

Definition agent_contributions (s : PluginRegistry) : list AgentContribution := listed s (agents (contributed s)).
Definition hardware_support_contributions (s : PluginRegistry) : list HardwareSupportContribution :=
  listed s (hardware_support (contributed s)).
Definition knowledge_provider_contributions (s : PluginRegistry) : list KnowledgeProviderContribution :=
  listed s (knowledge_providers (contributed s)).
Definition ui_component_contributions (s : PluginRegistry) : list UiComponentContribution := listed s (ui_components (contributed s)).
Definition automation_workflow_contributions (s : PluginRegistry) : list AutomationWorkflowContribution :=
  listed s (automation_workflows (contributed s)).
Definition memory_provider_contributions (s : PluginRegistry) : list MemoryProviderContribution :=
  listed s (memory_providers (contributed s)).

Definition execution_engine (s : PluginRegistry) (id : text) : option ExecutionEngineContribution :=
  List.find (fun e => bool_decide (engine_id e = id)) (listed s (execution_engines (contributed s))).

Definition available (e : RegistryEntry) : bool := bool_decide (install_state e <> Quarantined).

Definition query (s : PluginRegistry) (id : text) : option RegistryEntry :=
  e ← registry s !! id; if available e then Some e else None.

(** Strings are compared byte by byte. *)
Fixpoint text_ltb (a b : text) : bool :=
  match a, b with
  | _, [] => false
  | [], _ :: _ => true
  | x :: a, y :: b => (x <? y) || (x =? y) && text_ltb a b
  end.

(** [dedup] on a sorted list. *)
Fixpoint dedup (l : list text) : list text :=
  match l with
  | [] => []
  | x :: l' =>
      match l' with
      | [] => [x]
      | y :: _ => if bool_decide (x = y) then dedup l' else x :: dedup l'
      end
  end.

Definition execution_engine_ids (s : PluginRegistry) : list text :=
  dedup (sort_by (fun x y => text_ltb y x) (engine_id <$> listed s (execution_engines (contributed s)))).

Definition capability_entries (s : PluginRegistry) : list RegistryEntry :=
  sort_by (fun x y => text_ltb (entry_id y) (entry_id x)) (List.filter available (snd <$> hash_iter (registry s))).

Definition boundary_of (s : PluginRegistry) (p : N) : option TrustBoundaryId := boundaries s !! p.
Definition tokens_of (s : PluginRegistry) (p : N) : option (list CapabilityToken) := tokens s !! p.

(** *** Running a native binary *)

(** The directory of a caller's data for a capability, if it may have one. *)
Definition data_dir (root : text) (caller : TrustBoundaryId) (id : text) : text :=
  path_join (path_join root (debug_u64 caller)) (to_hex id).

Definition data_scope_for (s : PluginRegistry) (made : text -> bool) (id : text) (e : RegistryEntry) (caller : TrustBoundaryId) :
    Result (option text) PluginError :=
  match app_data_root s with
  | None => Ok None
  | Some root =>
      if negb (keeps_state (entry_contract e)) then Ok None
      else let dir := data_dir root caller id in if made dir then Ok (Some dir) else Err ExecutionFailed
  end.

Record Invocation := mkInvocation {
  inv_grant : SpawnGrant;
  inv_program : text;
  inv_args : list text
}.

(** How a sandboxed process ends: it could not be started or asked about, it was
    killed when its time was over, or it exited and left some JSON, or none. *)
Inductive ProcessEnd : Type := NotRun | TimedOut | Exited (code : Z) (output : option Json).

Record Sandbox := mkSandbox {
  tempdir : option text;
  input_written : bool;
  dir_made : text -> bool;
  ends : Invocation -> ProcessEnd
}.

(** What is run for a call, or why nothing is. *)
Definition prepare_native (s : PluginRegistry) (x : Sandbox) (id : text) (caller : TrustBoundaryId) :
    Result Invocation PluginError :=
  let? e := ok_or (query s id) PluginReview.NoSuchCapability in
  let? d := ok_or (List.find (fun d => bool_decide (is_Some (impl_native d))) (implementations e)) (NoRunnableImplementation id) in
  let? native := ok_or (impl_native d) (NoRunnableImplementation id) in
  let? token := ok_or (sandbox_tokens s !! impl_plugin d) NoSuchPlugin in
  let? depth := ok_or (min_trust_depth <$> plugins s !! impl_plugin d) NoSuchPlugin in
  let? dir := ok_or (tempdir x) ExecutionFailed in
  if negb (input_written x) then Err ExecutionFailed
  else
    let? data := data_scope_for s (dir_made x) id e caller in
    Ok (mkInvocation
          (mkGrant token (real_trust_depth depth) dir None (option_list (nb_script native)) data)
          (nb_program native)
          (nb_args native ++ [path_join dir (lit "input.json"); path_join dir (lit "output.json")] ++ option_list data)).

Definition invoke_native_binary (s : PluginRegistry) (x : Sandbox) (id : text) (caller : TrustBoundaryId) :
    Result Json PluginError :=
  let? inv := prepare_native s x id caller in
  match ends x inv with
  | Exited 0 (Some v) => Ok v
  | _ => Err ExecutionFailed
  end.

(** ** Calls *)

Inductive POp : Type :=
| PInstall (fs : FileSystem) (now : Instant) (clock : nat -> Instant) (admin : CapabilityToken) (m : PluginManifest)
    (available : TrustDepth) (consented : bool) (vk : VerifyingKey)
| PInstallFrom (fs : FileSystem) (now : Instant) (clock : nat -> Instant) (admin : CapabilityToken) (m : PluginManifest)
    (available : TrustDepth) (consented : bool) (publishers : PublisherRegistry)
| PUpdate (fs : FileSystem) (now : Instant) (clock : nat -> Instant) (admin : CapabilityToken) (p : N) (m : PluginManifest)
    (available : TrustDepth) (consented : bool) (vk : VerifyingKey)
| PUpdateFrom (fs : FileSystem) (now : Instant) (clock : nat -> Instant) (admin : CapabilityToken) (p : N) (m : PluginManifest)
    (available : TrustDepth) (consented : bool) (publishers : PublisherRegistry)
| PUninstall (now : Instant) (admin : CapabilityToken) (p : N)
| PQuarantine (p : N) (why : QuarantineReason).

(** What a call answers, its value left out. *)
Definition outcome {A : Type} (r : option (Result A PluginError * State)) : option (Result unit PluginError * State) :=
  '(r, s) ← r; Some (match r with Ok _ => Ok tt | Err e => Err e end, s).

Definition perform (o : POp) (s : State) : option (Result unit PluginError * State) :=
  match o with
  | PInstall fs now clock admin m av co vk => outcome (install fs now clock admin m av co vk s)
  | PInstallFrom fs now clock admin m av co pubs => outcome (install_with_publisher_registry fs now clock admin m av co pubs s)
  | PUpdate fs now clock admin p m av co vk => outcome (update fs now clock admin p m av co vk s)
  | PUpdateFrom fs now clock admin p m av co pubs => outcome (update_with_publisher_registry fs now clock admin p m av co pubs s)
  | PUninstall now admin p => outcome (uninstall now admin p s)
  | PQuarantine p why => outcome (quarantine p why s)
  end.

(** The tokens and numbers a call may need are there. *)
Definition mints (o : POp) : nat :=
  match o with
  | PInstall _ _ _ _ m _ _ _ | PInstallFrom _ _ _ _ m _ _ _ | PUpdate _ _ _ _ _ m _ _ _ | PUpdateFrom _ _ _ _ _ m _ _ _ =>
      S (length (requested_permissions m))
  | _ => O
  end.

Definition replaces (o : POp) : bool := match o with PUpdate _ _ _ _ _ _ _ _ _ | PUpdateFrom _ _ _ _ _ _ _ _ _ => true | _ => false end.

Definition room (o : POp) (s : State) : Prop :=
  NEXT s.2 + N.of_nat (mints o) < two64 /\ next_plugin_id s.1 + 1 < two64 /\ 1000000 + next_boundary_ordinal s.1 + 1 < two64.

(** Calls that end as [Q] says, and whatever else is done with the monitor; the
    trace is what was done to the monitor. *)
Inductive reach (Q : POp -> Result unit PluginError -> Prop) : list event -> State -> Prop :=
| reach_new root : reach Q [] (new_registry root, initial)
| reach_call tr s o r s' tr' :
    reach Q tr s -> room o s -> perform o s = Some (r, s') -> Q o r -> exec s.2 tr' s'.2 -> reach Q (tr ++ tr') s'
| reach_monitor tr s c tr' : reach Q tr s -> exec s.2 tr' c -> reach Q (tr ++ tr') (s.1, c).

(** ** Tokens *)

(** The monitor has a record of the token, below one that may grant. *)
Definition recorded (c : CapState) (b : TrustBoundaryId) (r : RightsMask) (t : CapabilityToken) : Prop :=
  rights t = r /\ origin t = b /\ generation t = 0
  /\ exists n a na, graph (mon c) !! token_id t = Some n /\ node_rights n = r /\ node_object n = object_id t
     /\ parent n = Some a /\ graph (mon c) !! a = Some na /\ contains (node_rights na) GRANT = true.

Lemma node_kept c tr c' id n :
  wf_state c -> exec c tr c' -> graph (mon c) !! id = Some n ->
  exists n', graph (mon c') !! id = Some n' /\ parent n' = parent n /\ node_object n' = node_object n /\ node_rights n' = node_rights n.
Proof.
  intros Hwf Hex Hn. induction Hex as [|c tr c1 e c2 Hex IH Hst]; [by exists n|].
  destruct (IH Hwf Hn) as (n1 & Hn1 & Hp & Ho & Hr).
  destruct (step_extends _ _ _ _ _ (exec_wf _ _ _ Hwf Hex) Hst Hn1) as (n2 & Hn2 & Hp2 & Ho2 & Hr2 & _).
  exists n2. split_and!; congruence.
Qed.

Lemma recorded_kept c tr c' b r t : wf_state c -> exec c tr c' -> recorded c b r t -> recorded c' b r t.
Proof.
  intros Hwf Hex (Hr & Hb & Hgen & n & a & na & Hn & Hnr & Hno & Hp & Ha & Hg). split; [done|]. split; [done|]. split; [done|].
  destruct (node_kept _ _ _ _ _ Hwf Hex Hn) as (n' & Hn' & Hp' & Ho' & Hr').
  destruct (node_kept _ _ _ _ _ Hwf Hex Ha) as (na' & Ha' & _ & _ & Hra).
  exists n', a, na'. split_and!; congruence.
Qed.

Lemma exec_next c tr c' : wf_state c -> exec c tr c' -> NEXT c <= NEXT c'.
Proof.
  intros Hwf Hex. induction Hex as [|c tr c1 e c2 Hex IH Hst]; [lia|]. specialize (IH Hwf).
  enough (NEXT c1 <= NEXT c2) by lia. inversion Hst as [? ? ? Hm|? ? ? ? ? ? ? Hm|? ? ? ? ? ? ? ? Hd|? ? ? ? Hr|]; subst; simpl.
  - lia.
  - unfold mint_root, new_object, token_id_next in Hm. simpl in Hm. injection Hm as _ <-. simpl. rewrite u64_add_small by lia. lia.
  - apply cap_derive_ok in Hd as (_ & _ & _ & ->). simpl. rewrite u64_add_small by lia. lia.
  - unfold cap_revoke in Hr. destruct (revoke _ _) as [[rc0 g0]|]; simpl in Hr; [|done]. by injection Hr as _ <-.
  - lia.
Qed.

(** A token derived from an administrator's. *)
Lemma derive_minted now admin r b s c :
  wf_state c -> NEXT c + 1 < two64 -> contains (rights admin) GRANT = true ->
  exists res c', derive now admin r b (s, c) = Some (res, (s, c')) /\
    match res with
    | Ok t => exec c [EvDerive admin t] c' /\ token_id t = NEXT c /\ NEXT c' = NEXT c + 1 /\ generation t = 0 /\ recorded c' b r t
    | Err e => c' = c /\ exists f, e = CapabilityFault f
    end.
Proof.
  intros Hwf Hroom Hg. unfold derive. simpl. destruct (cap_derive now c admin r None b) as [[t|f] c'] eqn:Hd; simpl.
  - exists (Ok t), c'. split; [done|].
    assert (Hex : exec c ([] ++ [EvDerive admin t]) c') by (econstructor; [constructor|by econstructor]).
    assert (Hfresh : graph (mon c) !! NEXT c = None).
    { apply eq_None_not_Some. intros Hs. pose proof (wfs_ids _ Hwf _ Hs). lia. }
    apply cap_derive_ok in Hd as (Hlive & Hr & -> & ->). simpl in *. rewrite u64_add_small by lia. split_and!; [|done..|].
    { rewrite u64_add_small in Hex by lia. exact Hex. }
    split; [done|]. split; [done|]. split; [done|]. apply check_live_ok in Hlive as (na & Ha & Ho & Hra & _).
    assert (Hne : token_id admin <> NEXT c) by (intros Heq; rewrite Heq in Ha; congruence).
    unfold insert_child. simpl. eexists _, (token_id admin), (push_child (NEXT c) na).
    rewrite lookup_insert_eq, lookup_insert_ne, lookup_alter_eq, Ha by done. split_and!; try done. simpl. by rewrite Hra.
  - exists (Err (CapabilityFault f)), c'. split; [done|]. split; [|by eexists]. unfold cap_derive in Hd.
    destruct (check_live now (mon c) admin); [|by injection Hd as _ <-].
    destruct (contains (rights admin) r); simpl in Hd; [done|by injection Hd as _ <-].
Qed.

Lemma exec_cons c e c1 tr c2 : exec c [e] c1 -> exec c1 tr c2 -> exec c (e :: tr) c2.
Proof. intros H1 H2. exact (exec_app _ [e] _ tr _ H1 H2). Qed.

(** A new token, from between two states of the monitor. *)
Definition minted (c c' : CapState) (b : TrustBoundaryId) (r : RightsMask) (t : CapabilityToken) : Prop :=
  NEXT c <= token_id t < NEXT c' /\ generation t = 0 /\ recorded c' b r t.

Lemma minted_kept c c1 tr c2 b r t :
  wf_state c1 -> exec c1 tr c2 -> minted c c1 b r t -> minted c c2 b r t.
Proof.
  intros Hwf Hex (Hid & Hg & Hr). pose proof (exec_next _ _ _ Hwf Hex). split; [lia|]. split; [done|]. by eapply recorded_kept.
Qed.

Definition only_derives (tr : list event) : Prop := Forall (fun e => exists p t, e = EvDerive p t) tr.

(** Tokens that are new or were there: what carrying the grants of an update over
    gives, minting being the case without old ones. *)
Definition carried (old : list CapabilityGrantRequest) (old_tokens : list CapabilityToken) (c c' : CapState) (b : TrustBoundaryId)
    (g : CapabilityGrantRequest) (t : CapabilityToken) : Prop :=
  match position (fun e => grants_equal e g) old with
  | Some i => old_tokens !! i = Some t
  | None => minted c c' b (rights_for (operation g)) t
  end.

Lemma carried_kept old ots c c1 tr c2 b g t :
  wf_state c1 -> exec c1 tr c2 -> carried old ots c c1 b g t -> carried old ots c c2 b g t.
Proof. unfold carried. intros Hwf Hex. destruct (position _ _); [done|]. intros Hm. by eapply minted_kept. Qed.

Lemma position_lookup {A : Type} (f : A -> bool) l i : position f l = Some i -> exists x, l !! i = Some x /\ f x = true.
Proof.
  revert i. induction l as [|x l IH]; intros i; [done|]. simpl. destruct (f x) eqn:Hf; [intros [= <-]; by exists x|].
  destruct (position f l) as [j|]; [|done]. intros [= <-]. by destruct (IH j eq_refl) as (y & Hy & Hfy); exists y.
Qed.

Lemma position_none {A : Type} (f : A -> bool) l : position f l = None <-> existsb f l = false.
Proof. induction l as [|x l IH]; [done|]. simpl. destruct (f x); [done|]. simpl. rewrite <- IH. by destruct (position f l). Qed.

Lemma carry_tokens_spec admin b old ots s :
  contains (rights admin) GRANT = true -> (length old <= length ots)%nat ->
  forall l clock c, wf_state c -> NEXT c + N.of_nat (length l) < two64 ->
  exists res c' tr, carry_tokens clock admin b old ots l (s, c) = Some (res, (s, c'))
    /\ exec c tr c' /\ only_derives tr /\ NEXT c' <= NEXT c + N.of_nat (length l)
    /\ match res with
       | Ok ts => Forall2 (carried old ots c c' b) l ts
       | Err e => exists f, e = CapabilityFault f
       end.
Proof.
  intros Hg Hlen l. induction l as [|g l IH]; intros clock c Hwf Hroom.
  { exists (Ok []), c, []. split; [done|]. split; [constructor|]. split; [constructor|]. split; [simpl; lia|constructor]. }
  simpl in Hroom. cbn [carry_tokens]. unfold mbind, pm_bind.
  assert (Hhead : exists res c1 tr1,
    match position (fun e => grants_equal e g) old with
    | Some i => match ots !! i with Some t => mret t | None => panics end
    | None => derive (clock 0%nat) admin (rights_for (operation g)) b
    end (s, c) = Some (res, (s, c1)) /\ exec c tr1 c1 /\ only_derives tr1 /\ NEXT c1 <= NEXT c + 1
    /\ match res with Ok t => carried old ots c c1 b g t | Err e => exists f, e = CapabilityFault f end).
  { unfold carried. destruct (position _ old) as [i|] eqn:Hpos.
    - destruct (position_lookup _ _ _ Hpos) as (x & Hx & _). apply lookup_lt_Some in Hx.
      destruct (lookup_lt_is_Some_2 ots i ltac:(lia)) as [t Ht]. rewrite Ht. exists (Ok t), c, [].
      split; [done|]. split; [constructor|]. split; [constructor|]. split; [lia|done].
    - destruct (derive_minted (clock 0%nat) admin (rights_for (operation g)) b s c Hwf ltac:(lia) Hg) as ([t|e] & c1 & -> & Hd).
      + destruct Hd as (Hex & Hid & Hn & Hgen & Hrec). exists (Ok t), c1, [EvDerive admin t]. split; [done|].
        split; [done|]. split; [repeat constructor; by eexists _, _|]. split; [lia|]. split; [lia|done].
      + destruct Hd as (-> & f & ->). exists (Err (CapabilityFault f)), c, []. split; [done|]. split; [constructor|].
        split; [constructor|]. split; [lia|by eexists]. }
  destruct Hhead as ([t|e] & c1 & tr1 & -> & Hex1 & Ho1 & Hn1 & Ht).
  - destruct (IH (fun k => clock (S k)) c1 (exec_wf _ _ _ Hwf Hex1) ltac:(lia)) as (res & c' & tr & Heq & Hex & Ho & Hn & Hts).
    rewrite Heq. exists (match res with Ok ts => Ok (t :: ts) | Err e => Err e end), c', (tr1 ++ tr). split; [by destruct res|].
    split; [by eapply exec_app|]. split; [by apply Forall_app|]. split; [simpl; lia|].
    destruct res as [ts|e]; [|done]. constructor; [by eapply carried_kept; [eapply exec_wf|..]|].
    clear -Hts Hex1 Hwf. pose proof (exec_next _ _ _ Hwf Hex1). eapply Forall2_impl; [exact Hts|]. intros g0 t0. unfold carried.
    destruct (position _ old); [done|]. intros (Hid & Hrest). split; [lia|done].
  - exists (Err e), c1, tr1. split_and!; try done. simpl. lia.
Qed.

Lemma mint_all_carry clock admin b l s : mint_all clock admin b l s = carry_tokens clock admin b [] [] l s.
Proof.
  revert clock s. induction l as [|g l IH]; intros clock s; [done|]. cbn [mint_all carry_tokens position]. unfold mbind, pm_bind.
  destruct (derive _ _ _ _ s) as [[[t|e] s1]|]; [|done|done]. by rewrite IH.
Qed.

(** ** Revoking *)

Lemma revoke_one_spec t s c :
  wf_state c -> exists c', revoke_one t (s, c) = Some (Ok tt, (s, c')) /\ exec c [EvRevoke t] c' /\ NEXT c' = NEXT c
    /\ same_shape (graph (mon c')) (graph (mon c))
    /\ (forall u now, ~ descends (graph (mon c)) (token_id t) (token_id u) -> check_live now (mon c') u = check_live now (mon c) u).
Proof.
  intros Hwf. unfold revoke_one, cap_revoke. simpl.
  destruct (revoke_spec (graph (mon c)) (token_id t) (wfs_graph _ Hwf)) as (D & g' & HR & HD & Hb). rewrite HR. simpl.
  eexists. split; [done|]. split; [|split; [done|split]].
  - apply (exec_snoc c [] c); [constructor|]. econstructor. unfold cap_revoke. by rewrite HR.
  - by eapply bumped_same_shape.
  - intros u now Hu. destruct c as [[g k] nx]. simpl in *. apply (check_outside_unchanged D g g'); [done|].
    intros [_ Hd]%HD. done.
Qed.

Lemma revoke_each_spec l s c :
  wf_state c -> exists c', revoke_each l (s, c) = Some (Ok tt, (s, c')) /\ exec c (EvRevoke <$> l) c' /\ NEXT c' = NEXT c
    /\ same_shape (graph (mon c')) (graph (mon c))
    /\ (forall u now, (forall t, t ∈ l -> ~ descends (graph (mon c)) (token_id t) (token_id u)) ->
          check_live now (mon c') u = check_live now (mon c) u).
Proof.
  revert c. induction l as [|t l IH]; intros c Hwf.
  { exists c. split; [done|]. split; [constructor|]. split; [done|]. split; [by intros x|done]. }
  destruct (revoke_one_spec t s c Hwf) as (c1 & H1 & Hex1 & Hn1 & Hsh1 & Hu1).
  destruct (IH c1 (exec_wf _ _ _ Hwf Hex1)) as (c' & H2 & Hex & Hn & Hsh & Hu).
  exists c'. cbn [revoke_each]. unfold mbind, pm_bind. rewrite H1, H2. split; [done|]. split; [by eapply exec_cons|].
  split; [lia|]. split; [by eapply same_shape_trans|]. intros u now Hall. rewrite Hu, Hu1; [done| |].
  - apply Hall. by left.
  - intros t' Ht' Hd. apply (Hall t'); [by right|]. by eapply descends_same_shape.
Qed.

(** The tokens of the grants an update drops. *)
Definition dropped (new old : list CapabilityGrantRequest) (ots : list CapabilityToken) : list CapabilityToken :=
  omap (fun '(g, t) => if requested_in new g then None else Some t) (zip old ots).

Lemma revoke_dropped_each new ots old i s :
  (i + length old <= length ots)%nat -> revoke_dropped new ots i old s = revoke_each (dropped new old (drop i ots)) s.
Proof.
  revert i s. induction old as [|g old IH]; intros i s Hlen; [done|]. simpl in Hlen.
  destruct (lookup_lt_is_Some_2 ots i ltac:(lia)) as [t Ht]. rewrite (drop_S _ _ _ Ht).
  cbn [revoke_dropped]. unfold dropped. cbn [zip zip_with]. unfold mbind, pm_bind. simpl. rewrite Ht.
  destruct (requested_in new g).
  - unfold mret, pm_ret. apply IH. lia.
  - simpl. unfold mbind, pm_bind. destruct (revoke_one t s) as [[[[]|e] s1]|]; [|done|done]. apply IH. lia.
Qed.

(** ** What a call does *)

(** Registering changes the registry's contents, each half by itself. *)
Definition capability_of (c : Contribution) : option CapabilityManifest := match c with CCapability cm => Some cm | _ => None end.
Definition register_all (p : N) (cs : list Contribution) (r : gmap text RegistryEntry) : gmap text RegistryEntry :=
  fold_left (fun r cm => register_implementation r p cm) (omap capability_of cs) r.
Definition register_extras (p : N) (cs : list Contribution) (x : Contributed) : Contributed :=
  fold_left (fun x c => register_extra x p c) cs x.

Lemma register_contributions_contents p cs s :
  register_contributions p cs s = with_contents s (register_all p cs (registry s)) (register_extras p cs (contributed s)).
Proof.
  unfold register_contributions. revert s. induction cs as [|c cs IH]; intros s; [by destruct s|]. cbn [fold_left]. rewrite IH.
  assert (Hx : forall x cm, register_extra x p (CCapability cm) = x) by (by intros [] cm).
  destruct c as [cm| | | | | | |]; simpl; unfold register_all, register_extras; cbn [fold_left omap list_omap capability_of]; by rewrite ?Hx.
Qed.

(** A registry in which a plugin was installed. *)
Definition installed (s : PluginRegistry) (p : N) (b : TrustBoundaryId) (m : PluginManifest) (ts : list CapabilityToken)
    (sb : option CapabilityToken) : PluginRegistry :=
  mkRegistry (app_data_root s) (<[p := m]> (plugins s)) (<[p := b]> (boundaries s)) (<[p := ts]> (tokens s))
    (match sb with Some t => <[p := t]> (sandbox_tokens s) | None => sandbox_tokens s end)
    (register_all p (contributions m) (registry s)) (register_extras p (contributions m) (contributed s))
    (quarantined_plugins s) (next_plugin_id s + 1) (next_boundary_ordinal s + 1).

(** The one failure that is noticed late. *)
Definition is_fault {A : Type} (r : Result A PluginError) : Prop := exists f, r = Err (CapabilityFault f).

Definition sandbox_for (c c' : CapState) (b : TrustBoundaryId) (m : PluginManifest) (sb : option CapabilityToken) : Prop :=
  match sb with
  | Some t => existsb is_native (contributions m) = true /\ minted c c' b sandbox_rights t
  | None => existsb is_native (contributions m) = false
  end.

Lemma install_validated_spec fs clock admin m av co s c :
  wf_state c -> contains (rights admin) GRANT = true ->
  NEXT c + N.of_nat (S (length (requested_permissions m))) < two64 -> next_plugin_id s + 1 < two64 ->
  1000000 + next_boundary_ordinal s + 1 < two64 ->
  let p := next_plugin_id s in
  let b := 1000000 + next_boundary_ordinal s in
  exists res s' c' tr, install_validated fs clock admin m av co (s, c) = Some (res, (s', c')) /\ exec c tr c' /\ only_derives tr
    /\ match res with
       | Ok h => h = mkHandle p b /\ co = true /\ depth_rank (min_trust_depth m) <= depth_rank av
           /\ validate_each fs (contributions m) = Ok tt
           /\ exists ts sb, Forall2 (fun g t => minted c c' b (rights_for (operation g)) t) (requested_permissions m) ts
                /\ sandbox_for c c' b m sb /\ s' = installed s p b m ts sb
       | Err e => (s', c') = (s, c) \/ is_fault res /\ s' = with_counters s (p + 1) (next_boundary_ordinal s + 1)
       end.
Proof.
  intros Hwf Hg Hroom Hp Hb p b. unfold install_validated.
  destruct (N.ltb_spec (depth_rank av) (depth_rank (min_trust_depth m))) as [|Hdepth].
  { exists (Err InsufficientTrustDepth), s, c, []. repeat split; [constructor|constructor|by left]. }
  destruct co; simpl; [|exists (Err ConsentDeclined), s, c, []; repeat split; [constructor|constructor|by left]].
  unfold mbind, pm_bind, checks. simpl. destruct (validate_each fs (contributions m)) as [[]|e];
    [|exists (Err e), s, c, []; repeat split; [constructor|constructor|by left]].
  unfold allocate. simpl. rewrite !u64_add_small by lia. fold b. rewrite mint_all_carry.
  destruct (carry_tokens_spec admin b [] [] (with_counters s (next_plugin_id s + 1) (next_boundary_ordinal s + 1)) Hg ltac:(done)
              (requested_permissions m) clock c Hwf ltac:(lia)) as (res & c1 & tr1 & -> & Hex1 & Ho1 & Hn1 & Hts).
  destruct res as [ts|e]; [|exists (Err e), (with_counters s (p + 1) (next_boundary_ordinal s + 1)), c1, tr1; split_and!; try done;
    right; split; [destruct Hts as [f ->]; by exists f|done]].
  unfold updates, mret, pm_ret. destruct (existsb is_native (contributions m)) eqn:Hnat.
  - destruct (derive_minted (clock (length (requested_permissions m))) admin sandbox_rights b
                (with_counters s (next_plugin_id s + 1) (next_boundary_ordinal s + 1)) c1 (exec_wf _ _ _ Hwf Hex1) ltac:(lia) Hg)
      as ([t|e] & c2 & -> & Hd).
    + destruct Hd as (Hex2 & Hid & Hn2 & Hgen & Hrec). simpl. rewrite register_contributions_contents. simpl.
      pose proof (exec_next _ _ _ Hwf Hex1).
      exists (Ok (mkHandle p b)). eexists _, c2, (tr1 ++ [EvDerive admin t]). split; [reflexivity|]. split; [by eapply exec_app|].
      split; [apply Forall_app; split; [done|repeat constructor; by eexists _, _]|]. split_and!; try done.
      exists ts, (Some t). split; [|split; [split; [done|split; [lia|done]]|done]]. eapply Forall2_impl; [exact Hts|].
      intros g u Hu. by eapply minted_kept; [eapply exec_wf|..].
    + destruct Hd as (-> & f & ->). exists (Err (CapabilityFault f)). eexists _, c1, tr1. split; [reflexivity|]. split; [done|].
      split; [done|]. right. split; [by exists f|done].
  - simpl. rewrite register_contributions_contents. simpl.
    exists (Ok (mkHandle p b)). eexists _, c1, tr1. split; [reflexivity|]. split_and!; try done. by exists ts, None.
Qed.

(** A registry in which a plugin's contributions, and then the plugin, were replaced. *)
Definition recontributed (s : PluginRegistry) (p : N) (m : PluginManifest) : PluginRegistry :=
  with_contents s (register_all p (contributions m) (remove_implementations (registry s) p))
    (register_extras p (contributions m) (remove_extras (contributed s) p)).

Definition replaced (s : PluginRegistry) (p : N) (m : PluginManifest) (ts : list CapabilityToken)
    (sbs : gmap N CapabilityToken) : PluginRegistry :=
  with_tokens (with_plugins (with_sandbox_tokens (recontributed s p m) sbs) (<[p := m]> (plugins s))) (<[p := ts]> (tokens s)).

(** The sandbox tokens after an update. *)
Definition resandboxed (s : PluginRegistry) (c c' : CapState) (p : N) (b : TrustBoundaryId) (m : PluginManifest)
    (sbs : gmap N CapabilityToken) : Prop :=
  if existsb is_native (contributions m)
  then sbs = sandbox_tokens s /\ is_Some (sandbox_tokens s !! p) \/ exists t, minted c c' b sandbox_rights t /\ sbs = <[p := t]> (sandbox_tokens s)
  else sbs = base.delete p (sandbox_tokens s).

(** How an update can end: nothing happened; the monitor refused to mint, before or
    after the contributions were replaced; or everything was done. *)
Definition update_outcome (fs : FileSystem) (p : N) (old : PluginManifest) (b : TrustBoundaryId) (new : PluginManifest)
    (av : TrustDepth) (co : bool) (s : PluginRegistry) (c : CapState) (res : Result (list CapabilityGrantRequest) PluginError)
    (s' : PluginRegistry) (c' : CapState) (l : list CapabilityToken) : Prop :=
  let ots := default [] (tokens s !! p) in
  let dr := dropped (requested_permissions new) (requested_permissions old) ots in
  match res with
  | Ok gs => gs = new_grants old new /\ (gs = [] \/ co = true) /\ depth_rank (min_trust_depth new) <= depth_rank av
      /\ validate_each fs (contributions new) = Ok tt /\ l = dr
      /\ exists ts sbs, Forall2 (carried (requested_permissions old) ots c c' b) (requested_permissions new) ts
           /\ resandboxed s c c' p b new sbs /\ s' = replaced s p new ts sbs
  | Err e => (s', c') = (s, c) /\ l = []
             \/ is_fault res /\ (s' = s /\ l = [] \/ s' = recontributed s p new /\ l = dr)
  end.

Lemma update_validated_spec fs clock admin p old b new av co s c :
  wf_state c -> contains (rights admin) GRANT = true -> NEXT c + N.of_nat (S (length (requested_permissions new))) < two64 ->
  length (default [] (tokens s !! p)) = length (requested_permissions old) ->
  exists res s' c' tr1 l tr2, update_validated fs clock admin p old b new av co (s, c) = Some (res, (s', c'))
    /\ exec c (tr1 ++ (EvRevoke <$> l) ++ tr2) c' /\ only_derives tr1 /\ only_derives tr2
    /\ update_outcome fs p old b new av co s c res s' c' l.
Proof.
  intros Hwf Hg Hroom Hlen. unfold update_validated.
  assert (Hearly : forall e (k : PM (list CapabilityGrantRequest)), k (s, c) = Some (Err e, (s, c)) ->
    exists res s' c' tr1 l tr2, k (s, c) = Some (res, (s', c')) /\ exec c (tr1 ++ (EvRevoke <$> l) ++ tr2) c'
    /\ only_derives tr1 /\ only_derives tr2 /\ update_outcome fs p old b new av co s c res s' c' l).
  { intros e k ->. exists (Err e), s, c, [], [], []. repeat split; [constructor..|by left]. }
  destruct (N.ltb_spec (depth_rank av) (depth_rank (min_trust_depth new))) as [|Hdepth]; [by eapply Hearly|].
  destruct (bool_decide (new_grants old new <> []) && negb co) eqn:Hcons; [by eapply Hearly|].
  destruct (validate_each fs (contributions new)) as [[]|e] eqn:Hval; [|by eapply Hearly].
  assert (Hco : new_grants old new = [] \/ co = true).
  { destruct co; [by right|]. left. rewrite andb_true_r, bool_decide_eq_false in Hcons. by apply dec_stable. }
  clear Hearly Hcons. unfold mbind, pm_bind, checks. simpl. set (ots := default [] (tokens s !! p)) in *.
  destruct (carry_tokens_spec admin b (requested_permissions old) ots s Hg ltac:(lia) (requested_permissions new) clock c Hwf ltac:(lia))
    as (res & c1 & tr1 & -> & Hex1 & Ho1 & Hn1 & Hts).
  destruct res as [ts|e]; [|exists (Err e), s, c1, tr1, [], []; rewrite app_nil_r; split_and!; try done; [constructor|];
    right; split; [destruct Hts as [f ->]; by exists f|by left]].
  rewrite revoke_dropped_each by lia. rewrite drop_0. set (dr := dropped _ _ ots).
  destruct (revoke_each_spec dr s c1 (exec_wf _ _ _ Hwf Hex1)) as (c2 & -> & Hex2 & Hn2 & _).
  assert (Hex12 : exec c (tr1 ++ (EvRevoke <$> dr)) c2) by (by eapply exec_app). pose proof (exec_wf _ _ _ Hwf Hex12) as Hwf2.
  assert (Hts2 : Forall2 (carried (requested_permissions old) ots c c2 b) (requested_permissions new) ts).
  { eapply Forall2_impl; [exact Hts|]. intros g t Ht. exact (carried_kept _ _ _ _ _ _ _ _ _ (exec_wf _ _ _ Hwf Hex1) Hex2 Ht). }
  assert (Hre : register_contributions p (contributions new) (remove_registry_and_contributions p s) = recontributed s p new)
    by (rewrite register_contributions_contents; by destruct s).
  unfold updates, mret, pm_ret. cbn [fst snd]. rewrite Hre.
  assert (Hsbs : sandbox_tokens (recontributed s p new) = sandbox_tokens s) by (by destruct s).
  assert (Hpls : plugins (recontributed s p new) = plugins s) by (by destruct s).
  assert (Htks : tokens (recontributed s p new) = tokens s) by (by destruct s). rewrite Hsbs.
  destruct (existsb is_native (contributions new)) eqn:Hnat; [case_bool_decide as Hsb|].
  - exists (Ok (new_grants old new)). eexists _, c2, tr1, dr, []. split; [reflexivity|]. rewrite app_nil_r. split_and!; try done; [constructor|]. unfold update_outcome. split_and!; try done.
    exists ts, (sandbox_tokens s). split; [done|]. unfold resandboxed. rewrite Hnat. split; [by left|]. by destruct s.
  - destruct (derive_minted (clock (length (requested_permissions new))) admin sandbox_rights b (recontributed s p new) c2 Hwf2 ltac:(lia) Hg)
      as ([t|e] & c3 & -> & Hrest).
    + destruct Hrest as (Hex3 & Hid & Hn3 & Hgen & Hrec). pose proof (exec_next _ _ _ Hwf Hex12).
      exists (Ok (new_grants old new)). eexists _, c3, tr1, dr, [EvDerive admin t]. split; [reflexivity|].
      split; [rewrite app_assoc; by eapply exec_app|]. split; [done|]. split; [repeat constructor; by eexists _, _|]. unfold update_outcome. split_and!; try done.
      exists ts, (<[p := t]> (sandbox_tokens s)). split; [|split; [|done]].
      * eapply Forall2_impl; [exact Hts2|]. intros g u Hu. by eapply carried_kept.
      * unfold resandboxed. rewrite Hnat. right. exists t. split; [split; [lia|done]|done].
    + destruct Hrest as (-> & f & ->). exists (Err (CapabilityFault f)). eexists _, c2, tr1, dr, []. split; [reflexivity|].
      rewrite app_nil_r. split_and!; try done; [constructor|]. right. split; [by exists f|]. by right.
  - exists (Ok (new_grants old new)). eexists _, c2, tr1, dr, []. split; [reflexivity|]. rewrite app_nil_r. split_and!; try done; [constructor|]. unfold update_outcome. split_and!; try done.
    exists ts, (base.delete p (sandbox_tokens s)). split; [done|]. unfold resandboxed. by rewrite Hnat.
Qed.

(** ** The books *)

Record sound (s : PluginRegistry) (c : CapState) : Prop := {
  so_wf : wf_state c;
  so_boundary : forall p, is_Some (plugins s !! p) <-> is_Some (boundaries s !! p);
  so_held : forall p, is_Some (plugins s !! p) <-> is_Some (tokens s !! p);
  so_numbered : forall p, is_Some (plugins s !! p) -> p < next_plugin_id s;
  so_ordinal : forall p b, boundaries s !! p = Some b -> b < 1000000 + next_boundary_ordinal s;
  so_own : forall p q b, boundaries s !! p = Some b -> boundaries s !! q = Some b -> p = q;
  so_review : forall p m, plugins s !! p = Some m -> check_permission_overreach m = Ok tt;
  so_tokens : forall p m b ts, plugins s !! p = Some m -> boundaries s !! p = Some b -> tokens s !! p = Some ts ->
    Forall2 (fun g t => recorded c b (rights_for (operation g)) t) (requested_permissions m) ts;
  so_apart : forall p q ts ts' t t', tokens s !! p = Some ts -> tokens s !! q = Some ts' -> t ∈ ts -> t' ∈ ts' ->
    token_id t = token_id t' -> p = q
}.

Lemma check_rights_contains now m t r : check_rights_ok_result now m t r = Ok tt -> contains (rights t) r = true.
Proof. unfold check_rights_ok_result. destruct (check_live now m t); [|done]. simpl. by destruct (contains _ _). Qed.

Lemma sound_monitor s c tr c' : sound s c -> exec c tr c' -> sound s c'.
Proof.
  intros [Hwf ? ? ? ? ? ? Htok ?] Hex. split; try done; [by eapply exec_wf|].
  intros p m b ts Hp Hb Ht. eapply Forall2_impl; [by eapply Htok|]. intros g t Hr. by eapply recorded_kept.
Qed.

(** Operations that leave plugins and tokens alone. *)
Lemma sound_ext s s' c :
  sound s c -> plugins s' = plugins s -> boundaries s' = boundaries s -> tokens s' = tokens s ->
  next_plugin_id s <= next_plugin_id s' -> next_boundary_ordinal s <= next_boundary_ordinal s' -> sound s' c.
Proof.
  intros [? Hb Hh Hn Ho Hw Hr Ht Ha] Hp1 Hb1 Ht1 Hn1 Ho1. split; rewrite ?Hp1, ?Hb1, ?Ht1; try done.
  - intros p Hp. specialize (Hn p Hp). lia.
  - intros p b Hpb. specialize (Ho p b Hpb). lia.
Qed.

Lemma recorded_known c b r t : recorded c b r t -> is_Some (graph (mon c) !! token_id t).
Proof. intros (_ & _ & _ & n & a & na & Hn & _). by exists n. Qed.

Lemma Forall2_right {A B : Type} (P : A -> B -> Prop) l k y : Forall2 P l k -> y ∈ k -> exists x, x ∈ l /\ P x y.
Proof.
  induction 1 as [|x z l k Hx _ IH]; intros Hy; [by apply not_elem_of_nil in Hy|].
  apply elem_of_cons in Hy as [->|Hy]; [exists x; split; [left|done]|]. destruct (IH Hy) as (w & Hw & Hp).
  exists w. split; [by right|done].
Qed.

(** Every token a plugin holds is one the monitor knows. *)
Lemma held_known s c p ts t : sound s c -> tokens s !! p = Some ts -> t ∈ ts -> token_id t < NEXT c.
Proof.
  intros Hs Hts Ht. destruct (proj2 (so_held _ _ Hs p) ltac:(eauto)) as [m Hm].
  destruct (proj1 (so_boundary _ _ Hs p) ltac:(eauto)) as [b Hb].
  pose proof (so_tokens _ _ Hs p m b ts Hm Hb Hts) as Hall. destruct (Forall2_right _ _ _ _ Hall Ht) as (g & _ & Hr).
  apply (wfs_ids _ (so_wf _ _ Hs)). by eapply recorded_known.
Qed.

Lemma sound_installed s c tr c' p b m ts sb :
  sound s c -> exec c tr c' -> p = next_plugin_id s -> b = 1000000 + next_boundary_ordinal s ->
  check_permission_overreach m = Ok tt ->
  Forall2 (fun g t => minted c c' b (rights_for (operation g)) t) (requested_permissions m) ts ->
  sound (installed s p b m ts sb) c'.
Proof.
  intros Hs Hex -> -> Hrev Hts. pose proof (sound_monitor _ _ _ _ Hs Hex) as Hs'.
  assert (Hnew : plugins s !! next_plugin_id s = None).
  { apply eq_None_not_Some. intros Hp. pose proof (so_numbered _ _ Hs _ Hp). lia. }
  assert (Hfresh : forall q ts' t t', tokens s !! q = Some ts' -> t ∈ ts' -> t' ∈ ts -> token_id t <> token_id t').
  { intros q ts' t t' Hq Ht Ht' Heq. pose proof (held_known _ _ _ _ _ Hs Hq Ht).
    destruct (Forall2_right _ _ _ _ Hts Ht') as (g & _ & Hid & _). lia. }
  split; simpl.
  - apply Hs'.
  - intros q. rewrite !lookup_insert_is_Some'. by rewrite (so_boundary _ _ Hs).
  - intros q. rewrite !lookup_insert_is_Some'. by rewrite (so_held _ _ Hs).
  - intros q [<-|Hq]%lookup_insert_is_Some'; [lia|]. pose proof (so_numbered _ _ Hs _ Hq). lia.
  - intros q b [[<- <-]|[_ Hq]]%lookup_insert_Some; [lia|]. pose proof (so_ordinal _ _ Hs _ _ Hq). lia.
  - intros q q' b [[<- <-]|[Hne Hq]]%lookup_insert_Some [[<- Heq]|[Hne' Hq']]%lookup_insert_Some; [done| | |by eapply (so_own _ _ Hs)].
    + pose proof (so_ordinal _ _ Hs _ _ Hq'). lia.
    + subst. pose proof (so_ordinal _ _ Hs _ _ Hq). lia.
  - intros q m' [[<- <-]|[_ Hq]]%lookup_insert_Some; [done|]. by eapply (so_review _ _ Hs).
  - intros q m' b ts' [[<- <-]|[Hne Hq]]%lookup_insert_Some Hb Ht.
    + rewrite lookup_insert_eq in Hb. rewrite lookup_insert_eq in Ht. injection Hb as <-. injection Ht as <-.
      eapply Forall2_impl; [exact Hts|]. by intros g t (_ & _ & Hr).
    + rewrite lookup_insert_ne in Hb by done. rewrite lookup_insert_ne in Ht by done. by eapply (so_tokens _ _ Hs').
  - intros q q' ts1 ts2 t t' [[<- <-]|[Hne Hq]]%lookup_insert_Some [[<- <-]|[Hne' Hq']]%lookup_insert_Some Ht Ht' Heq; [done| | |].
    + by destruct (Hfresh _ _ _ _ Hq' Ht' Ht).
    + by destruct (Hfresh _ _ _ _ Hq Ht Ht').
    + by eapply (so_apart _ _ Hs).
Qed.

Lemma grants_equal_true a b : grants_equal a b = true <-> operation a = operation b /\ scope a = scope b.
Proof. unfold grants_equal. by rewrite andb_true_iff, !bool_decide_eq_true. Qed.

(** A carried token is one of the plugin's own, or new. *)
Lemma carried_recorded s c tr c' p old b ots g t :
  sound s c -> exec c tr c' -> plugins s !! p = Some old -> boundaries s !! p = Some b -> tokens s !! p = Some ots ->
  carried (requested_permissions old) ots c c' b g t ->
  recorded c' b (rights_for (operation g)) t /\ (t ∈ ots \/ NEXT c <= token_id t).
Proof.
  intros Hs Hex Hp Hb Ht. unfold carried. destruct (position _ _) as [i|] eqn:Hi.
  - intros Hti. split; [|left; by eapply list_elem_of_lookup_2]. destruct (position_lookup _ _ _ Hi) as (e & He & Heq).
    apply grants_equal_true in Heq as [Hop _].
    pose proof (Forall2_lookup_lr _ _ _ _ _ _ (so_tokens _ _ Hs p old b ots Hp Hb Ht) He Hti) as Hr. simpl in Hr. rewrite Hop in Hr.
    eapply recorded_kept; [apply Hs|exact Hex|exact Hr].
  - intros (Hid & _ & Hr). split; [done|]. right. lia.
Qed.

Lemma sound_replaced s c tr c' p old b m ts sbs ots :
  sound s c -> exec c tr c' -> plugins s !! p = Some old -> boundaries s !! p = Some b -> tokens s !! p = Some ots ->
  check_permission_overreach m = Ok tt ->
  Forall2 (carried (requested_permissions old) ots c c' b) (requested_permissions m) ts ->
  sound (replaced s p m ts sbs) c'.
Proof.
  intros Hs Hex Hp Hb Ht Hrev Hts. pose proof (sound_monitor _ _ _ _ Hs Hex) as Hs'.
  assert (Hown : forall q ts' t t', tokens s !! q = Some ts' -> t ∈ ts' -> t' ∈ ts -> token_id t = token_id t' -> q = p).
  { intros q ts' t t' Hq Htq Ht' Heq. destruct (Forall2_right _ _ _ _ Hts Ht') as (g & _ & Hc).
    destruct (carried_recorded _ _ _ _ _ _ _ _ _ _ Hs Hex Hp Hb Ht Hc) as [_ [Hin|Hnew]]; [by eapply (so_apart _ _ Hs)|].
    pose proof (held_known _ _ _ _ _ Hs Hq Htq). lia. }
  split; simpl.
  - apply Hs'.
  - intros q. rewrite lookup_insert_is_Some', <- (so_boundary _ _ Hs). split; [intros [<-|?]; [by eexists|done]|by right].
  - intros q. rewrite !lookup_insert_is_Some'. by rewrite (so_held _ _ Hs).
  - intros q [<-|Hq]%lookup_insert_is_Some'; apply (so_numbered _ _ Hs); [by eexists|done].
  - apply (so_ordinal _ _ Hs).
  - apply (so_own _ _ Hs).
  - intros q m' [[<- <-]|[_ Hq]]%lookup_insert_Some; [done|]. by eapply (so_review _ _ Hs).
  - intros q m' b' ts' [[<- <-]|[Hne Hq]]%lookup_insert_Some Hb' Ht'.
    + rewrite lookup_insert_eq in Ht'. injection Ht' as <-. assert (b' = b) as -> by congruence.
      eapply Forall2_impl; [exact Hts|]. intros g t Hc. exact (proj1 (carried_recorded _ _ _ _ _ _ _ _ _ _ Hs Hex Hp Hb Ht Hc)).
    + rewrite lookup_insert_ne in Ht' by done. by eapply (so_tokens _ _ Hs').
  - intros q q' ts1 ts2 t t' [[<- <-]|[Hne Hq]]%lookup_insert_Some [[<- <-]|[Hne' Hq']]%lookup_insert_Some Htq Htq' Heq; [done| | |].
    + symmetry. by eapply (Hown q').
    + by eapply (Hown q).
    + by eapply (so_apart _ _ Hs).
Qed.

(** A registry from which a plugin was taken. *)
Definition uninstalled (s : PluginRegistry) (p : N) : PluginRegistry :=
  mkRegistry (app_data_root s) (base.delete p (plugins s)) (base.delete p (boundaries s)) (base.delete p (tokens s))
    (sandbox_tokens s) (remove_implementations (registry s) p) (remove_extras (contributed s) p)
    (quarantined_plugins s ∖ {[p]}) (next_plugin_id s) (next_boundary_ordinal s).

Lemma sound_uninstalled s c p : sound s c -> sound (uninstalled s p) c.
Proof.
  intros [? Hb Hh Hn Ho Hw Hr Ht Ha]. split; simpl; try done.
  - intros q. rewrite !lookup_delete_is_Some. by rewrite Hb.
  - intros q. rewrite !lookup_delete_is_Some. by rewrite Hh.
  - intros q [_ Hq]%lookup_delete_is_Some. by apply Hn.
  - intros q b [_ Hq]%lookup_delete_Some. by eapply Ho.
  - intros q q' b [_ Hq]%lookup_delete_Some [_ Hq']%lookup_delete_Some. by eapply Hw.
  - intros q m [_ Hq]%lookup_delete_Some. by eapply Hr.
  - intros q m b ts [_ Hq]%lookup_delete_Some [_ Hq']%lookup_delete_Some [_ Hq'']%lookup_delete_Some. by eapply Ht.
  - intros q q' ts ts' t t' [_ Hq]%lookup_delete_Some [_ Hq']%lookup_delete_Some. by eapply Ha.
Qed.

(** Uninstalling: every token revoked, then everything of the plugin taken away. *)
Lemma uninstall_spec now admin p s c :
  wf_state c -> exists res s' c' l, uninstall now admin p (s, c) = Some (res, (s', c')) /\ exec c (EvRevoke <$> l) c'
    /\ match res with
       | Ok _ => check_rights_ok_result now (mon c) admin REVOKE = Ok tt /\ tokens s !! p = Some l /\ s' = uninstalled s p
           /\ same_shape (graph (mon c')) (graph (mon c))
           /\ (forall u now', (forall t, t ∈ l -> ~ descends (graph (mon c)) (token_id t) (token_id u)) ->
                 check_live now' (mon c') u = check_live now' (mon c) u)
       | Err e => (s', c') = (s, c) /\ l = []
           /\ (e = PluginReview.Unauthorized /\ check_rights_ok_result now (mon c) admin REVOKE <> Ok tt
               \/ e = NoSuchPlugin /\ tokens s !! p = None)
       end.
Proof.
  intros Hwf. unfold uninstall, authorised, checks, updates, mbind, pm_bind. cbn [fst snd].
  destruct (check_rights_ok_result now (mon c) admin REVOKE) as [[]|e]; cbn [map_err];
    [|exists (Err PluginReview.Unauthorized), s, c, []; split_and!; try done; [constructor|by left]].
  destruct (tokens s !! p) as [ts|]; cbn [ok_or]; [|exists (Err NoSuchPlugin), s, c, []; split_and!; try done; [constructor|by right]].
  destruct (revoke_each_spec ts (with_tokens s (base.delete p (tokens s))) c Hwf) as (c1 & -> & Hex & _ & Hsh & Hu).
  exists (Ok tt), (uninstalled s p), c1, ts. split; [by destruct s|]. split; [exact Hex|]. split_and!; done.
Qed.

Lemma authorised_spec now admin r s :
  authorised now admin r s = Some (Ok tt, s) /\ contains (rights admin) r = true
  \/ authorised now admin r s = Some (Err PluginReview.Unauthorized, s).
Proof.
  unfold authorised. destruct (check_rights_ok_result now (mon s.2) admin r) as [[]|e] eqn:Hc; [left|by right].
  split; [done|by eapply check_rights_contains].
Qed.

Lemma manifest_not_overreaching m vk : validate_manifest m vk = Ok tt -> check_permission_overreach m = Ok tt.
Proof. unfold validate_manifest. destruct (verify_signature _ _) as [[]|]; [done|done]. Qed.

Lemma registered_not_overreaching m l : validate_manifest_against_registry m l = Ok tt -> check_permission_overreach m = Ok tt.
Proof.
  unfold validate_manifest_against_registry. destruct (verifying_key_for _ _); [|done]. simpl. apply manifest_not_overreaching.
Qed.

(** The two ways to install, and to update, differ in the review alone. *)
Definition reviewed_install (review : Result unit PluginError) fs now clock admin m av co : PM PluginHandle :=
  authorised now admin GRANT;; checks (fun _ => review);; install_validated fs clock admin m av co.

Definition reviewed_update (review : Result unit PluginError) fs now clock admin p m av co : PM (list CapabilityGrantRequest) :=
  authorised now admin GRANT;; '(old, b) ← plugin_and_boundary p; checks (fun _ => review);;
  update_validated fs clock admin p old b m av co.

(** What a call may do to the registry, and how it then answers. *)
Inductive changed (s : PluginRegistry) (c c' : CapState) (o : POp) : Result unit PluginError -> PluginRegistry -> Prop :=
| changed_not e : changed s c c' o (Err e) s
| changed_numbers f :
    changed s c c' o (Err (CapabilityFault f)) (with_counters s (next_plugin_id s + 1) (next_boundary_ordinal s + 1))
| changed_install m b ts sb :
    check_permission_overreach m = Ok tt -> b = 1000000 + next_boundary_ordinal s ->
    Forall2 (fun g t => minted c c' b (rights_for (operation g)) t) (requested_permissions m) ts ->
    changed s c c' o (Ok tt) (installed s (next_plugin_id s) b m ts sb)
| changed_half f p m : replaces o = true -> changed s c c' o (Err (CapabilityFault f)) (recontributed s p m)
| changed_update p old b m ots ts sbs :
    plugins s !! p = Some old -> boundaries s !! p = Some b -> tokens s !! p = Some ots ->
    check_permission_overreach m = Ok tt ->
    Forall2 (carried (requested_permissions old) ots c c' b) (requested_permissions m) ts ->
    changed s c c' o (Ok tt) (replaced s p m ts sbs)
| changed_uninstall p : changed s c c' o (Ok tt) (uninstalled s p)
| changed_quarantine p :
    changed s c c' o (Ok tt)
      (with_quarantined (with_contents s (quarantine_entry p <$> registry s) (contributed s)) (quarantined_plugins s ∪ {[p]})).

Definition progress {A : Type} (o : POp) (s : State) (k : PM A) : Prop :=
  exists r s' tr, outcome (k s) = Some (r, s') /\ exec s.2 tr s'.2 /\ changed s.1 s.2 s'.2 o r s'.1.

Lemma progress_not {A : Type} o s (k : PM A) e : k s = Some (Err e, s) -> progress o s k.
Proof. intros Hk. exists (Err e), s, []. rewrite Hk. split; [done|]. split; constructor. Qed.

Lemma install_progress o review fs now clock admin m av co s :
  wf_state s.2 -> (review = Ok tt -> check_permission_overreach m = Ok tt) ->
  NEXT s.2 + N.of_nat (S (length (requested_permissions m))) < two64 -> next_plugin_id s.1 + 1 < two64 ->
  1000000 + next_boundary_ordinal s.1 + 1 < two64 -> progress o s (reviewed_install review fs now clock admin m av co).
Proof.
  intros Hwf Hrev Hn Hp Hb.
  destruct (authorised_spec now admin GRANT s) as [[Ha Hg]|Ha];
    [|apply (progress_not _ _ _ PluginReview.Unauthorized); unfold reviewed_install, mbind, pm_bind; by rewrite Ha].
  destruct review as [[]|e]; [|apply (progress_not _ _ _ e); unfold reviewed_install, mbind, pm_bind; by rewrite Ha].
  unfold progress, reviewed_install, mbind, pm_bind. rewrite Ha. unfold checks. destruct s as [s c].
  destruct (install_validated_spec fs clock admin m av co s c Hwf Hg Hn Hp Hb) as (res & s' & c' & tr & -> & Hex & _ & Hres).
  simpl in *. destruct res as [h|e]; simpl; eexists _, (s', c'), tr; (split; [done|]; split; [done|]); simpl.
  - destruct Hres as (_ & _ & _ & _ & ts & sb & Hts & _ & ->). constructor; auto.
  - destruct Hres as [[= -> ->]|[[f [= ->]] ->]]; constructor.
Qed.

Lemma sound_token_count s c p m ts :
  sound s c -> plugins s !! p = Some m -> tokens s !! p = Some ts -> length ts = length (requested_permissions m).
Proof.
  intros Hs Hp Ht. destruct (proj1 (so_boundary _ _ Hs p) ltac:(eauto)) as [b Hb].
  symmetry. exact (Forall2_length _ _ _ (so_tokens _ _ Hs _ _ _ _ Hp Hb Ht)).
Qed.

Lemma update_progress o review fs now clock admin p m av co s :
  sound s.1 s.2 -> replaces o = true -> (review = Ok tt -> check_permission_overreach m = Ok tt) ->
  NEXT s.2 + N.of_nat (S (length (requested_permissions m))) < two64 -> progress o s (reviewed_update review fs now clock admin p m av co).
Proof.
  intros Hs Hre Hrev Hn.
  destruct (authorised_spec now admin GRANT s) as [[Ha Hg]|Ha];
    [|apply (progress_not _ _ _ PluginReview.Unauthorized); unfold reviewed_update, mbind, pm_bind; by rewrite Ha].
  destruct (plugins s.1 !! p) as [old|] eqn:Hp;
    [|apply (progress_not _ _ _ NoSuchPlugin); unfold reviewed_update, plugin_and_boundary, checks, mbind, pm_bind; by rewrite Ha, Hp].
  destruct (proj1 (so_boundary _ _ Hs p) ltac:(eauto)) as [b Hb]. destruct (proj1 (so_held _ _ Hs p) ltac:(eauto)) as [ots Ht].
  assert (Hpre : reviewed_update review fs now clock admin p m av co s
                 = (checks (fun _ => review);; update_validated fs clock admin p old b m av co) s).
  { unfold reviewed_update, plugin_and_boundary, checks, mbind, pm_bind. by rewrite Ha, Hp, Hb. }
  unfold progress. rewrite Hpre. destruct review as [[]|e]; [|by exists (Err e), s, []; split; [done|]; split; constructor].
  destruct s as [s c]. simpl in *. unfold mbind, pm_bind, checks.
  destruct (update_validated_spec fs clock admin p old b m av co s c (so_wf _ _ Hs) Hg Hn) as (res & s' & c' & tr1 & l & tr2 & -> & Hex & _ & _ & Hres).
  { rewrite Ht. by eapply sound_token_count. }
  unfold update_outcome in Hres. rewrite Ht in Hres. simpl in Hres.
  destruct res as [gs|e]; simpl; eexists _, (s', c'), _; (split; [done|]; split; [exact Hex|]); simpl.
  - destruct Hres as (_ & _ & _ & _ & _ & ts & sbs & Hts & _ & ->). econstructor; eauto.
  - destruct Hres as [[[= -> ->] _]|[[f [= ->]] [[-> _]|[-> _]]]]; by constructor.
Qed.

(** No call panics. *)
Lemma perform_progress o s : sound s.1 s.2 -> room o s -> exists r s' tr, perform o s = Some (r, s') /\ exec s.2 tr s'.2 /\ changed s.1 s.2 s'.2 o r s'.1.
Proof.
  intros Hs (Hn & Hp & Hb). pose proof (so_wf _ _ Hs) as Hwf.
  pose proof manifest_not_overreaching as H1. pose proof registered_not_overreaching as H2.
  destruct o as [fs now clock admin m av co vk|fs now clock admin m av co pubs|fs now clock admin p m av co vk|fs now clock admin p m av co pubs|now admin p|p why];
    cbn [perform mints] in *.
  - by apply (install_progress _ (validate_manifest m vk)); eauto.
  - by apply (install_progress _ (validate_manifest_against_registry m pubs)); eauto.
  - by apply (update_progress _ (validate_manifest m vk)); eauto.
  - by apply (update_progress _ (validate_manifest_against_registry m pubs)); eauto.
  - destruct s as [s c]. destruct (uninstall_spec now admin p s c Hwf) as (res & s' & c' & l & -> & Hex & Hres).
    destruct res as [[]|e]; simpl; eexists _, (s', c'), _; (split; [done|]; split; [exact Hex|]); simpl.
    + destruct Hres as (_ & _ & -> & _). constructor.
    + destruct Hres as ([= -> ->] & _). constructor.
  - unfold quarantine, checks, updates, mbind, pm_bind. destruct (plugins s.1 !! p) as [m|]; cbn [ok_or outcome mbind option_bind];
      eexists _, _, []; (split; [done|]; split; [constructor|]); simpl; constructor.
Qed.

Lemma sound_changed s c tr c' o r s' : sound s c -> exec c tr c' -> changed s c c' o r s' -> sound s' c'.
Proof.
  intros Hs Hex Hch. destruct Hch as [e|f|m b ts sb Hrev Hb Hts|f p m _|p old b m ots ts sbs Hp Hb Ht Hrev Hts|p|p].
  3: by eapply sound_installed.
  4: by eapply sound_replaced.
  all: refine (sound_monitor _ c _ _ _ Hex); try done.
  - apply (sound_ext s); [done|done..|simpl; lia|simpl; lia].
  - by apply (sound_ext s).
  - by apply sound_uninstalled.
  - by apply (sound_ext s).
Qed.

Lemma sound_new root : sound (new_registry root) initial.
Proof.
  split; simpl; [apply wf_initial|..]; intros; rewrite ?lookup_empty in *; try done.
Qed.

Lemma reach_sound Q tr s : reach Q tr s -> exec initial tr s.2 /\ sound s.1 s.2.
Proof.
  induction 1 as [root|tr s o r s' tr' _ [IHe IHs] Hroom Hper _ Hex|tr s c tr' _ [IHe IHs] Hex].
  - split; [constructor|apply sound_new].
  - split; [by eapply exec_app|]. destruct (perform_progress o s IHs Hroom) as (r1 & s1 & tr1 & Heq & Hex' & Hch).
    rewrite Hper in Heq. injection Heq as <- <-. exact (sound_changed _ _ _ _ _ _ _ IHs Hex' Hch).
  - split; [by eapply exec_app|by eapply sound_monitor].
Qed.

(** ** What stays revoked *)

Lemma recorded_is_known c b r t : recorded c b r t -> known c t.
Proof. intros (<- & _ & Hg & n & a & na & Hn & Hr & Ho & _). by exists n. Qed.

Lemma exec_nil_inv c c' : exec c [] c' -> c' = c.
Proof. intros Hex. remember [] as l eqn:Hl. destruct Hex as [|c tr c1 e c2]; [done|]. by destruct tr. Qed.

Lemma exec_first c e l c' : exec c (e :: l) c' -> exists c1, step c e c1 /\ exec c1 l c'.
Proof.
  intros Hex. remember (e :: l) as k eqn:Hk. revert l Hk. induction Hex as [|c tr c1 e1 c2 Hex IH Hst]; intros l Hk; [done|].
  destruct tr as [|x tr]; simpl in Hk; injection Hk as -> <-.
  - rewrite (exec_nil_inv _ _ Hex) in Hst. exists c2. split; [done|constructor].
  - destruct (IH tr eq_refl) as (c3 & H3 & H4). exists c3. split; [done|]. by econstructor.
Qed.

Lemma revoke_step_shape c t c1 : wf_state c -> step c (EvRevoke t) c1 -> same_shape (graph (mon c1)) (graph (mon c)).
Proof.
  intros Hwf Hst. inversion Hst as [| | |? ? rc ? HR|]; subst.
  destruct (revoke_one_spec t (new_registry None) c Hwf) as (c' & Heq & _ & _ & Hsh & _). unfold revoke_one in Heq. simpl in Heq.
  rewrite HR in Heq. by injection Heq as ->.
Qed.

Lemma revoked_together tr c l c' tr2 c2 u t now :
  exec initial tr c -> exec c (EvRevoke <$> l) c' -> exec c' tr2 c2 ->
  revocations (tr ++ (EvRevoke <$> l) ++ tr2) < two64 ->
  known c u -> t ∈ l -> descends (graph (mon c)) (token_id t) (token_id u) -> check_live now (mon c2) u = Err Revoked.
Proof.
  revert tr c. induction l as [|t0 l IH]; intros tr c Htr Hl H2 Hb Hu Ht Hd; [by apply not_elem_of_nil in Ht|].
  pose proof (exec_wf _ _ _ wf_initial Htr) as Hwf. destruct (exec_first _ _ _ _ Hl) as (c1 & Hst & Hl1).
  pose proof (revoke_step_shape _ _ _ Hwf Hst) as Hsh.
  assert (Hex1 : exec c [EvRevoke t0] c1) by (apply (exec_snoc c [] c); [constructor|done]).
  apply elem_of_cons in Ht as [->|Ht].
  - apply (revoked_stays tr c t0 c1 ((EvRevoke <$> l) ++ tr2) c2); try done; [by eapply exec_app|].
    by rewrite <- app_assoc.
  - apply (IH (tr ++ [EvRevoke t0]) c1); try done.
    + by econstructor.
    + by rewrite <- app_assoc.
    + destruct Hu as (n & Hn & Ho & Hr & Hg). destruct (node_kept _ _ _ _ _ Hwf Hex1 Hn) as (n' & Hn' & _ & Ho' & Hr').
      exists n'. split_and!; congruence.
    + by eapply descends_same_shape; [apply same_shape_sym|].
Qed.

(** A plugin's tokens cannot delegate, so no plugin's token is below another's. *)
Lemma rights_for_no_grant op : contains (rights_for op) GRANT = false.
Proof. by destruct op. Qed.

Lemma tokens_not_below s c p q ts us t u :
  sound s c -> p <> q -> tokens s !! p = Some ts -> tokens s !! q = Some us -> t ∈ ts -> u ∈ us ->
  ~ descends (graph (mon c)) (token_id t) (token_id u).
Proof.
  intros Hs Hne Hp Hq Ht Hu Hd.
  assert (Hrec : forall x tx xs, tokens s !! x = Some xs -> tx ∈ xs -> exists b op, recorded c b (rights_for op) tx).
  { intros x tx xs Hx Hin. destruct (proj2 (so_held _ _ Hs x) ltac:(eauto)) as [m Hm].
    destruct (proj1 (so_boundary _ _ Hs x) ltac:(eauto)) as [b Hb].
    destruct (Forall2_right _ _ _ _ (so_tokens _ _ Hs _ _ _ _ Hm Hb Hx) Hin) as (g & _ & Hr). by exists b, (operation g). }
  destruct (Hrec _ _ _ Hp Ht) as (b & op & _ & _ & _ & n & _ & _ & Hn & Hnr & _).
  destruct (Hrec _ _ _ Hq Hu) as (b' & op' & _ & _ & _ & n' & a & na & Hn' & _ & _ & Hpar & Ha & Hg).
  pose proof (wfs_graph _ (so_wf _ _ Hs)) as Hwf. pose proof (wf_parent _ Hwf _ _ _ Hn' Hpar) as Hch.
  apply (descends_inv_parent _ Hwf _ _ _ Hch) in Hd as [Heq|Hd].
  - by apply Hne, (so_apart _ _ Hs p q ts us t u).
  - destruct (descends_atten _ _ _ _ _ Hwf Hd Hn Ha) as [Hc _]. rewrite Hnr in Hc.
    pose proof (contains_trans _ _ _ Hc Hg) as Hcg. by rewrite rights_for_no_grant in Hcg.
Qed.

(** ** What is registered *)

Definition impls (r : gmap text RegistryEntry) : list ImplementationDescriptor :=
  map_to_list r ≫= fun ke => implementations ke.2.

Definition impls_of (p : N) (r : gmap text RegistryEntry) : list ImplementationDescriptor :=
  List.filter (fun d => impl_plugin d =? p) (impls r).

#[local] Instance list_filter_proper {A : Type} (f : A -> bool) : Proper (Permutation ==> Permutation) (List.filter f).
Proof.
  intros l k Hp. induction Hp as [|x l k _ IH|x y l|l k j _ IH1 _ IH2]; simpl; [done| | |by etrans].
  - by destruct (f x); [constructor|].
  - destruct (f x), (f y); try done. by constructor.
Qed.

Lemma impls_insert r k e : r !! k = None -> impls (<[k := e]> r) ≡ₚ implementations e ++ impls r.
Proof. intros Hk. unfold impls. by rewrite (map_to_list_insert r k e Hk). Qed.

Lemma impls_lookup r k e : r !! k = Some e -> impls r ≡ₚ implementations e ++ impls (base.delete k r).
Proof. intros Hk. rewrite <- (impls_insert (base.delete k r) k e) by apply lookup_delete_eq. by rewrite insert_delete_id. Qed.

Lemma impls_replace r k e e' x :
  r !! k = Some e -> implementations e' = implementations e ++ x -> impls (<[k := e']> r) ≡ₚ impls r ++ x.
Proof.
  intros Hk He. rewrite (impls_lookup r k e Hk), <- insert_delete_eq, impls_insert by apply lookup_delete_eq. rewrite He.
  rewrite <- !app_assoc. f_equiv. apply Permutation_app_comm.
Qed.

(** [version_variant] finds a name that is free. *)
Lemma debug_u64_inj a b : debug_u64 a = debug_u64 b -> a = b.
Proof. intros Heq. by destruct (debug_u64_closed a b [] [] ltac:(by rewrite Heq)). Qed.

Lemma variant_loop_used fuel r id n :
  is_Some (r !! variant_loop fuel r id n) -> forall k, n <= k < n + N.of_nat fuel -> is_Some (r !! candidate id k).
Proof.
  revert n. induction fuel as [|fuel IH]; intros n Hs k Hk; [lia|]. cbn [variant_loop] in Hs.
  destruct (r !! candidate id n) as [e|] eqn:He; [|rewrite He in Hs; by destruct Hs].
  destruct (decide (k = n)) as [->|Hne]; [by exists e|]. apply (IH (n + 1) Hs). lia.
Qed.

Lemma version_variant_free r id : r !! version_variant r id = None.
Proof.
  apply eq_None_not_Some. intros Hs. pose proof (variant_loop_used _ _ _ _ Hs) as Hall.
  set (l := (fun k => candidate id (2 + N.of_nat k)) <$> seq 0 (S (size r))).
  assert (Hnd : NoDup l).
  { apply NoDup_fmap_2_strong; [|apply NoDup_seq]. intros x y _ _ Heq. unfold candidate in Heq.
    apply app_inv_head, app_inv_head in Heq. apply debug_u64_inj in Heq. lia. }
  assert (Hsub : l ⊆ (map_to_list r).*1).
  { intros k (i & -> & Hi)%list_elem_of_fmap. apply elem_of_seq in Hi.
    destruct (Hall (2 + N.of_nat i) ltac:(lia)) as [e He]. apply list_elem_of_fmap. exists (candidate id (2 + N.of_nat i), e).
    split; [done|]. by apply elem_of_map_to_list. }
  pose proof (submseteq_length _ _ (NoDup_submseteq _ _ Hnd Hsub)) as Hle.
  unfold l in Hle. rewrite !length_fmap, length_seq, length_map_to_list in Hle. lia.
Qed.

Lemma impls_register r p cm : impls (register_implementation r p cm) ≡ₚ impls r ++ [descriptor_of p cm].
Proof.
  unfold register_implementation. destruct (r !! cm_capability_id cm) as [e|] eqn:He.
  - case_bool_decide; [by eapply impls_replace|]. rewrite impls_insert by apply version_variant_free. apply Permutation_cons_append.
  - rewrite impls_insert by done. apply Permutation_cons_append.
Qed.

Lemma impls_register_all p cs r : impls (register_all p cs r) ≡ₚ impls r ++ (descriptor_of p <$> omap capability_of cs).
Proof.
  unfold register_all. revert r. induction (omap capability_of cs) as [|cm l IH]; intros r; simpl; [by rewrite app_nil_r|].
  rewrite IH, impls_register. by rewrite <- app_assoc.
Qed.

Lemma impls_remove p r : impls (remove_implementations r p) ≡ₚ List.filter (fun d => negb (impl_plugin d =? p)) (impls r).
Proof.
  unfold remove_implementations. induction r as [|k e r Hk IH] using map_ind; [by rewrite omap_empty|].
  rewrite (impls_insert _ _ _ Hk), List.filter_app.
  destruct (inhabited_entry (without_plugin p e)) as [e'|] eqn:He; unfold inhabited_entry in He; simpl in He.
  - rewrite (omap_insert_Some _ _ _ _ e') by (unfold inhabited_entry; simpl; done).
    rewrite impls_insert by (by rewrite lookup_omap, Hk). rewrite IH.
    by destruct (List.filter _ (implementations e)) eqn:Hf; [|injection He as <-; simpl; rewrite Hf].
  - rewrite omap_insert_None by (unfold inhabited_entry; simpl; done). rewrite delete_id by (by rewrite lookup_omap, Hk).
    by destruct (List.filter _ (implementations e)) eqn:Hf.
Qed.

Lemma impls_quarantine p r : impls (quarantine_entry p <$> r) ≡ₚ impls r.
Proof.
  induction r as [|k e r Hk IH] using map_ind; [by rewrite fmap_empty|]. rewrite fmap_insert, !impls_insert by (by rewrite ?lookup_fmap, ?Hk).
  rewrite IH. unfold quarantine_entry. by destruct (bool_decide _).
Qed.

(** The contributions of each kind that is kept per plugin, in order. *)
Definition Kinds : Type :=
  list AgentContribution * list HardwareSupportContribution * list KnowledgeProviderContribution * list UiComponentContribution
  * list AutomationWorkflowContribution * list MemoryProviderContribution * list ExecutionEngineContribution.

Definition kinds_of (cs : list Contribution) : Kinds :=
  (omap (fun c => match c with CAgent x => Some x | _ => None end) cs, omap (fun c => match c with CHardware x => Some x | _ => None end) cs,
   omap (fun c => match c with CKnowledge x => Some x | _ => None end) cs, omap (fun c => match c with CUi x => Some x | _ => None end) cs,
   omap (fun c => match c with CWorkflow x => Some x | _ => None end) cs, omap (fun c => match c with CMemory x => Some x | _ => None end) cs,
   omap (fun c => match c with CEngine x => Some x | _ => None end) cs).

Definition kinds_at (x : Contributed) (p : N) : Kinds :=
  (default [] (agents x !! p), default [] (hardware_support x !! p), default [] (knowledge_providers x !! p),
   default [] (ui_components x !! p), default [] (automation_workflows x !! p), default [] (memory_providers x !! p),
   default [] (execution_engines x !! p)).

Lemma push_to_at {A : Type} (m : gmap N (list A)) p q x :
  default [] (push_to m p x !! q) = default [] (m !! q) ++ (if decide (q = p) then [x] else []).
Proof.
  unfold push_to. destruct (decide (q = p)) as [->|Hne]; [by rewrite lookup_insert_eq|]. by rewrite lookup_insert_ne, app_nil_r.
Qed.

Lemma register_extra_other x p q c : q <> p -> kinds_at (register_extra x p c) q = kinds_at x q.
Proof. intros Hne. destruct x, c; unfold kinds_at; simpl; rewrite ?push_to_at, ?decide_False by done; by rewrite ?app_nil_r. Qed.

Lemma register_extras_other p cs x q : q <> p -> kinds_at (register_extras p cs x) q = kinds_at x q.
Proof.
  intros Hne. unfold register_extras. revert x. induction cs as [|c cs IH]; intros x; [done|]. cbn [fold_left].
  by rewrite IH, register_extra_other.
Qed.

Lemma register_extras_at p cs x pre : kinds_at x p = kinds_of pre -> kinds_at (register_extras p cs x) p = kinds_of (pre ++ cs).
Proof.
  unfold register_extras. revert x pre. induction cs as [|c cs IH]; intros x pre Hx; [by rewrite app_nil_r|]. cbn [fold_left].
  rewrite (IH _ (pre ++ [c])); [by rewrite <- app_assoc|]. unfold kinds_at, kinds_of in *. injection Hx as H1 H2 H3 H4 H5 H6 H7.
  destruct x, c; simpl in *; rewrite ?push_to_at, ?decide_True by done; rewrite !omap_app; simpl; rewrite ?app_nil_r; congruence.
Qed.

Lemma remove_extras_at x p q : kinds_at (remove_extras x p) q = if decide (q = p) then kinds_of [] else kinds_at x q.
Proof.
  unfold kinds_at. simpl. destruct (decide (q = p)) as [->|Hne]; by rewrite ?lookup_delete_eq, ?lookup_delete_ne.
Qed.

(** The registry shows what the installed manifests contribute. *)
Definition registered (m : option PluginManifest) : list Contribution := match m with Some m => contributions m | None => [] end.

Definition shown (s : PluginRegistry) (p : N) : Prop :=
  impls_of p (registry s) ≡ₚ (descriptor_of p <$> omap capability_of (registered (plugins s !! p)))
  /\ kinds_at (contributed s) p = kinds_of (registered (plugins s !! p)).

Lemma impls_of_register_all p q cs r :
  impls_of q (register_all p cs r) ≡ₚ impls_of q r ++ (if decide (q = p) then descriptor_of p <$> omap capability_of cs else []).
Proof.
  unfold impls_of. rewrite impls_register_all, List.filter_app. f_equiv. induction (omap capability_of cs) as [|cm l IH]; simpl; [by case_decide|].
  destruct (N.eqb_spec p q) as [->|Hne]; rewrite IH; repeat case_decide; by subst.
Qed.

Lemma impls_of_remove p q r : impls_of q (remove_implementations r p) ≡ₚ if decide (q = p) then [] else impls_of q r.
Proof.
  unfold impls_of. rewrite impls_remove. case_decide as Hq; induction (impls r) as [|d l IH]; simpl; try done.
  - destruct (N.eqb_spec (impl_plugin d) p); simpl; [done|]. by destruct (N.eqb_spec (impl_plugin d) q); [congruence|].
  - destruct (N.eqb_spec (impl_plugin d) p); simpl; destruct (N.eqb_spec (impl_plugin d) q); [congruence|done|by rewrite IH|done].
Qed.

(** The contents after a registration that starts from none of the plugin's own. *)
Lemma shown_register s s' p m :
  (forall q, shown s q) -> plugins s !! p = None -> plugins s' = <[p := m]> (plugins s) ->
  registry s' = register_all p (contributions m) (registry s) -> contributed s' = register_extras p (contributions m) (contributed s) ->
  forall q, shown s' q.
Proof.
  intros Hs Hp Hpl Hr Hx q. unfold shown. rewrite Hpl, Hr, Hx, impls_of_register_all. destruct (Hs q) as [H1 H2]. rewrite H1.
  destruct (decide (q = p)) as [->|Hne].
  - rewrite lookup_insert_eq, Hp in *. split; [done|]. by apply (register_extras_at _ _ _ []).
  - rewrite lookup_insert_ne, app_nil_r by done. by rewrite register_extras_other.
Qed.

Lemma shown_uninstalled s p : (forall q, shown s q) -> forall q, shown (uninstalled s p) q.
Proof.
  intros Hs q. unfold shown. simpl. rewrite impls_of_remove, remove_extras_at. destruct (decide (q = p)) as [->|Hne].
  - by rewrite lookup_delete_eq.
  - rewrite lookup_delete_ne by done. apply Hs.
Qed.

Definition calm (o : POp) (r : Result unit PluginError) : Prop := replaces o = true -> ~ is_fault r.

Lemma shown_changed s c c' o r s' :
  sound s c -> calm o r -> changed s c c' o r s' -> (forall q, shown s q) -> forall q, shown s' q.
Proof.
  intros Hs Hcalm Hch Hsh. destruct Hch as [e|f|m b ts sb Hrev Hb Hts|f p m Hre|p old b m ots ts sbs Hp Hb Ht Hrev Hts|p|p]; try done.
  - apply (shown_register s _ (next_plugin_id s) m); try done. apply eq_None_not_Some. intros Hp. pose proof (so_numbered _ _ Hs _ Hp). lia.
  - by destruct (Hcalm Hre); exists f.
  - apply (shown_register (uninstalled s p) _ p m); try done; [by apply shown_uninstalled|apply lookup_delete_eq|].
    simpl. by rewrite insert_delete_eq.
  - by apply shown_uninstalled.
  - intros q. unfold shown, impls_of. simpl. rewrite impls_quarantine. apply Hsh.
Qed.

Lemma reach_shown tr s : reach calm tr s -> forall p, shown s.1 p.
Proof.
  induction 1 as [root|tr s o r s' tr' Hr IH Hroom Hper Hq Hex|tr s c tr' _ IH Hex]; [by split| |done].
  destruct (reach_sound _ _ _ Hr) as [_ Hs]. destruct (perform_progress o s Hs Hroom) as (r1 & s1 & tr1 & Heq & Hex' & Hch).
  rewrite Hper in Heq. injection Heq as <- <-. by eapply shown_changed.
Qed.

Lemma elem_of_listed {A : Type} s (m : gmap N (list A)) x :
  x ∈ listed s m <-> exists p, p ∉ quarantined_plugins s /\ x ∈ default [] (m !! p).
Proof.
  unfold listed. rewrite list_elem_of_bind. split.
  - intros ([p l] & Hx & Hl). rewrite hash_iter_perm in Hl. apply elem_of_map_to_list in Hl. case_bool_decide; [by apply not_elem_of_nil in Hx|].
    exists p. by rewrite Hl.
  - intros (p & Hq & Hx). destruct (m !! p) as [l|] eqn:Hl; [|by apply not_elem_of_nil in Hx]. exists (p, l).
    rewrite bool_decide_false by done. split; [done|]. rewrite hash_iter_perm. by apply elem_of_map_to_list.
Qed.

Lemma elem_of_omap_kind {B : Type} (f : Contribution -> option B) (g : B -> Contribution) (cs : list Contribution) (x : B) :
  (forall c y, f c = Some y <-> c = g y) -> x ∈ omap f cs <-> g x ∈ cs.
Proof. intros Hfg. rewrite list_elem_of_omap. split; [intros (c & Hc & ->%Hfg); done|]. intros Hx. exists (g x). by rewrite Hfg. Qed.

(** C36. The permission tokens the registry lists for a plugin are those its manifest was
    reviewed for. Whatever calls were made before, to the registry or the monitor: no call
    panics; every installed plugin has a boundary and lists one token per requested
    permission, in order, for that boundary and with exactly the rights of the operation,
    recorded below a token that may grant; whatever check such a token passes is for a
    right of an operation that one of the plugin's contributions needs; and no two plugins
    share a boundary or a listed token. (Not listed there, and not covered: the token to
    read and write that the sandbox of a native plugin gets, and a token that an update
    forgets, [PluginExample.repeated_grant_is_leaked].) *)
Theorem plugin_tokens_exact Q tr s :
  reach Q tr s ->
  (forall o, room o s -> exists r s', perform o s = Some (r, s'))
  /\ (forall p, plugins s.1 !! p = None -> tokens_of s.1 p = None /\ boundary_of s.1 p = None)
  /\ forall p m, plugins s.1 !! p = Some m ->
       exists b ts, boundary_of s.1 p = Some b /\ tokens_of s.1 p = Some ts
         /\ Forall2 (fun g t => recorded s.2 b (rights_for (operation g)) t) (requested_permissions m) ts
         /\ (forall t now r, t ∈ ts -> check_rights_ok_result now (mon s.2) t r = Ok tt ->
               exists g c, g ∈ requested_permissions m /\ c ∈ contributions m /\ justifies (operation g) c = true
                 /\ contains (rights_for (operation g)) r = true)
         /\ forall q b' us, q <> p -> boundary_of s.1 q = Some b' -> tokens_of s.1 q = Some us ->
              b' <> b /\ forall t u, t ∈ ts -> u ∈ us -> token_id t <> token_id u.
Proof.
  intros Hr. destruct (reach_sound _ _ _ Hr) as [_ Hs]. split; [|split].
  - intros o Ho. destruct (perform_progress o s Hs Ho) as (r & s' & _ & Heq & _). by exists r, s'.
  - intros p Hp. split; apply eq_None_not_Some; intros Hx; [apply (so_held _ _ Hs) in Hx|apply (so_boundary _ _ Hs) in Hx];
      rewrite Hp in Hx; by destruct Hx.
  - intros p m Hp. destruct (proj1 (so_boundary _ _ Hs p) ltac:(eauto)) as [b Hb].
    destruct (proj1 (so_held _ _ Hs p) ltac:(eauto)) as [ts Ht]. exists b, ts. split; [done|]. split; [done|].
    pose proof (so_tokens _ _ Hs _ _ _ _ Hp Hb Ht) as Hall. split; [done|]. split.
    + intros t now r Hin Hc%check_rights_contains. destruct (Forall2_right _ _ _ _ Hall Hin) as (g & Hg & Hrt & _).
      pose proof (so_review _ _ Hs _ _ Hp) as Hrev. unfold check_permission_overreach in Hrev.
      rewrite check_requests_ok, Forall_forall in Hrev. destruct (Hrev g Hg) as (c & Hcin & Hj). exists g, c. by rewrite <- Hrt.
    + intros q b' us Hne Hqb Hqt. split; [intros ->; by apply Hne, (so_own _ _ Hs q p b)|].
      intros t u Hit Hiu Heq. by apply Hne, (so_apart _ _ Hs q p us ts u t).
Qed.

(** C37. Uninstalling a plugin that has no sandbox token. It succeeds for an
    administrator who may revoke and a plugin that is there. From then on every check of
    the tokens the registry holds for the plugin, and of every token delegated from them,
    is refused as revoked, whatever is minted or revoked later (fewer than 2^64
    revocations in all); the registry holds no token for it any more; the plugin, its
    boundary, its implementations and its contributions are gone; and every other plugin
    keeps its manifest, its boundary, its tokens and their answers, and its contributions.
    (The sandbox token of a native plugin is neither revoked nor forgotten,
    [PluginExample.sandbox_token_survives], and a token that an update has forgotten is
    not revoked here, [PluginExample.repeated_grant_is_leaked].) *)
Theorem uninstalled_is_gone Q tr s now admin p ts :
  reach Q tr s -> check_rights_ok_result now (mon s.2) admin REVOKE = Ok tt -> tokens_of s.1 p = Some ts ->
  sandbox_tokens s.1 !! p = None ->
  exists s', uninstall now admin p s = Some (Ok tt, s')
    /\ Forall (known s.2) ts
    /\ (forall c tr2 u t now' r, exec s'.2 tr2 c -> revocations (tr ++ (EvRevoke <$> ts) ++ tr2) < two64 ->
          known s.2 u -> t ∈ ts -> descends (graph (mon s.2)) (token_id t) (token_id u) ->
          check_rights_ok_result now' (mon c) u r = Err Revoked)
    /\ plugins s'.1 !! p = None /\ boundary_of s'.1 p = None /\ tokens_of s'.1 p = None /\ sandbox_tokens s'.1 !! p = None
    /\ impls_of p (registry s'.1) = [] /\ kinds_at (contributed s'.1) p = kinds_of []
    /\ forall q, q <> p ->
         plugins s'.1 !! q = plugins s.1 !! q /\ boundary_of s'.1 q = boundary_of s.1 q /\ tokens_of s'.1 q = tokens_of s.1 q
         /\ (forall us u now' r, tokens_of s.1 q = Some us -> u ∈ us ->
               check_rights_ok_result now' (mon s'.2) u r = check_rights_ok_result now' (mon s.2) u r)
         /\ impls_of q (registry s'.1) ≡ₚ impls_of q (registry s.1)
         /\ kinds_at (contributed s'.1) q = kinds_at (contributed s.1) q.
Proof.
  intros Hr Hauth Ht Hsb. destruct (reach_sound _ _ _ Hr) as [Hex Hs]. destruct s as [s c]. unfold tokens_of in Ht. simpl in *.
  destruct (uninstall_spec now admin p s c (so_wf _ _ Hs)) as (res & s' & c' & l & Heq & Hrev & Hres).
  destruct res as [[]|e]; [|destruct Hres as (_ & _ & [[_ Hno]|[_ Hno]]); [done|congruence]].
  destruct Hres as (_ & Hl & -> & _ & Hu). assert (l = ts) as -> by congruence. exists (uninstalled s p, c'). split; [done|].
  assert (Hkn : Forall (known c) ts).
  { destruct (proj2 (so_held _ _ Hs p) ltac:(eauto)) as [m Hm]. destruct (proj1 (so_boundary _ _ Hs p) ltac:(eauto)) as [b Hb].
    apply Forall_forall. intros t Hin. destruct (Forall2_right _ _ _ _ (so_tokens _ _ Hs _ _ _ _ Hm Hb Ht) Hin) as (g & _ & Hrec).
    by eapply recorded_is_known. }
  split; [done|]. split; [|split_and!].
  - intros c2 tr2 u t now' r H2 Hb Hk Hin Hd. unfold check_rights_ok_result.
    by rewrite (revoked_together _ _ _ _ _ _ _ _ _ Hex Hrev H2 Hb Hk Hin Hd).
  - apply lookup_delete_eq.
  - apply lookup_delete_eq.
  - apply lookup_delete_eq.
  - exact Hsb.
  - simpl. apply Permutation_nil_r. by rewrite impls_of_remove, decide_True.
  - simpl. by rewrite remove_extras_at, decide_True.
  - intros q Hne. unfold boundary_of, tokens_of. simpl. rewrite !lookup_delete_ne, impls_of_remove, remove_extras_at, !decide_False by done.
    split_and!; try done. intros us u now' r Hq Hin. unfold check_rights_ok_result. rewrite Hu; [done|].
    intros t Ht'. by eapply (tokens_not_below s c p q).
Qed.

(** The registry shows what the installed manifests contribute, and nothing
    else: as long as no update was cut short by the monitor, the implementations
    registered for a plugin are those of its manifest's capabilities, one each,
    whichever entry they share or were given; each kind of contribution is listed as
    the manifest has it; a contributed agent is offered exactly when a plugin that is
    installed and not quarantined contributes it; and a name invented for a second
    version of a capability is always free. *)
Theorem registry_shows_installed tr s :
  reach calm tr s ->
  (forall p, impls_of p (registry s.1) ≡ₚ (descriptor_of p <$> omap capability_of (registered (plugins s.1 !! p)))
             /\ kinds_at (contributed s.1) p = kinds_of (registered (plugins s.1 !! p)))
  /\ (forall x, x ∈ agent_contributions s.1 <->
        exists p m, plugins s.1 !! p = Some m /\ p ∉ quarantined_plugins s.1 /\ CAgent x ∈ contributions m)
  /\ forall id, registry s.1 !! version_variant (registry s.1) id = None.
Proof.
  intros Hr. pose proof (reach_shown _ _ Hr) as Hsh. split; [exact Hsh|]. split; [|intros id; apply version_variant_free].
  intros x. unfold agent_contributions. rewrite elem_of_listed.
  assert (Hag : forall p, default [] (agents (contributed s.1) !! p)
                = omap (fun c => match c with CAgent x => Some x | _ => None end) (registered (plugins s.1 !! p))).
  { intros p. destruct (Hsh p) as [_ Hk]. by injection Hk. }
  assert (Hkind : forall cs : list Contribution, x ∈ omap (fun c => match c with CAgent x => Some x | _ => None end) cs <-> CAgent x ∈ cs).
  { intros cs. apply elem_of_omap_kind. intros [] y; split; intros ?; by simplify_eq. }
  split.
  - intros (p & Hq & Hx). rewrite Hag, Hkind in Hx. destruct (plugins s.1 !! p) as [m|] eqn:Hp; [by exists p, m|by apply not_elem_of_nil in Hx].
  - intros (p & m & Hp & Hq & Hx). exists p. split; [done|]. rewrite Hag, Hkind, Hp. done.
Qed.
End registry.

(** ** Concrete registries *)
Module PluginExample.
Import Crypto.Toy ReviewExample.

Definition fs : FileSystem := mkFs (fun _ => Some 493) (fun _ => Some true).
Definition clock (k : nat) : Instant := N.of_nat k.
Definition admin_rights : RightsMask := rights_or (rights_or READ WRITE) (rights_or EXEC (rights_or GRANT REVOKE)).
Definition started (r : RightsMask) : CapabilityToken * State :=
  let '(t, c) := mint_root 0 initial r 1 None in (t, (new_registry (Some (lit "/data")), c)).
Definition admin : CapabilityToken := (started admin_rights).1.
Definition s0 : State := (started admin_rights).2.

(** The state after a call, and whether it succeeded. *)
Definition after (o : POp) (s : State) : State := match perform o s with Some (_, s) => s | None => s end.
Definition succeeds (o : POp) (s : State) : bool := match perform o s with Some (Ok _, _) => true | _ => false end.

Definition installs (m : PluginManifest) : POp := PInstall fs 0 clock admin (signed m) D2 true 5.
Definition updates_to (p : N) (m : PluginManifest) : POp := PUpdate fs 0 clock admin p (signed m) D2 true 5.
Definition tool_plugin : PluginManifest := manifest [capability pure_contract] [ask Read; ask Execute].

(** The sandbox token of an uninstalled plugin stays valid. *)
Example sandbox_token_survives :
  let s := after (PUninstall 0 admin 1) (after (installs tool_plugin) s0) in
  plugins s.1 !! 1 = None
  /\ match sandbox_tokens s.1 !! 1 with Some t => check_rights_ok_result 9 (mon s.2) t WRITE = Ok tt | None => False end.
Proof. vm_compute. done. Qed.

(** Updating a quarantined plugin puts its capabilities back into service. *)
Example update_lifts_quarantine :
  let held := after (PQuarantine 1 IntegrityFailure) (after (installs tool_plugin) s0) in
  query held.1 [99] = None /\ is_Some (query (after (updates_to 1 tool_plugin) held).1 [99]).
Proof. vm_compute. split; [done|by eexists]. Qed.

(** Quarantining a plugin takes a shared capability from the plugin that also
    implements it, and uninstalling the culprit does not give it back. *)
Example quarantine_takes_what_is_shared :
  let both := after (installs tool_plugin) (after (installs tool_plugin) s0) in
  let held := after (PQuarantine 1 PolicyViolation) both in
  is_Some (query both.1 [99]) /\ query (after (PUninstall 0 admin 1) held).1 [99] = None
  /\ is_Some (plugins (after (PUninstall 0 admin 1) held).1 !! 2).
Proof. vm_compute. split; [by eexists|]. split; [done|by eexists]. Qed.

(** The second token of a permission that was asked for twice is forgotten by an
    update, and not revoked. *)
Example repeated_grant_is_leaked :
  let twice := after (installs (manifest [capability pure_contract] [ask Read; ask Read])) s0 in
  let once := after (updates_to 1 (manifest [capability pure_contract] [ask Read])) twice in
  match tokens_of twice.1 1, tokens_of once.1 1 with
  | Some [t; t'], Some [u] => u = t /\ check_rights_ok_result 9 (mon once.2) t' READ = Ok tt
  | _, _ => False
  end.
Proof. vm_compute. done. Qed.

(** An administrator who may not hand out what a permission needs: installing fails,
    and the token of the first permission was minted all the same. *)
Definition weak : CapabilityToken * State := started (rights_or READ GRANT).
Example failed_install_leaks_a_token :
  match install fs 0 clock weak.1 (signed tool_plugin) D2 true 5 weak.2 with
  | Some (Err (CapabilityFault CannotEscalate), s) =>
      plugins s.1 = ∅ /\ check_rights_ok_result 9 (mon s.2) (mkToken 2 0 READ 0 1000001 None) READ = Ok tt
  | _ => False
  end.
Proof. vm_compute. done. Qed.

(** The same while an update mints the token of the sandbox: the contributions are
    the new ones and the manifest is the old one. *)
Definition plain : PluginManifest := manifest [CWorkflow (mkWorkflow [] [114] [])] [ask Read].
Example failed_update_is_half_done :
  match install fs 0 clock weak.1 (signed plain) D2 true 5 weak.2 with
  | Some (Ok h, s) =>
      match update fs 0 clock weak.1 (handle_plugin h) (signed (manifest [capability pure_contract] [ask Read])) D2 true 5 s with
      | Some (Err (CapabilityFault CannotEscalate), s') =>
          (contributions <$> plugins s'.1 !! 1) = Some (contributions plain)
          /\ is_Some (query s'.1 [99]) /\ automation_workflow_contributions s'.1 = []
      | _ => False
      end
  | _ => False
  end.
Proof. vm_compute. split; [done|]. split; [by eexists|done]. Qed.

(** The data directory of a capability without a name is the whole directory of the
    caller, in which those of the other capabilities are. *)
Example nameless_capability_sees_all_data :
  data_dir (lit "/data") 7 [] = lit "/data/7/" /\ data_dir (lit "/data") 7 [99] = lit "/data/7/63".
Proof. vm_compute. done. Qed.

(** An update may come from another publisher and be for another plugin. *)
Example update_ignores_identity :
  let other := mkManifest 8 [113] None 1 [capability pure_contract] [ask Read] D1 in
  (fun m => (pm_plugin_id m, publisher m)) <$> plugins (after (updates_to 1 other) (after (installs tool_plugin) s0)).1 !! 1
  = Some (8, [113]).
Proof. vm_compute. done. Qed.

(** A run with its trace. *)
Definition c0 : CapState := s0.2.
Definition t1 : CapabilityToken := mkToken 2 0 READ 0 1000001 None.
Definition t2 : CapabilityToken := mkToken 3 0 EXEC 0 1000001 None.
Definition t3 : CapabilityToken := mkToken 4 0 sandbox_rights 0 1000001 None.
Definition c1 : CapState := (cap_derive 0 c0 admin READ None 1000001).2.
Definition c2 : CapState := (cap_derive 1 c1 admin EXEC None 1000001).2.
Definition c3 : CapState := (cap_derive 2 c2 admin sandbox_rights None 1000001).2.
Definition minting : list event := (([] ++ [EvDerive admin t1]) ++ [EvDerive admin t2]) ++ [EvDerive admin t3].
Definition s1 : State := after (installs tool_plugin) s0.

Lemma minting_run : exec c0 minting c3.
Proof.
  unfold minting. apply (exec_snoc _ _ c2); [apply (exec_snoc _ _ c1); [apply (exec_snoc _ _ c0); [constructor|]|]|].
  - apply (step_derive 0 c0 admin READ None 1000001); [vm_compute; reflexivity|vm_compute; reflexivity].
  - apply (step_derive 1 c1 admin EXEC None 1000001); [vm_compute; reflexivity|vm_compute; reflexivity].
  - apply (step_derive 2 c2 admin sandbox_rights None 1000001); [vm_compute; reflexivity|vm_compute; reflexivity].
Qed.

Lemma admin_run : exec initial [EvMint admin] c0.
Proof.
  apply (exec_snoc initial [] initial); [constructor|].
  apply (step_mint 0 initial admin_rights 1 None); [vm_compute; reflexivity|vm_compute; reflexivity|vm_compute; reflexivity].
Qed.

Lemma installed_run Q : Q (installs tool_plugin) (Ok tt) -> reach Q (([] ++ [EvMint admin]) ++ minting) s1.
Proof.
  intros HQ. apply (reach_call Q _ s0 (installs tool_plugin) (Ok tt)).
  - apply (reach_monitor Q [] (new_registry (Some (lit "/data")), initial)); [constructor|exact admin_run].
  - vm_compute. done.
  - vm_compute. reflexivity.
  - exact HQ.
  - exact minting_run.
Qed.

(** A plugin without a program of its own, and so without a sandbox. *)
Definition agent_plugin : PluginManifest := manifest [CAgent (mkAgent (lit "notes") [] [])] [ask Read; ask Execute].
Definition s2 : State := after (installs agent_plugin) s0.

Lemma agent_run Q : Q (installs agent_plugin) (Ok tt) ->
  reach Q (([] ++ [EvMint admin]) ++ (([] ++ [EvDerive admin t1]) ++ [EvDerive admin t2])) s2.
Proof.
  intros HQ. apply (reach_call Q _ s0 (installs agent_plugin) (Ok tt)).
  - apply (reach_monitor Q [] (new_registry (Some (lit "/data")), initial)); [constructor|exact admin_run].
  - vm_compute. done.
  - vm_compute. reflexivity.
  - exact HQ.
  - apply (exec_snoc _ _ c1); [apply (exec_snoc _ _ c0); [constructor|]|].
    + apply (step_derive 0 c0 admin READ None 1000001); [vm_compute; reflexivity|vm_compute; reflexivity].
    + apply (step_derive 1 c1 admin EXEC None 1000001); [vm_compute; reflexivity|vm_compute; reflexivity].
Qed.
End PluginExample.
Import Crypto.Toy ReviewExample PluginExample.

Lemma plugin_tokens_exact_witness :
  exists b ts, boundary_of s1.1 1 = Some b /\ tokens_of s1.1 1 = Some ts /\ length ts = 2%nat.
Proof.
  destruct (plugin_tokens_exact (fun _ _ => True) _ s1 (installed_run (fun _ _ => True) I)) as (_ & _ & Hall).
  destruct (Hall 1 (signed tool_plugin)) as (b & ts & Hb & Ht & Hlen & _); [vm_compute; reflexivity|].
  exists b, ts. split; [exact Hb|]. split; [exact Ht|]. apply Forall2_length in Hlen. rewrite <- Hlen. reflexivity.
Defined.

Lemma uninstalled_is_gone_witness :
  exists s', uninstall 0 admin 1 s2 = Some (Ok tt, s') /\ check_rights_ok_result 5 (mon s'.2) t1 READ = Err Revoked.
Proof.
  destruct (uninstalled_is_gone (fun _ _ => True) _ s2 0 admin 1 [t1; t2] (agent_run (fun _ _ => True) I)) as (s' & Hun & _ & Hrev & _).
  - vm_compute. reflexivity.
  - vm_compute. reflexivity.
  - vm_compute. reflexivity.
  - exists s'. split; [exact Hun|]. apply (Hrev s'.2 [] t1 t1 5 READ).
    + constructor.
    + vm_compute. reflexivity.
    + eexists. split; [vm_compute; reflexivity|]. vm_compute. done.
    + left.
    + constructor.
Defined.

Lemma registry_shows_installed_witness : length (impls_of 1 (registry s1.1)) = 1%nat.
Proof.
  destruct (registry_shows_installed _ s1 (installed_run calm ltac:(done))) as (Hall & _).
  destruct (Hall 1) as [Hp _]. apply Permutation_length in Hp. rewrite Hp. vm_compute. reflexivity.
Defined.
