(* ===== verification/Devices.v ===== *)
(** Devices: [crates/hyperion-device/src], [types.rs], [manifest.rs], [registry.rs]
    and [hardware_support.rs].

    Devices register with a signed manifest, are paired up to a tier of trust, are
    asked to render, sense or act, and go away when they are not heard of. Each is
    mirrored by a node of the knowledge graph, through the interfaces of
    [NodeStore]. A call of the registry is taken as one step. *)
From S2P Require Import Prelude Crypto Capability Authority Wal Storage DebugFmt Events F32 Json KnowledgeGraph NodeStore Recovery PluginReview Plugins.
Open Scope N_scope.

Abbreviation text := (list N).

(** ** types.rs *)

Inductive DeviceType : Type := Display | Mobile | Vehicle | Robot | Wearable | HomeAppliance | Peripheral | Sensor.
Inductive Direction : Type := Render | Sense | Actuate.
Inductive SafetyClass : Type := Cosmetic | Standard | High.

Record CapabilityManifestEntry := mkEntry {
  capability_name : text;
  direction : Direction;
  safety_class : SafetyClass
}.

Inductive TrustTier : Type := TierView | TierSense | TierActuate.

#[export] Instance trust_tier_eq_dec : EqDecision TrustTier.
Proof. solve_decision. Defined.

(** The derived order. *)
Definition tier_rank (t : TrustTier) : N := match t with TierView => 0 | TierSense => 1 | TierActuate => 2 end.

Inductive PresenceState : Type := Connected | Degraded | Disconnected.

#[export] Instance direction_eq_dec : EqDecision Direction.
Proof. solve_decision. Defined.
#[export] Instance presence_eq_dec : EqDecision PresenceState.
Proof. solve_decision. Defined.

Record DeviceObject := mkDevice {
  device_id : N;
  device_type : DeviceType;
  manufacturer : text;
  model : text;
  capability_manifest : list CapabilityManifestEntry;
  owner : N;
  presence : PresenceState;
  last_heartbeat : N
}.

Record PairingRecord := mkPairing {
  paired_id : N;
  trust_tier : TrustTier;
  granted_capabilities : list text;
  expiry : option N
}.

Definition grants (r : PairingRecord) (cap : text) : bool := existsb (fun c => bool_decide (c = cap)) (granted_capabilities r).

(** ** What [serde] writes *)

Definition device_type_text (t : DeviceType) : text :=
  match t with
  | Display => lit "Display" | Mobile => lit "Mobile" | Vehicle => lit "Vehicle" | Robot => lit "Robot"
  | Wearable => lit "Wearable" | HomeAppliance => lit "HomeAppliance" | Peripheral => lit "Peripheral" | Sensor => lit "Sensor"
  end.
Definition direction_text (d : Direction) : text :=
  match d with Render => lit "Render" | Sense => lit "Sense" | Actuate => lit "Actuate" end.
Definition safety_class_text (c : SafetyClass) : text :=
  match c with Cosmetic => lit "Cosmetic" | Standard => lit "Standard" | High => lit "High" end.
Definition trust_tier_text (t : TrustTier) : text :=
  match t with TierView => lit "View" | TierSense => lit "Sense" | TierActuate => lit "Actuate" end.
Definition presence_text (p : PresenceState) : text :=
  match p with Connected => lit "Connected" | Degraded => lit "Degraded" | Disconnected => lit "Disconnected" end.

(** Objects of [serde_json::Value] keep their keys in order. *)
Definition entry_json (e : CapabilityManifestEntry) : Json :=
  JObject [(lit "capability_name", JString (capability_name e)); (lit "direction", JString (direction_text (direction e)));
           (lit "safety_class", JString (safety_class_text (safety_class e)))].

Definition pairing_json (r : PairingRecord) : Json :=
  JObject [(lit "device_id", JNumber (paired_id r)); (lit "expiry", from_option JNumber JNull (expiry r));
           (lit "granted_capabilities", JArray (JString <$> granted_capabilities r));
           (lit "trust_tier", JString (trust_tier_text (trust_tier r)))].

Definition device_json (d : DeviceObject) (pairing : option PairingRecord) : Json :=
  JObject [(lit "capability_manifest", JArray (entry_json <$> capability_manifest d)); (lit "device_id", JNumber (device_id d));
           (lit "device_type", JString (device_type_text (device_type d))); (lit "last_heartbeat", JNumber (last_heartbeat d));
           (lit "manufacturer", JString (manufacturer d)); (lit "model", JString (model d)); (lit "owner", JNumber (owner d));
           (lit "pairing", from_option pairing_json JNull pairing); (lit "presence", JString (presence_text (presence d)))].

(** ** manifest.rs *)

Record SignedManifestFields := mkSigned {
  sm_device_type : DeviceType;
  sm_manufacturer : text;
  sm_model : text;
  sm_manifest : list CapabilityManifestEntry;
  sm_owner : N
}.

(** [serde_json::to_vec] of the fields: it can be read back. *)
Class ManifestJson := {
  manifest_to_vec : SignedManifestFields -> list N;
  manifest_from_slice : list N -> option SignedManifestFields;
  manifest_from_to : forall f, manifest_from_slice (manifest_to_vec f) = Some f
}.

Section manifest.
Context `{Signatures} `{ManifestJson}.

Definition canonical_bytes (ty : DeviceType) (mf md : text) (cm : list CapabilityManifestEntry) (own : N) : list N :=
  manifest_to_vec (mkSigned ty mf md cm own).

Definition sign_manifest ty mf md cm own (k : SigningKey) : Signature := sign k (canonical_bytes ty mf md cm own).

Definition verify_manifest ty mf md cm own (s : Signature) (vk : VerifyingKey) : bool := verify (canonical_bytes ty mf md cm own) s vk.
End manifest.

(** ** registry.rs *)

Inductive DeviceError : Type :=
| DeviceUnauthorized
| DeviceNotFound
| NotPaired
| InsufficientTier
| CapabilityNotDeclared
| ActuationRequiresConfirmation
| Unreachable
| DeviceSignatureInvalid
| DeviceGraph (e : GraphError).

Definition required_tier_for (d : Direction) : TrustTier :=
  match d with Render => TierView | Sense => TierSense | Actuate => TierActuate end.

(** The entry [find] gives for a name. *)
Definition declared (d : DeviceObject) (cap : text) : option CapabilityManifestEntry :=
  List.find (fun e => bool_decide (capability_name e = cap)) (capability_manifest d).

Fixpoint check_capabilities (d : DeviceObject) (tier : TrustTier) (caps : list text) : Result unit DeviceError :=
  match caps with
  | [] => Ok tt
  | cap :: caps =>
      match declared d cap with
      | None => Err CapabilityNotDeclared
      | Some e => if tier_rank tier <? tier_rank (required_tier_for (direction e)) then Err InsufficientTier
                  else check_capabilities d tier caps
      end
  end.

Definition declares (d : DeviceObject) (cap : text) : bool :=
  existsb (fun e => bool_decide (capability_name e = cap)) (capability_manifest d).

Definition presence_after (elapsed degraded_after disconnected_after : N) : PresenceState :=
  if disconnected_after <? elapsed then Disconnected else if degraded_after <? elapsed then Degraded else Connected.

Definition with_presence (p : PresenceState) (last : N) (d : DeviceObject) : DeviceObject :=
  mkDevice (device_id d) (device_type d) (manufacturer d) (model d) (capability_manifest d) (owner d) p last.

Definition aged (now degraded_after disconnected_after : N) (d : DeviceObject) : DeviceObject :=
  with_presence (presence_after (now - last_heartbeat d) degraded_after disconnected_after) (last_heartbeat d) d.

Record DeviceRegistry := mkRegistry {
  devices : gmap N DeviceObject;
  pairings : gmap N PairingRecord;
  next_id : N;
  kg_nodes : gmap N NodeId
}.

Definition new_registry : DeviceRegistry := mkRegistry ∅ ∅ 1 ∅.

Definition with_devices (s : DeviceRegistry) (d : gmap N DeviceObject) : DeviceRegistry := mkRegistry d (pairings s) (next_id s) (kg_nodes s).
Definition with_pairings (s : DeviceRegistry) (p : gmap N PairingRecord) : DeviceRegistry := mkRegistry (devices s) p (next_id s) (kg_nodes s).
Definition with_nodes (s : DeviceRegistry) (k : gmap N NodeId) : DeviceRegistry := mkRegistry (devices s) (pairings s) (next_id s) k.

Section registry.
Context {V G Env M : Type} `{NodeCreator V G Env (M := M)} `{Signatures} `{ManifestJson} `{HashIter}.
Context (of_json : Json -> V) (outside : nat -> Env).

Abbreviation world := (World (G := G)).

Definition device_metadata (d : DeviceObject) (pairing : option PairingRecord) : V := of_json (device_json d pairing).

Definition require (now : Instant) (m : M) (t : CapabilityToken) (r : RightsMask) : Result unit DeviceError :=
  map_err (fun _ => DeviceUnauthorized) (authorize now m t r).

(** [put_node] with the id of a node or without one. *)
Definition put_device (now : Instant) (m : M) (t : CapabilityToken) (w : world) (id : option NodeId) (md : V) :
    Result NodeId GraphError * world :=
  match id with
  | Some id => world_put outside now m t w id (lit "device") None md
  | None => let '(res, g) := nc_create now m t (store w) (lit "device") None md (outside (tick w)) in (res, mkWorld g (S (tick w)))
  end.

Definition kg_node_for (s : DeviceRegistry) (d : N) : option NodeId := kg_nodes s !! d.

Definition register (now : Instant) (m : M) (t : CapabilityToken) (s : DeviceRegistry) (w : world) (ty : DeviceType) (mf md : text)
    (cm : list CapabilityManifestEntry) (own wall : N) (sig : Signature) (vk : VerifyingKey) :
    Result N DeviceError * DeviceRegistry * world :=
  match require now m t WRITE with
  | Err e => (Err e, s, w)
  | Ok _ =>
      if negb (verify_manifest ty mf md cm own sig vk) then (Err DeviceSignatureInvalid, s, w)
      else
        let id := next_id s in
        let s := mkRegistry (devices s) (pairings s) (u64_add (next_id s) 1) (kg_nodes s) in
        let d := mkDevice id ty mf md cm own Connected wall in
        match put_device now m t w None (device_metadata d None) with
        | (Err e, w) => (Err (DeviceGraph e), s, w)
        | (Ok node, w) => (Ok id, with_devices (with_nodes s (<[id := node]> (kg_nodes s))) (<[id := d]> (devices s)), w)
        end
  end.

Definition resync_kg_node (now : Instant) (m : M) (t : CapabilityToken) (s : DeviceRegistry) (w : world) (id : N) :
    Result unit DeviceError * DeviceRegistry * world :=
  match devices s !! id with
  | None => (Ok tt, s, w)
  | Some d =>
      match put_device now m t w (kg_node_for s id) (device_metadata d (pairings s !! id)) with
      | (Err e, w) => (Err (DeviceGraph e), s, w)
      | (Ok node, w) => (Ok tt, with_nodes s (<[id := node]> (kg_nodes s)), w)
      end
  end.

Definition pair (now : Instant) (m : M) (t : CapabilityToken) (s : DeviceRegistry) (w : world) (id : N) (tier : TrustTier)
    (caps : list text) (confirmed : bool) : Result PairingRecord DeviceError * DeviceRegistry * world :=
  match require now m t WRITE with
  | Err e => (Err e, s, w)
  | Ok _ =>
      if bool_decide (tier = TierActuate) && negb confirmed then (Err ActuationRequiresConfirmation, s, w)
      else
        match devices s !! id with
        | None => (Err DeviceNotFound, s, w)
        | Some d =>
            match check_capabilities d tier caps with
            | Err e => (Err e, s, w)
            | Ok _ =>
                let record := mkPairing id tier caps None in
                let s := with_pairings s (<[id := record]> (pairings s)) in
                match resync_kg_node now m t s w id with
                | (Err e, s, w) => (Err e, s, w)
                | (Ok _, s, w) => (Ok record, s, w)
                end
            end
        end
  end.

Definition revoke (now : Instant) (m : M) (t : CapabilityToken) (s : DeviceRegistry) (w : world) (id : N) :
    Result unit DeviceError * DeviceRegistry * world :=
  match require now m t WRITE with
  | Err e => (Err e, s, w)
  | Ok _ => resync_kg_node now m t (with_pairings s (delete id (pairings s))) w id
  end.

Definition invoke (now : Instant) (m : M) (t : CapabilityToken) (s : DeviceRegistry) (id : N) (cap : text) (args : Json) :
    Result Json DeviceError :=
  match require now m t EXEC with
  | Err e => Err e
  | Ok _ =>
      match devices s !! id with
      | None => Err DeviceNotFound
      | Some d =>
          if bool_decide (presence d = Disconnected) then Err Unreachable
          else if negb (declares d cap) then Err CapabilityNotDeclared
          else
            match pairings s !! id with
            | None => Err NotPaired
            | Some r =>
                if negb (grants r cap) then Err CapabilityNotDeclared
                else Ok (JObject [(lit "capability", JString cap); (lit "device_id", JNumber id); (lit "echo", args)])
            end
      end
  end.

Definition heartbeat (now : Instant) (m : M) (t : CapabilityToken) (s : DeviceRegistry) (w : world) (id wall : N) :
    Result unit DeviceError * DeviceRegistry * world :=
  match require now m t WRITE with
  | Err e => (Err e, s, w)
  | Ok _ =>
      match devices s !! id with
      | None => (Err DeviceNotFound, s, w)
      | Some d => resync_kg_node now m t (with_devices s (<[id := with_presence Connected wall d]> (devices s))) w id
      end
  end.

(** The loop of [tick] over the ids it listed. *)
Fixpoint tick_each (now : Instant) (m : M) (t : CapabilityToken) (s : DeviceRegistry) (w : world) (wall degraded disconnected : N)
    (ids : list N) : Result unit DeviceError * DeviceRegistry * world :=
  match ids with
  | [] => (Ok tt, s, w)
  | id :: ids =>
      match resync_kg_node now m t (with_devices s (alter (aged wall degraded disconnected) id (devices s))) w id with
      | (Err e, s, w) => (Err e, s, w)
      | (Ok _, s, w) => tick_each now m t s w wall degraded disconnected ids
      end
  end.

Definition tick_devices (now : Instant) (m : M) (t : CapabilityToken) (s : DeviceRegistry) (w : world)
    (wall degraded disconnected : N) : Result unit DeviceError * DeviceRegistry * world :=
  match require now m t WRITE with
  | Err e => (Err e, s, w)
  | Ok _ => tick_each now m t s w wall degraded disconnected (hash_iter (devices s)).*1
  end.

Definition get_device (s : DeviceRegistry) (id : N) : option DeviceObject := devices s !! id.
Definition pairing_of (s : DeviceRegistry) (id : N) : option PairingRecord := pairings s !! id.

Definition find_substitute (s : DeviceRegistry) (cap : text) (own exclude : N) : option N :=
  device_id <$> List.find (fun d => declares d cap)
    (List.filter (fun d => negb (device_id d =? exclude) && (owner d =? own) && bool_decide (presence d = Connected))
       (hash_iter (devices s)).*2).

Definition find_render_surfaces (s : DeviceRegistry) (own : N) : list N :=
  device_id <$> List.filter (fun d => existsb (fun e => bool_decide (direction e = Render)) (capability_manifest d))
    (List.filter (fun d => (owner d =? own) && negb (bool_decide (presence d = Disconnected))) (hash_iter (devices s)).*2).
End registry.

#[local] Arguments put_device : simpl never.

(** ** hardware_support.rs *)

Definition device_type_matches (a : DeviceType) (b : HardwareDeviceType) : bool :=
  match a, b with
  | Display, PluginReview.Display | Mobile, PluginReview.Mobile | Vehicle, PluginReview.Vehicle | Robot, PluginReview.Robot
  | Wearable, PluginReview.Wearable | HomeAppliance, PluginReview.HomeAppliance | Peripheral, PluginReview.Peripheral
  | Sensor, PluginReview.Sensor => true
  | _, _ => false
  end.

Definition direction_from (d : HardwareDirection) : Direction :=
  match d with PluginReview.Render => Render | PluginReview.Sense => Sense | PluginReview.Actuate => Actuate end.

Definition safety_class_from (c : HardwareSafetyClass) : SafetyClass :=
  match c with PluginReview.Cosmetic => Cosmetic | PluginReview.Standard => Standard | PluginReview.High => High end.

Definition entry_from (e : HardwareCapabilityEntry) : CapabilityManifestEntry :=
  mkEntry (PluginReview.capability_name e) (direction_from (PluginReview.direction e)) (safety_class_from (PluginReview.safety_class e)).

Definition known_capability_manifest `{Signatures} `{HashIter} (plugins : PluginRegistry) (ty : DeviceType) (mf md : text) :
    option (list CapabilityManifestEntry) :=
  (fun hs => entry_from <$> PluginReview.capability_manifest hs)
    <$> List.find (fun hs => device_type_matches ty (PluginReview.device_type hs) && bool_decide (PluginReview.manufacturer hs = mf)
                             && bool_decide (PluginReview.model hs = md))
          (hardware_support_contributions plugins).

(** ** Calls *)

Section calls.
Context {V G Env M : Type} `{NodeCreator V G Env (M := M)} `{Signatures} `{ManifestJson} `{HashIter}.
Context (of_json : Json -> V) (outside : nat -> Env).

Abbreviation world := (World (G := G)).

(** A call that can change the registry, with the time, the monitor and the token it
    is made with. *)
Inductive DeviceOp : Type :=
| OpRegister (ty : DeviceType) (mf md : text) (cm : list CapabilityManifestEntry) (own wall : N) (sig : Signature) (vk : VerifyingKey)
| OpPair (id : N) (tier : TrustTier) (caps : list text) (confirmed : bool)
| OpRevoke (id : N)
| OpHeartbeat (id wall : N)
| OpTick (wall degraded disconnected : N).

Record Caller := mkCaller {
  at_ : Instant;
  monitor : M;
  token : CapabilityToken
}.

(** The registry and the graph after a call, and whether it succeeded. *)
Definition call (c : Caller) (o : DeviceOp) (s : DeviceRegistry) (w : world) : bool * DeviceRegistry * world :=
  match o with
  | OpRegister ty mf md cm own wall sig vk =>
      let '(r, s, w) := register of_json outside (at_ c) (monitor c) (token c) s w ty mf md cm own wall sig vk in (is_ok r, s, w)
  | OpPair id tier caps confirmed =>
      let '(r, s, w) := pair of_json outside (at_ c) (monitor c) (token c) s w id tier caps confirmed in (is_ok r, s, w)
  | OpRevoke id => let '(r, s, w) := revoke of_json outside (at_ c) (monitor c) (token c) s w id in (is_ok r, s, w)
  | OpHeartbeat id wall =>
      let '(r, s, w) := heartbeat of_json outside (at_ c) (monitor c) (token c) s w id wall in (is_ok r, s, w)
  | OpTick wall degraded disconnected =>
      let '(r, s, w) := tick_devices of_json outside (at_ c) (monitor c) (token c) s w wall degraded disconnected in (is_ok r, s, w)
  end.

Definition Call : Type := Caller * DeviceOp * bool.

Definition may_write (c : Caller) : Prop := authorize (at_ c) (monitor c) (token c) WRITE = Ok tt.

(** A registry that calls made, starting from a new one; ids are not used up. *)
Inductive reachable (w0 : world) : list Call -> DeviceRegistry -> world -> Prop :=
| reach_new : reachable w0 [] new_registry w0
| reach_call tr c o b s w s' w' :
    reachable w0 tr s w -> next_id s + 1 < two64 -> call c o s w = (b, s', w') -> reachable w0 (tr ++ [(c, o, b)]) s' w'.

(** *** Grants *)

Definition allows (d : DeviceObject) (tier : TrustTier) (cap : text) : Prop :=
  exists e, declared d cap = Some e /\ tier_rank (required_tier_for (direction e)) <= tier_rank tier.

Lemma check_capabilities_ok d tier caps : check_capabilities d tier caps = Ok tt <-> forall cap, cap ∈ caps -> allows d tier cap.
Proof.
  induction caps as [|cap caps IH]; simpl; [split; [by intros _ cap ?%elem_of_nil|done]|].
  destruct (declared d cap) as [e|] eqn:He.
  - destruct (N.ltb_spec (tier_rank tier) (tier_rank (required_tier_for (direction e)))) as [Hlt|Hge].
    + split; [done|]. intros Hall. destruct (Hall cap) as (e' & He' & Hle); [left|]. simplify_eq. lia.
    + rewrite IH. split; [|intros Hall c Hc; apply Hall; by right].
      intros Hall c [->|Hc]%elem_of_cons; [by exists e|by apply Hall].
  - split; [done|]. intros Hall. destruct (Hall cap) as (e' & He' & _); [left|congruence].
Qed.

Lemma declares_spec d cap : declares d cap = true <-> is_Some (declared d cap).
Proof.
  unfold declares, declared. induction (capability_manifest d) as [|e l IH]; [by split; [|intros []]|]. simpl.
  by destruct (bool_decide _); [split|].
Qed.

Lemma grants_spec r cap : grants r cap = true <-> cap ∈ granted_capabilities r.
Proof.
  unfold grants. rewrite existsb_exists. split.
  - intros (c & Hc & ->%bool_decide_eq_true). by apply list_elem_of_In.
  - intros Hc. exists cap. split; [by apply list_elem_of_In|by apply bool_decide_eq_true].
Qed.

(** Writing to the graph leaves the tables as they are, but for the nodes. *)
Lemma resync_tables now m t s w id r s' w' :
  resync_kg_node of_json outside now m t s w id = (r, s', w') ->
  devices s' = devices s /\ pairings s' = pairings s /\ next_id s' = next_id s.
Proof.
  unfold resync_kg_node. destruct (devices s !! id); [|by intros [= _ <- _]].
  destruct (put_device _ _ _ _ _ _ _) as [[node|e] w1]; by intros [= _ <- _].
Qed.

Lemma tick_each_tables now m t s w wall dg dc ids r s' w' :
  tick_each of_json outside now m t s w wall dg dc ids = (r, s', w') ->
  pairings s' = pairings s /\ next_id s' = next_id s
  /\ forall id, devices s' !! id = devices s !! id \/ devices s' !! id = aged wall dg dc <$> devices s !! id.
Proof.
  revert s w. induction ids as [|i ids IH]; simpl; intros s w; [intros [= _ <- _]; split_and!; try done; by left|].
  destruct (resync_kg_node _ _ _ _ _ _ _ _) as [[[[]|e] s1] w1] eqn:Hr; apply resync_tables in Hr as (Hd & Hp & Hn); simpl in *.
  - intros (Hp' & Hn' & Hx)%IH. split_and!; [congruence..|]. intros id. rewrite Hd in Hx. specialize (Hx id).
    destruct (decide (id = i)) as [->|Hne]; [|by rewrite lookup_alter_ne in Hx].
    rewrite lookup_alter_eq in Hx. destruct (devices s !! i); simpl in *; destruct Hx as [Hx|Hx]; rewrite Hx; by right.
  - intros [= _ <- _]. split_and!; [done..|]. intros id. rewrite Hd. destruct (decide (id = i)) as [->|Hne].
    + right. by rewrite lookup_alter_eq.
    + left. by rewrite lookup_alter_ne.
Qed.

Definition same_device (d d' : DeviceObject) : Prop := exists p last, d' = with_presence p last d.

Lemma same_device_refl d : same_device d d.
Proof. exists (presence d), (last_heartbeat d). by destruct d. Qed.

(** What a call does to the tables, the nodes aside. *)
Inductive effect (c : Caller) (o : DeviceOp) (s s' : DeviceRegistry) : Prop :=
| effect_refused : s' = s -> (forall id, o = OpRevoke id -> ~ may_write c) -> effect c o s s'
| effect_registered :
    (forall id, o <> OpRevoke id) -> pairings s' = pairings s -> next_id s' = u64_add (next_id s) 1 ->
    (devices s' = devices s \/ exists d, devices s' = <[next_id s := d]> (devices s)) -> effect c o s s'
| effect_paired id tier caps confirmed d :
    o = OpPair id tier caps confirmed -> may_write c -> (tier = TierActuate -> confirmed = true) ->
    devices s !! id = Some d -> check_capabilities d tier caps = Ok tt ->
    pairings s' = <[id := mkPairing id tier caps None]> (pairings s) -> devices s' = devices s -> next_id s' = next_id s -> effect c o s s'
| effect_revoked id :
    o = OpRevoke id -> pairings s' = delete id (pairings s) -> devices s' = devices s -> next_id s' = next_id s -> effect c o s s'
| effect_heard :
    (forall id, o <> OpRevoke id) -> pairings s' = pairings s -> next_id s' = next_id s ->
    (forall id, devices s' !! id = devices s !! id
                \/ exists d d', devices s !! id = Some d /\ devices s' !! id = Some d' /\ same_device d d') -> effect c o s s'.

Ltac refuse := intros [= _ <- _]; by apply effect_refused.

Lemma call_effect c o s w b s' w' : call c o s w = (b, s', w') -> effect c o s s'.
Proof.
  unfold call. destruct o as [ty mf md cm own wall sig vk|id tier caps conf|id|id wall|wall dg dc].
  - unfold register. destruct (require _ _ _ WRITE); [|refuse]. destruct (negb _); [refuse|]. cbv zeta.
    destruct (put_device _ _ _ _ _ _ _) as [[node|e] w1]; intros [= _ <- _]; apply effect_registered; try done; [right; by eexists|by left].
  - unfold pair, require. destruct (authorize _ _ _ WRITE) as [[]|] eqn:Ha; [|refuse]. cbn [map_err].
    destruct (bool_decide (tier = TierActuate) && negb conf) eqn:Hg; [refuse|].
    destruct (devices s !! id) as [d|] eqn:Hd; [|refuse]. destruct (check_capabilities d tier caps) as [[]|] eqn:Hc; [|refuse].
    destruct (resync_kg_node _ _ _ _ _ _ _ _) as [[[[]|e] s1] w1] eqn:Hr; apply resync_tables in Hr as (Hdv & Hp & Hn);
      intros [= _ <- _]; apply (effect_paired _ _ _ _ id tier caps conf d); try done;
      intros ->; rewrite bool_decide_true in Hg by done; by destruct conf.
  - unfold revoke, require. destruct (authorize _ _ _ WRITE) as [[]|] eqn:Ha; cbn [map_err].
    + destruct (resync_kg_node _ _ _ _ _ _ _ _) as [[res s1] w1] eqn:Hr. apply resync_tables in Hr as (Hd & Hp & Hn).
      intros [= _ <- _]. by apply (effect_revoked _ _ _ _ id).
    + intros [= _ <- _]. apply effect_refused; [done|]. unfold may_write. congruence.
  - unfold heartbeat. destruct (require _ _ _ WRITE); [|refuse]. destruct (devices s !! id) as [d|] eqn:Hid; [|refuse].
    destruct (resync_kg_node _ _ _ _ _ _ _ _) as [[res s1] w1] eqn:Hr. apply resync_tables in Hr as (Hd & Hp & Hn).
    intros [= _ <- _]. apply effect_heard; try done. intros x. rewrite Hd. simpl. destruct (decide (x = id)) as [->|Hne].
    + right. rewrite lookup_insert_eq. eexists _, _. split; [done|]. split; [done|]. by eexists _, _.
    + left. by rewrite lookup_insert_ne.
  - unfold tick_devices. destruct (require _ _ _ WRITE); [|refuse].
    destruct (tick_each _ _ _ _ _ _ _ _ _ _ _) as [[res s1] w1] eqn:Hr. apply tick_each_tables in Hr as (Hp & Hn & Hd).
    intros [= _ <- _]. apply effect_heard; try done. intros x. destruct (Hd x) as [Hx|Hx]; [by left|].
    destruct (devices s !! x) as [d|]; [|by left]. right. eexists _, _. split; [done|]. split; [done|]. by eexists _, _.
Qed.

(** Devices stay, but for when they were heard of, and ids below the next one. *)
Lemma effect_devices c o s s' :
  next_id s + 1 < two64 -> effect c o s s' -> (forall id d, devices s !! id = Some d -> id < next_id s) ->
  (forall id d, devices s' !! id = Some d -> id < next_id s')
  /\ forall id d, devices s !! id = Some d -> exists d', devices s' !! id = Some d' /\ same_device d d'.
Proof.
  intros Hroom He Hb. assert (Hsame : forall id d, devices s !! id = Some d -> exists d', devices s !! id = Some d' /\ same_device d d').
  { intros id d Hd. exists d. split; [done|apply same_device_refl]. }
  destruct He as [-> _|_ _ Hn Hd|? ? ? ? ? _ _ _ _ _ _ Hd Hn|? _ _ Hd Hn|_ _ Hn Hd].
  - done.
  - rewrite Hn, u64_add_small by lia. destruct Hd as [->|[d0 ->]].
    + split; [|done]. intros id d Hd%Hb. lia.
    + split; intros id d; [rewrite lookup_insert_Some; intros [[<- _]|[_ Hd]]; [lia|]; apply Hb in Hd; lia|].
      intros Hd. rewrite lookup_insert_ne; [by apply Hsame|]. apply Hb in Hd. lia.
  - by rewrite Hd, Hn.
  - by rewrite Hd, Hn.
  - rewrite Hn. split.
    + intros id d Hid. destruct (Hd id) as [Hx|(d0 & d' & Hx & _)]; [rewrite Hx in Hid|]; by eapply Hb.
    + intros id d Hid. destruct (Hd id) as [Hx|(d0 & d' & Hx & Hx' & Hs)]; [rewrite Hx; by apply Hsame|].
      exists d'. split; [done|]. congruence.
Qed.

(** The call that a pairing stands by: nobody who may write took it back since. *)
Definition paired_by (tr : list Call) (id : N) (r : PairingRecord) (c : Caller) (confirmed : bool) : Prop :=
  exists pre b post,
    tr = pre ++ (c, OpPair id (trust_tier r) (granted_capabilities r) confirmed, b) :: post
    /\ may_write c /\ (trust_tier r = TierActuate -> confirmed = true)
    /\ forall c' b', (c', OpRevoke id, b') ∈ post -> ~ may_write c'.

Lemma paired_by_snoc tr id r c confirmed x :
  paired_by tr id r c confirmed -> (forall c' b', x = (c', OpRevoke id, b') -> ~ may_write c') -> paired_by (tr ++ [x]) id r c confirmed.
Proof.
  intros (pre & b & post & -> & Hw & Ht & Hp) Hx. exists pre, b, (post ++ [x]). rewrite <- app_assoc. split; [done|]. split; [done|].
  split; [done|]. intros c' b' [Hin|Hin]%elem_of_app; [by apply (Hp c' b')|]. apply list_elem_of_singleton in Hin. by apply (Hx c' b').
Qed.

(** Every pairing was made by a call, for a device that declares what it grants. *)
Definition granted (tr : list Call) (s : DeviceRegistry) : Prop :=
  (forall id d, devices s !! id = Some d -> id < next_id s)
  /\ forall id r, pairings s !! id = Some r ->
       (exists c confirmed, paired_by tr id r c confirmed)
       /\ exists d, devices s !! id = Some d /\ forall cap, cap ∈ granted_capabilities r -> allows d (trust_tier r) cap.

Lemma allows_same d d' tier cap : same_device d d' -> allows d tier cap -> allows d' tier cap.
Proof. by intros (p & last & ->). Qed.

Lemma granted_reachable w0 tr s w : reachable w0 tr s w -> granted tr s.
Proof.
  induction 1 as [|tr c o b s w s' w' _ [Hb Hg] Hroom Hcall]; [split; intros id ?; simpl; by rewrite lookup_empty|].
  apply call_effect in Hcall as He. destruct (effect_devices _ _ _ _ Hroom He Hb) as [Hb' Hkeep]. split; [done|].
  assert (Hold : forall id r, pairings s !! id = Some r -> (o = OpRevoke id -> ~ may_write c) ->
            (exists c0 confirmed, paired_by (tr ++ [(c, o, b)]) id r c0 confirmed)
            /\ exists d, devices s' !! id = Some d /\ forall cap, cap ∈ granted_capabilities r -> allows d (trust_tier r) cap).
  { intros id r Hr Hno. destruct (Hg id r Hr) as [(c0 & cf & Hp) (d & Hd & Hall)]. split.
    - exists c0, cf. apply paired_by_snoc; [done|]. by intros c' b' [= <- -> _]; apply Hno.
    - destruct (Hkeep id d Hd) as (d' & Hd' & Hsame). exists d'. split; [done|]. intros cap Hc. by eapply allows_same, Hall. }
  intros id r. destruct He as [-> Hno|Hno Hp _ _|i tier caps cf d -> Hw Ht Hd Hc Hp _ _|i -> Hp _ _|Hno Hp _ _].
  - intros Hr. apply Hold; [done|]. apply Hno.
  - rewrite Hp. intros Hr. apply Hold; [done|]. by intros ?%Hno.
  - rewrite Hp, lookup_insert_Some. intros [[<- <-]|[Hne Hr]]; [|by apply Hold]. split.
    + exists c, cf, tr, b, []. split; [done|]. split; [done|]. split; [done|]. by intros c' b' ?%elem_of_nil.
    + destruct (Hkeep i d Hd) as (d' & Hd' & Hsame). exists d'. split; [done|]. intros cap Hcap.
      eapply allows_same; [done|]. by apply (proj1 (check_capabilities_ok d tier caps) Hc).
  - rewrite Hp, lookup_delete_Some. intros [Hne Hr]. apply Hold; [done|]. by intros [= ->].
  - rewrite Hp. intros Hr. apply Hold; [done|]. by intros ?%Hno.
Qed.

(** C39. What a device is made to do was asked for in a pairing. In whatever state calls
    have brought the registry, an invocation succeeds exactly if the token lets it execute,
    the device is registered and not disconnected, declares the capability, and the pairing
    on record grants it. That pairing was put on record by a call of [pair] by somebody
    allowed to write, with a tier that suffices for what the first entry of the manifest
    with that name says the capability does, confirmed if the tier is to actuate; and
    nobody allowed to has revoked it since. (The call may have reported an error all the
    same, [DeviceExample.refused_pairing_takes_effect], and later entries of the manifest
    are not looked at, [DeviceExample.second_entry_is_not_looked_at].) *)
Theorem invocations_were_granted w0 tr s w now m t id cap args :
  reachable w0 tr s w ->
  (is_ok (invoke now m t s id cap args) = true <->
     authorize now m t EXEC = Ok tt
     /\ exists d r, devices s !! id = Some d /\ presence d <> Disconnected /\ is_Some (declared d cap)
        /\ pairings s !! id = Some r /\ cap ∈ granted_capabilities r)
  /\ (is_ok (invoke now m t s id cap args) = true ->
        exists d e r c confirmed, devices s !! id = Some d /\ declared d cap = Some e
          /\ paired_by tr id r c confirmed /\ cap ∈ granted_capabilities r
          /\ tier_rank (required_tier_for (direction e)) <= tier_rank (trust_tier r)
          /\ (direction e = Actuate -> confirmed = true)).
Proof.
  intros Hreach. apply granted_reachable in Hreach as [_ Hg].
  assert (Hiff : is_ok (invoke now m t s id cap args) = true <->
     authorize now m t EXEC = Ok tt
     /\ exists d r, devices s !! id = Some d /\ presence d <> Disconnected /\ is_Some (declared d cap)
        /\ pairings s !! id = Some r /\ cap ∈ granted_capabilities r).
  { unfold invoke, require. destruct (authorize now m t EXEC) as [[]|]; simpl; [|by split; [|intros []]].
    destruct (devices s !! id) as [d|]; [|by split; [|intros (_ & d & r & Hd & _)]].
    case_bool_decide as Hp; [by split; [|intros (_ & d' & r & [= <-] & Hp' & _)]|].
    destruct (declares d cap) eqn:Hdec; simpl.
    - apply declares_spec in Hdec. destruct (pairings s !! id) as [r|]; [|by split; [|intros (_ & d' & r & _ & _ & _ & Hr & _)]].
      destruct (grants r cap) eqn:Hgr; simpl.
      + apply grants_spec in Hgr. split; [|done]. intros _. split; [done|]. by exists d, r.
      + split; [done|]. intros (_ & d' & r' & _ & _ & _ & [= <-] & Hin). apply grants_spec in Hin. congruence.
    - split; [done|]. intros (_ & d' & r & [= <-] & _ & Hs & _). apply declares_spec in Hs. congruence. }
  split; [exact Hiff|]. intros (_ & d & r & Hd & _ & _ & Hr & Hin)%Hiff.
  destruct (Hg id r Hr) as [(c & cf & Hp) (d' & Hd' & Hall)]. assert (d' = d) as -> by congruence. destruct (Hall cap Hin) as (e & He & Hle).
  exists d, e, r, c, cf. split_and!; try done. intros Hact. destruct Hp as (pre & b & post & _ & _ & Ht & _). apply Ht.
  rewrite Hact in Hle. simpl in Hle. destruct (trust_tier r); simpl in Hle; [lia|lia|done].
Qed.

(** *** The mirror *)

Record mirror_wf (s : DeviceRegistry) (w : world) : Prop := {
  mw_nodes : forall id, is_Some (devices s !! id) <-> is_Some (kg_nodes s !! id);
  mw_apart : forall a b k, kg_nodes s !! a = Some k -> kg_nodes s !! b = Some k -> a = b;
  mw_there : forall id k, kg_nodes s !! id = Some k -> is_Some (ns_node (store w) k);
  mw_bounded : forall id, is_Some (devices s !! id) -> id < next_id s;
  mw_paired : forall id, is_Some (pairings s !! id) -> is_Some (devices s !! id);
  mw_sound : nc_sound (store w)
}.

(** The node of a device says what the registry knows. *)
Definition reflected (s : DeviceRegistry) (w : world) (id : N) : Prop :=
  forall d, devices s !! id = Some d -> exists k n, kg_node_for s id = Some k /\ ns_node (store w) k = Some n
    /\ content n = (lit "device", None, device_metadata of_json d (pairings s !! id)).

Lemma mirror_wf_tables s s' w :
  mirror_wf s w -> (forall id, is_Some (devices s' !! id) <-> is_Some (devices s !! id)) -> kg_nodes s' = kg_nodes s -> next_id s' = next_id s ->
  (forall id, is_Some (pairings s' !! id) -> is_Some (devices s !! id)) -> mirror_wf s' w.
Proof.
  intros [H1' H2' H3' H4' _ H6'] Hd Hk Hn Hp. split; try rewrite Hk; try done; [intros id; rewrite Hd; apply H1'| |].
  - intros id Hid. rewrite Hn. by apply H4', Hd.
  - intros id Hid. by apply Hd, Hp.
Qed.

Lemma reflected_same s s' w id :
  devices s' !! id = devices s !! id -> pairings s' !! id = pairings s !! id -> kg_nodes s' !! id = kg_nodes s !! id ->
  reflected s w id -> reflected s' w id.
Proof. unfold reflected, kg_node_for. by intros -> -> ->. Qed.

Lemma resync_reflects now m t s w id r s' w' :
  mirror_wf s w -> resync_kg_node of_json outside now m t s w id = (r, s', w') ->
  s' = s /\ mirror_wf s w' /\ (forall x, x <> id -> reflected s w x -> reflected s w' x) /\ (is_ok r = true -> reflected s w' id).
Proof.
  intros Hwf. pose proof Hwf as [Hn Ha Ht Hb Hp Hs]. unfold resync_kg_node. destruct (devices s !! id) as [d|] eqn:Hd.
  - destruct (proj1 (Hn id) ltac:(by rewrite Hd)) as [k Hk]. unfold kg_node_for. rewrite Hk. unfold put_device, world_put.
    destruct (ns_put _ _ _ _ _ _ _ _ _) as [[k'|e] g] eqn:Hput.
    + intros [= <- <- <-]. pose proof (nc_sound_put now m t (store w) k (lit "device") None (device_metadata of_json d (pairings s !! id)) (outside (tick w)) Hs) as Hs'.
      rewrite Hput in Hs'. apply ns_put_done in Hput as (-> & Hother & _ & n & Hnew & Hc & _).
      assert (with_nodes s (<[id:=k]> (kg_nodes s)) = s) as -> by (unfold with_nodes; rewrite insert_id by done; by destruct s).
      split; [done|]. split; [|split].
      * split; try done. intros x kx Hx. simpl. destruct (decide (kx = k)) as [->|Hne]; [by rewrite Hnew|]. rewrite Hother by done. by apply (Ht x).
      * intros x Hx Hr dx Hdx. destruct (Hr dx Hdx) as (kx & nx & Hkx & Hnx & Hcx). exists kx, nx. split; [done|]. split; [|done].
        simpl. rewrite Hother; [done|]. intros ->. apply Hx. by apply (Ha x id k).
      * intros _ d' Hd'. exists k, n. simpl. split; [done|]. split; [done|]. congruence.
    + intros [= <- <- <-]. pose proof (nc_sound_put now m t (store w) k (lit "device") None (device_metadata of_json d (pairings s !! id)) (outside (tick w)) Hs) as Hs'.
      rewrite Hput in Hs'. pose proof (ns_put_failed _ _ _ _ _ _ _ _ _ _ _ Hput) as Hsame. split; [done|]. split; [|split; [|done]].
      * split; try done. intros x kx Hx. simpl. rewrite Hsame. by apply (Ht x).
      * intros x _ Hr dx Hdx. destruct (Hr dx Hdx) as (kx & nx & Hkx & Hnx & Hcx). exists kx, nx. simpl. by rewrite Hsame.
  - intros [= <- <- <-]. split; [done|]. split; [done|]. split; [done|]. intros _ d Hd'. congruence.
Qed.

Lemma altered_some (f : DeviceObject -> DeviceObject) (l : gmap N DeviceObject) i id : is_Some (alter f i l !! id) <-> is_Some (l !! id).
Proof.
  destruct (decide (id = i)) as [->|Hne]; [rewrite lookup_alter_eq; apply fmap_is_Some|by rewrite lookup_alter_ne].
Qed.

Lemma tick_reflects now m t s w wall dg dc ids r s' w' :
  mirror_wf s w -> tick_each of_json outside now m t s w wall dg dc ids = (r, s', w') ->
  mirror_wf s' w' /\ (forall x, x ∉ ids -> reflected s w x -> reflected s' w' x)
  /\ (is_ok r = true -> forall x, x ∈ ids -> reflected s' w' x).
Proof.
  revert s w. induction ids as [|i ids IH]; simpl; intros s w Hwf.
  - intros [= <- <- <-]. split; [done|]. split; [done|]. by intros _ x ?%elem_of_nil.
  - set (s0 := with_devices s _).
    assert (Hwf0 : mirror_wf s0 w) by (apply (mirror_wf_tables s); try done; [intros id; apply altered_some|apply (mw_paired _ _ Hwf)]).
    assert (Hsame : forall x, x <> i -> reflected s w x -> reflected s0 w x).
    { intros x Hx. apply reflected_same; try done. by apply lookup_alter_ne. }
    destruct (resync_kg_node _ _ _ _ _ _ _ _) as [[[[]|e] s1] w1] eqn:Hr;
      apply resync_reflects in Hr as (-> & Hwf1 & Hother & Hthis); try done.
    + intros (Hwf' & Hkeep & Hall)%IH; [|done]. split; [done|]. split.
      * intros x [Hx Hin]%not_elem_of_cons Hrx. apply Hkeep; [done|]. apply Hother; [done|]. by apply Hsame.
      * intros Hok x [->|Hin]%elem_of_cons; [|by apply Hall]. destruct (decide (i ∈ ids)) as [Hin|Hnin]; [by apply Hall|].
        apply Hkeep; [done|]. by apply Hthis.
    + intros [= <- <- <-]. split; [done|]. split; [|done]. intros x [Hx _]%not_elem_of_cons Hrx. apply Hother; [done|]. by apply Hsame.
Qed.

Definition concerns (o : DeviceOp) (id : N) : bool :=
  match o with
  | OpRegister _ _ _ _ _ _ _ _ => false
  | OpPair i _ _ _ | OpRevoke i | OpHeartbeat i _ => i =? id
  | OpTick _ _ _ => true
  end.

(** The last call about a device failed. *)
Definition dirty (tr : list Call) (id : N) : bool :=
  fold_left (fun acc '(_, o, b) => if concerns o id then negb b else acc) tr false.

Lemma register_reflects now m t s w ty mf md cm own wall sig vk r s' w' :
  mirror_wf s w -> next_id s + 1 < two64 ->
  register of_json outside now m t s w ty mf md cm own wall sig vk = (r, s', w') ->
  mirror_wf s' w' /\ forall id, reflected s w id -> reflected s' w' id.
Proof.
  intros Hwf Hroom. pose proof Hwf as [Hn Ha Ht Hb Hp Hs]. unfold register. destruct (require now m t WRITE); [|by intros [= _ <- <-]].
  destruct (negb _); [by intros [= _ <- <-]|]. rewrite u64_add_small by lia. cbv zeta. unfold put_device.
  set (d := mkDevice _ _ _ _ _ _ _ _). assert (Hnone : devices s !! next_id s = None).
  { apply eq_None_not_Some. intros Hx%Hb. lia. }
  assert (Hknone : kg_nodes s !! next_id s = None) by (apply eq_None_not_Some; intros Hx%Hn; by rewrite Hnone in Hx; destruct Hx).
  pose proof (nc_sound_create now m t (store w) (lit "device") None (device_metadata of_json d None) (outside (tick w)) Hs) as Hs'.
  destruct (nc_create _ _ _ _ _ _ _ _) as [[k|e] g] eqn:Hc; intros [= _ <- <-].
  - apply nc_done in Hc as (Hother & Hfresh & n & Hk & Hcont & _). specialize (Hfresh Hs).
    assert (Hne : forall id k', kg_nodes s !! id = Some k' -> k' <> k).
    { intros id k' Hid ->. apply Ht in Hid. rewrite Hfresh in Hid. by destruct Hid. }
    split.
    + split; simpl; [| | | | |exact Hs'].
      * intros id. destruct (decide (id = next_id s)) as [->|Hid]; [by rewrite !lookup_insert_eq|]. by rewrite !lookup_insert_ne.
      * intros x y k' [[Ex Hx]|[Ex Hx]]%lookup_insert_Some [[Ey Hy]|[Ey Hy]]%lookup_insert_Some.
        -- congruence.
        -- subst k'. by destruct (Hne _ _ Hy).
        -- subst k'. by destruct (Hne _ _ Hx).
        -- by apply (Ha x y k').
      * intros id k' Hid. apply lookup_insert_Some in Hid as [[_ <-]|[_ Hid]]; [by rewrite Hk|].
        rewrite Hother by (by apply (Hne id)). by apply (Ht id).
      * intros id Hid. destruct (decide (id = next_id s)) as [->|Hx]; [lia|]. rewrite lookup_insert_ne in Hid by done. apply Hb in Hid. lia.
      * intros id Hid%Hp. destruct (decide (id = next_id s)) as [->|Hx]; [by rewrite lookup_insert_eq|by rewrite lookup_insert_ne].
    + intros id Hr d' Hd'. unfold kg_node_for. simpl in *. destruct (decide (id = next_id s)) as [->|Hx].
      * rewrite lookup_insert_eq in Hd'. injection Hd' as <-. exists k, n. rewrite lookup_insert_eq. split; [done|]. split; [done|].
        rewrite Hcont. destruct (pairings s !! next_id s) as [p|] eqn:Hpid; [|done].
        destruct (Hp (next_id s)) as [d' Hd']; [by rewrite Hpid|congruence].
      * rewrite lookup_insert_ne in Hd' by done. destruct (Hr d' Hd') as (k' & n' & Hk' & Hn' & Hc'). exists k', n'.
        rewrite lookup_insert_ne by done. split; [done|]. split; [|done]. rewrite Hother by (by apply (Hne id)). done.
  - pose proof (nc_failed _ _ _ _ _ _ _ _ _ _ Hc) as Hsame. split.
    + split; simpl; try done; [intros id k Hid; rewrite Hsame; by apply (Ht id)|intros id Hid; apply Hb in Hid; lia].
    + intros id Hr d' Hd'. destruct (Hr d' Hd') as (k' & n' & Hk' & Hn' & Hc'). exists k', n'. simpl. by rewrite Hsame.
Qed.

Ltac unchanged := intros [= <- <- <-]; split; [done|]; intros x; by destruct (N.eqb _ x).

Lemma call_reflects c o s w b s' w' :
  mirror_wf s w -> next_id s + 1 < two64 -> call c o s w = (b, s', w') ->
  mirror_wf s' w' /\ forall id, (if concerns o id then b = true else reflected s w id) -> reflected s' w' id.
Proof.
  intros Hwf Hroom. unfold call. destruct o as [ty mf md cm own wall sig vk|id tier caps conf|id|id wall|wall dg dc]; simpl.
  - destruct (register _ _ _ _ _ _ _ _ _ _ _ _ _ _ _) as [[r s1] w1] eqn:Hr. intros [= _ <- <-]. by eapply register_reflects.
  - unfold pair. destruct (require _ _ _ WRITE); [|unchanged].
    destruct (_ && _); [unchanged|].
    destruct (devices s !! id) as [d|] eqn:Hd; [|unchanged].
    destruct (check_capabilities d tier caps); [|unchanged].
    set (s0 := with_pairings s _).
    assert (Hwf0 : mirror_wf s0 w).
    { apply (mirror_wf_tables s); try done. intros x Hx. simpl in Hx. destruct (decide (x = id)) as [->|Hne]; [rewrite Hd; by eexists|].
      rewrite lookup_insert_ne in Hx by done. by apply (mw_paired _ _ Hwf). }
    destruct (resync_kg_node _ _ _ _ _ _ _ _) as [[[[]|e] s1] w1] eqn:Hr; apply resync_reflects in Hr as (-> & Hwf1 & Hother & Hthis); try done;
      intros [= <- <- <-]; (split; [done|]); intros x; destruct (N.eqb_spec id x) as [<-|Hne]; try done;
      intros Hrx; (apply Hother; [done|]); by apply (reflected_same s); try done; apply lookup_insert_ne.
  - unfold revoke. destruct (require _ _ _ WRITE); [|unchanged].
    set (s0 := with_pairings s _).
    assert (Hwf0 : mirror_wf s0 w).
    { apply (mirror_wf_tables s); try done. intros x Hx. simpl in Hx. destruct (decide (x = id)) as [->|Hne].
      - rewrite lookup_delete_eq in Hx. by destruct Hx.
      - rewrite lookup_delete_ne in Hx by done. by apply (mw_paired _ _ Hwf). }
    destruct (resync_kg_node _ _ _ _ _ _ _ _) as [[res s1] w1] eqn:Hr; apply resync_reflects in Hr as (-> & Hwf1 & Hother & Hthis); [|done].
    intros [= <- <- <-]. split; [done|]. intros x. destruct (N.eqb_spec id x) as [<-|Hne]; [done|].
    intros Hrx. apply Hother; [done|]. by apply (reflected_same s); try done; apply lookup_delete_ne.
  - unfold heartbeat. destruct (require _ _ _ WRITE); [|unchanged].
    destruct (devices s !! id) as [d|] eqn:Hd; [|unchanged].
    set (s0 := with_devices s _).
    assert (Hwf0 : mirror_wf s0 w).
    { apply (mirror_wf_tables s); try done; [|apply (mw_paired _ _ Hwf)]. intros x. simpl. destruct (decide (x = id)) as [->|Hne].
      - rewrite lookup_insert_eq, Hd. split; by eexists.
      - by rewrite lookup_insert_ne. }
    destruct (resync_kg_node _ _ _ _ _ _ _ _) as [[res s1] w1] eqn:Hr; apply resync_reflects in Hr as (-> & Hwf1 & Hother & Hthis); [|done].
    intros [= <- <- <-]. split; [done|]. intros x. destruct (N.eqb_spec id x) as [<-|Hne]; [done|].
    intros Hrx. apply Hother; [done|]. by apply (reflected_same s); try done; apply lookup_insert_ne.
  - unfold tick_devices. destruct (require _ _ _ WRITE); [|by intros [= <- <- <-]].
    destruct (tick_each _ _ _ _ _ _ _ _ _ _ _) as [[res s1] w1] eqn:Hr. pose proof (tick_each_tables _ _ _ _ _ _ _ _ _ _ _ _ Hr) as (_ & _ & Hd).
    apply tick_reflects in Hr as (Hwf' & Hkeep & Hall); [|done].
    intros [= <- <- <-]. split; [done|]. intros x Hok. destruct (devices s !! x) as [d|] eqn:Hx.
    + apply Hall; [done|]. apply list_elem_of_fmap. exists (x, d). split; [done|]. by apply elem_of_hash_iter.
    + intros d Hd'. destruct (Hd x) as [Hdx|Hdx]; rewrite Hdx, Hx in Hd'; done.
Qed.

(** The knowledge graph mirrors the registry. Starting from a graph in which no
    id is taken, every device has a node of its own, and whatever calls were made, by
    whoever and in whatever order, the node holds the device and its pairing as the
    registry knows them, unless the last call about the device, or about all of them,
    reported a failure. *)
Theorem graph_mirrors_registry w0 tr s w :
  nc_sound (store w0) -> reachable w0 tr s w ->
  (forall a b k, kg_node_for s a = Some k -> kg_node_for s b = Some k -> a = b)
  /\ forall id d, devices s !! id = Some d -> dirty tr id = false ->
       exists k n, kg_node_for s id = Some k /\ ns_node (store w) k = Some n
         /\ content n = (lit "device", None, device_metadata of_json d (pairings s !! id)).
Proof.
  intros Hs Hreach. cut (mirror_wf s w /\ forall id, dirty tr id = false -> reflected s w id).
  { intros [Hwf Hr]. split; [apply (mw_apart _ _ Hwf)|]. intros id d Hd Hc. by apply Hr. }
  induction Hreach as [|tr c o b s w s' w' _ [Hwf IH] Hroom Hcall].
  - split; [|intros id _ d; simpl; by rewrite lookup_empty]. split; simpl; try done; intros id;
      try (rewrite !lookup_empty; by intros []); [by rewrite !lookup_empty|..]; intros ?; by rewrite lookup_empty.
  - destruct (call_reflects _ _ _ _ _ _ _ Hwf Hroom Hcall) as [Hwf' Hr]. split; [done|]. intros id Hc. apply Hr.
    unfold dirty in Hc. rewrite fold_left_app in Hc. simpl in Hc. destruct (concerns o id); [by destruct b|by apply IH].
Qed.

(** *** Presence *)

Lemma aged_idem wall dg dc d : aged wall dg dc (aged wall dg dc d) = aged wall dg dc d.
Proof. done. Qed.

Lemma tick_each_aged now m t s w wall dg dc ids s' w' :
  tick_each of_json outside now m t s w wall dg dc ids = (Ok tt, s', w') ->
  forall id, id ∈ ids -> devices s' !! id = aged wall dg dc <$> devices s !! id.
Proof.
  revert s w. induction ids as [|i ids IH]; simpl; intros s w; [by intros _ id ?%elem_of_nil|].
  destruct (resync_kg_node _ _ _ _ _ _ _ _) as [[[[]|e] s1] w1] eqn:Hr; [|done]. apply resync_tables in Hr as (Hd & _ & _). simpl in Hd.
  intros Ht id [->|Hin]%elem_of_cons.
  - apply tick_each_tables in Ht as (_ & _ & Hx). rewrite Hd in Hx. specialize (Hx i). rewrite lookup_alter_eq in Hx.
    destruct (devices s !! i); simpl in *; by destruct Hx as [-> | ->].
  - rewrite (IH _ _ Ht id Hin), Hd. destruct (decide (id = i)) as [->|Hne]; [|by rewrite lookup_alter_ne].
    rewrite lookup_alter_eq. by destruct (devices s !! i).
Qed.

(** The connection of a device is recomputed from the time that has passed: a tick that
    succeeds sets that of every device, one that fails that of some; and another tick at
    the same time, however it ends, changes none that the first reached. *)
Theorem ticks_are_idempotent now m t s w wall dg dc r s' w' :
  tick_devices of_json outside now m t s w wall dg dc = (r, s', w') ->
  (forall id, devices s' !! id = devices s !! id \/ devices s' !! id = aged wall dg dc <$> devices s !! id)
  /\ (is_ok r = true ->
        devices s' = aged wall dg dc <$> devices s
        /\ forall now' m' t' w1, devices (tick_devices of_json outside now' m' t' s' w1 wall dg dc).1.2 = devices s').
Proof.
  assert (Hweak : forall now m t s w r s' w', tick_devices of_json outside now m t s w wall dg dc = (r, s', w') ->
            forall id, devices s' !! id = devices s !! id \/ devices s' !! id = aged wall dg dc <$> devices s !! id).
  { clear. intros now m t s w r s' w'. unfold tick_devices. destruct (require now m t WRITE); [|intros [= _ <- _]; by left].
    by intros (_ & _ & Hd)%tick_each_tables. }
  intros Ht. split; [by eapply Hweak|]. intros Hok. assert (Hd : devices s' = aged wall dg dc <$> devices s).
  { apply map_eq. intros id. rewrite lookup_fmap. destruct (devices s !! id) as [d|] eqn:Hid.
    - unfold tick_devices in Ht. destruct (require now m t WRITE); [|by injection Ht as <- _ _]. destruct r as [[]|]; [|done].
      rewrite (tick_each_aged _ _ _ _ _ _ _ _ _ _ _ Ht id), Hid; [done|]. apply list_elem_of_fmap. exists (id, d). split; [done|].
      by apply elem_of_hash_iter.
    - destruct (Hweak _ _ _ _ _ _ _ _ Ht id) as [Hx|Hx]; by rewrite Hx, Hid. }
  split; [done|]. intros now' m' t' w1. destruct (tick_devices _ _ now' m' t' s' w1 _ _ _) as [[r' s''] w''] eqn:Ht'. simpl.
  apply map_eq. intros id. destruct (Hweak _ _ _ _ _ _ _ _ Ht' id) as [Hx|Hx]; [done|]. rewrite Hx, Hd, lookup_fmap.
  by destruct (devices s !! id).
Qed.

(** *** Manifests and queries *)

(** A device is only registered under what was signed for it, and a signature fits one
    manifest unless it verifies for two messages. *)
Lemma registered_was_signed now m t s w ty mf md cm own wall sig vk id s' w' :
  register of_json outside now m t s w ty mf md cm own wall sig vk = (Ok id, s', w') ->
  verify_manifest ty mf md cm own sig vk = true
  /\ forall ty' mf' md' cm' own', verify_manifest ty' mf' md' cm' own' sig vk = true ->
       (ty', mf', md', cm', own') = (ty, mf, md, cm, own)
       \/ confused vk sig (canonical_bytes ty' mf' md' cm' own') (canonical_bytes ty mf md cm own).
Proof.
  unfold register. destruct (require now m t WRITE); [|done]. destruct (verify_manifest ty mf md cm own sig vk) eqn:Hv; [|done]. intros _.
  split; [done|]. intros ty' mf' md' cm' own' Hv'. unfold verify_manifest, canonical_bytes in *.
  destruct (same_or_confused _ _ _ _ Hv' Hv) as [Heq|?]; [left|by right]. apply (f_equal manifest_from_slice) in Heq. rewrite !manifest_from_to in Heq. by simplify_eq.
Qed.

(** A substitute is another connected device of the owner's that declares the
    capability, and there is none only if no such device is there. *)
Lemma find_substitute_spec s cap own exclude :
  let fits d := device_id d <> exclude /\ owner d = own /\ presence d = Connected /\ is_Some (declared d cap) in
  match find_substitute s cap own exclude with
  | Some id => exists k d, devices s !! k = Some d /\ fits d /\ id = device_id d
  | None => forall k d, devices s !! k = Some d -> ~ fits d
  end.
Proof.
  intros fits. unfold find_substitute. set (l := List.filter _ _).
  assert (Hl : forall d, d ∈ l /\ is_Some (declared d cap) <-> exists k, devices s !! k = Some d /\ fits d).
  { intros d. unfold l. rewrite list_elem_of_In, filter_In, <- list_elem_of_In, list_elem_of_fmap, !andb_true_iff, negb_true_iff.
    rewrite N.eqb_neq, N.eqb_eq, bool_decide_eq_true. unfold fits. split.
    - intros [[([k d'] & -> & Hin%elem_of_hash_iter) [[? ?] ?]] ?]. exists k. by split_and!.
    - intros (k & Hk & ? & ? & ? & ?). split_and!; try done. exists (k, d). split; [done|by apply elem_of_hash_iter]. }
  destruct (List.find _ l) as [d|] eqn:Hf; simpl.
  - apply List.find_some in Hf as [Hin Hd]. apply declares_spec in Hd. rewrite <- list_elem_of_In in Hin.
    destruct (proj1 (Hl d) (conj Hin Hd)) as (k & Hk & Hfits). by exists k, d.
  - intros k d Hk Hfits. destruct (proj2 (Hl d) (ex_intro _ k (conj Hk Hfits))) as [Hin Hd].
    rewrite list_elem_of_In in Hin. pose proof (List.find_none _ _ Hf d Hin) as Hn. simpl in Hn. apply declares_spec in Hd. congruence.
Qed.
End calls.

Module DeviceExample.
Import Crypto.Toy Wal.ToyRecords Storage.StorageExample KnowledgeGraph.GraphExample RecoveryExample.

Definition type_code (t : DeviceType) : N :=
  match t with
  | Display => 0 | Mobile => 1 | Vehicle => 2 | Robot => 3 | Wearable => 4 | HomeAppliance => 5 | Peripheral => 6 | Sensor => 7
  end.
Definition code_type (n : N) : DeviceType :=
  match n with
  | 0 => Display | 1 => Mobile | 2 => Vehicle | 3 => Robot | 4 => Wearable | 5 => HomeAppliance | 6 => Peripheral | _ => Sensor
  end.
Definition direction_code (d : Direction) : N := match d with Render => 0 | Sense => 1 | Actuate => 2 end.
Definition code_direction (n : N) : Direction := match n with 0 => Render | 1 => Sense | _ => Actuate end.
Definition safety_code (c : SafetyClass) : N := match c with Cosmetic => 0 | Standard => 1 | High => 2 end.
Definition code_safety (n : N) : SafetyClass := match n with 0 => Cosmetic | 1 => Standard | _ => High end.

Definition entry_tuple (e : CapabilityManifestEntry) : text * N * N := (capability_name e, direction_code (direction e), safety_code (safety_class e)).
Definition tuple_entry '((n, d, c) : text * N * N) : CapabilityManifestEntry := mkEntry n (code_direction d) (code_safety c).
Definition fields_tuple (f : SignedManifestFields) : N * text * text * list (text * N * N) * N :=
  (type_code (sm_device_type f), sm_manufacturer f, sm_model f, entry_tuple <$> sm_manifest f, sm_owner f).
Definition tuple_fields '((ty, mf, md, cm, own) : N * text * text * list (text * N * N) * N) : SignedManifestFields :=
  mkSigned (code_type ty) mf md (tuple_entry <$> cm) own.

Lemma tuple_fields_tuple f : tuple_fields (fields_tuple f) = f.
Proof.
  destruct f as [ty mf md cm own]. unfold fields_tuple, tuple_fields. simpl. f_equal; [by destruct ty|].
  rewrite <- list_fmap_compose. rewrite <- (list_fmap_id cm) at 2. apply list_fmap_ext. intros _ [n d c] _. simpl. by destruct d, c.
Qed.

#[refine, export] Instance toy_manifest : ManifestJson :=
  {| manifest_to_vec := fun f => [N.pos (countable.encode (fields_tuple f))];
     manifest_from_slice := fun l => match l with [N.pos p] => tuple_fields <$> countable.decode p | _ => None end |}.
Proof. intros f. rewrite countable.decode_encode. cbn [fmap option_fmap option_map]. by rewrite tuple_fields_tuple. Defined.

#[export] Instance creator_instance : NodeCreator N graph WriteEnv (M := unit) := graph_node_creator value_of.

(** A value of the graph that tells whether the device it mirrors is paired. *)
Definition paired_value (v : Json) : N :=
  match json_get v (lit "pairing") with Some JNull => 0 | Some _ => 1 | None => 2 end.

Definition as_caller (t : CapabilityToken) : Caller (M := unit) := mkCaller 0 tt t.
Definition running : CapabilityToken := mkToken 3 0 EXEC 0 7 None.
Definition arm : text := lit "arm".
Definition lamp : text := lit "lamp".
Definition robot : list CapabilityManifestEntry := [mkEntry lamp Render Cosmetic; mkEntry arm Actuate High].
(** A manifest that declares the arm twice. *)
Definition robot2 : list CapabilityManifestEntry := [mkEntry arm Render Cosmetic; mkEntry arm Actuate High].

Definition reg (cm : list CapabilityManifestEntry) (own wall : N) : DeviceOp :=
  OpRegister Robot (lit "acme") (lit "r1") cm own wall (sign_manifest Robot (lit "acme") (lit "r1") cm own 5) 5.

Definition run_call (x : CapabilityToken * DeviceOp) (st : list (Call (M := unit)) * DeviceRegistry * world) :
    list (Call (M := unit)) * DeviceRegistry * world :=
  let '(tr, s, w) := st in
  let '(b, s', w') := call paired_value inputs (as_caller x.1) x.2 s w in (tr ++ [(as_caller x.1, x.2, b)], s', w').
Definition run_calls (l : list (CapabilityToken * DeviceOp)) : list (Call (M := unit)) * DeviceRegistry * world :=
  fold_left (fun st x => run_call x st) l ([], new_registry, mkWorld graph0 0).
Definition outcomes (st : list (Call (M := unit)) * DeviceRegistry * world) : list bool := snd <$> st.1.1.
Definition mirror_value (st : list (Call (M := unit)) * DeviceRegistry * world) (id : N) : option N :=
  k ← kg_node_for st.1.2 id; node_metadata <$> ns_node (store st.2) k.
Definition may_run (st : list (Call (M := unit)) * DeviceRegistry * world) (id : N) (cap : text) : bool :=
  is_ok (invoke 0 tt running st.1.2 id cap JNull).

Example paired_and_revoked :
  let a := [(alice, reg robot 7 10); (alice, OpPair 1 TierActuate [arm] true)] in
  outcomes (run_calls a) = [true; true] /\ may_run (run_calls a) 1 arm = true /\ may_run (run_calls a) 1 lamp = false
  /\ mirror_value (run_calls a) 1 = Some 1
  /\ may_run (run_calls (a ++ [(alice, OpRevoke 1)])) 1 arm = false
  /\ may_run (run_calls (a ++ [(alice, OpTick 100 10 60)])) 1 arm = false.
Proof. vm_compute. done. Qed.

Example actuation_needs_more :
  outcomes (run_calls [(alice, reg robot 7 10); (alice, OpPair 1 TierActuate [arm] false); (alice, OpPair 1 TierSense [arm] true);
    (alice, OpPair 1 TierView [lamp] false)]) = [true; false; false; true].
Proof. vm_compute. done. Qed.

(** Someone else pairs a device: the graph refuses the write and the call reports a
    failure, but the pairing is there, and the mirror does not show it. *)
Example refused_pairing_takes_effect :
  let st := run_calls [(alice, reg robot 7 10); (mallory, OpPair 1 TierActuate [arm] true)] in
  outcomes st = [true; false] /\ may_run st 1 arm = true /\ mirror_value st 1 = Some 0.
Proof. vm_compute. done. Qed.

(** A tick stops at the first device of another boundary, and the devices it had not
    come to stay as they were, here connected though not heard of for long. Which
    these are the order of the table decides; with devices of two boundaries no token
    gets through. *)
Example tick_stops_at_a_strangers_device :
  let both := [(alice, reg robot 7 10); (mallory, reg robot 9 10)] in
  let st t := run_calls (both ++ [(t, OpTick 1000 10 60)]) in
  let heard t := presence <$> (hash_iter (devices (st t).1.2)).*2 in
  outcomes (st alice) = [true; true; false] /\ outcomes (st mallory) = [true; true; false]
  /\ (Connected ∈ heard alice \/ Connected ∈ heard mallory).
Proof. vm_compute. split; [done|]. split; [done|]. left. set_solver. Qed.

(** Of a capability that is declared twice the first entry decides the tier. *)
Example second_entry_is_not_looked_at :
  let st := run_calls [(alice, reg robot2 7 10); (alice, OpPair 1 TierView [arm] false)] in
  outcomes st = [true; true] /\ may_run st 1 arm = true.
Proof. vm_compute. done. Qed.

(** A signature does not fit another owner. *)
Example signature_is_for_one_owner :
  let o := OpRegister Robot (lit "acme") (lit "r1") robot 8 10 (sign_manifest Robot (lit "acme") (lit "r1") robot 7 5) 5 in
  outcomes (run_calls [(alice, o)]) = [false].
Proof. vm_compute. done. Qed.

Lemma run_calls_reachable l w0 tr s w :
  reachable paired_value inputs w0 tr s w -> next_id s + N.of_nat (length l) < two64 ->
  let st := fold_left (fun st x => run_call x st) l (tr, s, w) in reachable paired_value inputs w0 st.1.1 st.1.2 st.2.
Proof.
  revert tr s w. induction l as [|x l IH]; intros tr s w Hr Hl; [done|]. cbn [fold_left length] in *.
  destruct (call paired_value inputs (as_caller x.1) x.2 s w) as [[b s'] w'] eqn:Hc.
  assert (run_call x (tr, s, w) = (tr ++ [(as_caller x.1, x.2, b)], s', w')) as -> by (unfold run_call; by rewrite Hc).
  apply IH; [eapply reach_call; [done| |done]; lia|]. apply call_effect in Hc.
  assert (next_id s' <= next_id s + 1); [|lia].
  destruct Hc as [-> _|_ _ -> _|? ? ? ? ? _ _ _ _ _ _ _ ->|? _ _ _ ->|_ _ -> _]; try lia. rewrite u64_add_small; lia.
Qed.

Lemma graph0_sound : nc_sound (store (mkWorld graph0 0)).
Proof. intros id [n Hn]. simpl in Hn. by rewrite lookup_empty in Hn. Qed.

Definition two_calls : list (CapabilityToken * DeviceOp) := [(alice, reg robot 7 10); (alice, OpPair 1 TierActuate [arm] true)].
End DeviceExample.
Import Crypto.Toy Wal.ToyRecords Storage.StorageExample KnowledgeGraph.GraphExample RecoveryExample DeviceExample.

Lemma invocations_were_granted_witness :
  exists c confirmed r d e, let st := run_calls two_calls in
    paired_by st.1.1 1 r c confirmed /\ devices st.1.2 !! 1 = Some d /\ declared d arm = Some e /\ (direction e = Actuate -> confirmed = true).
Proof.
  assert (Hok : is_ok (invoke 0 tt running (run_calls two_calls).1.2 1 arm JNull) = true) by (vm_compute; reflexivity).
  assert (Hr := run_calls_reachable two_calls (mkWorld graph0 0) [] new_registry (mkWorld graph0 0) (reach_new _ _ _) ltac:(vm_compute; reflexivity)).
  change (fold_left _ two_calls _) with (run_calls two_calls) in Hr. revert Hok Hr. generalize (run_calls two_calls). intros st Hok Hr.
  destruct (invocations_were_granted paired_value inputs (mkWorld graph0 0) st.1.1 st.1.2 st.2 0 tt running 1 arm JNull Hr) as [_ Himp].
  destruct (Himp Hok) as (d & e & r & c & cf & Hd & He & Hp & _ & _ & Ha). exists c, cf, r, d, e. simpl. auto.
Defined.

Lemma graph_mirrors_registry_witness :
  exists d k n, let st := run_calls two_calls in
    devices st.1.2 !! 1 = Some d /\ kg_node_for st.1.2 1 = Some k /\ ns_node (store st.2) k = Some n
    /\ content n = (lit "device", None, paired_value (device_json d (pairings st.1.2 !! 1))).
Proof.
  assert (Hd : is_Some (devices (run_calls two_calls).1.2 !! 1)) by (vm_compute; by eexists).
  assert (Hc : dirty (run_calls two_calls).1.1 1 = false) by (vm_compute; reflexivity).
  assert (Hr := run_calls_reachable two_calls (mkWorld graph0 0) [] new_registry (mkWorld graph0 0) (reach_new _ _ _) ltac:(vm_compute; reflexivity)).
  change (fold_left _ two_calls _) with (run_calls two_calls) in Hr. revert Hd Hc Hr. generalize (run_calls two_calls). intros st [d Hd] Hc Hr.
  destruct (graph_mirrors_registry paired_value inputs (mkWorld graph0 0) st.1.1 st.1.2 st.2 graph0_sound Hr) as [_ Hm].
  destruct (Hm 1 d Hd Hc) as (k & n & Hk & Hn & Hcont). exists d, k, n. simpl. auto.
Defined.
