(* ===== verification/Identity.v ===== *)
(** People: [crates/hyperion-identity/src], [types.rs], [registry.rs] and
    [credentials.rs], with the passphrases of [crates/hyperion-crypto/src/credentials.rs].

    Two files beside the device's data say which trust boundary each person is and what
    they set as a passphrase. Both are tables written whole as one JSON document. Names
    and passphrases are their UTF-8 bytes; messages of errors are left out. *)
From S2P Require Import Prelude Crypto DebugFmt F32 Json.
Open Scope N_scope.

Abbreviation text := (list N).

(** ** The files *)

(** A field whose value is an unsigned integer or a string. *)
Definition flat (kv : list N * Json) : bool := match kv.2 with JNumber _ | JString _ => true | _ => false end.

(** [serde_json::to_vec_pretty], and [read_to_string] with [from_str]. An object in an
    object, whose fields are integers and strings, is read back as it was written, but for
    the order of its fields. *)
Class DocumentText := {
  to_vec_pretty : Json -> list N;
  from_file : list N -> option Json;
  from_written : forall k (l : list (text * Json)),
    NoDup l.*1 -> forallb flat l = true ->
    exists l', from_file (to_vec_pretty (JObject [(k, JObject l)])) = Some (JObject [(k, JObject l')]) /\ l' ≡ₚ l
}.

(** How creating the directory and writing the file ended. *)
Inductive save_outcome : Type := Saved | NotSaved | Torn (kept : nat).

#[export] Instance save_outcome_eq_dec : EqDecision save_outcome.
Proof. solve_decision. Defined.

Definition write_file (disk : option (list N)) (bytes : list N) (io : save_outcome) : bool * option (list N) :=
  match io with
  | Saved => (true, Some bytes)
  | NotSaved => (false, disk)
  | Torn k => (false, Some (take k bytes))
  end.

Definition as_object (v : Json) : option (list (text * Json)) := match v with JObject l => Some l | _ => None end.

Section files.
Context `{DocumentText}.

(** [persist] of both stores: a table under a key. *)
Definition persist_table (key : text) (entries : list (text * Json)) (disk : option (list N)) (io : save_outcome) : bool * option (list N) :=
  write_file disk (to_vec_pretty (JObject [(key, JObject entries)])) io.

(** The entries under a key of the file. *)
Definition entries_under (key : text) (bytes : list N) : option (list (text * Json)) :=
  v ← from_file bytes; u ← json_get v key; as_object u.

Lemma entries_written key l disk disk' :
  NoDup l.*1 -> forallb flat l = true -> persist_table key l disk Saved = (true, disk') ->
  exists bytes l', disk' = Some bytes /\ entries_under key bytes = Some l' /\ l' ≡ₚ l.
Proof.
  intros Hnd Hflat [= <-]. destruct (from_written key l Hnd Hflat) as (l' & Hf & Hl). eexists _, l'. split; [done|]. split; [|done].
  unfold entries_under. rewrite Hf. simpl. by rewrite bool_decide_true.
Qed.
End files.

(** ** types.rs *)

Definition MAX_USER_ID : nat := 64.

Inductive UserIdError : Type := EmptyName | InvalidName (name : text).

Definition name_char (c : N) : bool :=
  ((97 <=? c) && (c <=? 122)) || ((48 <=? c) && (c <=? 57)) || (c =? 45) || (c =? 95) || (c =? 46).

Definition starts_with (c : N) (name : text) : bool := match name with x :: _ => x =? c | [] => false end.

Definition new_user_id (name : text) : Result text UserIdError :=
  match name with
  | [] => Err EmptyName
  | _ =>
      if (length name <=? MAX_USER_ID)%nat && negb (starts_with 45 name) && negb (starts_with 46 name) && forallb name_char name
      then Ok name
      else Err (InvalidName name)
  end.

Record Principal := mkPrincipal {
  user : text;
  boundary : N
}.

Definition principal_scope (p : Principal) : text := lit "user." ++ user p.

(** ** registry.rs *)

Definition FIRST_USER_BOUNDARY : N := 1000.

Inductive RegistryError : Type := RegistryUserId (e : UserIdError) | RegistryRead | RegistryWrite.

Record PrincipalRegistry := mkPrincipals {
  boundaries : gmap text N;
  next_boundary : N
}.

Section registry.
Context `{DocumentText}.

Definition users_key : text := lit "users".

Fixpoint read_users (entries : list (text * Json)) (acc : gmap text N) : Result (gmap text N) RegistryError :=
  match entries with
  | [] => Ok acc
  | (name, v) :: entries =>
      match new_user_id name with
      | Err e => Err (RegistryUserId e)
      | Ok u =>
          match as_u64 v with
          | None => Err RegistryRead
          | Some b => read_users entries (<[u := b]> acc)
          end
      end
  end.

(** [values().copied().max()] *)
Definition highest (m : gmap text N) : option N :=
  fold_right (fun '(_, b) acc => Some (match acc with Some a => N.max b a | None => b end)) None (map_to_list m).

Definition next_after (m : gmap text N) : N := from_option (fun h => u64_add h 1) FIRST_USER_BOUNDARY (highest m).

(** [disk] is the file, if there is one; [readable] whether reading it succeeds. *)
Definition open_registry (disk : option (list N)) (readable : bool) : Result PrincipalRegistry RegistryError :=
  match disk with
  | None => Ok (mkPrincipals ∅ FIRST_USER_BOUNDARY)
  | Some bytes =>
      if negb readable then Err RegistryRead
      else
        match entries_under users_key bytes with
        | None => Err RegistryRead
        | Some entries =>
            match read_users entries ∅ with
            | Err e => Err e
            | Ok m => Ok (mkPrincipals m (next_after m))
            end
        end
  end.

Definition user_entries (m : gmap text N) : list (text * Json) := (fun '(u, b) => (u, JNumber b)) <$> map_to_list m.

Definition persist_users (m : gmap text N) (disk : option (list N)) (io : save_outcome) : bool * option (list N) :=
  persist_table users_key (user_entries m) disk io.

Definition principal_for (s : PrincipalRegistry) (disk : option (list N)) (name : text) (io : save_outcome) :
    Result Principal RegistryError * PrincipalRegistry * option (list N) :=
  match new_user_id name with
  | Err e => (Err (RegistryUserId e), s, disk)
  | Ok u =>
      match boundaries s !! u with
      | Some b => (Ok (mkPrincipal u b), s, disk)
      | None =>
          let b := next_boundary s in
          let s := mkPrincipals (<[u := b]> (boundaries s)) (u64_add b 1) in
          let '(ok, disk) := persist_users (boundaries s) disk io in
          if ok then (Ok (mkPrincipal u b), s, disk) else (Err RegistryWrite, s, disk)
      end
  end.

(** The order of strings, and of the keys of a [BTreeMap]. *)
Fixpoint text_leb (a b : text) : bool :=
  match a, b with
  | [], _ => true
  | _, [] => false
  | x :: a, y :: b => (x <? y) || ((x =? y) && text_leb a b)
  end.

Definition text_le (a b : text) : Prop := text_leb a b = true.
#[export] Instance text_le_dec a b : Decision (text_le a b).
Proof. unfold text_le. apply _. Defined.

Definition known_users (s : PrincipalRegistry) : list text :=
  merge_sort text_le (map_to_list (boundaries s)).*1.
Definition knows (s : PrincipalRegistry) (u : text) : bool := bool_decide (is_Some (boundaries s !! u)).
End registry.

(** ** credentials.rs of the cryptography *)

Definition MIN_PASSPHRASE_LEN : nat := 8.
Definition PEPPER_CONTEXT : text := lit "hyperion.credentials.pepper.v1".

Inductive CredentialError : Type := TooShort | Malformed | Hashing.

(** Argon2: hashing with a salt, which may fail, and checking against a stored hash, and
    the device's key derivation. *)
Class PasswordHashing := {
  DeviceKey : Type;
  derive_key : DeviceKey -> text -> list N;
  is_phc : text -> bool;
  hash_password : list N -> list N -> option text;
  verify_password : list N -> text -> bool;
  hash_is_phc : forall i salt h, hash_password i salt = Some h -> is_phc h = true;
  hash_verifies : forall i salt h, hash_password i salt = Some h -> verify_password i h = true
}.

(** [chars().count()]: bytes that do not continue a character. *)
Definition char_count (s : text) : nat := length (List.filter (fun b => negb ((128 <=? b) && (b <? 192))) s).

Section passphrases.
Context `{PasswordHashing}.

Definition parse_verifier (stored : text) : Result text CredentialError := if is_phc stored then Ok stored else Err Malformed.

Definition peppered (passphrase : text) (k : DeviceKey) : list N := passphrase ++ derive_key k PEPPER_CONTEXT.

Definition hash_passphrase (passphrase : text) (k : DeviceKey) (salt : list N) : Result text CredentialError :=
  if (char_count passphrase <? MIN_PASSPHRASE_LEN)%nat then Err TooShort
  else match hash_password (peppered passphrase k) salt with Some h => Ok h | None => Err Hashing end.

Definition verify_passphrase (passphrase verifier : text) (k : DeviceKey) : bool :=
  is_phc verifier && verify_password (peppered passphrase k) verifier.
End passphrases.

(** ** credentials.rs *)

Inductive CredentialStoreError : Type := StoreUserId (e : UserIdError) | StoreCredential (e : CredentialError) | StoreRead | StoreWrite.

Inductive AuthOutcome : Type := Verified | Refused | NoCredential.

Record CredentialStore := mkStore { verifiers : gmap text text }.

Section credentials.
Context `{DocumentText} `{PasswordHashing}.

Definition passphrases_key : text := lit "passphrases".

Fixpoint read_passphrases (entries : list (text * Json)) (acc : gmap text text) : Result (gmap text text) CredentialStoreError :=
  match entries with
  | [] => Ok acc
  | (name, v) :: entries =>
      match new_user_id name with
      | Err e => Err (StoreUserId e)
      | Ok u =>
          match as_str v with
          | None => Err StoreRead
          | Some stored =>
              match parse_verifier stored with
              | Err e => Err (StoreCredential e)
              | Ok _ => read_passphrases entries (<[u := stored]> acc)
              end
          end
      end
  end.

Definition open_credentials (disk : option (list N)) (readable : bool) : Result CredentialStore CredentialStoreError :=
  match disk with
  | None => Ok (mkStore ∅)
  | Some bytes =>
      if negb readable then Err StoreRead
      else
        match entries_under passphrases_key bytes with
        | None => Err StoreRead
        | Some entries => match read_passphrases entries ∅ with Err e => Err e | Ok m => Ok (mkStore m) end
        end
  end.

Definition passphrase_entries (m : gmap text text) : list (text * Json) := (fun '(u, s) => (u, JString s)) <$> map_to_list m.

Definition persist_passphrases (s : CredentialStore) (disk : option (list N)) (io : save_outcome) :
    Result unit CredentialStoreError * option (list N) :=
  let '(ok, disk) := persist_table passphrases_key (passphrase_entries (verifiers s)) disk io in (if ok then Ok tt else Err StoreWrite, disk).

Definition set_passphrase (s : CredentialStore) (disk : option (list N)) (u passphrase : text) (k : DeviceKey) (salt : list N)
    (io : save_outcome) : Result unit CredentialStoreError * CredentialStore * option (list N) :=
  match hash_passphrase passphrase k salt with
  | Err e => (Err (StoreCredential e), s, disk)
  | Ok v => let s := mkStore (<[u := v]> (verifiers s)) in let '(r, disk) := persist_passphrases s disk io in (r, s, disk)
  end.

Definition has_credential (s : CredentialStore) (u : text) : bool := bool_decide (is_Some (verifiers s !! u)).

Definition authenticate (s : CredentialStore) (u passphrase : text) (k : DeviceKey) : AuthOutcome :=
  match verifiers s !! u with
  | None => NoCredential
  | Some stored =>
      match parse_verifier stored with
      | Err _ => Refused
      | Ok v => if verify_passphrase passphrase v k then Verified else Refused
      end
  end.

Definition clear_passphrase (s : CredentialStore) (disk : option (list N)) (u : text) (io : save_outcome) :
    Result unit CredentialStoreError * CredentialStore * option (list N) :=
  let s := mkStore (delete u (verifiers s)) in let '(r, disk) := persist_passphrases s disk io in (r, s, disk).
End credentials.

(** ** Tables and their documents *)

(** A table read back from a permutation of its entries. *)
Lemma permuted_entries {A : Type} (f : A -> Json) (m : gmap text A) (l : list (text * Json)) :
  l ≡ₚ (fun '(u, a) => (u, f a)) <$> map_to_list m ->
  exists p, l = ((fun '(u, a) => (u, f a)) <$> p) /\ p ≡ₚ map_to_list m /\ NoDup p.*1 /\ list_to_map p = m.
Proof.
  intros Hl. destruct (Permutation_map_inv _ _ Hl) as (p & -> & Hp). symmetry in Hp. exists p.
  assert (Hnd : NoDup p.*1) by (rewrite Hp; apply NoDup_fst_map_to_list).
  split; [done|]. split; [done|]. split; [done|]. rewrite <- (list_to_map_to_list m). by apply list_to_map_proper.
Qed.

Lemma entries_keys {A : Type} (f : A -> Json) (m : gmap text A) : NoDup ((fun '(u, a) => (u, f a)) <$> map_to_list m).*1.
Proof.
  rewrite <- list_fmap_compose. rewrite (list_fmap_ext _ fst); [apply NoDup_fst_map_to_list|]. by intros _ [u a] _.
Qed.

Lemma flat_entries {A : Type} (f : A -> Json) (m : gmap text A) :
  (forall u a, flat (u, f a) = true) -> forallb flat ((fun '(u, a) => (u, f a)) <$> map_to_list m) = true.
Proof.
  intros Hf. apply forallb_forall. intros kv ([u a] & -> & _)%list_elem_of_In%list_elem_of_fmap. apply Hf.
Qed.

Lemma insert_after {A : Type} (p : list (text * A)) (u : text) (a : A) (acc : gmap text A) :
  NoDup (u :: p.*1) -> (list_to_map p : gmap text A) ∪ <[u := a]> acc = list_to_map ((u, a) :: p) ∪ acc.
Proof.
  intros [Hu _]%NoDup_cons. simpl. rewrite <- insert_union_l, <- insert_union_r; [done|]. by apply not_elem_of_list_to_map_1.
Qed.

Definition valid_name (u : text) : Prop := new_user_id u = Ok u.

Lemma new_user_id_ok name u : new_user_id name = Ok u -> u = name /\ valid_name u.
Proof.
  unfold valid_name, new_user_id. destruct name as [|c name]; [done|]. destruct (_ && _) eqn:E; [|done].
  intros [= <-]. split; [done|]. by rewrite E.
Qed.

Lemma read_users_spec p acc :
  NoDup p.*1 -> Forall valid_name p.*1 -> read_users ((fun '(u, b) => (u, JNumber b)) <$> p) acc = Ok (list_to_map p ∪ acc).
Proof.
  revert acc. induction p as [|[u b] p IH]; intros acc Hnd Hv; [simpl; by rewrite (left_id_L ∅ (∪))|].
  cbn [fmap list_fmap] in Hnd, Hv. apply Forall_cons in Hv as [Hu Hv]. cbn [fmap list_fmap read_users].
  rewrite Hu. cbn [as_u64]. rewrite IH; [|by apply NoDup_cons in Hnd as [_ ?]|done]. by rewrite insert_after.
Qed.

Section people.
Context `{DocumentText}.

(** The file holds the table. *)
Definition on_disk (m : gmap text N) (disk : option (list N)) : Prop :=
  match disk with
  | None => m = ∅
  | Some bytes => exists l, entries_under users_key bytes = Some l /\ l ≡ₚ user_entries m
  end.

Lemma persist_users_on_disk m disk disk' : persist_users m disk Saved = (true, disk') -> on_disk m disk'.
Proof.
  intros Hp. apply (entries_written users_key _ disk) in Hp as (bytes & l & -> & He & Hl); [by exists l|apply (entries_keys JNumber)|by apply (flat_entries JNumber)].
Qed.

Lemma open_registry_on_disk m disk :
  Forall valid_name (map_to_list m).*1 -> on_disk m disk -> open_registry disk true = Ok (mkPrincipals m (next_after m)).
Proof.
  intros Hv. destruct disk as [bytes|]; simpl; [|by intros ->]. intros (l & -> & Hl). simpl.
  apply permuted_entries in Hl as (p & -> & Hp & Hnd & Hm).
  rewrite read_users_spec; [|done|by rewrite Hp]. by rewrite Hm, (right_id_L ∅ (∪)).
Qed.

Lemma highest_bound m : match highest m with
  | Some h => (forall u b, m !! u = Some b -> b <= h) /\ exists u, m !! u = Some h
  | None => m = ∅
  end.
Proof.
  unfold highest. set (f := fun '(_, b) acc => _).
  assert (Hg : forall l : list (text * N), match fold_right f None l with
            | Some h => (forall u b, (u, b) ∈ l -> b <= h) /\ exists u, (u, h) ∈ l
            | None => l = [] end).
  { induction l as [|[u b] l IH]; [done|]. simpl. destruct (fold_right f None l) as [h|].
    - destruct IH as [IH (u' & Hu')]. split.
      + intros u'' b' [Heq|Hin]%elem_of_cons; [injection Heq as -> ->; lia|]. apply IH in Hin. lia.
      + destruct (N.max_spec b h) as [[_ ->]|[_ ->]]; [exists u'; by right|exists u; left].
    - subst l. split; [|exists u; left]. intros u' b' Hin%list_elem_of_singleton. by injection Hin as -> ->. }
  specialize (Hg (map_to_list m)). destruct (fold_right f None (map_to_list m)) as [h|].
  - destruct Hg as [Hg (u & Hu)]. split; [intros u' b Hub; by apply (Hg u'), elem_of_map_to_list|]. exists u. by apply elem_of_map_to_list.
  - by apply map_to_list_empty_iff.
Qed.

(** *** Runs *)

(** What is answered while people come and the device restarts. A restart finds what the
    last write left; [saved] says that it went well, or that nothing was written. *)
Inductive identities : list Principal -> bool -> PrincipalRegistry -> option (list N) -> Prop :=
| id_start : identities [] true (mkPrincipals ∅ FIRST_USER_BOUNDARY) None
| id_for ans saved s disk name io r s' disk' :
    identities ans saved s disk -> next_boundary s + 1 < two64 -> principal_for s disk name io = (r, s', disk') ->
    identities (ans ++ (match r with Ok p => [p] | Err _ => [] end))
      (if bool_decide (boundaries s' = boundaries s) then saved else bool_decide (io = Saved)) s' disk'
| id_restart ans s disk s' :
    identities ans true s disk -> open_registry disk true = Ok s' -> identities ans true s' disk.

Record registry_inv (ans : list Principal) (saved : bool) (s : PrincipalRegistry) (disk : option (list N)) : Prop := {
  ri_names : Forall valid_name (map_to_list (boundaries s)).*1;
  ri_apart : forall u u' b, boundaries s !! u = Some b -> boundaries s !! u' = Some b -> u = u';
  ri_range : forall u b, boundaries s !! u = Some b -> FIRST_USER_BOUNDARY <= b < next_boundary s;
  ri_first : FIRST_USER_BOUNDARY <= next_boundary s < two64;
  ri_answers : forall p, p ∈ ans -> boundaries s !! user p = Some (boundary p);
  ri_saved : saved = true -> on_disk (boundaries s) disk
}.

Lemma names_insert (m : gmap text N) u b :
  valid_name u -> Forall valid_name (map_to_list m).*1 -> Forall valid_name (map_to_list (<[u := b]> m)).*1.
Proof.
  rewrite !Forall_forall. intros Hu Hm x ([y b'] & -> & Hin%elem_of_map_to_list)%list_elem_of_fmap. simpl.
  apply lookup_insert_Some in Hin as [[<- _]|[_ Hy]]; [done|]. apply Hm, list_elem_of_fmap. exists (y, b'). split; [done|].
  by apply elem_of_map_to_list.
Qed.

Lemma principal_for_inv ans saved s disk name io r s' disk' :
  registry_inv ans saved s disk -> next_boundary s + 1 < two64 -> principal_for s disk name io = (r, s', disk') ->
  registry_inv (ans ++ (match r with Ok p => [p] | Err _ => [] end))
    (if bool_decide (boundaries s' = boundaries s) then saved else bool_decide (io = Saved)) s' disk'.
Proof.
  intros [Hv Ha Hr Hf Hans Hd] Hroom. unfold principal_for. destruct (new_user_id name) as [u|e] eqn:Hn.
  2: { intros [= <- <- <-]. rewrite bool_decide_true, app_nil_r by done. by split. }
  apply new_user_id_ok in Hn as [_ Hu]. destruct (boundaries s !! u) as [b|] eqn:Hb.
  { intros [= <- <- <-]. rewrite bool_decide_true by done. split; try done.
    intros p [Hp|Hp]%elem_of_app; [by apply Hans|]. apply list_elem_of_singleton in Hp as ->. done. }
  cbv zeta. cbn [boundaries next_boundary]. set (m := <[u := next_boundary s]> (boundaries s)).
  assert (Hne : m <> boundaries s) by (intros Heq; apply (f_equal (lookup u)) in Heq; unfold m in Heq; rewrite lookup_insert_eq, Hb in Heq; done).
  assert (Hother : forall x b, m !! x = Some b -> x = u /\ b = next_boundary s \/ x <> u /\ boundaries s !! x = Some b).
  { intros x b Hx. apply lookup_insert_Some in Hx as [[<- <-]|[Hne' Hx]]; [by left|by right]. }
  assert (Hgen : forall new disk1, (forall p, p ∈ new -> p = mkPrincipal u (next_boundary s)) ->
            (io = Saved -> on_disk m disk1) ->
            registry_inv (ans ++ new) (bool_decide (io = Saved)) (mkPrincipals m (u64_add (next_boundary s) 1)) disk1).
  { intros new disk1 Hnew Hd1. rewrite u64_add_small by lia. split; simpl.
    - by apply names_insert.
    - intros x y b [[-> ->]|[Hx Hbx]]%Hother [[-> Hby]|[Hy Hby]]%Hother; try done.
      + apply Hr in Hby. lia.
      + subst b. apply Hr in Hbx. lia.
      + by eapply Ha.
    - intros x b [[-> ->]|[Hx Hbx]]%Hother; [lia|]. apply Hr in Hbx. lia.
    - lia.
    - intros p [Hp|Hp]%elem_of_app.
      + apply Hans in Hp. unfold m. rewrite lookup_insert_ne; [done|]. intros ->. congruence.
      + apply Hnew in Hp as ->. simpl. apply lookup_insert_eq.
    - intros Hs%bool_decide_eq_true. by apply Hd1. }
  destruct (persist_users m disk io) as [ok d'] eqn:Hp.
  assert (Hon : io = Saved -> on_disk m d').
  { intros ->. assert (ok = true) as -> by (unfold persist_users, persist_table, write_file in Hp; congruence).
    by eapply persist_users_on_disk. }
  destruct ok; intros [= <- <- <-]; cbn [boundaries]; rewrite bool_decide_false by done; apply Hgen; try done.
  - by intros p ->%list_elem_of_singleton.
  - by intros p ?%elem_of_nil.
Qed.

(** Everyone is listed once. *)
Lemma known_users_perm s u : u ∈ known_users s <-> knows s u = true.
Proof.
  unfold known_users, knows. rewrite merge_sort_Permutation, bool_decide_eq_true, list_elem_of_fmap. split.
  - intros ([x b] & -> & Hin%elem_of_map_to_list). by exists b.
  - intros [b Hb]. exists (u, b). split; [done|by apply elem_of_map_to_list].
Qed.

Lemma registry_inv_run ans saved s disk : identities ans saved s disk -> registry_inv ans saved s disk.
Proof.
  induction 1 as [|ans saved s disk name io r s' disk' _ IH Hroom Hp|ans s disk s' _ IH Ho].
  - split; cbn [boundaries next_boundary]; try done. by intros p ?%elem_of_nil.
  - by eapply principal_for_inv.
  - destruct IH as [Hv Ha Hr Hf Hans Hd]. rewrite (open_registry_on_disk (boundaries s)) in Ho by auto. injection Ho as <-.
    assert (Hnext : FIRST_USER_BOUNDARY <= next_after (boundaries s) < two64
                    /\ forall u b, boundaries s !! u = Some b -> b < next_after (boundaries s)).
    { unfold next_after. pose proof (highest_bound (boundaries s)) as Hh. destruct (highest (boundaries s)) as [h|]; simpl.
      - destruct Hh as [Hle (u & Hu)]. apply Hr in Hu. rewrite u64_add_small by lia. split; [lia|]. intros u' b Hb%Hle. lia.
      - rewrite Hh. split; [done|]. intros u b. by rewrite lookup_empty. }
    split; simpl; try done; [|apply Hnext]. intros u b Hb. pose proof (Hr u b Hb). apply Hnext in Hb. lia.
Qed.

(** C40. People keep their boundary and share it with nobody, as long as the device
    restarts only when the last write of the file has succeeded. Then, however people come
    and the device restarts, from no file on, names and boundaries of all that were ever
    answered agree one to one, and no boundary is one of those below the first; after a
    write that succeeded the file opens with everyone in it. A name that passes is answered
    whenever the file can be written. (A restart after a failed write gives one boundary to
    two people: [IdentityExample.boundary_is_given_twice].) *)
Theorem boundaries_are_stable ans saved s disk :
  identities ans saved s disk ->
  (forall p q, p ∈ ans -> q ∈ ans -> (user p = user q <-> boundary p = boundary q))
  /\ (forall p, p ∈ ans -> FIRST_USER_BOUNDARY <= boundary p)
  /\ (saved = true -> exists s', open_registry disk true = Ok s' /\ boundaries s' = boundaries s)
  /\ (forall name, new_user_id name = Ok name -> exists b s' disk', principal_for s disk name Saved = (Ok (mkPrincipal name b), s', disk')).
Proof.
  intros [Hv Ha Hr Hf Hans Hd]%registry_inv_run. split; [|split; [|split]].
  - intros p q Hp%Hans Hq%Hans. split; [intros Heq; rewrite Heq in Hp; congruence|]. intros Heq. rewrite Heq in Hp. by eapply Ha.
  - intros p Hp%Hans. by apply Hr in Hp as [? _].
  - intros Hs. eexists. split; [by apply open_registry_on_disk, Hd|done].
  - intros name Hn. unfold principal_for. rewrite Hn. destruct (boundaries s !! name) as [b|]; by eexists _, _, _.
Qed.

(** A name is one component of a path and cannot climb out of it. *)
Lemma valid_name_is_a_component u :
  valid_name u -> u <> [] /\ 47 ∉ u /\ u <> [46] /\ u <> [46; 46] /\ (length u <= MAX_USER_ID)%nat.
Proof.
  unfold valid_name, new_user_id. destruct u as [|c u]; [done|]. destruct (_ && _) eqn:E; [|done]. intros _.
  apply andb_true_iff in E as [[[Hl H1']%andb_true_iff H2']%andb_true_iff Hc]. simpl in H2'. apply negb_true_iff, N.eqb_neq in H2'.
  split; [done|]. split.
  - intros Hin. rewrite forallb_forall in Hc. apply list_elem_of_In, Hc in Hin. by vm_compute in Hin.
  - split; [by intros [= -> _]|]. split; [by intros [= -> _]|]. by apply Nat.leb_le.
Qed.
End people.

(** ** Passphrases *)

Section proofs.
Context `{DocumentText} `{PasswordHashing}.
Context (key : DeviceKey).

(** Two inputs that one stored hash accepts. *)
Definition hash_collision : Prop := exists i i' h, i <> i' /\ verify_password i h = true /\ verify_password i' h = true.

Definition passphrases_on_disk (m : gmap text text) (disk : option (list N)) : Prop :=
  match disk with
  | None => m = ∅
  | Some bytes => exists l, entries_under passphrases_key bytes = Some l /\ l ≡ₚ passphrase_entries m
  end.

Definition readable_entry '((u, v) : text * text) : Prop := valid_name u /\ is_phc v = true.

Lemma read_passphrases_spec p acc :
  NoDup p.*1 -> Forall readable_entry p -> read_passphrases ((fun '(u, v) => (u, JString v)) <$> p) acc = Ok (list_to_map p ∪ acc).
Proof.
  revert acc. induction p as [|[u v] p IH]; intros acc Hnd Hv; [simpl; by rewrite (left_id_L ∅ (∪))|].
  apply Forall_cons in Hv as [[Hu Hphc] Hv]. cbn [fmap list_fmap] in Hnd. cbn [fmap list_fmap read_passphrases].
  rewrite Hu. cbn [as_str]. unfold parse_verifier. rewrite Hphc. rewrite IH; [|by apply NoDup_cons in Hnd as [_ ?]|done].
  by rewrite insert_after.
Qed.

Lemma open_credentials_on_disk m disk :
  Forall readable_entry (map_to_list m) -> passphrases_on_disk m disk -> open_credentials disk true = Ok (mkStore m).
Proof.
  intros Hv. destruct disk as [bytes|]; simpl; [|by intros ->]. intros (l & -> & Hl).
  apply permuted_entries in Hl as (p & -> & Hp & Hnd & Hm).
  rewrite read_passphrases_spec; [|done|by rewrite Hp]. by rewrite Hm, (right_id_L ∅ (∪)).
Qed.

Lemma persist_passphrases_on_disk s disk io r disk' :
  persist_passphrases s disk io = (r, disk') -> io = Saved -> r = Ok tt /\ passphrases_on_disk (verifiers s) disk'.
Proof.
  intros Hp ->. unfold persist_passphrases in Hp. destruct (persist_table _ _ _ _) as [ok d] eqn:Ht.
  assert (ok = true) as -> by (unfold persist_table, write_file in Ht; congruence). injection Hp as <- <-. split; [done|].
  apply (entries_written passphrases_key _ disk) in Ht as (bytes & l & -> & He & Hl); [by exists l|apply (entries_keys JString)|by apply (flat_entries JString)].
Qed.

(** What people have set, as calls and restarts go: who has which passphrase in force,
    and whether the last write succeeded. Names are those of [UserId]s. *)
Inductive credentials : gmap text text -> bool -> CredentialStore -> option (list N) -> Prop :=
| cr_start : credentials ∅ true (mkStore ∅) None
| cr_refused std saved s disk u p salt io e : credentials std saved s disk -> hash_passphrase p key salt = Err e ->
    credentials std saved (set_passphrase s disk u p key salt io).1.2 (set_passphrase s disk u p key salt io).2
| cr_set std saved s disk u p salt io v : credentials std saved s disk -> valid_name u ->
    hash_passphrase p key salt = Ok v ->
    credentials (<[u := p]> std) (bool_decide (io = Saved)) (set_passphrase s disk u p key salt io).1.2 (set_passphrase s disk u p key salt io).2
| cr_clear std saved s disk u io : credentials std saved s disk ->
    credentials (delete u std) (bool_decide (io = Saved)) (clear_passphrase s disk u io).1.2 (clear_passphrase s disk u io).2
| cr_restart std s disk s' : credentials std true s disk -> open_credentials disk true = Ok s' -> credentials std true s' disk.

Record store_inv (std : gmap text text) (saved : bool) (s : CredentialStore) (disk : option (list N)) : Prop := {
  si_entries : forall u, match std !! u, verifiers s !! u with
    | Some p, Some v => valid_name u /\ is_phc v = true /\ verify_password (peppered p key) v = true
    | None, None => True
    | _, _ => False
    end;
  si_saved : saved = true -> passphrases_on_disk (verifiers s) disk
}.

Lemma store_readable std saved s disk : store_inv std saved s disk -> Forall readable_entry (map_to_list (verifiers s)).
Proof.
  intros [He _]. apply Forall_forall. intros [u v] Hin%elem_of_map_to_list. specialize (He u). rewrite Hin in He.
  destruct (std !! u); [|done]. by destruct He as (? & ? & _).
Qed.

Lemma store_inv_run std saved s disk : credentials std saved s disk -> store_inv std saved s disk.
Proof.
  induction 1 as [|std saved s disk u p salt io e _ IH Hh|std saved s disk u p salt io v _ IH Hu Hh|std saved s disk u io _ IH|std s disk s' _ IH Ho].
  - split; [|done]. intros u. by rewrite !lookup_empty.
  - unfold set_passphrase. by rewrite Hh.
  - unfold set_passphrase. rewrite Hh. destruct (persist_passphrases _ disk io) as [r d] eqn:Hp. simpl. destruct IH as [He _].
    split; [|intros Hs%bool_decide_eq_true; by apply (persist_passphrases_on_disk _ _ _ _ _ Hp)].
    intros x. cbn [verifiers]. destruct (decide (x = u)) as [->|Hne]; [|rewrite !lookup_insert_ne by done; apply He]. rewrite !lookup_insert_eq.
    unfold hash_passphrase in Hh. destruct (_ <? _)%nat; [done|]. destruct (hash_password _ _) as [h|] eqn:Hhash; [|done]. injection Hh as <-.
    split; [done|]. split; [by eapply hash_is_phc|by eapply hash_verifies].
  - unfold clear_passphrase. destruct (persist_passphrases _ disk io) as [r d] eqn:Hp. simpl. destruct IH as [He _].
    split; [|intros Hs%bool_decide_eq_true; by apply (persist_passphrases_on_disk _ _ _ _ _ Hp)].
    intros x. cbn [verifiers]. destruct (decide (x = u)) as [->|Hne]; [by rewrite !lookup_delete_eq|rewrite !lookup_delete_ne by done; apply He].
  - pose proof (store_readable _ _ _ _ IH) as Hv. destruct IH as [He Hs]. rewrite (open_credentials_on_disk (verifiers s)) in Ho by auto.
    injection Ho as <-. by split.
Qed.

(** Only the passphrase in force proves who someone is. However passphrases are set,
    replaced and cleared and the device restarts, as long as no restart follows a failed
    write before one that succeeds: a person without one has nothing to prove and is never
    taken as proved; the passphrase in force is accepted; another is refused, or the
    hashing has a collision; and the file opens with the passphrases in force. *)
Theorem authentication_is_exact std saved s disk :
  credentials std saved s disk ->
  (forall u p, match std !! u with
     | None => authenticate s u p key = NoCredential /\ has_credential s u = false
     | Some p0 => (p = p0 -> authenticate s u p key = Verified)
         /\ (p <> p0 -> authenticate s u p key = Refused \/ authenticate s u p key = Verified /\ hash_collision)
     end)
  /\ (saved = true -> open_credentials disk true = Ok s).
Proof.
  destruct s as [m].
  intros Hc%store_inv_run. pose proof (store_readable _ _ _ _ Hc) as Hr. destruct Hc as [He Hs].
  split; [|intros ?; apply open_credentials_on_disk; auto]. intros u p. specialize (He u). unfold authenticate, has_credential. cbn [verifiers] in *.
  destruct (std !! u) as [p0|], (m !! u) as [v|]; try done.
  destruct He as (_ & Hphc & Hv). unfold parse_verifier, verify_passphrase. rewrite Hphc. rewrite Hphc. cbn [andb]. split; [intros ->; by rewrite Hv|].
  intros Hne. destruct (verify_password (peppered p key) v) eqn:Hp; [|by left]. right. split; [done|].
  exists (peppered p key), (peppered p0 key), v. split; [|done]. unfold peppered. by intros ?%app_inv_tail.
Qed.
End proofs.

Module IdentityExample.

(** Documents and hashes that can be read back by what they are. *)
#[refine, export] Instance toy_document : DocumentText :=
  {| to_vec_pretty := fun v => [N.pos (encode v)];
     from_file := fun l => match l with [N.pos p] => decode p | _ => None end |}.
Proof. intros k l _ _. exists l. by rewrite decode_encode. Defined.

#[refine, export] Instance toy_hashing : PasswordHashing :=
  {| DeviceKey := N;
     derive_key := fun k _ => [k];
     is_phc := fun h => match h with 36 :: _ => true | _ => false end;
     hash_password := fun i salt => Some (36 :: i);
     verify_password := fun i h => bool_decide (h = 36 :: i) |}.
Proof.
  - by intros i salt h [= <-].
  - intros i salt h [= <-]. by apply bool_decide_eq_true.
Defined.

Definition alice : text := lit "alice".
Definition bob : text := lit "bob".
Definition fresh : PrincipalRegistry := mkPrincipals ∅ FIRST_USER_BOUNDARY.
Definition answer (r : Result Principal RegistryError * PrincipalRegistry * option (list N)) : option N :=
  match r.1.1 with Ok p => Some (boundary p) | Err _ => None end.

Example names :
  is_ok (new_user_id (lit "ana-maria_2.b")) = true /\ new_user_id [] = Err EmptyName
  /\ is_ok (new_user_id (lit "..")) = false /\ is_ok (new_user_id (lit "a/b")) = false /\ is_ok (new_user_id (lit "-x")) = false
  /\ is_ok (new_user_id (lit "Ana")) = false /\ is_ok (new_user_id (replicate 65 97)) = false.
Proof. vm_compute. done. Qed.

Example two_people_and_a_restart :
  let '(r1, s1, d1) := principal_for fresh None alice Saved in
  let '(r2, s2, d2) := principal_for s1 d1 bob Saved in
  match open_registry d2 true with
  | Ok s3 => answer (r1, s1, d1) = Some 1000 /\ answer (r2, s2, d2) = Some 1001
      /\ answer (principal_for s3 d2 alice NotSaved) = Some 1000 /\ next_boundary s3 = 1002
  | Err _ => False
  end.
Proof. vm_compute. done. Qed.

(** A write that fails is reported once. The person is answered after that, and after a
    restart the next person is given the same boundary. *)
Example boundary_is_given_twice :
  let '(r1, s1, d1) := principal_for fresh None alice NotSaved in
  let '(r2, s2, d2) := principal_for s1 d1 alice Saved in
  match open_registry d2 true with
  | Ok s3 => answer (r1, s1, d1) = None /\ answer (r2, s2, d2) = Some 1000 /\ answer (principal_for s3 d2 bob Saved) = Some 1000
  | Err _ => False
  end.
Proof. vm_compute. done. Qed.

(** The file is taken at its word: boundaries below the first, and one for two. *)
Example file_is_taken_at_its_word :
  let file := to_vec_pretty (JObject [(users_key, JObject [(alice, JNumber 1); (bob, JNumber 1)])]) in
  match open_registry (Some file) true with
  | Ok s => boundaries s !! alice = Some 1 /\ boundaries s !! bob = Some 1 /\ answer (principal_for s (Some file) (lit "eve") Saved) = Some 2
  | Err _ => False
  end.
Proof. vm_compute. done. Qed.

(** A passphrase whose clearing was not written is gone until the restart and back after. *)
Example cleared_passphrase_returns :
  let '(_, s1, d1) := set_passphrase (mkStore ∅) None alice (lit "correct horse") 9 [] Saved in
  let '(r2, s2, d2) := clear_passphrase s1 d1 alice NotSaved in
  is_ok r2 = false /\ authenticate s2 alice (lit "correct horse") 9 = NoCredential
  /\ match open_credentials d2 true with
     | Ok s3 => authenticate s3 alice (lit "correct horse") 9 = Verified /\ authenticate s3 alice (lit "correct house") 9 = Refused
     | Err _ => False
     end.
Proof. vm_compute. done. Qed.

(** Eight bytes that are four characters are too short. *)
Example short_passphrase :
  hash_passphrase [195; 169; 195; 169; 195; 169; 195; 169] 9 [] = Err TooShort /\ is_ok (hash_passphrase (lit "12345678") 9 []) = true.
Proof. vm_compute. done. Qed.
End IdentityExample.
Import IdentityExample.

Lemma boundaries_are_stable_witness :
  let s1 := (principal_for fresh None alice Saved).1.2 in
  let d1 := (principal_for fresh None alice Saved).2 in
  exists ans, identities ans true s1 d1 /\ ans = [mkPrincipal alice 1000]
    /\ exists s', open_registry d1 true = Ok s' /\ boundaries s' = boundaries s1.
Proof.
  intros s1 d1. exists [mkPrincipal alice 1000].
  assert (Hrun : identities [mkPrincipal alice 1000] true s1 d1).
  { pose proof (id_for [] true fresh None alice Saved (Ok (mkPrincipal alice 1000)) s1 d1 id_start ltac:(vm_compute; reflexivity)
                  ltac:(vm_compute; reflexivity)) as Hfor. exact Hfor. }
  split; [exact Hrun|]. split; [reflexivity|]. apply (boundaries_are_stable _ _ _ _ Hrun). reflexivity.
Defined.

Lemma authentication_is_exact_witness :
  let r := set_passphrase (mkStore ∅) None alice (lit "correct horse") 9 [] Saved in
  authenticate r.1.2 alice (lit "correct horse") 9 = Verified /\ open_credentials r.2 true = Ok r.1.2.
Proof.
  intros r.
  assert (Hrun : credentials 9 (<[alice := lit "correct horse"]> ∅) true r.1.2 r.2).
  { pose proof (cr_set 9 ∅ true (mkStore ∅) None alice (lit "correct horse") [] Saved (36 :: lit "correct horse" ++ [9]) (cr_start 9)
                  ltac:(vm_compute; reflexivity) ltac:(vm_compute; reflexivity)) as Hset. exact Hset. }
  destruct (authentication_is_exact _ _ _ _ _ Hrun) as [Hauth Hopen]. split; [|apply Hopen; reflexivity].
  specialize (Hauth alice (lit "correct horse")). rewrite lookup_insert_eq in Hauth. apply Hauth. reflexivity.
Defined.
