(* ===== verification/Coordination.v ===== *)
(** Coordination: [crates/hyperion-coordination/src], [types.rs], [catalog.rs] and
    [engine.rs].

    A session turns the leaves of an intent into tasks, gives those whose
    prerequisites are done to agents, and records what came of it. The plan is locked
    while tasks are given out and while outcomes are recorded, but not in between, when
    the agents work, all at once: what they answered is an argument, and so is what
    other callers did to the session meanwhile. Explanations, intents and the event bus
    are reached through classes without laws. *)
From S2P Require Import Prelude Crypto Capability Authority Wal Storage DebugFmt Events F32 Json Explainability KnowledgeGraph NodeStore Recovery PluginReview Plugins ModelRouter Scheduler AgentRuntime.
Open Scope N_scope.

Abbreviation text := (list N).

(** ** types.rs *)

Inductive TaskStatus : Type := Unassigned | Claimed | InProgress | Blocked | Done | TaskFailed.

#[export] Instance task_status_eq_dec : EqDecision TaskStatus.
Proof. solve_decision. Defined.

Inductive JudgmentClass : Type := Mechanical | TasteOrEmpathy.

#[export] Instance judgment_class_eq_dec : EqDecision JudgmentClass.
Proof. solve_decision. Defined.

Record TaskNode := mkTask {
  task_id : NodeId;
  task_description : text;
  required_capabilities : list text;
  required_trust_tier : TrustTier;
  assigned_agent : option N;
  task_status : TaskStatus;
  dependencies : list NodeId;
  base_version : N;
  attempts : N;
  task_result : option Json;
  extra_context : option text;
  judgment_class : JudgmentClass
}.

Inductive ConflictKind : Type := ConcurrentWrite | ContradictorySubplan.
Inductive ConflictResolution : Type := Pending | AutoMerged | CoordinatorResolved | UserResolved.

#[export] Instance resolution_eq_dec : EqDecision ConflictResolution.
Proof. solve_decision. Defined.

Record ConflictRecord := mkConflict {
  conflict_id : N;
  conflict_key : text;
  claimants : list N;
  conflict_kind : ConflictKind;
  resolution : ConflictResolution
}.

Record Escalation := mkEscalation {
  esc_task : NodeId;
  esc_reason : text
}.

Record SharedPlan := mkPlan {
  plan_session : N;
  root_intent : NodeId;
  root_utterance : text;
  partition_versions : gmap text N;
  tasks : list TaskNode;
  participants : list N;
  conflicts : list ConflictRecord;
  facts : gmap text (N * Json)
}.

Inductive WriteOutcome : Type := Accepted (new_version : N) | Conflict (c : ConflictRecord).

Record AllocationRecord := mkAllocation {
  alloc_task : NodeId;
  agent_instance : N;
  alloc_outcome : TaskStatus;
  alloc_explanation : N
}.

Definition status_text (s : TaskStatus) : text :=
  match s with
  | Unassigned => lit "Unassigned" | Claimed => lit "Claimed" | InProgress => lit "InProgress" | Blocked => lit "Blocked"
  | Done => lit "Done" | TaskFailed => lit "Failed"
  end.

(** ** catalog.rs *)

Definition required_capabilities_for (predicate : text) : list text :=
  if bool_decide (predicate = lit "market_research") then [lit "web.search"]
  else if bool_decide (predicate = lit "business_model") || bool_decide (predicate = lit "branding")
          || bool_decide (predicate = lit "legal_formation") then [lit "document.draft"]
  else [lit "unknown." ++ predicate].

Definition judgment_class_for (predicate : text) : JudgmentClass :=
  if bool_decide (predicate = lit "branding") then TasteOrEmpathy else Mechanical.

Definition default_manifests : list AgentManifest :=
  [mkManifest (lit "research") [lit "web.search"; lit "web.research"] [] System;
   mkManifest (lit "writer") [lit "document.draft"] [] System;
   mkManifest (lit "assistant") [lit "assistant.respond"]
     [lit "cloud.openai"; lit "cloud.anthropic"; lit "cloud.gemini"; lit "cloud.groq"] System].

Definition from_contribution (c : AgentContribution) : AgentManifest :=
  mkManifest (PluginReview.specialization c) (PluginReview.baseline_capabilities c) (PluginReview.requestable_capabilities c) Community.

Definition offers (mf : AgentManifest) (caps : list text) : bool :=
  forallb (fun c => bool_decide (c ∈ baseline_capabilities mf) || bool_decide (c ∈ requestable_capabilities mf)) caps.

(** [contributed] are the agents of the plugins, none without a registry. *)
Definition best_fit_manifest_with_plugins (caps : list text) (contributed : list AgentContribution) : option AgentManifest :=
  List.find (fun mf => offers mf caps) (default_manifests ++ (from_contribution <$> contributed)).

(** ** engine.rs: the plan *)

Definition RETRY_LIMIT : N := 1.
Definition REPEAT_OFFENDER_THRESHOLD : N := 3.

Definition ranking_key (times_suspended : N) (task_count : nat) : bool * nat := (REPEAT_OFFENDER_THRESHOLD <=? times_suspended, task_count).

Definition key_ltb (a b : bool * nat) : bool := (negb a.1 && b.1) || (Bool.eqb a.1 b.1 && (a.2 <? b.2)%nat).

(** [min_by_key]: the first of the least ones. *)
Fixpoint min_by_ranking (key : N * N -> bool * nat) (l : list (N * N)) : option (N * N) :=
  match l with
  | [] => None
  | x :: l => match min_by_ranking key l with
              | None => Some x
              | Some y => if key_ltb (key y) (key x) then Some y else Some x
              end
  end.

(** The breadth-first walk of [task_partition_key]: [neighbors] of one task, those of the
    queue in turn. *)
Definition touches (n : TaskNode) (id : NodeId) : bool := (task_id n =? id) || bool_decide (id ∈ dependencies n).

Fixpoint enqueue (new : list NodeId) (visited : gset NodeId) (queue : list NodeId) : gset NodeId * list NodeId :=
  match new with
  | [] => (visited, queue)
  | x :: new => if bool_decide (x ∈ visited) then enqueue new visited queue else enqueue new ({[x]} ∪ visited) (queue ++ [x])
  end.

Definition around (l : list TaskNode) (id : NodeId) : list NodeId :=
  l ≫= fun n => if touches n id then task_id n :: dependencies n else [].

Fixpoint component_loop (fuel : nat) (l : list TaskNode) (visited : gset NodeId) (queue : list NodeId) : option (gset NodeId) :=
  match fuel, queue with
  | _, [] => Some visited
  | O, _ => None
  | S fuel, id :: queue => let '(visited, queue) := enqueue (around l id) visited queue in component_loop fuel l visited queue
  end.

(** Every id in the plan is queued once at most. *)
Definition component (l : list TaskNode) (id : NodeId) : gset NodeId :=
  default {[id]} (component_loop (2 + length (l ≫= fun n => task_id n :: dependencies n)) l {[id]} [id]).

Definition least_id (s : gset NodeId) (id : NodeId) : NodeId :=
  match elements s with [] => id | x :: l => foldr N.min x l end.

Definition task_partition_key (l : list TaskNode) (id : NodeId) : text := lit "partition-" ++ debug_u64 (least_id (component l id) id).

Definition with_tasks (p : SharedPlan) (l : list TaskNode) : SharedPlan :=
  mkPlan (plan_session p) (root_intent p) (root_utterance p) (partition_versions p) l (participants p) (conflicts p) (facts p).
Definition with_participants (p : SharedPlan) (l : list N) : SharedPlan :=
  mkPlan (plan_session p) (root_intent p) (root_utterance p) (partition_versions p) (tasks p) l (conflicts p) (facts p).
Definition with_versions (p : SharedPlan) (v : gmap text N) : SharedPlan :=
  mkPlan (plan_session p) (root_intent p) (root_utterance p) v (tasks p) (participants p) (conflicts p) (facts p).
Definition with_conflicts (p : SharedPlan) (l : list ConflictRecord) : SharedPlan :=
  mkPlan (plan_session p) (root_intent p) (root_utterance p) (partition_versions p) (tasks p) (participants p) l (facts p).
Definition with_facts (p : SharedPlan) (f : gmap text (N * Json)) : SharedPlan :=
  mkPlan (plan_session p) (root_intent p) (root_utterance p) (partition_versions p) (tasks p) (participants p) (conflicts p) f.

Definition set_status (st : TaskStatus) (n : TaskNode) : TaskNode :=
  mkTask (task_id n) (task_description n) (required_capabilities n) (required_trust_tier n) (assigned_agent n) st (dependencies n)
    (base_version n) (attempts n) (task_result n) (extra_context n) (judgment_class n).
Definition set_agent (a : option N) (n : TaskNode) : TaskNode :=
  mkTask (task_id n) (task_description n) (required_capabilities n) (required_trust_tier n) a (task_status n) (dependencies n)
    (base_version n) (attempts n) (task_result n) (extra_context n) (judgment_class n).
Definition set_result (r : option Json) (n : TaskNode) : TaskNode :=
  mkTask (task_id n) (task_description n) (required_capabilities n) (required_trust_tier n) (assigned_agent n) (task_status n)
    (dependencies n) (base_version n) (attempts n) r (extra_context n) (judgment_class n).
Definition set_attempts (k : N) (n : TaskNode) : TaskNode :=
  mkTask (task_id n) (task_description n) (required_capabilities n) (required_trust_tier n) (assigned_agent n) (task_status n)
    (dependencies n) (base_version n) k (task_result n) (extra_context n) (judgment_class n).
Definition set_context (c : option text) (n : TaskNode) : TaskNode :=
  mkTask (task_id n) (task_description n) (required_capabilities n) (required_trust_tier n) (assigned_agent n) (task_status n)
    (dependencies n) (base_version n) (attempts n) (task_result n) c (judgment_class n).

Definition bump_partition_version (p : SharedPlan) (id : NodeId) : SharedPlan :=
  let key := task_partition_key (tasks p) id in
  with_versions p (<[key := u64_add (default 0 (partition_versions p !! key)) 1]> (partition_versions p)).

Definition has_id (id : NodeId) (n : TaskNode) : bool := task_id n =? id.

Definition is_done (p : SharedPlan) (id : NodeId) : bool :=
  match List.find (has_id id) (tasks p) with Some n => bool_decide (task_status n = Done) | None => true end.

Definition is_ready (p : SharedPlan) (n : TaskNode) : bool :=
  bool_decide (task_status n = Unassigned) && forallb (is_done p) (dependencies n).

Definition is_failed (n : TaskNode) : bool := bool_decide (task_status n = TaskFailed).
Definition waits (n : TaskNode) : bool := bool_decide (task_status n = Unassigned) || bool_decide (task_status n = Claimed).

Definition propagate_blocking (p : SharedPlan) : SharedPlan :=
  let failed : gset NodeId := list_to_set (task_id <$> List.filter is_failed (tasks p)) in
  with_tasks p ((fun n => if waits n && existsb (fun d => bool_decide (d ∈ failed)) (dependencies n) then set_status Blocked n else n) <$> tasks p).

(** [position] *)
Fixpoint index_of (f : TaskNode -> bool) (l : list TaskNode) : option nat :=
  match l with
  | [] => None
  | n :: l => if f n then Some O else S <$> index_of f l
  end.

Definition update_task (p : SharedPlan) (idx : nat) (f : TaskNode -> TaskNode) : SharedPlan := with_tasks p (alter f idx (tasks p)).

(** [eq_ignore_ascii_case] *)
Definition ascii_lower (c : N) : N := if (65 <=? c) && (c <=? 90) then c + 32 else c.
Definition same_name (a b : text) : bool := bool_decide ((ascii_lower <$> a) = (ascii_lower <$> b)).

(** ** What a session reaches *)

(** Agents, as the runtime lets a session see them. *)
Class AgentPool (M A : Type) `{Authority M} := {
  ap_describe : A -> N -> option AgentInstance;
  ap_spawn : Instant -> M -> CapabilityToken -> A -> AgentManifest -> option N -> Result N AgentError * A;
  (** the agents of its plugin registry *)
  ap_contributed : A -> list AgentContribution;
  ap_spawned : forall now m t a mf intent id a',
    ap_spawn now m t a mf intent = (Ok id, a') ->
    exists i, ap_describe a' id = Some i /\ manifest i = mf /\ state i = Bound;
  (** nobody with the right to is refused an agent *)
  ap_spawns : forall now m t a mf intent,
    authorize now m t WRITE = Ok tt -> exists id a', ap_spawn now m t a mf intent = (Ok id, a')
}.

Section agent_pool.
Context {M : Type} `{Authority M} `{HashIter} {Mem X : Type} `{AgentMemory M Mem} `{Explanations M X}.
Context (wall : N).

#[export, refine] Instance runtime_pool : AgentPool M (AgentRuntime (Mem := Mem) (X := X) * list AgentContribution) := {|
  ap_describe a id := describe a.1 id;
  ap_spawn now m t a mf intent := let '(r, s) := spawn now wall m t a.1 mf intent in (r, (s, a.2));
  ap_contributed a := a.2
|}.
Proof.
  - intros now m t [s l] mf intent id a'. simpl. unfold spawn. destruct (AgentRuntime.require now m t WRITE); [|done].
    intros [= <- <-]. eexists. unfold describe. simpl. rewrite lookup_insert_eq. split; [done|]. done.
  - intros now m t [s l] mf intent Hok. simpl. unfold spawn, AgentRuntime.require. rewrite Hok. simpl. by eexists _, _.
Defined.
End agent_pool.

(** A graph in which nodes can be linked. *)
Class ResultGraph (V G Env : Type) {M : Type} `{NodeCreator V G Env (M := M)} := {
  rg_link : Instant -> M -> CapabilityToken -> G -> NodeId -> text -> NodeId -> text -> Env -> G;
  rg_link_nodes : forall now m t g a pred b prov env x, ns_node (rg_link now m t g a pred b prov env) x = ns_node g x
}.

Section graph_links.
Context {V : Type} `{Codec (WalRecord V)} `{Aead} `{HashIter} {M : Type} `{Authority M}.
Context (to_value : Record_ (V := V) -> V).

Lemma commit_edge_nodes {T : Type} now m t g id expected e nonce io announce (result : N -> T) x :
  nodes (index (commit_record to_value now m t g id expected (REdge e) nonce io announce result).1.2) !! x = nodes (index g) !! x.
Proof. unfold commit_record. by destruct (put_object _ _ _ _ _ _ _ _ _) as [[[o v]|err] st]. Qed.

(** A link writes an edge, and no node. *)
#[export, refine] Instance graph_links :
    ResultGraph V (KnowledgeGraph (V := V)) WriteEnv (H0 := graph_node_store to_value) (H1 := graph_node_creator to_value) := {|
  rg_link now m t g a pred b prov env :=
    (link to_value now m t g a pred b f32_one Explicit None prov None (we_wall1 env) (we_wall2 env) (we_nonce env) (we_io env)).1.2
|}.
Proof.
  intros now m t g a pred b prov env x. simpl. unfold link. destruct (KnowledgeGraph.require now m t WRITE); [|done].
  destruct (_ && _); [done|]. destruct (_ ≫= _) as [[id e]|]; [|apply commit_edge_nodes].
  destruct (negb _); [done|]. destruct (edge_tombstone e); [|apply commit_edge_nodes]. destruct (negb _); [done|apply commit_edge_nodes].
Defined.
End graph_links.

(** The explanations. While nothing waits for their events, whoever may write can add to
    them, and what is there stays. *)
Class ExplanationLog (M X : Type) `{Authority M} := {
  xl_next_action : X -> N * X;
  xl_begin : Instant -> M -> CapabilityToken -> X -> N -> N -> N -> text -> list N -> N -> option (Result N ExplainabilityError * X);
  xl_append_step : Instant -> M -> CapabilityToken -> X -> N -> ReasoningStep -> option (Result unit ExplainabilityError * X);
  xl_transition : Instant -> M -> CapabilityToken -> X -> N -> ControlState -> option (Result unit ExplainabilityError * X);
  xl_get : Instant -> M -> CapabilityToken -> X -> N -> Result (option ExplanationRecord) ExplainabilityError;
  xl_quiet : X -> Prop;
  xl_holds : X -> N -> Prop;
  xl_next_keeps : forall x, (xl_quiet x -> xl_quiet (xl_next_action x).2) /\ forall e, xl_holds x e -> xl_holds (xl_next_action x).2 e;
  xl_begins : forall now m t x action intent agent cap span wall,
    authorize now m t WRITE = Ok tt -> xl_quiet x ->
    exists e x', xl_begin now m t x action intent agent cap span wall = Some (Ok e, x')
      /\ xl_quiet x' /\ xl_holds x' e /\ forall e', xl_holds x e' -> xl_holds x' e';
  xl_appends : forall now m t x e step,
    authorize now m t WRITE = Ok tt -> xl_quiet x -> xl_holds x e ->
    exists x', xl_append_step now m t x e step = Some (Ok tt, x') /\ xl_quiet x' /\ forall e', xl_holds x e' -> xl_holds x' e';
  xl_transitions : forall now m t x e st,
    authorize now m t WRITE = Ok tt -> xl_quiet x -> xl_holds x e ->
    exists x', xl_transition now m t x e st = Some (Ok tt, x') /\ xl_quiet x' /\ forall e', xl_holds x e' -> xl_holds x' e'
}.

Section explanation_log.
Context `{Codec (WalRecord Json)} `{Aead} `{HashIter} {M : Type} `{Authority M}.
Context (to_value : Event (V := Json) -> Json) (ambient : Instant -> Ambient).
Hypothesis ambient_instant : forall now, at_instant (ambient now) = now.

Lemma insert_is_Some {T : Type} (l : gmap N T) i x j : is_Some (l !! j) -> is_Some (<[i := x]> l !! j).
Proof. intros [y Hy]. rewrite lookup_insert_is_Some'. right. by exists y. Qed.

(** The store without a bus to publish to. *)
#[export, refine] Instance store_log : ExplanationLog M Explainability.ExplanationStore := {|
  xl_next_action := Explainability.next_action_id;
  xl_begin now := Explainability.begin to_value (ambient now);
  xl_append_step now m t s id step := Explainability.append_step to_value (ambient now) m t s id step [];
  xl_transition now := Explainability.transition to_value (ambient now);
  xl_get := Explainability.get;
  xl_quiet s := Explainability.events s = None;
  xl_holds s id := is_Some (Explainability.records s !! id)
|}.
Proof.
  - done.
  - intros now m t x action intent agent cap span wall Hok Hq. unfold Explainability.begin, Explainability.require, Explainability.publish_record_event.
    rewrite ambient_instant, Hok. simpl. rewrite Hq. simpl. do 2 eexists. split; [done|]. simpl. split; [done|].
    split; [by rewrite lookup_insert_eq|]. intros e'. apply insert_is_Some.
  - intros now m t x e step Hok Hq [r Hr]. unfold Explainability.append_step, Explainability.require, Explainability.with_record_mut, Explainability.publish_record_event.
    rewrite ambient_instant, Hok, Hr. simpl. rewrite Hq. eexists. split; [done|]. split; [done|]. intros e'. apply insert_is_Some.
  - intros now m t x e st Hok Hq [r Hr]. unfold Explainability.transition, Explainability.require, Explainability.with_record_mut, Explainability.publish_record_event.
    rewrite ambient_instant, Hok, Hr. simpl. rewrite Hq. eexists. split; [done|]. split; [done|]. intros e'. apply insert_is_Some.
Defined.
End explanation_log.

Record LeafIntent := mkLeaf {
  leaf_id : NodeId;
  predicate : text;
  raw_utterance : text
}.

Class IntentGraph (M I : Type) := {
  IntentError : Type;
  ig_get_graph : Instant -> M -> CapabilityToken -> I -> NodeId -> Result (list LeafIntent) IntentError;
  ig_depends_on_targets : Instant -> M -> CapabilityToken -> I -> NodeId -> Result (list NodeId) IntentError;
  (** [mark_status] with [Completed], whatever it answers *)
  ig_mark_completed : Instant -> M -> CapabilityToken -> I -> NodeId -> I
}.

(** Publishing under the caller's origin; an error is printed, [None] waits for ever. *)
Class ProgressBus (M B : Type) := {
  pb_publish : Instant -> M -> CapabilityToken -> B -> N -> text -> Json -> option B
}.

(** ** engine.rs: sessions *)

Section session.
Context {V G Env M : Type} `{ResultGraph V G Env (M := M)}.
Context {A X I B AE ME Mem : Type} `{!AgentPool M A} `{!ExplanationLog M X} `{IntentGraph M I} `{ProgressBus M B}.
Context (of_json : Json -> V) (outside : nat -> Env).

Abbreviation world := (Recovery.World (G := G)).
Abbreviation recovery_service := (RecoveryService (V := V) (Mem := Mem)).

Inductive CoordError : Type :=
| CoordUnauthorized
| CoordIntent (e : IntentError)
| CoordAgent (e : AgentError)
| CoordExplainability (e : ExplainabilityError)
| CoordNotFound
| TaskNotFound
| NoFit
| TaskNotInterrupted.

Record PreparedDispatch := mkDispatch {
  d_idx : nat;
  d_task : NodeId;
  d_agent : N;
  d_capability : text;
  d_args : Json;
  d_explanation : N
}.

Record CoordinationSession := mkSession {
  agent_runtime : A;
  graph : world;
  plans : gmap N SharedPlan;
  escalations : gmap N (list Escalation);
  pending_failures : gset (N * NodeId);
  next_session_id : N;
  next_conflict_id : N;
  explanations : X;
  recovery : option recovery_service;
  last_explanation_by_task : gmap NodeId N;
  intent_engine : option I;
  events : option B
}.

Definition new_with_shared_explanations (a : A) (g : world) (x : X) : CoordinationSession :=
  mkSession a g ∅ ∅ ∅ 1 1 x None ∅ None None.

Definition with_agent_runtime (s : CoordinationSession) (a : A) :=
  mkSession a (graph s) (plans s) (escalations s) (pending_failures s) (next_session_id s) (next_conflict_id s) (explanations s)
    (recovery s) (last_explanation_by_task s) (intent_engine s) (events s).
Definition with_graph (s : CoordinationSession) (g : world) :=
  mkSession (agent_runtime s) g (plans s) (escalations s) (pending_failures s) (next_session_id s) (next_conflict_id s) (explanations s)
    (recovery s) (last_explanation_by_task s) (intent_engine s) (events s).
Definition with_plans (s : CoordinationSession) (l : gmap N SharedPlan) :=
  mkSession (agent_runtime s) (graph s) l (escalations s) (pending_failures s) (next_session_id s) (next_conflict_id s) (explanations s)
    (recovery s) (last_explanation_by_task s) (intent_engine s) (events s).
Definition with_escalations (s : CoordinationSession) (l : gmap N (list Escalation)) :=
  mkSession (agent_runtime s) (graph s) (plans s) l (pending_failures s) (next_session_id s) (next_conflict_id s) (explanations s)
    (recovery s) (last_explanation_by_task s) (intent_engine s) (events s).
Definition with_failures (s : CoordinationSession) (l : gset (N * NodeId)) :=
  mkSession (agent_runtime s) (graph s) (plans s) (escalations s) l (next_session_id s) (next_conflict_id s) (explanations s)
    (recovery s) (last_explanation_by_task s) (intent_engine s) (events s).
Definition with_conflict_id (s : CoordinationSession) (n : N) :=
  mkSession (agent_runtime s) (graph s) (plans s) (escalations s) (pending_failures s) (next_session_id s) n (explanations s)
    (recovery s) (last_explanation_by_task s) (intent_engine s) (events s).
Definition with_explanations (s : CoordinationSession) (x : X) :=
  mkSession (agent_runtime s) (graph s) (plans s) (escalations s) (pending_failures s) (next_session_id s) (next_conflict_id s) x
    (recovery s) (last_explanation_by_task s) (intent_engine s) (events s).
Definition with_recovery (s : CoordinationSession) (r : option recovery_service) :=
  mkSession (agent_runtime s) (graph s) (plans s) (escalations s) (pending_failures s) (next_session_id s) (next_conflict_id s)
    (explanations s) r (last_explanation_by_task s) (intent_engine s) (events s).
Definition with_last (s : CoordinationSession) (l : gmap NodeId N) :=
  mkSession (agent_runtime s) (graph s) (plans s) (escalations s) (pending_failures s) (next_session_id s) (next_conflict_id s)
    (explanations s) (recovery s) l (intent_engine s) (events s).
Definition with_intent_engine (s : CoordinationSession) (i : option I) :=
  mkSession (agent_runtime s) (graph s) (plans s) (escalations s) (pending_failures s) (next_session_id s) (next_conflict_id s)
    (explanations s) (recovery s) (last_explanation_by_task s) i (events s).
Definition with_events (s : CoordinationSession) (b : option B) :=
  mkSession (agent_runtime s) (graph s) (plans s) (escalations s) (pending_failures s) (next_session_id s) (next_conflict_id s)
    (explanations s) (recovery s) (last_explanation_by_task s) (intent_engine s) b.

(** *** Operations on a session *)

(** An operation may fail; [None] if it never returns (it waits for the event bus). *)
Definition SessionM (T : Type) : Type := CoordinationSession -> option (Result T CoordError * CoordinationSession).

Definition fail {T : Type} (e : CoordError) : SessionM T := fun s => Some (Err e, s).
#[local] Instance session_ret : MRet SessionM := fun T a s => Some (Ok a, s).
#[local] Instance session_bind : MBind SessionM := fun T U k e s =>
  match e s with
  | Some (Ok a, s) => k a s
  | Some (Err f, s) => Some (Err f, s)
  | None => None
  end.

Definition reads {T : Type} (f : CoordinationSession -> T) : SessionM T := fun s => Some (Ok (f s), s).
Definition updates (f : CoordinationSession -> CoordinationSession) : SessionM unit := fun s => Some (Ok tt, f s).
Definition of_result {T : Type} (r : Result T CoordError) : SessionM T := fun s => Some (r, s).

Definition on_explanations {T : Type} (f : X -> option (Result T ExplainabilityError * X)) : SessionM T := fun s =>
  '(r, x) ← f (explanations s); Some (map_err CoordExplainability r, with_explanations s x).

Definition require (now : Instant) (m : M) (t : CapabilityToken) (r : RightsMask) : SessionM unit :=
  of_result (map_err (fun _ => CoordUnauthorized) (authorize now m t r)).

(** The plan of a session, which is locked while an operation works on it. *)
Definition plan (sid : N) : SessionM SharedPlan := fun s => Some (ok_or (plans s !! sid) CoordNotFound, s).
Definition set_plan (sid : N) (p : SharedPlan) : SessionM unit := updates (fun s => with_plans s (<[sid := p]> (plans s))).

Definition publish (now : Instant) (m : M) (t : CapabilityToken) (sid : N) (schema : text) (payload : Json) : SessionM unit := fun s =>
  match events s with
  | None => Some (Ok tt, s)
  | Some b => b ← pb_publish now m t b sid schema payload; Some (Ok tt, with_events s (Some b))
  end.

Definition publish_progress (now : Instant) (m : M) (t : CapabilityToken) (sid : N) (id : NodeId) (st : TaskStatus) : SessionM unit :=
  publish now m t sid (lit "coordination.task_progress.v1")
    (JObject [(lit "session_id", JNumber sid); (lit "status", JString (status_text st)); (lit "task_id", JNumber id)]).

Definition publish_escalation (now : Instant) (m : M) (t : CapabilityToken) (sid : N) (e : Escalation) : SessionM unit :=
  publish now m t sid (lit "coordination.escalation.v1")
    (JObject [(lit "reason", JString (esc_reason e)); (lit "session_id", JNumber sid); (lit "task_id", JNumber (esc_task e))]).

Definition escalate (now : Instant) (m : M) (t : CapabilityToken) (sid : N) (e : Escalation) : SessionM unit :=
  publish_escalation now m t sid e;;
  updates (fun s => with_escalations s (<[sid := default [] (escalations s !! sid) ++ [e]]> (escalations s))).

(** *** Sessions *)

Fixpoint task_nodes (now : Instant) (m : M) (t : CapabilityToken) (ie : I) (leaves : list LeafIntent) : Result (list TaskNode) CoordError :=
  match leaves with
  | [] => Ok []
  | leaf :: leaves =>
      match ig_depends_on_targets now m t ie (leaf_id leaf) with
      | Err e => Err (CoordIntent e)
      | Ok deps =>
          match task_nodes now m t ie leaves with
          | Err e => Err e
          | Ok l => Ok (mkTask (leaf_id leaf) (predicate leaf) (required_capabilities_for (predicate leaf)) Community None Unassigned
                          deps 0 0 None None (judgment_class_for (predicate leaf)) :: l)
          end
      end
  end.

Definition create_session (now : Instant) (m : M) (t : CapabilityToken) (ie : I) (root : NodeId) : SessionM N :=
  require now m t WRITE;;
  intents ← of_result (map_err CoordIntent (ig_get_graph now m t ie root));
  let utterance := from_option raw_utterance [] (List.find (fun i => leaf_id i =? root) intents) in
  nodes ← of_result (task_nodes now m t ie (List.filter (fun i => negb (leaf_id i =? root)) intents));
  sid ← reads next_session_id;
  updates (fun s =>
    mkSession (agent_runtime s) (graph s) (<[sid := mkPlan sid root utterance ∅ nodes [] [] ∅]> (plans s)) (<[sid := []]> (escalations s))
      (pending_failures s) (u64_add sid 1) (next_conflict_id s) (explanations s) (recovery s) (last_explanation_by_task s)
      (intent_engine s) (events s));;
  mret sid.

Definition explanation (now : Instant) (m : M) (t : CapabilityToken) (id : N) : SessionM (option ExplanationRecord) := fun s =>
  Some (map_err CoordExplainability (xl_get now m t (explanations s) id), s).

Definition ready_task_descriptions (now : Instant) (m : M) (t : CapabilityToken) (sid : N) : SessionM (list text) :=
  require now m t WRITE;;
  p ← plan sid;
  let p := propagate_blocking p in
  set_plan sid p;;
  mret (task_description <$> List.filter (is_ready p) (tasks p)).

(** *** Giving tasks to agents *)

Definition eligible (a : A) (caps : list text) (tier : TrustTier) (id : N) : option (N * N) :=
  i ← ap_describe a id;
  let alive := match state i with Terminated | Suspended | Failed => false | _ => true end in
  let trusted := match trust_tier (manifest i), tier with
                 | System, _ | Verified, (Verified | Community) | Community, Community => true
                 | _, _ => false
                 end in
  if alive && offers (manifest i) caps && trusted then Some (id, times_suspended (quota i)) else None.

Definition load (p : SharedPlan) (id : N) : nat :=
  length (List.filter (fun n => bool_decide (assigned_agent n = Some id)
                                && (bool_decide (task_status n = Claimed) || bool_decide (task_status n = InProgress))) (tasks p)).

Definition candidate (a : A) (p : SharedPlan) (n : TaskNode) : option N :=
  fst <$> min_by_ranking (fun '(id, times) => ranking_key times (load p id))
            (omap (eligible a (required_capabilities n) (required_trust_tier n)) (participants p)).

(** A participant, or a new one. *)
Definition choose_agent (now : Instant) (m : M) (t : CapabilityToken) (sid : N) (p : SharedPlan) (n : TaskNode) : SessionM N := fun s =>
  match candidate (agent_runtime s) p n with
  | Some id => Some (Ok id, s)
  | None =>
      match best_fit_manifest_with_plugins (required_capabilities n) (ap_contributed (agent_runtime s)) with
      | None => Some (Err NoFit, s)
      | Some mf =>
          let '(r, a) := ap_spawn now m t (agent_runtime s) mf (Some (task_id n)) in
          let s := with_agent_runtime s a in
          match r with
          | Err e => Some (Err (CoordAgent e), s)
          | Ok id => Some (Ok id, with_plans s (<[sid := with_participants p (participants p ++ [id])]> (plans s)))
          end
      end
  end.

Definition dispatch_args (n : TaskNode) (utterance : text) (force_fail : bool) : Json :=
  JObject ((match extra_context n with Some c => [(lit "extra_context", JString c)] | None => [] end)
           ++ [(lit "force_fail", JBool force_fail); (lit "goal", JString utterance); (lit "task", JString (task_description n))]).

Definition allocated_step (agent : N) (n : TaskNode) (cap : text) : ReasoningStep :=
  mkStep 0 (lit "allocated agent " ++ debug_u64 agent ++ lit " to task '" ++ task_description n ++ lit "'") (Some cap) [task_id n] None.

Definition taste_step (n : TaskNode) (cap : text) : ReasoningStep :=
  mkStep 1 (lit "'" ++ task_description n ++ lit "' is a matter of taste or empathy, not just reversibility -- consider more direct human involvement regardless of how easily it could be undone")
    (Some cap) [task_id n] None.

(** One turn of the loop of [prepare_dispatches]; [wall] is the time of the wall clock. *)
Definition prepare_one (now : Instant) (wall : N) (m : M) (t : CapabilityToken) (sid : N) (id : NodeId) : SessionM PreparedDispatch := fun s =>
  match plans s !! sid with
  | None => Some (Err CoordNotFound, s)
  | Some p =>
      idx ← index_of (has_id id) (tasks p);
      n ← tasks p !! idx;
      (agent ← choose_agent now m t sid p n;
       p ← plan sid;
       set_plan sid (update_task p idx (fun n => set_status InProgress (set_agent (Some agent) n)));;
       force_fail ← reads (fun s => bool_decide ((sid, id) ∈ pending_failures s));
       updates (fun s => with_failures s (pending_failures s ∖ {[(sid, id)]}));;
       let cap := default [] (head (required_capabilities n)) in
       action ← (fun s => let '(a, x) := xl_next_action (explanations s) in Some (Ok a, with_explanations s x));
       e ← on_explanations (fun x => xl_begin now m t x action (root_intent p) agent cap [] wall);
       on_explanations (fun x => xl_append_step now m t x e (allocated_step agent n cap));;
       (if bool_decide (judgment_class n = TasteOrEmpathy)
        then on_explanations (fun x => xl_append_step now m t x e (taste_step n cap)) else mret tt);;
       on_explanations (fun x => xl_transition now m t x e Explainability.Executing);;
       mret (mkDispatch idx id agent cap (dispatch_args n (root_utterance p) force_fail) e)) s
  end.

Fixpoint prepare_each (now : Instant) (wall : N) (m : M) (t : CapabilityToken) (sid : N) (ids : list NodeId) :
    SessionM (list PreparedDispatch) :=
  match ids with
  | [] => mret []
  | id :: ids => d ← prepare_one now wall m t sid id; ds ← prepare_each now wall m t sid ids; mret (d :: ds)
  end.

Definition prepare_dispatches (now : Instant) (wall : N) (m : M) (t : CapabilityToken) (sid : N) : SessionM (list PreparedDispatch) :=
  p ← plan sid;
  let p := propagate_blocking p in
  set_plan sid p;;
  prepare_each now wall m t sid (task_id <$> List.filter (is_ready p) (tasks p)).

(** *** Recording what came of it *)

Definition handle_task_failure (now : Instant) (m : M) (t : CapabilityToken) (sid : N) (idx : nat) : SessionM unit := fun s =>
  p ← plans s !! sid;
  n ← tasks p !! idx;
  let k := attempts n + 1 in
  if k <=? RETRY_LIMIT
  then set_plan sid (update_task p idx (fun n => set_agent None (set_status Unassigned (set_attempts k n)))) s
  else
    (set_plan sid (update_task p idx (fun n => set_status TaskFailed (set_attempts k n)));;
     escalate now m t sid
       (mkEscalation (task_id n)
          (lit "'" ++ task_description n ++ lit "' failed after " ++ debug_u64 k ++ lit " attempt(s) and needs a decision"))) s.

(** The node of a result, its edge, and the journal of the recovery service: whatever
    goes wrong with them is ignored. *)
Definition record_result (now : Instant) (wall : N) (m : M) (t : CapabilityToken) (sid : N) (root id : NodeId) (value : Json)
    (s : CoordinationSession) : CoordinationSession :=
  let w := graph s in
  let '(r, g) := nc_create now m t (store w) (lit "task_result") None (of_json value) (outside (tick w)) in
  let w := Recovery.mkWorld g (S (tick w)) in
  match r with
  | Err _ => with_graph s w
  | Ok node =>
      let w := Recovery.mkWorld (rg_link now m t (store w) id (lit "produced") node (lit "capability_dispatch") (outside (tick w))) (S (tick w)) in
      let s := with_graph s w in
      match recovery s with
      | None => s
      | Some rs =>
          match recovery_point_create (AgentError := AE) (MemoryError := ME) now m t rs w Automatic [] wall with
          | (Err _, rs) => with_recovery s (Some rs)
          | (Ok point, rs) =>
              let '(a, rs) := record_action_started_with_scope rs point [node] None (Some sid) (Some root)
                                (lit "task dispatch produced a real result") wall in
              with_recovery s (Some (record_action_committed (AgentError := AE) (MemoryError := ME) rs a).2)
          end
      end
  end.

Definition bump (sid : N) (id : NodeId) : SessionM unit := fun s =>
  p ← plans s !! sid; set_plan sid (bump_partition_version p id) s.

Definition set_task (sid : N) (idx : nat) (f : TaskNode -> TaskNode) : SessionM unit := fun s =>
  p ← plans s !! sid; _ ← tasks p !! idx; set_plan sid (update_task p idx f) s.

Definition status_at (sid : N) (idx : nat) : SessionM TaskStatus := fun s =>
  p ← plans s !! sid; n ← tasks p !! idx; Some (Ok (task_status n), s).

Definition apply_outcome (now : Instant) (wall : N) (m : M) (t : CapabilityToken) (sid : N) (root : NodeId) (d : PreparedDispatch)
    (o : InvokeOutcome) : SessionM (ControlState * TaskStatus) :=
  match o with
  | InvokeResult value =>
      set_task sid (d_idx d) (fun n => set_result (Some value) (set_status Done n));;
      updates (record_result now wall m t sid root (d_task d) value);;
      bump sid (d_task d);;
      updates (fun s => with_intent_engine s ((fun i => ig_mark_completed now m t i (d_task d)) <$> intent_engine s));;
      publish_progress now m t sid (d_task d) Done;;
      mret (Explainability.Completed, Done)
  | InvokeFailed _ =>
      handle_task_failure now m t sid (d_idx d);;
      bump sid (d_task d);;
      st ← status_at sid (d_idx d);
      mret (RolledBack, st)
  | InvokeDenied => set_task sid (d_idx d) (set_status Claimed);; mret (RolledBack, Claimed)
  | InvokePendingConsent | InvokeQuotaExceeded => set_task sid (d_idx d) (set_status Claimed);; mret (Interrupted, Claimed)
  end.

Definition apply_one (now : Instant) (wall : N) (m : M) (t : CapabilityToken) (sid : N) (root : NodeId) (d : PreparedDispatch)
    (r : Result InvokeOutcome AgentError) : SessionM AllocationRecord :=
  o ← of_result (map_err CoordAgent r);
  '(control, outcome) ← apply_outcome now wall m t sid root d o;
  on_explanations (fun x => xl_transition now m t x (d_explanation d) control);;
  updates (fun s => with_last s (<[d_task d := d_explanation d]> (last_explanation_by_task s)));;
  mret (mkAllocation (d_task d) (d_agent d) outcome (d_explanation d)).

Fixpoint apply_each (now : Instant) (wall : N) (m : M) (t : CapabilityToken) (sid : N) (root : NodeId)
    (l : list (PreparedDispatch * Result InvokeOutcome AgentError)) : SessionM (list AllocationRecord) :=
  match l with
  | [] => mret []
  | (d, r) :: l => a ← apply_one now wall m t sid root d r; rest ← apply_each now wall m t sid root l; mret (a :: rest)
  end.

Definition apply_dispatch_results (now : Instant) (wall : N) (m : M) (t : CapabilityToken) (sid : N)
    (l : list (PreparedDispatch * Result InvokeOutcome AgentError)) : SessionM (list AllocationRecord) :=
  p ← plan sid;
  records ← apply_each now wall m t sid (root_intent p) l;
  p ← plan sid;
  set_plan sid (propagate_blocking p);;
  mret records.

(** [work] is what the threads do to the runtime and what each of them is answered;
    [others] what the rest of the program does to the session in the meantime. *)
Definition allocate (now1 now2 : Instant) (wall1 wall2 : N) (m : M) (t : CapabilityToken) (sid : N)
    (work : list PreparedDispatch -> A -> list (Result InvokeOutcome AgentError) * A) (others : CoordinationSession -> CoordinationSession) :
    SessionM (list AllocationRecord) :=
  require now1 m t WRITE;;
  ds ← prepare_dispatches now1 wall1 m t sid;
  match ds with
  | [] => mret []
  | _ =>
      outcomes ← (fun s => let '(rs, a) := work ds (agent_runtime s) in Some (Ok rs, others (with_agent_runtime s a)));
      apply_dispatch_results now2 wall2 m t sid (combine ds outcomes)
  end.

Definition inject_failure (now : Instant) (m : M) (t : CapabilityToken) (sid : N) (id : NodeId) : SessionM unit :=
  require now m t WRITE;;
  updates (fun s => with_failures s ({[(sid, id)]} ∪ pending_failures s)).

(** *** Steering *)

Definition named (name : text) (n : TaskNode) : bool := same_name (task_description n) name.

Definition reset (context : text) (n : TaskNode) : TaskNode :=
  set_context (Some context) (set_attempts 0 (set_result None (set_agent None (set_status Unassigned n)))).

Definition depends_on (id : NodeId) (n : TaskNode) : bool := bool_decide (id ∈ dependencies n).

Definition unblock (id : NodeId) (n : TaskNode) : TaskNode :=
  if bool_decide (task_status n = Blocked) && depends_on id n then set_status Unassigned n else n.

Definition amend_task (now : Instant) (m : M) (t : CapabilityToken) (sid : N) (name context : text) : SessionM (list text) :=
  require now m t WRITE;;
  p ← plan sid;
  idx ← of_result (ok_or (index_of (named name) (tasks p)) TaskNotFound);
  id ← (fun s => n ← tasks p !! idx; Some (Ok (task_id n), s));
  set_plan sid (bump_partition_version (update_task p idx (reset context)) id);;
  last ← reads (fun s => last_explanation_by_task s !! id);
  match last with
  | Some e => on_explanations (fun x => xl_transition now m t x e Modified)
  | None => mret tt
  end;;
  p ← plan sid;
  let p := with_tasks p (unblock id <$> tasks p) in
  set_plan sid p;;
  mret (task_description <$> List.filter (fun n => bool_decide (task_status n = Done) && depends_on id n) (tasks p)).

Definition resume_task (now : Instant) (m : M) (t : CapabilityToken) (sid : N) (name : text) : SessionM unit :=
  require now m t WRITE;;
  p ← plan sid;
  idx ← of_result (ok_or (index_of (named name) (tasks p)) TaskNotFound);
  n ← (fun s => n ← tasks p !! idx; Some (Ok n, s));
  last ← reads (fun s => last_explanation_by_task s !! task_id n);
  interrupted ← reads (fun s => is_some_and (e ← last; match xl_get now m t (explanations s) e with Ok o => o | Err _ => None end)
                                  (fun r => bool_decide (control_state r = Interrupted)));
  match last with
  | Some e =>
      if bool_decide (task_status n = Claimed) && interrupted
      then set_plan sid (update_task p idx (set_status Unassigned));;
           on_explanations (fun x => xl_transition now m t x e Explainability.Executing)
      else fail TaskNotInterrupted
  | None => fail TaskNotInterrupted
  end.

(** *** The shared facts *)

Definition fact_version (p : SharedPlan) (key : text) : N := from_option fst 0 (facts p !! key).

Definition propose_write (now : Instant) (m : M) (t : CapabilityToken) (sid agent : N) (key : text) (base : N) (value : Json) :
    SessionM WriteOutcome :=
  require now m t WRITE;;
  p ← plan sid;
  let current := fact_version p key in
  if base =? current then
    let v := u64_add current 1 in
    set_plan sid (with_facts p (<[key := (v, value)]> (facts p)));;
    mret (Accepted v)
  else
    id ← reads next_conflict_id;
    updates (fun s => with_conflict_id s (u64_add id 1));;
    let c := mkConflict id key [agent] ConcurrentWrite Pending in
    set_plan sid (with_conflicts p (conflicts p ++ [c]));;
    mret (Conflict c).

(** [iter().position] of a predicate in the order of priority. *)
Fixpoint rank (order : list text) (p : text) : option nat :=
  match order with
  | [] => None
  | x :: order => if bool_decide (x = p) then Some O else S <$> rank order p
  end.

Definition requeue (l : list TaskNode) (id : NodeId) : list TaskNode :=
  match index_of (has_id id) l with Some i => alter (fun n => set_agent None (set_status Unassigned n)) i l | None => l end.

Definition arbitrate_contradiction (now : Instant) (m : M) (t : CapabilityToken) (sid : N) (a b : NodeId) (order : list text) :
    SessionM ConflictRecord :=
  require now m t WRITE;;
  p ← plan sid;
  pa ← of_result (ok_or (task_description <$> List.find (has_id a) (tasks p)) TaskNotFound);
  pb ← of_result (ok_or (task_description <$> List.find (has_id b) (tasks p)) TaskNotFound);
  id ← reads next_conflict_id;
  updates (fun s => with_conflict_id s (u64_add id 1));;
  let '(res, loser) :=
    match rank order pa, rank order pb with
    | Some ra, Some rb => if bool_decide (ra <> rb) then (CoordinatorResolved, Some (if (ra <? rb)%nat then b else a)) else (Pending, None)
    | _, _ => (Pending, None)
    end in
  let l := match loser with Some x => requeue (tasks p) x | None => tasks p end in
  let c := mkConflict id (pa ++ lit "<->" ++ pb) (omap (fun x => n ← List.find (has_id x) l; assigned_agent n) [a; b]) ContradictorySubplan res in
  set_plan sid (with_conflicts (with_tasks p l) (conflicts p ++ [c]));;
  (if bool_decide (res = Pending)
   then escalate now m t sid
          (mkEscalation a (lit "'" ++ pa ++ lit "' and '" ++ pb ++ lit "' disagree and neither is prioritized " ++ [226; 128; 148] ++ lit " needs a decision"))
   else mret tt);;
  mret c.

(** *** Reading *)

Definition progress (now : Instant) (m : M) (t : CapabilityToken) (sid : N) : SessionM f32 :=
  require now m t READ;;
  p ← plan sid;
  match tasks p with
  | [] => mret f32_one
  | l => mret (f32_div (f32_of_N (N.of_nat (length (List.filter (fun n => bool_decide (task_status n = Done)) l)))) (f32_of_N (N.of_nat (length l))))
  end.

Definition get_escalations (now : Instant) (m : M) (t : CapabilityToken) (sid : N) : SessionM (list Escalation) :=
  require now m t READ;; reads (fun s => default [] (escalations s !! sid)).

Definition get_plan (now : Instant) (m : M) (t : CapabilityToken) (sid : N) : SessionM SharedPlan :=
  require now m t READ;; plan sid.

Definition partition_version (now : Instant) (m : M) (t : CapabilityToken) (sid : N) (id : NodeId) : SessionM N :=
  require now m t READ;;
  p ← plan sid;
  mret (default 0 (partition_versions p !! task_partition_key (tasks p) id)).
End session.

(** ** Partitions *)

Section partitions.
Context (l : list TaskNode).

(** Two ids one task speaks of. *)
Definition ids_of_task (n : TaskNode) : list NodeId := task_id n :: dependencies n.
Definition linked (a b : NodeId) : Prop := exists n, n ∈ l /\ a ∈ ids_of_task n /\ b ∈ ids_of_task n.
Definition connected : NodeId -> NodeId -> Prop := rtc linked.

Lemma linked_sym a b : linked a b -> linked b a.
Proof. intros (n & Hn & Ha & Hb). by exists n. Qed.

Lemma connected_sym a b : connected a b -> connected b a.
Proof. induction 1 as [|a b c Hab _ IH]; [apply rtc_refl|]. eapply rtc_r; [exact IH|by apply linked_sym]. Qed.

Lemma elem_of_around a b : b ∈ around l a <-> linked a b.
Proof.
  unfold around, linked. rewrite list_elem_of_bind. split.
  - intros (n & Hb & Hn). exists n. split; [done|]. unfold touches in Hb. destruct (_ || _) eqn:Ht; [|by apply elem_of_nil in Hb].
    split; [|done]. unfold ids_of_task. rewrite elem_of_cons. apply orb_true_iff in Ht as [->%N.eqb_eq|Ht%bool_decide_eq_true]; [by left|by right].
  - intros (n & Hn & Ha & Hb). exists n. split; [|done]. unfold touches. unfold ids_of_task in Ha. rewrite elem_of_cons in Ha.
    destruct Ha as [->|Ha]; [by rewrite N.eqb_refl|]. by rewrite (bool_decide_true _ Ha), orb_true_r.
Qed.

Lemma enqueue_spec new visited queue visited' queue' :
  enqueue new visited queue = (visited', queue') ->
  (forall x, x ∈ visited' <-> x ∈ visited \/ x ∈ new)
  /\ exists q, queue' = queue ++ q /\ NoDup q /\ forall x, x ∈ q <-> x ∈ new /\ x ∉ visited.
Proof.
  revert visited queue. induction new as [|y new IH]; simpl; intros visited queue.
  - intros [= <- <-]. split; [intros x; rewrite elem_of_nil; tauto|]. exists []. rewrite app_nil_r. split; [done|].
    split; [constructor|]. intros x. rewrite elem_of_nil. tauto.
  - case_bool_decide as Hy; intros (Hv & q & -> & Hnd & Hq)%IH.
    + split; [|exists q; split; [done|]; split; [done|]]; intros x; rewrite ?Hv, ?Hq, elem_of_cons; destruct (decide (x = y)) as [->|]; tauto.
    + split; [intros x; rewrite Hv, elem_of_union, elem_of_singleton, elem_of_cons; tauto|].
      exists (y :: q). rewrite <- app_assoc. split; [done|]. split.
      * constructor; [|done]. rewrite Hq, elem_of_union, elem_of_singleton. tauto.
      * intros x. rewrite !elem_of_cons, Hq, elem_of_union, elem_of_singleton. destruct (decide (x = y)) as [->|]; tauto.
Qed.

Lemma closed_connected (v : gset NodeId) id x :
  (forall a b, a ∈ v -> linked a b -> b ∈ v) -> id ∈ v -> connected id x -> x ∈ v.
Proof. intros Hc Hid. induction 1 as [|a b c Hab _ IH]; [done|]. apply IH. by apply (Hc a). Qed.

(** The loop walks all that is connected, with fuel for what it has not seen. *)
Lemma component_loop_spec (U : gset NodeId) fuel id visited queue :
  (forall x y, x ∈ U -> linked x y -> y ∈ U) -> visited ⊆ U ->
  (size (U ∖ visited) + length queue <= fuel)%nat ->
  id ∈ visited -> (forall x, x ∈ visited -> connected id x) -> (forall x, x ∈ queue -> x ∈ visited) ->
  (forall x, x ∈ visited -> x ∈ queue \/ forall y, linked x y -> y ∈ visited) ->
  exists c, component_loop fuel l visited queue = Some c /\ forall x, x ∈ c <-> connected id x.
Proof.
  intros HU. revert visited queue. induction fuel as [|fuel IH]; intros visited queue Hsub Hfuel Hid Hconn Hq Hclosed.
  - destruct queue as [|a queue]; [|simpl in Hfuel; lia]. exists visited. split; [done|]. intros x. split; [apply Hconn|].
    apply closed_connected; [|done]. intros a b Ha. destruct (Hclosed a Ha) as [?%elem_of_nil|Hall]; [done|apply Hall].
  - destruct queue as [|a queue].
    { exists visited. split; [done|]. intros x. split; [apply Hconn|].
      apply closed_connected; [|done]. intros a b Ha. destruct (Hclosed a Ha) as [?%elem_of_nil|Hall]; [done|apply Hall]. }
    simpl. destruct (enqueue (around l a) visited queue) as [v' q'] eqn:He. apply enqueue_spec in He as (Hv & q & -> & Hnd & Hqn).
    assert (Ha : a ∈ visited) by (apply Hq; left).
    assert (Hv'U : v' ⊆ U).
    { intros x [Hx|Hx]%Hv; [by apply Hsub|]. apply elem_of_around in Hx. apply (HU a); [by apply Hsub|done]. }
    apply IH; try done.
    + assert (Hsize : size (U ∖ visited) = (size (U ∖ v') + length q)%nat); [|rewrite length_app; simpl in Hfuel; lia].
      rewrite <- (size_list_to_set (C := gset NodeId) q Hnd), <- size_union by set_solver. f_equal. apply set_eq. intros x. set_unfold.
      rewrite Hv, Hqn. specialize (Hv x). destruct (decide (x ∈ visited)); destruct (decide (x ∈ around l a)); set_solver.
    + apply Hv. by left.
    + intros x [Hx|Hx]%Hv; [by apply Hconn|]. apply elem_of_around in Hx. eapply rtc_r; [by apply Hconn|done].
    + intros x. rewrite elem_of_app, Hv. intros [Hx|Hx]; [left; apply Hq; by right|right; by apply Hqn].
    + intros x [Hx|Hx]%Hv; rewrite elem_of_app.
      * destruct (Hclosed x Hx) as [[->|Hin]%elem_of_cons|Hall]; [|by left; left|right; intros y Hy; apply Hv; left; by apply Hall].
        right. intros y Hy. apply Hv. right. by apply elem_of_around.
      * destruct (decide (x ∈ visited)) as [Hin|Hnin]; [|left; right; by apply Hqn].
        destruct (Hclosed x Hin) as [[->|Hin']%elem_of_cons|Hall]; [|by left; left|right; intros y Hy; apply Hv; left; by apply Hall].
        right. intros y Hy. apply Hv. right. by apply elem_of_around.
Qed.

(** Every id the tasks speak of. *)
Definition all_ids : list NodeId := l ≫= ids_of_task.

Lemma size_of_list (k : list NodeId) : (size (list_to_set k : gset NodeId) <= length k)%nat.
Proof.
  induction k as [|y k IH]; [done|]. cbn [list_to_set length]. rewrite size_union_alt, size_singleton. apply le_n_S.
  etrans; [|exact IH]. apply subseteq_size. set_solver.
Qed.

Lemma elem_of_component id x : x ∈ component l id <-> connected id x.
Proof.
  unfold component. set (U := ({[id]} ∪ list_to_set all_ids : gset NodeId)).
  destruct (component_loop_spec U (2 + length (l ≫= fun n => task_id n :: dependencies n)) id {[id]} [id]) as (c & -> & Hc).
  - intros a b _ (n & Hn & _ & Hb). apply elem_of_union. right. apply elem_of_list_to_set, list_elem_of_bind. by exists n.
  - set_solver.
  - assert (Hs : (size (U ∖ {[id]}) <= length all_ids)%nat); [|cbn [length]; fold all_ids; rewrite Nat.add_comm; cbn [Nat.add]; apply le_S; by apply le_n_S].
    etrans; [apply (subseteq_size _ (list_to_set all_ids : gset NodeId)); set_solver|].
    apply size_of_list.
  - set_solver.
  - intros y ->%elem_of_singleton. apply rtc_refl.
  - intros y ->%list_elem_of_singleton. set_solver.
  - intros y ->%elem_of_singleton. left. left.
  - apply Hc.
Qed.

Lemma least_id_spec (s : gset NodeId) d : d ∈ s -> least_id s d ∈ s /\ forall x, x ∈ s -> least_id s d <= x.
Proof.
  intros Hd. unfold least_id. destruct (elements s) as [|x k] eqn:He; [by apply elem_of_elements in Hd; rewrite He in Hd; apply elem_of_nil in Hd|].
  assert (Hin : forall y, y ∈ s <-> y ∈ x :: k) by (intros y; by rewrite <- He, elem_of_elements).
  assert (Hm : foldr N.min x k ∈ x :: k /\ forall y, y ∈ x :: k -> foldr N.min x k <= y).
  { clear. induction k as [|z k [IH1 IH2]]; simpl; [split; [left|intros y ->%list_elem_of_singleton; lia]|]. split.
    - destruct (N.min_spec z (foldr N.min x k)) as [[_ ->]|[_ ->]]; [right; left|]. apply elem_of_cons in IH1 as [->|IH1]; [left|right; by right].
    - intros y [->|[->|Hy]%elem_of_cons]%elem_of_cons; [specialize (IH2 x ltac:(left)); lia|lia|].
      specialize (IH2 y ltac:(by right)). lia. }
  destruct Hm as [H1 H2]. split; [by apply Hin|]. intros y Hy%Hin. by apply H2.
Qed.

(** C25. The partition of a task is what is connected to it. The walk ends and finds
    exactly the ids connected by dependencies, in either direction and over any number of
    steps; so two tasks have the same label exactly if they are connected, and the label
    names the least id among them. *)
Theorem partitions_are_components a b :
  (forall x, x ∈ component l a <-> connected a x)
  /\ (task_partition_key l a = task_partition_key l b <-> connected a b)
  /\ exists x, task_partition_key l a = lit "partition-" ++ debug_u64 x /\ connected a x /\ forall y, connected a y -> x <= y.
Proof.
  assert (Hself : forall x, x ∈ component l x) by (intros x; apply elem_of_component, rtc_refl).
  split; [intros x; apply elem_of_component|]. split.
  - unfold task_partition_key. split.
    + intros Heq%app_inv_head. assert (Hl : least_id (component l a) a = least_id (component l b) b).
      { apply (debug_u64_closed _ _ [] []). by rewrite Heq. }
      destruct (least_id_spec _ a (Hself a)) as [Ha _], (least_id_spec _ b (Hself b)) as [Hb _]. rewrite Hl in Ha.
      apply elem_of_component in Ha, Hb. etrans; [exact Ha|]. by apply connected_sym.
    + intros Hab. assert (Hc : component l a = component l b).
      { apply set_eq. intros x. rewrite !elem_of_component. split; intros Hx; [|by etrans]. etrans; [by apply connected_sym|done]. }
      destruct (least_id_spec _ a (Hself a)) as [Ha1 Ha2], (least_id_spec _ b (Hself b)) as [Hb1 Hb2]. rewrite Hc in Ha1, Ha2.
      assert (least_id (component l a) a = least_id (component l b) b) as ->; [|done]. rewrite Hc in *. apply N.le_antisymm; auto.
  - destruct (least_id_spec _ a (Hself a)) as [H1 H2]. exists (least_id (component l a) a). split; [done|].
    split; [by apply elem_of_component|]. intros y Hy. apply H2. by apply elem_of_component.
Qed.
End partitions.
