(* ===== verification/CoordinationRuns.v ===== *)
(** Runs of a coordination session.

    What one call of [allocate] does to the tasks of its session, as a function of what
    the agents answered ([ends_allocate]); that sessions settle, whatever the rest of the
    program does meanwhile ([ticks_settle]), and that the calls return while nothing
    waits for events ([sessions_settle]); and that proposals for the shared facts are
    never lost. *)
From S2P Require Import Prelude Crypto Capability Authority Wal Storage DebugFmt Events F32 Json Explainability KnowledgeGraph NodeStore Recovery PluginReview Plugins ModelRouter Scheduler AgentRuntime Coordination.
Open Scope N_scope.

Abbreviation text := (list N).

(** ** What a tick does to the plan *)

(** The agent each task was given to, and what it answered. *)
Abbreviation Answers := (gmap N (N * InvokeOutcome)).

Section ticks.
Context {V G Env M : Type} `{ResultGraph V G Env (M := M)}.
Context {A X I B AE ME Mem : Type} `{!AgentPool M A} `{!ExplanationLog M X} `{IntentGraph M I} `{ProgressBus M B}.
Context (of_json : Json -> V) (outside : nat -> Env).

Abbreviation sess := (CoordinationSession (V := V) (G := G) (A := A) (X := X) (I := I) (B := B) (Mem := Mem)).
Abbreviation sessionM := (SessionM (V := V) (G := G) (A := A) (X := X) (I := I) (B := B) (Mem := Mem)).
#[local] Existing Instance session_ret.
#[local] Existing Instance session_bind.

(** If [e] returns a value, then [Q] holds of it and of the session after. *)
Definition ends {T : Type} (e : sessionM T) (s : sess) (Q : T -> sess -> Prop) : Prop := forall r s', e s = Some (Ok r, s') -> Q r s'.

Lemma ends_ret {T : Type} (a : T) s (Q : T -> sess -> Prop) : Q a s -> ends (mret a) s Q.
Proof. intros HQ r s' [= <- <-]. done. Qed.

Lemma ends_bind {T U : Type} (e : sessionM T) (k : T -> sessionM U) s (Q : U -> sess -> Prop) :
  ends e s (fun a s1 => ends (k a) s1 Q) -> ends (e ≫= k) s Q.
Proof. intros He r s'. unfold mbind, session_bind. destruct (e s) as [[[a|] s1]|] eqn:Hs; [|done..]. intros Hk. by apply (He _ _ Hs). Qed.

Lemma ends_mono {T : Type} (e : sessionM T) s (Q R : T -> sess -> Prop) : ends e s Q -> (forall a s1, Q a s1 -> R a s1) -> ends e s R.
Proof. intros He HR r s' Hs. apply HR, (He _ _ Hs). Qed.

Lemma ends_some {T : Type} (a : T) (e : sessionM T) s s1 (Q : T -> sess -> Prop) : e s = Some (Ok a, s1) -> Q a s1 -> ends e s Q.
Proof. intros Hs HQ r s' Hs'. rewrite Hs in Hs'. by injection Hs' as <- <-. Qed.

(** What a tick leaves alone while it speaks to the other services. *)
Definition keeps (s s' : sess) : Prop := plans s' = plans s /\ escalations s' = escalations s.

Lemma ends_explanations {T : Type} (f : X -> option (Result T ExplainabilityError * X)) s :
  ends (on_explanations f) s (fun _ s1 => keeps s s1).
Proof. intros r s'. unfold on_explanations. destruct (f _) as [[[a|e] x]|]; intros [=]. by subst. Qed.

Lemma ends_updates (f : sess -> sess) s : ends (updates f) s (fun _ s1 => s1 = f s).
Proof. by intros r s' [= <- <-]. Qed.

Lemma ends_reads {T : Type} (f : sess -> T) s : ends (reads f) s (fun a s1 => a = f s /\ s1 = s).
Proof. by intros r s' [= <- <-]. Qed.

Lemma ends_plan sid s : ends (plan sid) s (fun p s1 => plans s !! sid = Some p /\ s1 = s).
Proof. intros r s'. unfold plan. destruct (_ !! _); intros [=]. by subst. Qed.

Lemma ends_set_plan sid p s :
  ends (set_plan sid p) s (fun _ s1 => plans s1 = <[sid := p]> (plans s) /\ escalations s1 = escalations s).
Proof. by intros r s' [= <- <-]. Qed.

Lemma ends_publish now m t sid schema payload s : ends (publish now m t sid schema payload) s (fun _ s1 => keeps s s1).
Proof. intros r s'. unfold publish. destruct (events s); [|by intros [= <- <-]]. destruct (pb_publish _ _ _ _ _ _ _); simpl; [|done]. by intros [= <- <-]. Qed.

Lemma ends_of_result {T : Type} (r : Result T _) s : ends (of_result r) s (fun a s1 => r = Ok a /\ s1 = s).
Proof. by intros a s' [= -> <-]. Qed.

Definition give (agent : N) (n : TaskNode) : TaskNode := set_status InProgress (set_agent (Some agent) n).

Lemma ends_choose now m t sid p n s :
  plans s !! sid = Some p ->
  ends (choose_agent now m t sid p n) s (fun _ s1 =>
    (exists p1, plans s1 = <[sid := p1]> (plans s) /\ tasks p1 = tasks p /\ root_intent p1 = root_intent p) /\ escalations s1 = escalations s).
Proof.
  intros Hp id s'. unfold choose_agent. destruct (candidate _ _ _).
  - intros [= <- <-]. split; [|done]. exists p. by rewrite insert_id.
  - destruct (best_fit_manifest_with_plugins _ _) as [mf|]; [|done]. destruct (ap_spawn _ _ _ _ _ _) as [[a|e] s1]; intros [=]. subst. simpl.
    split; [|done]. by eexists.
Qed.

(** One task is given out: it is in progress, at the agent the dispatch names. *)
Lemma ends_prepare_one now wall m t sid id s p :
  plans s !! sid = Some p ->
  ends (prepare_one now wall m t sid id) s (fun d s1 =>
    d_task d = id /\ index_of (has_id id) (tasks p) = Some (d_idx d)
    /\ (exists p1, plans s1 = <[sid := p1]> (plans s) /\ tasks p1 = alter (give (d_agent d)) (d_idx d) (tasks p) /\ root_intent p1 = root_intent p)
    /\ escalations s1 = escalations s).
Proof.
  intros Hp d s'. unfold prepare_one. rewrite Hp. destruct (index_of _ _) as [idx|] eqn:Hidx; [|done]. simpl.
  destruct (tasks p !! idx) as [n|] eqn:Hn; [|done]. simpl. revert d s'.
  match goal with |- forall d s', ?e s = _ -> _ => change (ends e s (fun d s1 => d_task d = id /\ Some idx = Some (d_idx d)
    /\ (exists p1, plans s1 = <[sid := p1]> (plans s) /\ tasks p1 = alter (give (d_agent d)) (d_idx d) (tasks p) /\ root_intent p1 = root_intent p)
    /\ escalations s1 = escalations s)) end.
  apply ends_bind. eapply ends_mono; [by apply ends_choose|]. intros agent s1 [(p1 & Hs1 & Ht & Hr) He1].
  apply ends_bind. eapply ends_mono; [apply ends_plan|]. intros p2 ? [Hp2 ->].
  rewrite Hs1, lookup_insert_eq in Hp2. injection Hp2 as <-.
  apply ends_bind. eapply ends_mono; [apply ends_set_plan|]. intros ? s2 [Hs2 He2].
  apply ends_bind. eapply ends_mono; [apply ends_reads|]. intros ff ? [_ ->].
  apply ends_bind. eapply ends_mono; [apply ends_updates|]. intros ? s3 ->.
  apply ends_bind. eapply (ends_mono _ _ (fun _ s4 => keeps s2 s4)).
  { intros act s4. destruct (xl_next_action _). by intros [= <- <-]. }
  intros act s4 K4.
  apply ends_bind. eapply ends_mono; [apply ends_explanations|]. intros e s5 K5.
  apply ends_bind. eapply ends_mono; [apply ends_explanations|]. intros ? s6 K6.
  apply ends_bind. eapply (ends_mono _ _ (fun _ s7 => keeps s6 s7)).
  { case_bool_decide; [apply ends_explanations|]. by apply ends_ret. }
  intros ? s7 K7. apply ends_bind. eapply ends_mono; [apply ends_explanations|]. intros ? s8 K8. apply ends_ret.
  assert (keeps s2 s8) as [Kp Ke] by (unfold keeps in *; intuition congruence). simpl. split; [done|]. split; [done|].
  split; [|congruence]. eexists. rewrite Kp, Hs2, Hs1, insert_insert_eq. split; [done|]. split; [|done]. simpl. by rewrite Ht.
Qed.

Definition started (l : list TaskNode) (ds : list PreparedDispatch) : list TaskNode :=
  foldl (fun l d => alter (give (d_agent d)) (d_idx d) l) l ds.

Definition dispatched_for (l : list TaskNode) (id : NodeId) (d : PreparedDispatch) : Prop :=
  d_task d = id /\ index_of (has_id id) l = Some (d_idx d).

Lemma index_of_alter id f i l : (forall n, task_id (f n) = task_id n) -> index_of (has_id id) (alter f i l) = index_of (has_id id) l.
Proof.
  intros Hf. revert i. induction l as [|n l IH]; intros [|i]; simpl; [done..|unfold has_id; by rewrite Hf|]. destruct (has_id id n); [done|]. f_equal. apply IH.
Qed.

Lemma ends_prepare_each now wall m t sid ids s p :
  plans s !! sid = Some p ->
  ends (prepare_each now wall m t sid ids) s (fun ds s1 =>
    Forall2 (dispatched_for (tasks p)) ids ds
    /\ (exists p1, plans s1 !! sid = Some p1 /\ tasks p1 = started (tasks p) ds /\ root_intent p1 = root_intent p)
    /\ escalations s1 = escalations s).
Proof.
  revert s p. induction ids as [|id ids IH]; intros s p Hp; cbn [prepare_each].
  - apply ends_ret. split; [constructor|]. split; [|done]. by exists p.
  - apply ends_bind. eapply ends_mono; [by apply ends_prepare_one|]. intros d s1 (Hd & Hi & (p1 & Hs1 & Ht1 & Hr1) & He1).
    apply ends_bind. eapply ends_mono; [apply (IH s1 p1); by rewrite Hs1, lookup_insert_eq|].
    intros ds s2 (Hds & (p2 & Hp2 & Ht2 & Hr2) & He2). apply ends_ret. split.
    + constructor; [done|]. eapply Forall2_impl; [exact Hds|]. intros x y [Hx Hy]. split; [done|]. by rewrite Ht1, index_of_alter in Hy.
    + split; [|congruence]. exists p2. split; [done|]. split; [|congruence]. by rewrite Ht2, Ht1.
Qed.

Lemma ends_prepare now wall m t sid s p :
  plans s !! sid = Some p ->
  let q := propagate_blocking p in
  ends (prepare_dispatches now wall m t sid) s (fun ds s1 =>
    Forall2 (dispatched_for (tasks q)) (task_id <$> List.filter (is_ready q) (tasks q)) ds
    /\ (exists p1, plans s1 !! sid = Some p1 /\ tasks p1 = started (tasks q) ds /\ root_intent p1 = root_intent p)
    /\ escalations s1 = escalations s).
Proof.
  intros Hp q. unfold prepare_dispatches. apply ends_bind. eapply ends_mono; [apply ends_plan|]. intros p0 ? [Hp0 ->].
  rewrite Hp in Hp0. injection Hp0 as <-. apply ends_bind. eapply ends_mono; [apply ends_set_plan|]. intros ? s1 [Hs1 He1].
  eapply ends_mono; [apply (ends_prepare_each _ _ _ _ _ _ s1 q); by rewrite Hs1, lookup_insert_eq|].
  intros ds s2 (Hds & Hp2 & He2). split; [done|]. split; [exact Hp2|congruence].
Qed.

(** What an answer makes of a task. *)
Definition finish (o : InvokeOutcome) (n : TaskNode) : TaskNode :=
  match o with
  | InvokeResult value => set_result (Some value) (set_status Done n)
  | InvokeFailed _ =>
      if attempts n + 1 <=? RETRY_LIMIT then set_agent None (set_status Unassigned (set_attempts (attempts n + 1) n))
      else set_status TaskFailed (set_attempts (attempts n + 1) n)
  | _ => set_status Claimed n
  end.

Definition escalation_of (o : InvokeOutcome) (n : TaskNode) : list Escalation :=
  match o with
  | InvokeFailed _ =>
      if attempts n + 1 <=? RETRY_LIMIT then []
      else [mkEscalation (task_id n) (lit "'" ++ task_description n ++ lit "' failed after " ++ debug_u64 (attempts n + 1)
                                      ++ lit " attempt(s) and needs a decision")]
  | _ => []
  end.

Definition ends_in (s : sess) (sid : N) (p : SharedPlan) (l : list TaskNode) (es : list Escalation) (s1 : sess) : Prop :=
  (exists p1, plans s1 !! sid = Some p1 /\ tasks p1 = l /\ root_intent p1 = root_intent p)
  /\ default [] (escalations s1 !! sid) = default [] (escalations s !! sid) ++ es.

Lemma record_result_keeps now wall m t sid root id value s :
  keeps s (record_result (AE := AE) (ME := ME) of_json outside now wall m t sid root id value s).
Proof.
  unfold record_result. destruct (nc_create _ _ _ _ _ _ _ _) as [[node|e] g]; [|done]. simpl. destruct (recovery s); [|done].
  destruct (recovery_point_create _ _ _ _ _ _ _ _) as [[point|e] rs]; [|done]. simpl. done.
Qed.

Abbreviation apply_one' := (apply_one (AE := AE) (ME := ME) of_json outside).
Abbreviation apply_each' := (apply_each (AE := AE) (ME := ME) of_json outside).

Lemma ends_set_task sid idx f s p n :
  plans s !! sid = Some p -> tasks p !! idx = Some n ->
  ends (set_task sid idx f) s (fun _ s1 => plans s1 = <[sid := update_task p idx f]> (plans s) /\ escalations s1 = escalations s).
Proof. intros Hp Hn r s'. unfold set_task. rewrite Hp. simpl. rewrite Hn. simpl. by intros [= <- <-]. Qed.

Lemma ends_bump sid id s p :
  plans s !! sid = Some p ->
  ends (bump sid id) s (fun _ s1 => (exists p1, plans s1 !! sid = Some p1 /\ tasks p1 = tasks p /\ root_intent p1 = root_intent p) /\ escalations s1 = escalations s).
Proof. intros Hp r s'. unfold bump. rewrite Hp. simpl. intros [= <- <-]. simpl. split; [|done]. eexists. by rewrite lookup_insert_eq. Qed.

Lemma ends_escalate now m t sid e s :
  ends (escalate now m t sid e) s (fun _ s1 => plans s1 = plans s /\ escalations s1 !! sid = Some (default [] (escalations s !! sid) ++ [e])).
Proof.
  unfold escalate. apply ends_bind. eapply ends_mono; [apply ends_publish|]. intros ? s1 [Hp He].
  eapply ends_mono; [apply ends_updates|]. intros ? s2 ->. simpl. by rewrite lookup_insert_eq, He.
Qed.

Lemma ends_failure now m t sid idx s p n o :
  plans s !! sid = Some p -> tasks p !! idx = Some n ->
  ends (handle_task_failure now m t sid idx) s (fun _ s1 =>
    ends_in s sid p (alter (finish (InvokeFailed o)) idx (tasks p)) (escalation_of (InvokeFailed o) n) s1).
Proof.
  intros Hp Hn r s'. unfold handle_task_failure. rewrite Hp. simpl. rewrite Hn. cbn [mbind option_bind].
  assert (Hal : forall f, f n = finish (InvokeFailed o) n -> alter f idx (tasks p) = alter (finish (InvokeFailed o)) idx (tasks p)).
  { intros f Hf. apply list_alter_ext; [|done]. intros y Hy. congruence. }
  unfold escalation_of. destruct (attempts n + 1 <=? RETRY_LIMIT) eqn:Hk.
  - intros [= <- <-]. unfold ends_in. simpl. rewrite lookup_insert_eq, app_nil_r. split; [|done]. eexists. split; [done|]. split; [|done]. simpl.
    apply Hal. unfold finish. by rewrite Hk.
  - revert r s'. match goal with |- forall r s', ?e s = _ -> ?Q => change (ends e s (fun _ s' => ends_in s sid p (alter (finish (InvokeFailed o)) idx (tasks p))
      [mkEscalation (task_id n) (lit "'" ++ task_description n ++ lit "' failed after " ++ debug_u64 (attempts n + 1) ++ lit " attempt(s) and needs a decision")] s')) end.
    apply ends_bind. eapply ends_mono; [apply ends_set_plan|]. intros ? s1 [Hs1 He1].
    eapply ends_mono; [apply ends_escalate|]. intros ? s2 [Hs2 He2]. unfold ends_in. rewrite He2, Hs2, Hs1, He1, lookup_insert_eq. split; [|done].
    eexists. split; [done|]. split; [|done]. simpl. apply Hal. unfold finish. by rewrite Hk.
Qed.

Lemma ends_outcome now wall m t sid root d o s p n :
  plans s !! sid = Some p -> tasks p !! d_idx d = Some n ->
  ends (apply_outcome (AE := AE) (ME := ME) of_json outside now wall m t sid root d o) s (fun r s1 =>
    ends_in s sid p (alter (finish o) (d_idx d) (tasks p)) (escalation_of o n) s1 /\ r.2 = task_status (finish o n)).
Proof.
  intros Hp Hn. unfold apply_outcome. destruct o as [value| | | |why].
  5: {
    apply ends_bind. eapply ends_mono; [by eapply (ends_failure _ _ _ _ _ _ _ _ why)|]. intros ? s1 [(p1 & Hp1 & Ht1 & Hr1) He1].
    apply ends_bind. eapply ends_mono; [by apply ends_bump|]. intros ? s2 [(p2 & Hp2 & Ht2 & Hr2) He2].
    apply ends_bind. intros st s3. unfold status_at. rewrite Hp2. simpl. rewrite Ht2, Ht1, list_lookup_alter_eq, Hn. simpl. intros [= <- <-].
    apply ends_ret. split; [|done]. split; [exists p2; split; [done|]; split; congruence|by rewrite He2]. }
  2-4: apply ends_bind; (eapply ends_mono; [by eapply ends_set_task|]); intros ? s1 [Hs1 He1]; apply ends_ret; (split; [|done]);
    (split; [|by rewrite He1, app_nil_r]); eexists; (split; [by rewrite Hs1, lookup_insert_eq|done]).
  apply ends_bind. eapply ends_mono; [by eapply ends_set_task|]. intros ? s1 [Hs1 He1].
  apply ends_bind. eapply ends_mono; [apply ends_updates|]. intros ? s2 Hs2.
  assert (K2 : keeps s1 s2) by (rewrite Hs2; apply record_result_keeps). destruct K2 as [Kp2 Ke2]. clear Hs2.
  apply ends_bind. eapply ends_mono; [eapply ends_bump; by rewrite Kp2, Hs1, lookup_insert_eq|]. intros ? s3 [(p3 & Hp3 & Ht3 & Hr3) He3].
  apply ends_bind. eapply ends_mono; [apply ends_updates|]. intros ? s4 ->.
  apply ends_bind. eapply ends_mono; [apply ends_publish|]. intros ? s5 [Kp5 Ke5]. apply ends_ret. split; [|done].
  split; [exists p3; rewrite Kp5; done|]. rewrite Ke5. simpl. by rewrite He3, Ke2, He1, app_nil_r.
Qed.

Lemma ends_apply_one now wall m t sid root d r s p n :
  plans s !! sid = Some p -> tasks p !! d_idx d = Some n ->
  ends (apply_one' now wall m t sid root d r) s (fun a s1 => exists o, r = Ok o
    /\ ends_in s sid p (alter (finish o) (d_idx d) (tasks p)) (escalation_of o n) s1
    /\ alloc_task a = d_task d /\ agent_instance a = d_agent d /\ alloc_outcome a = task_status (finish o n)).
Proof.
  intros Hp Hn. unfold apply_one. apply ends_bind. eapply ends_mono; [apply ends_of_result|]. intros o ? [Ho ->].
  destruct r as [o'|e]; [|done]. injection Ho as ->.
  apply ends_bind. eapply ends_mono; [by eapply ends_outcome|]. intros [control st] s1 [[(p1 & Hp1 & Ht1 & Hr1) He1] Hst]. simpl in Hst.
  apply ends_bind. eapply ends_mono; [apply ends_explanations|]. intros ? s2 [Kp Ke].
  apply ends_bind. eapply ends_mono; [apply ends_updates|]. intros ? s3 ->. apply ends_ret. exists o. split; [done|]. split; [|done].
  split; simpl; [exists p1; by rewrite Kp|by rewrite Ke].
Qed.

Definition finished (l : list TaskNode) (dos : list (PreparedDispatch * InvokeOutcome)) : list TaskNode :=
  foldl (fun l x => alter (finish x.2) (d_idx x.1) l) l dos.

Definition escalated (l : list TaskNode) (dos : list (PreparedDispatch * InvokeOutcome)) : list Escalation :=
  dos ≫= fun '(d, o) => from_option (escalation_of o) [] (l !! d_idx d).

Definition recorded (l : list TaskNode) '(d, o) (a : AllocationRecord) : Prop :=
  alloc_task a = d_task d /\ agent_instance a = d_agent d /\ exists n, l !! d_idx d = Some n /\ alloc_outcome a = task_status (finish o n).

Lemma escalated_ext l l' dos : (forall d o, (d, o) ∈ dos -> l !! d_idx d = l' !! d_idx d) -> escalated l dos = escalated l' dos.
Proof.
  induction dos as [|[d o] dos IH]; intros Hl; [done|]. unfold escalated in *. cbn. rewrite (Hl d o) by left. f_equal. apply IH.
  intros d2 o2 Hin. apply (Hl d2 o2). by right.
Qed.

Lemma recorded_ext l l' dos records :
  (forall d o, (d, o) ∈ dos -> l !! d_idx d = l' !! d_idx d) -> Forall2 (recorded l) dos records -> Forall2 (recorded l') dos records.
Proof.
  intros Hl. induction 1 as [|[d o] a0 dos records (Ht & Ha & n & Hn & Ho) _ IH]; [constructor|]. constructor.
  - split; [done|]. split; [done|]. exists n. rewrite <- (Hl d o) by left. done.
  - apply IH. intros d2 o2 Hin. apply (Hl d2 o2). by right.
Qed.

Lemma lookup_alter_finish o i j (l : list TaskNode) : i <> j -> alter (finish o) i l !! j = l !! j.
Proof. apply list_lookup_alter_ne. Qed.

Lemma ends_apply_each now wall m t sid root drs s p :
  plans s !! sid = Some p -> NoDup (d_idx ∘ fst <$> drs) -> Forall (fun dr => is_Some (tasks p !! d_idx dr.1)) drs ->
  ends (apply_each' now wall m t sid root drs) s (fun records s1 => exists os, drs.*2 = Ok <$> os
    /\ ends_in s sid p (finished (tasks p) (zip drs.*1 os)) (escalated (tasks p) (zip drs.*1 os)) s1
    /\ Forall2 (recorded (tasks p)) (zip drs.*1 os) records).
Proof.
  revert s p. induction drs as [|[d r] drs IH]; intros s p Hp Hnd Hall; cbn [apply_each].
  { apply ends_ret. exists []. split; [done|]. split; [|constructor]. split; [by exists p|]. by rewrite app_nil_r. }
  apply NoDup_cons in Hnd as [Hnin Hnd]. apply Forall_cons in Hall as [[n Hn] Hall]. simpl in Hn, Hnin.
  apply ends_bind. eapply ends_mono; [by eapply ends_apply_one|]. intros a0 s1 (o & -> & [(p1 & Hp1 & Ht1 & Hr1) He1] & Ha1 & Ha2 & Ha3).
  assert (Hkeep : forall dr, dr ∈ drs -> tasks p1 !! d_idx dr.1 = tasks p !! d_idx dr.1).
  { intros dr Hdr. rewrite Ht1, lookup_alter_finish; [done|]. intros Heq. apply Hnin. rewrite Heq. apply list_elem_of_fmap. by exists dr. }
  apply ends_bind. eapply ends_mono; [apply (IH s1 p1 Hp1 Hnd)|].
  { rewrite Forall_forall in Hall |- *. intros dr Hdr. rewrite Hkeep by done. by apply Hall. }
  intros records s2 (os & Hos & [(p2 & Hp2 & Ht2 & Hr2) He2] & Hrec). apply ends_ret. exists (o :: os).
  assert (Hz : forall d' o', (d', o') ∈ zip drs.*1 os -> tasks p1 !! d_idx d' = tasks p !! d_idx d').
  { intros d' o' Hin%elem_of_zip_l. apply list_elem_of_fmap in Hin as (dr & -> & Hdr). by apply Hkeep. }
  split; [cbn; f_equal; exact Hos|]. split.
  - split; [exists p2; split; [done|]; split; [by rewrite Ht2, Ht1|congruence]|]. rewrite He2, He1, <- app_assoc. f_equal. simpl.
    unfold escalated at 2. cbn. rewrite Hn. cbn. f_equal. by apply escalated_ext.
  - simpl. constructor; [split; [done|]; split; [done|]; by exists n|]. by apply (recorded_ext (tasks p1)).
Qed.

(** *** The tasks after a tick *)

Lemma foldl_alter_other {T : Type} (f : T -> TaskNode -> TaskNode) (idx : T -> nat) xs (l : list TaskNode) i :
  i ∉ idx <$> xs -> foldl (fun l x => alter (f x) (idx x) l) l xs !! i = l !! i.
Proof.
  revert l. induction xs as [|x xs IH]; intros l; [done|]. cbn. rewrite not_elem_of_cons. intros [Hx Hxs].
  rewrite IH by done. by rewrite list_lookup_alter_ne.
Qed.

Lemma foldl_alter_at {T : Type} (f : T -> TaskNode -> TaskNode) (idx : T -> nat) xs (l : list TaskNode) x :
  NoDup (idx <$> xs) -> x ∈ xs -> foldl (fun l x => alter (f x) (idx x) l) l xs !! idx x = f x <$> l !! idx x.
Proof.
  revert l. induction xs as [|y xs IH]; intros l; [intros _ ?%elem_of_nil; done|]. cbn. rewrite NoDup_cons. intros [Hy Hnd] [->|Hx]%elem_of_cons.
  - rewrite foldl_alter_other by done. by rewrite list_lookup_alter_eq.
  - rewrite IH by done. rewrite list_lookup_alter_ne; [done|]. intros Heq. apply Hy. rewrite Heq. by apply list_elem_of_fmap_2.
Qed.

Lemma index_of_some f l i : index_of f l = Some i -> exists n, l !! i = Some n /\ f n = true.
Proof.
  revert i. induction l as [|n l IH]; intros i; simpl; [done|]. destruct (f n) eqn:Hf.
  - intros [= <-]. by exists n.
  - destruct (index_of f l) as [j|]; [|done]. intros [= <-]. by apply IH.
Qed.

Lemma index_of_lookup l i n : NoDup (task_id <$> l) -> l !! i = Some n -> index_of (has_id (task_id n)) l = Some i.
Proof.
  intros Hnd Hn. destruct (index_of (has_id (task_id n)) l) as [j|] eqn:Hj.
  - apply index_of_some in Hj as (n' & Hn' & Hid%N.eqb_eq). f_equal.
    apply (NoDup_lookup _ _ _ (task_id n) Hnd); rewrite list_lookup_fmap, ?Hn, ?Hn'; simpl; congruence.
  - exfalso. revert i Hn Hj. clear. induction l as [|x l IH]; intros [|i]; simpl; [done..| |]; unfold has_id at 1.
    + intros [= ->]. by rewrite N.eqb_refl.
    + intros Hn. destruct (_ =? _); [done|]. destruct (index_of _ l) eqn:Hj; [done|]. by apply (IH i).
Qed.

Lemma same_task l n n' : NoDup (task_id <$> l) -> n ∈ l -> n' ∈ l -> task_id n = task_id n' -> n = n'.
Proof.
  intros Hnd [i Hi]%list_elem_of_lookup_1 [j Hj]%list_elem_of_lookup_1 Heq. pose proof (index_of_lookup _ _ _ Hnd Hi) as Hn.
  pose proof (index_of_lookup _ _ _ Hnd Hj) as Hn'. congruence.
Qed.

Definition answers_of (ds : list PreparedDispatch) (os : list InvokeOutcome) : Answers :=
  list_to_map (zip (d_task <$> ds) (zip (d_agent <$> ds) os)).

Definition answered (g : Answers) (n : TaskNode) : TaskNode :=
  match g !! task_id n with Some (agent, o) => finish o (give agent n) | None => n end.

Lemma dispatched_inj l ids ds : NoDup ids -> Forall2 (dispatched_for l) ids ds -> NoDup (d_idx <$> ds) /\ d_task <$> ds = ids.
Proof.
  intros Hnd Hds. induction Hds as [|id d ids ds [Ht Hi] Hds IH]; [by split; [constructor|]|]. apply NoDup_cons in Hnd as [Hid Hnd].
  destruct (IH Hnd) as [Hnd' Hids]. split; [|cbn; by rewrite Ht, Hids]. cbn. constructor; [|done].
  intros (d' & Heq & Hd')%list_elem_of_fmap. apply Hid. apply (list_elem_of_lookup_1) in Hd' as [k Hk].
  destruct (Forall2_lookup_r _ _ _ _ _ Hds Hk) as (id' & Hid' & Ht' & Hi'). rewrite <- Heq in Hi'.
  destruct (index_of_some _ _ _ Hi) as (n & Hn & Hn1%N.eqb_eq). destruct (index_of_some _ _ _ Hi') as (n' & Hn' & Hn2%N.eqb_eq).
  assert (id' = id) as <- by congruence. by apply list_elem_of_lookup_2 in Hid'.
Qed.

Lemma answers_lookup ds os d o :
  NoDup (d_task <$> ds) -> length os = length ds -> (d, o) ∈ zip ds os -> answers_of ds os !! d_task d = Some (d_agent d, o).
Proof.
  intros Hnd Hlen Hin. unfold answers_of. apply elem_of_list_to_map_1.
  - rewrite fst_zip; [done|]. rewrite length_zip_with, !length_fmap. lia.
  - revert os Hlen Hin. clear. induction ds as [|d' ds IH]; intros [|o' os] Hlen Hin; [by apply elem_of_nil in Hin..|]. cbn in *.
    apply elem_of_cons in Hin as [[= -> ->]|Hin]; [left|right]. apply IH; [lia|done].
Qed.

Lemma answers_dom ds os : length os = length ds -> dom (answers_of ds os) = (list_to_set (d_task <$> ds) : gset NodeId).
Proof. intros Hlen. unfold answers_of. etrans; [apply (dom_list_to_map_L (M := gmap N))|]. rewrite fst_zip; [done|]. rewrite length_zip_with, !length_fmap. lia. Qed.

Lemma tick_tasks l ids ds os :
  NoDup (task_id <$> l) -> NoDup ids -> Forall2 (dispatched_for l) ids ds -> length os = length ds ->
  finished (started l ds) (zip ds os) = answered (answers_of ds os) <$> l.
Proof.
  intros Hnd Hids Hds Hlen. destruct (dispatched_inj _ _ _ Hids Hds) as [Hidx Htask].
  assert (Hfst : (fun x => d_idx x.1) <$> zip ds os = d_idx <$> ds).
  { etrans; [apply (list_fmap_compose fst d_idx)|]. rewrite fst_zip by lia. done. }
  assert (Hdt : forall d, d ∈ ds -> exists n, l !! d_idx d = Some n /\ task_id n = d_task d).
  { intros d [k Hk]%list_elem_of_lookup_1. destruct (Forall2_lookup_r _ _ _ _ _ Hds Hk) as (id & _ & Ht & Hi).
    apply index_of_some in Hi as (n & Hn & Hid%N.eqb_eq). exists n. split; [done|congruence]. }
  apply list_eq. intros i. rewrite list_lookup_fmap. unfold finished, started. destruct (decide (i ∈ d_idx <$> ds)) as [Hi|Hi].
  - apply list_elem_of_fmap in Hi as (d & -> & Hd). destruct (Hdt d Hd) as (n & Hn & Hid).
    destruct (list_elem_of_lookup_1 _ _ Hd) as [k Hk]. destruct (lookup_lt_is_Some_2 os k) as [o Ho]; [apply lookup_lt_Some in Hk; lia|].
    assert (Hz : (d, o) ∈ zip ds os) by (apply (list_elem_of_lookup_2 _ k); by apply lookup_zip_Some).
    rewrite (foldl_alter_at (fun x => finish x.2) (fun x => d_idx x.1) (zip ds os) _ (d, o)) by (by rewrite ?Hfst).
    simpl. rewrite (foldl_alter_at (fun d => give (d_agent d)) d_idx ds l d) by done. rewrite Hn. simpl. f_equal.
    unfold answered. rewrite Hid, (answers_lookup ds os d o); [done|by rewrite Htask|done|done].
  - rewrite (foldl_alter_other (fun x => finish x.2) (fun x => d_idx x.1)) by (by rewrite Hfst).
    rewrite (foldl_alter_other (fun d => give (d_agent d)) d_idx) by done. destruct (l !! i) as [n|] eqn:Hn; [|done]. simpl. f_equal. unfold answered.
    destruct (answers_of ds os !! task_id n) as [[agent o]|] eqn:Hg; [|done]. exfalso. apply Hi.
    assert (Hdom : task_id n ∈ dom (answers_of ds os)) by (by apply elem_of_dom). rewrite answers_dom in Hdom by done.
    apply elem_of_list_to_set, list_elem_of_fmap in Hdom as (d & Heq & Hd). destruct (Hdt d Hd) as (n' & Hn' & Hid').
    assert (i = d_idx d) as ->; [|by apply list_elem_of_fmap_2]. apply (NoDup_lookup _ _ _ (task_id n) Hnd); rewrite list_lookup_fmap, ?Hn, ?Hn'; simpl; congruence.
Qed.

Definition failed_ids (l : list TaskNode) : gset NodeId := list_to_set (task_id <$> List.filter is_failed l).
Definition block (failed : gset NodeId) (n : TaskNode) : TaskNode :=
  if waits n && existsb (fun d => bool_decide (d ∈ failed)) (dependencies n) then set_status Blocked n else n.

Lemma tasks_propagate p : tasks (propagate_blocking p) = block (failed_ids (tasks p)) <$> tasks p.
Proof. done. Qed.

Lemma block_id f n : task_id (block f n) = task_id n.
Proof. unfold block. by destruct (_ && _). Qed.

Lemma block_failed f n : is_failed (block f n) = is_failed n.
Proof. unfold block, waits, is_failed. destruct (task_status n) eqn:Hs; simpl; rewrite ?Hs; try done; by destruct (existsb _ _); simpl; rewrite ?Hs. Qed.

Lemma failed_ids_block f (l : list TaskNode) : failed_ids (block f <$> l) = failed_ids l.
Proof.
  unfold failed_ids. f_equal. induction l as [|n l IH]; [done|]. cbn. rewrite block_failed. destruct (is_failed n); cbn; rewrite IH; [by rewrite block_id|done].
Qed.

Lemma block_block f n : block f (block f n) = block f n.
Proof. unfold block at 2 3. destruct (_ && _) eqn:Hb; [|by unfold block; rewrite Hb]. done. Qed.

Lemma propagate_twice p : tasks (propagate_blocking (propagate_blocking p)) = tasks (propagate_blocking p).
Proof. rewrite (tasks_propagate (propagate_blocking p)), tasks_propagate, failed_ids_block, <- list_fmap_compose. apply list_fmap_ext. intros i n _. apply block_block. Qed.

Lemma ids_block f (l : list TaskNode) : task_id <$> (block f <$> l) = task_id <$> l.
Proof. rewrite <- list_fmap_compose. apply list_fmap_ext. intros i n _. apply block_id. Qed.

Lemma answered_empty (l : list TaskNode) : answered ∅ <$> l = l.
Proof. induction l as [|n l IH]; [done|]. cbn. by rewrite IH. Qed.

Lemma NoDup_ready p : NoDup (task_id <$> tasks p) -> NoDup (task_id <$> List.filter (is_ready p) (tasks p)).
Proof.
  induction (tasks p) as [|n l IH]; [done|]. cbn. rewrite NoDup_cons. intros [Hn Hnd]. destruct (is_ready p n); [|by apply IH]. cbn. constructor; [|by apply IH].
  intros (n' & Heq & [Hn' _]%list_elem_of_In%filter_In)%list_elem_of_fmap. apply Hn. rewrite Heq. apply list_elem_of_fmap_2. by apply list_elem_of_In.
Qed.

(** The escalations of a tick, in the order of the tasks. *)
Definition tick_escalations (g : Answers) (l : list TaskNode) : list Escalation :=
  l ≫= fun n => match g !! task_id n with Some (_, o) => escalation_of o n | None => [] end.

Definition tick_record (g : Answers) (n : TaskNode) (a : AllocationRecord) : Prop :=
  alloc_task a = task_id n
  /\ exists o, g !! task_id n = Some (agent_instance a, o) /\ alloc_outcome a = task_status (finish o n).

Definition stands_at (l : list TaskNode) (n : TaskNode) (d : PreparedDispatch) : Prop := l !! d_idx d = Some n /\ task_id n = d_task d.

Lemma dispatched_tasks l f ds :
  NoDup (task_id <$> l) -> Forall2 (dispatched_for l) (task_id <$> List.filter f l) ds -> Forall2 (stands_at l) (List.filter f l) ds.
Proof.
  intros Hnd. assert (Hin : forall n, n ∈ List.filter f l -> n ∈ l).
  { intros n [Hn _]%list_elem_of_In%filter_In. by apply list_elem_of_In. }
  revert ds Hin. induction (List.filter f l) as [|n k IH]; intros ds Hin; cbn; [by intros ->%Forall2_nil_inv_l|].
  intros (d & ds' & [Ht Hi] & Hds & ->)%Forall2_cons_inv_l. constructor; [|apply IH; [|done]; intros n' Hn'; apply Hin; by right].
  destruct (list_elem_of_lookup_1 l n) as [i Hl]; [apply Hin; left|]. rewrite (index_of_lookup _ _ _ Hnd Hl) in Hi. injection Hi as Hi. split; [by rewrite <- Hi|done].
Qed.

Lemma started_at l ids ds n d :
  NoDup ids -> Forall2 (dispatched_for l) ids ds -> d ∈ ds -> l !! d_idx d = Some n -> started l ds !! d_idx d = Some (give (d_agent d) n).
Proof.
  intros Hids Hds Hd Hn. unfold started. rewrite (foldl_alter_at (fun d => give (d_agent d)) d_idx); [by rewrite Hn| |done].
  by apply (dispatched_inj _ _ _ Hids Hds).
Qed.

Lemma finish_give o agent n : task_status (finish o (give agent n)) = task_status (finish o n).
Proof. destruct o as [| | | |why]; try done. simpl. by destruct (_ <=? _). Qed.

Lemma tick_escalations_filter f g l :
  (forall n, n ∈ l -> f n = false -> g !! task_id n = None) -> tick_escalations g l = tick_escalations g (List.filter f l).
Proof.
  unfold tick_escalations. induction l as [|n l IH]; intros Hf; [done|]. cbn. rewrite IH by (intros n' Hn'; apply Hf; by right).
  destruct (f n) eqn:Hn; [done|]. by rewrite Hf by (done || left).
Qed.

Lemma tick_matches l l' g k ds os records :
  Forall2 (stands_at l) k ds -> length os = length ds ->
  (forall d, d ∈ ds -> forall n, l !! d_idx d = Some n -> l' !! d_idx d = Some (give (d_agent d) n)) ->
  (forall d o, (d, o) ∈ zip ds os -> g !! d_task d = Some (d_agent d, o)) ->
  Forall2 (recorded l') (zip ds os) records ->
  escalated l' (zip ds os) = tick_escalations g k /\ Forall2 (tick_record g) k records.
Proof.
  intros Hk. revert os records. induction Hk as [|n d k ds [Hn Hid] Hk IH]; intros [|o os] records Hlen Hl Hg Hrec; try done.
  { apply Forall2_nil_inv_l in Hrec as ->. by split; [|constructor]. }
  cbn in Hrec. apply Forall2_cons_inv_l in Hrec as (a0 & records' & (Ht & Ha & n' & Hn' & Ho) & Hrec & ->).
  assert (n' = give (d_agent d) n) as ->. { rewrite (Hl d (list_elem_of_here _ _) _ Hn) in Hn'. by injection Hn'. }
  assert (Hgd : g !! task_id n = Some (d_agent d, o)) by (rewrite Hid; apply Hg; left).
  destruct (IH os records') as [He Hr]; [by injection Hlen|intros d' Hd'; apply Hl; by right|intros d' o' Hd'; apply Hg; by right|done|]. split.
  - unfold escalated, tick_escalations in *. cbn. rewrite Hn', Hgd. simpl. f_equal. exact He.
  - constructor; [|done]. split; [congruence|]. exists o. rewrite Ha, Hgd, Ho. split; [done|]. apply finish_give.
Qed.

Abbreviation allocate' := (allocate (AE := AE) (ME := ME) of_json outside).

Section one_tick.
Context (work : list PreparedDispatch -> A -> list (Result InvokeOutcome AgentError) * A) (others : sess -> sess) (sid : N).
(** Every thread answers, and the rest of the program leaves this session alone. *)
Hypothesis work_answers : forall ds a, length (work ds a).1 = length ds.
Hypothesis others_plan : forall s, plans (others s) !! sid = plans s !! sid.
Hypothesis others_escalations : forall s, escalations (others s) !! sid = escalations s !! sid.

Definition after_tick (p : SharedPlan) (g : Answers) : list TaskNode :=
  let q := propagate_blocking p in tasks (propagate_blocking (with_tasks q (answered g <$> tasks q))).

Definition ready_tasks (p : SharedPlan) : list TaskNode := let q := propagate_blocking p in List.filter (is_ready q) (tasks q).

Definition tick_done (s : sess) (p : SharedPlan) (records : list AllocationRecord) (s' : sess) : Prop :=
  exists p' (g : Answers), plans s' !! sid = Some p' /\ tasks p' = after_tick p g
    /\ dom g = (list_to_set (task_id <$> ready_tasks p) : gset NodeId)
    /\ (exists ds os a, g = answers_of ds os /\ (work ds a).1 = Ok <$> os)
    /\ Forall2 (tick_record g) (ready_tasks p) records
    /\ default [] (escalations s' !! sid) = default [] (escalations s !! sid) ++ tick_escalations g (tasks (propagate_blocking p)).

Lemma tick_idle s p s' p' :
  ready_tasks p = [] -> plans s' !! sid = Some p' -> tasks p' = tasks (propagate_blocking p) -> escalations s' = escalations s ->
  tick_done s p [] s'.
Proof.
  intros Hr Hp' Ht He. exists p', ∅. split; [done|]. split.
  { unfold after_tick. rewrite answered_empty, Ht. symmetry. apply (propagate_twice p). }
  rewrite Hr. split; [apply (dom_empty_L (M := gmap N))|].
  split. { exists [], [], (agent_runtime s). split; [done|]. apply nil_length_inv. by rewrite work_answers. }
  split; [constructor|]. rewrite He. unfold tick_escalations. clear Ht.
  induction (tasks (propagate_blocking p)) as [|n l IH]; [by rewrite app_nil_r|]. cbn. rewrite lookup_empty. exact IH.
Qed.

Lemma ends_allocate now1 now2 wall1 wall2 m t s p :
  plans s !! sid = Some p -> NoDup (task_id <$> tasks p) ->
  ends (allocate' now1 now2 wall1 wall2 m t sid work others) s (tick_done s p).
Proof.
  intros Hp Hnd. unfold allocate. apply ends_bind. eapply ends_mono; [apply ends_of_result|]. intros ? ? [_ ->].
  apply ends_bind. eapply ends_mono; [by apply ends_prepare|]. intros ds s1 (Hds & (p1 & Hp1 & Ht1 & Hr1) & He1).
  set (q := propagate_blocking p) in *. change (List.filter (is_ready q) (tasks q)) with (ready_tasks p) in Hds.
  assert (Hndq : NoDup (task_id <$> tasks q)) by (unfold q; by rewrite tasks_propagate, ids_block).
  destruct ds as [|d0 ds0] eqn:Hds0; [|rewrite <- Hds0 in *; clear Hds0 d0 ds0].
  { apply ends_ret. apply Forall2_nil_inv_r, fmap_nil_inv in Hds. by eapply tick_idle. }
  assert (Hids : NoDup (task_id <$> ready_tasks p)) by by apply NoDup_ready.
  apply ends_bind. intros rs s2. destruct (work ds (agent_runtime s1)) as [rs0 a'] eqn:Hw. intros [= -> <-].
  assert (Hlen : length rs = length ds) by (by rewrite <- (work_answers ds (agent_runtime s1)), Hw). set (s2 := others _).
  assert (Hp2 : plans s2 !! sid = Some p1) by (unfold s2; by rewrite others_plan).
  assert (He2 : escalations s2 !! sid = escalations s !! sid) by (unfold s2; rewrite others_escalations; simpl; by rewrite He1). clearbody s2.
  unfold apply_dispatch_results. apply ends_bind. eapply ends_mono; [apply ends_plan|]. intros p0 ? [Hp0 ->].
  rewrite Hp2 in Hp0. injection Hp0 as <-. apply ends_bind.
  assert (Hfst : (zip ds rs).*1 = ds) by (apply fst_zip; lia). assert (Hsnd : (zip ds rs).*2 = rs) by (apply snd_zip; lia).
  destruct (dispatched_inj _ _ _ Hids Hds) as [Hidx Htask].
  pose proof (dispatched_tasks _ _ _ Hndq Hds) as Hat.
  assert (Hgive : forall d, d ∈ ds -> forall n, tasks q !! d_idx d = Some n -> tasks p1 !! d_idx d = Some (give (d_agent d) n)).
  { intros d Hd n Hn. rewrite Ht1. by apply (started_at _ _ _ _ _ Hids Hds). }
  eapply ends_mono; [apply (ends_apply_each _ _ _ _ _ _ (zip ds rs) s2 p1 Hp2)|].
  { rewrite list_fmap_compose. by rewrite Hfst. }
  { apply Forall_forall. intros [d r] Hd%elem_of_zip_l. destruct (list_elem_of_lookup_1 _ _ Hd) as [k Hk].
    destruct (Forall2_lookup_r _ _ _ _ _ Hat Hk) as (n & _ & Hn & _). exists (give (d_agent d) n). by apply Hgive. }
  intros records s3 (os & Hos & [(p3 & Hp3 & Ht3 & Hr3) He3] & Hrec). rewrite Hfst in *. rewrite Hsnd in Hos.
  assert (Hlo : length os = length ds) by (rewrite <- Hlen, Hos; by rewrite length_fmap).
  apply ends_bind. eapply ends_mono; [apply ends_plan|]. intros p4 ? [Hp4 ->]. rewrite Hp3 in Hp4. injection Hp4 as <-.
  apply ends_bind. eapply ends_mono; [apply ends_set_plan|]. intros ? s4 [Hs4 He4]. apply ends_ret.
  destruct (tick_matches (tasks q) (tasks p1) (answers_of ds os) (ready_tasks p) ds os records) as [Hesc Hrecs]; try done.
  { intros d o Hd. apply answers_lookup; [by rewrite Htask|done|done]. }
  exists (propagate_blocking p3), (answers_of ds os). rewrite Hs4, lookup_insert_eq. split; [done|]. split.
  { unfold after_tick. rewrite !tasks_propagate. change (tasks p3) with (tasks p3). rewrite Ht3, Ht1. by rewrite (tick_tasks _ _ _ _ Hndq Hids Hds Hlo). }
  split; [by rewrite answers_dom, Htask|]. split; [exists ds, os, (agent_runtime s1); split; [done|]; by rewrite Hw|]. split; [done|]. rewrite He4, He3, He2, Hesc. f_equal. symmetry.
  apply tick_escalations_filter. intros n Hn Hready. apply not_elem_of_dom. rewrite answers_dom, Htask by done.
  intros (n' & Heq & [Hn' Hr']%list_elem_of_In%filter_In)%elem_of_list_to_set%list_elem_of_fmap. apply list_elem_of_In in Hn'.
  assert (n = n') as ->; [by apply (same_task (tasks q))|congruence].
Qed.
End one_tick.
End ticks.

(** *** The tasks of a session that is only ticked *)

(** A task as a session that was never steered has it: it failed once at most before it is
    given up, and it is blocked only behind a task that was given up. *)
Definition sound_task (l : list TaskNode) (n : TaskNode) : Prop :=
  match task_status n with
  | Unassigned => attempts n <= RETRY_LIMIT
  | Blocked => exists d, d ∈ dependencies n /\ d ∈ failed_ids l
  | Done => is_Some (task_result n)
  | TaskFailed => attempts n = RETRY_LIMIT + 1
  | Claimed | InProgress => False
  end.

Definition fresh_task (n : TaskNode) : Prop := task_status n = Unassigned /\ attempts n = 0.

(** How often a task may still be given out. *)
Definition tries_left (n : TaskNode) : nat := if bool_decide (task_status n = Unassigned) then N.to_nat (RETRY_LIMIT + 1 - attempts n) else O.

Definition answers_fit (q : SharedPlan) (g : Answers) : Prop :=
  forall n, n ∈ tasks q ->
    match g !! task_id n with
    | Some (_, o) => is_ready q n = true /\ task_status (finish o n) <> Claimed
    | None => is_ready q n = false
    end.

Lemma ready_unassigned q n : is_ready q n = true -> task_status n = Unassigned.
Proof. unfold is_ready. intros [Hs%bool_decide_eq_true _]%andb_prop. done. Qed.

Lemma elem_of_failed l x : x ∈ failed_ids l <-> exists n, n ∈ l /\ task_id n = x /\ task_status n = TaskFailed.
Proof.
  unfold failed_ids. rewrite elem_of_list_to_set, list_elem_of_fmap. split.
  - intros (n & -> & [Hn Hf%bool_decide_eq_true]%list_elem_of_In%filter_In). exists n. by rewrite list_elem_of_In.
  - intros (n & Hn & <- & Hf). exists n. split; [done|]. apply list_elem_of_In, filter_In. rewrite <- list_elem_of_In. split; [done|].
    by apply bool_decide_eq_true.
Qed.

Lemma sound_mono l l' n : failed_ids l ⊆ failed_ids l' -> sound_task l n -> sound_task l' n.
Proof. unfold sound_task. destruct (task_status n); try done. intros Hsub (d & Hd & Hf). exists d. split; [done|by apply Hsub]. Qed.

Lemma sound_block l : Forall (sound_task l) l -> Forall (sound_task (block (failed_ids l) <$> l)) (block (failed_ids l) <$> l).
Proof.
  rewrite !Forall_forall. intros Hl n' (n & -> & Hn)%list_elem_of_fmap. apply (sound_mono l); [by rewrite failed_ids_block|].
  unfold block. destruct (waits n && _) eqn:Hb; [|by apply Hl]. apply andb_prop in Hb as [_ Hb]. apply existsb_exists in Hb as (d & Hd & Hf%bool_decide_eq_true).
  exists d. split; [by apply list_elem_of_In|done].
Qed.

Lemma finish_sound l o agent n :
  task_status n = Unassigned -> attempts n <= RETRY_LIMIT -> task_status (finish o n) <> Claimed -> sound_task l (finish o (give agent n)).
Proof.
  unfold RETRY_LIMIT. intros Hs Ha Ho. destruct o as [v| | | |why]; try done; unfold sound_task; simpl; [by exists v|]. unfold RETRY_LIMIT.
  destruct (attempts n + 1 <=? 1) eqn:Hk; [apply N.leb_le in Hk|apply N.leb_gt in Hk]; simpl; unfold RETRY_LIMIT; lia.
Qed.

Lemma failed_answered q g :
  answers_fit q g -> failed_ids (tasks q) ⊆ failed_ids (answered g <$> tasks q).
Proof.
  intros Hfit x (n & Hn & Hid & Hf)%elem_of_failed. apply elem_of_failed. exists (answered g n). split; [by apply list_elem_of_fmap_2|].
  unfold answered. specialize (Hfit n Hn). destruct (g !! task_id n) as [[agent o]|]; [|done]. destruct Hfit as [Hr%ready_unassigned _]. congruence.
Qed.

Lemma sound_answered q g :
  answers_fit q g -> Forall (sound_task (tasks q)) (tasks q) -> Forall (sound_task (answered g <$> tasks q)) (answered g <$> tasks q).
Proof.
  rewrite !Forall_forall. intros Hfit Hl n' (n & -> & Hn)%list_elem_of_fmap. pose proof (Hl n Hn) as Hs. pose proof (Hfit n Hn) as Hg.
  unfold answered at 2. destruct (g !! task_id n) as [[agent o]|].
  - destruct Hg as [Hr%ready_unassigned Ho]. unfold sound_task in Hs. rewrite Hr in Hs. by apply finish_sound.
  - by eapply sound_mono, Hs; apply failed_answered.
Qed.

Lemma sound_tick p g :
  answers_fit (propagate_blocking p) g -> Forall (sound_task (tasks p)) (tasks p) -> Forall (sound_task (after_tick p g)) (after_tick p g).
Proof. intros Hfit Hl. unfold after_tick. rewrite tasks_propagate. apply sound_block. apply sound_answered; [done|]. by apply sound_block. Qed.

(** *** Tries *)

Lemma tries_block f n : (tries_left (block f n) <= tries_left n)%nat.
Proof. unfold block. destruct (waits n && _); [|lia]. unfold tries_left at 1. simpl. lia. Qed.

Lemma tries_sum (f : TaskNode -> bool) (h : TaskNode -> TaskNode) (l : list TaskNode) :
  (forall n, n ∈ l -> (tries_left (h n) + (if f n then 1 else 0) <= tries_left n)%nat) ->
  (sum_list_with tries_left (h <$> l) + length (List.filter f l) <= sum_list_with tries_left l)%nat.
Proof.
  induction l as [|n l IH]; intros Hl; [done|]. cbn. specialize (IH (fun n' Hn' => Hl n' (list_elem_of_further _ _ _ Hn'))).
  specialize (Hl n (list_elem_of_here _ _)). destruct (f n); cbn; lia.
Qed.

Lemma tries_answered q g n :
  answers_fit q g -> Forall (sound_task (tasks q)) (tasks q) -> n ∈ tasks q ->
  (tries_left (answered g n) + (if is_ready q n then 1 else 0) <= tries_left n)%nat.
Proof.
  rewrite Forall_forall. intros Hfit Hl Hn. pose proof (Hl n Hn) as Hs. pose proof (Hfit n Hn) as Hg. unfold answered.
  destruct (g !! task_id n) as [[agent o]|]; [|rewrite Hg; lia]. destruct Hg as [Hr Ho]. rewrite Hr. apply ready_unassigned in Hr.
  unfold sound_task in Hs. unfold tries_left. rewrite Hr in *. unfold RETRY_LIMIT in *. change (bool_decide (Unassigned = Unassigned)) with true. cbv iota.
  destruct o as [v| | | |why]; simpl in *; try done; unfold RETRY_LIMIT; [lia|]. destruct (attempts n + 1 <=? 1) eqn:Hk; [apply N.leb_le in Hk|apply N.leb_gt in Hk]; simpl; lia.
Qed.

Lemma tries_tick p g :
  answers_fit (propagate_blocking p) g -> Forall (sound_task (tasks p)) (tasks p) ->
  (sum_list_with tries_left (after_tick p g) + length (ready_tasks p) <= sum_list_with tries_left (tasks p))%nat.
Proof.
  intros Hfit Hl. unfold after_tick, ready_tasks. rewrite tasks_propagate.
  assert (Hb : forall f l, (sum_list_with tries_left (block f <$> l) <= sum_list_with tries_left l)%nat).
  { intros f l. pose proof (tries_sum (fun _ => false) (block f) l) as Hs. etrans; [|apply Hs]; [lia|]. intros n _. pose proof (tries_block f n). lia. }
  pose proof (Hb (failed_ids (tasks p)) (tasks p)) as H1. rewrite <- tasks_propagate in H1.
  pose proof (tries_sum (is_ready (propagate_blocking p)) (answered g) (tasks (propagate_blocking p))) as H2.
  assert (H3 : Forall (sound_task (tasks (propagate_blocking p))) (tasks (propagate_blocking p))) by by apply sound_block.
  specialize (H2 (fun n Hn => tries_answered _ _ n Hfit H3 Hn)).
  etrans; [apply Nat.add_le_mono_r, Hb|]. cbn [tasks with_tasks]. lia.
Qed.

(** *** Settling *)

(** [n] waits for [f], perhaps through others. *)
Definition behind (l : list TaskNode) : TaskNode -> TaskNode -> Prop :=
  rtc (fun n n' => n ∈ l /\ n' ∈ l /\ task_id n' ∈ dependencies n).

(** Every task is done, or it stands behind one that was given up. *)
Definition settled (l : list TaskNode) : Prop :=
  forall n, n ∈ l -> task_status n = Done \/ exists f, f ∈ l /\ task_status f = TaskFailed /\ behind l n f.

Definition acyclic (l : list TaskNode) : Prop := exists r : NodeId -> nat, forall n d, n ∈ l -> d ∈ dependencies n -> (r d < r (task_id n))%nat.

Lemma forallb_witness {T : Type} (f : T -> bool) (l : list T) : forallb f l = false -> exists x, x ∈ l /\ f x = false.
Proof.
  induction l as [|x l IH]; simpl; [done|]. destruct (f x) eqn:Hx; [|intros _; exists x; split; [left|done]].
  intros (y & Hy & Hf)%IH. exists y. split; [by right|done].
Qed.

(** A task that is neither done nor given up waits for one that is not done. *)
Lemma idle_waits p n :
  Forall (sound_task (tasks p)) (tasks p) -> tasks (propagate_blocking p) = tasks p -> ready_tasks p = [] -> n ∈ tasks p ->
  task_status n = Done \/ task_status n = TaskFailed
  \/ exists n', n' ∈ tasks p /\ task_id n' ∈ dependencies n /\ task_status n' <> Done.
Proof.
  rewrite Forall_forall. intros Hsound Hstable Hidle Hn. pose proof (Hsound n Hn) as Hs. unfold sound_task in Hs.
  destruct (task_status n) eqn:Hst; try done; [| |by left|by right; left]; right; right.
  - assert (Hnr : is_ready (propagate_blocking p) n = false).
    { destruct (is_ready _ n) eqn:Hr; [|done]. exfalso. unfold ready_tasks in Hidle.
      assert (Hin : n ∈ List.filter (is_ready (propagate_blocking p)) (tasks (propagate_blocking p))).
      { apply list_elem_of_In, filter_In. rewrite <- list_elem_of_In, Hstable. done. }
      rewrite Hidle in Hin. by apply elem_of_nil in Hin. }
    unfold is_ready in Hnr. rewrite Hst in Hnr. change (bool_decide (Unassigned = Unassigned)) with true in Hnr.
    apply forallb_witness in Hnr as (d & Hd & Hnd). unfold is_done in Hnd. rewrite Hstable in Hnd.
    destruct (List.find (has_id d) (tasks p)) as [n'|] eqn:Hf; [|done]. apply List.find_some in Hf as [Hin Hid%N.eqb_eq].
    exists n'. split; [by apply list_elem_of_In|]. split; [by rewrite Hid|]. by apply bool_decide_eq_false in Hnd.
  - destruct Hs as (d & Hd & (n' & Hn' & Hid & Hf)%elem_of_failed). exists n'. split; [done|]. split; [by rewrite Hid|]. by rewrite Hf.
Qed.

Lemma idle_settled p :
  acyclic (tasks p) -> Forall (sound_task (tasks p)) (tasks p) -> tasks (propagate_blocking p) = tasks p -> ready_tasks p = [] -> settled (tasks p).
Proof.
  intros [r Hr] Hsound Hstable Hidle n. remember (r (task_id n)) as k eqn:Hk. revert n Hk.
  induction (lt_wf k) as [k _ IH]. intros n -> Hn.
  destruct (idle_waits p n Hsound Hstable Hidle Hn) as [Hd|[Hf|(n' & Hn' & Hdep & Hnd)]]; [by left|right; exists n; split; [done|]; split; [done|constructor]|].
  right. destruct (IH _ (Hr n _ Hn Hdep) n' eq_refl Hn') as [Hd|(f & Hf & Hst & Hb)]; [done|]. exists f. split; [done|]. split; [done|].
  apply (rtc_l _ n n'); [done|exact Hb].
Qed.

Lemma stable_after_tick p p' g : tasks p' = after_tick p g -> tasks (propagate_blocking p') = tasks p'.
Proof. intros Ht. rewrite tasks_propagate, Ht. unfold after_tick. rewrite <- tasks_propagate. apply propagate_twice. Qed.

(** Ids, dependencies and the capabilities asked for stay. *)
Definition shape (n : TaskNode) : NodeId * list NodeId * list text := (task_id n, dependencies n, required_capabilities n).

Lemma shape_ids (l l' : list TaskNode) : shape <$> l = shape <$> l' -> task_id <$> l = task_id <$> l'.
Proof.
  intros Hs. change task_id with ((fst ∘ fst) ∘ shape). rewrite (list_fmap_compose shape (fst ∘ fst) l), (list_fmap_compose shape (fst ∘ fst) l'). by rewrite Hs.
Qed.

Lemma shape_acyclic l l' : shape <$> l = shape <$> l' -> acyclic l -> acyclic l'.
Proof.
  intros Hs [r Hr]. exists r. intros n d Hn Hd. assert (Hin : shape n ∈ shape <$> l) by (rewrite Hs; by apply list_elem_of_fmap_2).
  apply list_elem_of_fmap in Hin as (n0 & [= Hid Hdep _] & Hn0). rewrite Hid. apply Hr; [done|]. by rewrite <- Hdep.
Qed.

Lemma after_tick_shape p g : shape <$> after_tick p g = shape <$> tasks p.
Proof.
  assert (Hb : forall f n, shape (block f n) = shape n) by (intros f n; unfold block; by destruct (_ && _)).
  assert (Ha : forall n, shape (answered g n) = shape n).
  { intros n. unfold answered. destruct (g !! _) as [[agent o]|]; [|done]. destruct o as [| | | |why]; try done. simpl. by destruct (_ <=? _). }
  unfold after_tick. rewrite tasks_propagate. cbn [tasks with_tasks]. rewrite tasks_propagate, <- !list_fmap_compose.
  apply list_fmap_ext. intros i n _. unfold compose. by rewrite Hb, Ha, Hb.
Qed.

Lemma block_given_up f n : task_status (block f n) = TaskFailed <-> task_status n = TaskFailed.
Proof. pose proof (block_failed f n) as Hb. unfold is_failed in Hb. rewrite <- (bool_decide_eq_true (task_status n = _)), <- Hb. by rewrite bool_decide_eq_true. Qed.

Lemma ready_tasks_ext p p' : tasks (propagate_blocking p) = tasks (propagate_blocking p') -> ready_tasks p = ready_tasks p'.
Proof.
  intros Ht. unfold ready_tasks. rewrite Ht. apply List.filter_ext. intros n. unfold is_ready. f_equal.
  induction (dependencies n) as [|d k IH]; [done|]. simpl. rewrite IH. unfold is_done at 1 2. by rewrite Ht.
Qed.

Lemma idle_stays p p' g : answers_fit (propagate_blocking p) g -> tasks p' = after_tick p g -> ready_tasks p = [] -> ready_tasks p' = [].
Proof.
  intros Hfit Ht Hr. rewrite <- Hr. apply ready_tasks_ext. rewrite (stable_after_tick _ _ _ Ht), Ht. unfold after_tick.
  assert (Ha : answered g <$> tasks (propagate_blocking p) = tasks (propagate_blocking p)).
  { etrans; [|apply list_fmap_id]. apply list_fmap_ext. intros i n Hn%list_elem_of_lookup_2. specialize (Hfit n Hn). unfold answered.
    destruct (g !! task_id n) as [[agent o]|]; [|done]. destruct Hfit as [Hready _]. exfalso.
    assert (Hin : n ∈ ready_tasks p) by (apply list_elem_of_In, filter_In; by rewrite <- list_elem_of_In). rewrite Hr in Hin. by apply elem_of_nil in Hin. }
  rewrite Ha. apply (propagate_twice p).
Qed.

Lemma fresh_tries l : Forall fresh_task l -> sum_list_with tries_left l = ((N.to_nat RETRY_LIMIT + 1) * length l)%nat.
Proof.
  induction 1 as [|n l [Hs Ha] _ IH]; [done|]. cbn [sum_list_with length]. rewrite IH. unfold tries_left. rewrite Hs, Ha. unfold RETRY_LIMIT.
  change (bool_decide (Unassigned = Unassigned)) with true. cbv iota. lia.
Qed.

Section settling.
Context {V G Env M : Type} `{ResultGraph V G Env (M := M)}.
Context {A X I B AE ME Mem : Type} `{!AgentPool M A} `{!ExplanationLog M X} `{IntentGraph M I} `{ProgressBus M B}.
Context (of_json : Json -> V) (outside : nat -> Env) (sid : N).

Abbreviation sess := (CoordinationSession (V := V) (G := G) (A := A) (X := X) (I := I) (B := B) (Mem := Mem)).
Abbreviation alloc := (allocate (AE := AE) (ME := ME) of_json outside).

(** What the rest of the program does without steering this session. *)
Definition leaves_alone (s s' : sess) : Prop :=
  plans s' !! sid = plans s !! sid /\ escalations s' !! sid = escalations s !! sid.

(** A call of [allocate] that succeeds, in which every agent answers and none is kept from
    its work by a missing consent, a quota or a denial. *)
Inductive tick : sess -> list AllocationRecord -> sess -> Prop :=
| ticked s s0 now1 now2 wall1 wall2 m t work others records s' :
    leaves_alone s s0 -> (forall s, leaves_alone s (others s)) -> (forall ds a, length (work ds a).1 = length ds) ->
    alloc now1 now2 wall1 wall2 m t sid work others s0 = Some (Ok records, s') ->
    Forall (fun a => alloc_outcome a <> Claimed) records ->
    tick s records s'.

Inductive ticks : sess -> list (list AllocationRecord) -> sess -> Prop :=
| ticks_none s : ticks s [] s
| ticks_more s rs s1 records s' : ticks s rs s1 -> tick s1 records s' -> ticks s (rs ++ [records]) s'.

(** Everyone who was given up was escalated. *)
Definition failures_escalated (l : list TaskNode) (es : list Escalation) : Prop :=
  forall n, n ∈ l -> task_status n = TaskFailed -> exists e, e ∈ es /\ esc_task e = task_id n.

Lemma tick_answers s p records s' :
  plans s !! sid = Some p -> NoDup (task_id <$> tasks p) -> tick s records s' ->
  exists p' g, plans s' !! sid = Some p' /\ tasks p' = after_tick p g /\ answers_fit (propagate_blocking p) g
    /\ length records = length (ready_tasks p)
    /\ default [] (escalations s' !! sid) = default [] (escalations s !! sid) ++ tick_escalations g (tasks (propagate_blocking p)).
Proof.
  intros Hp Hnd Ht. inversion Ht as [? s0 now1 now2 wall1 wall2 m t work others ? ? [Hp0 He0] Hothers Hwork Halloc Hrec]; subst. rewrite Hp in Hp0.
  destruct (ends_allocate of_json outside work others sid Hwork (fun s => proj1 (Hothers s)) (fun s => proj2 (Hothers s)) _ _ _ _ _ _ _ _ Hp0 Hnd _ _ Halloc)
    as (p' & g & Hp' & Ht' & Hdom & _ & Hrecs & Hesc). rewrite He0 in Hesc.
  exists p', g. split; [done|]. split; [done|]. split; [|split; [by rewrite (Forall2_length _ _ _ Hrecs)|done]].
  intros n Hn. destruct (is_ready (propagate_blocking p) n) eqn:Hr.
  - assert (Hin : n ∈ ready_tasks p) by (apply list_elem_of_In, filter_In; by rewrite <- list_elem_of_In).
    destruct (list_elem_of_lookup_1 _ _ Hin) as [k Hk]. destruct (Forall2_lookup_l _ _ _ _ _ Hrecs Hk) as (a0 & Ha & Hid & o & Hg & Ho).
    rewrite Hg. split; [done|]. rewrite <- Ho. rewrite Forall_lookup in Hrec. by apply (Hrec k).
  - destruct (g !! task_id n) as [[agent o]|] eqn:Hg; [|done]. exfalso.
    assert (Hin : task_id n ∈ dom g) by (by apply elem_of_dom). rewrite Hdom in Hin.
    apply elem_of_list_to_set, list_elem_of_fmap in Hin as (n' & Hid & [Hn' Hr']%list_elem_of_In%filter_In). apply list_elem_of_In in Hn'.
    assert (n = n') as ->; [|congruence]. apply (same_task (tasks (propagate_blocking p))); try done. by rewrite tasks_propagate, ids_block.
Qed.

Lemma tick_escalates p g es :
  answers_fit (propagate_blocking p) g -> failures_escalated (tasks p) es ->
  failures_escalated (after_tick p g) (es ++ tick_escalations g (tasks (propagate_blocking p))).
Proof.
  intros Hfit Hes n'. unfold after_tick. rewrite tasks_propagate. cbn [tasks with_tasks]. set (q := propagate_blocking p) in *.
  intros (n1 & -> & (n & -> & Hn)%list_elem_of_fmap)%list_elem_of_fmap. intros Hf.
  assert (Hf1 : task_status (answered g n) = TaskFailed) by (by apply block_given_up in Hf).
  rewrite block_id. pose proof (Hfit n Hn) as Hg. unfold answered in *. destruct (g !! task_id n) as [[agent o]|] eqn:Hgn.
  - destruct o as [| | | |why]; try done. simpl in *. unfold RETRY_LIMIT in *. destruct (attempts n + 1 <=? 1) eqn:Hk; [done|].
    eexists. split; [apply elem_of_app; right; apply list_elem_of_bind; exists n; split; [|done]; rewrite Hgn; simpl; unfold RETRY_LIMIT; rewrite Hk; left|done].
  - unfold q in Hn. rewrite tasks_propagate in Hn. apply list_elem_of_fmap in Hn as (n0 & -> & Hn0). rewrite block_id.
    destruct (Hes n0 Hn0) as (e & He & Hid); [|exists e; split; [apply elem_of_app; by left|done]].
    by apply block_given_up in Hf1.
Qed.

Lemma ticks_inv s rs s' p :
  plans s !! sid = Some p -> NoDup (task_id <$> tasks p) -> Forall fresh_task (tasks p) -> ticks s rs s' ->
  exists p', plans s' !! sid = Some p' /\ shape <$> tasks p' = shape <$> tasks p
    /\ Forall (sound_task (tasks p')) (tasks p') /\ failures_escalated (tasks p') (default [] (escalations s' !! sid))
    /\ (sum_list_with tries_left (tasks p') + length (concat rs) <= sum_list_with tries_left (tasks p))%nat
    /\ (rs <> [] -> tasks (propagate_blocking p') = tasks p')
    /\ (rs <> [] /\ ready_tasks p' = [] \/ (length rs <= length (concat rs))%nat).
Proof.
  intros Hp Hnd Hfresh Hrun. induction Hrun as [s|s rs s1 records s' Hrun IH Ht].
  - rewrite Forall_forall in Hfresh. exists p. split; [done|]. split; [done|].
    split; [apply Forall_forall; intros n Hn; destruct (Hfresh n Hn) as [Hs Ha]; unfold sound_task; rewrite Hs, Ha; done|].
    split; [intros n Hn Hf; destruct (Hfresh n Hn); congruence|]. split; [simpl; lia|]. split; [done|]. right. done.
  - destruct (IH Hp) as (p1 & Hp1 & Hshape & Hsound & Hesc & Hsum & Hstable & Hidle). clear IH.
    assert (Hnd1 : NoDup (task_id <$> tasks p1)) by (by rewrite (shape_ids _ _ Hshape)).
    destruct (tick_answers _ _ _ _ Hp1 Hnd1 Ht) as (p' & g & Hp' & Ht' & Hfit & Hlen & He').
    pose proof (tries_tick p1 g Hfit Hsound) as Htries. pose proof (stable_after_tick _ _ _ Ht') as Hst'.
    rewrite concat_app, length_app, length_app. cbn [concat length app]. rewrite app_nil_r, Hlen.
    exists p'. rewrite He', Ht'. split; [done|]. split; [by rewrite after_tick_shape|]. split; [by apply sound_tick|].
    split; [by apply tick_escalates|]. split; [lia|]. split; [intros _; by rewrite <- Ht'|].
    destruct (ready_tasks p1) as [|n k] eqn:Hr; [left|destruct Hidle as [[_ Hidle]|Hidle]; [by rewrite Hidle in Hr|right; cbn [length]; lia]].
    split; [by destruct rs|]. by apply (idle_stays p1 p' g).
Qed.

(** However the ticks are interleaved with what the rest of the program does: no more than
    [RETRY_LIMIT + 1] dispatches are made per task, and after more ticks than that the
    session has settled. *)
Theorem ticks_settle s rs s' p :
  plans s !! sid = Some p -> NoDup (task_id <$> tasks p) -> Forall fresh_task (tasks p) -> acyclic (tasks p) -> ticks s rs s' ->
  exists p', plans s' !! sid = Some p' /\ shape <$> tasks p' = shape <$> tasks p
    /\ (length (concat rs) <= (N.to_nat RETRY_LIMIT + 1) * length (tasks p))%nat
    /\ failures_escalated (tasks p') (default [] (escalations s' !! sid))
    /\ (forall n, n ∈ tasks p' -> task_status n = Done -> is_Some (task_result n))
    /\ (forall n, n ∈ tasks p' -> task_status n = TaskFailed -> attempts n = RETRY_LIMIT + 1)
    /\ ((length rs > (N.to_nat RETRY_LIMIT + 1) * length (tasks p))%nat -> ready_tasks p' = [] /\ settled (tasks p')).
Proof.
  intros Hp Hnd Hfresh Hac Hrun. destruct (ticks_inv _ _ _ _ Hp Hnd Hfresh Hrun) as (p' & Hp' & Hshape & Hsound & Hesc & Hsum & Hstable & Hidle).
  rewrite (fresh_tries _ Hfresh) in Hsum. exists p'. split; [done|]. split; [done|]. split; [lia|]. split; [done|].
  rewrite Forall_forall in Hsound. split; [intros n Hn Hs; specialize (Hsound n Hn); unfold sound_task in Hsound; by rewrite Hs in Hsound|].
  split; [intros n Hn Hs; specialize (Hsound n Hn); unfold sound_task in Hsound; by rewrite Hs in Hsound|].
  intros Hlen. destruct Hidle as [[Hne Hidle]|Hidle]; [|lia]. split; [done|]. apply idle_settled; [|by apply Forall_forall|by apply Hstable|done].
  eapply shape_acyclic, Hac. by symmetry.
Qed.
End settling.

(** ** Ticks succeed *)

Lemma alter_is_Some (f : TaskNode -> TaskNode) (l : list TaskNode) i j : is_Some (l !! j) -> is_Some (alter f i l !! j).
Proof.
  intros [n Hn]. destruct (decide (i = j)) as [->|Hne]; [rewrite list_lookup_alter_eq, Hn|rewrite list_lookup_alter_ne, Hn by done]; by eexists.
Qed.

Lemma started_is_Some ds l i : is_Some (l !! i) -> is_Some (started l ds !! i).
Proof. unfold started. revert l. induction ds as [|d ds IH]; intros l Hl; [done|]. cbn. apply IH. by apply alter_is_Some. Qed.

(** There is an agent for the task. *)
Definition manned (n : TaskNode) : Prop := is_Some (best_fit_manifest_with_plugins (required_capabilities n) []).

Lemma manned_fit n l : manned n -> is_Some (best_fit_manifest_with_plugins (required_capabilities n) l).
Proof.
  unfold manned, best_fit_manifest_with_plugins. rewrite app_nil_r. induction default_manifests as [|mf k IH]; simpl; [by intros [? ?]|].
  by destruct (offers mf _).
Qed.

Lemma shape_manned l l' : shape <$> l = shape <$> l' -> Forall manned l' -> Forall manned l.
Proof.
  rewrite !Forall_forall. intros Hs Hl n Hn. assert (Hin : shape n ∈ shape <$> l') by (rewrite <- Hs; by apply list_elem_of_fmap_2).
  apply list_elem_of_fmap in Hin as (n' & Heq & Hn'). specialize (Hl n' Hn'). unfold manned in *. by replace (required_capabilities n) with (required_capabilities n') by by injection Heq.
Qed.

Section calm.
Context {V G Env M : Type} `{ResultGraph V G Env (M := M)}.
Context {A X I B AE ME Mem : Type} `{!AgentPool M A} `{!ExplanationLog M X} `{IntentGraph M I} `{ProgressBus M B}.
Context (of_json : Json -> V) (outside : nat -> Env) (sid : N).

Abbreviation sess := (CoordinationSession (V := V) (G := G) (A := A) (X := X) (I := I) (B := B) (Mem := Mem)).
Abbreviation sessionM := (SessionM (V := V) (G := G) (A := A) (X := X) (I := I) (B := B) (Mem := Mem)).
#[local] Existing Instance session_ret.
#[local] Existing Instance session_bind.

(** [e] returns a value, and [Q] holds of it and of the session after. *)
Definition runs {T : Type} (e : sessionM T) (s : sess) (Q : T -> sess -> Prop) : Prop := exists r s', e s = Some (Ok r, s') /\ Q r s'.

Lemma runs_ret {T : Type} (a : T) s (Q : T -> sess -> Prop) : Q a s -> runs (mret a) s Q.
Proof. intros HQ. by exists a, s. Qed.

Lemma runs_bind {T U : Type} (e : sessionM T) (k : T -> sessionM U) s (Q : U -> sess -> Prop) :
  runs e s (fun a s1 => runs (k a) s1 Q) -> runs (e ≫= k) s Q.
Proof. intros (r & s1 & He & Hk). unfold runs, mbind, session_bind. by rewrite He. Qed.

Lemma runs_mono {T : Type} (e : sessionM T) s (Q R : T -> sess -> Prop) : runs e s Q -> (forall a s1, Q a s1 -> R a s1) -> runs e s R.
Proof. intros (r & s1 & He & HQ) HR. exists r, s1. split; [done|by apply HR]. Qed.

Lemma runs_ends {T : Type} (e : sessionM T) s (Q R : T -> sess -> Prop) : runs e s Q -> ends e s R -> runs e s (fun a s1 => Q a s1 /\ R a s1).
Proof. intros (r & s1 & He & HQ) HR. exists r, s1. split; [done|]. split; [done|by apply HR]. Qed.

Lemma runs_eq {T : Type} (e : sessionM T) s (Q : T -> sess -> Prop) : runs e s Q -> runs e s (fun a s1 => e s = Some (Ok a, s1) /\ Q a s1).
Proof. intros (r & s1 & He & HQ). by exists r, s1. Qed.

(** Nothing waits for the events of the session or of its explanations. *)
Definition calm (s : sess) : Prop := events s = None /\ xl_quiet (explanations s).
Definition remembers (s s' : sess) : Prop := forall e, xl_holds (explanations s) e -> xl_holds (explanations s') e.
Definition onward (s s' : sess) : Prop := calm s' /\ remembers s s'.

Lemma remembers_trans s1 s2 s3 : remembers s1 s2 -> remembers s2 s3 -> remembers s1 s3.
Proof. intros H12 H23 e He. by apply H23, H12. Qed.

Lemma onward_trans s1 s2 s3 : remembers s1 s2 -> onward s2 s3 -> onward s1 s3.
Proof. intros H12 [Hc H23]. split; [done|]. by eapply remembers_trans. Qed.

Lemma onward_same s s' : calm s -> events s' = events s -> explanations s' = explanations s -> onward s s'.
Proof. intros [He Hq] Hes Hxs. unfold onward, calm, remembers. by rewrite Hes, Hxs. Qed.

Lemma runs_updates (f : sess -> sess) s : runs (updates f) s (fun _ s1 => s1 = f s).
Proof. by exists tt, (f s). Qed.

Lemma runs_plan s p : plans s !! sid = Some p -> runs (plan sid) s (fun q s1 => q = p /\ s1 = s).
Proof. intros Hp. exists p, s. unfold plan. by rewrite Hp. Qed.

Lemma runs_publish now m t schema payload s : events s = None -> runs (publish now m t sid schema payload) s (fun _ s1 => s1 = s).
Proof. intros He. exists tt, s. unfold publish. by rewrite He. Qed.

Lemma runs_explanations {T : Type} (f : X -> option (Result T ExplainabilityError * X)) s a x :
  f (explanations s) = Some (Ok a, x) -> runs (on_explanations f) s (fun b s1 => b = a /\ s1 = with_explanations s x).
Proof. intros Hf. exists a, (with_explanations s x). unfold on_explanations. by rewrite Hf. Qed.

(** The caller of the session. *)
Context (m : M) (t : CapabilityToken).

Section at_instant.
Context (now : Instant).
Hypothesis may_write : authorize now m t WRITE = Ok tt.

Lemma runs_begin s action intent agent cap span wall :
  calm s -> runs (on_explanations (fun x => xl_begin now m t x action intent agent cap span wall)) s (fun e s1 => onward s s1 /\ xl_holds (explanations s1) e).
Proof.
  intros [He Hq]. destruct (xl_begins now m t (explanations s) action intent agent cap span wall may_write Hq) as (e & x & Hb & Hq' & Hh & Hk).
  eapply runs_mono; [by apply (runs_explanations _ _ e x)|]. intros ? ? [-> ->]. by repeat split.
Qed.

Lemma runs_append s e step :
  calm s -> xl_holds (explanations s) e -> runs (on_explanations (fun x => xl_append_step now m t x e step)) s (fun _ s1 => onward s s1).
Proof.
  intros [He Hq] Hh. destruct (xl_appends now m t (explanations s) e step may_write Hq Hh) as (x & Hb & Hq' & Hk).
  eapply runs_mono; [by apply (runs_explanations _ _ tt x)|]. intros ? ? [-> ->]. by repeat split.
Qed.

Lemma runs_transition s e st :
  calm s -> xl_holds (explanations s) e -> runs (on_explanations (fun x => xl_transition now m t x e st)) s (fun _ s1 => onward s s1).
Proof.
  intros [He Hq] Hh. destruct (xl_transitions now m t (explanations s) e st may_write Hq Hh) as (x & Hb & Hq' & Hk).
  eapply runs_mono; [by apply (runs_explanations _ _ tt x)|]. intros ? ? [-> ->]. by repeat split.
Qed.

Lemma runs_choose s p n : manned n -> runs (choose_agent now m t sid p n) s (fun _ s1 => events s1 = events s /\ explanations s1 = explanations s).
Proof.
  intros Hm. unfold runs, choose_agent. destruct (candidate _ _ _) as [a0|]; [by exists a0, s|].
  destruct (manned_fit n (ap_contributed (agent_runtime s)) Hm) as [mf ->].
  destruct (ap_spawns now m t (agent_runtime s) mf (Some (task_id n)) may_write) as (id & a' & ->). by eexists _, _.
Qed.

Lemma runs_prepare_one wall id s p idx n :
  calm s -> plans s !! sid = Some p -> index_of (has_id id) (tasks p) = Some idx -> tasks p !! idx = Some n -> manned n ->
  runs (prepare_one now wall m t sid id) s (fun d s1 => onward s s1 /\ xl_holds (explanations s1) (d_explanation d)).
Proof.
  intros Hcalm Hp Hi Hn Hm. unfold runs, prepare_one. rewrite Hp, Hi. cbn [mbind option_bind]. rewrite Hn. cbn [mbind option_bind].
  apply runs_bind. eapply runs_mono; [apply runs_ends; [by apply runs_choose|by apply ends_choose]|].
  intros agent s1 [[He1 Hx1] [(p1 & Hs1 & _) _]]. pose proof (onward_same _ _ Hcalm He1 Hx1) as [Hc1 Hr1].
  apply runs_bind. eapply runs_mono; [apply runs_plan; by rewrite Hs1, lookup_insert_eq|]. intros ? ? [-> ->].
  apply runs_bind. eapply runs_mono; [apply runs_updates|]. intros _ s2 ->. eapply (runs_mono _ _ (fun d s9 => onward s1 s9 /\ xl_holds (explanations s9) (d_explanation d)));
    [|intros d s9 [Ho Hh]; split; [exact (onward_trans _ _ _ Hr1 Ho)|exact Hh]].
  set (s2 := with_plans _ _). assert (Hc2 : calm s2) by done. assert (Hr2 : remembers s1 s2) by by intros e.
  clearbody s2. apply runs_bind. eexists _, _. split; [done|].
  apply runs_bind. eapply runs_mono; [apply runs_updates|]. intros _ s3 ->.
  apply runs_bind. set (s3 := with_failures _ _). pose proof (xl_next_keeps (explanations s3)) as [Hk1 Hk2].
  destruct (xl_next_action (explanations s3)) as [act x3] eqn:Hact. eexists _, _. split; [by rewrite Hact|]. set (s4 := with_explanations s3 x3).
  assert (Hc4 : calm s4) by (split; [apply Hc2|apply Hk1, Hc2]). assert (Hr4 : remembers s2 s4) by (intros e; apply Hk2). clearbody s4. clear s3 Hact Hk1 Hk2.
  apply runs_bind. eapply runs_mono; [by apply runs_begin|]. intros e s5 [[Hc5 Hr5] Hh5].
  apply runs_bind. eapply runs_mono; [by apply runs_append|]. intros ? s6 [Hc6 Hr6]. apply Hr6 in Hh5.
  apply runs_bind. eapply (runs_mono _ _ (fun _ s7 => onward s6 s7)).
  { case_bool_decide; [by apply runs_append|]. apply runs_ret. split; [done|by intros ?]. }
  intros ? s7 [Hc7 Hr7]. apply Hr7 in Hh5.
  apply runs_bind. eapply runs_mono; [by apply runs_transition|]. intros ? s8 [Hc8 Hr8]. apply Hr8 in Hh5. apply runs_ret. split; [|done].
  split; [done|]. intros e' He'. by apply Hr8, Hr7, Hr6, Hr5, Hr4, Hr2.
Qed.

Lemma runs_prepare_each wall ids s p :
  calm s -> plans s !! sid = Some p -> (forall id, id ∈ ids -> exists idx n, index_of (has_id id) (tasks p) = Some idx /\ tasks p !! idx = Some n /\ manned n) ->
  runs (prepare_each now wall m t sid ids) s (fun ds s1 => onward s s1 /\ Forall (fun d => xl_holds (explanations s1) (d_explanation d)) ds).
Proof.
  revert s p. induction ids as [|id ids IH]; intros s p Hc Hp Hids; cbn [prepare_each].
  { apply runs_ret. split; [by split; [|intros ?]|constructor]. }
  destruct (Hids id) as (idx & n & Hi & Hn & Hm); [left|].
  apply runs_bind. eapply runs_mono; [apply runs_ends; [by eapply runs_prepare_one|by apply (ends_prepare_one (Env := Env))]|].
  intros d s1 [[[Hc1 Hr1] Hh] (_ & _ & (p1 & Hs1 & Ht1 & _) & _)].
  apply runs_bind. eapply runs_mono; [apply (IH s1 p1 Hc1); [by rewrite Hs1, lookup_insert_eq|]|].
  { intros id' Hid'. destruct (Hids id') as (idx' & n' & Hi' & Hn' & Hm'); [by right|]. rewrite Ht1. exists idx'.
    destruct (decide (d_idx d = idx')) as [->|Hne].
    - eexists. rewrite index_of_alter by done. split; [done|]. rewrite list_lookup_alter_eq, Hn'. by split.
    - exists n'. rewrite index_of_alter by done. split; [done|]. by rewrite list_lookup_alter_ne. }
  intros ds s2 [[Hc2 Hr2] Hds]. apply runs_ret. split; [by apply (onward_trans _ s1)|]. constructor; [by apply Hr2|done].
Qed.

Lemma record_result_calm wall root id value (s : sess) :
  let s' := record_result (AE := AE) (ME := ME) of_json outside now wall m t sid root id value s in
  events s' = events s /\ explanations s' = explanations s.
Proof.
  unfold record_result. destruct (nc_create _ _ _ _ _ _ _ _) as [[node|e] g]; [|done]. simpl. destruct (recovery s); [|done].
  destruct (recovery_point_create _ _ _ _ _ _ _ _) as [[point|e] rs]; [|done]. simpl. done.
Qed.

Lemma runs_set_task idx f s p n :
  calm s -> plans s !! sid = Some p -> tasks p !! idx = Some n -> runs (set_task sid idx f) s (fun _ s1 => onward s s1 /\ is_Some (plans s1 !! sid)).
Proof.
  intros Hc Hp Hn. unfold runs, set_task. rewrite Hp. cbn. rewrite Hn. eexists _, _. split; [done|]. split; [by apply onward_same|]. cbn. by rewrite lookup_insert_eq.
Qed.

Lemma runs_bump id s : calm s -> is_Some (plans s !! sid) -> runs (bump sid id) s (fun _ s1 => onward s s1).
Proof. intros Hc [p Hp]. unfold runs, bump. rewrite Hp. eexists _, _. split; [done|]. by apply onward_same. Qed.

Lemma runs_failure idx s p n :
  calm s -> plans s !! sid = Some p -> tasks p !! idx = Some n -> runs (handle_task_failure now m t sid idx) s (fun _ s1 => onward s s1).
Proof.
  intros Hc Hp Hn. unfold runs, handle_task_failure. rewrite Hp. cbn [mbind option_bind]. rewrite Hn. cbn [mbind option_bind].
  destruct (_ <=? _); [eexists _, _; split; [done|]; by apply onward_same|].
  apply runs_bind. eapply runs_mono; [apply runs_updates|]. intros ? s1 ->. unfold escalate.
  apply runs_bind. eapply runs_mono; [apply runs_publish; apply Hc|]. intros ? s2 ->.
  eapply runs_mono; [apply runs_updates|]. intros ? s3 ->. by apply onward_same.
Qed.

Lemma runs_outcome wall root d o s p n :
  calm s -> plans s !! sid = Some p -> tasks p !! d_idx d = Some n ->
  runs (apply_outcome (AE := AE) (ME := ME) of_json outside now wall m t sid root d o) s (fun _ s1 => onward s s1).
Proof.
  intros Hc Hp Hn. unfold apply_outcome. destruct o as [value| | | |why].
  2-4: apply runs_bind; (eapply runs_mono; [by eapply runs_set_task|]); intros ? s1 [Ho _]; by apply runs_ret.
  - apply runs_bind. eapply runs_mono; [by eapply runs_set_task|]. intros ? s1 [[Hc1 Hr1] Hp1].
    apply runs_bind. eapply runs_mono; [apply runs_updates|]. intros ? s2 Hs2.
    destruct (record_result_calm wall root (d_task d) value s1) as [He2 Hx2]. rewrite <- Hs2 in He2, Hx2.
    destruct (record_result_keeps (AE := AE) (ME := ME) of_json outside now wall m t sid root (d_task d) value s1) as [Kp2 _]. rewrite <- Hs2 in Kp2. clear Hs2.
    destruct (onward_same s1 s2 Hc1 He2 Hx2) as [Hc2 Hr2].
    apply runs_bind. eapply runs_mono; [apply runs_bump; [done|by rewrite Kp2]|]. intros ? s3 [Hc3 Hr3].
    apply runs_bind. eapply runs_mono; [apply runs_updates|]. intros ? s4 ->. unfold publish_progress.
    apply runs_bind. eapply runs_mono; [apply runs_publish; apply Hc3|]. intros ? s5 ->. apply runs_ret. split; [done|].
    intros e He. by apply Hr3, Hr2, Hr1.
  - apply runs_bind. eapply runs_mono; [apply runs_ends; [by eapply runs_failure|by eapply (ends_failure _ _ _ _ _ _ _ _ why)]|].
    intros ? s1 [[Hc1 Hr1] [(p1 & Hp1 & Ht1 & _) _]].
    apply runs_bind. eapply runs_mono; [apply runs_ends; [apply runs_bump; [done|by exists p1]|by eapply ends_bump]|].
    intros ? s2 [[Hc2 Hr2] [(p2 & Hp2 & Ht2 & _) _]].
    apply runs_bind. eexists _, s2. split; [unfold status_at; rewrite Hp2; cbn; by rewrite Ht2, Ht1, list_lookup_alter_eq, Hn|].
    apply runs_ret. split; [done|]. intros e He. by apply Hr2, Hr1.
Qed.

Lemma runs_apply_one wall root d o s p n :
  calm s -> xl_holds (explanations s) (d_explanation d) -> plans s !! sid = Some p -> tasks p !! d_idx d = Some n ->
  runs (apply_one (AE := AE) (ME := ME) of_json outside now wall m t sid root d (Ok o)) s (fun _ s1 => onward s s1).
Proof.
  intros Hc Hh Hp Hn. unfold apply_one. apply runs_bind. exists o, s. split; [done|].
  apply runs_bind. eapply runs_mono; [by eapply runs_outcome|]. intros [control st] s1 [Hc1 Hr1].
  apply runs_bind. eapply runs_mono; [by apply runs_transition; [|apply Hr1]|]. intros ? s2 [Hc2 Hr2].
  apply runs_bind. eapply runs_mono; [apply runs_updates|]. intros ? s3 ->. apply runs_ret. split; [done|]. intros e He. by apply Hr2, Hr1.
Qed.

Lemma runs_apply_each wall root ds os s p :
  calm s -> length os = length ds -> Forall (fun d => xl_holds (explanations s) (d_explanation d)) ds -> plans s !! sid = Some p ->
  Forall (fun d => is_Some (tasks p !! d_idx d)) ds ->
  runs (apply_each (AE := AE) (ME := ME) of_json outside now wall m t sid root (zip ds (Ok <$> os))) s (fun _ s1 => onward s s1 /\ is_Some (plans s1 !! sid)).
Proof.
  revert os s p. induction ds as [|d ds IH]; intros [|o os] s p Hc Hlen Hh Hp Hat; try done; cbn.
  { apply runs_ret. split; [by split; [|intros ?]|by exists p]. }
  apply Forall_cons in Hh as [Hd Hh], Hat as [[n Hn] Hat].
  apply runs_bind. eapply runs_mono; [apply runs_ends; [by eapply runs_apply_one|by eapply ends_apply_one]|].
  intros a0 s1 [[Hc1 Hr1] (o' & _ & [(p1 & Hp1 & Ht1 & _) _] & _)].
  apply runs_bind. eapply runs_mono; [apply (IH os s1 p1 Hc1); [by injection Hlen| |done|]|].
  - eapply Forall_impl; [exact Hh|]. intros d' Hd'. by apply Hr1.
  - eapply Forall_impl; [exact Hat|]. intros d' Hd'. cbn in Hd'. rewrite Ht1. by apply alter_is_Some.
  - intros records s2 [Ho Hp2]. apply runs_ret. split; [by apply (onward_trans _ s1)|done].
Qed.

Lemma runs_prepare wall s p :
  calm s -> plans s !! sid = Some p -> NoDup (task_id <$> tasks p) -> Forall manned (tasks p) ->
  runs (prepare_dispatches now wall m t sid) s (fun ds s1 => onward s s1 /\ Forall (fun d => xl_holds (explanations s1) (d_explanation d)) ds).
Proof.
  intros Hc Hp Hnd Hm. unfold prepare_dispatches. apply runs_bind. eapply runs_mono; [by apply runs_plan|]. intros ? ? [-> ->].
  apply runs_bind. eapply runs_mono; [apply runs_updates|]. intros ? s1 ->. set (q := propagate_blocking p).
  eapply runs_mono; [apply (runs_prepare_each wall _ _ q); [done|by apply lookup_insert_eq|]|intros ds s2 [[Hc2 Hr2] Hds]; by split; [split; [|intros e He; apply Hr2]|]].
  intros id (n & -> & [Hn _]%list_elem_of_In%filter_In)%list_elem_of_fmap. apply list_elem_of_In in Hn.
  assert (Hndq : NoDup (task_id <$> tasks q)) by (unfold q; by rewrite tasks_propagate, ids_block).
  destruct (list_elem_of_lookup_1 _ _ Hn) as [i Hi]. exists i, n. split; [by apply index_of_lookup|]. split; [done|].
  unfold q in Hn. rewrite tasks_propagate in Hn. apply list_elem_of_fmap in Hn as (n0 & -> & Hn0). rewrite Forall_forall in Hm.
  specialize (Hm n0 Hn0). unfold manned, block in *. by destruct (_ && _).
Qed.
End at_instant.

Section one_tick.
Context (work : list PreparedDispatch -> A -> list (Result InvokeOutcome AgentError) * A) (others : sess -> sess).
(** No thread loses its agent, and nobody else touches this session or ends the calm. *)
Definition works : Prop := forall ds a, exists os, (work ds a).1 = Ok <$> os /\ length os = length ds.
Definition stands_aside : Prop := forall s, leaves_alone sid s (others s) /\ (calm s -> onward s (others s)).

Lemma runs_allocate now1 now2 wall1 wall2 s p :
  works -> stands_aside -> authorize now1 m t WRITE = Ok tt -> authorize now2 m t WRITE = Ok tt ->
  calm s -> plans s !! sid = Some p -> NoDup (task_id <$> tasks p) -> Forall manned (tasks p) ->
  runs (allocate (AE := AE) (ME := ME) of_json outside now1 now2 wall1 wall2 m t sid work others) s (fun _ s1 => calm s1).
Proof.
  intros Hwork Hothers Ha1 Ha2 Hc Hp Hnd Hm. unfold allocate. apply runs_bind. exists tt, s. split; [unfold require; by rewrite Ha1|].
  apply runs_bind. eapply runs_mono; [apply runs_ends; [by eapply runs_prepare|by eapply ends_prepare]|].
  intros ds s1 [[[Hc1 Hr1] Hh] (Hds & (p1 & Hp1 & Ht1 & _) & _)].
  destruct ds as [|d0 ds0] eqn:Hds0; [by apply runs_ret|]. rewrite <- Hds0 in *. clear Hds0 d0 ds0.
  destruct (Hwork ds (agent_runtime s1)) as (os & Hos & Hlen). destruct (work ds (agent_runtime s1)) as [rs a'] eqn:Hw. simpl in Hos.
  apply runs_bind. eexists _, _. split; [rewrite Hw; done|]. set (s1' := with_agent_runtime s1 a').
  destruct (Hothers s1') as [[Hop _] Hoc]. destruct (Hoc Hc1) as [Hc2 Hr2]. set (s2 := others s1') in *. clearbody s2.
  assert (Hp2 : plans s2 !! sid = Some p1) by (by rewrite Hop).
  unfold apply_dispatch_results. apply runs_bind. eapply runs_mono; [by apply runs_plan|]. intros ? ? [-> ->].
  apply runs_bind. rewrite Hos. eapply runs_mono; [apply (runs_apply_each now2 Ha2 _ _ ds os s2 p1 Hc2 Hlen)|].
  - eapply Forall_impl; [exact Hh|]. intros d Hd. by apply Hr2.
  - done.
  - apply Forall_forall. intros d [k Hk]%list_elem_of_lookup_1. destruct (Forall2_lookup_r _ _ _ _ _ Hds Hk) as (id & _ & _ & Hi).
    apply index_of_some in Hi as (n & Hn & _). rewrite Ht1. apply started_is_Some. by exists n.
  - intros records s3 [[Hc3 _] [p3 Hp3]]. apply runs_bind. eapply runs_mono; [by apply runs_plan|]. intros ? ? [-> ->].
    apply runs_bind. eapply runs_mono; [apply runs_updates|]. intros ? s4 ->. by apply runs_ret.
Qed.
End one_tick.

(** Calling [allocate] again and again. *)
Section again.
Context (now wall : nat -> N) (work : nat -> list PreparedDispatch -> A -> list (Result InvokeOutcome AgentError) * A) (others : nat -> sess -> sess).

Fixpoint allocate_times (k i : nat) : sessionM (list (list AllocationRecord)) :=
  match k with
  | O => mret []
  | S k =>
      rs ← allocate (AE := AE) (ME := ME) of_json outside (now (2 * i)) (now (2 * i + 1)) (wall (2 * i)) (wall (2 * i + 1)) m t sid (work i) (others i);
      rest ← allocate_times k (S i);
      mret (rs :: rest)
  end.

(** A fair world: the caller may write, the agents answer with a result or a failure. *)
Definition only_results (f : list PreparedDispatch -> A -> list (Result InvokeOutcome AgentError) * A) : Prop :=
  forall ds a, exists os, (f ds a).1 = Ok <$> os /\ length os = length ds /\ Forall (fun o => match o with InvokeResult _ | InvokeFailed _ => True | _ => False end) os.
Hypothesis may_write : forall i, authorize (now i) m t WRITE = Ok tt.
Hypothesis fair : forall i, only_results (work i).
Hypothesis alone : forall i, stands_aside (others i).

Lemma fair_works i : works (work i).
Proof. intros ds a. destruct (fair i ds a) as (os & Hos & Hlen & _). by exists os. Qed.

Lemma fair_records i (s : sess) p records (s' : sess) :
  tick_done (work i) sid s p records s' -> Forall (fun a => alloc_outcome a <> Claimed) records.
Proof.
  intros (p' & g & _ & _ & _ & (ds & os & a & -> & Hos) & Hrecs & _). destruct (fair i ds a) as (os' & Hos' & _ & Hfair).
  rewrite Hos in Hos'. assert (Inj (=) (=) (@Ok InvokeOutcome AgentError)) by (by intros x y [= ->]). apply (inj _) in Hos' as <-.
  clear -Hrecs Hfair. induction Hrecs as [|n r k records (_ & o & Hg & Ho) _ IH]; constructor; [|done]. rewrite Ho.
  apply elem_of_list_to_map_2, elem_of_zip_r, elem_of_zip_r in Hg. rewrite Forall_forall in Hfair. specialize (Hfair o Hg).
  destruct o as [| | | |why]; try done. simpl. by destruct (_ <=? _).
Qed.

Lemma runs_ticks k i s0 p rs0 s :
  plans s0 !! sid = Some p -> NoDup (task_id <$> tasks p) -> Forall fresh_task (tasks p) -> Forall manned (tasks p) ->
  ticks (AE := AE) (ME := ME) of_json outside sid s0 rs0 s -> calm s ->
  runs (allocate_times k i) s (fun rs s' => ticks (AE := AE) (ME := ME) of_json outside sid s0 (rs0 ++ rs) s' /\ length rs = k).
Proof.
  intros Hp Hnd Hfresh Hm. revert i rs0 s. induction k as [|k IH]; intros i rs0 s Hrun Hc; cbn [allocate_times].
  { apply runs_ret. by rewrite app_nil_r. }
  destruct (ticks_inv _ _ _ _ _ _ _ Hp Hnd Hfresh Hrun) as (p1 & Hp1 & Hshape & _).
  assert (Hnd1 : NoDup (task_id <$> tasks p1)) by (by rewrite (shape_ids _ _ Hshape)).
  apply runs_bind. eapply runs_mono; [apply runs_eq, runs_ends; [apply (runs_allocate _ _ _ _ _ _ s p1 (fair_works i) (alone i))|]|]; try done.
  - by eapply shape_manned, Hm.
  - apply (ends_allocate of_json outside (work i) (others i) sid); [|intros s2; apply (alone i s2)..|done|done].
    intros ds a. destruct (fair_works i ds a) as (os & -> & <-). by rewrite length_fmap.
  - intros records s1 (Halloc & Hc1 & Htick). apply runs_bind. eapply runs_mono; [apply (IH (S i) (rs0 ++ [records]) s1); [|done]|].
    + eapply ticks_more; [exact Hrun|]. apply (ticked _ _ _ s s (now (2 * i)) (now (2 * i + 1)) (wall (2 * i)) (wall (2 * i + 1)) m t (work i) (others i)); try done.
      * intros s2. apply (alone i s2).
      * intros ds a. destruct (fair_works i ds a) as (os & -> & <-). by rewrite length_fmap.
      * by eapply fair_records.
    + intros rs s' [Hrs Hlen]. apply runs_ret. split; [|simpl; by rewrite Hlen]. by rewrite <- app_assoc in Hrs.
Qed.

(** C23. A session settles. Let its tasks be fresh, with distinct ids, no circular
    dependencies and an agent for each, and let the caller be allowed to write, nothing
    wait for events, and every agent answer with a result or a failure. Then
    [(RETRY_LIMIT + 1) * tasks + 1] calls of [allocate] return; they make no
    more than [RETRY_LIMIT + 1] dispatches per task; and after them no task is ready, and
    every task is done, with its result, or stands behind one that failed
    [RETRY_LIMIT + 1] times, for which an escalation was raised. *)
Theorem sessions_settle s p :
  plans s !! sid = Some p -> NoDup (task_id <$> tasks p) -> Forall fresh_task (tasks p) -> acyclic (tasks p) -> Forall manned (tasks p) -> calm s ->
  let bound := ((N.to_nat RETRY_LIMIT + 1) * length (tasks p))%nat in
  exists rs s' p', allocate_times (S bound) 0 s = Some (Ok rs, s') /\ plans s' !! sid = Some p' /\ shape <$> tasks p' = shape <$> tasks p
    /\ (length (concat rs) <= bound)%nat
    /\ ready_tasks p' = [] /\ settled (tasks p')
    /\ (forall n, n ∈ tasks p' -> task_status n = Done -> is_Some (task_result n))
    /\ (forall n, n ∈ tasks p' -> task_status n = TaskFailed -> attempts n = RETRY_LIMIT + 1)
    /\ failures_escalated (tasks p') (default [] (escalations s' !! sid)).
Proof.
  intros Hp Hnd Hfresh Hac Hm Hc bound.
  destruct (runs_ticks (S bound) 0 s p [] s Hp Hnd Hfresh Hm) as (rs & s' & Hrun & Hticks & Hlen); [constructor|done|].
  destruct (ticks_settle _ _ _ _ _ _ _ Hp Hnd Hfresh Hac Hticks) as (p' & Hp' & Hshape & Hbound & Hesc & Hdone & Hfail & Hend).
  destruct Hend as [Hready Hset]; [cbn [app]; lia|]. exists rs, s', p'. done.
Qed.
End again.
End calm.

(** ** The shared facts *)

Section writes.
Context {V G Env M : Type} `{ResultGraph V G Env (M := M)}.
Context {A X I B AE ME Mem : Type} `{!AgentPool M A} `{!ExplanationLog M X} `{IntentGraph M I} `{ProgressBus M B}.
Context (sid : N) (m : M) (t : CapabilityToken).

Abbreviation sess := (CoordinationSession (V := V) (G := G) (A := A) (X := X) (I := I) (B := B) (Mem := Mem)).
Abbreviation sessionM := (SessionM (V := V) (G := G) (A := A) (X := X) (I := I) (B := B) (Mem := Mem)).
#[local] Existing Instance session_ret.
#[local] Existing Instance session_bind.

Record Proposal := mkProposal {
  pr_now : Instant;
  pr_agent : N;
  pr_key : text;
  pr_base : N;
  pr_value : Json
}.

Definition propose (w : Proposal) : sessionM WriteOutcome := propose_write (pr_now w) m t sid (pr_agent w) (pr_key w) (pr_base w) (pr_value w).

Fixpoint propose_all (ws : list Proposal) : sessionM (list WriteOutcome) :=
  match ws with
  | [] => mret []
  | w :: ws => o ← propose w; os ← propose_all ws; mret (o :: os)
  end.

(** What was accepted under a key, oldest first: the version it was based on, the version
    it got, and its value. *)
Definition accepted_write (key : text) '((w, o) : Proposal * WriteOutcome) : option (N * N * Json) :=
  match o with Accepted v => if bool_decide (pr_key w = key) then Some (pr_base w, v, pr_value w) else None | Conflict _ => None end.
Definition history (key : text) (l : list (Proposal * WriteOutcome)) : list (N * N * Json) := omap (accepted_write key) l.

Definition refused_write '((w, o) : Proposal * WriteOutcome) : option (Proposal * ConflictRecord) :=
  match o with Accepted _ => None | Conflict c => Some (w, c) end.

(** Each write is based on the one before. *)
Fixpoint chained (v : N) (h : list (N * N * Json)) : Prop :=
  match h with
  | [] => True
  | (base, v', _) :: h => base = v /\ v' = v + 1 /\ chained v' h
  end.

Definition current (f : gmap text (N * Json)) (key : text) (h : list (N * N * Json)) : option (N * Json) :=
  match last h with Some (_, v, value) => Some (v, value) | None => f !! key end.

Hypothesis may_write : forall now, authorize now m t WRITE = Ok tt.

(** No version is anywhere near the end of its type. *)
Definition room (f : gmap text (N * Json)) (k : N) : Prop := forall key, from_option fst 0 (f !! key) + k < 2 ^ 64.

Lemma propose_once w s p :
  plans s !! sid = Some p -> room (facts p) 1 ->
  exists o s' p', propose w s = Some (Ok o, s') /\ plans s' !! sid = Some p' /\ tasks p' = tasks p
    /\ match o with
       | Accepted v => pr_base w = fact_version p (pr_key w) /\ v = pr_base w + 1 /\ facts p' = <[pr_key w := (v, pr_value w)]> (facts p)
                       /\ conflicts p' = conflicts p /\ next_conflict_id s' = next_conflict_id s
       | Conflict c => pr_base w <> fact_version p (pr_key w) /\ facts p' = facts p /\ conflicts p' = conflicts p ++ [c]
                       /\ c = mkConflict (next_conflict_id s) (pr_key w) [pr_agent w] ConcurrentWrite Pending
                       /\ next_conflict_id s' = u64_add (next_conflict_id s) 1
       end.
Proof.
  intros Hp Hroom. unfold propose, propose_write, mbind, session_bind, require, of_result, plan. rewrite may_write. simpl. rewrite Hp. simpl.
  destruct (N.eqb_spec (pr_base w) (fact_version p (pr_key w))) as [Hb|Hb].
  - eexists _, _, _. split; [done|]. simpl. split; [apply lookup_insert_eq|]. split; [done|]. rewrite <- Hb.
    assert (Hv : u64_add (pr_base w) 1 = pr_base w + 1).
    { rewrite Hb. unfold u64_add. apply N.mod_small. apply Hroom. }
    rewrite Hv. done.
  - eexists _, _, _. split; [done|]. simpl. split; [apply lookup_insert_eq|]. done.
Qed.

(** The facts as registers that compare and set. *)
Fixpoint compare_and_set (f : gmap text (N * Json)) (ws : list Proposal) : list bool * gmap text (N * Json) :=
  match ws with
  | [] => ([], f)
  | w :: ws =>
      let hit := pr_base w =? from_option fst 0 (f !! pr_key w) in
      let '(bs, f') := compare_and_set (if hit then <[pr_key w := (pr_base w + 1, pr_value w)]> f else f) ws in (hit :: bs, f')
  end.

Definition is_accepted (o : WriteOutcome) : bool := match o with Accepted _ => true | Conflict _ => false end.

Definition names_writer '((w, c) : Proposal * ConflictRecord) : Prop :=
  conflict_key c = pr_key w /\ claimants c = [pr_agent w] /\ conflict_kind c = ConcurrentWrite /\ resolution c = Pending.

Lemma room_write f k key v x : v + 1 + k < 2 ^ 64 -> room f (k + 1) -> room (<[key := (v + 1, x)]> f) k.
Proof.
  intros Hv Hf key'. destruct (decide (key = key')) as [->|Hne]; [by rewrite lookup_insert_eq|]. rewrite lookup_insert_ne by done.
  specialize (Hf key'). lia.
Qed.

Lemma room_less f k k' : k' <= k -> room f k -> room f k'.
Proof. intros Hle Hf key. specialize (Hf key). lia. Qed.

(** What a run of proposals leaves behind. *)
Definition proposed (s : sess) (p : SharedPlan) (ws : list Proposal) (os : list WriteOutcome) (s' : sess) (p' : SharedPlan) : Prop :=
  plans s' !! sid = Some p' /\ tasks p' = tasks p
  /\ (is_accepted <$> os, facts p') = compare_and_set (facts p) ws
  /\ (forall key, chained (fact_version p key) (history key (zip ws os)) /\ facts p' !! key = current (facts p) key (history key (zip ws os)))
  /\ conflicts p' = conflicts p ++ (snd <$> omap refused_write (zip ws os)) /\ Forall names_writer (omap refused_write (zip ws os)).

Lemma keys_accepted p p1 p' w v key (h : list (N * N * Json)) :
  pr_base w = fact_version p (pr_key w) -> v = pr_base w + 1 -> facts p1 = <[pr_key w := (v, pr_value w)]> (facts p) ->
  chained (fact_version p1 key) h -> facts p' !! key = current (facts p1) key h ->
  let h' := if bool_decide (pr_key w = key) then (pr_base w, v, pr_value w) :: h else h in
  chained (fact_version p key) h' /\ facts p' !! key = current (facts p) key h'.
Proof.
  intros Hb Hv Hf Hch Hcur. unfold fact_version, current in *. rewrite Hf in *. case_bool_decide as Hk.
  - subst key. rewrite lookup_insert_eq in *. split; [cbn [chained]; split; [exact Hb|]; split; [by rewrite <- Hb|exact Hch]|]. rewrite last_cons. by destruct (last h) as [[[? ?] ?]|].
  - by rewrite lookup_insert_ne in Hch, Hcur.
Qed.

(** C24. No update of a shared fact is lost. Of proposals in any order, by any agents, each
    is accepted exactly if it is based on the version that is current then, as by a
    register that compares and sets. What was accepted under one key is a chain in which
    each write is based on the one before and gets the next version; the fact is the last
    of them; and every other proposal is on record as a conflict that names its key and
    its agent. *)
Theorem no_update_is_lost ws s p :
  plans s !! sid = Some p -> room (facts p) (N.of_nat (length ws)) ->
  exists os s' p', propose_all ws s = Some (Ok os, s') /\ length os = length ws /\ proposed s p ws os s' p'.
Proof.
  revert s p. induction ws as [|w ws IH]; intros s p Hp Hroom.
  { exists [], s, p. do 4 (split; [done|]). split; [|by rewrite app_nil_r; split; [|split]]. done. }
  destruct (propose_once w s p Hp) as (o & s1 & p1 & Ho & Hp1 & Ht1 & Hcase); [eapply room_less, Hroom; cbn [length]; lia|].
  assert (Hroom1 : room (facts p1) (N.of_nat (length ws))).
  { destruct o as [v|c].
    - destruct Hcase as (Hb & -> & -> & _). apply room_write; [|eapply room_less, Hroom; cbn [length]; lia].
      specialize (Hroom (pr_key w)). cbn [length] in Hroom. unfold fact_version in Hb. rewrite Hb. lia.
    - destruct Hcase as (_ & -> & _). eapply room_less, Hroom. cbn [length]. lia. }
  destruct (IH s1 p1 Hp1 Hroom1) as (os & s' & p' & Hos & Hlen & Hp' & Ht' & Hcas & Hkeys & Hconf & Hnames).
  exists (o :: os), s', p'. split; [cbn [propose_all]; unfold mbind, session_bind; by rewrite Ho, Hos|]. split; [cbn; by rewrite Hlen|].
  split; [done|]. split; [congruence|]. cbn [compare_and_set zip_with omap list_omap fmap list_fmap].
  destruct o as [v|c]; cbn [refused_write is_accepted].
  - destruct Hcase as (Hb & Hv & Hf & Hc & _). split; [|split; [|by rewrite <- Hc]].
    + fold (fact_version p (pr_key w)). rewrite (proj2 (N.eqb_eq _ _) Hb), <- Hv, <- Hf, <- Hcas. done.
    + intros key. destruct (Hkeys key) as [Hch Hcur]. unfold history. cbn [omap list_omap accepted_write].
      pose proof (keys_accepted p p1 p' w v key _ Hb Hv Hf Hch Hcur) as Hk. by destruct (bool_decide (pr_key w = key)).
  - destruct Hcase as (Hb & Hf & Hc & -> & _). split; [|split].
    + fold (fact_version p (pr_key w)). rewrite (proj2 (N.eqb_neq _ _) Hb), <- Hf, <- Hcas. done.
    + intros key. destruct (Hkeys key) as [Hch Hcur]. unfold fact_version, current in *. by rewrite Hf in Hch, Hcur.
    + rewrite Hconf, Hc, <- app_assoc. split; [done|]. constructor; [done|exact Hnames].
Qed.
End writes.

(** ** Example *)

Module CoordinationExample.
Import Crypto.Toy Wal.ToyRecords Storage.StorageExample KnowledgeGraph.GraphExample Recovery.RecoveryExample Explainability.ExplainExample.

#[export] Instance result_graph : ResultGraph N graph WriteEnv (M := unit) (H0 := store_instance) (H1 := graph_node_creator value_of) := graph_links value_of.
#[export] Instance pool : AgentPool unit (AgentRuntime.AgentRuntime (Mem := list (Json * N)) (X := unit) * list AgentContribution) :=
  runtime_pool (H1 := AgentExample.notebook) 0.

Definition at_once (now : Instant) : Ambient := mkAmbient now now 0 (fun _ => Written).
#[export] Instance log : ExplanationLog unit ExplanationStore := store_log to_json at_once (fun _ => eq_refl).

(** Intents with what they depend on; a bus nobody listens to. *)
#[export] Instance intents : IntentGraph unit (list (LeafIntent * list NodeId)) := {|
  IntentError := unit;
  ig_get_graph := fun _ _ _ l _ => Ok (fst <$> l);
  ig_depends_on_targets := fun _ _ _ l id => Ok (default [] (snd <$> List.find (fun x => leaf_id x.1 =? id) l));
  ig_mark_completed := fun _ _ _ l _ => l
|}.
#[export] Instance no_bus : ProgressBus unit unit := {| pb_publish := fun _ _ _ b _ _ _ => Some b |}.

Abbreviation Session := (CoordinationSession (V := N) (G := graph) (A := AgentRuntime.AgentRuntime (Mem := list (Json * N)) (X := unit) * list AgentContribution)
  (X := ExplanationStore) (I := list (LeafIntent * list NodeId)) (B := unit) (Mem := unit)).

Definition user : CapabilityToken := mkToken 1 0 rights_all 0 7 None.
Definition fresh_session : Session :=
  new_with_shared_explanations (AgentRuntime.new (Some []) None, []) (Recovery.mkWorld graph0 0) Explainability.new.

Definition leaf (id : N) (what : text) (deps : list N) : LeafIntent * list NodeId := (mkLeaf id what what, deps).
Definition business : list (LeafIntent * list NodeId) :=
  [leaf 1 (lit "launch") []; leaf 2 (lit "market_research") []; leaf 3 (lit "business_model") [2]; leaf 4 (lit "branding") [3]].

Definition after {T : Type} (s : Session) (o : option (Result T CoordError * Session)) : Session := match o with Some (_, s) => s | None => s end.
Definition opened (l : list (LeafIntent * list NodeId)) : Session := after fresh_session (create_session 0 tt user l 1 fresh_session).

(** The agents do what they are told to. *)
Definition obey (ds : list PreparedDispatch) (a : AgentRuntime.AgentRuntime (Mem := list (Json * N)) (X := unit) * list AgentContribution) :
    list (Result InvokeOutcome AgentError) * (AgentRuntime.AgentRuntime (Mem := list (Json * N)) (X := unit) * list AgentContribution) :=
  ((fun d => Ok (if bool_decide (json_get (d_args d) (lit "force_fail") = Some (JBool true)) then InvokeFailed [] else InvokeResult (JString (d_capability d)))) <$> ds, a).
Definition same (s : Session) : Session := s.
Definition clock (_ : nat) : N := 0.

Abbreviation alloc := (allocate (AE := unit) (ME := unit) (fun _ : Json => 5) inputs 0 0 0 0 tt user 1).
Abbreviation times k := (allocate_times (AE := unit) (ME := unit) (fun _ : Json => 5) inputs 1 tt user clock clock (fun _ => obey) (fun _ => same) k 0).

Definition statuses (s : Session) : list TaskStatus := from_option (fun p => task_status <$> tasks p) [] (plans s !! 1).
Definition told_to_fail (id : N) (s : Session) : Session := after s (inject_failure 0 tt user 1 id s).
Definition code {T : Type} (o : option (Result T CoordError * Session)) : option bool := (fun x => is_ok x.1) <$> o.

Example three_ticks :
  let s := after (opened business) (times 3 (opened business)) in
  statuses (opened business) = [Unassigned; Unassigned; Unassigned] /\ statuses s = [Done; Done; Done].
Proof. vm_compute. done. Qed.

Example failures_are_contained :
  let s1 := after (opened business) (alloc obey same (told_to_fail 2 (opened business))) in
  let s2 := after s1 (alloc obey same (told_to_fail 2 s1)) in
  statuses s1 = [Unassigned; Unassigned; Unassigned] /\ statuses s2 = [TaskFailed; Blocked; Unassigned]
  /\ esc_task <$> default [] (escalations s2 !! 1) = [2].
Proof. vm_compute. done. Qed.

(** A task nobody can do stops the tick after another was given out: that one is in
    progress for ever, though no agent was asked to do it. *)
Definition unfit : list (LeafIntent * list NodeId) := [leaf 1 [] []; leaf 2 (lit "market_research") []; leaf 3 (lit "juggling") []].

Example no_fit_strands_the_others :
  let s1 := after (opened unfit) (alloc obey same (opened unfit)) in
  let s2 := after s1 (alloc obey same s1) in
  code (alloc obey same (opened unfit)) = Some false /\ statuses s1 = [InProgress; Unassigned]
  /\ code (alloc obey same s1) = Some false /\ statuses s2 = [InProgress; Unassigned].
Proof. vm_compute. done. Qed.

(** One agent is gone when it is called: the results of the agents after it are lost, and
    their tasks stay in progress too. *)
Definition pair : list (LeafIntent * list NodeId) := [leaf 1 [] []; leaf 2 (lit "market_research") []; leaf 3 (lit "business_model") []].
Definition first_gone (ds : list PreparedDispatch) (a : AgentRuntime.AgentRuntime (Mem := list (Json * N)) (X := unit) * list AgentContribution) :=
  match obey ds a with (_ :: rs, a) => (Err AgentRuntime.NotFound :: rs, a) | x => x end.

Example one_error_drops_the_rest :
  let s1 := after (opened pair) (alloc first_gone same (opened pair)) in
  code (alloc first_gone same (opened pair)) = Some false /\ statuses s1 = [InProgress; InProgress]
  /\ (fun x => is_ok x.1) <$> alloc obey same s1 = Some true /\ statuses (after s1 (alloc obey same s1)) = [InProgress; InProgress].
Proof. vm_compute. done. Qed.

(** A task is amended while its agent is at work: the result of the old instructions
    makes it done. *)
Definition amend (s : Session) : Session := after s (amend_task 0 tt user 1 (lit "market_research") (lit "only Europe") s).

Example amendment_is_overtaken :
  let s := after (opened business) (alloc obey amend (opened business)) in
  from_option (fun p => (fun n => (task_status n, task_result n, extra_context n)) <$> head (tasks p)) None (plans s !! 1)
  = Some (Done, Some (JString (lit "web.search")), Some (lit "only Europe")).
Proof. vm_compute. done. Qed.

(** What was denied once is not tried again, and cannot be resumed. *)
Definition deny (ds : list PreparedDispatch) (a : AgentRuntime.AgentRuntime (Mem := list (Json * N)) (X := unit) * list AgentContribution) :
    list (Result InvokeOutcome AgentError) * (AgentRuntime.AgentRuntime (Mem := list (Json * N)) (X := unit) * list AgentContribution) :=
  ((fun _ => Ok InvokeDenied) <$> ds, a).

Example denied_for_good :
  let s := after (opened business) (alloc deny same (opened business)) in
  statuses s = [Claimed; Unassigned; Unassigned] /\ statuses (after s (alloc obey same s)) = [Claimed; Unassigned; Unassigned]
  /\ code (resume_task 0 tt user 1 (lit "market_research") s) = Some false.
Proof. vm_compute. done. Qed.
End CoordinationExample.

Section witnesses.
Import Crypto.Toy Wal.ToyRecords Storage.StorageExample KnowledgeGraph.GraphExample Recovery.RecoveryExample Explainability.ExplainExample CoordinationExample.

(** The tasks of the business are done after seven calls at most. *)
Lemma sessions_settle_witness :
  exists rs s' p', times 7 (opened business) = Some (Ok rs, s') /\ plans s' !! 1 = Some p' /\ settled (tasks p').
Proof.
  destruct (plans (opened business) !! 1) as [p|] eqn:Hp; [|vm_compute in Hp; discriminate].
  assert (Hlen : length (tasks p) = 3%nat) by (vm_compute in Hp; by injection Hp as <-).
  destruct (sessions_settle (AE := unit) (ME := unit) (fun _ : Json => 5) inputs 1 tt user clock clock (fun _ => obey) (fun _ => same)) with (s := opened business) (p := p)
    as (rs & s' & p' & Hrun & Hp' & _ & _ & _ & Hset & _).
  - done.
  - intros _ ds a. eexists ((fun d => if bool_decide (json_get (d_args d) (lit "force_fail") = Some (JBool true)) then InvokeFailed [] else InvokeResult (JString (d_capability d))) <$> ds).
    split; [unfold obey; simpl; by rewrite <- list_fmap_compose|]. rewrite length_fmap. split; [done|]. apply Forall_fmap, Forall_forall. intros d _. simpl. by case_bool_decide.
  - intros _ s. split; [done|]. intros Hc. by apply onward_same.
  - exact Hp.
  - vm_compute in Hp. injection Hp as <-. apply (bool_decide_unpack _). by vm_compute.
  - vm_compute in Hp. injection Hp as <-. by repeat constructor.
  - exists N.to_nat. vm_compute in Hp. injection Hp as <-. intros n d Hn Hd. repeat (apply elem_of_cons in Hn as [->|Hn]);
      [..|by apply elem_of_nil in Hn]; simpl in *; repeat (apply elem_of_cons in Hd as [->|Hd]); try (by apply elem_of_nil in Hd); by vm_compute; lia.
  - vm_compute in Hp. injection Hp as <-. repeat constructor; by eexists.
  - by vm_compute.
  - rewrite Hlen in Hrun. change (S ((N.to_nat RETRY_LIMIT + 1) * 3)) with 7%nat in Hrun. exists rs, s', p'. split; [exact Hrun|]. split; [exact Hp'|exact Hset].
Defined.

Definition note (agent base value : N) : Proposal := mkProposal 0 agent (lit "budget") base (JNumber value).

(** Two agents start from the same version: the first is heard. *)
Lemma no_update_is_lost_witness :
  exists os s' p', propose_all 1 tt user [note 5 0 10; note 6 0 20; note 6 1 30] (opened business) = Some (Ok os, s')
    /\ is_accepted <$> os = [true; false; true] /\ facts p' !! lit "budget" = Some (2, JNumber 30).
Proof.
  destruct (plans (opened business) !! 1) as [p|] eqn:Hp; [|vm_compute in Hp; discriminate].
  assert (Hf : facts p = ∅) by (vm_compute in Hp; by injection Hp as <-).
  assert (Hw : forall now, authorize now tt user WRITE = Ok tt) by done.
  destruct (no_update_is_lost 1 tt user Hw [note 5 0 10; note 6 0 20; note 6 1 30] (opened business) p Hp)
    as (os & s' & p' & Hrun & _ & (_ & _ & Hcas & _)).
  - intros key. rewrite Hf, lookup_empty. by vm_compute.
  - rewrite Hf in Hcas. exists os, s', p'. split; [exact Hrun|]. remember (is_accepted <$> os) as bs. remember (facts p') as f. vm_compute in Hcas.
    injection Hcas as -> ->. done.
Defined.
End witnesses.
