(* ===== verification/Text.v ===== *)
(** Text as the services see it: lists of code points, and what they use of [str].

    The tables of Unicode (lower case, letters, white space) are those of the standard
    library and a class here. *)
From S2P Require Import Prelude DebugFmt Coordination.
Open Scope N_scope.

Abbreviation text := (list N).

(** The tables of Unicode. *)
Class Unicode := {
  to_lowercase : text -> text;
  is_alphanumeric : N -> bool;
  is_whitespace : N -> bool;
  to_lowercase_ascii : forall s, Forall (fun c => c < 128) s -> to_lowercase s = ascii_lower <$> s
}.

Fixpoint starts_with (p s : text) : bool :=
  match p, s with
  | [], _ => true
  | a :: p, b :: s => (a =? b) && starts_with p s
  | _ :: _, [] => false
  end.

(** [str::contains] *)
Fixpoint contains_text (s p : text) : bool :=
  starts_with p s || match s with [] => false | _ :: s => contains_text s p end.

(** [str::find], before the position is counted in bytes. *)
Fixpoint before (s p : text) : option text :=
  if starts_with p s then Some [] else match s with [] => None | c :: s => cons c <$> before s p end.

Definition utf8_len (c : N) : nat := if c <? 128 then 1 else if c <? 2048 then 2 else if c <? 65536 then 3 else 4.
Definition byte_len (s : text) : nat := sum_list_with utf8_len s.

(** [&s[n..]]: [None] where it panics. *)
Fixpoint slice_from (s : text) (n : nat) : option text :=
  match n, s with
  | O, _ => Some s
  | _, [] => None
  | _, c :: s => if (utf8_len c <=? n)%nat then slice_from s (n - utf8_len c) else None
  end.

Fixpoint trim_start_matches (f : N -> bool) (s : text) : text :=
  match s with [] => [] | c :: s' => if f c then trim_start_matches f s' else s end.
Definition trim_end_matches (f : N -> bool) (s : text) : text := rev (trim_start_matches f (rev s)).
Definition trim `{Unicode} (s : text) : text := trim_end_matches is_whitespace (trim_start_matches is_whitespace s).

(** [str::split] at one character. *)
Fixpoint split_on (c : N) (s : text) : list text :=
  match s with
  | [] => [[]]
  | x :: s => match split_on c s with
              | [] => [[x]]
              | l :: ls => if x =? c then [] :: l :: ls else (x :: l) :: ls
              end
  end.

Definition strip_cr (s : text) : text := match rev s with 13 :: s' => rev s' | _ => s end.

(** [str::lines] *)
Fixpoint end_lines (l : list text) : list text :=
  match l with
  | [] => []
  | [last] => match last with [] => [] | _ => [last] end
  | x :: l => strip_cr x :: end_lines l
  end.
Definition lines (s : text) : list text := end_lines (split_on 10 s).

Fixpoint join (sep : text) (l : list text) : text :=
  match l with [] => [] | [x] => x | x :: l => x ++ sep ++ join sep l end.

Definition nonempty (s : text) : bool := match s with [] => false | _ => true end.

(** [str::split_whitespace] *)
Fixpoint words_loop `{Unicode} (word : text) (s : text) : list text :=
  match s with
  | [] => match word with [] => [] | _ => [rev word] end
  | c :: s => if is_whitespace c then match word with [] => words_loop [] s | _ => rev word :: words_loop [] s end
              else words_loop (c :: word) s
  end.
Definition split_whitespace `{Unicode} (s : text) : list text := words_loop [] s.
