(* ===== verification/Memory.v ===== *)
(** The memory engine: [crates/hyperion-memory/src], [types.rs], [decay.rs],
    [providers.rs] and [engine.rs], with [embedding.rs] of [crates/hyperion-ai-runtime].

    A memory is a node of the knowledge graph whose metadata is the record. The platform's
    [exp] and [ln], [serde_json], the default hasher, the parser of numbers and the model
    are parameters. An operation that panics has no outcome ([None]). *)
From S2P Require Import Prelude Crypto Capability Authority Wal Storage DebugFmt Events F32 Json KnowledgeGraph NodeStore PluginReview ModelRouter Scheduler AgentRuntime Identity Coordination Text.
Open Scope N_scope.

Abbreviation text := (list N).

(** ** types.rs *)

Inductive MemoryTier : Type := Episodic | Semantic | Procedural | LongTerm.

#[export] Instance memory_tier_eq_dec : EqDecision MemoryTier.
Proof. solve_decision. Defined.

Definition as_object_type (t : MemoryTier) : text :=
  match t with
  | Episodic => lit "memory_episodic"
  | Semantic => lit "memory_semantic"
  | Procedural => lit "memory_procedural"
  | LongTerm => lit "memory_long_term"
  end.

(** [None] for infinity. *)
Definition tau_seconds (t : MemoryTier) : option f64 :=
  match t with
  | Episodic => Some (f64_of_N (7 * 24 * 3600))
  | Semantic | Procedural => Some (f64_of_N (30 * 24 * 3600))
  | LongTerm => None
  end.

Record MemoryRecord := mkMemory {
  mr_id : NodeId;
  origin_boundary : N;
  mr_tier : MemoryTier;
  mr_content : Json;
  mr_embedding : option (list f32);
  mr_created_at : N;
  last_accessed_at : N;
  access_count : N;
  importance : f32;
  decay_score : f32;
  pinned : bool;
  mr_provenance : list NodeId;
  erased : bool;
  dormant : bool
}.

Definition set_memory_id (id : NodeId) (r : MemoryRecord) : MemoryRecord :=
  mkMemory id (origin_boundary r) (mr_tier r) (mr_content r) (mr_embedding r) (mr_created_at r) (last_accessed_at r) (access_count r)
    (importance r) (decay_score r) (pinned r) (mr_provenance r) (erased r) (dormant r).
Definition set_content (c : Json) (r : MemoryRecord) : MemoryRecord :=
  mkMemory (mr_id r) (origin_boundary r) (mr_tier r) c (mr_embedding r) (mr_created_at r) (last_accessed_at r) (access_count r)
    (importance r) (decay_score r) (pinned r) (mr_provenance r) (erased r) (dormant r).
Definition set_accessed (ts : N) (r : MemoryRecord) : MemoryRecord :=
  mkMemory (mr_id r) (origin_boundary r) (mr_tier r) (mr_content r) (mr_embedding r) (mr_created_at r) ts ((access_count r + 1) mod 2 ^ 32)
    (importance r) (decay_score r) (pinned r) (mr_provenance r) (erased r) (dormant r).
Definition set_decay (score : f32) (d : bool) (r : MemoryRecord) : MemoryRecord :=
  mkMemory (mr_id r) (origin_boundary r) (mr_tier r) (mr_content r) (mr_embedding r) (mr_created_at r) (last_accessed_at r) (access_count r)
    (importance r) score (pinned r) (mr_provenance r) (erased r) d.
Definition with_pinned (b : bool) (r : MemoryRecord) : MemoryRecord :=
  mkMemory (mr_id r) (origin_boundary r) (mr_tier r) (mr_content r) (mr_embedding r) (mr_created_at r) (last_accessed_at r) (access_count r)
    (importance r) (decay_score r) b (mr_provenance r) (erased r) (dormant r).
Definition set_erased (r : MemoryRecord) : MemoryRecord :=
  mkMemory (mr_id r) (origin_boundary r) (mr_tier r) (mr_content r) (mr_embedding r) (mr_created_at r) (last_accessed_at r) (access_count r)
    (importance r) (decay_score r) (pinned r) (mr_provenance r) true (dormant r).

Record DelegationCount := mkDelegations {
  dc_entity_key : text;
  dc_count : nat;
  window_start : N
}.

(** Not kept in the graph. *)
Record WorkingMemory := mkWorking {
  wm_session : text;
  wm_turns : list text;
  wm_capacity : nat
}.

Definition new_working (session : text) (capacity : nat) : WorkingMemory := mkWorking session [] capacity.
Definition push_turn (w : WorkingMemory) (turn : text) : WorkingMemory :=
  mkWorking (wm_session w) ((if (wm_capacity w <=? length (wm_turns w))%nat then tail (wm_turns w) else wm_turns w) ++ [turn]) (wm_capacity w).

(** [serde_json] of a record: the id is left out, and every finite number comes back. *)
Definition finite_memory (r : MemoryRecord) : bool :=
  is_finite (importance r) && is_finite (decay_score r) && forallb is_finite (default [] (mr_embedding r)).

Class MemoryJson (V : Type) := {
  memory_to_value : MemoryRecord -> V;
  memory_from_value : V -> option MemoryRecord;
  memory_round_trip : forall r, finite_memory r = true -> memory_from_value (memory_to_value r) = Some (set_memory_id 0 r)
}.

(** ** decay.rs *)

Definition THETA_PROMOTE : f32 := f32_lit 8 10.
Definition THETA_ARCHIVE : f32 := f32_lit 2 10.

Definition f64_lit (a b : N) : f64 := f64_div (f64_of_N a) (f64_of_N b).
Definition W_RECENCY : f64 := f64_lit 5 10.
Definition W_FREQUENCY : f64 := f64_lit 3 10.
Definition W_IMPORTANCE : f64 := f64_lit 2 10.
Definition ACCESS_COUNT_NORM : f64 := f64_of_N 20.
Definition f64_one : f64 := f64_of_N 1.

(** The platform's functions. *)
Record Libm := mkLibm {
  exp : f64 -> f64;
  ln : f64 -> f64
}.

Definition score_memory (c : Libm) (r : MemoryRecord) (now : N) : f32 :=
  if pinned r then f32_one
  else
    let delta_t := f64_of_N (now - last_accessed_at r) in
    let recency := match tau_seconds (mr_tier r) with Some tau => exp c (f64_div (f64_neg delta_t) tau) | None => f64_one end in
    let frequency := f64_div (ln c (f64_add f64_one (f64_of_N (access_count r)))) (ln c (f64_add f64_one ACCESS_COUNT_NORM)) in
    let frequency := f32_min frequency f64_one in
    let imp := f64_of_f32 (f32_clamp (importance r) f32_zero f32_one) in
    f32_of_f64 (f64_add (f64_add (f64_mul W_RECENCY recency) (f64_mul W_FREQUENCY frequency)) (f64_mul W_IMPORTANCE imp)).

Definition is_promotable (t : MemoryTier) : bool := match t with LongTerm => false | _ => true end.

(** ** providers.rs *)

Definition as_tier_kind (t : MemoryTier) : MemoryTierKind :=
  match t with
  | Episodic => PluginReview.Episodic
  | Semantic => PluginReview.Semantic
  | Procedural => PluginReview.Procedural
  | LongTerm => PluginReview.LongTerm
  end.

#[export] Instance tier_kind_eq_dec : EqDecision MemoryTierKind.
Proof. solve_decision. Defined.

(** [providers] are the contributions of the installed plugins. *)
Definition capabilities_for (providers : list MemoryProviderContribution) (t : MemoryTier) (key : text) : list text :=
  mp_capability <$> List.filter (fun mp => bool_decide (mp_tier mp = as_tier_kind t) && bool_decide (entity_key mp = key)) providers.
Definition capability_for (providers : list MemoryProviderContribution) (t : MemoryTier) (key : text) : option text :=
  head (capabilities_for providers t key).

(** ** embedding.rs *)

(** [DefaultHasher] over a text. *)
Class DefaultHash := { hash_text : text -> N }.

Definition EMBEDDING_DIMS : N := 128.

Definition embed_token `{Unicode} `{DefaultHash} (v : list f32) (token : text) : list f32 :=
  let h := hash_text (to_lowercase token) in
  alter (fun x => f32_add x (if N.testbit h 63 then f64_neg f32_one else f32_one)) (N.to_nat (h mod EMBEDDING_DIMS)) v.

Definition embed `{Unicode} `{DefaultHash} (s : text) : list f32 :=
  let v := fold_left embed_token (split_whitespace s) (replicate (N.to_nat EMBEDDING_DIMS) f32_zero) in
  let norm := f32_sqrt (f32_sum ((fun x => f32_mul x x) <$> v)) in
  if f32_ltb f32_zero norm then (fun x => f32_div x norm) <$> v else v.

(** ** engine.rs *)

Definition ALL_TIERS : list MemoryTier := [Episodic; Semantic; Procedural; LongTerm].
Definition FACT_CLUSTER_SIMILARITY : f32 := f32_lit 7 10.

(** [Map::insert]: the fields are in the order of their names. *)
Fixpoint insert_field (k : text) (v : Json) (l : list (text * Json)) : list (text * Json) :=
  match l with
  | [] => [(k, v)]
  | (k', v') :: l => if bool_decide (k = k') then (k, v) :: l
                     else if text_leb k k' then (k, v) :: (k', v') :: l else (k', v') :: insert_field k v l
  end.

Definition merge_json (base patch : Json) : Json :=
  match base, patch with
  | JObject b, JObject p => JObject (fold_left (fun b kv => insert_field kv.1 kv.2 b) p b)
  | _, _ => base
  end.

(** [content["consolidated"] = true], of an object. *)
Definition mark_consolidated (v : Json) : Json :=
  match v with JObject l => JObject (insert_field (lit "consolidated") (JBool true) l) | _ => v end.

Record FactCluster := mkCluster {
  cl_entity_key : text;
  representative_fact : text;
  representative_embedding : list f32;
  cl_episodes : list MemoryRecord
}.

Record MemoryFilter := mkFilter {
  f_tier : option MemoryTier;
  pinned_only : bool;
  include_dormant : bool;
  include_erased : bool;
  f_time_range : option (N * N)
}.
Definition default_filter : MemoryFilter := mkFilter None false false false None.
Definition with_dormant : MemoryFilter := mkFilter None false true false None.

Record ErasureReceipt := mkErasure {
  er_id : NodeId;
  cascaded : list NodeId
}.

Definition type_filter_of (f : MemoryFilter) : list text :=
  match f_tier f with Some t => [as_object_type t] | None => as_object_type <$> ALL_TIERS end.

Definition wanted (f : MemoryFilter) (r : MemoryRecord) : bool :=
  (negb (erased r) || include_erased f) && (negb (dormant r) || include_dormant f) && (negb (pinned_only f) || pinned r).

Section cluster.
Context `{Unicode} `{DefaultHash}.

(** The entity and the fact an episode is about, unless it is consolidated. *)
Definition fact_of (r : MemoryRecord) : option (text * text) :=
  if default false (json_get (mr_content r) (lit "consolidated") ≫= as_bool) then None
  else k ← json_get (mr_content r) (lit "entity_key") ≫= as_str;
       f ← json_get (mr_content r) (lit "fact") ≫= as_str;
       Some (k, f).

Definition fits_cluster (key : text) (v : list f32) (c : FactCluster) : bool :=
  bool_decide (cl_entity_key c = key) && f32_leb FACT_CLUSTER_SIMILARITY (cosine_similarity (representative_embedding c) v).

(** The first cluster that fits, or a new one. *)
Fixpoint join_cluster (key fact : text) (v : list f32) (r : MemoryRecord) (l : list FactCluster) : list FactCluster :=
  match l with
  | [] => [mkCluster key fact v [r]]
  | c :: l => if fits_cluster key v c
              then mkCluster (cl_entity_key c) (representative_fact c) (representative_embedding c) (cl_episodes c ++ [r]) :: l
              else c :: join_cluster key fact v r l
  end.

Definition cluster_episode (l : list FactCluster) (r : MemoryRecord) : list FactCluster :=
  match fact_of r with Some (key, fact) => join_cluster key fact (embed fact) r l | None => l end.

Definition cluster_episodes (l : list MemoryRecord) : list FactCluster := fold_left cluster_episode l [].

(** [1.0 - 0.5_f32.powi(count)], each product exact. *)
Definition confidence_of (count : nat) : f32 := f32_sub f32_one (Nat.iter count (f32_mul (f32_lit 1 2)) f32_one).
End cluster.

Definition summary_prompt (turns : list text) : text :=
  lit "Summarize the following conversation turns in one or two short sentences, keeping only what would matter to recall later:"
  ++ [10] ++ join [10] turns.
Definition salience_prompt (turns : list text) : text :=
  lit "Rate how important the following conversation is to remember later, on a scale from 0.0 (trivial) to 1.0 (critical). Respond with only the number:"
  ++ [10] ++ join [10] turns.

Section engine.
Context {V : Type} `{Codec (WalRecord V)} `{Aead} `{HashIter} {M : Type} `{Authority M} `{MemoryJson V} `{Unicode} `{DefaultHash}.
Context (to_value : Record_ (V := V) -> V).
(** What each write to the graph meets, the wall clock in seconds before it, the model's
    answer to a prompt (none without a model), and what is read as a number. *)
Context (outside : nat -> WriteEnv) (secs : nat -> N) (infer : Instant -> M -> CapabilityToken -> text -> option text)
  (parse_f32 : text -> option f32) (libm : Libm).

Abbreviation task := (TaskDescriptor (Value := Json)).
Abbreviation scheduler := (Scheduler (Value := Json)).

Inductive MemoryError : Type :=
| MemoryGraph (e : GraphError)
| MemoryNotFound
| MemoryScheduler (e : SchedError).

Record MemoryEngine := mkMemoryEngine {
  me_graph : KnowledgeGraph (V := V);
  me_tick : nat;
  me_scheduler : scheduler;
  me_next_task : N
}.

Definition new_memory (g : KnowledgeGraph (V := V)) : MemoryEngine :=
  mkMemoryEngine g 0 (register_resource_provider Scheduler.new (new_ledger Cpu 100 0)) 1.

Definition with_memory_graph (s : MemoryEngine) (g : KnowledgeGraph (V := V)) : MemoryEngine :=
  mkMemoryEngine g (S (me_tick s)) (me_scheduler s) (me_next_task s).
Definition with_memory_scheduler (s : MemoryEngine) (c : scheduler) : MemoryEngine :=
  mkMemoryEngine (me_graph s) (me_tick s) c (me_next_task s).
Definition with_next_task (s : MemoryEngine) (n : N) : MemoryEngine :=
  mkMemoryEngine (me_graph s) (me_tick s) (me_scheduler s) n.

(** An operation may fail, or panic ([None]). *)
Definition MemoryM (T : Type) : Type := MemoryEngine -> option (Result T MemoryError * MemoryEngine).

#[local] Instance memory_ret : MRet MemoryM := fun T a s => Some (Ok a, s).
#[local] Instance memory_bind : MBind MemoryM := fun T U k e s =>
  match e s with
  | Some (Ok a, s) => k a s
  | Some (Err f, s) => Some (Err f, s)
  | None => None
  end.

Definition recalls {T : Type} (f : MemoryEngine -> T) : MemoryM T := fun s => Some (Ok (f s), s).
Definition views {T : Type} (f : KnowledgeGraph (V := V) -> Result T MemoryError) : MemoryM T := fun s => Some (f (me_graph s), s).
Definition changes (f : MemoryEngine -> MemoryEngine) : MemoryM unit := fun s => Some (Ok tt, f s).
Definition clock_secs : MemoryM N := recalls (fun s => secs (me_tick s)).

Definition to_record (id : NodeId) (n : NodeRecord (V := V)) : option MemoryRecord := set_memory_id id <$> memory_from_value (node_metadata n).
Definition readable_by (r : MemoryRecord) (t : CapabilityToken) : bool := origin_boundary r =? origin t.

Definition load (now : Instant) (m : M) (t : CapabilityToken) (g : KnowledgeGraph (V := V)) (id : NodeId) : Result MemoryRecord MemoryError :=
  match KnowledgeGraph.get now m t g id with
  | Err e => Err (MemoryGraph e)
  | Ok n => match to_record id n with
            | None => Err MemoryNotFound
            | Some r => if negb (readable_by r t) then Err MemoryNotFound else Ok r
            end
  end.
Definition load_owned (now : Instant) (m : M) (t : CapabilityToken) (id : NodeId) : MemoryM MemoryRecord := views (fun g => load now m t g id).

Definition put_memory (now : Instant) (m : M) (t : CapabilityToken) (id : option NodeId) (r : MemoryRecord) : MemoryM NodeId := fun s =>
  let env := outside (me_tick s) in
  let '(res, g) := (put_node to_value now m t (me_graph s) id (as_object_type (mr_tier r)) (mr_embedding r) (memory_to_value r)
                      (we_wall1 env) (we_wall2 env) (we_nonce env) (we_io env)).1 in
  Some (map_err MemoryGraph res, with_memory_graph s g).

Definition rewrite_memory (now : Instant) (m : M) (t : CapabilityToken) (r : MemoryRecord) : MemoryM unit :=
  put_memory now m t (Some (mr_id r)) r;; mret tt.

Definition remember (now : Instant) (m : M) (t : CapabilityToken) (tier : MemoryTier) (content : Json) (emb : option (list f32)) (imp : f32)
    (pin : bool) (prov : list NodeId) : MemoryM NodeId :=
  ts ← clock_secs;
  put_memory now m t None (mkMemory 0 (origin t) tier content emb ts ts 0 imp (if pin then f32_one else imp) pin prov false false).

Definition consolidated_json (id : NodeId) (content : Json) : Json :=
  JObject [(lit "consolidated_from", JNumber id); (lit "content", content)].

Definition remember_explicit (now : Instant) (m : M) (t : CapabilityToken) (fact : Json) (emb : option (list f32)) : MemoryM (NodeId * NodeId) :=
  semantic ← remember now m t Semantic fact emb f32_one true [];
  long_term ← remember now m t LongTerm (consolidated_json semantic fact) emb f32_one true [semantic];
  mret (semantic, long_term).

(** *** Distillation *)

Definition distill (now : Instant) (m : M) (t : CapabilityToken) (turns : list text) : text :=
  default (join (lit " | ") turns) (infer now m t (summary_prompt turns)).

Definition estimate_salience (now : Instant) (m : M) (t : CapabilityToken) (turns : list text) : f32 :=
  default f32_zero ((fun x => f32_clamp x f32_zero f32_one) <$> (infer now m t (salience_prompt turns) ≫= fun answer => parse_f32 (trim answer))).

Definition distill_working_memory (now : Instant) (m : M) (t : CapabilityToken) (w : WorkingMemory) (imp : f32) (pin : bool) : MemoryM NodeId :=
  let summary := distill now m t (wm_turns w) in
  remember now m t Episodic (JObject [(lit "session_id", JString (wm_session w)); (lit "summary", JString summary)]) None
    (f32_max imp (estimate_salience now m t (wm_turns w))) pin [].

(** *** Reading *)

Definition memories (now : Instant) (m : M) (t : CapabilityToken) (g : KnowledgeGraph (V := V)) (types : list text) (emb : option (list f32))
    (range : option (N * N)) : Result (list MemoryRecord) MemoryError :=
  let? hits := map_err MemoryGraph (KnowledgeGraph.query now m t g (mkQuery (Some types) emb range None None 0)) in
  Ok (List.filter (fun r => readable_by r t) (omap (fun h => to_record (node_id h) (node h)) hits)).

Definition select (now : Instant) (m : M) (t : CapabilityToken) (g : KnowledgeGraph (V := V)) (f : MemoryFilter) :
    Result (list MemoryRecord) MemoryError :=
  let? l := memories now m t g (type_filter_of f) None (f_time_range f) in Ok (List.filter (wanted f) l).
Definition query_memory (now : Instant) (m : M) (t : CapabilityToken) (f : MemoryFilter) : MemoryM (list MemoryRecord) := views (fun g => select now m t g f).

Fixpoint touch_each (now : Instant) (m : M) (t : CapabilityToken) (ts : N) (l : list MemoryRecord) : MemoryM (list MemoryRecord) :=
  match l with
  | [] => mret []
  | r :: l => let r := set_accessed ts r in rewrite_memory now m t r;; rest ← touch_each now m t ts l; mret (r :: rest)
  end.

Definition recall (now : Instant) (m : M) (t : CapabilityToken) (emb : list f32) (k : nat) : MemoryM (list MemoryRecord) :=
  l ← views (fun g => memories now m t g (as_object_type <$> ALL_TIERS) (Some emb) None);
  let l := take k (List.filter (fun r => negb (erased r) && negb (dormant r)) l) in
  ts ← clock_secs;
  touch_each now m t ts l.

Definition explain_memory (now : Instant) (m : M) (t : CapabilityToken) (id : NodeId) : MemoryM ProvenanceChain :=
  load_owned now m t id;;
  views (fun g => map_err MemoryGraph (KnowledgeGraph.explain now m t g (ExplainNode id))).

Definition export_memory (now : Instant) (m : M) (t : CapabilityToken) (f : MemoryFilter) : MemoryM (list V) :=
  l ← query_memory now m t f; mret (memory_to_value <$> l).

(** *** Changing *)

Definition edit (now : Instant) (m : M) (t : CapabilityToken) (id : NodeId) (patch : Json) : MemoryM MemoryRecord :=
  r ← load_owned now m t id;
  let r := set_content (merge_json (mr_content r) patch) r in
  rewrite_memory now m t r;;
  mret r.

Definition set_pinned (now : Instant) (m : M) (t : CapabilityToken) (id : NodeId) (b : bool) : MemoryM unit :=
  r ← load_owned now m t id;
  rewrite_memory now m t (with_pinned b r).
Definition pin (now : Instant) (m : M) (t : CapabilityToken) (id : NodeId) : MemoryM unit := set_pinned now m t id true.
Definition unpin (now : Instant) (m : M) (t : CapabilityToken) (id : NodeId) : MemoryM unit := set_pinned now m t id false.

(** The dependents of [id], each with [one]. *)
Fixpoint cascade_each (one : NodeId -> MemoryM ErasureReceipt) (id : NodeId) (l : list MemoryRecord) : MemoryM (list NodeId) :=
  match l with
  | [] => mret []
  | d :: l =>
      if bool_decide (id ∈ mr_provenance d) && negb (erased d) then one (mr_id d);; rest ← cascade_each one id l; mret (mr_id d :: rest)
      else cascade_each one id l
  end.

(** [None] if the fuel is not enough. *)
Fixpoint erase (fuel : nat) (now : Instant) (m : M) (t : CapabilityToken) (id : NodeId) (cascade : bool) : MemoryM ErasureReceipt :=
  match fuel with
  | O => fun _ => None
  | S fuel =>
      r ← load_owned now m t id;
      rewrite_memory now m t (set_erased r);;
      gone ← (if cascade then
                dependents ← query_memory now m t default_filter;
                cascade_each (fun d => erase fuel now m t d true) id dependents
              else mret []);
      mret (mkErasure id gone)
  end.

(** *** Consolidation *)

Fixpoint decay_each (now : Instant) (m : M) (t : CapabilityToken) (ts : N) (l : list MemoryRecord) : MemoryM (list NodeId) :=
  match l with
  | [] => mret []
  | r :: l =>
      if pinned r then decay_each now m t ts l
      else
        let score := score_memory libm r ts in
        let r := set_decay score (f32_ltb score THETA_ARCHIVE) r in
        promoted ← (if f32_leb THETA_PROMOTE score && is_promotable (mr_tier r) then
                      id ← remember now m t LongTerm (consolidated_json (mr_id r) (mr_content r)) (mr_embedding r) (importance r) false [mr_id r];
                      mret [id]
                    else mret []);
        rewrite_memory now m t r;;
        rest ← decay_each now m t ts l;
        mret (promoted ++ rest)
  end.

Definition run_decay_pass (now : Instant) (m : M) (t : CapabilityToken) : MemoryM (list NodeId) :=
  ts ← clock_secs;
  l ← query_memory now m t with_dormant;
  decay_each now m t ts l.

Fixpoint consolidate_each (now : Instant) (m : M) (t : CapabilityToken) (l : list MemoryRecord) : MemoryM unit :=
  match l with
  | [] => mret tt
  | r :: l => rewrite_memory now m t (set_content (mark_consolidated (mr_content r)) r);; consolidate_each now m t l
  end.

Definition promote_cluster (now : Instant) (m : M) (t : CapabilityToken) (c : FactCluster) : MemoryM NodeId :=
  let confidence := confidence_of (length (cl_episodes c)) in
  id ← remember now m t Semantic
         (JObject [(lit "confidence", json_f32 confidence); (lit "entity_key", JString (cl_entity_key c));
                   (lit "fact", JString (representative_fact c))])
         None confidence false (mr_id <$> cl_episodes c);
  consolidate_each now m t (cl_episodes c);;
  mret id.

Fixpoint promote_clusters (now : Instant) (m : M) (t : CapabilityToken) (min_occurrences : nat) (l : list FactCluster) : MemoryM (list NodeId) :=
  match l with
  | [] => mret []
  | c :: l =>
      if (length (cl_episodes c) <? min_occurrences)%nat then promote_clusters now m t min_occurrences l
      else id ← promote_cluster now m t c; rest ← promote_clusters now m t min_occurrences l; mret (id :: rest)
  end.

Definition run_extraction_pass (now : Instant) (m : M) (t : CapabilityToken) (min_occurrences : nat) : MemoryM (list NodeId) :=
  l ← query_memory now m t (mkFilter (Some Episodic) false true false None);
  promote_clusters now m t min_occurrences (cluster_episodes l).

Definition count_procedural_delegations (now : Instant) (m : M) (t : CapabilityToken) (key : text) (since : N) : MemoryM DelegationCount :=
  l ← query_memory now m t (mkFilter (Some Procedural) false false false (Some (since, two64 - 1)));
  mret (mkDelegations key (length (List.filter (fun r => bool_decide (json_get (mr_content r) (lit "entity_key") ≫= as_str = Some key)) l)) since).

(** *** Co-occurrence *)

Definition link_objects (now : Instant) (m : M) (t : CapabilityToken) (a b : NodeId) : MemoryM unit := fun s =>
  let env := outside (me_tick s) in
  let '(r, g) := (link to_value now m t (me_graph s) a (lit "co-occurs-with") b f32_one Inferred None (lit "memory_co_occurrence") None
                    (we_wall1 env) (we_wall2 env) (we_nonce env) (we_io env)).1 in
  Some (match r with Ok _ => Ok tt | Err e => Err (MemoryGraph e) end, with_memory_graph s g).

Fixpoint link_all (now : Instant) (m : M) (t : CapabilityToken) (a : NodeId) (l : list NodeId) : MemoryM unit :=
  match l with [] => mret tt | b :: l => link_objects now m t a b;; link_all now m t a l end.

(** Every pair, in order. *)
Fixpoint link_pairs (now : Instant) (m : M) (t : CapabilityToken) (l : list NodeId) : MemoryM nat :=
  match l with
  | [] => mret O
  | a :: l => link_all now m t a l;; k ← link_pairs now m t l; mret (length l + k)%nat
  end.

Fixpoint link_records (now : Instant) (m : M) (t : CapabilityToken) (l : list MemoryRecord) : MemoryM nat :=
  match l with
  | [] => mret O
  | r :: l => k ← link_pairs now m t (mr_provenance r); k' ← link_records now m t l; mret (k + k')%nat
  end.

Definition co_occurrence_task (t : CapabilityToken) (id : N) : task :=
  Scheduler.mkTask id 0 None BatchDistributable None (f32_lit 1 2) (set no_resources Cpu 1) t None JNull.

(** The task is submitted and an epoch run, whatever is decided. *)
Definition submit_pass (now : Instant) (order : list task -> option (list task)) (m : M) (t : CapabilityToken) (id : N) : MemoryM N := fun s =>
  match submit_task now m (me_scheduler s) (co_occurrence_task t id) with
  | (Err e, c) => Some (Err (MemoryScheduler e), with_memory_scheduler s c)
  | (Ok ticket, c) => '(_, c) ← schedule_epoch order (mkSurroundings None None) c; Some (Ok ticket, with_memory_scheduler s c)
  end.

Definition run_co_occurrence_pass (now : Instant) (order : list task -> option (list task)) (m : M) (t : CapabilityToken) : MemoryM nat :=
  id ← recalls me_next_task;
  changes (fun s => with_next_task s (u64_add id 1));;
  ticket ← submit_pass now order m t id;
  l ← query_memory now m t with_dormant;
  touched ← link_records now m t l;
  changes (fun s => with_memory_scheduler s (complete (me_scheduler s) ticket).2);;
  mret touched.
(** *** What the agent runtime sees *)

#[export] Instance engine_memory : AgentMemory M MemoryEngine := {|
  mem_remember := fun now m t s v => match remember now m t Procedural v None f32_one false [] s with Some (_, s) => s | None => s end;
  mem_query := fun now m t s =>
    match select now m t (me_graph s) (mkFilter (Some Procedural) false false false None) with
    | Ok l => Some ((fun r => (mr_content r, mr_created_at r)) <$> l)
    | Err _ => None
    end
|}.
End engine.
