(* ===== verification/MemoryErasure.v ===== *)
(** Erasing a memory with what was made of it: [erase] of the memory engine ends and
    erases exactly what depends on the memory, directly or through others. *)
From S2P Require Import Prelude Crypto Capability Authority Wal Storage DebugFmt Events F32 Json KnowledgeGraph NodeStore PluginReview ModelRouter Scheduler AgentRuntime Identity Coordination Text Memory.
Open Scope N_scope.

Abbreviation text := (list N).

Section erasure.
Context {V : Type} `{Codec (WalRecord V)} `{Aead} `{HashIter} {M : Type} `{Authority M} `{MemoryJson V}.
Context (to_value : Record_ (V := V) -> V) (outside : nat -> WriteEnv).

Abbreviation kg := (KnowledgeGraph (V := V)).
Abbreviation engine := (MemoryEngine (V := V)).

(** The memory at a node, if it is one of [b]'s. *)
Definition held (b : N) (g : kg) (y : NodeId) : option MemoryRecord :=
  n ← nodes (index g) !! y;
  if own_live b n then r ← to_record y n; if origin_boundary r =? b then Some r else None else None.

(** Its node is of one of the four types, as queries want. *)
Definition typed (g : kg) (y : NodeId) : Prop := exists n, nodes (index g) !! y = Some n /\ object_type n ∈ as_object_type <$> ALL_TIERS.

(** What a query with the default filter finds. *)
Definition alive (b : N) (g : kg) (y : NodeId) (r : MemoryRecord) : Prop :=
  held b g y = Some r /\ typed g y /\ erased r = false /\ dormant r = false.

(** [y] was made of [x], and is there. *)
Definition made_of (b : N) (g : kg) (x y : NodeId) : Prop := exists r, alive b g y r /\ x ∈ mr_provenance r.

(** The same, whether queries show it or not. *)
Definition fact_of (b : N) (g : kg) (x y : NodeId) : Prop :=
  exists r, held b g y = Some r /\ typed g y /\ erased r = false /\ x ∈ mr_provenance r.

Lemma made_of_awake b g :
  (forall y d, held b g y = Some d -> dormant d = false) -> forall x y, made_of b g x y <-> fact_of b g x y.
Proof. intros Hawake x y. unfold made_of, fact_of, alive. naive_solver. Qed.

Lemma held_id b g y r : held b g y = Some r -> mr_id r = y /\ y ∈ dom (nodes (index g)).
Proof.
  unfold held. destruct (nodes (index g) !! y) as [n|] eqn:Hn; simpl; [|done]. destruct (own_live b n); [|done]. unfold to_record.
  destruct (memory_from_value _) as [r0|]; simpl; [|done]. destruct (_ =? _); [|done]. intros [= <-]. split; [done|]. by apply elem_of_dom.
Qed.

Lemma load_held now m t g y r : authorize now m t READ = Ok tt -> held (origin t) g y = Some r -> load now m t g y = Ok r.
Proof.
  intros Hok. unfold held, load, KnowledgeGraph.get, KnowledgeGraph.require. rewrite Hok. simpl. destruct (nodes (index g) !! y) as [n|]; simpl; [|done].
  destruct (own_live (origin t) n); [|done]. destruct (to_record y n) as [r0|]; simpl; [|done]. unfold readable_by.
  destruct (_ =? _); [|done]. by intros [= ->].
Qed.

(** A query that only asks for types finds the caller's nodes of these types. *)
Lemma query_types now m t (g : kg) types :
  authorize now m t READ = Ok tt ->
  exists hits, KnowledgeGraph.query now m t g (mkQuery (Some types) None None None None 0) = Ok hits
    /\ forall id n, (exists sc, mkHit id n sc ∈ hits) <-> nodes (index g) !! id = Some n /\ own_live (origin t) n = true /\ object_type n ∈ types.
Proof.
  intros Hok. unfold KnowledgeGraph.query, KnowledgeGraph.require. rewrite Hok. cbn. eexists. split; [done|]. intros id n.
  setoid_rewrite sort_hits_perm. setoid_rewrite list_elem_of_omap. unfold rank_against. cbn. split.
  - intros (sc & [id' n'] & [Hin%elem_of_hash_iter Ho]%elem_of_test & Hh). rewrite !andb_true_r in Hh. case_bool_decide as Hty; [|done]. by injection Hh as -> ->.
  - intros (Hn & Ho & Hty). exists f32_one, (id, n). rewrite bool_decide_true by done. split; [|done]. apply elem_of_test. split; [by apply elem_of_hash_iter|done].
Qed.

Lemma select_alive now m t (g : kg) :
  authorize now m t READ = Ok tt -> exists l, select now m t g default_filter = Ok l /\ forall r, r ∈ l <-> alive (origin t) g (mr_id r) r.
Proof.
  intros Hok. destruct (query_types now m t g (as_object_type <$> ALL_TIERS) Hok) as (hits & Hq & Hhits).
  unfold select, memories, type_filter_of. cbn [default_filter f_tier f_time_range]. rewrite Hq. cbn [map_err]. eexists. split; [done|].
  intros r. rewrite !elem_of_test, list_elem_of_omap. unfold alive, held, typed, wanted, readable_by. cbn [include_erased include_dormant pinned_only default_filter].
  rewrite !orb_false_r, orb_true_l, andb_true_r, andb_true_iff, !negb_true_iff. split.
  - intros (((h & Hh & Hr) & Hb) & He & Hd). destruct h as [id n sc]. cbn [node_id node] in Hr.
    destruct (proj1 (Hhits id n) (ex_intro _ sc Hh)) as (Hn & Ho & Hty).
    assert (Hid : mr_id r = id) by (unfold to_record in Hr; apply fmap_Some in Hr as (r0 & _ & ->); done).
    rewrite Hid, Hn. cbn. rewrite Ho, Hr. cbn. rewrite Hb. split; [done|]. split; [by exists n|done].
  - intros (Hheld & (n & Hn & Hty) & He & Hd). rewrite Hn in Hheld. cbn in Hheld. destruct (own_live (origin t) n) eqn:Ho; [|done].
    destruct (to_record (mr_id r) n) as [r0|] eqn:Hr; [|done]. cbn in Hheld. destruct (origin_boundary r0 =? origin t) eqn:Hb; [|done]. injection Hheld as ->.
    split; [|done]. split; [|done]. destruct (proj2 (Hhits (mr_id r) n)) as [sc Hsc]; [done|]. by exists (mkHit (mr_id r) n sc).
Qed.

(** *** Rewriting *)

(** The memories in [T] are erased, and nothing else is different. *)
Record erasing (b : N) (g g' : kg) (T : gset NodeId) : Prop := {
  es_in : forall y, y ∈ T -> exists r, held b g y = Some r /\ held b g' y = Some (set_erased r);
  es_out : forall y, y ∉ T -> nodes (index g') !! y = nodes (index g) !! y
}.

Definition all_finite (b : N) (g : kg) : Prop := forall y r, held b g y = Some r -> finite_memory r = true.

Lemma held_same b g g' y : nodes (index g') !! y = nodes (index g) !! y -> held b g' y = held b g y /\ (typed g' y <-> typed g y).
Proof. intros Hn. unfold held, typed. by rewrite Hn. Qed.

Lemma made_of_after b g g' T x y : erasing b g g' T -> made_of b g' x y <-> made_of b g x y /\ y ∉ T.
Proof.
  intros [Hin Hout]. destruct (decide (y ∈ T)) as [Hy|Hy].
  - destruct (Hin y Hy) as (r & _ & Hr). split; [|by intros []]. intros (r' & (Hh & _ & He & _) & _). rewrite Hr in Hh. by injection Hh as <-.
  - destruct (held_same b g g' y (Hout y Hy)) as [Hh Ht]. unfold made_of, alive. rewrite Hh. setoid_rewrite Ht. naive_solver.
Qed.

Lemma erasing_refl b g : erasing b g g ∅.
Proof. split; [by intros y ?%elem_of_empty|done]. Qed.

Lemma erasing_trans b g1 g2 g3 T1 T2 : erasing b g1 g2 T1 -> erasing b g2 g3 T2 -> erasing b g1 g3 (T1 ∪ T2).
Proof.
  intros [Hin1 Hout1] [Hin2 Hout2]. split.
  - intros y Hy. destruct (decide (y ∈ T1)) as [H1'|H1'].
    + destruct (Hin1 y H1') as (r & Hr & Hr'). exists r. split; [done|]. destruct (decide (y ∈ T2)) as [H2'|H2'].
      * destruct (Hin2 y H2') as (r2 & Hr2 & Hr2'). rewrite Hr' in Hr2. injection Hr2 as <-. done.
      * by rewrite (proj1 (held_same b g2 g3 y (Hout2 y H2'))).
    + destruct (Hin2 y) as (r2 & Hr2 & Hr2'); [set_solver|]. exists r2. split; [|done]. by rewrite <- (proj1 (held_same b g1 g2 y (Hout1 y H1'))).
  - intros y Hy. rewrite Hout2 by set_solver. apply Hout1. set_solver.
Qed.

Lemma erasing_finite b g g' T : erasing b g g' T -> all_finite b g -> all_finite b g'.
Proof.
  intros [Hin Hout] Hf y r Hr. destruct (decide (y ∈ T)) as [Hy|Hy].
  - destruct (Hin y Hy) as (r0 & Hr0 & Hr'). rewrite Hr in Hr'. injection Hr' as ->. exact (Hf y r0 Hr0).
  - apply (Hf y). by rewrite <- (proj1 (held_same b g g' y (Hout y Hy))).
Qed.

Section caller.
Context (now : Instant) (m : M) (t : CapabilityToken).
Hypothesis may_read : authorize now m t READ = Ok tt.
Hypothesis may_write : authorize now m t WRITE = Ok tt.
Hypothesis writes_land : forall k, we_io (outside k) = Written.

Abbreviation b := (origin t).

Lemma rewrite_held (s : engine) y r r' :
  held b (me_graph s) y = Some r -> mr_id r' = y -> origin_boundary r' = b -> finite_memory r' = true ->
  exists s', rewrite_memory to_value outside now m t r' s = Some (Ok tt, s')
    /\ held b (me_graph s') y = Some r' /\ typed (me_graph s') y
    /\ forall x, x <> y -> nodes (index (me_graph s')) !! x = nodes (index (me_graph s)) !! x.
Proof.
  intros Hr Hid Hb Hf. unfold rewrite_memory, put_memory, mbind, memory_bind. rewrite Hid.
  assert (Hown : forall n0, nodes (index (me_graph s)) !! y = Some n0 -> owner n0 = b /\ tombstone n0 = false).
  { intros n0 Hn0. unfold held in Hr. rewrite Hn0 in Hr. cbn in Hr. destruct (own_live b n0) eqn:Ho; [|done]. by apply own_live_spec. }
  pose proof (ns_put_total (NodeStore := graph_node_store to_value) now m t (me_graph s) y (as_object_type (mr_tier r')) (mr_embedding r') (memory_to_value r')
    (outside (me_tick s)) may_write (writes_land _) (fun n0 Hn0 => proj1 (Hown n0 Hn0))) as Htot.
  pose proof (ns_put_done (NodeStore := graph_node_store to_value) now m t (me_graph s) y (as_object_type (mr_tier r')) (mr_embedding r') (memory_to_value r') (outside (me_tick s))) as Hdone.
  cbn in Htot, Hdone |- *. destruct (put_node _ _ _ _ _ _ _ _ _ _ _ _ _) as [[[id|e] g'] ns]; [|done]. cbn in *.
  destruct (Hdone id g' eq_refl) as (-> & Hothers & _ & n & Hn & Hcontent & Hown' & Htomb).
  eexists. split; [done|]. cbn [me_graph with_memory_graph]. split; [|split; [|exact Hothers]].
  - unfold held. rewrite Hn. cbn. injection Hcontent as _ _ Hmd.
    assert (Hlive : own_live b n = true).
    { apply own_live_spec. split; [done|]. rewrite Htomb. destruct (nodes (index (me_graph s)) !! y) as [n0|] eqn:Hn0; [|done]. cbn. by apply Hown. }
    rewrite Hlive. unfold to_record. rewrite Hmd, memory_round_trip by done. cbn. rewrite Hb, N.eqb_refl. f_equal. rewrite <- Hid. by destruct r'.
  - exists n. split; [done|]. injection Hcontent as -> _ _. destruct (mr_tier r'); cbn; set_solver.
Qed.

Lemma erase_one (s : engine) y r :
  held b (me_graph s) y = Some r -> finite_memory r = true ->
  exists s', rewrite_memory to_value outside now m t (set_erased r) s = Some (Ok tt, s') /\ erasing b (me_graph s) (me_graph s') {[y]}.
Proof.
  intros Hr Hf. destruct (held_id _ _ _ _ Hr) as [Hid _].
  assert (Hb : origin_boundary r = b).
  { unfold held in Hr. destruct (nodes _ !! y) as [n|]; [|done]. cbn in Hr. destruct (own_live b n); [|done]. destruct (to_record y n) as [r0|]; [|done]. cbn in Hr.
    destruct (N.eqb_spec (origin_boundary r0) b); [|done]. by injection Hr as <-. }
  destruct (rewrite_held s y r (set_erased r) Hr Hid Hb Hf) as (s' & Hs' & Hh & _ & Hothers). exists s'. split; [exact Hs'|]. split.
  - intros x ->%elem_of_singleton. by exists r.
  - intros x Hx. apply Hothers. set_solver.
Qed.

(** *** The cascade *)

(** What [erase] does to the graph when it starts at [x]. *)
Definition erases (x : NodeId) (g g' : kg) : Prop :=
  exists T, erasing b g g' T /\ forall y, y ∈ T <-> rtc (made_of b g) x y.

Lemma rtc_cut (R R' : NodeId -> NodeId -> Prop) (T : gset NodeId) x y :
  (forall u v, R' u v <-> R u v /\ v ∉ T) -> (forall u v, u ∈ T -> R u v -> v ∈ T) -> rtc R x y -> y ∈ T \/ rtc R' x y.
Proof.
  intros HR Hclosed Hxy. induction Hxy as [x|x u y Hxu _ IH]; [right; constructor|]. destruct IH as [IH|IH]; [by left|].
  destruct (decide (u ∈ T)) as [Hu|Hu].
  - left. clear -Hclosed Hu IH HR. induction IH as [|u v w [Huv _]%HR _ IH']; [done|]. apply IH'. by eapply Hclosed.
  - right. eapply rtc_l; [|exact IH]. by apply HR.
Qed.

Lemma rtc_from (R R' : NodeId -> NodeId -> Prop) x y :
  (forall u v, R' u v <-> R u v /\ v <> x) -> rtc R x y <-> y = x \/ exists d, R' x d /\ rtc R' d y.
Proof.
  intros HR. split.
  - intros Hxy. assert (Hgen : forall u, rtc R u y -> (exists d, R' x d /\ rtc R' d y) \/ y = x \/ rtc R' u y).
    { clear Hxy. intros u Huy. induction Huy as [u|u v y Huv _ [IH|[IH|IH]]]; [by right; right; constructor|by left|by right; left|].
      destruct (decide (v = x)) as [->|Hv].
      - apply rtc_inv in IH as [->|(d & Hd & Hdy)]; [by right; left|]. left. by exists d.
      - right. right. eapply rtc_l; [|exact IH]. by apply HR. }
    destruct (Hgen x Hxy) as [?|[?|Hr]]; [by right|by left|]. apply rtc_inv in Hr as [->|(d & Hd & Hdy)]; [by left|right; by exists d].
  - intros [->|(d & Hd & Hdy)]; [constructor|]. apply HR in Hd as [Hd _]. eapply rtc_l; [exact Hd|]. clear -Hdy HR.
    induction Hdy as [|u v w [Huv _]%HR _ IH]; [constructor|]. by eapply rtc_l.
Qed.

Definition direct (id : NodeId) (d : MemoryRecord) : bool := bool_decide (id ∈ mr_provenance d) && negb (erased d).

Lemma cascade_ok one id (g1 : kg) l (s : engine) T :
  (forall d (s1 : engine) T1, d ∈ l -> erasing b g1 (me_graph s1) T1 ->
     exists rc s2, one (mr_id d) s1 = Some (Ok rc, s2) /\ erases (mr_id d) (me_graph s1) (me_graph s2)) ->
  erasing b g1 (me_graph s) T -> (forall u v, u ∈ T -> made_of b g1 u v -> v ∈ T) ->
  exists s' T', cascade_each one id l s = Some (Ok (mr_id <$> List.filter (direct id) l), s') /\ erasing b g1 (me_graph s') T'
    /\ forall y, y ∈ T' <-> y ∈ T \/ exists d, d ∈ List.filter (direct id) l /\ rtc (made_of b g1) (mr_id d) y.
Proof.
  revert s T. induction l as [|d l IH]; intros s T Hone Her Hclosed.
  { exists s, T. split; [done|]. split; [done|]. intros y. split; [by left|]. intros [?|(d & ?%elem_of_nil & _)]; done. }
  cbn [cascade_each List.filter]. change (bool_decide (id ∈ mr_provenance d) && negb (erased d)) with (direct id d).
  assert (Hrest : forall (d0 : MemoryRecord) (s1 : engine) T1, d0 ∈ l -> erasing b g1 (me_graph s1) T1 ->
    exists rc s2, one (mr_id d0) s1 = Some (Ok rc, s2) /\ erases (mr_id d0) (me_graph s1) (me_graph s2)).
  { intros d0 s1 T1 Hd0. apply Hone. by right. }
  destruct (direct id d); [|by apply IH].
  destruct (Hone d s T (list_elem_of_here _ _) Her) as (rc & s1 & Hrun & T1 & Her1 & HT1). unfold mbind, memory_bind. rewrite Hrun.
  assert (Hchar : forall y, y ∈ T ∪ T1 <-> y ∈ T \/ rtc (made_of b g1) (mr_id d) y).
  { intros y. rewrite elem_of_union, HT1. pose proof (fun u v => made_of_after b g1 (me_graph s) T u v Her) as HR. split.
    - intros [?|Hy]; [by left|right]. clear -Hy HR. induction Hy as [|u v w [Huv _]%HR _ IH']; [constructor|]. by eapply rtc_l.
    - intros [?|Hy]; [by left|]. eapply rtc_cut; [exact HR|exact Hclosed|exact Hy]. }
  destruct (IH s1 (T ∪ T1) Hrest) as (s' & T' & Hrun' & Her' & HT').
  - by eapply erasing_trans.
  - intros u v [Hu|Hu]%Hchar Huv; apply Hchar; [left; by eapply Hclosed|right; by eapply rtc_r].
  - rewrite Hrun'. exists s', T'. split; [done|]. split; [done|]. intros y. rewrite HT', Hchar. setoid_rewrite elem_of_cons. naive_solver.
Qed.

Lemma erase_spec fuel (s : engine) id r (A : gset NodeId) :
  all_finite b (me_graph s) -> held b (me_graph s) id = Some r -> (forall y r', alive b (me_graph s) y r' -> y ∈ A) -> (size (A ∖ {[id]}) < fuel)%nat ->
  exists rc s', erase to_value outside fuel now m t id true s = Some (Ok rc, s') /\ erases id (me_graph s) (me_graph s')
    /\ forall y, y ∈ cascaded rc <-> made_of b (me_graph s) id y /\ y <> id.
Proof.
  revert s id r A. induction fuel as [|fuel IH]; intros s id r A Hfin Hr HA Hfuel; [lia|]. cbn [erase]. unfold mbind, memory_bind, load_owned, views.
  rewrite (load_held _ _ _ _ _ _ may_read Hr). destruct (erase_one s id r Hr (Hfin _ _ Hr)) as (s1 & Hs1 & Her1). rewrite Hs1.
  destruct (select_alive now m t (me_graph s1) may_read) as (l & Hl & Halive). unfold query_memory, views. rewrite Hl.
  pose proof (fun u v => made_of_after b (me_graph s) (me_graph s1) {[id]} u v Her1) as HR.
  assert (Hl1 : forall d, d ∈ l -> mr_id d ∈ A ∖ {[id]} /\ is_Some (held b (me_graph s1) (mr_id d))).
  { intros d Hd%Halive. split; [|destruct Hd as [-> _]; by eexists]. destruct Her1 as [Hin Hout]. destruct (decide (mr_id d = id)) as [Heq|Hne].
    - exfalso. destruct (Hin id) as (r0 & _ & Hr0); [set_solver|]. destruct Hd as (Hh & _ & He & _). rewrite Heq, Hr0 in Hh. by injection Hh as <-.
    - destruct (held_same b _ _ (mr_id d) (Hout (mr_id d) ltac:(set_solver))) as [Hh Ht]. destruct Hd as (Hd1 & Hd2 & Hd3). rewrite Hh in Hd1. apply Ht in Hd2.
      assert (mr_id d ∈ A) by (by apply (HA (mr_id d) d)). set_solver. }
  destruct (cascade_ok (fun d => erase to_value outside fuel now m t d true) id (me_graph s1) l s1 ∅) as (s' & T' & Hrun & Her' & HT').
  - intros d s2 T2 Hd Her2. destruct (Hl1 d Hd) as [HdA [rd Hrd]].
    assert (Hheld : exists r2, held b (me_graph s2) (mr_id d) = Some r2).
    { destruct (decide (mr_id d ∈ T2)) as [Hy|Hy]; [destruct (es_in _ _ _ _ Her2 _ Hy) as (r0 & _ & Hr0); by eexists|].
      rewrite (proj1 (held_same b _ _ _ (es_out _ _ _ _ Her2 _ Hy))). by eexists. }
    destruct Hheld as [r2 Hr2]. destruct (IH s2 (mr_id d) r2 (A ∖ {[id]})) as (rc & s3 & Hrun & Hers & _); [|done| | |by exists rc, s3].
    + eapply erasing_finite; [exact Her2|]. by eapply erasing_finite.
    + intros y r' Hy. pose proof (erasing_trans _ _ _ _ _ _ Her1 Her2) as Her12. destruct (decide (y ∈ {[id]} ∪ T2)) as [Hin|Hout].
      * exfalso. destruct (es_in _ _ _ _ Her12 y Hin) as (r0 & _ & Hr0). destruct Hy as (Hh & _ & He & _). rewrite Hr0 in Hh. by injection Hh as <-.
      * destruct (held_same b _ _ y (es_out _ _ _ _ Her12 y Hout)) as [Hh Ht]. destruct Hy as (Hy1 & Hy2 & Hy3). rewrite Hh in Hy1. apply Ht in Hy2.
        assert (y ∈ A) by (by apply (HA y r')). set_solver.
    + rewrite (size_difference (A ∖ {[id]})) by set_solver. rewrite size_singleton. assert (size (A ∖ {[id]}) <> 0%nat) by (intros ?%size_empty_inv; set_solver). lia.
  - apply erasing_refl.
  - by intros u v ?%elem_of_empty.
  - rewrite Hrun. eexists _, _. split; [done|].
    assert (Hdirect : forall y, (exists d, d ∈ List.filter (direct id) l /\ mr_id d = y) <-> made_of b (me_graph s1) id y).
    { intros y. split.
      - intros (d & [Hd%Halive Ht]%elem_of_test & <-). exists d. split; [done|]. apply andb_true_iff in Ht as [Ht _]. by apply bool_decide_eq_true in Ht.
      - intros (d & Hd & Hp). assert (Hid : mr_id d = y) by (destruct Hd as [Hd _]; by apply held_id in Hd as [? _]). exists d. split; [|done]. apply elem_of_test. split.
        + apply Halive. by rewrite Hid.
        + unfold direct. destruct Hd as (_ & _ & -> & _). by rewrite bool_decide_true. }
    split.
    + exists ({[id]} ∪ T'). split; [by eapply erasing_trans|]. intros y. rewrite elem_of_union, elem_of_singleton, HT', elem_of_empty.
      rewrite (rtc_from (made_of b (me_graph s)) (made_of b (me_graph s1)) id y) by (intros u v; rewrite HR, elem_of_singleton; done).
      setoid_rewrite <- Hdirect. naive_solver.
    + intros y. cbn [cascaded]. rewrite list_elem_of_fmap. rewrite <- (elem_of_singleton (C := gset NodeId) y id), <- HR, <- Hdirect. naive_solver.
Qed.

(** C28. Erasing with a cascade is exact, for a caller who may read and write and none of
    whose memories is dormant, while writes reach the disk. Erasing one of its memories
    ends, within as many nested calls as the graph has nodes, and succeeds. It marks as
    erased exactly the memory and the caller's memories made of it, directly or through
    others, that were not erased before; every other node, of the caller or not, stays as
    it was, and so does everything else about the erased ones. The receipt names only such
    as were erased with it, those made of the memory directly among them. (The cascade does
    not find a dormant memory: [MemoryExample.dormant_memories_survive].) *)
Theorem erase_is_exact fuel (s : engine) id r :
  all_finite b (me_graph s) -> (forall y d, held b (me_graph s) y = Some d -> dormant d = false) ->
  held b (me_graph s) id = Some r -> (size (dom (nodes (index (me_graph s)))) < fuel)%nat ->
  exists rc s' (T : gset NodeId), erase to_value outside fuel now m t id true s = Some (Ok rc, s')
    /\ (forall y, y ∈ T <-> rtc (fact_of b (me_graph s)) id y)
    /\ (forall y, y ∈ T -> exists r', held b (me_graph s) y = Some r' /\ held b (me_graph s') y = Some (set_erased r'))
    /\ (forall y, y ∉ T -> nodes (index (me_graph s')) !! y = nodes (index (me_graph s)) !! y)
    /\ (forall y, y ∈ cascaded rc -> y ∈ T /\ y <> id)
    /\ (forall y, fact_of b (me_graph s) id y -> y <> id -> y ∈ cascaded rc).
Proof.
  intros Hfin Hawake Hr Hfuel. pose proof (made_of_awake b (me_graph s) Hawake) as Hmo.
  destruct (erase_spec fuel s id r (dom (nodes (index (me_graph s)))) Hfin Hr) as (rc & s' & Hrun & (T & [Hin Hout] & HT) & Hcas).
  - intros y r' [Hy _]. by apply held_id in Hy as [_ Hy].
  - eapply Nat.le_lt_trans; [|exact Hfuel]. apply subseteq_size. set_solver.
  - exists rc, s', T. split; [done|]. split; [|split; [done|split; [done|split]]].
    + intros y. rewrite HT. split; apply rtc_subrel; intros u v; by rewrite Hmo.
    + intros y [Hy Hne]%Hcas. split; [|done]. apply HT. by apply rtc_once.
    + intros y Hy Hne. apply Hcas. by rewrite Hmo.
Qed.
End caller.
End erasure.

(** ** Examples *)

Module MemoryExample.
Import Crypto.Toy Wal.ToyRecords Storage.StorageExample KnowledgeGraph.GraphExample.

Definition tier_code (t : MemoryTier) : N := match t with Episodic => 0 | Semantic => 1 | Procedural => 2 | LongTerm => 3 end.
Definition code_tier (n : N) : MemoryTier := match n with 0 => Episodic | 1 => Semantic | 2 => Procedural | _ => LongTerm end.
Definition floats (l : list f32) : Json := JArray (JFloat <$> l).
Definition get_float (v : Json) : f32 := match v with JFloat x => x | _ => f32_zero end.
Definition get_number (v : Json) : N := match v with JNumber n => n | _ => 0 end.

Definition memory_json (r : MemoryRecord) : Json :=
  JArray [JNumber (origin_boundary r); JNumber (tier_code (mr_tier r)); mr_content r; from_option floats JNull (mr_embedding r);
          JNumber (mr_created_at r); JNumber (last_accessed_at r); JNumber (access_count r); JFloat (importance r); JFloat (decay_score r);
          JBool (pinned r); JArray (JNumber <$> mr_provenance r); JBool (erased r); JBool (dormant r)].
Definition json_memory (v : Json) : option MemoryRecord :=
  match v with
  | JArray [JNumber b; JNumber tier; content; emb; JNumber created; JNumber accessed; JNumber count; JFloat imp; JFloat score; JBool pin;
            JArray prov; JBool er; JBool dor] =>
      Some (mkMemory 0 b (code_tier tier) content (match emb with JArray l => Some (get_float <$> l) | _ => None end) created accessed count imp
              score pin (get_number <$> prov) er dor)
  | _ => None
  end.

(** A memory as a number. *)
#[export, refine] Instance numbered_memories : MemoryJson N := {|
  memory_to_value r := N.pos (countable.encode (memory_json r));
  memory_from_value v := match v with N.pos p => countable.decode p ≫= json_memory | 0 => None end
|}.
Proof.
  intros [id ob tier content emb created accessed count imp score pin prov er dor] _. rewrite countable.decode_encode. cbn.
  rewrite <- list_fmap_compose. unfold set_memory_id. cbn. do 2 f_equal.
  - by destruct tier.
  - destruct emb as [l|]; [|done]. cbn. rewrite <- list_fmap_compose. by rewrite list_fmap_id.
  - by rewrite list_fmap_id.
Defined.

Definition five (_ : Rec) : N := 5.
Definition lands (_ : nat) : WriteEnv := mkEnv 1 1 toy_nonce Written.
Definition zero_secs (_ : nat) : N := 0.
(** Nothing fades. *)
Definition fresh : Libm := mkLibm (fun _ => f64_one) (fun _ => f64_one).
(** Everything does. *)
Definition faded : Libm := mkLibm (fun _ => f64_of_N 0) (fun x => x).

Definition user : CapabilityToken := mkToken 1 0 rights_all 0 7 None.

Abbreviation engine := (MemoryEngine (V := N)).
Abbreviation tell imp prov := (remember (M := unit) five lands zero_secs 0 tt user Semantic (JString []) None imp false prov).
Abbreviation decay c := (run_decay_pass (M := unit) five lands zero_secs c 0 tt user).
Abbreviation forget id := (erase (M := unit) five lands 20 0 tt user id true).

Definition next {T : Type} (o : engine -> option (Result T MemoryError * engine)) (s : engine) : engine := match o s with Some (_, s) => s | None => s end.
Definition says {T : Type} (o : option (Result T MemoryError * engine)) : option T := match o with Some (Ok a, _) => Some a | _ => None end.
Definition gone (s : engine) : list NodeId := (fun '(y, _) => y) <$> filter (fun '(y, _) => erased <$> held 7 (me_graph s) y = Some true) (map_to_list (nodes (index (me_graph s)))).

(** Memory 1 was made of 0, memory 2 of 1, and 3 is another. *)
Definition family : engine := next (tell f32_zero []) (next (tell f32_zero [1]) (next (tell f32_zero [0]) (next (tell f32_zero []) (new_memory graph0)))).

Example a_family_is_forgotten :
  (fun rc => cascaded rc) <$> says (forget 0 family) = Some [1] /\ gone (next (forget 0) family) = [2; 1; 0]
  /\ gone (next (forget 1) family) = [2; 1].
Proof. vm_compute. done. Qed.

(** What has become dormant is not found by the cascade, and comes back later. *)
Example dormant_memories_survive :
  gone (next (forget 0) (next (decay faded) family)) = [0]
  /\ gone (next (decay fresh) (next (forget 0) (next (decay faded) family))) = [0].
Proof. vm_compute. done. Qed.

(** A memory above the threshold is promoted again by every pass. *)
Example promoted_again_and_again :
  let s := next (tell f32_one []) (new_memory graph0) in
  says (decay fresh s) = Some [1] /\ says (decay fresh (next (decay fresh) s)) = Some [2].
Proof. vm_compute. done. Qed.

(** An agent is suspended three times within a second. Its history is ordered by the
    second, and then as the table of nodes is: what is read back is not the last. *)
#[export] Instance lasting : AgentMemory unit (MemoryEngine (V := N)) := engine_memory five lands zero_secs.

Definition suspended (k : N) (s : AgentRuntime.AgentRuntime (Mem := engine) (X := unit)) : AgentRuntime.AgentRuntime (Mem := engine) (X := unit) :=
  AgentRuntime.record_resilience_event 0 tt user s (lit "writer") (lit "suspended") (lit "echo") k.
Definition recalled (s : AgentRuntime.AgentRuntime (Mem := engine) (X := unit)) : N := AgentRuntime.remembered_times_suspended 0 tt user s (lit "writer").

Example history_within_a_second :
  let s0 := AgentRuntime.new (Some (new_memory graph0)) None in
  (recalled s0, recalled (suspended 1 s0), recalled (suspended 2 (suspended 1 s0)), recalled (suspended 3 (suspended 2 (suspended 1 s0)))) = (0, 1, 1, 1).
Proof. vm_compute. done. Qed.
End MemoryExample.

Section witnesses.
Import Crypto.Toy Wal.ToyRecords Storage.StorageExample KnowledgeGraph.GraphExample MemoryExample.

Lemma family_finite : all_finite (origin user) (me_graph family).
Proof.
  intros y r Hr. destruct (held_id _ _ _ _ Hr) as [_ Hy].
  assert (Hall : set_Forall (fun y => is_true (from_option finite_memory true (held (origin user) (me_graph family) y))) (dom (nodes (index (me_graph family))))).
  { apply (bool_decide_unpack _). by vm_compute. }
  pose proof (Hall y Hy) as Hf. cbn beta in Hf. rewrite Hr in Hf. exact Hf.
Defined.

Lemma family_awake : forall y d, held (origin user) (me_graph family) y = Some d -> dormant d = false.
Proof.
  intros y r Hr. destruct (held_id _ _ _ _ Hr) as [_ Hy].
  assert (Hall : set_Forall (fun y => dormant <$> held (origin user) (me_graph family) y <> Some true) (dom (nodes (index (me_graph family))))).
  { apply (bool_decide_unpack _). by vm_compute. }
  pose proof (Hall y Hy) as Hf. cbn beta in Hf. rewrite Hr in Hf. simpl in Hf. by destruct (dormant r).
Defined.

(** The first memory, what was made of it, and what was made of that. *)
Lemma erase_is_exact_witness :
  exists rc s', forget 0 family = Some (Ok rc, s') /\ (forall y, fact_of 7 (me_graph family) 0 y -> y <> 0 -> y ∈ cascaded rc).
Proof.
  destruct (held (origin user) (me_graph family) 0) as [r|] eqn:Hr; [|vm_compute in Hr; discriminate].
  destruct (erase_is_exact five lands 0 tt user) with (fuel := 20%nat) (s := family) (id := 0) (r := r) as (rc & s' & T & Hrun & _ & _ & _ & _ & Hc).
  - by vm_compute.
  - by vm_compute.
  - done.
  - exact family_finite.
  - exact family_awake.
  - exact Hr.
  - apply Nat.ltb_lt. by vm_compute.
  - exists rc, s'. split; [exact Hrun|exact Hc].
Defined.
End witnesses.
