(* ===== verification/Intent.v ===== *)
(** The intent engine: [crates/hyperion-intent/src], [types.rs], [templates.rs] and
    [engine.rs].

    An utterance becomes an intent, a node of the knowledge graph; a template, built in,
    contributed by a plugin or made up by a model, breaks it down into leaves, with an edge
    for every dependency. The Unicode tables of the standard library, [serde_json], the
    context engine and the model are parameters. An operation that panics has no outcome
    ([None]). *)
From S2P Require Import Prelude Crypto Capability Authority Wal Storage DebugFmt Events F32 Json Explainability KnowledgeGraph NodeStore PluginReview Plugins Coordination Text Memory.
Open Scope N_scope.

Abbreviation text := (list N).

(** ** types.rs *)

Inductive IntentStatus : Type := Proposed | Planned | IntentExecuting | IntentCompleted | Abandoned | Superseded.

#[export] Instance intent_status_eq_dec : EqDecision IntentStatus.
Proof. solve_decision. Defined.

Record Intent := mkIntent {
  i_id : NodeId;
  i_utterance : text;
  i_predicate : text;
  i_status : IntentStatus;
  i_priority : f32;
  i_confidence : f32;
  i_parent : option NodeId;
  i_children : list NodeId;
  i_grounded : list NodeId;
  i_inferred : list text;
  i_version : N;
  i_created : N;
  i_updated : N
}.

Definition set_id (id : NodeId) (i : Intent) : Intent :=
  mkIntent id (i_utterance i) (i_predicate i) (i_status i) (i_priority i) (i_confidence i) (i_parent i) (i_children i) (i_grounded i)
    (i_inferred i) (i_version i) (i_created i) (i_updated i).
Definition set_children (l : list NodeId) (i : Intent) : Intent :=
  mkIntent (i_id i) (i_utterance i) (i_predicate i) (i_status i) (i_priority i) (i_confidence i) (i_parent i) l (i_grounded i)
    (i_inferred i) (i_version i) (i_created i) (i_updated i).
Definition set_intent_status (st : IntentStatus) (wall : N) (i : Intent) : Intent :=
  mkIntent (i_id i) (i_utterance i) (i_predicate i) st (i_priority i) (i_confidence i) (i_parent i) (i_children i) (i_grounded i)
    (i_inferred i) (i_version i) (i_created i) wall.
Definition bump_intent (wall : N) (i : Intent) : Intent :=
  mkIntent (i_id i) (i_utterance i) (i_predicate i) (i_status i) (i_priority i) (i_confidence i) (i_parent i) (i_children i) (i_grounded i)
    (i_inferred i) (u64_add (i_version i) 1) (i_created i) wall.

Inductive MutationOp : Type := Cancel | Amend | Supersede.

Record ExecutionTicket := mkTicket {
  ticket_root : NodeId;
  ready_leaves : list NodeId
}.

Inductive HandleOutcome : Type :=
| Submitted (root : NodeId)
| NeedsClarification (mention : text) (candidates : list NodeId)
| PendingThink (root : NodeId).

(** [serde_json] of an intent: the id is left out, and every finite number comes back. *)
Class IntentJson (V : Type) := {
  intent_to_value : Intent -> V;
  intent_from_value : V -> option Intent;
  intent_round_trip : forall i, is_finite (i_priority i) = true -> is_finite (i_confidence i) = true ->
    intent_from_value (intent_to_value i) = Some (set_id 0 i)
}.

(** ** templates.rs *)

Record TemplateLeaf := mkTemplateLeaf {
  tl_predicate : text;
  tl_depends_on : list nat
}.

Record Template := mkTemplate {
  root_predicate : text;
  template_leaves : list TemplateLeaf
}.

Definition startup_keywords : list text := [lit "startup"; lit "launch my"; lit "found a company"; lit "found_company"].
Definition startup : Template :=
  mkTemplate (lit "found_company")
    [mkTemplateLeaf (lit "market_research") []; mkTemplateLeaf (lit "business_model") [0%nat]; mkTemplateLeaf (lit "branding") [0%nat];
     mkTemplateLeaf (lit "legal_formation") [2%nat]].

Definition TEMPLATES : list (list text * Template) := [(startup_keywords, startup)].

Definition of_workflow (w : AutomationWorkflowContribution) : Template :=
  mkTemplate (PluginReview.root_predicate w)
    ((fun l => mkTemplateLeaf (leaf_predicate l) (PluginReview.depends_on l)) <$> PluginReview.leaves w).

(** [workflows] are those of the plugins, none without a registry. *)
Definition match_template_with_plugins `{Unicode} (utterance : text) (workflows : list AutomationWorkflowContribution) : option Template :=
  let lower := to_lowercase utterance in
  match List.find (fun t => existsb (contains_text lower) t.1) TEMPLATES with
  | Some t => Some t.2
  | None => of_workflow <$> List.find (fun w => existsb (fun kw => contains_text lower (to_lowercase kw)) (trigger_keywords w)) workflows
  end.

(** ** engine.rs *)

Definition URGENCY_KEYWORDS : list text := [lit "urgent"; lit "asap"; lit "now"].
Definition CANCEL_KEYWORDS : list text := [lit "cancel"; lit "stop"; lit "forget it"; lit "never mind"].
Definition WORKING_MEMORY_TURN_CAPACITY : nat := 10.

Definition underscore : N := 95.

Definition to_predicate `{Unicode} (line : text) : text :=
  join [underscore] (List.filter nonempty (split_on underscore ((fun c => if is_alphanumeric c then c else underscore) <$> to_lowercase line))).

Definition markers : list text := [lit " on "; lit " about "; lit " regarding "].

(** [None] where the slice panics: the position is one of the lower-case text. *)
Fixpoint mention_after `{Unicode} (lower utterance : text) (ms : list text) : option (option text) :=
  match ms with
  | [] => Some None
  | mk :: ms =>
      match before lower mk with
      | None => mention_after lower utterance ms
      | Some pre =>
          tail ← slice_from utterance (byte_len pre + byte_len mk);
          let tail := trim tail in
          if nonempty tail then Some (Some (trim_end_matches (N.eqb 46) tail)) else mention_after lower utterance ms
      end
  end.

Definition extract_mention `{Unicode} (utterance : text) : option (option text) := mention_after (to_lowercase utterance) utterance markers.

Definition leaf_status (l : TemplateLeaf) : IntentStatus := match tl_depends_on l with [] => IntentExecuting | _ => Planned end.
Definition leaf_priority (urgent : bool) (l : TemplateLeaf) : f32 :=
  f32_min (f32_add (f32_sub (f32_lit 9 10) (f32_mul (f32_lit 1 20) (f32_of_N (N.of_nat (length (tl_depends_on l))))))
             (if urgent then f32_lit 1 10 else f32_zero)) f32_one.

Definition leaf_intent (root : NodeId) (urgent : bool) (now_ts : N) (l : TemplateLeaf) : Intent :=
  mkIntent 0 [] (tl_predicate l) (leaf_status l) (leaf_priority urgent l) (f32_lit 9 10) (Some root) [] [] [] 0 now_ts now_ts.

(** Each line of the answer depends on the line before. *)
Fixpoint numbered (i : nat) (l : list text) : list TemplateLeaf :=
  match l with [] => [] | p :: l => mkTemplateLeaf p (match i with O => [] | S j => [j] end) :: numbered (S i) l end.

Definition steps_of `{Unicode} (answer : text) : list TemplateLeaf :=
  numbered 0 (List.filter nonempty (to_predicate <$> List.filter nonempty (trim <$> lines answer))).

Definition generation_prompt (utterance : text) : text :=
  lit "Break the following goal down into a short ordered list of concrete steps, one per line, using terse snake_case labels and no numbering or punctuation:"
  ++ [10] ++ utterance.

Inductive EntityResolution : Type := EntityResolved (id : NodeId) | EntityAmbiguous (candidates : list NodeId) | EntityNotFound.

(** The context engine, as far as an utterance reaches it; the graph is shared. *)
Class ContextResolver (V M C : Type) `{Codec (WalRecord V)} `{Aead} := {
  ContextError : Type;
  cx_resolve : Instant -> M -> CapabilityToken -> KnowledgeGraph (V := V) -> C -> text -> text -> Result EntityResolution ContextError * C;
  cx_record_utterance : C -> text -> text -> C
}.

Section engine.
Context {V : Type} `{Codec (WalRecord V)} `{Aead} `{HashIter} {M : Type} `{Authority M} `{IntentJson V} `{Unicode}.
Context {C X : Type} `{ContextResolver V M C} `{!ExplanationLog M X}.
Context (to_value : Record_ (V := V) -> V).
(** What each write to the graph meets, the wall clock in seconds before it, and the
    model's answer to a prompt ([None] without a model, or when it answers nothing). *)
Context (outside : nat -> WriteEnv) (secs : nat -> N) (infer : Instant -> M -> CapabilityToken -> text -> option text).

Inductive IntentError : Type :=
| IntentGraphError (e : GraphError)
| IntentContextError (e : ContextError)
| IntentNotFound
| CyclicDependency
| IntentExplainError (e : ExplainabilityError).

Record PendingDecomposition := mkPending {
  pd_template : Template;
  pd_urgent : bool;
  pd_now : N
}.

Record IntentEngine := mkEngine {
  ie_graph : KnowledgeGraph (V := V);
  ie_tick : nat;
  ie_context : C;
  active_graphs : gmap text (list NodeId);
  working_memories : gmap text WorkingMemory;
  ie_explanations : X;
  ie_next_action : N;
  ie_workflows : list AutomationWorkflowContribution;
  think_mode_sessions : gset text;
  pending_decompositions : gmap NodeId PendingDecomposition
}.

Definition new_engine (g : KnowledgeGraph (V := V)) (c : C) (x : X) (workflows : list AutomationWorkflowContribution) : IntentEngine :=
  mkEngine g 0 c ∅ ∅ x 1 workflows ∅ ∅.

Definition with_store (s : IntentEngine) (g : KnowledgeGraph (V := V)) : IntentEngine :=
  mkEngine g (S (ie_tick s)) (ie_context s) (active_graphs s) (working_memories s) (ie_explanations s) (ie_next_action s) (ie_workflows s)
    (think_mode_sessions s) (pending_decompositions s).
Definition with_context (s : IntentEngine) (c : C) : IntentEngine :=
  mkEngine (ie_graph s) (ie_tick s) c (active_graphs s) (working_memories s) (ie_explanations s) (ie_next_action s) (ie_workflows s)
    (think_mode_sessions s) (pending_decompositions s).
Definition with_active (s : IntentEngine) (l : gmap text (list NodeId)) : IntentEngine :=
  mkEngine (ie_graph s) (ie_tick s) (ie_context s) l (working_memories s) (ie_explanations s) (ie_next_action s) (ie_workflows s)
    (think_mode_sessions s) (pending_decompositions s).
Definition with_memories (s : IntentEngine) (l : gmap text WorkingMemory) : IntentEngine :=
  mkEngine (ie_graph s) (ie_tick s) (ie_context s) (active_graphs s) l (ie_explanations s) (ie_next_action s) (ie_workflows s)
    (think_mode_sessions s) (pending_decompositions s).
Definition with_records (s : IntentEngine) (x : X) : IntentEngine :=
  mkEngine (ie_graph s) (ie_tick s) (ie_context s) (active_graphs s) (working_memories s) x (ie_next_action s) (ie_workflows s)
    (think_mode_sessions s) (pending_decompositions s).
Definition with_action (s : IntentEngine) (n : N) : IntentEngine :=
  mkEngine (ie_graph s) (ie_tick s) (ie_context s) (active_graphs s) (working_memories s) (ie_explanations s) n (ie_workflows s)
    (think_mode_sessions s) (pending_decompositions s).
Definition with_think (s : IntentEngine) (l : gset text) : IntentEngine :=
  mkEngine (ie_graph s) (ie_tick s) (ie_context s) (active_graphs s) (working_memories s) (ie_explanations s) (ie_next_action s) (ie_workflows s)
    l (pending_decompositions s).
Definition with_pending (s : IntentEngine) (l : gmap NodeId PendingDecomposition) : IntentEngine :=
  mkEngine (ie_graph s) (ie_tick s) (ie_context s) (active_graphs s) (working_memories s) (ie_explanations s) (ie_next_action s) (ie_workflows s)
    (think_mode_sessions s) l.

(** An operation may fail, or panic ([None]). *)
Definition IntentM (T : Type) : Type := IntentEngine -> option (Result T IntentError * IntentEngine).

#[local] Instance intent_ret : MRet IntentM := fun T a s => Some (Ok a, s).
#[local] Instance intent_bind : MBind IntentM := fun T U k e s =>
  match e s with
  | Some (Ok a, s) => k a s
  | Some (Err f, s) => Some (Err f, s)
  | None => None
  end.

Definition fails {T : Type} (e : IntentError) : IntentM T := fun s => Some (Err e, s).
Definition panics {T : Type} : IntentM T := fun _ => None.
Definition asks {T : Type} (f : IntentEngine -> T) : IntentM T := fun s => Some (Ok (f s), s).
Definition modifies (f : IntentEngine -> IntentEngine) : IntentM unit := fun s => Some (Ok tt, f s).
Definition gives {T : Type} (r : Result T IntentError) : IntentM T := fun s => Some (r, s).
Definition explains {T : Type} (f : X -> option (Result T ExplainabilityError * X)) : IntentM T := fun s =>
  '(r, x) ← f (ie_explanations s); Some (map_err IntentExplainError r, with_records s x).

Definition set_think_mode (session : text) (enabled : bool) (s : IntentEngine) : IntentEngine :=
  with_think s (if enabled then {[session]} ∪ think_mode_sessions s else think_mode_sessions s ∖ {[session]}).
Definition is_think_mode (s : IntentEngine) (session : text) : bool := bool_decide (session ∈ think_mode_sessions s).
Definition working_memory_turns (s : IntentEngine) (session : text) : list text := from_option wm_turns [] (working_memories s !! session).

Definition put_intent (now : Instant) (m : M) (t : CapabilityToken) (existing : option NodeId) (i : Intent) : IntentM NodeId := fun s =>
  let env := outside (ie_tick s) in
  let '(r, g) := (put_node to_value now m t (ie_graph s) existing (lit "intent") None (intent_to_value i) (we_wall1 env) (we_wall2 env)
                    (we_nonce env) (we_io env)).1 in
  Some (map_err IntentGraphError r, with_store s g).

Definition read_intent (now : Instant) (m : M) (t : CapabilityToken) (g : KnowledgeGraph (V := V)) (id : NodeId) : Result Intent IntentError :=
  match KnowledgeGraph.get now m t g id with
  | Err e => Err (IntentGraphError e)
  | Ok n => match intent_from_value (node_metadata n) with None => Err IntentNotFound | Some i => Ok (set_id id i) end
  end.
Definition get_intent (now : Instant) (m : M) (t : CapabilityToken) (id : NodeId) : IntentM Intent := fun s =>
  Some (read_intent now m t (ie_graph s) id, s).

Definition link_intents (now : Instant) (m : M) (t : CapabilityToken) (a b : NodeId) (prov : text) : IntentM unit := fun s =>
  let env := outside (ie_tick s) in
  let '(r, g) := (link to_value now m t (ie_graph s) a (lit "depends_on") b f32_one Explicit None prov None (we_wall1 env) (we_wall2 env)
                    (we_nonce env) (we_io env)).1 in
  Some (match r with Ok _ => Ok tt | Err e => Err (IntentGraphError e) end, with_store s g).

(** *** Decomposition *)

Definition generate_template (now : Instant) (m : M) (t : CapabilityToken) (utterance : text) : option Template :=
  answer ← infer now m t (generation_prompt utterance);
  match steps_of answer with [] => None | l => Some (mkTemplate (lit "generic_goal") l) end.

Fixpoint put_leaves (now : Instant) (m : M) (t : CapabilityToken) (root : NodeId) (urgent : bool) (now_ts : N) (l : list TemplateLeaf) :
    IntentM (list NodeId) :=
  match l with
  | [] => mret []
  | x :: l => id ← put_intent now m t None (leaf_intent root urgent now_ts x); ids ← put_leaves now m t root urgent now_ts l; mret (id :: ids)
  end.

(** [leaf_ids[dep_idx]] panics out of range. *)
Fixpoint link_deps (now : Instant) (m : M) (t : CapabilityToken) (ids : list NodeId) (a : NodeId) (deps : list nat) : IntentM unit :=
  match deps with
  | [] => mret tt
  | d :: deps =>
      match ids !! d with
      | None => panics
      | Some b => link_intents now m t a b (lit "htn_template");; link_deps now m t ids a deps
      end
  end.

Fixpoint link_leaves (now : Instant) (m : M) (t : CapabilityToken) (ids : list NodeId) (l : list (NodeId * TemplateLeaf)) : IntentM unit :=
  match l with
  | [] => mret tt
  | (a, x) :: l => link_deps now m t ids a (tl_depends_on x);; link_leaves now m t ids l
  end.

Definition decompose (now : Instant) (m : M) (t : CapabilityToken) (root : NodeId) (tm : Template) (urgent : bool) (now_ts : N) :
    IntentM (list NodeId) :=
  ids ← put_leaves now m t root urgent now_ts (template_leaves tm);
  link_leaves now m t ids (zip ids (template_leaves tm));;
  mret ids.

Fixpoint append_steps (now : Instant) (m : M) (t : CapabilityToken) (e : N) (root : NodeId) (i : N) (l : list (NodeId * TemplateLeaf)) :
    IntentM unit :=
  match l with
  | [] => mret tt
  | (id, x) :: l =>
      explains (fun r => xl_append_step now m t r e
                  (mkStep (i mod 2 ^ 32) (lit "decomposed into '" ++ tl_predicate x ++ lit "'") (Some (tl_predicate x)) [root] (Some id)));;
      append_steps now m t e root (i + 1) l
  end.

Definition decompose_and_record (now : Instant) (m : M) (t : CapabilityToken) (root : NodeId) (i : Intent) (tm : Template) (urgent : bool)
    (now_ts : N) : IntentM unit :=
  action ← asks ie_next_action;
  modifies (fun s => with_action s (u64_add action 1));;
  e ← explains (fun x => xl_begin now m t x action root 0 (i_predicate i) [] now_ts);
  ids ← decompose now m t root tm urgent now_ts;
  append_steps now m t e root 0 (zip ids (template_leaves tm));;
  explains (fun x => xl_transition now m t x e Explainability.Completed);;
  put_intent now m t (Some root) (set_children ids (set_id root i));;
  mret tt.

Definition proceed_with_decomposition (now : Instant) (m : M) (t : CapabilityToken) (root : NodeId) : IntentM HandleOutcome :=
  pending ← asks (fun s => pending_decompositions s !! root);
  match pending with
  | None => fails IntentNotFound
  | Some p =>
      modifies (fun s => with_pending s (delete root (pending_decompositions s)));;
      i ← get_intent now m t root;
      decompose_and_record now m t root i (pd_template p) (pd_urgent p) (pd_now p);;
      mret (Submitted root)
  end.

(** *** Changing a graph of intents *)

(** The recursion follows [children]; [None] if the fuel is not enough. *)
Fixpoint abandon_subtree (fuel : nat) (now : Instant) (m : M) (t : CapabilityToken) (target : NodeId) : IntentM unit :=
  match fuel with
  | O => panics
  | S fuel =>
      i ← get_intent now m t target;
      wall ← asks (fun s => secs (ie_tick s));
      put_intent now m t (Some target) (set_intent_status Abandoned wall i);;
      (fix each l : IntentM unit :=
         match l with [] => mret tt | c :: l => abandon_subtree fuel now m t c;; each l end) (i_children i)
  end.

Definition bump_version (now : Instant) (m : M) (t : CapabilityToken) (root : NodeId) : IntentM unit :=
  i ← get_intent now m t root;
  wall ← asks (fun s => secs (ie_tick s));
  put_intent now m t (Some root) (bump_intent wall i);;
  mret tt.

Definition apply_mutation (fuel : nat) (now : Instant) (m : M) (t : CapabilityToken) (target : NodeId) (op : MutationOp) : IntentM unit :=
  match op with
  | Cancel =>
      i ← get_intent now m t target;
      let root := default target (i_parent i) in
      abandon_subtree fuel now m t target;;
      bump_version now m t root
  | Amend | Supersede => mret tt
  end.

Definition mark_status (now : Instant) (m : M) (t : CapabilityToken) (id : NodeId) (st : IntentStatus) : IntentM unit :=
  i ← get_intent now m t id;
  wall ← asks (fun s => secs (ie_tick s));
  put_intent now m t (Some id) (set_intent_status st wall i);;
  mret tt.

(** *** Dependencies *)

(** Of one incident edge: its target, if the node depends on it. *)
Definition depends_edge (now : Instant) (m : M) (t : CapabilityToken) (g : KnowledgeGraph (V := V)) (node : NodeId) (eid : EdgeId) :
    Result (option NodeId) GraphError :=
  let? chain := KnowledgeGraph.explain now m t g (ExplainEdge eid) in
  Ok (match chain with
      | ChainEdge _ sub pred tgt _ _ _ _ dead => if negb dead && (sub =? node) && bool_decide (pred = lit "depends_on") then Some tgt else None
      | ChainNode _ _ _ _ _ _ => None
      end).

Fixpoint depends_edges (now : Instant) (m : M) (t : CapabilityToken) (g : KnowledgeGraph (V := V)) (node : NodeId) (l : list EdgeId) :
    Result (list NodeId) GraphError :=
  match l with
  | [] => Ok []
  | e :: l => let? o := depends_edge now m t g node e in let? rest := depends_edges now m t g node l in Ok (option_list o ++ rest)
  end.

Definition targets (now : Instant) (m : M) (t : CapabilityToken) (g : KnowledgeGraph (V := V)) (node : NodeId) : Result (list NodeId) GraphError :=
  let? chain := KnowledgeGraph.explain now m t g (ExplainNode node) in
  match chain with ChainNode _ _ _ _ _ incident => depends_edges now m t g node incident | ChainEdge _ _ _ _ _ _ _ _ _ => Ok [] end.

Definition depends_on_targets (now : Instant) (m : M) (t : CapabilityToken) (node : NodeId) : IntentM (list NodeId) := fun s =>
  Some (map_err IntentGraphError (targets now m t (ie_graph s) node), s).

(** The last on the stack is looked at first. *)
Fixpoint cycle_loop (fuel : nat) (now : Instant) (m : M) (t : CapabilityToken) (g : KnowledgeGraph (V := V)) (from : NodeId)
    (visited : gset NodeId) (stack : list NodeId) : option (Result bool GraphError) :=
  match stack with
  | [] => Some (Ok false)
  | node :: stack =>
      match fuel with
      | O => None
      | S fuel =>
          if node =? from then Some (Ok true)
          else if bool_decide (node ∈ visited) then cycle_loop fuel now m t g from visited stack
          else match targets now m t g node with
               | Err e => Some (Err e)
               | Ok l => cycle_loop fuel now m t g from ({[node]} ∪ visited) (rev l ++ stack)
               end
      end
  end.

(** A node's edges are pushed once at most. *)
Definition degree (g : KnowledgeGraph (V := V)) (x : NodeId) : nat :=
  (length (default [] (forward (index g) !! x)) + length (default [] (backward (index g) !! x)))%nat.
Definition degrees (g : KnowledgeGraph (V := V)) (xs : gset NodeId) : nat := sum_list_with (degree g) (elements xs).

Definition would_create_cycle (now : Instant) (m : M) (t : CapabilityToken) (g : KnowledgeGraph (V := V)) (from to : NodeId) :
    option (Result bool GraphError) :=
  cycle_loop (2 + degrees g (dom (nodes (index g)))) now m t g from ∅ [to].

(** [others] is what the rest of the program does to the graph between the check and the
    link. *)
Definition add_dependency (now : Instant) (m : M) (t : CapabilityToken) (from to : NodeId) (others : IntentEngine -> IntentEngine) : IntentM unit :=
  if from =? to then fails CyclicDependency
  else
    fun s =>
      c ← would_create_cycle now m t (ie_graph s) from to;
      match c with
      | Err e => Some (Err (IntentGraphError e), s)
      | Ok true => Some (Err CyclicDependency, s)
      | Ok false => link_intents now m t from to (lit "amend") (others s)
      end.

(** *** Reading *)

Definition intent_explanation (now : Instant) (m : M) (t : CapabilityToken) (id : N) : IntentM (option ExplanationRecord) := fun s =>
  Some (map_err IntentExplainError (xl_get now m t (ie_explanations s) id), s).

Fixpoint get_intents (now : Instant) (m : M) (t : CapabilityToken) (ids : list NodeId) : IntentM (list Intent) :=
  match ids with
  | [] => mret []
  | id :: ids => i ← get_intent now m t id; l ← get_intents now m t ids; mret (i :: l)
  end.

Definition get_graph (now : Instant) (m : M) (t : CapabilityToken) (root : NodeId) : IntentM (list Intent) :=
  i ← get_intent now m t root;
  l ← get_intents now m t (i_children i);
  mret (i :: l).

Definition explain_intent (now : Instant) (m : M) (t : CapabilityToken) (id : NodeId) : IntentM ProvenanceChain := fun s =>
  Some (map_err IntentGraphError (KnowledgeGraph.explain now m t (ie_graph s) (ExplainNode id)), s).

Definition submit (now : Instant) (m : M) (t : CapabilityToken) (root : NodeId) : IntentM ExecutionTicket :=
  l ← get_graph now m t root;
  mret (mkTicket root (i_id <$> List.filter (fun i => bool_decide (i_status i = IntentExecuting)) l)).

(** *** Utterances *)

Definition record_turn (session utterance : text) (s : IntentEngine) : IntentEngine :=
  let w := default (new_working session WORKING_MEMORY_TURN_CAPACITY) (working_memories s !! session) in
  with_memories s (<[session := push_turn w utterance]> (working_memories s)).

Definition activate (session : text) (root : NodeId) (s : IntentEngine) : IntentEngine :=
  with_active s (<[session := default [] (active_graphs s !! session) ++ [root]]> (active_graphs s)).

Definition mentions_any (lower : text) (kws : list text) : bool := existsb (contains_text lower) kws.

Inductive Grounding : Type := Grounded (entities : list NodeId) (inferred : list text) | Unclear (mention : text) (candidates : list NodeId).

Definition ground (now : Instant) (m : M) (t : CapabilityToken) (utterance session : text) : IntentM Grounding := fun s =>
  o ← extract_mention utterance;
  match o with
  | None => Some (Ok (Grounded [] []), s)
  | Some mention =>
      let '(r, c) := cx_resolve now m t (ie_graph s) (ie_context s) mention session in
      let s := with_context s c in
      match r with
      | Err e => Some (Err (IntentContextError e), s)
      | Ok (EntityResolved id) => Some (Ok (Grounded [id] [mention]), s)
      | Ok (EntityAmbiguous l) => Some (Ok (Unclear mention l), s)
      | Ok EntityNotFound => Some (Ok (Grounded [] []), s)
      end
  end.

Definition root_intent (utterance : text) (matched generated : option Template) (entities : list NodeId) (inferred : list text) (now_ts : N) : Intent :=
  let '(pred, conf, st) :=
    match matched, generated with
    | Some tm, _ => (root_predicate tm, f32_lit 9 10, Planned)
    | None, Some tm => (root_predicate tm, f32_lit 6 10, Planned)
    | None, None => (lit "generic_goal", f32_lit 3 10, Proposed)
    end in
  mkIntent 0 utterance pred st f32_one conf None [] entities inferred 1 now_ts now_ts.

Definition handle_utterance (fuel : nat) (now : Instant) (m : M) (t : CapabilityToken) (utterance session : text) : IntentM HandleOutcome :=
  modifies (record_turn session utterance);;
  modifies (fun s => with_context s (cx_record_utterance (ie_context s) session utterance));;
  let lower := to_lowercase utterance in
  active ← asks (fun s => active_graphs s !! session ≫= last);
  match (if mentions_any lower CANCEL_KEYWORDS then active else None) with
  | Some root => apply_mutation fuel now m t root Cancel;; mret (Submitted root)
  | None =>
      matched ← asks (fun s => match_template_with_plugins utterance (ie_workflows s));
      now_ts ← asks (fun s => secs (ie_tick s));
      let urgent := mentions_any lower URGENCY_KEYWORDS in
      grounding ← match matched with Some _ => mret (Grounded [] []) | None => ground now m t utterance session end;
      match grounding with
      | Unclear mention l => mret (NeedsClarification mention l)
      | Grounded entities inferred =>
          let generated := match matched with Some _ => None | None => generate_template now m t utterance end in
          let i := root_intent utterance matched generated entities inferred now_ts in
          root ← put_intent now m t None i;
          match (match matched with Some tm => Some tm | None => generated end) with
          | None => modifies (activate session root);; mret (Submitted root)
          | Some tm =>
              think ← asks (fun s => is_think_mode s session);
              if (think : bool) then
                modifies (fun s => with_pending s (<[root := mkPending tm urgent now_ts]> (pending_decompositions s)));;
                modifies (activate session root);;
                mret (PendingThink root)
              else
                decompose_and_record now m t root i tm urgent now_ts;;
                modifies (activate session root);;
                mret (Submitted root)
          end
      end
  end.

(** *** What coordination sees *)

Definition ran {T : Type} (o : option (Result T IntentError * IntentEngine)) : Result T IntentError :=
  match o with Some (r, _) => r | None => Err IntentNotFound end.

#[export] Instance engine_intents : IntentGraph M IntentEngine := {|
  Coordination.IntentError := IntentError;
  ig_get_graph := fun now m t s root =>
    match ran (get_graph now m t root s) with
    | Ok l => Ok ((fun i => mkLeaf (i_id i) (i_predicate i) (i_utterance i)) <$> l)
    | Err e => Err e
    end;
  ig_depends_on_targets := fun now m t s id => ran (depends_on_targets now m t id s);
  ig_mark_completed := fun now m t s id => match mark_status now m t id IntentCompleted s with Some (_, s) => s | None => s end
|}.
End engine.
