(* ===== verification/IntentPlans.v ===== *)
(** Graphs of intents: dependencies stay acyclic, a decomposition is the template, and
    what coordination makes of it. *)
From S2P Require Import Prelude Crypto Capability Authority Wal Storage DebugFmt Events F32 Json Explainability KnowledgeGraph NodeStore Recovery PluginReview Plugins Coordination CoordinationRuns Text Memory Intent.
Open Scope N_scope.

Abbreviation text := (list N).

Section graphs.
Context {V : Type} `{Codec (WalRecord V)} `{Aead} `{HashIter} {M : Type} `{Authority M}.
Context (to_value : Record_ (V := V) -> V).

Abbreviation kg := (KnowledgeGraph (V := V)).

(** [x] depends on [y]. *)
Definition needs (i : GraphIndex (V := V)) (x y : NodeId) : Prop :=
  exists id e, edges i !! id = Some e /\ edge_tombstone e = false /\ triple e = (x, lit "depends_on", y).

Definition acyclic_graph (i : GraphIndex (V := V)) : Prop := forall x, ~ tc (needs i) x x.

(** *** What a node depends on *)

Lemma elem_of_dedup_sorted (x : N) l : x ∈ dedup_sorted l <-> x ∈ l.
Proof.
  induction l as [|y l IH]; [done|]. destruct l as [|z l]; [done|]. cbn [dedup_sorted]. destruct (N.eqb_spec y z) as [->|Hne].
  - rewrite IH, !elem_of_cons. tauto.
  - change (x ∈ y :: dedup_sorted (z :: l) <-> x ∈ y :: z :: l). rewrite elem_of_cons, IH. by rewrite (elem_of_cons (z :: l)).
Qed.

Lemma length_dedup_sorted l : (length (dedup_sorted l) <= length l)%nat.
Proof.
  induction l as [|y l IH]; [done|]. destruct l as [|z l]; [done|]. cbn [dedup_sorted]. destruct (y =? z); [by apply le_S|by apply le_n_S].
Qed.

Lemma depends_edge_ok now m t (g : kg) x eid o :
  depends_edge now m t g x eid = Ok o ->
  exists e, edges (index g) !! eid = Some e
    /\ (forall y, o = Some y <-> edge_tombstone e = false /\ triple e = (x, lit "depends_on", y)).
Proof.
  unfold depends_edge, KnowledgeGraph.explain. destruct (KnowledgeGraph.require now m t READ); [|done]. simpl.
  destruct (edges (index g) !! eid) as [e|]; [|done]. destruct (negb (edge_owner e =? origin t)); [done|]. simpl. intros [= <-].
  exists e. split; [done|]. intros y. unfold triple. destruct (edge_tombstone e); simpl; [by split; [|intros []]|].
  destruct (N.eqb_spec (subject e) x) as [->|Hx]; simpl; [|split; [done|intros [_ [=]]; done]].
  case_bool_decide as Hp; simpl; (split; [intros [=]|intros [_ [=]]]); subst; try done. by rewrite Hp.
Qed.

Lemma depends_edges_ok now m t (g : kg) x eids l :
  depends_edges now m t g x eids = Ok l ->
  (length l <= length eids)%nat
  /\ forall y, y ∈ l <-> exists eid e, eid ∈ eids /\ edges (index g) !! eid = Some e /\ edge_tombstone e = false /\ triple e = (x, lit "depends_on", y).
Proof.
  revert l. induction eids as [|eid eids IH]; intros l; simpl.
  - intros [= <-]. split; [done|]. intros y. rewrite elem_of_nil. split; [done|]. by intros (eid & e & ?%elem_of_nil & _).
  - destruct (depends_edge now m t g x eid) as [o|] eqn:Ho; [|done]. simpl.
    destruct (depends_edges now m t g x eids) as [rest|]; [|done]. simpl. intros [= <-]. destruct (IH rest eq_refl) as [Hlen Hrest].
    apply depends_edge_ok in Ho as (e & He & Hy). split; [rewrite length_app; destruct o; simpl; lia|].
    intros y. rewrite elem_of_app, Hrest. split.
    + intros [Hin|(eid' & e' & Hin & Hr)]; [|exists eid', e'; split; [by right|done]]. destruct o as [z|]; [|by apply elem_of_nil in Hin].
      apply list_elem_of_singleton in Hin as ->. exists eid, e. split; [left|]. split; [done|]. by apply Hy.
    + intros (eid' & e' & [->|Hin]%elem_of_cons & He' & Hr); [left|right; by exists eid', e'].
      assert (e' = e) as -> by congruence. apply Hy in Hr as ->. by left.
Qed.

Lemma targets_ok now m t (g : kg) x l :
  adjacency (index g) -> targets now m t g x = Ok l ->
  x ∈ dom (nodes (index g)) /\ (length l <= degree g x)%nat /\ forall y, y ∈ l <-> needs (index g) x y.
Proof.
  intros Hadj. unfold targets, KnowledgeGraph.explain at 1. destruct (KnowledgeGraph.require now m t READ); [|done]. simpl.
  destruct (nodes (index g) !! x) as [n|] eqn:Hn; [|done]. destruct (negb _); [done|]. simpl. intros Hl.
  apply depends_edges_ok in Hl as [Hlen Hy]. split; [by apply elem_of_dom|]. split.
  - etrans; [exact Hlen|]. etrans; [apply length_dedup_sorted|]. rewrite (Permutation_length (sort_by_key_perm _ _)), length_app. done.
  - intros y. rewrite Hy. split; intros (eid & e & Hr).
    + destruct Hr as (_ & Hr). by exists eid, e.
    + exists eid, e. split; [|done]. rewrite elem_of_dedup_sorted, sort_by_key_perm, elem_of_app. left. apply (aj_forward _ Hadj).
      exists e. destruct Hr as (He & _ & Ht). split; [done|]. by injection Ht.
Qed.

(** *** The search for a cycle *)

Lemma degrees_take (g : kg) (xs : gset NodeId) x : x ∈ xs -> degrees g xs = (degree g x + degrees g (xs ∖ {[x]}))%nat.
Proof.
  intros Hx. unfold degrees. assert (Hp : elements xs ≡ₚ x :: elements (xs ∖ {[x]})).
  { rewrite <- elements_union_singleton by set_solver. by rewrite <- union_difference_singleton_L. }
  by rewrite Hp.
Qed.

(** The search answers, unless it meets a node it may not read; and the answer is right. *)
Lemma cycle_loop_spec now m t (g : kg) from to fuel visited stack :
  adjacency (index g) ->
  (length stack + degrees g (dom (nodes (index g)) ∖ visited) < fuel)%nat ->
  (forall x, x ∈ stack -> rtc (needs (index g)) to x) ->
  (to ∈ visited \/ to ∈ stack) -> from ∉ visited ->
  (forall x y, x ∈ visited -> needs (index g) x y -> y ∈ visited \/ y ∈ stack) ->
  match cycle_loop fuel now m t g from visited stack with
  | Some (Ok b) => b = true <-> rtc (needs (index g)) to from
  | Some (Err _) => True
  | None => False
  end.
Proof.
  intros Hadj. revert visited stack. induction fuel as [|fuel IH]; intros visited stack Hfuel Hreach Hto Hfrom Hclosed; [lia|].
  destruct stack as [|x stack]; cbn [cycle_loop].
  - split; [done|]. intros Hr. exfalso. apply Hfrom. destruct Hto as [Hto|?%elem_of_nil]; [|done].
    clear -Hr Hto Hclosed. induction Hr as [|x y z Hxy _ IHr]; [done|]. apply IHr. by destruct (Hclosed x y Hto Hxy) as [?|?%elem_of_nil].
  - destruct (N.eqb_spec x from) as [->|Hne]; [split; [intros _|done]; apply Hreach; left|].
    case_bool_decide as Hv.
    + apply IH; [cbn [length] in Hfuel; lia|intros y Hy; apply Hreach; by right| |done|].
      * destruct Hto as [Hto|[->|Hto]%elem_of_cons]; [by left|by left|by right].
      * intros y z Hy Hyz. destruct (Hclosed y z Hy Hyz) as [?|[->|?]%elem_of_cons]; [by left|by left|by right].
    + destruct (targets now m t g x) as [l|err] eqn:Ht; [|done]. apply targets_ok in Ht as (Hx & Hlen & Hl); [|done].
      assert (Hin : forall y, y ∈ rev l ++ stack <-> needs (index g) x y \/ y ∈ stack).
      { intros y. rewrite elem_of_app, <- Hl, !list_elem_of_In, <- in_rev. done. }
      apply IH.
      * rewrite length_app, length_rev. cbn [length] in Hfuel.
        rewrite (degrees_take g (dom (nodes (index g)) ∖ visited) x) in Hfuel by set_solver.
        replace (dom (nodes (index g)) ∖ ({[x]} ∪ visited)) with (dom (nodes (index g)) ∖ visited ∖ {[x]}) by set_solver. lia.
      * intros y [Hxy|Hy]%Hin; [|apply Hreach; by right]. eapply rtc_r; [apply Hreach; left|done].
      * rewrite Hin, elem_of_union, elem_of_singleton. destruct Hto as [Hto|[->|Hto]%elem_of_cons]; [by left; right|by left; left|by right; right].
      * rewrite elem_of_union, elem_of_singleton. by intros [->|?].
      * intros y z. rewrite Hin, !elem_of_union, !elem_of_singleton. intros [->|Hy] Hyz; [by right; left|].
        destruct (Hclosed y z Hy Hyz) as [?|[->|?]%elem_of_cons]; [by left; right|by left; left|by right; right].
Qed.

Lemma would_create_cycle_spec now m t (g : kg) from to :
  adjacency (index g) ->
  match would_create_cycle now m t g from to with
  | Some (Ok b) => b = true <-> rtc (needs (index g)) to from
  | Some (Err _) => True
  | None => False
  end.
Proof.
  intros Hadj. apply cycle_loop_spec; [done| | | |done|].
  - cbn [length]. rewrite difference_empty_L. lia.
  - intros x ->%list_elem_of_singleton. constructor.
  - right. left.
  - intros x y []%elem_of_empty.
Qed.

(** *** What a link does *)

(** The graph as its operations keep it, with room for one more object. *)
Definition sound (g : kg) : Prop := graph_wf g /\ adjacency (index g).
Definition roomy (g : kg) (n : N) : Prop := next_object_id (inner (storage g)) + n < two64.

(** One edge is written: a new one, or a new record of an old one. *)
Inductive edge_written (b : N) (sub : NodeId) (pred : text) (tgt : NodeId) (i : GraphIndex (V := V)) : GraphIndex (V := V) -> Prop :=
| ew o e : triple e = (sub, pred, tgt) -> edge_tombstone e = false -> edge_owner e = b ->
    (forall e0, edges i !! o = Some e0 -> triple e0 = triple e /\ edge_tombstone e0 = false) ->
    edge_written b sub pred tgt i (apply i o (REdge e)).

Lemma put_object_next_le now m t (st : StorageEngine (V := V)) id expected v nonce io :
  next_object_id (inner (put_object now m t st id expected v nonce io).2) <= next_object_id (inner st) + 1.
Proof.
  unfold put_object. destruct (authorize now m t WRITE); [|simpl; lia].
  destruct id; (case_bool_decide; [|destruct (append_and_fsync _ _ _ _) as [[] w]]); simpl; try lia;
    unfold u64_add; (etrans; [apply N.Div0.mod_le|]; lia).
Qed.

Lemma commit_done {T : Type} now m t (g : kg) id expected r nonce io announce (result : N -> T) res g' ns :
  roomy g 1 -> commit_record to_value now m t g id expected r nonce io announce result = (res, g', ns) ->
  next_object_id (inner (storage g)) <= next_object_id (inner (storage g')) <= next_object_id (inner (storage g)) + 1
  /\ match res with
     | Ok a => exists o, a = result o /\ o = default (next_object_id (inner (storage g))) id /\ index g' = apply (index g) o r
                         /\ current_version (storage g) o = expected /\ (id = None -> o < next_object_id (inner (storage g')))
     | Err _ => index g' = index g
     end.
Proof.
  intros Hroom. unfold commit_record.
  pose proof (put_object_grows now m t (storage g) id expected (to_value r) nonce io (fun _ => Hroom)) as [_ Hlo].
  pose proof (put_object_next_le now m t (storage g) id expected (to_value r) nonce io) as Hhi.
  destruct (put_object now m t (storage g) id expected (to_value r) nonce io) as [[[o v]|e] st] eqn:Hput; intros [= <- <- <-]; simpl in *; [|done].
  split; [done|]. apply put_object_assigned in Hput as (Ho & Hc & _ & Hn); [|done]. exists o. done.
Qed.

Lemma link_written now m t (g : kg) sub pred tgt w orig conf prov wall1 wall2 nonce io r g' ns :
  sound g -> roomy g 1 ->
  link to_value now m t g sub pred tgt w orig conf prov None wall1 wall2 nonce io = (r, g', ns) ->
  sound g'
  /\ next_object_id (inner (storage g)) <= next_object_id (inner (storage g')) <= next_object_id (inner (storage g)) + 1
  /\ match r with
     | Ok (SuppressedByTombstone id) => index g' = index g
         /\ exists e, edges (index g) !! id = Some e /\ triple e = (sub, pred, tgt) /\ edge_tombstone e = true /\ edge_owner e = origin t
     | Ok _ => edge_written (origin t) sub pred tgt (index g) (index g')
     | Err _ => index g' = index g
     end.
Proof.
  intros [Hwf Hadj] Hroom Hlink. split.
  { pose proof (link_gstep to_value (fun x => x) now m t g sub pred tgt w orig conf prov None wall1 wall2 nonce io Hwf) as Hstep. cbn in Hstep.
    rewrite Hlink in Hstep. split; [by eapply gstep_wf|by eapply gstep_adjacency]. }
  unfold link in Hlink. destruct (KnowledgeGraph.require now m t WRITE); [|injection Hlink as <- <- <-; split; [lia|done]].
  destruct (_ && _); [injection Hlink as <- <- <-; split; [lia|done]|].
  destruct (edge_identity (index g) !! (sub, pred, tgt)) as [eid|] eqn:Hid; cbn [mbind option_bind] in Hlink.
  - destruct (gw_ident _ Hwf _ _ Hid) as (e & He & Htr). rewrite He in Hlink. cbn [mbind option_bind] in Hlink.
    destruct (N.eqb_spec (edge_owner e) (origin t)) as [Hown|]; [|injection Hlink as <- <- <-; split; [lia|done]]. cbn [negb] in Hlink.
    destruct (edge_tombstone e) eqn:Hdead; cbn [is_some_and negb] in Hlink.
    { injection Hlink as <- <- <-. split; [lia|]. split; [done|]. by exists e. }
    apply commit_done in Hlink as [Hn Hr]; [|done]. split; [done|]. destruct r as [a0|err]; [|done].
    destruct Hr as (o & -> & -> & -> & _). simpl. constructor; try done. intros e0 He0. simpl in He0. assert (e0 = e) as -> by congruence. by rewrite Htr.
  - apply commit_done in Hlink as [Hn Hr]; [|done]. split; [done|]. destruct r as [a0|err]; [|done].
    destruct Hr as (o & -> & -> & -> & _). simpl. constructor; try done. intros e0 He0%(gw_edges _ Hwf). simpl in He0. lia.
Qed.

Lemma needs_written b x y i i' :
  edge_written b x (lit "depends_on") y i i' -> forall u v, needs i' u v <-> needs i u v \/ (u = x /\ v = y).
Proof.
  intros [o e Htr Hlive Hown Hold] u v. unfold needs. setoid_rewrite apply_edge_lookup. split.
  - intros (id & e' & He' & Hd & Ht). destruct (decide (id = o)) as [->|]; [|left; by exists id, e'].
    injection He' as <-. right. rewrite Htr in Ht. by injection Ht.
  - intros [(id & e' & He' & Hd & Ht)|[-> ->]]; [|exists o, e; by rewrite decide_True].
    destruct (decide (id = o)) as [->|Hne]; [|exists id, e'; by rewrite decide_False].
    exists o, e. rewrite decide_True by done. destruct (Hold _ He') as [Heq _]. by rewrite <- Heq.
Qed.

(** An edge from [x] to [y] closes no cycle unless [x] can be reached from [y]. *)
Lemma acyclic_extended (R R' : NodeId -> NodeId -> Prop) x y :
  (forall u v, R' u v <-> R u v \/ (u = x /\ v = y)) -> (forall u, ~ tc R u u) -> ~ rtc R y x -> forall u, ~ tc R' u u.
Proof.
  intros HR Hac Hno u Hu. assert (Hp : forall u v, tc R' u v -> tc R u v \/ (rtc R u x /\ rtc R y v)).
  { clear u Hu. intros u v. induction 1 as [u v [Huv|[-> ->]]%HR|u w v [Huw|[-> ->]]%HR _ IH].
    - left. by constructor.
    - right. split; constructor.
    - destruct IH as [IH|[IH1 IH2]]; [left; by eapply tc_l|right; split; [by eapply rtc_l|done]].
    - right. split; [constructor|]. destruct IH as [IH|[_ IH]]; [by apply tc_rtc|done]. }
  destruct (Hp u u Hu) as [Huu|[Hux Hyu]]; [by apply (Hac u)|]. apply Hno. by etrans.
Qed.
End graphs.

Section engines.
Context {V : Type} `{Codec (WalRecord V)} `{Aead} `{HashIter} {M : Type} `{Authority M} `{IntentJson V} `{Unicode}.
Context {C X : Type} `{ContextResolver V M C} `{!ExplanationLog M X}.
Context (to_value : Record_ (V := V) -> V) (outside : nat -> WriteEnv) (secs : nat -> N).

Abbreviation engine := (IntentEngine (V := V) (C := C) (X := X)).

Lemma link_intents_written now m t a b prov (s : engine) :
  sound (ie_graph s) -> roomy (ie_graph s) 1 ->
  exists r s', link_intents to_value outside now m t a b prov s = Some (r, s') /\ sound (ie_graph s')
    /\ next_object_id (inner (storage (ie_graph s))) <= next_object_id (inner (storage (ie_graph s')))
       <= next_object_id (inner (storage (ie_graph s))) + 1
    /\ ie_explanations s' = ie_explanations s
    /\ match r with
       | Ok _ => edge_written (origin t) a (lit "depends_on") b (index (ie_graph s)) (index (ie_graph s'))
                 \/ index (ie_graph s') = index (ie_graph s)
                    /\ exists id e, edges (index (ie_graph s)) !! id = Some e /\ triple e = (a, lit "depends_on", b) /\ edge_tombstone e = true
       | Err CyclicDependency => False
       | Err _ => index (ie_graph s') = index (ie_graph s)
       end.
Proof.
  intros Hs Hroom. unfold link_intents. destruct (outside (ie_tick s)) as [w1 w2 nonce io]. simpl.
  destruct (link to_value now m t (ie_graph s) a _ b _ _ _ _ _ _ _ _ _) as [[r g'] ns] eqn:Hl.
  apply link_written in Hl as (Hs' & Hn & Hr); [|done..]. simpl. eexists _, _. split; [done|]. simpl. split; [done|]. split; [done|]. split; [done|].
  destruct r as [[id|id|id]|e]; [by left..|right|done]. destruct Hr as (Hix & e & He & Htr & Hd & _). split; [done|]. by exists id, e.
Qed.

(** C26. Dependencies stay acyclic, as long as nobody else adds one while
    [add_dependency] is between its check and its link ([others], which may remove
    dependencies and do anything else to the graph). It always comes to an answer. If it
    refuses because of a cycle, there would be one, and nothing has changed; if it
    succeeds, exactly the dependency asked for is new, or it was deleted once and nothing
    has changed; and if there was no cycle before, there is none after. (No lock is held in
    between: two calls at once can make a cycle,
    [IntentExample.check_and_link_are_two_steps].) *)
Theorem dependencies_stay_acyclic now m t from to others (s : engine) :
  sound (ie_graph s) -> acyclic_graph (index (ie_graph s)) ->
  sound (ie_graph (others s)) -> roomy (ie_graph (others s)) 1 ->
  (forall x y, needs (index (ie_graph (others s))) x y -> needs (index (ie_graph s)) x y) ->
  let i := index (ie_graph (others s)) in
  exists r s', add_dependency to_value outside now m t from to others s = Some (r, s')
    /\ sound (ie_graph s') /\ acyclic_graph (index (ie_graph s'))
    /\ match r with
       | Ok _ => (forall x y, needs (index (ie_graph s')) x y <-> needs i x y \/ (x = from /\ y = to))
                 \/ index (ie_graph s') = i /\ exists id e, edges i !! id = Some e /\ triple e = (from, lit "depends_on", to) /\ edge_tombstone e = true
       | Err CyclicDependency => s' = s /\ rtc (needs (index (ie_graph s))) to from
       | Err _ => s' = s \/ index (ie_graph s') = i
       end.
Proof.
  intros Hs Hac Hs1 Hroom Hsub i. unfold add_dependency. destruct (N.eqb_spec from to) as [->|Hne].
  { exists (Err CyclicDependency), s. do 4 (split; [done|]). constructor. }
  assert (Hac1 : acyclic_graph i).
  { intros x Hx. apply (Hac x). eapply (tc_congruence (fun y => y) (needs (index (ie_graph s)))) in Hx; [exact Hx|exact Hsub]. }
  pose proof (would_create_cycle_spec now m t (ie_graph s) from to (proj2 Hs)) as Hc.
  destruct (would_create_cycle now m t (ie_graph s) from to) as [[[|]|e]|]; simpl; [| | |done].
  - eexists _, _. split; [done|]. do 3 (split; [done|]). by apply Hc.
  - destruct (link_intents_written now m t from to (lit "amend") (others s) Hs1 Hroom) as (r & s' & Hl & Hs' & _ & _ & Hr).
    exists r, s'. split; [exact Hl|]. split; [done|].
    assert (Hno : ~ rtc (needs i) to from).
    { intros Hr'. assert (Hr2 : rtc (needs (index (ie_graph s))) to from) by (by eapply rtc_subrel). by apply Hc in Hr2. }
    destruct r as [u|[]]; simpl in Hr; try (rewrite Hr; split; [done|by right]); [|done].
    destruct Hr as [Hw|[Hix Hd]]; [|rewrite Hix; split; [done|right; by split]].
    pose proof (needs_written _ _ _ _ _ Hw) as Hn. split; [exact (acyclic_extended _ _ _ _ Hn Hac1 Hno)|by left].
  - eexists _, _. split; [done|]. do 2 (split; [done|]). by left.
Qed.

(** *** Writing intents *)

Abbreviation next s := (next_object_id (inner (storage (ie_graph s)))).

(** The node of an intent: the caller's, and not deleted. *)
Definition holds_intent (i : GraphIndex (V := V)) (b : N) (id : NodeId) (x : Intent) : Prop :=
  exists n, nodes i !! id = Some n /\ node_metadata n = intent_to_value x /\ owner n = b /\ tombstone n = false.

Lemma put_sound now m t (g : KnowledgeGraph (V := V)) id ty emb md w1 w2 nonce io :
  sound g -> roomy g 1 -> sound (put_node to_value now m t g id ty emb md w1 w2 nonce io).1.2.
Proof.
  intros [Hwf Hadj] Hroom.
  pose proof (put_gstep to_value (fun x => x) now m t g id ty emb md 0 IngestedExternal 0 w1 w2 nonce io) as Hstep. cbn in Hstep.
  split; [eapply gstep_wf|eapply gstep_adjacency]; done.
Qed.

Lemma put_new now m t i (s s' : engine) id :
  sound (ie_graph s) -> roomy (ie_graph s) 1 -> put_intent to_value outside now m t None i s = Some (Ok id, s') ->
  sound (ie_graph s') /\ id = next s /\ next s' = next s + 1 /\ ie_explanations s' = ie_explanations s
  /\ nodes (index (ie_graph s)) !! id = None
  /\ exists n, index (ie_graph s') = apply (index (ie_graph s)) id (RNode n) /\ node_metadata n = intent_to_value i
       /\ owner n = origin t /\ tombstone n = false.
Proof.
  intros Hs Hroom. unfold put_intent. destruct (outside (ie_tick s)) as [w1 w2 nonce io]. simpl.
  pose proof (put_sound now m t (ie_graph s) None (lit "intent") None (intent_to_value i) w1 w2 nonce io Hs Hroom) as Hs'.
  destruct (put_node _ _ _ _ _ _ _ _ _ _ _ _ _) as [[r g'] ns] eqn:Hput. simpl in *. destruct r as [o|e]; [|done]. intros [= -> <-]. simpl.
  unfold put_node, put_node_with_device_origin, put_node_with_provenance in Hput.
  destruct (KnowledgeGraph.require now m t WRITE); [|done]. simpl in Hput. apply commit_done in Hput as [Hn (o & -> & Ho & Hix & Hc & Hlt)]; [|done].
  simpl in Ho. specialize (Hlt eq_refl). split; [done|]. split; [done|]. split; [lia|]. split; [done|]. split.
  - destruct (nodes (index (ie_graph s)) !! o) as [n|] eqn:Hno; [|done]. apply (gw_nodes _ (proj1 Hs)) in Hno as [v Hv]. congruence.
  - eexists. split; [exact Hix|]. done.
Qed.

Lemma put_over now m t i (s s' : engine) root n0 id :
  sound (ie_graph s) -> roomy (ie_graph s) 1 -> nodes (index (ie_graph s)) !! root = Some n0 -> tombstone n0 = false ->
  put_intent to_value outside now m t (Some root) i s = Some (Ok id, s') ->
  sound (ie_graph s') /\ id = root /\ ie_explanations s' = ie_explanations s
  /\ exists n, index (ie_graph s') = apply (index (ie_graph s)) root (RNode n) /\ node_metadata n = intent_to_value i
       /\ owner n = origin t /\ tombstone n = false.
Proof.
  intros Hs Hroom Hn0 Hlive. unfold put_intent. destruct (outside (ie_tick s)) as [w1 w2 nonce io]. simpl.
  pose proof (put_sound now m t (ie_graph s) (Some root) (lit "intent") None (intent_to_value i) w1 w2 nonce io Hs Hroom) as Hs'.
  destruct (put_node _ _ _ _ _ _ _ _ _ _ _ _ _) as [[r g'] ns] eqn:Hput. simpl in *. destruct r as [o|e]; [|done]. intros [= -> <-]. simpl.
  unfold put_node, put_node_with_device_origin, put_node_with_provenance in Hput.
  destruct (KnowledgeGraph.require now m t WRITE); [|done]. cbn [mbind option_bind] in Hput. rewrite Hn0 in Hput. cbn [is_some_and mbind option_bind from_option] in Hput.
  destruct (N.eqb_spec (owner n0) (origin t)) as [Hown|]; [|done]. cbn [negb] in Hput.
  apply commit_done in Hput as [Hn (o & -> & Ho & Hix & _)]; [|done]. simpl in Ho. subst o.
  split; [done|]. split; [done|]. split; [done|]. eexists. split; [exact Hix|]. done.
Qed.

(** Nothing but nodes is different. *)
Definition same_edges (i i' : GraphIndex (V := V)) : Prop :=
  edges i' = edges i /\ forward i' = forward i /\ backward i' = backward i.

Lemma put_leaves_ok now m t root urgent ts l (s s' : engine) ids :
  sound (ie_graph s) -> roomy (ie_graph s) (N.of_nat (length l)) ->
  put_leaves to_value outside now m t root urgent ts l s = Some (Ok ids, s') ->
  sound (ie_graph s') /\ next s' = next s + N.of_nat (length l) /\ ie_explanations s' = ie_explanations s
  /\ length ids = length l /\ (forall k id, ids !! k = Some id -> id = next s + N.of_nat k)
  /\ same_edges (index (ie_graph s)) (index (ie_graph s'))
  /\ (forall x, x ∈ ids -> nodes (index (ie_graph s)) !! x = None)
  /\ (forall x, x ∉ ids -> nodes (index (ie_graph s')) !! x = nodes (index (ie_graph s)) !! x)
  /\ Forall2 (holds_intent (index (ie_graph s')) (origin t)) ids (leaf_intent root urgent ts <$> l).
Proof.
  revert s s' ids. induction l as [|x l IH]; intros s s' ids Hs Hroom; cbn [put_leaves].
  { intros [= <- <-]. split; [done|]. split; [simpl; lia|]. do 2 (split; [done|]). split; [done|]. split; [done|]. split; [by intros x ?%elem_of_nil|]. split; [done|]. constructor. }
  unfold mbind, intent_bind. destruct (put_intent _ _ _ _ _ _ _ s) as [[[id|e] s1]|] eqn:Hput; [|done..].
  apply put_new in Hput as (Hs1 & Hid & Hn1 & Hx1 & Hnew & n & Hix & Hmd & Hown & Hlive); [|done|unfold roomy in *; cbn [length] in Hroom; lia].
  destruct (put_leaves _ _ _ _ _ _ _ _ l s1) as [[[ids1|e] s2]|] eqn:Hrest; [|done..]. intros [= <- <-].
  apply IH in Hrest as (Hs2 & Hn2 & Hx2 & Hlen & Hids & (He & Hf & Hb) & Hfresh & Hnodes & Hall); [|done|unfold roomy in *; cbn [length] in Hroom; rewrite Hn1; lia].
  split; [done|]. split; [cbn [length]; lia|]. split; [congruence|]. split; [cbn; by rewrite Hlen|]. split.
  { intros [|k] y; cbn; [intros [= <-]; lia|]. intros Hy%Hids. lia. }
  split; [rewrite Hix in He, Hf, Hb; done|].
  assert (Hother : id ∉ ids1). { intros Hin%Hfresh. by rewrite Hix, apply_node_lookup, decide_True in Hin. }
  split; [|split].
  - intros y [->|Hy]%elem_of_cons; [done|]. specialize (Hfresh y Hy). rewrite Hix, apply_node_lookup in Hfresh. by destruct (decide (y = id)).
  - intros y [Hy1 Hy2]%not_elem_of_cons. rewrite Hnodes by done. by rewrite Hix, apply_node_lookup, decide_False.
  - cbn. constructor; [|done]. exists n. rewrite Hnodes by done. rewrite Hix, apply_node_lookup, decide_True by done. done.
Qed.

(** *** Linking the leaves *)

(** The edges at [ids] are the caller's, live, and are the dependencies in [ps]. *)
Record linked_as (i : GraphIndex (V := V)) (b : N) (ids : list NodeId) (ps : list (NodeId * NodeId)) : Prop := {
  la_edges : forall id e, edges i !! id = Some e -> subject e ∈ ids \/ target e ∈ ids ->
    edge_owner e = b /\ edge_tombstone e = false /\ exists x y, (x, y) ∈ ps /\ triple e = (x, lit "depends_on", y);
  la_pairs : forall x y, (x, y) ∈ ps -> needs i x y
}.

Lemma link_one now m t (s s' : engine) a c prov ids ps u :
  sound (ie_graph s) -> roomy (ie_graph s) 1 -> a ∈ ids -> linked_as (index (ie_graph s)) (origin t) ids ps ->
  link_intents to_value outside now m t a c prov s = Some (Ok u, s') ->
  sound (ie_graph s') /\ next s <= next s' <= next s + 1 /\ ie_explanations s' = ie_explanations s
  /\ nodes (index (ie_graph s')) = nodes (index (ie_graph s))
  /\ linked_as (index (ie_graph s')) (origin t) ids (ps ++ [(a, c)]).
Proof.
  intros Hs Hroom Ha [Hedges Hpairs] Hl. destruct (link_intents_written now m t a c prov s Hs Hroom) as (r & s1 & Hl1 & Hs1 & Hn & Hx & Hr).
  rewrite Hl in Hl1. injection Hl1 as <- <-. do 3 (split; [done|]). destruct Hr as [Hw|[_ (id & e & He & Htr & Hd)]].
  - pose proof (needs_written _ _ _ _ _ Hw) as Hneeds. split; [by destruct Hw|]. constructor.
    + intros id e. destruct Hw as [o e' Htr Hlive Hown _]. rewrite apply_edge_lookup. destruct (decide (id = o)) as [->|].
      * intros [= <-] _. split; [done|]. split; [done|]. exists a, c. split; [|done]. apply elem_of_app. right. left.
      * intros He Hin. destruct (Hedges id e He Hin) as (H1' & H2' & x & y & Hxy & Htr'). split; [done|]. split; [done|]. exists x, y. split; [|done].
        apply elem_of_app. by left.
    + intros x y [Hxy|Hxy]%elem_of_app; apply Hneeds; [left; by apply Hpairs|]. apply list_elem_of_singleton in Hxy. injection Hxy as -> ->. by right.
  - exfalso. destruct (Hedges id e He) as (_ & Hlive & _); [|congruence]. left. injection Htr as -> _ _. done.
Qed.

(** What linking leaves behind: the pairs there were, and those that [P] adds. *)
Definition links_add (s s' : engine) (b : N) (ids : list NodeId) (ps : list (NodeId * NodeId)) (k : nat) (P : NodeId -> NodeId -> Prop) : Prop :=
  sound (ie_graph s') /\ next s <= next s' <= next s + N.of_nat k /\ ie_explanations s' = ie_explanations s
  /\ nodes (index (ie_graph s')) = nodes (index (ie_graph s))
  /\ exists ps', linked_as (index (ie_graph s')) b ids ps' /\ forall x y, (x, y) ∈ ps' <-> (x, y) ∈ ps \/ P x y.

Lemma link_deps_ok now m t ids a deps (s s' : engine) ps u :
  sound (ie_graph s) -> roomy (ie_graph s) (N.of_nat (length deps)) -> a ∈ ids -> linked_as (index (ie_graph s)) (origin t) ids ps ->
  link_deps to_value outside now m t ids a deps s = Some (Ok u, s') ->
  links_add s s' (origin t) ids ps (length deps) (fun x y => x = a /\ exists d, d ∈ deps /\ ids !! d = Some y).
Proof.
  revert s s' ps. induction deps as [|d deps IH]; intros s s' ps Hs Hroom Ha Hla; cbn [link_deps].
  { intros [= <- <-]. split; [done|]. split; [simpl; lia|]. do 2 (split; [done|]). exists ps. split; [done|]. intros x y. split; [by left|].
    intros [?|(_ & d & ?%elem_of_nil & _)]; done. }
  destruct (ids !! d) as [c|] eqn:Hc; [|done]. unfold mbind, intent_bind.
  destruct (link_intents _ _ _ _ _ _ _ _ s) as [[[u1|e] s1]|] eqn:Hl; [|done..]. intros Hrest.
  apply (link_one _ _ _ _ _ _ _ _ ids ps) in Hl as (Hs1 & Hn1 & Hx1 & Hnodes1 & Hla1); [|done|unfold roomy in *; cbn [length] in Hroom; lia|done|done].
  apply (IH s1 s' (ps ++ [(a, c)])) in Hrest as (Hs2 & Hn2 & Hx2 & Hnodes2 & ps' & Hla2 & Hps'); [|done|unfold roomy in *; cbn [length] in Hroom; lia|done|done].
  split; [done|]. split; [cbn [length]; lia|]. split; [congruence|]. split; [congruence|]. exists ps'. split; [done|]. intros x y. rewrite Hps', elem_of_app, list_elem_of_singleton.
  split.
  - intros [[Hxy|[= -> ->]]|(-> & d' & Hd' & Hy)]; [by left|right; split; [done|]; exists d; split; [left|done]|right; split; [done|]; exists d'; split; [by right|done]].
  - intros [Hxy|(-> & d' & [->|Hd']%elem_of_cons & Hy)]; [by left; left| |right; split; [done|]; by exists d'].
    left. right. rewrite Hc in Hy. by injection Hy as ->.
Qed.

Definition dep_count (l : list TemplateLeaf) : nat := sum_list_with (fun x => length (tl_depends_on x)) l.

Lemma link_leaves_ok now m t ids l (s s' : engine) ps u :
  sound (ie_graph s) -> roomy (ie_graph s) (N.of_nat (dep_count l.*2)) -> (forall a, a ∈ l.*1 -> a ∈ ids) ->
  linked_as (index (ie_graph s)) (origin t) ids ps ->
  link_leaves to_value outside now m t ids l s = Some (Ok u, s') ->
  links_add s s' (origin t) ids ps (dep_count l.*2) (fun x y => exists lf d, (x, lf) ∈ l /\ d ∈ tl_depends_on lf /\ ids !! d = Some y).
Proof.
  revert s s' ps. induction l as [|[a lf] l IH]; intros s s' ps Hs Hroom Ha Hla; cbn [link_leaves].
  { intros [= <- <-]. split; [done|]. split; [simpl; lia|]. do 2 (split; [done|]). exists ps. split; [done|]. intros x y. split; [by left|].
    intros [?|(lf & d & ?%elem_of_nil & _)]; done. }
  assert (Hcount : dep_count ((a, lf) :: l).*2 = (length (tl_depends_on lf) + dep_count l.*2)%nat) by done. rewrite Hcount in *.
  unfold mbind, intent_bind. destruct (link_deps _ _ _ _ _ _ _ _ s) as [[[u1|e] s1]|] eqn:Hl; [|done..]. intros Hrest.
  apply (link_deps_ok _ _ _ _ _ _ _ _ ps) in Hl as (Hs1 & Hn1 & Hx1 & Hnodes1 & ps1 & Hla1 & Hps1); [|done|unfold roomy in *; lia|apply Ha; left|done].
  apply (IH s1 s' ps1) in Hrest as (Hs2 & Hn2 & Hx2 & Hnodes2 & ps' & Hla2 & Hps'); [|done|unfold roomy in *; lia|intros a' Ha'; apply Ha; by right|done].
  split; [done|]. split; [lia|]. split; [congruence|]. split; [congruence|]. exists ps'. split; [done|]. intros x y. rewrite Hps', Hps1. split.
  - intros [[Hxy|(-> & d & Hd & Hy)]|(lf' & d & Hin & Hd & Hy)]; [by left|right; exists lf, d; split; [left|done]|right; exists lf', d; split; [by right|done]].
  - intros [Hxy|(lf' & d & [[= -> ->]|Hin]%elem_of_cons & Hd & Hy)]; [by left; left|left; right; split; [done|]; by exists d|right; by exists lf', d].
Qed.

(** *** A decomposition *)

Lemma explains_graph {T : Type} (f : X -> option (Result T ExplainabilityError * X)) (s s' : engine) r :
  explains f s = Some (r, s') -> ie_graph s' = ie_graph s.
Proof. unfold explains. destruct (f _) as [[a x]|]; simpl; [|done]. by intros [= <- <-]. Qed.

Lemma append_steps_graph now m t e root k l (s s' : engine) r : append_steps now m t e root k l s = Some (r, s') -> ie_graph s' = ie_graph s.
Proof.
  revert k s. induction l as [|[id x] l IH]; intros k s; cbn [append_steps]; [by intros [= <- <-]|]. unfold mbind, intent_bind.
  destruct (explains _ s) as [[[u|er] s1]|] eqn:He; [|intros [= <- <-]; by eapply explains_graph|done]. intros Hr%IH. rewrite Hr. by eapply explains_graph.
Qed.

(** No edge runs to an object that is not there yet. *)
Definition untouched (s : engine) : Prop :=
  forall id e, edges (index (ie_graph s)) !! id = Some e -> subject e < next s /\ target e < next s.

(** Leaf [k] depends on what the template says. *)
Definition template_needs (tm : Template) (ids : list NodeId) (x y : NodeId) : Prop :=
  exists k lf d, ids !! k = Some x /\ template_leaves tm !! k = Some lf /\ d ∈ tl_depends_on lf /\ ids !! d = Some y.

(** The graph holds the template: a node for each leaf, and its dependencies at them. *)
Record decomposed (g : KnowledgeGraph (V := V)) (b root : N) (tm : Template) (urgent : bool) (ts : N) (i : Intent) (ids : list NodeId) : Prop := {
  dc_length : length ids = length (template_leaves tm);
  dc_distinct : NoDup ids;
  dc_root : root ∉ ids;
  dc_children : holds_intent (index g) b root (set_children ids (set_id root i));
  dc_leaves : Forall2 (holds_intent (index g) b) ids (leaf_intent root urgent ts <$> template_leaves tm);
  dc_edges : forall id e, edges (index g) !! id = Some e -> subject e ∈ ids \/ target e ∈ ids -> edge_owner e = b;
  dc_needs : forall x y, x ∈ ids -> needs (index g) x y <-> template_needs tm ids x y
}.

Definition objects_of (tm : Template) : N := N.of_nat (length (template_leaves tm) + dep_count (template_leaves tm) + 1).

Lemma consecutive_NoDup (ids : list NodeId) k0 : (forall k id, ids !! k = Some id -> id = k0 + N.of_nat k) -> NoDup ids.
Proof. intros Hids. apply NoDup_alt. intros j k x Hj%Hids Hk%Hids. lia. Qed.

Lemma elem_of_zip_lookup {T U : Type} (l : list T) (k : list U) x y : (x, y) ∈ zip l k <-> exists j, l !! j = Some x /\ k !! j = Some y.
Proof.
  rewrite list_elem_of_lookup. split; intros [j Hj]; exists j; [by apply lookup_zip_Some in Hj|by apply lookup_zip_Some].
Qed.

Lemma decompose_ok now m t root tm urgent ts (s s' : engine) ids :
  sound (ie_graph s) -> roomy (ie_graph s) (objects_of tm) -> untouched s ->
  decompose to_value outside now m t root tm urgent ts s = Some (Ok ids, s') ->
  sound (ie_graph s') /\ roomy (ie_graph s') 1
  /\ length ids = length (template_leaves tm) /\ NoDup ids
  /\ (forall x, x ∈ ids -> nodes (index (ie_graph s)) !! x = None)
  /\ (forall x, x ∉ ids -> nodes (index (ie_graph s')) !! x = nodes (index (ie_graph s)) !! x)
  /\ Forall2 (holds_intent (index (ie_graph s')) (origin t)) ids (leaf_intent root urgent ts <$> template_leaves tm)
  /\ exists ps, linked_as (index (ie_graph s')) (origin t) ids ps /\ forall x y, (x, y) ∈ ps <-> template_needs tm ids x y.
Proof.
  intros Hs Hroom Hun. unfold decompose, mbind, intent_bind. unfold objects_of, roomy in Hroom.
  destruct (put_leaves _ _ _ _ _ _ _ _ _ s) as [[[ids1|e] s1]|] eqn:Hput; [|done..].
  apply put_leaves_ok in Hput as (Hs1 & Hn1 & _ & Hlen & Hids & (He1 & _ & _) & Hfresh & Hnodes & Hall); [|done|unfold roomy; lia].
  destruct (link_leaves _ _ _ _ _ _ _ s1) as [[[u|e] s2]|] eqn:Hlink; [|done..]. intros [= -> <-].
  assert (Hsnd : (zip ids (template_leaves tm)).*2 = template_leaves tm) by (apply snd_zip; lia).
  apply (link_leaves_ok _ _ _ _ _ _ _ []) in Hlink as (Hs2 & Hn2 & _ & Hnodes2 & ps & Hla & Hps).
  - rewrite Hsnd in Hn2. split; [done|]. split; [unfold roomy; lia|]. split; [done|]. split; [by eapply consecutive_NoDup|]. split; [done|].
    split; [by rewrite Hnodes2|]. split; [unfold holds_intent in *; by rewrite Hnodes2|]. exists ps. split; [done|].
    intros x y. rewrite Hps, elem_of_nil. split.
    + intros [[]|(lf & d & (k & Hk1 & Hk2)%elem_of_zip_lookup & Hd & Hy)]. by exists k, lf, d.
    + intros (k & lf & d & Hk1 & Hk2 & Hd & Hy). right. exists lf, d. split; [|done]. apply elem_of_zip_lookup. by exists k.
  - done.
  - rewrite Hsnd. unfold roomy. lia.
  - intros a. rewrite fst_zip by lia. done.
  - constructor; [|by intros x y ?%elem_of_nil]. intros id e. rewrite He1. intros He Hin. exfalso. destruct (Hun id e He) as [Hsub Htgt].
    destruct Hin as [[k Hk]%list_elem_of_lookup_1|[k Hk]%list_elem_of_lookup_1]; apply Hids in Hk; lia.
Qed.

Lemma decompose_and_record_ok now m t root i tm urgent ts (s s' : engine) n0 u :
  sound (ie_graph s) -> roomy (ie_graph s) (objects_of tm) -> untouched s ->
  nodes (index (ie_graph s)) !! root = Some n0 -> tombstone n0 = false ->
  decompose_and_record to_value outside now m t root i tm urgent ts s = Some (Ok u, s') ->
  sound (ie_graph s') /\ exists ids, decomposed (ie_graph s') (origin t) root tm urgent ts i ids.
Proof.
  intros Hs Hroom Hun Hn0 Hlive. unfold decompose_and_record, mbind, intent_bind.
  cbn [asks modifies]. destruct (explains _ _) as [[[e|er] s1]|] eqn:He; [|done..]. apply explains_graph in He. cbn [ie_graph with_action] in He.
  assert (Hun1 : untouched s1) by (unfold untouched; by rewrite He). rewrite <- He in Hs, Hroom, Hn0. clear He Hun.
  destruct (decompose _ _ _ _ _ _ _ _ _ s1) as [[[ids|er] s2]|] eqn:Hdec; [|done..].
  apply decompose_ok in Hdec as (Hs2 & Hroom2 & Hlen & Hnd & Hfresh & Hnodes & Hall & ps & [Hedges Hpairs] & Hps); [|done..].
  destruct (append_steps _ _ _ _ _ _ _ s2) as [[[v|er] s3]|] eqn:Hsteps; [|done..]. apply append_steps_graph in Hsteps.
  destruct (explains _ s3) as [[[v'|er] s4]|] eqn:He4; [|done..]. apply explains_graph in He4. rewrite Hsteps in He4.
  destruct (put_intent _ _ _ _ _ _ _ s4) as [[[id|er] s5]|] eqn:Hput; [|done..]. intros [= <- <-].
  assert (Hroot : root ∉ ids) by (intros Hin%Hfresh; congruence).
  assert (Hn4 : nodes (index (ie_graph s4)) !! root = Some n0) by (by rewrite He4, Hnodes).
  apply (put_over _ _ _ _ _ _ _ n0) in Hput as (Hs5 & _ & _ & n & Hix & Hmd & Hown & Hl5); [|by rewrite He4|by rewrite He4|done|done].
  rewrite He4 in Hix. split; [done|]. exists ids. constructor; try done.
  - exists n. rewrite Hix, apply_node_lookup, decide_True; done.
  - apply Forall2_same_length_lookup in Hall as [Hl Hall]. apply Forall2_same_length_lookup. split; [done|]. intros k id' x Hid Hx.
    destruct (Hall k id' x Hid Hx) as (n' & Hn' & Hrest). exists n'. split; [|done].
    rewrite Hix, apply_node_lookup, decide_False; [done|]. intros ->. apply Hroot. by apply list_elem_of_lookup_2 in Hid.
  - rewrite Hix. intros id' e' He' Hin. by apply (Hedges id' e').
  - rewrite Hix. intros x y Hx. rewrite <- Hps. split.
    + intros (id' & e' & He' & _ & Htr). destruct (Hedges id' e' He') as (_ & _ & x' & y' & Hxy & Htr').
      * left. by injection Htr as -> _ _.
      * rewrite Htr in Htr'. by injection Htr' as -> ->.
    + intros Hxy. apply Hpairs in Hxy. exact Hxy.
Qed.

(** *** Reading it back *)

Definition finite_intent (x : Intent) : Prop := is_finite (i_priority x) = true /\ is_finite (i_confidence x) = true.

Lemma read_held now m t (g : KnowledgeGraph (V := V)) id x :
  authorize now m t READ = Ok tt -> holds_intent (index g) (origin t) id x -> finite_intent x -> read_intent now m t g id = Ok (set_id id x).
Proof.
  intros Hok (n & Hn & Hmd & Hown & Hlive) [Hp Hc]. unfold read_intent, KnowledgeGraph.get, KnowledgeGraph.require. rewrite Hok. simpl.
  rewrite Hn. unfold own_live. rewrite Hlive, Hown, N.eqb_refl. simpl. by rewrite Hmd, intent_round_trip.
Qed.

Lemma get_intents_held now m t ids xs (s : engine) :
  authorize now m t READ = Ok tt -> Forall2 (holds_intent (index (ie_graph s)) (origin t)) ids xs -> Forall finite_intent xs ->
  get_intents now m t ids s = Some (Ok (zip_with set_id ids xs), s).
Proof.
  intros Hok Hall. induction Hall as [|id x ids xs Hx _ IH]; intros Hfin; [done|]. apply Forall_cons in Hfin as [Hf Hfin].
  cbn [get_intents]. unfold mbind, intent_bind, get_intent. rewrite (read_held _ _ _ _ _ x) by done. by rewrite IH.
Qed.

Lemma depends_edges_total now m t (g : KnowledgeGraph (V := V)) x eids :
  authorize now m t READ = Ok tt -> (forall eid, eid ∈ eids -> exists e, edges (index g) !! eid = Some e /\ edge_owner e = origin t) ->
  exists l, depends_edges now m t g x eids = Ok l.
Proof.
  intros Hok. induction eids as [|eid eids IH]; intros Hall; [by exists []|]. destruct IH as [l Hl]; [intros y Hy; apply Hall; by right|].
  destruct (Hall eid) as (e & He & Hown); [left|]. cbn [depends_edges]. unfold depends_edge, KnowledgeGraph.explain, KnowledgeGraph.require.
  rewrite Hok. simpl. rewrite He, Hown, N.eqb_refl. simpl. rewrite Hl. by eexists.
Qed.

Lemma targets_total now m t (g : KnowledgeGraph (V := V)) x n :
  authorize now m t READ = Ok tt -> adjacency (index g) -> nodes (index g) !! x = Some n -> owner n = origin t ->
  (forall id e, edges (index g) !! id = Some e -> subject e = x \/ target e = x -> edge_owner e = origin t) ->
  exists l, targets now m t g x = Ok l.
Proof.
  intros Hok Hadj Hn Hown Hall. unfold targets, KnowledgeGraph.explain, KnowledgeGraph.require. rewrite Hok. simpl. rewrite Hn, Hown, N.eqb_refl. simpl.
  apply depends_edges_total; [done|]. intros eid. rewrite elem_of_dedup_sorted, sort_by_key_perm, elem_of_app, (aj_forward _ Hadj), (aj_backward _ Hadj).
  intros [(e & He & Hs)|(e & He & Hs)]; exists e; (split; [done|]); eapply Hall; eauto.
Qed.

(** What a decomposition reads like afterwards. *)
Lemma decomposed_reads now m t root tm urgent ts i ids (s : engine) :
  authorize now m t READ = Ok tt -> sound (ie_graph s) -> decomposed (ie_graph s) (origin t) root tm urgent ts i ids ->
  finite_intent i -> Forall (fun l => is_finite (leaf_priority urgent l) = true) (template_leaves tm) ->
  get_graph now m t root s
    = Some (Ok (set_children ids (set_id root i) :: zip_with set_id ids (leaf_intent root urgent ts <$> template_leaves tm)), s)
  /\ forall x, x ∈ ids -> exists l, depends_on_targets now m t x s = Some (Ok l, s) /\ forall y, y ∈ l <-> template_needs tm ids x y.
Proof.
  intros Hok [_ Hadj] [Hlen Hnd Hroot Hch Hall Hedges Hneeds] Hfi Hfl. split.
  - unfold get_graph, mbind, intent_bind, get_intent. rewrite (read_held _ _ _ _ _ (set_children ids (set_id root i))) by done. simpl.
    rewrite (get_intents_held _ _ _ _ (leaf_intent root urgent ts <$> template_leaves tm)); [done|done|done|].
    apply Forall_fmap. eapply Forall_impl; [exact Hfl|]. intros l Hl. by split.
  - intros x Hx. destruct (list_elem_of_lookup_1 _ _ Hx) as [k Hk]. destruct (Forall2_lookup_l _ _ _ _ _ Hall Hk) as (y0 & _ & n & Hn & _ & Hown & _).
    destruct (targets_total now m t (ie_graph s) x n Hok Hadj Hn Hown) as [l Hl].
    { intros id e He Hor. apply (Hedges id e He). destruct Hor as [->| ->]; [by left|by right]. }
    exists l. unfold depends_on_targets. rewrite Hl. split; [done|]. intros y. apply targets_ok in Hl as (_ & _ & Hl); [|done]. by rewrite Hl, Hneeds.
Qed.

(** *** Plans *)

(** Every leaf depends on leaves before it, and its priority is a number. *)
Definition orderly (tm : Template) (urgent : bool) : Prop :=
  (forall k lf d, template_leaves tm !! k = Some lf -> d ∈ tl_depends_on lf -> (d < k)%nat)
  /\ Forall (fun l => is_finite (leaf_priority urgent l) = true) (template_leaves tm).

Lemma numbered_lookup i l k lf :
  numbered i l !! k = Some lf -> tl_depends_on lf = match (i + k)%nat with O => [] | S j => [j] end.
Proof.
  revert i k. induction l as [|p l IH]; intros i k; cbn [numbered]; [done|]. destruct k as [|k]; cbn.
  - intros [= <-]. by rewrite Nat.add_0_r.
  - intros Hk%IH. by rewrite Nat.add_succ_r.
Qed.

(** What a model makes up is orderly, whatever it answers. *)
Lemma steps_orderly pred answer urgent : orderly (mkTemplate pred (steps_of answer)) urgent.
Proof.
  unfold orderly, steps_of. cbn [template_leaves]. set (l := List.filter _ _). split.
  - intros k lf d Hk%numbered_lookup. rewrite Hk, Nat.add_0_l. destruct k as [|k]; [by intros ?%elem_of_nil|]. intros ->%list_elem_of_singleton. lia.
  - apply Forall_lookup. intros k lf Hk%numbered_lookup. unfold leaf_priority. rewrite Hk. by destruct (0 + k)%nat, urgent; vm_compute.
Qed.

Lemma startup_orderly urgent : orderly startup urgent.
Proof.
  split.
  - intros [|[|[|[|k]]]] lf d [= <-]; cbn [tl_depends_on]; rewrite ?elem_of_nil, ?list_elem_of_singleton; lia.
  - repeat constructor; by destruct urgent; vm_compute.
Qed.

(** The plan of a session is the template: a task for each leaf, in order, that nobody has
    worked on yet, and that waits for the tasks of the leaves it depends on. *)
Record plans_template (p : SharedPlan) (root : NodeId) (utterance : text) (tm : Template) : Prop := {
  pt_root : Coordination.root_intent p = root;
  pt_utterance : root_utterance p = utterance;
  pt_tasks : task_description <$> tasks p = tl_predicate <$> template_leaves tm;
  pt_capabilities : required_capabilities <$> tasks p = required_capabilities_for <$> (tl_predicate <$> template_leaves tm);
  pt_fresh : Forall fresh_task (tasks p);
  pt_distinct : NoDup (task_id <$> tasks p);
  pt_needs : forall k n lf, tasks p !! k = Some n -> template_leaves tm !! k = Some lf ->
    forall y, y ∈ dependencies n <-> exists d n', d ∈ tl_depends_on lf /\ tasks p !! d = Some n' /\ task_id n' = y;
  pt_acyclic : acyclic (tasks p)
}.

Context {G A X' B Mem : Type}.
#[local] Instance engine_graph : IntentGraph M engine := engine_intents to_value outside secs.
Abbreviation csession := (CoordinationSession (V := V) (G := G) (A := A) (X := X') (I := engine) (B := B) (Mem := Mem)).

Definition leaf_of (i : Intent) : LeafIntent := mkLeaf (i_id i) (i_predicate i) (i_utterance i).

(** The task made of a leaf. *)
Definition task_of (deps : NodeId -> NodeId -> Prop) (id : NodeId) (pred : text) (n : TaskNode) : Prop :=
  task_id n = id /\ task_description n = pred /\ required_capabilities n = required_capabilities_for pred /\ fresh_task n
  /\ forall y, y ∈ dependencies n <-> deps id y.

Lemma task_nodes_ok now m t (s : engine) (deps : NodeId -> NodeId -> Prop) ids xs :
  (forall x, x ∈ ids -> exists l, depends_on_targets now m t x s = Some (Ok l, s) /\ forall y, y ∈ l <-> deps x y) ->
  exists ns, task_nodes now m t s (leaf_of <$> zip_with set_id ids xs) = Ok ns
    /\ Forall2 (fun x n => task_of deps x.1 (i_predicate x.2) n) (zip ids xs) ns.
Proof.
  revert xs. induction ids as [|id ids IH]; intros xs Hall; [by exists []|]. destruct xs as [|x xs]; [by exists []|].
  destruct (IH xs) as (ns & Hns & Hf); [intros y Hy; apply Hall; by right|]. destruct (Hall id) as (l & Hl & Hdeps); [left|].
  cbn [zip_with fmap list_fmap task_nodes]. cbn [leaf_id leaf_of i_id set_id].
  change (ig_depends_on_targets now m t s id) with (ran (depends_on_targets now m t id s)). rewrite Hl. cbn [ran]. rewrite Hns. eexists. split; [done|]. constructor; [|done]. done.
Qed.

Lemma filter_leaves root ids xs :
  root ∉ ids -> List.filter (fun i => negb (leaf_id i =? root)) (leaf_of <$> zip_with set_id ids xs) = leaf_of <$> zip_with set_id ids xs.
Proof.
  revert xs. induction ids as [|id ids IH]; intros xs Hroot; [done|]. destruct xs as [|x xs]; [done|]. apply not_elem_of_cons in Hroot as [Hne Hroot].
  cbn [zip_with fmap list_fmap List.filter leaf_id leaf_of i_id set_id]. destruct (N.eqb_spec id root) as [->|_]; [done|]. cbn [negb]. f_equal. by apply IH.
Qed.

(** The tasks made of the leaves of a template, at [ids]. *)
Definition tasks_of (tm : Template) (ids : list NodeId) (ns : list TaskNode) : Prop :=
  Forall2 (fun x n => task_of (template_needs tm ids) x.1 (tl_predicate x.2) n) (zip ids (template_leaves tm)) ns.

Lemma tasks_of_lookup tm ids ns k n :
  tasks_of tm ids ns -> ns !! k = Some n ->
  exists id lf, ids !! k = Some id /\ template_leaves tm !! k = Some lf /\ task_of (template_needs tm ids) id (tl_predicate lf) n.
Proof.
  intros Hall Hn. destruct (Forall2_lookup_r _ _ _ _ _ Hall Hn) as ([id lf] & [Hid Hlf]%lookup_zip_Some & Ht). by exists id, lf.
Qed.

Lemma tasks_of_fmap {T : Type} tm ids ns (f : TaskNode -> T) (g : NodeId -> text -> T) :
  (forall id pred n, task_of (template_needs tm ids) id pred n -> f n = g id pred) -> tasks_of tm ids ns ->
  f <$> ns = (fun x => g x.1 (tl_predicate x.2)) <$> zip ids (template_leaves tm).
Proof.
  intros Hfg Hall. unfold tasks_of in Hall. induction Hall as [|[id lf] n l ns Ht _ IH]; [done|]. cbn. rewrite IH. f_equal. by apply Hfg.
Qed.

Section tasks.
Context (tm : Template) (ids : list NodeId) (ns : list TaskNode).
Hypothesis Hlen : length ids = length (template_leaves tm).
Hypothesis Hnd : NoDup ids.
Hypothesis Hall : tasks_of tm ids ns.

Lemma tasks_of_ids : task_id <$> ns = ids.
Proof.
  rewrite (tasks_of_fmap tm ids ns task_id (fun id _ => id)); [|by intros id pred n (-> & _)|done].
  change (fst <$> zip ids (template_leaves tm) = ids). apply fst_zip. lia.
Qed.

Lemma tasks_of_leaves {T : Type} (f : TaskNode -> T) (g : text -> T) :
  (forall id pred n, task_of (template_needs tm ids) id pred n -> f n = g pred) -> f <$> ns = g <$> (tl_predicate <$> template_leaves tm).
Proof.
  intros Hfg. rewrite (tasks_of_fmap tm ids ns f (fun _ pred => g pred)); [|done|done].
  change (((fun x => g (tl_predicate x)) ∘ snd) <$> zip ids (template_leaves tm) = g <$> (tl_predicate <$> template_leaves tm)).
  rewrite list_fmap_compose, snd_zip by lia. by rewrite <- list_fmap_compose.
Qed.

Lemma tasks_of_needs k n lf :
  ns !! k = Some n -> template_leaves tm !! k = Some lf ->
  forall y, y ∈ dependencies n <-> exists d n', d ∈ tl_depends_on lf /\ ns !! d = Some n' /\ task_id n' = y.
Proof.
  intros Hn Hlf y. destruct (tasks_of_lookup _ _ _ _ _ Hall Hn) as (id & lf' & Hid & Hlf' & _ & _ & _ & _ & Hdeps).
  rewrite Hlf in Hlf'. injection Hlf' as <-. rewrite Hdeps. pose proof tasks_of_ids as Hids. split.
  - intros (k' & lf' & d & Hk' & Hlf' & Hd & Hy). assert (k' = k) as -> by (by eapply NoDup_lookup). rewrite Hlf in Hlf'. injection Hlf' as <-.
    rewrite <- Hids, list_lookup_fmap in Hy. apply fmap_Some in Hy as (n' & Hn' & ->). by exists d, n'.
  - intros (d & n' & Hd & Hn' & <-). exists k, lf, d. do 3 (split; [done|]). rewrite <- Hids at 1. by rewrite list_lookup_fmap, Hn'.
Qed.

(** Tasks rank as the leaves are numbered. *)
Lemma tasks_of_acyclic :
  (forall k lf d, template_leaves tm !! k = Some lf -> d ∈ tl_depends_on lf -> (d < k)%nat) -> acyclic ns.
Proof.
  intros Hback. set (rank := fun x : NodeId => from_option fst O (list_find (x =.) ids)).
  assert (Hrank : forall j x, ids !! j = Some x -> rank x = j).
  { intros j x Hj. unfold rank. destruct (list_find (x =.) ids) as [[j' x']|] eqn:Hf.
    - apply list_find_Some in Hf as (Hj' & <- & _). by eapply NoDup_lookup.
    - apply list_find_None in Hf. rewrite Forall_forall in Hf. by destruct (Hf x (list_elem_of_lookup_2 _ _ _ Hj)). }
  exists rank. intros n d [k Hn]%list_elem_of_lookup_1 Hd. destruct (tasks_of_lookup _ _ _ _ _ Hall Hn) as (id & lf & Hid & Hlf & -> & _ & _ & _ & Hdeps).
  destruct (proj1 (Hdeps d) Hd) as (k' & lf' & e & Hk' & Hlf' & He & Hd'). rewrite (Hrank _ _ Hd'), (Hrank _ _ Hk'). by eapply Hback.
Qed.
End tasks.

Lemma decomposed_plans now m t root tm urgent ts i ids (s : engine) (cs : csession) :
  authorize now m t READ = Ok tt -> authorize now m t WRITE = Ok tt ->
  sound (ie_graph s) -> decomposed (ie_graph s) (origin t) root tm urgent ts i ids -> finite_intent i -> orderly tm urgent ->
  exists cs' p, create_session now m t s root cs = Some (Ok (next_session_id cs), cs') /\ plans cs' = <[next_session_id cs := p]> (plans cs)
    /\ plans_template p root (i_utterance i) tm.
Proof.
  intros Hr Hw Hs Hdec Hfi [Hback Hfl]. pose proof (decomposed_reads _ _ _ _ _ _ _ _ _ _ Hr Hs Hdec Hfi Hfl) as [Hgraph Hdeps].
  destruct Hdec as [Hlen Hnd Hroot _ _ _ _]. unfold create_session, mbind, session_bind, require, updates, reads, of_result.
  rewrite Hw. cbn [is_ok].
  change (ig_get_graph now m t s root) with (match ran (get_graph now m t root s) with Ok l => Ok (leaf_of <$> l) | Err e => Err e end).
  rewrite Hgraph. cbn [ran map_err fmap list_fmap List.filter List.find leaf_id leaf_of i_id set_children set_id].
  rewrite N.eqb_refl. cbn [negb]. rewrite filter_leaves by done.
  destruct (task_nodes_ok now m t s (template_needs tm ids) ids (leaf_intent root urgent ts <$> template_leaves tm) Hdeps) as (ns & Hns & Hall).
  rewrite Hns. eexists _, _. split; [done|]. split; [done|].
  assert (Ht : tasks_of tm ids ns).
  { unfold tasks_of. rewrite zip_with_fmap_r in Hall. unfold zip. clear -Hall. revert ids ns Hall. generalize (template_needs tm) as P. intros P ids.
    generalize (P ids). clear P. intros P ns. revert ids ns. induction (template_leaves tm) as [|lf l IH]; intros [|id ids] ns Hall; inversion Hall; subst; try constructor; try done. by apply IH. }
  constructor; cbn [Coordination.root_intent root_utterance tasks].
  - done.
  - done.
  - rewrite (tasks_of_leaves tm ids ns Hlen Ht task_description (fun x => x)); [by rewrite list_fmap_id|]. by intros id pred n (_ & -> & _).
  - apply (tasks_of_leaves tm ids ns Hlen Ht). by intros id pred n (_ & _ & -> & _).
  - apply Forall_lookup. intros k n Hn. destruct (tasks_of_lookup _ _ _ _ _ Ht Hn) as (id & lf & _ & _ & Hn'). apply Hn'.
  - by rewrite (tasks_of_ids tm ids ns Hlen Ht).
  - by apply (tasks_of_needs tm ids ns Hlen Hnd Ht).
  - by apply (tasks_of_acyclic tm ids ns Hnd Ht).
Qed.

(** *** From an utterance to a plan *)

Context (infer : Instant -> M -> CapabilityToken -> text -> option text).

Definition template_for (now : Instant) (m : M) (t : CapabilityToken) (utterance : text) (s : engine) : option Template :=
  match match_template_with_plugins utterance (ie_workflows s) with Some tm => Some tm | None => generate_template infer now m t utterance end.

(** The graph whose plans an utterance cancels, if it is about one. *)
Definition cancels (utterance session : text) (s : engine) : option NodeId :=
  if mentions_any (to_lowercase utterance) CANCEL_KEYWORDS then active_graphs s !! session ≫= last else None.

(** The same graph and sessions. *)
Definition unmoved (s s' : engine) : Prop :=
  ie_graph s' = ie_graph s /\ think_mode_sessions s' = think_mode_sessions s.

Lemma ground_unmoved now m t utterance session (s s' : engine) r : ground now m t utterance session s = Some (r, s') -> unmoved s s'.
Proof.
  unfold ground. destruct (extract_mention utterance) as [[mention|]|]; cbn [mbind option_bind]; [|by intros [= <- <-]|done].
  destruct (cx_resolve _ _ _ _ _ _ _) as [[[id|l|]|e] c]; by intros [= <- <-].
Qed.

Lemma decompose_new now m t i tm urgent ts (s s1 s' : engine) root u :
  sound (ie_graph s) -> roomy (ie_graph s) (1 + objects_of tm) -> untouched s ->
  put_intent to_value outside now m t None i s = Some (Ok root, s1) ->
  decompose_and_record to_value outside now m t root i tm urgent ts s1 = Some (Ok u, s') ->
  sound (ie_graph s') /\ exists ids, decomposed (ie_graph s') (origin t) root tm urgent ts i ids.
Proof.
  intros Hs Hroom Hun Hput. apply put_new in Hput as (Hs1 & Hid & Hn1 & _ & _ & n & Hix & _ & _ & Hlive); [|done|unfold roomy in *; lia].
  apply (decompose_and_record_ok _ _ _ _ _ _ _ _ _ _ n); [done|unfold roomy in *; lia| |by rewrite Hix, apply_node_lookup, decide_True|done].
  intros id e. rewrite Hix. intros He. destruct (Hun id e He). lia.
Qed.

Lemma root_intent_finite utterance matched generated entities inferred ts : finite_intent (root_intent utterance matched generated entities inferred ts).
Proof. by destruct matched as [|], generated as [|]. Qed.

Lemma root_intent_utterance utterance matched generated entities inferred ts :
  i_utterance (root_intent utterance matched generated entities inferred ts) = utterance.
Proof. by destruct matched, generated. Qed.

(** An utterance that is broken down leaves the template in the graph. *)
#[local] Existing Instance intent_ret.
Lemma handled_decomposed fuel now m t utterance session (s s' : engine) tm root :
  sound (ie_graph s) -> roomy (ie_graph s) (1 + objects_of tm) -> untouched s ->
  cancels utterance session s = None -> session ∉ think_mode_sessions s -> template_for now m t utterance s = Some tm ->
  handle_utterance to_value outside secs infer fuel now m t utterance session s = Some (Ok (Submitted root), s') ->
  exists i ids ts, sound (ie_graph s') /\ i_utterance i = utterance /\ finite_intent i
    /\ decomposed (ie_graph s') (origin t) root tm (mentions_any (to_lowercase utterance) URGENCY_KEYWORDS) ts i ids.
Proof.
  intros Hs Hroom Hun Hcancel Hthink Htm. unfold handle_utterance, mbind, intent_bind. cbn [modifies asks].
  unfold cancels, mbind in Hcancel. cbn [active_graphs with_context record_turn with_memories ie_workflows]. rewrite Hcancel.
  set (s0 := with_context (record_turn session utterance s) _).
  change (ie_workflows s0) with (ie_workflows s). unfold template_for in Htm. set (matched := match_template_with_plugins utterance (ie_workflows s)) in *.
  destruct ((match matched with Some _ => mret (Grounded [] []) | None => ground now m t utterance session end) s0) as [[[gr|e] s1]|] eqn:Hg; [|done..].
  assert (Hmove : unmoved s s1).
  { destruct matched; [injection Hg as _ <-; done|]. apply ground_unmoved in Hg as [Hg1 Hg2]. by split; rewrite ?Hg1, ?Hg2. }
  destruct Hmove as [Hgr Hth]. destruct gr as [entities inferred|mention l]; [|done].
  set (generated := match matched with Some _ => None | None => _ end). set (i := root_intent _ _ _ _ _ _).
  assert (Hpick : match matched with Some tm => Some tm | None => generated end = Some tm) by (by subst generated; destruct matched).
  destruct (put_intent _ _ _ _ _ _ _ s1) as [[[r|e] s2]|] eqn:Hput; [|done..]. rewrite Hpick.
  assert (Hno : is_think_mode s2 session = false).
  { apply bool_decide_eq_false. unfold put_intent in Hput. destruct (put_node _ _ _ _ _ _ _ _ _ _ _ _ _) as [[? ?] ?]. injection Hput as _ <-. by rewrite <- Hth in Hthink. }
  rewrite Hno. destruct (decompose_and_record _ _ _ _ _ _ _ _ _ _ s2) as [[[u|e] s3]|] eqn:Hdec; [|done..]. intros [= -> <-].
  rewrite <- Hgr in Hs, Hroom. assert (Hun1 : untouched s1) by (unfold untouched; by rewrite Hgr).
  apply (decompose_new _ _ _ _ _ _ _ _ _ _ _ _ Hs Hroom Hun1 Hput) in Hdec as (Hs3 & ids & Hd).
  exists i, ids, (secs (ie_tick s0)). split; [done|]. split; [apply root_intent_utterance|]. split; [apply root_intent_finite|]. done.
Qed.

(** C27. An utterance becomes a plan. Let a template fit what is said, or let the model make
    one up, in which every leaf depends on earlier ones (as in those the model makes up
    and in the one built in); and let the utterance cancel nothing, and the session not be
    one that thinks first. If the utterance is accepted, then a session of coordination
    can be created for it: its plan keeps the words said, has one fresh task for each
    leaf of the template, in order, that waits for exactly those of the leaves it depends
    on, and its ids are distinct and no tasks wait for each other. *)
Theorem utterances_become_plans fuel now m t utterance session (s s' : engine) tm root now' (cs : csession) :
  authorize now' m t READ = Ok tt -> authorize now' m t WRITE = Ok tt ->
  sound (ie_graph s) -> roomy (ie_graph s) (1 + objects_of tm) -> untouched s ->
  cancels utterance session s = None -> session ∉ think_mode_sessions s ->
  template_for now m t utterance s = Some tm -> orderly tm (mentions_any (to_lowercase utterance) URGENCY_KEYWORDS) ->
  handle_utterance to_value outside secs infer fuel now m t utterance session s = Some (Ok (Submitted root), s') ->
  exists cs' p, create_session now' m t s' root cs = Some (Ok (next_session_id cs), cs') /\ plans cs' = <[next_session_id cs := p]> (plans cs)
    /\ plans_template p root utterance tm.
Proof.
  intros Hr Hw Hs Hroom Hun Hc Hth Htm Hord Hh.
  destruct (handled_decomposed _ _ _ _ _ _ _ _ _ _ Hs Hroom Hun Hc Hth Htm Hh) as (i & ids & ts & Hs' & <- & Hfin & Hdec).
  by eapply decomposed_plans.
Qed.
End engines.

(** ** Examples *)

Module IntentExample.
Import Crypto.Toy Wal.ToyRecords Storage.StorageExample KnowledgeGraph.GraphExample Recovery.RecoveryExample Explainability.ExplainExample CoordinationExample.

(** A few characters of the tables: ASCII, and two capitals whose lower case has another
    length, U+0130 (two bytes, then three) and U+212A (three bytes, then one). *)
Definition lower_of (c : N) : text := if c =? 304 then [105; 775] else if c =? 8490 then [107] else [ascii_lower c].

#[export, refine] Instance some_unicode : Unicode := {|
  to_lowercase s := s ≫= lower_of;
  is_alphanumeric c := ((48 <=? c) && (c <=? 57)) || ((65 <=? c) && (c <=? 90)) || ((97 <=? c) && (c <=? 122));
  is_whitespace c := (c =? 32) || ((9 <=? c) && (c <=? 13))
|}.
Proof.
  intros s Hs. induction Hs as [|c s Hc _ IH]; [done|]. cbn. unfold lower_of at 1.
  destruct (N.eqb_spec c 304) as [->|_]; [done|]. destruct (N.eqb_spec c 8490) as [->|_]; [done|]. cbn. f_equal. exact IH.
Defined.

(** An intent as a number. *)
Definition status_code (s : IntentStatus) : N :=
  match s with Proposed => 0 | Planned => 1 | IntentExecuting => 2 | IntentCompleted => 3 | Abandoned => 4 | Superseded => 5 end.
Definition code_status (n : N) : IntentStatus :=
  match n with 0 => Proposed | 1 => Planned | 2 => IntentExecuting | 3 => IntentCompleted | 4 => Abandoned | _ => Superseded end.
Definition f32_code (x : f32) : N := N.pos (countable.encode x).
Definition code_f32 (n : N) : f32 := match n with N.pos p => default f32_zero (countable.decode p) | 0 => f32_zero end.

Definition fields (i : Intent) : list (list N) :=
  [i_utterance i; i_predicate i; [status_code (i_status i); f32_code (i_priority i); f32_code (i_confidence i); i_version i; i_created i; i_updated i];
   option_list (i_parent i); i_children i; i_grounded i] ++ i_inferred i.
Definition of_fields (l : list (list N)) : option Intent :=
  match l with
  | utterance :: pred :: [st; pr; conf; v; created; updated] :: parent :: children :: grounded :: inferred =>
      Some (mkIntent 0 utterance pred (code_status st) (code_f32 pr) (code_f32 conf) (head parent) children grounded inferred v created updated)
  | _ => None
  end.

#[export, refine] Instance numbered_intents : IntentJson N := {|
  intent_to_value i := N.pos (countable.encode (fields i));
  intent_from_value v := match v with N.pos p => countable.decode p ≫= of_fields | 0 => None end
|}.
Proof.
  intros [id utt pred st pr conf parent children grounded inferred v created updated] _ _. rewrite countable.decode_encode. cbn.
  unfold f32_code, code_f32. rewrite !countable.decode_encode. unfold set_id. cbn. by destruct st, parent.
Defined.

(** A context in which nothing is known, and a model with two ideas. *)
#[export] Instance no_context : ContextResolver N unit unit := {|
  ContextError := unit;
  cx_resolve := fun _ _ _ _ c _ _ => (Ok EntityNotFound, c);
  cx_record_utterance := fun c _ _ => c
|}.
Definition ideas (_ : Instant) (_ : unit) (_ : CapabilityToken) (_ : text) : option text := Some (lit "Draft an outline" ++ [10; 10] ++ lit "write it").

Definition five (_ : Rec) : N := 5.
Definition zero_secs (_ : nat) : N := 0.

Abbreviation engine := (IntentEngine (V := N) (C := unit) (X := ExplanationStore)).
Definition engine_with (workflows : list AutomationWorkflowContribution) : engine := new_engine graph0 tt Explainability.new workflows.

Abbreviation hear t utterance := (handle_utterance (M := unit) five inputs zero_secs ideas 10 0 tt t (lit utterance) (lit "s1")).
Abbreviation depend t a b others := (add_dependency (M := unit) five inputs 0 tt t a b others).
Abbreviation awaits t a := (depends_on_targets (M := unit) 0 tt t a).

Definition then_ {T : Type} (s : engine) (o : option (Result T IntentError * engine)) : engine := match o with Some (_, s) => s | None => s end.
Definition answer {T : Type} (o : option (Result T IntentError * engine)) : option (option T) := (fun x => match x.1 with Ok a => Some a | Err _ => None end) <$> o.
Definition well {T : Type} (o : option (Result T IntentError * engine)) : option bool := (fun x => is_ok x.1) <$> o.

(** The graph at node 0. *)
Definition shown {T : Type} (f : Intent -> T) (s : engine) : list T :=
  match get_graph (M := unit) 0 tt user 0 s with Some (Ok l, _) => f <$> l | _ => [] end.

Definition founded : engine := then_ (engine_with []) (hear user "Launch my startup" (engine_with [])).

(** The root is node 0, its leaves 1 to 4. *)
Example a_startup :
  answer (hear user "Launch my startup" (engine_with [])) = Some (Some (Submitted 0))
  /\ answer (awaits user 2 founded) = Some (Some [1]) /\ answer (awaits user 4 founded) = Some (Some [3])
  /\ shown (fun i => (i_id i, i_status i)) founded = [(0, Planned); (1, IntentExecuting); (2, Planned); (3, Planned); (4, Planned)].
Proof. vm_compute. done. Qed.

Example made_up :
  let s := then_ (engine_with []) (hear user "Write a book" (engine_with [])) in
  shown i_predicate s = [lit "generic_goal"; lit "draft_an_outline"; lit "write_it"]
  /\ answer (awaits user 2 s) = Some (Some [1]).
Proof. vm_compute. done. Qed.

(** The check and the link are two steps: what another caller links in between is not
    seen, and two leaves wait for each other. *)
Definition other_caller (s : engine) : engine := then_ s (depend user 3 2 (fun s => s) s).

Example check_and_link_are_two_steps :
  let s := then_ founded (depend user 2 3 other_caller founded) in
  well (depend user 2 3 (fun s => s) (other_caller founded)) = Some false
  /\ well (depend user 2 3 other_caller founded) = Some true
  /\ answer (awaits user 2 s) = Some (Some [1; 3]) /\ answer (awaits user 3 s) = Some (Some [1; 2]).
Proof. vm_compute. done. Qed.

(** A dependency that was deleted is not added again, though the call says so. *)
Definition unlinked (s : engine) (id : N) : engine := with_store s (unlink five 0 tt user (ie_graph s) id toy_nonce Written).1.2.

Example deleted_dependency_stays_away :
  let s := unlinked founded 5 in
  answer (awaits user 2 founded) = Some (Some [1]) /\ answer (awaits user 2 s) = Some (Some [])
  /\ well (depend user 2 1 (fun s => s) s) = Some true /\ answer (awaits user 2 (then_ s (depend user 2 1 (fun s => s) s))) = Some (Some []).
Proof. vm_compute. done. Qed.

(** Anybody may link a node to another, and then its owner can no longer read what it
    depends on. *)
Definition tied (s : engine) : engine := then_ s (link_intents five inputs 0 tt mallory 2 2 (lit "mine") s).

Example a_strangers_edge :
  well (awaits user 2 founded) = Some true /\ well (awaits user 2 (tied founded)) = Some false
  /\ well (depend user 3 2 (fun s => s) (tied founded)) = Some false.
Proof. vm_compute. done. Qed.

(** A plugin's workflow may depend on a leaf it does not have, or on itself. *)
Definition party (deps : list nat) : list AutomationWorkflowContribution := [mkWorkflow [lit "party"] (lit "party") [PluginReview.mkLeaf (lit "cake") deps]].

Example workflows_are_not_checked :
  hear user "Throw a party" (engine_with (party [1%nat])) = None
  /\ answer (awaits user 1 (then_ (engine_with []) (hear user "Throw a party" (engine_with (party [0%nat]))))) = Some (Some [1]).
Proof. vm_compute. done. Qed.

(** The position of the mention is one of the lower-case text. *)
Example mentions_are_cut_elsewhere :
  extract_mention (lit "Work on report.") = Some (Some (lit "report"))
  /\ extract_mention ([304] ++ lit " on report.") = Some (Some (lit "eport"))
  /\ extract_mention ([8490] ++ lit " on report.") = Some (Some (lit "n report"))
  /\ extract_mention ([304] ++ lit " on " ++ [233]) = None.
Proof. vm_compute. done. Qed.

(** Keywords are found inside other words. *)
Example keywords_inside_words :
  mentions_any (to_lowercase (lit "I want to know more")) URGENCY_KEYWORDS = true
  /\ shown i_status (then_ founded (hear user "Find a stopwatch" founded)) = [Abandoned; Abandoned; Abandoned; Abandoned; Abandoned].
Proof. vm_compute. done. Qed.
End IntentExample.

Section witnesses.
Import Crypto.Toy Wal.ToyRecords Storage.StorageExample KnowledgeGraph.GraphExample Recovery.RecoveryExample Explainability.ExplainExample CoordinationExample IntentExample.

Lemma engine0_graph_sound : sound graph0.
Proof.
  split; constructor; intros; try done.
  - change (id ∈ ([] : list N) <-> exists e : EdgeRecord, (∅ : gmap EdgeId EdgeRecord) !! id = Some e /\ subject e = x).
    rewrite elem_of_nil. split; [done|]. by intros (e & He & _).
  - change (id ∈ ([] : list N) <-> exists e : EdgeRecord, (∅ : gmap EdgeId EdgeRecord) !! id = Some e /\ target e = x).
    rewrite elem_of_nil. split; [done|]. by intros (e & He & _).
Defined.

Lemma untouched0 : untouched (engine_with []).
Proof. intros id e He. change ((∅ : gmap EdgeId EdgeRecord) !! id = Some e) in He. by rewrite lookup_empty in He. Defined.

Lemma founded_heard : hear user "Launch my startup" (engine_with []) = Some (Ok (Submitted 0), founded).
Proof. vm_compute. reflexivity. Defined.

Lemma founded_sound : sound (ie_graph founded).
Proof.
  destruct (handled_decomposed five inputs zero_secs ideas 10 0 tt user (lit "Launch my startup") (lit "s1") (engine_with []) founded startup 0)
    as (i & ids & ts & Hs & _).
  - apply engine0_graph_sound.
  - by vm_compute.
  - apply untouched0.
  - by vm_compute.
  - apply not_elem_of_empty.
  - by vm_compute.
  - apply founded_heard.
  - exact Hs.
Defined.

Lemma founded_acyclic : acyclic_graph (index (ie_graph founded)).
Proof.
  assert (Hdown : map_Forall (fun _ e => target e < subject e) (edges (index (ie_graph founded)))) by (apply (bool_decide_unpack _); by vm_compute).
  assert (Htc : forall x y, tc (needs (index (ie_graph founded))) x y -> y < x).
  { assert (Hstep : forall x y, needs (index (ie_graph founded)) x y -> y < x).
    { intros x y (id & e & He & _ & Htr). apply Hdown in He. injection Htr as <- _ <-. exact He. }
    induction 1 as [x y Hxy|x y z Hxy _ IH]; [by apply Hstep|]. apply Hstep in Hxy. lia. }
  intros x Hx%Htc. lia.
Defined.

(** Branding may come after the business model, which then cannot wait for it. *)
Lemma dependencies_stay_acyclic_witness :
  exists r s', depend user 3 2 (fun s => s) founded = Some (r, s') /\ r = Ok tt /\ acyclic_graph (index (ie_graph s')).
Proof.
  destruct (dependencies_stay_acyclic five inputs 0 tt user 3 2 (fun s => s) founded founded_sound) as (r & s' & Hadd & _ & Hac & _).
  - apply founded_acyclic.
  - exact founded_sound.
  - by vm_compute.
  - done.
  - exists r, s'. split; [exact Hadd|]. split; [|exact Hac]. assert (Hok : answer (depend user 3 2 (fun s => s) founded) = Some (Some tt)) by (by vm_compute).
    rewrite Hadd in Hok. by destruct r as [[]|].
Defined.

Definition fresh_coordination : CoordinationSession (V := N) (G := graph) (A := unit) (X := unit) (I := engine) (B := unit) (Mem := unit) :=
  new_with_shared_explanations tt (Recovery.mkWorld graph0 0) tt.

(** The startup is planned. *)
Lemma utterances_become_plans_witness :
  exists cs' p, create_session (H3 := engine_intents five inputs zero_secs) 1 tt user founded 0 fresh_coordination = Some (Ok 1, cs')
    /\ plans cs' !! 1 = Some p /\ plans_template p 0 (lit "Launch my startup") startup.
Proof.
  destruct (utterances_become_plans five inputs zero_secs ideas 10 0 tt user (lit "Launch my startup") (lit "s1") (engine_with []) founded startup 0 1 fresh_coordination)
    as (cs' & p & Hc & Hp & Ht).
  - by vm_compute.
  - by vm_compute.
  - apply engine0_graph_sound.
  - by vm_compute.
  - apply untouched0.
  - by vm_compute.
  - apply not_elem_of_empty.
  - by vm_compute.
  - apply startup_orderly.
  - apply founded_heard.
  - exists cs', p. split; [exact Hc|]. split; [|exact Ht]. by rewrite Hp, lookup_insert_eq.
Defined.
End witnesses.
