(* ===== verification/SemanticFs.v ===== *)
(** The semantic file system: [crates/hyperion-semantic-fs/src], [types.rs], [path.rs],
    [engine.rs] and [posix.rs].

    Objects of the knowledge graph get paths, made up when they are first listed and kept
    from then on; queries become folders; and a mount serves the calls of the kernel. Text
    is the bytes of UTF-8. [serde_json]'s text is a class; what arrived from the event bus
    since the last look, and how much of a listing the kernel takes, are arguments. *)
From S2P Require Import Prelude Crypto Capability Authority Wal Storage DebugFmt Events F32 Json KnowledgeGraph NodeStore Explainability PluginReview Identity Coordination Text Memory Intent.
Open Scope N_scope.

Abbreviation text := (list N).

Definition slash : N := 47.

(** [str::split_once] and [rsplit_once] at a slash. *)
Fixpoint split_once (s : text) : option (text * text) :=
  match s with
  | [] => None
  | c :: s => if c =? slash then Some ([], s) else '(a, b) ← split_once s; Some (c :: a, b)
  end.
Definition rsplit_once (s : text) : option (text * text) :=
  '(b, a) ← split_once (rev s); Some (rev a, rev b).

(** [str::strip_prefix] *)
Fixpoint strip_prefix (p s : text) : option text :=
  match p, s with
  | [], _ => Some s
  | a :: p, b :: s => if a =? b then strip_prefix p s else None
  | _ :: _, [] => None
  end.

(** ** types.rs *)

Record QuerySpec := mkSpec {
  anchor : option NodeId;
  hop_bound : nat;
  predicate_filter : option (list text);
  qs_type_filter : option (list text);
  qs_embedding : option (list f32);
  qs_k : nat;
  qs_ttl : N
}.

(** Anchor, hops, predicates, types and [k]. *)
Abbreviation QueryCacheKey := (option NodeId * nat * option (list text) * option (list text) * nat)%type.

Definition from_spec (q : QuerySpec) : option QueryCacheKey :=
  match qs_embedding q with
  | Some _ => None
  | None => Some (anchor q, hop_bound q, predicate_filter q, qs_type_filter q, qs_k q)
  end.

Record VirtualFolder := mkFolder {
  folder_id : N;
  query_spec : QuerySpec;
  member_object_ids : list NodeId;
  materialized_at : N;
  vf_ttl : N;
  snapshot_token : N
}.

Record DirEntry := mkDirEntry {
  de_path : text;
  de_object : NodeId
}.

(** ** path.rs *)

Record PathEntry := mkPathEntry {
  pe_path : text;
  is_collection : bool
}.

Record PathMappingCache := mkCache {
  pc_forward : gmap NodeId PathEntry;
  pc_reverse : gmap text NodeId
}.

Definition empty_cache : PathMappingCache := mkCache ∅ ∅.
Definition resolve (c : PathMappingCache) (path : text) : option NodeId := pc_reverse c !! path.

Definition suffixed (base : text) (k : N) : text := base ++ lit "-" ++ debug_u64 k.

(** [None] if the fuel is not enough. *)
Fixpoint free_path (fuel : nat) (taken : gmap text NodeId) (base : text) (suffix : N) (path : text) : option text :=
  match taken !! path with
  | None => Some path
  | Some _ =>
      match fuel with
      | O => None
      | S fuel => let suffix := (suffix + 1) mod two32 in free_path fuel taken base suffix (suffixed base suffix)
      end
  end.

Definition synthesize_one (c : PathMappingCache) (id : NodeId) (base : text) : option (text * PathMappingCache) :=
  match pc_forward c !! id with
  | Some e => Some (pe_path e, c)
  | None =>
      path ← free_path (size (pc_reverse c)) (pc_reverse c) base 1 base;
      Some (path, mkCache (<[id := mkPathEntry path false]> (pc_forward c)) (<[path := id]> (pc_reverse c)))
  end.

(** The results are filled in at the places of the candidates. *)
Fixpoint synthesize_each (c : PathMappingCache) (results : list text) (l : list (nat * (NodeId * text))) : option (list text * PathMappingCache) :=
  match l with
  | [] => Some (results, c)
  | (i, (id, base)) :: l => '(path, c) ← synthesize_one c id base; synthesize_each c (<[i := path]> results) l
  end.

Definition synthesize_batch (c : PathMappingCache) (candidates : list (NodeId * text)) : option (list text * PathMappingCache) :=
  synthesize_each c (replicate (length candidates) []) (sort_by_key (fun x => x.2.1) (imap pair candidates)).

Definition pin_path (c : PathMappingCache) (path : text) (id : NodeId) (coll : bool) : PathMappingCache :=
  let reverse := match pc_forward c !! id with
                 | Some old => if bool_decide (pe_path old = path) then pc_reverse c else delete (pe_path old) (pc_reverse c)
                 | None => pc_reverse c
                 end in
  mkCache (<[id := mkPathEntry path coll]> (pc_forward c)) (<[path := id]> reverse).

(** ** engine.rs *)

Definition sanitize_path_segment (s : text) : text := (fun c => if c =? slash then 45 else c) <$> s.

Definition candidate_of (x : NodeId * NodeRecord (V := Json)) : NodeId * text :=
  let md := node_metadata x.2 in
  let title := (match json_get md (lit "title") with Some v => Some v | None => json_get md (lit "name") end) ≫= as_str in
  (x.1, object_type x.2 ++ [slash] ++ from_option sanitize_path_segment (lit "object-" ++ debug_u64 x.1) title).

(** [serde_json]: text and values. What is printed is read back if numbers are integers
    of 64 bits, strings are characters, the fields of objects come in the order of their
    names and once each (as in its [Map]), and arrays and objects are nested less than 128
    deep, where the reader gives up. Nothing is promised of floats, which the default
    reader may round. *)
Definition char_ok (c : N) : bool := (c <? 1114112) && negb ((55296 <=? c) && (c <=? 57343)).
Fixpoint sorted_keys (l : list (text * Json)) : bool :=
  match l with
  | (k, _) :: (((k', _) :: _) as l') => text_leb k k' && negb (bool_decide (k = k')) && sorted_keys l'
  | _ => true
  end.
Fixpoint printable_within (depth : nat) (v : Json) : bool :=
  match v with
  | JFloat _ => false
  | JNumber n => n <? two64
  | JNegative n => N.pos n <=? 9223372036854775808
  | JString s => forallb char_ok s
  | JArray l => match depth with O => false | S d => forallb (printable_within d) l end
  | JObject l =>
      match depth with
      | O => false
      | S d => sorted_keys l && forallb (fun kv => forallb char_ok kv.1 && printable_within d kv.2) l
      end
  | _ => true
  end.
Definition printable : Json -> bool := printable_within 127.
Class JsonBytes := {
  json_bytes : Json -> list N;
  json_parse : list N -> option Json;
  json_parse_bytes : forall v, printable v = true -> json_parse (json_bytes v) = Some v
}.

Section engine.
Context `{Codec (WalRecord Json)} `{Aead} `{HashIter} {M : Type} `{Authority M} {C : Type} `{ContextResolver Json M C}.
Context (to_value : Record_ (V := Json) -> Json) (outside : nat -> WriteEnv) (secs : nat -> N).

Abbreviation kg := (KnowledgeGraph (V := Json)).

Inductive FsError : Type :=
| FsUnauthorized
| FsGraph (e : GraphError)
| FsContext (e : ContextError)
| FolderNotFound
| PathNotFound
| NoAnchor.

Inductive AnchorResolution : Type := AnchorSpec (q : QuerySpec) | AnchorAmbiguous (l : list NodeId) | AnchorNotFound.

Record SemanticFilesystem := mkFs {
  fs_graph : kg;
  fs_tick : nat;
  fs_context : C;
  folders : gmap N VirtualFolder;
  folder_cache : gmap QueryCacheKey N;
  path_cache : PathMappingCache;
  fs_next_id : N;
  (** the subscription *)
  invalidation : option N
}.

Definition new_fs (g : kg) (c : C) : SemanticFilesystem := mkFs g 0 c ∅ ∅ empty_cache 1 None.

Definition with_fs_graph (s : SemanticFilesystem) (g : kg) :=
  mkFs g (S (fs_tick s)) (fs_context s) (folders s) (folder_cache s) (path_cache s) (fs_next_id s) (invalidation s).
Definition with_fs_context (s : SemanticFilesystem) (c : C) :=
  mkFs (fs_graph s) (fs_tick s) c (folders s) (folder_cache s) (path_cache s) (fs_next_id s) (invalidation s).
Definition with_folders (s : SemanticFilesystem) (f : gmap N VirtualFolder) (k : gmap QueryCacheKey N) (n : N) :=
  mkFs (fs_graph s) (fs_tick s) (fs_context s) f k (path_cache s) n (invalidation s).
Definition with_path_cache (s : SemanticFilesystem) (c : PathMappingCache) :=
  mkFs (fs_graph s) (fs_tick s) (fs_context s) (folders s) (folder_cache s) c (fs_next_id s) (invalidation s).

(** An operation may fail; [None] where a loop does not end. *)
Definition FsM (T : Type) : Type := SemanticFilesystem -> option (Result T FsError * SemanticFilesystem).

#[local] Instance fs_ret : MRet FsM := fun T a s => Some (Ok a, s).
#[local] Instance fs_bind : MBind FsM := fun T U k e s =>
  match e s with
  | Some (Ok a, s) => k a s
  | Some (Err f, s) => Some (Err f, s)
  | None => None
  end.

Definition fs_reads {T : Type} (f : SemanticFilesystem -> T) : FsM T := fun s => Some (Ok (f s), s).
Definition fs_gives {T : Type} (r : Result T FsError) : FsM T := fun s => Some (r, s).
Definition fs_changes (f : SemanticFilesystem -> SemanticFilesystem) : FsM unit := fun s => Some (Ok tt, f s).
Definition fs_views {T : Type} (f : kg -> Result T GraphError) : FsM T := fun s => Some (map_err FsGraph (f (fs_graph s)), s).
Definition fs_require (now : Instant) (m : M) (t : CapabilityToken) (r : RightsMask) : FsM unit :=
  fs_gives (map_err (fun _ => FsUnauthorized) (authorize now m t r)).

Definition fs_put (now : Instant) (m : M) (t : CapabilityToken) (id : option NodeId) (ty : text) (md : Json) : FsM NodeId := fun s =>
  let env := outside (fs_tick s) in
  let '(r, g) := (put_node to_value now m t (fs_graph s) id ty None md (we_wall1 env) (we_wall2 env) (we_nonce env) (we_io env)).1 in
  Some (map_err FsGraph r, with_fs_graph s g).
Definition member_of (now : Instant) (m : M) (t : CapabilityToken) (a b : NodeId) : FsM unit := fun s =>
  let env := outside (fs_tick s) in
  let '(r, g) := (link to_value now m t (fs_graph s) a (lit "member_of") b f32_one Explicit None (lit "user_explicit") None
                    (we_wall1 env) (we_wall2 env) (we_nonce env) (we_io env)).1 in
  Some (match r with Ok _ => Ok tt | Err e => Err (FsGraph e) end, with_fs_graph s g).

(** *** Events *)

Definition with_events (now : Instant) (m : M) (admin : CapabilityToken) (bus : EventBus (V := Json)) (s : SemanticFilesystem) :
    Result SemanticFilesystem FsError * EventBus (V := Json) :=
  match subscribe now m admin bus (origin admin) (KindScoped ObjectChanged) AtMostOnce (Buffer 256) true with
  | (Ok id, bus) => (Ok (mkFs (fs_graph s) (fs_tick s) (fs_context s) (folders s) (folder_cache s) (path_cache s) (fs_next_id s) (Some id)), bus)
  | (Err _, bus) => (Err FsUnauthorized, bus)
  end.

(** The objects an event is about. *)
Definition changed_by (e : Event (V := Json)) : list NodeId :=
  match payload e with Inline v => option_list (as_u64 (json_index v (lit "object_id"))) | ObjectRef _ _ => [] end ++ ancestors e.

Definition is_stale (changed : list NodeId) (f : VirtualFolder) : bool :=
  from_option (fun a => bool_decide (a ∈ changed)) false (anchor (query_spec f)) || existsb (fun x => bool_decide (x ∈ changed)) (member_object_ids f).

(** [received] is what the subscription has to give. *)
Definition drain_invalidations (received : list (Event (V := Json))) (s : SemanticFilesystem) : SemanticFilesystem :=
  match invalidation s with
  | None => s
  | Some _ =>
      let changed := received ≫= changed_by in
      match changed with
      | [] => s
      | _ =>
          let stale : gset N := dom (filter (fun kf => is_stale changed kf.2 = true) (folders s)) in
          with_folders s (filter (fun kf => kf.1 ∉ stale) (folders s)) (filter (fun kf => kf.2 ∉ stale) (folder_cache s)) (fs_next_id s)
      end
  end.

(** *** Queries *)

Definition resolve_query_from_mention (now : Instant) (m : M) (t : CapabilityToken) (mention session : text) (hops k : nat) : FsM AnchorResolution :=
  fun s =>
    let '(r, c) := cx_resolve now m t (fs_graph s) (fs_context s) mention session in
    Some (match r with
          | Err e => Err (FsContext e)
          | Ok (EntityResolved id) => Ok (AnchorSpec (mkSpec (Some id) hops None None None k 300))
          | Ok (EntityAmbiguous l) => Ok (AnchorAmbiguous l)
          | Ok EntityNotFound => Ok AnchorNotFound
          end, with_fs_context s c).

(** A folder for the same query that has not run out. *)
Definition cached_folder (s : SemanticFilesystem) (key : option QueryCacheKey) : option VirtualFolder :=
  key ← key;
  id ← folder_cache s !! key;
  f ← folders s !! id;
  if secs (fs_tick s) <=? u64_add (materialized_at f) (vf_ttl f) then Some f else None.

Definition relational (now : Instant) (m : M) (t : CapabilityToken) (g : kg) (a : NodeId) (q : QuerySpec) : Result (list (NodeId * nat)) GraphError :=
  match hop_bound q with
  | O => Ok [(a, O)]
  | _ => let? sub := traverse now m t g a (predicate_filter q) (hop_bound q) in Ok ((fun x => (x.1.1, x.2)) <$> sub_nodes sub)
  end.

(** Those that are not there yet, at the end. *)
Definition merge_hits (l : list NodeId) (hits : list (QueryHit (V := Json))) : list NodeId :=
  fold_left (fun l h => if bool_decide (node_id h ∈ l) then l else l ++ [node_id h]) hits l.

Definition members (now : Instant) (m : M) (t : CapabilityToken) (g : kg) (a : NodeId) (q : QuerySpec) : Result (list NodeId) GraphError :=
  let? rel := relational now m t g a q in
  let l := fst <$> sort_by_key (fun x => N.of_nat x.2) rel in
  match qs_embedding q with
  | None => Ok l
  | Some e => let? hits := KnowledgeGraph.query now m t g (mkQuery (qs_type_filter q) (Some e) None None None (qs_k q)) in Ok (merge_hits l hits)
  end.

Definition query (now : Instant) (m : M) (t : CapabilityToken) (q : QuerySpec) (received : list (Event (V := Json))) : FsM VirtualFolder :=
  fs_require now m t READ;;
  a ← fs_gives (ok_or (anchor q) NoAnchor);
  fs_changes (drain_invalidations received);;
  key ← fs_reads (fun s => _ ← invalidation s; from_spec q);
  hit ← fs_reads (fun s => cached_folder s key);
  match hit with
  | Some f => mret f
  | None =>
      l ← fs_views (fun g => members now m t g a q);
      id ← fs_reads fs_next_id;
      at_ ← fs_reads (fun s => secs (fs_tick s));
      let f := mkFolder id q l at_ (qs_ttl q) id in
      fs_changes (fun s => with_folders s (<[id := f]> (folders s))
                             (match key with Some k => <[k := id]> (folder_cache s) | None => folder_cache s end) (u64_add id 1));;
      mret f
  end.

(** *** Paths *)

Definition build_dir_entries (l : list (NodeId * NodeRecord (V := Json))) : FsM (list DirEntry) := fun s =>
  '(paths, c) ← synthesize_batch (path_cache s) (candidate_of <$> l);
  Some (Ok (zip_with mkDirEntry paths (fst <$> l)), with_path_cache s c).

Fixpoint get_each (now : Instant) (m : M) (t : CapabilityToken) (g : kg) (ids : list NodeId) : Result (list (NodeId * NodeRecord (V := Json))) GraphError :=
  match ids with
  | [] => Ok []
  | id :: ids => let? n := KnowledgeGraph.get now m t g id in let? l := get_each now m t g ids in Ok ((id, n) :: l)
  end.

Definition materialize (now : Instant) (m : M) (t : CapabilityToken) (id : N) : FsM (list DirEntry) :=
  fs_require now m t READ;;
  found ← fs_reads (fun s => folders s !! id);
  f ← fs_gives (ok_or found FolderNotFound);
  l ← fs_views (fun g => get_each now m t g (member_object_ids f));
  build_dir_entries l.

Definition all_paths (now : Instant) (m : M) (t : CapabilityToken) : FsM (list DirEntry) :=
  fs_require now m t READ;;
  snap ← fs_views (fun g => dump now m t g);
  build_dir_entries (snap_nodes snap).

Definition get_folder (s : SemanticFilesystem) (id : N) : option VirtualFolder := folders s !! id.

Definition get_object (now : Instant) (m : M) (t : CapabilityToken) (id : NodeId) : FsM (NodeRecord (V := Json)) :=
  fs_require now m t READ;; fs_views (fun g => KnowledgeGraph.get now m t g id).

Definition pins (path : text) (id : NodeId) (coll : bool) : FsM unit :=
  fs_changes (fun s => with_path_cache s (pin_path (path_cache s) path id coll)).

Definition mkcollection (now : Instant) (m : M) (t : CapabilityToken) (name : text) (parent : option NodeId) : FsM NodeId :=
  fs_require now m t WRITE;;
  id ← fs_put now m t None (lit "collection") (JObject [(lit "name", JString name)]);
  match parent with None => mret tt | Some p => member_of now m t id p end;;
  pins name id true;;
  mret id.

Definition add_to_collection (now : Instant) (m : M) (t : CapabilityToken) (id coll : NodeId) : FsM unit :=
  fs_require now m t WRITE;; member_of now m t id coll.

Definition resolve_path (now : Instant) (m : M) (t : CapabilityToken) (path : text) : FsM NodeId :=
  fs_require now m t READ;;
  found ← fs_reads (fun s => resolve (path_cache s) path);
  fs_gives (ok_or found PathNotFound).

Definition type_of_path (path : text) : text :=
  match (match split_once path with Some (a, _) => a | None => path end) with [] => lit "document" | ty => ty end.

(** The collection a path lies in. *)
Definition parent_collection (c : PathMappingCache) (path : text) : option NodeId :=
  '(parent, _) ← rsplit_once path;
  id ← resolve c parent;
  e ← pc_forward c !! id;
  if is_collection e then Some id else None.

Definition write_back (now : Instant) (m : M) (t : CapabilityToken) (path : text) (md : Json) : FsM NodeId :=
  fs_require now m t WRITE;;
  existing ← fs_reads (fun s => resolve (path_cache s) path);
  id ← fs_put now m t existing (type_of_path path) md;
  parent ← fs_reads (fun s => parent_collection (path_cache s) path);
  match parent with None => mret tt | Some p => member_of now m t id p end;;
  pins path id false;;
  mret id.
End engine.

(** ** posix.rs *)

Definition ROOT_INO : N := 1.

Inductive ChildKind : Type := Directory | File (id : NodeId).

Definition full_path (parent name : text) : text := match parent with [] => name | _ => parent ++ [slash] ++ name end.

(** A [BTreeMap]: the names are in order. *)
Fixpoint insert_child (name : text) (k : ChildKind) (l : list (text * ChildKind)) : list (text * ChildKind) :=
  match l with
  | [] => [(name, k)]
  | (name', k') :: l => if bool_decide (name = name') then (name, k) :: l
                        else if text_leb name name' then (name, k) :: (name', k') :: l else (name', k') :: insert_child name k l
  end.
Fixpoint child (name : text) (l : list (text * ChildKind)) : option ChildKind :=
  match l with [] => None | (name', k) :: l => if bool_decide (name = name') then Some k else child name l end.

Definition scan_entry (prefix : text) (l : list (text * ChildKind)) (e : DirEntry) : list (text * ChildKind) :=
  match strip_prefix (match prefix with [] => [] | _ => prefix ++ [slash] end) (de_path e) with
  | None | Some [] => l
  | Some rest =>
      match split_once rest with
      | Some (name, _) => insert_child name Directory l
      | None => match child rest l with Some _ => l | None => insert_child rest (File (de_object e)) l end
      end
  end.

Definition children_of (prefix : text) (l : list DirEntry) : list (text * ChildKind) := fold_left (scan_entry prefix) l [].

(** What a reply says of an object; times in seconds, none for directories, which have
    the present. *)
Record FileAttr := mkAttr {
  at_ino : N;
  at_size : N;
  at_blocks : N;
  at_mtime : option N;
  at_crtime : option N;
  is_dir : bool;
  at_perm : N;
  at_nlink : N
}.

Definition dir_attr (ino : N) : FileAttr := mkAttr ino 0 0 None None true 493 2.

Definition file_attr `{JsonBytes} (ino : N) (n : NodeRecord (V := Json)) : FileAttr :=
  let size := N.of_nat (length (json_bytes (node_metadata n))) in
  mkAttr ino size (N.max ((size + 511) / 512) 1) (Some (KnowledgeGraph.updated_at n)) (Some (KnowledgeGraph.created_at n)) false 420 1.

Record InodeTable := mkInodes {
  it_next : N;
  by_ino : gmap N text;
  by_path : gmap text N
}.

Definition new_inodes : InodeTable := mkInodes (ROOT_INO + 1) {[ROOT_INO := []]} {[[] := ROOT_INO]}.
Definition ino_for (t : InodeTable) (path : text) : N * InodeTable :=
  match by_path t !! path with
  | Some ino => (ino, t)
  | None => (it_next t, mkInodes (u64_add (it_next t) 1) (<[it_next t := path]> (by_ino t)) (<[path := it_next t]> (by_path t)))
  end.
Definition path_for (t : InodeTable) (ino : N) : option text := by_ino t !! ino.

(** Every child gets a number. *)
Fixpoint ino_for_each (t : InodeTable) (parent : text) (l : list (text * ChildKind)) : list (text * bool * N) * InodeTable :=
  match l with
  | [] => ([], t)
  | (name, k) :: l =>
      let '(ino, t) := ino_for t (full_path parent name) in
      let '(rest, t) := ino_for_each t parent l in
      ((name, match k with Directory => true | File _ => false end, ino) :: rest, t)
  end.

Inductive Errno : Type := ENOENT | EIO | EBADF | EACCES.

(** [buf.resize] and [copy_from_slice]. *)
Definition write_at (buf : list N) (offset : nat) (data : list N) : list N :=
  let buf := buf ++ replicate (offset + length data - length buf) 0 in
  take offset buf ++ data ++ drop (offset + length data) buf.

Section mount.
Context `{Codec (WalRecord Json)} `{Aead} `{HashIter} {M : Type} `{Authority M} {C : Type} `{ContextResolver Json M C} `{JsonBytes}.
Context (to_value : Record_ (V := Json) -> Json) (outside : nat -> WriteEnv).

Abbreviation filesystem := (SemanticFilesystem (C := C)).

(** The monitor and the token of the mount are arguments. *)
Record PosixMount := mkMount {
  pm_fs : filesystem;
  inodes : InodeTable;
  next_fh : N;
  write_buffers : gmap N (list N * bool);
  fh_paths : gmap N text
}.

Definition new_mount (fs : filesystem) : PosixMount := mkMount fs new_inodes 1 ∅ ∅.
Definition with_fs (p : PosixMount) (fs : filesystem) := mkMount fs (inodes p) (next_fh p) (write_buffers p) (fh_paths p).
Definition with_inodes (p : PosixMount) (t : InodeTable) := mkMount (pm_fs p) t (next_fh p) (write_buffers p) (fh_paths p).
Definition with_handles (p : PosixMount) (n : N) (w : gmap N (list N * bool)) (f : gmap N text) := mkMount (pm_fs p) (inodes p) n w f.

(** A call is answered or refused; [None] where a loop does not end. *)
Definition MountM (T : Type) : Type := PosixMount -> option (Result T Errno * PosixMount).

#[local] Instance mount_ret : MRet MountM := fun T a p => Some (Ok a, p).
#[local] Instance mount_bind : MBind MountM := fun T U k e p =>
  match e p with
  | Some (Ok a, p) => k a p
  | Some (Err f, p) => Some (Err f, p)
  | None => None
  end.

Definition found {T : Type} (o : option T) (e : Errno) : MountM T := fun p => Some (ok_or o e, p).
Definition looks {T : Type} (f : PosixMount -> T) : MountM T := fun p => Some (Ok (f p), p).
Definition on_fs {T : Type} (f : FsM (C := C) T) (e : Errno) : MountM T := fun p =>
  '(r, fs) ← f (pm_fs p); Some (match r with Ok a => Ok a | Err _ => Err e end, with_fs p fs).
Definition number (path : text) : MountM N := fun p => let '(ino, t) := ino_for (inodes p) path in Some (Ok ino, with_inodes p t).

Definition path_at (ino : N) : MountM text := fun p => Some (ok_or (path_for (inodes p) ino) ENOENT, p).
Definition numbered_children (path : text) (l : list DirEntry) : MountM (list (text * bool * N)) := fun p =>
  let '(l, tb) := ino_for_each (inodes p) path (children_of path l) in Some (Ok l, with_inodes p tb).
Definition handles (f : PosixMount -> PosixMount) : MountM unit := fun p => Some (Ok tt, f p).

(** What [commit] writes back, if the handle has uncommitted bytes. *)
Definition uncommitted (p : PosixMount) (fh : N) : option (text * list N) :=
  path ← fh_paths p !! fh;
  '(buf, dirty) ← write_buffers p !! fh;
  if (dirty : bool) then Some (path, buf) else None.

Definition metadata_of (buf : list N) : Json :=
  default (JObject [(lit "text", JString (from_utf8_lossy buf))]) (json_parse buf).

Definition commit (now : Instant) (m : M) (t : CapabilityToken) (fh : N) : MountM unit := fun p =>
  match uncommitted p fh with
  | None => Some (Ok tt, p)
  | Some (path, buf) =>
      let p := with_handles p (next_fh p) (<[fh := (buf, false)]> (write_buffers p)) (fh_paths p) in
      '(_, fs) ← write_back to_value outside now m t path (metadata_of buf) (pm_fs p);
      Some (Ok tt, with_fs p fs)
  end.

Definition entries (now : Instant) (m : M) (t : CapabilityToken) : MountM (list DirEntry) := on_fs (all_paths now m t) EIO.

Definition describe (now : Instant) (m : M) (t : CapabilityToken) (ino : N) (id : NodeId) (e : Errno) : MountM FileAttr :=
  n ← on_fs (get_object now m t id) e; mret (file_attr ino n).

(** [name] is [None] if it is not UTF-8. *)
Definition lookup (now : Instant) (m : M) (t : CapabilityToken) (parent : N) (name : option text) : MountM FileAttr :=
  name ← found name ENOENT;
  parent_path ← path_at parent;
  l ← entries now m t;
  kind ← found (child name (children_of parent_path l)) ENOENT;
  ino ← number (full_path parent_path name);
  match kind with
  | Directory => mret (dir_attr ino)
  | File id => describe now m t ino id ENOENT
  end.

Definition getattr (now : Instant) (m : M) (t : CapabilityToken) (ino : N) : MountM FileAttr :=
  if ino =? ROOT_INO then mret (dir_attr ROOT_INO)
  else
    path ← path_at ino;
    l ← entries now m t;
    if existsb (fun e => match strip_prefix (path ++ [slash]) (de_path e) with Some _ => true | None => false end) l then mret (dir_attr ino)
    else
      e ← found (List.find (fun e => bool_decide (de_path e = path)) l) ENOENT;
      describe now m t ino (de_object e) ENOENT.

(** [room] entries fit into the reply; each has the offset after it. *)
Definition readdir (now : Instant) (m : M) (t : CapabilityToken) (ino : N) (offset room : nat) : MountM (list (N * N * bool * text)) :=
  path ← path_at ino;
  l ← entries now m t;
  listing ← numbered_children path l;
  let all := (lit ".", true, ino) :: (lit "..", true, ino) :: listing in
  mret (take room (drop offset (imap (fun i x => (x.2, N.of_nat i + 1, x.1.2, x.1.1)) all))).

Definition read (now : Instant) (m : M) (t : CapabilityToken) (ino : N) (offset size : nat) : MountM (list N) :=
  path ← path_at ino;
  l ← entries now m t;
  e ← found (List.find (fun e => bool_decide (de_path e = path)) l) ENOENT;
  n ← on_fs (get_object now m t (de_object e)) ENOENT;
  mret (take size (drop offset (json_bytes (node_metadata n)))).

Definition open_handle (path : text) : MountM N := fun p =>
  Some (Ok (next_fh p), with_handles p (u64_add (next_fh p) 1) (<[next_fh p := ([], false)]> (write_buffers p)) (<[next_fh p := path]> (fh_paths p))).

Definition next_handle : MountM N := fun p =>
  Some (Ok (next_fh p), with_handles p (u64_add (next_fh p) 1) (write_buffers p) (fh_paths p)).

Definition open (ino : N) (writable : bool) : MountM N :=
  path ← path_at ino;
  if writable then open_handle path else next_handle.

Definition write (fh : N) (offset : nat) (data : list N) : MountM nat := fun p =>
  match write_buffers p !! fh with
  | None => Some (Err EBADF, p)
  | Some (buf, _) => Some (Ok (length data), with_handles p (next_fh p) (<[fh := (write_at buf offset data, true)]> (write_buffers p)) (fh_paths p))
  end.

Definition flush (now : Instant) (m : M) (t : CapabilityToken) (fh : N) : MountM unit := commit now m t fh.

Definition release (now : Instant) (m : M) (t : CapabilityToken) (fh : N) : MountM unit :=
  commit now m t fh;;
  handles (fun p => with_handles p (next_fh p) (delete fh (write_buffers p)) (delete fh (fh_paths p))).

Definition create (now : Instant) (m : M) (t : CapabilityToken) (parent : N) (name : option text) : MountM (FileAttr * N) :=
  name ← found name ENOENT;
  parent_path ← path_at parent;
  let full := full_path parent_path name in
  id ← on_fs (write_back to_value outside now m t full (JObject [])) EACCES;
  n ← on_fs (get_object now m t id) EIO;
  ino ← number full;
  fh ← open_handle full;
  mret (file_attr ino n, fh).

Definition resolved (now : Instant) (m : M) (t : CapabilityToken) (path : text) : MountM (option NodeId) := fun p =>
  '(r, fs) ← resolve_path now m t path (pm_fs p); Some (Ok (match r with Ok id => Some id | Err _ => None end), with_fs p fs).

Definition mkdir (now : Instant) (m : M) (t : CapabilityToken) (parent : N) (name : option text) : MountM FileAttr :=
  name ← found name ENOENT;
  parent_path ← path_at parent;
  parent_id ← match parent_path with
              | [] => mret None
              | _ => resolved now m t parent_path
              end;
  id ← on_fs (mkcollection to_value outside now m t name parent_id) EACCES;
  on_fs (get_object now m t id) EIO;;
  ino ← number (full_path parent_path name);
  mret (dir_attr ino).
End mount.
