(* ===== verification/FsPaths.v ===== *)
(** What the paths of the semantic file system are good for: making them up ends, keeps
    paths and objects in one-to-one correspondence, and does not depend on the order of
    the objects; and what is written to a path is read there. *)
From S2P Require Import Prelude Crypto Capability Authority Wal Storage DebugFmt Events F32 Json KnowledgeGraph NodeStore PluginReview Plugins Identity Coordination CoordinationRuns Text Memory Intent IntentPlans SemanticFs.
Open Scope N_scope.

Abbreviation text := (list N).

(** ** Making up paths *)

(** Paths and objects correspond. *)
Record cache_ok (c : PathMappingCache) : Prop := {
  ck_forward : forall id e, pc_forward c !! id = Some e -> pc_reverse c !! pe_path e = Some id;
  ck_reverse : forall p id, pc_reverse c !! p = Some id -> exists e, pc_forward c !! id = Some e /\ pe_path e = p
}.

(** The [k]th name tried for [base]. *)
Definition attempt (base : text) (k : N) : text := if k =? 1 then base else suffixed base k.

Lemma attempt_inj base j k : attempt base j = attempt base k -> j = k.
Proof.
  unfold attempt, suffixed. destruct (N.eqb_spec j 1) as [->|Hj], (N.eqb_spec k 1) as [->|Hk]; intros Heq; try done.
  - exfalso. apply (f_equal length) in Heq. rewrite !length_app in Heq. simpl in Heq. lia.
  - exfalso. apply (f_equal length) in Heq. rewrite !length_app in Heq. simpl in Heq. lia.
  - apply app_inv_head in Heq. by apply app_inv_head, debug_u64_inj in Heq.
Qed.

Lemma free_path_none fuel taken base k :
  k + N.of_nat fuel < two32 -> 1 <= k -> free_path fuel taken base k (attempt base k) = None ->
  forall j, k <= j <= k + N.of_nat fuel -> is_Some (taken !! attempt base j).
Proof.
  revert k. induction fuel as [|fuel IH]; intros k Hk H1 Hnone j Hj; cbn [free_path] in Hnone.
  - assert (j = k) as -> by lia. by destruct (taken !! attempt base k).
  - destruct (taken !! attempt base k) as [x|] eqn:Hx; [|done]. destruct (decide (j = k)) as [->|Hne]; [by eexists|].
    rewrite N.mod_small in Hnone by lia. apply (IH (k + 1)); try lia. unfold attempt. destruct (N.eqb_spec (k + 1) 1); [lia|done].
Qed.

Lemma free_path_some fuel taken base k p :
  k + N.of_nat fuel < two32 -> 1 <= k -> free_path fuel taken base k (attempt base k) = Some p -> taken !! p = None /\ exists j, 1 <= j /\ p = attempt base j.
Proof.
  revert k. induction fuel as [|fuel IH]; intros k Hk H1; cbn [free_path]; (destruct (taken !! attempt base k) eqn:Hx; [|intros [= <-]; split; [done|by exists k]]); [done|].
  rewrite N.mod_small by lia. intros Hp. apply (IH (k + 1)); try lia. unfold attempt. destruct (N.eqb_spec (k + 1) 1); [lia|done].
Qed.

(** As many names as are taken, and one more, are not all taken. *)
Lemma free_path_total taken base :
  N.of_nat (size taken) + 1 < two32 ->
  exists p, free_path (size taken) taken base 1 base = Some p /\ taken !! p = None /\ exists j, 1 <= j /\ p = attempt base j.
Proof.
  intros Hsize. destruct (free_path (size taken) taken base 1 base) as [p|] eqn:Hp.
  - exists p. split; [done|]. by apply (free_path_some (size taken) taken base 1 p) in Hp; [|lia..].
  - exfalso. pose proof (free_path_none (size taken) taken base 1 ltac:(lia) ltac:(lia) Hp) as Hall.
    set (names := (fun j => attempt base (N.of_nat j)) <$> List.seq 1 (S (size taken))).
    assert (Hnd : NoDup names). { apply NoDup_fmap_2; [|apply NoDup_seq]. intros i j Hij%attempt_inj. lia. }
    assert (Hsub : list_to_set names ⊆@{gset text} dom taken).
    { intros x Hx. apply elem_of_list_to_set, list_elem_of_fmap in Hx as (j & -> & Hj%elem_of_seq). apply elem_of_dom, Hall. lia. }
    apply subseteq_size in Hsub. rewrite size_list_to_set, size_dom in Hsub by done. unfold names in Hsub. rewrite length_fmap, length_seq in Hsub. lia.
Qed.

(** One more path, and what was there stays. *)
Lemma synthesize_one_ok c id base :
  cache_ok c -> N.of_nat (size (pc_reverse c)) + 1 < two32 ->
  exists p c', synthesize_one c id base = Some (p, c') /\ cache_ok c'
    /\ (exists e, pc_forward c' !! id = Some e /\ pe_path e = p)
    /\ (forall x e, pc_forward c !! x = Some e -> pc_forward c' !! x = Some e)
    /\ (forall x, x <> id -> pc_forward c' !! x = pc_forward c !! x)
    /\ (size (pc_reverse c') <= S (size (pc_reverse c)))%nat
    /\ (pc_forward c !! id = None -> exists j, 1 <= j /\ p = attempt base j).
Proof.
  intros [Hf Hr] Hsize. unfold synthesize_one. destruct (pc_forward c !! id) as [e|] eqn:He.
  { exists (pe_path e), c. split; [done|]. split; [done|]. split; [by exists e|]. do 2 (split; [done|]). split; [lia|done]. }
  destruct (free_path_total (pc_reverse c) base Hsize) as (p & -> & Hp & Hj). cbn. eexists _, _. split; [done|]. split; [constructor|]; cbn.
  - intros x e. destruct (decide (x = id)) as [->|Hne]; [rewrite lookup_insert_eq; intros [= <-]; cbn; by rewrite lookup_insert_eq|].
    rewrite lookup_insert_ne by done. intros Hx%Hf. rewrite lookup_insert_ne; [done|]. intros ->. congruence.
  - intros q x. destruct (decide (q = p)) as [->|Hne].
    + rewrite lookup_insert_eq. intros [= <-]. eexists. by rewrite lookup_insert_eq.
    + rewrite lookup_insert_ne by done. intros Hq%Hr. destruct Hq as (e & Hx & He'). exists e. rewrite lookup_insert_ne; [done|]. congruence.
  - split; [eexists; by rewrite lookup_insert_eq|]. split; [|split; [|split; [|done]]].
    + intros x e Hx. rewrite lookup_insert_ne; [done|]. congruence.
    + intros x Hx. by rewrite lookup_insert_ne.
    + rewrite map_size_insert_None by done. lia.
Qed.

(** The caches that objects are listed into, without the places of the results. *)
Lemma synthesize_each_ok l c results :
  cache_ok c -> N.of_nat (size (pc_reverse c)) + N.of_nat (length l) < two32 -> NoDup ((fun x => x.2.1) <$> l) -> NoDup l.*1 ->
  (forall i, i ∈ l.*1 -> (i < length results)%nat) ->
  exists results' c', synthesize_each c results l = Some (results', c') /\ cache_ok c' /\ length results' = length results
    /\ (forall x e, pc_forward c !! x = Some e -> pc_forward c' !! x = Some e)
    /\ (forall x, x ∉ (fun x => x.2.1) <$> l -> pc_forward c' !! x = pc_forward c !! x)
    /\ (forall i id base, (i, (id, base)) ∈ l -> exists e, pc_forward c' !! id = Some e /\ results' !! i = Some (pe_path e)
          /\ (pc_forward c !! id = None -> exists j, 1 <= j /\ pe_path e = attempt base j))
    /\ (forall i, i ∉ l.*1 -> results' !! i = results !! i)
    /\ (size (pc_reverse c') <= size (pc_reverse c) + length l)%nat.
Proof.
  revert c results. induction l as [|[i [id base]] l IH]; intros c results Hok Hsize Hnd Hndi Hlen; cbn [synthesize_each].
  { exists results, c. split; [done|]. split; [done|]. do 3 (split; [done|]). split; [by intros i id base ?%elem_of_nil|]. split; [done|]. cbn. lia. }
  cbn in Hnd, Hndi, Hsize. apply NoDup_cons in Hnd as [Hid Hnd], Hndi as [Hi Hndi].
  destruct (synthesize_one_ok c id base Hok ltac:(lia)) as (p & c1 & -> & Hok1 & (e1 & He1 & Hp) & Hkeep1 & Hother1 & Hs1 & Hnew). cbn.
  destruct (IH c1 (<[i := p]> results) Hok1 ltac:(lia) Hnd Hndi) as (results' & c' & -> & Hok' & Hlen' & Hkeep' & Hother' & Hin' & Hout' & Hs').
  { intros j Hj. rewrite length_insert. apply Hlen. by right. }
  exists results', c'. split; [done|]. split; [done|]. split; [by rewrite Hlen', length_insert|]. split; [by auto|]. split; [|split; [|split]].
  - intros x [Hx1 Hx2]%not_elem_of_cons. by rewrite Hother', Hother1.
  - intros i' id' base' [[= -> -> ->]|Hin]%elem_of_cons.
    + exists e1. split; [by apply Hkeep'|]. split; [|intros Hn; rewrite Hp; by apply Hnew]. rewrite (Hout' i Hi), list_lookup_insert_eq by (apply Hlen; left). by rewrite Hp.
    + destruct (Hin' i' id' base' Hin) as (e & He & Hr & Hnew'). exists e. split; [done|]. split; [done|]. intros Hn. apply Hnew'.
      rewrite Hother1; [done|]. intros ->. apply Hid. apply list_elem_of_fmap. by exists (i', (id, base')).
  - intros i' [Hi1 Hi2]%not_elem_of_cons. rewrite (Hout' i' Hi2). by rewrite list_lookup_insert_ne.
  - cbn [length]. lia.
Qed.

(** The cache after listing does not depend on the places. *)
Lemma synthesize_each_cache l l' c results results' :
  l.*2 = l'.*2 -> snd <$> synthesize_each c results l = snd <$> synthesize_each c results' l'.
Proof.
  revert l' c results results'. induction l as [|[i [id base]] l IH]; intros [|[i' [id' base']] l'] c results results' Heq; cbn in Heq; try done.
  injection Heq as -> -> Heq. cbn [synthesize_each]. destruct (synthesize_one c id' base') as [[p c1]|]; [|done]. cbn. by apply IH.
Qed.

Lemma sort_by_key_fmap {A B : Type} (f : A -> B) (key : B -> N) l : f <$> sort_by_key (fun x => key (f x)) l = sort_by_key key (f <$> l).
Proof.
  assert (Hins : forall x l, f <$> insert_by_key (fun x => key (f x)) x l = insert_by_key key (f x) (f <$> l)).
  { intros x k. induction k as [|y k IH]; [done|]. cbn. case_match; [done|]. cbn. by rewrite IH. }
  induction l as [|x l IH]; [done|]. cbn. by rewrite Hins, IH.
Qed.

Lemma imap_pair_snd {A : Type} (l : list A) : (imap pair l).*2 = l.
Proof. rewrite fmap_imap. apply list_eq. intros i. rewrite list_lookup_imap. cbn. by destruct (l !! i). Qed.

Lemma imap_pair_fst {A : Type} (l : list A) : (imap pair l).*1 = List.seq 0 (length l).
Proof. rewrite fmap_imap. apply list_eq. intros i. rewrite list_lookup_imap. cbn. destruct (decide (i < length l)%nat) as [Hi|Hi].
  - rewrite lookup_seq_lt by done. destruct (lookup_lt_is_Some_2 l i Hi) as [x ->]. done.
  - rewrite lookup_seq_ge by lia. rewrite lookup_ge_None_2 by lia. done.
Qed.

(** What [synthesize_batch] does, in terms of the cache it leaves. *)
Lemma synthesize_batch_ok c (cands : list (NodeId * text)) :
  cache_ok c -> N.of_nat (size (pc_reverse c)) + N.of_nat (length cands) < two32 -> NoDup cands.*1 ->
  exists paths c', synthesize_batch c cands = Some (paths, c') /\ cache_ok c' /\ length paths = length cands
    /\ (forall x e, pc_forward c !! x = Some e -> pc_forward c' !! x = Some e)
    /\ (forall x, x ∉ cands.*1 -> pc_forward c' !! x = pc_forward c !! x)
    /\ (forall i id base, cands !! i = Some (id, base) -> exists e, pc_forward c' !! id = Some e /\ paths !! i = Some (pe_path e)
          /\ (pc_forward c !! id = None -> exists j, 1 <= j /\ pe_path e = attempt base j))
    /\ (size (pc_reverse c') <= size (pc_reverse c) + length cands)%nat.
Proof.
  intros Hok Hsize Hnd. unfold synthesize_batch.
  set (l := sort_by_key (fun x : nat * (NodeId * text) => x.2.1) (imap pair cands)). assert (Hp : l ≡ₚ imap pair cands) by apply sort_by_key_perm.
  assert (Hlen : length l = length cands) by (rewrite (Permutation_length Hp); apply length_imap).
  assert (Hids : (fun x : nat * (NodeId * text) => x.2.1) <$> l ≡ₚ cands.*1).
  { rewrite Hp. change ((fun x : nat * (NodeId * text) => x.2.1) <$> imap pair cands) with ((fst ∘ snd) <$> imap pair cands).
    by rewrite list_fmap_compose, imap_pair_snd. }
  destruct (synthesize_each_ok l c (replicate (length cands) [])) as (paths & c' & -> & Hok' & Hlen' & Hkeep & Hother & Hin & _ & Hs).
  - done.
  - by rewrite Hlen.
  - by rewrite Hids.
  - rewrite Hp, imap_pair_fst. apply NoDup_seq.
  - intros i. rewrite Hp, imap_pair_fst, length_replicate. intros [_ Hi]%elem_of_seq. lia.
  - exists paths, c'. split; [done|]. split; [done|]. rewrite length_replicate in Hlen'. split; [done|]. split; [done|]. split; [|split].
    + intros x Hx. apply Hother. by rewrite Hids.
    + intros i id base Hi. apply Hin. rewrite Hp. apply list_elem_of_lookup. exists i. rewrite list_lookup_imap, Hi. done.
    + by rewrite Hlen in Hs.
Qed.

Lemma paths_NoDup c (cands : list (NodeId * text)) paths :
  cache_ok c -> NoDup cands.*1 -> length paths = length cands ->
  (forall i id base, cands !! i = Some (id, base) -> exists e, pc_forward c !! id = Some e /\ paths !! i = Some (pe_path e)) -> NoDup paths.
Proof.
  intros Hok Hnd Hlen Hall. apply NoDup_alt. intros i j p Hi Hj.
  assert (Hci : exists x, cands !! i = Some x) by (apply lookup_lt_is_Some_2; rewrite <- Hlen; by eapply lookup_lt_Some).
  assert (Hcj : exists x, cands !! j = Some x) by (apply lookup_lt_is_Some_2; rewrite <- Hlen; by eapply lookup_lt_Some).
  destruct Hci as [[idi bi] Hci], Hcj as [[idj bj] Hcj]. destruct (Hall i idi bi Hci) as (ei & Hei & Hpi), (Hall j idj bj Hcj) as (ej & Hej & Hpj).
  apply (ck_forward _ Hok) in Hei, Hej. assert (pe_path ei = p /\ pe_path ej = p) as [Hpei Hpej] by (split; congruence). rewrite Hpei in Hei. rewrite Hpej in Hej.
  assert (idi = idj) as -> by congruence. apply (NoDup_lookup cands.*1 i j idj Hnd); rewrite list_lookup_fmap; [by rewrite Hci|by rewrite Hcj].
Qed.

(** C31. Paths are well made. While paths and objects correspond one to one, and there
    are fewer than 2^32 of them, listing any distinct objects ends, keeps them in
    correspondence, and gives every object its one path: the one it had, or else the
    wanted one, with a number after it if that was taken. All paths of a listing differ;
    and in whatever order the objects come, the same mapping results. *)
Theorem paths_are_well_made c (cands : list (NodeId * text)) :
  cache_ok c -> N.of_nat (size (pc_reverse c)) + N.of_nat (length cands) < two32 -> NoDup cands.*1 ->
  exists paths c', synthesize_batch c cands = Some (paths, c') /\ cache_ok c' /\ length paths = length cands /\ NoDup paths
    /\ (forall i id base, cands !! i = Some (id, base) -> exists e, pc_forward c' !! id = Some e /\ paths !! i = Some (pe_path e)
          /\ match pc_forward c !! id with
             | Some e0 => e = e0
             | None => pe_path e = base \/ exists k, 2 <= k /\ pe_path e = base ++ lit "-" ++ debug_u64 k
             end)
    /\ forall cands', cands' ≡ₚ cands -> exists paths', synthesize_batch c cands' = Some (paths', c').
Proof.
  intros Hok Hsize Hnd. destruct (synthesize_batch_ok c cands Hok Hsize Hnd) as (paths & c' & Hrun & Hok' & Hlen & Hkeep & _ & Hin & _).
  exists paths, c'. split; [done|]. split; [done|]. split; [done|]. split; [|split].
  - apply (paths_NoDup c' cands paths Hok' Hnd Hlen). intros i id base Hi. destruct (Hin i id base Hi) as (e & He & Hp & _). by exists e.
  - intros i id base Hi. destruct (Hin i id base Hi) as (e & He & Hp & Hnew). exists e. split; [done|]. split; [done|].
    destruct (pc_forward c !! id) as [e0|] eqn:He0; [apply Hkeep in He0; congruence|]. destruct Hnew as (j & Hj & ->); [done|].
    unfold attempt. destruct (N.eqb_spec j 1); [by left|]. right. exists j. split; [lia|done].
  - intros cands' Hperm. assert (Hcache : snd <$> synthesize_batch c cands' = snd <$> synthesize_batch c cands).
    { apply synthesize_each_cache. rewrite !(sort_by_key_fmap snd fst), !imap_pair_snd. symmetry. by apply sort_by_key_unique. }
    rewrite Hrun in Hcache. destruct (synthesize_batch c cands') as [[paths' c'']|]; [|done]. injection Hcache as ->. by exists paths'.
Qed.

(** ** What is written is read *)

Lemma pin_ok c path id b : cache_ok c -> resolve c path = Some id \/ resolve c path = None -> cache_ok (pin_path c path id b).
Proof.
  intros [Hf Hr] Hres. unfold resolve in Hres. unfold pin_path.
  set (rev' := match pc_forward c !! id with Some _ => _ | None => _ end).
  assert (Hrev : forall q x, q <> path -> rev' !! q = Some x <-> pc_reverse c !! q = Some x /\ x <> id).
  { intros q x Hq. subst rev'. destruct (pc_forward c !! id) as [old|] eqn:Hold.
    - case_bool_decide as Heq.
      + split; [|by intros []]. intros Hx. split; [done|]. intros ->. apply Hr in Hx as (e & He & Hp). congruence.
      + destruct (decide (q = pe_path old)) as [->|Hne]; [rewrite lookup_delete_eq|rewrite lookup_delete_ne by done]; (split; [|intros [Hx Hne']]); try done.
        * apply Hf in Hold. congruence.
        * intros Hx. split; [done|]. intros ->. apply Hr in Hx as (e & He & Hp). congruence.
    - split; [|by intros []]. intros Hx. split; [done|]. intros ->. apply Hr in Hx as (e & He & _). congruence. }
  constructor; cbn.
  - intros x e. destruct (decide (x = id)) as [->|Hne]; [rewrite lookup_insert_eq; intros [= <-]; cbn; by rewrite lookup_insert_eq|].
    rewrite lookup_insert_ne by done. intros Hx%Hf. destruct (decide (pe_path e = path)) as [Heq|Hp].
    + exfalso. rewrite Heq in Hx. destruct Hres; congruence.
    + rewrite lookup_insert_ne by done. by apply Hrev.
  - intros q x. destruct (decide (q = path)) as [->|Hq].
    + rewrite lookup_insert_eq. intros [= <-]. eexists. by rewrite lookup_insert_eq.
    + rewrite lookup_insert_ne by done. intros [Hx Hne]%Hrev; [|done]. apply Hr in Hx as (e & He & Hp). exists e. by rewrite lookup_insert_ne.
Qed.

Lemma size_pin c path id b : (size (pc_reverse (pin_path c path id b)) <= S (size (pc_reverse c)))%nat.
Proof.
  unfold pin_path. cbn. assert (Hins : forall (r : gmap text NodeId), (size (<[path := id]> r) <= S (size r))%nat) by (intros r; rewrite map_size_insert; case_match; cbn; lia).
  etrans; [apply Hins|]. apply le_n_S. destruct (pc_forward c !! id) as [old|]; [|done]. case_bool_decide; [done|].
  rewrite map_size_delete. case_match; cbn; lia.
Qed.

Lemma find_unique {T : Type} (f : T -> bool) l x : x ∈ l -> f x = true -> (forall y, y ∈ l -> f y = true -> y = x) -> List.find f l = Some x.
Proof.
  induction l as [|y l IH]; intros Hx Hf Hall; [by apply elem_of_nil in Hx|]. cbn. destruct (f y) eqn:Hy; [f_equal; apply Hall; [left|done]|].
  apply IH; [|done|intros z Hz; apply Hall; by right]. apply elem_of_cons in Hx as [->|Hx]; [congruence|done].
Qed.

Section mounts.
Context `{Codec (WalRecord Json)} `{Aead} `{HashIter} {M : Type} `{Authority M} {C : Type} `{ContextResolver Json M C} `{JsonBytes}.
Context (to_value : Record_ (V := Json) -> Json) (outside : nat -> WriteEnv).

Abbreviation fs := (SemanticFilesystem (C := C)).
Abbreviation mount := (PosixMount (C := C)).

(** The caller's node, with this content. *)
Definition has_content (g : KnowledgeGraph (V := Json)) (b id : N) (md : Json) : Prop :=
  exists n, nodes (index g) !! id = Some n /\ node_metadata n = md /\ owner n = b /\ tombstone n = false.

Lemma fs_put_ok now m t existing ty md (s s' : fs) id :
  sound (fs_graph s) -> roomy (fs_graph s) 1 ->
  (forall x, existing = Some x -> exists n, nodes (index (fs_graph s)) !! x = Some n /\ tombstone n = false) ->
  fs_put to_value outside now m t existing ty md s = Some (Ok id, s') ->
  sound (fs_graph s') /\ path_cache s' = path_cache s /\ has_content (fs_graph s') (origin t) id md
  /\ (size (nodes (index (fs_graph s'))) <= S (size (nodes (index (fs_graph s)))))%nat
  /\ next_object_id (inner (storage (fs_graph s'))) <= next_object_id (inner (storage (fs_graph s))) + 1
  /\ match existing with Some x => id = x | None => id = next_object_id (inner (storage (fs_graph s))) end.
Proof.
  intros Hs Hroom Hex. unfold fs_put. destruct (outside (fs_tick s)) as [w1 w2 nonce io]. cbn.
  pose proof (put_sound to_value now m t (fs_graph s) existing ty None md w1 w2 nonce io Hs Hroom) as Hs'.
  destruct (put_node _ _ _ _ _ _ _ _ _ _ _ _ _) as [[r g'] ns] eqn:Hput. cbn in *. destruct r as [o|e]; [|done]. intros [= -> <-]. cbn.
  unfold put_node, put_node_with_device_origin, put_node_with_provenance in Hput. destruct (KnowledgeGraph.require now m t WRITE); [|done].
  destruct (is_some_and _ _) eqn:Hown; [done|]. apply commit_done in Hput as [Hn (o & -> & Ho & Hix & _)]; [|done].
  split; [done|]. split; [done|]. split; [|split; [|split; [lia|]]].
  - exists (mkNode ty None md (from_option owner (origin t) (existing ≫= fun id => nodes (index (fs_graph s)) !! id)) 0 IngestedExternal
      (from_option corroboration_count 0 (existing ≫= fun id => nodes (index (fs_graph s)) !! id)) 0 (from_option KnowledgeGraph.created_at w1 (existing ≫= fun id => nodes (index (fs_graph s)) !! id))
      w2 (is_some_and (existing ≫= fun id => nodes (index (fs_graph s)) !! id) tombstone)).
    rewrite Hix, apply_node_lookup, decide_True by done. split; [done|]. split; [done|]. cbn. destruct existing as [x|]; [|done].
    destruct (Hex x eq_refl) as (n & Hn' & Hlive). cbn in Hown |- *. rewrite Hn' in Hown |- *. cbn in Hown |- *. split; [|done]. by apply negb_false_iff, N.eqb_eq in Hown.
  - rewrite Hix. cbn. rewrite map_size_insert. case_match; cbn; lia.
  - subst o. by destruct existing.
Qed.

Lemma member_of_ok now m t a b (s s' : fs) u :
  sound (fs_graph s) -> roomy (fs_graph s) 1 -> member_of to_value outside now m t a b s = Some (Ok u, s') ->
  nodes (index (fs_graph s')) = nodes (index (fs_graph s)) /\ path_cache s' = path_cache s.
Proof.
  intros Hs Hroom. unfold member_of. destruct (outside (fs_tick s)) as [w1 w2 nonce io]. cbn.
  destruct (link _ _ _ _ _ _ _ _ _ _ _ _ _ _ _ _ _) as [[r g'] ns] eqn:Hl. apply link_written in Hl as (_ & _ & Hr); [|done..].
  cbn. intros [= Hres <-]. cbn. split; [|done]. destruct r as [[id|id|id]|e]; [by destruct Hr..|destruct Hr as [-> _]; done|done].
Qed.

Lemma write_back_ok now m t path md (s s' : fs) id :
  sound (fs_graph s) -> roomy (fs_graph s) 2 -> cache_ok (path_cache s) ->
  (forall x, resolve (path_cache s) path = Some x -> exists n, nodes (index (fs_graph s)) !! x = Some n /\ tombstone n = false) ->
  write_back to_value outside now m t path md s = Some (Ok id, s') ->
  cache_ok (path_cache s') /\ pc_forward (path_cache s') !! id = Some (mkPathEntry path false) /\ has_content (fs_graph s') (origin t) id md
  /\ (size (nodes (index (fs_graph s'))) <= S (size (nodes (index (fs_graph s)))))%nat
  /\ (size (pc_reverse (path_cache s')) <= S (size (pc_reverse (path_cache s))))%nat.
Proof.
  intros Hs Hroom Hck Hex. unfold write_back, mbind, fs_bind. destruct (fs_require now m t WRITE s) as [[[u|e] s0]|] eqn:Hreq; [|done..].
  injection Hreq as _ <-. cbn [fs_reads]. destruct (fs_put _ _ _ _ _ _ _ _ s) as [[[id1|e] s1]|] eqn:Hput; [|done..].
  apply fs_put_ok in Hput as (Hs1 & Hc1 & Hcontent & Hsize & Hnext & Hid); [|done|unfold roomy in *; lia|done].
  set (s2o := (match parent_collection (path_cache s1) path with Some p => member_of to_value outside now m t id1 p | None => _ end) s1).
  assert (Hlink : forall u2 s2, s2o = Some (Ok u2, s2) -> nodes (index (fs_graph s2)) = nodes (index (fs_graph s1)) /\ path_cache s2 = path_cache s1).
  { subst s2o. intros u2 s2. destruct (parent_collection (path_cache s1) path) as [par|]; [|by intros [= _ <-]].
    intros Hm. eapply member_of_ok; [done| |exact Hm]. unfold roomy in *. lia. }
  destruct s2o as [[[u2|e] s2]|]; [|done..]. destruct (Hlink u2 s2 eq_refl) as [Hn2 Hc2]. clear Hlink. cbn. intros [= -> <-]. cbn.
  rewrite Hc2, Hc1. split; [|split; [|split; [|split]]].
  - apply pin_ok; [done|]. destruct (resolve (path_cache s) path) as [x|]; [left; by rewrite Hid|by right].
  - by rewrite lookup_insert_eq.
  - unfold has_content in *. by rewrite Hn2.
  - by rewrite Hn2.
  - apply (size_pin (path_cache s) path id false).
Qed.

Lemma dump_nodes now m t (g : KnowledgeGraph (V := Json)) :
  authorize now m t READ = Ok tt ->
  exists snap, dump now m t g = Ok snap /\ NoDup (snap_nodes snap).*1 /\ (length (snap_nodes snap) <= size (nodes (index g)))%nat
    /\ forall id n, (id, n) ∈ snap_nodes snap <-> nodes (index g) !! id = Some n /\ own_live (origin t) n = true.
Proof.
  intros Hok. unfold dump, KnowledgeGraph.require. rewrite Hok. cbn. eexists. split; [done|]. cbn.
  set (f := fun x : NodeId * NodeRecord => _). assert (Hsub : sublist (List.filter f (hash_iter (nodes (index g)))) (hash_iter (nodes (index g)))).
  { induction (hash_iter (nodes (index g))) as [|x l IH]; [constructor|]. cbn. destruct (f x); by constructor. }
  assert (Hnd : NoDup (hash_iter (nodes (index g))).*1) by (rewrite hash_iter_perm; apply NoDup_fst_map_to_list).
  split; [|split].
  - rewrite sort_by_key_perm. eapply sublist_NoDup; [exact Hnd|]. by apply fmap_sublist.
  - rewrite (Permutation_length (sort_by_key_perm _ _)). etrans; [by eapply sublist_length|]. rewrite (Permutation_length (hash_iter_perm _)). by rewrite length_map_to_list.
  - intros id n. rewrite sort_by_key_perm, elem_of_test, elem_of_hash_iter. done.
Qed.

(** A listing has the caller's own objects, each at its path. *)
Lemma listing_ok now m t (s : fs) :
  authorize now m t READ = Ok tt -> cache_ok (path_cache s) ->
  N.of_nat (size (pc_reverse (path_cache s))) + N.of_nat (size (nodes (index (fs_graph s)))) < two32 ->
  exists l s', all_paths now m t s = Some (Ok l, s') /\ fs_graph s' = fs_graph s /\ NoDup (de_path <$> l)
    /\ forall id n e, nodes (index (fs_graph s)) !! id = Some n -> own_live (origin t) n = true -> pc_forward (path_cache s) !! id = Some e ->
         mkDirEntry (pe_path e) id ∈ l.
Proof.
  intros Hok Hck Hsize. destruct (dump_nodes now m t (fs_graph s) Hok) as (snap & Hdump & Hnd & Hlen & Hin).
  unfold all_paths, mbind, fs_bind, fs_require, fs_gives. rewrite Hok. cbn. unfold fs_views. rewrite Hdump. cbn. unfold build_dir_entries.
  assert (Hids : (candidate_of <$> snap_nodes snap).*1 = (snap_nodes snap).*1) by (rewrite <- list_fmap_compose; done).
  destruct (synthesize_batch_ok (path_cache s) (candidate_of <$> snap_nodes snap) Hck) as (paths & c' & -> & Hok' & Hlp & Hkeep & _ & Hpaths & _).
  { rewrite length_fmap. lia. } { by rewrite Hids. }
  rewrite length_fmap in Hlp. cbn. eexists _, _. split; [done|]. split; [done|]. rewrite fmap_zip_with_l by (done || rewrite length_fmap; lia). split.
  - apply (paths_NoDup c' (candidate_of <$> snap_nodes snap) paths); [done|by rewrite Hids|by rewrite length_fmap|].
    intros i id base Hi. destruct (Hpaths i id base Hi) as (e & He & Hp & _). by exists e.
  - intros id n e Hn Hown He. assert (Hs : (id, n) ∈ snap_nodes snap) by by apply Hin. apply list_elem_of_lookup in Hs as [i Hi].
    destruct (Hpaths i id (candidate_of (id, n)).2) as (e' & He' & Hp & _); [by rewrite list_lookup_fmap, Hi|]. apply Hkeep in He.
    assert (e' = e) as -> by congruence. apply list_elem_of_lookup. exists i. rewrite lookup_zip_with, Hp, list_lookup_fmap, Hi. done.
Qed.

(** An object that is listed at a path is read there. *)
Lemma read_listed now m t ino offset size path id md b (p : mount) :
  authorize now m t READ = Ok tt -> cache_ok (path_cache (pm_fs p)) ->
  N.of_nat (base.size (pc_reverse (path_cache (pm_fs p)))) + N.of_nat (base.size (nodes (index (fs_graph (pm_fs p))))) < two32 ->
  path_for (inodes p) ino = Some path -> pc_forward (path_cache (pm_fs p)) !! id = Some (mkPathEntry path b) ->
  has_content (fs_graph (pm_fs p)) (origin t) id md ->
  exists p', read now m t ino offset size p = Some (Ok (take size (drop offset (json_bytes md))), p').
Proof.
  intros Hok Hck Hsize Hino Hfwd (n & Hn & Hmd & Hown & Hlive). destruct (listing_ok now m t (pm_fs p) Hok Hck Hsize) as (l & s' & Hall & Hg & Hnd & Hin).
  assert (Hol : own_live (origin t) n = true) by (apply own_live_spec; done). specialize (Hin id n _ Hn Hol Hfwd). cbn in Hin.
  unfold read, mbind, mount_bind, path_at. rewrite Hino. cbn. unfold entries, on_fs. rewrite Hall. cbn.
  rewrite (find_unique _ l (mkDirEntry path id) Hin); [|by apply bool_decide_eq_true|].
  - cbn. unfold get_object, mbind, fs_bind, fs_require, fs_gives, fs_views. rewrite Hok. cbn. unfold get, KnowledgeGraph.require. rewrite Hok, Hg. cbn.
    rewrite Hn, Hol. cbn. rewrite Hmd. by eexists.
  - intros e He Heq%bool_decide_eq_true. apply list_elem_of_lookup in He as [i Hi], Hin as [j Hj].
    assert (i = j) as -> by (apply (NoDup_lookup _ i j path Hnd); rewrite list_lookup_fmap; [rewrite Hi; cbn; by rewrite Heq|by rewrite Hj]). congruence.
Qed.

#[local] Arguments write_at : simpl never.

(** C32. What is written is read. A file that is known by its number is opened for
    writing, the text of a JSON value is written from its beginning, and the handle is
    flushed. Say the value has no floats and is nested less than 128 deep (what cannot be
    parsed is stored as one string, and floats may be rounded), the object of that path, if
    there is one, is not deleted, and the graph accepts the write. Then reading the file
    gives exactly the bytes of the value, from any offset on and as many as asked for. *)
Theorem written_is_read now m t (p : mount) ino path v id s' :
  sound (fs_graph (pm_fs p)) -> roomy (fs_graph (pm_fs p)) 2 -> cache_ok (path_cache (pm_fs p)) ->
  N.of_nat (size (pc_reverse (path_cache (pm_fs p)))) + N.of_nat (size (nodes (index (fs_graph (pm_fs p))))) + 2 < two32 ->
  (forall x, resolve (path_cache (pm_fs p)) path = Some x -> exists n, nodes (index (fs_graph (pm_fs p))) !! x = Some n /\ tombstone n = false) ->
  path_for (inodes p) ino = Some path -> printable v = true -> authorize now m t READ = Ok tt ->
  write_back to_value outside now m t path v (pm_fs p) = Some (Ok id, s') ->
  exists fh p1 p2 p3, open ino true p = Some (Ok fh, p1)
    /\ write fh 0 (json_bytes v) p1 = Some (Ok (length (json_bytes v)), p2)
    /\ flush to_value outside now m t fh p2 = Some (Ok tt, p3)
    /\ forall offset size, exists p4, read now m t ino offset size p3 = Some (Ok (take size (drop offset (json_bytes v))), p4).
Proof.
  intros Hs Hroom Hck Hsize Hex Hino Hv Hok Hwb. exists (next_fh p). eexists _, _, _. split; [|split; [|split]].
  - unfold open, mbind, mount_bind, path_at. rewrite Hino. cbn. done.
  - unfold write. cbn. by rewrite lookup_insert_eq.
  - unfold flush, commit, uncommitted. cbn. rewrite !lookup_insert_eq. cbn.
    assert (Hbuf : write_at [] 0 (json_bytes v) = json_bytes v).
    { unfold write_at. cbn. rewrite drop_ge by (rewrite length_replicate; lia). by rewrite app_nil_r. }
    rewrite Hbuf. unfold metadata_of. rewrite json_parse_bytes by done. cbn. rewrite Hwb. done.
  - apply write_back_ok in Hwb as (Hck' & Hfwd & Hcontent & Hn & Hr); [|done..]. intros offset size.
    eapply read_listed; cbn; [done|done|lia|done|exact Hfwd|done].
Qed.
End mounts.

(** ** A mount *)

Module FsExample.
Import Crypto.Toy Wal.ToyRecords Explainability.ExplainExample.

(** The text of a value: the digits of its number. *)
Fixpoint digits (p : positive) : list N := match p with xH => [49] | xO p => 48 :: digits p | xI p => 49 :: digits p end.
Fixpoint of_digits (l : list N) : option positive :=
  match l with
  | [] => None
  | [d] => if d =? 49 then Some xH else None
  | d :: l => p ← of_digits l; if d =? 48 then Some (xO p) else if d =? 49 then Some (xI p) else None
  end.

Lemma of_digits_digits p : of_digits (digits p) = Some p.
Proof.
  assert (Hne : forall p, digits p <> []) by by intros [].
  induction p as [p IH|p IH|]; [| |done]; cbn; pose proof (Hne p); (destruct (digits p) eqn:Hd; [done|]); by rewrite IH.
Qed.

#[export, refine] Instance digit_text : JsonBytes := {|
  json_bytes v := digits (countable.encode v);
  json_parse l := of_digits l ≫= countable.decode
|}.
Proof. intros v _. rewrite of_digits_digits. apply countable.decode_encode. Defined.

#[export] Instance no_context : ContextResolver Json unit unit := {|
  ContextError := unit;
  cx_resolve := fun _ _ _ _ c _ _ => (Ok EntityNotFound, c);
  cx_record_utterance := fun c _ _ => c
|}.

Definition nothing (_ : Record_ (V := Json)) : Json := JNull.
Definition lands (_ : nat) : WriteEnv := mkEnv 1 1 toy_nonce Written.
Definition user : CapabilityToken := mkToken 1 0 rights_all 0 7 None.
Definition other : CapabilityToken := mkToken 2 0 rights_all 0 8 None.

Definition graph0 : KnowledgeGraph (V := Json) := mkGraph (Storage.mkEngine (rebuild (mkWal [] None) []) (Some []) true None) empty_index.

Abbreviation mount := (PosixMount (C := unit)).
Definition mount0 : mount := new_mount (new_fs graph0 tt).

Abbreviation mk parent name := (mkdir (M := unit) nothing lands 0 tt user parent (Some (lit name))).
Abbreviation touch parent name := (create (M := unit) nothing lands 0 tt user parent (Some (lit name))).
Abbreviation save fh := (flush (M := unit) nothing lands 0 tt user fh).
Abbreviation stat ino := (getattr (M := unit) 0 tt user ino).
Abbreviation ls ino := (readdir (M := unit) 0 tt user ino 2 100).
Abbreviation cat ino := (read (M := unit) 0 tt user ino 0 1000).

Definition next {T : Type} (o : mount -> option (Result T Errno * mount)) (p : mount) : mount := match o p with Some (_, p) => p | None => p end.
Definition says {T : Type} (o : option (Result T Errno * mount)) : option (Result T Errno) := fst <$> o.

Definition three : Json := JObject [(lit "n", JNumber 3)].
(** The file 2 with a value in it. *)
Definition saved : mount := next (save 1) (next (write 1 0 (json_bytes three)) (next (touch 1 "n") mount0)).

Example a_file_is_kept : says (cat 2 saved) = Some (Ok (json_bytes three)) /\ says (ls 1 saved) = Some (Ok [(2, 3, false, lit "n")]).
Proof. by vm_compute. Qed.

(** A new directory is a file when it is looked at again. *)
Example an_empty_directory_is_a_file :
  says (mk 1 "a" mount0) = Some (Ok (dir_attr 2))
  /\ match says (stat 2 (next (mk 1 "a") mount0)) with Some (Ok a) => is_dir a = false | _ => False end.
Proof. by vm_compute. Qed.

(** A directory made in a directory is found at the root, not where it was made. *)
Definition nested : mount := next (mk 2 "b") (next (mk 1 "a") mount0).
Example a_nested_directory_is_lost :
  says (mk 2 "b" (next (mk 1 "a") mount0)) = Some (Ok (dir_attr 3)) /\ says (stat 3 nested) = Some (Err ENOENT)
  /\ says (ls 2 nested) = Some (Ok []) /\ says (ls 1 nested) = Some (Ok [(2, 3, false, lit "a"); (4, 4, false, lit "b")]).
Proof. by vm_compute. Qed.

(** One byte written over the beginning is all that is left; and what is no JSON is
    wrapped. *)
Definition wrapped (s : text) : Json := JObject [(lit "text", JString s)].
Example a_part_replaces_the_whole :
  says (cat 2 (next (save 2) (next (write 2 0 (lit "x")) (next (open 2 true) saved)))) = Some (Ok (json_bytes (wrapped (lit "x")))).
Proof. by vm_compute. Qed.

(** The disk fails; the call succeeds, and the bytes are gone. *)
Definition fails (_ : nat) : WriteEnv := mkEnv 1 1 toy_nonce (Failed 0).
Definition unsaved : mount := next (write 1 0 (json_bytes three)) (next (touch 1 "n") mount0).
Definition failed : option (Result unit Errno * mount) := flush (M := unit) nothing fails 0 tt user 1 unsaved.
Example a_failed_write_is_silent :
  says failed = Some (Ok tt)
  /\ match failed with
     | Some (_, p) => uncommitted p 1 = None /\ says (cat 2 p) = Some (Ok (json_bytes (JObject [])))
     | None => False
     end.
Proof. by vm_compute. Qed.

(** Two objects with one path, of which the mapping only has the second. *)
Definition stolen : mount := next (mk 1 "n") saved.
Example a_path_is_stolen :
  (pe_path <$> pc_forward (path_cache (pm_fs stolen)) !! 0, pe_path <$> pc_forward (path_cache (pm_fs stolen)) !! 1) = (Some (lit "n"), Some (lit "n"))
  /\ resolve (path_cache (pm_fs stolen)) (lit "n") = Some 1 /\ says (cat 2 stolen) = Some (Ok (json_bytes three)).
Proof. by vm_compute. Qed.

(** The object of the file is deleted: the path cannot be used again. *)
Definition deleted : mount :=
  with_fs saved (with_fs_graph (pm_fs saved) (delete_node (M := unit) nothing 0 tt user (fs_graph (pm_fs saved)) 0 1 toy_nonce Written).1.2).
Example a_deleted_name_is_unusable : says (touch 1 "n" deleted) = Some (Err EIO) /\ says (ls 1 (next (touch 1 "n") deleted)) = Some (Ok []).
Proof. by vm_compute. Qed.

(** Names and folders are shared with those who may not see the objects. *)
Definition watched : SemanticFilesystem (C := unit) :=
  let s := pm_fs saved in mkFs (fs_graph s) (fs_tick s) tt (folders s) (folder_cache s) (path_cache s) (fs_next_id s) (Some 1).
Definition near : QuerySpec := mkSpec (Some 0) 1 None None None 10 300.
Definition asked (t : CapabilityToken) (s : SemanticFilesystem (C := unit)) := query (M := unit) (fun _ => 0) 0 tt t near [] s.
Example folders_are_shared :
  (member_object_ids <$> (match asked other watched with Some (Ok f, _) => Some f | _ => None end)) <> Some [0]
  /\ match asked user watched with
     | Some (Ok _, s) => match asked other s with Some (Ok f, _) => member_object_ids f = [0] | _ => False end
     | _ => False
     end
  /\ match write_back (M := unit) nothing lands 0 tt other (lit "n") JNull watched with Some (Err (FsGraph e), _) => True | _ => False end.
Proof. by vm_compute. Qed.
End FsExample.

Section witnesses.
Import Crypto.Toy Wal.ToyRecords Explainability.ExplainExample FsExample.

Lemma empty_cache_ok : cache_ok empty_cache.
Proof. constructor; intros ??; cbn; by rewrite lookup_empty. Defined.

Lemma empty_graph_sound : IntentPlans.sound graph0.
Proof.
  split; constructor; intros; try done.
  - change (id ∈ ([] : list N) <-> exists e : EdgeRecord, (∅ : gmap EdgeId EdgeRecord) !! id = Some e /\ subject e = x).
    rewrite elem_of_nil. split; [done|]. by intros (e & He & _).
  - change (id ∈ ([] : list N) <-> exists e : EdgeRecord, (∅ : gmap EdgeId EdgeRecord) !! id = Some e /\ target e = x).
    rewrite elem_of_nil. split; [done|]. by intros (e & He & _).
Defined.

(** Two objects want the path of a third. *)
Lemma paths_are_well_made_witness :
  let c := pin_path empty_cache (lit "a") 3 false in
  exists paths c', synthesize_batch c [(9, lit "a"); (4, lit "a")] = Some (paths, c') /\ cache_ok c' /\ paths = [lit "a-3"; lit "a-2"].
Proof.
  intros c. assert (Hc : cache_ok c) by (apply pin_ok; [exact empty_cache_ok|by right]).
  destruct (paths_are_well_made c [(9, lit "a"); (4, lit "a")] Hc) as (paths & c' & Hrun & Hok & _).
  - by vm_compute.
  - apply (bool_decide_unpack _). by vm_compute.
  - exists paths, c'. split; [done|]. split; [done|]. assert (Hp : fst <$> synthesize_batch c [(9, lit "a"); (4, lit "a")] = Some [lit "a-3"; lit "a-2"]) by by vm_compute.
    rewrite Hrun in Hp. by injection Hp as ->.
Defined.

(** A file that has a number and nothing else. *)
Lemma written_is_read_witness :
  let p := with_inodes mount0 (ino_for new_inodes (lit "n")).2 in
  exists fh p1 p2 p3, open 2 true p = Some (Ok fh, p1) /\ write fh 0 (json_bytes three) p1 = Some (Ok (length (json_bytes three)), p2)
    /\ save fh p2 = Some (Ok tt, p3)
    /\ forall offset size, exists p4, read (M := unit) 0 tt user 2 offset size p3 = Some (Ok (take size (drop offset (json_bytes three))), p4).
Proof.
  intros p. assert (Hwb : exists id s', write_back (M := unit) nothing lands 0 tt user (lit "n") three (pm_fs p) = Some (Ok id, s')).
  { eexists _, _. vm_compute. reflexivity. }
  destruct Hwb as (id & s' & Hwb).
  apply (written_is_read nothing lands 0 tt user p 2 (lit "n") three id s').
  - exact empty_graph_sound.
  - by vm_compute.
  - exact empty_cache_ok.
  - by vm_compute.
  - intros x Hx. vm_compute in Hx. discriminate.
  - by vm_compute.
  - by vm_compute.
  - done.
  - exact Hwb.
Defined.
End witnesses.
