(* ===== verification/Context.v ===== *)
(** The context engine: [crates/hyperion-context/src], [types.rs], [working_set.rs],
    [expertise.rs], [engine.rs] and [propagation.rs].

    Before an agent acts, the nodes of the graph that seem to matter are ranked and packed
    into a bundle within a budget; a bundle that leaves its trust boundary becomes a signed
    envelope. The graph is an argument of every operation, since others write to it; the
    wall clock and the model that writes summaries are arguments too. *)
From S2P Require Import Prelude Crypto Capability Authority Wal Storage DebugFmt F32 Json KnowledgeGraph NodeStore Identity Security Coordination Text Intent SemanticFs.
From Stdlib Require Import Floats.SpecFloat.
Open Scope N_scope.

Abbreviation text := (list N).

(** ** types.rs *)

Record Scope := mkScope {
  sc_intent_id : text;
  sc_session_id : text;
  mentions : list text;
  anchors : list NodeId
}.

Record Budget := mkBudget {
  max_tokens : nat;
  max_entries_per_category : nat
}.
Definition default_budget : Budget := mkBudget 4096 5.

Inductive InclusionMode : Type := InFull | InSummary | InReference.

Record ContextEntry := mkEntry {
  ce_category : text;
  ce_node_id : NodeId;
  inclusion_mode : InclusionMode;
  ce_content : Json;
  relevance_score : f32;
  source_signal : list text;
  ce_generation : N;
  ce_captured_at : N
}.

Inductive ExpertiseLevel : Type := Novice | Intermediate | Advanced | Expert.

Record ExpertiseEstimate := mkEstimate {
  ee_domain : text;
  ee_level : ExpertiseLevel;
  ee_evidence : list text;
  ee_confidence : f32
}.

Inductive CapabilityTierReach : Type := RawApi | GuidedWorkflow.
Inductive ErrorRecoveryPattern : Type := SelfCorrected | AskedForExplanation.

Inductive ExpertiseSignal : Type :=
| VocabularyComplexity (score : f32)
| TierReach (r : CapabilityTierReach)
| ErrorRecovery (p : ErrorRecoveryPattern).

Record ContextBundle := mkBundle {
  bundle_id : N;
  cb_scope : Scope;
  cb_entries : list ContextEntry;
  assembled_at : N;
  cb_budget : Budget;
  expertise_signal : ExpertiseEstimate
}.

(** ** working_set.rs *)

Record WorkingSetEntry := mkResident {
  last_included_at : N;
  hits : N
}.

Record WorkingSet := mkWorkingSet {
  ws_entries : gmap NodeId WorkingSetEntry;
  vocabulary_complexity_samples : list f32;
  capability_tier_reaches : list CapabilityTierReach;
  error_recovery_events : list ErrorRecoveryPattern
}.

Definition empty_set : WorkingSet := mkWorkingSet ∅ [] [] [].
Definition HYSTERESIS_BONUS : f32 := f32_lit 1 10.

Definition interaction_frequency (w : WorkingSet) (id : NodeId) : f32 :=
  match ws_entries w !! id with
  | Some e => f32_div (f32_of_N (hits e)) (f32_add (f32_of_N (hits e)) f32_one)
  | None => f32_zero
  end.

Definition hysteresis_bonus (w : WorkingSet) (id : NodeId) : f32 :=
  match ws_entries w !! id with Some _ => HYSTERESIS_BONUS | None => f32_zero end.

Definition record_inclusion (w : WorkingSet) (id : NodeId) (now : N) : WorkingSet :=
  let h := from_option hits 0 (ws_entries w !! id) in
  mkWorkingSet (<[id := mkResident now ((h + 1) mod two32)]> (ws_entries w)) (vocabulary_complexity_samples w) (capability_tier_reaches w)
    (error_recovery_events w).

Definition record_signal (w : WorkingSet) (s : ExpertiseSignal) : WorkingSet :=
  match s with
  | VocabularyComplexity x =>
      mkWorkingSet (ws_entries w) (vocabulary_complexity_samples w ++ [x]) (capability_tier_reaches w) (error_recovery_events w)
  | TierReach r => mkWorkingSet (ws_entries w) (vocabulary_complexity_samples w) (capability_tier_reaches w ++ [r]) (error_recovery_events w)
  | ErrorRecovery p => mkWorkingSet (ws_entries w) (vocabulary_complexity_samples w) (capability_tier_reaches w) (error_recovery_events w ++ [p])
  end.

Definition len32 {A : Type} (l : list A) : f32 := f32_of_N (N.of_nat (length l)).

(** [{:.2}]: the nearest hundredth, even if there are two. *)
Definition hundredths (m : positive) (e : Z) : Z :=
  if (0 <=? e)%Z then (Z.pos m * 100 * 2 ^ e)%Z
  else let d := (2 ^ (- e))%Z in
       let q := (Z.pos m * 100 / d)%Z in
       let r := (Z.pos m * 100 mod d)%Z in
       (if (2 * r <? d) || ((2 * r =? d) && Z.even q) then q else q + 1)%Z.
Definition sign_text (s : bool) : text := if s then lit "-" else [].
Definition two_places (k : Z) : text :=
  debug_u64 (Z.to_N (k / 100)) ++ lit "." ++ [48 + Z.to_N (k mod 100 / 10); 48 + Z.to_N (k mod 10)].
Definition fixed2 (x : f32) : text :=
  match x with
  | S754_zero s => sign_text s ++ lit "0.00"
  | S754_infinity s => sign_text s ++ lit "inf"
  | S754_nan => lit "NaN"
  | S754_finite s m e => sign_text s ++ two_places (hundredths m e)
  end.

(** [x as usize], for a number that is not negative. *)
Definition f32_to_usize (x : f32) : N :=
  match x with
  | S754_nan | S754_zero _ => 0
  | S754_infinity s => if s then 0 else two64 - 1
  | S754_finite s m e => if s then 0 else N.min (Z.to_N (if (0 <=? e)%Z then Z.pos m * 2 ^ e else Z.pos m / 2 ^ (- e))) (two64 - 1)
  end.

Definition total_hits (w : WorkingSet) : N := foldr (fun e n => (hits e + n) mod two32) 0 (map_to_list (ws_entries w)).*2.
Definition raw_api_count (l : list CapabilityTierReach) : nat := length (List.filter (fun r => match r with RawApi => true | _ => false end) l).
Definition self_corrected_count (l : list ErrorRecoveryPattern) : nat :=
  length (List.filter (fun p => match p with SelfCorrected => true | _ => false end) l).
Definition debug_nat (n : nat) : text := debug_u64 (N.of_nat n).

(** Each signal adds to the score, with a line of evidence, if there is a sample. *)
Definition vocabulary_part (l : list f32) : option (f32 -> f32) * list text :=
  match l with
  | [] => (None, [])
  | _ => let avg := f32_div (f32_sum l) (len32 l) in
         (Some (fun score => f32_add score (f32_mul avg (f32_of_N 10))),
          [lit "average vocabulary complexity " ++ fixed2 avg ++ lit " over " ++ debug_nat (length l) ++ lit " recent utterance(s)"])
  end.
Definition reach_part (l : list CapabilityTierReach) : option (f32 -> f32) * list text :=
  match l with
  | [] => (None, [])
  | _ => let raw := raw_api_count l in
         (Some (fun score => f32_add score (f32_mul (f32_div (f32_of_N (N.of_nat raw)) (len32 l)) (f32_of_N 10))),
          [lit "reached for a raw Capability directly " ++ debug_nat raw ++ lit "/" ++ debug_nat (length l)
           ++ lit " time(s) rather than a guided workflow"])
  end.
Definition recovery_part (l : list ErrorRecoveryPattern) : option (f32 -> f32) * list text :=
  match l with
  | [] => (None, [])
  | _ => let k := self_corrected_count l in
         let ratio := f32_div (f32_of_N (N.of_nat k)) (len32 l) in
         (Some (fun score => f32_add score (f32_sub (f32_mul ratio (f32_of_N 10)) (f32_mul (f32_sub f32_one ratio) (f32_of_N 5)))),
          [lit "self-corrected with more precise steering " ++ debug_nat k ++ lit "/" ++ debug_nat (length l)
           ++ lit " time(s) rather than asking for an explanation"])
  end.

Definition level_of (score : N) : ExpertiseLevel * f32 :=
  if score =? 0 then (Novice, f32_zero)
  else if score <=? 4 then (Novice, f32_lit 2 10)
  else if score <=? 14 then (Intermediate, f32_lit 5 10)
  else if score <=? 29 then (Advanced, f32_lit 7 10)
  else (Expert, f32_lit 85 100).

Definition expertise_estimate (w : WorkingSet) (domain : text) : ExpertiseEstimate :=
  let distinct := N.of_nat (size (ws_entries w)) in
  let total := total_hits w in
  let parts := [vocabulary_part (vocabulary_complexity_samples w); reach_part (capability_tier_reaches w); recovery_part (error_recovery_events w)] in
  let score := fold_left (fun score f => f score) (omap fst parts) (f32_of_N (distinct + total)) in
  let '(level, base) := level_of (f32_to_usize (f32_max score f32_zero)) in
  mkEstimate domain level
    ((debug_u64 distinct ++ lit " distinct working-set entries, " ++ debug_u64 total ++ lit " cumulative hits this session") :: (parts ≫= snd))
    (f32_min (f32_add base (f32_mul (f32_lit 5 100) (f32_of_N (N.of_nat (length (omap fst parts)))))) (f32_lit 95 100)).

(** ** expertise.rs *)

Definition LONG_WORD_CHARS : nat := 8.
Definition BASELINE_AVG_WORD_LEN : f32 := f32_of_N 4.
Definition SATURATING_AVG_WORD_LEN : f32 := f32_of_N 12.

Definition vocabulary_complexity `{Unicode} (utterance : text) : f32 :=
  match split_whitespace utterance with
  | [] => f32_zero
  | words =>
      let avg := f32_div (f32_of_N (N.of_nat (sum_list_with length words))) (len32 words) in
      let length_component :=
        f32_clamp (f32_div (f32_sub avg BASELINE_AVG_WORD_LEN) (f32_sub SATURATING_AVG_WORD_LEN BASELINE_AVG_WORD_LEN)) f32_zero f32_one in
      let long := f32_div (len32 (List.filter (fun w => LONG_WORD_CHARS <=? length w)%nat words)) (len32 words) in
      f32_clamp (f32_add (f32_mul (f32_lit 5 10) length_component) (f32_mul (f32_lit 5 10) long)) f32_zero f32_one
  end.

(** ** engine.rs *)

Definition CORROBORATION_SATURATION : f32 := f32_of_N 5.
Definition CORROBORATION_MAX_BONUS : f32 := f32_lit 3 10.
Definition AGE_MATURITY_SECS : f32 := f32_mul (f32_of_N 24) (f32_of_N 3600).
Definition AGE_MAX_BONUS : f32 := f32_lit 15 100.
Definition MIN_TRUST_SCORE : f32 := f32_lit 5 10.

Definition origin_base_score (o : NodeOrigin) : f32 :=
  match o with
  | UserAuthored => f32_one
  | AgentGenerated => f32_lit 85 100
  | SyncedRemote => f32_lit 65 100
  | IngestedExternal => f32_lit 4 10
  end.

Definition kg_trust_score {V : Type} (n : NodeRecord (V := V)) (now : N) : f32 :=
  let corroboration := f32_mul (f32_min (f32_div (f32_of_N (corroboration_count n)) CORROBORATION_SATURATION) f32_one) CORROBORATION_MAX_BONUS in
  let age := f32_mul (f32_min (f32_div (f32_of_N (now - KnowledgeGraph.created_at n)) AGE_MATURITY_SECS) f32_one) AGE_MAX_BONUS in
  f32_clamp (f32_add (f32_add (origin_base_score (node_origin n)) corroboration) age) MIN_TRUST_SCORE f32_one.

Inductive Resolution : Type :=
| Resolved (id : NodeId) (confidence : f32)
| AmbiguousEntity (candidates : list NodeId)
| NoEntity.

Record ExplainedEntry := mkExplained {
  ex_node_id : NodeId;
  ex_relevance_score : f32;
  ex_source_signal : list text;
  ex_provenance : ProvenanceChain
}.

Definition DISAMBIGUATION_FLOOR : f32 := f32_lit 6 10.
Definition NOT_FOUND_FLOOR : f32 := f32_lit 3 10.
Definition AMBIGUITY_MARGIN : f32 := f32_lit 15 100.
Definition FULL_THRESHOLD : f32 := f32_lit 5 10.
Definition SUMMARY_THRESHOLD : f32 := f32_lit 25 100.
Definition SMALL_ENTRY_TOKENS : nat := 150.
Definition TRAVERSAL_DEPTH : nat := 2.

(** The graph is shared and not part of the state. *)
Record ContextEngine := mkContext {
  working_sets : gmap text WorkingSet;
  next_bundle_id : N
}.
Definition new_context : ContextEngine := mkContext ∅ 1.

(** [str::parse::<u64>] *)
Fixpoint digits_value (acc : N) (s : text) : option N :=
  match s with
  | [] => Some acc
  | c :: s => if (48 <=? c) && (c <=? 57) then let v := 10 * acc + (c - 48) in if v <? two64 then digits_value v s else None else None
  end.
Definition parse_u64 (s : text) : option N :=
  match (match s with 43 :: s => s | _ => s end) with [] => None | ds => digits_value 0 ds end.

Definition truncate_metadata (v : Json) : Json := match v with JObject l => JObject (take 3 l) | _ => v end.

Definition graph_distance_score (d : option nat) : f32 :=
  match d with
  | None => f32_lit 3 10
  | Some d => if (d <=? 2)%nat then f32_div f32_one (f32_add f32_one (f32_of_N (N.of_nat d))) else f32_lit 5 100
  end.

Definition recency_score (updated now : N) : f32 :=
  f32_div f32_one (f32_add f32_one (f32_div (f32_of_N (now - updated)) (f32_of_N 3600))).

(** [HashSet]: the words. *)
Definition word_set `{Unicode} (s : text) : gset text := list_to_set (split_whitespace s).

Definition fuzzy_match `{Unicode} (needle h : text) : f32 :=
  if bool_decide (h = needle) then f32_one
  else if contains_text h needle || contains_text needle h then f32_lit 75 100
  else
    let overlap := size (word_set needle ∩ word_set h) in
    if Nat.eqb overlap 0 || Nat.eqb (size (word_set needle)) 0 then f32_zero
    else f32_div (f32_of_N (N.of_nat overlap)) (f32_of_N (N.of_nat (Nat.max (size (word_set needle)) (size (word_set h))))).

Definition haystacks `{Unicode} (v : Json) : list text :=
  match v with JObject l => omap (fun kv => to_lowercase <$> as_str kv.2) l | _ => [] end.

Definition fuzzy_match_score `{Unicode} (needle : text) (metadata : Json) : f32 :=
  fold_left (fun x h => f32_max x (fuzzy_match needle h)) (haystacks metadata) f32_zero.

(** [HashSet::into_iter] *)
Definition set_iter `{HashIter} (s : gset NodeId) : list NodeId := fst <$> hash_iter (gset_to_gmap tt s).

Section context.
Context `{Codec (WalRecord Json)} `{Aead} `{HashIter} {M : Type} `{Authority M} `{Unicode} `{JsonBytes}.
(** What the model answers to a prompt (bytes); [None] without one, or when it fails. *)
Context (infer : Instant -> M -> CapabilityToken -> list N -> option text).

Abbreviation kg := (KnowledgeGraph (V := Json)).
Abbreviation node := (NodeRecord (V := Json)).

Definition estimate_tokens (v : Json) : nat := Nat.div (length (json_bytes v)) 4.

Definition summarize (now : Instant) (m : M) (t : CapabilityToken) (metadata : Json) : Json :=
  let prompt := lit "Summarize the following JSON object in one short sentence, keeping only its most salient fields:" ++ [10] ++ json_bytes metadata in
  match infer now m t prompt with
  | Some answer => JString answer
  | None => truncate_metadata metadata
  end.

(** *** Entities *)

Definition entity_hit (w : WorkingSet) (needle : text) (h : QueryHit (V := Json)) : option (NodeId * f32) :=
  let score := fuzzy_match_score needle (node_metadata (KnowledgeGraph.node h)) in
  if f32_leb score f32_zero then None
  else Some (node_id h, f32_min (f32_add score (f32_mul (interaction_frequency w (node_id h)) (f32_lit 15 100))) f32_one).

Definition resolve_scored (scored : list (NodeId * f32)) : Resolution :=
  match scored with
  | [] => NoEntity
  | (top_id, top) :: rest =>
      if f32_ltb top NOT_FOUND_FLOOR then NoEntity
      else
        let runner_up := match rest with (_, s) :: _ => s | [] => f32_zero end in
        if f32_ltb top DISAMBIGUATION_FLOOR && f32_ltb (f32_sub top runner_up) AMBIGUITY_MARGIN
        then AmbiguousEntity (fst <$> List.filter (fun x => f32_ltb (f32_abs (f32_sub top x.2)) AMBIGUITY_MARGIN) scored)
        else Resolved top_id top
  end.

Definition resolve_entity_locked (now : Instant) (m : M) (t : CapabilityToken) (g : kg) (mention : text) (w : WorkingSet) :
    Result Resolution GraphError :=
  let? found := KnowledgeGraph.query now m t g (mkQuery None None None None None 200) in
  let needle := to_lowercase mention in
  Ok (resolve_scored (sort_desc snd (omap (entity_hit w needle)
        (List.filter (fun h => owner (KnowledgeGraph.node h) =? origin t) found)))).

Definition session_set (c : ContextEngine) (session : text) : WorkingSet := default empty_set (working_sets c !! session).
Definition with_set (c : ContextEngine) (session : text) (w : WorkingSet) : ContextEngine :=
  mkContext (<[session := w]> (working_sets c)) (next_bundle_id c).

Definition resolve_entity (now : Instant) (m : M) (t : CapabilityToken) (g : kg) (c : ContextEngine) (mention session : text) :
    Result Resolution GraphError * ContextEngine :=
  let w := session_set c session in
  (resolve_entity_locked now m t g mention w, with_set c session w).

(** *** Candidates *)

Definition closer (d : gmap NodeId nat) (x : NodeId * node * nat) : gmap NodeId nat :=
  <[x.1.1 := match d !! x.1.1 with Some k => Nat.min k x.2 | None => x.2 end]> d.

Definition or_insert (d : gmap NodeId nat) (id : NodeId) : gmap NodeId nat := match d !! id with Some _ => d | None => <[id := O]> d end.

Fixpoint near_anchors (now : Instant) (m : M) (t : CapabilityToken) (g : kg) (l : list NodeId) (d : gmap NodeId nat) :
    Result (gmap NodeId nat) GraphError :=
  match l with
  | [] => Ok d
  | a :: l =>
      match traverse now m t g a None TRAVERSAL_DEPTH with
      | Ok sub => near_anchors now m t g l (fold_left closer (sub_nodes sub) (or_insert d a))
      | Err NotFound => near_anchors now m t g l d
      | Err e => Err e
      end
  end.

Fixpoint mentioned (now : Instant) (m : M) (t : CapabilityToken) (g : kg) (w : WorkingSet) (l : list text) (ids : gset NodeId) (d : gmap NodeId nat) :
    Result (gset NodeId * gmap NodeId nat) GraphError :=
  match l with
  | [] => Ok (ids, d)
  | mention :: l =>
      let? r := resolve_entity_locked now m t g mention w in
      match r with
      | Resolved id _ => mentioned now m t g w l ({[id]} ∪ ids) (or_insert d id)
      | _ => mentioned now m t g w l ids d
      end
  end.

Definition intent_anchor (now : Instant) (m : M) (t : CapabilityToken) (g : kg) (sc : Scope) : option NodeId :=
  id ← parse_u64 (sc_intent_id sc);
  match KnowledgeGraph.get now m t g id with Ok _ => Some id | Err _ => None end.

(** *** Ranking *)

Definition base_score (w : WorkingSet) (explicit : gset NodeId) (d : gmap NodeId nat) (id : NodeId) (n : node) (wall : N) : f32 :=
  let recency := recency_score (KnowledgeGraph.updated_at n) wall in
  let e := if bool_decide (id ∈ explicit) then f32_one else f32_zero in
  f32_add (f32_add (f32_add (f32_add (f32_mul (f32_lit 35 100) recency) (f32_mul (f32_lit 35 100) e))
                      (f32_mul (f32_lit 20 100) (graph_distance_score (d !! id))))
             (f32_mul (f32_lit 10 100) (interaction_frequency w id)))
    (hysteresis_bonus w id).

Definition rank (w : WorkingSet) (explicit : gset NodeId) (d : gmap NodeId nat) (id : NodeId) (n : node) (wall : N) : f32 :=
  f32_mul (base_score w explicit d id n wall) (kg_trust_score n wall).

Fixpoint score_each (now : Instant) (m : M) (t : CapabilityToken) (g : kg) (score : NodeId -> node -> f32) (l : list NodeId) :
    Result (list (NodeId * f32 * node)) GraphError :=
  match l with
  | [] => Ok []
  | id :: l =>
      match KnowledgeGraph.get now m t g id with
      | Ok n =>
          let? rest := score_each now m t g score l in
          Ok (if owner n =? origin t then (id, score id n, n) :: rest else rest)
      | Err NotFound => score_each now m t g score l
      | Err e => Err e
      end
  end.

(** *** Packing *)

Definition represent (now : Instant) (m : M) (t : CapabilityToken) (score : f32) (n : node) : InclusionMode * Json * nat :=
  let full := estimate_tokens (node_metadata n) in
  if f32_ltb FULL_THRESHOLD score && (full <=? SMALL_ENTRY_TOKENS)%nat then (InFull, node_metadata n, full)
  else if f32_ltb SUMMARY_THRESHOLD score then
    let summary := summarize now m t (node_metadata n) in (InSummary, summary, Nat.min (estimate_tokens summary) 60)
  else (InReference, JNull, 5%nat).

Definition signals (w : WorkingSet) (explicit : gset NodeId) (d : gmap NodeId nat) (id : NodeId) : list text :=
  (if bool_decide (id ∈ explicit) then [lit "explicit_mention"] else [])
  ++ match d !! id with Some O => [lit "anchor"] | Some _ => [lit "graph_traversal"] | None => [] end
  ++ (if f32_ltb f32_zero (interaction_frequency w id) then [lit "working_set"] else []).

Fixpoint include_each (now : Instant) (m : M) (t : CapabilityToken) (wall : N) (b : Budget) (explicit : gset NodeId) (d : gmap NodeId nat)
    (l : list (NodeId * f32 * node)) (used : nat) (counts : gmap text nat) (w : WorkingSet) : list ContextEntry * WorkingSet :=
  match l with
  | [] => ([], w)
  | (id, score, n) :: l =>
      let category := object_type n in
      let count := default O (counts !! category) in
      if (max_entries_per_category b <=? count)%nat
      then include_each now m t wall b explicit d l used (<[category := count]> counts) w
      else
        let '(mode, content, cost) := represent now m t score n in
        if (max_tokens b <? used + cost)%nat then ([], w)
        else
          let e := mkEntry category id mode content score (signals w explicit d id) (KnowledgeGraph.updated_at n) wall in
          let '(rest, w) := include_each now m t wall b explicit d l (used + cost) (<[category := S count]> counts) (record_inclusion w id wall) in
          (e :: rest, w)
  end.

(** The ranked candidates, with what was mentioned and how far they are. *)
Definition ranked (now : Instant) (m : M) (t : CapabilityToken) (g : kg) (w : WorkingSet) (sc : Scope) (wall : N) :
    Result (list (NodeId * f32 * node) * gset NodeId * gmap NodeId nat) GraphError :=
  let? near := near_anchors now m t g (anchors sc ++ option_list (intent_anchor now m t g sc)) ∅ in
  let? found := mentioned now m t g w (mentions sc) ∅ near in
  let '(explicit, d) := found in
  let candidates := dom (ws_entries w) ∪ dom d ∪ explicit in
  let? scored := score_each now m t g (fun id n => rank w explicit d id n wall) (set_iter candidates) in
  Ok (sort_desc (fun x => x.1.2) scored, explicit, d).

Definition assemble (now : Instant) (m : M) (t : CapabilityToken) (g : kg) (c : ContextEngine) (sc : Scope) (b : Budget) (wall : N) :
    Result ContextBundle GraphError * ContextEngine :=
  let w := session_set c (sc_session_id sc) in
  match ranked now m t g w sc wall with
  | Err e => (Err e, with_set c (sc_session_id sc) w)
  | Ok (l, explicit, d) =>
      let '(es, w) := include_each now m t wall b explicit d l 0 ∅ w in
      (Ok (mkBundle (next_bundle_id c) sc es wall b (expertise_estimate w (lit "general"))),
       mkContext (<[sc_session_id sc := w]> (working_sets c)) (u64_add (next_bundle_id c) 1))
  end.

(** *** The rest *)

Definition expand (now : Instant) (m : M) (t : CapabilityToken) (g : kg) (e : ContextEntry) : Result Json GraphError :=
  let? n := KnowledgeGraph.get now m t g (ce_node_id e) in Ok (node_metadata n).

Fixpoint explain_each (now : Instant) (m : M) (t : CapabilityToken) (g : kg) (l : list ContextEntry) : Result (list ExplainedEntry) GraphError :=
  match l with
  | [] => Ok []
  | e :: l =>
      let? p := KnowledgeGraph.explain now m t g (ExplainNode (ce_node_id e)) in
      let? rest := explain_each now m t g l in
      Ok (mkExplained (ce_node_id e) (relevance_score e) (source_signal e) p :: rest)
  end.
Definition explain_bundle (now : Instant) (m : M) (t : CapabilityToken) (g : kg) (b : ContextBundle) : Result (list ExplainedEntry) GraphError :=
  explain_each now m t g (cb_entries b).

Definition current_expertise (c : ContextEngine) (session domain : text) : ExpertiseEstimate :=
  match working_sets c !! session with
  | Some w => expertise_estimate w domain
  | None => mkEstimate domain Novice [lit "no working-set activity yet for this session"] f32_zero
  end.

Definition record_expertise_signal (c : ContextEngine) (session : text) (s : ExpertiseSignal) : ContextEngine :=
  with_set c session (record_signal (session_set c session) s).

(** What the intent engine and the semantic file system ask of it. *)
#[export] Instance engine_context : ContextResolver Json M ContextEngine := {|
  ContextError := GraphError;
  cx_resolve now m t g c mention session :=
    let '(r, c) := resolve_entity now m t g c mention session in
    (match r with
     | Ok (Resolved id _) => Ok (EntityResolved id)
     | Ok (AmbiguousEntity l) => Ok (EntityAmbiguous l)
     | Ok NoEntity => Ok EntityNotFound
     | Err e => Err e
     end, c);
  cx_record_utterance c session utterance := record_expertise_signal c session (VocabularyComplexity (vocabulary_complexity utterance))
|}.
End context.

(** ** propagation.rs *)

Inductive TrustLevel : Type := SameBoundary | TrustedAgent | SandboxedCapability | RemoteDevice.
Inductive RedactionAction : Type := PassOn | Summarize | Redact.

#[export] Instance trust_level_eq_dec : EqDecision TrustLevel.
Proof. solve_decision. Defined.
#[export] Instance redaction_action_eq_dec : EqDecision RedactionAction.
Proof. solve_decision. Defined.

Record RedactionPolicy := mkPolicy {
  target_trust_level : TrustLevel;
  field_rules : gmap text RedactionAction
}.
Definition rule_for (p : RedactionPolicy) (category : text) : RedactionAction := default Redact (field_rules p !! category).

Inductive Representation : Type :=
| ByReference (id : NodeId)
| ByValue (id : NodeId) (content : Json)
| RedactedPlaceholder (category reason : text).

Record EnvelopeEntry := mkEnvEntry {
  env_category : text;
  representation : Representation
}.

Record EnvelopeProvenance := mkEnvProvenance {
  originating_boundary : N;
  capability_token_id : N;
  agent_chain : list N
}.

Record EnvelopeStaleness := mkStaleness {
  per_entry_generation : gmap NodeId N;
  freshness_horizon_secs : N;
  st_captured_at : N
}.

Definition SCHEMA_VERSION : text := lit "1".

Inductive FreshnessStatus : Type := Fresh | StaleWithinHorizon | StaleBeyondHorizon.

#[export] Instance freshness_eq_dec : EqDecision FreshnessStatus.
Proof. solve_decision. Defined.

Abbreviation FreshnessReport := (gmap NodeId FreshnessStatus).

Inductive MergeOutcome : Type :=
| Merged (l : list ContextEntry)
| Conflicts (l : list (ContextEntry * ContextEntry)).

Inductive PropagationError : Type := IntegrityFailure | Replayed (id : N) | PropagationGraph (e : GraphError).

(** [{:?}] *)
Definition debug_trust (l : TrustLevel) : text :=
  match l with
  | SameBoundary => lit "SameBoundary"
  | TrustedAgent => lit "TrustedAgent"
  | SandboxedCapability => lit "SandboxedCapability"
  | RemoteDevice => lit "RemoteDevice"
  end.

Record ContextPropagation := mkPropagation {
  replay_cache : gset N;
  next_envelope_id : N
}.
Definition new_propagation : ContextPropagation := mkPropagation ∅ 1.

(** What the signature covers: all fields but itself, the generations in the order in
    which the map gives them. *)
Record EnvelopeFields := mkFields {
  ef_envelope_id : N;
  ef_schema_version : text;
  ef_intent_id : text;
  ef_session_id : text;
  ef_entries : list EnvelopeEntry;
  ef_provenance : EnvelopeProvenance;
  ef_scope_applied : TrustLevel;
  ef_generations : list (NodeId * N);
  ef_horizon : N;
  ef_captured_at : N
}.

Definition printable_entry (e : EnvelopeEntry) : bool := match representation e with ByValue _ v => printable_within 120 v | _ => true end.

(** [serde_json::to_vec] of an envelope: what was written is read back, if its values are
    such as are read back inside it. *)
Class EnvelopeJson := {
  envelope_to_vec : EnvelopeFields -> list N;
  envelope_from_slice : list N -> option EnvelopeFields;
  envelope_from_to : forall f, forallb printable_entry (ef_entries f) = true -> envelope_from_slice (envelope_to_vec f) = Some f
}.

Section propagation.
Context `{Codec (WalRecord Json)} `{Aead} `{Signatures} {M : Type} `{Authority M} `{EnvelopeJson}.

Abbreviation kg := (KnowledgeGraph (V := Json)).

Record ContextEnvelope := mkEnvelope {
  envelope_id : N;
  schema_version : text;
  bundle_intent_id : text;
  bundle_session_id : text;
  env_entries : list EnvelopeEntry;
  env_provenance : EnvelopeProvenance;
  scope_applied : TrustLevel;
  staleness : EnvelopeStaleness;
  integrity : option Signature
}.

(** The order is that of the map at hand. *)
Definition fields_of (gens : list (NodeId * N)) (e : ContextEnvelope) : EnvelopeFields :=
  mkFields (envelope_id e) (schema_version e) (bundle_intent_id e) (bundle_session_id e) (env_entries e) (env_provenance e) (scope_applied e)
    gens (freshness_horizon_secs (staleness e)) (st_captured_at (staleness e)).
Definition envelope_bytes {order : HashIter} (e : ContextEnvelope) : list N :=
  envelope_to_vec (fields_of (hash_iter (per_entry_generation (staleness e))) e).

Definition with_integrity (e : ContextEnvelope) (s : option Signature) : ContextEnvelope :=
  mkEnvelope (envelope_id e) (schema_version e) (bundle_intent_id e) (bundle_session_id e) (env_entries e) (env_provenance e) (scope_applied e)
    (staleness e) s.

Definition sign_envelope {order : HashIter} (e : ContextEnvelope) (k : SigningKey) : ContextEnvelope :=
  with_integrity e (Some (sign k (envelope_bytes (with_integrity e None)))).

Definition verify_envelope {order : HashIter} (e : ContextEnvelope) (vk : VerifyingKey) : bool :=
  match integrity e with
  | None => false
  | Some s => verify (envelope_bytes (with_integrity e None)) s vk
  end.

(** One entry of an envelope, and the generation it had. *)
Definition export_entry (now : Instant) (m : M) (t : CapabilityToken) (g : kg) (target : TrustLevel) (p : RedactionPolicy) (e : ContextEntry) :
    Result (EnvelopeEntry * option (NodeId * N)) GraphError :=
  match rule_for p (ce_category e) with
  | Redact => Ok (mkEnvEntry (ce_category e) (RedactedPlaceholder (ce_category e) (lit "policy:" ++ debug_trust target)), None)
  | rule =>
      let? gen := generation_of now m t g (ce_node_id e) in
      let? r := (if bool_decide (target = SameBoundary) then Ok (ByReference (ce_node_id e))
                 else let? n := KnowledgeGraph.get now m t g (ce_node_id e) in
                      Ok (ByValue (ce_node_id e) (match rule with Summarize => truncate_metadata (node_metadata n) | _ => node_metadata n end))) in
      Ok (mkEnvEntry (ce_category e) r, Some (ce_node_id e, gen))
  end.

Fixpoint export_each (now : Instant) (m : M) (t : CapabilityToken) (g : kg) (target : TrustLevel) (p : RedactionPolicy) (l : list ContextEntry)
    (gens : gmap NodeId N) : Result (list EnvelopeEntry * gmap NodeId N) GraphError :=
  match l with
  | [] => Ok ([], gens)
  | e :: l =>
      let? x := export_entry now m t g target p e in
      let? rest := export_each now m t g target p l (match x.2 with Some (id, gen) => <[id := gen]> gens | None => gens end) in
      Ok (x.1 :: rest.1, rest.2)
  end.

Definition export_bundle {order : HashIter} (now : Instant) (m : M) (t : CapabilityToken) (g : kg) (s : ContextPropagation) (b : ContextBundle)
    (target : TrustLevel) (p : RedactionPolicy) (horizon : N) (k : SigningKey) (wall : N) : Result ContextEnvelope PropagationError * ContextPropagation :=
  match export_each now m t g target p (cb_entries b) ∅ with
  | Err e => (Err (PropagationGraph e), s)
  | Ok (es, gens) =>
      (Ok (sign_envelope (mkEnvelope (next_envelope_id s) SCHEMA_VERSION (sc_intent_id (cb_scope b)) (sc_session_id (cb_scope b)) es
                            (mkEnvProvenance (origin t) (token_id t) []) target (mkStaleness gens horizon wall) None) k),
       mkPropagation (replay_cache s) (u64_add (next_envelope_id s) 1))
  end.

Definition freshness (now : Instant) (m : M) (t : CapabilityToken) (g : kg) (e : ContextEnvelope) (wall : N) (id : NodeId) (captured : N) : FreshnessStatus :=
  match generation_of now m t g id with
  | Ok current =>
      if current =? captured then Fresh
      else if wall - st_captured_at (staleness e) <=? freshness_horizon_secs (staleness e) then StaleWithinHorizon else StaleBeyondHorizon
  | Err _ => StaleBeyondHorizon
  end.

Definition freshness_report (now : Instant) (m : M) (t : CapabilityToken) (g : kg) (e : ContextEnvelope) (wall : N) : FreshnessReport :=
  map_imap (fun id captured => Some (freshness now m t g e wall id captured)) (per_entry_generation (staleness e)).

Definition check_staleness := freshness_report.

Definition node_of (r : Representation) : option NodeId :=
  match r with ByReference id | ByValue id _ => Some id | RedactedPlaceholder _ _ => None end.

Definition downgrade (report : FreshnessReport) (e : EnvelopeEntry) : EnvelopeEntry :=
  match node_of (representation e) ≫= fun id => report !! id with
  | Some StaleBeyondHorizon => mkEnvEntry (env_category e) (RedactedPlaceholder (env_category e) (lit "stale"))
  | _ => e
  end.

Definition import_envelope {order : HashIter} (now : Instant) (m : M) (t : CapabilityToken) (g : kg) (s : ContextPropagation) (e : ContextEnvelope)
    (vk : VerifyingKey) (wall : N) : Result (list EnvelopeEntry * FreshnessReport) PropagationError * ContextPropagation :=
  if negb (verify_envelope e vk) then (Err IntegrityFailure, s)
  else if bool_decide (envelope_id e ∈ replay_cache s) then (Err (Replayed (envelope_id e)), s)
  else
    let s := mkPropagation ({[envelope_id e]} ∪ replay_cache s) (next_envelope_id s) in
    let report := freshness_report now m t g e wall in
    (Ok (downgrade report <$> env_entries e, report), s).

Definition revalidate (now : Instant) (m : M) (t : CapabilityToken) (g : kg) (id : NodeId) : Result EnvelopeEntry PropagationError :=
  match KnowledgeGraph.get now m t g id with
  | Ok n => Ok (mkEnvEntry (object_type n) (ByValue id (node_metadata n)))
  | Err e => Err (PropagationGraph e)
  end.
End propagation.

(** [collect] into a map: the last entry of a node stays. *)
Definition by_node (l : list ContextEntry) : gmap NodeId ContextEntry := fold_left (fun m e => <[ce_node_id e := e]> m) l ∅.

Definition merge_pair (a b : ContextEntry) : ContextEntry + ContextEntry * ContextEntry :=
  if ce_generation a =? ce_generation b then inl a
  else if negb (bool_decide (ce_category a = ce_category b)) || negb (bool_decide (ce_content a = ce_content b)) then inr (a, b)
  else inl (if ce_generation b <=? ce_generation a then a else b).

Definition merge_node (ma mb : gmap NodeId ContextEntry) (id : NodeId) : option (ContextEntry + ContextEntry * ContextEntry) :=
  match ma !! id, mb !! id with
  | Some a, Some b => Some (merge_pair a b)
  | Some a, None => Some (inl a)
  | None, Some b => Some (inl b)
  | None, None => None
  end.

Definition merge `{HashIter} (a b : list ContextEntry) : MergeOutcome :=
  let ma := by_node a in
  let mb := by_node b in
  let l := omap (merge_node ma mb) (set_iter (dom ma ∪ dom mb)) in
  match omap (fun x => match x with inr c => Some c | inl _ => None end) l with
  | [] => Merged (omap (fun x => match x with inl e => Some e | inr _ => None end) l)
  | conflicts => Conflicts conflicts
  end.
