(* ===== verification/ContextBundles.v ===== *)
(** What a bundle of context holds and what leaves the trust boundary: bundles keep to
    their budget, to the caller's own nodes and to the order of relevance; envelopes say
    what the policy lets through, once, and only as they were signed. *)
From S2P Require Import Prelude Crypto Capability Authority Wal Storage DebugFmt F32 F32Facts Json KnowledgeGraph NodeStore Explainability Identity Security Coordination CoordinationRuns Text Memory Intent IntentPlans SemanticFs FsPaths Context.
From Stdlib Require Import Floats.SpecFloat.
Open Scope N_scope.

Abbreviation text := (list N).

(** The two copies of the trust score are in step. *)
Lemma trust_scores_agree {V : Type} (n : NodeRecord (V := V)) now : Context.kg_trust_score n now = Security.kg_trust_score n now.
Proof. done. Qed.

(** ** Scores are numbers *)

(** Not below zero, and not the zero below it. *)
Definition above (x : f32) : Prop := match x with S754_zero false | S754_infinity false | S754_finite false _ _ => True | _ => False end.

Lemma above_nonneg x : above x -> nonneg x.
Proof. by destruct x as [[]|[]| |[]]. Qed.

Lemma round_above p e : above (binary_round 24 128 false p e).
Proof.
  unfold binary_round. destruct (shl_align p e _) as [mz ez]. pose proof (round_aux_not_nan false (Z.pos mz) ez loc_Exact ltac:(lia)) as Hn. revert Hn.
  unfold binary_round_aux. destruct (shr_fexp 24 128 _ ez _) as [mrs e']. destruct (shr_fexp 24 128 _ e' loc_Exact) as [mrs' e''].
  destruct (shr_m mrs'); [done| |done]. by destruct (_ <=? _)%Z.
Qed.

Lemma f32_add_above a b : above a -> nonneg b -> above (f32_add a b).
Proof.
  destruct a as [[]|[]| |[] ma ea], b as [[]|[]| |[] mb eb]; try done; intros _ _.
  unfold f32_add, SFadd. set (z := cond_Zopp _ _). set (z' := cond_Zopp _ _).
  assert (Hz : (0 < z + z')%Z) by (unfold z, z'; simpl; lia). destruct (z + z')%Z as [|p|p]; [lia|apply round_above|lia].
Qed.

Lemma f32_div_above a b : is_finite a = true -> (forall s, a <> S754_zero s) -> nonneg a -> above b -> nonneg (f32_div a b).
Proof. destruct a as [sa|[]| |[] ma ea]; try done; intros _ Hz _; [by destruct (Hz sa)|]. destruct b as [[]|[]| |[] mb eb]; try done. intros _. by apply f32_div_nonneg. Qed.

Lemma recency_nonneg u now : nonneg (recency_score u now).
Proof.
  unfold recency_score. apply f32_div_above; [done..|]. apply f32_add_above; [done|]. set (h := f32_of_N 3600). vm_compute in h. subst h. apply f32_div_nonneg, f32_of_N_nonneg.
Qed.

Lemma distance_nonneg d : nonneg (graph_distance_score d).
Proof. destruct d as [[|[|[|d]]]|]; by vm_compute. Qed.

(** The counts of a working set fit into 32 bits. *)
Definition set_ok (w : WorkingSet) : Prop := map_Forall (fun _ e => hits e < two32) (ws_entries w).
Definition context_ok (c : ContextEngine) : Prop := map_Forall (fun _ w => set_ok w) (working_sets c).

Lemma frequency_nonneg w id : set_ok w -> nonneg (interaction_frequency w id).
Proof.
  intros Hw. unfold interaction_frequency. destruct (ws_entries w !! id) as [e|] eqn:He; [|done]. specialize (Hw id e He). cbn in Hw.
  destruct (hits e) as [|p]; [by vm_compute|]. assert (Hfin : is_finite (f32_of_N (N.pos p)) = true).
  { eapply within_magnitude_finite, f32_of_u32. unfold two32, U32_MAX in *. lia. }
  pose proof (round_above p 0) as Hab. change (binary_round 24 128 false p 0) with (f32_of_N (N.pos p)) in Hab.
  apply f32_div_above; [done|apply f32_of_pos_nonzero|by apply above_nonneg|]. by apply f32_add_above.
Qed.

Lemma base_score_nonneg w ex d id (n : NodeRecord (V := Json)) wall : set_ok w -> nonneg (base_score w ex d id n wall).
Proof.
  intros Hw. unfold base_score. set (a := f32_lit 35 100). set (b := f32_lit 20 100). set (c := f32_lit 10 100). vm_compute in a, b, c. subst a b c.
  repeat apply f32_add_nonneg.
  - apply f32_mul_pos, recency_nonneg.
  - apply f32_mul_pos. by case_bool_decide.
  - apply f32_mul_pos, distance_nonneg.
  - by apply f32_mul_pos, frequency_nonneg.
  - unfold hysteresis_bonus. by destruct (ws_entries w !! id).
Qed.

Lemma trust_positive {V : Type} (n : NodeRecord (V := V)) now : exists m e, Context.kg_trust_score n now = S754_finite false m e.
Proof.
  rewrite trust_scores_agree. destruct (trust_score_bounds n now) as (Hnan & Hlo & Hhi). destruct (Security.kg_trust_score n now) as [s|s| |[] m e]; try done.
  - by destruct s.
  - by eexists _, _.
Qed.

Lemma rank_not_nan w ex d id (n : NodeRecord (V := Json)) wall : set_ok w -> is_nan (rank w ex d id n wall) = false.
Proof.
  intros Hw. unfold rank. destruct (trust_positive n wall) as (m & e & ->). apply nonneg_not_nan. by apply f32_mul_pos, base_score_nonneg.
Qed.

(** ** Bundles *)

Section bundles.
Context `{Codec (WalRecord Json)} `{Aead} `{HashIter} {M : Type} `{Authority M} `{Unicode} `{JsonBytes}.
Context (infer : Instant -> M -> CapabilityToken -> list N -> option text).

Abbreviation kg := (KnowledgeGraph (V := Json)).
Abbreviation node := (NodeRecord (V := Json)).
Abbreviation candidate := (NodeId * f32 * node)%type.

(** What an entry is charged. *)
Definition charged (e : ContextEntry) : nat :=
  match inclusion_mode e with
  | InFull => estimate_tokens (ce_content e)
  | InSummary => Nat.min (estimate_tokens (ce_content e)) 60
  | InReference => 5
  end.

(** The tokens an entry really has; a reference carries nothing, and counts as five. *)
Definition tokens (e : ContextEntry) : nat :=
  match inclusion_mode e with InReference => 5 | _ => estimate_tokens (ce_content e) end.

Lemma charged_in_full es :
  Forall (fun e => inclusion_mode e = InSummary -> (estimate_tokens (ce_content e) <= 60)%nat) es ->
  sum_list_with tokens es = sum_list_with charged es.
Proof.
  induction 1 as [|e es He _ IH]; [done|]. cbn. rewrite IH. f_equal. unfold tokens, charged.
  destruct (inclusion_mode e); [done| |done]. specialize (He eq_refl). lia.
Qed.

(** The entries of a category. *)
Definition of_category (k : text) (es : list ContextEntry) : nat := length (List.filter (fun e => bool_decide (ce_category e = k)) es).

(** The entry made of a candidate. *)
Record entry_of (now : Instant) (m : M) (t : CapabilityToken) (wall : N) (x : candidate) (e : ContextEntry) : Prop := {
  eo_id : ce_node_id e = x.1.1;
  eo_category : ce_category e = object_type x.2;
  eo_score : relevance_score e = x.1.2;
  eo_generation : ce_generation e = KnowledgeGraph.updated_at x.2;
  eo_captured : ce_captured_at e = wall;
  eo_content :
    match inclusion_mode e with
    | InFull => ce_content e = node_metadata x.2 /\ f32_ltb FULL_THRESHOLD x.1.2 = true /\ (estimate_tokens (ce_content e) <= SMALL_ENTRY_TOKENS)%nat
    | InSummary => ce_content e = summarize infer now m t (node_metadata x.2) /\ f32_ltb SUMMARY_THRESHOLD x.1.2 = true
    | InReference => ce_content e = JNull /\ f32_ltb SUMMARY_THRESHOLD x.1.2 = false
    end
}.

Lemma represent_ok now m t wall id score (n : node) sig mode content cost :
  represent infer now m t score n = (mode, content, cost) ->
  let e := mkEntry (object_type n) id mode content score sig (KnowledgeGraph.updated_at n) wall in
  charged e = cost /\ entry_of now m t wall (id, score, n) e.
Proof.
  unfold represent. intros Hr. destruct (f32_ltb FULL_THRESHOLD score && _) eqn:Hf.
  - injection Hr as <- <- <-. apply andb_true_iff in Hf as [Hf Hs%Nat.leb_le]. by split.
  - destruct (f32_ltb SUMMARY_THRESHOLD score) eqn:Hsum; injection Hr as <- <- <-; by split.
Qed.

Lemma entry_ids now m t wall (l : list candidate) es : Forall2 (entry_of now m t wall) l es -> ce_node_id <$> es = (fun x : candidate => x.1.1) <$> l.
Proof. induction 1 as [|x e l es He _ IH]; [done|]. rewrite !fmap_cons, IH. by rewrite (eo_id _ _ _ _ _ _ He). Qed.

Lemma of_category_cons k e es : of_category k (e :: es) = ((if decide (ce_category e = k) then 1 else 0) + of_category k es)%nat.
Proof. unfold of_category. cbn. case_bool_decide; by destruct (decide _). Qed.

Definition hits_of (w : WorkingSet) (id : NodeId) : N := from_option hits 0 (ws_entries w !! id).

Lemma hits_of_inclusion w id now y : set_ok w -> hits_of (record_inclusion w id now) y = if decide (y = id) then (hits_of w y + 1) mod two32 else hits_of w y.
Proof.
  intros _. unfold hits_of, record_inclusion. cbn. destruct (decide (y = id)) as [->|Hne]; [by rewrite lookup_insert_eq|by rewrite lookup_insert_ne].
Qed.

Lemma set_ok_inclusion w id now : set_ok w -> set_ok (record_inclusion w id now).
Proof. intros Hw y e. unfold record_inclusion. cbn. intros [[<- <-]|[_ Hy]]%lookup_insert_Some; [cbn; by apply N.mod_lt|by eapply Hw]. Qed.

(** What packing leaves: the budget is kept, the entries are made of some of the
    candidates in their order, and whoever is passed over for a later one belongs to a
    category that is full. *)
Lemma include_each_ok now m t wall b ex d l used counts w es w' :
  include_each infer now m t wall b ex d l used counts w = (es, w') -> (used <= max_tokens b)%nat -> set_ok w -> NoDup ((fun x : candidate => x.1.1) <$> l) ->
  (used + sum_list_with charged es <= max_tokens b)%nat
  /\ (forall k, (default O (counts !! k) <= max_entries_per_category b)%nat -> (of_category k es + default O (counts !! k) <= max_entries_per_category b)%nat)
  /\ (exists l', sublist l' l /\ Forall2 (entry_of now m t wall) l' es)
  /\ set_ok w'
  /\ (forall y, hits_of w' y = if decide (y ∈ ce_node_id <$> es) then (hits_of w y + 1) mod two32 else hits_of w y)
  /\ (forall l1 x l2, l = l1 ++ x :: l2 -> (exists y, y ∈ l2 /\ y.1.1 ∈ ce_node_id <$> es) ->
        x.1.1 ∈ ce_node_id <$> es \/ (max_entries_per_category b <= of_category (object_type x.2) es + default O (counts !! object_type x.2))%nat).
Proof.
  revert used counts w es w'. induction l as [|[[id score] n] l IH]; intros used counts w es w'; cbn [include_each].
  { intros [= <- <-] Hu Hw _. split; [cbn; lia|]. split; [by intros|]. split; [exists []; by split|]. split; [done|]. split; [by intros y|].
    intros l1 x l2 Heq. by destruct l1. }
  set (count := default O (counts !! object_type n)). intros Hrun Hu Hw Hnd. cbn in Hnd. apply NoDup_cons in Hnd as [Hid Hnd].
  destruct (Nat.leb_spec (max_entries_per_category b) count) as [Hfull|Hroom].
  - assert (Hsame : forall k, default O (<[object_type n := count]> counts !! k) = default O (counts !! k)).
    { intros k. destruct (decide (k = object_type n)) as [->|Hne]; [by rewrite lookup_insert_eq|by rewrite lookup_insert_ne]. }
    destruct (IH _ _ _ _ _ Hrun Hu Hw Hnd) as (Htok & Hcat & (l' & Hl' & Hes) & Hw' & Hhits & Hgreedy).
    split; [done|]. split; [intros k; specialize (Hcat k); by rewrite Hsame in Hcat|]. split; [exists l'; split; [by constructor|done]|]. split; [done|]. split; [done|].
    intros [|z l1] x l2 Heq Hy; injection Heq as <- ->; [right; cbn [fst snd]; unfold count in Hfull; lia|].
    specialize (Hgreedy l1 x l2 eq_refl Hy). by rewrite Hsame in Hgreedy.
  - destruct (represent infer now m t score n) as [[mode content] cost] eqn:Hrep.
    destruct (Nat.ltb_spec (max_tokens b) (used + cost)) as [Hover|Hfits].
    { injection Hrun as <- <-. split; [cbn; lia|]. split; [by intros|]. split; [exists []; split; [apply sublist_nil_l|constructor]|]. split; [done|]. split; [by intros y|].
      intros l1 x l2 _ (y & _ & Hy). by apply elem_of_nil in Hy. }
    destruct (include_each _ _ _ _ _ _ _ _ _ _ _ _) as [rest w1] eqn:Hrest. injection Hrun as <- <-.
    destruct (represent_ok now m t wall id score n (signals w ex d id) mode content cost Hrep) as [Hcost Heo].
    destruct (IH _ _ _ _ _ Hrest Hfits (set_ok_inclusion w id wall Hw) Hnd) as (Htok & Hcat & (l' & Hl' & Hes) & Hw' & Hhits & Hgreedy).
    assert (Hbump : forall k, default O (<[object_type n := S count]> counts !! k) = ((if decide (object_type n = k) then 1 else 0) + default O (counts !! k))%nat).
    { intros k. destruct (decide (object_type n = k)) as [<-|Hne]; [by rewrite lookup_insert_eq|by rewrite lookup_insert_ne]. }
    set (e := mkEntry _ _ _ _ _ _ _ _) in *. split; [cbn [sum_list_with]; lia|]. split; [|split; [|split; [done|split]]].
    + intros k Hk. rewrite of_category_cons. specialize (Hcat k). rewrite Hbump in Hcat. change (ce_category e) with (object_type n).
      destruct (decide (object_type n = k)) as [Heq|Hne]; [|specialize (Hcat Hk); lia]. subst k. fold count in Hcat, Hk |- *. lia.
    + exists ((id, score, n) :: l'). split; [by constructor|by constructor].
    + intros y. rewrite Hhits, (hits_of_inclusion w id wall y Hw). rewrite fmap_cons. change (ce_node_id e) with id.
      assert (Hnot : id ∉ ce_node_id <$> rest).
      { rewrite (entry_ids _ _ _ _ _ _ Hes). intros Hin. apply Hid. eapply elem_of_sublist; [exact Hin|by apply fmap_sublist]. }
      destruct (decide (y ∈ ce_node_id <$> rest)) as [Hy|Hy].
      * rewrite (decide_True (P := y ∈ id :: _)) by by right. rewrite decide_False by (intros ->; done). done.
      * destruct (decide (y = id)) as [->|Hne]; [by rewrite decide_True by left|]. rewrite decide_False; [done|]. by intros [->|Hin]%elem_of_cons.
    + intros [|z l1] x l2 Heq (y & Hy & Hin); injection Heq as <- ->; [left; cbn; left|].
      rewrite fmap_cons in Hin. change (ce_node_id e) with id in Hin. apply elem_of_cons in Hin as [Hyid|Hin].
      { exfalso. apply Hid. rewrite <- Hyid. apply list_elem_of_fmap. exists y. split; [done|]. apply elem_of_app. right. by right. }
      destruct (Hgreedy l1 x l2 eq_refl) as [Hx|Hx]; [by exists y|left; by right|]. right. rewrite Hbump in Hx. rewrite of_category_cons. change (ce_category e) with (object_type n).
      destruct (decide (object_type n = object_type x.2)); lia.
Qed.

Lemma near_anchors_ok now m t (g : kg) l d : authorize now m t READ = Ok tt -> exists d', near_anchors now m t g l d = Ok d'.
Proof.
  intros Hok. revert d. induction l as [|a l IH]; intros d; cbn [near_anchors]; [by eexists|].
  unfold traverse, traverse_with_device_origin_filter, KnowledgeGraph.require. rewrite Hok. cbn. destruct (negb _); cbn; apply IH.
Qed.

Lemma mentioned_ok now m t (g : kg) w l ids d : authorize now m t READ = Ok tt -> exists r, mentioned now m t g w l ids d = Ok r.
Proof.
  intros Hok. revert ids d. induction l as [|x l IH]; intros ids d; cbn [mentioned]; [by eexists|].
  unfold resolve_entity_locked, KnowledgeGraph.query, KnowledgeGraph.require. rewrite Hok. cbn -[sort_desc]. destruct (resolve_scored _); apply IH.
Qed.

Lemma score_each_ok now m t (g : kg) score l :
  authorize now m t READ = Ok tt ->
  exists r, score_each now m t g score l = Ok r /\ sublist ((fun x : candidate => x.1.1) <$> r) l
    /\ forall id s n, (id, s, n) ∈ r <-> id ∈ l /\ nodes (index g) !! id = Some n /\ own_live (origin t) n = true /\ s = score id n.
Proof.
  intros Hok. induction l as [|a l (r & Hr & Hsub & Hin)]; cbn [score_each].
  { exists []. split; [done|]. split; [constructor|]. intros id s n. rewrite !elem_of_nil. by split; [|intros [? _]]. }
  assert (Hget : KnowledgeGraph.get now m t g a = match nodes (index g) !! a with Some n => if own_live (origin t) n then Ok n else Err NotFound | None => Err NotFound end).
  { unfold KnowledgeGraph.get, KnowledgeGraph.require. by rewrite Hok. }
  rewrite Hget. destruct (nodes (index g) !! a) as [n|] eqn:Hn.
  2: { exists r. split; [done|]. split; [by constructor|]. intros id s n. rewrite Hin, elem_of_cons. split; [intros (Hl & Hrest); split; [by right|done]|].
       intros ([->|Hl] & Hrest); [destruct Hrest as [Hrest _]; congruence|done]. }
  destruct (own_live (origin t) n) eqn:Hol.
  - rewrite Hr. cbn. pose proof Hol as [Ho _]%own_live_spec. rewrite (proj2 (N.eqb_eq _ _) Ho). eexists. split; [done|]. split; [by constructor|].
    intros id s n'. rewrite !elem_of_cons, Hin. split.
    + intros [[= -> -> ->]|(Hl & Hrest)]; [by split; [left|]|by split; [right|]].
    + intros ([->|Hl] & Hn' & Hol' & ->); [left; congruence|by right].
  - exists r. split; [done|]. split; [by constructor|]. intros id s n'. rewrite Hin, elem_of_cons. split; [intros (Hl & Hrest); split; [by right|done]|].
    intros ([->|Hl] & Hn' & Hol' & Hs); [congruence|done].
Qed.

Lemma set_iter_NoDup (s : gset NodeId) : NoDup (set_iter s).
Proof. apply NoDup_fst_hash_iter. Qed.

Lemma elem_of_set_iter (s : gset NodeId) x : x ∈ set_iter s <-> x ∈ s.
Proof.
  unfold set_iter. rewrite list_elem_of_fmap. split.
  - intros ([y u] & -> & Hy%elem_of_hash_iter). by apply lookup_gset_to_gmap_Some in Hy as [Hy _].
  - intros Hx. exists (x, tt). split; [done|]. by apply elem_of_hash_iter, lookup_gset_to_gmap_Some.
Qed.

(** The candidates: the caller's own, of all that is near, mentioned or in use; each once,
    by relevance. *)
Lemma ranked_ok now m t (g : kg) w sc wall :
  authorize now m t READ = Ok tt -> set_ok w ->
  exists l ex d, ranked now m t g w sc wall = Ok (l, ex, d) /\ NoDup ((fun x : candidate => x.1.1) <$> l)
    /\ StronglySorted (fun x y : candidate => f32_ltb x.1.2 y.1.2 = false) l
    /\ forall id s n, (id, s, n) ∈ l <->
         (id ∈ dom (ws_entries w) \/ id ∈ dom d \/ id ∈ ex) /\ nodes (index g) !! id = Some n /\ own_live (origin t) n = true /\ s = rank w ex d id n wall.
Proof.
  intros Hok Hw. unfold ranked. destruct (near_anchors_ok now m t g (anchors sc ++ option_list (intent_anchor now m t g sc)) ∅ Hok) as [d0 ->]. cbn.
  destruct (mentioned_ok now m t g w (mentions sc) ∅ d0 Hok) as [[ex d] ->]. cbn -[sort_desc].
  destruct (score_each_ok now m t g (fun id n => rank w ex d id n wall) (set_iter (dom (ws_entries w) ∪ dom d ∪ ex)) Hok) as (r & -> & Hsub & Hin). cbn -[sort_desc].
  eexists _, ex, d. split; [done|]. split; [|split].
  - rewrite (sort_desc_perm (fun x : candidate => x.1.2)). eapply sublist_NoDup; [apply set_iter_NoDup|exact Hsub].
  - apply (sort_desc_sorted (fun x : candidate => x.1.2)). apply Forall_forall. intros [[id s] n] (_ & _ & _ & ->)%Hin. by apply rank_not_nan.
  - intros id s n. rewrite (sort_desc_perm (fun x : candidate => x.1.2)), Hin, elem_of_set_iter, !elem_of_union. naive_solver.
Qed.

Lemma sublist_sorted {A : Type} (R : A -> A -> Prop) (k l : list A) : sublist k l -> StronglySorted R l -> StronglySorted R k.
Proof.
  induction 1 as [|x k l Hs IH|x k l Hs IH]; intros Hl; [done| |]; apply StronglySorted_inv in Hl as [Hl Hx]; [|by apply IH].
  constructor; [by apply IH|]. rewrite Forall_forall in Hx |- *. intros y Hy. apply Hx. by eapply elem_of_sublist.
Qed.

Lemma entries_sorted now m t wall (l : list candidate) es :
  Forall2 (entry_of now m t wall) l es -> StronglySorted (fun x y : candidate => f32_ltb x.1.2 y.1.2 = false) l ->
  StronglySorted (fun x y => f32_ltb (relevance_score x) (relevance_score y) = false) es.
Proof.
  induction 1 as [|x e l es He Hes IH]; intros Hl; [constructor|]. apply StronglySorted_inv in Hl as [Hl Hx]. constructor; [by apply IH|].
  apply Forall_forall. intros e' He'. apply list_elem_of_lookup in He' as [i Hi]. destruct (Forall2_lookup_r _ _ _ _ _ Hes Hi) as (y & Hy & Hye).
  rewrite (eo_score _ _ _ _ _ _ He), (eo_score _ _ _ _ _ _ Hye). rewrite Forall_forall in Hx. apply Hx. by eapply list_elem_of_lookup_2.
Qed.

Lemma context_ok_session c session : context_ok c -> set_ok (session_set c session).
Proof. intros Hc. unfold session_set. destruct (working_sets c !! session) as [w|] eqn:Hw; [by eapply Hc|]. by intros ??. Qed.

(** C29. Bundles keep to their budget. For a caller who may read, assembling a bundle
    succeeds. What its entries are charged fits the budget: a full entry is charged its
    tokens, a summary its tokens but sixty at most, a reference five; so the tokens fit
    the budget if no summary has more than sixty, and not otherwise
    ([ContextExample.a_summary_exceeds_the_budget]). No category has more entries
    than allowed, and no node occurs twice. Every entry is a live node of the caller's own,
    shown in full only if it is small and relevant enough, as a summary, or as a bare
    reference. Entries come by decreasing relevance, and a candidate that was passed over
    for a less relevant one belongs to a category that is full. The working set of the
    session counts exactly the entries, and those of other sessions stay. *)
Theorem bundles_are_bounded now m t (g : kg) c sc b wall :
  authorize now m t READ = Ok tt -> context_ok c ->
  exists bundle c' l ex d,
    assemble infer now m t g c sc b wall = (Ok bundle, c')
    /\ ranked now m t g (session_set c (sc_session_id sc)) sc wall = Ok (l, ex, d)
    /\ (sum_list_with charged (cb_entries bundle) <= max_tokens b)%nat
    /\ (Forall (fun e => inclusion_mode e = InSummary -> (estimate_tokens (ce_content e) <= 60)%nat) (cb_entries bundle) ->
        (sum_list_with tokens (cb_entries bundle) <= max_tokens b)%nat)
    /\ (forall k, (of_category k (cb_entries bundle) <= max_entries_per_category b)%nat)
    /\ NoDup (ce_node_id <$> cb_entries bundle)
    /\ Forall (fun e => exists n, nodes (index g) !! ce_node_id e = Some n /\ own_live (origin t) n = true
                 /\ entry_of now m t wall (ce_node_id e, rank (session_set c (sc_session_id sc)) ex d (ce_node_id e) n wall, n) e) (cb_entries bundle)
    /\ StronglySorted (fun x y => f32_ltb (relevance_score x) (relevance_score y) = false) (cb_entries bundle)
    /\ (forall l1 x l2, l = l1 ++ x :: l2 -> (exists y, y ∈ l2 /\ y.1.1 ∈ ce_node_id <$> cb_entries bundle) ->
          x.1.1 ∈ ce_node_id <$> cb_entries bundle \/ of_category (object_type x.2) (cb_entries bundle) = max_entries_per_category b)
    /\ context_ok c'
    /\ (forall s id, hits_of (session_set c' s) id =
          if decide (s = sc_session_id sc /\ id ∈ ce_node_id <$> cb_entries bundle) then (hits_of (session_set c s) id + 1) mod two32 else hits_of (session_set c s) id).
Proof.
  intros Hok Hc. pose proof (context_ok_session c (sc_session_id sc) Hc) as Hw.
  destruct (ranked_ok now m t g (session_set c (sc_session_id sc)) sc wall Hok Hw) as (l & ex & d & Hrank & Hnd & Hsort & Hin).
  unfold assemble. rewrite Hrank. destruct (include_each _ _ _ _ _ _ _ _ _ _ _ _) as [es w'] eqn:Hpack.
  destruct (include_each_ok now m t wall b ex d l 0 ∅ _ es w' Hpack ltac:(lia) Hw Hnd) as (Htok & Hcat & (l' & Hl' & Hes) & Hw' & Hhits & Hgreedy).
  eexists _, _, l, ex, d. split; [done|]. split; [done|]. cbn.
  assert (Hcat' : forall k, (of_category k es <= max_entries_per_category b)%nat).
  { intros k. specialize (Hcat k). rewrite lookup_empty in Hcat. cbn in Hcat. lia. }
  split; [done|]. split; [intros Hsum; by rewrite charged_in_full|].
  split; [done|]. split; [|split; [|split; [|split; [|split]]]].
  - rewrite (entry_ids _ _ _ _ _ _ Hes). eapply sublist_NoDup; [exact Hnd|by apply fmap_sublist].
  - apply Forall_forall. intros e He. apply list_elem_of_lookup in He as [i Hi]. destruct (Forall2_lookup_r _ _ _ _ _ Hes Hi) as ([[id s] n] & Hx & Hxe).
    assert (Hxl : (id, s, n) ∈ l) by (eapply elem_of_sublist; [by eapply list_elem_of_lookup_2|done]). apply Hin in Hxl as (_ & Hn & Hol & Hs).
    pose proof (eo_id _ _ _ _ _ _ Hxe) as Heid. cbn in Heid. rewrite Heid. exists n. by subst s.
  - eapply entries_sorted; [exact Hes|]. by eapply sublist_sorted.
  - intros l1 x l2 Heq Hy. destruct (Hgreedy l1 x l2 Heq Hy) as [Hx|Hx]; [by left|right]. rewrite lookup_empty in Hx. cbn in Hx.
    specialize (Hcat' (object_type x.2)). unfold of_category in *. lia.
  - intros s w. cbn. intros [[<- <-]|[_ Hs]]%lookup_insert_Some; [done|by eapply Hc].
  - intros s id. unfold session_set at 1. cbn. destruct (decide (s = sc_session_id sc)) as [->|Hne].
    + rewrite lookup_insert_eq. cbn. rewrite Hhits. by destruct (decide (id ∈ ce_node_id <$> es)) as [Hi|Hi]; [rewrite decide_True|rewrite decide_False by tauto].
    + rewrite lookup_insert_ne by done. by rewrite decide_False by tauto.
Qed.
End bundles.

(** ** Envelopes *)

Section envelopes.
Context `{Codec (WalRecord Json)} `{Aead} `{Signatures} {M : Type} `{Authority M} `{EnvelopeJson}.

Abbreviation kg := (KnowledgeGraph (V := Json)).

(** What the policy lets through of an entry. *)
Definition shows (t : CapabilityToken) (g : kg) (target : TrustLevel) (p : RedactionPolicy) (e : ContextEntry) (x : EnvelopeEntry) : Prop :=
  env_category x = ce_category e /\
  match field_rules p !! ce_category e with
  | None | Some Redact => representation x = RedactedPlaceholder (ce_category e) (lit "policy:" ++ debug_trust target)
  | Some rule => exists n, nodes (index g) !! ce_node_id e = Some n /\ own_live (origin t) n = true
      /\ representation x = if decide (target = SameBoundary) then ByReference (ce_node_id e)
                            else ByValue (ce_node_id e) (if decide (rule = Summarize) then truncate_metadata (node_metadata n) else node_metadata n)
  end.

Lemma generation_node now m t (g : kg) id v :
  generation_of now m t g id = Ok v <-> authorize now m t READ = Ok tt /\ exists n, nodes (index g) !! id = Some n /\ own_live (origin t) n = true /\ v = KnowledgeGraph.updated_at n.
Proof.
  unfold generation_of, KnowledgeGraph.get, KnowledgeGraph.require. destruct (authorize now m t READ) as [[]|e]; cbn; [|by split; [|intros [? _]]].
  destruct (nodes (index g) !! id) as [n|]; [|by split; [|intros (_ & n & ? & _)]]. destruct (own_live (origin t) n) eqn:Ho; cbn.
  - split; [intros [= <-]; split; [done|by exists n]|]. by intros (_ & n' & [= <-] & _ & ->).
  - split; [done|]. intros (_ & n' & [= <-] & Ho' & _). congruence.
Qed.

Lemma export_entry_ok now m t (g : kg) target p e x gen :
  export_entry now m t g target p e = Ok (x, gen) ->
  shows t g target p e x /\ match gen with
                            | None => node_of (representation x) = None
                            | Some (id, v) => node_of (representation x) = Some id /\ generation_of now m t g id = Ok v
                            end.
Proof.
  unfold export_entry, shows, rule_for. destruct (field_rules p !! ce_category e) as [[]|]; cbn [default]; [| |by intros [= <- <-]..].
  all: destruct (generation_of now m t g (ce_node_id e)) as [v|?] eqn:Hg; [|done]; pose proof Hg as (Hok & n & Hn & Hol & _)%generation_node;
    assert (Hget : KnowledgeGraph.get now m t g (ce_node_id e) = Ok n) by (unfold KnowledgeGraph.get, KnowledgeGraph.require; by rewrite Hok, Hn; cbn; rewrite Hol);
    cbn; rewrite Hget; cbn; destruct (decide (target = SameBoundary)) as [->|Hne]; [|rewrite bool_decide_false by done];
    cbn; intros [= <- <-]; cbn; (split; [split; [done|]; by exists n|done]).
Qed.

Lemma export_each_ok now m t (g : kg) target p l gens es gens' :
  export_each now m t g target p l gens = Ok (es, gens') ->
  Forall2 (shows t g target p) l es
  /\ (forall id v, gens' !! id = Some v -> gens !! id = Some v \/ generation_of now m t g id = Ok v)
  /\ (forall id, is_Some (gens !! id) -> is_Some (gens' !! id))
  /\ Forall (fun x => forall id, node_of (representation x) = Some id -> is_Some (gens' !! id)) es.
Proof.
  revert gens es gens'. induction l as [|e l IH]; intros gens es gens'; cbn [export_each].
  { intros [= <- <-]. split; [constructor|]. split; [by left|]. split; [done|constructor]. }
  destruct (export_entry now m t g target p e) as [[x gen]|] eqn:Hx; [|done]. apply export_entry_ok in Hx as [Hshow Hgen]. cbn.
  set (gens1 := match gen with Some (id, v) => <[id := v]> gens | None => gens end).
  destruct (export_each now m t g target p l gens1) as [[es1 gens2]|] eqn:Hrest; [|done]. cbn. intros [= <- <-].
  destruct (IH _ _ _ Hrest) as (Hes & Hval & Hkeep & Hall). split; [by constructor|]. split; [|split].
  - intros id v Hv. destruct (Hval id v Hv) as [Hv1|Hv1]; [|by right]. subst gens1. destruct gen as [[id' v']|]; [|by left].
    apply lookup_insert_Some in Hv1 as [[-> ->]|[_ Hv1]]; [right; by destruct Hgen|by left].
  - intros id Hid. apply Hkeep. subst gens1. destruct gen as [[id' v']|]; [|done]. by apply lookup_insert_is_Some'; right.
  - constructor; [|done]. intros id Hid. subst gens1. destruct gen as [[id' v']|]; [|congruence]. destruct Hgen as [Hgen _]. apply Hkeep.
    assert (id' = id) as -> by congruence. rewrite lookup_insert_eq. by eexists.
Qed.

Lemma fields_determine (o o' : list (NodeId * N)) e e' :
  o ≡ₚ map_to_list (per_entry_generation (staleness e)) -> o' ≡ₚ map_to_list (per_entry_generation (staleness e')) ->
  fields_of o (with_integrity e None) = fields_of o' (with_integrity e' None) -> integrity e = integrity e' -> e = e'.
Proof.
  destruct e as [? ? ? ? ? ? ? [gens h c] i], e' as [? ? ? ? ? ? ? [gens' h' c'] i']. cbn. intros Ho Ho' [= -> -> -> -> -> -> -> -> -> ->] ->.
  assert (gens = gens') as -> by (apply map_to_list_inj; by rewrite <- Ho, <- Ho'). done.
Qed.

Lemma order_perm (order : HashIter) (e : ContextEnvelope) : hash_iter (per_entry_generation (staleness e)) ≡ₚ map_to_list (per_entry_generation (staleness e)).
Proof. apply hash_iter_perm. Qed.

(** The signature of one envelope verifies for another. *)
Definition reused_signature (here there : HashIter) (e e' : ContextEnvelope) (vk : VerifyingKey) : Prop :=
  exists s, integrity e = Some s /\ integrity e' = Some s
    /\ confused vk s (envelope_bytes (order := there) (with_integrity e' None)) (envelope_bytes (order := here) (with_integrity e None)).

(** A signature fits one envelope, unless it verifies for the bytes of two. *)
Lemma signed_once (here there : HashIter) e e' k :
  forallb printable_entry (env_entries e) = true -> forallb printable_entry (env_entries e') = true ->
  integrity e' = integrity (sign_envelope (order := here) e k) -> verify_envelope (order := there) e' (verifying_key k) = true ->
  e' = sign_envelope (order := here) e k \/ reused_signature here there (sign_envelope (order := here) e k) e' (verifying_key k).
Proof.
  intros Hp Hp' Hint Hv. unfold verify_envelope in Hv. rewrite Hint in Hv. cbn in Hv.
  destruct (same_or_confused _ _ _ _ Hv (sig_correct k (envelope_bytes (order := here) (with_integrity e None)))) as [Heq|Hc]; [left|right; by eexists].
  unfold envelope_bytes in Heq.
  apply (f_equal envelope_from_slice) in Heq. rewrite !envelope_from_to in Heq by done. apply (inj Some) in Heq.
  apply (fields_determine (hash_iter (HashIter := there) (per_entry_generation (staleness e'))) (hash_iter (HashIter := here) (per_entry_generation (staleness e)))).
  - exact (order_perm there e').
  - exact (order_perm here e).
  - exact Heq.
  - exact Hint.
Qed.

(** What an import answers, and what it remembers. *)
Lemma import_ok (order : HashIter) now m t (g : kg) s e vk wall es report s' :
  import_envelope now m t g s e vk wall = (Ok (es, report), s') ->
  verify_envelope e vk = true /\ envelope_id e ∉ replay_cache s /\ replay_cache s' = {[envelope_id e]} ∪ replay_cache s
  /\ report = freshness_report now m t g e wall /\ es = downgrade report <$> env_entries e.
Proof.
  unfold import_envelope. destruct (verify_envelope e vk); [|done]. cbn. case_bool_decide as Hin; [done|]. by intros [= <- <- <-].
Qed.

Lemma import_replayed (order : HashIter) now m t (g : kg) s e vk wall :
  verify_envelope e vk = true -> envelope_id e ∈ replay_cache s -> import_envelope now m t g s e vk wall = (Err (Replayed (envelope_id e)), s).
Proof. intros Hv Hin. unfold import_envelope. rewrite Hv. cbn. by rewrite bool_decide_true. Qed.

Lemma downgrade_fresh report e : (forall id st, report !! id = Some st -> st = Fresh) -> downgrade report e = e.
Proof.
  intros Hall. unfold downgrade. destruct (node_of (representation e)) as [id|]; [|done]. cbn. destruct (report !! id) as [st|] eqn:Hst; [|done].
  by rewrite (Hall id st Hst).
Qed.

(** Reports on an envelope that was just exported. *)
Lemma report_fresh now m t (g : kg) e wall :
  authorize now m t READ = Ok tt ->
  (forall id v, per_entry_generation (staleness e) !! id = Some v -> exists n, nodes (index g) !! id = Some n /\ own_live (origin t) n = true /\ v = KnowledgeGraph.updated_at n) ->
  forall id st, freshness_report now m t g e wall !! id = Some st -> st = Fresh.
Proof.
  intros Hok Hgen id st. unfold freshness_report. rewrite map_lookup_imap. destruct (per_entry_generation (staleness e) !! id) as [v|] eqn:Hv; [|done]. cbn.
  intros [= <-]. unfold freshness. assert (Hg : generation_of now m t g id = Ok v) by (apply generation_node; split; [done|by apply Hgen]).
  rewrite Hg. by rewrite N.eqb_refl.
Qed.

Lemma export_ok (order : HashIter) now m t (g : kg) s b target p horizon k wall env s' :
  export_bundle now m t g s b target p horizon k wall = (Ok env, s') ->
  exists e, env = sign_envelope e k /\ Forall2 (shows t g target p) (cb_entries b) (env_entries e)
    /\ envelope_id e = next_envelope_id s /\ scope_applied e = target /\ env_provenance e = mkEnvProvenance (origin t) (token_id t) []
    /\ (forall id v, per_entry_generation (staleness e) !! id = Some v -> exists n, nodes (index g) !! id = Some n /\ own_live (origin t) n = true /\ v = KnowledgeGraph.updated_at n)
    /\ Forall (fun x => forall id, node_of (representation x) = Some id -> is_Some (per_entry_generation (staleness e) !! id)) (env_entries e).
Proof.
  unfold export_bundle. destruct (export_each now m t g target p (cb_entries b) ∅) as [[es gens]|] eqn:Hex; [|done]. intros [= <- <-].
  apply export_each_ok in Hex as (Hes & Hval & _ & Hall). eexists. split; [done|]. cbn. split; [done|]. do 3 (split; [done|]). split; [|done].
  intros id v Hv. destruct (Hval id v Hv) as [He|Hg]; [by rewrite lookup_empty in He|]. by apply generation_node in Hg as [_ Hg].
Qed.


(** Nothing crosses boundaries: whoever does not own the nodes gets placeholders. *)
Theorem nothing_crosses_boundaries (here there : HashIter) now m t (g : kg) s b target p horizon k wall env s' now' (m' : M) t' (g' : kg) s1 wall' es report s2 :
  export_bundle (order := here) now m t g s b target p horizon k wall = (Ok env, s') ->
  (forall e n, e ∈ cb_entries b -> nodes (index g') !! ce_node_id e = Some n -> owner n <> origin t') ->
  import_envelope (order := there) now' m' t' g' s1 env (verifying_key k) wall' = (Ok (es, report), s2) ->
  Forall (fun x => node_of (representation x) = None) es.
Proof.
  intros Hex Hforeign Him. apply export_ok in Hex as (e & -> & Hes & _ & _ & _ & _ & Hall). apply import_ok in Him as (_ & _ & _ & -> & ->).
  cbn in *. apply Forall_fmap, Forall_forall. intros x Hx. cbn. unfold downgrade. destruct (node_of (representation x)) as [id|] eqn:Hid; [|done]. cbn.
  rewrite Forall_forall in Hall. destruct (Hall x Hx id Hid) as [v Hv]. unfold freshness_report. rewrite map_lookup_imap. cbn. rewrite Hv. cbn.
  apply list_elem_of_lookup in Hx as [i Hi]. destruct (Forall2_lookup_r _ _ _ _ _ Hes Hi) as (en & Hen & _ & Hshow). apply list_elem_of_lookup_2 in Hen.
  assert (id = ce_node_id en) as ->.
  { destruct (field_rules p !! ce_category en) as [[]|]; [destruct Hshow as (n & _ & _ & Hr)..| |]; [| |by rewrite Hshow in Hid..]; rewrite Hr in Hid; by destruct (decide _) in Hid; injection Hid. }
  unfold freshness. destruct (generation_of now' m' t' g' (ce_node_id en)) as [u|] eqn:Hg; [|done].
  apply generation_node in Hg as (_ & n & Hn & Hol & _). apply own_live_spec in Hol as [Ho _]. by destruct (Hforeign en n Hen Hn).
Qed.
End envelopes.

(** ** Bundles and envelopes that run *)

Module ContextExample.
Import Crypto.Toy Wal.ToyRecords Explainability.ExplainExample FsPaths.FsExample.
#[local] Existing Instance IntentPlans.IntentExample.some_unicode.

(** The text of an envelope: the digits of its number. *)
Definition representation_code (r : Representation) : NodeId + (NodeId * Json) + (text * text) :=
  match r with ByReference id => inl (inl id) | ByValue id v => inl (inr (id, v)) | RedactedPlaceholder c w => inr (c, w) end.
Definition code_representation (x : NodeId + (NodeId * Json) + (text * text)) : Representation :=
  match x with inl (inl id) => ByReference id | inl (inr (id, v)) => ByValue id v | inr (c, w) => RedactedPlaceholder c w end.
Definition trust_code (l : TrustLevel) : N := match l with SameBoundary => 0 | TrustedAgent => 1 | SandboxedCapability => 2 | RemoteDevice => 3 end.
Definition code_trust (n : N) : TrustLevel := match n with 0 => SameBoundary | 1 => TrustedAgent | 2 => SandboxedCapability | _ => RemoteDevice end.
Abbreviation coded := (list (text * (NodeId + (NodeId * Json) + (text * text))) * list (NodeId * N) * list text * list N * list N)%type.
Definition fields_code (f : EnvelopeFields) : coded :=
  ((fun e => (env_category e, representation_code (representation e))) <$> ef_entries f, ef_generations f,
   [ef_schema_version f; ef_intent_id f; ef_session_id f],
   [ef_envelope_id f; trust_code (ef_scope_applied f); ef_horizon f; ef_captured_at f; originating_boundary (ef_provenance f); capability_token_id (ef_provenance f)],
   agent_chain (ef_provenance f)).
Definition code_fields (c : coded) : option EnvelopeFields :=
  match c with
  | (es, gens, [sv; i; s], [id; l; h; at_; b; tk], chain) =>
      Some (mkFields id sv i s ((fun x => mkEnvEntry x.1 (code_representation x.2)) <$> es) (mkEnvProvenance b tk chain) (code_trust l) gens h at_)
  | _ => None
  end.

#[export, refine] Instance digit_envelopes : EnvelopeJson := {|
  envelope_to_vec f := digits (countable.encode (fields_code f));
  envelope_from_slice l := (of_digits l ≫= countable.decode) ≫= code_fields
|}.
Proof.
  intros f _. rewrite of_digits_digits. cbn. rewrite countable.decode_encode. cbn. destruct f as [id sv i s es [b tk chain] l gens h at_]. cbn.
  do 2 f_equal; [|by destruct l]. rewrite <- list_fmap_compose. rewrite <- (list_fmap_id es) at 2. apply list_fmap_ext. intros _ [c []] _; done.
Defined.

(** The same maps, listed the other way round. *)
#[refine] Definition backwards : HashIter := {| hash_iter := fun K V _ _ m => rev (map_to_list m) |}.
Proof. intros K V ? ? m. by rewrite <- Permutation_rev. Defined.

Definition mute (_ : Instant) (_ : unit) (_ : CapabilityToken) (_ : list N) : option text := None.

Definition put (ty : text) (v : Json) (g : KnowledgeGraph (V := Json)) : KnowledgeGraph (V := Json) :=
  (put_node (M := unit) nothing 0 tt user g None ty None v 1 1 toy_nonce Written).1.2.

(** Two notes, the second a long one. *)
Definition note (s : text) : Json := JObject [(lit "text", JString s)].
Definition long_note : Json := note (lit "a note that goes on and on, and which is longer than what is shown in full of a note").
Definition notes : KnowledgeGraph (V := Json) := put (lit "note") long_note (put (lit "note") three graph0).

Definition about (l : list NodeId) : Scope := mkScope (lit "i") (lit "s") [] l.
Definition gather (b : Budget) (l : list NodeId) : option ContextBundle :=
  match assemble (M := unit) mute 0 tt user notes new_context (about l) b 1 with (Ok bundle, _) => Some bundle | _ => None end.
Definition gathered : ContextBundle := default (mkBundle 0 (about []) [] 0 default_budget (expertise_estimate empty_set [])) (gather default_budget [0; 1]).

Example both_notes_are_found :
  (fun e => (ce_node_id e, inclusion_mode e, source_signal e)) <$> cb_entries gathered = [(1, InSummary, [lit "anchor"]); (0, InSummary, [lit "anchor"])].
Proof. vm_compute. done. Qed.

(** A summary is three whole fields, and is charged sixty tokens at most. *)
Example a_summary_exceeds_the_budget :
  (fun b => (fun e => (charged e, estimate_tokens (ce_content e))) <$> cb_entries b) <$> gather (mkBudget 60 5) [1] = Some [(60, 604)%nat].
Proof. vm_compute. done. Qed.

(** An empty field matches whatever is mentioned. *)
Example an_empty_field_is_meant :
  match resolve_entity (M := unit) 0 tt user (put (lit "note") (note []) graph0) new_context (lit "quarterly report") (lit "s") with
  | (Ok (Resolved 0 _), _) => true
  | _ => false
  end = true.
Proof. vm_compute. done. Qed.

Definition open_policy : RedactionPolicy := mkPolicy TrustedAgent {[ lit "note" := PassOn ]}.
Definition sent_from (s : ContextPropagation) : ContextEnvelope :=
  match export_bundle (M := unit) 0 tt user notes s gathered TrustedAgent open_policy 60 5 1 with
  | (Ok e, _) => e
  | _ => mkEnvelope 0 [] [] [] [] (mkEnvProvenance 0 0 []) SameBoundary (mkStaleness ∅ 0 0) None
  end.
Definition sent : ContextEnvelope := sent_from new_propagation.

Definition received {order : HashIter} (t : CapabilityToken) (s : ContextPropagation) (e : ContextEnvelope) :=
  import_envelope (M := unit) (order := order) 0 tt t notes s e (verifying_key 5) 1.

Example two_values_arrive :
  (fun x => node_of (representation x)) <$> env_entries sent = [Some 1; Some 0]
  /\ match (received user new_propagation sent).1 with Ok (es, _) => es = env_entries sent | Err _ => False end.
Proof. vm_compute. done. Qed.

(** A map that was read from the wire lists its keys in another order: the signature of
    the very same envelope does not verify. *)
Example the_order_breaks_the_signature : (received (order := backwards) user new_propagation sent).1 = Err IntegrityFailure.
Proof. vm_compute. done. Qed.

(** Two senders count from one: the first envelope of the second is taken for a replay. *)
Example senders_collide :
  let s := (received user new_propagation sent).2 in
  envelope_id (sent_from new_propagation) = 1 /\ (received user s (sent_from new_propagation)).1 = Err (Replayed 1).
Proof. vm_compute. done. Qed.

(** For anyone else the values are withheld as stale. *)
Example strangers_get_placeholders :
  match (received other new_propagation sent).1 with
  | Ok (es, _) => representation <$> es = [RedactedPlaceholder (lit "note") (lit "stale"); RedactedPlaceholder (lit "note") (lit "stale")]
  | Err _ => False
  end.
Proof. vm_compute. done. Qed.
End ContextExample.

Section witnesses.
Import Crypto.Toy Wal.ToyRecords Explainability.ExplainExample FsPaths.FsExample ContextExample.
#[local] Existing Instance IntentPlans.IntentExample.some_unicode.

Lemma bundles_are_bounded_witness :
  exists bundle c', assemble (M := unit) mute 0 tt user notes new_context (about [0; 1]) (mkBudget 100 1) 1 = (Ok bundle, c')
    /\ (sum_list_with charged (cb_entries bundle) <= 100)%nat /\ (of_category (lit "note") (cb_entries bundle) <= 1)%nat.
Proof.
  destruct (bundles_are_bounded (M := unit) mute 0 tt user notes new_context (about [0; 1]) (mkBudget 100 1) 1) as (bundle & c' & l & ex & d & Hrun & _ & Htok & _ & Hcat & _).
  - done.
  - intros s w. cbn. by rewrite lookup_empty.
  - exists bundle, c'. split; [exact Hrun|]. split; [exact Htok|]. apply Hcat.
Defined.

Lemma answered_ok {A E S : Type} (r : Result A E * S) (a : A) :
  match r with (Ok _, _) => true | _ => false end = true -> exists s, r = (Ok (match r with (Ok e, _) => e | _ => a end), s).
Proof. destruct r as [[e|err] s]; [by exists s|done]. Defined.

End witnesses.
