(* ===== verification/Ipc.v ===== *)
(** Channels between threads: [crates/hyperion-ipc/src/{types,frame,channel,region,bus}.rs].

    A call puts a frame into the queue of an endpoint and waits for the reply in a
    slot of its own; whoever serves the endpoint takes frames out, checks the
    capability each carries, and replies by request id. Threads interleave: each
    stretch of code between two waits is one step, and a call is several of them.
    The monitor is reached through [Authority]. *)
From S2P Require Import Prelude Capability Authority.
Open Scope N_scope.

(** ** types.rs, frame.rs, region.rs *)

Inductive ChannelClass : Type := Call | Notify.
Inductive Route : Type := Local.

(** [FrameFlags]: a byte of bits. *)
Definition CALL : N := 1.
Definition REPLY : N := 2.
Definition NOTIFY : N := 4.
Definition ERROR : N := 8.
Definition has_flag (flags f : N) : bool := N.land flags f =? f.

Inductive IpcFault : Type :=
| NoSuchCapability
| PeerUnreachable
| Timeout
| SchemaMismatch
| Kernel (f : Fault)
| HandshakeFailed.

Definition HYIP_MAGIC : N := 1213811024.
Definition WIRE_VERSION : N := 1.

Record RegionDescriptor := mkRegion {
  region_cap : CapabilityToken;
  region_data : list N
}.

Inductive FrameBody : Type :=
| Payload (bytes : list N)
| Region (desc : RegionDescriptor)
| FaultBody (f : Fault).

Record Frame := mkFrame {
  magic : N;
  version : N;
  schema_id : N;
  flags : N;
  request_id : N;
  cap_token : option CapabilityToken;
  op : N;
  body : FrameBody
}.

Definition region_share (t : CapabilityToken) (buf : list N) : RegionDescriptor := mkRegion t buf.

(** ** channel.rs *)

Record Channel := mkChannel {
  endpoint : CapabilityToken;
  chan_schema : N;
  route : Route;
  class : ChannelClass
}.

(** ** bus.rs *)

Record Request := mkRequest { req_op : N; req_payload : list N }.
Record Response := mkResponse { response_payload : list N }.
Record Notification := mkNotification { note_op : N; note_payload : list N }.

Record AuthenticatedCall := mkCall {
  call_request_id : N;
  call_op : N;
  call_body : FrameBody;
  is_call : bool
}.

(** Where a call stands: its frame is not sent yet, it waits, or it has stopped
    waiting and not yet withdrawn. *)
Inductive Phase : Type := Preparing | Waiting | TimedOut.

(** A call under way: its phase and its reply slot, a channel of capacity one. *)
Record Caller := mkCaller { phase : Phase; slot : option Frame }.

(** The queue of an endpoint, and whether anyone can still receive from it. *)
Record Queue := mkQueue { items : list Frame; receiver : bool }.

(** The bus with the channels it made. [endpoints] holds senders, which name their
    queue; a sender of [pending_replies] names the call whose slot it fills. *)
Record IpcBus := mkBus {
  endpoints : gmap N N;
  pending_replies : gset N;
  next_request_id : N;
  queues : gmap N Queue;
  next_queue : N;
  callers : gmap N Caller
}.

Definition new : IpcBus := mkBus ∅ ∅ 0 ∅ 0 ∅.

Definition with_queues (s : IpcBus) (qs : gmap N Queue) : IpcBus :=
  mkBus (endpoints s) (pending_replies s) (next_request_id s) qs (next_queue s) (callers s).

Definition with_calls (s : IpcBus) (pending : gset N) (cs : gmap N Caller) : IpcBus :=
  mkBus (endpoints s) pending (next_request_id s) (queues s) (next_queue s) cs.

(** [mpsc::channel] and its registration; the number of the queue stands for the
    receiver returned. *)
Definition create_endpoint (s : IpcBus) (object : N) : N * IpcBus :=
  let q := next_queue s in
  (q, mkBus (<[object := q]> (endpoints s)) (pending_replies s) (next_request_id s)
        (<[q := mkQueue [] true]> (queues s)) (q + 1) (callers s)).

Definition close_endpoint (s : IpcBus) (object : N) : IpcBus :=
  mkBus (delete object (endpoints s)) (pending_replies s) (next_request_id s) (queues s) (next_queue s) (callers s).

(** The server drops its receiver. *)
Definition drop_receiver (s : IpcBus) (q : N) : IpcBus :=
  with_queues s (alter (fun x => mkQueue (items x) false) q (queues s)).

(** [send]; a successful one also says into which queue. *)
Definition send (s : IpcBus) (object : N) (f : Frame) : Result N IpcFault * IpcBus :=
  match endpoints s !! object with
  | None => (Err PeerUnreachable, s)
  | Some q =>
      match queues s !! q with
      | Some (mkQueue l true) => (Ok q, with_queues s (<[q := mkQueue (l ++ [f]) true]> (queues s)))
      | _ => (Err PeerUnreachable, s)
      end
  end.

(** *** ipc_call, in steps *)

(** The id and the slot; [sync_channel(1)] and [insert]. *)
Definition call_begin (s : IpcBus) : N * IpcBus :=
  let id := next_request_id s in
  (id, mkBus (endpoints s) ({[id]} ∪ pending_replies s) (u64_add id 1) (queues s) (next_queue s)
         (<[id := mkCaller Preparing None]> (callers s))).

Definition call_frame (id : N) (chan : Channel) (req : Request) : Frame :=
  mkFrame HYIP_MAGIC WIRE_VERSION (chan_schema chan) CALL id (Some (endpoint chan)) (req_op req) (Payload (req_payload req)).

(** The call is over: its slot is dropped, and its sender if [withdraw]. *)
Definition finish (s : IpcBus) (id : N) (withdraw : bool) : IpcBus :=
  with_calls s (if withdraw then pending_replies s ∖ {[id]} else pending_replies s) (delete id (callers s)).

(** Sending the frame; [Some] is what the call returns at once. *)
Definition call_send (s : IpcBus) (id : N) (chan : Channel) (req : Request) :
    option (Result Response IpcFault) * option N * IpcBus :=
  match send s (object_id (endpoint chan)) (call_frame id chan req) with
  | (Err e, s) => (Some (Err e), None, finish s id true)
  | (Ok q, s) =>
      (None, Some q,
       with_calls s (pending_replies s) (alter (fun c => mkCaller Waiting (slot c)) id (callers s)))
  end.

(** What a reply means to the caller. *)
Definition response_of (f : Frame) : Result Response IpcFault :=
  match body f with
  | Payload p => Ok (mkResponse p)
  | FaultBody e => Err (Kernel e)
  | Region _ => Err SchemaMismatch
  end.

(** [recv_timeout] with a reply in the slot, with none when the time is up, and the
    withdrawal after that. [None]: not possible now. *)
Definition call_receive (s : IpcBus) (id : N) : option (Result Response IpcFault * IpcBus) :=
  match callers s !! id with
  | Some (mkCaller Waiting (Some f)) => Some (response_of f, finish s id false)
  | _ => None
  end.

Definition call_expire (s : IpcBus) (id : N) : option IpcBus :=
  match callers s !! id with
  | Some (mkCaller Waiting None) =>
      Some (with_calls s (pending_replies s) (<[id := mkCaller TimedOut None]> (callers s)))
  | _ => None
  end.

Definition call_withdraw (s : IpcBus) (id : N) : option (Result Response IpcFault * IpcBus) :=
  match callers s !! id with
  | Some (mkCaller TimedOut _) => Some (Err Timeout, finish s id true)
  | _ => None
  end.

(** The whole call, when [others] is what the other threads do to the bus while it
    waits. *)
Definition ipc_call (others : IpcBus -> IpcBus) (s : IpcBus) (chan : Channel) (req : Request) :
    option (Result Response IpcFault * IpcBus) :=
  let '(id, s) := call_begin s in
  match call_send s id chan req with
  | (Some r, _, s) => Some (r, s)
  | (None, _, s) =>
      let s := others s in
      match call_receive s id with
      | Some done => Some done
      | None => s ← call_expire s id; call_withdraw s id
      end
  end.

Definition ipc_notify (s : IpcBus) (chan : Channel) (note : Notification) : Result N IpcFault * IpcBus :=
  send s (object_id (endpoint chan))
    (mkFrame HYIP_MAGIC WIRE_VERSION (chan_schema chan) NOTIFY 0 (Some (endpoint chan)) (note_op note)
       (Payload (note_payload note))).

(** [Receiver::recv]: [None] waits; without a sender and empty it fails. *)
Definition recv_raw (s : IpcBus) (q : N) : option (Result Frame IpcFault * IpcBus) :=
  match queues s !! q with
  | Some (mkQueue (f :: l) b) => Some (Ok f, with_queues s (<[q := mkQueue l b]> (queues s)))
  | _ => if decide (map_Forall (fun _ q' => q' <> q) (endpoints s)) then Some (Err PeerUnreachable, s) else None
  end.

(** A reply goes into the slot of the call it answers, once. *)
Definition reply_with (s : IpcBus) (f : Frame) : Result unit IpcFault * IpcBus :=
  let id := request_id f in
  if decide (id ∈ pending_replies s) then
    let pending := pending_replies s ∖ {[id]} in
    match callers s !! id with
    | Some c => (Ok tt, with_calls s pending (<[id := mkCaller (phase c) (Some f)]> (callers s)))
    | None => (Err PeerUnreachable, with_calls s pending (callers s))
    end
  else (Err PeerUnreachable, s).

Definition reply_frame (id : N) (payload : list N) : Frame :=
  mkFrame HYIP_MAGIC WIRE_VERSION 0 REPLY id None 0 (Payload payload).

Definition fault_frame (id : N) (e : Fault) : Frame :=
  mkFrame HYIP_MAGIC WIRE_VERSION 0 (N.lor REPLY ERROR) id None 0 (FaultBody e).

Definition reply (s : IpcBus) (id : N) (payload : list N) : Result unit IpcFault * IpcBus :=
  reply_with s (reply_frame id payload).

Definition reply_fault (s : IpcBus) (id : N) (e : Fault) : Result unit IpcFault * IpcBus :=
  reply_with s (fault_frame id e).

Section monitored.
Context {M : Type} `{Authority M}.

Definition region_map (now : Instant) (m : M) (d : RegionDescriptor) (required : RightsMask) : Result (list N) IpcFault :=
  match authorize now m (region_cap d) required with
  | Err e => Err (Kernel e)
  | Ok _ => Ok (region_data d)
  end.

Definition channel_open (now : Instant) (m : M) (t : CapabilityToken) (schema : N) (c : ChannelClass) :
    Result Channel IpcFault :=
  match authorize now m t WRITE with
  | Err _ => Err NoSuchCapability
  | Ok _ => Ok (mkChannel t schema Local c)
  end.

Definition authenticate (now : Instant) (m : M) (s : IpcBus) (f : Frame) (required : RightsMask) :
    Result AuthenticatedCall IpcFault * IpcBus :=
  let call := has_flag (flags f) CALL in
  match cap_token f with
  | None =>
      (Err (Kernel InsufficientRights), if call then (reply_fault s (request_id f) InsufficientRights).2 else s)
  | Some t =>
      match authorize now m t required with
      | Err e => (Err (Kernel e), if call then (reply_fault s (request_id f) e).2 else s)
      | Ok _ => (Ok (mkCall (request_id f) (op f) (body f) call), s)
      end
  end.

Definition recv_authenticated (now : Instant) (m : M) (s : IpcBus) (q : N) (required : RightsMask) :
    option (Result AuthenticatedCall IpcFault * IpcBus) :=
  match recv_raw s q with
  | None => None
  | Some (Err e, s) => Some (Err e, s)
  | Some (Ok f, s) => Some (authenticate now m s f required)
  end.

End monitored.

(** ** Interleavings *)

(** What can be seen of a step. *)
Inductive event : Type :=
| Sent (q : N) (f : Frame)
| Received (q : N) (f : Frame)
| Replied (f : Frame)
| Returned (id : N) (r : Result Response IpcFault).

Inductive bus_step : IpcBus -> list event -> IpcBus -> Prop :=
| step_create s object : bus_step s [] (create_endpoint s object).2
| step_close s object : bus_step s [] (close_endpoint s object)
| step_drop s q : bus_step s [] (drop_receiver s q)
| step_begin s : next_request_id s + 1 < two64 -> bus_step s [] (call_begin s).2
| step_send s id c chan req q s' :
    callers s !! id = Some c -> phase c = Preparing -> call_send s id chan req = (None, Some q, s') ->
    bus_step s [Sent q (call_frame id chan req)] s'
| step_unsent s id c chan req r s' :
    callers s !! id = Some c -> phase c = Preparing -> call_send s id chan req = (Some r, None, s') ->
    bus_step s [Returned id r] s'
| step_notify s object f q s' :
    has_flag (flags f) CALL = false -> send s object f = (Ok q, s') -> bus_step s [Sent q f] s'
| step_recv s q f s' : recv_raw s q = Some (Ok f, s') -> bus_step s [Received q f] s'
| step_reply s f s' : reply_with s f = (Ok tt, s') -> bus_step s [Replied f] s'
| step_no_reply s f e s' : reply_with s f = (Err e, s') -> bus_step s [] s'
| step_receive s id r s' : call_receive s id = Some (r, s') -> bus_step s [Returned id r] s'
| step_expire s id s' : call_expire s id = Some s' -> bus_step s [] s'
| step_withdraw s id r s' : call_withdraw s id = Some (r, s') -> bus_step s [Returned id r] s'.

Inductive bus_run : list event -> IpcBus -> Prop :=
| run_none : bus_run [] new
| run_more tr s evs s' : bus_run tr s -> bus_step s evs s' -> bus_run (tr ++ evs) s'.

(** What was put into a queue and taken out of it, the replies to a call and its
    results, and the ids of the calls sent, each in order. *)
Definition sent (q : N) (tr : list event) : list Frame :=
  omap (fun e => match e with Sent q' f => if q' =? q then Some f else None | _ => None end) tr.
Definition received (q : N) (tr : list event) : list Frame :=
  omap (fun e => match e with Received q' f => if q' =? q then Some f else None | _ => None end) tr.
Definition replies (id : N) (tr : list event) : list Frame :=
  omap (fun e => match e with Replied f => if request_id f =? id then Some f else None | _ => None end) tr.
Definition returns (id : N) (tr : list event) : list (Result Response IpcFault) :=
  omap (fun e => match e with Returned id' r => if id' =? id then Some r else None | _ => None end) tr.
Definition calls_sent (tr : list event) : list N :=
  omap (fun e => match e with Sent _ f => if has_flag (flags f) CALL then Some (request_id f) else None | _ => None end) tr.

(** What a call that returned may have returned, given the replies to it. *)
Definition explained (fs : list Frame) (r : Result Response IpcFault) : Prop :=
  r = Err Timeout \/ r = Err PeerUnreachable \/ exists f, fs = [f] /\ r = response_of f.

(** Where one call stands. *)
Inductive call_state (s : IpcBus) (tr : list event) (id : N) : Prop :=
| not_begun :
    next_request_id s <= id -> id ∉ pending_replies s -> callers s !! id = None ->
    replies id tr = [] -> returns id tr = [] -> id ∉ calls_sent tr -> call_state s tr id
| under_way c :
    id < next_request_id s -> callers s !! id = Some c -> (id ∈ pending_replies s <-> slot c = None) ->
    replies id tr = option_list (slot c) -> returns id tr = [] -> (phase c = Preparing -> id ∉ calls_sent tr) ->
    call_state s tr id
| over r :
    id < next_request_id s -> id ∉ pending_replies s -> callers s !! id = None ->
    (length (replies id tr) <= 1)%nat -> returns id tr = [r] -> explained (replies id tr) r -> call_state s tr id.

Record bus_inv (tr : list event) (s : IpcBus) : Prop := {
  inv_queues : forall q, (next_queue s <= q -> queues s !! q = None)
    /\ sent q tr = received q tr ++ match queues s !! q with Some x => items x | None => [] end;
  inv_calls : forall id, call_state s tr id;
  inv_ids : NoDup (calls_sent tr)
}.

Ltac trace_app := unfold sent, received, replies, returns, calls_sent in *; rewrite ?omap_app; simpl; rewrite ?app_nil_r.

(** A step that leaves everything about a call as it was. *)
Lemma call_state_frame s tr s' evs id :
  (next_request_id s' <= id <-> next_request_id s <= id) -> (id ∈ pending_replies s' <-> id ∈ pending_replies s) ->
  callers s' !! id = callers s !! id -> replies id evs = [] -> returns id evs = [] -> id ∉ calls_sent evs ->
  call_state s tr id -> call_state s' (tr ++ evs) id.
Proof.
  intros Hn Hp Hc Hr1 Hr2 Hs Hst.
  assert (Hr : replies id (tr ++ evs) = replies id tr) by (unfold replies in *; by rewrite omap_app, Hr1, app_nil_r).
  assert (Ht : returns id (tr ++ evs) = returns id tr) by (unfold returns in *; by rewrite omap_app, Hr2, app_nil_r).
  assert (Hcs : id ∈ calls_sent (tr ++ evs) <-> id ∈ calls_sent tr).
  { unfold calls_sent in *. rewrite omap_app, elem_of_app. naive_solver. }
  destruct Hst as [H1 H2 H3 H4 H5 H6|c H1 H2 H3 H4 H5 H6|r H1 H2 H3 H4 H5 H6].
  - apply not_begun; rewrite ?Hr, ?Ht, ?Hcs, ?Hc, ?Hp; try done. by apply Hn.
  - apply (under_way _ _ _ c); rewrite ?Hr, ?Ht, ?Hcs, ?Hc, ?Hp; try done. lia.
  - apply (over _ _ _ r); rewrite ?Hr, ?Ht, ?Hcs, ?Hc, ?Hp; try done. lia.
Qed.

(** A queue's part of the invariant under a step that is seen as [evs]. *)
Lemma queue_frame s tr s' evs :
  next_queue s' = next_queue s -> queues s' = queues s -> (forall q, sent q evs = []) -> (forall q, received q evs = []) ->
  (forall q, (next_queue s <= q -> queues s !! q = None)
     /\ sent q tr = received q tr ++ match queues s !! q with Some x => items x | None => [] end) ->
  forall q, (next_queue s' <= q -> queues s' !! q = None)
     /\ sent q (tr ++ evs) = received q (tr ++ evs) ++ match queues s' !! q with Some x => items x | None => [] end.
Proof.
  intros -> -> Hs Hr Hq q. destruct (Hq q) as [? Heq]. split; [done|].
  unfold sent, received in *. by rewrite !omap_app, Hs, Hr, !app_nil_r.
Qed.

Lemma send_ok s object f q s' :
  send s object f = (Ok q, s') ->
  exists l, queues s !! q = Some (mkQueue l true) /\ s' = with_queues s (<[q := mkQueue (l ++ [f]) true]> (queues s)).
Proof.
  unfold send. destruct (endpoints s !! object) as [q'|]; [|done].
  destruct (queues s !! q') as [[l []]|] eqn:Hq; [|done|done]. intros [= <- <-]. by exists l.
Qed.

Lemma send_err s object f e s' : send s object f = (Err e, s') -> e = PeerUnreachable /\ s' = s.
Proof.
  unfold send. destruct (endpoints s !! object) as [q'|]; [|naive_solver].
  destruct (queues s !! q') as [[l []]|]; naive_solver.
Qed.

(** Putting a frame into a queue, and taking one out. *)
Lemma queue_put tr s q l f cs pending nq :
  bus_inv tr s -> queues s !! q = Some (mkQueue l true) -> next_queue s = nq ->
  forall q', (nq <= q' -> <[q := mkQueue (l ++ [f]) true]> (queues s) !! q' = None)
    /\ sent q' (tr ++ [Sent q f])
       = received q' (tr ++ [Sent q f])
         ++ match queues (with_calls (with_queues s (<[q := mkQueue (l ++ [f]) true]> (queues s))) cs pending) !! q' with
            | Some x => items x | None => [] end.
Proof.
  intros [Hq _ _] Hl <- q'. destruct (Hq q') as [Hfresh Heq]. trace_app.
  destruct (decide (q = q')) as [<-|Hne].
  - rewrite lookup_insert_eq, N.eqb_refl, Heq, Hl. simpl. split; [|by rewrite app_assoc].
    intros Hge. by rewrite Hfresh in Hl.
  - rewrite lookup_insert_ne by done. assert (q =? q' = false) as -> by (by apply N.eqb_neq). rewrite app_nil_r.
    by split.
Qed.

Lemma queue_take tr s q l b f :
  bus_inv tr s -> queues s !! q = Some (mkQueue (f :: l) b) ->
  forall q', (next_queue s <= q' -> <[q := mkQueue l b]> (queues s) !! q' = None)
    /\ sent q' (tr ++ [Received q f])
       = received q' (tr ++ [Received q f])
         ++ match <[q := mkQueue l b]> (queues s) !! q' with Some x => items x | None => [] end.
Proof.
  intros [Hq _ _] Hl q'. destruct (Hq q') as [Hfresh Heq]. trace_app.
  destruct (decide (q = q')) as [<-|Hne].
  - rewrite lookup_insert_eq, N.eqb_refl, Heq, Hl. simpl. split; [|by rewrite <- app_assoc].
    intros Hge. by rewrite Hfresh in Hl.
  - rewrite lookup_insert_ne by done. assert (q =? q' = false) as -> by (by apply N.eqb_neq). rewrite app_nil_r.
    by split.
Qed.

Lemma recv_raw_ok s q f s' :
  recv_raw s q = Some (Ok f, s') ->
  exists l b, queues s !! q = Some (mkQueue (f :: l) b) /\ s' = with_queues s (<[q := mkQueue l b]> (queues s)).
Proof.
  unfold recv_raw. destruct (queues s !! q) as [[[|f' l] b]|]; [|intros [= <- <-]; by exists l, b|]; destruct (decide _); naive_solver.
Qed.

Lemma reply_with_cases s f r s' :
  reply_with s f = (r, s') ->
  (exists c, r = Ok tt /\ request_id f ∈ pending_replies s /\ callers s !! request_id f = Some c
     /\ s' = with_calls s (pending_replies s ∖ {[request_id f]})
               (<[request_id f := mkCaller (phase c) (Some f)]> (callers s)))
  \/ (r = Err PeerUnreachable /\ (request_id f ∈ pending_replies s -> callers s !! request_id f = None)
      /\ (s' = s \/ s' = with_calls s (pending_replies s ∖ {[request_id f]}) (callers s))).
Proof.
  unfold reply_with. destruct (decide _) as [Hin|Hni]; [|intros [= <- <-]; right; naive_solver].
  destruct (callers s !! request_id f) as [c|] eqn:Hc; intros [= <- <-]; [left; by exists c|right; naive_solver].
Qed.

Lemma finish_other s id id' w :
  id <> id' -> callers (finish s id w) !! id' = callers s !! id'
  /\ (id' ∈ pending_replies (finish s id w) <-> id' ∈ pending_replies s).
Proof.
  intros Hne. unfold finish. simpl. rewrite lookup_delete_ne by done. split; [done|]. destruct w; set_solver.
Qed.

(** The end of a call. *)
Lemma call_over s tr id c w r :
  call_state s tr id -> callers s !! id = Some c -> (w = true \/ is_Some (slot c)) ->
  (forall fs, fs = option_list (slot c) -> explained fs r) ->
  call_state (finish s id w) (tr ++ [Returned id r]) id.
Proof.
  intros Hst Hc Hw Hex. destruct Hst as [H1 H2 H3 H4 H5 H6|c' H1 H2 H3 H4 H5 H6|r' H1 H2 H3 H4 H5 H6]; [congruence| |congruence].
  assert (c' = c) as -> by congruence. apply (over _ _ _ r); trace_app.
  - done.
  - destruct w; [set_solver|]. destruct Hw as [?|[f Hf]]; [done|]. rewrite H3, Hf. done.
  - apply lookup_delete_eq.
  - rewrite H4. destruct (slot c); simpl; lia.
  - by rewrite N.eqb_refl, H5.
  - by apply Hex.
Qed.

(** A step that returns from the call [id] and touches no queue. *)
Lemma inv_return tr s id c w r :
  bus_inv tr s -> callers s !! id = Some c -> (w = true \/ is_Some (slot c)) ->
  (forall fs, fs = option_list (slot c) -> explained fs r) -> bus_inv (tr ++ [Returned id r]) (finish s id w).
Proof.
  intros [Hq Hc Hn] Hid Hw Hex. constructor.
  - by apply (queue_frame s).
  - intros id'. destruct (decide (id = id')) as [<-|Hne]; [by eapply call_over|].
    destruct (finish_other s id id' w Hne) as [Hcl Hp]. apply (call_state_frame s); try done; [|by trace_app; apply not_elem_of_nil].
    trace_app. by assert (id =? id' = false) as -> by (by apply N.eqb_neq).
  - trace_app. done.
Qed.

(** A step on the endpoints alone. *)
Lemma inv_endpoints tr s s' :
  bus_inv tr s -> pending_replies s' = pending_replies s -> callers s' = callers s ->
  next_request_id s' = next_request_id s ->
  (forall q, (next_queue s' <= q -> queues s' !! q = None)
     /\ match queues s' !! q with Some x => items x | None => [] end = match queues s !! q with Some x => items x | None => [] end) ->
  bus_inv (tr ++ []) s'.
Proof.
  intros [Hq Hc Hn] Hp Hca Hnx Hqs. rewrite app_nil_r. constructor; [|intros id; rewrite <- (app_nil_r tr)|done].
  - intros q. destruct (Hqs q) as [Hf ->]. split; [done|]. apply Hq.
  - apply (call_state_frame s); rewrite ?Hp, ?Hca, ?Hnx; try done. by apply not_elem_of_nil.
Qed.

Lemma inv_create tr s object : bus_inv tr s -> bus_inv (tr ++ []) (create_endpoint s object).2.
Proof.
  intros Hinv. apply (inv_endpoints _ s); try done. intros q. simpl. destruct (inv_queues _ _ Hinv q) as [Hf _]. split.
  - intros Hge. rewrite lookup_insert_ne by lia. apply Hf. lia.
  - destruct (decide (next_queue s = q)) as [<-|Hne]; [|by rewrite lookup_insert_ne].
    rewrite lookup_insert_eq, Hf by lia. done.
Qed.

Lemma inv_drop tr s q : bus_inv tr s -> bus_inv (tr ++ []) (drop_receiver s q).
Proof.
  intros Hinv. apply (inv_endpoints _ s); try done. intros q'. simpl. destruct (inv_queues _ _ Hinv q') as [Hf _].
  rewrite lookup_alter. destruct (decide (q = q')) as [<-|Hne]; [|done]. split.
  - intros Hge. by rewrite Hf.
  - by destruct (queues s !! q) as [[]|].
Qed.

Lemma inv_begin tr s : next_request_id s + 1 < two64 -> bus_inv tr s -> bus_inv (tr ++ []) (call_begin s).2.
Proof.
  intros Hlt [Hq Hc Hn]. rewrite app_nil_r. constructor; [done| |done]. intros id. specialize (Hc id). simpl.
  destruct (decide (next_request_id s = id)) as [<-|Hne].
  - destruct Hc as [H1 H2 H3 H4 H5 H6|c H1|r H1]; [|lia|lia].
    apply (under_way _ _ _ (mkCaller Preparing None)); simpl; try done.
    + rewrite u64_add_small by done. lia.
    + by rewrite lookup_insert_eq.
    + set_solver.
  - rewrite <- (app_nil_r tr). apply (call_state_frame s); try done; simpl.
    + rewrite u64_add_small by done. lia.
    + set_solver.
    + by rewrite lookup_insert_ne.
    + apply not_elem_of_nil.
Qed.

Lemma inv_call_send tr s id c chan req q s' :
  bus_inv tr s -> callers s !! id = Some c -> phase c = Preparing -> call_send s id chan req = (None, Some q, s') ->
  bus_inv (tr ++ [Sent q (call_frame id chan req)]) s'.
Proof.
  intros Hinv Hid Hph. unfold call_send. destruct (send _ _ _) as [[q'|e] s1] eqn:Hs; intros [= <- <-].
  apply send_ok in Hs as (l & Hl & ->). pose proof Hinv as [Hq Hc Hn].
  assert (Hni : id ∉ calls_sent tr) by (destruct (Hc id); naive_solver). constructor.
  - by apply (queue_put _ _ _ l).
  - intros id'. destruct (decide (id = id')) as [<-|Hne].
    + destruct (Hc id) as [? ? H3|c' H1 H2 H3 H4 H5 H6|? ? ? H3]; [congruence| |congruence].
      assert (c' = c) as -> by congruence. apply (under_way _ _ _ (mkCaller Waiting (slot c))); simpl; trace_app; try done.
      by rewrite lookup_alter_eq, Hid.
    + apply (call_state_frame s); try done; simpl; [by rewrite lookup_alter_ne|].
      unfold calls_sent. simpl. by intros ->%list_elem_of_singleton.
  - unfold calls_sent in *. rewrite omap_app. simpl. apply NoDup_app. split; [done|]. split; [|apply NoDup_singleton].
    intros x Hx ->%list_elem_of_singleton. done.
Qed.

Lemma inv_notify tr s object f q s' :
  bus_inv tr s -> has_flag (flags f) CALL = false -> send s object f = (Ok q, s') -> bus_inv (tr ++ [Sent q f]) s'.
Proof.
  intros Hinv Hf (l & Hl & ->)%send_ok. pose proof Hinv as [Hq Hc Hn]. constructor.
  - by apply (queue_put _ s q l f (pending_replies s) (callers s)).
  - intros id. apply (call_state_frame s); try done. unfold calls_sent. simpl. rewrite Hf. apply not_elem_of_nil.
  - trace_app. rewrite Hf. by rewrite app_nil_r.
Qed.

Lemma inv_recv tr s q f s' : bus_inv tr s -> recv_raw s q = Some (Ok f, s') -> bus_inv (tr ++ [Received q f]) s'.
Proof.
  intros Hinv (l & b & Hl & ->)%recv_raw_ok. pose proof Hinv as [Hq Hc Hn]. constructor.
  - exact (queue_take tr s q l b f Hinv Hl).
  - intros id. apply (call_state_frame s); try done. apply not_elem_of_nil.
  - trace_app. done.
Qed.

Lemma inv_reply tr s f s' : bus_inv tr s -> reply_with s f = (Ok tt, s') -> bus_inv (tr ++ [Replied f]) s'.
Proof.
  intros [Hq Hc Hn] [(c & _ & Hp & Hid & ->)|(? & _)]%reply_with_cases; [|done]. constructor.
  - by apply (queue_frame s).
  - intros id. destruct (decide (request_id f = id)) as [<-|Hne].
    + destruct (Hc (request_id f)) as [? ? H3|c' H1 H2 H3 H4 H5 H6|? ? ? H3]; [congruence| |congruence].
      assert (c' = c) as -> by congruence. apply (under_way _ _ _ (mkCaller (phase c) (Some f))); simpl; trace_app; try done.
      * by rewrite lookup_insert_eq.
      * set_solver.
      * rewrite N.eqb_refl, H4. apply H3 in Hp as ->. done.
    + apply (call_state_frame s); try done; simpl.
      * set_solver.
      * by rewrite lookup_insert_ne.
      * unfold replies. simpl. by assert (request_id f =? id = false) as -> by (by apply N.eqb_neq).
      * apply not_elem_of_nil.
  - trace_app. done.
Qed.

Lemma inv_no_reply tr s f e s' : bus_inv tr s -> reply_with s f = (Err e, s') -> bus_inv (tr ++ []) s'.
Proof.
  intros [Hq Hc Hn] [(? & ? & _)|(_ & Hno & Hs)]%reply_with_cases; [done|].
  assert (Hp : request_id f ∉ pending_replies s).
  { intros Hp. specialize (Hno Hp). destruct (Hc (request_id f)); [done|congruence|done]. }
  assert (Hs' : s' = with_calls s (pending_replies s ∖ {[request_id f]}) (callers s)).
  { destruct Hs as [->|?]; [|done]. replace (pending_replies s ∖ {[request_id f]}) with (pending_replies s) by set_solver.
    by destruct s. }
  rewrite Hs', app_nil_r. constructor; [done| |done]. intros id. rewrite <- (app_nil_r tr).
  apply (call_state_frame s); try done; [set_solver|]. apply not_elem_of_nil.
Qed.

Lemma inv_expire tr s id s' : bus_inv tr s -> call_expire s id = Some s' -> bus_inv (tr ++ []) s'.
Proof.
  intros [Hq Hc Hn]. unfold call_expire. destruct (callers s !! id) as [[[] [f|]]|] eqn:Hid; try done. intros [= <-].
  rewrite app_nil_r. constructor; [done| |done]. intros id'. destruct (decide (id = id')) as [<-|Hne].
  - destruct (Hc id) as [? ? H3|c' H1 H2 H3 H4 H5 H6|? ? ? H3]; [congruence| |congruence]. rewrite Hid in H2. simplify_eq/=.
    apply (under_way _ _ _ (mkCaller TimedOut None)); simpl; try done. by rewrite lookup_insert_eq.
  - rewrite <- (app_nil_r tr). apply (call_state_frame s); try done; simpl; [by rewrite lookup_insert_ne|apply not_elem_of_nil].
Qed.

Lemma bus_inv_step tr s evs s' : bus_inv tr s -> bus_step s evs s' -> bus_inv (tr ++ evs) s'.
Proof.
  intros Hinv Hst. destruct Hst as [s object|s object|s q|s Hlt|s id c chan req q s' Hid Hph Hs|s id c chan req r s' Hid Hph Hs
    |s object f q s' Hf Hs|s q f s' Hs|s f s' Hs|s f e s' Hs|s id r s' Hs|s id s' Hs|s id r s' Hs].
  - by apply inv_create.
  - apply (inv_endpoints _ s); try done. intros q. split; [|done]. by apply (inv_queues _ _ Hinv q).
  - by apply inv_drop.
  - by apply inv_begin.
  - by eapply inv_call_send.
  - unfold call_send in Hs. destruct (send _ _ _) as [[q|e] s1] eqn:Hsd; simplify_eq.
    apply send_err in Hsd as [-> ->]. eapply inv_return; [done..|by left|]. intros fs _. right. by left.
  - by eapply inv_notify.
  - by eapply inv_recv.
  - by eapply inv_reply.
  - by eapply inv_no_reply.
  - unfold call_receive in Hs. destruct (callers s !! id) as [[[] [f|]]|] eqn:Hid; simplify_eq.
    eapply inv_return; [done..|right; by exists f|]. intros fs ->. right. right. by exists f.
  - by eapply inv_expire.
  - unfold call_withdraw in Hs. destruct (callers s !! id) as [[[] sl]|] eqn:Hid; simplify_eq.
    eapply inv_return; [done..|by left|]. intros fs _. by left.
Qed.

Lemma bus_inv_run tr s : bus_run tr s -> bus_inv tr s.
Proof.
  induction 1 as [|tr s evs s' _ IH Hst]; [|by eapply bus_inv_step].
  constructor; [done|intros id; apply not_begun; simpl; [lia|set_solver|done|done|done|apply not_elem_of_nil]|constructor].
Qed.

(** ** Theorems *)

(** C22. Calls and replies match, whatever the interleaving of clients, servers,
    time-outs, closed endpoints and dropped receivers. Each queue delivers the
    frames put into it in order, without loss or repetition. No two calls are sent
    with the same id; a call gets at most one reply and returns at most once, and
    what it returns is that reply, or a time-out, or that nobody could be reached.
    A reply that has arrived can be taken by the waiting call, and a waiting call
    that has none accepts one and returns it. *)
Theorem rpc_correct tr s :
  bus_run tr s ->
  (forall q, sent q tr = received q tr ++ match queues s !! q with Some x => items x | None => [] end)
  /\ NoDup (calls_sent tr)
  /\ (forall id, (length (replies id tr) <= 1)%nat /\ (length (returns id tr) <= 1)%nat)
  /\ (forall id r, r ∈ returns id tr -> explained (replies id tr) r)
  /\ (forall id c f, callers s !! id = Some c -> phase c = Waiting -> replies id tr = [f] ->
        exists s', call_receive s id = Some (response_of f, s'))
  /\ (forall c f, callers s !! request_id f = Some c -> replies (request_id f) tr = [] ->
        exists s', reply_with s f = (Ok tt, s')
        /\ (phase c = Waiting -> exists s'', call_receive s' (request_id f) = Some (response_of f, s''))).
Proof.
  intros Hinv%bus_inv_run. destruct Hinv as [Hq Hc Hn]. split_and!.
  - intros q. apply Hq.
  - done.
  - intros id. destruct (Hc id) as [? ? ? Hr Ht|c ? ? ? Hr Ht|r ? ? ? Hr Ht]; rewrite ?Ht; rewrite ?Hr; simpl; try lia.
    destruct (slot c); simpl; lia.
  - intros id r Hr. destruct (Hc id) as [? ? ? ? Ht|c ? ? ? ? Ht|r' ? ? ? ? Ht Hex]; rewrite Ht in Hr.
    + by apply not_elem_of_nil in Hr.
    + by apply not_elem_of_nil in Hr.
    + by apply list_elem_of_singleton in Hr as ->.
  - intros id c f Hid Hph Hr. destruct (Hc id) as [? ? Hno|c' ? Hid' ? Hr'|? ? ? Hno]; [congruence| |congruence].
    assert (c' = c) as -> by congruence.
    assert (Hsl : slot c = Some f) by (rewrite Hr in Hr'; by destruct (slot c); simplify_eq/=).
    exists (finish s id false). unfold call_receive. rewrite Hid. destruct c. simpl in *. by subst.
  - intros c f Hid Hr. destruct (Hc (request_id f)) as [? ? Hno|c' ? Hid' Hp Hr'|? ? ? Hno]; [congruence| |congruence].
    assert (c' = c) as -> by congruence. destruct (slot c) eqn:Hsl; [by rewrite Hr in Hr'|].
    unfold reply_with. rewrite decide_True by (by apply Hp). rewrite Hid. eexists. split; [done|]. intros ->.
    unfold call_receive. simpl. rewrite lookup_insert_eq. by eexists.
Qed.

Section authentication.
Context {M : Type} `{Authority M}.

(** A server handles a frame only after the monitor has accepted, at that
    moment, the token it carries for the rights the server asks for; a revocation
    after the frame was sent counts. The frame's contents are handed over as they
    came and the bus is left alone. A frame that is refused reaches nobody: if it
    was a call, its caller gets the monitor's fault as the result of the call, and
    otherwise nothing happens. *)
Theorem authenticate_spec tr s now (m : M) f required r s' :
  bus_run tr s -> authenticate now m s f required = (r, s') ->
  match r with
  | Ok call => s' = s /\ (exists t, cap_token f = Some t /\ authorize now m t required = Ok tt)
      /\ call = mkCall (request_id f) (op f) (body f) (has_flag (flags f) CALL)
  | Err e => exists fault, e = Kernel fault
      /\ match cap_token f with
         | None => fault = InsufficientRights
         | Some t => authorize now m t required = Err fault
         end
      /\ (has_flag (flags f) CALL = false -> s' = s)
      /\ (has_flag (flags f) CALL = true -> forall c, callers s !! request_id f = Some c -> phase c = Waiting ->
          replies (request_id f) tr = [] ->
          exists s'', call_receive s' (request_id f) = Some (Err (Kernel fault), s''))
      /\ queues s' = queues s
  end.
Proof.
  intros Hrun Ha. pose proof (bus_inv_run _ _ Hrun) as [_ Hc _].
  assert (Hdeny : forall fault, let s1 := if has_flag (flags f) CALL then (reply_fault s (request_id f) fault).2 else s in
    (has_flag (flags f) CALL = false -> s1 = s)
    /\ (has_flag (flags f) CALL = true -> forall c, callers s !! request_id f = Some c -> phase c = Waiting ->
        replies (request_id f) tr = [] -> exists s'', call_receive s1 (request_id f) = Some (Err (Kernel fault), s''))
    /\ queues s1 = queues s).
  { intros fault s1. subst s1. split_and!.
    - by intros ->.
    - intros -> c Hid Hph Hr. destruct (Hc (request_id f)) as [? ? Hno|c' ? Hid' Hp Hr'|? ? ? Hno]; [congruence| |congruence].
      assert (c' = c) as -> by congruence. destruct (slot c) eqn:Hsl; [by rewrite Hr in Hr'|].
      unfold reply_fault, reply_with. simpl. rewrite decide_True by (by apply Hp). rewrite Hid, Hph.
      unfold call_receive. simpl. rewrite lookup_insert_eq. by eexists.
    - destruct (has_flag (flags f) CALL); [|done].
      destruct (reply_fault s (request_id f) fault) as [r1 s1] eqn:Hrf. unfold reply_fault in Hrf.
      apply reply_with_cases in Hrf as [(c & _ & _ & _ & ->)|(_ & _ & [->| ->])]; done. }
  unfold authenticate in Ha. cbv zeta in Ha. destruct (cap_token f) as [t|] eqn:Ht.
  - destruct (authorize now m t required) as [[]|fault] eqn:Hau; simplify_eq.
    + split; [done|]. split; [by exists t|done].
    + exists fault. split; [done|]. split; [done|]. apply Hdeny.
  - simplify_eq. eexists. split; [done|]. split; [done|]. apply Hdeny.
Qed.
End authentication.

(** ** A concrete run *)

Module IpcExample.

Definition token : CapabilityToken := mkToken 1 7 (rights_or READ WRITE) 0 1 None.
Definition chan : Channel := mkChannel token 3 Local Notify.
Definition ask : Request := mkRequest 5 [1; 2; 3].

(** A bus with the endpoint of object 7, whose queue is 0. *)
Definition served : IpcBus := (create_endpoint new 7).2.

(** The server takes a frame, checks it and sends its payload back. *)
Definition echo (s : IpcBus) : IpcBus :=
  match recv_authenticated 0 tt s 0 WRITE with
  | Some (Ok c, s) =>
      match call_body c with Payload p => (reply s (call_request_id c) p).2 | _ => s end
  | Some (Err _, s) => s
  | None => s
  end.

(** The same server asking for a right the token does not have. *)
Definition strict (s : IpcBus) : IpcBus :=
  match recv_authenticated 0 tt s 0 EXEC with Some (_, s) => s | None => s end.

(** A call on a channel opened for notifications is carried out like any other. *)
Example echo_call : fst <$> ipc_call echo served chan ask = Some (Ok (mkResponse [1; 2; 3])).
Proof. by vm_compute. Qed.

Example refused_call : fst <$> ipc_call strict served chan ask = Some (Err (Kernel InsufficientRights)).
Proof. by vm_compute. Qed.

Example unanswered_call : fst <$> ipc_call (fun s => s) served chan ask = Some (Err Timeout).
Proof. by vm_compute. Qed.

(** The first call and every notification have the request id 0, so a server that
    answers a notification answers that call. *)
Example notification_answers_the_first_call :
  let others s := echo (ipc_notify s chan (mkNotification 5 [9])).2 in
  let stale s := match recv_raw s 0 with Some (_, s) => s | None => s end in
  fst <$> ipc_call (fun s => others (stale s)) served chan ask = Some (Ok (mkResponse [9])).
Proof. by vm_compute. Qed.

(** A reply that arrives after the wait and before the withdrawal is reported as
    delivered, and lost. *)
Definition waiting : IpcBus := (call_send (call_begin served).2 0 chan ask).2.

Example reply_lost_in_the_race :
  exists s, call_expire waiting 0 = Some s /\ (reply s 0 [4]).1 = Ok tt
    /\ fst <$> call_withdraw (reply s 0 [4]).2 0 = Some (Err Timeout).
Proof. eexists. split; [by vm_compute|]. by vm_compute. Qed.

End IpcExample.

Section witnesses.
Import IpcExample.

Lemma waiting_run : bus_run (([] ++ []) ++ [] ++ [Sent 0 (call_frame 0 chan ask)]) waiting.
Proof.
  rewrite app_assoc. eapply run_more; [eapply run_more; [eapply run_more; [apply run_none|]|]|].
  - apply (step_create new 7).
  - by apply step_begin.
  - eapply (step_send _ 0 (mkCaller Preparing None)); by vm_compute.
Defined.

Lemma rpc_correct_witness :
  exists s s', reply waiting 0 [4] = (Ok tt, s) /\ call_receive s 0 = Some (Ok (mkResponse [4]), s').
Proof.
  destruct (rpc_correct _ _ waiting_run) as (_ & _ & _ & _ & _ & Hrep).
  destruct (Hrep (mkCaller Waiting None) (reply_frame 0 [4]) eq_refl eq_refl) as (s & Hs & Hc).
  destruct (Hc eq_refl) as [s' Hr]. by exists s, s'.
Defined.

Lemma authenticate_spec_witness :
  exists s', call_receive (authenticate 0 tt waiting (call_frame 0 chan ask) EXEC).2 0
    = Some (Err (Kernel InsufficientRights), s').
Proof.
  destruct (authenticate 0 tt waiting (call_frame 0 chan ask) EXEC) as [r s'] eqn:Ha.
  pose proof (authenticate_spec _ waiting 0 tt _ _ r s' waiting_run Ha) as Hspec.
  assert (Hr : r = Err (Kernel InsufficientRights)) by (by vm_compute in Ha; injection Ha as <- _).
  rewrite Hr in Hspec. destruct Hspec as (fault & [= <-] & _ & _ & Hcall & _).
  exact (Hcall eq_refl (mkCaller Waiting None) eq_refl eq_refl eq_refl).
Defined.

End witnesses.
