(* ===== verification/IpcTransport.v ===== *)
(** Calls between processes: [crates/hyperion-ipc/src/transport.rs] over Unix
    datagram sockets, without the Noise session, which wraps third-party code.

    Frames travel as JSON with the capability as a claim; the receiver checks the
    claim against its own monitor. Encoding is a pair of functions with the law
    that what was written is read back; what arrives on a socket, in order, is an
    argument of the operations that wait for it. *)
From S2P Require Import Prelude Crypto Capability CapabilityWire Authority Ipc.
Open Scope N_scope.

Section transport.
Context `{Signatures} {Addr : Type}.

Inductive WireFrameBody : Type :=
| WirePayload (bytes : list N)
| WireFault (f : Fault).

Record WireFrame := mkWireFrame {
  wf_magic : N;
  wf_version : N;
  wf_schema_id : N;
  wf_flags : N;
  wf_request_id : N;
  wf_cap_token : option WireToken;
  wf_op : N;
  wf_body : WireFrameBody
}.

(** [serde_json::to_vec] and [from_slice]. *)
Class FrameJson := {
  to_vec : WireFrame -> option (list N);
  from_slice : list N -> option WireFrame;
  from_to : forall w b, to_vec w = Some b -> from_slice b = Some w
}.
Context `{FrameJson}.

Definition MAX_DATAGRAM_BYTES : nat := Pos.to_nat 65536.

Definition from_frame (now : Instant) (f : Frame) : Result WireFrame IpcFault :=
  let? b := match body f with
            | Payload p => Ok (WirePayload p)
            | FaultBody e => Ok (WireFault e)
            | Region _ => Err SchemaMismatch
            end in
  Ok (mkWireFrame (magic f) (version f) (schema_id f) (flags f) (request_id f)
        (wire_from now <$> cap_token f) (op f) b).

Definition with_claim (w : WireFrame) (claim : option WireToken) : WireFrame :=
  mkWireFrame (wf_magic w) (wf_version w) (wf_schema_id w) (wf_flags w) (wf_request_id w) claim (wf_op w) (wf_body w).

Definition wire_frame_bytes (now : Instant) (f : Frame) (claim : option WireToken) : Result (list N) IpcFault :=
  let? w := from_frame now f in
  ok_or (to_vec (with_claim w claim)) SchemaMismatch.

Record IncomingFrame := mkIncoming {
  inc_from : Addr;
  wire : WireFrame
}.

Definition Datagram : Type := list N * Addr.

(** A datagram longer than the buffer is cut. *)
Definition recv_wire_frame (d : Datagram) : Result (WireFrame * Addr) IpcFault :=
  match from_slice (take MAX_DATAGRAM_BYTES d.1) with
  | Some w => Ok (w, d.2)
  | None => Err SchemaMismatch
  end.

(** [send_to]: [reachable] is whether the kernel takes the datagram. *)
Definition send_claim_frame (now : Instant) (reachable : bool) (f : Frame) (claim : option WireToken) :
    Result (list N) IpcFault :=
  let? b := wire_frame_bytes now f claim in
  if reachable then Ok b else Err PeerUnreachable.

Definition wire_response (w : WireFrame) : Result Response IpcFault :=
  match wf_body w with
  | WirePayload p => Ok (mkResponse p)
  | WireFault e => Err (Kernel e)
  end.

Definition is_reply_to (id : N) (w : WireFrame) : bool := has_flag (wf_flags w) REPLY && (wf_request_id w =? id).

(** The loop that waits for the reply: [arrivals] come in before the wait ends
    with [ending], a time-out or an error of the socket. Also what has not been
    taken off the socket. *)
Fixpoint await_reply (id : N) (arrivals : list Datagram) (ending : IpcFault) :
    Result Response IpcFault * list Datagram :=
  match arrivals with
  | [] => (Err ending, [])
  | d :: arrivals =>
      match recv_wire_frame d with
      | Err e => (Err e, arrivals)
      | Ok (w, _) => if is_reply_to id w then (wire_response w, arrivals) else await_reply id arrivals ending
      end
  end.

Definition claim_frame (id : N) (schema : N) (flag : N) (o : N) (p : list N) : Frame :=
  mkFrame HYIP_MAGIC WIRE_VERSION schema flag id None o (Payload p).

(** The counter of an endpoint starts at 1. The result, the bytes sent, the
    counter after it and what is left on the socket. *)
Definition ipc_call_with_claim (now : Instant) (counter : N) (reachable : bool) (claim : WireToken) (schema : N)
    (req : Request) (arrivals : list Datagram) (ending : IpcFault) :
    Result Response IpcFault * option (list N) * N * list Datagram :=
  let id := counter in
  let counter := u64_add counter 1 in
  match send_claim_frame now reachable (claim_frame id schema CALL (req_op req) (req_payload req)) (Some claim) with
  | Err e => (Err e, None, counter, arrivals)
  | Ok b => let '(r, rest) := await_reply id arrivals ending in (r, Some b, counter, rest)
  end.

Definition socket_call (now : Instant) (counter : N) (reachable : bool) (chan : Channel) (req : Request)
    (arrivals : list Datagram) (ending : IpcFault) :=
  ipc_call_with_claim now counter reachable (wire_from now (endpoint chan)) (chan_schema chan) req arrivals ending.

Definition ipc_notify_with_claim (now : Instant) (reachable : bool) (claim : WireToken) (schema : N)
    (note : Notification) : Result (list N) IpcFault :=
  send_claim_frame now reachable (claim_frame 0 schema NOTIFY (note_op note) (note_payload note)) (Some claim).

Definition socket_recv_raw (d : Datagram) : Result IncomingFrame IpcFault :=
  let? p := recv_wire_frame d in Ok (mkIncoming p.2 p.1).

Definition reply_bytes (id : N) (b : WireFrameBody) (extra_flags : N) : Result (list N) IpcFault :=
  ok_or (to_vec (mkWireFrame HYIP_MAGIC WIRE_VERSION 0 (N.lor REPLY extra_flags) id None 0 b)) SchemaMismatch.

(** The clock is read twice to rebuild the token and once more for the rights. *)
Definition validate (now1 now2 now3 : Instant) (m : CapabilityMonitor) (inc : IncomingFrame) (required : RightsMask) :
    Result AuthenticatedCall (bool * Fault) :=
  let w := wire inc in
  let call := has_flag (wf_flags w) CALL in
  match wf_cap_token w with
  | None => Err (call, InsufficientRights)
  | Some wt =>
      let? t := map_err (fun e => (call, e)) (authenticate_wire_token now1 now2 m wt) in
      let? _ := map_err (fun e => (call, e)) (check_rights_ok_result now3 m t required) in
      Ok (mkCall (wf_request_id w) (wf_op w)
            (match wf_body w with WirePayload p => Payload p | WireFault e => FaultBody e end) call)
  end.

Definition reply_to (b : WireFrameBody) (extra_flags : N) (inc : IncomingFrame) : Result (Addr * list N) IpcFault :=
  let? bytes := reply_bytes (wf_request_id (wire inc)) b extra_flags in Ok (inc_from inc, bytes).

Definition socket_reply (inc : IncomingFrame) (p : list N) : Result (Addr * list N) IpcFault :=
  reply_to (WirePayload p) 0 inc.
Definition reply_fault_to (inc : IncomingFrame) (e : Fault) : Result (Addr * list N) IpcFault :=
  reply_to (WireFault e) ERROR inc.

(** Also the datagram sent back to a caller that was refused. *)
Definition socket_authenticate (now1 now2 now3 : Instant) (m : CapabilityMonitor) (inc : IncomingFrame)
    (required : RightsMask) : Result AuthenticatedCall IpcFault * option (Addr * list N) :=
  match validate now1 now2 now3 m inc required with
  | Ok c => (Ok c, None)
  | Err (call, e) =>
      (Err (Kernel e), if call then match reply_fault_to inc e with Ok d => Some d | Err _ => None end else None)
  end.

Definition socket_recv_authenticated (now1 now2 now3 : Instant) (m : CapabilityMonitor) (d : Datagram)
    (required : RightsMask) : Result (AuthenticatedCall * IncomingFrame) IpcFault * option (Addr * list N) :=
  match socket_recv_raw d with
  | Err e => (Err e, None)
  | Ok inc =>
      let '(r, sent) := socket_authenticate now1 now2 now3 m inc required in
      (match r with Ok c => Ok (c, inc) | Err e => Err e end, sent)
  end.

(** ** End to end *)

Definition small (b : list N) : Prop := (length b <= MAX_DATAGRAM_BYTES)%nat.

(** A datagram that a call passes over while it waits: readable, not its reply. *)
Definition passed_over (id : N) (d : Datagram) : Prop :=
  exists w a, recv_wire_frame d = Ok (w, a) /\ is_reply_to id w = false.

Lemma recv_encoded w b (a : Addr) : to_vec w = Some b -> small b -> recv_wire_frame (b, a) = Ok (w, a).
Proof. intros Hb Hs. unfold recv_wire_frame. simpl. rewrite take_ge by done. by rewrite (from_to _ _ Hb). Qed.

Lemma await_skips id skipped rest ending :
  Forall (passed_over id) skipped -> await_reply id (skipped ++ rest) ending = await_reply id rest ending.
Proof.
  induction 1 as [|d l (w & a & Hd & Hno) _ IH]; [done|]. simpl. by rewrite Hd, Hno.
Qed.

Lemma has_reply_flag extra : has_flag (N.lor REPLY extra) REPLY = true.
Proof.
  unfold has_flag. apply N.eqb_eq. rewrite N.land_comm. apply N.bits_inj. intros i.
  rewrite N.land_spec, N.lor_spec. by destruct (N.testbit REPLY i).
Qed.

Lemma await_reply_bytes id b extra rb (a : Addr) skipped rest ending :
  Forall (passed_over id) skipped -> reply_bytes id b extra = Ok rb -> small rb ->
  await_reply id (skipped ++ (rb, a) :: rest) ending
  = (match b with WirePayload p => Ok (mkResponse p) | WireFault e => Err (Kernel e) end, rest).
Proof.
  intros Hsk Hb Hs. rewrite await_skips by done. simpl. unfold reply_bytes in Hb.
  destruct (to_vec _) as [rb'|] eqn:Hv; [|done]. simpl in Hb. simplify_eq.
  rewrite (recv_encoded _ _ _ Hv Hs). unfold is_reply_to. simpl. rewrite has_reply_flag, N.eqb_refl. done.
Qed.

(** A call between processes, end to end. What the caller sends is what the
    server gets: its claim is judged by the server's own monitor, and exactly when
    the claim is accepted and carries the rights asked for the server is handed
    the caller's id, operation and payload. The caller then returns what the server
    answers, a payload or the fault of a refusal, after passing over any readable
    frames that are not its reply; without an answer it returns when its time is
    up, and a datagram it cannot read ends it at once. *)
Theorem socket_round_trip now counter claim schema req b (addr : Addr) :
  send_claim_frame now true (claim_frame counter schema CALL (req_op req) (req_payload req)) (Some claim) = Ok b ->
  small b ->
  exists inc, inc_from inc = addr
  /\ (forall now1 now2 now3 m required,
       (forall t, authenticate_wire_token now1 now2 m claim = Ok t -> check_rights_ok_result now3 m t required = Ok tt ->
          socket_recv_authenticated now1 now2 now3 m (b, addr) required
          = (Ok (mkCall counter (req_op req) (Payload (req_payload req)) true, inc), None))
       /\ (forall e, (authenticate_wire_token now1 now2 m claim = Err e
                     \/ exists t, authenticate_wire_token now1 now2 m claim = Ok t /\ check_rights_ok_result now3 m t required = Err e) ->
            forall rb, reply_fault_to inc e = Ok (addr, rb) -> small rb ->
            socket_recv_authenticated now1 now2 now3 m (b, addr) required = (Err (Kernel e), Some (addr, rb))
            /\ forall srv skipped rest ending, Forall (passed_over counter) skipped ->
                 await_reply counter (skipped ++ (rb, srv) :: rest) ending = (Err (Kernel e), rest)))
  /\ (forall p rb srv skipped rest ending, socket_reply inc p = Ok (addr, rb) -> small rb -> Forall (passed_over counter) skipped ->
       await_reply counter (skipped ++ (rb, srv) :: rest) ending = (Ok (mkResponse p), rest))
  /\ (forall skipped ending, Forall (passed_over counter) skipped -> await_reply counter skipped ending = (Err ending, []))
  /\ (forall skipped d rest ending, Forall (passed_over counter) skipped -> recv_wire_frame d = Err SchemaMismatch ->
       await_reply counter (skipped ++ d :: rest) ending = (Err SchemaMismatch, rest)).
Proof.
  intros Hb Hs. unfold send_claim_frame, wire_frame_bytes, from_frame in Hb. simpl in Hb.
  set (w := with_claim _ _) in Hb. destruct (to_vec w) as [b'|] eqn:Hv; [|done]. simpl in Hb. simplify_eq.
  pose proof (recv_encoded _ _ addr Hv Hs) as Hrecv.
  assert (Hreply : forall bd extra rb, reply_to bd extra (mkIncoming addr w) = Ok (addr, rb) ->
            reply_bytes counter bd extra = Ok rb).
  { intros bd extra rb. unfold reply_to. simpl. destruct (reply_bytes counter bd extra); naive_solver. }
  exists (mkIncoming addr w). split; [done|]. split_and!.
  - intros now1 now2 now3 m required. unfold socket_recv_authenticated, socket_recv_raw. rewrite Hrecv. simpl.
    unfold socket_authenticate, validate. simpl. split.
    + intros t -> Hc. simpl. rewrite Hc. done.
    + intros e He rb Hrb Hsm. split; [|by intros; eapply (await_reply_bytes _ (WireFault e)); [done|by apply Hreply|done]].
      destruct He as [He|(t & He & Hc)]; rewrite He; simpl; [|rewrite Hc; simpl]; by rewrite Hrb.
  - intros p rb srv skipped rest ending Hrb Hsm Hsk.
    by apply (await_reply_bytes _ (WirePayload p) 0); [done|by apply Hreply|done].
  - intros skipped ending Hsk. rewrite <- (app_nil_r skipped). by rewrite await_skips.
  - intros skipped d rest ending Hsk Hd. rewrite await_skips by done. simpl. by rewrite Hd.
Qed.
End transport.

(** ** A concrete run *)

Module TransportExample.
Import Crypto.Toy.

Definition fault_code (e : Fault) : N :=
  match e with
  | Capability.NoSuchCapability => 0 | Revoked => 1 | Expired => 2 | InsufficientRights => 3 | CannotEscalate => 4
  | SignatureInvalid => 5
  end.
Definition fault_of (n : N) : Fault :=
  match n with
  | 0 => Capability.NoSuchCapability | 1 => Revoked | 2 => Expired | 3 => InsufficientRights | 4 => CannotEscalate
  | _ => SignatureInvalid
  end.

(** A frame as a tuple, and the tuple as one number. *)
Definition token_tuple (t : WireToken) :=
  (w_token_id t, w_object_id t, bits (w_rights t), w_generation t, w_origin t, expiry_millis_remaining t, signature t).
Definition frame_tuple (w : WireFrame) :=
  (wf_magic w, wf_version w, wf_schema_id w, wf_flags w, wf_request_id w, token_tuple <$> wf_cap_token w, wf_op w,
   match wf_body w with WirePayload p => inl p | WireFault e => inr (fault_code e) end).
Definition tuple_token '(a, b, r, g, o, e, s) : WireToken := mkWire a b (mkRights r) g o e s.
Definition tuple_frame '(a, b, c, d, e, t, o, x) : WireFrame :=
  mkWireFrame a b c d e (tuple_token <$> t) o
    (match x with inl p => WirePayload p | inr n => WireFault (fault_of n) end).

Lemma tuple_frame_inv w : tuple_frame (frame_tuple w) = w.
Proof. destruct w as [a b c d e [[? ? [] ? ? ? ?]|] o [p|[]]]; reflexivity. Qed.

#[refine, export] Instance toy_json : FrameJson :=
  {| to_vec := fun w => Some [N.pos (encode (frame_tuple w))];
     from_slice := fun b => match b with [N.pos p] => tuple_frame <$> decode p | _ => None end |}.
Proof.
  intros w b [= <-]. rewrite decode_encode. transitivity (Some (tuple_frame (frame_tuple w))); [done|].
  by rewrite tuple_frame_inv.
Defined.

(** A monitor that has issued one token, and the claim of that token. *)
Definition minted := mint_root 0 initial WRITE 1 None.
Definition claim : WireToken := wire_from 0 minted.1.
Definition ask : Request := mkRequest 5 [1; 2; 3].

Definition sent_bytes : list N :=
  match send_claim_frame 0 true (claim_frame 1 3 CALL 5 [1; 2; 3]) (Some claim) with Ok b => b | Err _ => [] end.

(** While a process waits for a reply, a call that another one makes to it is
    taken off its socket and lost. *)
Example waiting_call_discards_requests :
  let '(r, _, _, rest) := ipc_call_with_claim 0 7 true claim 3 ask [(sent_bytes, tt)] Timeout in
  r = Err Timeout /\ rest = [] /\ is_ok (socket_recv_authenticated 0 0 0 (mon minted.2) (sent_bytes, tt) WRITE).1 = true.
Proof. by vm_compute. Qed.

(** Anyone who can reach the socket can end a call: with bytes that are no frame,
    or with a reply of their own, for the sender is not looked at. *)
Example strangers_end_calls :
  (ipc_call_with_claim 0 7 true claim 3 ask [([], tt)] Timeout).1.1.1 = Err SchemaMismatch
  /\ exists b, reply_bytes 7 (WirePayload [6; 6; 6]) 0 = Ok b
     /\ (ipc_call_with_claim 0 7 true claim 3 ask [(b, tt)] Timeout).1.1.1 = Ok (mkResponse [6; 6; 6]).
Proof. split; [by vm_compute|]. eexists. split; [by vm_compute|by vm_compute]. Qed.

End TransportExample.

Section witnesses.
Import Crypto.Toy TransportExample.

Lemma socket_round_trip_witness :
  exists inc, socket_recv_authenticated 0 0 0 (mon minted.2) (sent_bytes, tt) WRITE
    = (Ok (mkCall 1 5 (Payload [1; 2; 3]) true, inc), None).
Proof.
  destruct (socket_round_trip 0 1 claim 3 ask sent_bytes tt) as (inc & _ & Hserve & _).
  - by vm_compute.
  - unfold small, MAX_DATAGRAM_BYTES. transitivity 1%nat; [reflexivity|lia].
  - exists inc. destruct (Hserve 0 0 0 (mon minted.2) WRITE) as [Hok _]. apply (Hok minted.1); by vm_compute.
Defined.

End witnesses.
